(* ===== verification/_CoqProject ===== *)
-Q . S2P
Prelude.v
Json.v
Cursor.v
Error.v
Offset.v
F64.v
Budget.v
LogStream.v
LogStreamCorrect.v
Partitions.v
Topic.v
Takeover.v
TxnLog.v
TxnLogCheckpoint.v
TxnLogCorrect.v
Fence.v
Start.v
SetOffsets.v
Member.v
MemberSound.v
MemberCorrect.v
ExactlyOnce.v
MemberProps.v
Loop.v
Stats.v
Arrow.v
Upsert.v
Dedup.v
Rescan.v
Watermark.v
Lookup.v
Dq.v
Open.v
Delta.v
DeltaCorrect.v
DeltaWindow.v
DeltaLookup.v
DeltaRejects.v
Grain.v
Wire.v
JsonText.v
JsonGrammar.v
JsonNumber.v
JsonWrite.v
JsonCanonical.v
JsonPath.v
JsonHash.v
Schema.v
Fractions.v
Coerce.v
Union.v
Kdi.v
Conform.v
ConformCorrect.v
ConformNested.v
ConformBatch.v
Registry.v
Decode.v
DecodeCorrect.v
DecodeProps.v
RegistryCorrect.v
