(* ===== verification/Prelude.v ===== *)
(** * delta-delta-ingest: verification library

    The program (crate [ddi], src/src/) moves rows into Delta tables, exactly once: from
    another Delta table by following its log (a Delta pipeline, pipeline.rs), or from a Kafka
    topic (a Kafka pipeline, kafka/step.rs).  Both keep their offset in [txn] actions of the
    commit that writes the rows.  This library models the parts that decide what is read, what
    is written and where a restart goes on, and proves them against that promise.

    ** The files, and what they model

    Shared.  Prelude: [result] and its notation, integer widths, generic lemmas.  Json:
    serde_json's values.  Error: src/error.rs.  F64: Rust's [f64].  Arrow: the values and
    batches the program computes with, an interface.  Cursor: source/cursor.rs.  Offset:
    offset.rs and the names of stage.rs.  Budget: budget.rs.  Stats: stats.rs.

    The Delta pipeline.  LogStream, LogStreamCorrect: source/log_stream.rs, which cuts a
    table's history into batches.  Dedup, Rescan: dedup.rs, how rows the target already holds
    are skipped, and how far back a rescan reaches.  Watermark: dbt/watermark.rs, who wrote the
    target last.  Lookup: lookup.rs and pipeline.rs's choice and check of the lookups that enrich
    a batch.  Dq: dq.rs, the table of the rows a target does not take.  Upsert: upsert.rs, one row per key.  Grain: grain.rs, the check that a target
    holds one row per key.  Open: what pipeline.rs decides when a pipeline opens.  Delta: its
    step, with what sink.rs writes of a commit.  DeltaCorrect: any number of processes against
    one target.  DeltaWindow, DeltaLookup: a coverage window and the lookups' tables across
    restarts.  DeltaRejects: what a batch's rejects come to in their table.

    The Kafka pipeline.  Partitions, Topic: kafka/partitions.rs and intervals of a topic.
    Takeover, TxnLog, TxnLogCorrect, Fence: fence.rs, that is offsets' names, the one-pass read
    of a log and the fence.  Start: kafka/start.rs.  SetOffsets: kafka/setoffsets.rs.  Member:
    a member's state and handlers (kafka/step.rs, kafka/rebalance.rs); Loop: the step that
    calls them; MemberSound, MemberCorrect, MemberProps: what they preserve, over a member's
    whole life; ExactlyOnce: several members and one table.  Wire: kafka/decode/wire.rs, where
    an Avro record ends.

    Types.  Schema: Arrow's types and a file read as its table declares it.  Fractions: what a
    cast to an integer would drop, at any depth of an array.  Coerce: a batch cast to the
    target's schema, and the rows set aside (src/schema.rs).

    Kafka rows.  Decode: messages into batches (kafka/decode.rs): a decoder per writer schema,
    chunks, isolation of what does not decode, the adapter over arrow-avro, and what is read of a
    writer schema; DecodeCorrect: what its calls hand over; DecodeProps: what a batch comes to.
    Registry: the Schema Registry client (kafka/registry.rs), its requests, its cache and the
    writer schemas of the union; RegistryCorrect: any number of lookups beside each other.
    Union: the schema put together of a topic's writer schemas (kafka/conform.rs,
    with the metadata columns of kafka/decode.rs).  Kdi: the text kafka-delta-ingest wrote of a
    value (kafka/kdi_text.rs).  Conform: fitting an array to a type by name at every depth, a
    batch to the target ([conform]) or to the union ([align]).  ConformCorrect, ConformNested,
    ConformBatch: where one value lands, as a relation; that fitting an array does that to each
    of its rows; and what it makes of a batch.

    The transforms.  JsonText: transform/jsonval.rs, JSON text as Trino reads and writes it.
    JsonGrammar, JsonNumber, JsonWrite, JsonCanonical, JsonHash: what its parser reads, Java's
    spellings, what is written read again, json_parse's text and a HashMap's order.  JsonPath:
    the functions of transform/json.rs.

    A file has its data and operations first, with the source's names; a name that clashes
    with another in the file or a Rocq one is spelled apart ([done_], [admit_message]).  State
    is passed explicitly: an operation returns the new state with its result also where it
    fails, because what an error leaves behind is part of the behaviour.  Kafka handlers are in
    a state and error monad (Member.[M]).

    ** What is assumed of code that is not here

    Libraries are arguments.  delta-rs's log store is the record [LogStore] (Delta tables a
    pipeline reads) or [LogView] (the log [read_txns] replays); [serves] and [views] say that it
    answers from one history; any read may fail.  Opening takes what
    the two tables answer ([Tables]), a step what its writes come to ([Answers]).  A commit of
    delta-rs is [lands] (DeltaCorrect) and [commit_step] (ExactlyOnce): it lands only if no
    commit since the writer's snapshot has a [txn] of the same app id, and an error does not
    say whether it landed.  librdkafka, the schema registry and the clock are the records the
    handlers of Member and Loop take.  The SQL transform, Arrow's
    casts and orders, parsing of timestamps and statistics are functions, with
    hypotheses in [Arrow] (a total order; a value's text tells it apart).  Every property
    with a hypothesis has a witness on concrete data.

    ** What the theorems show

    Exactly once: [every_message_is_committed_exactly_once] (Kafka) and
    [every_source_file_is_committed_exactly_once] (Delta) hold in every run of the two
    transition systems, whatever dies, hangs behind, fails or writes beside them; they are
    proved by invariants over reachable states.  [a_step_is_a_run_of_life] is the refinement
    between the loop of kafka/step.rs and the events of MemberCorrect.

    Reading: a batch of the log stream is exactly the history between its cursors, within its
    limits, always forward, and withheld only when all has been read; a partition is read
    exactly once under any redelivery and replay.  Offsets: [read_txns] is the log's replay,
    the fence accepts exactly the current offsets and keeps what it knows through commits,
    takeover and starts account for every partition, and moving offsets by hand commits what
    was decided.

    Setting aside: a Kafka batch's rejects are recorded once by a call that answers, and a
    Delta batch's as the exactly-once theorem takes them to be.  Skipping: a file excluded by statistics holds nothing wanted; inside a window exactly the
    rows the target covers are dropped; the window survives a restart; a rebuild is not missed;
    a rescan reaches the read point.  Enriching: a retry is given the same version of a lookup,
    and a restart knows which lookups were replaced.  Upserts converge and the window loses no match; the check
    that a target holds a key once is exact for any hash, and holds no more than its ceiling.

    JSON: the parser reads RFC 8259, what the writers write is read back, json_parse's text is
    its own, a path finds the same in either, and a constructor's keys come in the order of the
    slots of a HashMap.

    Types: a row is set aside exactly when the target would not take it, only what is the same
    for every row stops a quarantined batch, a fraction a cast would drop is found wherever it
    is, and a file is read at its table's precision, once and for all.

    Kafka rows: a batch is conformed, and fitted to the union, row by row and always, as the
    relation [lands] says of each value; into the union no value is changed; what was conformed
    is then cast with no value that could stop it; every writer schema's fields are in the
    union, which depends on neither their order nor repetition; and a decimal's bytes are its
    number.  Before that, a batch that is decoded has each message taken once, as a row or as
    undecodable, whatever its decoders answer; where they keep [Laws], a row is what its own
    message decodes to; and the adapter over arrow-avro keeps them if arrow-avro keeps
    [InnerLaws].  What the decoder asks of a registry ([registered]) is what every lookup
    answers, in any interleaving of lookups, of a registry that does not change a schema.

    Errors and liveness: which errors hold a batch, block a pipeline or end it, that nothing
    waits for ever, that a readable log is answered and a healthy one is read.

    ** Bounds and fuel

    Integers are [Z] with the width's wrap-around written out ([u64], [u32], [usize] of 64
    bits, [i64]), as in a release build.  The loops that are not structural take fuel that is
    proved enough: [next_batch] runs at most once per readable version ([next_batch_total]);
    the walks over a log (Watermark, Rescan, [has_data_commit]) are bounded by the source's own
    [max_scan], counted down; TxnLog's walk is bounded by the head it starts at; the parsers of JSON and of
    paths take more than the length of their text ([parse_reads_json] holds of every text); the
    walks over two types of Fractions take their sizes ([drops_fraction_enough]), as does [fit]
    ([fit_answers], which is also that it never fails for want of fuel); [isolate]'s loop takes
    the length of its chunk ([isolate_from_delivers]), and the walk of a writer schema its depth
    ([named_fixed_fuel]).

    ** Not modelled

    Printing, metrics, logging and command lines.  The message texts of errors, beyond what the
    program itself reads of them.  Delta and the member take the coercion as a function over
    rows: Conform and Coerce, which have it over Arrow's types and are composed with each other
    ([no_value_stops_a_batch]), are not composed with them.  The member holds the messages of a
    batch, where the program has a decoder that is fed them and finished when the batch ends:
    Decode is not composed with it, nor with Conform, whose writer schemas are [decoded_schema]'s
    and whose shapes come from [raw_schema].  A lookup's answer is an argument
    of [feed].  Of what Conform does with
    kafka-delta-ingest's text ([fit_kdi]), and of the branch of a union it chooses, the model
    is executable but the theorems say only what holds of any choice.  I/O that only calls a library: storage, parquet, the HTTP
    clients, librdkafka's configuration, publishing, compaction.  SQL planning, validation and rewriting (DataFusion), and of the
    transforms all but the JSON functions.  Parsing of the configuration.  Of
    pipeline.rs, whether a data-quality table is there is an argument of [open_delta], and what
    delta-rs and the transform answer are arguments of [step_delta].  The world of
    DeltaCorrect is for pipelines that append without [dedup_timestamp] and [watermark_uri];
    what those add is proved of one open and one batch at a time (Dedup, Rescan, Watermark,
    DeltaWindow, DeltaLookup, Upsert). *)

From Stdlib Require Import ZArith Lia Ascii String.
From stdpp Require Import base list strings gmap.


(** ** Notations and automation *)

Declare Scope ddi_scope.
Delimit Scope ddi_scope with ddi.

Create HintDb ddi discriminated.
#[export] Hint Constants Opaque : ddi.

(** ** Fallible code

    Rust's [Result<A, E>], with [?] as the [let?] notation. *)

Inductive result (E A : Type) : Type :=
  | Ok (a : A)
  | Err (e : E).
Arguments Ok {E A} a.
Arguments Err {E A} e.

Notation "'let?' x := e 'in' k" :=
  (match e with Ok x => k | Err err => Err err end)
  (at level 10, x pattern, e at level 100, k at level 200) : ddi_scope.

Open Scope ddi_scope.

Definition is_ok {E A} (r : result E A) : bool :=
  match r with Ok _ => true | Err _ => false end.

Definition ok {E A} (r : result E A) : option A :=
  match r with Ok a => Some a | Err _ => None end.

(** [o.ok_or(e)] *)
Definition ok_or {E A} (o : option A) (e : E) : result E A :=
  match o with Some a => Ok a | None => Err e end.

(** A fallible step over a list, left to right, stopping at the first error:
    [iter().try_for_each] / [map(..).collect::<Result<Vec<_>, _>>()]. *)
Fixpoint mapR {E A B} (f : A → result E B) (l : list A) : result E (list B) :=
  match l with
  | [] => Ok []
  | x :: l =>
      let? y := f x in
      let? ys := mapR f l in
      Ok (y :: ys)
  end.

Lemma mapR_ok_Forall2 {E A B} (f : A → result E B) l ys :
  mapR f l = Ok ys ↔ Forall2 (λ x y, f x = Ok y) l ys.
Proof.
  revert ys; induction l as [|x l IH]; intros ys; simpl.
  - split; [intros [= <-]; constructor | inversion 1; done].
  - split.
    + destruct (f x) as [y|] eqn:E1; [|done].
      destruct (mapR f l) as [zs|] eqn:E2; [|done]. intros [= <-].
      constructor; [done|]. by apply IH.
    + inversion 1 as [|? y ? zs Hx Hl]; subst. rewrite Hx.
      apply IH in Hl. by rewrite Hl.
Qed.

(** ** Machine integers

    A w-bit integer is a [Z]. The crate's release profile leaves
    [overflow-checks] off, so [+], [-] and [as] wrap; the wrap-around is written
    out with these functions where the source adds or casts. *)

Open Scope Z_scope.

Definition u64_max : Z := 2 ^ 64 - 1.
Definition i64_max : Z := 2 ^ 63 - 1.
Definition i64_min : Z := - 2 ^ 63.
Definition u32_max : Z := 2 ^ 32 - 1.
Definition i32_max : Z := 2 ^ 31 - 1.
Definition i32_min : Z := - 2 ^ 31.

Definition u64 (z : Z) : Z := z mod 2 ^ 64.
Definition i64 (z : Z) : Z := (z + 2 ^ 63) mod 2 ^ 64 - 2 ^ 63.
Definition u32 (z : Z) : Z := z mod 2 ^ 32.
Definition i32 (z : Z) : Z := (z + 2 ^ 31) mod 2 ^ 32 - 2 ^ 31.

Definition in_u64 (z : Z) : Prop := 0 ≤ z ≤ u64_max.
Definition in_i64 (z : Z) : Prop := i64_min ≤ z ≤ i64_max.
Definition in_i32 (z : Z) : Prop := i32_min ≤ z ≤ i32_max.

Ltac unfold_widths :=
  unfold in_u64, in_i64, in_i32, u64_max, i64_max, i64_min, u32_max, i32_max, i32_min in *;
  change (2 ^ 64) with 18446744073709551616 in *;
  change (2 ^ 63) with 9223372036854775808 in *;
  change (2 ^ 32) with 4294967296 in *;
  change (2 ^ 31) with 2147483648 in *.

(** [lia] on goals about machine integers. *)
Ltac width_lia := unfold_widths; lia.

Lemma u64_small z : in_u64 z → u64 z = z.
Proof. intros H. unfold u64. apply Z.mod_small. width_lia. Qed.

Lemma i64_small z : in_i64 z → i64 z = z.
Proof. intros H. unfold i64. rewrite Z.mod_small; width_lia. Qed.

Lemma i32_small z : in_i32 z → i32 z = z.
Proof. intros H. unfold i32. rewrite Z.mod_small; width_lia. Qed.

Lemma u64_range z : in_u64 (u64 z).
Proof. unfold u64. pose proof (Z.mod_pos_bound z (2 ^ 64)). width_lia. Qed.

Lemma i64_range z : in_i64 (i64 z).
Proof. unfold i64. pose proof (Z.mod_pos_bound (z + 2 ^ 63) (2 ^ 64)). width_lia. Qed.

#[export] Hint Resolve u64_range i64_range : ddi.

(** [i64::try_from] of a [u64], [u64::try_from]/[usize::try_from] of an [i64]. *)
Definition i64_of_u64 (v : Z) : option Z := if v <=? i64_max then Some v else None.
Definition u64_of_i64 (v : Z) : option Z := if v <? 0 then None else Some v.

(** [saturating_sub] and [saturating_add] on [u64]. *)
Definition u64_sat_sub (a b : Z) : Z := Z.max 0 (a - b).
Definition i64_sat_add (a b : Z) : Z := Z.max i64_min (Z.min i64_max (a + b)).

(** [a.then_with(|| b)] on an [Ordering]. *)
Definition cmp_then (a b : comparison) : comparison :=
  match a with Eq => b | _ => a end.

(** ** Decimal text

    Rust's [Display] of an integer and the digit loop of [str::parse]. Digits are
    kept as numbers, most significant first; the two text representations of the
    library ([string] for names, code points for JSON) map them. *)

Fixpoint digits_go (fuel : nat) (n : N) (acc : list N) : list N :=
  match fuel with
  | O => acc
  | S fuel =>
      let acc := (n mod 10)%N :: acc in
      if (n / 10 =? 0)%N then acc else digits_go fuel (n / 10)%N acc
  end.

Definition digits_of (n : N) : list N := digits_go (S (N.size_nat n)) n [].

Definition of_digits (l : list N) : N := fold_left (λ a d, (10 * a + d)%N) l 0%N.

Definition is_digit (d : N) : Prop := (d < 10)%N.

Lemma of_digits_nil : of_digits [] = 0%N.
Proof. done. Qed.

Lemma of_digits_app l l' :
  of_digits (l ++ l') = fold_left (λ a d, (10 * a + d)%N) l' (of_digits l).
Proof. apply fold_left_app. Qed.

Lemma of_digits_acc l a :
  fold_left (λ a d, (10 * a + d)%N) l a = (a * 10 ^ N.of_nat (length l) + of_digits l)%N.
Proof.
  revert a; induction l as [|d l IH]; intros a; unfold of_digits; simpl; [lia|].
  rewrite IH, (IH (_ + d)%N).
  replace (N.of_nat (S (length l))) with (N.succ (N.of_nat (length l))) by lia.
  rewrite N.pow_succ_r'. lia.
Qed.

Lemma of_digits_cons d l :
  of_digits (d :: l) = (d * 10 ^ N.of_nat (length l) + of_digits l)%N.
Proof. unfold of_digits at 1; simpl. by rewrite of_digits_acc. Qed.

Lemma N_size_nat_size n : N.of_nat (N.size_nat n) = N.size n.
Proof. destruct n as [|p]; [done|]. simpl. induction p; simpl in *; lia. Qed.

Lemma N_div10_size n : (n / 10 ≠ 0)%N → (N.size_nat (n / 10) < N.size_nat n)%nat.
Proof.
  intros Hn. assert (n ≠ 0)%N as Hn0 by (intros ->; done).
  pose proof (N.Div0.mul_div_le n 10) as Hle.
  generalize dependent (n / 10)%N; intros q Hn Hle.
  enough (N.size q < N.size n)%N by (rewrite <- !N_size_nat_size in *; lia).
  rewrite !N.size_log2 by done.
  enough (N.succ (N.log2 q) ≤ N.log2 n)%N by lia.
  rewrite <- N.log2_double by lia. apply N.log2_le_mono. lia.
Qed.

Lemma digits_go_spec fuel n acc :
  (N.size_nat n < fuel)%nat →
  ∃ l, digits_go fuel n acc = l ++ acc ∧ of_digits l = n ∧ Forall is_digit l ∧ l ≠ [] ∧
       (length l = 1%nat ∨ ∃ d l', l = d :: l' ∧ d ≠ 0%N).
Proof.
  revert n acc; induction fuel as [|fuel IH]; intros n acc Hf; [lia|]. simpl.
  assert (Hd : is_digit (n mod 10)) by (apply N.mod_lt; lia).
  destruct (n / 10 =? 0)%N eqn:E.
  - apply N.eqb_eq in E. exists [(n mod 10)%N]. split; [done|].
    split; [|split; [by repeat constructor|split; [done|by left]]].
    unfold of_digits; simpl. pose proof (N.Div0.div_mod n 10). lia.
  - apply N.eqb_neq in E. pose proof (N_div10_size n E).
    destruct (IH (n / 10)%N ((n mod 10)%N :: acc)) as (l & -> & Hv & HF & Hne & Hz); [lia|].
    exists (l ++ [(n mod 10)%N]). rewrite <- app_assoc. split; [done|].
    split; [rewrite of_digits_app, Hv; simpl; pose proof (N.Div0.div_mod n 10); lia|].
    split; [apply Forall_app; split; [done|by repeat constructor]|].
    split; [by destruct l|]. right. destruct l as [|d l]; [done|].
    exists d, (l ++ [(n mod 10)%N]). split; [done|]. intros ->.
    destruct Hz as [Hz|(? & ? & ? & ?)]; [|by simplify_eq].
    destruct l; [|done]. unfold of_digits in Hv; simpl in Hv. lia.
Qed.

Lemma digits_of_spec n :
  of_digits (digits_of n) = n ∧ Forall is_digit (digits_of n) ∧ digits_of n ≠ [] ∧
  (length (digits_of n) = 1%nat ∨ ∃ d l', digits_of n = d :: l' ∧ d ≠ 0%N).
Proof.
  unfold digits_of. destruct (digits_go_spec (S (N.size_nat n)) n []) as (l & -> & H); [lia|].
  by rewrite app_nil_r.
Qed.

Lemma of_digits_of n : of_digits (digits_of n) = n.
Proof. apply digits_of_spec. Qed.

Lemma digits_of_digits n : Forall is_digit (digits_of n).
Proof. apply digits_of_spec. Qed.

Lemma digits_of_not_nil n : digits_of n ≠ [].
Proof. apply digits_of_spec. Qed.

#[export] Hint Resolve digits_of_digits digits_of_not_nil : ddi.

(** *** Names: the digits as ASCII text *)

Definition digit_ascii (d : N) : ascii := Ascii.ascii_of_N (48 + d).
Definition ascii_digit (a : ascii) : option N :=
  let n := Ascii.N_of_ascii a in
  if ((48 <=? n) && (n <=? 57))%N then Some (n - 48)%N else None.

Lemma ascii_digit_of d : is_digit d → ascii_digit (digit_ascii d) = Some d.
Proof.
  intros Hd. unfold ascii_digit, digit_ascii, is_digit in *.
  rewrite Ascii.N_ascii_embedding by lia.
  destruct (48 <=? 48 + d)%N eqn:E1, (48 + d <=? 57)%N eqn:E2; simpl;
    try (apply N.leb_gt in E1 || apply N.leb_gt in E2); try lia.
  f_equal; lia.
Qed.

Definition show_N (n : N) : string := String.string_of_list_ascii (digit_ascii <$> digits_of n).

(** [{}] of a signed integer. *)
Definition show_Z (z : Z) : string :=
  match z with
  | Z0 => show_N 0
  | Zpos p => show_N (Npos p)
  | Zneg p => String.append "-" (show_N (Npos p))
  end.

(** [s.bytes().all(|b| b.is_ascii_digit())], with the digits. *)
Definition all_digits (s : string) : option (list N) :=
  mapM ascii_digit (String.list_ascii_of_string s).

(** An all-digit, non-empty text's value. *)
Definition parse_digits (s : string) : option N :=
  match all_digits s with
  | Some (d :: ds) => Some (of_digits (d :: ds))
  | _ => None
  end.

Lemma all_digits_show n : all_digits (show_N n) = Some (digits_of n).
Proof.
  unfold all_digits, show_N. rewrite String.list_ascii_of_string_of_list_ascii.
  apply mapM_Some, Forall2_fmap_l, Forall_Forall2_diag.
  eapply Forall_impl; [apply digits_of_digits|]. intros d. apply ascii_digit_of.
Qed.

Lemma parse_digits_show n : parse_digits (show_N n) = Some n.
Proof.
  unfold parse_digits. rewrite all_digits_show.
  pose proof (digits_of_not_nil n) as Hn. destruct (digits_of n) eqn:E; [done|].
  by rewrite <- E, of_digits_of.
Qed.

(** ** Strings *)

(** [s.str_strip_prefix(p)] *)
Fixpoint str_strip_prefix (p s : string) : option string :=
  match p, s with
  | EmptyString, _ => Some s
  | String a p, String b s => if decide (a = b) then str_strip_prefix p s else None
  | _, _ => None
  end.

Lemma str_strip_prefix_app p s : str_strip_prefix p (String.append p s) = Some s.
Proof. induction p as [|a p IH]; simpl; [done|]. by rewrite decide_True. Qed.

Lemma str_strip_prefix_Some p s r : str_strip_prefix p s = Some r ↔ s = String.append p r.
Proof.
  split; [|intros ->; apply str_strip_prefix_app].
  revert s; induction p as [|a p IH]; intros s; simpl; [by intros [= ->]|].
  destruct s as [|b s]; [done|]. case_decide; [|done]. subst. intros H.
  change (String b (String.append p r)) with (String b (String.append p r)).
  by rewrite (IH _ H).
Qed.

Lemma string_of_list_ascii_app l l' :
  String.string_of_list_ascii (l ++ l') =
  String.append (String.string_of_list_ascii l) (String.string_of_list_ascii l').
Proof. induction l as [|a l IH]; simpl; [done|]. by rewrite IH. Qed.

Lemma list_ascii_of_string_append s s' :
  String.list_ascii_of_string (String.append s s') =
  String.list_ascii_of_string s ++ String.list_ascii_of_string s'.
Proof. induction s as [|a s IH]; simpl; [done|]. by rewrite IH. Qed.

Lemma string_list_inj s s' : String.list_ascii_of_string s = String.list_ascii_of_string s' → s = s'.
Proof.
  intros H. rewrite <- (String.string_of_list_ascii_of_string s), H.
  apply String.string_of_list_ascii_of_string.
Qed.

(** ** Lists *)

Lemma seqZ_snoc v : 0 ≤ v → seqZ 0 (v + 1) = seqZ 0 v ++ [v].
Proof.
  intros Hv. replace (v + 1) with (Z.of_nat (S (Z.to_nat v))) by lia.
  rewrite seqZ_S. by rewrite Z.add_0_l, Z2Nat.id by done.
Qed.

Lemma length_omap_le {A B} (f : A → option B) (l : list A) :
  (length (omap f l) ≤ length l)%nat.
Proof. induction l as [|a l IH]; [done|]. csimpl. destruct (f a); csimpl; lia. Qed.

Lemma forallb_false {A} (f : A → bool) l : forallb f l = false → ∃ x, x ∈ l ∧ f x = false.
Proof.
  induction l as [|x l IH]; simpl; [done|]. destruct (f x) eqn:E; simpl.
  - intros (y & ? & ?)%IH. exists y. split; [by right|done].
  - intros _. exists x. split; [by left|done].
Qed.
