(* ===== verification/Json.v ===== *)
(** * Json: the values serde_json parses

    serde_json is a library; its values, and the accessors the program calls on them, are what
    the log of a table and the metadata of a commit are read as. *)

From Stdlib Require Import ZArith.
From stdpp Require Import base list strings.
From S2P Require Import Prelude.

Open Scope Z_scope.

(** A [serde_json::Value]; [V_Number] is an integer that fits an [i64] or a [u64]. *)
Inductive Value :=
  | V_Null
  | V_Bool (b : bool)
  | V_Number (z : Z)
  | V_Float
  | V_String (s : string)
  | V_Array (l : list Value)
  | V_Object (fields : list (string * Value)).

Definition as_str (v : Value) : option string :=
  match v with V_String s => Some s | _ => None end.
Definition as_i64 (v : Value) : option Z :=
  match v with V_Number z => if z <=? i64_max then Some z else None | _ => None end.
Definition as_u64 (v : Value) : option Z :=
  match v with V_Number z => if (0 <=? z) && (z <=? u64_max) then Some z else None | _ => None end.
Definition as_array (v : Value) : option (list Value) :=
  match v with V_Array l => Some l | _ => None end.
(** [Value::get] of a key; a repeated key keeps its last value. *)
Definition get_key (k : string) (v : Value) : option Value :=
  match v with
  | V_Object fields =>
      snd <$> List.find (λ f, bool_decide (f.1 = k)) (rev fields)
  | _ => None
  end.

Lemma as_u64_range v z : as_u64 v = Some z → in_u64 z.
Proof.
  destruct v; simpl; try done. destruct (Z.leb_spec 0 z0), (Z.leb_spec z0 u64_max); simpl; try done.
  intros [= <-]. done.
Qed.

Lemma as_u64_number z : in_u64 z → as_u64 (V_Number z) = Some z.
Proof.
  intros [H1 H2]. unfold as_u64. by rewrite (proj2 (Z.leb_le _ _) H1), (proj2 (Z.leb_le _ _) H2).
Qed.
