(* ===== verification/Cursor.v ===== *)
(** * Cursor: the resumable stream position (src/source/cursor.rs)

    [StreamCursor] and its operations.  A [Version] is a [u64], an index a
    [usize] (64 bits); their additions wrap, as in a release build. *)

From Stdlib Require Import ZArith Lia.
From stdpp Require Import base list strings.
From S2P Require Import Prelude.

Open Scope Z_scope.

(** [pub type Version = u64] *)
Definition Version : Type := Z.

(** [(version, index)]: the next commit to read and, within it, the next
    unconsumed [dataChange=true] [Add]. *)
Record StreamCursor := { version : Version; index : Z }.

#[export] Instance StreamCursor_eq_dec : EqDecision StreamCursor.
Proof. solve_decision. Defined.

Definition at_version (v : Version) : StreamCursor := {| version := v; index := 0 |}.

Definition new (v : Version) (i : Z) : StreamCursor := {| version := v; index := i |}.

Definition next_version (c : StreamCursor) : StreamCursor :=
  {| version := u64 (version c + 1); index := 0 |}.

Definition advanced_by (c : StreamCursor) (n : Z) : StreamCursor :=
  {| version := version c; index := u64 (index c + n) |}.

Definition is_commit_boundary (c : StreamCursor) : bool := index c =? 0.

Definition last_fully_consumed_version (c : StreamCursor) : option Version :=
  if negb (is_commit_boundary c) then None
  else if version c =? 0 then None
  else Some (version c - 1).

(** [impl Ord for StreamCursor] *)
Definition cmp (a b : StreamCursor) : comparison :=
  cmp_then (Z.compare (version a) (version b)) (Z.compare (index a) (index b)).

(** [impl PartialOrd]: always [Some] of [cmp]. *)
Definition partial_cmp (a b : StreamCursor) : option comparison := Some (cmp a b).

(** [impl Display]: ["v{version}+{index}"]. *)
Definition display (c : StreamCursor) : string :=
  String.append "v" (String.append (show_Z (version c)) (String.append "+" (show_Z (index c)))).

(** A cursor whose fields fit their types. *)
Definition wf (c : StreamCursor) : Prop := in_u64 (version c) ∧ in_u64 (index c).

(** ** Lemmas *)

Lemma wf_at_version v : in_u64 v → wf (at_version v).
Proof. split; [done|]. simpl. width_lia. Qed.

Lemma wf_next_version c : wf (next_version c).
Proof. split; simpl; [apply u64_range|width_lia]. Qed.

Lemma wf_advanced_by c n : in_u64 (version c) → wf (advanced_by c n).
Proof. split; simpl; [done|apply u64_range]. Qed.

Lemma next_version_eq c :
  0 ≤ version c < u64_max → next_version c = at_version (version c + 1).
Proof. intros H. unfold next_version, at_version. rewrite u64_small; [done|width_lia]. Qed.

Lemma cmp_refl a : cmp a a = Eq.
Proof. unfold cmp. by rewrite !Z.compare_refl. Qed.

Lemma cmp_eq a b : cmp a b = Eq ↔ a = b.
Proof.
  split; [|intros ->; apply cmp_refl].
  unfold cmp, cmp_then. destruct a as [v i], b as [v' i']; simpl.
  destruct (Z.compare_spec v v'); [|done..]. subst.
  destruct (Z.compare_spec i i'); [|done..]. by subst.
Qed.

Lemma cmp_lt a b :
  cmp a b = Lt ↔ version a < version b ∨ (version a = version b ∧ index a < index b).
Proof.
  unfold cmp, cmp_then.
  destruct (Z.compare_spec (version a) (version b));
    [destruct (Z.compare_spec (index a) (index b))|..]; split; intros; try done; lia.
Qed.

Lemma cmp_antisym a b : cmp b a = CompOpp (cmp a b).
Proof.
  unfold cmp, cmp_then. rewrite (Z.compare_antisym (version a)), (Z.compare_antisym (index a)).
  by destruct (version a ?= version b), (index a ?= index b).
Qed.

(** The order is lexicographic on [(version, index)], total, antisymmetric and
    transitive: comparing two persisted cursors never depends on anything else. *)
Lemma cmp_trans a b c : cmp a b = Lt → cmp b c = Lt → cmp a c = Lt.
Proof. rewrite !cmp_lt. lia. Qed.

(** Advancing within a commit, and past it, always moves the cursor forward. *)
Lemma advanced_by_lt c n :
  wf c → 0 < n → index c + n ≤ u64_max → cmp c (advanced_by c n) = Lt.
Proof.
  intros [Hv Hi] Hn Hb. apply cmp_lt. right. split; [done|]. simpl.
  rewrite u64_small by width_lia. lia.
Qed.

Lemma advanced_by_before_next c n :
  wf c → version c < u64_max → cmp (advanced_by c n) (next_version c) = Lt.
Proof.
  intros [Hv Hi] Hb. apply cmp_lt. left. simpl. rewrite u64_small by width_lia. lia.
Qed.
