(* ===== verification/Error.v ===== *)
(** * Error: the crate's errors and how a Kafka pipeline handles each (src/error.rs)

    [Error] has the source's variants with their fields.  A message that only
    interpolates text (the [String] of [Config], [Other], [Transform], ...) is kept as
    the fixed words that identify it.  [DeltaTableError] is delta-rs's: only the
    distinctions error.rs draws between its variants are kept, and
    [D_Other] carries what [storage::is_unreadable_checkpoint] reads off its text. *)

From Stdlib Require Import ZArith.
From stdpp Require Import base list strings.
From S2P Require Import Prelude Cursor.

Open Scope Z_scope.

(** ** delta-rs's errors, as far as they are told apart *)

Inductive TransactionError :=
  | T_CommitConflict
  | T_VersionAlreadyExists
  | T_MaxCommitAttempts
  | T_ObjectStore
  | T_LogStoreError
  | T_UnsupportedTableFeatures
  | T_TableFeaturesRequired
  | T_Other.

Inductive DeltaTableError :=
  | D_InvalidVersion
  | D_VersionAlreadyExists
  | D_Transaction (source : TransactionError)
  | D_ObjectStore (outage : bool)
  | D_NotFound  (** an object store's [NotFound] *)
  | D_Io
  | D_Arrow
  | D_SchemaMismatch
  | D_InvalidJsonLog
  | D_NotATable
  | D_Kernel
  | D_Other (unreadable_checkpoint : bool).

(** ** The crate's own *)

Inductive SchemaRegistryFailure := Unavailable | Unauthorized | Refused.

Inductive KafkaClientFailure := Transport | Fatal | ConfigFailure.

Inductive KafkaClass :=
  | Replan
  | Transient
  | CapacityClass
  | BlockingPipeline
  | BlockingPartition
  | OpenRefusal
  | ConsumerFatal.

#[export] Instance KafkaClass_eq_dec : EqDecision KafkaClass.
Proof. solve_decision. Defined.

Inductive Error :=
  | Delta (e : DeltaTableError)
  | Io
  | Config (msg : string)
  | ChangeCommit (version : Z)
  | CommitTooLarge (version files bytes max_files max_bytes : Z)
  | DeletionVectorUnsupported (version : Z) (path : string)
  | UnsupportedProtocol (version reader writer : Z)
  | CursorUnavailable (source_uri : string) (cursor : StreamCursor)
  | BootstrapUnreachable (source_uri : string) (configured oldest_available : Version)
      (oldest_available_committed_at : option string) (head : Version)
  | SourceFileVacuumed (source_uri : string) (version : Z) (path : string)
  | SourceReplaced (source_uri detail : string)
  | Fenced (app_id : string) (partition : Z) (expected found : option Z)
  | OffsetLogTruncated (table_uri : string) (version : Z)
  | DataQualityWrite (dq_uri : string) (rows : Z) (source : Error)
  | DataQualityConflict (dq_uri : string) (rows attempts : Z) (detail : string)
  | KafkaTxnRetention (target_uri retention : string)
  | TargetProtocolUnsupported (target_uri detail : string)
  | TargetReplaced (target_uri opened found : string)
  | KafkaOffsetMissing (app_id : string) (partitions : list Z) (fresh : bool)
  | KafkaOffsetVanished (target_uri app_id : string) (partitions : list (Z * Z))
  | SchemaRegistry (url : string) (failure : SchemaRegistryFailure) (detail : string)
  | KafkaSchemaReferences (url : string) (id : Z) (subjects : list string)
  | KafkaMetadataCollision (schema_id : Z) (field prefix : string)
  | KafkaPartitionColumnUnmapped (target_uri : string) (columns produced : list string)
      (sql : bool)
  | KafkaSchemaConflict (fields : list string) (detail : string)
  | KafkaOffsetsUnavailable (topic : string) (partition wanted low : Z)
  | KafkaOffsetsRegressed (topic : string) (partition stored high : Z)
  | KafkaTopicReplaced (topic : string) (partition offset : Z) (recorded found : string)
  | KafkaUndecodable (topic : string) (partition offset : Z) (schema_id : option Z)
      (reason dq_uri : string)
  | KafkaTooManyUndecodable (count cap : Z) (topic : string) (partition offset : Z)
      (schema_id : option Z) (reason : string)
  | KafkaAppIdUnknown (app_id target_uri : string) (seen : list string)
  | KafkaCompatUnset (app_id target_uri : string) (fresh : bool)
  | KafkaStartingOffsetsIncomplete (topic : string) (missing : list Z)
  | KafkaClient (failure : KafkaClientFailure) (detail : string)
  | Transform (msg : string)
  | Evaluation (msg : string)
  | Capacity (msg : string)
  | Schema (msg : string)
  | Other (msg : string).

(** ** Classification *)

Definition is_store_fault (e : DeltaTableError) : bool :=
  match e with
  | D_ObjectStore _ | D_NotFound | D_Io | D_Transaction (T_ObjectStore | T_LogStoreError) => true
  | _ => false
  end.

Definition is_unwritable (e : DeltaTableError) : bool :=
  match e with
  | D_Transaction (T_UnsupportedTableFeatures | T_TableFeaturesRequired) => true
  | _ => false
  end.

Definition is_unfit (e : DeltaTableError) : bool :=
  match e with D_Arrow | D_SchemaMismatch => true | _ => false end.

Definition is_unreadable_log (e : DeltaTableError) : bool :=
  match e with D_InvalidJsonLog => true | _ => false end.

(** [crate::storage::is_unreadable_checkpoint], a test of the error's text. *)
Definition is_unreadable_checkpoint (e : DeltaTableError) : bool :=
  match e with D_Other b => b | _ => false end.

(** The class of an error as the cause beneath a [DataQualityWrite]. *)
Fixpoint data_quality_class (e : Error) : KafkaClass :=
  match e with
  | DataQualityWrite _ _ source => data_quality_class source
  | Capacity _ => CapacityClass
  | TargetProtocolUnsupported _ _ => BlockingPipeline
  | Delta e =>
      if is_store_fault e then Transient
      else if is_unwritable e || is_unfit e || is_unreadable_log e then BlockingPipeline
      else Transient
  | Other _ => ConsumerFatal
  | _ => Transient
  end.

Definition kafka_class (e : Error) : KafkaClass :=
  match e with
  | Capacity _ => CapacityClass
  | DataQualityWrite _ _ source => data_quality_class source
  | DataQualityConflict _ _ _ _ => Transient
  | Fenced _ _ _ _ | OffsetLogTruncated _ _ => Replan
  | Delta (D_InvalidVersion | D_VersionAlreadyExists
          | D_Transaction (T_CommitConflict | T_VersionAlreadyExists | T_MaxCommitAttempts)) =>
      Replan
  | Delta e =>
      if is_unreadable_checkpoint e then Replan
      else if is_unwritable e then BlockingPipeline
      else Transient
  | Io => Transient
  | Config _ => Transient
  | KafkaTxnRetention _ _ | TargetProtocolUnsupported _ _ | TargetReplaced _ _ _ =>
      BlockingPipeline
  | KafkaOffsetVanished _ _ _ => BlockingPipeline
  | Transform _ | Evaluation _ | Schema _ => BlockingPipeline
  | KafkaOffsetMissing _ _ _ | KafkaAppIdUnknown _ _ _ | KafkaCompatUnset _ _ _
  | KafkaStartingOffsetsIncomplete _ _ => OpenRefusal
  | KafkaOffsetsUnavailable _ _ _ _ | KafkaOffsetsRegressed _ _ _ _
  | KafkaTopicReplaced _ _ _ _ _ => BlockingPartition
  | KafkaUndecodable _ _ _ _ _ _ | KafkaTooManyUndecodable _ _ _ _ _ _ _ => BlockingPipeline
  | KafkaClient failure _ =>
      match failure with
      | Transport => Transient
      | Fatal | ConfigFailure => ConsumerFatal
      end
  | SchemaRegistry _ failure _ =>
      match failure with
      | Unavailable => Transient
      | Unauthorized => ConsumerFatal
      | Refused => BlockingPipeline
      end
  | KafkaSchemaReferences _ _ _ | KafkaMetadataCollision _ _ _ => BlockingPipeline
  | KafkaPartitionColumnUnmapped _ _ _ _ | KafkaSchemaConflict _ _ => BlockingPipeline
  | Other _ | ChangeCommit _ | CommitTooLarge _ _ _ _ _ | DeletionVectorUnsupported _ _
  | UnsupportedProtocol _ _ _ | CursorUnavailable _ _ | BootstrapUnreachable _ _ _ _ _
  | SourceFileVacuumed _ _ _ | SourceReplaced _ _ => ConsumerFatal
  end.

Definition kafka_block_reason (e : Error) : string :=
  match e with
  | TargetReplaced _ _ _ => "target_replaced"
  | KafkaTxnRetention _ _ => "txn_retention"
  | TargetProtocolUnsupported _ _ => "protocol_unsupported"
  | KafkaOffsetVanished _ _ _ => "offset_vanished"
  | KafkaUndecodable _ _ _ _ _ _ | KafkaTooManyUndecodable _ _ _ _ _ _ _ => "undecodable"
  | KafkaSchemaConflict _ _ => "schema_conflict"
  | KafkaSchemaReferences _ _ _ => "schema_references"
  | KafkaMetadataCollision _ _ _ => "metadata_collision"
  | KafkaPartitionColumnUnmapped _ _ _ _ => "partition_column_unmapped"
  | Transform _ => "transform"
  | Evaluation _ => "evaluation"
  | Schema _ => "schema"
  | DataQualityWrite _ _ _ => "data_quality"
  | SchemaRegistry _ _ _ => "schema_registry"
  | other =>
      if (match other with Delta e => is_unwritable e | _ => false end)
      then "protocol_unsupported"
      else match kafka_class other with
           | CapacityClass => "capacity"
           | Replan | Transient => "transient"
           | _ => "other"
           end
  end.

Definition kafka_waits_for_an_operator (e : Error) : bool :=
  match kafka_class e with
  | OpenRefusal | BlockingPipeline | BlockingPartition | CapacityClass => true
  | ConsumerFatal =>
      match e with
      | KafkaClient ConfigFailure _ | SchemaRegistry _ Unauthorized _ => true
      | _ => false
      end
  | Replan | Transient => false
  end.

Fixpoint is_capacity (e : Error) : bool :=
  match e with
  | Capacity _ => true
  | DataQualityWrite _ _ source => is_capacity source
  | _ => false
  end.

(** ** What the classification promises *)

(** The same test, through the wrapper: an error is of the capacity class exactly
    when [is_capacity] says so. *)
Lemma data_quality_class_capacity e :
  data_quality_class e = CapacityClass ↔ is_capacity e = true.
Proof.
  induction e; simpl; try done.
  destruct (is_store_fault e), (is_unwritable e || is_unfit e || is_unreadable_log e); done.
Qed.

Lemma data_quality_class_not_replan e :
  data_quality_class e ≠ Replan ∧ data_quality_class e ≠ OpenRefusal ∧
  data_quality_class e ≠ BlockingPartition.
Proof.
  induction e; simpl; try done.
  destruct (is_store_fault e), (is_unwritable e || is_unfit e || is_unreadable_log e); done.
Qed.
