(* ===== verification/Offset.v ===== *)
(** * Offset: the resume offset in the target's own log (src/offset.rs, src/stage.rs)

    The [txn] action stores the last fully processed source version as an [i64]; a
    resume reads from the one after it.  What delta-rs's [transaction_version] answers
    for an app_id is an argument ([stored]).  The naming of a staged upsert's two
    halves, whose distinct app ids keep their offsets apart, is here too. *)

From Stdlib Require Import ZArith Lia Ascii.
From stdpp Require Import base list strings.
From S2P Require Import Prelude Cursor Error.

Open Scope Z_scope.

Record OffsetStore := { app_id : string; starting_version : Version }.

Definition new (app_id : string) (starting_version : Version) : OffsetStore :=
  {| app_id := app_id; starting_version := starting_version |}.

(** [OffsetStore::last_committed_version], given the target's answer. *)
Definition last_committed_version (stored : result DeltaTableError (option Z))
    : result Error (option Version) :=
  match stored with
  | Err e => Err (Delta e)
  | Ok None => Ok None
  | Ok (Some v) =>
      if v <? 0 then Err (Other "target table holds a negative txn version")
      else Ok (Some (u64 v))
  end.

(** [OffsetStore::resume_cursor] *)
Definition resume_cursor (s : OffsetStore) (stored : result DeltaTableError (option Z))
    : result Error StreamCursor :=
  let? last := last_committed_version stored in
  Ok (match last with
      | Some v => at_version (u64 (v + 1))
      | None => at_version (starting_version s)
      end).

(** [OffsetStore::txn_version_for] *)
Definition txn_version_for (cursor : StreamCursor) : result Error Z :=
  let? v := ok_or (last_fully_consumed_version cursor)
                  (Other "refusing to record a mid-commit cursor") in
  ok_or (i64_of_u64 v) (Other "source version does not fit in the txn action's i64").

(** ** Staged upserts (src/stage.rs) *)

Definition SUFFIX : string := "__ddi_stage".

(** [s.trim_end_matches('/')], on the reversed text. *)
Fixpoint drop_slashes (l : list Ascii.ascii) : list Ascii.ascii :=
  match l with
  | a :: l' => if decide (a = "/"%char) then drop_slashes l' else l
  | [] => []
  end.

Definition trim_end_slashes (s : string) : string :=
  String.string_of_list_ascii (rev (drop_slashes (rev (String.list_ascii_of_string s)))).

Definition uri_for (target_uri : string) : string :=
  String.append (trim_end_slashes target_uri) SUFFIX.
Definition ingest_name (name : string) : string := String.append name "__ingest".
Definition apply_name (name : string) : string := String.append name "__apply".
Definition ingest_app_id (a : string) : string := String.append a ".ingest".
Definition apply_app_id (a : string) : string := String.append a ".apply".

(** [s.ends_with(suffix)] *)
Definition ends_with (s suffix : string) : bool :=
  match str_strip_prefix (String.string_of_list_ascii (rev (String.list_ascii_of_string suffix)))
          (String.string_of_list_ascii (rev (String.list_ascii_of_string s))) with
  | Some _ => true
  | None => false
  end.

Definition is_stage_uri (uri : string) : bool := ends_with (trim_end_slashes uri) SUFFIX.

(** ** Lemmas *)

Lemma ends_with_append s suffix : ends_with (String.append s suffix) suffix = true.
Proof.
  unfold ends_with.
  by rewrite list_ascii_of_string_append, rev_app_distr, string_of_list_ascii_app,
    str_strip_prefix_app.
Qed.

Lemma txn_version_for_boundary v :
  0 < v ≤ i64_max + 1 → txn_version_for (at_version v) = Ok (v - 1).
Proof.
  intros H. unfold txn_version_for, last_fully_consumed_version, at_version; simpl.
  destruct (Z.eqb_spec v 0); [lia|]. simpl. unfold i64_of_u64.
  destruct (Z.leb_spec (v - 1) i64_max); [done|lia].
Qed.

(** What is recorded for a cursor is what a resume turns back into that cursor. *)
Lemma txn_version_for_ok c v :
  txn_version_for c = Ok v →
  index c = 0 ∧ version c = v + 1 ∧ (0 ≤ version c → 0 ≤ v ≤ i64_max).
Proof.
  unfold txn_version_for, last_fully_consumed_version, is_commit_boundary.
  destruct (Z.eqb_spec (index c) 0) as [Hi|]; simpl; [|done].
  destruct (Z.eqb_spec (version c) 0); simpl; [done|].
  unfold i64_of_u64. destruct (Z.leb_spec (version c - 1) i64_max); simpl; [|done].
  intros [= <-]. split; [done|]. lia.
Qed.

(** ** Properties *)

(** C3: the offset round trip behind exactly-once: what [txn_version_for] lets a batch
    record for its end cursor, read back by [resume_cursor] after a crash, is that same
    cursor, for every cursor; and it refuses exactly the cursors a bare version cannot
    express (mid-commit, nothing consumed yet, past [i64]). *)
Theorem txn_offset_round_trip s c :
  wf c →
  match txn_version_for c with
  | Ok v => resume_cursor s (Ok (Some v)) = Ok c
  | Err _ => index c ≠ 0 ∨ version c = 0 ∨ i64_max + 1 < version c
  end.
Proof.
  intros [Hv Hi]. destruct (txn_version_for c) as [v|e] eqn:E.
  - apply txn_version_for_ok in E as (Hi0 & Hv1 & Hr). unfold resume_cursor; simpl.
    destruct (Z.ltb_spec v 0); [width_lia|]. rewrite (u64_small v), u64_small by width_lia.
    destruct c as [cv ci]; simpl in *. by subst.
  - revert E. unfold txn_version_for, last_fully_consumed_version, is_commit_boundary.
    destruct (Z.eqb_spec (index c) 0); simpl; [|by left].
    destruct (Z.eqb_spec (version c) 0); simpl; [by right; left|].
    unfold i64_of_u64. destruct (Z.leb_spec (version c - 1) i64_max); simpl; [done|].
    right; right; lia.
Qed.

Lemma txn_offset_round_trip_witness :
  wf (at_version 43) ∧ resume_cursor (new "a" 0) (Ok (Some 42)) = Ok (at_version 43).
Proof.
  assert (H : wf (at_version 43)) by (apply wf_at_version; width_lia).
  split; [exact H|]. exact (txn_offset_round_trip (new "a" 0) (at_version 43) H).
Defined.

Lemma append_inj_r s s' t : String.append s t = String.append s' t → s = s'.
Proof.
  intros H%(f_equal String.list_ascii_of_string).
  rewrite !list_ascii_of_string_append in H. apply app_inv_tail in H. by apply string_list_inj.
Qed.

(** The last character of a name that ends in a non-empty suffix. *)
Lemma last_append s t a :
  last (String.list_ascii_of_string t) = Some a →
  last (String.list_ascii_of_string (String.append s t)) = Some a.
Proof. intros H. rewrite list_ascii_of_string_append. by rewrite last_app, H. Qed.

(** The two halves of a staged upsert never share an offset: for any app ids at all,
    an ingest half's [txn] app id differs from an apply half's, and each determines its
    pipeline's own, so neither half can resume from a version the other reached. *)
Theorem staged_offsets_are_distinct a b :
  ingest_app_id a ≠ apply_app_id b ∧
  (ingest_app_id a = ingest_app_id b → a = b) ∧
  (apply_app_id a = apply_app_id b → a = b).
Proof.
  split; [|split; apply append_inj_r].
  intros H%(f_equal (last ∘ String.list_ascii_of_string)). unfold compose in H.
  unfold ingest_app_id, apply_app_id in H.
  by rewrite !(last_append _ _ "t"%char), ?(last_append _ _ "y"%char) in H by done.
Qed.

(** A stage's own URI is recognised as one, whatever the target's trailing slashes. *)
Lemma drop_slashes_rev_suffix l :
  (∀ a, last l = Some a → a ≠ "/"%char) → rev (drop_slashes (rev l)) = l.
Proof.
  intros H. destruct l as [|a l] using rev_ind; [done|].
  rewrite rev_app_distr; simpl.
  rewrite last_snoc in H. specialize (H a eq_refl).
  rewrite decide_False by done. simpl. by rewrite rev_involutive.
Qed.

Lemma is_stage_uri_for t : is_stage_uri (uri_for t) = true.
Proof.
  unfold is_stage_uri, uri_for at 1. unfold trim_end_slashes at 1.
  rewrite drop_slashes_rev_suffix.
  - rewrite String.string_of_list_ascii_of_string. apply ends_with_append.
  - intros a. rewrite (last_append _ _ "e"%char) by done. by intros [= <-].
Qed.
