(* ===== verification/F64.v ===== *)
(** * F64: Rust's [f64] operations the modelled code uses

    A double is a [spec_float] of precision 53 and exponent bound 1024, the Standard
    Library's executable IEEE 754 specification.  Casts follow Rust: an integer rounds
    to the nearest double, [as u64] truncates towards zero and saturates (NaN is 0). *)

From Stdlib Require Import ZArith Lia SpecFloat.
From stdpp Require Import base numbers.
From S2P Require Import Prelude.

Open Scope Z_scope.

Definition prec : Z := 53.
Definition emax : Z := 1024.

Definition f64 : Type := spec_float.

(** [z as f64] for an integer type. *)
Definition of_Z (z : Z) : f64 := binary_normalize prec emax z 0 false.

Definition mul (a b : f64) : f64 := SFmul prec emax a b.
Definition div (a b : f64) : f64 := SFdiv prec emax a b.
Definition add (a b : f64) : f64 := SFadd prec emax a b.
Definition sub (a b : f64) : f64 := SFsub prec emax a b.
Definition ltb (a b : f64) : bool := SFltb a b.
Definition eqb (a b : f64) : bool := SFeqb a b.

Definition is_nan (a : f64) : bool := match a with S754_nan => true | _ => false end.

(** [a.max(b)]: the other operand when one is NaN. *)
Definition max (a b : f64) : f64 :=
  if is_nan a then b else if is_nan b then a else if ltb a b then b else a.

(** The integer part of a finite double, towards zero. *)
Definition trunc (a : f64) : Z :=
  match a with
  | S754_finite s m e =>
      let v := if 0 <=? e then Z.pos m * 2 ^ e else Z.pos m / 2 ^ (- e) in
      if s then - v else v
  | _ => 0
  end.

(** [a as u64] *)
Definition to_u64 (a : f64) : Z :=
  match a with
  | S754_nan => 0
  | S754_infinity s => if s then 0 else u64_max
  | _ => Z.max 0 (Z.min u64_max (trunc a))
  end.

(** [a as i64] *)
Definition to_i64 (a : f64) : Z :=
  match a with
  | S754_nan => 0
  | S754_infinity s => if s then i64_min else i64_max
  | _ => Z.max i64_min (Z.min i64_max (trunc a))
  end.

(** [m * 2^e], correctly rounded: the literals of the source. *)
Definition lit (m e : Z) : f64 := binary_normalize prec emax m e false.

(** ** The bits of a double *)

(** [v.to_bits()], of a double in canonical form; a NaN has many, of which the quiet one. *)
Definition sign_bit (s : bool) : Z := if s then 2 ^ 63 else 0.
Definition to_bits (v : f64) : Z :=
  match v with
  | S754_zero s => sign_bit s
  | S754_infinity s => sign_bit s + Z.shiftl 2047 52
  | S754_nan => Z.shiftl 2047 52 + 2 ^ 51
  | S754_finite s m e =>
      sign_bit s + (if Z.pos m <? 2 ^ 52 then Z.pos m
                    else Z.shiftl (e + 1075) 52 + (Z.pos m - 2 ^ 52))
  end.

(** [f64::from_bits(b)] *)
Definition from_bits (b : Z) : f64 :=
  let s := Z.testbit b 63 in
  let biased := Z.land (Z.shiftr b 52) 2047 in
  let frac := Z.land b (2 ^ 52 - 1) in
  if biased =? 2047 then if frac =? 0 then S754_infinity s else S754_nan
  else if biased =? 0 then
    match frac with Z.pos m => S754_finite s m (-1074) | _ => S754_zero s end
  else
    match 2 ^ 52 + frac with Z.pos m => S754_finite s m (biased - 1075) | _ => S754_nan end.

Example bits_of_one : to_bits (of_Z 1) = 4607182418800017408.
Proof. vm_compute. reflexivity. Qed.
Example bits_back : from_bits (to_bits (lit (-3) (-2))) = lit (-3) (-2).
Proof. vm_compute. reflexivity. Qed.

(** ** The order of doubles *)

(** A double in canonical form that is not a NaN: every one the program compares. *)
Definition ordered (v : f64) : Prop := valid_binary prec emax v = true ∧ is_nan v = false.

(** Its place among them: zeros at 0, the finite ones by exponent and then mantissa. *)
Definition place (v : f64) : Z :=
  match v with
  | S754_zero _ | S754_nan => 0
  | S754_infinity s => if s then - 2 ^ 70 else 2 ^ 70
  | S754_finite s m e =>
      let p := (e + 1075) * 2 ^ 53 + Z.pos m in if s then - p else p
  end.

Lemma digits_pow2 m n : digits2_pos m = n → 2 ^ (Z.pos n - 1) ≤ Z.pos m < 2 ^ Z.pos n.
Proof.
  revert n. induction m as [m IH|m IH|]; intros n <-; simpl digits2_pos.
  3: { simpl. lia. }
  all: specialize (IH _ eq_refl); rewrite Pos2Z.inj_succ;
    replace (2 ^ Z.succ (Z.pos (digits2_pos m))) with (2 * 2 ^ Z.pos (digits2_pos m))
      by (rewrite Z.pow_succ_r; lia);
    replace (2 ^ (Z.succ (Z.pos (digits2_pos m)) - 1)) with (2 * 2 ^ (Z.pos (digits2_pos m) - 1))
      by (rewrite <-Z.pow_succ_r by lia; f_equal; lia); lia.
Qed.

(** The mantissa and exponent of a double in canonical form. *)
Lemma canonical s m e :
  ordered (S754_finite s m e) → 0 < Z.pos m < 2 ^ 53 ∧ -1074 ≤ e ≤ 971.
Proof.
  intros [Hv _]. unfold valid_binary, bounded in Hv.
  apply andb_true_iff in Hv as [Hm He]. apply Z.leb_le in He.
  unfold canonical_mantissa in Hm. apply Z.eqb_eq in Hm.
  unfold fexp, emin, prec, emax in *.
  pose proof (digits_pow2 m _ eq_refl) as Hd.
  assert (Z.pos (digits2_pos m) ≤ 53) by lia.
  assert (2 ^ Z.pos (digits2_pos m) ≤ 2 ^ 53) by (apply Z.pow_le_mono_r; lia).
  lia.
Qed.

Lemma place_pos s m e :
  ordered (S754_finite s m e) → 0 < (e + 1075) * 2 ^ 53 + Z.pos m < 2 ^ 70.
Proof. intros H%canonical. nia. Qed.

(** The order of doubles is the order of their places. *)
Lemma compare_place a b :
  ordered a → ordered b → SFcompare a b = Some (Z.compare (place a) (place b)).
Proof.
  intros Ha Hb.
  assert (Hc : ∀ m e m' e' s s', ordered (S754_finite s m e) → ordered (S754_finite s' m' e') →
    ((e + 1075) * 2 ^ 53 + Z.pos m ?= (e' + 1075) * 2 ^ 53 + Z.pos m') =
    match e ?= e' with Lt => Lt | Gt => Gt | Eq => Pos.compare m m' end).
  { intros m e m' e' s s' H%canonical H'%canonical. destruct (Z.compare_spec e e') as [->| |].
    - rewrite Z.add_compare_mono_l. done.
    - apply Z.compare_lt_iff. nia.
    - apply Z.compare_gt_iff. nia. }
  destruct a as [sa|sa| |sa ma ea], b as [sb|sb| |sb mb eb];
    try (by destruct Ha); try (by destruct Hb);
    try (by destruct sa, sb); unfold place; simpl SFcompare.
  - apply place_pos in Hb. destruct sb; f_equal; symmetry; rewrite ?Z.compare_gt_iff, ?Z.compare_lt_iff; lia.
  - apply place_pos in Hb. destruct sa, sb; f_equal; symmetry;
      rewrite ?Z.compare_gt_iff, ?Z.compare_lt_iff; lia.
  - apply place_pos in Ha. destruct sa; f_equal; symmetry; rewrite ?Z.compare_gt_iff, ?Z.compare_lt_iff; lia.
  - apply place_pos in Ha. destruct sa, sb; f_equal; symmetry;
      rewrite ?Z.compare_gt_iff, ?Z.compare_lt_iff; lia.
  - pose proof (Hc _ _ _ _ _ _ Ha Hb) as E. apply place_pos in Ha, Hb.
    destruct sa, sb.
    + rewrite Z.compare_opp, (Z.compare_antisym _ ((eb + 1075) * _ + _)), E. by destruct (ea ?= eb).
    + f_equal. symmetry. apply Z.compare_lt_iff. lia.
    + f_equal. symmetry. apply Z.compare_gt_iff. lia.
    + rewrite E. by destruct (ea ?= eb).
Qed.

Lemma to_u64_range a : in_u64 (to_u64 a).
Proof. destruct a as [| [] | |]; simpl; try width_lia. Qed.

#[export] Hint Resolve to_u64_range : ddi.

Example to_u64_of_Z : to_u64 (mul (of_Z 1000000007) (lit 3 (-2))) = 750000005.
Proof. vm_compute. reflexivity. Qed.
