(* ===== verification/Budget.v ===== *)
(** * Budget: one memory number divided across pipelines (src/budget.rs)

    What the container reports ([cgroup_limit]) is an argument; the installed budget is
    a value handed to what reads it.  [Amplification] is the running estimate in
    parts per thousand, updated with an atomic maximum. *)

From Stdlib Require Import ZArith Lia.
From stdpp Require Import base strings.
From S2P Require Import Prelude Error F64.

Open Scope Z_scope.

Record Budget := { per_pipeline : option Z }.

Definition SHARE_OF_CGROUP : f64 := lit 3 (-2).
Definition BATCH_SHARE : f64 := lit 1 (-1).
Definition ASSUMED_AMPLIFICATION : f64 := of_Z 8.
Definition KAFKA_RESERVE_BYTES : Z := 32 * 1024 * 1024.

(** [cgroup_limit], given what the two files hold: [None] when one cannot be read, and
    otherwise its trimmed text, parsed.  [max] in version 2 and the sentinel of version 1
    mean unlimited. *)
Inductive CgroupText := CgMax | CgNumber (n : Z) | CgGarbage.

Definition V1_UNLIMITED : Z := 0x7FFFFFFFFFFFF000.

Definition cgroup_limit (v2 v1 : option CgroupText) : option Z :=
  match v2 with
  | Some CgMax => None
  | Some (CgNumber n) => Some n
  | Some CgGarbage => None
  | None =>
      match v1 with
      | Some (CgNumber n) => if n <? V1_UNLIMITED then Some n else None
      | _ => None
      end
  end.

Section WithCgroup.
Context (limit : option Z).

Definition total (configured : option Z) : option Z :=
  let from_cgroup := (λ l, to_u64 (mul (of_Z l) SHARE_OF_CGROUP)) <$> limit in
  match configured, from_cgroup with
  | Some c, Some g => Some (Z.min c g)
  | Some c, None => Some c
  | None, g => g
  end.

Definition resolve (configured : option Z) (pipelines : Z) : Budget :=
  {| per_pipeline := (λ t, t / Z.max pipelines 1) <$> total configured |}.

Definition resolve_reserving (configured : option Z) (pipelines reserved : Z)
    : result Error Budget :=
  let t := total configured in
  match t with
  | Some t' =>
      if (0 <? reserved) && (t' <=? reserved)
      then Err (Config "the memory budget cannot hold what is set aside for librdkafka")
      else Ok {| per_pipeline := Some ((t' - Z.min reserved t') / Z.max pipelines 1) |}
  | None => Ok {| per_pipeline := None |}
  end.
End WithCgroup.

Definition unbounded : Budget := {| per_pipeline := None |}.

Definition batch_bytes (b : Budget) : option Z :=
  (λ p, to_u64 (mul (of_Z p) BATCH_SHARE)) <$> per_pipeline b.

Definition bytes_per_batch (b : Budget) (amplification : f64) : option Z :=
  (λ p, to_u64 (div (mul (of_Z p) BATCH_SHARE) (F64.max amplification (of_Z 1))))
    <$> per_pipeline b.

(** ** The measured ratio, in parts per thousand *)

Definition amplification_default : Z := to_u64 (mul ASSUMED_AMPLIFICATION (of_Z 1000)).

Definition amplification_get (a : Z) : f64 := div (of_Z a) (of_Z 1000).

Definition amplification_observe (a parquet_bytes decoded_bytes : Z) : Z :=
  if parquet_bytes =? 0 then a
  else Z.max a (to_u64 (mul (div (of_Z decoded_bytes) (of_Z parquet_bytes)) (of_Z 1000))).

(** ** Properties *)

Lemma amplification_observe_mono a p d : a ≤ amplification_observe a p d.
Proof. unfold amplification_observe. destruct (p =? 0); lia. Qed.

(** The shares never promise more memory than there is: every pipeline's share
    together with what is set aside fits the process's budget; a budget that cannot hold
    the reservation is refused, and one is unbounded only when nothing bounds the process. *)
Theorem resolve_reserving_fits limit configured pipelines reserved :
  0 < pipelines → 0 ≤ reserved →
  match resolve_reserving limit configured pipelines reserved with
  | Ok b =>
      match total limit configured, per_pipeline b with
      | Some t, Some share => (0 ≤ t → 0 ≤ share ∧ pipelines * share + reserved ≤ t)
      | None, None => True
      | _, _ => False
      end
  | Err _ => ∃ t, total limit configured = Some t ∧ t ≤ reserved
  end.
Proof.
  intros Hp Hr. unfold resolve_reserving. destruct (total limit configured) as [t|]; [|done].
  destruct (Z.ltb_spec 0 reserved), (Z.leb_spec t reserved); simpl;
    try (by exists t); intros Ht.
  all: rewrite (Z.max_l pipelines 1) by lia.
  all: pose proof (Z.mul_div_le (t - Z.min reserved t) pipelines ltac:(lia)).
  all: pose proof (Z.div_pos (t - Z.min reserved t) pipelines).
  all: lia.
Qed.

Lemma resolve_reserving_fits_witness :
  0 < 3 ∧ resolve_reserving None (Some 1000) 3 100 = Ok {| per_pipeline := Some 300 |}
  ∧ 3 * 300 + 100 ≤ 1000.
Proof.
  split; [lia|]. split; [reflexivity|].
  assert (Hr : 0 ≤ 100) by lia. assert (Hp : 0 < 3) by lia. assert (Ht : 0 ≤ 1000) by lia.
  exact (proj2 (resolve_reserving_fits None (Some 1000) 3 100 Hp Hr Ht)).
Defined.
