(* ===== verification/LogStream.v ===== *)
(** * LogStream: the resumable, incremental log-diff source (src/source/log_stream.rs)

    [LogStream] is [LogStreamBuilder]'s state; [next_batch] and the functions it calls
    return the new state and a result, so that what an error leaves behind is visible.
    delta-rs is the record [LogStore]: what reading the head, a commit's bytes and its
    actions, a snapshot of the log's own state and a commit object's timestamp answer
    while one call runs.

    The specification is [upto]: everything a table's history holds before a cursor.
    A batch is right when it is exactly what lies between its two cursors. *)

From Stdlib Require Import ZArith Lia.
From stdpp Require Import base list strings gmap.
From S2P Require Import Prelude Json Cursor Error F64 Budget.

Open Scope Z_scope.

(** ** Data *)

(** The delta kernel's actions, as far as this module reads them. *)
Record Add := {
  path : string;
  size : Z;
  add_data_change : bool;
  deletion_vector : bool;  (** [deletion_vector.is_some()] *)
  add_stats : option string;  (** the statistics, as JSON text *)
  partition_values : gmap string (option string);
}.

Inductive Action :=
  | A_Add (a : Add)
  | A_Remove (data_change : bool)
  | A_Txn (app_id : string) (version : Z)
  | A_CommitInfo (operation : option string) (info : gmap string Value)
  | A_Other.

Inductive ChangePolicy := FailOnChange | SkipChangeCommits | IgnoreChanges.

Inductive CommitClass :=
  | Data (adds : Z)
  | Compaction
  | Change (adds : Z)
  | NoData.

(** What a snapshot of the log at a version holds: [log_state]. *)
Record LogState (Schema : Type) := {
  state_version : Version;
  state_schema : Schema;
  state_id : option string;
}.
Arguments state_version {Schema}. Arguments state_schema {Schema}.
Arguments state_id {Schema}.

Record LogStore (Bytes Schema : Type) := {
  get_latest_version : Version → result DeltaTableError Version;
  read_commit_entry : Version → result DeltaTableError (option Bytes);
  get_actions : Version → Bytes → result DeltaTableError (list Action);
  log_state : option Version → result DeltaTableError (LogState Schema);
  last_modified : Version → option Z;
}.
Arguments get_latest_version {Bytes Schema}. Arguments read_commit_entry {Bytes Schema}.
Arguments get_actions {Bytes Schema}. Arguments log_state {Bytes Schema}.
Arguments last_modified {Bytes Schema}.

Record LogBatch (Schema : Type) := {
  start : StreamCursor;
  end_ : StreamCursor;
  files : list Add;
  file_versions : list Version;
  schema : Schema;
  through_version : Version;
  through_log_timestamp : option Z;
}.
Arguments start {Schema}. Arguments end_ {Schema}. Arguments files {Schema}.
Arguments file_versions {Schema}. Arguments schema {Schema}.
Arguments through_version {Schema}. Arguments through_log_timestamp {Schema}.

Record LogStream (Schema : Type) := {
  cursor : StreamCursor;
  max_files_per_batch : Z;
  max_bytes_per_batch : Z;
  policy : ChangePolicy;
  allow_commit_splitting : bool;
  pin_lookup_snapshots : bool;
  schema_cache : gmap Z Schema;
  head : option Version;
  source_uri : string;
  version_floor : Version;
  amplification : Z;
  stop_after : option Version;
  identity : option (Version * string);
}.
Arguments cursor {Schema}. Arguments max_files_per_batch {Schema}.
Arguments max_bytes_per_batch {Schema}. Arguments policy {Schema}.
Arguments allow_commit_splitting {Schema}. Arguments pin_lookup_snapshots {Schema}.
Arguments schema_cache {Schema}. Arguments head {Schema}. Arguments source_uri {Schema}.
Arguments version_floor {Schema}. Arguments amplification {Schema}.
Arguments stop_after {Schema}. Arguments identity {Schema}.

(** ** Pure functions of a commit's actions *)

Definition data_adds (actions : list Action) : list Add :=
  omap (λ a, match a with
             | A_Add add => if add_data_change add then Some add else None
             | _ => None
             end) actions.

(** [data_removes], of which only the number is used. *)
Definition data_removes (actions : list Action) : Z :=
  Z.of_nat (length (List.filter
    (λ a, match a with A_Remove dc => dc | _ => false end) actions)).

Definition classify (actions : list Action) : CommitClass :=
  let adds := Z.of_nat (length (List.filter
    (λ a, match a with A_Add add => add_data_change add | _ => false end) actions)) in
  let removes := data_removes actions in
  if 0 <? removes then Change adds
  else if 0 <? adds then Data adds
  else if existsb (λ a, match a with A_Add _ | A_Remove _ => true | _ => false end) actions
  then Compaction
  else NoData.

(** [a.size.max(0) as u64], and its sum over files (a wrapping [sum::<u64>()]). *)
Definition file_bytes (a : Add) : Z := u64 (Z.max (size a) 0).
Definition sum_bytes (l : list Add) : Z :=
  fold_left (λ acc a, u64 (acc + file_bytes a)) l 0.

(** *** [LogBatch]'s own methods *)

Section Batch.
Context {Schema : Type}.

Definition is_empty (b : LogBatch Schema) : bool :=
  match files b with [] => true | _ => false end.

(** [index] is a [usize]; out of range falls back to [through_version]. *)
Definition version_of (b : LogBatch Schema) (i : nat) : Version :=
  default (through_version b) (file_versions b !! i).

Definition total_bytes (b : LogBatch Schema) : Z := sum_bytes (files b).
End Batch.

(** How much of an oversized commit a split takes: the inner loop of [next_batch]. *)
Fixpoint split_take (max_files max_bytes : Z) (remaining : list Add) (take taken : Z) : Z :=
  match remaining with
  | [] => take
  | a :: rest =>
      let sz := file_bytes a in
      if (max_files <? take + 1) || ((max_bytes <? u64 (taken + sz)) && (0 <? take))
      then take
      else split_take max_files max_bytes rest (take + 1) (u64 (taken + sz))
  end.

(** ** The stream *)

Section Stream.
Context {Bytes Schema : Type}.

Abbreviation Stream := (LogStream Schema).
Abbreviation Store := (LogStore Bytes Schema).

(** Assignments to one field of [self]. *)
Definition set_cursor (new : StreamCursor) (s : Stream) : Stream :=
  let '(Build_LogStream _ _ mf mb p sp pin sc h uri fl amp st id) := s in
  Build_LogStream Schema new mf mb p sp pin sc h uri fl amp st id.
Definition set_schema_cache (new : gmap Z Schema) (s : Stream) : Stream :=
  let '(Build_LogStream _ c mf mb p sp pin _ h uri fl amp st id) := s in
  Build_LogStream Schema c mf mb p sp pin new h uri fl amp st id.
Definition set_head (new : option Version) (s : Stream) : Stream :=
  let '(Build_LogStream _ c mf mb p sp pin sc _ uri fl amp st id) := s in
  Build_LogStream Schema c mf mb p sp pin sc new uri fl amp st id.
Definition set_version_floor (new : Version) (s : Stream) : Stream :=
  let '(Build_LogStream _ c mf mb p sp pin sc h uri _ amp st id) := s in
  Build_LogStream Schema c mf mb p sp pin sc h uri new amp st id.
Definition set_stop_after (new : option Version) (s : Stream) : Stream :=
  let '(Build_LogStream _ c mf mb p sp pin sc h uri fl amp _ id) := s in
  Build_LogStream Schema c mf mb p sp pin sc h uri fl amp new id.
Definition set_identity (new : option (Version * string)) (s : Stream) : Stream :=
  let '(Build_LogStream _ c mf mb p sp pin sc h uri fl amp st _) := s in
  Build_LogStream Schema c mf mb p sp pin sc h uri fl amp st new.

(** What the stream shares with the pipeline that decodes its batches: [amplification]. *)
Definition set_amplification (new : Z) (s : Stream) : Stream :=
  let '(Build_LogStream _ c mf mb p sp pin sc h uri fl _ st id) := s in
  Build_LogStream Schema c mf mb p sp pin sc h uri fl new st id.

(** *** Building one *)

(** [LogStreamBuilder::new] on a loaded table: its root URL, version and id. *)
Definition stream_new (root_url : string) (table_version : option Version)
    (table_id : option string) : Stream :=
  {| cursor := at_version 0; max_files_per_batch := 1000;
     max_bytes_per_batch := 256 * 1024 * 1024; policy := FailOnChange;
     allow_commit_splitting := false; pin_lookup_snapshots := false;
     schema_cache := ∅; head := None; source_uri := root_url;
     version_floor := default 0 table_version; amplification := amplification_default;
     stop_after := None;
     identity := match table_version, table_id with
                 | Some v, Some i => Some (v, i)
                 | _, _ => None
                 end |}.

Definition with_starting_cursor (c : StreamCursor) (s : Stream) : Stream := set_cursor c s.
Definition with_starting_version (v : Version) (s : Stream) : Stream :=
  set_cursor (at_version v) s.
(** [with_starting_timestamp], given the version the table loads to at that time. *)
Definition with_starting_timestamp (loaded : result DeltaTableError (option Version))
    (s : Stream) : result Error Stream :=
  match loaded with
  | Ok v => Ok (set_cursor (at_version (default 0 v)) s)
  | Err e => Err (Delta e)
  end.
Definition with_stop_after (v : option Version) (s : Stream) : Stream := set_stop_after v s.
Definition release_stop (s : Stream) : Stream := set_stop_after None s.
Definition with_source_uri (new : string) (s : Stream) : Stream :=
  let '(Build_LogStream _ c mf mb p sp pin sc h _ fl amp st id) := s in
  Build_LogStream Schema c mf mb p sp pin sc h new fl amp st id.
Definition with_max_files_per_batch (n : Z) (s : Stream) : Stream :=
  let '(Build_LogStream _ c _ mb p sp pin sc h uri fl amp st id) := s in
  Build_LogStream Schema c (Z.max n 1) mb p sp pin sc h uri fl amp st id.
Definition with_max_bytes_per_batch (n : Z) (s : Stream) : Stream :=
  let '(Build_LogStream _ c mf _ p sp pin sc h uri fl amp st id) := s in
  Build_LogStream Schema c mf (Z.max n 1) p sp pin sc h uri fl amp st id.
Definition with_change_policy (new : ChangePolicy) (s : Stream) : Stream :=
  let '(Build_LogStream _ c mf mb _ sp pin sc h uri fl amp st id) := s in
  Build_LogStream Schema c mf mb new sp pin sc h uri fl amp st id.
Definition with_commit_splitting (yes : bool) (s : Stream) : Stream :=
  let '(Build_LogStream _ c mf mb p _ pin sc h uri fl amp st id) := s in
  Build_LogStream Schema c mf mb p yes pin sc h uri fl amp st id.
Definition with_pinned_lookup_snapshots (yes : bool) (s : Stream) : Stream :=
  let '(Build_LogStream _ c mf mb p sp _ sc h uri fl amp st id) := s in
  Build_LogStream Schema c mf mb p sp yes sc h uri fl amp st id.

(** The most bytes this batch may combine, under the process's budget. *)
Definition combined_ceiling (budget : Budget) (s : Stream) : Z :=
  match bytes_per_batch budget (amplification_get (amplification s)) with
  | Some b => Z.min (max_bytes_per_batch s) b
  | None => max_bytes_per_batch s
  end.

Definition replaced (s : Stream) (detail : string) : Error :=
  SourceReplaced (source_uri s) detail.

(** [check_identity]: whether a snapshot just loaded is of the table being read. *)
Definition check_identity (S : Store) (s : Stream) (v : Version) (now : option string)
    : Stream * result Error unit :=
  match now, identity s with
  | None, _ => (s, Ok tt)
  | _, None => (s, Ok tt)
  | Some now, Some (seen_at, was) =>
      if decide (was = now) then (set_identity (Some (v, now)) s, Ok tt)
      else match log_state S (Some seen_at) with
           | Err e => (s, Err (Delta e))
           | Ok then_ =>
               if decide (state_id then_ = Some was)
               then (set_identity (Some (v, now)) s, Ok tt)
               else (s, Err (replaced s "its table id changed"))
           end
  end.

(** [latest_version] *)
Definition latest_version (S : Store) (s : Stream) : Stream * result Error Version :=
  match get_latest_version S (version_floor s) with
  | Ok v => (set_version_floor v s, Ok v)
  | Err D_InvalidVersion =>
      match log_state S None with
      | Err e => (s, Err (Delta e))
      | Ok hd =>
          let resolved := state_version hd in
          if resolved <? version_floor s
          then (s, Err (replaced s "its head is now below a version already seen"))
          else match check_identity S s resolved (state_id hd) with
               | (s, Err e) => (s, Err e)
               | (s, Ok _) =>
                   let s := set_version_floor resolved s in
                   (s, match get_latest_version S resolved with
                       | Ok v => Ok v
                       | Err e => Err (Delta e)
                       end)
               end
      end
  | Err e => (s, Err (Delta e))
  end.

(** [commit_log_timestamp] *)
Definition commit_log_timestamp (S : Store) (v : Version) : result Error Z :=
  ok_or (last_modified S v) (Other "cannot read Delta-log timestamp for source commit").

(** [schema_at] *)
Definition schema_at (S : Store) (s : Stream) (v : Version) : Stream * result Error Schema :=
  match schema_cache s !! v with
  | Some sch => (s, Ok sch)
  | None =>
      match log_state S (Some v) with
      | Err e => (s, Err (Delta e))
      | Ok snapshot =>
          match check_identity S s (state_version snapshot) (state_id snapshot) with
          | (s, Err e) => (s, Err e)
          | (s, Ok _) =>
              let cache := if decide (8 < base.size (schema_cache s))%nat then ∅
                           else schema_cache s in
              (set_schema_cache (<[v := state_schema snapshot]> cache) s,
               Ok (state_schema snapshot))
          end
      end
  end.

(** *** [next_batch] *)

(** The local variables its loop updates. *)
Record BatchAcc := {
  a_files : list (Version * Add);
  a_bytes : Z;
  a_cursor : StreamCursor;
  a_through : option Version;
  a_stamp : option Z;
}.

(** What one iteration of the loop does: [continue], [break] or a [return Err]. *)
Inductive Flow := Continue (acc : BatchAcc) | Break (acc : BatchAcc) | Return (e : Error).

Definition skip_commit (acc : BatchAcc) : BatchAcc :=
  {| a_files := a_files acc; a_bytes := a_bytes acc;
     a_cursor := next_version (a_cursor acc); a_through := a_through acc;
     a_stamp := a_stamp acc |}.

(** The [adds] of a commit under the policy: [None] skips it. *)
Definition commit_adds (p : ChangePolicy) (v : Version) (actions : list Action)
    : result Error (option (list Add)) :=
  match classify actions, p with
  | (Compaction | NoData), _ => Ok None
  | Change _, FailOnChange => Err (ChangeCommit v)
  | Change _, SkipChangeCommits => Ok None
  | Change _, IgnoreChanges => Ok (Some (data_adds actions))
  | Data _, _ => Ok (Some (data_adds actions))
  end.

(** The timestamp a pinned stream records for the commit it ends at. *)
Definition stamp (S : Store) (s : Stream) (v : Version) (old : option Z)
    : result Error (option Z) :=
  if pin_lookup_snapshots s
  then let? t := commit_log_timestamp S v in Ok (Some t)
  else Ok old.

(** What is done with a commit's remaining files: all of them, none yet, or as many as
    a split takes. *)
Definition admit_commit (S : Store) (budget : Budget) (s : Stream) (acc : BatchAcc)
    (remaining : list Add) : Flow :=
  let v := version (a_cursor acc) in
  let n := Z.of_nat (length remaining) in
  let commit_bytes := sum_bytes remaining in
  let fits_files := Z.of_nat (length (a_files acc)) + n <=? max_files_per_batch s in
  let ceiling := match a_files acc with
                 | [] => max_bytes_per_batch s
                 | _ => combined_ceiling budget s
                 end in
  let fits_bytes := u64 (a_bytes acc + commit_bytes) <=? ceiling in
  if fits_files && fits_bytes then
    match stamp S s v (a_stamp acc) with
    | Err e => Return e
    | Ok t =>
        let acc := {| a_files := a_files acc ++ ((v,.) <$> remaining);
                      a_bytes := u64 (a_bytes acc + commit_bytes);
                      a_cursor := next_version (a_cursor acc);
                      a_through := Some v; a_stamp := t |} in
        if pin_lookup_snapshots s then Break acc else Continue acc
    end
  else match a_files acc with
  | _ :: _ => Break acc
  | [] =>
      if negb (allow_commit_splitting s)
      then Return (CommitTooLarge v n commit_bytes (max_files_per_batch s)
                     (max_bytes_per_batch s))
      else
        let take0 := split_take (max_files_per_batch s) (max_bytes_per_batch s) remaining 0 0 in
        let take_ := Z.min (Z.max take0 1) n in
        match stamp S s v (a_stamp acc) with
        | Err e => Return e
        | Ok t =>
            Break {| a_files := a_files acc ++ ((v,.) <$> take (Z.to_nat take_) remaining);
                     a_bytes := a_bytes acc;
                     a_cursor := advanced_by (a_cursor acc) take_;
                     a_through := Some v; a_stamp := t |}
        end
  end.

(** One iteration of the [while cursor.version <= readable] loop. *)
Definition iteration (S : Store) (budget : Budget) (s : Stream) (acc : BatchAcc) : Flow :=
  let v := version (a_cursor acc) in
  match read_commit_entry S v with
  | Err e => Return (Delta e)
  | Ok None =>
      match a_files acc with
      | [] => Return (CursorUnavailable (source_uri s) (a_cursor acc))
      | _ => Break acc
      end
  | Ok (Some raw) =>
      match get_actions S v raw with
      | Err e => Return (Delta e)
      | Ok actions =>
          match commit_adds (policy s) v actions with
          | Err e => Return e
          | Ok None => Continue (skip_commit acc)
          | Ok (Some adds) =>
              match List.find deletion_vector adds with
              | Some a => Return (DeletionVectorUnsupported v (path a))
              | None =>
                  let already := Z.min (index (a_cursor acc)) (Z.of_nat (length adds)) in
                  match drop (Z.to_nat already) adds with
                  | [] => Continue (skip_commit acc)
                  | remaining => admit_commit S budget s acc remaining
                  end
              end
          end
      end
  end.

(** The loop, [None] when the fuel runs out. *)
Fixpoint batch_loop (S : Store) (budget : Budget) (s : Stream) (readable : Version)
    (fuel : nat) (acc : BatchAcc) : option (result Error BatchAcc) :=
  if negb (version (a_cursor acc) <=? readable) then Some (Ok acc)
  else match fuel with
  | O => None
  | Datatypes.S fuel =>
      match iteration S budget s acc with
      | Return e => Some (Err e)
      | Break acc => Some (Ok acc)
      | Continue acc => batch_loop S budget s readable fuel acc
      end
  end.

(** One more iteration than there are readable versions. *)
Definition loop_fuel (readable : Version) (c : StreamCursor) : nat :=
  Z.to_nat (readable - version c + 1).

Definition acc0 (s : Stream) : BatchAcc :=
  {| a_files := []; a_bytes := 0; a_cursor := cursor s; a_through := None;
     a_stamp := None |}.

(** What [next_batch] does once the loop has run. *)
Definition finish_batch (S : Store) (s : Stream) (acc : BatchAcc)
    : Stream * result Error (option (LogBatch Schema)) :=
  match a_files acc with
  | [] => (set_cursor (a_cursor acc) s, Ok None)
  | _ =>
      let through := default (version (cursor s)) (a_through acc) in
      match schema_at S s through with
      | (s', Err e) => (s', Err e)
      | (s', Ok sch) =>
          (set_cursor (a_cursor acc) s',
           Ok (Some {| start := cursor s; end_ := a_cursor acc;
                       files := (a_files acc).*2; file_versions := (a_files acc).*1;
                       schema := sch; through_version := through;
                       through_log_timestamp := a_stamp acc |}))
      end
  end.

Definition next_batch (S : Store) (budget : Budget) (s : Stream)
    : Stream * option (result Error (option (LogBatch Schema))) :=
  match latest_version S s with
  | (s, Err e) => (s, Some (Err e))
  | (s, Ok latest) =>
      let s := set_head (Some latest) s in
      let readable := match stop_after s with
                      | Some stop => Z.min stop latest
                      | None => latest
                      end in
      if readable <? version (cursor s) then (s, Some (Ok None))
      else match batch_loop S budget s readable (loop_fuel readable (cursor s)) (acc0 s) with
           | None => (s, None)
           | Some (Err e) => (s, Some (Err e))
           | Some (Ok acc) => let '(s, r) := finish_batch S s acc in (s, Some r)
           end
  end.

(** [keeps_identity]: for a reopen, whether a table's log still gives [v] the id [id]. *)
Definition keeps_identity (S : Store) (table_version : option Version) (v : Version)
    (id : string) : result Error bool :=
  if match table_version with None => true | Some hd => hd <? v end then Ok false
  else match log_state S (Some v) with
       | Ok then_ => Ok (bool_decide (state_id then_ = Some id))
       | Err (D_InvalidVersion | D_NotATable) => Ok false
       | Err D_NotFound => Ok false
       | Err D_Kernel =>
           match read_commit_entry S v with
           | Ok None => Ok false
           | _ => Err (Delta D_Kernel)
           end
       | Err e => Err (Delta e)
       end.
End Stream.

(** ** The oldest commit a log still holds *)

(** [NNNNNNNNNNNNNNNNNNNN.json] and nothing else. *)
Definition commit_file_version (name : string) : option Version :=
  let l := String.list_ascii_of_string name in
  let n := (length l - 5)%nat in
  if decide (String.string_of_list_ascii (drop n l) = ".json") then
    if decide (n = 20%nat) then
      match parse_digits (String.string_of_list_ascii (take n l)) with
      | Some v => if Z.of_N v <=? u64_max then Some (Z.of_N v) else None
      | None => None
      end
    else None
  else None.

(** [earliest_readable_commit] over a listing: file names with their times, in any order. *)
Definition earliest_readable_commit (listing : list (option string * Z))
    : option (Version * Z) :=
  fold_left (λ oldest '(name, modified),
    match name ≫= commit_file_version with
    | None => oldest
    | Some v =>
        match oldest with
        | Some (held, _) => if v <? held then Some (v, modified) else oldest
        | None => Some (v, modified)
        end
    end) listing None.

(** ** The specification: what a history holds before a cursor *)

Definition Log := Version → list Action.

(** The files a commit contributes under a policy; nothing for one that is skipped, and
    nothing for one the policy refuses, which no stream gets past. *)
Definition emits (p : ChangePolicy) (actions : list Action) : list Add :=
  match commit_adds p 0 actions with
  | Ok (Some adds) => adds
  | _ => []
  end.

Definition vadds (L : Log) (p : ChangePolicy) (v : Version) : list (Version * Add) :=
  (v,.) <$> emits p (L v).

(** Everything before cursor [c], in commit then log order, each file with its version. *)
Definition upto (L : Log) (p : ChangePolicy) (c : StreamCursor) : list (Version * Add) :=
  mjoin (vadds L p <$> seqZ 0 (version c)) ++
  take (Z.to_nat (index c)) (vadds L p (version c)).

(** Bytes of files as the log states them, without wrap-around. *)
Definition total (l : list Add) : Z := foldr (λ a t, Z.max (size a) 0 + t) 0 l.

(** A log store that serves (part of) history [L]: a commit it can read is the one that
    was committed (Delta commits are never rewritten), versions fit the protocol's [i64]
    and a parsed commit is a [Vec]. *)
Record serves {Bytes Schema} (S : LogStore Bytes Schema) (L : Log) : Prop := {
  serves_actions v raw actions :
    read_commit_entry S v = Ok (Some raw) → get_actions S v raw = Ok actions →
    actions = L v;
  serves_head floor v : get_latest_version S floor = Ok v → 0 ≤ v < i64_max;
  serves_len v : Z.of_nat (length (L v)) ≤ i64_max;
}.

Lemma commit_adds_emits p v acts adds :
  commit_adds p v acts = Ok (Some adds) → emits p acts = adds.
Proof. unfold emits, commit_adds. by destruct (classify acts), p; intros [= <-]. Qed.

Lemma commit_adds_skips p v acts : commit_adds p v acts = Ok None → emits p acts = [].
Proof. unfold emits, commit_adds. by destruct (classify acts), p. Qed.

Lemma emits_length p acts : (length (emits p acts) ≤ length acts)%nat.
Proof.
  assert (H : (length (data_adds acts) ≤ length acts)%nat) by apply length_omap_le.
  unfold emits, commit_adds. destruct (classify acts), p; first [exact H | apply Nat.le_0_l].
Qed.

Section Upto.
Context (L : Log) (p : ChangePolicy).

Lemma upto_next c :
  0 ≤ version c < u64_max →
  upto L p (next_version c) = upto L p c ++ drop (Z.to_nat (index c)) (vadds L p (version c)).
Proof.
  intros Hv. rewrite next_version_eq by done. unfold upto; simpl.
  rewrite take_0, app_nil_r, <- app_assoc, take_drop.
  rewrite seqZ_snoc, fmap_app, join_app by lia; simpl. by rewrite app_nil_r.
Qed.

Lemma upto_advanced c n :
  0 ≤ index c → 0 ≤ n → index c + n ≤ u64_max →
  upto L p (advanced_by c n) =
  upto L p c ++ take (Z.to_nat n) (drop (Z.to_nat (index c)) (vadds L p (version c))).
Proof.
  intros Hi Hn Hb. unfold upto; simpl. rewrite u64_small by width_lia.
  rewrite <- app_assoc. f_equal. rewrite Z2Nat.inj_add by done.
  by rewrite take_take_drop.
Qed.
End Upto.
