(* ===== verification/LogStreamCorrect.v ===== *)
(** * LogStreamCorrect: what a batch of the log stream is

    The theorems about [LogStream.next_batch]: a batch is exactly what the history holds
    between its two cursors, whatever the limits; it respects the limits, never splits a
    commit unless told to, always moves forward, and is only withheld when everything
    readable has been read. *)

From Stdlib Require Import ZArith Lia.
From stdpp Require Import base list strings gmap.
From S2P Require Import Prelude Cursor Error F64 Budget LogStream.

Open Scope Z_scope.

Lemma sum_bytes_range l : in_u64 (sum_bytes l).
Proof.
  unfold sum_bytes. destruct l as [|a l _] using rev_ind; [simpl; width_lia|].
  rewrite fold_left_app; simpl. apply u64_range.
Qed.

(** The accumulator an iteration goes on or stops with. *)
Definition flow_acc (f : Flow) : option BatchAcc :=
  match f with Continue acc | Break acc => Some acc | Return _ => None end.

(** The file count and bytes a call may deliver. *)
Definition within_limits (max_files max_bytes : Z) (l : list Add) : Prop :=
  Z.of_nat (length l) ≤ max_files ∧ (total l ≤ max_bytes ∨ length l = 1%nat).

Section Loop.
Context {Bytes Schema : Type}.
Context (S : LogStore Bytes Schema) (L : Log) (HS : serves S L).
Context (budget : Budget) (s : LogStream Schema).
Context (Hfiles : 1 ≤ max_files_per_batch s).

(** What holds of the loop's variables between iterations, and where it stops. *)
Record inv (acc : BatchAcc) : Prop := {
  inv_upto :
    upto L (policy s) (a_cursor acc) = upto L (policy s) (cursor s) ++ a_files acc;
  inv_wf : wf (a_cursor acc);
  inv_forward : a_cursor acc = cursor s ∨ cmp (cursor s) (a_cursor acc) = Lt;
  inv_moved : a_files acc ≠ [] → cmp (cursor s) (a_cursor acc) = Lt;
  inv_files : Z.of_nat (length (a_files acc)) ≤ max_files_per_batch s;
  inv_whole :
    allow_commit_splitting s = false → index (cursor s) = 0 → index (a_cursor acc) = 0;
}.

Lemma inv_acc0 : wf (cursor s) → inv (acc0 s).
Proof.
  intros Hwf. split; simpl; try done; try lia.
  - by rewrite app_nil_r.
  - by left.
Qed.

Lemma next_version_forward acc :
  inv acc → version (a_cursor acc) < u64_max →
  cmp (cursor s) (next_version (a_cursor acc)) = Lt.
Proof.
  intros I Hv. destruct I as [_ [Hv0 _] HF _ _ _].
  rewrite next_version_eq by width_lia. apply cmp_lt. left; simpl.
  destruct HF as [->|[?|[? ?]]%cmp_lt]; lia.
Qed.

(** Skipping a commit that contributes nothing at or after the cursor. *)
Lemma inv_skip acc :
  inv acc → version (a_cursor acc) < u64_max →
  drop (Z.to_nat (index (a_cursor acc))) (vadds L (policy s) (version (a_cursor acc))) = [] →
  inv (skip_commit acc).
Proof.
  intros I Hv Hd. pose proof (next_version_forward acc I Hv) as Hlt.
  destruct I as [? [Hv0 _]]. split; simpl; try done.
  - rewrite upto_next by width_lia. by rewrite Hd, app_nil_r.
  - apply wf_next_version.
  - by right.
Qed.

(** The remaining files of a commit are what the history holds there. *)
Lemma drop_already i (adds : list Add) (v : Version) :
  0 ≤ i →
  (v,.) <$> drop (Z.to_nat (Z.min i (Z.of_nat (length adds)))) adds =
  drop (Z.to_nat i) ((v,.) <$> adds).
Proof.
  intros Hi. rewrite <- fmap_drop. f_equal.
  destruct (Z.leb_spec i (Z.of_nat (length adds))) as [H|H].
  - by rewrite Z.min_l by lia.
  - rewrite Z.min_r, Nat2Z.id by lia. rewrite !drop_ge; [done|lia..].
Qed.

Lemma split_take_bounds mf mb rem t taken :
  0 ≤ t → t ≤ mf →
  t ≤ split_take mf mb rem t taken ≤ mf ∧
  split_take mf mb rem t taken ≤ t + Z.of_nat (length rem).
Proof.
  revert t taken; induction rem as [|a rem IH]; intros t taken Ht Hm; simpl; [lia|].
  destruct (Z.ltb_spec mf (t + 1)); simpl; [lia|].
  destruct ((mb <? _) && (0 <? t)); [lia|].
  specialize (IH (t + 1) (u64 (taken + file_bytes a)) ltac:(lia) ltac:(lia)). lia.
Qed.

Lemma admit_commit_inv acc remaining acc' :
  inv acc → version (a_cursor acc) < u64_max →
  remaining ≠ [] →
  (version (a_cursor acc),.) <$> remaining =
    drop (Z.to_nat (index (a_cursor acc))) (vadds L (policy s) (version (a_cursor acc))) →
  flow_acc (admit_commit S budget s acc remaining) = Some acc' →
  inv acc'.
Proof.
  intros I Hv Hne Hrem Hflow.
  pose proof (next_version_forward acc I Hv) as Hlt.
  pose proof (length_fmap (version (a_cursor acc),.) remaining) as Hlr.
  rewrite Hrem, length_drop in Hlr. unfold vadds in Hlr. rewrite length_fmap in Hlr.
  pose proof (emits_length (policy s) (L (version (a_cursor acc)))) as Hle.
  pose proof (serves_len _ _ HS (version (a_cursor acc))) as HL.
  assert (length remaining ≠ 0%nat) by (by destruct remaining).
  unfold admit_commit in Hflow.
  set (take_ := Z.min (Z.max (split_take _ _ _ _ _) 1) _) in Hflow.
  assert (Ht : 1 ≤ take_ ≤ max_files_per_batch s ∧ take_ ≤ Z.of_nat (length remaining)).
  { pose proof (split_take_bounds (max_files_per_batch s) (max_bytes_per_batch s)
      remaining 0 0). unfold take_. lia. }
  clearbody take_.
  destruct (_ && _) eqn:Hfits; [|destruct (a_files acc) as [|f fs] eqn:Hf].
  - (* the whole commit *)
    destruct (stamp _ _ _ _) as [t|]; simpl in Hflow; [|done].
    assert (Hinv : inv {| a_files := a_files acc ++ ((version (a_cursor acc),.) <$> remaining);
              a_bytes := u64 (a_bytes acc + sum_bytes remaining);
              a_cursor := next_version (a_cursor acc);
              a_through := Some (version (a_cursor acc)); a_stamp := t |}).
    { apply andb_true_iff in Hfits as [Hff%Z.leb_le _].
      destruct I as [HU [Hv0 Hi0]]. split; simpl; try done.
      - rewrite upto_next by width_lia. by rewrite Hrem, HU, app_assoc.
      - apply wf_next_version.
      - by right.
      - rewrite length_app, length_fmap. lia. }
    by destruct (pin_lookup_snapshots s); simplify_eq/=.
  - (* a split, or a refusal *)
    destruct (negb _) eqn:Hsp; [done|].
    destruct (stamp _ _ _ _) as [t|]; simplify_eq/=.
    destruct I as [HU [Hv0 Hi0] HF _ _ HW].
    assert (Hcmp : cmp (cursor s) (advanced_by (a_cursor acc) take_) = Lt).
    { apply cmp_lt; simpl. rewrite u64_small by width_lia.
      destruct HF as [->|[?|[? ?]]%cmp_lt]; lia. }
    split; simpl; try done.
    + rewrite upto_advanced by width_lia. by rewrite <- Hrem, HU, fmap_take, Hf, app_nil_r.
    + by apply wf_advanced_by.
    + by right.
    + rewrite length_fmap, length_take. lia.
    + intros Hno. by rewrite Hno in Hsp.
  - by simplify_eq/=.
Qed.

Lemma iteration_inv acc acc' :
  inv acc → version (a_cursor acc) < u64_max →
  flow_acc (iteration S budget s acc) = Some acc' → inv acc'.
Proof.
  intros I Hv. unfold iteration.
  destruct (read_commit_entry _ _) as [[raw|]|] eqn:Hr; [|by destruct (a_files acc); intros [= <-]|done].
  destruct (get_actions _ _ _) as [actions|] eqn:Ha; [|done].
  pose proof (serves_actions _ _ HS _ _ _ Hr Ha) as ->.
  destruct (commit_adds _ _ _) as [[adds|]|] eqn:Hc; [|intros [= <-]|done].
  - apply commit_adds_emits in Hc. destruct (List.find _ _); [done|].
    pose proof (drop_already (index (a_cursor acc)) adds (version (a_cursor acc))
                  (proj1 (proj2 (inv_wf _ I)))) as Hd.
    destruct (drop _ adds) as [|a rem] eqn:Hrem; intros Hflow.
    + injection Hflow as <-. apply inv_skip; [done..|]. unfold vadds. by rewrite Hc, <- Hd.
    + eapply admit_commit_inv; [done|done|..|exact Hflow]; [done|].
      unfold vadds. by rewrite Hc, <- Hd.
  - apply commit_adds_skips in Hc. apply inv_skip; [done..|].
    unfold vadds. by rewrite Hc, fmap_nil, drop_nil.
Qed.

Lemma batch_loop_inv readable fuel acc acc' :
  inv acc → readable < u64_max →
  batch_loop S budget s readable fuel acc = Some (Ok acc') → inv acc'.
Proof.
  revert acc; induction fuel as [|fuel IH]; intros acc I Hr; simpl.
  - destruct (Z.leb_spec (version (a_cursor acc)) readable); by intros [= <-].
  - destruct (Z.leb_spec (version (a_cursor acc)) readable); simpl; [|by intros [= <-]].
    pose proof (λ a, iteration_inv acc a I ltac:(lia)) as HI.
    destruct (iteration S budget s acc) as [a|a|e]; intros Hl; simplify_eq.
    + apply (IH a); [by apply HI|done..].
    + by apply HI.
Qed.
End Loop.

(** ** What a call leaves alone *)

Section Frame.
Context {Bytes Schema : Type}.
Context (S : LogStore Bytes Schema).

(** The cursor and the configuration are the same. *)
Record frame (s s' : LogStream Schema) : Prop := {
  frame_cursor : cursor s' = cursor s;
  frame_max_files : max_files_per_batch s' = max_files_per_batch s;
  frame_max_bytes : max_bytes_per_batch s' = max_bytes_per_batch s;
  frame_policy : policy s' = policy s;
  frame_splitting : allow_commit_splitting s' = allow_commit_splitting s;
  frame_pin : pin_lookup_snapshots s' = pin_lookup_snapshots s;
  frame_stop : stop_after s' = stop_after s;
}.

#[export] Instance frame_preorder : PreOrder frame.
Proof. split; [by intros []|]. intros ??? [] []; split; congruence. Qed.

Lemma frame_set_head h s : frame s (set_head h s).
Proof. by destruct s. Qed.
Lemma frame_set_floor v s : frame s (set_version_floor v s).
Proof. by destruct s. Qed.
Lemma frame_set_cache m s : frame s (set_schema_cache m s).
Proof. by destruct s. Qed.
Lemma frame_set_identity i s : frame s (set_identity i s).
Proof. by destruct s. Qed.
Hint Resolve frame_set_head frame_set_floor frame_set_cache frame_set_identity : core.
Hint Extern 1 (frame ?s ?s) => reflexivity : core.

Lemma check_identity_frame s v now s' r : check_identity S s v now = (s', r) → frame s s'.
Proof.
  unfold check_identity. destruct now, (identity s) as [[seen was]|];
    try (by intros [= <- <-]).
  case_decide; [by intros [= <- <-]|]. destruct (log_state S _); [|by intros [= <- <-]].
  case_decide; by intros [= <- <-].
Qed.

Lemma latest_version_frame s s' r : latest_version S s = (s', r) → frame s s'.
Proof.
  unfold latest_version. destruct (get_latest_version S _) as [v|[]]; try by intros [= <- <-].
  destruct (log_state S None) as [hd|]; [|by intros [= <- <-]].
  destruct (_ <? _); [by intros [= <- <-]|].
  destruct (check_identity _ _ _ _) as [s1 [u|e]] eqn:Hc;
    apply check_identity_frame in Hc; intros [= <- <-]; [by etrans|done].
Qed.

Lemma latest_version_head s s' v :
  latest_version S s = (s', Ok v) → ∃ fl, get_latest_version S fl = Ok v.
Proof.
  unfold latest_version.
  destruct (get_latest_version S (version_floor s)) as [w|[]] eqn:E; try done;
    [by intros [= <- <-]; eauto|].
  destruct (log_state S None) as [hd|]; [|done]. destruct (_ <? _); [done|].
  destruct (check_identity _ _ _ _) as [s1 [u|e]]; [|done].
  destruct (get_latest_version S (state_version hd)) eqn:E2; [|done].
  intros [= <- <-]; eauto.
Qed.

Lemma schema_at_frame s v s' r : schema_at S s v = (s', r) → frame s s'.
Proof.
  unfold schema_at. destruct (schema_cache s !! v); [by intros [= <- <-]|].
  destruct (log_state S _) as [st|]; [|by intros [= <- <-]].
  destruct (check_identity _ _ _ _) as [s1 [u|e]] eqn:Hc;
    apply check_identity_frame in Hc; intros [= <- <-]; [by etrans|done].
Qed.

(** How far a call reads: the head, or the version it was told to stop after. *)
Definition readable_to (s : LogStream Schema) (latest : Version) : Version :=
  match stop_after s with Some stop => Z.min stop latest | None => latest end.

(** What the state and the answer of a call are, from the loop's result. *)
Record answers (s s' : LogStream Schema) (latest : Version) (acc : BatchAcc)
    (r : option (LogBatch Schema)) : Prop := {
  ans_cursor : cursor s' = a_cursor acc;
  ans_batch :
    match r with
    | None => a_files acc = []
    | Some b =>
        a_files acc ≠ [] ∧ start b = cursor s ∧ end_ b = a_cursor acc ∧
        zip (file_versions b) (files b) = a_files acc ∧ files b = (a_files acc).*2
    end;
}.

Lemma next_batch_inv budget s s' r :
  next_batch S budget s = (s', Some (Ok r)) →
  ∃ latest fl s1,
    get_latest_version S fl = Ok latest ∧ frame s s1 ∧
    frame (set_cursor (cursor s') s) s' ∧
    ((r = None ∧ cursor s' = cursor s ∧ readable_to s latest < version (cursor s)) ∨
     ∃ acc, version (cursor s) ≤ readable_to s latest ∧
       batch_loop S budget s1 (readable_to s latest)
         (loop_fuel (readable_to s latest) (cursor s)) (acc0 s1) = Some (Ok acc) ∧
       answers s s' latest acc r).
Proof.
  unfold next_batch. destruct (latest_version S s) as [s0 [latest|e]] eqn:Hl; [|done].
  destruct (latest_version_head _ _ _ Hl) as [fl Hfl].
  apply latest_version_frame in Hl.
  set (s1 := set_head (Some latest) s0).
  assert (Hf : frame s s1) by (etrans; [exact Hl|apply frame_set_head]).
  change (match stop_after s1 with Some _ => _ | None => _ end) with (readable_to s1 latest).
  assert (readable_to s1 latest = readable_to s latest) as ->
    by (unfold readable_to; by rewrite (frame_stop _ _ Hf)).
  rewrite !(frame_cursor _ _ Hf).
  destruct (Z.ltb_spec (readable_to s latest) (version (cursor s))) as [Hr|Hr].
  { intros [= <- <-]. exists latest, fl, s1. rewrite (frame_cursor _ _ Hf).
    split; [done|]. split; [done|]. split; [|by left].
    assert (set_cursor (cursor s) s = s) as -> by (by destruct s). done. }
  destruct (batch_loop _ _ _ _ _ _) as [[acc|e]|] eqn:Hloop; [|done..].
  unfold finish_batch. intros Hfin.
  assert (HA : frame (set_cursor (cursor s') s) s' ∧ answers s s' latest acc r).
  { destruct (a_files acc) as [|f fs] eqn:Hfiles.
    - simplify_eq. split; [|by split; [destruct s1|]].
      destruct Hf; destruct s, s0; split; simpl in *; congruence.
    - destruct (schema_at S s1 _) as [s2 [sch|e]] eqn:Hs; [|done]. simplify_eq.
      apply schema_at_frame in Hs. assert (Hf2 : frame s s2) by (etrans; [exact Hf|exact Hs]).
      split; [destruct Hf2; destruct s, s2; split; simpl in *; congruence|].
      split; [by destruct s2|]. rewrite Hfiles.
      split; [done|]. split; [apply (frame_cursor _ _ Hf)|]. split; [done|].
      split; [apply (zip_fst_snd (f :: fs))|done]. }
  destruct HA as [HA1 HA2].
  exists latest, fl, s1. split; [done|]. split; [done|]. split; [done|].
  right. exists acc. done.
Qed.
End Frame.

(** ** Where the loop stops *)

Section Stops.
Context {Bytes Schema : Type}.
Context (S : LogStore Bytes Schema) (L : Log) (HS : serves S L).
Context (budget : Budget) (s : LogStream Schema).

Lemma iteration_continue acc acc' :
  iteration S budget s acc = Continue acc' → a_cursor acc' = next_version (a_cursor acc).
Proof.
  unfold iteration, admit_commit.
  destruct (read_commit_entry _ _) as [[raw|]|]; [|by destruct (a_files acc)|done].
  destruct (get_actions _ _ _) as [actions|]; [|done].
  destruct (commit_adds _ _ _) as [[adds|]|]; [|by intros [= <-]|done].
  destruct (List.find _ _); [done|].
  destruct (drop _ adds) as [|a rem]; [by intros [= <-]|].
  destruct (_ && _); [|destruct (a_files acc); [destruct (negb _); [done|]|done]].
  - destruct (stamp _ _ _ _); [|done].
    destruct (pin_lookup_snapshots s); [done|]. by intros [= <-].
  - by destruct (stamp _ _ _ _).
Qed.

Lemma iteration_break acc acc' :
  iteration S budget s acc = Break acc' → a_files acc' ≠ [].
Proof.
  unfold iteration, admit_commit.
  destruct (read_commit_entry _ _) as [[raw|]|];
    [|destruct (a_files acc) eqn:?; [done|]; intros [= <-]; congruence|done].
  destruct (get_actions _ _ _) as [actions|]; [|done].
  destruct (commit_adds _ _ _) as [[adds|]|]; [|done..].
  destruct (List.find _ _); [done|].
  destruct (drop _ adds) as [|a rem]; [done|].
  destruct (_ && _); [|destruct (a_files acc) eqn:?; [destruct (negb _); [done|]|]].
  - destruct (stamp _ _ _ _); [|done].
    destruct (pin_lookup_snapshots s); [|done]. intros [= <-]; simpl. by destruct (a_files acc).
  - destruct (stamp _ _ _ _); [|done]. intros [= <-].
    set (n := Z.min _ _). assert (∃ k, Z.to_nat n = Datatypes.S k) as [k Hk].
    { exists (Nat.pred (Z.to_nat n)). cbn [length] in n. unfold n. lia. }
    cbn [a_files]. by rewrite Hk.
  - intros [= <-]. congruence.
Qed.

(** The loop ends on its condition unless it has something to deliver. *)
Lemma batch_loop_drained readable fuel acc acc' :
  batch_loop S budget s readable fuel acc = Some (Ok acc') →
  a_files acc' = [] → readable < version (a_cursor acc').
Proof.
  revert acc; induction fuel as [|fuel IH]; intros acc; simpl;
    destruct (Z.leb_spec (version (a_cursor acc)) readable); simpl; try done;
    try (by intros [= <-]).
  destruct (iteration S budget s acc) as [a|a|e] eqn:Hi; [eauto| |done].
  intros [= <-] Ha. by apply iteration_break in Hi.
Qed.

(** The fuel is enough: the loop always ends, one iteration per readable version. *)
Lemma batch_loop_total readable fuel acc :
  0 ≤ version (a_cursor acc) → readable < u64_max →
  readable - version (a_cursor acc) + 1 ≤ Z.of_nat fuel →
  batch_loop S budget s readable fuel acc ≠ None.
Proof.
  revert acc; induction fuel as [|fuel IH]; intros acc Hv Hr Hf; simpl;
    destruct (Z.leb_spec (version (a_cursor acc)) readable); simpl; try done; [lia|].
  destruct (iteration S budget s acc) as [a|a|e] eqn:Hi; [|done..].
  apply iteration_continue in Hi. rewrite next_version_eq in Hi by lia.
  apply IH; rewrite ?Hi; simpl; lia.
Qed.

(** Nothing past [readable] is touched. *)
Definition bounded (readable : Version) (c : StreamCursor) : Prop :=
  version c ≤ readable ∨ (version c = readable + 1 ∧ index c = 0).

Lemma iteration_break_cursor acc acc' :
  iteration S budget s acc = Break acc' →
  a_cursor acc' = a_cursor acc ∨ a_cursor acc' = next_version (a_cursor acc) ∨
  ∃ n, a_cursor acc' = advanced_by (a_cursor acc) n.
Proof.
  unfold iteration, admit_commit.
  destruct (read_commit_entry _ _) as [[raw|]|];
    [|destruct (a_files acc) eqn:?; [done|]; intros [= <-]; by left|done].
  destruct (get_actions _ _ _) as [actions|]; [|done].
  destruct (commit_adds _ _ _) as [[adds|]|]; [|done..].
  destruct (List.find _ _); [done|].
  destruct (drop _ adds) as [|a rem]; [done|].
  destruct (_ && _); [|destruct (a_files acc) eqn:?; [destruct (negb _); [done|]|]].
  - destruct (stamp _ _ _ _); [|done].
    destruct (pin_lookup_snapshots s); [|done]. intros [= <-]; simpl. by right; left.
  - destruct (stamp _ _ _ _); [|done]. intros [= <-]. right; right; eauto.
  - intros [= <-]. by left.
Qed.

Lemma batch_loop_bounded readable fuel acc acc' :
  0 ≤ version (a_cursor acc) → readable < u64_max →
  bounded readable (a_cursor acc) →
  batch_loop S budget s readable fuel acc = Some (Ok acc') → bounded readable (a_cursor acc').
Proof.
  unfold bounded. revert acc; induction fuel as [|fuel IH]; intros acc Hv Hr Hb; simpl;
    destruct (Z.leb_spec (version (a_cursor acc)) readable); simpl; try done;
    try (by intros [= <-]).
  destruct (iteration S budget s acc) as [a|a|e] eqn:Hi; [| |done].
  - apply iteration_continue in Hi. rewrite next_version_eq in Hi by lia.
    apply IH; rewrite ?Hi; simpl; lia.
  - intros [= <-]. apply iteration_break_cursor in Hi as [->|[->|[n ->]]]; simpl; [lia| |lia].
    rewrite u64_small by width_lia. lia.
Qed.
End Stops.

(** ** Limits *)

Section Limits.
Context {Bytes Schema : Type}.
Context (S : LogStore Bytes Schema) (L : Log) (HS : serves S L).
Context (budget : Budget) (s : LogStream Schema).
Context (Hmax : 0 ≤ max_bytes_per_batch s ≤ i64_max).
Context (Hsize : ∀ v, total (emits (policy s) (L v)) ≤ i64_max).

Lemma total_nonneg l : 0 ≤ total l.
Proof. induction l as [|a l IH]; simpl; lia. Qed.

Lemma total_app l l' : total (l ++ l') = total l + total l'.
Proof. induction l as [|a l IH]; simpl; lia. Qed.

Lemma total_drop n l : total (drop n l) ≤ total l.
Proof.
  rewrite <- (take_drop n l) at 2. rewrite total_app. pose proof (total_nonneg (take n l)). lia.
Qed.

Lemma file_bytes_exact a l : total (a :: l) ≤ i64_max → file_bytes a = Z.max (size a) 0.
Proof.
  intros H. simpl in H. pose proof (total_nonneg l). unfold file_bytes.
  apply u64_small. width_lia.
Qed.

Lemma sum_bytes_exact l : total l ≤ i64_max → sum_bytes l = total l.
Proof.
  unfold sum_bytes. enough (H : ∀ acc, 0 ≤ acc → acc + total l ≤ 2 * i64_max →
    total l ≤ i64_max → fold_left (λ x a, u64 (x + file_bytes a)) l acc = acc + total l).
  { intros Hl. rewrite H; width_lia. }
  induction l as [|a l IH]; intros acc Hacc Hb Hl; simpl; [lia|].
  pose proof (total_nonneg l). rewrite (file_bytes_exact a l Hl). simpl in *.
  rewrite u64_small by width_lia. rewrite IH by lia. lia.
Qed.

Lemma split_take_bytes rem t taken done_ :
  total (done_ ++ rem) ≤ i64_max → taken = total done_ → t = Z.of_nat (length done_) →
  (taken ≤ max_bytes_per_batch s ∨ t = 1) →
  let n := split_take (max_files_per_batch s) (max_bytes_per_batch s) rem t taken in
  total (take (Z.to_nat n) (done_ ++ rem)) ≤ max_bytes_per_batch s ∨ n = 1.
Proof.
  revert t taken done_. induction rem as [|a rem IH]; intros t taken done_ Hb Htk Ht Hok; simpl.
  - rewrite app_nil_r, take_ge by lia. subst; lia.
  - assert (Hstop : total (take (Z.to_nat t) (done_ ++ a :: rem)) ≤ max_bytes_per_batch s ∨ t = 1).
    { rewrite take_app_le, take_ge by lia. subst; lia. }
    destruct (Z.ltb_spec (max_files_per_batch s) (t + 1)); simpl; [done|].
    rewrite total_app in Hb. pose proof (total_nonneg done_). pose proof (total_nonneg rem).
    rewrite (file_bytes_exact a rem) by lia. simpl in Hb.
    rewrite u64_small by width_lia.
    destruct (Z.ltb_spec (max_bytes_per_batch s) (taken + Z.max (size a) 0)),
      (Z.ltb_spec 0 t); simpl; [done| | |].
    all: rewrite (cons_middle a), app_assoc;
      apply IH; rewrite ?length_app, ?total_app; simpl; try lia.
Qed.

(** Between iterations: the bytes are counted exactly and within the limit. *)
Definition counted (acc : BatchAcc) : Prop :=
  a_bytes acc = total (a_files acc).*2 ∧ a_bytes acc ≤ max_bytes_per_batch s.

Lemma combined_ceiling_le : combined_ceiling budget s ≤ max_bytes_per_batch s.
Proof. unfold combined_ceiling. destruct (bytes_per_batch _ _); lia. Qed.

Lemma iteration_counted acc :
  counted acc →
  match iteration S budget s acc with
  | Continue acc' => counted acc'
  | Break acc' => total (a_files acc').*2 ≤ max_bytes_per_batch s ∨ length (a_files acc') = 1%nat
  | Return _ => True
  end.
Proof.
  intros [Hb Hm]. unfold iteration.
  destruct (read_commit_entry _ _) as [[raw|]|] eqn:Hr;
    [|destruct (a_files acc) eqn:E; [done|left; rewrite E in *; lia]|done].
  destruct (get_actions _ _ _) as [actions|] eqn:Ha; [|done].
  pose proof (serves_actions _ _ HS _ _ _ Hr Ha) as ->.
  destruct (commit_adds _ _ _) as [[adds|]|] eqn:Hc; [|done..].
  apply commit_adds_emits in Hc. destruct (List.find _ _); [done|].
  pose proof (Hsize (version (a_cursor acc))) as Hs. rewrite Hc in Hs.
  set (rem := drop _ adds). assert (Hrem : total rem ≤ i64_max)
    by (pose proof (total_drop (Z.to_nat (Z.min (index (a_cursor acc)) (Z.of_nat (length adds)))) adds); unfold rem; lia).
  clearbody rem. destruct rem as [|a rest]; [done|]. set (rem := a :: rest) in *.
  pose proof (total_nonneg (a_files acc).*2). pose proof (total_nonneg rem).
  unfold admit_commit. rewrite (sum_bytes_exact rem Hrem), u64_small by width_lia.
  destruct (_ && _) eqn:Hfits; [|destruct (a_files acc) eqn:Hf; [destruct (negb _); [done|]|]].
  - apply andb_true_iff in Hfits as [_ Hfb%Z.leb_le].
    destruct (stamp _ _ _ _) as [t|]; [|done].
    assert (Hle : a_bytes acc + total rem ≤ max_bytes_per_batch s)
      by (pose proof combined_ceiling_le; destruct (a_files acc); lia).
    assert (Ht : total (a_files acc ++ ((version (a_cursor acc),.) <$> rem)).*2 =
                 a_bytes acc + total rem).
    { rewrite fmap_app, total_app, <- list_fmap_compose, Hb. unfold compose; simpl.
      by rewrite list_fmap_id. }
    destruct (pin_lookup_snapshots s); [left|split]; cbn [a_files a_bytes]; rewrite ?Ht; lia.
  - destruct (stamp _ _ _ _) as [t|]; [|done]. cbn [a_files app].
    rewrite <- list_fmap_compose. unfold compose; cbn [snd]. rewrite list_fmap_id, length_fmap.
    pose proof (split_take_bytes rem 0 0 [] Hrem eq_refl eq_refl ltac:(left; lia)) as Hsp.
    cbn zeta in Hsp. rewrite app_nil_l in Hsp.
    set (n := split_take _ _ rem 0 0) in *.
    destruct (Z.leb_spec n 1) as [Hn|Hn].
    + right. rewrite length_take. assert (length rem = Datatypes.S (length rest)) by done.
      clearbody n rem. lia.
    + left. destruct Hsp as [Hsp|]; [|lia]. rewrite Z.max_l by lia.
      destruct (Z.leb_spec n (Z.of_nat (length rem))); [by rewrite Z.min_l by lia|].
      rewrite Z.min_r, Nat2Z.id by lia. rewrite (take_ge rem (length rem)) by done.
      assert ((length rem ≤ Z.to_nat n)%nat) by lia. by rewrite take_ge in Hsp.
  - left. rewrite Hf in *. lia.
Qed.

Lemma batch_loop_limits readable fuel acc acc' :
  counted acc → batch_loop S budget s readable fuel acc = Some (Ok acc') →
  total (a_files acc').*2 ≤ max_bytes_per_batch s ∨ length (a_files acc') = 1%nat.
Proof.
  revert acc; induction fuel as [|fuel IH]; intros acc Hc; simpl;
    destruct (Z.leb_spec (version (a_cursor acc)) readable); simpl; try done;
    try (destruct Hc; intros [= <-]; left; lia).
  pose proof (iteration_counted acc Hc) as Hi.
  destruct (iteration S budget s acc) as [a|a|e]; [by apply IH|by intros [= <-]|done].
Qed.
End Limits.

(** ** A call, from its loop *)

(** What a successful call did: nothing (caught up before it began), or one run of the
    loop whose final variables satisfy the invariant. *)
Lemma next_batch_run {Bytes Schema} (S : LogStore Bytes Schema) L budget s s' r :
  serves S L → wf (cursor s) → 1 ≤ max_files_per_batch s →
  next_batch S budget s = (s', Some (Ok r)) →
  frame (set_cursor (cursor s') s) s' ∧
  ∃ latest, (∃ fl, get_latest_version S fl = Ok latest) ∧
  let readable := readable_to s latest in
  readable < u64_max ∧
  ((r = None ∧ cursor s' = cursor s ∧ readable < version (cursor s)) ∨
   ∃ s1 acc,
     frame s s1 ∧ version (cursor s) ≤ readable ∧ inv L s1 acc ∧ answers s s' latest acc r ∧
     batch_loop S budget s1 readable (loop_fuel readable (cursor s)) (acc0 s1) = Some (Ok acc)).
Proof.
  intros HS Hwf Hmf Hnb.
  apply next_batch_inv in Hnb as (latest & fl & s1 & Hh & Hf & Hf' & Hcase).
  split; [done|]. exists latest. split; [eauto|]. cbn zeta.
  assert (Hrd : readable_to s latest < u64_max).
  { pose proof (serves_head _ _ HS _ _ Hh). unfold readable_to.
    destruct (stop_after s); width_lia. }
  split; [done|].
  destruct Hcase as [Hc|(acc & Hle & Hloop & Hans)]; [by left|right].
  exists s1, acc. split; [done|]. split; [done|]. split; [|by split].
  assert (Hm1 : 1 ≤ max_files_per_batch s1) by (by rewrite (frame_max_files _ _ Hf)).
  assert (Hw1 : wf (cursor s1)) by (by rewrite (frame_cursor _ _ Hf)).
  eapply (batch_loop_inv S L HS budget s1); [by apply Hm1|by apply inv_acc0|done|exact Hloop].
Qed.

(** What a call leaves: the settings as they were, and the history up to the cursor. *)
Lemma next_batch_step {Bytes Schema} (S : LogStore Bytes Schema) L budget s s' r :
  serves S L → wf (cursor s) → 1 ≤ max_files_per_batch s →
  next_batch S budget s = (s', Some (Ok r)) →
  frame (set_cursor (cursor s') s) s' ∧ wf (cursor s') ∧
  (allow_commit_splitting s = false → index (cursor s) = 0 → index (cursor s') = 0) ∧
  match r with
  | Some b => start b = cursor s ∧ end_ b = cursor s' ∧ files b ≠ [] ∧
      upto L (policy s) (end_ b) =
        upto L (policy s) (start b) ++ zip (file_versions b) (files b)
  | None => upto L (policy s) (cursor s') = upto L (policy s) (cursor s)
  end.
Proof.
  intros HS Hwf Hmf Hnb.
  apply (next_batch_run S L) in Hnb as (Hframe & latest & _ & _ & Hcase); [|done..].
  split; [done|]. destruct Hcase as [(-> & -> & _)|(s1 & acc & Hf & _ & I & [Hc Hans] & _)]; [done|].
  pose proof (inv_upto _ _ _ I) as HU.
  rewrite (frame_policy _ _ Hf), (frame_cursor _ _ Hf) in HU.
  rewrite Hc. split; [apply (inv_wf _ _ _ I)|]. split.
  { intros Hs Hi. apply (inv_whole _ _ _ I);
      [by rewrite (frame_splitting _ _ Hf)|by rewrite (frame_cursor _ _ Hf)]. }
  destruct r as [b|]; [|by rewrite HU, Hans, app_nil_r].
  destruct Hans as (Hne & Hs & He & Hz & Hfs). rewrite He, Hs, Hz, Hfs. split; [done|].
  split; [done|]. split; [by destruct (a_files acc)|exact HU].
Qed.

(** A log store every commit of which, from the cursor to [readable], can be read and is
    taken: no refusal by the policy, no deletion vector, and (unless commits may be
    split) none past the limits on its own. *)
Record healthy {Bytes Schema} (S : LogStore Bytes Schema) (L : Log) (s : LogStream Schema)
    (readable : Version) : Prop := {
  healthy_read v : version (cursor s) ≤ v ≤ readable →
    ∃ raw, read_commit_entry S v = Ok (Some raw) ∧ get_actions S v raw = Ok (L v);
  healthy_policy v : version (cursor s) ≤ v ≤ readable →
    is_ok (commit_adds (policy s) v (L v)) = true;
  healthy_dv v : version (cursor s) ≤ v ≤ readable →
    List.find deletion_vector (emits (policy s) (L v)) = None;
  healthy_stamp v : pin_lookup_snapshots s = true → is_Some (last_modified S v);
  healthy_fits v : allow_commit_splitting s = false →
    index (cursor s) = 0 ∧
    (version (cursor s) ≤ v ≤ readable →
     Z.of_nat (length (emits (policy s) (L v))) ≤ max_files_per_batch s ∧
     sum_bytes (emits (policy s) (L v)) ≤ max_bytes_per_batch s);
}.

Section Live.
Context {Bytes Schema : Type}.
Context (S : LogStore Bytes Schema) (L : Log) (HS : serves S L).
Context (budget : Budget) (s : LogStream Schema) (readable : Version).
Context (HH : healthy S L s readable).

Lemma stamp_ok v old : is_ok (stamp S s v old) = true.
Proof.
  unfold stamp. destruct (pin_lookup_snapshots s) eqn:E; [|done].
  destruct (healthy_stamp _ _ _ _ HH v E) as [t Ht].
  unfold commit_log_timestamp. by rewrite Ht.
Qed.

(** The loop's variables as far as progress depends on them. *)
Definition live (acc : BatchAcc) : Prop :=
  version (cursor s) ≤ version (a_cursor acc) ∧
  (a_files acc = [] → a_bytes acc = 0) ∧
  (allow_commit_splitting s = false → index (a_cursor acc) = 0).

Lemma iteration_live acc :
  live acc → version (a_cursor acc) ≤ readable → readable < u64_max →
  0 ≤ version (cursor s) →
  match iteration S budget s acc with
  | Continue acc' => live acc'
  | Break _ => True
  | Return _ => False
  end.
Proof.
  intros (Hv & Hb & Hi) Hr Hu H0.
  set (v := version (a_cursor acc)) in *.
  destruct (healthy_read _ _ _ _ HH v ltac:(lia)) as (raw & Hread & Hact).
  pose proof (healthy_policy _ _ _ _ HH v ltac:(lia)) as Hp.
  pose proof (healthy_dv _ _ _ _ HH v ltac:(lia)) as Hdv.
  pose proof (healthy_fits _ _ _ _ HH v) as Hfit.
  assert (Hskip : live (skip_commit acc)).
  { split; simpl; [rewrite u64_small by width_lia; lia|]. done. }
  unfold iteration. fold v. rewrite Hread, Hact.
  destruct (commit_adds (policy s) v (L v)) as [[adds|]|] eqn:Hc; [|done..].
  apply commit_adds_emits in Hc. rewrite Hc in *. rewrite Hdv.
  destruct (drop _ adds) as [|a rest] eqn:Hd; [done|].
  unfold admit_commit. fold v. pose proof (stamp_ok v (a_stamp acc)) as Hst.
  destruct (stamp S s v (a_stamp acc)) as [t|]; [|done].
  destruct (_ && _) eqn:Hfits.
  - destruct (pin_lookup_snapshots s); [done|].
    split; [|split]; cbn [a_cursor a_files a_bytes next_version version index].
    + rewrite u64_small by width_lia. lia.
    + intros Hnil%app_eq_nil. by destruct Hnil.
    + done.
  - destruct (a_files acc) as [|f fs] eqn:Hf; [|done].
    destruct (allow_commit_splitting s); [done|]. simpl.
    destruct (Hfit eq_refl) as [_ Hlim]. destruct (Hlim ltac:(lia)) as [Hn Hby].
    rewrite (Hi eq_refl), Z.min_l, drop_0 in Hd by lia. rewrite Hd in Hn, Hby.
    rewrite (Hb eq_refl) in Hfits. simpl in Hn.
    assert (Hu2 : u64 (0 + sum_bytes (a :: rest)) = sum_bytes (a :: rest)).
    { rewrite Z.add_0_l. apply u64_small. apply sum_bytes_range. }
    rewrite Hu2 in Hfits. apply andb_false_iff in Hfits as [H|H]; apply Z.leb_gt in H;
      simpl in H; lia.
Qed.

Lemma batch_loop_live fuel acc :
  live acc → readable < u64_max → 0 ≤ version (cursor s) →
  match batch_loop S budget s readable fuel acc with Some (Err _) => False | _ => True end.
Proof.
  revert acc; induction fuel as [|fuel IH]; intros acc Hl Hu H0; simpl;
    destruct (Z.leb_spec (version (a_cursor acc)) readable); simpl; try done.
  pose proof (iteration_live acc Hl ltac:(lia) Hu H0) as Hi.
  destruct (iteration S budget s acc); [by apply IH|done..].
Qed.
End Live.

(** ** A concrete history *)

Module Demo.
Definition add (name : string) (n : Z) : Add :=
  {| path := name; size := n; add_data_change := true; deletion_vector := false;
     add_stats := None; partition_values := ∅ |}.

(** Protocol and metadata, two appends around a compaction, and the first of them with
    three files. *)
Definition commits : list (list Action) :=
  [ [A_Other];
    [A_Add (add "a" 10); A_Add (add "b" 20); A_Add (add "c" 30)];
    [A_Remove false; A_Add {| path := "ab"; size := 30; add_data_change := false;
                              deletion_vector := false; add_stats := None;
                              partition_values := ∅ |}];
    [A_Add (add "d" 40)] ].

Definition log : Log := λ v, default [] (commits !! Z.to_nat v).

Definition store : LogStore (list Action) unit :=
  {| get_latest_version := λ _, Ok 3;
     read_commit_entry := λ v, if (0 <=? v) && (v <=? 3) then Ok (Some (log v)) else Ok None;
     get_actions := λ _ raw, Ok raw;
     log_state := λ v, Ok {| state_version := default 3 v; state_schema := ();
                             state_id := Some "id" |};
     last_modified := λ v, Some (v * 1000) |}.

Lemma log_size v : (length (log v) ≤ 3)%nat ∧ ∀ p, total (emits p (log v)) ≤ 60.
Proof.
  unfold log. generalize (Z.to_nat v). intros n.
  do 4 (destruct n as [|n]; [split; [simpl; lia|intros []; vm_compute; congruence]|]).
  split; [simpl; lia|intros []; vm_compute; congruence].
Qed.

Lemma store_serves : serves store log.
Proof.
  split.
  - simpl. intros v raw actions. destruct (_ && _); congruence.
  - intros floor v [= <-]. width_lia.
  - intros v. destruct (log_size v). width_lia.
Qed.

Definition stream : LogStream unit :=
  with_commit_splitting true (with_max_files_per_batch 2 (stream_new "uri" (Some 0) (Some "id"))).
Definition whole : LogStream unit := stream_new "uri" (Some 0) (Some "id").

Definition run (s : LogStream unit) := next_batch store unbounded s.

Lemma stream_wf : wf (cursor stream).
Proof. split; simpl; width_lia. Qed.
Lemma whole_wf : wf (cursor whole).
Proof. split; simpl; width_lia. Qed.

Lemma whole_healthy : healthy store log whole (readable_to whole 3).
Proof.
  assert (Hv : ∀ v, 0 ≤ v ≤ 3 → v = 0 ∨ v = 1 ∨ v = 2 ∨ v = 3) by lia.
  split; cbn [cursor whole stream_new version at_version readable_to stop_after].
  - intros v H%Hv. exists (log v). by destruct H as [-> |[-> |[-> | ->]]].
  - intros v H%Hv. by destruct H as [-> |[-> |[-> | ->]]].
  - intros v H%Hv. by destruct H as [-> |[-> |[-> | ->]]].
  - done.
  - intros v _. split; [done|]. intros H%Hv.
    by destruct H as [-> |[-> |[-> | ->]]]; vm_compute.
Qed.

Definition first_batch : LogBatch unit :=
  {| start := at_version 0; end_ := {| version := 1; index := 2 |};
     files := [add "a" 10; add "b" 20]; file_versions := [1; 1]; schema := ();
     through_version := 1; through_log_timestamp := None |}.
End Demo.

(** ** Properties *)

(** C4: a batch is exactly what the source's history holds between its two cursors: its
    files, in order and each with the version that added it, are what the history holds
    before the end cursor beyond what it holds before the start one, and the stream moves
    to that end cursor; when there is no batch the stream skipped only commits that hold
    nothing.  Whatever the limits, the budget, the policy and the commit splitting: they
    decide how much a call takes, never what or in which order. *)
Theorem batch_is_exact {Bytes Schema} (S : LogStore Bytes Schema) L budget s s' r :
  serves S L → wf (cursor s) → 1 ≤ max_files_per_batch s →
  next_batch S budget s = (s', Some (Ok r)) →
  let before := upto L (policy s) in
  match r with
  | Some b =>
      start b = cursor s ∧ end_ b = cursor s' ∧ files b ≠ [] ∧
      before (end_ b) = before (start b) ++ zip (file_versions b) (files b)
  | None => before (cursor s') = before (cursor s)
  end.
Proof.
  intros HS Hwf Hmf Hnb before.
  by apply (next_batch_step S L) in Hnb as (_ & _ & _ & H).
Qed.

Lemma batch_is_exact_witness :
  upto Demo.log FailOnChange {| version := 1; index := 2 |} =
  [(1, Demo.add "a" 10); (1, Demo.add "b" 20)].
Proof.
  exact (proj2 (proj2 (proj2 (batch_is_exact Demo.store Demo.log unbounded Demo.stream
    (Demo.run Demo.stream).1 (Some Demo.first_batch) Demo.store_serves Demo.stream_wf
    ltac:(simpl; lia) ltac:(vm_compute; reflexivity))))).
Defined.

(** Without commit splitting a stream that starts on a commit boundary stays on one:
    every batch's end cursor is a bare version, which the [txn] action can store. *)
Theorem batch_never_splits {Bytes Schema} (S : LogStore Bytes Schema) L budget s s' r :
  serves S L → wf (cursor s) → 1 ≤ max_files_per_batch s →
  allow_commit_splitting s = false → is_commit_boundary (cursor s) = true →
  next_batch S budget s = (s', Some (Ok r)) →
  is_commit_boundary (cursor s') = true ∧ allow_commit_splitting s' = false.
Proof.
  unfold is_commit_boundary. intros HS Hwf Hmf Hno Hb%Z.eqb_eq Hnb.
  apply (next_batch_run S L) in Hnb as (Hf' & latest & _ & _ & Hcase); [|done..].
  split; [|by rewrite (frame_splitting _ _ Hf'); destruct s].
  apply Z.eqb_eq.
  destruct Hcase as [(_ & -> & _)|(s1 & acc & Hf & _ & I & [-> _] & _)]; [done|].
  apply (inv_whole _ _ _ I).
  - by rewrite (frame_splitting _ _ Hf).
  - by rewrite (frame_cursor _ _ Hf).
Qed.

Lemma batch_never_splits_witness :
  is_commit_boundary (cursor (Demo.run Demo.whole).1) = true ∧
  allow_commit_splitting (Demo.run Demo.whole).1 = false.
Proof.
  eapply (batch_never_splits Demo.store Demo.log unbounded Demo.whole);
    [exact Demo.store_serves|exact Demo.whole_wf|simpl; lia|reflexivity|reflexivity|].
  vm_compute. reflexivity.
Defined.

(** A stream only moves forward: a batch ends strictly past where it starts, a call
    without one never moves back, and no call goes past the head or past the version the
    stream was told to stop after. *)
Theorem batch_moves_forward {Bytes Schema} (S : LogStore Bytes Schema) L budget s s' r :
  serves S L → wf (cursor s) → 1 ≤ max_files_per_batch s →
  next_batch S budget s = (s', Some (Ok r)) →
  (r ≠ None → cmp (cursor s) (cursor s') = Lt) ∧
  (cursor s' = cursor s ∨ cmp (cursor s) (cursor s') = Lt) ∧
  ∃ latest, (∃ fl, get_latest_version S fl = Ok latest) ∧
    (cursor s' = cursor s ∨ bounded (readable_to s latest) (cursor s')).
Proof.
  intros HS Hwf Hmf Hnb.
  apply (next_batch_run S L) in Hnb as (_ & latest & Hh & Hu & Hcase); [|done..].
  destruct Hcase as [(-> & Hc & _)|(s1 & acc & Hf & Hle & I & [Hc Hans] & Hl)].
  { split; [done|]. split; [by left|]. exists latest. split; [done|by left]. }
  pose proof (frame_cursor _ _ Hf) as Hcur. rewrite Hc.
  destruct I as [_ _ HF HM _ _]. rewrite Hcur in HF, HM.
  split; [|split; [done|]].
  - intros Hr. apply HM. destruct r as [b|]; [apply Hans|done].
  - exists latest. split; [done|right]. eapply batch_loop_bounded; [..|exact Hl]; simpl.
    + rewrite Hcur. apply Hwf.
    + done.
    + left. by rewrite Hcur.
Qed.

Lemma batch_moves_forward_witness :
  cmp (cursor Demo.stream) (cursor (Demo.run Demo.stream).1) = Lt.
Proof.
  apply (batch_moves_forward Demo.store Demo.log unbounded Demo.stream
    (Demo.run Demo.stream).1 (Some Demo.first_batch) Demo.store_serves Demo.stream_wf);
    [simpl; lia|vm_compute; reflexivity|done].
Defined.

(** A call without a batch has read everything: the cursor it leaves is past the
    readable end (the head, or the version to stop after). *)
Theorem no_batch_means_caught_up {Bytes Schema} (S : LogStore Bytes Schema) L budget s s' :
  serves S L → wf (cursor s) → 1 ≤ max_files_per_batch s →
  next_batch S budget s = (s', Some (Ok None)) →
  ∃ latest, (∃ fl, get_latest_version S fl = Ok latest) ∧
    readable_to s latest < version (cursor s').
Proof.
  intros HS Hwf Hmf Hnb.
  apply (next_batch_run S L) in Hnb as (_ & latest & Hh & Hu & Hcase); [|done..].
  exists latest. split; [done|].
  destruct Hcase as [(_ & -> & ?)|(s1 & acc & Hf & Hle & I & [-> Hans] & Hl)]; [done|].
  by eapply batch_loop_drained.
Qed.

Lemma no_batch_means_caught_up_witness :
  ∃ latest, (∃ fl, get_latest_version Demo.store fl = Ok latest) ∧
    readable_to (with_starting_version 4 Demo.whole) latest < 4.
Proof.
  apply (no_batch_means_caught_up Demo.store Demo.log unbounded
    (with_starting_version 4 Demo.whole) (Demo.run (with_starting_version 4 Demo.whole)).1);
    [exact Demo.store_serves|split; simpl; width_lia|simpl; lia|vm_compute; reflexivity].
Defined.

(** C9: a batch respects its limits: at most [max_files_per_batch] files and, counted as
    the log states them, at most [max_bytes_per_batch] bytes, except for a single file that
    is larger than that on its own and so can only be read alone. *)
Theorem batch_within_limits {Bytes Schema} (S : LogStore Bytes Schema) L budget s s' b :
  serves S L → wf (cursor s) → 1 ≤ max_files_per_batch s →
  0 ≤ max_bytes_per_batch s ≤ i64_max →
  (∀ v, total (emits (policy s) (L v)) ≤ i64_max) →
  next_batch S budget s = (s', Some (Ok (Some b))) →
  within_limits (max_files_per_batch s) (max_bytes_per_batch s) (files b).
Proof.
  intros HS Hwf Hmf Hmb Hsz Hnb.
  apply (next_batch_run S L) in Hnb as (_ & latest & _ & _ & Hcase); [|done..].
  destruct Hcase as [(? & _)|(s1 & acc & Hf & _ & I & [_ Hans] & Hl)]; [done|].
  destruct Hans as (_ & _ & _ & _ & ->). split.
  - rewrite length_fmap, <- (frame_max_files _ _ Hf). apply (inv_files _ _ _ I).
  - rewrite length_fmap, <- (frame_max_bytes _ _ Hf).
    eapply (batch_loop_limits S L HS budget s1); [..|exact Hl].
    + by rewrite (frame_max_bytes _ _ Hf).
    + by rewrite (frame_policy _ _ Hf).
    + split; simpl; [done|]. rewrite (frame_max_bytes _ _ Hf). lia.
Qed.

Lemma batch_within_limits_witness :
  within_limits 2 (256 * 1024 * 1024) [Demo.add "a" 10; Demo.add "b" 20].
Proof.
  apply (batch_within_limits Demo.store Demo.log unbounded Demo.stream
    (Demo.run Demo.stream).1 Demo.first_batch Demo.store_serves Demo.stream_wf).
  - simpl; lia.
  - simpl; width_lia.
  - intros v. destruct (Demo.log_size v) as [_ H]. specialize (H FailOnChange).
    change (policy Demo.stream) with FailOnChange. width_lia.
  - vm_compute; reflexivity.
Defined.

(** C10: [next_batch] terminates: its loop runs at most once per version up to the readable
    end, so the call always answers, with a batch, with nothing or with an error. *)
Theorem next_batch_total {Bytes Schema} (S : LogStore Bytes Schema) L budget s :
  serves S L → wf (cursor s) → (next_batch S budget s).2 ≠ None.
Proof.
  intros HS [Hv Hi]. unfold next_batch.
  destruct (latest_version S s) as [s0 [latest|e]] eqn:Hl; [|done].
  destruct (latest_version_head _ _ _ _ Hl) as [fl Hfl].
  apply latest_version_frame in Hl. pose proof (serves_head _ _ HS _ _ Hfl).
  assert (Hc : cursor (set_head (Some latest) s0) = cursor s).
  { rewrite <- (frame_cursor _ _ Hl). by destruct s0. }
  destruct (_ <? _); [done|].
  destruct (batch_loop _ _ _ _ _ _) as [[acc|e]|] eqn:Hloop.
  - by destruct (finish_batch _ _ _).
  - done.
  - exfalso. revert Hloop. apply batch_loop_total; cbn [acc0 a_cursor]; rewrite ?Hc.
    + apply Hv.
    + destruct (stop_after _); width_lia.
    + unfold loop_fuel. lia.
Qed.

Lemma next_batch_total_witness : (Demo.run Demo.stream).2 ≠ None.
Proof.
  exact (next_batch_total Demo.store Demo.log unbounded Demo.stream Demo.store_serves
    Demo.stream_wf).
Defined.

(** On a healthy log the stream never gets stuck: when the head can be resolved and
    every commit from the cursor to the readable end can be read and taken, [next_batch]
    answers without an error unless the schema at the batch's end cannot be loaded. *)
Theorem healthy_log_is_read {Bytes Schema} (S : LogStore Bytes Schema) L budget s s0 latest :
  serves S L → wf (cursor s) → latest_version S s = (s0, Ok latest) →
  healthy S L s (readable_to s latest) →
  (∀ v e, (schema_at S (set_head (Some latest) s0) v).2 ≠ Err e) →
  ∃ s' r, next_batch S budget s = (s', Some (Ok r)).
Proof.
  intros HS Hwf Hlat HH Hsch. unfold next_batch. rewrite Hlat.
  destruct (latest_version_head _ _ _ _ Hlat) as [fl Hfl].
  apply latest_version_frame in Hlat. pose proof (serves_head _ _ HS _ _ Hfl) as Hhd.
  set (s1 := set_head (Some latest) s0).
  assert (Hf : frame s s1) by (etrans; [exact Hlat|apply frame_set_head]).
  change (match stop_after s1 with Some _ => _ | None => _ end) with (readable_to s1 latest).
  assert (Hr : readable_to s1 latest = readable_to s latest)
    by (unfold readable_to; by rewrite (frame_stop _ _ Hf)).
  rewrite Hr. set (rd := readable_to s latest) in *.
  destruct (Z.ltb_spec rd (version (cursor s1))); [by eexists _, _|].
  assert (HH1 : healthy S L s1 rd).
  { destruct Hf as [Hf1 Hf2 Hf3 Hf4 Hf5 Hf6 _], HH.
    split; rewrite ?Hf1, ?Hf2, ?Hf3, ?Hf4, ?Hf5, ?Hf6; done. }
  assert (Hrd : rd < u64_max).
  { unfold rd, readable_to. destruct (stop_after s); width_lia. }
  assert (H0 : 0 ≤ version (cursor s1)) by (rewrite (frame_cursor _ _ Hf); apply Hwf).
  pose proof (batch_loop_live S L budget s1 rd HH1 (loop_fuel rd (cursor s1)) (acc0 s1)) as Hlive.
  pose proof (batch_loop_total S budget s1 rd (loop_fuel rd (cursor s1)) (acc0 s1)) as Htot.
  destruct (batch_loop _ _ _ _ _ _) as [[acc|e]|].
  - unfold finish_batch. destruct (a_files acc); [by eexists _, _|].
    match goal with |- context [schema_at S s1 ?v] => specialize (Hsch v) end.
    fold s1 in Hsch. destruct (schema_at S s1 _) as [s2 [sch|e]]; [by eexists _, _|].
    by destruct (Hsch e).
  - exfalso. apply Hlive; [|done..]. split; [simpl; lia|]. split; [done|].
    intros Hno. by apply (healthy_fits _ _ _ _ HH1 0).
  - exfalso. apply Htot; [done|done| |done]. unfold loop_fuel; simpl. lia.
Qed.

Lemma healthy_log_is_read_witness : ∃ s' r, Demo.run Demo.whole = (s', Some (Ok r)).
Proof.
  apply (healthy_log_is_read Demo.store Demo.log unbounded Demo.whole
    (set_version_floor 3 Demo.whole) 3); [exact Demo.store_serves|exact Demo.whole_wf|
    reflexivity|exact Demo.whole_healthy|].
  intros v e. vm_compute. congruence.
Defined.
