(* ===== verification/Partitions.v ===== *)
(** * Partitions: what a Kafka member knows of each partition it owns, and the batch it
    fills (src/kafka/partitions.rs)

    [Partitions] is the map of owned partitions, [admit_message] ([admit]) decides what is done with one
    message and moves the partition on, and [Buffer] is the batch.  [Instant] and
    [Duration] are nanoseconds; [duration_since] of a later instant is zero.  Offsets are
    [i64]s, whose additions wrap. *)

From Stdlib Require Import ZArith Lia Sorted.
From stdpp Require Import base list gmap sorting strings.
From S2P Require Import Prelude Error.

Open Scope Z_scope.

(** ** Data *)

Definition Instant : Type := Z.
Definition Duration : Type := Z.

Definition duration_since (now earlier : Instant) : Duration := Z.max 0 (now - earlier).

(** A message, recorded well enough to tell whether reading its offset again returns it
    (src/sink.rs). *)
Record MessageMark := { m_offset : Z; timestamp_ms : Z; value_len : Z }.

#[export] Instance MessageMark_eq_dec : EqDecision MessageMark.
Proof. solve_decision. Defined.

Inductive Reread := Expect (m : MessageMark) | Unverifiable (o : Z).

#[export] Instance Reread_eq_dec : EqDecision Reread.
Proof. solve_decision. Defined.

Definition reread_offset (r : Reread) : Z :=
  match r with Expect m => m_offset m | Unverifiable o => o end.

Inductive Block :=
  | B_Unavailable (wanted low : Z)
  | B_Regressed (stored high : Z)
  | B_Replaced (recorded found : MessageMark)
  | B_Unresolved.

#[export] Instance Block_eq_dec : EqDecision Block.
Proof. solve_decision. Defined.

Inductive State :=
  | Ready (next_expected start : Z) (reread : option Reread) (last_message : Instant)
  | Blocked (block : Block) (since : Instant).

Inductive Dropped := NotOwned | DroppedBlocked | Duplicate | DroppedReread.

Inductive Admit :=
  | Take (gap : Z)
  | Drop (why : Dropped)
  | AdmitBlock (block : Block).

Abbreviation Partitions := (gmap Z State).

(** ** Operations *)

(** [describe]: a mark, in an error's text. *)
Definition describe (m : MessageMark) : string :=
  String.append "timestamp " (String.append (show_Z (timestamp_ms m))
    (String.append " ms, " (String.append (show_Z (value_len m)) " value bytes"))).

(** [Block::error] *)
Definition block_error (b : Block) (topic : string) (p : Z) : Error :=
  match b with
  | B_Unavailable wanted low => KafkaOffsetsUnavailable topic p wanted low
  | B_Regressed stored high => KafkaOffsetsRegressed topic p stored high
  | B_Replaced recorded found =>
      KafkaTopicReplaced topic p (m_offset recorded) (describe recorded) (describe found)
  | B_Unresolved => Other "was assigned while the target's offsets could not be read"
  end.

(** The keys of a [BTreeMap], in its order. *)
Definition owned (ps : Partitions) : list Z := merge_sort Z.le (map_to_list ps).*1.

Definition blocked (ps : Partitions) : list (Z * Block) :=
  omap (λ p, match ps !! p with Some (Blocked b _) => Some (p, b) | _ => None end) (owned ps).

Definition ready (ps : Partitions) : list (Z * Z) :=
  omap (λ p, match ps !! p with Some (Ready n _ _ _) => Some (p, n) | _ => None end) (owned ps).

Definition ready_at (p offset : Z) (r : option Reread) (now : Instant) (ps : Partitions)
    : Partitions :=
  <[p := Ready offset offset r now]> ps.

Definition block (p : Z) (b : Block) (now : Instant) (ps : Partitions) : Partitions :=
  let since := match ps !! p with Some (Blocked _ since) => since | _ => now end in
  <[p := Blocked b since]> ps.

Definition polled_again (p : option Z) (now : Instant) (ps : Partitions) : Partitions :=
  map_imap (λ q s,
    match s with
    | Ready n st r _ =>
        if match p with None => true | Some p => p =? q end then Some (Ready n st r now)
        else Some s
    | Blocked _ _ => Some s
    end) ps.

(** What [admit_message] does to a Ready partition's expectations once the re-read, if one was
    due, is out of the way. *)
Definition admit_next (next start : Z) (now : Instant) (offset : Z) : Admit * State :=
  if offset <? next then (Drop Duplicate, Ready next start None now)
  else (Take (u64 (i64 (offset - next))), Ready (i64 (offset + 1)) start None now).

(** [admit_message] on the state of an owned partition. *)
Definition admit_state (s : State) (mark : MessageMark) (now : Instant) : Admit * State :=
  let offset := m_offset mark in
  match s with
  | Blocked _ _ => (Drop DroppedBlocked, s)
  | Ready next start None _ => admit_next next start now offset
  | Ready next start (Some expected) _ =>
      let at_ := reread_offset expected in
      if offset =? at_ then
        match expected with
        | Expect recorded =>
            if (timestamp_ms recorded =? timestamp_ms mark) && (value_len recorded =? value_len mark)
            then (Drop DroppedReread, Ready (i64 (offset + 1)) start None now)
            else (AdmitBlock (B_Replaced recorded mark), Ready next start (Some expected) now)
        | Unverifiable _ => (Drop DroppedReread, Ready (i64 (offset + 1)) start None now)
        end
      else if offset <? at_ then (Drop Duplicate, Ready next start (Some expected) now)
      else admit_next (i64 (at_ + 1)) start now offset
  end.

Definition admit_message (p : Z) (mark : MessageMark) (now : Instant) (ps : Partitions)
    : Admit * Partitions :=
  match ps !! p with
  | None => (Drop NotOwned, ps)
  | Some s => let '(a, s') := admit_state s mark now in (a, <[p := s']> ps)
  end.

Definition done (p end_ : Z) (idle : Duration) (now : Instant) (ps : Partitions) : bool :=
  match ps !! p with
  | None => true
  | Some (Ready next_expected start reread last_message) =>
      let next := match reread with
                  | Some r => i64 (reread_offset r + 1)
                  | None => next_expected
                  end in
      (end_ <=? Z.max next start) || (idle <=? duration_since now last_message)
  | Some (Blocked _ since) => idle <=? duration_since now since
  end.

(** ** The batch *)

Record Buffer := {
  opened_at : option Instant;
  ranges : gmap Z (Z * Z);
  marks : gmap Z MessageMark;
  messages : Z;
  raw_bytes : Z;
}.

Definition buffer_default : Buffer :=
  {| opened_at := None; ranges := ∅; marks := ∅; messages := 0; raw_bytes := 0 |}.

Record Limits := {
  latency : Duration;
  max_messages : option Z;
  max_bytes : Z;
  max_decoded : option Z;
}.

Definition buffer_is_empty (b : Buffer) : bool := messages b =? 0.

Definition take_message (p : Z) (mark : MessageMark) (raw : Z) (now : Instant) (b : Buffer)
    : Buffer :=
  {| opened_at := Some (default now (opened_at b));
     ranges := match ranges b !! p with
               | Some (first, _) => <[p := (first, m_offset mark)]> (ranges b)
               | None => <[p := (m_offset mark, m_offset mark)]> (ranges b)
               end;
     marks := <[p := mark]> (marks b);
     messages := u64 (messages b + 1);
     raw_bytes := u64 (raw_bytes b + raw) |}.

Definition deadline (latency : Duration) (b : Buffer) : option Instant :=
  (λ t, t + latency) <$> opened_at b.

Definition closes (l : Limits) (decoded_bytes : Z) (now : Instant) (b : Buffer) : bool :=
  if buffer_is_empty b then false
  else match deadline (latency l) b with Some d => d <=? now | None => false end
    || match max_messages l with Some m => m <=? messages b | None => false end
    || (max_bytes l <=? raw_bytes b)
    || match max_decoded l with Some m => m <=? decoded_bytes | None => false end.

(** ** Taking a message (src/kafka/step.rs)

    [Pipeline::take] and [block_partition] on the parts of the source they change, the
    decoder and the counters aside: the partitions, the buffer and the paused set. *)

Record Message := {
  msg_partition : Z;
  msg_mark : MessageMark;
  msg_raw : Z;
  msg_at : Instant;
}.

Record Intake := { parts : Partitions; buf : Buffer; paused : gset Z }.

Definition block_partition (p : Z) (b : Block) (now : Instant) (s : Intake) : Intake :=
  {| parts := block p b now (parts s); buf := buf s; paused := {[p]} ∪ paused s |}.

(** What was decided is returned: [None] for a message of a paused partition. *)
Definition take_one (m : Message) (s : Intake) : option Admit * Intake :=
  let p := msg_partition m in
  if decide (p ∈ paused s) then (None, s)
  else
    let '(a, ps) := admit_message p (msg_mark m) (msg_at m) (parts s) in
    let s := {| parts := ps; buf := buf s; paused := paused s |} in
    match a with
    | Take _ =>
        (Some a, {| parts := ps; paused := paused s;
                    buf := take_message p (msg_mark m) (msg_raw m) (msg_at m) (buf s) |})
    | Drop _ => (Some a, s)
    | AdmitBlock b => (Some a, block_partition p b (msg_at m) s)
    end.

Fixpoint consume (l : list Message) (s : Intake) : list (Message * option Admit) * Intake :=
  match l with
  | [] => ([], s)
  | m :: l =>
      let '(a, s) := take_one m s in
      let '(r, s) := consume l s in
      ((m, a) :: r, s)
  end.

(** ** The specification: a topic's partition and how librdkafka delivers it *)

(** The messages that went into the buffer, and those of one partition. *)
Definition taken (r : list (Message * option Admit)) : list Message :=
  omap (λ '(m, a), match a with Some (Take _) => Some m | _ => None end) r.

Definition of_partition (p : Z) (l : list Message) : list MessageMark :=
  omap (λ m, if msg_partition m =? p then Some (msg_mark m) else None) l.

(** The offsets of a partition counted as skipped. *)
Definition gaps (p : Z) (r : list (Message * option Admit)) : Z :=
  foldr (λ '(m, a) t, match a with
                      | Some (Take g) => if msg_partition m =? p then g else 0
                      | _ => 0
                      end + t) 0 r.

(** A partition of a topic: messages in offset order.  Offsets leave room for the next. *)
Definition before (a b : MessageMark) : Prop := m_offset a < m_offset b.
Definition offset_ok (m : MessageMark) : Prop := 0 ≤ m_offset m < i64_max.

Definition topic (T : list MessageMark) : Prop :=
  StronglySorted before T ∧ Forall offset_ok T.

(** [delivers T n l n']: [l] is a delivery of the messages [n..n'] of [T], in order, with
    messages already delivered repeated anywhere (a rebalance, a retried fetch). *)
Inductive delivers (T : list MessageMark) : nat → list MessageMark → nat → Prop :=
  | delivers_nil n : delivers T n [] n
  | delivers_next n m l n' :
      T !! n = Some m → delivers T (S n) l n' → delivers T n (m :: l) n'
  | delivers_again n i m l n' :
      T !! i = Some m → (i < n)%nat → delivers T n l n' → delivers T n (m :: l) n'.

(** The messages [n..n'] of a topic, and those of them from an offset on. *)
Definition segment {A} (T : list A) (n n' : nat) : list A := take (n' - n) (drop n T).

Definition from_offset (o : Z) (l : list MessageMark) : list MessageMark :=
  filter (λ m, o ≤ m_offset m) l.

(** ** A partition as [take_one] sees it: none when it is not owned, or paused *)

Definition view (p : Z) (s : Intake) : option State :=
  if decide (p ∈ paused s) then None else parts s !! p.

Definition view_step (m : MessageMark) (now : Instant) (v : option State)
    : option Admit * option State :=
  match v with
  | None => (None, None)
  | Some s =>
      match admit_state s m now with
      | (AdmitBlock b, _) => (Some (AdmitBlock b), None)
      | (a, s) => (Some a, Some s)
      end
  end.

(** The lowest offset a state still takes. *)
Definition lower (v : option State) : Z :=
  match v with
  | Some (Ready next _ None _) => next
  | Some (Ready _ _ (Some r) _) => reread_offset r + 1
  | _ => i64_max
  end.

(** The offsets of a state are offsets. *)
Definition state_ok (v : option State) : Prop :=
  match v with
  | Some (Ready next _ r _) =>
      0 ≤ next ≤ i64_max ∧ from_option (λ r, 0 ≤ reread_offset r < i64_max) True r
  | _ => True
  end.

Lemma view_step_spec m now v a v' :
  state_ok v → offset_ok m → view_step m now v = (a, v') →
  state_ok v' ∧
  match a with
  | Some (Take g) =>
      lower v ≤ m_offset m ∧ g = m_offset m - lower v ∧ lower v' = m_offset m + 1
  | Some (AdmitBlock _) => v' = None
  | _ => lower v' = lower v
  end.
Proof.
  unfold view_step, offset_ok. intros Hs Ho.
  destruct v as [[next start r lm|b since]|]; [|by intros [= <- <-]..]. simpl in Hs.
  destruct Hs as [Hn Hr].
  assert (Hnext : ∀ nx, 0 ≤ nx ≤ i64_max →
    match admit_next nx start now (m_offset m) with
    | (AdmitBlock b, _) => (Some (AdmitBlock b), None)
    | (a, s) => (Some a, Some s)
    end = (a, v') →
    state_ok v' ∧ match a with
      | Some (Take g) => nx ≤ m_offset m ∧ g = m_offset m - nx ∧ lower v' = m_offset m + 1
      | Some (AdmitBlock _) => v' = None
      | _ => lower v' = nx end).
  { intros nx Hnx. unfold admit_next. destruct (Z.ltb_spec (m_offset m) nx); intros [= <- <-].
    - by simpl.
    - rewrite !i64_small, u64_small by width_lia. simpl. width_lia. }
  destruct r as [r|]; simpl; [|by apply Hnext]. simpl in Hr.
  destruct (Z.eqb_spec (m_offset m) (reread_offset r)) as [E|E].
  - rewrite E, (i64_small (reread_offset r + 1)) by width_lia. destruct r as [rec|o].
    + destruct (_ && _); intros [= <- <-]; simpl in *; [|done]. width_lia.
    + intros [= <- <-]; simpl in *. width_lia.
  - destruct (Z.ltb_spec (m_offset m) (reread_offset r)).
    + intros [= <- <-]. by simpl.
    + rewrite (i64_small (reread_offset r + 1)) by width_lia. apply Hnext. width_lia.
Qed.

Lemma take_one_view p m s a s' :
  take_one m s = (a, s') →
  view p s' = if msg_partition m =? p then (view_step (msg_mark m) (msg_at m) (view p s)).2
              else view p s.
Proof.
  unfold take_one, admit_message, view. case_decide as Hp.
  - intros [= <- <-]. destruct (Z.eqb_spec (msg_partition m) p); [|done].
    subst. by rewrite decide_True.
  - destruct (parts s !! msg_partition m) as [st|] eqn:E.
    + destruct (admit_state st _ _) as [b st'] eqn:Ea.
      destruct (Z.eqb_spec (msg_partition m) p) as [<-|Hne].
      * rewrite (decide_False _ _ Hp), E. simpl. rewrite Ea.
        destruct b; intros [= <- <-]; simpl;
          [rewrite (decide_False _ _ Hp); by rewrite lookup_insert_eq..|].
        by rewrite decide_True by set_solver.
      * destruct b; intros [= <- <-]; simpl; [by rewrite lookup_insert_ne..|].
        unfold block. rewrite !lookup_insert_ne by done.
        destruct (decide (p ∈ paused s)) as [H1|H1],
          (decide (p ∈ {[msg_partition m]} ∪ paused s)) as [H2|H2];
          rewrite elem_of_union, elem_of_singleton in H2; naive_solver.
    + intros [= <- <-]; simpl. destruct (Z.eqb_spec (msg_partition m) p) as [<-|]; [|done].
      by rewrite (decide_False _ _ Hp), E.
Qed.

Lemma take_one_admit p m s a s' :
  take_one m s = (a, s') → msg_partition m = p → view p s ≠ None →
  a = (view_step (msg_mark m) (msg_at m) (view p s)).1.
Proof.
  unfold take_one, admit_message, view. intros H <-. revert H. case_decide; [done|].
  destruct (parts s !! msg_partition m) as [st|]; [|done]. simpl.
  destruct (admit_state st _ _) as [[] st']; by intros [= <- <-].
Qed.

Lemma take_one_not_taken m s a s' :
  take_one m s = (a, s') → view (msg_partition m) s = None → ∀ g, a ≠ Some (Take g).
Proof.
  unfold take_one, admit_message, view. case_decide as Hp; [by intros [= <- <-]|].
  intros H E. rewrite E in H. by simplify_eq.
Qed.

(** ** A run of deliveries, seen from one partition *)

Lemma of_partition_cons p m l :
  of_partition p (m :: l) =
  if msg_partition m =? p then msg_mark m :: of_partition p l else of_partition p l.
Proof. unfold of_partition. csimpl. by destruct (_ =? _). Qed.

(** What one message contributes to partition [p]. *)
Lemma consume_cons p m l s r s2 :
  consume (m :: l) s = (r, s2) →
  ∃ a s1 r',
    take_one m s = (a, s1) ∧ consume l s1 = (r', s2) ∧ r = (m, a) :: r' ∧
    if msg_partition m =? p then
      let '(a', v') := view_step (msg_mark m) (msg_at m) (view p s) in
      view p s1 = v' ∧
      of_partition p (taken r) =
        match a' with
        | Some (Take _) => msg_mark m :: of_partition p (taken r')
        | _ => of_partition p (taken r')
        end ∧
      gaps p r = match a' with Some (Take g) => g + gaps p r' | _ => gaps p r' end
    else view p s1 = view p s ∧ of_partition p (taken r) = of_partition p (taken r') ∧
         gaps p r = gaps p r'.
Proof.
  simpl. destruct (take_one m s) as [a s1] eqn:E. destruct (consume l s1) as [r' s2'] eqn:Ec.
  intros [= <- <-]. exists a, s1, r'. do 3 (split; [done|]).
  pose proof (take_one_view p _ _ _ _ E) as Hv. pose proof (take_one_admit p _ _ _ _ E) as Ha.
  pose proof (take_one_not_taken _ _ _ _ E) as Hn.
  unfold taken. csimpl. fold (taken r').
  destruct (Z.eqb_spec (msg_partition m) p) as [<-|Hne].
  - destruct (view_step _ _ _) as [a' v'] eqn:Es. split; [done|].
    destruct (view (msg_partition m) s) as [st|] eqn:Ev.
    + rewrite (Ha eq_refl ltac:(done)); simpl. destruct a' as [[]|]; try done.
      by rewrite of_partition_cons, Z.eqb_refl.
    + simpl in Es. simplify_eq. destruct a as [[]|]; try done. by destruct (Hn eq_refl gap).
  - split; [done|]. destruct a as [[]|]; try done. rewrite of_partition_cons.
    by destruct (Z.eqb_spec (msg_partition m) p).
Qed.

Definition messages_ok (p : Z) (l : list Message) : Prop := Forall offset_ok (of_partition p l).

Lemma lower_bound v : state_ok v → lower v ≤ i64_max.
Proof.
  destruct v as [[? ? [] ?|]|]; simpl; try done; intros [? ?]; simpl in *; try lia.
Qed.

Lemma consume_none p l s r s' :
  consume l s = (r, s') → view p s = None → view p s' = None.
Proof.
  revert s r; induction l as [|m l IH]; intros s r H Hv; [by simpl in H; simplify_eq|].
  apply (consume_cons p) in H as (a & s1 & r' & _ & Hc & _ & Hm). apply (IH _ _ Hc).
  rewrite Hv in Hm. simpl in Hm. destruct (_ =? _); by destruct Hm as [-> _].
Qed.

Lemma consume_increasing p l s r s' :
  state_ok (view p s) → messages_ok p l → consume l s = (r, s') →
  StronglySorted before (of_partition p (taken r)) ∧
  Forall (λ m, lower (view p s) ≤ m_offset m < lower (view p s')) (of_partition p (taken r)) ∧
  state_ok (view p s') ∧ lower (view p s) ≤ lower (view p s') ∧
  (view p s' ≠ None →
   lower (view p s') =
     lower (view p s) + Z.of_nat (length (of_partition p (taken r))) + gaps p r).
Proof.
  revert s r; induction l as [|m l IH]; intros s r Hs Hl H.
  { simpl in H; simplify_eq. repeat split; simpl; try constructor; try done; lia. }
  apply (consume_cons p) in H as (a & s1 & r' & _ & Hc & -> & Hm).
  unfold messages_ok in Hl. rewrite of_partition_cons in Hl.
  destruct (Z.eqb_spec (msg_partition m) p) as [<-|Hne].
  - apply Forall_cons in Hl as [Ho Hl].
    destruct (view_step _ _ _) as [a' v'] eqn:Es. destruct Hm as (Hv & -> & ->).
    apply view_step_spec in Es as [Hok Ha]; [|done..]. rewrite <- Hv in Hok.
    destruct (IH _ _ Hok Hl Hc) as (IH1 & IH2 & IH3 & IH4 & IH5). rewrite <- Hv in Ha.
    pose proof (lower_bound _ Hs).
    destruct a' as [[g| |b]|].
    + destruct Ha as (Ha1 & -> & Ha2). rewrite Ha2 in *. unfold before in *.
      split; [constructor; [done|eapply Forall_impl; [exact IH2|]; simpl; lia]|].
      split; [constructor; [lia|eapply Forall_impl; [exact IH2|]; simpl; lia]|].
      split; [done|]. split; [lia|]. intros Hn. specialize (IH5 Hn). simpl. lia.
    + rewrite Ha in *. done.
    + rewrite Ha in *; simpl in *. split; [done|].
      split; [eapply Forall_impl; [exact IH2|]; simpl; lia|]. split; [done|].
      split; [lia|]. intros Hn. by destruct (Hn (consume_none _ _ _ _ _ Hc Ha)).
    + rewrite Ha in *. done.
  - destruct Hm as (Hv & -> & ->). rewrite <- Hv in *. by apply IH.
Qed.

(** ** A partition whose stored offset still holds the recorded message *)

Definition same_message (a b : MessageMark) : Prop :=
  timestamp_ms a = timestamp_ms b ∧ value_len a = value_len b.

(** A Ready state whose re-read, if one is due, finds the recorded message or none. *)
Definition verified (T : list MessageMark) (v : option State) : Prop :=
  match v with
  | Some (Ready _ _ (Some (Expect rec)) _) =>
      ∀ m, m ∈ T → m_offset m = m_offset rec → same_message rec m
  | Some (Ready _ _ _ _) => True
  | _ => False
  end.

Definition takes (a : option Admit) : bool :=
  match a with Some (Take _) => true | _ => false end.

Lemma takes_match {A} (a : option Admit) (x y : A) :
  match a with Some (Take _) => x | _ => y end = if takes a then x else y.
Proof. by destruct a as [[]|]. Qed.

Lemma view_step_verified T m now v a v' :
  m ∈ T → verified T v → state_ok v → offset_ok m → view_step m now v = (a, v') →
  verified T v' ∧ takes a = (lower v <=? m_offset m).
Proof.
  intros Hm Hver Hs Ho. unfold view_step, offset_ok in *.
  destruct v as [[next start r lm|b since]|]; [|by intros [= <- <-]..]. destruct Hs as [Hn Hr].
  assert (Hnext : ∀ nx, 
    match admit_next nx start now (m_offset m) with
    | (AdmitBlock b, _) => (Some (AdmitBlock b), None)
    | (a, s) => (Some a, Some s)
    end = (a, v') → verified T v' ∧ takes a = (nx <=? m_offset m)).
  { intros nx. unfold admit_next.
    destruct (Z.ltb_spec (m_offset m) nx), (Z.leb_spec nx (m_offset m)); try lia;
      by intros [= <- <-]. }
  destruct r as [r|]; simpl in *; [|by apply Hnext].
  destruct (Z.eqb_spec (m_offset m) (reread_offset r)) as [E|E].
  - destruct (Z.leb_spec (reread_offset r + 1) (m_offset m)); [lia|].
    destruct r as [rec|o]; [|by intros [= <- <-]].
    destruct (Hver m Hm E) as [-> ->]. rewrite !Z.eqb_refl. by intros [= <- <-].
  - destruct (Z.ltb_spec (m_offset m) (reread_offset r)).
    + destruct (Z.leb_spec (reread_offset r + 1) (m_offset m)); [lia|]. by intros [= <- <-].
    + rewrite (i64_small (reread_offset r + 1)) by width_lia. apply Hnext.
Qed.

(** ** Segments of a topic *)

Lemma segment_nil {A} (T : list A) n : segment T n n = [].
Proof. unfold segment. by rewrite Nat.sub_diag. Qed.

Lemma segment_S {A} (T : list A) n n' m :
  T !! n = Some m → (S n ≤ n')%nat → segment T n n' = m :: segment T (S n) n'.
Proof.
  intros Hn Hle. unfold segment. rewrite (drop_S _ _ _ Hn).
  by replace (n' - n)%nat with (S (n' - S n)) by lia.
Qed.

Lemma delivers_le T n l n' : delivers T n l n' → (n ≤ n')%nat.
Proof. induction 1; lia. Qed.

Lemma sorted_after T i j a b :
  StronglySorted before T → T !! i = Some a → T !! j = Some b → (i < j)%nat → before a b.
Proof.
  intros HT. revert i j; induction HT as [|x T HT IH Hx]; intros i j Hi Hj Hlt; [done|].
  destruct i as [|i], j as [|j]; simpl in *; try lia.
  - simplify_eq. rewrite Forall_forall in Hx. apply Hx. by eapply list_elem_of_lookup_2.
  - by eapply IH; [done..|lia].
Qed.

Lemma segment_elem {A} (T : list A) n n' (m : A) :
  m ∈ segment T n n' → ∃ i, (n ≤ i)%nat ∧ T !! i = Some m.
Proof.
  unfold segment. intros H. apply elem_of_take in H as (i & H & _).
  rewrite lookup_drop in H. exists (n + i)%nat. split; [lia|done].
Qed.

Lemma from_offset_raise o o' l :
  o ≤ o' → (∀ m, m ∈ l → o' ≤ m_offset m) → from_offset o' l = from_offset o l.
Proof.
  intros Ho. unfold from_offset. induction l as [|m l IH]; intros Hl; [done|].
  pose proof (Hl m ltac:(by left)). rewrite !filter_cons, !decide_True by lia.
  f_equal. apply IH. intros x Hx. apply Hl. by right.
Qed.

Lemma consume_delivery T p l s r s' n n' :
  topic T → verified T (view p s) → state_ok (view p s) →
  (∀ i m, (i < n)%nat → T !! i = Some m → m_offset m < lower (view p s)) →
  delivers T n (of_partition p l) n' → consume l s = (r, s') →
  of_partition p (taken r) = from_offset (lower (view p s)) (segment T n n').
Proof.
  intros [HT HO]. revert s r n; induction l as [|m l IH]; intros s r n Hver Hs Hlow Hd H.
  { inversion Hd; subst. simpl in H; simplify_eq. by rewrite segment_nil. }
  apply (consume_cons p) in H as (a & s1 & r' & _ & Hc & -> & Hm).
  rewrite of_partition_cons in Hd. destruct (Z.eqb_spec (msg_partition m) p) as [<-|Hne].
  2: { destruct Hm as (Hv & -> & _). rewrite <- Hv in *. by apply IH. }
  destruct (view_step _ _ _) as [a' v'] eqn:Es. destruct Hm as (Hv & -> & _).
  rewrite takes_match. set (mk := msg_mark m) in *.
  assert (∃ i, T !! i = Some mk) as [i Hi] by (inversion Hd; subst; eauto).
  assert (HmT : mk ∈ T) by (by eapply list_elem_of_lookup_2).
  assert (Hok : offset_ok mk) by (rewrite Forall_forall in HO; by apply HO).
  pose proof (view_step_verified _ _ _ _ _ _ HmT Hver Hs Hok Es) as [Hver' Ht].
  apply view_step_spec in Es as [Hs' Hl]; [|done..]. rewrite Ht. rewrite <- Hv in *.
  set (lo := lower (view (msg_partition m) s)) in *.
  inversion Hd as [|? ? ? ? Hn Hd'|? j ? ? ? Hj Hlt Hd']; subst.
  - rewrite (segment_S _ _ _ _ Hn) by (by eapply delivers_le).
    unfold from_offset. rewrite filter_cons. fold (from_offset lo (segment T (S n) n')).
    destruct (Z.leb_spec lo (m_offset mk)) as [Hle|Hgt].
    + rewrite decide_True by done. f_equal.
      destruct a' as [[g| |]|]; try done. destruct Hl as (_ & _ & Hl').
      rewrite (IH _ _ (S n) Hver' Hs'); [|..]; [| |done|done].
      * rewrite Hl'. apply from_offset_raise; [lia|]. intros x Hx.
        apply segment_elem in Hx as (k & Hk & Hx).
        pose proof (sorted_after _ _ _ _ _ HT Hn Hx ltac:(lia)). unfold before in *. lia.
      * intros k x Hk Hx. rewrite Hl'. destruct (decide (k = n)) as [->|]; [simplify_eq; lia|].
        pose proof (sorted_after _ _ _ _ _ HT Hx Hn ltac:(lia)). unfold before in *. lia.
    + rewrite decide_False by lia.
      assert (El : lower (view (msg_partition m) s1) = lo).
      { destruct a' as [[]|]; try done. by rewrite Hl in Hver'. }
      rewrite <- El. apply IH; [done..| |done|done].
      intros k x Hk Hx. rewrite El. destruct (decide (k = n)) as [->|]; [simplify_eq; lia|].
      apply (Hlow k); [lia|done].
  - pose proof (Hlow _ _ Hlt Hj) as Hlo. destruct (Z.leb_spec lo (m_offset mk)); [lia|].
    assert (El : lower (view (msg_partition m) s1) = lo).
    { destruct a' as [[]|]; try done. by rewrite Hl in Hver'. }
    rewrite <- El. apply IH; [done..| |done|done]. by rewrite El.
Qed.

(** ** What the buffer holds *)

Definition buffer_take (b : Buffer) (m : Message) : Buffer :=
  take_message (msg_partition m) (msg_mark m) (msg_raw m) (msg_at m) b.

Lemma consume_buffer l s r s' :
  consume l s = (r, s') → buf s' = fold_left buffer_take (taken r) (buf s).
Proof.
  revert s r; induction l as [|m l IH]; intros s r; simpl; [by intros [= <- <-]|].
  destruct (take_one m s) as [a s1] eqn:E. destruct (consume l s1) as [r' s2] eqn:Ec.
  intros [= <- <-]. rewrite (IH _ _ Ec). unfold taken; csimpl.
  enough (buf s1 = match a with Some (Take _) => buffer_take (buf s) m | _ => buf s end)
    as -> by (by destruct a as [[]|]).
  revert E. unfold take_one. case_decide; [by intros [= <- <-]|].
  destruct (admit_message _ _ _ _) as [[] ps]; by intros [= <- <-].
Qed.

(** A batch's ranges, marks and message count as one function of what it took. *)
Definition range_of (l : list MessageMark) : option (Z * Z) :=
  match head l, last l with
  | Some a, Some b => Some (m_offset a, m_offset b)
  | _, _ => None
  end.

Lemma range_of_snoc l m :
  range_of (l ++ [m]) =
  Some (from_option fst (m_offset m) (range_of l), m_offset m).
Proof. unfold range_of. rewrite last_snoc. destruct l as [|a l]; simpl; [done|].
  by destruct (last_is_Some (a :: l)) as [_ [b ->]]. Qed.

Lemma of_partition_snoc p l m :
  of_partition p (l ++ [m]) =
  of_partition p l ++ (if msg_partition m =? p then [msg_mark m] else []).
Proof.
  unfold of_partition. rewrite omap_app. csimpl. by destruct (_ =? _).
Qed.

Lemma buffer_of_taken l :
  let b := fold_left buffer_take l buffer_default in
  (∀ p, ranges b !! p = range_of (of_partition p l)) ∧
  (∀ p, marks b !! p = last (of_partition p l)) ∧
  messages b = u64 (Z.of_nat (length l)) ∧
  raw_bytes b = u64 (foldr (λ m t, msg_raw m + t) 0 l) ∧
  opened_at b = msg_at <$> head l.
Proof.
  induction l as [|m l (IH1 & IH2 & IH3 & IH4 & IH5)] using rev_ind; [done|].
  rewrite fold_left_app. set (b := fold_left buffer_take l buffer_default) in *.
  simpl. split; [|split; [|split; [|split]]].
  - intros p. rewrite of_partition_snoc. destruct (Z.eqb_spec (msg_partition m) p) as [<-|Hne].
    + rewrite range_of_snoc, <- IH1.
      destruct (ranges b !! msg_partition m) as [[first la]|]; by rewrite lookup_insert_eq.
    + rewrite app_nil_r, <- IH1.
      destruct (ranges b !! msg_partition m) as [[first la]|]; by rewrite lookup_insert_ne.
  - intros p. rewrite of_partition_snoc. destruct (Z.eqb_spec (msg_partition m) p) as [<-|Hne].
    + by rewrite lookup_insert_eq, last_snoc.
    + by rewrite lookup_insert_ne, app_nil_r.
  - rewrite length_app, IH3; simpl. unfold u64. rewrite Z.add_mod_idemp_l by done. f_equal. lia.
  - rewrite foldr_app, IH4; simpl. unfold u64. rewrite Z.add_mod_idemp_l by done. f_equal.
    clear. induction l; simpl; lia.
  - rewrite IH5. by destruct l.
Qed.

(** A partition that is paused keeps its state whatever else is consumed. *)
Lemma consume_paused p l s r s' :
  consume l s = (r, s') → p ∈ paused s →
  parts s' !! p = parts s !! p ∧ p ∈ paused s' ∧ of_partition p (taken r) = [].
Proof.
  revert s r; induction l as [|m l IH]; intros s r H Hp; [by simpl in H; simplify_eq|].
  simpl in H. destruct (take_one m s) as [a s1] eqn:E.
  destruct (consume l s1) as [r' s2] eqn:Ec. simplify_eq.
  assert (Hone : parts s1 !! p = parts s !! p ∧ p ∈ paused s1 ∧
    (msg_partition m = p → a = None)).
  { revert E. unfold take_one. case_decide as Hq; [by intros [= <- <-]|].
    assert (msg_partition m ≠ p) by (by intros <-). unfold admit_message.
    destruct (parts s !! msg_partition m) as [st|] eqn:E; [|by intros [= <- <-]].
    destruct (admit_state _ _ _) as [[] st']; intros [= <- <-]; simpl;
      unfold block; rewrite ?lookup_insert_ne by done;
      rewrite ?elem_of_union; naive_solver. }
  destruct Hone as (H1 & H2 & H3). destruct (IH _ _ Ec H2) as (H4 & H5 & H6).
  split; [congruence|]. split; [done|]. unfold taken; csimpl. fold (taken r').
  destruct a as [[]|]; try done. rewrite of_partition_cons.
  destruct (Z.eqb_spec (msg_partition m) p) as [E'|]; [|done]. by specialize (H3 E').
Qed.

(** ** A concrete partition: stored at 41, with offsets 43 and 44 compacted away *)

Module Demo.
Definition mark (o : Z) : MessageMark :=
  {| m_offset := o; timestamp_ms := 1700 + o; value_len := 10 |}.
Definition msg (p o : Z) : Message :=
  {| msg_partition := p; msg_mark := mark o; msg_raw := 20; msg_at := 5 |}.

Definition stored : list MessageMark := [mark 40; mark 41; mark 42; mark 45].
Definition intake : Intake :=
  {| parts := ready_at 0 41 (Some (Expect (mark 41))) 0 ∅; buf := buffer_default;
     paused := ∅ |}.
Definition delivered : list Message :=
  [msg 0 41; msg 0 42; msg 1 7; msg 0 41; msg 0 45; msg 0 42].

(** The same partition in a topic recreated and refilled. *)
Definition other : Message :=
  {| msg_partition := 0; msg_mark := {| m_offset := 41; timestamp_ms := 1; value_len := 10 |};
     msg_raw := 20; msg_at := 5 |}.

Lemma stored_topic : topic stored.
Proof.
  split.
  - repeat constructor; unfold before; simpl; lia.
  - repeat constructor; simpl; width_lia.
Qed.

Lemma intake_ok : state_ok (view 0 intake).
Proof. change (state_ok (Some (Ready 41 41 (Some (Expect (mark 41))) 0))). simpl. width_lia. Qed.

Lemma stored_verified : verified stored (view 0 intake).
Proof.
  change (verified stored (Some (Ready 41 41 (Some (Expect (mark 41))) 0))).
  intros m Hm Ho. unfold stored in Hm.
  repeat (apply elem_of_cons in Hm as [->|Hm]; [by simpl in Ho|]). by apply not_elem_of_nil in Hm.
Qed.
End Demo.

(** ** Properties *)

(** No offset of a partition is ever taken twice, or below where it stands: whatever
    librdkafka delivers, in whatever order and interleaved with other partitions, the
    offsets taken strictly increase from the one expected on; and the gaps counted are
    exact, so that offsets passed = messages taken + offsets skipped. *)
Theorem taken_offsets_increase p l s r s' :
  state_ok (view p s) → messages_ok p l → consume l s = (r, s') →
  StronglySorted before (of_partition p (taken r)) ∧
  Forall (λ m, lower (view p s) ≤ m_offset m < lower (view p s')) (of_partition p (taken r)) ∧
  (view p s' ≠ None →
   lower (view p s') =
     lower (view p s) + Z.of_nat (length (of_partition p (taken r))) + gaps p r).
Proof.
  intros Hs Hl H. destruct (consume_increasing _ _ _ _ _ Hs Hl H) as (? & ? & _ & _ & ?).
  done.
Qed.

Lemma taken_offsets_increase_witness :
  of_partition 0 (taken (consume Demo.delivered Demo.intake).1) = [Demo.mark 42; Demo.mark 45] ∧
  StronglySorted before [Demo.mark 42; Demo.mark 45] ∧
  gaps 0 (consume Demo.delivered Demo.intake).1 = 2.
Proof.
  assert (E : of_partition 0 (taken (consume Demo.delivered Demo.intake).1) =
    [Demo.mark 42; Demo.mark 45]) by (vm_compute; reflexivity).
  split; [exact E|]. split; [|vm_compute; reflexivity]. rewrite <- E.
  apply (taken_offsets_increase 0 Demo.delivered Demo.intake
    (consume Demo.delivered Demo.intake).1 (consume Demo.delivered Demo.intake).2 Demo.intake_ok).
  - change (Forall offset_ok [Demo.mark 41; Demo.mark 42; Demo.mark 41; Demo.mark 45;
      Demo.mark 42]).
    by repeat (apply Forall_cons; split; [split; simpl; width_lia|]).
  - apply surjective_pairing.
Defined.

(** C11: delivered in order, a partition is read exactly once: of a topic's messages from
    any point on, with any number of redeliveries and other partitions' messages between
    them, those taken are all of those from the expected offset on (after the stored one
    when that is re-read, verified or gone), each once and in order. *)
Theorem partition_is_read_exactly_once T p l s r s' n n' :
  topic T → verified T (view p s) → state_ok (view p s) →
  (∀ i m, (i < n)%nat → T !! i = Some m → m_offset m < lower (view p s)) →
  delivers T n (of_partition p l) n' → consume l s = (r, s') →
  of_partition p (taken r) = from_offset (lower (view p s)) (segment T n n').
Proof. apply consume_delivery. Qed.

Lemma partition_is_read_exactly_once_witness :
  of_partition 0 (taken (consume Demo.delivered Demo.intake).1) =
  from_offset 42 (segment Demo.stored 1 4).
Proof.
  apply (partition_is_read_exactly_once Demo.stored 0 Demo.delivered Demo.intake
    (consume Demo.delivered Demo.intake).1 (consume Demo.delivered Demo.intake).2 1 4
    Demo.stored_topic Demo.stored_verified Demo.intake_ok).
  - intros [|[|i]] m; [|lia..]. intros _ [= <-]. reflexivity.
  - change (delivers Demo.stored 1 [Demo.mark 41; Demo.mark 42; Demo.mark 41; Demo.mark 45;
      Demo.mark 42] 4).
    do 2 (apply delivers_next; [reflexivity|]).
    apply (delivers_again _ _ 1); [reflexivity|lia|]. apply delivers_next; [reflexivity|].
    apply (delivers_again _ _ 2); [reflexivity|lia|]. constructor.
  - apply surjective_pairing.
Defined.

(** A topic recreated under the stored offset takes nothing: when the message there is
    not the one recorded, nothing of the partition is taken, and it ends paused and blocked
    on the two marks, whatever else is delivered before and after. *)
Theorem replaced_topic_is_blocked p next st rec lm s l l1 m l2 r s' :
  view p s = Some (Ready next st (Some (Expect rec)) lm) →
  l = l1 ++ m :: l2 → msg_partition m = p →
  Forall (λ x, m_offset x < m_offset rec) (of_partition p l1) →
  m_offset (msg_mark m) = m_offset rec → ¬ same_message rec (msg_mark m) →
  consume l s = (r, s') →
  of_partition p (taken r) = [] ∧ p ∈ paused s' ∧
  parts s' !! p = Some (Blocked (B_Replaced rec (msg_mark m)) (msg_at m)).
Proof.
  intros Hv -> <- Hlow Ho Hdiff. set (p := msg_partition m) in *.
  revert s r lm Hv Hlow; induction l1 as [|x l1 IH]; intros s r lm Hv Hlow H.
  - simpl in H. destruct (take_one m s) as [a s1] eqn:E.
    destruct (consume l2 s1) as [r' s2] eqn:Ec. simplify_eq.
    unfold take_one, admit_message, view in *. fold p in E. case_decide as Hp; [done|].
    rewrite Hv in E. simpl in E. rewrite Ho, Z.eqb_refl in E.
    destruct (_ && _) eqn:Hsame.
    { exfalso. apply Hdiff. by apply andb_true_iff in Hsame as [?%Z.eqb_eq ?%Z.eqb_eq]. }
    simplify_eq. destruct (consume_paused p _ _ _ _ Ec) as (H1 & H2 & H3); [set_solver|].
    unfold taken; csimpl. fold (taken r'). rewrite H1. split; [done|]. split; [done|].
    simpl. unfold block. by rewrite !lookup_insert_eq.
  - change ((x :: l1) ++ m :: l2) with (x :: (l1 ++ m :: l2)) in H.
    apply (consume_cons p) in H as (a & s1 & r' & _ & Hc & -> & Hm).
    rewrite of_partition_cons in Hlow.
    destruct (Z.eqb_spec (msg_partition x) p) as [E|Hne].
    + apply Forall_cons in Hlow as [Hx Hlow]. rewrite Hv in Hm.
      cbn [view_step admit_state reread_offset] in Hm.
      destruct (Z.eqb_spec (m_offset (msg_mark x)) (m_offset rec)); [lia|].
      destruct (Z.ltb_spec (m_offset (msg_mark x)) (m_offset rec)); [|lia].
      destruct Hm as (Hv1 & -> & _). by eapply IH.
    + destruct Hm as (Hv1 & -> & _). rewrite Hv in Hv1. by eapply IH.
Qed.

Lemma replaced_topic_is_blocked_witness :
  let s := (consume [Demo.msg 0 40; Demo.other; Demo.msg 0 42] Demo.intake).2 in
  0 ∈ paused s ∧ parts s !! 0 =
    Some (Blocked (B_Replaced (Demo.mark 41) (msg_mark Demo.other)) 5).
Proof.
  intros s.
  apply (replaced_topic_is_blocked 0 41 41 (Demo.mark 41) 0 Demo.intake
    [Demo.msg 0 40; Demo.other; Demo.msg 0 42] [Demo.msg 0 40] Demo.other [Demo.msg 0 42]
    (consume [Demo.msg 0 40; Demo.other; Demo.msg 0 42] Demo.intake).1 s);
    [reflexivity|reflexivity|reflexivity| |reflexivity| |apply surjective_pairing].
  - by repeat constructor.
  - by intros [? ?].
Defined.

(** The buffer accounts for exactly what was taken since it was opened: per partition
    the first and the last offset and the last message's mark, how many messages and bytes,
    and the time of the first one, from which the latency limit counts. *)
Theorem buffer_accounts_for_taken l s r s' :
  buf s = buffer_default → consume l s = (r, s') →
  (∀ p, ranges (buf s') !! p = range_of (of_partition p (taken r))) ∧
  (∀ p, marks (buf s') !! p = last (of_partition p (taken r))) ∧
  messages (buf s') = u64 (Z.of_nat (length (taken r))) ∧
  raw_bytes (buf s') = u64 (foldr (λ m t, msg_raw m + t) 0 (taken r)) ∧
  opened_at (buf s') = msg_at <$> head (taken r).
Proof. intros Hb H. rewrite (consume_buffer _ _ _ _ H), Hb. apply buffer_of_taken. Qed.

Lemma buffer_accounts_for_taken_witness :
  ranges (buf (consume Demo.delivered Demo.intake).2) !! 0 = Some (42, 45) ∧
  messages (buf (consume Demo.delivered Demo.intake).2) = 2.
Proof.
  destruct (buffer_accounts_for_taken Demo.delivered Demo.intake
    (consume Demo.delivered Demo.intake).1 (consume Demo.delivered Demo.intake).2)
    as (Hr & _ & Hm & _); [reflexivity|apply surjective_pairing|].
  split; [rewrite Hr; vm_compute; reflexivity|rewrite Hm; vm_compute; reflexivity].
Defined.
