(* ===== verification/Topic.v ===== *)
(** * Topic: intervals of a partition's messages

    What a batch holds of a partition, and what a table holds of it, are intervals of the
    topic: [between].  The lemmas say how intervals join, and that an in-order delivery
    takes one. *)

From Stdlib Require Import ZArith Lia Sorted.
From stdpp Require Import base list sorting.
From S2P Require Import Prelude Partitions.

Open Scope Z_scope.

(** The messages of a topic from an offset up to another. *)
Definition between (T : list MessageMark) (lo hi : Z) : list MessageMark :=
  filter (λ m, lo ≤ m_offset m < hi) T.

Lemma filter_ext_in {A} (P Q : A → Prop) `{!∀ x, Decision (P x), !∀ x, Decision (Q x)} (l : list A) :
  (∀ x, x ∈ l → P x ↔ Q x) → filter P l = filter Q l.
Proof.
  induction l as [|x l IH]; intros Hl; [done|]. rewrite !filter_cons.
  rewrite IH by (intros y Hy; apply Hl; by right). specialize (Hl x ltac:(by left)).
  destruct (decide (P x)), (decide (Q x)); naive_solver.
Qed.

Lemma filter_none {A} (P : A → Prop) `{!∀ x, Decision (P x)} (l : list A) :
  (∀ x, x ∈ l → ¬ P x) → filter P l = [].
Proof.
  induction l as [|x l IH]; intros Hl; [done|]. rewrite filter_cons, decide_False.
  - apply IH. intros y Hy. apply Hl. by right.
  - apply Hl. by left.
Qed.

Lemma between_split (T : list MessageMark) lo mid hi :
  StronglySorted before T → lo ≤ mid → mid ≤ hi →
  between T lo hi = between T lo mid ++ between T mid hi.
Proof.
  unfold between. intros HT Hlm Hmh. induction HT as [|m T HT IH Hm]; [done|]. rewrite !filter_cons, IH.
  destruct (Z.lt_ge_cases (m_offset m) mid) as [Hlt|Hge].
  - rewrite (decide_False (P := mid ≤ m_offset m < hi)) by lia.
    destruct (decide (lo ≤ m_offset m < hi)), (decide (lo ≤ m_offset m < mid)); [done|lia|lia|done].
  - rewrite (decide_False (P := lo ≤ m_offset m < mid)) by lia.
    assert (E : filter (λ x, lo ≤ m_offset x < mid) T = []).
    { clear IH. induction T as [|x T IHT]; [done|].
      apply Forall_cons in Hm as [Hx Hm]. apply StronglySorted_inv in HT as [HT _].
      unfold before in Hx. rewrite filter_cons, decide_False by lia. by apply IHT. }
    rewrite E; simpl. by destruct (decide (lo ≤ m_offset m < hi)), (decide (mid ≤ m_offset m < hi)); lia || done.
Qed.

Lemma sorted_filter (P : MessageMark → Prop) `{!∀ x, Decision (P x)} l :
  StronglySorted before l → StronglySorted before (filter P l).
Proof.
  induction 1 as [|x l Hl IH Hx]; [constructor|]. rewrite filter_cons. case_decide; [|done].
  constructor; [done|]. rewrite Forall_forall in *. intros y [_ Hy]%list_elem_of_filter. by apply Hx.
Qed.

Lemma sorted_last l x y :
  StronglySorted before l → last l = Some x → y ∈ l → m_offset y ≤ m_offset x.
Proof.
  induction 1 as [|z l Hl IH Hz]; [done|]. intros Hlast [->|Hy]%elem_of_cons.
  - destruct l as [|z' l]; [by simplify_eq/=; lia|].
    rewrite Forall_forall in Hz. assert (Hin : x ∈ z' :: l) by (by apply last_Some_elem_of).
    specialize (Hz x Hin). unfold before in Hz. lia.
  - apply IH; [|done]. destruct l; [by apply not_elem_of_nil in Hy|done].
Qed.

Lemma topic_split {A} (T : list A) n n' :
  (n ≤ n')%nat → T = (take n T ++ segment T n n') ++ drop n' T.
Proof.
  intros Hn. unfold segment. rewrite take_take_drop.
  replace (n + (n' - n))%nat with n' by lia. by rewrite take_drop.
Qed.

Lemma between_empty T lo : between T lo lo = [].
Proof. apply filter_none. intros m _. lia. Qed.

(** The next message of a topic extends an interval by itself. *)
Lemma between_snoc T lo mid m :
  StronglySorted before T → m ∈ T → lo ≤ mid ≤ m_offset m →
  (∀ x, x ∈ T → mid ≤ m_offset x → m_offset m ≤ m_offset x) →
  between T lo (m_offset m + 1) = between T lo mid ++ [m].
Proof.
  intros HT Hm Hmid Hnext. rewrite (between_split T lo mid) by (done || lia). f_equal.
  unfold between. revert Hm Hnext. induction HT as [|x T HT IH Hx]; intros Hm Hnext.
  { by apply not_elem_of_nil in Hm. }
  rewrite filter_cons. rewrite Forall_forall in Hx. apply elem_of_cons in Hm as [<-|Hm].
  - rewrite decide_True by lia. f_equal. apply filter_none. intros y Hy.
    specialize (Hx y Hy). unfold before in Hx. lia.
  - specialize (Hx m Hm). unfold before in Hx. rewrite decide_False.
    + apply IH; [done|]. intros y Hy. apply Hnext. by right.
    + intros Hlo. specialize (Hnext x ltac:(by left)). lia.
Qed.

(** What a delivery in order takes of a topic is an interval of it. *)
Lemma segment_between T n n' lo x :
  StronglySorted before T → (n ≤ n')%nat →
  (∀ i m, (i < n)%nat → T !! i = Some m → m_offset m < lo) →
  last (from_offset lo (segment T n n')) = Some x →
  from_offset lo (segment T n n') = between T lo (m_offset x + 1).
Proof.
  intros HT Hn Hlow Hx. pose proof (topic_split T n n' Hn) as Hsplit.
  assert (Hin : x ∈ segment T n n').
  { apply last_Some_elem_of in Hx. by apply list_elem_of_filter in Hx as [_ Hx]. }
  unfold between. rewrite Hsplit in HT. rewrite Hsplit at 2. rewrite !filter_app.
  rewrite (filter_none _ (drop n' T)), (filter_none _ (take n T)).
  - rewrite app_nil_r. simpl. apply filter_ext_in. intros y Hy. split; [|tauto].
    intros Hlo. split; [done|]. enough (m_offset y ≤ m_offset x) by lia.
    apply (sorted_last (from_offset lo (segment T n n'))); [|done|].
    + apply sorted_filter. eapply StronglySorted_app_1_r, StronglySorted_app_1_l, HT.
    + by apply list_elem_of_filter.
  - intros y Hy. apply elem_of_take in Hy as (j & Hj & Hjn). specialize (Hlow j y Hjn Hj). lia.
  - intros y Hy. enough (before x y) as Hb by (unfold before in Hb; lia).
    apply (StronglySorted_app_1_elem_of _ _ _ _ _ HT); [|done]. apply elem_of_app. by right.
Qed.
