(* ===== verification/Takeover.v ===== *)
(** * Takeover: how a partition's offset is named in a target, and how ddi takes over the
    offsets kafka-delta-ingest wrote (src/fence.rs, first half)

    Names are [string]s; a topic's partitions with their stored offset and high watermark
    are a map, as in the source.  [takeover_check] refuses what the table cannot account
    for; [takeover_baseline] is the commit that makes every acknowledgment an offset. *)

From Stdlib Require Import ZArith Lia Ascii.
From stdpp Require Import base list strings gmap sorting.
From S2P Require Import Prelude Error Partitions.

Open Scope Z_scope.

(** ** Names *)

Definition txn_app_id (app_id : string) (partition : Z) : string :=
  String.append app_id (String.append "-" (show_Z partition)).

Definition TAKEOVER_MARKER_VERSION : Z := 1.
Definition KAFKA_TXN_LAST_UPDATED : Z := 253402300799999.

Definition takeover_marker_app_id (app_id : string) : string := String.append app_id ".ddi".

(** [digits.parse::<i32>()] of an all-digit text. *)
Definition parse_i32_digits (s : string) : option Z :=
  match parse_digits s with
  | Some n => if Z.of_N n <=? i32_max then Some (Z.of_N n) else None
  | None => None
  end.

Definition partition_of (app_id txn_app_id : string) : option Z :=
  match str_strip_prefix app_id txn_app_id with
  | None => None
  | Some rest =>
      match str_strip_prefix "-" rest with
      | None => None
      | Some digits => parse_i32_digits digits
      end
  end.

(** ** Who has written an app_id's offsets *)

Record TxnState := { txn_version : option Z; txn_mark : option MessageMark }.

Definition txn_default : TxnState := {| txn_version := None; txn_mark := None |}.

Inductive Era := EraFresh | EraKdi | EraDdi.

#[export] Instance Era_eq_dec : EqDecision Era.
Proof. solve_decision. Defined.

Definition held (txns : gmap string TxnState) (id : string) : bool :=
  match txns !! id with
  | Some t => match txn_version t with Some _ => true | None => false end
  | None => false
  end.

Definition era (app_id : string) (txns : gmap string TxnState) : Era :=
  if held txns (takeover_marker_app_id app_id) then EraDdi
  else if existsb (λ '(id, t),
            match txn_version t, partition_of app_id id with
            | Some _, Some _ => true
            | _, _ => false
            end) (map_to_list txns)
  then EraKdi
  else EraFresh.

(** ** The takeover *)

(** A map's keys in a [BTreeMap]'s order. *)
Definition sorted_keys {A} (m : gmap Z A) : list Z := merge_sort Z.le (map_to_list m).*1.

Definition takeover_missing (partitions : gmap Z (option Z * Z)) (acknowledged : gset Z)
    : list Z :=
  List.filter (λ p,
    match partitions !! p with
    | Some (None, high) => (0 <? high) && negb (bool_decide (p ∈ acknowledged))
    | _ => false
    end) (sorted_keys partitions).

Definition takeover_check (app_id : string) (e : Era) (holds_rows : bool)
    (partitions : gmap Z (option Z * Z)) (acknowledged : gset Z) : result Error unit :=
  let check fresh :=
    match takeover_missing partitions acknowledged with
    | [] => Ok tt
    | missing => Err (KafkaOffsetMissing app_id missing fresh)
    end in
  match e with
  | EraKdi => check false
  | EraFresh => if holds_rows then check true else Ok tt
  | EraDdi => Ok tt
  end.

Definition takeover_baseline (e : Era) (stored : gmap Z (option Z)) (explicit : gmap Z Z)
    : option (gmap Z Z) :=
  match e with
  | EraKdi =>
      Some (map_imap (λ p stored,
        match stored, explicit !! p with
        | Some offset, _ => Some offset
        | None, Some next => if 0 <? next then Some (i64 (next - 1)) else None
        | None, None => None
        end) stored)
  | _ => None
  end.

Inductive NoTxnStart :=
  | Explicit (at_ : Z)
  | Zero
  | NT_Unavailable (wanted low : Z)
  | NT_Regressed (wanted high : Z).

Definition start_without_offset (low high : Z) (explicit : option Z) : NoTxnStart :=
  match explicit with
  | Some wanted =>
      if wanted <? low then NT_Unavailable wanted low
      else if high <? wanted then NT_Regressed wanted high
      else Explicit wanted
  | None => if low =? 0 then Zero else NT_Unavailable 0 low
  end.

(** ** Lemmas *)

Lemma sorted_keys_elem {A} (m : gmap Z A) p : p ∈ sorted_keys m ↔ is_Some (m !! p).
Proof.
  unfold sorted_keys. rewrite merge_sort_Permutation, list_elem_of_fmap. split.
  - intros ([q x] & -> & H%elem_of_map_to_list). by eexists.
  - intros [x Hx]. exists (p, x). split; [done|]. by apply elem_of_map_to_list.
Qed.

Lemma show_Z_nonneg p : 0 ≤ p → show_Z p = show_N (Z.to_N p).
Proof. by destruct p. Qed.

Lemma partition_of_txn_app_id app_id p :
  0 ≤ p ≤ i32_max → partition_of app_id (txn_app_id app_id p) = Some p.
Proof.
  intros Hp. unfold partition_of, txn_app_id. rewrite !str_strip_prefix_app.
  unfold parse_i32_digits. rewrite show_Z_nonneg, parse_digits_show, Z2N.id by lia.
  by destruct (Z.leb_spec p i32_max); [|lia].
Qed.

(** The last character of a text, and that of a number. *)
Definition last_char (s : string) : option ascii := last (String.list_ascii_of_string s).

Lemma last_char_append s t a : last_char t = Some a → last_char (String.append s t) = Some a.
Proof. unfold last_char. rewrite list_ascii_of_string_append, last_app. by intros ->. Qed.

(** Every character of an all-digit text is a digit. *)
Lemma parse_digits_digits s n :
  parse_digits s = Some n →
  Forall (λ a, ascii_digit a ≠ None) (String.list_ascii_of_string s) ∧ s ≠ EmptyString.
Proof.
  unfold parse_digits, all_digits. destruct (mapM _ _) as [ds|] eqn:E; [|done].
  destruct ds as [|d ds]; [done|]. intros _. split.
  - apply mapM_Some in E. induction E; constructor; [congruence|done].
  - by intros ->.
Qed.

Lemma partition_of_Some app_id id p :
  partition_of app_id id = Some p →
  0 ≤ p ≤ i32_max ∧ ∃ digits,
    id = String.append app_id (String.append "-" digits) ∧ parse_digits digits = Some (Z.to_N p).
Proof.
  unfold partition_of, parse_i32_digits.
  destruct (str_strip_prefix app_id id) as [rest|] eqn:E1; [|done].
  destruct (str_strip_prefix "-" rest) as [digits|] eqn:E2; [|done].
  destruct (parse_digits digits) as [n|] eqn:E3; [|done].
  destruct (Z.leb_spec (Z.of_N n) i32_max); [|done]. intros [= <-].
  apply str_strip_prefix_Some in E1, E2. subst. split; [lia|]. exists digits.
  by rewrite N2Z.id.
Qed.

Lemma digits_last_char s n : parse_digits s = Some n → ∃ a, last_char s = Some a ∧ ascii_digit a ≠ None.
Proof.
  intros [HF Hne]%parse_digits_digits. unfold last_char.
  destruct (last (String.list_ascii_of_string s)) as [a|] eqn:E.
  - exists a. split; [done|]. rewrite Forall_forall in HF. apply HF. by apply last_Some_elem_of.
  - exfalso. apply last_None in E. by destruct s.
Qed.

(** A dash and digits end a text in only one way. *)
Lemma dash_digits_inj l1 l2 d1 d2 :
  l1 ++ "-"%char :: d1 = l2 ++ "-"%char :: d2 →
  Forall (λ a, ascii_digit a ≠ None) d1 → Forall (λ a, ascii_digit a ≠ None) d2 →
  l1 = l2 ∧ d1 = d2.
Proof.
  assert (Hout : ∀ (l d d' : list ascii),
    Forall (λ a, ascii_digit a ≠ None) d → d ≠ l ++ "-"%char :: d').
  { intros l d d' HF ->. apply Forall_app in HF as [_ HF]. apply Forall_cons in HF as [H _].
    by apply H. }
  revert l2; induction l1 as [|a l1 IH]; intros [|b l2] H H1 H2; simplify_eq/=; [done|..].
  - by destruct (Hout _ _ _ H1 eq_refl).
  - by destruct (Hout _ _ _ H2 eq_refl).
  - by destruct (IH _ ltac:(eassumption) H1 H2) as [-> ->].
Qed.

Lemma show_N_digits n :
  Forall (λ a, ascii_digit a ≠ None) (String.list_ascii_of_string (show_N n)).
Proof. apply (parse_digits_digits _ n), parse_digits_show. Qed.

Lemma show_N_inj n m : show_N n = show_N m → n = m.
Proof. intros H%(f_equal parse_digits). rewrite !parse_digits_show in H. by simplify_eq. Qed.

(** A partition's offset name determines app_id and digits. *)
Lemma dash_name_inj a b d d' n n' :
  String.append a (String.append "-" d) = String.append b (String.append "-" d') →
  parse_digits d = Some n → parse_digits d' = Some n' → a = b ∧ d = d'.
Proof.
  intros H%(f_equal String.list_ascii_of_string) [H1 _]%parse_digits_digits [H2 _]%parse_digits_digits.
  rewrite !list_ascii_of_string_append in H. simpl in H.
  apply dash_digits_inj in H as [?%string_list_inj ?%string_list_inj]; done.
Qed.

Lemma txn_app_id_inj a b p q :
  0 ≤ p → 0 ≤ q → txn_app_id a p = txn_app_id b q → a = b ∧ p = q.
Proof.
  intros Hp Hq H. unfold txn_app_id in H. rewrite !show_Z_nonneg in H by done.
  apply (dash_name_inj _ _ _ _ (Z.to_N p) (Z.to_N q)) in H as [-> H];
    [|apply parse_digits_show..].
  apply show_N_inj in H. split; [done|lia].
Qed.

Lemma marker_not_txn_app_id a b p : 0 ≤ p → takeover_marker_app_id a ≠ txn_app_id b p.
Proof.
  intros Hp H%(f_equal last_char). unfold takeover_marker_app_id, txn_app_id in H.
  rewrite (last_char_append a ".ddi" "i"%char) in H by done.
  rewrite show_Z_nonneg in H by done.
  destruct (digits_last_char _ _ (parse_digits_show (Z.to_N p))) as (c & Hc & Hn).
  rewrite (last_char_append b _ c) in H by (by apply last_char_append).
  injection H as <-. by apply Hn.
Qed.

Lemma takeover_missing_elem partitions acknowledged p :
  p ∈ takeover_missing partitions acknowledged ↔
  ∃ high, partitions !! p = Some (None, high) ∧ 0 < high ∧ p ∉ acknowledged.
Proof.
  unfold takeover_missing. rewrite list_elem_of_In, List.filter_In, <- list_elem_of_In,
    sorted_keys_elem. split.
  - intros [_ H]. destruct (partitions !! p) as [[[o|] high]|]; try done.
    apply andb_true_iff in H as [?%Z.ltb_lt H]. apply negb_true_iff, bool_decide_eq_false in H.
    by exists high.
  - intros (high & -> & H1 & H2). split; [done|]. apply andb_true_iff. split; [by apply Z.ltb_lt|].
    by apply negb_true_iff, bool_decide_eq_false.
Qed.

(** ** Properties *)

(** The offset names are unambiguous: a partition's name is read back as that partition
    of its app_id and of no other, two partitions of any pipelines never share one, and the
    takeover marker of any app_id is never read as a partition's offset. *)
Theorem offset_names_are_unambiguous a b p q :
  0 ≤ p ≤ i32_max → 0 ≤ q ≤ i32_max →
  partition_of a (txn_app_id a p) = Some p ∧
  (txn_app_id a p = txn_app_id b q → a = b ∧ p = q) ∧
  (∀ r, partition_of b (txn_app_id a p) = Some r → a = b ∧ r = p) ∧
  partition_of b (takeover_marker_app_id a) = None.
Proof.
  intros Hp Hq. split; [by apply partition_of_txn_app_id|].
  assert (Hinj : ∀ d n, txn_app_id a p = String.append b (String.append "-" d) →
    parse_digits d = Some n → a = b ∧ p = Z.of_N n).
  { intros d n H Hd. unfold txn_app_id in H.
    rewrite show_Z_nonneg in H by lia.
    apply (dash_name_inj _ _ _ _ (Z.to_N p) n) in H as [-> <-];
      [|apply parse_digits_show|done].
    rewrite parse_digits_show in Hd. simplify_eq. split; [done|lia]. }
  split; [|split].
  - intros H. destruct (Hinj (show_Z q) (Z.to_N q)) as [? ?]; [done| |by split; [|lia]].
    rewrite show_Z_nonneg by lia. apply parse_digits_show.
  - intros r (Hr & d & H & Hd)%partition_of_Some. apply Hinj in Hd as [? ?]; [|done]. split; [done|lia].
  - destruct (partition_of _ _) as [r|] eqn:E; [exfalso|done].
    apply partition_of_Some in E as (_ & d & E & (c & Hc & Hn)%digits_last_char).
    apply (f_equal last_char) in E. unfold takeover_marker_app_id in E.
    rewrite (last_char_append a ".ddi" "i"%char) in E by done.
    rewrite (last_char_append b _ c) in E by (by apply last_char_append).
    injection E as <-. by apply Hn.
Qed.

Lemma offset_names_are_unambiguous_witness :
  partition_of "t" (txn_app_id "t" 30) = Some 30 ∧
  partition_of "t-3" (takeover_marker_app_id "t") = None.
Proof.
  assert (H : 0 ≤ 30 ≤ i32_max) by width_lia.
  split; [apply (offset_names_are_unambiguous "t" "t" 30 30 H H)|].
  apply (offset_names_are_unambiguous "t" "t-3" 30 30 H H).
Defined.

(** C12: taking over loses nothing and repeats nothing: once the check accepts an app_id of
    kafka-delta-ingest's, the baseline commit holds every offset that was stored at its
    value, and every acknowledged start [s > 0] at [s - 1]; a partition left without an
    offset has no messages in the topic or was acknowledged to start at 0.  The check
    refuses exactly the partitions it cannot account for. *)
Theorem takeover_accounts_for_every_partition app_id holds_rows partitions explicit p o high :
  partitions !! p = Some (o, high) →
  (∀ q s, explicit !! q = Some s → in_i64 s) →
  match takeover_check app_id EraKdi holds_rows partitions (dom explicit),
        takeover_baseline EraKdi (fst <$> partitions) explicit with
  | Ok _, Some assert =>
      match o with
      | Some offset => assert !! p = Some offset
      | None =>
          match explicit !! p with
          | Some s => assert !! p = if 0 <? s then Some (s - 1) else None
          | None => assert !! p = None ∧ high ≤ 0
          end
      end
  | Err e, Some _ =>
      ∃ missing, e = KafkaOffsetMissing app_id missing false ∧ missing ≠ [] ∧
      (p ∈ missing ↔ o = None ∧ 0 < high ∧ explicit !! p = None)
  | _, None => False
  end.
Proof.
  intros Hp Hex. unfold takeover_check, takeover_baseline.
  pose proof (takeover_missing_elem partitions (dom explicit) p) as Hm.
  rewrite Hp in Hm; setoid_rewrite not_elem_of_dom in Hm.
  destruct (takeover_missing _ _) as [|m ms] eqn:E.
  - rewrite map_lookup_imap, lookup_fmap, Hp. simpl.
    destruct o as [offset|]; [done|]. destruct (explicit !! p) as [s|] eqn:Es.
    + destruct (Z.ltb_spec 0 s); [|done].
      rewrite i64_small; [done|]. pose proof (Hex _ _ Es). width_lia.
    + split; [done|]. destruct (Z.le_gt_cases high 0); [done|].
      by destruct (not_elem_of_nil p); apply Hm; exists high.
  - exists (m :: ms). split; [done|]. split; [done|]. rewrite Hm. naive_solver.
Qed.

Lemma takeover_accounts_for_every_partition_witness :
  let ps : gmap Z (option Z * Z) := {[ 0 := (Some 41, 50); 1 := (None, 9) ]} in
  let ex : gmap Z Z := {[ 1 := 5 ]} in
  takeover_check "t" EraKdi true ps (dom ex) = Ok tt ∧
  (takeover_baseline EraKdi (fst <$> ps) ex ≫= (.!! 1)) = Some 4.
Proof.
  intros ps ex.
  assert (Hex : ∀ q s, ex !! q = Some s → in_i64 s).
  { intros q s (<- & <-)%lookup_singleton_Some. width_lia. }
  pose proof (takeover_accounts_for_every_partition "t" true ps ex 1 None 9 eq_refl Hex) as H.
  assert (Hc : takeover_check "t" EraKdi true ps (dom ex) = Ok tt) by (vm_compute; reflexivity).
  split; [exact Hc|]. rewrite Hc in H.
  destruct (takeover_baseline EraKdi (fst <$> ps) ex) as [a|]; [exact H|done].
Defined.
