(* ===== verification/TxnLog.v ===== *)
(** * TxnLog: reading every partition's newest offset in one pass over a table's log
    (src/fence.rs, [read_txns] and what it calls)

    A log is what the object store answers while one call runs: [LogView].  Commits are
    parsed by serde_json, whose values are [Json.Value]s; a checkpoint's [txn] column and the
    kernel's own lookup are answers of the view.  The counters and the warnings are left
    out; [IN_FLIGHT] only prefetches commits whose answers are used in order.

    The specification is [newest]: the version of the last [txn] of an appId in the history
    up to a version. *)

From Stdlib Require Import ZArith Lia.
From stdpp Require Import base list strings gmap sorting.
From S2P Require Import Prelude Json Error Partitions Takeover.

Open Scope Z_scope.

Definition BELOW_CHECKPOINT_READS : Z := 256.
Definition LISTING_WINDOW : Z := 1000.

(** ** What a commit says *)

Record TxnAction := { t_app_id : string; t_version : Z }.

Record CommitInfo := { ci_app_id : option Value; ci_marks : option Value }.

(** One line, reduced to the two actions read here. *)
Record LogLine := { txn : option TxnAction; commit_info : option CommitInfo }.

(** A commit's bytes: its lines, of which the first that does not parse ends the read. *)
Definition Commit : Type := list (option LogLine).

(** The mark [ddi.kafka.marks] records for the partition a [txn] names. *)
Definition mark_for (marks : option Value) (app_id : string) (t : TxnAction)
    : option MessageMark :=
  partition ← partition_of app_id (t_app_id t);
  marks ← marks;
  entry ← get_key (show_Z partition) marks;
  values ← as_array entry;
  match values with
  | [offset; timestamp; len] =>
      offset ← as_i64 offset;
      timestamp ← as_i64 timestamp;
      len ← as_u64 len;
      if len <=? u32_max then
        if offset =? t_version t
        then Some {| m_offset := offset; timestamp_ms := timestamp; value_len := len |}
        else None
      else None
  | _ => None
  end.

Abbreviation Found := (gmap string TxnState).

(** The [txn]s of a commit, and its last commitInfo; [None] when a line does not parse. *)
Fixpoint commit_lines (c : Commit) (info : option CommitInfo)
    : option (list TxnAction * option CommitInfo) :=
  match c with
  | [] => Some ([], info)
  | None :: _ => None
  | Some line :: c =>
      let info := match commit_info line with Some i => Some i | None => info end in
      '(ts, info) ← commit_lines c info;
      Some (match txn line with Some t => t :: ts | None => ts end, info)
  end.

Definition record_commit (c : Commit) (wanted : gset string) (found : Found)
    : result Error Found :=
  match commit_lines c None with
  | None => Err (Other "a commit is not valid JSON")
  | Some (txns, info) =>
      let txns := List.filter (λ t,
        bool_decide (t_app_id t ∈ wanted) && bool_decide (found !! t_app_id t = None)) txns in
      let ddi_app_id : option string := i ← info; a ← ci_app_id i; as_str a in
      let marks : option Value := i ← info; ci_marks i in
      Ok (fold_left (λ found t,
            <[t_app_id t := {| txn_version := Some (t_version t);
                               txn_mark := a ← ddi_app_id; mark_for marks a t |}]> found)
          txns found)
  end.

(** [may_carry_a_mark]: whether the name is some app_id's partition. *)
Definition rsplit_dash (s : string) : option (string * string) :=
  let l := rev (String.list_ascii_of_string s) in
  let fix go (l acc : list Ascii.ascii) : option (list Ascii.ascii * list Ascii.ascii) :=
    match l with
    | [] => None
    | a :: l => if decide (a = Ascii.ascii_of_nat 45) then Some (rev l, acc) else go l (a :: acc)
    end in
  '(a, b) ← go l [];
  Some (String.string_of_list_ascii a, String.string_of_list_ascii b).

Definition may_carry_a_mark (app_id : string) : bool :=
  match rsplit_dash app_id with
  | Some (a, p) =>
      match partition_of a app_id with Some _ => negb (bool_decide (p = EmptyString)) | None => false end
  | None => false
  end.

(** ** Checkpoints *)

(** A listed object: the parts of its path below the log directory ([None] outside it),
    its size, and what identifies its content. *)
Record ObjectMeta := { location : option (list string); meta_size : Z; meta_key : Z }.

Record Checkpoint := { c_version : Z; c_files : list ObjectMeta }.

Inductive CheckpointFile := Single | Uuid | Part (part parts : Z).

#[export] Instance CheckpointFile_eq_dec : EqDecision CheckpointFile.
Proof. solve_decision. Defined.

(** [str::split('.')] *)
Fixpoint split_dots (l : list Ascii.ascii) (acc : list Ascii.ascii) : list string :=
  match l with
  | [] => [String.string_of_list_ascii (rev acc)]
  | a :: l =>
      if decide (a = Ascii.ascii_of_nat 46) then String.string_of_list_ascii (rev acc) :: split_dots l []
      else split_dots l (a :: acc)
  end.
Definition split_on_dot (s : string) : list string := split_dots (String.list_ascii_of_string s) [].

(** [str::parse] of an unsigned integer of at most [max]: digits, after an optional [+]. *)
Definition parse_unsigned (max : Z) (s : string) : option Z :=
  let digits := default s (str_strip_prefix "+" s) in
  n ← parse_digits digits;
  if Z.of_N n <=? max then Some (Z.of_N n) else None.

Definition checkpoint_file (meta : ObjectMeta) : option (Z * CheckpointFile) :=
  parts ← location meta;
  match parts with
  | [name] =>
      match split_on_dot name with
      | version :: rest =>
          if decide (String.length version = 20%nat) then
            version ← parse_unsigned u64_max version;
            match rest with
            | [a; b] =>
                if decide (a = "checkpoint"%string ∧ b = "parquet"%string)
                then Some (version, Single) else None
            | [a; b; c] =>
                if decide (a = "checkpoint"%string ∧ (c = "json"%string ∨ c = "parquet"%string)
                           ∧ String.length b = 36%nat)
                then Some (version, Uuid) else None
            | [a; b; c; d] =>
                if decide (a = "checkpoint"%string ∧ d = "parquet"%string
                           ∧ String.length b = 10%nat ∧ String.length c = 10%nat) then
                  part ← parse_unsigned u32_max b;
                  parts ← parse_unsigned u32_max c;
                  if (part =? 0) || (parts <? part) then None else Some (version, Part part parts)
                else None
            | _ => None
            end
          else None
      | [] => None
      end
  | _ => None
  end.

Definition single (version : Z) (files : list (CheckpointFile * ObjectMeta))
    (want : CheckpointFile) : option Checkpoint :=
  '(_, meta) ← List.find (λ f, bool_decide (f.1 = want)) files;
  Some {| c_version := version; c_files := [meta] |}.

(** The parts found of each multi-part set, by its number of parts. *)
Definition part_sets (files : list (CheckpointFile * ObjectMeta)) : gmap Z (gmap Z ObjectMeta) :=
  fold_left (λ sets '(kind, meta),
    match kind with
    | Part part parts => <[parts := <[part := meta]> (default ∅ (sets !! parts))]> sets
    | _ => sets
    end) files ∅.

Definition complete (version : Z) (files : list (CheckpointFile * ObjectMeta))
    : option Checkpoint :=
  match single version files Single with
  | Some c => Some c
  | None =>
      match single version files Uuid with
      | Some c => Some c
      | None =>
          let sets := part_sets files in
          let full parts := match sets !! parts with
                            | Some set => Z.of_nat (base.size set) =? parts
                            | None => false
                            end in
          parts ← List.find full (sorted_keys sets);
          set ← sets !! parts;
          Some {| c_version := version; c_files := omap (set !!.) (sorted_keys set) |}
      end
  end.

Definition by_version (from to : Z) (listing : list ObjectMeta)
    : gmap Z (list (CheckpointFile * ObjectMeta)) :=
  fold_left (λ m meta,
    match checkpoint_file meta with
    | Some (version, kind) =>
        if (from <=? version) && (version <=? to) && (0 <? meta_size meta)
        then <[version := default [] (m !! version) ++ [(kind, meta)]]> m
        else m
    | None => m
    end) listing ∅.

(** [checkpoint_between], given the listing after the name of version [from]. *)
Definition checkpoint_between (from to : Z) (listing : list ObjectMeta) : option Checkpoint :=
  let m := by_version from to listing in
  head (omap (λ v, m !! v ≫= complete v) (rev (sorted_keys m))).

(** ** What a checkpoint file holds *)

(** A column of the [txn] struct: text of any of the three layouts, integers of the two
    widths that are read, or any other type. *)
Inductive Column :=
  | Texts (values : list (option string))
  | Int64s (values : list (option Z))
  | Int32s (values : list (option Z))
  | OtherColumn.

(** Column 0 of a record batch projected to [txn]: a struct, of which a row may be null, with
    the two fields if it has them. *)
Inductive TxnColumn :=
  | NotAStruct
  | TxnStruct (nulls : list bool) (app_id version : option Column).

Fixpoint rows_txns (nulls : list bool) (app_ids : list (option string))
    (versions : list (option Z)) : result string (list (string * Z)) :=
  match nulls, app_ids, versions with
  | null :: nulls, app_id :: app_ids, version :: versions =>
      match null, app_id with
      | false, Some app_id =>
          match version with
          | None => Err "its txn for an appId has no version"%string
          | Some version =>
              let? rest := rows_txns nulls app_ids versions in Ok ((app_id, version) :: rest)
          end
      | _, _ => rows_txns nulls app_ids versions
      end
  | _, _, _ => Ok []
  end.

Definition batch_txns (batch : TxnColumn) : result string (list (string * Z)) :=
  match batch with
  | NotAStruct => Err "its txn column is not a struct"%string
  | TxnStruct _ None _ => Err "its txn column has no appId field"%string
  | TxnStruct _ _ None => Err "its txn column has no version field"%string
  | TxnStruct nulls (Some (Texts app_ids)) (Some (Int64s versions | Int32s versions)) =>
      rows_txns nulls app_ids versions
  | TxnStruct _ _ _ => Err "its txn column is not appId: string, version: long"%string
  end.

Fixpoint batches_txns (batches : list TxnColumn) : result string (list (string * Z)) :=
  match batches with
  | [] => Ok []
  | batch :: batches =>
      let? txns := batch_txns batch in
      let? rest := batches_txns batches in
      Ok (txns ++ rest)
  end.

(** [parquet_txns], given what the parquet reader answers: an error, no [txn] column, or the
    record batches of that column. *)
Definition parquet_txns (read : result string (option (list TxnColumn)))
    : result string (list (string * Z)) :=
  match read with
  | Err e => Err e
  | Ok None => Err "it has no txn column"%string
  | Ok (Some batches) => batches_txns batches
  end.

(** [json_txns], given the file's lines. *)
Fixpoint lines_txns (lines : Commit) : result string (list (string * Z)) :=
  match lines with
  | [] => Ok []
  | None :: _ => Err "a line of it does not parse"%string
  | Some line :: lines =>
      let? rest := lines_txns lines in
      Ok (match txn line with Some t => (t_app_id t, t_version t) :: rest | None => rest end)
  end.

Definition json_txns (read : result string Commit) : result string (list (string * Z)) :=
  match read with Err e => Err e | Ok lines => lines_txns lines end.

(** [str::ends_with] *)
Fixpoint starts (prefix l : list Ascii.ascii) : bool :=
  match prefix, l with
  | [], _ => true
  | a :: prefix, b :: l => bool_decide (a = b) && starts prefix l
  | _ :: _, [] => false
  end.
Definition ends_with (s t : string) : bool :=
  starts (rev (String.list_ascii_of_string t)) (rev (String.list_ascii_of_string s)).

(** ** What one call sees of a table *)

Record LogView := {
  lv_url : string;
  lv_version : option Z;
  lv_configuration : list (string * string);
  lv_commit : Z → result DeltaTableError (option Commit);
  (** [_last_checkpoint]: [Some None] is there but cannot be read. *)
  lv_last_checkpoint : result DeltaTableError (option (option Z));
  lv_listing : Z → result DeltaTableError (list ObjectMeta);
  (** The lines of one file, and what the parquet reader has of its [txn] column. *)
  lv_json : ObjectMeta → result string Commit;
  lv_parquet : ObjectMeta → result string (option (list TxnColumn));
  lv_kernel : string → result DeltaTableError (option Z);
}.

Definition lower_ascii (a : Ascii.ascii) : Ascii.ascii :=
  let n := Ascii.nat_of_ascii a in
  if decide (65 ≤ n ∧ n ≤ 90)%nat then Ascii.ascii_of_nat (n + 32) else a.
Definition eq_ignore_ascii_case (s t : string) : bool :=
  bool_decide (lower_ascii <$> String.list_ascii_of_string s
               = lower_ascii <$> String.list_ascii_of_string t).

Definition TXN_RETENTION : string := "delta.setTransactionRetentionDuration".

Definition refuse_txn_retention (view : LogView) : result Error unit :=
  match List.find (λ kv, eq_ignore_ascii_case kv.1 TXN_RETENTION) (lv_configuration view) with
  | None => Ok tt
  | Some (_, retention) => Err (KafkaTxnRetention (lv_url view) retention)
  end.

Definition missing_commit (view : LogView) (v : Z) : Error := OffsetLogTruncated (lv_url view) v.

Definition last_checkpoint_hint (view : LogView) : result Error (option Z) :=
  match lv_last_checkpoint view with
  | Ok (Some (Some v)) => Ok (Some v)
  | Ok _ => Ok None
  | Err e => Err (Delta e)
  end.

(** A listing of the log, its failure an [Error]. *)
Definition listing (view : LogView) (from : Z) : result Error (list ObjectMeta) :=
  match lv_listing view from with Ok l => Ok l | Err e => Err (Delta e) end.

Definition newest_checkpoint (view : LogView) (version : Z) : result Error (option Checkpoint) :=
  let? hint := last_checkpoint_hint view in
  let from := match hint with
              | Some hint => if hint <=? version then hint
                             else u64_sat_sub version (LISTING_WINDOW - 1)
              | None => u64_sat_sub version (LISTING_WINDOW - 1)
              end in
  let? listed := listing view from in
  match checkpoint_between from version listed with
  | Some c => Ok (Some c)
  | None =>
      if from =? 0 then Ok None
      else let? listed := listing view 0 in Ok (checkpoint_between 0 version listed)
  end.

(** [checkpoint_txns] over one file's [txn]s, and over all files. *)
Fixpoint collect_txns (wanted : gset string) (in_file : list (string * Z))
    (txns : gmap string Z) : result string (gmap string Z) :=
  match in_file with
  | [] => Ok txns
  | (id, version) :: rest =>
      if decide (id ∈ wanted) then
        match txns !! id with
        | Some other =>
            if other =? version then collect_txns wanted rest (<[id := version]> txns)
            else Err "it holds two txns for one appId"%string
        | None => collect_txns wanted rest (<[id := version]> txns)
        end
      else collect_txns wanted rest txns
  end.

Definition is_json (file : ObjectMeta) : bool :=
  match location file ≫= last with Some name => ends_with name ".json" | None => false end.

Definition lv_file_txns (view : LogView) (file : ObjectMeta) : result string (list (string * Z)) :=
  if is_json file then json_txns (lv_json view file) else parquet_txns (lv_parquet view file).

Fixpoint files_txns (view : LogView) (wanted : gset string) (files : list ObjectMeta)
    (txns : gmap string Z) : result string (gmap string Z) :=
  match files with
  | [] => Ok txns
  | file :: files =>
      let? in_file := lv_file_txns view file in
      let? txns := collect_txns wanted in_file txns in
      files_txns view wanted files txns
  end.

Definition checkpoint_txns (view : LogView) (c : Checkpoint) (wanted : gset string)
    : result string (gmap string Z) := files_txns view wanted (c_files c) ∅.

(** A [txn] found without the commit that wrote it. *)
Definition unmarked (version : Z) : TxnState := {| txn_version := Some version; txn_mark := None |}.

Fixpoint kernel_lookups (view : LogView) (rest : list string) (found : Found)
    : result Error Found :=
  match rest with
  | [] => Ok found
  | id :: rest =>
      match lv_kernel view id with
      | Err e => Err (Delta e)
      | Ok None => kernel_lookups view rest found
      | Ok (Some v) => kernel_lookups view rest (<[id := unmarked v]> found)
      end
  end.

Definition is_outage (e : DeltaTableError) : bool :=
  match e with D_ObjectStore outage => outage | _ => false end.

(** ** Step 6: the marks below a checkpoint *)

Record BelowCheckpoint := {
  b_checkpoint : option Z;
  b_found : gmap string (Z * option MessageMark);
}.
Definition below_default : BelowCheckpoint := {| b_checkpoint := None; b_found := ∅ |}.

Definition note (id : string) (x : Z * option MessageMark) (memo : BelowCheckpoint)
    : BelowCheckpoint :=
  {| b_checkpoint := b_checkpoint memo; b_found := <[id := x]> (b_found memo) |}.

(** What the memo already knows is taken from it; the rest is still to be found. *)
Definition recall (memo : BelowCheckpoint) (answered : gset string) (found : Found)
    : gset string * Found :=
  set_fold (λ id '(rest, found),
    match found !! id with
    | None => (rest, found)
    | Some answer =>
        match b_found memo !! id with
        | Some (version, mark) =>
            if decide (txn_version answer = Some version)
            then (rest, <[id := {| txn_version := txn_version answer; txn_mark := mark |}]> found)
            else ({[id]} ∪ rest, found)
        | None => ({[id]} ∪ rest, found)
        end
    end) (∅, found) answered.

(** The [txn]s met in one commit below the checkpoint. *)
Definition meet (met : Found) (st : gset string * Found * BelowCheckpoint)
    : gset string * Found * BelowCheckpoint :=
  fold_left (λ '(answered, found, memo) '(id, written),
    let answered := answered ∖ {[id]} in
    match found !! id with
    | Some {| txn_version := Some version; txn_mark := mark |} =>
        let mark := if decide (txn_version written = Some version) then txn_mark written
                    else mark in
        (answered, <[id := {| txn_version := Some version; txn_mark := mark |}]> found,
         note id (version, mark) memo)
    | _ => (answered, found, memo)
    end) (map_to_list met) st.

(** The ids nothing was found for, noted as such. *)
Definition give_up_on (answered : gset string) (found : Found) (memo : BelowCheckpoint)
    : BelowCheckpoint :=
  set_fold (λ id memo,
    match found !! id ≫= txn_version with
    | Some version => note id (version, None) memo
    | None => memo
    end) memo answered.

Fixpoint below_walk (view : LogView) (vs : list Z) (answered : gset string) (found : Found)
    (memo : BelowCheckpoint) : result Error Found * BelowCheckpoint :=
  let stop := (Ok found, give_up_on answered found memo) in
  match vs with
  | [] => stop
  | v :: vs =>
      match lv_commit view v with
      | Ok None => stop
      | Err e => if is_outage e then (Err (Delta e), memo) else stop
      | Ok (Some c) =>
          match record_commit c answered ∅ with
          | Err _ => stop
          | Ok met =>
              let '(answered, found, memo) := meet met (answered, found, memo) in
              if decide (answered = ∅) then (Ok found, memo)
              else below_walk view vs answered found memo
          end
      end
  end.

Definition below_checkpoint (view : LogView) (bottom : Z) (answered : gset string)
    (found : Found) (memo : BelowCheckpoint) : result Error Found * BelowCheckpoint :=
  let memo := if decide (b_checkpoint memo = Some bottom) then memo
              else {| b_checkpoint := Some bottom; b_found := ∅ |} in
  let '(answered, found) := recall memo answered found in
  if decide (answered = ∅) then (Ok found, memo)
  else
    let floor := u64_sat_sub bottom BELOW_CHECKPOINT_READS in
    below_walk view (rev (seqZ floor (bottom - floor))) answered found memo.

(** ** Steps 1-6 *)

(** Whether every appId asked about was found. *)
Definition all_found (wanted : gset string) (found : Found) : bool :=
  bool_decide (base.size found = base.size wanted).

(** Steps 3: the commits between the head and the checkpoint, newest first. *)
Fixpoint walk_commits (view : LogView) (wanted : gset string) (checkpoint : option Checkpoint)
    (bottom : Z) (vs : list Z) (found : Found) : result Error Found :=
  match vs with
  | [] => Ok found
  | v :: vs =>
      let? found :=
        match lv_commit view v with
        | Err e => Err (Delta e)
        | Ok (Some c) => record_commit c wanted found
        | Ok None =>
            if match checkpoint with Some _ => v =? bottom | None => false end then Ok found
            else Err (missing_commit view v)
        end in
      if all_found wanted found then Ok found
      else walk_commits view wanted checkpoint bottom vs found
  end.

(** Steps 4 to 6, for the appIds the commits did not answer. *)
Definition finish_walk (view : LogView) (wanted : gset string) (checkpoint : Checkpoint)
    (found : Found) (below : option BelowCheckpoint)
    : result Error Found * option BelowCheckpoint :=
  let rest := filter (λ id, found !! id = None) wanted in
  let answer :=
    match checkpoint_txns view checkpoint rest with
    | Ok txns => Ok ((unmarked <$> txns) ∪ found)
    | Err _ => kernel_lookups view (elements rest) found
    end in
  match answer with
  | Err e => (Err e, below)
  | Ok found =>
      let answered := filter (λ id, is_Some (found !! id) ∧ may_carry_a_mark id = true) rest in
      match below with
      | Some memo =>
          if decide (answered = ∅) then (Ok found, below)
          else
            let '(r, memo) := below_checkpoint view (c_version checkpoint) answered found memo in
            (r, Some memo)
      | None => (Ok found, below)
      end
  end.

Definition walk (view : LogView) (head : Z) (wanted : gset string)
    (below : option BelowCheckpoint) : result Error Found * option BelowCheckpoint :=
  match lv_commit view head with
  | Err e => (Err (Delta e), below)
  | Ok head_commit =>
      match match head_commit with
            | Some c => record_commit c wanted ∅
            | None => Ok ∅
            end with
      | Err e => (Err e, below)
      | Ok found =>
          if all_found wanted found && bool_decide (head_commit ≠ None) then (Ok found, below)
          else
            match newest_checkpoint view head with
            | Err e => (Err e, below)
            | Ok checkpoint =>
                let bottom := match checkpoint with Some c => c_version c | None => 0 end in
                if bool_decide (head_commit = None)
                   && bool_decide (c_version <$> checkpoint ≠ Some head)
                then (Err (missing_commit view head), below)
                else
                  match walk_commits view wanted checkpoint bottom
                          (rev (seqZ bottom (head - bottom))) found with
                  | Err e => (Err e, below)
                  | Ok found =>
                      if all_found wanted found then (Ok found, below)
                      else match checkpoint with
                           | None => (Ok found, below)
                           | Some c => finish_walk view wanted c found below
                           end
                  end
            end
      end
  end.

(** [read]: the walk, and an answer for every appId asked about. *)
Definition answers (wanted : gset string) (found : Found) : Found :=
  map_imap (λ id _, Some (default txn_default (found !! id))) (gset_to_gmap () wanted).

Definition read (view : LogView) (app_ids : list string) (below : option BelowCheckpoint)
    : result Error Found * option BelowCheckpoint :=
  let wanted : gset string := list_to_set app_ids in
  if decide (wanted = ∅) then (Ok ∅, below)
  else
    match lv_version view with
    | None => (Err (Other "the offsets were asked for on a handle that has not loaded the table"), below)
    | Some head =>
        match walk view head wanted below with
        | (Err e, below) => (Err e, below)
        | (Ok found, below) => (Ok (answers wanted found), below)
        end
    end.

Definition read_txns (view : LogView) (app_ids : list string) : result Error Found :=
  let? _ := refuse_txn_retention view in
  (read view app_ids (Some below_default)).1.

(** *** [recent_txn_app_ids]: the typo guard's evidence *)

(** The appIds of the lines that parse, up to the first that does not (the JSON stream
    ends there). *)
Fixpoint line_ids (c : Commit) : list string :=
  match c with
  | Some line :: c =>
      match txn line with Some t => t_app_id t :: line_ids c | None => line_ids c end
  | _ => []
  end.

Fixpoint recent_commits (view : LogView) (vs : list Z) (ids : gset string)
    : result Error (gset string) :=
  match vs with
  | [] => Ok ids
  | v :: vs =>
      match lv_commit view v with
      | Err e => Err (Delta e)
      | Ok None => Ok ids
      | Ok (Some c) => recent_commits view vs (list_to_set (line_ids c) ∪ ids)
      end
  end.

Definition recent_txn_app_ids (view : LogView) (max_commits : Z) : result Error (gset string) :=
  match lv_version view with
  | None => Err (Other "the offsets were asked for on a handle that has not loaded the table")
  | Some head =>
      let bottom := u64_sat_sub head (Z.max max_commits 1 - 1) in
      let? ids := recent_commits view (rev (seqZ bottom (head - bottom + 1))) ∅ in
      let? checkpoint := newest_checkpoint view head in
      Ok (match checkpoint with
          | None => ids
          | Some c =>
              foldr (λ file ids,
                match lv_file_txns view file with
                | Ok txns => list_to_set txns.*1 ∪ ids
                | Err _ => ids
                end) ids (c_files c)
          end)
  end.

(** ** The specification: replaying the log *)

Definition txns_of (c : Commit) : list TxnAction := omap (λ line, line ≫= txn) c.

(** Every [txn] of the commits below version [v], oldest first. *)
Definition history (H : Z → Commit) (v : Z) : list TxnAction :=
  mjoin ((txns_of ∘ H) <$> seqZ 0 v).

Definition of_id (id : string) (ts : list TxnAction) : list TxnAction :=
  filter (λ t, t_app_id t = id) ts.

(** The newest [txn] of an appId among the commits below [v]: what replaying them leaves. *)
Definition newest_before (H : Z → Commit) (v : Z) (id : string) : option Z :=
  t_version <$> last (of_id id (history H v)).

(** As of version [v], its own commit included. *)
Definition newest (H : Z → Commit) (v : Z) (id : string) : option Z := newest_before H (v + 1) id.

(** The mark the history records beside a [txn] of [id] at [version]. *)
Definition recorded (H : Z → Commit) (id : string) (version : Z) (m : MessageMark) : Prop :=
  ∃ v ts info i a t,
    commit_lines (H v) None = Some (ts, info) ∧ info = Some i ∧
    (ci_app_id i ≫= as_str) = Some a ∧ t ∈ txns_of (H v) ∧ t_app_id t = id ∧
    t_version t = version ∧ mark_for (ci_marks i) a t = Some m.

(** *** The checkpoints the Delta protocol promises *)

(** A number in a file's name: as many characters as the protocol gives it, which
    [str::parse] reads as [v]. *)
Definition number (width : nat) (max : Z) (s : string) (v : Z) : Prop :=
  String.length s = width ∧ parse_unsigned max s = Some v.

(** The names of the files of a checkpoint of version [v], and whether one is JSON. *)
Inductive named (file : ObjectMeta) (v : Z) : CheckpointFile → bool → Prop :=
  | named_single d :
      number 20 u64_max d v →
      location file = Some [(d +:+ ".checkpoint.parquet")%string] → named file v Single false
  | named_json d u :
      number 20 u64_max d v → String.length u = 36%nat →
      location file = Some [(d +:+ ".checkpoint." +:+ u +:+ ".json")%string] →
      named file v Uuid true
  | named_parquet d u :
      number 20 u64_max d v → String.length u = 36%nat →
      location file = Some [(d +:+ ".checkpoint." +:+ u +:+ ".parquet")%string] →
      named file v Uuid false
  | named_part d a b part parts :
      number 20 u64_max d v → number 10 u32_max a part → number 10 u32_max b parts →
      1 ≤ part ≤ parts →
      location file = Some [(d +:+ ".checkpoint." +:+ a +:+ "." +:+ b +:+ ".parquet")%string] →
      named file v (Part part parts) false.

(** A row of the [txn] column, and a file that has a [txn]: in one of its lines, or in one row
    of one batch. *)
Definition row_has (batch : TxnColumn) (id : string) (x : Z) : Prop :=
  ∃ nulls ids versions column i,
    batch = TxnStruct nulls (Some (Texts ids)) (Some column) ∧
    (column = Int64s versions ∨ column = Int32s versions) ∧
    nulls !! i = Some false ∧ ids !! i = Some (Some id) ∧ versions !! i = Some (Some x).

Definition file_has (view : LogView) (file : ObjectMeta) (json : bool) (id : string) (x : Z)
    : Prop :=
  if json
  then ∃ lines line t, lv_json view file = Ok lines ∧ Some line ∈ lines ∧ txn line = Some t ∧
         t_app_id t = id ∧ t_version t = x
  else ∃ batches batch, lv_parquet view file = Ok (Some batches) ∧ batch ∈ batches ∧
         row_has batch id x.

(** A file that can be opened as what its name says: every line parses, every batch is a
    struct of the types the protocol gives the fields. *)
Definition typed (batch : TxnColumn) : Prop :=
  ∃ nulls ids versions column, batch = TxnStruct nulls (Some (Texts ids)) (Some column) ∧
    (column = Int64s versions ∨ column = Int32s versions).

Definition opened (view : LogView) (file : ObjectMeta) (json : bool) : Prop :=
  if json
  then ∃ lines, lv_json view file = Ok lines ∧ None ∉ lines
  else ∃ batches, lv_parquet view file = Ok (Some batches) ∧ Forall typed batches.

(** A file of the log's directory that was written to its end. *)
Definition stored (view : LogView) (file : ObjectMeta) : Prop :=
  0 < meta_size file ∧ ∃ from l, lv_listing view from = Ok l ∧ file ∈ l.

(** A view of history [H] as of its handle's version: a commit that is there is the one
    that was committed; the files that make up a checkpoint of a version have the [txn]s of
    the reconciled state of that version, one file all of them, the parts of a set together;
    arrow's columns of one struct are as long as it; and the kernel answers from the log. *)
Record views (view : LogView) (H : Z → Commit) : Prop := {
  views_commit v c : lv_commit view v = Ok (Some c) → c = H v;
  views_file file v kind json id x :
    stored view file → named file v kind json → file_has view file json id x →
    newest H v id = Some x;
  views_single file v kind json id x :
    stored view file → named file v kind json → kind = Single ∨ kind = Uuid →
    newest H v id = Some x → opened view file json → file_has view file json id x;
  views_parts (files : Z → ObjectMeta) v parts id x :
    1 ≤ parts →
    (∀ part, 1 ≤ part ≤ parts → stored view (files part) ∧
       named (files part) v (Part part parts) false ∧ opened view (files part) false) →
    newest H v id = Some x →
    ∃ part, 1 ≤ part ≤ parts ∧ file_has view (files part) false id x;
  views_columns file batches nulls ids column versions :
    lv_parquet view file = Ok (Some batches) →
    TxnStruct nulls (Some (Texts ids)) (Some column) ∈ batches →
    column = Int64s versions ∨ column = Int32s versions →
    length ids = length nulls ∧ length versions = length nulls;
  views_version head : lv_version view = Some head → 0 ≤ head;
  views_kernel head id v :
    lv_version view = Some head → lv_kernel view id = Ok v → v = newest H head id;
}.
