(* ===== verification/TxnLogCheckpoint.v ===== *)
(** * TxnLogCheckpoint: a checkpoint that is read is the state of its version

    src/fence.rs, [newest_checkpoint] to [parquet_txns]: that the files picked for a
    checkpoint are the files of one complete checkpoint as the Delta protocol names them, and
    that the [txn]s collected from them are the newest of that version.  The protocol's
    promises about the stored files are the fields of [TxnLog.views]; nothing is assumed of
    the functions that pick and read them. *)

From Stdlib Require Import ZArith Lia.
From stdpp Require Import base list strings gmap sorting.
From S2P Require Import Prelude Json Error Partitions Takeover TxnLog.

Open Scope Z_scope.

(** ** Names *)

Lemma string_app_cons a s t : ((String a s) +:+ t = String a (s +:+ t))%string.
Proof. reflexivity. Qed.

Lemma split_dots_concat l acc :
  String.concat "." (split_dots l acc) =
  String.string_of_list_ascii (rev acc ++ l).
Proof.
  revert acc; induction l as [|a l IH]; intros acc; simpl.
  { by rewrite app_nil_r. }
  case_decide as Ha; [|rewrite IH; simpl; by rewrite <- app_assoc].
  subst a. destruct (split_dots l []) as [|x xs] eqn:E.
  { exfalso. clear -E. revert E. generalize (@nil Ascii.ascii). induction l; intros acc; simpl; [done|].
    case_decide; [done|]. apply IHl. }
  specialize (IH []). rewrite E in IH.
  change (String.concat "." (String.string_of_list_ascii (rev acc) :: x :: xs)) with
    (String.string_of_list_ascii (rev acc) +:+ "." +:+ String.concat "." (x :: xs))%string.
  rewrite IH. simpl. clear. induction (rev acc) as [|a r IH]; simpl; [done|].
  rewrite string_app_cons. by f_equal.
Qed.

Lemma split_on_dot_concat s parts : split_on_dot s = parts → s = String.concat "." parts.
Proof.
  intros <-. unfold split_on_dot. rewrite split_dots_concat. simpl.
  by rewrite String.string_of_list_ascii_of_string.
Qed.

Lemma str_app_assoc a b c : ((a +:+ b) +:+ c = a +:+ (b +:+ c))%string.
Proof. induction a as [|x a IH]; [done|]. rewrite !string_app_cons. by f_equal. Qed.

Lemma ends_with_app a b t :
  ends_with (a +:+ b)%string t = starts (rev (String.list_ascii_of_string t))
    (rev (String.list_ascii_of_string b) ++ rev (String.list_ascii_of_string a)).
Proof. unfold ends_with. by rewrite list_ascii_of_string_append, rev_app_distr. Qed.

(** What [checkpoint_file] takes a name for is what the protocol gives it to. *)
Lemma checkpoint_file_named file v kind :
  checkpoint_file file = Some (v, kind) → ∃ json, named file v kind json ∧ is_json file = json.
Proof.
  unfold checkpoint_file. destruct (location file) as [parts|] eqn:El; simpl; [|done].
  destruct parts as [|name [|]]; [done| |done].
  assert (Hj : is_json file = ends_with name ".json") by (unfold is_json; by rewrite El).
  destruct (split_on_dot name) as [|d rest] eqn:Es; [done|].
  apply split_on_dot_concat in Es. destruct (decide _) as [Hd|]; [|done].
  destruct (parse_unsigned u64_max d) as [v'|] eqn:Ev; simpl; [|done].
  destruct rest as [|a [|b [|c [|e [|]]]]]; try done; cbn [String.concat] in Es; subst name.
  - destruct (decide _) as [[-> ->]|]; [|done]. intros [= -> <-]. exists false. split.
    + by eapply named_single.
    + rewrite Hj, ends_with_app. reflexivity.
  - destruct (decide _) as [(-> & Hc & Hl)|]; [|done]. intros [= -> <-].
    destruct Hc as [->| ->].
    + exists true. split; [by eapply named_json|].
      change ("." +:+ "json")%string with ".json"%string in Hj.
      rewrite Hj, <- !str_app_assoc, ends_with_app. reflexivity.
    + exists false. split; [by eapply named_parquet|].
      rewrite Hj, <- !str_app_assoc, ends_with_app. reflexivity.
  - destruct (decide _) as [(-> & -> & Ha & Hb)|]; [|done].
    destruct (parse_unsigned u32_max b) as [part|] eqn:Ep; simpl; [|done].
    destruct (parse_unsigned u32_max c) as [n|] eqn:En; simpl; [|done].
    destruct (_ || _) eqn:Eo; [done|]. intros [= -> <-].
    apply orb_false_iff in Eo as [E1%Z.eqb_neq E2%Z.ltb_ge]. exists false. split.
    + apply (named_part _ _ d b c part n); [by split..| |done]. unfold parse_unsigned in Ep.
      destruct (parse_digits _) as [x|]; simpl in Ep; [|done].
      destruct (_ <=? _); [|done]. injection Ep as <-. lia.
    + rewrite Hj, <- !str_app_assoc, ends_with_app. reflexivity.
Qed.

Lemma length_str_app a b :
  String.length (a +:+ b)%string = (String.length a + String.length b)%nat.
Proof. induction a as [|x a IH]; [done|]. rewrite string_app_cons. simpl. by rewrite IH. Qed.

Lemma length_list_ascii s : length (String.list_ascii_of_string s) = String.length s.
Proof. induction s as [|a s IH]; simpl; [done|]. by rewrite IH. Qed.

(** A name as long as a single checkpoint's is one, and its first twenty characters are the
    version. *)
Lemma named_short file name v kind json :
  location file = Some [name] → String.length name = 39%nat → named file v kind json →
  kind = Single ∧ json = false ∧ parse_unsigned u64_max
    (String.string_of_list_ascii (take 20 (String.list_ascii_of_string name))) = Some v.
Proof.
  intros Hl Hn Hnamed.
  destruct Hnamed as [d [Hd Hv] El|d u [Hd _] Hu El|d u [Hd _] Hu El
    |d a b part parts [Hd _] [Ha _] [Hb _] _ El]; rewrite Hl in El; injection El as ->;
    rewrite !length_str_app, Hd, ?Hu, ?Ha, ?Hb in Hn; simpl in Hn; try lia.
  split; [done|]. split; [done|]. rewrite list_ascii_of_string_append, take_app_le, take_ge.
  - by rewrite String.string_of_list_ascii_of_string.
  - by rewrite length_list_ascii, Hd.
  - by rewrite length_list_ascii, Hd.
Qed.

(** ** One file's [txn]s *)

Lemma lines_txns_spec lines txns :
  lines_txns lines = Ok txns →
  None ∉ lines ∧
  ∀ id x, (id, x) ∈ txns ↔ ∃ line t, Some line ∈ lines ∧ txn line = Some t ∧
    t_app_id t = id ∧ t_version t = x.
Proof.
  revert txns; induction lines as [|[line|] lines IH]; intros txns; simpl;
    [|destruct (lines_txns lines) as [l|] eqn:E; [|done]|done].
  - intros [= <-]. split; [by intros ?%not_elem_of_nil|]. intros id x. split.
    + by intros ?%not_elem_of_nil.
    + by intros (? & ? & ?%not_elem_of_nil & _).
  - intros [= <-]. destruct (IH l eq_refl) as [Hn Hl]. clear E. split.
    { by intros [?|?]%elem_of_cons. }
    intros id x. transitivity ((∃ t, txn line = Some t ∧ t_app_id t = id ∧ t_version t = x) ∨
      (id, x) ∈ l); [destruct (txn line) as [t|]|].
    + rewrite elem_of_cons. split; [|by intros [(t' & [= <-] & <- & <-)|?]; [left|right]].
      intros [[= -> ->]|?]; [left; by exists t|by right].
    + split; [by right|by intros [(? & ? & _)|?]].
    + rewrite Hl. setoid_rewrite elem_of_cons. split.
      * intros [(t & ?)|(line' & t & ? & ?)]; [exists line, t; by intuition|exists line', t; by intuition].
      * intros (line' & t & [[= ->]|Hin] & Ht); [left; by exists t|right; by exists line', t].
Qed.

Lemma rows_txns_spec nulls ids versions txns :
  rows_txns nulls ids versions = Ok txns →
  length ids = length nulls → length versions = length nulls →
  ∀ id x, (id, x) ∈ txns ↔ ∃ i, nulls !! i = Some false ∧ ids !! i = Some (Some id) ∧
    versions !! i = Some (Some x).
Proof.
  assert (Hskip : ∀ (b : bool) (o : option string) (w : option Z) nulls ids versions id x,
    b = true ∨ o = None →
    (∃ i, nulls !! i = Some false ∧ ids !! i = Some (Some id) ∧ versions !! i = Some (Some x)) ↔
    ∃ i, (b :: nulls) !! i = Some false ∧ (o :: ids) !! i = Some (Some id) ∧
      (w :: versions) !! i = Some (Some x)).
  { intros b o w ns is' vs id x Hbo. split; [by intros [i ?]; exists (S i)|].
    intros [[|i] H]; [|by exists i]. by destruct Hbo as [-> | ->], H as (? & ? & _). }
  revert ids versions txns; induction nulls as [|b nulls IH]; intros [|o ids] [|w versions] txns;
    simpl; try done.
  { intros [= <-] _ _ id x. split; [by intros ?%not_elem_of_nil|by intros (? & ? & _)]. }
  intros H [= Hi] [= Hv] id x. destruct b; [|destruct o as [o|]].
  - rewrite <- (Hskip true o w) by (by left). by apply IH.
  - destruct w as [w|]; [|done]. destruct (rows_txns nulls ids versions) as [rest|] eqn:E; [|done].
    injection H as <-. rewrite elem_of_cons, (IH _ _ _ E Hi Hv). split.
    + intros [[= -> ->]|[i ?]]; [by exists 0%nat|by exists (S i)].
    + intros [[|i] H]; [left|right; by exists i]. destruct H as (_ & [= ->] & [= ->]). done.
  - rewrite <- (Hskip false None w) by (by right). by apply IH.
Qed.

Lemma batch_txns_spec batch txns :
  batch_txns batch = Ok txns →
  typed batch ∧ ((∀ nulls ids column versions, batch = TxnStruct nulls (Some (Texts ids)) (Some column) →
    column = Int64s versions ∨ column = Int32s versions →
    length ids = length nulls ∧ length versions = length nulls) →
  ∀ id x, (id, x) ∈ txns ↔ row_has batch id x).
Proof.
  intros H. destruct batch as [|nulls [[ids| | |]|] [column|]]; try done.
  assert (∃ versions, (column = Int64s versions ∨ column = Int32s versions) ∧
    rows_txns nulls ids versions = Ok txns) as (versions & Hc & Hr).
  { destruct column; try done; eexists; (split; [|exact H]); [by left|by right]. }
  split; [by exists nulls, ids, versions, column|]. intros Hlen id x.
  destruct (Hlen _ _ _ _ eq_refl Hc) as [Hi Hv].
  rewrite (rows_txns_spec _ _ _ _ Hr Hi Hv). split.
  - intros [i ?]. by exists nulls, ids, versions, column, i.
  - intros (? & ? & vs & ? & i & [= <- <- <-] & Hc' & ?). exists i.
    assert (vs = versions) as -> by (by destruct Hc as [-> | ->], Hc' as [[= ]|[= ]]). done.
Qed.

Lemma batches_txns_spec batches txns :
  batches_txns batches = Ok txns →
  Forall typed batches ∧ ((∀ batch nulls ids column versions, batch ∈ batches →
    batch = TxnStruct nulls (Some (Texts ids)) (Some column) →
    column = Int64s versions ∨ column = Int32s versions →
    length ids = length nulls ∧ length versions = length nulls) →
  ∀ id x, (id, x) ∈ txns ↔ ∃ batch, batch ∈ batches ∧ row_has batch id x).
Proof.
  revert txns; induction batches as [|batch batches IH]; intros txns; simpl.
  { intros [= <-]. split; [done|]. intros _ id x.
    split; [by intros ?%not_elem_of_nil|by intros (? & ?%not_elem_of_nil & _)]. }
  destruct (batch_txns batch) as [a|] eqn:Ea; [|done].
  destruct (batches_txns batches) as [rest|] eqn:Er; [|done]. intros [= <-].
  destruct (batch_txns_spec _ _ Ea) as [Ht Ha], (IH _ eq_refl) as [Hts Hr].
  split; [by constructor|]. intros Hlen id x. rewrite elem_of_app, Ha, Hr.
  - setoid_rewrite elem_of_cons. split.
    + intros [?|(b & ? & ?)]; [exists batch; by intuition|exists b; by intuition].
    + intros (b & [->|?] & ?); [by left|right; by exists b].
  - intros b ? ? ? ? ?. apply Hlen. by right.
  - intros ? ? ? ? ?. eapply Hlen; [by left|done].
Qed.

Section Checkpoint.
Context (view : LogView) (H : Z → Commit) (Hview : views view H).

(** A file that is read can be opened as its name says, and what is read is what it has. *)
Lemma file_txns_spec file txns :
  lv_file_txns view file = Ok txns →
  opened view file (is_json file) ∧
  ∀ id x, (id, x) ∈ txns ↔ file_has view file (is_json file) id x.
Proof.
  unfold lv_file_txns, opened, file_has. destruct (is_json file).
  - unfold json_txns. destruct (lv_json view file) as [lines|]; [|done].
    intros [Hn Hl]%lines_txns_spec. split; [by eexists|]. intros id x. rewrite Hl. split.
    + intros (line & t & ?). by exists lines, line, t.
    + intros (? & line & t & [= <-] & ?). by exists line, t.
  - unfold parquet_txns. destruct (lv_parquet view file) as [[batches|]|] eqn:E; [|done..].
    intros [Ht Hb]%batches_txns_spec. split; [by eexists|]. intros id x. rewrite Hb.
    + split; [intros (b & ?); by exists batches, b|]. intros (? & b & [= <-] & ?). by exists b.
    + intros b nulls ids column versions Hin -> Hc. by eapply views_columns.
Qed.

(** ** The files of one checkpoint *)

(** [file] is listed, not empty, and named as one of a checkpoint of [v]. *)
Definition candidate (v : Z) (kind : CheckpointFile) (file : ObjectMeta) : Prop :=
  stored view file ∧ ∃ json, named file v kind json ∧ is_json file = json.

(** What [complete] may answer: one file, or one of every part of a set. *)
Inductive whole (v : Z) : list ObjectMeta → Prop :=
  | whole_single kind file :
      kind = Single ∨ kind = Uuid → candidate v kind file → whole v [file]
  | whole_parts (files : Z → ObjectMeta) parts l :
      1 ≤ parts → (∀ part, 1 ≤ part ≤ parts → candidate v (Part part parts) (files part)) →
      (∀ file, file ∈ l ↔ ∃ part, 1 ≤ part ≤ parts ∧ file = files part) → whole v l.

Definition candidates (v : Z) (files : list (CheckpointFile * ObjectMeta)) : Prop :=
  ∀ kind file, (kind, file) ∈ files → candidate v kind file.

Lemma by_version_candidates from to l v files :
  (∃ from', lv_listing view from' = Ok l) →
  by_version from to l !! v = Some files → candidates v files ∧ from ≤ v ≤ to.
Proof.
  intros [from' Hl]. assert (Hin : ∀ f, f ∈ l → ∃ from l, lv_listing view from = Ok l ∧ f ∈ l)
    by (intros; by eexists _, _). clear from' Hl. revert v files. unfold by_version.
  induction l as [|meta l IH] using rev_ind; [by intros v files|].
  rewrite fold_left_app. simpl. set (m := fold_left _ l ∅) in *. intros v files Hv.
  assert (Hin' : ∀ f, f ∈ l → ∃ from l, lv_listing view from = Ok l ∧ f ∈ l)
    by (intros f ?; apply Hin, elem_of_app; by left).
  specialize (IH Hin'). destruct (checkpoint_file meta) as [[w kind]|] eqn:Ec; [|by apply IH].
  destruct ((from <=? w) && (w <=? to) && (0 <? meta_size meta)) eqn:Ew; [|by apply IH].
  apply andb_true_iff in Ew as [[E1%Z.leb_le E2%Z.leb_le]%andb_true_iff E3%Z.ltb_lt].
  apply lookup_insert_Some in Hv as [[<- <-]|[_ Hv]]; [|by apply IH]. split; [|lia].
  intros k f [Hk|[= -> ->]%list_elem_of_singleton]%elem_of_app.
  - destruct (m !! w) as [fs|] eqn:Em; [|by apply not_elem_of_nil in Hk].
    destruct (IH w fs Em) as [Hc _]. by apply Hc.
  - split; [split; [done|apply Hin, elem_of_app; right; by left]|].
    by apply checkpoint_file_named.
Qed.

Lemma single_whole v files want c :
  want = Single ∨ want = Uuid → candidates v files → single v files want = Some c →
  c_version c = v ∧ whole v (c_files c).
Proof.
  intros Hw Hf. unfold single. destruct (List.find _ files) as [[k f]|] eqn:E; simpl; [|done].
  intros [= <-]. split; [done|]. simpl. apply List.find_some in E as [Hin Hk%bool_decide_eq_true].
  simpl in Hk. subst k. apply list_elem_of_In in Hin. by eapply whole_single; [|apply Hf].
Qed.

Lemma part_sets_candidates v files parts set part f :
  candidates v files → part_sets files !! parts = Some set → set !! part = Some f →
  candidate v (Part part parts) f ∧ 1 ≤ part ≤ parts.
Proof.
  unfold part_sets. revert parts set part f.
  induction files as [|[k g] files IH] using rev_ind; [done|]. intros parts set part f Hc.
  rewrite fold_left_app. simpl. set (sets := fold_left _ files ∅) in *.
  assert (Hc' : candidates v files) by (intros k' f' ?; apply Hc, elem_of_app; by left).
  destruct k as [| |a b]; [by apply IH..|].
  assert (Hg : candidate v (Part a b) g) by (apply Hc, elem_of_app; right; by left).
  assert (Hr : 1 ≤ a ≤ b) by (destruct Hg as (_ & json & Hg & _); by inversion Hg).
  intros [[<- <-]|[_ Hs]]%lookup_insert_Some; [|by apply (IH _ _ _ _ Hc' Hs)].
  intros [[<- <-]|[_ Hs]]%lookup_insert_Some; [done|].
  destruct (sets !! b) as [set|] eqn:Es; simpl in Hs; [|done]. by apply (IH _ _ _ _ Hc' Es).
Qed.

Lemma part_sets_nonempty files parts : part_sets files !! parts ≠ Some ∅.
Proof.
  unfold part_sets. induction files as [|[k g] files IH] using rev_ind; [done|].
  rewrite fold_left_app. simpl. destruct k as [| |a b]; [done..|].
  intros [[_ Hn]|[_ Hs]]%lookup_insert_Some; [|done]. by apply insert_non_empty in Hn.
Qed.

Lemma complete_whole v files c :
  candidates v files → complete v files = Some c → c_version c = v ∧ whole v (c_files c).
Proof.
  intros Hf. unfold complete.
  destruct (single v files Single) as [c'|] eqn:E1.
  { intros [= <-]. eapply single_whole; [by left|done..]. }
  destruct (single v files Uuid) as [c'|] eqn:E2.
  { intros [= <-]. eapply single_whole; [by right|done..]. }
  destruct (List.find _ _) as [parts|] eqn:E; simpl; [|done].
  apply List.find_some in E as [_ Hfull]. destruct (part_sets files !! parts) as [set|] eqn:Es; [|done].
  simpl. intros [= <-]. split; [done|]. simpl. apply Z.eqb_eq in Hfull.
  assert (Hset : ∀ part f, set !! part = Some f → candidate v (Part part parts) f ∧ 1 ≤ part ≤ parts)
    by (intros; by eapply part_sets_candidates).
  assert (Hall : ∀ part, 1 ≤ part ≤ parts → is_Some (set !! part)).
  { intros part Hp. apply elem_of_dom.
    assert (Heq : dom set = list_to_set (seqZ 1 parts) :> gset Z); [|rewrite Heq; by
      apply elem_of_list_to_set, elem_of_seqZ; lia].
    apply set_subseteq_size_eq.
    - intros q [f Hq]%elem_of_dom. destruct (Hset q f Hq) as [_ ?].
      apply elem_of_list_to_set, elem_of_seqZ. lia.
    - rewrite size_dom, size_list_to_set by apply NoDup_seqZ. rewrite length_seqZ. lia. }
  assert (Hpos : 1 ≤ parts).
  { destruct (decide (set = ∅)) as [->|Hne].
    - by destruct (part_sets_nonempty files parts).
    - apply map_choose in Hne as (q & f & Hq). destruct (Hset q f Hq) as [_ ?]. lia. }
  destruct (Hall 1 ltac:(lia)) as [f1 _].
  apply (whole_parts v (λ p, default f1 (set !! p)) parts); [done|..].
  - intros part Hp. destruct (Hall part Hp) as [f Hf']. rewrite Hf'. by apply Hset.
  - intros file. rewrite list_elem_of_omap. split.
    + intros (part & Hin & Hp). destruct (Hset _ _ Hp) as [_ ?]. exists part. by rewrite Hp.
    + intros (part & Hp & ->). destruct (Hall part Hp) as [f Hf']. exists part. rewrite Hf'.
      split; [|done]. apply sorted_keys_elem. by eexists.
Qed.

(** *** The checkpoint found, and the [txn]s collected from it *)

Lemma checkpoint_between_whole from to l c :
  (∃ from', lv_listing view from' = Ok l) → checkpoint_between from to l = Some c →
  whole (c_version c) (c_files c).
Proof.
  intros Hl. unfold checkpoint_between. intros Hc.
  assert (Hin : c ∈ omap (λ v, by_version from to l !! v ≫= complete v)
    (rev (sorted_keys (by_version from to l)))) by (by apply head_Some_elem_of).
  apply list_elem_of_omap in Hin as (v & _ & Hv). apply bind_Some in Hv as (files & Hf & Hv).
  apply by_version_candidates in Hf as [Hf _]; [|done].
  by apply complete_whole in Hv as [-> ?].
Qed.

Lemma newest_checkpoint_whole head c :
  newest_checkpoint view head = Ok (Some c) → whole (c_version c) (c_files c).
Proof.
  assert (Hl : ∀ from l, listing view from = Ok l → ∃ from', lv_listing view from' = Ok l).
  { intros from l. unfold listing. destruct (lv_listing view from) eqn:E; [|done].
    intros [= <-]. by eexists. }
  unfold newest_checkpoint. destruct (last_checkpoint_hint view) as [hint|]; [|done].
  set (from := match hint with Some _ => _ | None => _ end).
  destruct (listing view from) as [l|] eqn:E1; [|done].
  destruct (checkpoint_between from head l) as [c'|] eqn:E2.
  { intros [= <-]. by eapply checkpoint_between_whole; [eapply Hl|]. }
  destruct (from =? 0); [done|]. destruct (listing view 0) as [l'|] eqn:E3; [|done].
  intros [= Hc]. by eapply checkpoint_between_whole; [eapply Hl|].
Qed.

Lemma collect_txns_spec wanted l m m' :
  collect_txns wanted l m = Ok m' →
  ∀ id x, m' !! id = Some x ↔ m !! id = Some x ∨ id ∈ wanted ∧ (id, x) ∈ l.
Proof.
  revert m; induction l as [|[i v] l IH]; intros m; simpl.
  { intros [= <-] id x. split; [by left|]. by intros [|[_ ?%not_elem_of_nil]]. }
  assert (Hins : m !! i = None ∨ m !! i = Some v → i ∈ wanted →
    collect_txns wanted l (<[i := v]> m) = Ok m' →
    ∀ id x, m' !! id = Some x ↔ m !! id = Some x ∨ id ∈ wanted ∧ (id, x) ∈ (i, v) :: l).
  { intros Hm Hi Hc id x. rewrite (IH _ Hc), elem_of_cons, lookup_insert_Some.
    split.
    - intros [[[<- <-]|[_ ?]]|[? ?]]; [right; by auto|by left|right; by auto].
    - intros [Hx|[Hw [[= -> ->]|?]]]; [|left; by left|right; by auto].
      destruct (decide (i = id)) as [->|]; [|left; by right].
      left; left. destruct Hm as [?|?]; [congruence|]. split; [done|congruence]. }
  destruct (decide (i ∈ wanted)) as [Hi|Hi].
  - destruct (m !! i) as [o|] eqn:Em.
    + destruct (Z.eqb_spec o v) as [->|]; [|done]. intros Hc. apply Hins; auto.
    + intros Hc. apply Hins; auto.
  - intros Hc id x. rewrite (IH _ Hc), elem_of_cons. split.
    + intros [?|[? ?]]; [by left|right; by auto].
    + intros [?|[? [[= -> ->]|?]]]; [by left|done|right; by auto].
Qed.

Lemma files_txns_spec wanted files m m' :
  files_txns view wanted files m = Ok m' →
  (∀ file, file ∈ files → opened view file (is_json file)) ∧
  ∀ id x, m' !! id = Some x ↔ m !! id = Some x ∨
    id ∈ wanted ∧ ∃ file, file ∈ files ∧ file_has view file (is_json file) id x.
Proof.
  revert m; induction files as [|file files IH]; intros m; simpl.
  { intros [= <-]. split; [by intros ? ?%not_elem_of_nil|]. intros id x.
    split; [by left|]. by intros [|(_ & ? & ?%not_elem_of_nil & _)]. }
  destruct (lv_file_txns view file) as [l|] eqn:El; [|done].
  destruct (file_txns_spec _ _ El) as [Ho Hl].
  destruct (collect_txns wanted l m) as [m''|] eqn:Ec; [|done]. intros [Hof Hm]%IH.
  pose proof (collect_txns_spec _ _ _ _ Ec) as Hc. split.
  { intros f [->|?]%elem_of_cons; [done|by apply Hof]. }
  intros id x. rewrite Hm, Hc. setoid_rewrite elem_of_cons. rewrite Hl. naive_solver.
Qed.

(** What is collected from the files of the newest checkpoint is, of each appId asked about,
    its newest [txn] as of the checkpoint's version. *)
Lemma checkpoint_right head c wanted txns :
  newest_checkpoint view head = Ok (Some c) → checkpoint_txns view c wanted = Ok txns →
  ∀ id, txns !! id = if decide (id ∈ wanted) then newest H (c_version c) id else None.
Proof.
  intros Hc%newest_checkpoint_whole [Hopen Htxns]%files_txns_spec id.
  apply option_eq. intros x. rewrite Htxns, lookup_empty.
  transitivity (id ∈ wanted ∧ newest H (c_version c) id = Some x); [|by case_decide; naive_solver].
  split; [intros [|[Hw (file & Hin & Hh)]]; [done|]; split; [done|]|intros [Hw Hn]; right; split; [done|]].
  - inversion Hc as [kind f Hk [Hs (json & Hname & Hj)] Heq|files parts l Hp Hf Hl]; subst.
    + rewrite <- Heq in Hin. apply list_elem_of_singleton in Hin as ->.
      by eapply views_file.
    + apply Hl in Hin as (part & Hpp & ->). destruct (Hf part Hpp) as [Hs (json & Hname & Hj)].
      rewrite Hj in Hh. by eapply views_file.
  - inversion Hc as [kind f Hk [Hs (json & Hname & Hj)] Heq|files parts l Hp Hf Hl]; subst.
    + exists f. split; [by left|].
      eapply views_single; [done..|]. apply Hopen. rewrite <- Heq. by left.
    + destruct (views_parts view H Hview files (c_version c) parts id x) as (part & Hpp & Hh);
        [done| |done|].
      * intros part Hpp. destruct (Hf part Hpp) as [Hs (json & Hname & Hj)].
        assert (json = false) as -> by (by inversion Hname). split; [done|]. split; [done|].
        rewrite <- Hj. apply Hopen, Hl. by exists part.
      * exists (files part). split; [apply Hl; by exists part|].
        destruct (Hf part Hpp) as [Hs (json & Hname & Hj)].
        assert (json = false) as -> by (by inversion Hname). by rewrite Hj.
Qed.
End Checkpoint.
