(* ===== verification/TxnLogCorrect.v ===== *)
(** * TxnLogCorrect: the one-pass read is the log's replay

    [TxnLog.read] walks the log backwards, stops early, and falls back to a checkpoint or
    the kernel; the theorems say that whatever it answers is what replaying the whole log
    would, that the marks it adds are the ones recorded beside exactly those offsets, and
    that it does answer on a log that can be read. *)

From Stdlib Require Import ZArith Lia.
From stdpp Require Import base list strings gmap sorting.
From S2P Require Import Prelude Json Error Partitions Takeover TxnLog TxnLogCheckpoint.

Open Scope Z_scope.

(** ** One commit *)

Lemma commit_lines_txns c info ts info' :
  commit_lines c info = Some (ts, info') → ts = txns_of c.
Proof.
  revert info ts; induction c as [|[l|] c IH]; intros info ts; simpl; [by intros [= <-]|..|done].
  destruct (commit_lines c _) as [[ts' i]|] eqn:E; simpl; [|done]. intros [= <- <-].
  apply IH in E as ->. unfold txns_of. csimpl. by destruct (txn l).
Qed.

(** What a commit says about one of its [txn]s. *)
Definition commit_state (c : Commit) (t : TxnAction) : TxnState :=
  {| txn_version := Some (t_version t);
     txn_mark := '(_, info) ← commit_lines c None; i ← info; v ← ci_app_id i; a ← as_str v;
                 mark_for (ci_marks i) a t |}.

Lemma fold_insert_lookup {A B} (k : A → string) (f : A → B) l (m : gmap string B) id :
  fold_left (λ m t, <[k t := f t]> m) l m !! id =
  match last (filter (λ t, k t = id) l) with Some t => Some (f t) | None => m !! id end.
Proof.
  induction l as [|t l IH] using rev_ind; [done|].
  rewrite fold_left_app, filter_app; simpl. rewrite filter_cons, filter_nil.
  case_decide as E.
  - subst. by rewrite last_snoc, lookup_insert_eq.
  - by rewrite app_nil_r, lookup_insert_ne.
Qed.

Lemma filter_List_filter id (P : string → bool) (l : list TxnAction) :
  of_id id (List.filter (λ t, P (t_app_id t)) l) = if P id then of_id id l else [].
Proof.
  unfold of_id. induction l as [|t l IH]; simpl; [by destruct (P id)|].
  destruct (P (t_app_id t)) eqn:E; rewrite ?filter_cons; case_decide as Ei; rewrite IH; subst;
    by rewrite ?E.
Qed.

Lemma record_commit_lookup c wanted found found' id :
  record_commit c wanted found = Ok found' →
  found' !! id =
  match found !! id with
  | Some t => Some t
  | None => if decide (id ∈ wanted) then commit_state c <$> last (of_id id (txns_of c)) else None
  end.
Proof.
  unfold record_commit. destruct (commit_lines c None) as [[ts info]|] eqn:E; [|done].
  intros [= <-]. pose proof (commit_lines_txns _ _ _ _ E) as ->.
  rewrite fold_insert_lookup.
  pose proof (filter_List_filter id (λ i, bool_decide (i ∈ wanted) && bool_decide (found !! i = None))
    (txns_of c)) as Hf.
  unfold of_id in *. rewrite Hf. clear Hf.
  destruct (found !! id) as [t|] eqn:Ef.
  - rewrite (bool_decide_false (Some t = None)) by done. by rewrite andb_false_r.
  - rewrite (bool_decide_true (None = None)) by done. rewrite andb_true_r.
    case_decide as Hw.
    + rewrite bool_decide_true by done. destruct (last _) as [t|]; [|done]. simpl.
      unfold commit_state. rewrite E. simpl. do 2 f_equal. destruct info as [i|]; [|done]. simpl.
      by destruct (ci_app_id i).
    + by rewrite bool_decide_false.
Qed.

Lemma mark_for_offset marks a t m : mark_for marks a t = Some m → m_offset m = t_version t.
Proof.
  unfold mark_for. intros H.
  repeat match type of H with
  | mbind _ _ = Some _ => apply bind_Some in H as (? & _ & H)
  | match ?x with _ => _ end = Some _ => destruct x eqn:?; try done
  end.
  simplify_eq; simpl. by apply Z.eqb_eq.
Qed.

Lemma of_id_elem id ts t : last (of_id id ts) = Some t → t ∈ ts ∧ t_app_id t = id.
Proof.
  intros H%last_Some_elem_of. unfold of_id in H. apply list_elem_of_filter in H as [? ?]. done.
Qed.

Section History.
Context (H : Z → Commit).

(** A state read from the history: its mark is the one recorded beside its offset. *)
Definition mark_ok (id : string) (t : TxnState) : Prop :=
  ∀ m, txn_mark t = Some m →
    ∃ v, txn_version t = Some v ∧ recorded H id v m ∧ m_offset m = v.

Lemma commit_state_ok v t : t ∈ txns_of (H v) → mark_ok (t_app_id t) (commit_state (H v) t).
Proof.
  intros Ht m Hm. exists (t_version t). split; [done|]. simpl in Hm.
  destruct (commit_lines (H v) None) as [[ts info]|] eqn:E; [|done]. simpl in Hm.
  apply bind_Some in Hm as (i & -> & Hm). apply bind_Some in Hm as (val & Hi & Hm).
  apply bind_Some in Hm as (a & Ha & Hm).
  split; [|by eapply mark_for_offset].
  exists v, ts, (Some i), i, a, t. rewrite Hi. done.
Qed.

Lemma history_snoc v : 0 ≤ v → history H (v + 1) = history H v ++ txns_of (H v).
Proof.
  intros Hv. unfold history. rewrite seqZ_snoc, fmap_app, join_app by done. simpl.
  by rewrite app_nil_r.
Qed.

Lemma newest_before_snoc v id :
  0 ≤ v →
  newest_before H (v + 1) id =
  match last (of_id id (txns_of (H v))) with
  | Some t => Some (t_version t)
  | None => newest_before H v id
  end.
Proof.
  intros Hv. unfold newest_before. rewrite history_snoc by done.
  unfold of_id. rewrite filter_app, last_app. by destruct (last (filter _ (txns_of _))).
Qed.
End History.

(** ** The walk *)

Lemma rev_seqZ_snoc b n : 0 ≤ n → rev (seqZ b (n + 1)) = (b + n) :: rev (seqZ b n).
Proof.
  intros Hn. replace (n + 1) with (Z.of_nat (S (Z.to_nat n))) by lia.
  rewrite seqZ_S, rev_app_distr. simpl. by rewrite Z2Nat.id.
Qed.

Section Walk.
Context (view : LogView) (H : Z → Commit) (Hview : views view H).
Context (head : Z) (Hhead : lv_version view = Some head) (wanted : gset string).

(** What is known once the commits [v..head] have been read. *)
Record scanned (v : Z) (found : Found) : Prop := {
  scanned_found id t : found !! id = Some t →
    id ∈ wanted ∧ newest H head id = txn_version t ∧ mark_ok H id t;
  scanned_rest id w : id ∈ wanted → found !! id = None → v ≤ w ≤ head + 1 →
    newest H head id = newest_before H w id;
}.

Lemma scanned_start : scanned (head + 1) ∅.
Proof. split; [done|]. intros id w _ _ Hw. by replace w with (head + 1) by lia. Qed.

Lemma scanned_weaken v v' found : scanned v found → v ≤ v' → scanned v' found.
Proof. intros [Hf Hr] Hv. split; [done|]. intros id w ? ? ?. apply Hr; [done..|lia]. Qed.

Lemma scanned_step v found found' :
  scanned (v + 1) found → 0 ≤ v ≤ head →
  record_commit (H v) wanted found = Ok found' → scanned v found'.
Proof.
  intros [Hf Hr] Hv Hrec.
  assert (Hl := λ id, record_commit_lookup _ _ _ _ id Hrec). split.
  - intros id t Hid. rewrite Hl in Hid. destruct (found !! id) as [t'|] eqn:E.
    { simplify_eq. by apply Hf. }
    case_decide as Hw; [|done].
    destruct (last _) as [u|] eqn:Eu; [|done]. simpl in Hid. simplify_eq.
    split; [done|]. pose proof (of_id_elem _ _ _ Eu) as [Hu <-].
    split; [|by apply (commit_state_ok H v)].
    rewrite (Hr _ (v + 1) Hw E) by lia. rewrite newest_before_snoc by lia. by rewrite Eu.
  - intros id w Hw Hid Hvw. rewrite Hl in Hid.
    destruct (found !! id) as [t'|] eqn:E; [done|]. rewrite decide_True in Hid by done.
    destruct (last _) as [u|] eqn:Eu; [done|].
    destruct (decide (w = v)) as [->|]; [|apply Hr; [done..|lia]].
    rewrite (Hr _ (v + 1) Hw E) by lia. rewrite newest_before_snoc by lia. by rewrite Eu.
Qed.

(** The lowest version the walk has to read down to. *)
Definition floor_of (ck : option Checkpoint) (bottom : Z) : Z :=
  match ck with Some _ => bottom + 1 | None => bottom end.

Lemma walk_commits_scanned ck bottom n found found' :
  0 ≤ bottom → 0 ≤ n → bottom + n ≤ head →
  scanned (bottom + n) found ∨ (n = 0 ∧ scanned (floor_of ck bottom) found) →
  walk_commits view wanted ck bottom (rev (seqZ bottom n)) found = Ok found' →
  scanned (floor_of ck bottom) found' ∨
  (all_found wanted found' = true ∧ ∃ v, scanned v found').
Proof.
  intros Hb Hn. revert found. pattern n. apply natlike_ind; [| |exact Hn]; clear n Hn.
  - intros found Hle Hs. simpl. intros [= <-]. left.
    destruct Hs as [Hs|[_ Hs]]; [|done]. eapply scanned_weaken; [exact Hs|].
    destruct ck; simpl; lia.
  - intros n Hn IH found Hle Hs. rewrite <- Z.add_1_r, rev_seqZ_snoc by done.
    destruct Hs as [Hs|[? _]]; [|lia]. simpl.
    destruct (lv_commit view (bottom + n)) as [[c|]|e] eqn:E; [| |done].
    + apply (views_commit _ _ Hview) in E as ->.
      destruct (record_commit _ _ _) as [f|] eqn:Er; [|done].
      assert (Hs' : scanned (bottom + n) f).
      { eapply scanned_step; [|lia|exact Er]. by replace (bottom + n + 1) with (bottom + Z.succ n) by lia. }
      destruct (all_found wanted f) eqn:Ea; [|intros Hw; apply (IH f); [lia|by left|done]].
      intros [= <-]. right. eauto.
    + destruct ck as [c|]; [|done]. destruct (Z.eqb_spec (bottom + n) bottom); [|done].
      assert (n = 0) as -> by lia.
      assert (Hs' : scanned (bottom + 1) found)
        by (by replace (bottom + 1) with (bottom + Z.succ 0) by lia).
      destruct (all_found wanted found) eqn:Ea.
      * intros [= <-]. right. eauto.
      * intros Hw. apply (IH found); [lia|by right|done].
Qed.

Lemma all_found_lookup v found id :
  scanned v found → all_found wanted found = true → id ∈ wanted → is_Some (found !! id).
Proof.
  intros Hs Ha%bool_decide_eq_true Hid. rewrite <- elem_of_dom.
  assert (Hd : dom found ⊆ wanted).
  { intros i [t Ht]%elem_of_dom. by apply (scanned_found _ _ Hs) in Ht as [? _]. }
  rewrite <- size_dom in Ha. by rewrite (set_subseteq_size_eq _ _ Hd) by lia.
Qed.

(** What a finished walk answers. *)
Definition answered_right (found : Found) : Prop :=
  (∀ id, id ∈ wanted → txn_version (default txn_default (found !! id)) = newest H head id) ∧
  (∀ id t, found !! id = Some t → mark_ok H id t).

Lemma scanned_all v found :
  scanned v found → all_found wanted found = true → answered_right found.
Proof.
  intros Hs Ha. split.
  - intros id Hid. destruct (all_found_lookup _ _ _ Hs Ha Hid) as [t Ht].
    rewrite Ht. by apply (scanned_found _ _ Hs) in Ht as (_ & -> & _).
  - intros id t Ht. by apply (scanned_found _ _ Hs) in Ht as (_ & _ & ?).
Qed.

Lemma scanned_zero found : scanned 0 found → 0 ≤ head → answered_right found.
Proof.
  intros Hs Hh. split.
  - intros id Hid. destruct (found !! id) as [t|] eqn:Ht; simpl.
    + by apply (scanned_found _ _ Hs) in Ht as (_ & -> & _).
    + by rewrite (scanned_rest _ _ Hs id 0 Hid Ht) by lia.
  - intros id t Ht. by apply (scanned_found _ _ Hs) in Ht as (_ & _ & ?).
Qed.
End Walk.

(** ** Checkpoints *)

Lemma elem_of_rev {A} (x : A) l : x ∈ rev l ↔ x ∈ l.
Proof. rewrite !list_elem_of_In. symmetry. apply in_rev. Qed.

Lemma head_Some_elem_of {A} (l : list A) x : head l = Some x → x ∈ l.
Proof. destruct l as [|y l]; [done|]. intros [= ->]. by left. Qed.

Lemma parse_unsigned_nonneg m t v : parse_unsigned m t = Some v → 0 ≤ v.
Proof.
  unfold parse_unsigned. intros H. apply bind_Some in H as (n & _ & H).
  destruct (_ <=? _); [|done]. simplify_eq. lia.
Qed.

Lemma checkpoint_file_version meta v kind : checkpoint_file meta = Some (v, kind) → 0 ≤ v.
Proof.
  unfold checkpoint_file. intros H.
  repeat first
    [ apply bind_Some in H as (? & ?%parse_unsigned_nonneg & H)
    | apply bind_Some in H as (? & _ & H)
    | match type of H with
      | match ?x with _ => _ end = Some _ => destruct x; try done
      end ]; by simplify_eq.
Qed.

Lemma by_version_range from to listing v :
  is_Some (by_version from to listing !! v) → from ≤ v ≤ to ∧ 0 ≤ v.
Proof.
  unfold by_version. induction listing as [|meta l IH] using rev_ind; [by intros [? ?]|].
  rewrite fold_left_app. simpl. destruct (checkpoint_file meta) as [[v' kind]|] eqn:Ek; [|done].
  destruct (_ && _ && _) eqn:E; [|done].
  apply andb_true_iff in E as [[E1%Z.leb_le E2%Z.leb_le]%andb_true_iff _].
  destruct (decide (v' = v)) as [->|]; [|by rewrite lookup_insert_ne].
  intros _. split; [done|]. by eapply checkpoint_file_version.
Qed.

Lemma complete_version v files c : complete v files = Some c → c_version c = v.
Proof.
  assert (Hs : ∀ want c, single v files want = Some c → c_version c = v).
  { unfold single. intros want c' Hs. by apply bind_Some in Hs as ([? ?] & _ & [= <-]). }
  unfold complete. destruct (single v files Single) eqn:E1; [intros [= <-]; eauto|].
  destruct (single v files Uuid) eqn:E2; [intros [= <-]; eauto|].
  intros Hc. apply bind_Some in Hc as (parts & _ & Hc).
  by apply bind_Some in Hc as (set & _ & [= <-]).
Qed.

Lemma checkpoint_between_range from to listing c :
  checkpoint_between from to listing = Some c → from ≤ c_version c ≤ to ∧ 0 ≤ c_version c.
Proof.
  unfold checkpoint_between. intros Hc%head_Some_elem_of.
  apply list_elem_of_omap in Hc as (v & Hv & Hc). apply bind_Some in Hc as (files & Hf & Hc).
  apply complete_version in Hc as ->. eapply by_version_range. by eexists.
Qed.

Lemma newest_checkpoint_range view version c :
  newest_checkpoint view version = Ok (Some c) → 0 ≤ c_version c ≤ version.
Proof.
  unfold newest_checkpoint. destruct (last_checkpoint_hint view) as [hint|]; [|done].
  set (from := match hint with Some _ => _ | None => _ end).
  destruct (listing view from) as [l|]; [|done].
  destruct (checkpoint_between from version l) as [c'|] eqn:E.
  - intros [= <-]. apply checkpoint_between_range in E. lia.
  - destruct (from =? 0); [done|]. destruct (listing view 0) as [l'|]; [|done].
    intros [= E']. apply checkpoint_between_range in E'. lia.
Qed.

(** ** Marks from below a checkpoint *)

(** A memo holds only marks the history recorded. *)
Definition memo_ok (H : Z → Commit) (memo : BelowCheckpoint) : Prop :=
  ∀ id v m, b_found memo !! id = Some (v, Some m) → recorded H id v m ∧ m_offset m = v.

Lemma memo_default_ok H k : memo_ok H {| b_checkpoint := k; b_found := ∅ |}.
Proof. by intros id v m. Qed.

(** The same answers, each mark still right. *)
Record refines (H : Z → Commit) (found found' : Found) : Prop := {
  refines_version id : txn_version <$> found' !! id = txn_version <$> found !! id;
  refines_mark id t : found' !! id = Some t → mark_ok H id t;
}.

Definition marks_ok (H : Z → Commit) (found : Found) : Prop :=
  ∀ id t, found !! id = Some t → mark_ok H id t.

Lemma refines_refl H found : marks_ok H found → refines H found found.
Proof. by split. Qed.

Lemma refines_marks_ok H a b : refines H a b → marks_ok H b.
Proof. by intros [_ M]. Qed.

Lemma refines_trans H a b c : refines H a b → refines H b c → refines H a c.
Proof. intros [V1 _] [V2 M2]. split; [|done]. intros id. by rewrite V2. Qed.

Lemma refines_insert H found id t t' :
  marks_ok H found → found !! id = Some t → txn_version t' = txn_version t → mark_ok H id t' →
  refines H found (<[id := t']> found).
Proof.
  intros Hm Hid Hv Ht'. split.
  - intros i. destruct (decide (id = i)) as [<-|].
    + rewrite lookup_insert_eq, Hid. simpl. by rewrite Hv.
    + by rewrite lookup_insert_ne.
  - intros i u. destruct (decide (id = i)) as [<-|].
    + rewrite lookup_insert_eq. by intros [= <-].
    + rewrite lookup_insert_ne by done. apply Hm.
Qed.

Lemma note_ok H memo id v m :
  memo_ok H memo → (∀ mk, m = Some mk → recorded H id v mk ∧ m_offset mk = v) →
  memo_ok H (note id (v, m) memo).
Proof.
  intros Hm Hn i u mk. unfold note; simpl. destruct (decide (id = i)) as [<-|].
  - rewrite lookup_insert_eq. intros [= -> ->]. by apply Hn.
  - rewrite lookup_insert_ne by done. apply Hm.
Qed.

Lemma recall_refines H memo answered found rest found' :
  memo_ok H memo → marks_ok H found → recall memo answered found = (rest, found') →
  refines H found found'.
Proof.
  intros Hmemo Hm. unfold recall.
  apply (set_fold_ind_L (λ st _, ∀ rest found', st = (rest, found') → refines H found found')).
  - intros ? ? [= <- <-]. by apply refines_refl.
  - intros id X [rest1 f1] _ IH rest2 f2. specialize (IH _ _ eq_refl).
    destruct (f1 !! id) as [answer|] eqn:E; [|by intros [= <- <-]].
    destruct (b_found memo !! id) as [[v m]|] eqn:Em; [|by intros [= <- <-]].
    case_decide as Hv; intros [= <- <-]; [|done].
    eapply refines_trans; [exact IH|].
    apply (refines_insert _ _ _ _ _ (refines_mark _ _ _ IH) E); [done|].
    intros mk Hmk. simpl in *. subst m. exists v. split; [done|]. by apply Hmemo.
Qed.

Lemma meet_refines H met answered found memo answered' found' memo' :
  marks_ok H met → memo_ok H memo → marks_ok H found →
  meet met (answered, found, memo) = (answered', found', memo') →
  refines H found found' ∧ memo_ok H memo'.
Proof.
  intros Hmet. unfold meet.
  assert (Hl : Forall (λ p, mark_ok H p.1 p.2) (map_to_list met)).
  { apply Forall_forall. intros [id t] Ht%elem_of_map_to_list. by apply Hmet. }
  clear Hmet. revert answered found memo.
  induction Hl as [|[id t] l Ht Hl IH]; intros answered found memo Hmemo Hm; simpl.
  { intros [= <- <- <-]. split; [by apply refines_refl|done]. }
  simpl in Ht. destruct (found !! id) as [[[v|] mk]|] eqn:E; [|by apply IH..].
  set (mk' := if decide _ then _ else _).
  assert (Hmk : mark_ok H id {| txn_version := Some v; txn_mark := mk' |}).
  { unfold mk'. case_decide as Hv; [|by apply (Hm id)].
    intros m Hm'. destruct (Ht m Hm') as (v' & Hv' & ?). exists v'. split; [|done]. simpl. congruence. }
  intros Hf. pose proof (refines_insert _ _ _ _ {| txn_version := Some v; txn_mark := mk' |}
    Hm E eq_refl Hmk) as Hr.
  apply IH in Hf as [Hr' Hmemo'].
  - split; [by eapply refines_trans|done].
  - apply note_ok; [done|]. intros m ->. destruct (Hmk m eq_refl) as (? & [= <-] & ?). done.
  - by eapply refines_marks_ok.
Qed.

Lemma give_up_ok H answered found memo : memo_ok H memo → memo_ok H (give_up_on answered found memo).
Proof.
  intros Hm. unfold give_up_on. apply (set_fold_ind_L (λ m _, memo_ok H m)); [done|].
  intros id X memo' _ IH. destruct (found !! id ≫= txn_version); [|done].
  by apply note_ok.
Qed.

Lemma record_commit_marks H v wanted found :
  record_commit (H v) wanted ∅ = Ok found → marks_ok H found.
Proof.
  intros Hr id t Hid. rewrite (record_commit_lookup _ _ _ _ id Hr), lookup_empty in Hid.
  case_decide; [|done]. destruct (last _) as [u|] eqn:E; [|done]. simpl in Hid. simplify_eq.
  apply of_id_elem in E as [Hu <-]. by apply (commit_state_ok H v).
Qed.

Section Below.
Context (view : LogView) (H : Z → Commit) (Hview : views view H).

Lemma below_walk_refines vs answered found memo r memo' :
  memo_ok H memo → marks_ok H found →
  below_walk view vs answered found memo = (r, memo') →
  memo_ok H memo' ∧ match r with Ok found' => refines H found found' | Err _ => True end.
Proof.
  revert answered found memo. induction vs as [|v vs IH]; intros answered found memo Hmemo Hm;
    simpl.
  { intros [= <- <-]. split; [by apply give_up_ok|by apply refines_refl]. }
  assert (Hstop : ∀ (r : result Error Found) memo', (Ok found, give_up_on answered found memo) = (r, memo') →
    memo_ok H memo' ∧ match r with Ok found' => refines H found found' | Err _ => True end).
  { intros ? ? [= <- <-]. split; [by apply give_up_ok|by apply refines_refl]. }
  destruct (lv_commit view v) as [[c|]|e] eqn:Ec; [| |destruct (is_outage e)].
  - apply (views_commit _ _ Hview) in Ec as ->.
    destruct (record_commit _ _ _) as [met|] eqn:Er; [|apply Hstop].
    pose proof (record_commit_marks _ _ _ _ Er) as Hmet.
    destruct (meet met _) as [[answered1 found1] memo1] eqn:Em.
    apply meet_refines with (H := H) in Em as [Hr1 Hmemo1]; [|done..].
    case_decide; [intros [= <- <-]; done|]. intros Hw.
    apply IH in Hw as [Hmemo' Hr]; [|done|by eapply refines_marks_ok]. split; [done|].
    destruct r; [|done]. by eapply refines_trans.
  - apply Hstop.
  - intros [= <- <-]. done.
  - apply Hstop.
Qed.

Lemma below_checkpoint_refines bottom answered found memo r memo' :
  memo_ok H memo → marks_ok H found →
  below_checkpoint view bottom answered found memo = (r, memo') →
  memo_ok H memo' ∧ match r with Ok found' => refines H found found' | Err _ => True end.
Proof.
  intros Hmemo Hm. unfold below_checkpoint. set (memo0 := if decide _ then _ else _).
  assert (Hmemo0 : memo_ok H memo0) by (unfold memo0; case_decide; [done|apply memo_default_ok]).
  destruct (recall memo0 answered found) as [rest found1] eqn:E.
  apply recall_refines with (H := H) in E; [|done..].
  case_decide; [intros [= <- <-]; done|]. intros Hw.
  apply below_walk_refines in Hw as [? Hr]; [|done|by eapply refines_marks_ok]. split; [done|].
  destruct r; [|done]. by eapply refines_trans.
Qed.
End Below.

(** ** The whole read *)

Section Read.
Context (view : LogView) (H : Z → Commit) (Hview : views view H).
Context (head : Z) (Hhead : lv_version view = Some head) (wanted : gset string).

Lemma kernel_lookups_lookup rest found found' id :
  NoDup rest → kernel_lookups view rest found = Ok found' →
  (∀ i, i ∈ rest → found !! i = None) →
  found' !! id = if decide (id ∈ rest) then unmarked <$> newest H head id else found !! id.
Proof.
  intros Hnd. revert found; induction Hnd as [|i rest Hi Hnd IH]; intros found; simpl.
  { by intros [= <-]. }
  destruct (lv_kernel view i) as [[v|]|] eqn:E; [| |done];
    apply (views_kernel _ _ Hview _ _ _ Hhead) in E; intros Hk Hrest.
  - apply IH in Hk as ->.
    + destruct (decide (i = id)) as [->|Hne].
      * rewrite (decide_False _ _ Hi), lookup_insert_eq.
        rewrite decide_True by (by left). by rewrite <- E.
      * rewrite lookup_insert_ne by done.
        destruct (decide (id ∈ rest)), (decide (id ∈ i :: rest)) as [Hin|Hin]; try done.
        -- by destruct Hin; right.
        -- apply elem_of_cons in Hin. naive_solver.
    + intros j Hj. rewrite lookup_insert_ne by (by intros ->). apply Hrest. by right.
  - apply IH in Hk as ->; [|intros j Hj; apply Hrest; by right].
    destruct (decide (i = id)) as [->|Hne].
    + rewrite (decide_False _ _ Hi). rewrite decide_True by (by left).
      rewrite <- E. simpl. apply Hrest. by left.
    + destruct (decide (id ∈ rest)), (decide (id ∈ i :: rest)) as [Hin|Hin]; try done.
      * by destruct Hin; right.
      * apply elem_of_cons in Hin. naive_solver.
Qed.

Lemma answered_right_fill v found found' (f : string → option Z) :
  scanned H head wanted v found → v ≤ head + 1 →
  (∀ id, id ∈ wanted → found !! id = None → f id = newest_before H v id) →
  (∀ id, found' !! id =
     match found !! id with
     | Some t => Some t
     | None => if decide (id ∈ wanted) then unmarked <$> f id else None
     end) →
  answered_right H head wanted found'.
Proof.
  intros Hs Hv Hf Hl. split.
  - intros id Hid. rewrite Hl. destruct (found !! id) as [t|] eqn:Ht; simpl.
    + by apply (scanned_found _ _ _ _ _ Hs) in Ht as (_ & -> & _).
    + rewrite decide_True by done.
      rewrite (scanned_rest _ _ _ _ _ Hs id v Hid Ht), <- Hf by (done || lia).
      by destruct (f id).
  - intros id t. rewrite Hl. destruct (found !! id) as [t'|] eqn:Ht; simpl.
    + intros [= <-]. by apply (scanned_found _ _ _ _ _ Hs) in Ht as (_ & _ & ?).
    + case_decide; [|done]. destruct (f id); [|done]. by intros [= <-].
Qed.

Lemma refines_answered_right found found' :
  answered_right H head wanted found → refines H found found' →
  answered_right H head wanted found'.
Proof.
  intros [Ha _] [Hv Hm]. split; [|done]. intros id Hid. rewrite <- Ha by done.
  specialize (Hv id). by destruct (found' !! id), (found !! id); simplify_eq/=.
Qed.

Definition below_ok (below : option BelowCheckpoint) : Prop :=
  from_option (memo_ok H) True below.

Lemma finish_walk_right c found below r below' :
  below_ok below → scanned H head wanted (c_version c + 1) found → c_version c ≤ head →
  newest_checkpoint view head = Ok (Some c) →
  finish_walk view wanted c found below = (r, below') →
  below_ok below' ∧
  match r with Ok found' => answered_right H head wanted found' | Err _ => True end.
Proof.
  intros Hb Hs Hc Hck. unfold finish_walk. set (rest := filter _ wanted).
  assert (Hrest : ∀ id, id ∈ rest ↔ id ∈ wanted ∧ found !! id = None).
  { intros id. unfold rest. rewrite elem_of_filter. naive_solver. }
  set (answer := match checkpoint_txns _ _ _ with Ok _ => _ | Err _ => _ end).
  assert (Ha : match answer with
               | Ok f => answered_right H head wanted f | Err _ => True end).
  { unfold answer. destruct (checkpoint_txns view c rest) as [txns|why] eqn:E.
    - apply (answered_right_fill (c_version c + 1) found _ (newest H (c_version c)));
        [done|lia|done|].
      intros id. rewrite lookup_union, lookup_fmap.
      rewrite (checkpoint_right view H Hview _ _ _ _ Hck E id).
      destruct (found !! id) as [t|] eqn:Ht.
      + rewrite decide_False by (rewrite Hrest; naive_solver). done.
      + destruct (decide (id ∈ wanted)) as [Hw|Hw].
        * rewrite decide_True by (by rewrite Hrest). by destruct (newest H (c_version c) id).
        * rewrite decide_False by (rewrite Hrest; naive_solver). done.
    - destruct (kernel_lookups _ _ _) as [f|] eqn:Ek; [|done].
      apply (answered_right_fill (c_version c + 1) found _ (newest H head)); [done|lia|..].
      + intros id Hid Hn. apply (scanned_rest _ _ _ _ _ Hs); [done..|lia].
      + intros id. rewrite (kernel_lookups_lookup _ _ _ id (NoDup_elements _) Ek).
        2: { intros i Hi%elem_of_elements%Hrest. by apply Hi. }
        destruct (decide (id ∈ elements rest)) as [Hi|Hi]; rewrite elem_of_elements, Hrest in Hi.
        * destruct Hi as [Hi1 Hi2]. by rewrite Hi2, decide_True.
        * destruct (found !! id); [done|]. rewrite decide_False by naive_solver. done. }
  destruct answer as [found1|e]; [|intros [= <- <-]; done].
  destruct below as [memo|]; [|intros [= <- <-]; done].
  case_decide; [intros [= <- <-]; done|].
  destruct (below_checkpoint _ _ _ _ _) as [r1 memo1] eqn:Eb. intros [= <- <-].
  apply (below_checkpoint_refines view H Hview) in Eb as [Hm Hr]; [|done|by destruct Ha].
  split; [done|]. destruct r1; [|done]. by eapply refines_answered_right.
Qed.

Lemma walk_right below r below' :
  below_ok below → walk view head wanted below = (r, below') →
  below_ok below' ∧
  match r with Ok found => answered_right H head wanted found | Err _ => True end.
Proof.
  intros Hb. pose proof (views_version _ _ Hview _ Hhead) as Hh. unfold walk.
  destruct (lv_commit view head) as [hc|] eqn:Ehc; [|intros [= <- <-]; done].
  set (first := match hc with Some _ => _ | None => _ end).
  destruct first as [found|] eqn:Efirst; [|intros [= <- <-]; done].
  assert (Hs : scanned H head wanted (match hc with Some _ => head | None => head + 1 end) found).
  { unfold first in Efirst. destruct hc as [c|]; [|simplify_eq; apply scanned_start].
    apply (views_commit _ _ Hview) in Ehc as ->.
    by apply (scanned_step H head wanted head ∅); [apply scanned_start|lia|]. }
  destruct (_ && _) eqn:E1.
  { intros [= <- <-]. split; [done|]. apply andb_true_iff in E1 as [E1 _].
    by eapply scanned_all. }
  destruct (newest_checkpoint view head) as [ck|] eqn:Eck; [|intros [= <- <-]; done].
  set (bottom := match ck with Some _ => _ | None => _ end).
  destruct (bool_decide (hc = None) && _) eqn:E2; [intros [= <- <-]; done|].
  assert (Hbot : 0 ≤ bottom ≤ head).
  { unfold bottom. destruct ck as [c|]; [by apply newest_checkpoint_range in Eck|lia]. }
  destruct (walk_commits _ _ _ _ _ _) as [found1|] eqn:Ew; [|intros [= <- <-]; done].
  apply (walk_commits_scanned view H Hview head wanted) in Ew; [|lia..|].
  2: { replace (bottom + (head - bottom)) with head by lia. destruct hc as [c|]; [by left|].
    right. apply andb_false_iff in E2 as [E2|E2]; [done|].
    apply bool_decide_eq_false, dec_stable in E2.
    unfold bottom. destruct ck as [c|]; simplify_eq/=. split; [lia|done]. }
  destruct (all_found wanted found1) eqn:E3.
  { intros [= <- <-]. split; [done|].
    destruct Ew as [Ew|[_ [v Ew]]]; by eapply scanned_all. }
  destruct Ew as [Ew|[? _]]; [|done].
  unfold bottom in *. destruct ck as [c|]; simpl in *.
  - intros Hf. eapply finish_walk_right; [done|exact Ew|lia|exact Eck|exact Hf].
  - intros [= <- <-]. split; [done|]. by apply scanned_zero.
Qed.
End Read.

Lemma answers_lookup wanted found id :
  answers wanted found !! id =
  if decide (id ∈ wanted) then Some (default txn_default (found !! id)) else None.
Proof.
  unfold answers. rewrite map_lookup_imap, lookup_gset_to_gmap.
  destruct (decide (id ∈ wanted)) as [Hid|Hid].
  - by rewrite option_guard_True.
  - by rewrite option_guard_False.
Qed.

(** [read], for the fence: the answers, and that the memo keeps only recorded marks. *)
Lemma read_right view H head app_ids below r below' :
  views view H → lv_version view = Some head → below_ok H below →
  read view app_ids below = (r, below') →
  below_ok H below' ∧
  match r with
  | Ok found =>
      ∀ id, id ∈ app_ids →
        ∃ t, found !! id = Some t ∧ txn_version t = newest H head id ∧ mark_ok H id t
  | Err _ => True
  end.
Proof.
  intros Hview Hhead Hb. unfold read. case_decide as Hw.
  { intros [= <- <-]. split; [done|]. intros id Hid.
    assert (id ∈ (list_to_set app_ids : gset string)) as Hin by (by apply elem_of_list_to_set).
    rewrite Hw in Hin. set_solver. }
  rewrite Hhead. destruct (walk view head _ below) as [[found|e] b] eqn:E; intros [= <- <-];
    apply (walk_right view H Hview head Hhead) in E as [Hb' Hr]; try done.
  split; [done|]. intros id Hid. rewrite answers_lookup, decide_True by (by apply elem_of_list_to_set).
  eexists. split; [done|]. destruct Hr as [Hr1 Hr2].
  split; [by apply Hr1, elem_of_list_to_set|].
  destruct (found !! id) eqn:Ef; simpl; [by apply Hr2|done].
Qed.


(** The ways a read fails. *)
Definition read_error (e : Error) : Prop :=
  match e with Delta _ | Other _ | OffsetLogTruncated _ _ => True | _ => False end.

Lemma record_commit_err c wanted found e : record_commit c wanted found = Err e → read_error e.
Proof. unfold record_commit. destruct (commit_lines c None) as [[]|]; by intros [= <-]. Qed.

Lemma walk_commits_err view wanted ck bottom vs found e :
  walk_commits view wanted ck bottom vs found = Err e → read_error e.
Proof.
  revert found; induction vs as [|v vs IH]; intros found; simpl; [done|].
  destruct (lv_commit view v) as [[c|]|]; [| |by intros [= <-]].
  - destruct (record_commit _ _ _) eqn:E; [|intros [= <-]; by eapply record_commit_err].
    destruct (all_found _ _); [done|apply IH].
  - destruct (match ck with Some _ => _ | None => _ end); [|by intros [= <-]].
    destruct (all_found _ _); [done|apply IH].
Qed.

Lemma kernel_lookups_err view rest found e : kernel_lookups view rest found = Err e → read_error e.
Proof.
  revert found; induction rest as [|i rest IH]; intros found; simpl; [done|].
  destruct (lv_kernel view i) as [[v|]|]; [apply IH..|by intros [= <-]].
Qed.

Lemma below_walk_err view vs answered found memo e memo' :
  below_walk view vs answered found memo = (Err e, memo') → read_error e.
Proof.
  revert answered found memo; induction vs as [|v vs IH]; intros answered found memo; simpl; [done|].
  destruct (lv_commit view v) as [[c|]|d]; [|done|destruct (is_outage d); [by intros [= <- _]|done]].
  destruct (record_commit _ _ _) as [met|]; [|done].
  destruct (meet met _) as [[a f] m]. case_decide; [done|apply IH].
Qed.

Lemma newest_checkpoint_err view version e :
  newest_checkpoint view version = Err e → read_error e.
Proof.
  assert (Hl : ∀ from e, listing view from = Err e → read_error e).
  { intros from e'. unfold listing. destruct (lv_listing view from); [done|by intros [= <-]]. }
  unfold newest_checkpoint. destruct (last_checkpoint_hint view) as [hint|e'] eqn:Eh.
  2: { intros [= ->]. revert Eh. unfold last_checkpoint_hint.
    by destruct (lv_last_checkpoint view) as [[[]|]|]; intros [= <-]. }
  set (from := match hint with Some _ => _ | None => _ end).
  destruct (listing view from) as [l|e'] eqn:E1; [|intros [= ->]; by eapply Hl].
  destruct (checkpoint_between from version l); [done|].
  destruct (from =? 0); [done|].
  destruct (listing view 0) as [l'|e'] eqn:E2; [done|intros [= ->]; by eapply Hl].
Qed.

Lemma read_err view app_ids below e below' :
  read view app_ids below = (Err e, below') → read_error e.
Proof.
  unfold read. case_decide; [done|].
  destruct (lv_version view) as [head|]; [|by intros [= <- _]].
  destruct (walk _ _ _ _) as [[found|e'] b] eqn:E; [done|]. intros [= -> _].
  revert E. unfold walk. destruct (lv_commit view head) as [hc|]; [|by intros [= <- _]].
  destruct (match hc with Some _ => _ | None => _ end) as [f|e'] eqn:Ef.
  2: { intros [= -> _]. destruct hc; [by eapply record_commit_err|done]. }
  destruct (all_found _ _ && _); [done|].
  destruct (newest_checkpoint view head) as [ck|e'] eqn:Eck.
  2: { intros [= -> _]. by eapply newest_checkpoint_err. }
  destruct (bool_decide (hc = None) && _); [by intros [= <- _]|].
  destruct (walk_commits _ _ _ _ _ _) as [f'|e'] eqn:Ew.
  2: { intros [= -> _]. by eapply walk_commits_err. }
  destruct (all_found _ f'); [done|]. destruct ck as [c|]; [|done].
  unfold finish_walk. destruct (checkpoint_txns _ _ _) as [txns|why].
  - destruct below as [memo|]; [|done]. case_decide; [done|].
    unfold below_checkpoint. destruct (recall _ _ _) as [a f'']. case_decide; [done|].
    destruct (below_walk _ _ _ _ _) as [r m] eqn:Eb. intros [= -> _]. by eapply below_walk_err.
  - destruct (kernel_lookups _ _ _) as [f''|e'] eqn:Ek.
    2: { intros [= -> _]. by eapply kernel_lookups_err. }
    destruct below as [memo|]; [|done]. case_decide; [done|].
    unfold below_checkpoint. destruct (recall _ _ _) as [a f3]. case_decide; [done|].
    destruct (below_walk _ _ _ _ _) as [r m] eqn:Eb. intros [= -> _]. by eapply below_walk_err.
Qed.

(** ** A readable log is read *)

Section Live.
Context (view : LogView) (H : Z → Commit) (head : Z).

(** The commits of versions [from..to] are there and parse. *)
Definition readable (from to : Z) : Prop :=
  ∀ v, from ≤ v ≤ to →
    lv_commit view v = Ok (Some (H v)) ∧ commit_lines (H v) None ≠ None.

Lemma record_commit_ok c wanted found :
  commit_lines c None ≠ None → ∃ found', record_commit c wanted found = Ok found'.
Proof.
  intros Hc. unfold record_commit. destruct (commit_lines c None) as [[ts info]|]; [|done]. eauto.
Qed.

Lemma walk_commits_ok wanted ck bottom vs found :
  (∀ v, v ∈ vs → lv_commit view v = Ok (Some (H v)) ∧ commit_lines (H v) None ≠ None) →
  ∃ found', walk_commits view wanted ck bottom vs found = Ok found'.
Proof.
  revert found; induction vs as [|v vs IH]; intros found Hvs; simpl; [eauto|].
  destruct (Hvs v) as [-> Hp]; [by left|].
  destruct (record_commit_ok (H v) wanted found Hp) as [f ->].
  destruct (all_found wanted f); [eauto|]. apply IH. intros u Hu. apply Hvs. by right.
Qed.

Lemma kernel_lookups_ok rest found :
  (∀ id, is_ok (lv_kernel view id) = true) →
  ∃ found', kernel_lookups view rest found = Ok found'.
Proof.
  intros Hk. revert found; induction rest as [|id rest IH]; intros found; simpl; [eauto|].
  specialize (Hk id). destruct (lv_kernel view id) as [[v|]|]; [apply IH..|done].
Qed.

Lemma below_walk_ok vs answered found memo :
  (∀ v, v ∈ vs → is_ok (lv_commit view v) = true) →
  ∃ found', (below_walk view vs answered found memo).1 = Ok found'.
Proof.
  revert answered found memo; induction vs as [|v vs IH]; intros answered found memo Hvs; simpl;
    [eauto|].
  pose proof (Hvs v ltac:(by left)) as Hv.
  destruct (lv_commit view v) as [[c|]|]; [|by eauto|done].
  destruct (record_commit _ _ _) as [met|]; [|eauto].
  destruct (meet met _) as [[a f] m]. case_decide; [by eauto|].
  apply IH. intros u Hu. apply Hvs. by right.
Qed.

Lemma finish_walk_ok wanted c found below :
  (∀ v, 0 ≤ v ≤ head → is_ok (lv_commit view v) = true) →
  (∀ id, is_ok (lv_kernel view id) = true) → 0 ≤ c_version c ≤ head →
  ∃ found', (finish_walk view wanted c found below).1 = Ok found'.
Proof.
  intros Hv Hk Hc. unfold finish_walk. set (answer := match checkpoint_txns _ _ _ with Ok _ => _ | Err _ => _ end).
  assert (∃ f, answer = Ok f) as [f ->].
  { unfold answer. destruct (checkpoint_txns _ _ _); [eauto|by apply kernel_lookups_ok]. }
  destruct below as [memo|]; [|by eauto]. case_decide; [by eauto|].
  unfold below_checkpoint. destruct (recall _ _ _) as [a f']. case_decide; [by eauto|].
  set (m := if decide _ then _ else _).
  match goal with |- context [below_walk view ?vs ?a ?f ?m] =>
    destruct (below_walk_ok vs a f m) as [f'' Hf];
    [|destruct (below_walk view vs a f m); simpl in *; eauto] end.
  intros v Hin%elem_of_rev%elem_of_seqZ. apply Hv. unfold u64_sat_sub in Hin. lia.
Qed.
End Live.

(** ** A concrete log: commit 0 has been cleaned up behind the checkpoint at 1 *)

Module Demo.
Definition txn_line (id : string) (v : Z) : option LogLine :=
  Some {| txn := Some {| t_app_id := id; t_version := v |}; commit_info := None |}.
Definition info_line : option LogLine :=
  Some {| txn := None; commit_info := Some {|
    ci_app_id := Some (V_String "t");
    ci_marks := Some (V_Object [("1"%string, V_Array [V_Number 7; V_Number 1700; V_Number 10])]) |} |}.

Definition commits : list Commit :=
  [ [txn_line "t-0" 5; txn_line "t-1" 6];
    [txn_line "t-0" 6];
    [info_line; txn_line "t-1" 7];
    [] ].
Definition H (v : Z) : Commit := if v <? 0 then [] else default [] (commits !! Z.to_nat v).

Definition checkpoint : ObjectMeta :=
  {| location := Some ["00000000000000000001.checkpoint.parquet"%string]; meta_size := 100;
     meta_key := 1 |}.

(** The checkpoint's [txn] column: a row of another action, and one of each appId. *)
Definition rows : TxnColumn :=
  TxnStruct [true; false; false] (Some (Texts [None; Some "t-0"%string; Some "t-1"%string]))
    (Some (Int64s [None; Some 6; Some 6])).

Definition view : LogView :=
  {| lv_url := "uri"; lv_version := Some 3; lv_configuration := [];
     lv_commit := λ v, Ok (if (1 <=? v) && (v <=? 3) then Some (H v) else None);
     lv_last_checkpoint := Ok None; lv_listing := λ _, Ok [checkpoint];
     lv_json := λ _, Err "it is not JSON"%string;
     lv_parquet := λ _, Ok (Some [rows]);
     lv_kernel := λ id, Ok (newest H 3 id) |}.

Definition in_checkpoint (id : string) : option Z :=
  if decide (id = "t-0"%string) then Some 6 else if decide (id = "t-1"%string) then Some 6 else None.

Lemma newest_1 id : newest H 1 id = in_checkpoint id.
Proof.
  unfold newest, newest_before.
  change (history H (1 + 1)) with [ {| t_app_id := "t-0"; t_version := 5 |};
    {| t_app_id := "t-1"; t_version := 6 |}; {| t_app_id := "t-0"; t_version := 6 |} ].
  unfold of_id, in_checkpoint. rewrite !filter_cons, filter_nil. simpl.
  destruct (decide (id = "t-0"%string)) as [->|]; [done|].
  destruct (decide (id = "t-1"%string)) as [->|]; [done|].
  by rewrite !decide_False by done.
Qed.

Lemma is_checkpoint file v kind json :
  stored view file → named file v kind json → kind = Single ∧ v = 1 ∧ json = false.
Proof.
  intros (_ & from & l & [= <-] & ->%list_elem_of_singleton) Hn.
  destruct (named_short checkpoint "00000000000000000001.checkpoint.parquet"
    v kind json eq_refl eq_refl Hn) as (-> & -> & Hv).
  vm_compute in Hv. by injection Hv as <-.
Qed.

Lemma rows_have file id x : file_has view file false id x ↔ in_checkpoint id = Some x.
Proof.
  unfold in_checkpoint. split.
  - intros (batches & batch & [= <-] & ->%list_elem_of_singleton & Hr).
    destruct Hr as (nulls & ids & versions & column & i & [= <- <- <-] & Hc & Hn & Hi & Hv).
    assert (versions = [None; Some 6; Some 6]) as -> by (by destruct Hc as [[= ->]|[= ]]).
    destruct i as [|[|[|i]]]; [done|..].
    + injection Hi as <-. by injection Hv as <-.
    + injection Hi as <-. by injection Hv as <-.
    + by destruct i.
  - intros Hx. eexists _, rows. split; [done|]. split; [by left|].
    assert (Hrow : ∀ i, ([true; false; false] !! i, [None; Some "t-0"%string; Some "t-1"%string] !! i,
      [None; Some 6; Some 6] !! i) = (Some false, Some (Some id), Some (Some x)) →
      row_has rows id x).
    { intros i [= ? ? ?]. eexists _, _, _, _, i. split; [done|]. by split; [left|]. }
    revert Hx. destruct (decide (id = "t-0"%string)) as [->|].
    + intros [= <-]. by apply (Hrow 1%nat).
    + destruct (decide (id = "t-1"%string)) as [->|]; [|done].
      intros [= <-]. by apply (Hrow 2%nat).
Qed.

Lemma view_views : views view H.
Proof.
  split.
  - simpl. intros v c. destruct (_ && _); congruence.
  - intros file v kind json id x Hf Hn. apply is_checkpoint in Hn as (-> & -> & ->); [|done].
    rewrite newest_1. by intros ->%rows_have.
  - intros file v kind json id x Hf Hn _. apply is_checkpoint in Hn as (-> & -> & ->); [|done].
    rewrite newest_1. intros Hx _. by apply rows_have.
  - intros files v parts id x Hp Hf. destruct (Hf 1) as (Hs & Hn & _); [lia|].
    by apply is_checkpoint in Hn as (? & _ & _).
  - intros file batches nulls ids column versions [= <-] [= -> -> ->]%list_elem_of_singleton.
    by intros [[= <-]|[= ]].
  - by intros head [= <-].
  - intros head id v [= <-]. by intros [= <-].
Qed.
End Demo.

(** ** Properties *)

(** C13: what [read_txns] answers is the log's replay: for every appId asked about, the
    version of its newest [txn] as of the handle's version, or none when the history holds
    none; never an older one.  A mark beside it is one the history recorded in a commit of
    that app_id beside exactly that offset.  Wherever the walk stops early, falls back to a
    checkpoint or the kernel, or goes below the checkpoint for marks. *)
Theorem read_txns_is_the_replay view H head app_ids found :
  views view H → lv_version view = Some head → read_txns view app_ids = Ok found →
  ∀ id, id ∈ app_ids →
    ∃ t, found !! id = Some t ∧ txn_version t = newest H head id ∧
      ∀ m, txn_mark t = Some m →
        newest H head id = Some (m_offset m) ∧ recorded H id (m_offset m) m.
Proof.
  intros Hv Hh. unfold read_txns. destruct (refuse_txn_retention view) as [[]|]; [|done].
  destruct (read view app_ids (Some below_default)) as [r b] eqn:E. simpl. intros ->.
  apply (read_right view H head) in E as [_ Hr]; [|done|done|apply memo_default_ok].
  intros id Hid. destruct (Hr id Hid) as (t & Ht & Hn & Hm). exists t.
  split; [done|]. split; [done|]. intros m Htm.
  destruct (Hm m Htm) as (v & Hvv & Hrec & <-). by rewrite <- Hn, Hvv.
Qed.

Lemma read_txns_is_the_replay_witness :
  ∃ found t, read_txns Demo.view ["t-0"; "t-1"; "t-2"]%string = Ok found ∧
    found !! "t-0"%string = Some t ∧ txn_version t = Some 6.
Proof.
  destruct (read_txns Demo.view ["t-0"; "t-1"; "t-2"]%string) as [found|] eqn:E;
    [|exfalso; revert E; vm_compute; congruence].
  destruct (read_txns_is_the_replay Demo.view Demo.H 3 ["t-0"; "t-1"; "t-2"]%string found
    Demo.view_views eq_refl E "t-0"%string ltac:(by left)) as (t & Ht & Hn & _).
  exists found, t. split; [reflexivity|]. split; [exact Ht|].
  rewrite Hn. vm_compute. reflexivity.
Defined.

(** A log that can be read is read: when every commit up to the handle's version is
    there and parses, the checkpoints can be listed and the kernel answers, [read_txns]
    answers, unless the target is refused for [delta.setTransactionRetentionDuration]. *)
Theorem readable_log_is_answered view H head app_ids :
  lv_version view = Some head → 0 ≤ head → readable view H 0 head →
  is_ok (newest_checkpoint view head) = true → (∀ id, is_ok (lv_kernel view id) = true) →
  match refuse_txn_retention view with
  | Ok _ => ∃ found, read_txns view app_ids = Ok found
  | Err e => read_txns view app_ids = Err e
  end.
Proof.
  intros Hh H0 Hread Hck Hk. unfold read_txns. destruct (refuse_txn_retention view); [|done].
  unfold read. case_decide; [by eexists|]. rewrite Hh.
  assert (Hcommits : ∀ v, 0 ≤ v ≤ head → is_ok (lv_commit view v) = true)
    by (intros v Hv; by destruct (Hread v Hv) as [-> _]).
  enough (∃ f, (walk view head (list_to_set app_ids) (Some below_default)).1 = Ok f) as [f Hf].
  { destruct (walk _ _ _ _) as [r b]. simpl in *. subst. by eexists. }
  unfold walk. destruct (Hread head) as [-> Hp]; [lia|].
  destruct (record_commit_ok (H head) (list_to_set app_ids) ∅ Hp) as [f ->].
  destruct (_ && _); [by eexists|].
  destruct (newest_checkpoint view head) as [ck|] eqn:Eck; [|done].
  rewrite (bool_decide_false (Some (H head) = None)) by done. simpl.
  assert (Hb : ∀ c, ck = Some c → 0 ≤ c_version c ≤ head).
  { intros c ->. by apply newest_checkpoint_range in Eck. }
  destruct (walk_commits_ok view H (list_to_set app_ids) ck
    match ck with Some c => c_version c | None => 0 end
    (rev (seqZ match ck with Some c => c_version c | None => 0 end
       (head - match ck with Some c => c_version c | None => 0 end))) f) as [f' ->].
  { intros v Hv%elem_of_rev%elem_of_seqZ. apply Hread.
    destruct ck as [c|]; [specialize (Hb c eq_refl)|]; lia. }
  destruct (all_found _ _); [by eexists|]. destruct ck as [c|]; [|by eexists].
  apply (finish_walk_ok view head); [done..|by apply Hb].
Qed.

Lemma readable_log_is_answered_witness :
  let view := {| lv_url := "uri"; lv_version := Some 0; lv_configuration := [];
                 lv_commit := λ v, Ok (Some (Demo.H 0)); lv_last_checkpoint := Ok None;
                 lv_listing := λ _, Ok []; lv_json := λ _, Ok [];
                 lv_parquet := λ _, Ok None; lv_kernel := λ _, Ok None |} in
  ∃ found, read_txns view ["t-0"]%string = Ok found.
Proof.
  intros view.
  apply (readable_log_is_answered view Demo.H 0 ["t-0"]%string); [reflexivity|lia| |reflexivity|done].
  intros v Hv. assert (v = 0) as -> by lia. split; [reflexivity|]. vm_compute. congruence.
Defined.
