(* ===== verification/Fence.v ===== *)
(** * Fence: the offsets one writer holds, and the [txn]s each of its commits carries
    (src/fence.rs, [Fence])

    The target is a [TxnLog.LogView] as of the handle's version.  The counters a fence adds
    to are left out.  [knows] is what a fence promises of a history: the offset of every
    carried partition is the newest one at the handle's version. *)

From Stdlib Require Import ZArith Lia.
From stdpp Require Import base list strings gmap sorting.
From S2P Require Import Prelude Error Partitions Takeover TxnLog TxnLogCorrect.

Open Scope Z_scope.

(** What one commit records (src/sink.rs). *)
Record KafkaOffsets := {
  o_topic : string;
  o_group_id : string;
  o_ranges : gmap Z (Z * Z);
  o_assert : gmap Z Z;
  o_marks : gmap Z MessageMark;
  o_cleanup_logs : bool;
  o_baseline : bool;
  o_override_reason : option string;
  o_takeover_marker : bool;
}.

Record Fence := {
  f_app_id : string;
  f_base : gmap Z (option Z * option MessageMark);
  f_carried : gset Z;
  f_marker : option bool;
  f_below : BelowCheckpoint;
}.

Definition fence_new (app_id : string) : Fence :=
  {| f_app_id := app_id; f_base := ∅; f_carried := ∅; f_marker := None;
     f_below := below_default |}.

Definition set_carried (c : gset Z) (f : Fence) : Fence :=
  {| f_app_id := f_app_id f; f_base := f_base f; f_carried := c; f_marker := f_marker f;
     f_below := f_below f |}.
Definition set_marker (m : option bool) (f : Fence) : Fence :=
  {| f_app_id := f_app_id f; f_base := f_base f; f_carried := f_carried f; f_marker := m;
     f_below := f_below f |}.
Definition set_base (b : gmap Z (option Z * option MessageMark)) (f : Fence) : Fence :=
  {| f_app_id := f_app_id f; f_base := b; f_carried := f_carried f; f_marker := f_marker f;
     f_below := f_below f |}.
Definition set_below (b : BelowCheckpoint) (f : Fence) : Fence :=
  {| f_app_id := f_app_id f; f_base := f_base f; f_carried := f_carried f;
     f_marker := f_marker f; f_below := b |}.

Definition fence_owned (f : Fence) : list Z := sorted_keys (f_base f).

Definition takeover_marker_due (f : Fence) : bool := bool_decide (f_marker f ≠ Some true).

Definition ids_to_read (f : Fence) (partitions : list Z) : list string :=
  (txn_app_id (f_app_id f) <$> partitions) ++
  (if takeover_marker_due f then [takeover_marker_app_id (f_app_id f)] else []).

Definition read_marker (txns : Found) (f : Fence) : Fence :=
  match txns !! takeover_marker_app_id (f_app_id f) with
  | Some t => set_marker (Some (bool_decide (is_Some (txn_version t)))) f
  | None => f
  end.

(** [Fence::base] *)
Definition base_of (f : Fence) (p : Z) : option (option Z * option MessageMark) := f_base f !! p.

(** What a read says of each partition. *)
Definition read_base (f : Fence) (owned : list Z) (txns : Found)
    : gmap Z (option Z * option MessageMark) :=
  list_to_map ((λ p,
    let t := default txn_default (txns !! txn_app_id (f_app_id f) p) in
    (p, (txn_version t, txn_mark t))) <$> owned).

(** Partitions held at an offset the table no longer has. *)
Definition vanished (f : Fence) (owned : list Z) (txns : Found) : list (Z * Z) :=
  omap (λ p : Z,
    held ← f_base f !! p ≫= fst;
    match txns !! txn_app_id (f_app_id f) p ≫= txn_version with
    | None => Some (p, held)
    | Some _ => None
    end) owned.

Definition is_retention (e : Error) : bool :=
  match e with KafkaTxnRetention _ _ => true | _ => false end.

Definition reset (view : LogView) (owned : list Z) (f : Fence) : Fence * result Error unit :=
  let ids := ids_to_read f owned in
  let '(r, below) := match refuse_txn_retention view with
                     | Ok _ => read view ids (Some (f_below f))
                     | Err e => (Err e, Some (f_below f))
                     end in
  let f := set_below (default (f_below f) below) f in
  match r with
  | Err e =>
      let f := set_carried ∅ f in
      (if bool_decide (f_marker f = Some false) || is_retention e then set_marker None f else f,
       Err e)
  | Ok txns =>
      let f := read_marker txns f in
      match vanished f owned txns with
      | [] => (set_carried (list_to_set owned) (set_base (read_base f owned txns) f), Ok tt)
      | gone => (set_carried ∅ f, Err (KafkaOffsetVanished (lv_url view) (f_app_id f) gone))
      end
  end.

(** The first partition whose offset in the table is not the one held. *)
Fixpoint first_fenced (f : Fence) (unverified : list Z) (txns : Found) : result Error unit :=
  match unverified with
  | [] => Ok tt
  | p :: rest =>
      let expected := f_base f !! p ≫= fst in
      let found := txns !! txn_app_id (f_app_id f) p ≫= txn_version in
      if decide (found = expected) then first_fenced f rest txns
      else Err (Fenced (f_app_id f) p expected found)
  end.

Definition verify (view : LogView) (ranges : gmap Z (Z * Z)) (f : Fence)
    : Fence * result Error unit :=
  let unverified := filter (λ p, p ∉ f_carried f) (sorted_keys ranges) in
  if bool_decide (unverified = []) && bool_decide (f_marker f ≠ None) then (f, Ok tt)
  else if existsb (λ p, bool_decide (f_base f !! p = None)) unverified
  then (f, Err (Other "a batch read a partition which this writer does not own"))
  else
    let ids := (txn_app_id (f_app_id f) <$> unverified) ++
      (if bool_decide (f_marker f = None) then [takeover_marker_app_id (f_app_id f)] else []) in
    match refuse_txn_retention view with
    | Err e => (set_marker None f, Err e)
    | Ok _ =>
        match (read view ids None).1 with
        | Err e => (f, Err e)
        | Ok txns =>
            let f := read_marker txns f in
            match first_fenced f unverified txns with
            | Err e => (f, Err e)
            | Ok _ => (set_carried (f_carried f ∪ list_to_set unverified) f, Ok tt)
            end
        end
    end.

(** A mark kept only where it describes the offset it sits beside. *)
Definition mark_at (offset : Z) (m : option MessageMark) : option MessageMark :=
  m ← m; if m_offset m =? offset then Some m else None.

(** A carried partition the batch did not read. *)
Definition kept (f : Fence) (ranges : gmap Z (Z * Z)) (p : Z) : bool :=
  bool_decide (p ∈ f_carried f) && bool_decide (ranges !! p = None).

Definition assert_map (ranges : gmap Z (Z * Z)) (marks : gmap Z MessageMark) (f : Fence)
    : gmap Z Z * gmap Z MessageMark :=
  ((snd <$> ranges) ∪
     map_imap (λ p '(b, _), if kept f ranges p then b else None) (f_base f),
   map_imap (λ p '(_, last), mark_at last (marks !! p)) ranges ∪
     map_imap (λ p '(b, mark), if kept f ranges p then b ← b; mark_at b mark else None)
       (f_base f)).

Definition committed (o : KafkaOffsets) (f : Fence) : Fence :=
  let f := if o_takeover_marker o then set_marker (Some true) f else f in
  set_carried (dom (o_assert o) ∩ dom (f_base f))
    (set_base (map_imap (λ p b,
       match o_assert o !! p with
       | Some v => Some (Some v, mark_at v (o_marks o !! p))
       | None => Some b
       end) (f_base f)) f).

Definition forget (p : Z) (f : Fence) : Fence :=
  set_carried (f_carried f ∖ {[p]}) (set_base (delete p (f_base f)) f).

(** ** The specification *)

Definition partition_id (p : Z) : Prop := 0 ≤ p ≤ i32_max.

(** The carried partitions are owned, their offsets are the newest at version [v], and
    every mark held is one recorded beside its offset. *)
Record knows (H : Z → Commit) (v : Z) (f : Fence) : Prop := {
  knows_carried p : p ∈ f_carried f →
    ∃ b, f_base f !! p = Some b ∧ b.1 = newest H v (txn_app_id (f_app_id f) p);
  knows_below : memo_ok H (f_below f);
}.

(** ** Lemmas *)

Lemma mark_at_Some o m mk : mark_at o m = Some mk ↔ m = Some mk ∧ m_offset mk = o.
Proof.
  unfold mark_at. split.
  - intros H. apply bind_Some in H as (x & -> & H).
    destruct (Z.eqb_spec (m_offset x) o); [|done]. by simplify_eq.
  - intros [-> <-]. simpl. by rewrite Z.eqb_refl.
Qed.

Lemma list_to_map_keys_lookup {A} (g : Z → A) (l : list Z) p :
  (list_to_map ((λ p, (p, g p)) <$> l) : gmap Z A) !! p =
  if decide (p ∈ l) then Some (g p) else None.
Proof.
  induction l as [|q l IH]; [done|]. csimpl. destruct (decide (q = p)) as [->|].
  - rewrite lookup_insert_eq. by rewrite decide_True by (by left).
  - rewrite lookup_insert_ne, IH by done.
    destruct (decide (p ∈ l)) as [Hl|Hl]; [by rewrite decide_True by (by right)|].
    rewrite decide_False; [done|]. intros [?|?]%elem_of_cons; by subst.
Qed.

Lemma elem_of_ids_to_read f owned p :
  p ∈ owned → txn_app_id (f_app_id f) p ∈ ids_to_read f owned.
Proof.
  intros Hp. unfold ids_to_read. apply elem_of_app. left. by apply list_elem_of_fmap_2.
Qed.

Lemma read_marker_same txns f :
  f_app_id (read_marker txns f) = f_app_id f ∧ f_base (read_marker txns f) = f_base f ∧
  f_carried (read_marker txns f) = f_carried f ∧ f_below (read_marker txns f) = f_below f.
Proof. unfold read_marker. by destruct (txns !! _). Qed.

Lemma read_base_lookup f owned txns p :
  read_base f owned txns !! p =
  if decide (p ∈ owned) then
    let t := default txn_default (txns !! txn_app_id (f_app_id f) p) in
    Some (txn_version t, txn_mark t)
  else None.
Proof.
  unfold read_base. apply (list_to_map_keys_lookup (λ p,
    let t := default txn_default (txns !! txn_app_id (f_app_id f) p) in
    (txn_version t, txn_mark t))).
Qed.

Section Fence.
Context (view : LogView) (H : Z → Commit) (Hview : views view H).
Context (head : Z) (Hhead : lv_version view = Some head).

Lemma reset_ok owned f f' :
  memo_ok H (f_below f) → reset view owned f = (f', Ok tt) →
  f_app_id f' = f_app_id f ∧ f_carried f' = list_to_set owned ∧ memo_ok H (f_below f') ∧
  (∀ p, p ∉ owned → f_base f' !! p = None) ∧
  ∀ p, p ∈ owned → ∃ mark,
    f_base f' !! p = Some (newest H head (txn_app_id (f_app_id f) p), mark) ∧
    (∀ m, mark = Some m →
      newest H head (txn_app_id (f_app_id f) p) = Some (m_offset m) ∧
      recorded H (txn_app_id (f_app_id f) p) (m_offset m) m) ∧
    (∀ o, f_base f !! p ≫= fst = Some o → newest H head (txn_app_id (f_app_id f) p) ≠ None).
Proof.
  intros Hmemo. unfold reset. destruct (refuse_txn_retention view); [|done].
  destruct (read view _ _) as [r below] eqn:E.
  apply (read_right view H head) in E as [Hb Hr]; [|done|done|exact Hmemo].
  destruct r as [txns|e]; [|done].
  set (f1 := set_below _ f). set (f2 := read_marker txns f1).
  destruct (read_marker_same txns f1) as (Ha & Hbase & _ & Hbelow). fold f2 in Ha, Hbase, Hbelow.
  destruct (vanished f2 owned txns) as [|x l] eqn:Ev; [|done].
  intros [= <-]. cbn [f_app_id f_carried f_below f_base set_carried set_base].
  split; [done|]. split; [done|]. split.
  { rewrite Hbelow. simpl. destruct below; [exact Hb|exact Hmemo]. }
  split.
  { intros p Hp. by rewrite read_base_lookup, decide_False. }
  intros p Hp. rewrite read_base_lookup, decide_True, Ha by done. cbn [f1 set_below f_app_id].
  destruct (Hr _ (elem_of_ids_to_read f owned p Hp)) as (t & Ht & Hn & Hm).
  rewrite Ht. simpl. rewrite Hn. exists (txn_mark t). split; [done|]. split.
  { intros m Htm. destruct (Hm m Htm) as (v & Hv & Hrec & <-). by rewrite <- Hn, Hv. }
  intros o Ho Hnone. assert (Hin : (p, o) ∈ vanished f2 owned txns).
  { unfold vanished. apply list_elem_of_omap. exists p. split; [done|].
    rewrite Hbase. cbn [f1 set_below f_base]. rewrite Ho. simpl.
    rewrite Ha. cbn [f1 set_below f_app_id]. rewrite Ht. simpl. by rewrite Hn, Hnone. }
  rewrite Ev in Hin. by apply not_elem_of_nil in Hin.
Qed.

(** A failed reset trusts nothing and forgets no offset. *)
Lemma reset_err owned f f' e :
  memo_ok H (f_below f) → reset view owned f = (f', Err e) →
  f_carried f' = ∅ ∧ f_base f' = f_base f ∧ f_app_id f' = f_app_id f ∧ memo_ok H (f_below f').
Proof.
  intros Hmemo. unfold reset.
  destruct (match refuse_txn_retention view with Ok _ => _ | Err _ => _ end) as [r below] eqn:E.
  assert (Hb : memo_ok H (default (f_below f) below)).
  { destruct (refuse_txn_retention view).
    - apply (read_right view H head) in E as [Hb _]; [|done|done|exact Hmemo].
      destruct below; [exact Hb|exact Hmemo].
    - by simplify_eq. }
  destruct r as [txns|e'].
  - set (f1 := set_below _ f). destruct (read_marker_same txns f1) as (Ha & Hbase & _ & Hbelow).
    destruct (vanished _ _ _); [done|]. intros [= <- _].
    cbn [set_carried f_carried f_base f_app_id f_below]. rewrite Hbase, Ha, Hbelow. done.
  - intros [= <- _]. by destruct (_ || _).
Qed.

Lemma first_fenced_spec f l txns :
  match first_fenced f l txns with
  | Ok _ => ∀ p, p ∈ l → txns !! txn_app_id (f_app_id f) p ≫= txn_version = f_base f !! p ≫= fst
  | Err e => ∃ p expected found, e = Fenced (f_app_id f) p expected found ∧ p ∈ l ∧
      expected = (f_base f !! p ≫= fst) ∧
      found = (txns !! txn_app_id (f_app_id f) p ≫= txn_version) ∧ found ≠ expected
  end.
Proof.
  induction l as [|q l IH]; simpl; [by intros p Hp%not_elem_of_nil|].
  case_decide as E.
  - destruct (first_fenced f l txns) as [?|e].
    + by intros p [->|Hp]%elem_of_cons; [|apply IH].
    + destruct IH as (p & x & y & He & Hp & Hrest). exists p, x, y.
      split; [done|]. split; [by right|done].
  - eexists _, _, _. split; [done|]. split; [by left|]. done.
Qed.
End Fence.

Lemma verify_spec view H head ranges f f' r :
  views view H → lv_version view = Some head → knows H head f →
  verify view ranges f = (f', r) →
  f_app_id f' = f_app_id f ∧ f_base f' = f_base f ∧ knows H head f' ∧
  match r with
  | Ok _ => f_carried f' = f_carried f ∪ dom ranges ∧
      ∀ p, is_Some (ranges !! p) → ∃ b, f_base f !! p = Some b ∧
        b.1 = newest H head (txn_app_id (f_app_id f) p)
  | Err (Fenced a p expected found) =>
      is_Some (ranges !! p) ∧ expected = (f_base f !! p ≫= fst) ∧ found ≠ expected ∧
      found = newest H head (txn_app_id (f_app_id f) p)
  | Err _ => True
  end.
Proof.
  intros Hview Hhead Hk. unfold verify. set (unv := filter _ (sorted_keys ranges)).
  assert (Hunv : ∀ p, p ∈ unv ↔ (p ∉ f_carried f) ∧ is_Some (ranges !! p)).
  { intros p. unfold unv. by rewrite list_elem_of_filter, sorted_keys_elem. }
  assert (Hkc : ∀ p, is_Some (ranges !! p) → p ∈ f_carried f → ∃ b, f_base f !! p = Some b ∧
    b.1 = newest H head (txn_app_id (f_app_id f) p)).
  { intros p _ Hp. by apply (knows_carried _ _ _ Hk). }
  destruct (bool_decide (unv = []) && _) eqn:E1.
  { intros [= <- <-]. apply andb_true_iff in E1 as [E1%bool_decide_eq_true _].
    assert (Hall : ∀ p, is_Some (ranges !! p) → p ∈ f_carried f).
    { intros p Hp. destruct (decide (p ∈ f_carried f)); [done|].
      assert (Hin : p ∈ unv) by (by apply Hunv). rewrite E1 in Hin. by apply not_elem_of_nil in Hin. }
    do 3 (split; [done|]). split; [|by eauto].
    apply set_eq. intros p. rewrite elem_of_union, elem_of_dom. specialize (Hall p). naive_solver. }
  destruct (existsb _ unv) eqn:E2; [by intros [= <- <-]|].
  destruct (refuse_txn_retention view) as [u|e] eqn:Er.
  2: { intros [= <- <-]. do 2 (split; [done|]). split; [|by destruct e; revert Er;
    unfold refuse_txn_retention; destruct (List.find _ _) as [[]|]].
    by destruct Hk. }
  destruct (read view _ None) as [r0 b0] eqn:Eread. simpl. pose proof Eread as Eread'.
  apply (read_right view H head) in Eread as [_ Hr]; [|done|done|done].
  destruct r0 as [txns|e].
  - set (f1 := read_marker txns f). destruct (read_marker_same txns f) as (Ha & Hb & Hc & Hbl).
    fold f1 in Ha, Hb, Hc, Hbl.
    assert (Htx : ∀ p, p ∈ unv →
      txns !! txn_app_id (f_app_id f) p ≫= txn_version = newest H head (txn_app_id (f_app_id f) p)).
    { intros p Hp. destruct (Hr (txn_app_id (f_app_id f) p)) as (t & -> & <- & _); [|done].
      apply elem_of_app. left. by apply list_elem_of_fmap_2. }
    assert (Hown : ∀ p, p ∈ unv → ∃ b, f_base f !! p = Some b).
    { intros p Hp. destruct (f_base f !! p) as [b|] eqn:Ep; [eauto|]. exfalso.
      enough (existsb (λ p, bool_decide (f_base f !! p = None)) unv = true) by congruence.
      apply existsb_exists. exists p. split; [by apply list_elem_of_In|].
      by apply bool_decide_eq_true. }
    pose proof (first_fenced_spec f1 unv txns) as Hff. rewrite Ha, Hb in Hff.
    destruct (first_fenced f1 unv txns) as [u'|e].
    + intros [= <- <-]. cbn [set_carried f_app_id f_base f_carried f_below].
      assert (Hnew : ∀ p, p ∈ unv → ∃ b, f_base f !! p = Some b ∧
        b.1 = newest H head (txn_app_id (f_app_id f) p)).
      { intros p Hp. destruct (Hown p Hp) as [b Hbp]. exists b. split; [done|].
        rewrite <- Htx, Hff, Hbp by done. done. }
      split; [done|]. split; [done|]. split.
      * split; cbn [set_carried f_carried f_base f_app_id f_below]; rewrite ?Hbl, ?Ha, ?Hb, ?Hc.
        -- intros p [Hp|Hp%elem_of_list_to_set]%elem_of_union; [by apply (knows_carried _ _ _ Hk)|by apply Hnew].
        -- by apply Hk.
      * rewrite Hc. split.
        -- apply set_eq. intros p. rewrite !elem_of_union, elem_of_list_to_set, Hunv, elem_of_dom.
           destruct (decide (p ∈ f_carried f)); naive_solver.
        -- intros p Hp. destruct (decide (p ∈ f_carried f)); [by apply Hkc|].
           by apply Hnew, Hunv.
    + intros [= <- <-]. split; [done|]. split; [done|]. split.
      * split; rewrite ?Hbl, ?Ha, ?Hb, ?Hc; [|by apply Hk]. apply (knows_carried _ _ _ Hk).
      * destruct Hff as (p & x & y & -> & Hp & -> & -> & Hne).
        rewrite Htx in * by done. apply Hunv in Hp as [_ Hp]. done.
  - intros [= <- <-]. do 3 (split; [done|]). apply read_err in Eread'. by destruct e.
Qed.

Lemma assert_map_lookup ranges marks f p :
  (assert_map ranges marks f).1 !! p =
  match ranges !! p with
  | Some (_, last) => Some last
  | None => if decide (p ∈ f_carried f) then f_base f !! p ≫= fst else None
  end.
Proof.
  unfold assert_map; simpl. rewrite lookup_union, lookup_fmap, map_lookup_imap.
  unfold kept; cbn beta. destruct (ranges !! p) as [[a b]|]; simpl.
  - rewrite andb_false_r.
    by destruct (f_base f !! p) as [[]|].
  - rewrite andb_true_r.
    destruct (f_base f !! p) as [[b m]|]; simpl; [|by case_decide].
    case_decide as Hp; [rewrite bool_decide_true by done; by destruct b|
      by rewrite bool_decide_false by done].
Qed.

Lemma assert_map_marks ranges marks f p m :
  (assert_map ranges marks f).2 !! p = Some m →
  (assert_map ranges marks f).1 !! p = Some (m_offset m) ∧
  (marks !! p = Some m ∨ ∃ b, f_base f !! p = Some (b, Some m)).
Proof.
  rewrite assert_map_lookup. unfold assert_map; simpl. rewrite lookup_union, !map_lookup_imap.
  unfold kept; cbn beta. intros Hm. apply union_Some in Hm as [Hm|[_ Hm]].
  - destruct (ranges !! p) as [[a b]|]; [|done]. simpl in Hm.
    apply mark_at_Some in Hm as [Hm <-]. by split; [|left].
  - destruct (f_base f !! p) as [[b mark]|]; [|done]. simpl in Hm.
    destruct (bool_decide (p ∈ f_carried f)) eqn:Hc; [|done].
    destruct (ranges !! p) as [[]|]; [done|]. simpl in Hm.
    apply bool_decide_eq_true in Hc. rewrite decide_True by done.
    destruct b as [b|]; [|done]. simpl in Hm. apply mark_at_Some in Hm as [-> <-]. eauto.
Qed.

Lemma committed_base o f p :
  f_base (committed o f) !! p =
  b ← f_base f !! p;
  match o_assert o !! p with
  | Some v => Some (Some v, mark_at v (o_marks o !! p))
  | None => Some b
  end.
Proof.
  unfold committed. cbn [set_carried f_base set_base]. rewrite map_lookup_imap.
  by destruct (o_takeover_marker o).
Qed.

Lemma committed_carried o f :
  f_carried (committed o f) = dom (o_assert o) ∩ dom (f_base f) ∧
  f_app_id (committed o f) = f_app_id f ∧ f_below (committed o f) = f_below f.
Proof. unfold committed. by destruct (o_takeover_marker o). Qed.

Lemma committed_base_asserted o f p v :
  o_assert o !! p = Some v → is_Some (f_base f !! p) →
  ∃ mark, f_base (committed o f) !! p = Some (Some v, mark).
Proof. intros Hp [b Hbp]. rewrite committed_base, Hbp. simpl. rewrite Hp. eauto. Qed.

Lemma committed_knows H v v' o f :
  knows H v f →
  (∀ p w, o_assert o !! p = Some w → newest H v' (txn_app_id (f_app_id f) p) = Some w) →
  knows H v' (committed o f).
Proof.
  intros Hk Hland. destruct (committed_carried o f) as (Hc & Ha & Hb).
  split; [|rewrite Hb; apply Hk].
  rewrite Hc, Ha. intros p [[w Hp]%elem_of_dom Hown%elem_of_dom]%elem_of_intersection.
  destruct (committed_base_asserted o f p w Hp Hown) as [mark Hm]. rewrite Hm.
  eexists. split; [done|]. symmetry. by apply Hland.
Qed.

(** ** A concrete fence over [TxnLogCorrect.Demo]'s log *)

Module FenceDemo.
Definition fence : Fence := (reset Demo.view [0; 1] (fence_new "t")).1.

Lemma fence_reset : reset Demo.view [0; 1] (fence_new "t") = (fence, Ok tt).
Proof. vm_compute. reflexivity. Qed.

Lemma fence_knows : knows Demo.H 3 fence.
Proof.
  pose proof fence_reset as E.
  destruct (reset_ok Demo.view Demo.H Demo.view_views 3 eq_refl [0; 1] (fence_new "t") fence
    (memo_default_ok Demo.H None) E) as (Ha & Hc & Hb & _ & Hown).
  split; [|done]. rewrite Hc. intros p Hp%elem_of_list_to_set.
  destruct (Hown p Hp) as (mark & Hbp & _). rewrite Ha. eexists. by split; [exact Hbp|].
Qed.

(** The log once a batch of partition 0 up to offset 9 has been committed at version 4. *)
Definition H4 (v : Z) : Commit :=
  if v =? 4 then [Demo.txn_line "t-0" 9; Demo.txn_line "t-1" 7] else Demo.H v.
Definition ranges : gmap Z (Z * Z) := {[ 0 := (7, 9) ]}.
Definition offsets : KafkaOffsets :=
  {| o_topic := "topic"; o_group_id := "g"; o_ranges := ranges;
     o_assert := (assert_map ranges ∅ fence).1; o_marks := (assert_map ranges ∅ fence).2;
     o_cleanup_logs := false; o_baseline := false; o_override_reason := None;
     o_takeover_marker := takeover_marker_due fence |}.

Lemma offsets_land p v :
  o_assert offsets !! p = Some v → newest H4 4 (txn_app_id (f_app_id fence) p) = Some v.
Proof.
  assert (E : o_assert offsets = {[ 0 := 9; 1 := 7 ]}) by (vm_compute; reflexivity).
  rewrite E. intros [[<- <-]|[_ [<- <-]%lookup_singleton_Some]]%lookup_insert_Some;
    vm_compute; reflexivity.
Qed.
End FenceDemo.

(** ** Properties *)

(** A reset knows the table: once it succeeds the fence owns exactly the partitions
    asked for and holds, of each, the newest offset of the table's history, with only a mark
    the history recorded beside that very offset; and it never succeeds where an offset the
    fence held has vanished from the table.  Once it fails nothing is carried, and no offset
    held is forgotten. *)
Theorem reset_reads_the_table view H head owned f f' r :
  views view H → lv_version view = Some head → memo_ok H (f_below f) →
  reset view owned f = (f', r) →
  let id := txn_app_id (f_app_id f) in
  match r with
  | Ok _ =>
      knows H head f' ∧ f_carried f' = list_to_set owned ∧
      (∀ p, p ∉ owned → f_base f' !! p = None) ∧
      ∀ p, p ∈ owned → ∃ mark, f_base f' !! p = Some (newest H head (id p), mark) ∧
        (∀ m, mark = Some m →
          newest H head (id p) = Some (m_offset m) ∧ recorded H (id p) (m_offset m) m) ∧
        (∀ o, (f_base f !! p ≫= fst) = Some o → newest H head (id p) ≠ None)
  | Err _ => f_carried f' = ∅ ∧ f_base f' = f_base f
  end.
Proof.
  intros Hv Hh Hm Hr id. destruct r as [[]|e].
  - apply (reset_ok view H Hv head Hh) in Hr as (Ha & Hc & Hb & Hno & Hown); [|done].
    split; [|done]. split; [|done]. rewrite Hc. intros p Hp%elem_of_list_to_set.
    destruct (Hown p Hp) as (mark & Hbp & _). rewrite Ha. eexists. by split; [exact Hbp|].
  - by apply (reset_err view H Hv head Hh) in Hr as (? & ? & _).
Qed.

Lemma reset_reads_the_table_witness :
  knows Demo.H 3 FenceDemo.fence ∧ f_carried FenceDemo.fence = list_to_set [0; 1].
Proof.
  destruct (reset_reads_the_table Demo.view Demo.H 3 [0; 1] (fence_new "t") FenceDemo.fence
    (Ok tt) Demo.view_views eq_refl (memo_default_ok Demo.H None) FenceDemo.fence_reset)
    as (Hk & Hc & _).
  split; [exact Hk|exact Hc].
Defined.

(** A commit's fence check is exact: when [verify] accepts a batch, the offset held of
    every partition the batch read is the newest one in the table at the snapshot the commit
    is planned from; when it answers [Fenced], the table really holds another one.  Either
    way it changes no offset, and what the fence knew still holds. *)
Theorem verify_is_exact view H head ranges f f' r :
  views view H → lv_version view = Some head → knows H head f →
  verify view ranges f = (f', r) →
  f_base f' = f_base f ∧ knows H head f' ∧
  match r with
  | Ok _ =>
      ∀ p, is_Some (ranges !! p) → ∃ b, f_base f !! p = Some b ∧
        b.1 = newest H head (txn_app_id (f_app_id f) p)
  | Err (Fenced a p expected found) =>
      is_Some (ranges !! p) ∧ found ≠ expected ∧ expected = (f_base f !! p ≫= fst) ∧
      found = newest H head (txn_app_id (f_app_id f) p)
  | Err _ => True
  end.
Proof.
  intros Hv Hh Hk Hr. destruct (verify_spec _ _ _ _ _ _ _ Hv Hh Hk Hr) as (_ & ? & ? & H4).
  split; [done|]. split; [done|]. destruct r as [u|[]]; naive_solver.
Qed.

Lemma verify_is_exact_witness :
  ∃ b, f_base FenceDemo.fence !! 0 = Some b ∧ b.1 = newest Demo.H 3 (txn_app_id "t" 0).
Proof.
  assert (E : verify Demo.view FenceDemo.ranges FenceDemo.fence = (FenceDemo.fence, Ok tt))
    by (vm_compute; reflexivity).
  apply (verify_is_exact Demo.view Demo.H 3 FenceDemo.ranges FenceDemo.fence FenceDemo.fence
    (Ok tt) Demo.view_views eq_refl FenceDemo.fence_knows E).
  by eexists.
Defined.

(** A commit carries everything its writer knows, and the fence follows it: each batch
    partition is asserted at the last offset it read, every other carried partition at the
    offset it has, nothing else; a mark only beside its own offset.  Once the commit has
    landed at version [v'] the fence holds exactly what the history does then, and carries
    just the partitions the commit asserted. *)
Theorem commit_keeps_the_fence H head v' f ranges marks o :
  knows H head f →
  (o_assert o, o_marks o) = assert_map ranges marks f →
  (∀ p v, o_assert o !! p = Some v → newest H v' (txn_app_id (f_app_id f) p) = Some v) →
  (∀ p, o_assert o !! p =
     match ranges !! p with
     | Some (_, last) => Some last
     | None => if decide (p ∈ f_carried f) then f_base f !! p ≫= fst else None
     end) ∧
  (∀ p m, o_marks o !! p = Some m → o_assert o !! p = Some (m_offset m)) ∧
  knows H v' (committed o f) ∧
  (∀ p, p ∈ f_carried (committed o f) ↔ is_Some (o_assert o !! p) ∧ is_Some (f_base f !! p)) ∧
  (∀ p v, o_assert o !! p = Some v → is_Some (f_base f !! p) →
     ∃ mark, f_base (committed o f) !! p = Some (Some v, mark)).
Proof.
  intros Hk Ho Hland. destruct (committed_carried o f) as (Hc & Ha & Hb).
  pose proof (committed_base_asserted o f) as Hbase.
  assert (Ho1 : o_assert o = (assert_map ranges marks f).1) by (by rewrite <- Ho).
  assert (Ho2 : o_marks o = (assert_map ranges marks f).2) by (by rewrite <- Ho).
  split; [intros p; rewrite Ho1; apply assert_map_lookup|].
  split; [intros p m; rewrite Ho1, Ho2; by intros [? _]%assert_map_marks|].
  split; [by eapply committed_knows|split; [|done]].
  intros p. by rewrite Hc, elem_of_intersection, !elem_of_dom.
Qed.

Lemma commit_keeps_the_fence_witness :
  knows FenceDemo.H4 4 (committed FenceDemo.offsets FenceDemo.fence) ∧
  o_assert FenceDemo.offsets !! 1 = Some 7.
Proof.
  assert (Hk : knows FenceDemo.H4 3 FenceDemo.fence).
  { destruct FenceDemo.fence_knows as [H1 _]. split; [exact H1|].
    assert (E : b_found (f_below FenceDemo.fence) = ∅)
      by (vm_compute; reflexivity).
    intros id v m. by rewrite E, lookup_empty. }
  destruct (commit_keeps_the_fence FenceDemo.H4 3 4 FenceDemo.fence FenceDemo.ranges ∅
    FenceDemo.offsets Hk eq_refl FenceDemo.offsets_land) as (Ha & _ & Hk' & _).
  split; [exact Hk'|]. rewrite Ha. vm_compute. reflexivity.
Defined.
