(* ===== verification/Start.v ===== *)
(** * Start: where each partition of a Kafka pipeline starts reading, and what an open
    decides (src/kafka/start.rs)

    A policy's map, the watermarks and the stored offsets are maps from partitions; text is
    a [string] of UTF-8 bytes, of which [chars] are its characters. *)

From Stdlib Require Import ZArith Lia Ascii.
From stdpp Require Import base list strings gmap sorting.
From S2P Require Import Prelude Json Error Partitions Takeover TxnLog.

Open Scope Z_scope.

(** ** Data *)

Inductive Start :=
  | S_Ready (offset : Z) (reread : option Reread)
  | S_Blocked (b : Block).

Inductive NamedStart := Earliest | Latest.

(** [StartPolicy] (src/config/kafka.rs): offsets are always the next one to read. *)
Inductive StartPolicy :=
  | P_Earliest
  | P_Latest
  | P_Explicit (partitions : gmap Z Z) (rest : option NamedStart).

Definition policy_partitions (p : StartPolicy) : option (gmap Z Z) :=
  match p with P_Explicit partitions _ => Some partitions | _ => None end.

(** ** Resolving one partition *)

Definition resolve (stored : option Z) (mark : option MessageMark) (low high : Z)
    (explicit : option Z) : Start :=
  match stored with
  | Some b =>
      let next := i64 (b + 1) in
      if next <? low then S_Blocked (B_Unavailable next low)
      else if next =? low then S_Ready next None
      else if high <=? b then S_Blocked (B_Regressed b high)
      else S_Ready b (Some
        match mark with
        | Some m => if m_offset m =? b then Expect m else Unverifiable b
        | None => Unverifiable b
        end)
  | None =>
      match start_without_offset low high explicit with
      | Explicit offset => S_Ready offset None
      | Zero => S_Ready 0 None
      | NT_Unavailable wanted low => S_Blocked (B_Unavailable wanted low)
      | NT_Regressed wanted high => S_Blocked (B_Regressed (i64 (wanted - 1)) high)
      end
  end.

(** ** A fresh app_id *)

Definition named (n : NamedStart) (w : Z * Z) : Z :=
  match n with Earliest => w.1 | Latest => w.2 end.

Definition fresh_starts (topic : string) (policy : StartPolicy) (watermarks : gmap Z (Z * Z))
    : result Error (gmap Z Z) :=
  match policy with
  | P_Earliest => Ok (named Earliest <$> watermarks)
  | P_Latest => Ok (named Latest <$> watermarks)
  | P_Explicit partitions rest =>
      let missing := filter (λ p, partitions !! p = None) (sorted_keys watermarks) in
      match rest, missing with
      | None, _ :: _ => Err (KafkaStartingOffsetsIncomplete topic missing)
      | _, _ =>
          Ok (map_imap (λ p w,
            match partitions !! p, rest with
            | Some s, _ => Some s
            | None, Some n => Some (named n w)
            | None, None => None
            end) watermarks)
      end
  end.

Definition fresh_baseline (starts : gmap Z Z) : option (gmap Z Z) :=
  let assert := (λ s, i64 (s - 1)) <$> filter (λ '(_, s), 0 < s) starts in
  if decide (assert = ∅) then None else Some assert.

(** ** The typo guard *)

(** The characters of a text: each byte that does not continue one starts the next. *)
Definition continues (a : ascii) : bool := let n := Ascii.nat_of_ascii a in
  bool_decide (128 ≤ n ∧ n < 192)%nat.
Definition chars (s : string) : list (list ascii) :=
  (foldr (λ a '(pend, cs), if continues a then (a :: pend, cs) else ([], (a :: pend) :: cs))
    ([], []) (String.list_ascii_of_string s)).2.

(** The inner loop over [b]'s characters: [prev] is the old [row[j]], [left] the new one,
    [rest] the old row from [j + 1] on; the new row from there. *)
Fixpoint row_step {A} `{EqDecision A} (ca : A) (b : list A) (prev left : nat) (rest : list nat)
    : list nat :=
  match b, rest with
  | cb :: b, cur :: rest =>
      let v := Nat.min (Nat.min (prev + if decide (ca = cb) then 0 else 1) (left + 1)) (cur + 1) in
      v :: row_step ca b cur v rest
  | _, _ => []
  end%nat.

Fixpoint rows {A} `{EqDecision A} (i : nat) (a b : list A) (row : list nat) : list nat :=
  match a, row with
  | ca :: a, prev :: rest => rows (S i) a b (S i :: row_step ca b prev (S i) rest)
  | _, _ => row
  end.

Definition distance {A} `{EqDecision A} (a b : list A) : nat :=
  default 0%nat (rows 0 a b (seq 0 (S (length b))) !! length b).

Definition edit_distance (a b : string) : nat := distance (chars a) (chars b).

Definition is_digits (s : string) : bool :=
  match parse_digits s with Some _ => true | None => false end.

(** [t.strip_suffix(".ddi")] *)
Definition strip_ddi (t : string) : option string :=
  let l := String.list_ascii_of_string t in
  let n := (length l - 4)%nat in
  if decide (String.string_of_list_ascii (drop n l) = ".ddi"%string)
  then Some (String.string_of_list_ascii (take n l)) else None.

(** What a [txn] says its app_id is. *)
Definition seen_app_id (t : string) : string :=
  match strip_ddi t with
  | Some a => a
  | None =>
      match rsplit_dash t with
      | Some (a, p) => if is_digits p then a else t
      | None => t
      end
  end.

Definition owned_by_a_neighbour (neighbours : list string) (t : string) : bool :=
  existsb (λ a, match partition_of a t with Some _ => true | None => false end
                || bool_decide (t = takeover_marker_app_id a)) neighbours.

(** By distance to the app_id, then by the text's bytes. *)
Definition seen_before (app_id a b : string) : Prop :=
  (edit_distance a app_id < edit_distance b app_id)%nat ∨
  (edit_distance a app_id = edit_distance b app_id ∧ String.leb a b = true).
#[export] Instance seen_before_dec app_id a b : Decision (seen_before app_id a b).
Proof. unfold seen_before. apply _. Defined.

Definition typo_guard (app_id target_uri : string) (data_files : Z) (explicit : bool)
    (app_ids : gset string) (neighbours : list string) : result Error unit :=
  if (data_files =? 0) || explicit then Ok tt
  else if bool_decide (app_ids ≠ ∅) && forallb (owned_by_a_neighbour neighbours) (elements app_ids)
  then Ok tt
  else
    let seen : gset string := list_to_set (seen_app_id <$> elements app_ids) in
    Err (KafkaAppIdUnknown app_id target_uri (merge_sort (seen_before app_id) (elements seen))).

(** ** Whether the target holds this topic's rows *)

(** A file's statistics: none, text that is not JSON, or a value. *)
Inductive FileStats := NoStats | BadStats | Stats (v : Value).

Definition bound (column which : string) (v : Value) : option string :=
  w ← get_key which v; b ← get_key column w; as_str b.

(** Whether the statistics show that a file holds no row of the topic. *)
Definition excludes (column topic : string) (s : FileStats) : bool :=
  match s with
  | Stats v =>
      match bound column "minValues" v, bound column "maxValues" v with
      | Some mn, Some mx =>
          if decide (32 ≤ length (chars mn) ∨ 32 ≤ length (chars mx))%nat then false
          else negb (String.leb mn topic && String.leb topic mx)
      | _, _ => false
      end
  | _ => false
  end.

(** [target_rows], given the files' statistics and whether the target has the column. *)
Definition target_rows (prefix topic : string) (has_column : bool) (files : list FileStats)
    : Z * bool :=
  let n := Z.of_nat (length files) in
  if n =? 0 then (0, false)
  else if negb has_column then (n, true)
  else (n, negb (forallb (excludes (String.append prefix "topic") topic) files)).

(** ** The open *)

Record OpenFacts := {
  of_app_id : string;
  of_topic : string;
  of_target_uri : string;
  of_stored : gmap Z (option Z);
  of_watermarks : gmap Z (Z * Z);
  of_era : Era;
  of_data_files : Z;
  of_holds_rows : bool;
  of_policy : StartPolicy;
  of_explicit : bool;
  of_kdi_compat : option bool;
  of_neighbours : list string;
  of_app_ids : gset string;
}.

Record OpenPlan := { plan_baseline : option (gmap Z Z); plan_kdi_compat : bool }.

Definition plan_open (f : OpenFacts) : result Error OpenPlan :=
  let explicit_entries := default ∅ (policy_partitions (of_policy f)) in
  let? _ := match of_era f with
            | EraFresh => typo_guard (of_app_id f) (of_target_uri f) (of_data_files f)
                            (of_explicit f) (of_app_ids f) (of_neighbours f)
            | _ => Ok tt
            end in
  let partitions := map_imap (λ p s,
    Some (s, match of_watermarks f !! p with Some w => w.2 | None => 0 end)) (of_stored f) in
  let? _ := takeover_check (of_app_id f) (of_era f) (of_holds_rows f) partitions
              (dom explicit_entries) in
  let may_be_kdis := match of_era f with
                     | EraKdi => true
                     | EraFresh => of_holds_rows f
                     | EraDdi => false
                     end in
  let? kdi_compat := match of_kdi_compat f with
                     | Some set => Ok set
                     | None =>
                         if may_be_kdis
                         then Err (KafkaCompatUnset (of_app_id f) (of_target_uri f)
                                     (bool_decide (of_era f = EraFresh)))
                         else Ok false
                     end in
  let? baseline := match of_era f with
                   | EraFresh =>
                       let? starts := fresh_starts (of_topic f) (of_policy f) (of_watermarks f) in
                       Ok (fresh_baseline starts)
                   | EraKdi => Ok (takeover_baseline (of_era f) (of_stored f) explicit_entries)
                   | EraDdi => Ok None
                   end in
  Ok {| plan_baseline := baseline; plan_kdi_compat := kdi_compat |}.

(** ** The edit distance, specified *)

(** [align a b n]: [a] becomes [b] by [n] insertions, deletions and replacements. *)
Inductive align {A} : list A → list A → nat → Prop :=
  | align_nil : align [] [] 0
  | align_keep x a b n : align a b n → align (x :: a) (x :: b) n
  | align_replace x y a b n : align a b n → align (x :: a) (y :: b) (S n)
  | align_delete x a b n : align a b n → align (x :: a) b (S n)
  | align_insert y a b n : align a b n → align a (y :: b) (S n).

(** The least number of edits. *)
Definition least {A} (a b : list A) (n : nat) : Prop :=
  align a b n ∧ ∀ m, align a b m → (n ≤ m)%nat.

Lemma align_app {A} (a b a' b' : list A) n m :
  align a b n → align a' b' m → align (a ++ a') (b ++ b') (n + m).
Proof. induction 1; intros H'; simpl; [done|constructor; auto..]. Qed.

Lemma align_rev {A} (a b : list A) n : align a b n → align (rev a) (rev b) n.
Proof.
  induction 1 as [|x a b n _ IH|x y a b n _ IH|x a b n _ IH|y a b n _ IH]; simpl; [constructor|..].
  - rewrite <- (Nat.add_0_r n). apply align_app; [done|]. repeat constructor.
  - rewrite <- Nat.add_1_r. apply align_app; [done|]. repeat constructor.
  - rewrite <- Nat.add_1_r, <- (app_nil_r (rev b)). apply align_app; [done|]. repeat constructor.
  - rewrite <- Nat.add_1_r, <- (app_nil_r (rev a)). apply align_app; [done|]. repeat constructor.
Qed.

Lemma least_rev {A} (a b : list A) n : least (rev a) (rev b) n → least a b n.
Proof.
  intros [H1 H2]. split.
  - apply align_rev in H1. by rewrite !rev_involutive in H1.
  - intros m Hm. by apply H2, align_rev.
Qed.

Lemma align_length {A} (a b : list A) n :
  align a b n → (length a ≤ length b + n ∧ length b ≤ length a + n)%nat.
Proof. induction 1; simpl; lia. Qed.

Lemma least_nil_l {A} (b : list A) : least [] b (length b).
Proof.
  split; [induction b; simpl; by constructor|]. intros m H%align_length. simpl in H. lia.
Qed.
Lemma least_nil_r {A} (a : list A) : least a [] (length a).
Proof.
  split; [induction a; simpl; by constructor|]. intros m H%align_length. simpl in H. lia.
Qed.

Lemma least_cons {A} `{EqDecision A} (x y : A) a b p q r :
  least a b p → least (x :: a) b q → least a (y :: b) r →
  least (x :: a) (y :: b)
    (Nat.min (Nat.min (p + if decide (x = y) then 0 else 1) (q + 1)) (r + 1)).
Proof.
  intros [P1 P2] [Q1 Q2] [R1 R2]. split.
  - assert (Hs : align (x :: a) (y :: b) (p + if decide (x = y) then 0 else 1)%nat).
    { destruct (decide (x = y)) as [->|].
      - rewrite Nat.add_0_r. by constructor.
      - rewrite Nat.add_1_r. by constructor. }
    assert (Hi : align (x :: a) (y :: b) (q + 1)%nat) by (rewrite Nat.add_1_r; by constructor).
    assert (Hd : align (x :: a) (y :: b) (r + 1)%nat) by (rewrite Nat.add_1_r; by constructor).
    destruct (Nat.min_dec (Nat.min (p + if decide (x = y) then 0 else 1) (q + 1)) (r + 1))
      as [->| ->]; [|done].
    destruct (Nat.min_dec (p + if decide (x = y) then 0 else 1) (q + 1)) as [->| ->]; done.
  - intros m Hm. inversion Hm as [|? ? ? ? H|? ? ? ? k H|? ? ? k H|? ? ? k H]; subst.
    + rewrite decide_True by done. specialize (P2 _ H). lia.
    + specialize (P2 _ H). destruct (decide (x = y)); lia.
    + specialize (R2 _ H). lia.
    + specialize (Q2 _ H). lia.
Qed.

Lemma row_step_spec {A} `{EqDecision A} (ca : A) b ra rb prev left rest :
  length rest = length b →
  least ra rb prev → least (ca :: ra) rb left →
  (∀ k n, rest !! k = Some n → least ra (rev (take (S k) b) ++ rb) n) →
  length (row_step ca b prev left rest) = length b ∧
  ∀ k n, row_step ca b prev left rest !! k = Some n →
    least (ca :: ra) (rev (take (S k) b) ++ rb) n.
Proof.
  revert rb prev left rest; induction b as [|cb b IH]; intros rb prev left [|cur rest] Hlen Hp Hl Hr;
    simplify_eq/=; [done|].
  pose proof (least_cons ca cb ra rb prev left cur Hp Hl (Hr 0%nat cur eq_refl)) as Hv.
  set (v := Nat.min _ _) in *.
  destruct (IH (cb :: rb) cur v rest Hlen (Hr 0%nat cur eq_refl) Hv) as [IH1 IH2].
  { intros k n Hk. specialize (Hr (S k) n Hk). simpl in Hr. by rewrite <- app_assoc in Hr. }
  split; [by rewrite IH1|]. intros [|k] n; simpl.
  - intros [= <-]. done.
  - intros Hk. rewrite <- app_assoc. by apply (IH2 k).
Qed.

Lemma rows_spec {A} `{EqDecision A} i (a b pre : list A) row :
  length pre = i → length row = S (length b) →
  (∀ j n, row !! j = Some n → least (rev pre) (rev (take j b)) n) →
  length (rows i a b row) = S (length b) ∧
  ∀ j n, rows i a b row !! j = Some n → least (rev (pre ++ a)) (rev (take j b)) n.
Proof.
  revert i pre row; induction a as [|ca a IH]; intros i pre row Hi Hlen Hrow.
  { simpl. rewrite app_nil_r. by destruct row. }
  destruct row as [|prev rest]; [done|]. simplify_eq/=.
  assert (Hleft : least (ca :: rev pre) [] (S (length pre))).
  { rewrite <- (length_rev pre). apply (least_nil_r (ca :: rev pre)). }
  destruct (row_step_spec ca b (rev pre) [] prev (S (length pre)) rest Hlen
    (Hrow 0%nat prev eq_refl) Hleft) as [H1 H2].
  { intros k n Hk. rewrite app_nil_r. by apply (Hrow (S k)). }
  replace (pre ++ ca :: a) with ((pre ++ [ca]) ++ a) by (by rewrite <- app_assoc).
  apply IH.
  - rewrite length_app. simpl. lia.
  - simpl. by rewrite H1.
  - rewrite rev_app_distr. intros [|j] n; simpl.
    + intros [= <-]. done.
    + intros Hj. specialize (H2 j n Hj). by rewrite app_nil_r in H2.
Qed.

Lemma distance_least {A} `{EqDecision A} (a b : list A) : least a b (distance a b).
Proof.
  unfold distance.
  destruct (rows_spec 0 a b [] (seq 0 (S (length b)))) as [H1 H2]; [done|by rewrite length_seq|..].
  { intros j n Hj. apply lookup_seq in Hj as [-> Hj]. simpl.
    assert (E : length (rev (take j b)) = j) by (rewrite length_rev, length_take; lia).
    rewrite <- E at 2. apply least_nil_l. }
  destruct (lookup_lt_is_Some_2 (rows 0 a b (seq 0 (S (length b)))) (length b)) as [n Hn]; [lia|].
  rewrite Hn. simpl. apply least_rev. specialize (H2 _ _ Hn). by rewrite take_ge in H2.
Qed.

(** ** Lemmas on the policy and the guards *)

(** Where a policy starts a partition. *)
Definition policy_start (policy : StartPolicy) (p : Z) (w : Z * Z) : option Z :=
  match policy with
  | P_Earliest => Some w.1
  | P_Latest => Some w.2
  | P_Explicit partitions rest =>
      match partitions !! p, rest with
      | Some s, _ => Some s
      | None, Some n => Some (named n w)
      | None, None => None
      end
  end.

Lemma fresh_starts_lookup topic policy wm starts p :
  fresh_starts topic policy wm = Ok starts → starts !! p = wm !! p ≫= policy_start policy p.
Proof.
  unfold fresh_starts. destruct policy as [| |partitions rest].
  - intros [= <-]. rewrite lookup_fmap. by destruct (wm !! p).
  - intros [= <-]. rewrite lookup_fmap. by destruct (wm !! p).
  - set (missing := filter _ _).
    destruct rest as [n|], missing; intros [= <-]; by rewrite map_lookup_imap.
Qed.

Lemma fresh_baseline_lookup starts p :
  default ∅ (fresh_baseline starts) !! p =
  s ← starts !! p; if 0 <? s then Some (i64 (s - 1)) else None.
Proof.
  unfold fresh_baseline. set (a := _ <$> _).
  assert (Ha : default ∅ (if decide (a = ∅) then None else Some a) = a) by (by case_decide).
  rewrite Ha. unfold a. rewrite lookup_fmap, map_lookup_filter.
  destruct (starts !! p) as [s|]; [|done]. simpl.
  destruct (Z.ltb_spec 0 s).
  - by rewrite option_guard_True.
  - rewrite option_guard_False by lia. done.
Qed.

Lemma ascii_compare_trans a b c o :
  Ascii.compare a b = o → Ascii.compare b c = o → o ≠ Eq → Ascii.compare a c = o.
Proof.
  unfold Ascii.compare. destruct o; [done|..]; rewrite ?N.compare_lt_iff, ?N.compare_gt_iff; lia.
Qed.

Lemma string_compare_trans_lt a b c :
  String.compare a b ≠ Gt → String.compare b c ≠ Gt → String.compare a c ≠ Gt.
Proof.
  revert b c; induction a as [|x a IH]; intros [|y b] [|z c]; simpl; try done.
  destruct (Ascii.compare x y) eqn:E1, (Ascii.compare y z) eqn:E2; try done.
  - apply Ascii.compare_eq_iff in E1, E2. subst.
    assert (Ascii.compare z z = Eq) as -> by apply N.compare_refl. apply IH.
  - apply Ascii.compare_eq_iff in E1. subst. by rewrite E2.
  - apply Ascii.compare_eq_iff in E2. subst. by rewrite E1.
  - by rewrite (ascii_compare_trans _ _ _ _ E1 E2).
Qed.

Lemma leb_ngt a b : String.leb a b = true ↔ String.compare a b ≠ Gt.
Proof. unfold String.leb. by destruct (String.compare a b). Qed.

Lemma leb_total a b : String.leb a b = true ∨ String.leb b a = true.
Proof.
  rewrite !leb_ngt, (String.compare_antisym b a). destruct (String.compare a b); simpl; auto.
Qed.

#[export] Instance seen_before_trans app_id : Transitive (seen_before app_id).
Proof.
  intros a b c [?|[? H1]] [?|[? H2]]; unfold seen_before; try (left; lia).
  right. split; [lia|]. rewrite leb_ngt in *. by eapply string_compare_trans_lt.
Qed.

#[export] Instance seen_before_total app_id : Total (seen_before app_id).
Proof.
  intros a b. unfold seen_before.
  destruct (Nat.lt_trichotomy (edit_distance a app_id) (edit_distance b app_id)) as [?|[?|?]];
    [by left; left| |by right; left].
  destruct (leb_total a b); [left|right]; right; by split; [lia|].
Qed.

(** What the refusal names. *)
Lemma seen_spec app_id uri (app_ids : gset string) :
  ∃ seen,
    KafkaAppIdUnknown app_id uri (merge_sort (seen_before app_id)
      (elements (list_to_set (seen_app_id <$> elements app_ids) : gset string))) =
    KafkaAppIdUnknown app_id uri seen ∧ NoDup seen ∧
    StronglySorted (seen_before app_id) seen ∧
    ∀ a, a ∈ seen ↔ ∃ t, t ∈ app_ids ∧ a = seen_app_id t.
Proof.
  eexists. split; [done|]. split; [|split].
  - rewrite merge_sort_Permutation. apply NoDup_elements.
  - apply StronglySorted_merge_sort; apply _.
  - intros a. rewrite merge_sort_Permutation, elem_of_elements, elem_of_list_to_set,
      list_elem_of_fmap. setoid_rewrite elem_of_elements. naive_solver.
Qed.

(** ** Properties *)

(** A partition starts exactly where it should: at the offset after its stored one, or
    without one at its explicit entry or 0; so that the first message taken is that one.
    It is blocked exactly when the topic does not hold that position any more (unavailable)
    or yet (regressed), and the block names it. *)
Theorem resolve_starts_at_the_next_offset stored mark low high explicit :
  0 ≤ low ≤ high → high ≤ i64_max →
  from_option (λ b, 0 ≤ b < i64_max) True stored →
  from_option (λ e, in_i64 (e - 1)) True explicit →
  let wanted := match stored with Some b => b + 1 | None => default 0 explicit end in
  match resolve stored mark low high explicit with
  | S_Ready offset reread =>
      low ≤ wanted ≤ high ∧ ∀ now, lower (Some (Ready offset offset reread now)) = wanted
  | S_Blocked (B_Unavailable w l) => w = wanted ∧ l = low ∧ wanted < low
  | S_Blocked (B_Regressed b h) => b = wanted - 1 ∧ h = high ∧ high < wanted
  | S_Blocked _ => False
  end.
Proof.
  intros Hl Hh Hs He wanted. unfold resolve, wanted. destruct stored as [b|]; simpl in *.
  - rewrite i64_small by width_lia.
    destruct (Z.ltb_spec (b + 1) low); [lia|].
    destruct (Z.eqb_spec (b + 1) low); [split; [lia|done]|].
    destruct (Z.leb_spec high b); [lia|]. split; [lia|]. intros _.
    destruct mark as [m|]; [|done]. destruct (Z.eqb_spec (m_offset m) b); simpl; lia.
  - unfold start_without_offset. destruct explicit as [e|]; simpl in *.
    + destruct (Z.ltb_spec e low); [done|]. destruct (Z.ltb_spec high e); [|done].
      by rewrite i64_small.
    + destruct (Z.eqb_spec low 0); [|lia]. split; [lia|done].
Qed.

Lemma resolve_starts_at_the_next_offset_witness :
  resolve (Some 41) None 10 100 None = S_Ready 41 (Some (Unverifiable 41)) ∧
  10 ≤ 42 ≤ 100.
Proof.
  assert (Hl : 0 ≤ 10 ≤ 100) by lia. assert (Hh : 100 ≤ i64_max) by width_lia.
  assert (Hs : 0 ≤ 41 < i64_max) by width_lia.
  assert (E : resolve (Some 41) None 10 100 None = S_Ready 41 (Some (Unverifiable 41)))
    by reflexivity.
  split; [exact E|].
  pose proof (resolve_starts_at_the_next_offset (Some 41) None 10 100 None Hl Hh Hs I) as H.
  rewrite E in H. exact (proj1 H).
Defined.

(** A fresh start is kept by the baseline that records it: whatever start the policy
    gives a partition inside its topic, a later open that reads the baseline's offset (or
    finds none, for a start at 0) starts it there, with no [starting_offsets] at all. *)
Theorem fresh_start_survives_its_baseline topic policy wm starts p low high s :
  fresh_starts topic policy wm = Ok starts → wm !! p = Some (low, high) →
  policy_start policy p (low, high) = Some s → 0 ≤ low ≤ s → s ≤ high → high ≤ i64_max →
  ∃ offset reread,
    resolve (default ∅ (fresh_baseline starts) !! p) None low high None = S_Ready offset reread ∧
    ∀ now, lower (Some (Ready offset offset reread now)) = s.
Proof.
  intros Hf Hp Hs Hl Hh Hm. apply (fresh_starts_lookup _ _ _ _ p) in Hf.
  rewrite Hp in Hf. simpl in Hf. rewrite Hs in Hf.
  rewrite fresh_baseline_lookup, Hf. simpl. unfold resolve.
  destruct (Z.ltb_spec 0 s).
  - rewrite !i64_small by (rewrite ?i64_small by width_lia; width_lia).
    replace (s - 1 + 1) with s by lia.
    destruct (Z.ltb_spec s low); [lia|]. destruct (Z.eqb_spec s low); [by eexists _, _|].
    destruct (Z.leb_spec high (s - 1)); [lia|]. eexists _, _. split; [done|]. simpl. lia.
  - assert (s = 0) as -> by lia. assert (low = 0) as -> by lia. simpl. by eexists _, _.
Qed.

Lemma fresh_start_survives_its_baseline_witness :
  ∃ offset reread,
    resolve (default ∅ (fresh_baseline {[ 0 := 7 ]}) !! 0) None 3 9 None = S_Ready offset reread ∧
    ∀ now, lower (Some (Ready offset offset reread now)) = 7.
Proof.
  apply (fresh_start_survives_its_baseline "t" (P_Explicit {[ 0 := 7 ]} None) {[ 0 := (3, 9) ]}
    {[ 0 := 7 ]} 0 3 9 7); [reflexivity|reflexivity|reflexivity|lia|lia|width_lia].
Defined.

(** The suggestion's distance is the edit distance: [edit_distance] is the least number
    of characters to insert, delete or replace to turn one name into the other. *)
Theorem edit_distance_is_the_least_edit a b : least (chars a) (chars b) (edit_distance a b).
Proof. apply distance_least. Qed.

(** The typo guard lets a fresh app_id through exactly when the target has no data, the
    pipeline names its own starts, or every [txn] there is a configured neighbour's (and
    there is one); otherwise it names every app_id the target holds, the nearest first. *)
Theorem typo_guard_is_exact app_id uri data_files explicit app_ids neighbours :
  match typo_guard app_id uri data_files explicit app_ids neighbours with
  | Ok _ =>
      data_files = 0 ∨ explicit = true ∨
      (app_ids ≠ ∅ ∧ ∀ t, t ∈ app_ids → ∃ a, a ∈ neighbours ∧
         (is_Some (partition_of a t) ∨ t = takeover_marker_app_id a))
  | Err e =>
      data_files ≠ 0 ∧ explicit = false ∧
      (app_ids = ∅ ∨ ∃ t, t ∈ app_ids ∧ ∀ a, a ∈ neighbours →
         partition_of a t = None ∧ t ≠ takeover_marker_app_id a) ∧
      ∃ seen, e = KafkaAppIdUnknown app_id uri seen ∧ NoDup seen ∧
        StronglySorted (seen_before app_id) seen ∧
        ∀ a, a ∈ seen ↔ ∃ t, t ∈ app_ids ∧ a = seen_app_id t
  end.
Proof.
  assert (Howner : ∀ t, owned_by_a_neighbour neighbours t = true ↔
    ∃ a, a ∈ neighbours ∧ (is_Some (partition_of a t) ∨ t = takeover_marker_app_id a)).
  { intros t. unfold owned_by_a_neighbour. rewrite existsb_exists.
    split; intros (a & Ha & Hp); exists a; rewrite list_elem_of_In in *; split; try done.
    - apply orb_true_iff in Hp as [Hp|Hp%bool_decide_eq_true]; [|by right].
      left. by destruct (partition_of a t).
    - apply orb_true_iff. destruct Hp as [[? ->]| ->]; [by left|right; by apply bool_decide_eq_true]. }
  unfold typo_guard. destruct (Z.eqb_spec data_files 0); [by left|].
  destruct explicit; simpl; [by right; left|].
  destruct (bool_decide (app_ids ≠ ∅)) eqn:Ene; simpl;
    [destruct (forallb _ _) eqn:Eall|].
  - right; right. apply bool_decide_eq_true in Ene. split; [done|]. intros t Ht.
    rewrite forallb_forall in Eall. apply Howner, Eall. rewrite <- list_elem_of_In.
    by apply elem_of_elements.
  - do 2 (split; [done|]). split; [right|apply seen_spec].
    apply forallb_false in Eall as (t & Ht%elem_of_elements & Eo). exists t.
    split; [done|]. intros a Ha.
    assert (Hn : ¬ (is_Some (partition_of a t) ∨ t = takeover_marker_app_id a)).
    { intros Hor. enough (owned_by_a_neighbour neighbours t = true) by congruence.
      apply Howner. by exists a. }
    split; [|naive_solver]. destruct (partition_of a t); [|done]. exfalso. apply Hn. by left.
  - do 2 (split; [done|]). split; [|apply seen_spec].
    left. by apply bool_decide_eq_false, dec_stable in Ene.
Qed.

(** A file's rows: its statistics, and the topics its rows hold. *)
Definition stats_true (column : string) (file : FileStats * list string) : Prop :=
  ∀ v, file.1 = Stats v →
    (∀ mn, bound column "minValues" v = Some mn → (length (chars mn) < 32)%nat →
       ∀ t, t ∈ file.2 → String.leb mn t = true) ∧
    (∀ mx, bound column "maxValues" v = Some mx → (length (chars mx) < 32)%nat →
       ∀ t, t ∈ file.2 → String.leb t mx = true).

(** A target said to hold none of this topic's rows holds none: where every bound that
    was not truncated really bounds its file's values, no file of a target that
    [target_rows] clears has a row of the topic. *)
Theorem target_rows_clears_only_other_topics prefix topic has_column files n :
  Forall (stats_true (String.append prefix "topic")) files →
  target_rows prefix topic has_column files.*1 = (n, false) →
  Forall (λ f, topic ∉ f.2) files.
Proof.
  intros Ht. unfold target_rows. destruct (_ =? 0) eqn:E0.
  { intros _. apply Z.eqb_eq in E0. destruct files; [constructor|]. simpl in E0. lia. }
  destruct has_column; simpl; [|done]. intros [= _ Hall%negb_false_iff].
  rewrite forallb_forall in Hall. rewrite Forall_forall in *. intros [s rows] Hin Hrow.
  specialize (Ht _ Hin). specialize (Hall s). rewrite <- list_elem_of_In in Hall.
  specialize (Hall ltac:(by apply (list_elem_of_fmap_2 fst) in Hin)).
  unfold excludes in Hall. destruct s as [| |v]; try done.
  destruct (Ht v eq_refl) as [Hmin Hmax]. simpl in Hrow, Hmin, Hmax.
  destruct (bound _ "minValues" v) as [mn|]; [|done].
  destruct (bound _ "maxValues" v) as [mx|]; [|done].
  case_decide as Hlen; [done|]. apply negb_true_iff in Hall.
  rewrite (Hmin mn), (Hmax mx) in Hall; done || lia.
Qed.

Lemma target_rows_clears_only_other_topics_witness :
  let v := V_Object [("minValues"%string, V_Object [("kafka_topic"%string, V_String "orders")]);
                     ("maxValues"%string, V_Object [("kafka_topic"%string, V_String "orders")])] in
  Forall (λ f : FileStats * list string, "clicks"%string ∉ f.2) [(Stats v, ["orders"%string])].
Proof.
  intros v. apply (target_rows_clears_only_other_topics "kafka_" "clicks" true
    [(Stats v, ["orders"%string])] 1); [|vm_compute; reflexivity].
  constructor; [|constructor]. intros v' [= <-].
  split; intros x Hx _ t ->%list_elem_of_singleton; vm_compute in Hx; injection Hx as <-; reflexivity.
Defined.
