(* ===== verification/SetOffsets.v ===== *)
(** * SetOffsets: moving a pipeline's offsets by hand, and an operator's view of a partition
    (src/kafka/setoffsets.rs, [PartitionStatus] of src/kafka/tools.rs)

    Reading the topic and the target, committing and checkpointing are functions of the
    attempt, so that a concurrent writer can change anything between two attempts. *)

From Stdlib Require Import ZArith Lia.
From stdpp Require Import base list strings gmap sorting.
From S2P Require Import Prelude Error Partitions Takeover TxnLog Fence Start.

Open Scope Z_scope.

Definition ATTEMPTS : nat := 5.

(** ** A partition's status *)

Record PartitionStatus := { partition : Z; stored : option Z; low : Z; high : Z }.

Definition lag (s : PartitionStatus) : Z :=
  let next := match stored s with Some v => i64 (v + 1) | None => Z.max (low s) 0 end in
  Z.max (i64 (high s - next)) 0.

Definition verdict (s : PartitionStatus) : string :=
  match stored s with
  | Some b =>
      if i64 (b + 1) <? low s then "RETENTION_GAP"
      else if high s <=? b then "REGRESSED"
      else "OK"
  | None => if low s =? 0 then "NO_TXN->offset 0" else "NO_TXN->blocked"
  end.

(** ** The decision *)

Record Request := {
  moves : gmap Z Z;
  reassert : bool;
  acknowledge_skip : option string;
  allow_replay : bool;
}.

Record Decision := {
  d_assert : gmap Z Z;
  d_override_reason : option string;
  d_backward : bool;
}.

Definition refuse {A} (why : string) : result Error A := Err (Other why).

(** The status of a partition; a later duplicate replaces an earlier one. *)
Definition by_partition (ps : list PartitionStatus) : gmap Z PartitionStatus :=
  fold_left (λ m p, <[partition p := p]> m) ps ∅.

(** One named move: what it adds to the commit, and whether it skips or goes back. *)
Definition decide_move (s : PartitionStatus) (next : Z) (request : Request)
    : result Error (option Z * bool * bool) :=
  if next <? 0 then refuse "--next is negative"
  else if next =? 0 then
    match stored s with
    | Some _ => refuse "--next 0 would have to remove the offset"
    | None => Ok (None, false, false)
    end
  else if high s <? next then refuse "--next is past the end of the topic"
  else
    let current_next := match stored s with Some v => i64 (v + 1) | None => 0 end in
    match Z.compare next current_next with
    | Eq => Ok (Some (i64 (next - 1)), false, false)
    | Gt =>
        if Z.max current_next (low s) <? next then
          match acknowledge_skip request with
          | None => refuse "--next skips offsets that the topic still holds"
          | Some _ => Ok (Some (i64 (next - 1)), true, false)
          end
        else Ok (Some (i64 (next - 1)),
                 match acknowledge_skip request with Some _ => true | None => false end, false)
    | Lt =>
        if negb (allow_replay request) then refuse "--next is behind its next offset"
        else if next <? low s then refuse "--next is below the topic's first offset"
        else Ok (Some (i64 (next - 1)), false, true)
    end.

(** The moves, in partition order. *)
Fixpoint decide_moves (statuses : gmap Z PartitionStatus) (request : Request)
    (ps : list Z) (acc : gmap Z Z * bool * bool) : result Error (gmap Z Z * bool * bool) :=
  match ps with
  | [] => Ok acc
  | p :: ps =>
      let '(assert, skips, backward) := acc in
      match statuses !! p, moves request !! p with
      | None, _ => refuse "the topic has no such partition"
      | _, None => decide_moves statuses request ps acc
      | Some s, Some next =>
          match decide_move s next request with
          | Err e => Err e
          | Ok (v, skip, back) =>
              decide_moves statuses request ps
                (match v with Some v => <[p := v]> assert | None => assert end,
                 skips || skip, backward || back)
          end
      end
  end.

Definition decide_request (partitions : list PartitionStatus) (e : Era) (request : Request)
    : result Error Decision :=
  if decide (e = EraFresh) then refuse "this app_id has no offsets in the target"
  else if reassert request then
    if bool_decide (moves request ≠ ∅) then refuse "--reassert takes no --partition"
    else
      let assert : gmap Z Z := fold_left (λ m p,
        match stored p with Some s => <[partition p := s]> m | None => m end) partitions ∅ in
      if decide (assert = ∅) then refuse "no partition has an offset to reassert"
      else Ok {| d_assert := assert; d_override_reason := None; d_backward := false |}
  else if decide (moves request = ∅) then refuse "name a partition"
  else
    let? acc := decide_moves (by_partition partitions) request (sorted_keys (moves request))
                  (∅, false, false) in
    let '(assert, skips, backward) := acc in
    if decide (assert = ∅) then refuse "nothing to write"
    else Ok {| d_assert := assert;
               d_override_reason := if (skips : bool) then acknowledge_skip request else None;
               d_backward := backward |}.

(** ** The attempts *)

Record Outcome := {
  o_version : Z;
  o_moved : gmap Z (option Z * Z);
  o_checkpointed : bool;
}.

Definition is_conflict (e : Error) : bool :=
  match e with Delta (D_Transaction (T_CommitConflict | T_VersionAlreadyExists)) => true | _ => false end.

(** What the world answers to one attempt. *)
Record World := {
  w_view : result Error (list PartitionStatus * Era);
  w_commit : KafkaOffsets → result Error Z;
  w_checkpoint : result Error unit;
  (** The offsets read at the new head after the checkpoint. *)
  w_read_back : result Error (gmap Z Z);
}.

Definition offsets_of (topic : string) (d : Decision) : KafkaOffsets :=
  {| o_topic := topic; o_group_id := "set-offsets"; o_ranges := ∅; o_assert := d_assert d;
     o_marks := ∅; o_cleanup_logs := false; o_baseline := false;
     o_override_reason := d_override_reason d; o_takeover_marker := false |}.

Definition verify_after_checkpoint (w : World) (wanted : gmap Z Z) : result Error unit :=
  let? read := w_read_back w in
  if forallb (λ '(p, v), bool_decide (read !! p = Some v)) (map_to_list wanted) then Ok tt
  else refuse "the move did not hold after its checkpoint".

Definition moved_of (partitions : list PartitionStatus) (assert : gmap Z Z)
    : gmap Z (option Z * Z) :=
  map_imap (λ p after,
    Some (List.find (λ x, partition x =? p) partitions ≫= stored, after)) assert.

Fixpoint attempts (topic : string) (request : Request) (world : nat → World) (n tries : nat)
    (backward : bool) (last : option Error) : result Error Outcome :=
  match tries with
  | O => Err (default (Other "set-offsets: no attempt was made") last)
  | S tries =>
      let w := world n in
      let? view := w_view w in
      let '(partitions, e) := view in
      let? d := decide_request partitions e request in
      let backward := backward || d_backward d in
      match w_commit w (offsets_of topic d) with
      | Ok version =>
          let done := Ok {| o_version := version; o_moved := moved_of partitions (d_assert d);
                            o_checkpointed := backward |} in
          if backward then
            let? _ := w_checkpoint w in
            let? _ := verify_after_checkpoint w (d_assert d) in
            done
          else done
      | Err e =>
          if is_conflict e && negb (Nat.eqb tries 0)
          then attempts topic request world (S n) tries backward (Some e)
          else Err e
      end
  end.

Definition set_offsets (topic : string) (request : Request) (world : nat → World)
    : result Error Outcome := attempts topic request world 0 ATTEMPTS false None.

(** ** Lemmas *)

(** Whether the topic still holds an offset between the current position and [next]. *)
Definition current_next (s : PartitionStatus) : Z :=
  match stored s with Some v => v + 1 | None => 0 end.
Definition skips_held (s : PartitionStatus) (next : Z) : Prop :=
  Z.max (current_next s) (low s) < next.

Definition status_ok (s : PartitionStatus) : Prop :=
  from_option (λ v, 0 ≤ v < i64_max) True (stored s) ∧ high s ≤ i64_max.

Lemma decide_move_spec s next request v skip back :
  status_ok s → decide_move s next request = Ok (v, skip, back) →
  (next = 0 ∧ stored s = None ∧ v = None ∧ skip = false ∧ back = false) ∨
  (0 < next ≤ high s ∧ v = Some (next - 1) ∧
   (skips_held s next → is_Some (acknowledge_skip request) ∧ skip = true) ∧
   (skip = true → current_next s < next ∧ is_Some (acknowledge_skip request)) ∧
   (back = true ↔ next < current_next s) ∧
   (back = true → allow_replay request = true ∧ low s ≤ next)).
Proof.
  intros [Hs Hh]. unfold decide_move.
  assert (Hc : match stored s with Some v => i64 (v + 1) | None => 0 end = current_next s).
  { unfold current_next. destruct (stored s) as [x|]; [|done]. simpl in Hs.
    apply i64_small. width_lia. }
  rewrite Hc. clear Hc. unfold skips_held.
  destruct (Z.ltb_spec next 0); [done|]. destruct (Z.eqb_spec next 0).
  { destruct (stored s); [done|]. intros [= <- <- <-]. by left. }
  destruct (Z.ltb_spec (high s) next); [done|]. rewrite i64_small by width_lia.
  destruct (Z.compare_spec next (current_next s)).
  - intros [= <- <- <-]. right. repeat split; try done; lia.
  - destruct (allow_replay request); [simpl|done]. destruct (Z.ltb_spec next (low s)); [done|].
    intros [= <- <- <-]. right. repeat split; try done; lia.
  - destruct (Z.ltb_spec (Z.max (current_next s) (low s)) next).
    + destruct (acknowledge_skip request) as [r|] eqn:E; [|done]. intros [= <- <- <-]. right.
      repeat split; try done; lia.
    + intros [= <- <- <-]. right. repeat split; try done; try lia.
      by destruct (acknowledge_skip request).
Qed.

Lemma by_partition_lookup ps p s : by_partition ps !! p = Some s → s ∈ ps ∧ partition s = p.
Proof.
  unfold by_partition. induction ps as [|q ps IH] using rev_ind; [done|].
  rewrite fold_left_app. simpl. destruct (decide (partition q = p)) as [<-|].
  - rewrite lookup_insert_eq. intros [= <-]. split; [|done]. apply elem_of_app. right. by left.
  - rewrite lookup_insert_ne by done. intros [? ?]%IH. split; [|done]. apply elem_of_app. by left.
Qed.

Definition move_allowed (request : Request) (s : PartitionStatus) (next : Z) (reason : Prop)
    (back : Prop) : Prop :=
  0 < next ≤ high s ∧
  (skips_held s next → is_Some (acknowledge_skip request) ∧ reason) ∧
  (next < current_next s → allow_replay request = true ∧ low s ≤ next ∧ back).

Lemma decide_moves_spec statuses request ps assert skips backward assert' skips' backward' :
  (∀ p s, statuses !! p = Some s → status_ok s) →
  decide_moves statuses request ps (assert, skips, backward) = Ok (assert', skips', backward') →
  NoDup ps → (∀ p, p ∈ ps → assert !! p = None) →
  (skips = true → skips' = true) ∧ (backward = true → backward' = true) ∧
  (∀ p, p ∉ ps → assert' !! p = assert !! p) ∧
  (∀ p next, p ∈ ps → moves request !! p = Some next → ∃ s, statuses !! p = Some s ∧
     ((next = 0 ∧ stored s = None ∧ assert' !! p = None) ∨
      (assert' !! p = Some (next - 1) ∧
       move_allowed request s next (skips' = true) (backward' = true)))) ∧
  (∀ p, p ∈ ps → moves request !! p = None → assert' !! p = None).
Proof.
  intros Hok. revert assert skips backward.
  induction ps as [|p ps IH]; intros assert skips backward; simpl.
  { intros [= <- <- <-] _ _. split; [done|]. split; [done|]. split; [done|].
    split; by intros q Hq%not_elem_of_nil || (intros q ? Hq; by apply not_elem_of_nil in Hq). }
  destruct (statuses !! p) as [s|] eqn:Es; [|done].
  intros H [Hp Hnd]%NoDup_cons Hno.
  assert (Hno' : ∀ q, q ∈ ps → assert !! q = None) by (intros q Hq; apply Hno; by right).
  destruct (moves request !! p) as [next|] eqn:Em.
  - destruct (decide_move s next request) as [[[v skip] back]|] eqn:Ed; [|done].
    apply (IH _ _ _) in H as (I1 & I2 & I3 & I4 & I5); [|done|].
    2: { intros q Hq. destruct v as [v|]; [|by apply Hno'].
      rewrite lookup_insert_ne; [by apply Hno'|by intros ->]. }
    assert (Hpa : assert' !! p = match v with Some v => Some v | None => None end).
    { rewrite I3 by done. destruct v as [v|]; [by rewrite lookup_insert_eq|apply Hno; by left]. }
    split; [intros ->; by apply I1|]. split; [intros ->; by apply I2|]. split; [|split].
    + intros q Hq. rewrite I3 by (intros ?; apply Hq; by right).
      destruct v as [v|]; [|done]. rewrite lookup_insert_ne; [done|]. intros ->. apply Hq. by left.
    + intros q nx [->|Hq]%elem_of_cons Hm; [|by apply I4].
      exists s. split; [done|]. simplify_eq. rewrite Hpa.
      apply decide_move_spec in Ed as [(-> & ? & -> & _)|(Hr & -> & Hs & _ & Hb & Hbk)];
        [by left| |by eapply Hok]. right. split; [done|]. split; [done|]. split.
      * intros [? ->]%Hs. split; [done|]. apply I1. by rewrite orb_true_r.
      * intros Hlt%Hb. destruct (Hbk Hlt) as [? ?]. subst. split; [done|]. split; [done|].
        apply I2. by rewrite orb_true_r.
    + intros q [->|Hq]%elem_of_cons Hm; [congruence|by apply I5].
  - apply (IH _ _ _) in H as (I1 & I2 & I3 & I4 & I5); [|done..].
    split; [done|]. split; [done|]. split; [|split].
    + intros q Hq. apply I3. intros ?; apply Hq; by right.
    + intros q nx [->|Hq]%elem_of_cons Hm; [congruence|by apply I4].
    + intros q [->|Hq]%elem_of_cons Hm; [|by apply I5]. rewrite I3 by done. apply Hno. by left.
Qed.

Lemma sorted_keys_NoDup {A} (m : gmap Z A) : NoDup (sorted_keys m).
Proof.
  unfold sorted_keys. rewrite merge_sort_Permutation. apply NoDup_fst_map_to_list.
Qed.

(** Attempt [m] lost to a conflict, with the decision of what it read. *)
Definition lost (topic : string) (request : Request) (w : World) (o : Outcome) : Prop :=
  ∃ ps e d err, w_view w = Ok (ps, e) ∧ decide_request ps e request = Ok d ∧
    w_commit w (offsets_of topic d) = Err err ∧ is_conflict err = true ∧
    (d_backward d = true → o_checkpointed o = true).

(** Attempt [n] committed its decision. *)
Definition won (topic : string) (request : Request) (w : World) (o : Outcome) : Prop :=
  ∃ ps e d, w_view w = Ok (ps, e) ∧ decide_request ps e request = Ok d ∧
    w_commit w (offsets_of topic d) = Ok (o_version o) ∧ o_moved o = moved_of ps (d_assert d) ∧
    (d_backward d = true → o_checkpointed o = true) ∧
    (o_checkpointed o = true → ∃ read, w_read_back w = Ok read ∧
       ∀ p v, d_assert d !! p = Some v → read !! p = Some v).

Lemma verify_after_checkpoint_spec w wanted u :
  verify_after_checkpoint w wanted = Ok u →
  ∃ read, w_read_back w = Ok read ∧ ∀ p v, wanted !! p = Some v → read !! p = Some v.
Proof.
  unfold verify_after_checkpoint. destruct (w_read_back w) as [read|]; [|done].
  destruct (forallb _ _) eqn:E; [|done]. intros _. exists read. split; [done|].
  intros p v Hp. rewrite forallb_forall in E. specialize (E (p, v)).
  apply (bool_decide_eq_true_1 _), E. rewrite <- list_elem_of_In. by apply elem_of_map_to_list.
Qed.

Lemma attempts_spec topic request world n tries backward last o :
  attempts topic request world n tries backward last = Ok o →
  (backward = true → o_checkpointed o = true) ∧
  ∃ k, (n ≤ k < n + tries)%nat ∧ won topic request (world k) o ∧
    ∀ m, (n ≤ m < k)%nat → lost topic request (world m) o.
Proof.
  revert n backward last; induction tries as [|tries IH]; intros n backward last; simpl; [done|].
  destruct (w_view (world n)) as [[ps e]|] eqn:Ev; [|done].
  destruct (decide_request ps e request) as [d|] eqn:Ed; [|done].
  destruct (w_commit (world n) (offsets_of topic d)) as [version|err] eqn:Ec.
  - intros Ho. assert (Hc : o_checkpointed o = backward || d_backward d ∧
      o_version o = version ∧ o_moved o = moved_of ps (d_assert d) ∧
      (o_checkpointed o = true → ∃ read, w_read_back (world n) = Ok read ∧
         ∀ p v, d_assert d !! p = Some v → read !! p = Some v)).
    { destruct (backward || d_backward d); [|by simplify_eq].
      destruct (w_checkpoint (world n)); [|done].
      destruct (verify_after_checkpoint _ _) eqn:Evf; [|done]. simplify_eq.
      do 3 (split; [done|]). intros _. by eapply verify_after_checkpoint_spec. }
    destruct Hc as (Hb & Hv & Hm & Hr). split; [by rewrite Hb; intros ->|].
    exists n. split; [lia|]. split; [|intros m ?; lia].
    exists ps, e, d. rewrite Hv. do 4 (split; [done|]). split; [|done].
    rewrite Hb. intros ->. by rewrite orb_true_r.
  - destruct (is_conflict err && negb (tries =? 0)%nat) eqn:E; [|done].
    apply andb_true_iff in E as [E _]. intros Ho. apply IH in Ho as (Hb & k & Hk & Hw & Hl).
    split; [intros ->; by apply Hb|]. exists k. split; [lia|]. split; [done|].
    intros m Hm. destruct (decide (m = n)) as [->|]; [|apply Hl; lia].
    exists ps, e, d, err. do 4 (split; [done|]). intros Hd. apply Hb. rewrite Hd. by rewrite orb_true_r.
Qed.

(** ** Properties *)


(** A move is one commit of exactly what was decided, and it holds: whatever other
    writers do between the attempts, success means that one attempt's commit landed with the
    decision made from what that attempt read (never with the takeover marker), that every
    attempt before lost to a conflict, and, when any of them went back, that a checkpoint
    was written and the offsets read back after it are the ones decided. *)
Theorem set_offsets_commits_the_decision topic request world o :
  set_offsets topic request world = Ok o →
  ∃ n, (n < ATTEMPTS)%nat ∧ won topic request (world n) o ∧
    ∀ m, (m < n)%nat → lost topic request (world m) o.
Proof.
  intros H. apply attempts_spec in H as (_ & k & Hk & Hw & Hl). exists k.
  split; [lia|]. split; [done|]. intros m Hm. apply Hl. lia.
Qed.

(** ** Witnesses *)

Module Demo.
Definition status : PartitionStatus := {| partition := 0; stored := Some 41; low := 10; high := 90 |}.
Definition back : Request :=
  {| moves := {[ 0 := 20 ]}; reassert := false; acknowledge_skip := None; allow_replay := true |}.
Definition decision : Decision :=
  {| d_assert := {[ 0 := 19 ]}; d_override_reason := None; d_backward := true |}.
Definition outcome : Outcome :=
  {| o_version := 8; o_moved := {[ 0 := (Some 41, 19) ]}; o_checkpointed := true |}.

(** A first attempt that loses to another writer, and a second that lands. *)
Definition world (n : nat) : World :=
  {| w_view := Ok ([status], EraDdi);
     w_commit := λ _, if Nat.eqb n 0 then Err (Delta (D_Transaction T_CommitConflict)) else Ok 8;
     w_checkpoint := Ok tt; w_read_back := Ok {[ 0 := 19 ]} |}.
End Demo.


Lemma set_offsets_commits_the_decision_witness :
  ∃ n, (n < ATTEMPTS)%nat ∧ won "t" Demo.back (Demo.world n) Demo.outcome ∧
    ∀ m, (m < n)%nat → lost "t" Demo.back (Demo.world m) Demo.outcome.
Proof.
  apply (set_offsets_commits_the_decision "t" Demo.back Demo.world Demo.outcome).
  vm_compute. reflexivity.
Defined.
