(* ===== verification/Member.v ===== *)
(** * Member: one member of a Kafka pipeline (src/kafka/step.rs, src/kafka/rebalance.rs,
    [KafkaSource] of src/kafka/mod.rs)

    Everything a member keeps between steps is a [Source], with the handle on its target.
    The decoder is the list of messages it was fed since the batch was opened: what each
    decodes to is a function of the message.  Handlers are in [M], the state and error monad;
    what a handler asks of the world (storage, delta-rs, librdkafka, the registry) is in the
    record it takes ([RefreshWorld], [CommitWorld], ...), and the clock is read once per
    handler ([now]).  Metrics and log lines are left out. *)

From Stdlib Require Import ZArith Lia.
From stdpp Require Import base list strings gmap sorting.
From S2P Require Import Prelude Error Partitions Takeover TxnLog Fence Start.

Open Scope Z_scope.

(** ** Data *)

Definition seconds (n : Z) : Duration := n * 1000000000.

Definition BACKOFF_MIN : Duration := seconds 1.
Definition BACKOFF_MAX : Duration := seconds 60.
Definition BACKOFF_CAPACITY : Duration := seconds 300.
Definition ONCE_IDLE : Duration := seconds 10.
Definition HANDLE_MAX_AGE : Duration := seconds 600.

(** A message that could not be decoded. *)
Record Undecodable := {
  u_partition : Z;
  u_offset : Z;
  u_schema_id : option Z;
  u_reason : string;
}.

(** A closed batch: the rows are the messages the decoder took, partition by partition. *)
Record Batch := {
  b_rows : gmap Z (list MessageMark);
  b_undecodable : list Undecodable;
  b_ranges : gmap Z (Z * Z);
  b_marks : gmap Z MessageMark;
  b_bases : gmap Z (option Z);
  b_messages : Z;
  b_raw_bytes : Z;
}.

Inductive HeldFor := For_Replan | For_Transient | For_Capacity | For_Operator.

#[export] Instance HeldFor_eq_dec : EqDecision HeldFor.
Proof. solve_decision. Defined.

Record Held := { h_batch : Batch; h_due : Instant; h_backoff : Duration; h_retrying : bool }.

Record Stalled := {
  st_message : Message;
  st_due : Instant;
  st_backoff : Duration;
  st_blocking : option string;
}.

(** What a step came to ([StepOutcome], without what it reports of a commit). *)
Inductive StepOutcome := CaughtUp | Waiting | Committed.

Record Source := {
  s_target : LogView;
  s_fence : Fence;
  s_parts : Partitions;
  s_buf : Buffer;
  s_decoder : list Message;
  s_held : option Held;
  s_stalled : option Stalled;
  s_blocked : option string;
  s_next_recheck : option Instant;
  s_paused : gset Z;
  s_unbased_start : gmap Z Z;
  s_table_id : option string;
  s_refreshed_at : Instant;
  s_last_commit : option Instant;
  s_reset_this_step : bool;
  s_once_end : option (gmap Z Z);
  s_held_for : option HeldFor;
  s_last_backoff : option Duration;
}.

Definition set_target (v : LogView) (s : Source) : Source :=
  {| s_target := v; s_fence := s_fence s; s_parts := s_parts s; s_buf := s_buf s; s_decoder :=
     s_decoder s; s_held := s_held s; s_stalled := s_stalled s; s_blocked := s_blocked s;
     s_next_recheck := s_next_recheck s; s_paused := s_paused s; s_unbased_start :=
     s_unbased_start s; s_table_id := s_table_id s; s_refreshed_at := s_refreshed_at s;
     s_last_commit := s_last_commit s; s_reset_this_step := s_reset_this_step s; s_once_end :=
     s_once_end s; s_held_for := s_held_for s; s_last_backoff := s_last_backoff s |}.
Definition set_fence (v : Fence) (s : Source) : Source :=
  {| s_target := s_target s; s_fence := v; s_parts := s_parts s; s_buf := s_buf s; s_decoder :=
     s_decoder s; s_held := s_held s; s_stalled := s_stalled s; s_blocked := s_blocked s;
     s_next_recheck := s_next_recheck s; s_paused := s_paused s; s_unbased_start :=
     s_unbased_start s; s_table_id := s_table_id s; s_refreshed_at := s_refreshed_at s;
     s_last_commit := s_last_commit s; s_reset_this_step := s_reset_this_step s; s_once_end :=
     s_once_end s; s_held_for := s_held_for s; s_last_backoff := s_last_backoff s |}.
Definition set_parts (v : Partitions) (s : Source) : Source :=
  {| s_target := s_target s; s_fence := s_fence s; s_parts := v; s_buf := s_buf s; s_decoder :=
     s_decoder s; s_held := s_held s; s_stalled := s_stalled s; s_blocked := s_blocked s;
     s_next_recheck := s_next_recheck s; s_paused := s_paused s; s_unbased_start :=
     s_unbased_start s; s_table_id := s_table_id s; s_refreshed_at := s_refreshed_at s;
     s_last_commit := s_last_commit s; s_reset_this_step := s_reset_this_step s; s_once_end :=
     s_once_end s; s_held_for := s_held_for s; s_last_backoff := s_last_backoff s |}.
Definition set_buf (v : Buffer) (s : Source) : Source :=
  {| s_target := s_target s; s_fence := s_fence s; s_parts := s_parts s; s_buf := v; s_decoder
     := s_decoder s; s_held := s_held s; s_stalled := s_stalled s; s_blocked := s_blocked s;
     s_next_recheck := s_next_recheck s; s_paused := s_paused s; s_unbased_start :=
     s_unbased_start s; s_table_id := s_table_id s; s_refreshed_at := s_refreshed_at s;
     s_last_commit := s_last_commit s; s_reset_this_step := s_reset_this_step s; s_once_end :=
     s_once_end s; s_held_for := s_held_for s; s_last_backoff := s_last_backoff s |}.
Definition set_decoder (v : list Message) (s : Source) : Source :=
  {| s_target := s_target s; s_fence := s_fence s; s_parts := s_parts s; s_buf := s_buf s;
     s_decoder := v; s_held := s_held s; s_stalled := s_stalled s; s_blocked := s_blocked s;
     s_next_recheck := s_next_recheck s; s_paused := s_paused s; s_unbased_start :=
     s_unbased_start s; s_table_id := s_table_id s; s_refreshed_at := s_refreshed_at s;
     s_last_commit := s_last_commit s; s_reset_this_step := s_reset_this_step s; s_once_end :=
     s_once_end s; s_held_for := s_held_for s; s_last_backoff := s_last_backoff s |}.
Definition set_held (v : option Held) (s : Source) : Source :=
  {| s_target := s_target s; s_fence := s_fence s; s_parts := s_parts s; s_buf := s_buf s;
     s_decoder := s_decoder s; s_held := v; s_stalled := s_stalled s; s_blocked := s_blocked s;
     s_next_recheck := s_next_recheck s; s_paused := s_paused s; s_unbased_start :=
     s_unbased_start s; s_table_id := s_table_id s; s_refreshed_at := s_refreshed_at s;
     s_last_commit := s_last_commit s; s_reset_this_step := s_reset_this_step s; s_once_end :=
     s_once_end s; s_held_for := s_held_for s; s_last_backoff := s_last_backoff s |}.
Definition set_stalled (v : option Stalled) (s : Source) : Source :=
  {| s_target := s_target s; s_fence := s_fence s; s_parts := s_parts s; s_buf := s_buf s;
     s_decoder := s_decoder s; s_held := s_held s; s_stalled := v; s_blocked := s_blocked s;
     s_next_recheck := s_next_recheck s; s_paused := s_paused s; s_unbased_start :=
     s_unbased_start s; s_table_id := s_table_id s; s_refreshed_at := s_refreshed_at s;
     s_last_commit := s_last_commit s; s_reset_this_step := s_reset_this_step s; s_once_end :=
     s_once_end s; s_held_for := s_held_for s; s_last_backoff := s_last_backoff s |}.
Definition set_blocked (v : option string) (s : Source) : Source :=
  {| s_target := s_target s; s_fence := s_fence s; s_parts := s_parts s; s_buf := s_buf s;
     s_decoder := s_decoder s; s_held := s_held s; s_stalled := s_stalled s; s_blocked := v;
     s_next_recheck := s_next_recheck s; s_paused := s_paused s; s_unbased_start :=
     s_unbased_start s; s_table_id := s_table_id s; s_refreshed_at := s_refreshed_at s;
     s_last_commit := s_last_commit s; s_reset_this_step := s_reset_this_step s; s_once_end :=
     s_once_end s; s_held_for := s_held_for s; s_last_backoff := s_last_backoff s |}.
Definition set_next_recheck (v : option Instant) (s : Source) : Source :=
  {| s_target := s_target s; s_fence := s_fence s; s_parts := s_parts s; s_buf := s_buf s;
     s_decoder := s_decoder s; s_held := s_held s; s_stalled := s_stalled s; s_blocked :=
     s_blocked s; s_next_recheck := v; s_paused := s_paused s; s_unbased_start :=
     s_unbased_start s; s_table_id := s_table_id s; s_refreshed_at := s_refreshed_at s;
     s_last_commit := s_last_commit s; s_reset_this_step := s_reset_this_step s; s_once_end :=
     s_once_end s; s_held_for := s_held_for s; s_last_backoff := s_last_backoff s |}.
Definition set_paused (v : gset Z) (s : Source) : Source :=
  {| s_target := s_target s; s_fence := s_fence s; s_parts := s_parts s; s_buf := s_buf s;
     s_decoder := s_decoder s; s_held := s_held s; s_stalled := s_stalled s; s_blocked :=
     s_blocked s; s_next_recheck := s_next_recheck s; s_paused := v; s_unbased_start :=
     s_unbased_start s; s_table_id := s_table_id s; s_refreshed_at := s_refreshed_at s;
     s_last_commit := s_last_commit s; s_reset_this_step := s_reset_this_step s; s_once_end :=
     s_once_end s; s_held_for := s_held_for s; s_last_backoff := s_last_backoff s |}.
Definition set_unbased_start (v : gmap Z Z) (s : Source) : Source :=
  {| s_target := s_target s; s_fence := s_fence s; s_parts := s_parts s; s_buf := s_buf s;
     s_decoder := s_decoder s; s_held := s_held s; s_stalled := s_stalled s; s_blocked :=
     s_blocked s; s_next_recheck := s_next_recheck s; s_paused := s_paused s; s_unbased_start :=
     v; s_table_id := s_table_id s; s_refreshed_at := s_refreshed_at s; s_last_commit :=
     s_last_commit s; s_reset_this_step := s_reset_this_step s; s_once_end := s_once_end s;
     s_held_for := s_held_for s; s_last_backoff := s_last_backoff s |}.
Definition set_table_id (v : option string) (s : Source) : Source :=
  {| s_target := s_target s; s_fence := s_fence s; s_parts := s_parts s; s_buf := s_buf s;
     s_decoder := s_decoder s; s_held := s_held s; s_stalled := s_stalled s; s_blocked :=
     s_blocked s; s_next_recheck := s_next_recheck s; s_paused := s_paused s; s_unbased_start :=
     s_unbased_start s; s_table_id := v; s_refreshed_at := s_refreshed_at s; s_last_commit :=
     s_last_commit s; s_reset_this_step := s_reset_this_step s; s_once_end := s_once_end s;
     s_held_for := s_held_for s; s_last_backoff := s_last_backoff s |}.
Definition set_refreshed_at (v : Instant) (s : Source) : Source :=
  {| s_target := s_target s; s_fence := s_fence s; s_parts := s_parts s; s_buf := s_buf s;
     s_decoder := s_decoder s; s_held := s_held s; s_stalled := s_stalled s; s_blocked :=
     s_blocked s; s_next_recheck := s_next_recheck s; s_paused := s_paused s; s_unbased_start :=
     s_unbased_start s; s_table_id := s_table_id s; s_refreshed_at := v; s_last_commit :=
     s_last_commit s; s_reset_this_step := s_reset_this_step s; s_once_end := s_once_end s;
     s_held_for := s_held_for s; s_last_backoff := s_last_backoff s |}.
Definition set_last_commit (v : option Instant) (s : Source) : Source :=
  {| s_target := s_target s; s_fence := s_fence s; s_parts := s_parts s; s_buf := s_buf s;
     s_decoder := s_decoder s; s_held := s_held s; s_stalled := s_stalled s; s_blocked :=
     s_blocked s; s_next_recheck := s_next_recheck s; s_paused := s_paused s; s_unbased_start :=
     s_unbased_start s; s_table_id := s_table_id s; s_refreshed_at := s_refreshed_at s;
     s_last_commit := v; s_reset_this_step := s_reset_this_step s; s_once_end := s_once_end s;
     s_held_for := s_held_for s; s_last_backoff := s_last_backoff s |}.
Definition set_reset_this_step (v : bool) (s : Source) : Source :=
  {| s_target := s_target s; s_fence := s_fence s; s_parts := s_parts s; s_buf := s_buf s;
     s_decoder := s_decoder s; s_held := s_held s; s_stalled := s_stalled s; s_blocked :=
     s_blocked s; s_next_recheck := s_next_recheck s; s_paused := s_paused s; s_unbased_start :=
     s_unbased_start s; s_table_id := s_table_id s; s_refreshed_at := s_refreshed_at s;
     s_last_commit := s_last_commit s; s_reset_this_step := v; s_once_end := s_once_end s;
     s_held_for := s_held_for s; s_last_backoff := s_last_backoff s |}.
Definition set_once_end (v : option (gmap Z Z)) (s : Source) : Source :=
  {| s_target := s_target s; s_fence := s_fence s; s_parts := s_parts s; s_buf := s_buf s;
     s_decoder := s_decoder s; s_held := s_held s; s_stalled := s_stalled s; s_blocked :=
     s_blocked s; s_next_recheck := s_next_recheck s; s_paused := s_paused s; s_unbased_start :=
     s_unbased_start s; s_table_id := s_table_id s; s_refreshed_at := s_refreshed_at s;
     s_last_commit := s_last_commit s; s_reset_this_step := s_reset_this_step s; s_once_end :=
     v; s_held_for := s_held_for s; s_last_backoff := s_last_backoff s |}.
Definition set_held_for (v : option HeldFor) (s : Source) : Source :=
  {| s_target := s_target s; s_fence := s_fence s; s_parts := s_parts s; s_buf := s_buf s;
     s_decoder := s_decoder s; s_held := s_held s; s_stalled := s_stalled s; s_blocked :=
     s_blocked s; s_next_recheck := s_next_recheck s; s_paused := s_paused s; s_unbased_start :=
     s_unbased_start s; s_table_id := s_table_id s; s_refreshed_at := s_refreshed_at s;
     s_last_commit := s_last_commit s; s_reset_this_step := s_reset_this_step s; s_once_end :=
     s_once_end s; s_held_for := v; s_last_backoff := s_last_backoff s |}.
Definition set_last_backoff (v : option Duration) (s : Source) : Source :=
  {| s_target := s_target s; s_fence := s_fence s; s_parts := s_parts s; s_buf := s_buf s;
     s_decoder := s_decoder s; s_held := s_held s; s_stalled := s_stalled s; s_blocked :=
     s_blocked s; s_next_recheck := s_next_recheck s; s_paused := s_paused s; s_unbased_start :=
     s_unbased_start s; s_table_id := s_table_id s; s_refreshed_at := s_refreshed_at s;
     s_last_commit := s_last_commit s; s_reset_this_step := s_reset_this_step s; s_once_end :=
     s_once_end s; s_held_for := s_held_for s; s_last_backoff := v |}.

(** The parts of the configuration the handlers read ([ResolvedKafka], [ResolvedPipeline]). *)
Record Config := {
  c_app_id : string;
  c_topic : string;
  c_group_id : string;
  c_target_uri : string;
  c_dq_uri : string;
  c_once : bool;
  c_blocked_recheck_secs : Z;
  c_starting_offsets : StartPolicy;
  c_max_rejects : Z;
}.

(** ** The monad *)

Definition M (A : Type) : Type := Source → Source * result Error A.

Definition retM {A} (a : A) : M A := λ s, (s, Ok a).
Definition failM {A} (e : Error) : M A := λ s, (s, Err e).
Definition bindM {A B} (m : M A) (k : A → M B) : M B := λ s,
  match m s with
  | (s, Ok a) => k a s
  | (s, Err e) => (s, Err e)
  end.
Definition modify (f : Source → Source) : M unit := λ s, (f s, Ok tt).
Definition gets {A} (f : Source → A) : M A := λ s, (s, Ok (f s)).
Definition liftM {A} (r : result Error A) : M A := λ s, (s, r).
(** What came of [m], an error included. *)
Definition attempt {A} (m : M A) : M (result Error A) := λ s,
  let '(s, r) := m s in (s, Ok r).

Notation "'let!' x := m 'in' k" := (bindM m (λ x, k))
  (at level 10, x pattern, m at level 100, k at level 200) : ddi_scope.
Notation "'do!' m 'in' k" := (bindM m (λ _, k))
  (at level 10, m at level 100, k at level 200) : ddi_scope.
Open Scope ddi_scope.

Definition intake (s : Source) : Intake :=
  {| parts := s_parts s; buf := s_buf s; paused := s_paused s |}.
Definition set_intake (i : Intake) (s : Source) : Source :=
  set_parts (parts i) (set_buf (buf i) (set_paused (paused i) s)).

(** The offset the fence holds of a partition. *)
Definition base_offset (s : Source) (p : Z) : option Z := base_of (s_fence s) p ≫= fst.

Section Member.
Context (cfg : Config).

Definition blocked_recheck : Duration := seconds (Z.max (c_blocked_recheck_secs cfg) 1).

Definition explicit_entries : gmap Z Z := default ∅ (policy_partitions (c_starting_offsets cfg)).

Definition is_ready (st : option State) : bool :=
  match st with Some (Ready _ _ _ _) => true | _ => false end.
Definition is_blocked (st : option State) : bool :=
  match st with Some (Blocked _ _) => true | _ => false end.

(** ** Pausing *)

Definition pause (ps : gset Z) (s : Source) : Source := set_paused (ps ∪ s_paused s) s.

Definition pause_all (s : Source) : Source := pause (dom (s_parts s)) s.

Definition arm_recheck (t : Instant) (s : Source) : Source :=
  set_next_recheck (Some (default t (s_next_recheck s))) s.

Definition block_partition (now : Instant) (p : Z) (b : Block) (s : Source) : Source :=
  pause {[p]} (arm_recheck (now + blocked_recheck) (set_parts (block p b now (s_parts s)) s)).

(** [Pipeline::release]: of the paused partitions that are Ready, those librdkafka sought and
    resumed go on. *)
Definition release (now : Instant) (resumed : Z → bool) (s : Source) : Source :=
  let ready := filter (λ p, is_ready (s_parts s !! p) && resumed p = true) (s_paused s) in
  set_paused (s_paused s ∖ ready)
    (set_parts (foldr (λ p ps, polled_again (Some p) now ps) (s_parts s) (elements ready)) s).

(** ** A message *)

Definition blocking_class (c : KafkaClass) : bool :=
  match c with BlockingPipeline | BlockingPartition | OpenRefusal => true | _ => false end.

Definition stall (now : Instant) (m : Message) (e : Error) (last : option Duration) : M unit :=
  let class := kafka_class e in
  if decide (class = ConsumerFatal) then failM e
  else
    let backoff := match class with
                   | Transient => match last with
                                  | None => BACKOFF_MIN
                                  | Some b => Z.min (b * 2) BACKOFF_MAX
                                  end
                   | CapacityClass => BACKOFF_CAPACITY
                   | _ => blocked_recheck
                   end in
    modify (λ s, pause_all (set_stalled (Some {|
      st_message := m; st_due := now + backoff; st_backoff := backoff;
      st_blocking := if blocking_class class then Some (kafka_block_reason e) else None |}) s)).

Definition feed (m : Message) (s : Source) : Source := set_decoder (s_decoder s ++ [m]) s.

(** [Pipeline::take]; [fed] is the decoder's answer to the message, if it is fed. *)
Definition take_in (m : Message) (fed : result Error unit) : M unit :=
  let! a := λ s, let '(a, i) := take_one m (intake s) in (set_intake i s, Ok a) in
  match a with
  | Some (Take _) =>
      match fed with
      | Ok _ => modify (feed m)
      | Err e => stall (msg_at m) m e None
      end
  | Some (AdmitBlock _) => modify (arm_recheck (msg_at m + blocked_recheck))
  | _ => retM tt
  end.

Definition feed_stalled (now : Instant) (fed : result Error unit) : M unit :=
  let! stalled := gets s_stalled in
  match stalled with
  | None => retM tt
  | Some st =>
      do! modify (set_stalled None) in
      match fed with
      | Ok _ => modify (feed (st_message st))
      | Err e => stall now (st_message st) e (Some (st_backoff st))
      end
  end.

(** [Pipeline::out_of_range], given what the watermarks' request answered. *)
Definition out_of_range (now : Instant) (watermarks : result Error (gmap Z (Z * Z))) : M unit :=
  let! r := gets (λ s, ready (s_parts s)) in
  match watermarks with
  | Err e =>
      if decide (kafka_class e = Transient) then modify (pause (list_to_set r.*1)) else failM e
  | Ok w =>
      let offenders := omap (λ '(p, next),
        lh ← w !! p;
        let '(low, high) := lh in
        if next <? low then Some (p, B_Unavailable next low)
        else if high <? next then Some (p, B_Regressed (i64 (next - 1)) high)
        else None) r in
      match offenders with
      | [] => modify (pause (list_to_set r.*1))
      | _ => modify (λ s, fold_left (λ s '(p, b), block_partition now p b s) offenders s)
      end
  end.

(** ** Closing a batch *)

Definition close_batch (f : Fence) (bf : Buffer) (took : list Message)
    (undecodable : list Undecodable) : Batch :=
  {| b_rows := map_imap (λ p _, Some (of_partition p took)) (ranges bf);
     b_undecodable := undecodable;
     b_ranges := ranges bf;
     b_marks := marks bf;
     b_bases := map_imap (λ p _, Some (base_of f p ≫= fst)) (ranges bf);
     b_messages := messages bf;
     b_raw_bytes := raw_bytes bf |}.

(** [Pipeline::close_batch], given which messages did not decode, or why the decoder fails. *)
Definition close (finished : result Error (list Undecodable)) : M Batch :=
  let! bf := gets s_buf in
  do! modify (set_buf buffer_default) in
  let! undecodable := liftM finished in
  let! took := gets s_decoder in
  do! modify (set_decoder []) in
  gets (λ s, close_batch (s_fence s) bf took undecodable).

Definition moved_partition (ps : Partitions) (f : Fence) (b : Batch) : option Z :=
  List.find (λ p, bool_decide (ps !! p = None)
                  || negb (bool_decide (fst <$> base_of f p = b_bases b !! p)))
    (sorted_keys (b_ranges b)).

Definition moved_in (s : Source) (b : Batch) : option Z :=
  moved_partition (s_parts s) (s_fence s) b.

Definition moved_error (s : Source) (p : Z) (b : Batch) : Error :=
  Fenced (c_app_id cfg) p (default None (b_bases b !! p)) (base_offset s p).

(** ** Refreshing *)

Record RefreshWorld := {
  (** [update_incremental]: the handle it leaves, or none when it fails. *)
  rw_update : option LogView;
  rw_stored_id : LogView → result Error (option string);
  rw_open : result Error LogView;
  (** [lookup::table_id] of a handle. *)
  rw_table_id : LogView → option string;
  rw_unwritable : LogView → result Error unit;
  (** Reading the schema, and rebuilding the conformer for another one. *)
  rw_schema : LogView → result Error unit;
}.

Definition refresh_target (w : RefreshWorld) : M unit :=
  let! found :=
    match rw_update w with
    | Some view =>
        do! modify (set_target view) in
        let! id := liftM (rw_stored_id w view) in
        retM (match id with Some id => Some id | None => rw_table_id w view end)
    | None =>
        let! view := liftM (rw_open w) in
        do! modify (set_target view) in
        retM (rw_table_id w view)
    end in
  let! opened := gets s_table_id in
  if bool_decide (is_Some opened) && bool_decide (found ≠ opened)
  then failM (TargetReplaced (c_target_uri cfg) (default "" opened) (default "" found))
  else
    let! view := gets s_target in
    do! liftM (refuse_txn_retention view) in
    do! liftM (rw_unwritable w view) in
    liftM (rw_schema w view).

(** [Fence::reset] on the member's own fence and target. *)
Definition reset_fence (owned : list Z) : M unit := λ s,
  let '(f, r) := reset (s_target s) owned (s_fence s) in (set_fence f s, r).

(** [Pipeline::refresh_and_reset]: the partitions whose offset changed. *)
Definition refresh_and_reset (now : Instant) (w : RefreshWorld) : M (gset Z) :=
  let! before := gets (λ s, s) in
  do! refresh_target w in
  do! reset_fence (owned (s_parts before)) in
  do! modify (set_refreshed_at now) in
  gets (λ s, filter (λ p, base_offset s p ≠ base_offset before p) (dom (s_parts before))).

(** Where a Ready partition is read again from. *)
Definition read_again_at (s : Source) (p : Z) : option Z :=
  match base_offset s p with
  | Some b => Some (i64 (b + 1))
  | None => s_unbased_start s !! p
  end.

(** The first half of [Pipeline::reposition_changed]: the buffer, when it holds rows of a
    partition that moved, goes, and its partitions are read again. *)
Definition discard_moved_buffer (changed : gset Z) (s : Source) : gset Z * Source :=
  if negb (buffer_is_empty (s_buf s)) && bool_decide (dom (ranges (s_buf s)) ∩ changed ≠ ∅)
  then (changed ∪ dom (ranges (s_buf s)),
        set_stalled None (set_decoder [] (set_buf buffer_default s)))
  else (changed, s).

(** A Ready partition that is not where the table, the buffer or the kept batch says. *)
Definition misplaced (survives : option Batch) (s : Source) (p : Z) : bool :=
  match s_parts s !! p with
  | Some (Ready next _ _ _) =>
      bool_decide (survives ≫= (λ b, b_ranges b !! p) = None)
      && bool_decide (ranges (s_buf s) !! p = None)
      && match read_again_at s p with Some a => negb (a =? next) | None => false end
  | _ => false
  end.

Definition reposition (now : Instant) (again : gset Z) (s : Source) : Source :=
  let moved := filter (λ p, is_ready (s_parts s !! p) = true) again in
  let waits := filter (λ p, is_blocked (s_parts s !! p) = true) again in
  let s' := set_parts (map_imap (λ p st,
              if decide (p ∈ moved)
              then let at_ := default 0 (read_again_at s p) in Some (Ready at_ at_ None now)
              else Some st) (s_parts s)) s in
  pause moved (if decide (waits = ∅) then s' else set_next_recheck (Some now) s').

Definition reposition_changed (now : Instant) (changed : gset Z) (survives : option Batch)
    (s : Source) : Source :=
  let '(again, s) := discard_moved_buffer changed s in
  reposition now (again ∪ filter (λ p, misplaced survives s p = true) (dom (s_parts s))) s.

(** ** Holding a batch *)

Definition hold (now : Instant) (b : Batch) (backoff : Duration) (why : HeldFor) (s : Source)
    : Source :=
  pause_all (set_held_for (Some why) (set_held (Some {|
    h_batch := b; h_due := now + backoff; h_backoff := backoff;
    h_retrying := bool_decide (why ≠ For_Operator) |}) s)).

(** [Pipeline::hold_for_class] *)
Definition hold_for_class (now : Instant) (b : Batch) (e : Error) : M StepOutcome :=
  let! last := gets s_last_backoff in
  do! modify (set_last_backoff None) in
  match kafka_class e with
  | ConsumerFatal => failM e
  | CapacityClass =>
      do! modify (hold now b BACKOFF_CAPACITY For_Capacity) in retM Waiting
  | Replan | Transient =>
      let backoff := match last with
                     | None => BACKOFF_MIN
                     | Some l => Z.min (Z.max (l * 2) BACKOFF_MIN) BACKOFF_MAX
                     end in
      do! modify (hold now b backoff For_Transient) in retM Waiting
  | BlockingPipeline | BlockingPartition | OpenRefusal =>
      if c_once cfg then failM e
      else
        do! modify (set_blocked (Some (kafka_block_reason e))) in
        do! modify (hold now b blocked_recheck For_Operator) in retM Waiting
  end.

(** [Pipeline::reset_in_place] *)
Definition reset_in_place (now : Instant) (w : RefreshWorld) (batch : option Batch)
    : M StepOutcome :=
  do! modify (set_reset_this_step true) in
  let! r := attempt (refresh_and_reset now w) in
  match r with
  | Err e =>
      match batch with
      | Some b => hold_for_class now b e
      | None => failM e
      end
  | Ok changed =>
      let! survives := gets (λ s,
        b ← batch; if decide (moved_in s b = None) then Some b else None) in
      do! modify (reposition_changed now changed survives) in
      match survives with
      | Some b =>
          do! modify (λ s, set_held_for (Some For_Replan) (set_held (Some {|
            h_batch := b; h_due := now; h_backoff := 0; h_retrying := true |}) s)) in
          retM Waiting
      | None => do! modify (set_blocked None) in retM Waiting
      end
  end.

(** ** Committing *)

Record CommitWorld := {
  (** [fence::commit_exists], asked when the handle is not old. *)
  cw_exists : result Error bool;
  cw_refresh : RefreshWorld;
  (** Whether there is a data-quality table. *)
  cw_dq : bool;
  cw_prepare : result Error unit;
  cw_cleans_up : LogView → bool;
  cw_protocol_changed : result Error bool;
  (** [Pipeline::process]: the transform and the commit, and the handle it leaves. *)
  cw_process : KafkaOffsets → result Error LogView;
  cw_unwritable : LogView → result Error unit;
  (** The refresh of the reset that follows a conflict. *)
  cw_reset : RefreshWorld;
}.

(** [Pipeline::committed] *)
Definition record_committed (now : Instant) (o : KafkaOffsets) (s : Source) : Source :=
  set_fence (committed o (s_fence s))
    (set_parts (polled_again None now (s_parts s))
      (set_last_commit (Some now) (set_refreshed_at now
        (set_held_for None (set_last_backoff None (set_blocked None s)))))).

Definition offsets_for (s : Source) (b : Batch) (cleans_up : bool) : KafkaOffsets :=
  let '(assert, marks) := assert_map (b_ranges b) (b_marks b) (s_fence s) in
  {| o_topic := c_topic cfg; o_group_id := c_group_id cfg; o_ranges := b_ranges b;
     o_assert := assert; o_marks := marks; o_cleanup_logs := cleans_up; o_baseline := false;
     o_override_reason := None; o_takeover_marker := takeover_marker_due (s_fence s) |}.

Definition undecodable_refusal (dq : bool) (b : Batch) : option Error :=
  match head (b_undecodable b) with
  | None => None
  | Some first =>
      if negb dq
      then Some (KafkaUndecodable (c_topic cfg) (u_partition first) (u_offset first)
                   (u_schema_id first) (u_reason first) (c_dq_uri cfg))
      else if c_max_rejects cfg <? Z.of_nat (length (b_undecodable b))
      then Some (KafkaTooManyUndecodable (Z.of_nat (length (b_undecodable b))) (c_max_rejects cfg)
                   (c_topic cfg) (u_partition first) (u_offset first) (u_schema_id first)
                   (u_reason first))
      else None
  end.

(** [Fence::verify] on the member's own fence and target. *)
Definition verify_fence (rs : gmap Z (Z * Z)) : M unit := λ s,
  let '(f, r) := verify (s_target s) rs (s_fence s) in (set_fence f s, r).

(** The first step: an old handle, or one whose commit is gone, is refreshed. *)
Definition freshen (now : Instant) (w : CommitWorld) (b : Batch) : M unit :=
  let! aged := gets (λ s, HANDLE_MAX_AGE <=? duration_since now (s_refreshed_at s)) in
  let! stale := if aged : bool then retM true
                else let! there := liftM (cw_exists w) in retM (negb there) in
  if stale : bool then
    let! changed := refresh_and_reset now (cw_refresh w) in
    modify (reposition_changed now changed (Some b))
  else retM tt.

Definition try_commit (now : Instant) (w : CommitWorld) (b : Batch) : M StepOutcome :=
  do! freshen now w b in
  let! moved := gets (λ s, moved_in s b) in
  match moved with
  | Some p => let! e := gets (λ s, moved_error s p b) in failM e
  | None =>
      match undecodable_refusal (cw_dq w) b with
      | Some e => failM e
      | None =>
          do! liftM (cw_prepare w) in
          do! verify_fence (b_ranges b) in
          let! offsets := gets (λ s, offsets_for s b (cw_cleans_up w (s_target s))) in
          let! changed := liftM (cw_protocol_changed w) in
          if changed : bool then failM (Delta (D_Transaction T_CommitConflict))
          else
            let! view := liftM (cw_process w offsets) in
            do! modify (set_target view) in
            do! modify (record_committed now offsets) in
            match cw_unwritable w view with
            | Ok _ => retM Committed
            | Err e =>
                do! modify (λ s, pause_all (set_next_recheck (Some (now + blocked_recheck))
                              (set_blocked (Some (kafka_block_reason e)) s))) in
                retM Committed
            end
      end
  end.

(** [Pipeline::after_failure] *)
Definition after_failure (now : Instant) (w : CommitWorld) (b : Batch) (e : Error)
    : M StepOutcome :=
  if decide (kafka_class e = Replan) then reset_in_place now (cw_reset w) (Some b)
  else hold_for_class now b e.

Definition commit_batch (now : Instant) (w : CommitWorld) (b : Batch) : M StepOutcome :=
  let! r := attempt (try_commit now w b) in
  match r with
  | Ok outcome => retM outcome
  | Err e => after_failure now w b e
  end.

(** ** Rechecks *)

(** [Pipeline::recheck_for_batch]: the batch, unless it was dropped or is held again. *)
Definition recheck_for_batch (now : Instant) (w : RefreshWorld) (b : Batch) : M (option Batch) :=
  let! r := attempt (refresh_and_reset now w) in
  match r with
  | Err e =>
      if decide (kafka_class e = ConsumerFatal) then failM e
      else
        do! modify (set_blocked (Some (kafka_block_reason e))) in
        do! modify (hold now b blocked_recheck For_Operator) in
        retM None
  | Ok changed =>
      let! valid := gets (λ s, bool_decide (moved_in s b = None)) in
      do! modify (reposition_changed now changed (if valid : bool then Some b else None)) in
      if valid : bool then retM (Some b)
      else do! modify (set_blocked None) in retM None
  end.

Definition unresolved (s : Source) : bool :=
  existsb (λ '(_, b), bool_decide (b = B_Unresolved)) (blocked (s_parts s)).

(** The blocked partitions a recheck resolves again: one whose topic was replaced waits for
    its offset to move. *)
Definition to_resolve (s : Source) : list Z :=
  fst <$> List.filter (λ '(p, b),
    match b with
    | B_Replaced recorded _ => bool_decide (base_offset s p ≠ Some (m_offset recorded))
    | _ => true
    end) (blocked (s_parts s)).

(** One partition resolved again. *)
Definition resolve_blocked (now : Instant) (w : gmap Z (Z * Z)) (s : Source) (p : Z) : Source :=
  match w !! p with
  | None => s
  | Some (low, high) =>
      let '(base, mark) := default (None, None) (base_of (s_fence s) p) in
      match resolve base mark low high (explicit_entries !! p) with
      | S_Ready offset reread =>
          set_parts (ready_at p offset reread now (s_parts s))
            (match base with
             | None => set_unbased_start (<[p := offset]> (s_unbased_start s)) s
             | Some _ => s
             end)
      | S_Blocked b => set_parts (block p b now (s_parts s)) s
      end
  end.

Definition rearm (now : Instant) (s : Source) : Source :=
  match blocked (s_parts s) with
  | [] => s
  | _ => set_next_recheck (Some (now + blocked_recheck)) s
  end.

(** [Pipeline::recheck_blocked] *)
Definition recheck_blocked (now : Instant) (w : RefreshWorld)
    (watermarks : list Z → result Error (gmap Z (Z * Z))) : M unit :=
  do! modify (set_next_recheck None) in
  let! r := attempt (refresh_and_reset now w) in
  match r with
  | Err e =>
      if decide (kafka_class e = ConsumerFatal) then failM e
      else modify (λ s,
        set_next_recheck (Some (now + blocked_recheck))
          (if unresolved s then set_blocked (Some (kafka_block_reason e)) s else s))
  | Ok changed =>
      do! modify (reposition_changed now changed None) in
      let! ps := gets to_resolve in
      match ps with
      | [] => modify (λ s, rearm now (set_blocked None s))
      | _ =>
          match watermarks ps with
          | Err _ => modify (set_next_recheck (Some (now + blocked_recheck)))
          | Ok wm =>
              modify (λ s, rearm now (fold_left (resolve_blocked now wm) ps (set_blocked None s)))
          end
      end
  end.

(** ** Assigning and giving up *)

(** [Pipeline::read_starts] *)
Definition read_starts (now : Instant) (w : RefreshWorld) (ps : list Z)
    (watermarks : result Error (gmap Z (Z * Z))) : M (list (Z * Start) * gmap Z (Z * Z)) :=
  do! refresh_target w in
  do! reset_fence ps in
  do! modify (set_refreshed_at now) in
  let! wm := liftM watermarks in
  let! starts := gets (λ s, (λ p,
    let '(low, high) := default (0, 0) (wm !! p) in
    let '(base, mark) := default (None, None) (base_of (s_fence s) p) in
    (p, resolve base mark low high (explicit_entries !! p))) <$> ps) in
  do! modify (λ s, set_unbased_start (list_to_map (omap (λ '(p, st),
    match base_offset s p, st with
    | None, S_Ready offset _ => Some (p, offset)
    | _, _ => None
    end) (rev starts))) s) in
  retM (starts, wm).

(** What an assignment makes of one partition's start. *)
Definition place (now : Instant) (s : Source) (start : Z * Start) : Source :=
  let '(p, st) := start in
  match st with
  | S_Ready offset reread => set_parts (ready_at p offset reread now (s_parts s)) s
  | S_Blocked b =>
      set_parts (block p b now (s_parts s))
        (if decide (b = B_Unresolved) then s else arm_recheck (now + blocked_recheck) s)
  end.

Definition blocked_starts (starts : list (Z * Start)) : list Z :=
  omap (λ '(p, st), match st with S_Blocked _ => Some p | S_Ready _ _ => None end) starts.

(** [Pipeline::assign_partitions]; [assigned] is librdkafka's answer. *)
Definition assign_partitions (now : Instant) (w : RefreshWorld) (ps : list Z)
    (watermarks : result Error (gmap Z (Z * Z))) (once : bool) (assigned : result Error unit)
    : M unit :=
  do! modify (set_parts ∅) in
  let! resolved := attempt (read_starts now w ps watermarks) in
  let! se :=
    match resolved with
    | Ok r => retM r
    | Err e =>
        if bool_decide (kafka_class e = ConsumerFatal) || once then failM e
        else
          do! modify (set_blocked (Some (kafka_block_reason e))) in
          do! modify (set_next_recheck (Some (now +
            if decide (kafka_class e = Transient) then BACKOFF_MIN * 5 else blocked_recheck))) in
          retM ((λ p, (p, S_Blocked B_Unresolved)) <$> ps, ∅)
    end in
  let '(starts, ends) := se in
  do! modify (λ s, fold_left (place now) starts s) in
  do! liftM assigned in
  do! modify (λ s, pause (list_to_set (blocked_starts starts)) (set_paused ∅ s)) in
  if once then modify (set_once_end (Some (snd <$> ends))) else retM tt.

(** [Pipeline::unassign]; [unassigned] is librdkafka's answer. *)
Definition unassign (unassigned : result Error unit) : M unit :=
  do! modify (λ s,
    set_parts ∅ (set_paused ∅ (set_unbased_start ∅
      (set_fence (foldr forget (s_fence s) (owned (s_parts s)))
        (set_decoder [] (set_buf buffer_default (set_held None (set_held_for None
          (set_stalled None (set_blocked None (set_next_recheck None s))))))))))) in
  liftM unassigned.

Inductive Flushed := F_Committed (o : StepOutcome) | F_Dropped | F_TimedOut | F_Nothing.

(** [Pipeline::flush_inner]; a commit that runs out of time is dropped where it stands, here
    before its first effect. *)
Definition flush_inner (now : Instant) (w : CommitWorld)
    (finished : result Error (list Undecodable)) (in_time : bool) : M Flushed :=
  let! s := gets (λ s, s) in
  if bool_decide (s_held s = None) && buffer_is_empty (s_buf s) then retM F_Nothing
  else if bool_decide (is_Some (s_blocked s)) || bool_decide (is_Some (s_stalled s) )
  then retM F_Dropped
  else
    let! b := match s_held s with
              | Some h => do! modify (set_held None) in retM (h_batch h)
              | None => close finished
              end in
    if negb in_time then retM F_TimedOut
    else
      let! r := attempt (try_commit now w b) in
      retM (match r with Ok o => F_Committed o | Err _ => F_Dropped end).

Definition flush (now : Instant) (w : CommitWorld) (finished : result Error (list Undecodable))
    (in_time : bool) : M (option StepOutcome) :=
  let! f := flush_inner now w finished in_time in
  retM (match f with F_Committed o => Some o | _ => None end).

Definition flush_then_unassign (now : Instant) (w : CommitWorld)
    (finished : result Error (list Undecodable)) (in_time : bool) (unassigned : result Error unit)
    : M (option StepOutcome) :=
  let! s := gets (λ s, s) in
  let! o := if decide (s_parts s = ∅) then retM None else flush now w finished in_time in
  do! unassign unassigned in
  retM o.

Definition drop_and_unassign (unassigned : result Error unit) : M unit := unassign unassigned.

(** ** What a step does next *)

Inductive Work :=
  W_Waiting | W_Done | W_Committed (o : StepOutcome) | W_Batch (b : Batch) | W_Retry (b : Batch).

Record PollWorld := {
  pw_recheck : RefreshWorld;
  pw_watermarks : list Z → result Error (gmap Z (Z * Z));
  pw_fed : result Error unit;
}.

Definition feed_due (now : Instant) (w : PollWorld) : M unit :=
  let! stalled := gets s_stalled in
  match stalled with
  | Some st => if st_due st <=? now then feed_stalled now (pw_fed w) else retM tt
  | None => retM tt
  end.

(** [Pipeline::due_work] *)
Definition due_work (now : Instant) (w : PollWorld) : M (option Work) :=
  let! s := gets (λ s, s) in
  match s_held s with
  | Some h =>
      if h_due h <=? now then
        do! modify (set_held None) in
        do! modify (set_last_backoff (Some (h_backoff h))) in
        if negb (h_retrying h) && bool_decide (s_held_for s = Some For_Operator) then
          let! kept := recheck_for_batch now (pw_recheck w) (h_batch h) in
          retM (W_Retry <$> kept)
        else retM (Some (W_Retry (h_batch h)))
      else
        do! feed_due now w in retM None
  | None =>
      do! feed_due now w in
      let! t := gets s_next_recheck in
      do! (match t with
           | Some t => if t <=? now then recheck_blocked now (pw_recheck w) (pw_watermarks w)
                       else retM tt
           | None => retM tt
           end) in
      retM None
  end.

(** [Pipeline::once_done] *)
Definition once_done (now : Instant) (s : Source) : result Error (option Work) :=
  match s_once_end s with
  | None => Ok None
  | Some ends =>
      if negb (buffer_is_empty (s_buf s)) || bool_decide (is_Some (s_held s))
         || bool_decide (is_Some (s_stalled s)) then Ok None
      else if negb (forallb (λ '(p, e), done p e ONCE_IDLE now (s_parts s)) (map_to_list ends))
      then Ok None
      else match head (blocked (s_parts s)) with
           | Some (p, b) => Err (block_error b (c_topic cfg) p)
           | None => Ok (Some W_Done)
           end
  end.

(** Whether the poll closes the buffer after a message. *)
Definition closes_now (l : Limits) (decoded_bytes : Z) (now : Instant) (s : Source) : bool :=
  bool_decide (s_stalled s = None) && bool_decide (s_held s = None)
  && closes l decoded_bytes now (s_buf s).

(** Whether the poll lets paused partitions go on. *)
Definition may_release (s : Source) : bool :=
  bool_decide (s_held s = None) && bool_decide (s_stalled s = None)
  && bool_decide (s_blocked s = None).
End Member.

(** ** Progress (src/kafka/mod.rs) *)

Definition pipeline_blocked (s : Source) : option string :=
  match s_blocked s with
  | Some b => Some b
  | None => s_stalled s ≫= st_blocking
  end.

Record KafkaProgress := {
  kp_assigned : Z;
  kp_caught_up : bool;
  kp_last_commit : option Instant;
  kp_retrying : bool;
  kp_blocked : bool;
  kp_held_whole : bool;
  kp_reset : bool;
  kp_capacity : bool;
}.

(** [caught_up] is what the statistics say. *)
Definition progress (caught_up : bool) (s : Source) : KafkaProgress :=
  {| kp_assigned := Z.of_nat (size (s_parts s));
     kp_caught_up := caught_up;
     kp_last_commit := s_last_commit s;
     kp_retrying := match s_held s with Some h => h_retrying h | None => false end
                    || bool_decide (is_Some (s_stalled s));
     kp_blocked := bool_decide (is_Some (s_blocked s))
                   || bool_decide (blocked (s_parts s) ≠ [])
                   || match s_held s with Some h => negb (h_retrying h) | None => false end;
     kp_held_whole := bool_decide (is_Some (pipeline_blocked s));
     kp_reset := s_reset_this_step s;
     kp_capacity := bool_decide (is_Some (s_held s))
                    && bool_decide (s_held_for s = Some For_Capacity) |}.

(** [KafkaProgress::counts] *)
Definition counts (allowed_latency : Duration) (now : Instant) (k : KafkaProgress) : bool :=
  if kp_retrying k || kp_blocked k || kp_reset k then false
  else (kp_assigned k =? 0) || kp_caught_up k
       || match kp_last_commit k with
          | Some t => duration_since now t <=? allowed_latency + seconds 60
          | None => false
          end.
