(* ===== verification/MemberSound.v ===== *)
(** * MemberSound: what every handler of a member preserves

    [sound] says of a member's state that every partition stands where the table, the buffer
    and the batch in flight say, and that the buffer and the batch hold exactly the topic's
    messages between.  [ready_state] adds what holds between two handlers: a held batch or a
    message that waits leaves nothing to be taken.  Each handler of src/kafka/step.rs and
    src/kafka/rebalance.rs preserves them ([*_sound], [*_ready]). *)

From Stdlib Require Import ZArith Lia Sorted.
From stdpp Require Import base list strings gmap sorting.
From S2P Require Import Prelude Error Partitions Topic Takeover TxnLog Fence Start Member.

Open Scope Z_scope.

(** ** Lemmas on the state *)

Lemma owned_elem (ps : Partitions) p : p ∈ owned ps ↔ is_Some (ps !! p).
Proof. apply sorted_keys_elem. Qed.

Lemma blocked_elem (ps : Partitions) p b :
  (p, b) ∈ blocked ps ↔ ∃ since, ps !! p = Some (Blocked b since).
Proof.
  unfold blocked. rewrite list_elem_of_omap. split.
  - intros (q & _ & Hq). destruct (ps !! q) as [[|b' since]|] eqn:E; try done. simplify_eq. eauto.
  - intros [since H]. exists p. rewrite owned_elem, H. eauto.
Qed.

Lemma blocked_nil (ps : Partitions) :
  blocked ps = [] ↔ ∀ p b since, ps !! p ≠ Some (Blocked b since).
Proof.
  split.
  - intros H p b since Hp. assert (Hin : (p, b) ∈ blocked ps) by (apply blocked_elem; eauto).
    rewrite H in Hin. by apply not_elem_of_nil in Hin.
  - intros H. destruct (blocked ps) as [|[p b] l] eqn:E; [done|].
    assert (Hin : (p, b) ∈ blocked ps) by (rewrite E; by left).
    apply blocked_elem in Hin as [since Hp]. by apply H in Hp.
Qed.

(** Equal up to when a message last came. *)
Definition same_state (a b : option State) : Prop :=
  match a, b with
  | Some (Ready n st r _), Some (Ready n' st' r' _) => n = n' ∧ st = st' ∧ r = r'
  | Some (Blocked b _), Some (Blocked b' _) => b = b'
  | None, None => True
  | _, _ => False
  end.

Lemma same_state_refl a : same_state a a.
Proof. by destruct a as [[]|]. Qed.

Lemma same_state_trans a b c : same_state a b → same_state b c → same_state a c.
Proof.
  destruct a as [[]|], b as [[]|], c as [[]|]; simpl; try done; try naive_solver.
Qed.

Lemma polled_again_same q now (ps : Partitions) p : same_state (ps !! p) (polled_again q now ps !! p).
Proof.
  unfold polled_again. rewrite map_lookup_imap. destruct (ps !! p) as [[]|]; simpl; try done.
  by destruct (match q with None => true | Some p' => p' =? p end).
Qed.

Lemma polled_each_same now l (ps : Partitions) p :
  same_state (ps !! p) (foldr (λ q ps, polled_again (Some q) now ps) ps l !! p).
Proof.
  induction l as [|q l IH]; simpl; [apply same_state_refl|].
  eapply same_state_trans; [exact IH|]. apply polled_again_same.
Qed.

(** ** The monad *)

Lemma bindM_ok {A B} (m : M A) (k : A → M B) s s' b :
  bindM m k s = (s', Ok b) → ∃ s1 a, m s = (s1, Ok a) ∧ k a s1 = (s', Ok b).
Proof. unfold bindM. destruct (m s) as [s1 [a|e]]; [|done]. eauto. Qed.

(** ** The specification *)

(** Every offset the fence holds is one. *)
Definition offsets_ok (s : Source) : Prop :=
  ∀ p b, base_offset s p = Some b → 0 ≤ b < i64_max.

(** Where a partition is read from, its offset being [base]. *)
Definition batch_start (s : Source) (base : option Z) (p : Z) : Z :=
  match base with
  | Some b => b + 1
  | None => default 0 (s_unbased_start s !! p)
  end.

Definition start_of (s : Source) (p : Z) : Z := batch_start s (base_offset s p) p.

(** The messages taken since the buffer was opened: fed, or waiting to be. *)
Definition pending (s : Source) : list Message :=
  s_decoder s ++ match s_stalled s with Some st => [st_message st] | None => [] end.

(** What a batch in flight says of where a partition stands: nothing once it moved. *)
Definition in_flight (ob : option Batch) (s : Source) (p : Z) : option Z :=
  b ← ob; r ← b_ranges b !! p;
  if decide (b_bases b !! p = Some (base_offset s p)) then Some (r.2 + 1) else None.

(** The offset a Ready partition is to be read from next. *)
Definition owed (ob : option Batch) (s : Source) (p : Z) : Z :=
  match ranges (s_buf s) !! p with
  | Some (_, last) => last + 1
  | None => default (start_of s p) (in_flight ob s p)
  end.

Section Correct.
Context (T : Z → list MessageMark) (HT : ∀ p, topic (T p)).

(** The messages of a partition from [start] up to [last], all of them. *)
Definition whole (p start last : Z) (rows : list MessageMark) : Prop :=
  rows = between (T p) start (last + 1) ∧ start ≤ last ∧ 0 ≤ last < i64_max.

Definition ready_ok (ob : option Batch) (s : Source) (p : Z) (st : State) : Prop :=
  match st with
  | Ready next _ r _ =>
      lower (Some st) = owed ob s p ∧ state_ok (Some st) ∧
      (base_offset s p = None → is_Some (s_unbased_start s !! p)) ∧
      (∀ x, r = Some x → next = reread_offset x ∧ ranges (s_buf s) !! p = None ∧
        ob ≫= (λ b, b_ranges b !! p) = None)
  | Blocked _ _ => True
  end.

(** A batch in flight: of each partition, all the topic's messages from the offset it was
    read from. *)
Record batch_whole (s : Source) (b : Batch) : Prop := {
  bw_some : b_ranges b ≠ ∅;
  bw_owned p : is_Some (b_ranges b !! p) → is_Some (s_parts s !! p);
  bw_rows p : is_Some (b_rows b !! p) → is_Some (b_ranges b !! p);
  bw_range p first last : b_ranges b !! p = Some (first, last) →
    ∃ base rows, b_bases b !! p = Some base ∧ b_rows b !! p = Some rows ∧
      whole p (batch_start s base p) last rows;
}.

Record sound (ob : option Batch) (s : Source) : Prop := {
  sd_offsets : offsets_ok s;
  sd_unbased p u : s_unbased_start s !! p = Some u → 0 ≤ u ≤ i64_max;
  sd_ready p st : s_parts s !! p = Some st → ready_ok ob s p st;
  sd_buf p first last : ranges (s_buf s) !! p = Some (first, last) →
    is_Some (s_parts s !! p) ∧
    whole p (start_of s p) last (of_partition p (pending s));
  sd_nobuf p : ranges (s_buf s) !! p = None → of_partition p (pending s) = [];
  sd_empty : buffer_is_empty (s_buf s) = true ↔ ranges (s_buf s) = ∅;
  sd_batch b : ob = Some b → batch_whole s b ∧ ranges (s_buf s) = ∅;
}.

(** A state that looks the same. *)
Record alike (s s' : Source) : Prop := {
  al_parts p : same_state (s_parts s !! p) (s_parts s' !! p);
  al_buf : s_buf s' = s_buf s;
  al_pending : pending s' = pending s;
  al_unbased : s_unbased_start s' = s_unbased_start s;
  al_base p : base_offset s' p = base_offset s p;
}.

Lemma alike_is_Some s s' p : alike s s' → is_Some (s_parts s !! p) ↔ is_Some (s_parts s' !! p).
Proof.
  intros Ha. pose proof (al_parts _ _ Ha p) as H.
  destruct (s_parts s !! p) as [[]|], (s_parts s' !! p) as [[]|]; try done; split; by eexists.
Qed.

Lemma sound_alike ob s s' : alike s s' → sound ob s → sound ob s'.
Proof.
  intros Ha Hs. pose proof Ha as [Hp Hb Hpe Hu Hba].
  assert (Hst : ∀ base p, batch_start s' base p = batch_start s base p)
    by (intros; unfold batch_start; by rewrite Hu).
  assert (Hso : ∀ p, start_of s' p = start_of s p) by (intros; unfold start_of; by rewrite Hba, Hst).
  assert (How : ∀ p, owed ob s' p = owed ob s p).
  { intros p. unfold owed, in_flight. rewrite Hb, Hso. destruct (ranges (s_buf s) !! p) as [[]|]; [done|].
    f_equal. destruct ob as [b|]; [|done]. simpl. destruct (b_ranges b !! p); [|done]. simpl.
    by rewrite Hba. }
  split.
  - intros p b. rewrite Hba. by apply (sd_offsets _ _ Hs).
  - rewrite Hu. apply (sd_unbased _ _ Hs).
  - intros p st Hst'. specialize (Hp p). rewrite Hst' in Hp.
    destruct (s_parts s !! p) as [st0|] eqn:E; [|by destruct st].
    pose proof (sd_ready _ _ Hs p st0 E) as Hr.
    destruct st0 as [n start r lm|b t], st as [n' start' r' lm'|b' t']; try done.
    destruct Hp as (<- & <- & <-). unfold ready_ok in *. simpl in *.
    rewrite How, Hba, Hu, Hb. done.
  - intros p f l. rewrite Hb, Hpe, Hso, <- (alike_is_Some _ _ p Ha). apply (sd_buf _ _ Hs).
  - intros p. rewrite Hb, Hpe. apply (sd_nobuf _ _ Hs).
  - rewrite Hb. apply (sd_empty _ _ Hs).
  - intros b Hob. destruct (sd_batch _ _ Hs b Hob) as [[H1 H2 H3 H4] H5]. rewrite Hb.
    split; [|done]. split; [done| |done|].
    + intros p Hr. rewrite <- (alike_is_Some _ _ p Ha). by apply H2.
    + intros p f l Hr. destruct (H4 p f l Hr) as (base & rows & ? & ? & ?).
      exists base, rows. by rewrite Hst.
Qed.

(** ** Reading *)

(** librdkafka hands on the messages of a partition that is not paused from the offset it
    was last told to read from, in order and none left out. *)
Definition in_order (s : Source) (m : Message) : Prop :=
  let p := msg_partition m in
  view p (intake s) ≠ None →
  msg_mark m ∈ T p ∧
  ∀ x, x ∈ T p → lower (view p (intake s)) ≤ m_offset x →
    lower (view p (intake s)) ≤ m_offset (msg_mark m) → m_offset (msg_mark m) ≤ m_offset x.

Lemma take_message_range p q mark raw now b :
  ranges (take_message p mark raw now b) !! q =
  if decide (p = q)
  then Some (from_option fst (m_offset mark) (ranges b !! p), m_offset mark)
  else ranges b !! q.
Proof.
  unfold take_message; simpl. case_decide as E; [subst q|];
    destruct (ranges b !! p) as [[]|]; by rewrite ?lookup_insert_eq, ?lookup_insert_ne.
Qed.

(** What taking a message does to the state of its partition, when it is taken. *)
Lemma take_one_cases m s a i :
  take_one m (intake s) = (a, i) →
  match a with
  | Some (Take _) =>
      ∃ st st', view (msg_partition m) (intake s) = Some st ∧
        view_step (msg_mark m) (msg_at m) (Some st) = (a, Some st') ∧
        parts i = <[msg_partition m := st']> (s_parts s) ∧ paused i = s_paused s ∧
        buf i = take_message (msg_partition m) (msg_mark m) (msg_raw m) (msg_at m) (s_buf s)
  | Some (Drop _) =>
      buf i = s_buf s ∧ paused i = s_paused s ∧
      ((parts i = s_parts s ∧ s_parts s !! msg_partition m = None) ∨
       ∃ st st', view (msg_partition m) (intake s) = Some st ∧
        view_step (msg_mark m) (msg_at m) (Some st) = (a, Some st') ∧
        parts i = <[msg_partition m := st']> (s_parts s))
  | Some (AdmitBlock b) =>
      buf i = s_buf s ∧ paused i = {[msg_partition m]} ∪ s_paused s ∧
      ∃ st since, view (msg_partition m) (intake s) = Some st ∧
        parts i = <[msg_partition m := Blocked b since]> (s_parts s)
  | None => i = intake s
  end.
Proof.
  unfold take_one, admit_message, view. simpl. case_decide as Hp; [by intros [= <- <-]|].
  destruct (s_parts s !! msg_partition m) as [st|] eqn:E.
  - destruct (admit_state st _ _) as [b st'] eqn:Ea. destruct b as [g|w|bl]; intros [= <- <-]; simpl.
    + exists st, st'. by rewrite Ea.
    + split; [done|]. split; [done|]. right. exists st, st'. by rewrite Ea.
    + split; [done|]. split; [done|]. exists st. unfold block. rewrite lookup_insert_eq.
      eexists. split; [done|]. by rewrite insert_insert_eq.
  - intros [= <- <-]. by split; [|split; [|left]].
Qed.

(** A state once a message was admitted, its re-read and its offsets as they were. *)
Lemma view_step_reread m now st a next start r lm :
  view_step m now (Some st) = (a, Some (Ready next start (Some r) lm)) →
  ∃ lm', st = Ready next start (Some r) lm' ∧ takes a = false.
Proof.
  unfold view_step. destruct st as [n s0 [x|] l|]; simpl; [| |by intros [= <-]].
  - destruct (_ =? _); [destruct x as [rec|o]; [destruct (_ && _)|]|destruct (_ <? _)];
      unfold admit_next; try destruct (_ <? _); intros [= <- <- <- <- <-]; eauto; done.
  - unfold admit_next. destruct (_ <? _); by intros [= <-].
Qed.

(** The fields [owed] and [start_of] read. *)
Lemma start_of_eq s s' p :
  base_offset s' p = base_offset s p → s_unbased_start s' !! p = s_unbased_start s !! p →
  start_of s' p = start_of s p.
Proof. unfold start_of, batch_start. by intros -> ->. Qed.

Lemma owed_eq ob s s' p :
  base_offset s' p = base_offset s p → s_unbased_start s' !! p = s_unbased_start s !! p →
  ranges (s_buf s') !! p = ranges (s_buf s) !! p → owed ob s' p = owed ob s p.
Proof.
  intros Hb Hu Hr. unfold owed, in_flight. by rewrite Hr, (start_of_eq s s' p Hb Hu), Hb.
Qed.

(** A partition whose state says the same, seen from the same table and buffer. *)
Lemma ready_ok_eq ob s s' p st :
  base_offset s' p = base_offset s p → s_unbased_start s' !! p = s_unbased_start s !! p →
  ranges (s_buf s') !! p = ranges (s_buf s) !! p → ready_ok ob s p st → ready_ok ob s' p st.
Proof.
  intros Hb Hu Hr. destruct st as [n start r lm|]; [|done]. unfold ready_ok.
  by rewrite (owed_eq ob s s' p Hb Hu Hr), Hb, Hu, Hr.
Qed.

Lemma ready_ok_admitted ob s p st st' m now a :
  ready_ok ob s p st → offset_ok m → view_step m now (Some st) = (a, Some st') →
  takes a = false → ready_ok ob s p st'.
Proof.
  intros Hr Ho Hv Ht. destruct st as [n start r lm|b t].
  2: { simpl in Hv. by simplify_eq. }
  destruct Hr as (Hlow & Hok & Hun & Hre).
  pose proof (view_step_spec _ _ _ _ _ Hok Ho Hv) as [Hok' Hl].
  destruct st' as [n' start' r' lm'|]; [|done]. split; [|split; [done|split; [done|]]].
  - rewrite <- Hlow. by destruct a as [[| |]|].
  - intros x ->. apply view_step_reread in Hv as (lm0 & [= -> -> ->] & _). by apply Hre.
Qed.

Lemma offset_ok_elem p m : m ∈ T p → offset_ok m.
Proof. destruct (HT p) as [_ H]. rewrite Forall_forall in H. apply H. Qed.

(** A message taken. *)
Lemma took_sound s s' m st st' g :
  let p := msg_partition m in
  sound None s → 0 ≤ messages (s_buf s) < u64_max →
  s_parts s !! p = Some st → msg_mark m ∈ T p →
  (∀ x, x ∈ T p → lower (Some st) ≤ m_offset x → lower (Some st) ≤ m_offset (msg_mark m) →
    m_offset (msg_mark m) ≤ m_offset x) →
  view_step (msg_mark m) (msg_at m) (Some st) = (Some (Take g), Some st') →
  s_parts s' = <[p := st']> (s_parts s) →
  s_buf s' = take_message p (msg_mark m) (msg_raw m) (msg_at m) (s_buf s) →
  pending s' = pending s ++ [m] →
  s_unbased_start s' = s_unbased_start s → (∀ q, base_offset s' q = base_offset s q) →
  sound None s'.
Proof.
  intros p Hs Hcount Hst HmT Hnext Hv Hparts Hbuf Hpend Hun Hbase.
  assert (Ho : offset_ok (msg_mark m)) by (by eapply offset_ok_elem).
  assert (Hso : ∀ q, start_of s' q = start_of s q) by (intros; apply start_of_eq; [done|by rewrite Hun]).
  pose proof (sd_ready _ _ Hs p st Hst) as Hr.
  destruct st as [n start r lm|]; [|by simpl in Hv]. destruct Hr as (Hlow & Hok & Hub & _).
  pose proof (view_step_spec _ _ _ _ _ Hok Ho Hv) as (Hok' & Hle & _ & Hlow').
  assert (Hrows : of_partition p (pending s) = between (T p) (start_of s p) (owed None s p) ∧
    start_of s p ≤ owed None s p).
  { unfold owed. destruct (ranges (s_buf s) !! p) as [[f l]|] eqn:E.
    - destruct (sd_buf _ _ Hs p f l E) as (_ & -> & ? & _). split; [done|lia].
    - rewrite (sd_nobuf _ _ Hs p E). simpl. by rewrite between_empty. }
  destruct Hrows as [Hrows Hstart]. split.
  - intros q b. rewrite Hbase. apply (sd_offsets _ _ Hs).
  - rewrite Hun. apply (sd_unbased _ _ Hs).
  - intros q stq. rewrite Hparts. destruct (decide (p = q)) as [<-|Hne].
    + rewrite lookup_insert_eq. intros [= <-]. destruct st' as [n' start' r' lm'|]; [|done].
      split; [|split; [done|split]].
      * unfold owed. rewrite Hbuf, take_message_range, decide_True by done. by rewrite Hlow'.
      * by rewrite Hbase, Hun.
      * intros x ->. by apply view_step_reread in Hv as (? & _ & ?).
    + rewrite lookup_insert_ne by done. intros Hq. apply (ready_ok_eq None s); [done|by rewrite Hun| |].
      * by rewrite Hbuf, take_message_range, decide_False.
      * by apply (sd_ready _ _ Hs).
  - intros q f l. rewrite Hbuf, take_message_range, Hpend, of_partition_snoc, Hparts, Hso. fold p.
    case_decide as E.
    + subst q. intros [= _ <-]. rewrite lookup_insert_eq, Z.eqb_refl. split; [by eexists|].
      rewrite Hrows. unfold offset_ok in Ho. rewrite Hlow in *. split; [|lia]. symmetry.
      apply between_snoc; [apply HT|done|lia|]. intros x Hx Hxl. by apply Hnext.
    + destruct (Z.eqb_spec p q); [done|]. rewrite app_nil_r, lookup_insert_ne by done.
      apply (sd_buf _ _ Hs).
  - intros q. rewrite Hbuf, take_message_range, Hpend, of_partition_snoc. fold p.
    case_decide; [done|]. destruct (Z.eqb_spec p q); [done|]. rewrite app_nil_r.
    apply (sd_nobuf _ _ Hs).
  - rewrite Hbuf. split.
    + unfold buffer_is_empty, take_message; simpl.
      rewrite u64_small by width_lia. intros ?%Z.eqb_eq. lia.
    + intros He%(f_equal (.!! p)). rewrite take_message_range, decide_True in He by done.
      by rewrite lookup_empty in He.
  - done.
Qed.

(** A message dropped, or one that blocks its partition: only the partition's state moved. *)
Lemma dropped_sound ob s s' p st' :
  sound ob s → s_parts s' = <[p := st']> (s_parts s) → is_Some (s_parts s !! p) →
  ready_ok ob s p st' → s_buf s' = s_buf s → pending s' = pending s →
  s_unbased_start s' = s_unbased_start s → (∀ q, base_offset s' q = base_offset s q) →
  sound ob s'.
Proof.
  intros Hs Hparts Hin Hr Hbuf Hpend Hun Hbase.
  assert (Hso : ∀ q, start_of s' q = start_of s q) by (intros; apply start_of_eq; [done|by rewrite Hun]).
  assert (Hdom : ∀ q, is_Some (s_parts s !! q) → is_Some (s_parts s' !! q)).
  { intros q Hq. rewrite Hparts. destruct (decide (p = q)) as [<-|];
      [rewrite lookup_insert_eq; by eexists|by rewrite lookup_insert_ne]. }
  split.
  - intros q b. rewrite Hbase. apply (sd_offsets _ _ Hs).
  - rewrite Hun. apply (sd_unbased _ _ Hs).
  - intros q st Hq. apply (ready_ok_eq ob s); [done|by rewrite Hun|by rewrite Hbuf|].
    rewrite Hparts in Hq. destruct (decide (p = q)) as [<-|].
    + rewrite lookup_insert_eq in Hq. by simplify_eq.
    + rewrite lookup_insert_ne in Hq by done. by apply (sd_ready _ _ Hs).
  - intros q f l. rewrite Hbuf, Hpend, Hso. intros Hq.
    destruct (sd_buf _ _ Hs q f l Hq) as [? ?]. split; [by apply Hdom|done].
  - intros q. rewrite Hbuf, Hpend. apply (sd_nobuf _ _ Hs).
  - rewrite Hbuf. apply (sd_empty _ _ Hs).
  - intros b Hob. destruct (sd_batch _ _ Hs b Hob) as [[H1 H2 H3 H4] H5]. rewrite Hbuf.
    split; [|done]. split; [done|by intros q Hq; apply Hdom, H2|done|].
    intros q f l Hq. destruct (H4 q f l Hq) as (base & rows & ? & ? & ?). exists base, rows.
    unfold batch_start. by rewrite Hun.
Qed.

(** Everything owned is paused: nothing is taken. *)
Definition quiet (s : Source) : Prop := dom (s_parts s) ⊆ s_paused s.

Lemma quiet_view s p : quiet s → view p (intake s) = None.
Proof.
  intros Hq. unfold view; simpl. case_decide as Hp; [done|].
  destruct (s_parts s !! p) eqn:E; [|done]. exfalso. apply Hp, Hq, elem_of_dom. by eexists.
Qed.

Lemma view_Some s p st : view p (intake s) = Some st → s_parts s !! p = Some st.
Proof. unfold view; simpl. by case_decide. Qed.

Section Handlers.
Context (cfg : Config).

Lemma stall_ok now m e last s s' :
  stall cfg now m e last s = (s', Ok tt) →
  ∃ st, st_message st = m ∧ s' = pause_all (set_stalled (Some st) s).
Proof. unfold stall. case_decide; [done|]. intros [= <-]. by eexists (Build_Stalled _ _ _ _). Qed.

Lemma pending_feed m s : s_stalled s = None → pending (feed m s) = pending s ++ [m].
Proof. intros E. unfold pending, feed; simpl. by rewrite E, !app_nil_r. Qed.

Lemma take_in_quiet ob m fed s s' :
  quiet s → sound ob s → take_in cfg m fed s = (s', Ok tt) → sound ob s' ∧ quiet s'.
Proof.
  intros Hq Hs. unfold take_in, bindM. destruct (take_one m (intake s)) as [a i] eqn:E.
  apply take_one_cases in E. pose proof (quiet_view s (msg_partition m) Hq) as Hv.
  assert (Hnone : ∀ i, i = intake s → sound ob (set_intake i s) ∧ quiet (set_intake i s)).
  { intros ? ->. split; [|done]. apply (sound_alike _ s); [|done]. by split; intros; try apply same_state_refl. }
  destruct a as [[g|w|b]|].
  - destruct E as (st & st' & E & _). congruence.
  - destruct E as (E1 & E2 & [[E3 _]|(st & st' & E3 & _)]); [|congruence].
    intros [= <-]. apply Hnone. destruct i; simpl in *. by subst.
  - destruct E as (_ & _ & st & since & E & _). congruence.
  - intros [= <-]. by apply Hnone.
Qed.

Lemma take_in_sound m fed s s' :
  sound None s → s_stalled s = None → in_order s m → 0 ≤ messages (s_buf s) < u64_max →
  take_in cfg m fed s = (s', Ok tt) → sound None s'.
Proof.
  intros Hs Hst Hord Hcount. unfold take_in, bindM.
  destruct (take_one m (intake s)) as [a i] eqn:E. apply take_one_cases in E.
  destruct a as [[g|w|b]|].
  - destruct E as (st & st' & Hv & Hstep & Hparts & Hpaused & Hbuf).
    destruct Hord as [HmT Hnext]; [congruence|]. rewrite Hv in Hnext.
    pose proof (view_Some _ _ _ Hv) as Hp. intros H.
    assert (Htook : ∀ s1, s_parts s1 = parts i → s_buf s1 = buf i → pending s1 = pending s ++ [m] →
      s_unbased_start s1 = s_unbased_start s → (∀ q, base_offset s1 q = base_offset s q) →
      sound None s1).
    { intros s1 H1 H2 H3 H4 H5. eapply (took_sound s s1 m st st' g); try done; congruence. }
    destruct fed as [u|e].
    + injection H as <-. apply Htook; try done. by rewrite pending_feed.
    + apply stall_ok in H as (x & Hx & ->). apply Htook; try done.
      unfold pending; simpl. by rewrite Hst, app_nil_r, Hx.
  - destruct E as (Hbuf & Hpaused & [[Hparts _]|(st & st' & Hv & Hstep & Hparts)]); intros [= <-].
    + apply (sound_alike _ s); [|done].
      split; simpl; intros; rewrite ?Hparts, ?Hbuf; try done; apply same_state_refl.
    + pose proof (view_Some _ _ _ Hv) as Hp. destruct Hord as [HmT _]; [congruence|].
      apply (dropped_sound None s _ (msg_partition m) st'); try done.
      eapply ready_ok_admitted; [by apply (sd_ready _ _ Hs)|by eapply offset_ok_elem|done|done].
  - destruct E as (Hbuf & Hpaused & st & since & Hv & Hparts). intros [= <-].
    pose proof (view_Some _ _ _ Hv) as Hp.
    apply (dropped_sound None s _ (msg_partition m) (Blocked b since)); done.
  - intros [= <-]. subst i. apply (sound_alike _ s); [|done].
    by split; intros; try apply same_state_refl.
Qed.

Lemma feed_stalled_sound ob now fed s s' :
  sound ob s → feed_stalled cfg now fed s = (s', Ok tt) → sound ob s'.
Proof.
  intros Hs. unfold feed_stalled, bindM, gets, modify. destruct (s_stalled s) as [x|] eqn:Ex.
  2: { by intros [= <-]. }
  intros H. apply (sound_alike _ s); [|done].
  assert (Hpend : pending s = s_decoder s ++ [st_message x]) by (unfold pending; by rewrite Ex).
  destruct fed as [u|e].
  - injection H as <-. split; try done; [intros; apply same_state_refl|].
    rewrite Hpend. unfold pending; simpl. by rewrite app_nil_r.
  - apply stall_ok in H as (y & Hy & ->). split; try done; [intros; apply same_state_refl|].
    rewrite Hpend. unfold pending; simpl. by rewrite Hy.
Qed.

(** Closing the buffer turns it into the batch in flight. *)
Lemma close_sound finished s s' b :
  sound None s → s_stalled s = None → ranges (s_buf s) ≠ ∅ →
  close finished s = (s', Ok b) → sound (Some b) s' ∧ batch_whole s' b ∧
    s_parts s' = s_parts s ∧ s_fence s' = s_fence s ∧ s_stalled s' = None ∧
    s_held s' = s_held s.
Proof.
  intros Hs Hst Hne. unfold close, bindM, gets, modify, liftM. destruct finished as [u|]; [|done].
  intros [= <- <-]. set (b := close_batch _ _ _ _).
  match goal with |- sound _ ?x ∧ _ => set (s1 := x) end.
  assert (Hpend : pending s = s_decoder s) by (unfold pending; by rewrite Hst, app_nil_r).
  assert (Hpend' : pending s1 = []) by (unfold pending, s1; simpl; by rewrite Hst).
  assert (Hr : ∀ p, b_ranges b !! p = ranges (s_buf s) !! p) by done.
  assert (Hbases : ∀ p, is_Some (ranges (s_buf s) !! p) → b_bases b !! p = Some (base_offset s p)).
  { intros p [x Hx]. unfold b; simpl. rewrite map_lookup_imap, Hx. done. }
  assert (Hbw : batch_whole s1 b).
  { split; [done| | |].
    - intros p [[f l] Hx]. rewrite Hr in Hx. by apply (sd_buf _ _ Hs) in Hx as [? _].
    - intros p. unfold b; simpl. rewrite map_lookup_imap.
      destruct (ranges (s_buf s) !! p); [by eexists|by intros []].
    - intros p f l Hx. rewrite Hr in Hx. destruct (sd_buf _ _ Hs p f l Hx) as [_ Hw].
      exists (base_offset s p), (of_partition p (s_decoder s)).
      split; [apply Hbases; by eexists|]. split; [|by rewrite <- Hpend].
      unfold b; simpl. by rewrite map_lookup_imap, Hx. }
  split; [|done]. split.
  - apply (sd_offsets _ _ Hs).
  - apply (sd_unbased _ _ Hs).
  - intros p st Hp. pose proof (sd_ready _ _ Hs p st Hp) as H.
    destruct st as [n start r lm|]; [|done]. destruct H as (Hlow & Hok & Hun & Hre).
    split; [|split; [done|split; [done|]]].
    + rewrite Hlow. unfold owed, in_flight. simpl. rewrite lookup_empty.
      destruct (ranges (s_buf s) !! p) as [[f l]|] eqn:E; simpl; [|done].
      rewrite map_lookup_imap, E. simpl. by rewrite decide_True.
    + intros x Hx. destruct (Hre x Hx) as (? & ? & _). split; [done|].
      simpl. by rewrite lookup_empty.
  - intros p f l. simpl. by rewrite lookup_empty.
  - intros p _. by rewrite Hpend'.
  - done.
  - intros ? [= <-]. done.
Qed.

(** ** Refreshing *)

(** A view whose [txn]s of partitions are offsets. *)
Definition valid_view (view : LogView) : Prop :=
  ∀ owned f f', reset view owned f = (f', Ok tt) →
    ∀ p b, f_base f' !! p ≫= fst = Some b → 0 ≤ b < i64_max.

Definition valid_world (w : RefreshWorld) : Prop :=
  (∀ v, rw_update w = Some v → valid_view v) ∧ (∀ v, rw_open w = Ok v → valid_view v).

Lemma reset_shape view own f f' r :
  reset view own f = (f', r) →
  match r with
  | Ok _ => (∀ p, p ∉ own → f_base f' !! p = None) ∧
      ∀ p, p ∈ own → ∃ b, f_base f' !! p = Some b ∧ (is_Some (f_base f !! p ≫= fst) → is_Some b.1)
  | Err _ => f_base f' = f_base f
  end.
Proof.
  unfold reset. destruct (match refuse_txn_retention view with Ok _ => _ | Err _ => _ end) as [r0 below].
  destruct r0 as [txns|e].
  - set (f1 := read_marker txns _). destruct (read_marker_same txns (set_below (default (f_below f) below) f))
      as (Ha & Hb & _). fold f1 in Ha, Hb.
    destruct (vanished f1 own txns) as [|x l] eqn:Ev; intros [= <- <-].
    + split.
      * intros p Hp. cbn [set_carried set_base f_base]. by rewrite read_base_lookup, decide_False.
      * intros p Hp. cbn [set_carried set_base f_base]. rewrite read_base_lookup, decide_True by done.
        eexists. split; [done|]. simpl. intros [o Ho].
        destruct (txn_version (default txn_default (txns !! txn_app_id (f_app_id f1) p))) eqn:E;
          [by eexists|]. exfalso.
        assert (Hin : (p, o) ∈ vanished f1 own txns).
        { unfold vanished. apply list_elem_of_omap. exists p. split; [done|].
          rewrite Hb. cbn [set_below f_base]. rewrite Ho. simpl.
          destruct (txns !! txn_app_id (f_app_id f1) p); simpl in *; [by rewrite E|done]. }
        rewrite Ev in Hin. by apply not_elem_of_nil in Hin.
    + cbn. by rewrite Hb.
  - intros [= <- <-]. by destruct (_ || _).
Qed.

(** What a refresh leaves of a member: everything but its handle and its fence. *)
Lemma refresh_target_spec w s s' r :
  refresh_target cfg w s = (s', r) →
  ∃ v, s' = set_target v s ∧ (r = Ok tt → valid_world w → valid_view v).
Proof.
  assert (Hs : s = set_target (s_target s) s) by (by destruct s).
  assert (Herr : ∀ v (e : Error), ∃ v', set_target v s = set_target v' s ∧
    (Err e = Ok tt → valid_world w → valid_view v')) by (intros v e; by exists v).
  unfold refresh_target, bindM, modify, liftM, retM, gets, failM.
  destruct (rw_update w) as [v|] eqn:Eu.
  - destruct (rw_stored_id w v) as [id|e]; [|intros [= <- <-]; by exists v].
    simpl. destruct (_ && _); [intros [= <- <-]; apply Herr|].
    intros H. exists v. split; [|intros _ [Hv _]; by apply Hv].
    simpl in H. destruct (refuse_txn_retention v); [|by injection H as <- _].
    destruct (rw_unwritable w v); by injection H as <- _.
  - destruct (rw_open w) as [v|e] eqn:Eo; [|intros [= <- <-]; by exists (s_target s)].
    simpl. destruct (_ && _); [intros [= <- <-]; apply Herr|].
    intros H. exists v. split; [|intros _ [_ Hv]; by apply Hv].
    simpl in H. destruct (refuse_txn_retention v); [|by injection H as <- _].
    destruct (rw_unwritable w v); by injection H as <- _.
Qed.

Record refreshed (changed : gset Z) (s s' : Source) : Prop := {
  rf_shape : ∃ v f now, s' = set_refreshed_at now (set_fence f (set_target v s));
  rf_same p : is_Some (s_parts s !! p) → p ∉ changed → base_offset s' p = base_offset s p;
  rf_changed p : p ∈ changed → is_Some (s_parts s !! p) ∧ base_offset s' p ≠ base_offset s p;
  rf_none p : is_Some (s_parts s !! p) → base_offset s' p = None → base_offset s p = None;
  rf_offsets : offsets_ok s';
}.

Lemma refresh_and_reset_ok now w s s' changed :
  valid_world w → refresh_and_reset cfg now w s = (s', Ok changed) → refreshed changed s s'.
Proof.
  intros Hw H. unfold refresh_and_reset in H.
  apply bindM_ok in H as (s0 & before & [= <- <-] & H).
  apply bindM_ok in H as (s1 & [] & H1 & H). apply refresh_target_spec in H1 as (v & -> & Hv).
  specialize (Hv eq_refl Hw).
  apply bindM_ok in H as (s2 & [] & H2 & H). unfold reset_fence in H2.
  destruct (reset _ _ _) as [f r] eqn:Er. injection H2 as <- ->.
  pose proof (reset_shape _ _ _ _ _ Er) as [Hno Hyes]. injection H as <- <-.
  simpl in Hno, Hyes.
  split.
  - by eexists v, f, now.
  - intros p Hp Hc. destruct (decide (base_offset (set_refreshed_at now (set_fence f (set_target v s))) p
      = base_offset s p)) as [E|E]; [done|]. exfalso. apply Hc, elem_of_filter. split; [done|].
    by apply elem_of_dom.
  - intros p [Hne Hp]%elem_of_filter. split; [by apply elem_of_dom|done].
  - intros p Hp Hb. destruct (base_offset s p) as [o|] eqn:E; [|done].
    destruct (Hyes p) as (b & Hbp & Hs); [by apply owned_elem|].
    unfold base_offset, base_of in *. simpl in Hb. rewrite Hbp in Hb. simpl in Hb.
    destruct Hs as [x Hx]; [by eexists|]. congruence.
  - intros p b Hb. by apply (Hv _ _ _ Er p b).
Qed.

Lemma refresh_and_reset_err now w s s' e :
  refresh_and_reset cfg now w s = (s', Err e) →
  ∃ v f, s' = set_fence f (set_target v s) ∧ f_base f = f_base (s_fence s).
Proof.
  unfold refresh_and_reset. unfold bindM at 1, gets at 1. unfold bindM at 1.
  destruct (refresh_target cfg w s) as [s1 [u|e1]] eqn:E1;
    apply refresh_target_spec in E1 as (v & -> & _).
  - unfold bindM at 1, reset_fence at 1. destruct (reset _ _ _) as [f r] eqn:Er.
    apply reset_shape in Er. destruct r; [done|]. intros [= <- <-]. by exists v, f.
  - intros [= <- <-]. exists v, (s_fence s). split; [|done]. by destruct s.
Qed.

(** A failed refresh changes nothing a partition is read by. *)
Lemma alike_base s v f :
  f_base f = f_base (s_fence s) → alike s (set_fence f (set_target v s)).
Proof.
  intros Hf. split; try done; [intros; apply same_state_refl|]. intros p.
  unfold base_offset, base_of; simpl. by rewrite Hf.
Qed.

(** ** Repositioning *)


Lemma reposition_lookup now again s p :
  s_parts (reposition now again s) !! p =
  match s_parts s !! p with
  | Some (Ready n st r lm) =>
      if decide (p ∈ again)
      then let at_ := default 0 (read_again_at s p) in Some (Ready at_ at_ None now)
      else Some (Ready n st r lm)
  | st => st
  end.
Proof.
  assert (E : s_parts (reposition now again s) = map_imap (λ p st,
    if decide (p ∈ filter (λ p, is_ready (s_parts s !! p) = true) again)
    then let at_ := default 0 (read_again_at s p) in Some (Ready at_ at_ None now)
    else Some st) (s_parts s)) by (unfold reposition; simpl; by destruct (decide _)).
  rewrite E, map_lookup_imap. destruct (s_parts s !! p) as [[n st r lm|]|] eqn:Ep; simpl; [| |done].
  - destruct (decide (p ∈ filter _ again)) as [H|H]; rewrite elem_of_filter, Ep in H;
      case_decide; naive_solver.
  - case_decide as H; [|done]. rewrite elem_of_filter, Ep in H. by destruct H.
Qed.

(** What repositioning leaves alone. *)
Lemma reposition_fields now again s :
  let s' := reposition now again s in
  s_buf s' = s_buf s ∧ s_decoder s' = s_decoder s ∧ s_stalled s' = s_stalled s ∧
  s_unbased_start s' = s_unbased_start s ∧ s_fence s' = s_fence s ∧ s_held s' = s_held s ∧
  s_blocked s' = s_blocked s ∧ s_paused s ⊆ s_paused s' ∧ s_held_for s' = s_held_for s.
Proof. clear T HT. unfold reposition, pause. destruct (decide _); simpl; repeat split; set_solver. Qed.

Lemma read_again_start s p :
  offsets_ok s → (base_offset s p = None → is_Some (s_unbased_start s !! p)) →
  read_again_at s p = Some (start_of s p).
Proof.
  intros Ho Hu. unfold read_again_at, start_of, batch_start.
  destruct (base_offset s p) as [b|] eqn:E.
  - rewrite i64_small; [done|]. specialize (Ho p b E). width_lia.
  - by destruct (Hu eq_refl) as [u ->].
Qed.

Lemma start_of_range s p :
  offsets_ok s → (∀ u, s_unbased_start s !! p = Some u → 0 ≤ u ≤ i64_max) →
  0 ≤ start_of s p ≤ i64_max.
Proof.
  intros Ho Hu. unfold start_of, batch_start. destruct (base_offset s p) as [b|] eqn:E.
  - specialize (Ho p b E). lia.
  - destruct (s_unbased_start s !! p) as [u|]; [by apply Hu|]. simpl. width_lia.
Qed.

(** A batch's base does not come back to a partition that was moved off it. *)
Definition no_return (b : Batch) (s s' : Source) : Prop :=
  ∀ p, is_Some (b_ranges b !! p) → b_bases b !! p = Some (base_offset s' p) →
    b_bases b !! p = Some (base_offset s p).

Lemma discard_cases changed s again s' :
  discard_moved_buffer changed s = (again, s') →
  (again = changed ∧ s' = s ∧
     (buffer_is_empty (s_buf s) = true ∨ ∀ p, is_Some (ranges (s_buf s) !! p) → p ∉ changed)) ∨
  (again = changed ∪ dom (ranges (s_buf s)) ∧ ranges (s_buf s) ≠ ∅ ∧
     s' = set_stalled None (set_decoder [] (set_buf buffer_default s))).
Proof.
  clear T HT. unfold discard_moved_buffer. destruct (_ && _) eqn:E; intros [= <- <-].
  - right. apply andb_true_iff in E as [_ E%bool_decide_eq_true]. split; [done|]. split; [|done].
    intros H. rewrite H in E. set_solver.
  - left. split; [done|]. split; [done|]. apply andb_false_iff in E as [E|E%bool_decide_eq_false].
    + left. by destruct (buffer_is_empty (s_buf s)).
    + right. intros p Hp%elem_of_dom Hc. apply E. set_solver.
Qed.

Lemma misplaced_false survives s p n st r lm :
  misplaced survives s p = false → s_parts s !! p = Some (Ready n st r lm) →
  ranges (s_buf s) !! p = None → survives ≫= (λ b, b_ranges b !! p) = None →
  read_again_at s p = Some (start_of s p) → start_of s p = n.
Proof.
  unfold misplaced. intros H Hp Hr Hb Ha. rewrite Hp, Ha in H.
  rewrite !bool_decide_true in H by done. simpl in H.
  by apply negb_false_iff, Z.eqb_eq in H.
Qed.

Lemma misplaced_true survives s p :
  misplaced survives s p = true →
  survives ≫= (λ b, b_ranges b !! p) = None ∧ ranges (s_buf s) !! p = None.
Proof.
  unfold misplaced. destruct (s_parts s !! p) as [[]|]; [|done..].
  rewrite !andb_true_iff, !bool_decide_eq_true. tauto.
Qed.

Lemma refreshed_fields changed s s1 :
  refreshed changed s s1 →
  s_parts s1 = s_parts s ∧ s_buf s1 = s_buf s ∧ pending s1 = pending s ∧
  s_unbased_start s1 = s_unbased_start s.
Proof. intros [(v & f & t & ->) _ _ _ _]. done. Qed.

Section Reposition.
Context (ob : option Batch) (now : Instant) (changed : gset Z) (s s1 : Source).
Context (Hs : sound ob s) (Hrf : refreshed changed s s1).

Lemma refreshed_again p n st r lm :
  s_parts s !! p = Some (Ready n st r lm) →
  read_again_at s1 p = Some (start_of s1 p) ∧
  (base_offset s1 p = None → is_Some (s_unbased_start s1 !! p)).
Proof.
  intros Hp. destruct (refreshed_fields _ _ _ Hrf) as (_ & _ & _ & Hun).
  pose proof (sd_ready _ _ Hs p _ Hp) as (_ & _ & Hub & _).
  assert (Hu : base_offset s1 p = None → is_Some (s_unbased_start s1 !! p)).
  { rewrite Hun. intros Hb. apply Hub, (rf_none _ _ _ Hrf); [by eexists|done]. }
  split; [|done]. apply read_again_start; [|done]. apply (rf_offsets _ _ _ Hrf).
Qed.

Lemma refreshed_range p : 0 ≤ start_of s1 p ≤ i64_max.
Proof.
  destruct (refreshed_fields _ _ _ Hrf) as (_ & _ & _ & Hun).
  apply start_of_range; [apply (rf_offsets _ _ _ Hrf)|]. rewrite Hun. apply (sd_unbased _ _ Hs).
Qed.

Lemma refreshed_start p :
  is_Some (s_parts s !! p) → p ∉ changed → start_of s1 p = start_of s p.
Proof.
  destruct (refreshed_fields _ _ _ Hrf) as (_ & _ & _ & Hun). intros Hp Hc.
  apply start_of_eq; [by apply (rf_same _ _ _ Hrf)|by rewrite Hun].
Qed.

Lemma reposition_owned again s2 p :
  s_parts s2 = s_parts s → is_Some (s_parts s !! p) →
  is_Some (s_parts (reposition now again s2) !! p).
Proof.
  intros E Hp. rewrite reposition_lookup, E.
  destruct (s_parts s !! p) as [[]|]; [case_decide; by eexists|by eexists|by destruct Hp].
Qed.

(** A Ready partition put back where the table says. *)
Lemma put_back_ok ob' s3 p :
  (∀ q, base_offset s3 q = base_offset s1 q) → s_unbased_start s3 = s_unbased_start s1 →
  (base_offset s1 p = None → is_Some (s_unbased_start s1 !! p)) →
  ranges (s_buf s3) !! p = None → in_flight ob' s3 p = None →
  ready_ok ob' s3 p (Ready (start_of s1 p) (start_of s1 p) None now).
Proof.
  intros Hb Hu Hub Hr Hf.
  split; [|split; [split; [apply refreshed_range|done]|split; [by rewrite Hb, Hu|done]]].
  unfold owed. rewrite Hr, Hf. symmetry. apply start_of_eq; [done|by rewrite Hu].
Qed.

Section Kept.
Context (survives : option Batch).
Context (Hnr : ∀ b, ob = Some b → no_return b s s1) (Hsurv : survives = None ∨ survives = ob).
Context (Hkept : ∀ p, is_Some (ranges (s_buf s) !! p) → p ∉ changed).

Let ag := changed ∪ filter (λ p, misplaced survives s1 p = true) (dom (s_parts s1)).
Let s3 := reposition now ag s1.

Lemma kept_again p : p ∈ ag → ranges (s_buf s) !! p = None ∧ in_flight survives s3 p = None.
Proof.
  intros Hag. destruct (refreshed_fields _ _ _ Hrf) as (_ & Hbuf & _ & _).
  destruct (reposition_fields now ag s1) as (_ & _ & _ & _ & F5 & _).
  apply elem_of_union in Hag as [Hc|[[Hm1 Hm2]%misplaced_true _]%elem_of_filter].
  - split.
    + destruct (ranges (s_buf s) !! p) as [x|] eqn:Er; [|done].
      by destruct (Hkept p ltac:(by eexists)).
    + unfold in_flight. destruct survives as [b|]; [|done]. simpl.
      destruct (b_ranges b !! p) as [x|] eqn:Er; [|done]. simpl. rewrite decide_False; [done|].
      destruct Hsurv as [?|Hob]; [done|]. unfold base_offset. unfold s3. rewrite F5. intros Hb.
      apply (Hnr b (eq_sym Hob)) in Hb as Hb'; [|by eexists].
      destruct (rf_changed _ _ _ Hrf p Hc) as [_ Hd]. unfold base_offset in *. congruence.
  - rewrite Hbuf in Hm2. split; [done|]. unfold in_flight.
    destruct survives as [b|]; [|done]. simpl in *. by rewrite Hm1.
Qed.

(** A partition left where it is. *)
Lemma kept_stays p n st r lm :
  s_parts s !! p = Some (Ready n st r lm) → p ∉ ag → ready_ok survives s3 p (Ready n st r lm).
Proof.
  intros Ep Hag. destruct (refreshed_fields _ _ _ Hrf) as (Hparts & Hbuf & _ & Hun).
  destruct (reposition_fields now ag s1) as (F1 & _ & _ & F4 & F5 & _). fold s3 in F1, F4, F5.
  assert (Fbase : ∀ q, base_offset s3 q = base_offset s1 q) by (intros; unfold base_offset; by rewrite F5).
  assert (Hc : p ∉ changed) by (intros Hc; apply Hag, elem_of_union; by left).
  assert (Hm : misplaced survives s1 p = false).
  { apply not_true_iff_false. intros Hm. apply Hag, elem_of_union. right.
    apply elem_of_filter. split; [done|]. apply elem_of_dom. rewrite Hparts, Ep. by eexists. }
  destruct (refreshed_again _ _ _ _ _ Ep) as [Hat Hub].
  pose proof (sd_ready _ _ Hs p _ Ep) as (Hlow & Hok & _ & Hre).
  pose proof (refreshed_start p ltac:(by eexists) Hc) as Hstart.
  pose proof (rf_same _ _ _ Hrf p ltac:(by eexists) Hc) as Hsame.
  split; [|split; [done|split; [by rewrite Fbase, F4|]]].
  - unfold owed in *. rewrite F1, Hbuf, Hlow.
    rewrite (start_of_eq s1 s3 p) by (rewrite ?Fbase, ?F4; done).
    destruct (ranges (s_buf s) !! p) as [[]|] eqn:Er; [done|]. rewrite Hstart.
    destruct Hsurv as [->| ->]; [|unfold in_flight; by rewrite Fbase, Hsame].
    destruct (ob ≫= (λ b, b_ranges b !! p)) as [x|] eqn:Eb.
    + destruct r as [x'|]; [by destruct (Hre x' eq_refl) as (_ & _ & ?)|].
      simpl in *. rewrite <- Hlow, <- Hstart. symmetry.
      eapply (misplaced_false None s1); try done; [by rewrite Hparts|by rewrite Hbuf].
    + assert (E0 : in_flight ob s p = None); [|by rewrite E0].
      unfold in_flight. destruct ob as [b|]; [|done]. simpl in *. by rewrite Eb.
  - intros x Hx. destruct (Hre x Hx) as (? & ? & ?). rewrite F1, Hbuf.
    split; [done|]. split; [done|]. by destruct Hsurv as [->| ->].
Qed.

Lemma reposition_kept_sound : sound survives s3.
Proof.
  destruct (refreshed_fields _ _ _ Hrf) as (Hparts & Hbuf & Hpend & Hun).
  destruct (reposition_fields now ag s1) as (F1 & F2 & F3 & F4 & F5 & _). fold s3 in F1, F2, F3, F4, F5.
  assert (Fbase : ∀ q, base_offset s3 q = base_offset s1 q) by (intros; unfold base_offset; by rewrite F5).
  assert (Fpend : pending s3 = pending s) by (rewrite <- Hpend; unfold pending; by rewrite F2, F3).
  split.
  - intros p b. rewrite Fbase. apply (rf_offsets _ _ _ Hrf).
  - rewrite F4, Hun. apply (sd_unbased _ _ Hs).
  - intros p st'. unfold s3. rewrite reposition_lookup, Hparts.
    destruct (s_parts s !! p) as [[n st r lm|bl t']|] eqn:Ep; [|by intros [= <-]|done].
    destruct (refreshed_again _ _ _ _ _ Ep) as [Hat Hub].
    case_decide as Hag; intros [= <-]; [|by apply kept_stays].
    destruct (kept_again p Hag) as [Hr Hf]. rewrite Hat. cbn [from_option id].
    apply put_back_ok; [done|done|done|by fold s3; rewrite F1, Hbuf|done].
  - intros p fi l. rewrite F1, Hbuf, Fpend. intros Hp.
    destruct (sd_buf _ _ Hs p fi l Hp) as [Hin Hw].
    rewrite (start_of_eq s1 s3 p) by (rewrite ?Fbase, ?F4; done).
    rewrite refreshed_start by (done || (apply Hkept; by eexists)). split; [|done].
    by apply reposition_owned.
  - intros p. rewrite F1, Hbuf, Fpend. apply (sd_nobuf _ _ Hs).
  - rewrite F1, Hbuf. apply (sd_empty _ _ Hs).
  - intros b Hb. destruct Hsurv as [E|Hob]; [congruence|]. rewrite Hob in Hb.
    destruct (sd_batch _ _ Hs b Hb) as [[H1 H2 H3 H4] H5]. rewrite F1, Hbuf.
    split; [|done]. split; [done|intros p Hp; by apply reposition_owned, H2|done|].
    intros p fi l Hp. destruct (H4 p fi l Hp) as (base & rows & ? & ? & ?).
    exists base, rows. unfold batch_start. by rewrite F4, Hun.
Qed.
End Kept.

(** The buffer had rows of a partition that moved: it is gone, and all of it is read again. *)
Lemma reposition_discarded_sound :
  ob = None → ranges (s_buf s) ≠ ∅ →
  let s2 := set_stalled None (set_decoder [] (set_buf buffer_default s1)) in
  sound None (reposition now (changed ∪ dom (ranges (s_buf s)) ∪
    filter (λ p, misplaced None s2 p = true) (dom (s_parts s2))) s2).
Proof.
  intros Hob Hne s2. set (ag := _ ∪ filter _ _).
  destruct (refreshed_fields _ _ _ Hrf) as (Hparts & Hbuf & Hpend & Hun).
  destruct (reposition_fields now ag s2) as (F1 & F2 & F3 & F4 & F5 & _).
  set (s3 := reposition now ag s2) in *.
  assert (Fbase : ∀ q, base_offset s3 q = base_offset s1 q) by (intros; unfold base_offset; by rewrite F5).
  assert (Fpend : pending s3 = []) by (unfold pending; by rewrite F2, F3).
  assert (Fr : ∀ p, ranges (s_buf s3) !! p = None) by (intros; by rewrite F1).
  split.
  - intros p b. rewrite Fbase. apply (rf_offsets _ _ _ Hrf).
  - rewrite F4. simpl. rewrite Hun. apply (sd_unbased _ _ Hs).
  - intros p st'. unfold s3. rewrite reposition_lookup. change (s_parts s2) with (s_parts s1).
    rewrite Hparts.
    destruct (s_parts s !! p) as [[n st r lm|bl t']|] eqn:Ep; [|by intros [= <-]|done].
    destruct (refreshed_again _ _ _ _ _ Ep) as [Hat Hub].
    case_decide as Hag; intros [= <-].
    + change (read_again_at s2 p) with (read_again_at s1 p). rewrite Hat. cbn [from_option id].
      by apply put_back_ok.
    + assert (Hc : p ∉ changed ∧ ranges (s_buf s) !! p = None).
      { split; [|apply not_elem_of_dom]; intros Hc; apply Hag; unfold ag; set_solver. }
      destruct Hc as [Hc Hr]. pose proof (refreshed_start p ltac:(by eexists) Hc) as Hstart.
      pose proof (sd_ready _ _ Hs p _ Ep) as (Hlow & Hok & _ & Hre).
      fold s3. split; [|split; [done|split; [rewrite Fbase, F4; by apply Hub|]]].
      * rewrite Hob in Hlow. unfold owed in *. fold s3. rewrite Fr. rewrite Hr in Hlow. rewrite Hlow. simpl.
        rewrite <- Hstart. symmetry. apply start_of_eq; [apply Fbase|by rewrite F4].
      * intros x Hx. destruct (Hre x Hx) as (? & _). done.
  - intros p f l. by rewrite Fr.
  - intros p _. by rewrite Fpend.
  - by rewrite F1.
  - done.
Qed.
End Reposition.

(** A refresh and the repositioning after it: every partition is again where the table, the
    buffer and the batch that survives say. *)
Lemma reposition_sound ob survives now changed s s1 :
  sound ob s → refreshed changed s s1 → (∀ b, ob = Some b → no_return b s s1) →
  survives = None ∨ survives = ob →
  sound survives (reposition_changed now changed survives s1).
Proof.
  intros Hs Hrf Hnr Hsurv. destruct (refreshed_fields _ _ _ Hrf) as (_ & Hbuf & _).
  unfold reposition_changed. destruct (discard_moved_buffer changed s1) as [again s2] eqn:Ed.
  apply discard_cases in Ed as [(-> & -> & Hkept)|(-> & Hne & ->)].
  - eapply reposition_kept_sound; try done. intros p Hp.
    destruct Hkept as [He|Hk]; [|apply Hk; by rewrite Hbuf].
    rewrite Hbuf in He. apply (sd_empty _ _ Hs) in He. rewrite He, lookup_empty in Hp. by destruct Hp.
  - rewrite Hbuf in *. assert (ob = None) as ->.
    { destruct ob as [b|]; [|done]. by destruct (sd_batch _ _ Hs b eq_refl) as [_ H]. }
    assert (survives = None) as -> by (by destruct Hsurv as [->| ->]).
    by eapply reposition_discarded_sound.
Qed.

(** ** Committing *)

Lemma verify_base view rs f f' r : verify view rs f = (f', r) → f_base f' = f_base f.
Proof.
  unfold verify. destruct (_ && _); [by intros [= <- _]|]. destruct (existsb _ _); [by intros [= <- _]|].
  destruct (refuse_txn_retention view); [|by intros [= <- _]].
  destruct (read view _ None).1 as [txns|]; [|by intros [= <- _]].
  destruct (read_marker_same txns f) as (_ & Hb & _).
  destruct (first_fenced _ _ _); intros [= <- _]; simpl; by rewrite Hb.
Qed.

Lemma verify_fence_spec rs s s' r :
  verify_fence rs s = (s', r) → ∃ f, s' = set_fence f s ∧ f_base f = f_base (s_fence s).
Proof.
  unfold verify_fence. destruct (verify _ _ _) as [f r'] eqn:E. intros [= <- <-].
  exists f. split; [done|]. by eapply verify_base.
Qed.

Lemma alike_fence s f : f_base f = f_base (s_fence s) → alike s (set_fence f s).
Proof.
  intros Hf. split; try done; [intros; apply same_state_refl|]. intros p.
  unfold base_offset, base_of; simpl. by rewrite Hf.
Qed.

Lemma moved_in_None s b p :
  moved_in s b = None → is_Some (b_ranges b !! p) →
  is_Some (s_parts s !! p) ∧ fst <$> base_of (s_fence s) p = b_bases b !! p.
Proof.
  unfold moved_in, moved_partition. intros Hm Hp. pose proof (List.find_none _ _ Hm p) as Hn.
  cbn beta in Hn. apply orb_false_iff in Hn as [H1%bool_decide_eq_false H2].
  - split; [by apply not_eq_None_Some|]. by apply negb_false_iff, bool_decide_eq_true in H2.
  - by apply list_elem_of_In, sorted_keys_elem.
Qed.

(** A batch that did not move was read from the offsets the fence holds. *)
Lemma unmoved_base s b p first last :
  batch_whole s b → moved_in s b = None → b_ranges b !! p = Some (first, last) →
  b_bases b !! p = Some (base_offset s p) ∧ is_Some (base_of (s_fence s) p).
Proof.
  intros Hb Hm Hp. destruct (moved_in_None s b p Hm) as [_ Hf]; [by eexists|].
  destruct (bw_range _ _ Hb p first last Hp) as (base & rows & Hbase & _).
  unfold base_offset. rewrite <- Hf. destruct (base_of (s_fence s) p) as [x|]; [|by rewrite Hbase in Hf].
  by split; [|eexists].
Qed.

Lemma record_committed_base now o b s p :
  batch_whole s b → moved_in s b = None →
  (∀ p f l, b_ranges b !! p = Some (f, l) → o_assert o !! p = Some l) →
  (∀ p v, b_ranges b !! p = None → o_assert o !! p = Some v → base_offset s p = Some v) →
  base_offset (record_committed now o s) p =
  match b_ranges b !! p with Some (_, l) => Some l | None => base_offset s p end.
Proof.
  intros Hb Hm Ho1 Ho2. unfold base_offset at 1, base_of. unfold record_committed. cbn [s_fence set_fence].
  rewrite committed_base. destruct (b_ranges b !! p) as [[f l]|] eqn:E.
  - destruct (unmoved_base s b p f l Hb Hm E) as [_ [x Hx]]. unfold base_of in Hx.
    rewrite Hx. simpl. by rewrite (Ho1 _ _ _ E).
  - unfold base_offset, base_of in *. destruct (f_base (s_fence s) !! p) as [x|] eqn:Ex; simpl; [|done].
    destruct (o_assert o !! p) as [v|] eqn:Ev; [|done]. simpl.
    specialize (Ho2 p v E Ev). rewrite Ex in Ho2. simpl in Ho2. congruence.
Qed.

(** A commit makes the batch the table's. *)
Lemma record_committed_sound now o b s :
  sound (Some b) s → moved_in s b = None →
  (∀ p f l, b_ranges b !! p = Some (f, l) → o_assert o !! p = Some l) →
  (∀ p v, b_ranges b !! p = None → o_assert o !! p = Some v → base_offset s p = Some v) →
  sound None (record_committed now o s).
Proof.
  intros Hs Hm Ho1 Ho2. destruct (sd_batch _ _ Hs b eq_refl) as [Hb Hr].
  set (s' := record_committed now o s).
  assert (Hbase : ∀ p, base_offset s' p =
    match b_ranges b !! p with Some (_, l) => Some l | None => base_offset s p end)
    by (intros; by apply record_committed_base).
  assert (Hstate : ∀ p, same_state (s_parts s !! p) (s_parts s' !! p))
    by (intros; apply polled_again_same).
  split.
  - intros p x. rewrite Hbase. destruct (b_ranges b !! p) as [[f l]|] eqn:E.
    + intros [= <-]. by destruct (bw_range _ _ Hb p f l E) as (? & ? & _ & _ & _ & _ & ?).
    + apply (sd_offsets _ _ Hs).
  - apply (sd_unbased _ _ Hs).
  - intros p st' Hp'. pose proof (Hstate p) as Hsame. rewrite Hp' in Hsame.
    destruct (s_parts s !! p) as [st|] eqn:Ep; [|by destruct st'].
    pose proof (sd_ready _ _ Hs p st Ep) as Hok.
    destruct st as [n start r lm|bl t], st' as [n' start' r' lm'|bl' t']; try done.
    destruct Hsame as (<- & <- & <-). destruct Hok as (Hlow & Hok & Hun & Hre).
    split; [|split; [done|split]].
    + change (lower (Some (Ready n start r lm')) = owed None s' p).
      change (lower (Some (Ready n start r lm')) = owed (Some b) s p) in Hlow. rewrite Hlow.
      unfold owed. change (s_buf s') with (s_buf s). rewrite Hr, lookup_empty. simpl.
      unfold start_of at 2. rewrite Hbase. destruct (b_ranges b !! p) as [[f l]|] eqn:E; simpl.
      * destruct (unmoved_base s b p f l Hb Hm E) as [-> _]. by rewrite decide_True.
      * done.
    + rewrite Hbase. destruct (b_ranges b !! p) as [[]|]; [done|apply Hun].
    + intros x Hx. destruct (Hre x Hx) as (? & ? & _). done.
  - intros p f l. change (s_buf s') with (s_buf s). by rewrite Hr, lookup_empty.
  - intros p. change (s_buf s') with (s_buf s). apply (sd_nobuf _ _ Hs).
  - apply (sd_empty _ _ Hs).
  - done.
Qed.

(** The fields a commit's handlers leave alone. *)
Record frame (s s' : Source) : Prop := {
  fr_parts p : is_Some (s_parts s' !! p) ↔ is_Some (s_parts s !! p);
  fr_paused : s_paused s ⊆ s_paused s';
  fr_held : s_held s' = s_held s;
  fr_stalled : s_stalled s = None → s_stalled s' = None;
}.

Lemma frame_refl s : frame s s.
Proof. by split. Qed.

Lemma frame_trans s1 s2 s3 : frame s1 s2 → frame s2 s3 → frame s1 s3.
Proof.
  clear T HT. intros [A1 A2 A3 A4] [B1 B2 B3 B4]. split; [|set_solver|congruence|by auto]. intros p. by rewrite B1.
Qed.

Lemma frame_quiet s s' : frame s s' → quiet s → quiet s'.
Proof.
  intros [Hp Hs _ _] Hq p. rewrite elem_of_dom, Hp. intros Hin. apply Hs, Hq. by apply elem_of_dom.
Qed.

Lemma reposition_frame now again s : frame s (reposition now again s).
Proof.
  destruct (reposition_fields now again s) as (_ & _ & Hst & _ & _ & Hh & _ & Hp & _).
  split; [|done|done|by rewrite Hst]. intros p. rewrite reposition_lookup. destruct (s_parts s !! p) as [[]|]; try done.
  case_decide; [|done]. split; by eexists.
Qed.

Lemma reposition_changed_frame now changed survives s :
  frame s (reposition_changed now changed survives s).
Proof.
  unfold reposition_changed. destruct (discard_moved_buffer changed s) as [again s2] eqn:E.
  apply discard_cases in E as [(_ & -> & _)|(_ & _ & ->)]; [apply reposition_frame|].
  eapply frame_trans; [|apply reposition_frame]. by split.
Qed.

Lemma refreshed_frame changed s s' : refreshed changed s s' → frame s s'.
Proof. intros [(v & f & t & ->) _ _ _ _]. by split. Qed.

(** What the refreshes around a commit may find: valid offsets, and no batch's base again
    once a partition was moved off it. *)
Definition steady (now : Instant) (w : RefreshWorld) (b : Batch) (s : Source) : Prop :=
  valid_world w ∧
  ∀ s' changed, refresh_and_reset cfg now w s = (s', Ok changed) → no_return b s s'.

Lemma freshen_sound now w b s s' r :
  sound (Some b) s → steady now (cw_refresh w) b s → freshen cfg now w b s = (s', r) →
  sound (Some b) s' ∧ frame s s'.
Proof.
  intros Hs [Hw Hno] H. unfold freshen in H. unfold bindM at 1, gets at 1 in H.
  assert (Hrefresh : ∀ s0 r0, (let! changed := refresh_and_reset cfg now (cw_refresh w) in
      modify (reposition_changed now changed (Some b))) s = (s0, r0) →
    sound (Some b) s0 ∧ frame s s0).
  { intros s0 r0 Hr. unfold bindM, modify in Hr.
    destruct (refresh_and_reset cfg now (cw_refresh w) s) as [s1 [changed|e]] eqn:E.
    - injection Hr as <- <-. pose proof (refresh_and_reset_ok _ _ _ _ _ Hw E) as Hrf. split.
      + apply (reposition_sound (Some b) (Some b) now changed s s1); [done|done| |by right].
        intros b' [= <-]. by eapply Hno.
      + eapply frame_trans; [by apply (refreshed_frame changed)|apply reposition_changed_frame].
    - injection Hr as <- <-. apply refresh_and_reset_err in E as (v & f & -> & Hf). split.
      + eapply sound_alike; [by apply alike_base|done].
      + by split. }
  destruct (HANDLE_MAX_AGE <=? _).
  - by apply Hrefresh in H.
  - unfold bindM at 1, liftM, retM at 1 in H. unfold bindM in H.
    destruct (cw_exists w) as [[]|e]; simpl in H.
    + injection H as <- _. split; [done|apply frame_refl].
    + by apply Hrefresh in H.
    + injection H as <- _. split; [done|apply frame_refl].
Qed.

(** The offsets a commit asserts, over a verified fence. *)
Lemma offsets_for_assert s b cleans :
  o_assert (offsets_for cfg s b cleans) = (assert_map (b_ranges b) (b_marks b) (s_fence s)).1.
Proof. unfold offsets_for. by destruct (assert_map _ _ _). Qed.

Lemma committed_step_sound now s b f v cleans :
  sound (Some b) s → moved_in s b = None → f_base f = f_base (s_fence s) →
  let s1 := set_fence f s in
  sound None (record_committed now (offsets_for cfg s1 b cleans) (set_target v s1)).
Proof.
  intros Hs Hm Hf s1. apply (record_committed_sound _ _ b).
  - eapply sound_alike; [|done]. split; try done; [intros; apply same_state_refl|].
    intros p. unfold base_offset, base_of; simpl. by rewrite Hf.
  - unfold moved_in, moved_partition, base_of in *. simpl. by rewrite Hf.
  - intros p fi l Hp. by rewrite offsets_for_assert, assert_map_lookup, Hp.
  - intros p x Hp. rewrite offsets_for_assert, assert_map_lookup, Hp. by case_decide.
Qed.

(** The pipeline paused after a commit whose handle it may not write to. *)
Lemma paused_frame s t r : frame s (pause_all (set_next_recheck t (set_blocked r s))).
Proof. split; [done|apply union_subseteq_r|done|done]. Qed.

Lemma paused_alike s t r : alike s (pause_all (set_next_recheck t (set_blocked r s))).
Proof. split; try done. intros; apply same_state_refl. Qed.

Lemma try_commit_sound now w b s s' r :
  sound (Some b) s → steady now (cw_refresh w) b s → try_commit cfg now w b s = (s', r) →
  frame s s' ∧ match r with Ok _ => sound None s' | Err _ => sound (Some b) s' end.
Proof.
  intros Hs Hst H. unfold try_commit in H. unfold bindM at 1 in H.
  destruct (freshen cfg now w b s) as [s0 [u|e]] eqn:E.
  2: { injection H as <- <-. apply freshen_sound in E as [??]; done. }
  apply freshen_sound in E as [Hs0 Hf0]; [|done..]. clear Hst Hs.
  unfold bindM at 1, gets at 1 in H. destruct (moved_in s0 b) as [p|] eqn:Em.
  { injection H as <- <-. done. }
  destruct (undecodable_refusal _ _ _) as [e|]; [injection H as <- <-; done|].
  unfold bindM at 1, liftM at 1 in H. destruct (cw_prepare w); [|injection H as <- <-; done].
  unfold bindM at 1 in H. destruct (verify_fence (b_ranges b) s0) as [s1 r1] eqn:Ev.
  apply verify_fence_spec in Ev as (f & -> & Hf).
  assert (Halike : sound (Some b) (set_fence f s0)) by (eapply sound_alike; [by apply alike_fence|done]).
  assert (Hfr : ∀ f', frame s (set_fence f' s0)) by (intros; eapply frame_trans; [done|by split]).
  destruct r1; [|injection H as <- <-; split; [apply Hfr|done]].
  unfold bindM at 1, gets at 1 in H. unfold bindM at 1, liftM at 1 in H.
  destruct (cw_protocol_changed w) as [[]|]; [injection H as <- <-; split; [apply Hfr|done]| |
    injection H as <- <-; split; [apply Hfr|done]].
  unfold bindM at 1, liftM at 1 in H. destruct (cw_process w _) as [v|];
    [|injection H as <- <-; split; [apply Hfr|done]].
  unfold bindM at 1, modify at 1 in H. unfold bindM at 1, modify at 1 in H.
  set (cl := cw_cleans_up w _) in H.
  pose proof (committed_step_sound now s0 b f v cl Hs0 Em Hf) as Hdone.
  set (s2 := record_committed _ _ _) in *.
  assert (Hfr2 : frame s s2).
  { eapply frame_trans; [exact Hf0|]. split; try done. intros p.
    pose proof (polled_again_same None now (s_parts s0) p) as Hp. unfold s2; simpl.
    destruct (s_parts s0 !! p) as [[]|], (polled_again None now (s_parts s0) !! p) as [[]|];
      try done; split; by eexists. }
  destruct (cw_unwritable w v); injection H as <- <-; [done|].
  split; [eapply frame_trans; [exact Hfr2|apply paused_frame]|].
  eapply sound_alike; [apply paused_alike|exact Hdone].
Qed.

(** ** The state between handlers *)

(** A held batch leaves nothing to be taken before it is tried again. *)
Record ready_state (t : Instant) (s : Source) : Prop := {
  rs_sound : sound (h_batch <$> s_held s) s;
  rs_held h : s_held s = Some h → quiet s ∨ h_due h ≤ t;
  rs_stalled : is_Some (s_stalled s) → quiet s;
}.

(** Nothing waits for the registry once the buffer is empty. *)
Lemma empty_not_stalled ob s : sound ob s → ranges (s_buf s) = ∅ → pending s = [].
Proof.
  intros Hs Hr. destruct (pending s) as [|m l] eqn:E; [done|]. exfalso.
  pose proof (sd_nobuf _ _ Hs (msg_partition m)) as H. rewrite Hr, lookup_empty, E in H.
  specialize (H eq_refl). by rewrite of_partition_cons, Z.eqb_refl in H.
Qed.

Lemma in_flight_not_stalled b s : sound (Some b) s → s_stalled s = None ∧ s_decoder s = [].
Proof.
  intros Hs. destruct (sd_batch _ _ Hs b eq_refl) as [_ Hr].
  apply (empty_not_stalled (Some b)) in Hr; [|done]. unfold pending in Hr.
  destruct (s_stalled s), (s_decoder s); simpl in Hr; try done; by destruct s0.
Qed.

Lemma pause_all_quiet s : quiet (pause_all s).
Proof. unfold quiet, pause_all, pause. simpl. apply union_subseteq_l. Qed.

Lemma hold_ready t now b backoff why s :
  sound (Some b) s → ready_state t (hold now b backoff why s).
Proof.
  intros Hs. assert (Hs' : sound (Some b) (hold now b backoff why s)).
  { eapply sound_alike; [|exact Hs]. split; try done. intros; apply same_state_refl. }
  split; [exact Hs'| |].
  - intros h _. left. apply pause_all_quiet.
  - intros _. apply pause_all_quiet.
Qed.

Lemma hold_for_class_ready t now b e s s' o :
  sound (Some b) s → hold_for_class cfg now b e s = (s', Ok o) → ready_state t s'.
Proof.
  intros Hs. unfold hold_for_class, bindM, gets, modify, retM, failM.
  assert (Hs1 : sound (Some b) (set_last_backoff None s)).
  { eapply sound_alike; [|exact Hs]. split; try done. intros; apply same_state_refl. }
  assert (Hs2 : ∀ x, sound (Some b) (set_blocked x (set_last_backoff None s))).
  { intros x. eapply sound_alike; [|exact Hs]. split; try done. intros; apply same_state_refl. }
  destruct (kafka_class e); try destruct (c_once cfg); intros [= <- _]; by apply hold_ready.
Qed.

(** Nothing in flight and nothing held. *)
Lemma idle_ready t s : sound None s → s_held s = None → (is_Some (s_stalled s) → quiet s) →
  ready_state t s.
Proof. intros Hs Hh Hst. split; [by rewrite Hh|by rewrite Hh|done]. Qed.


Lemma frame_held s s' : frame s s' → s_held s = None → s_held s' = None.
Proof. by intros [_ _ -> _]. Qed.

Lemma sound_set_reset ob v s : sound ob s → sound ob (set_reset_this_step v s).
Proof. apply sound_alike. split; try done. intros; apply same_state_refl. Qed.

Lemma sound_set_blocked ob v s : sound ob s → sound ob (set_blocked v s).
Proof. apply sound_alike. split; try done. intros; apply same_state_refl. Qed.

(** A refresh in the middle of a handler, and what it makes of the batch in flight. *)
Lemma refresh_keep now w b survives s s1 changed :
  sound (Some b) s → steady now w b s → refresh_and_reset cfg now w s = (s1, Ok changed) →
  survives = None ∨ survives = Some b →
  sound survives (reposition_changed now changed survives s1) ∧
  frame s (reposition_changed now changed survives s1).
Proof.
  intros Hs [Hw Hno] E Hsurv. pose proof (refresh_and_reset_ok _ _ _ _ _ Hw E) as Hrf. split.
  - apply (reposition_sound (Some b) survives now changed s s1); [done|done| |done].
    intros b' [= <-]. by eapply Hno.
  - eapply frame_trans; [by apply (refreshed_frame changed)|apply reposition_changed_frame].
Qed.

(** The fields of a refreshed state that the failure of the refresh leaves. *)
Lemma refresh_lost ob now w s s1 e :
  sound ob s → refresh_and_reset cfg now w s = (s1, Err e) → sound ob s1 ∧ frame s s1.
Proof.
  intros Hs (v & f & -> & Hf)%refresh_and_reset_err. split; [|by split].
  eapply sound_alike; [by apply alike_base|done].
Qed.

Lemma not_stalled_ready s b : sound (Some b) s → is_Some (s_stalled s) → quiet s.
Proof. intros [-> _]%in_flight_not_stalled. by intros []. Qed.

Lemma reset_in_place_ready t now w b s s' o :
  now ≤ t → sound (Some b) s → s_held s = None →
  steady now w b (set_reset_this_step true s) →
  reset_in_place cfg now w (Some b) s = (s', Ok o) → ready_state t s'.
Proof.
  intros Ht Hs Hh Hst H. unfold reset_in_place in H. unfold bindM at 1, modify at 1 in H.
  set (s0 := set_reset_this_step true s) in *.
  assert (Hs0 : sound (Some b) s0) by (by apply sound_set_reset).
  unfold bindM at 1, attempt in H.
  destruct (refresh_and_reset cfg now w s0) as [s1 [changed|e]] eqn:E.
  2: { apply (refresh_lost (Some b)) in E as [Hs1 _]; [|done].
       by apply (hold_for_class_ready t now b e s1 s' o). }
  unfold bindM at 1, gets at 1 in H. simpl in H.
  case_decide as Em; unfold bindM, modify, retM in H; injection H as <- _.
  - destruct (refresh_keep now w b (Some b) s0 s1 changed Hs0 Hst E) as [Hs2 Hf2]; [by right|].
    split.
    + eapply sound_alike; [|exact Hs2]. split; try done. intros; apply same_state_refl.
    + intros h [= <-]. by right.
    + intros Hx. destruct (in_flight_not_stalled b _ Hs2) as [Hn _].
      cbn [s_stalled set_held_for set_held] in Hx. rewrite Hn in Hx. by destruct Hx.
  - destruct (refresh_keep now w b None s0 s1 changed Hs0 Hst E) as [Hs2 Hf2]; [by left|].
    set (s2 := reposition_changed now changed None s1) in *. apply idle_ready.
    + by apply sound_set_blocked.
    + change (s_held s2 = None). by apply (frame_held s0).
    + destruct (in_flight_not_stalled b s0 Hs0) as [Hn _].
      intros Hx. change (is_Some (s_stalled s2)) in Hx.
      rewrite (fr_stalled _ _ Hf2 Hn) in Hx. by destruct Hx.
Qed.


Lemma no_work_ready t s : ready_state t s → s_held s = None → sound None s.
Proof. intros [Hs _ _] Hh. by rewrite Hh in Hs. Qed.

(** What the two refreshes of a commit may find. *)
Definition commit_env (now : Instant) (w : CommitWorld) (b : Batch) (s : Source) : Prop :=
  steady now (cw_refresh w) b s ∧
  ∀ s1 e, try_commit cfg now w b s = (s1, Err e) →
    steady now (cw_reset w) b (set_reset_this_step true s1).

Lemma commit_batch_ready t now w b s s' o :
  now ≤ t → sound (Some b) s → s_held s = None → commit_env now w b s →
  commit_batch cfg now w b s = (s', Ok o) → ready_state t s'.
Proof.
  intros Ht Hs Hh [Hst Hst'] H. unfold commit_batch, bindM, attempt in H.
  destruct (try_commit cfg now w b s) as [s1 r] eqn:E. specialize (Hst' s1).
  destruct (try_commit_sound _ _ _ _ _ _ Hs Hst E) as [Hf Hs1].
  pose proof (frame_held _ _ Hf Hh) as Hh1. destruct r as [o1|e].
  - injection H as <- _. apply idle_ready; [done|done|].
    destruct (in_flight_not_stalled b s Hs) as [Hn _].
    rewrite (fr_stalled _ _ Hf Hn). by intros [].
  - unfold after_failure in H. case_decide.
    + by apply (reset_in_place_ready t now (cw_reset w) b s1 s' o); eauto.
    + by apply (hold_for_class_ready t now b e s1 s' o).
Qed.

Lemma recheck_for_batch_ready t now w b s s' r :
  sound (Some b) s → s_held s = None → steady now w b s →
  recheck_for_batch cfg now w b s = (s', Ok r) →
  match r with
  | Some b' => b' = b ∧ sound (Some b) s' ∧ s_held s' = None
  | None => ready_state t s'
  end.
Proof.
  intros Hs Hh Hst H. unfold recheck_for_batch in H. unfold bindM at 1, attempt in H.
  destruct (refresh_and_reset cfg now w s) as [s1 [changed|e]] eqn:E.
  - unfold bindM, gets, modify, retM in H.
    destruct (bool_decide _); injection H as <- <-.
    + destruct (refresh_keep now w b (Some b) s s1 changed Hs Hst E) as [Hs2 Hf]; [by right|].
      split; [done|]. split; [done|]. by apply (frame_held s).
    + destruct (refresh_keep now w b None s s1 changed Hs Hst E) as [Hs2 Hf]; [by left|].
      destruct (in_flight_not_stalled b s Hs) as [Hn _].
      pose proof (fr_stalled _ _ Hf Hn) as Hn2. pose proof (frame_held _ _ Hf Hh) as Hh2.
      apply idle_ready; [by apply sound_set_blocked|done|].
      cbn [s_stalled set_blocked]. rewrite Hn2. by intros [].
  - apply (refresh_lost (Some b)) in E as [Hs1 Hf]; [|done].
    case_decide; [done|]. unfold bindM, modify, retM in H. injection H as <- <-.
    apply hold_ready. by apply sound_set_blocked.
Qed.

(** ** Blocked partitions *)

Definition watermarks_ok (w : gmap Z (Z * Z)) : Prop :=
  ∀ p low high, w !! p = Some (low, high) → 0 ≤ low ∧ low ≤ high ∧ high ≤ i64_max.

Lemma resolve_spec base mark low high ex offset reread :
  from_option (λ b, 0 ≤ b < i64_max) True base → 0 ≤ low → low ≤ high → high ≤ i64_max →
  resolve base mark low high ex = S_Ready offset reread →
  let st now := Some (Ready offset offset reread now) in
  (∀ now, lower (st now) = match base with Some b => b + 1 | None => offset end) ∧
  (∀ now, state_ok (st now)) ∧ (∀ x, reread = Some x → offset = reread_offset x) ∧
  0 ≤ offset ≤ i64_max.
Proof.
  intros Hb Hl Hlh Hh. unfold resolve. destruct base as [b|]; simpl in Hb.
  - rewrite i64_small by width_lia. destruct (Z.ltb_spec (b + 1) low); [done|].
    destruct (Z.eqb_spec (b + 1) low); [|destruct (Z.leb_spec high b); [done|]];
      intros [= <- <-]; simpl.
    + split; [done|]. split; [intros; width_lia|]. split; [done|]. width_lia.
    + assert (E : reread_offset match mark with
        | Some m => if m_offset m =? b then Expect m else Unverifiable b
        | None => Unverifiable b end = b).
      { destruct mark as [m|]; [destruct (Z.eqb_spec (m_offset m) b)|]; done. }
      rewrite E. split; [done|]. split; [intros; width_lia|]. split; [by intros x [= <-]|width_lia].
  - unfold start_without_offset. destruct ex as [wanted|].
    + destruct (Z.ltb_spec wanted low); [done|]. destruct (Z.ltb_spec high wanted); [done|].
      intros [= <- <-]; simpl. split; [done|]. split; [intros; width_lia|]. split; [done|width_lia].
    + destruct (low =? 0); [|done]. intros [= <- <-]; simpl.
      split; [done|]. split; [intros; width_lia|]. split; [done|]. width_lia.
Qed.

Lemma base_offset_default s p :
  (default (None, None) (base_of (s_fence s) p)).1 = base_offset s p.
Proof. unfold base_offset. by destruct (base_of (s_fence s) p) as [[]|]. Qed.

(** A partition set going where its start says, when the buffer has nothing of it. *)
Lemma started_sound s s' p offset reread now low high ex :
  sound None s → is_Some (s_parts s !! p) → ranges (s_buf s) !! p = None →
  0 ≤ low → low ≤ high → high ≤ i64_max →
  resolve (base_offset s p) (snd (default (None, None) (base_of (s_fence s) p))) low high ex =
    S_Ready offset reread →
  s_parts s' = ready_at p offset reread now (s_parts s) → s_buf s' = s_buf s →
  pending s' = pending s → (∀ q, base_offset s' q = base_offset s q) →
  s_unbased_start s' =
    match base_offset s p with None => <[p := offset]> (s_unbased_start s) | Some _ => s_unbased_start s end →
  sound None s'.
Proof.
  intros Hs Hin Hr Hl Hlh Hh Hres Hparts Hbuf Hpend Hbase Hun.
  apply resolve_spec in Hres as (Hlow & Hok & Hre & Hrange); [| |done..].
  2: { destruct (base_offset s p) eqn:E; simpl; [by apply (sd_offsets _ _ Hs p)|done]. }
  assert (Hother : ∀ q, p ≠ q → s_unbased_start s' !! q = s_unbased_start s !! q).
  { intros q Hq. rewrite Hun. destruct (base_offset s p); [done|by rewrite lookup_insert_ne]. }
  split.
  - intros q b. rewrite Hbase. apply (sd_offsets _ _ Hs).
  - intros q u. rewrite Hun. destruct (base_offset s p); [apply (sd_unbased _ _ Hs)|].
    intros [[<- <-]|[_ Hu]]%lookup_insert_Some; [done|by apply (sd_unbased _ _ Hs) in Hu].
  - intros q st. rewrite Hparts. unfold ready_at. destruct (decide (p = q)) as [<-|Hne].
    + rewrite lookup_insert_eq. intros [= <-]. split; [|split; [apply Hok|split]].
      * rewrite Hlow. unfold owed. rewrite Hbuf, Hr. simpl. unfold start_of, batch_start.
        rewrite Hbase, Hun. destruct (base_offset s p); [done|]. by rewrite lookup_insert_eq.
      * rewrite Hbase, Hun. intros ->. rewrite lookup_insert_eq. by eexists.
      * intros x Hx. rewrite Hbuf. by split; [apply Hre|].
    + rewrite lookup_insert_ne by done. intros Hq. apply (ready_ok_eq None s); [done|by apply Hother| |].
      * by rewrite Hbuf.
      * by apply (sd_ready _ _ Hs).
  - intros q f l. rewrite Hbuf, Hpend, Hparts. intros Hq.
    assert (Hne : p ≠ q) by (by intros ->; rewrite Hr in Hq). unfold ready_at.
    rewrite lookup_insert_ne, (start_of_eq s s' q) by (done || by apply Hother).
    by apply (sd_buf _ _ Hs q f l).
  - intros q. rewrite Hbuf, Hpend. apply (sd_nobuf _ _ Hs).
  - rewrite Hbuf. apply (sd_empty _ _ Hs).
  - done.
Qed.

(** What resolving one partition changes. *)
Lemma resolve_blocked_sound now wm s p :
  sound None s → watermarks_ok wm → is_blocked (s_parts s !! p) = true →
  ranges (s_buf s) !! p = None →
  let s' := resolve_blocked cfg now wm s p in
  sound None s' ∧ s_buf s' = s_buf s ∧ s_stalled s' = s_stalled s ∧ s_held s' = s_held s ∧
  s_paused s' = s_paused s ∧ (∀ q, q ≠ p → s_parts s' !! q = s_parts s !! q) ∧
  (∀ q, is_Some (s_parts s' !! q) ↔ is_Some (s_parts s !! q)).
Proof.
  intros Hs Hwm Hbl Hr s'. unfold s', resolve_blocked.
  destruct (wm !! p) as [[low high]|] eqn:Ew; [|done].
  destruct (Hwm _ _ _ Ew) as (Hl & Hlh & Hh).
  assert (Hin : is_Some (s_parts s !! p)) by (destruct (s_parts s !! p); [by eexists|done]).
  assert (Hdom : ∀ st q, is_Some (<[p := st]> (s_parts s) !! q) ↔ is_Some (s_parts s !! q)).
  { intros st q. destruct (decide (p = q)) as [<-|]; [|by rewrite lookup_insert_ne].
    rewrite lookup_insert_eq. split; [done|by eexists]. }
  destruct (default (None, None) (base_of (s_fence s) p)) as [base mark] eqn:Eb.
  assert (base = base_offset s p) as -> by (by rewrite <- base_offset_default, Eb).
  assert (mark = snd (default (None, None) (base_of (s_fence s) p))) as -> by (by rewrite Eb).
  clear Eb. destruct (resolve _ _ low high _) as [offset reread|bl] eqn:Er.
  - set (s1 := match base_offset s p with None => _ | Some _ => _ end).
    assert (E : s_parts s1 = s_parts s ∧ s_buf s1 = s_buf s ∧ pending s1 = pending s ∧
      s_stalled s1 = s_stalled s ∧ s_held s1 = s_held s ∧ s_paused s1 = s_paused s ∧
      s_fence s1 = s_fence s) by (unfold s1; by destruct (base_offset s p)).
    destruct E as (E1 & E2 & E3 & E4 & E5 & E6 & E7).
    split; [|cbn [set_parts s_buf s_stalled s_held s_paused s_parts]].
    + eapply (started_sound s _ p offset reread now low high); try done.
      * intros q. unfold base_offset. cbn [set_parts s_fence]. by rewrite E7.
      * cbn [set_parts s_unbased_start]. unfold s1. by destruct (base_offset s p).
    + do 4 (split; [done|]). split; [|apply Hdom].
      intros q Hq. unfold ready_at. by rewrite lookup_insert_ne.
  - split; [|do 4 (split; [done|]); split; [|apply Hdom]].
    + apply (dropped_sound None s _ p (Blocked bl (match s_parts s !! p with
        | Some (Blocked _ since) => since | _ => now end))); done.
    + intros q Hq. cbn [set_parts s_parts]. unfold block. by rewrite lookup_insert_ne.
Qed.

(** No partition of the buffer is blocked: what a recheck needs of it. *)
Definition unbuffered (s : Source) : Prop :=
  ∀ p, is_blocked (s_parts s !! p) = true → ranges (s_buf s) !! p = None.

Lemma resolve_all_sound now wm ps s :
  sound None s → watermarks_ok wm → NoDup ps →
  (∀ p, p ∈ ps → is_blocked (s_parts s !! p) = true ∧ ranges (s_buf s) !! p = None) →
  let s' := fold_left (resolve_blocked cfg now wm) ps s in
  sound None s' ∧ frame s s' ∧ s_stalled s' = s_stalled s.
Proof.
  intros Hs Hwm Hnd. revert s Hs. induction Hnd as [|p ps Hp Hnd IH]; intros s Hs Hbl; simpl.
  { split; [done|]. split; [apply frame_refl|done]. }
  destruct (Hbl p ltac:(by left)) as [Hb Hr].
  destruct (resolve_blocked_sound now wm s p Hs Hwm Hb Hr) as (H1 & H2 & H3 & H4 & H5 & H6 & H7).
  destruct (IH _ H1) as (I1 & I2 & I3).
  { intros q Hq. rewrite H2, H6; [apply Hbl; by right|]. by intros ->. }
  split; [done|]. split; [|congruence]. eapply frame_trans; [|exact I2].
  split; [done|by rewrite H5|done|by rewrite H3].
Qed.

Lemma blocked_NoDup (ps : Partitions) : NoDup (blocked ps).*1.
Proof.
  assert (Hnd : NoDup (owned ps)).
  { unfold owned. rewrite merge_sort_Permutation. apply NoDup_fst_map_to_list. }
  unfold blocked. induction Hnd as [|p l Hp Hnd IH]; [constructor|]. csimpl.
  destruct (ps !! p) as [[|b since]|]; try done. csimpl. constructor; [|done].
  intros ([q b'] & -> & Hq)%list_elem_of_fmap. apply list_elem_of_omap in Hq as (q' & Hq' & Hm).
  simpl in *. destruct (ps !! q') as [[]|]; try done. by simplify_eq.
Qed.

Lemma to_resolve_spec s :
  NoDup (to_resolve s) ∧ ∀ p, p ∈ to_resolve s → is_blocked (s_parts s !! p) = true.
Proof.
  unfold to_resolve. pose proof (blocked_NoDup (s_parts s)) as Hnd. split.
  - revert Hnd. generalize (blocked (s_parts s)). intros l. induction l as [|[p b] l IH]; [done|].
    csimpl. intros [Hp Hnd]%NoDup_cons. destruct (match b with B_Replaced _ _ => _ | _ => _ end); [|by apply IH].
    csimpl. constructor; [|by apply IH]. intros ([q b'] & -> & Hq)%list_elem_of_fmap.
    apply list_elem_of_In, filter_In in Hq as [Hq _]. apply Hp, list_elem_of_fmap.
    exists (q, b'). split; [done|by apply list_elem_of_In].
  - intros p ([q b] & -> & Hq)%list_elem_of_fmap. apply list_elem_of_In, filter_In in Hq as [Hq _].
    apply list_elem_of_In, blocked_elem in Hq as [since Hq]. simpl. by rewrite Hq.
Qed.

Lemma sound_set_next_recheck ob v s : sound ob s → sound ob (set_next_recheck v s).
Proof. apply sound_alike. split; try done. intros; apply same_state_refl. Qed.

Lemma rearm_sound ob now s :
  sound ob s → sound ob (rearm cfg now s) ∧ frame s (rearm cfg now s) ∧
  s_stalled (rearm cfg now s) = s_stalled s.
Proof.
  intros Hs. unfold rearm. destruct (blocked _); [by split; [|split; [apply frame_refl|]]|].
  split; [by apply sound_set_next_recheck|]. split; [by split|done].
Qed.

(** Repositioning blocks nothing and buffers nothing. *)
Lemma reposition_unbuffered now changed survives s :
  unbuffered s → unbuffered (reposition_changed now changed survives s).
Proof.
  intros Hu p. unfold reposition_changed.
  destruct (discard_moved_buffer changed s) as [again s2] eqn:E. set (ag := _ ∪ _).
  destruct (reposition_fields now ag s2) as (F1 & _). rewrite F1, reposition_lookup.
  apply discard_cases in E as [(_ & -> & _)|(_ & _ & ->)]; [|done].
  specialize (Hu p). destruct (s_parts s !! p) as [[]|]; [by case_decide|by apply Hu|done].
Qed.

Lemma recheck_blocked_sound now w wms s s' :
  sound None s → valid_world w → (∀ ps wm, wms ps = Ok wm → watermarks_ok wm) → unbuffered s →
  recheck_blocked cfg now w wms s = (s', Ok tt) → sound None s' ∧ frame s s'.
Proof.
  intros Hs Hw Hwm Hu H. unfold recheck_blocked in H. unfold bindM at 1, modify at 1 in H.
  set (s0 := set_next_recheck None s) in *.
  assert (Hs0 : sound None s0) by (by apply sound_set_next_recheck).
  assert (Hf0 : frame s s0) by (by split).
  unfold bindM at 1, attempt in H.
  destruct (refresh_and_reset cfg now w s0) as [s1 [changed|e]] eqn:E.
  - pose proof (refresh_and_reset_ok _ _ _ _ _ Hw E) as Hrf.
    assert (Hs2 : sound None (reposition_changed now changed None s1))
      by (apply (reposition_sound None None now changed s0 s1); try done; by left).
    assert (Hf2 : frame s (reposition_changed now changed None s1)).
    { eapply frame_trans; [exact Hf0|]. eapply frame_trans; [by eapply refreshed_frame|].
      apply reposition_changed_frame. }
    assert (Hu2 : unbuffered (reposition_changed now changed None s1)).
    { apply reposition_unbuffered. destruct (refreshed_fields _ _ _ Hrf) as (Hp & Hb & _).
      intros p. rewrite Hp, Hb. apply Hu. }
    unfold bindM, modify, gets in H. set (s2 := reposition_changed now changed None s1) in *.
    destruct (to_resolve_spec s2) as [Hnd Hbl].
    assert (Hs3 : sound None (set_blocked None s2)) by (by apply sound_set_blocked).
    assert (Hf3 : frame s (set_blocked None s2)) by (eapply frame_trans; [exact Hf2|by split]).
    destruct (to_resolve s2) as [|p ps].
    + injection H as <-. destruct (rearm_sound None now _ Hs3) as (? & ? & _).
      split; [done|by eapply frame_trans].
    + destruct (wms (p :: ps)) as [wm|e] eqn:Ew.
      * injection H as <-.
        destruct (resolve_all_sound now wm (p :: ps) _ Hs3 (Hwm _ _ Ew) Hnd) as (I1 & I2 & _).
        { intros q Hq. split; [by apply Hbl|by apply Hu2, Hbl]. }
        destruct (rearm_sound None now _ I1) as (? & ? & _). split; [done|].
        eapply frame_trans; [exact Hf3|by eapply frame_trans].
      * injection H as <-. split; [by apply sound_set_next_recheck|].
        eapply frame_trans; [exact Hf2|by split].
  - apply (refresh_lost None) in E as [Hs1 Hf1]; [|done]. case_decide; [done|].
    injection H as <-. destruct (unresolved s1).
    + split; [by apply sound_set_next_recheck, sound_set_blocked|].
      eapply frame_trans; [exact Hf0|]. eapply frame_trans; [exact Hf1|by split].
    + split; [by apply sound_set_next_recheck|].
      eapply frame_trans; [exact Hf0|]. eapply frame_trans; [exact Hf1|by split].
Qed.

(** ** A step's work *)

Lemma ready_state_later t t' s : t ≤ t' → ready_state t s → ready_state t' s.
Proof.
  intros Ht [Hs Hh Hst]. split; [done| |done]. intros h E. destruct (Hh h E); [by left|right; lia].
Qed.

Lemma feed_stalled_frame now fed s s' :
  feed_stalled cfg now fed s = (s', Ok tt) →
  s_parts s' = s_parts s ∧ s_buf s' = s_buf s ∧ s_held s' = s_held s ∧
  s_paused s ⊆ s_paused s' ∧ (is_Some (s_stalled s') → quiet s' ∨ s_stalled s' = s_stalled s).
Proof.
  unfold feed_stalled, bindM, gets, modify. destruct (s_stalled s) as [x|] eqn:E.
  2: { intros [= <-]. rewrite E. by repeat split. }
  destruct fed as [u|e].
  - intros [= <-]. do 4 (split; [done|]). by intros [].
  - intros (y & _ & ->)%stall_ok. do 3 (split; [done|]). split; [apply union_subseteq_r|].
    intros _. left. apply pause_all_quiet.
Qed.

Lemma feed_due_ready t now w s s' :
  ready_state t s → feed_due cfg now w s = (s', Ok tt) →
  ready_state t s' ∧ s_held s' = s_held s ∧ s_parts s' = s_parts s ∧ s_buf s' = s_buf s.
Proof.
  intros Hr H. unfold feed_due, bindM, gets, retM in H.
  destruct (s_stalled s) as [x|] eqn:E; [|by injection H as <-].
  destruct (st_due x <=? now); [|by injection H as <-].
  destruct Hr as [Hs Hh Hst]. pose proof (feed_stalled_frame _ _ _ _ H) as (F1 & F2 & F3 & F4 & F5).
  apply (feed_stalled_sound (h_batch <$> s_held s)) in H; [|done].
  assert (Hq : quiet s → quiet s') by (unfold quiet; rewrite F1; set_solver).
  split; [|done]. split; [by rewrite F3| |].
  - intros h. rewrite F3. intros Eh. destruct (Hh h Eh); [left; by apply Hq|by right].
  - intros Hx. destruct (F5 Hx) as [?|E']; [done|]. apply Hq, Hst. by rewrite E; eexists.
Qed.

Lemma feed_due_next now w s s' :
  feed_due cfg now w s = (s', Ok tt) → s_next_recheck s' = s_next_recheck s.
Proof.
  unfold feed_due, bindM, gets, retM. destruct (s_stalled s) as [x|]; [|by intros [= <-]].
  destruct (st_due x <=? now); [|by intros [= <-]].
  unfold feed_stalled, bindM, gets, modify. destruct (s_stalled s) as [y|]; [|by intros [= <-]].
  destruct (pw_fed w); [by intros [= <-]|]. by intros (z & _ & ->)%stall_ok.
Qed.

(** What the requests of a poll's due work may answer, and that a recheck that is due finds
    no partition blocked with rows in the buffer. *)
Record due_env (now : Instant) (w : PollWorld) (s : Source) : Prop := {
  de_held h : s_held s = Some h →
    steady now (pw_recheck w) (h_batch h) (set_last_backoff (Some (h_backoff h)) (set_held None s));
  de_world : valid_world (pw_recheck w);
  de_watermarks ps wm : pw_watermarks w ps = Ok wm → watermarks_ok wm;
  de_unbuffered t : s_held s = None → s_next_recheck s = Some t → t ≤ now → unbuffered s;
}.

Definition work_ready (t : Instant) (r : option Work) (s : Source) : Prop :=
  match r with
  | None => ready_state t s
  | Some (W_Retry b) => sound (Some b) s ∧ s_held s = None
  | Some _ => False
  end.

Lemma due_work_ready now w s s' r :
  ready_state now s → due_env now w s → due_work cfg now w s = (s', Ok r) →
  work_ready now r s'.
Proof.
  intros Hr [Heh Hew Hewm Heu] H. unfold due_work in H. unfold bindM at 1, gets at 1 in H.
  destruct (s_held s) as [h|] eqn:Eh.
  - destruct (h_due h <=? now).
    + unfold bindM at 1, modify at 1 in H. unfold bindM at 1, modify at 1 in H.
      specialize (Heh h eq_refl). set (s1 := set_last_backoff _ _) in *.
      assert (Hs1 : sound (Some (h_batch h)) s1).
      { destruct Hr as [Hs _ _]. rewrite Eh in Hs. eapply sound_alike; [|exact Hs].
        split; try done. intros; apply same_state_refl. }
      destruct (_ && _); [|by injection H as <- <-].
      unfold bindM, retM in H.
      destruct (recheck_for_batch cfg now (pw_recheck w) (h_batch h) s1) as [s2 [o|e]] eqn:E; [|done].
      injection H as <- <-. apply (recheck_for_batch_ready now) in E; [|done..].
      destruct o as [b|]; simpl; [|done]. by destruct E as (-> & ? & ?).
    + unfold bindM, retM in H.
      destruct (feed_due cfg now w s) as [s1 [[]|e]] eqn:E; [|done]. injection H as <- <-.
      apply (feed_due_ready now) in E; [|done]. by destruct E as [? _].
  - unfold bindM at 1 in H. destruct (feed_due cfg now w s) as [s1 [[]|e]] eqn:E; [|done].
    pose proof (feed_due_next _ _ _ _ E) as Hn1.
    apply (feed_due_ready now) in E as (Hr1 & Hh1 & Hp1 & Hb1); [|done]. rewrite Eh in Hh1.
    unfold bindM, gets, retM in H.
    destruct (s_next_recheck s1) as [t|]; [|by injection H as <- <-].
    destruct (Z.leb_spec t now) as [Htn|]; [|by injection H as <- <-].
    destruct (recheck_blocked cfg now (pw_recheck w) (pw_watermarks w) s1) as [s2 [[]|e]] eqn:Er; [|done].
    injection H as <- <-. apply recheck_blocked_sound in Er as [Hs2 Hf2]; [|by apply (no_work_ready now)|done|done|].
    2: { intros p. rewrite Hp1, Hb1. by apply (Heu t). }
    apply idle_ready; [done|by apply (frame_held s1)|].
    intros Hx. apply (frame_quiet s1); [done|]. apply Hr1.
    destruct (s_stalled s1) eqn:Est; [by eexists|]. rewrite (fr_stalled _ _ Hf2 Est) in Hx. by destruct Hx.
Qed.


(** ** Assigning *)

Definition start_ok (s : Source) (p : Z) (st : Start) : Prop :=
  match st with
  | S_Ready offset reread =>
      (∀ now, lower (Some (Ready offset offset reread now)) = start_of s p) ∧
      (∀ now, state_ok (Some (Ready offset offset reread now))) ∧
      (∀ x, reread = Some x → offset = reread_offset x) ∧
      (base_offset s p = None → is_Some (s_unbased_start s !! p))
  | S_Blocked _ => True
  end.

(** A partition assigned, the buffer empty. *)
Lemma place_sound now s p st :
  sound None s → ranges (s_buf s) = ∅ → start_ok s p st →
  let s' := place cfg now s (p, st) in
  sound None s' ∧ s_buf s' = s_buf s ∧ s_stalled s' = s_stalled s ∧ s_held s' = s_held s ∧
  s_fence s' = s_fence s ∧ s_unbased_start s' = s_unbased_start s.
Proof.
  intros Hs Hr Hst s'.
  assert (Hf : s_buf s' = s_buf s ∧ s_stalled s' = s_stalled s ∧ s_held s' = s_held s ∧
    s_fence s' = s_fence s ∧ s_unbased_start s' = s_unbased_start s ∧ s_decoder s' = s_decoder s).
  { unfold s', place, arm_recheck. destruct st; [done|]. by case_decide. }
  destruct Hf as (F1 & F2 & F3 & F4 & F5 & F6). split; [|done].
  assert (Hbase : ∀ q, base_offset s' q = base_offset s q) by (intros; unfold base_offset; by rewrite F4).
  assert (Hpend : pending s' = pending s) by (unfold pending; by rewrite F2, F6).
  split.
  - intros q b. rewrite Hbase. apply (sd_offsets _ _ Hs).
  - rewrite F5. apply (sd_unbased _ _ Hs).
  - intros q stq Hq. apply (ready_ok_eq None s); [done|by rewrite F5|by rewrite F1|].
    assert (Hparts : s_parts s' = <[p := match st with
      | S_Ready offset reread => Ready offset offset reread now
      | S_Blocked b => Blocked b (match s_parts s !! p with Some (Blocked _ x) => x | _ => now end)
      end]> (s_parts s)).
    { unfold s', place, arm_recheck, ready_at, block. destruct st; [done|]. by case_decide. }
    rewrite Hparts in Hq. destruct (decide (p = q)) as [<-|].
    + rewrite lookup_insert_eq in Hq. injection Hq as <-. destruct st as [offset reread|b]; [|done].
      destruct Hst as (H1 & H2 & H3 & H4). split; [|split; [apply H2|split; [done|]]].
      * rewrite H1. unfold owed. by rewrite Hr, lookup_empty.
      * intros x Hx. rewrite Hr, lookup_empty. by split; [apply H3|].
    + rewrite lookup_insert_ne in Hq by done. by apply (sd_ready _ _ Hs).
  - intros q f l. by rewrite F1, Hr, lookup_empty.
  - intros q. rewrite F1, Hpend. apply (sd_nobuf _ _ Hs).
  - rewrite F1. apply (sd_empty _ _ Hs).
  - done.
Qed.

Lemma place_all_sound now starts s :
  sound None s → ranges (s_buf s) = ∅ → (∀ p st, (p, st) ∈ starts → start_ok s p st) →
  let s' := fold_left (place cfg now) starts s in
  sound None s' ∧ s_stalled s' = s_stalled s ∧ s_held s' = s_held s.
Proof.
  revert s. induction starts as [|[p st] l IH]; intros s Hs Hr Hok; [done|]. cbn [fold_left].
  destruct (place_sound now s p st Hs Hr) as (H1 & H2 & H3 & H4 & H5 & H6); [by apply Hok; left|].
  destruct (IH _ H1) as (I1 & I2 & I3); [by rewrite H2| |by rewrite I2, I3, H3, H4].
  intros q stq Hq. specialize (Hok q stq ltac:(by right)).
  destruct stq as [offset reread|]; [|done]. destruct Hok as (K1 & K2 & K3 & K4).
  assert (Hb : base_offset (place cfg now s (p, st)) q = base_offset s q)
    by (unfold base_offset; by rewrite H5).
  split; [|split; [done|split; [done|by rewrite Hb, H6]]].
  intros t. rewrite K1. symmetry. apply start_of_eq; [done|by rewrite H6].
Qed.

(** What an empty member's sound state comes to. *)
Lemma empty_sound s :
  offsets_ok s → (∀ p u, s_unbased_start s !! p = Some u → 0 ≤ u ≤ i64_max) → s_parts s = ∅ →
  ranges (s_buf s) = ∅ → buffer_is_empty (s_buf s) = true → pending s = [] → sound None s.
Proof.
  intros Ho Hu Hp Hr He Hpe. split; try done.
  - intros p st. by rewrite Hp, lookup_empty.
  - intros p f l. by rewrite Hr, lookup_empty.
  - intros p _. by rewrite Hpe.
Qed.

Record empty_member (s : Source) : Prop := {
  em_parts : s_parts s = ∅;
  em_ranges : ranges (s_buf s) = ∅;
  em_buf : buffer_is_empty (s_buf s) = true;
  em_stalled : s_stalled s = None;
  em_decoder : s_decoder s = [];
  em_held : s_held s = None;
}.

Lemma no_partitions_empty t s : ready_state t s → s_parts s = ∅ → empty_member s.
Proof.
  intros [Hs _ _] Hp. assert (Hr : ranges (s_buf s) = ∅).
  { apply map_empty. intros p. destruct (ranges (s_buf s) !! p) as [[f l]|] eqn:E; [|done].
    destruct (sd_buf _ _ Hs p f l E) as [Hin _]. rewrite Hp, lookup_empty in Hin. by destruct Hin. }
  pose proof (empty_not_stalled _ _ Hs Hr) as Hpe. unfold pending in Hpe.
  assert (Hst : s_stalled s = None ∧ s_decoder s = []).
  { destruct (s_stalled s), (s_decoder s); simpl in Hpe; done. }
  destruct Hst. split; try done; [by apply (sd_empty _ _ Hs)|].
  destruct (s_held s) as [h|]; [|done]. simpl in Hs. exfalso.
  destruct (sd_batch _ _ Hs _ eq_refl) as [Hb _]. apply (bw_some _ _ Hb), map_empty. intros p.
  destruct (b_ranges (h_batch h) !! p) eqn:E; [|done].
  destruct (bw_owned _ _ Hb p) as [? Hx]; [by eexists|]. by rewrite Hp, lookup_empty in Hx.
Qed.

(** The starts an assignment reads. *)
Definition starts_of (s : Source) (wm : gmap Z (Z * Z)) (ps : list Z) : list (Z * Start) :=
  (λ p, let '(low, high) := default (0, 0) (wm !! p) in
        let '(base, mark) := default (None, None) (base_of (s_fence s) p) in
        (p, resolve base mark low high (explicit_entries cfg !! p))) <$> ps.

Definition unbased_of (s : Source) (starts : list (Z * Start)) : gmap Z Z :=
  list_to_map (omap (λ '(p, st),
    match base_offset s p, st with
    | None, S_Ready offset _ => Some (p, offset)
    | _, _ => None
    end) (rev starts)).

Lemma starts_of_elem s wm ps p st :
  watermarks_ok wm → offsets_ok s → (p, st) ∈ starts_of s wm ps →
  ∃ low high, 0 ≤ low ∧ low ≤ high ∧ high ≤ i64_max ∧
    st = resolve (base_offset s p) (snd (default (None, None) (base_of (s_fence s) p))) low high
           (explicit_entries cfg !! p) ∧
    ∀ st', (p, st') ∈ starts_of s wm ps → st' = st.
Proof.
  intros Hwm Ho Hin. assert (Hfun : ∀ st', (p, st') ∈ starts_of s wm ps →
    ∃ low high mark, default (0, 0) (wm !! p) = (low, high) ∧
      mark = snd (default (None, None) (base_of (s_fence s) p)) ∧
      st' = resolve (base_offset s p) mark low high (explicit_entries cfg !! p)).
  { intros st' (q & Hq & _)%list_elem_of_fmap.
    destruct (default (0, 0) (wm !! q)) as [low high] eqn:Ew.
    destruct (default (None, None) (base_of (s_fence s) q)) as [base mark] eqn:Eb.
    injection Hq as -> ->. exists low, high, mark. split; [done|].
    split; [by rewrite Eb|]. by rewrite <- base_offset_default, Eb. }
  destruct (Hfun _ Hin) as (low & high & mark & Hw & -> & ->).
  assert (Hr : 0 ≤ low ∧ low ≤ high ∧ high ≤ i64_max).
  { destruct (wm !! p) as [[l h]|] eqn:E; simpl in Hw; injection Hw as <- <-.
    - by apply (Hwm p).
    - width_lia. }
  exists low, high. destruct Hr as (? & ? & ?). do 4 (split; [done|]).
  intros st' Hst. destruct (Hfun _ Hst) as (l' & h' & m' & Hw' & -> & ->).
  rewrite Hw in Hw'. by injection Hw' as <- <-.
Qed.

Lemma unbased_of_range s wm ps p u :
  watermarks_ok wm → offsets_ok s → unbased_of s (starts_of s wm ps) !! p = Some u →
  0 ≤ u ≤ i64_max.
Proof.
  intros Hwm Ho ([q st] & Hq & Hm)%elem_of_list_to_map_2%list_elem_of_omap.
  apply list_elem_of_In, in_rev, list_elem_of_In in Hq.
  destruct (starts_of_elem s wm ps q st Hwm Ho Hq) as (low & high & Hl & Hlh & Hh & Hst & _).
  destruct (base_offset s q) as [b|] eqn:Eq; [done|]. destruct st as [o r|]; [|done].
  injection Hm as -> ->. symmetry in Hst. by apply resolve_spec in Hst as (_ & _ & _ & ?).
Qed.

Lemma starts_ok s wm ps p st :
  watermarks_ok wm → offsets_ok s → (p, st) ∈ starts_of s wm ps →
  start_ok (set_unbased_start (unbased_of s (starts_of s wm ps)) s) p st.
Proof.
  intros Hwm Ho Hin. destruct (starts_of_elem s wm ps p st Hwm Ho Hin)
    as (low & high & Hl & Hlh & Hh & Hst & Hfun).
  destruct st as [offset reread|]; [|done].
  destruct (resolve_spec (base_offset s p) (snd (default (None, None) (base_of (s_fence s) p)))
    low high (explicit_entries cfg !! p) offset reread) as (H1 & H2 & H3 & H4); [|done..|].
  { destruct (base_offset s p) as [b|] eqn:E; simpl; [by apply (Ho p)|done]. }
  set (s' := set_unbased_start _ s). assert (Hb : base_offset s' p = base_offset s p) by done.
  assert (Hu : base_offset s p = None → s_unbased_start s' !! p = Some offset).
  { intros E. unfold s'; simpl. unfold unbased_of. set (l := omap _ _).
    assert (Hl' : ∀ o, (p, o) ∈ l → o = offset).
    { intros o ([q st'] & Hq & Hm)%list_elem_of_omap. apply list_elem_of_In, in_rev, list_elem_of_In in Hq.
      destruct (base_offset s q) eqn:Eq; [done|]. destruct st' as [o' r'|]; [|done].
      injection Hm as -> ->. specialize (Hfun _ Hq). by injection Hfun. }
    destruct ((list_to_map l : gmap Z Z) !! p) as [o|] eqn:El.
    - by apply elem_of_list_to_map_2, Hl' in El as ->.
    - apply not_elem_of_list_to_map in El. exfalso. apply El, list_elem_of_fmap.
      exists (p, offset). split; [done|]. apply list_elem_of_omap. exists (p, S_Ready offset reread).
      split; [by apply list_elem_of_In, in_rev; rewrite rev_involutive; apply list_elem_of_In|].
      by rewrite E. }
  split; [|split; [done|split; [done|]]].
  - intros t. rewrite H1. unfold start_of, batch_start. rewrite Hb.
    destruct (base_offset s p); [done|]. by rewrite Hu.
  - rewrite Hb. intros E. rewrite Hu by done. by eexists.
Qed.

Lemma read_starts_spec now w ps watermarks s s' r :
  valid_world w → (∀ wm, watermarks = Ok wm → watermarks_ok wm) → empty_member s → sound None s →
  read_starts cfg now w ps watermarks s = (s', r) →
  empty_member s' ∧ sound None s' ∧ s_stalled s' = None ∧
  match r with Ok (starts, _) => ∀ p st, (p, st) ∈ starts → start_ok s' p st | Err _ => True end.
Proof.
  intros Hw Hwm He Hs H. pose proof He as [E1 E2 E3 E4 E5 E6].
  assert (Hbuild : ∀ v f t u, (∀ p b, f_base f !! p ≫= fst = Some b → 0 ≤ b < i64_max) →
    (∀ p o, u !! p = Some o → 0 ≤ o ≤ i64_max) →
    let s0 := set_unbased_start u (set_refreshed_at t (set_fence f (set_target v s))) in
    empty_member s0 ∧ sound None s0 ∧ s_stalled s0 = None).
  { intros v f t u Hf Hu s0. split; [by split|]. split; [|done].
    apply empty_sound; [by intros p b Hb; apply (Hf p)|done|done|done|done|].
    unfold pending, s0; simpl. by rewrite E4, E5. }
  assert (Hold : ∀ f, f_base f = f_base (s_fence s) →
    ∀ p b, f_base f !! p ≫= fst = Some b → 0 ≤ b < i64_max).
  { intros f -> p b Hb. by apply (sd_offsets _ _ Hs p). }
  assert (Heta : ∀ s1 : Source, s1 = set_unbased_start (s_unbased_start s1)
    (set_refreshed_at (s_refreshed_at s1) (set_fence (s_fence s1) (set_target (s_target s1) s1))))
    by (by intros []).
  unfold read_starts in H. unfold bindM at 1 in H.
  destruct (refresh_target cfg w s) as [s1 r1] eqn:Et. apply refresh_target_spec in Et as (v & -> & Hv).
  destruct r1 as [[]|e].
  2: { injection H as <- <-. destruct (Hbuild v (s_fence s) (s_refreshed_at s) (s_unbased_start s))
         as (B1 & B2 & B3); [by apply Hold|apply (sd_unbased _ _ Hs)|]. by destruct s. }
  specialize (Hv eq_refl Hw). unfold bindM at 1, reset_fence at 1 in H.
  destruct (reset _ _ _) as [f r2] eqn:Er. pose proof (reset_shape _ _ _ _ _ Er) as Hshape.
  destruct r2 as [[]|e].
  2: { injection H as <- <-. destruct (Hbuild v f (s_refreshed_at s) (s_unbased_start s))
         as (B1 & B2 & B3); [by apply Hold|apply (sd_unbased _ _ Hs)|]. by destruct s. }
  pose proof (Hv _ _ _ Er) as Hf. unfold bindM at 1, modify at 1 in H.
  unfold bindM at 1, liftM at 1 in H.
  destruct (Hbuild v f now (s_unbased_start s)) as (B1 & B2 & B3);
    [done|apply (sd_unbased _ _ Hs)|].
  set (s2 := set_refreshed_at now (set_fence f (set_target v s))) in *.
  assert (Es2 : set_unbased_start (s_unbased_start s) s2 = s2) by (by destruct s).
  rewrite Es2 in B1, B2, B3.
  destruct watermarks as [wm|e]; [|by injection H as <- <-].
  unfold bindM, gets, modify, retM in H. injection H as <- <-.
  change (_ <$> ps) with (starts_of s2 wm ps).
  change (list_to_map _) with (unbased_of s2 (starts_of s2 wm ps)).
  specialize (Hwm wm eq_refl). split; [by split|]. split; [|split; [done|]].
  - apply empty_sound; [exact (sd_offsets _ _ B2)| |done|done|done|].
    + intros p u. apply unbased_of_range; [done|apply (sd_offsets _ _ B2)].
    + unfold pending; simpl. by rewrite E4, E5.
  - intros p st Hin. apply starts_ok; [done|apply (sd_offsets _ _ B2)|done].
Qed.

Lemma empty_ready t s : empty_member s → sound None s → ready_state t s.
Proof. intros [_ _ _ Hst _ Hh] Hs. apply idle_ready; [done|done|]. rewrite Hst. by intros []. Qed.

Lemma empty_alike s s' :
  empty_member s → alike s s' → s_parts s' = s_parts s → s_stalled s' = s_stalled s →
  s_decoder s' = s_decoder s → s_held s' = s_held s → empty_member s'.
Proof.
  intros [] [_ Hb _ _ _] Hp Hst Hd Hh. split; congruence.
Qed.

Lemma assign_ready t now w ps watermarks once assigned s s' :
  valid_world w → (∀ wm, watermarks = Ok wm → watermarks_ok wm) →
  ready_state t s → s_parts s = ∅ →
  assign_partitions cfg now w ps watermarks once assigned s = (s', Ok tt) → ready_state t s'.
Proof.
  intros Hw Hwm Hr Hp H. pose proof (no_partitions_empty _ _ Hr Hp) as He.
  pose proof (no_work_ready _ _ Hr (em_held _ He)) as Hs.
  unfold assign_partitions in H. unfold bindM at 1, modify at 1 in H.
  assert (E0 : set_parts ∅ s = s) by (destruct s; simpl in *; by subst).
  rewrite E0 in H. unfold bindM at 1, attempt in H.
  destruct (read_starts cfg now w ps watermarks s) as [s1 r] eqn:Er.
  apply read_starts_spec in Er as (He1 & Hs1 & _ & Hok); [|done..].
  assert (Htail : ∀ s2 starts ends, empty_member s2 → sound None s2 →
    (∀ p st, (p, st) ∈ starts → start_ok s2 p st) →
    (do! modify (λ s, fold_left (place cfg now) starts s) in
     do! liftM assigned in
     do! modify (λ s, pause (list_to_set (blocked_starts starts)) (set_paused ∅ s)) in
     if once then modify (set_once_end (Some (snd <$> (ends : gmap Z (Z * Z))))) else retM tt) s2 = (s', Ok tt) →
    ready_state t s').
  { intros s2 starts ends He2 Hs2 Hok2 H2. unfold bindM, modify, liftM, retM in H2.
    destruct (place_all_sound now starts s2 Hs2 (em_ranges _ He2) Hok2) as (P1 & P2 & P3).
    rewrite (em_stalled _ He2) in P2. rewrite (em_held _ He2) in P3.
    destruct assigned; [|done].
    destruct once; injection H2 as <-; (apply idle_ready; [|done|]);
      try (cbn; rewrite P2; by intros []);
      (eapply sound_alike; [|exact P1]); split; try done; intros; apply same_state_refl. }
  destruct r as [[starts ends]|e].
  - unfold bindM at 1, retM at 1 in H. by apply (Htail s1 starts ends).
  - destruct (_ || once) eqn:Ec; [done|]. unfold bindM at 1 in H. unfold bindM at 1, modify at 1 in H.
    unfold bindM at 1, modify at 1 in H. unfold retM at 1 in H.
    eapply Htail; [| | |exact H].
    + eapply empty_alike; [exact He1| |done|done|done|done].
      split; try done. intros; apply same_state_refl.
    + by apply sound_set_next_recheck, sound_set_blocked.
    + intros p st (q & [= -> ->] & _)%list_elem_of_fmap. done.
Qed.

(** ** Giving up, pausing, releasing *)

Lemma forget_all_base l f p :
  f_base (foldr forget f l) !! p = if decide (p ∈ l) then None else f_base f !! p.
Proof.
  induction l as [|q l IH]; [done|]. simpl. destruct (decide (q = p)) as [->|Hne].
  - rewrite lookup_delete_eq. by rewrite decide_True by (by left).
  - rewrite lookup_delete_ne, IH by done. destruct (decide (p ∈ l)) as [Hl|Hl].
    + by rewrite decide_True by (by right).
    + rewrite decide_False; [done|]. intros [?|?]%elem_of_cons; by subst.
Qed.

Lemma unassign_ready t unassigned s s' r :
  offsets_ok s → unassign unassigned s = (s', r) → ready_state t s'.
Proof.
  intros Ho H. unfold unassign, bindM, modify, liftM in H. injection H as <- _.
  apply idle_ready; [|done|by intros []]. apply empty_sound; try done.
  intros p b. unfold base_offset, base_of; simpl. rewrite forget_all_base.
  case_decide; [done|]. apply Ho.
Qed.


(** What the refresh of a flush's commit may find. *)
Definition flush_env (now : Instant) (w : CommitWorld)
    (finished : result Error (list Undecodable)) (s : Source) : Prop :=
  (∀ h, s_held s = Some h → steady now (cw_refresh w) (h_batch h) (set_held None s)) ∧
  (∀ s1 b, close finished s = (s1, Ok b) → steady now (cw_refresh w) b s1).

Lemma flush_offsets t now w finished in_time s s' r :
  ready_state t s → flush_env now w finished s →
  flush cfg now w finished in_time s = (s', Ok r) → offsets_ok s'.
Proof.
  intros Hr [Hheld Hclose] H. pose proof (sd_offsets _ _ (rs_sound _ _ Hr)) as Ho.
  unfold flush in H. apply bindM_ok in H as (s0 & fl & H & [= <- _]).
  unfold flush_inner in H. unfold bindM at 1, gets at 1 in H.
  destruct (_ && _) eqn:Enone; [by injection H as <- _|].
  destruct (_ || _) eqn:Estuck; [by injection H as <- _|].
  apply orb_false_iff in Estuck as [_ Est%bool_decide_eq_false].
  apply bindM_ok in H as (s1 & b & Hb & H).
  assert (Hs1 : sound (Some b) s1 ∧ steady now (cw_refresh w) b s1).
  { destruct (s_held s) as [h|] eqn:Eh.
    - unfold bindM, modify, retM in Hb. injection Hb as <- <-. split; [|by apply Hheld].
      destruct Hr as [Hs _ _]. rewrite Eh in Hs. eapply sound_alike; [|exact Hs].
      split; try done. intros; apply same_state_refl.
    - split; [|by apply Hclose]. apply close_sound in Hb as [? _]; [done| | |].
      + by apply (no_work_ready t).
      + destruct (s_stalled s); [|done]. exfalso. apply Est. by eexists.
      + intros He. apply (sd_empty _ _ (rs_sound _ _ Hr)) in He. by rewrite bool_decide_true, He in Enone. }
  destruct Hs1 as [Hs1 Hst1].
  destruct (negb in_time); [by injection H as <- _; apply (sd_offsets _ _ Hs1)|].
  unfold bindM, attempt, retM in H. destruct (try_commit cfg now w b s1) as [s2 r2] eqn:E.
  injection H as <- _. apply try_commit_sound in E as [_ Hs2]; [|done..].
  destruct r2; by apply (sd_offsets _ _ Hs2).
Qed.

Lemma revoke_ready t now w finished in_time unassigned s s' r :
  ready_state t s → flush_env now w finished s →
  flush_then_unassign cfg now w finished in_time unassigned s = (s', Ok r) → ready_state t s'.
Proof.
  intros Hr Henv H. unfold flush_then_unassign in H. unfold bindM at 1, gets at 1 in H.
  apply bindM_ok in H as (s1 & o & H1 & H). apply bindM_ok in H as (s2 & [] & H2 & [= <- _]).
  apply (unassign_ready t) in H2; [done|]. case_decide.
  - injection H1 as <- _. apply (sd_offsets _ _ (rs_sound _ _ Hr)).
  - by eapply flush_offsets.
Qed.

Lemma release_ready t now resumed s :
  ready_state t s → may_release s = true → ready_state t (release now resumed s).
Proof.
  intros Hr Hm. unfold may_release in Hm.
  apply andb_true_iff in Hm as [[Hh%bool_decide_eq_true Hst%bool_decide_eq_true]%andb_true_iff _].
  apply idle_ready; [|done|].
  - eapply sound_alike; [|by apply (no_work_ready t)]. split; try done.
    intros p. unfold release; simpl. apply polled_each_same.
  - unfold release; simpl. rewrite Hst. by intros [].
Qed.

Lemma frame_ready t s s' :
  ready_state t s → frame s s' → sound (h_batch <$> s_held s) s' →
  (is_Some (s_stalled s') → is_Some (s_stalled s)) → ready_state t s'.
Proof.
  intros [Hs Hh Hst] Hf Hs' Hx. split.
  - by rewrite (fr_held _ _ Hf).
  - intros h. rewrite (fr_held _ _ Hf). intros E. destruct (Hh h E); [left|by right].
    by apply (frame_quiet s).
  - intros H. by apply (frame_quiet s), Hst, Hx.
Qed.

Lemma block_partition_sound now p b ob s :
  sound ob s → is_Some (s_parts s !! p) →
  sound ob (block_partition cfg now p b s) ∧ frame s (block_partition cfg now p b s) ∧
  s_stalled (block_partition cfg now p b s) = s_stalled s.
Proof.
  intros Hs Hp. split; [|split; [|done]].
  - apply (dropped_sound ob s _ p (Blocked b (match s_parts s !! p with
      | Some (Blocked _ since) => since | _ => now end))); done.
  - split; [|apply union_subseteq_r|done|done]. intros q. unfold block_partition, block; simpl.
    destruct (decide (p = q)) as [<-|]; [|by rewrite lookup_insert_ne].
    rewrite lookup_insert_eq. split; [done|by eexists].
Qed.

Lemma block_all_sound now l ob s :
  sound ob s → (∀ p b, (p, b) ∈ l → is_Some (s_parts s !! p)) →
  let s' := fold_left (λ s '(p, b), block_partition cfg now p b s) l s in
  sound ob s' ∧ frame s s' ∧ s_stalled s' = s_stalled s.
Proof.
  revert s. induction l as [|[p b] l IH]; intros s Hs Hin; cbn [fold_left].
  { split; [done|]. split; [apply frame_refl|done]. }
  destruct (block_partition_sound now p b ob s Hs) as (B1 & B2 & B3); [by eapply Hin; left|].
  destruct (IH _ B1) as (I1 & I2 & I3).
  { intros q b' Hq. apply (fr_parts _ _ B2). eapply Hin. by right. }
  split; [done|]. split; [by eapply frame_trans|congruence].
Qed.

Lemma ready_elem (ps : Partitions) p n : (p, n) ∈ ready ps → is_Some (ps !! p).
Proof.
  unfold ready. rewrite list_elem_of_omap. intros (q & _ & Hq).
  destruct (ps !! q) as [[]|] eqn:E; try done. injection Hq as <- _. rewrite E. by eexists.
Qed.

Lemma out_of_range_ready t now watermarks s s' :
  ready_state t s → out_of_range cfg now watermarks s = (s', Ok tt) → ready_state t s'.
Proof.
  intros Hr H. unfold out_of_range, bindM, gets, modify, failM in H.
  assert (Hpause : ∀ ps, ready_state t (pause ps s)).
  { intros ps. apply (frame_ready t s); [done|split; [done|apply union_subseteq_r|done|done]| |done].
    eapply sound_alike; [|apply Hr]. split; try done. intros; apply same_state_refl. }
  destruct watermarks as [w|e]; [|case_decide; [|done]; by injection H as <-].
  set (offenders := omap _ _) in H.
  assert (Hin : ∀ p b, (p, b) ∈ offenders → is_Some (s_parts s !! p)).
  { intros p b ([q n] & Hq & Hm)%list_elem_of_omap. destruct (w !! q) as [[lo hi]|]; [|done].
    simpl in Hm. apply ready_elem in Hq. repeat case_match; by simplify_eq. }
  destruct offenders as [|o l] eqn:Eo; [by injection H as <-|]. rewrite <- Eo in *.
  injection H as <-.
  destruct (block_all_sound now offenders (h_batch <$> s_held s) s (rs_sound _ _ Hr) Hin)
    as (B1 & B2 & B3).
  apply (frame_ready t s); [done|done|done|by rewrite B3].
Qed.
End Handlers.
End Correct.
