(* ===== verification/MemberCorrect.v ===== *)
(** * MemberCorrect: what a member reads, holds and commits over its life

    [life] is every event a member sees, in any order: messages, due work, rechecks,
    closings, commits that land or fail, rebalances.  [life false] asks nothing of librdkafka
    and of the target beyond a group that gives partitions only to a member that gave up its
    own.  An orderly life, [life true], has what they may answer in the premises of its
    steps: messages in order from where they were sought ([in_order]), offsets and watermarks
    that are offsets, no refresh that brings back an offset a batch in flight was read from
    ([steady]), and no recheck that finds a partition blocked with rows in the buffer
    ([unbuffered]).  The last is not promised by the code: [recheck_rereads_the_buffer] is a
    run in which it fails and a batch holds a message twice. *)

From Stdlib Require Import ZArith Lia Sorted.
From stdpp Require Import base list strings gmap sorting.
From S2P Require Import Prelude Error Partitions Topic Takeover TxnLog TxnLogCorrect Fence.
From S2P Require Import Start Member MemberSound.

Open Scope Z_scope.

Section Life.
Context (T : Z → list MessageMark) (HT : ∀ p, topic (T p)) (cfg : Config).

(** ** A member's life *)

Inductive life (orderly : bool) : Instant * Source → Instant * Source → Prop :=
  (** A message, once nothing is due. *)
  | life_message t now s m fed s' :
      t ≤ now → (∀ h, s_held s = Some h → t < h_due h) →
      (orderly = true → in_order T s m ∧ 0 ≤ messages (s_buf s) < u64_max) →
      take_in cfg m fed s = (s', Ok tt) → life orderly (t, s) (now, s')
  | life_due t now w s s' :
      t ≤ now → (orderly = true → due_env cfg now w s) →
      due_work cfg now w s = (s', Ok None) → life orderly (t, s) (now, s')
  | life_retry t now later w cw s s1 b s' o :
      t ≤ now → now ≤ later →
      (orderly = true → due_env cfg now w s) → due_work cfg now w s = (s1, Ok (Some (W_Retry b))) →
      (orderly = true → commit_env cfg later cw b s1) →
      commit_batch cfg later cw b s1 = (s', Ok o) →
      life orderly (t, s) (later, s')
  | life_close t now later limits decoded finished cw s s1 b s' o :
      t ≤ now → now ≤ later → closes_now limits decoded now s = true →
      close finished s = (s1, Ok b) →
      (orderly = true → commit_env cfg later cw b s1) →
      commit_batch cfg later cw b s1 = (s', Ok o) →
      life orderly (t, s) (later, s')
  (** Time passes, and a step of the pipeline begins. *)
  | life_wait t now s : t ≤ now → life orderly (t, s) (now, s)
  | life_step t s : life orderly (t, s) (t, set_reset_this_step false s)
  | life_release t now resumed s :
      t ≤ now → may_release s = true → life orderly (t, s) (now, release now resumed s)
  | life_out_of_range t now w s s' :
      t ≤ now → out_of_range cfg now w s = (s', Ok tt) → life orderly (t, s) (now, s')
  (** The group gives partitions only to a member that gave up its own. *)
  | life_assign t now w ps wm once assigned s s' :
      t ≤ now → (orderly = true → valid_world w ∧ ∀ x, wm = Ok x → watermarks_ok x) →
      s_parts s = ∅ →
      assign_partitions cfg now w ps wm once assigned s = (s', Ok tt) → life orderly (t, s) (now, s')
  | life_revoke t now w finished in_time unassigned s s' o :
      t ≤ now → (orderly = true → flush_env cfg now w finished s) →
      flush_then_unassign cfg now w finished in_time unassigned s = (s', Ok o) →
      life orderly (t, s) (now, s')
  | life_lost t now unassigned s s' :
      t ≤ now → drop_and_unassign unassigned s = (s', Ok tt) → life orderly (t, s) (now, s').

(** A member as it is opened. *)
Definition opened (s : Source) : Prop :=
  empty_member s ∧ f_base (s_fence s) = ∅ ∧ s_unbased_start s = ∅ ∧ s_blocked s = None.

Definition lives (orderly : bool) (t : Instant) (s : Source) : Prop :=
  ∃ t0 s0, opened s0 ∧ rtc (life orderly) (t0, s0) (t, s).

Lemma close_buffer_ready now s limits decoded finished s1 b :
  ready_state T now s → closes_now limits decoded now s = true → close finished s = (s1, Ok b) →
  sound T (Some b) s1 ∧ s_held s1 = None ∧ s_fence s1 = s_fence s ∧ b_ranges b = ranges (s_buf s).
Proof.
  intros Hr Hc H. unfold closes_now in Hc.
  apply andb_true_iff in Hc as [[Hst%bool_decide_eq_true Hh%bool_decide_eq_true]%andb_true_iff Hc].
  pose proof (no_work_ready T _ _ Hr Hh) as Hs.
  assert (Hne : ranges (s_buf s) ≠ ∅).
  { intros He. apply (sd_empty T _ _ Hs) in He. unfold closes in Hc. by rewrite He in Hc. }
  pose proof (close_sound T _ _ _ _ Hs Hst Hne H) as (H1 & _ & _ & H2 & _ & H3).
  split; [done|]. split; [congruence|]. split; [done|].
  unfold close in H. apply bindM_ok in H as (s2 & bf & [= <- <-] & H).
  apply bindM_ok in H as (s3 & [] & _ & H). apply bindM_ok in H as (s4 & u & _ & H).
  apply bindM_ok in H as (s5 & l & _ & H). apply bindM_ok in H as (s6 & [] & _ & [= _ <-]). done.
Qed.

(** What taking a message leaves alone. *)
Lemma take_in_frame m fed s s' :
  take_in cfg m fed s = (s', Ok tt) →
  s_held s' = s_held s ∧ (s_stalled s' = s_stalled s ∨ quiet s').
Proof.
  unfold take_in, bindM. destruct (take_one m (intake s)) as [a i].
  destruct a as [[g|w|b]|]; try (intros [= <-]; by split; [|left]).
  destruct fed as [u|e]; [intros [= <-]; by split; [|left]|].
  intros (x & _ & ->)%stall_ok. split; [done|]. right. apply pause_all_quiet.
Qed.

Lemma take_quiet_ready t m fed s s' :
  quiet s → ready_state T t s → take_in cfg m fed s = (s', Ok tt) → ready_state T t s'.
Proof.
  intros Hq Hr H. destruct (take_in_frame _ _ _ _ H) as [Hh _].
  apply (take_in_quiet T cfg (h_batch <$> s_held s)) in H as [Hs Hq']; [|done|apply Hr].
  split; [by rewrite Hh|by left|done].
Qed.

Lemma life_ready t s t' s' :
  ready_state T t s → life true (t, s) (t', s') → t ≤ t' ∧ ready_state T t' s'.
Proof.
  intros Hr H. inversion H as [? ? ? m fed ? Ht Hdue Hord Htake
    |? ? w ? ? Ht Henv Hw|? now later w cw ? s1 b ? o Ht Ht2 Henv Hw Hcenv Hc
    |? now later limits decoded finished cw ? s1 b ? o Ht Ht2 Hcl Hclose Hcenv Hc|? ? ? Ht|? ?|? ? resumed ? Ht Hm
    |? ? w ? ? Ht Ho|? ? w ps wm once assigned ? ? Ht Hw Hp Ha
    |? ? w finished in_time un ? ? o Ht Henv Hf|? ? un ? ? Ht Hl]; subst;
    (split; [lia|]); try specialize (Henv eq_refl); try specialize (Hcenv eq_refl).
  - destruct (Hord eq_refl) as [Hin Hcount]. clear Hord. rename Hin into Hord. assert (Hquiet : s_held s ≠ None ∨ s_stalled s ≠ None → quiet s).
    { intros [Hh|Hst].
      - destruct (s_held s) as [h|] eqn:Eh; [|done].
        destruct (rs_held T _ _ Hr h Eh); [done|]. specialize (Hdue h eq_refl). lia.
      - apply (rs_stalled T _ _ Hr). by apply not_eq_None_Some. }
    apply (ready_state_later T t t' s Ht) in Hr.
    destruct (s_held s) as [h|] eqn:Eh; [|destruct (s_stalled s) as [x|] eqn:Ex].
    + apply (take_quiet_ready t' m fed s s'); [by apply Hquiet; left|done|done].
    + apply (take_quiet_ready t' m fed s s'); [by apply Hquiet; right|done|done].
    + pose proof (no_work_ready T _ _ Hr Eh) as Hs. pose proof (take_in_frame _ _ _ _ Htake) as [Hh Hst].
      apply (take_in_sound T HT) in Htake; [|done..]. apply (idle_ready T); [done|congruence|].
      intros Hx. destruct Hst as [E|Hq]; [|done]. rewrite E, Ex in Hx. by destruct Hx.
  - apply (ready_state_later T t t' s Ht) in Hr. by apply (due_work_ready T HT cfg t' w s s' None) in Hw.
  - apply (ready_state_later T t now s Ht) in Hr.
    apply (due_work_ready T HT cfg) in Hw as [Hs1 Hh1]; [|done..].
    apply (commit_batch_ready T HT cfg t' t' cw b s1 s' o); [lia|done..].
  - apply (ready_state_later T t now s Ht) in Hr.
    destruct (close_buffer_ready _ _ _ _ _ _ _ Hr Hcl Hclose) as (Hs1 & Hh1 & _).
    apply (commit_batch_ready T HT cfg t' t' cw b s1 s' o); [lia|done..].
  - by apply (ready_state_later T t).
  - destruct Hr as [H1 H2 H3]. split; [by apply sound_set_reset|exact H2|exact H3].
  - apply (ready_state_later T t t' s Ht) in Hr. by apply release_ready.
  - apply (ready_state_later T t t' s Ht) in Hr. by eapply out_of_range_ready.
  - apply (ready_state_later T t t' s Ht) in Hr. destruct (Hw eq_refl). by eapply assign_ready.
  - apply (ready_state_later T t t' s Ht) in Hr. by eapply revoke_ready.
  - eapply unassign_ready; [|exact Hl]. apply (sd_offsets T _ _ (rs_sound T _ _ Hr)).
Qed.

Lemma opened_ready t s : opened s → ready_state T t s.
Proof.
  intros (He & Hb & Hu & _). pose proof He as [E1 E2 E3 E4 E5 E6]. apply (empty_ready T); [done|].
  apply empty_sound; try done.
  - intros p b. unfold base_offset, base_of. by rewrite Hb.
  - intros p u. by rewrite Hu.
  - unfold pending. by rewrite E4, E5.
Qed.

(** ** Nothing waits for ever *)

(** A paused pipeline has a batch to try again or a recheck due, and so has every blocked
    partition. *)
Record awake (s : Source) : Prop := {
  aw_pipeline : is_Some (s_blocked s) → is_Some (s_held s) ∨ is_Some (s_next_recheck s);
  aw_parts p : is_blocked (s_parts s !! p) = true → is_Some (s_next_recheck s);
}.

(** What most of a handler's steps do to it. *)
Record kept (s s' : Source) : Prop := {
  kp_parts p : is_blocked (s_parts s' !! p) = true → is_blocked (s_parts s !! p) = true;
  kp_next : is_Some (s_next_recheck s) → is_Some (s_next_recheck s');
  kp_pipeline : is_Some (s_blocked s') → is_Some (s_blocked s);
  kp_held : s_held s' = s_held s;
}.

Lemma kept_refl s : kept s s.
Proof. by split. Qed.

Lemma kept_trans a b c : kept a b → kept b c → kept a c.
Proof. intros [A1 A2 A3 A4] [B1 B2 B3 B4]. split; [auto|auto|auto|congruence]. Qed.

(** The partitions' part of [awake], which holds with a batch in flight too. *)
Definition armed (s : Source) : Prop :=
  ∀ p, is_blocked (s_parts s !! p) = true → is_Some (s_next_recheck s).

Lemma kept_armed s s' : kept s s' → armed s → armed s'.
Proof. intros [K1 K2 _ _] Ha p Hp. eauto. Qed.

Lemma kept_awake s s' : kept s s' → awake s → awake s'.
Proof.
  intros Hk [Hp Ha]. split; [|by apply (kept_armed s)]. destruct Hk as [_ K2 K3 K4].
  rewrite K4. intros Hb. destruct (Hp (K3 Hb)); eauto.
Qed.

Lemma same_blocked a b : same_state a b → is_blocked b = true → is_blocked a = true.
Proof. destruct a as [[]|], b as [[]|]; done. Qed.

Lemma refresh_kept now w s s' r : refresh_and_reset cfg now w s = (s', r) → kept s s'.
Proof.
  intros H. destruct r as [changed|e].
  - unfold refresh_and_reset in H. apply bindM_ok in H as (s0 & before & [= <- <-] & H).
    apply bindM_ok in H as (s1 & [] & H1 & H). apply refresh_target_spec in H1 as (v & -> & _).
    apply bindM_ok in H as (s2 & [] & H2 & H). unfold reset_fence in H2.
    destruct (reset _ _ _) as [f r]. injection H2 as <- _. by injection H as <- _.
  - apply refresh_and_reset_err in H as (v & f & -> & _). by split.
Qed.

Lemma reposition_kept now changed survives s : kept s (reposition_changed now changed survives s).
Proof.
  unfold reposition_changed. destruct (discard_moved_buffer changed s) as [again s2] eqn:E.
  set (ag := _ ∪ _). assert (H2 : kept s s2).
  { apply discard_cases in E as [(_ & -> & _)|(_ & _ & ->)]; [apply kept_refl|by split]. }
  eapply kept_trans; [exact H2|].
  destruct (reposition_fields now ag s2) as (_ & _ & _ & _ & _ & Hh & Hb & _). split.
  - intros p. rewrite reposition_lookup. destruct (s_parts s2 !! p) as [[]|]; [by case_decide|done..].
  - unfold reposition. simpl. destruct (decide _); [done|by eexists].
  - by rewrite Hb.
  - done.
Qed.

Lemma hold_for_class_awake now b e s s' o :
  armed s → hold_for_class cfg now b e s = (s', Ok o) → awake s'.
Proof.
  intros Ha. unfold hold_for_class, bindM, gets, modify, retM, failM.
  destruct (kafka_class e); try destruct (c_once cfg); intros [= <- _];
    (split; [left; by eexists|exact Ha]).
Qed.

Lemma reset_in_place_awake now w b s s' o :
  armed s → reset_in_place cfg now w (Some b) s = (s', Ok o) → awake s'.
Proof.
  intros Ha H. unfold reset_in_place in H. unfold bindM at 1, modify at 1 in H.
  unfold bindM at 1, attempt in H.
  destruct (refresh_and_reset cfg now w (set_reset_this_step true s)) as [s1 r] eqn:E.
  apply refresh_kept in E. assert (Ha1 : armed s1) by (eapply kept_armed; [exact E|done]).
  destruct r as [changed|e]; [|by eapply hold_for_class_awake].
  unfold bindM at 1, gets at 1 in H. simpl in H.
  case_decide; unfold bindM, modify, retM in H; injection H as <- _;
    (split; [try (left; by eexists); by intros []|]);
    apply (kept_armed s1 (reposition_changed now changed _ s1)); (apply reposition_kept || done).
Qed.

Lemma try_commit_kept now w b s s' r :
  try_commit cfg now w b s = (s', r) → armed s →
  armed s' ∧ s_held s' = s_held s ∧
  match r with
  | Ok _ => is_Some (s_blocked s') → is_Some (s_next_recheck s')
  | Err _ => True
  end.
Proof.
  intros H Ha. unfold try_commit in H. unfold bindM at 1 in H.
  destruct (freshen cfg now w b s) as [s0 r0] eqn:E.
  assert (Hk0 : kept s s0).
  { assert (Hrefresh : ∀ s0 r0, (let! changed := refresh_and_reset cfg now (cw_refresh w) in
        modify (reposition_changed now changed (Some b))) s = (s0, r0) → kept s s0).
    { intros s2 r2 Hr. unfold bindM, modify in Hr.
      destruct (refresh_and_reset cfg now (cw_refresh w) s) as [s1 [changed|e]] eqn:Er;
        apply refresh_kept in Er; injection Hr as <- <-; [|done].
      eapply kept_trans; [exact Er|apply reposition_kept]. }
    unfold freshen in E. unfold bindM at 1, gets at 1 in E. destruct (HANDLE_MAX_AGE <=? _).
    - by apply Hrefresh in E.
    - unfold bindM at 1, liftM, retM at 1 in E. unfold bindM in E.
      destruct (cw_exists w) as [[]|e]; simpl in E; [by injection E as <- _| |by injection E as <- _].
      by apply Hrefresh in E. }
  clear E. pose proof (kept_armed _ _ Hk0 Ha) as Ha0. pose proof (kp_held _ _ Hk0) as Hh0.
  destruct r0 as [u|e]; [|by injection H as <- <-].
  unfold bindM at 1, gets at 1 in H. destruct (moved_in s0 b) as [p|]; [by injection H as <- <-|].
  destruct (undecodable_refusal _ _ _) as [e|]; [by injection H as <- <-|].
  unfold bindM at 1, liftM at 1 in H. destruct (cw_prepare w); [|by injection H as <- <-].
  unfold bindM at 1 in H. destruct (verify_fence (b_ranges b) s0) as [s1 r1] eqn:Ev.
  apply verify_fence_spec in Ev as (f & -> & _). destruct r1; [|by injection H as <- <-].
  unfold bindM at 1, gets at 1 in H. unfold bindM at 1, liftM at 1 in H.
  destruct (cw_protocol_changed w) as [[]|]; [by injection H as <- <-| |by injection H as <- <-].
  unfold bindM at 1, liftM at 1 in H. destruct (cw_process w _) as [v|]; [|by injection H as <- <-].
  unfold bindM at 1, modify at 1 in H. unfold bindM at 1, modify at 1 in H.
  assert (Hpolled : ∀ p, is_blocked (polled_again None now (s_parts s0) !! p) = true →
    is_Some (s_next_recheck s0)).
  { intros p Hp. apply (Ha0 p). eapply same_blocked; [apply polled_again_same|done]. }
  destruct (cw_unwritable w v); injection H as <- <-.
  - split; [exact Hpolled|]. split; [done|]. by intros [].
  - split; [intros p _; by eexists|]. split; [done|]. by eexists.
Qed.

Lemma commit_batch_awake now w b s s' o :
  armed s → s_held s = None → commit_batch cfg now w b s = (s', Ok o) → awake s'.
Proof.
  intros Ha Hh H. unfold commit_batch, bindM, attempt in H.
  destruct (try_commit cfg now w b s) as [s1 r] eqn:E.
  apply try_commit_kept in E as (Ha1 & Hh1 & Hb1); [|done]. destruct r as [o1|e].
  - injection H as <- _. split; [by right; apply Hb1|done].
  - unfold after_failure in H. case_decide; [by eapply reset_in_place_awake|].
    by eapply hold_for_class_awake.
Qed.

Lemma admit_state_blocked st mark now :
  is_blocked (Some (admit_state st mark now).2) = true → is_blocked (Some st) = true.
Proof.
  destruct st as [n start [x|] lm|]; [| |done]; unfold admit_state, admit_next;
    repeat case_match; by intros.
Qed.

Lemma take_one_kept m s a i :
  take_one m (intake s) = (a, i) →
  match a with Some (AdmitBlock _) => True | _ => kept s (set_intake i s) end.
Proof.
  intros H. apply take_one_cases in H.
  assert (Hin : ∀ st st' b, view (msg_partition m) (intake s) = Some st →
    view_step (msg_mark m) (msg_at m) (Some st) = (b, Some st') →
    parts i = <[msg_partition m := st']> (s_parts s) → kept s (set_intake i s)).
  { intros st st' b Hv%view_Some Hst Hp. split; try done. intros q. simpl. rewrite Hp.
    destruct (decide (msg_partition m = q)) as [<-|Hne]; [|by rewrite lookup_insert_ne].
    rewrite lookup_insert_eq, Hv. unfold view_step in Hst.
    pose proof (admit_state_blocked st (msg_mark m) (msg_at m)) as Hb.
    destruct (admit_state _ _ _) as [[]]; by injection Hst as <- <-. }
  destruct a as [[g|w|b]|]; try done.
  - destruct H as (st & st' & H1 & H2 & H3 & _). by eapply Hin.
  - destruct H as (_ & _ & [[H _]|(st & st' & H1 & H2 & H3)]); [|by eapply Hin].
    split; try done. intros q. simpl. by rewrite H.
  - by subst i.
Qed.

Lemma take_in_awake m fed s s' : awake s → take_in cfg m fed s = (s', Ok tt) → awake s'.
Proof.
  intros Ha. unfold take_in, bindM. destruct (take_one m (intake s)) as [a i] eqn:E.
  pose proof (take_one_kept _ _ _ _ E) as Hk.
  destruct a as [[g|w|b]|]; try by (intros [= <-]; by apply (kept_awake s)).
  - assert (Hw : awake (set_intake i s)) by by apply (kept_awake s).
    destruct fed as [u|e].
    + intros [= <-]. apply (kept_awake (set_intake i s)); [by split|done].
    + intros (x & _ & ->)%stall_ok. apply (kept_awake (set_intake i s)); [by split|done].
  - intros [= <-]. split; [right; by eexists|intros; by eexists].
Qed.

Lemma feed_due_kept now w s s' : feed_due cfg now w s = (s', Ok tt) → kept s s'.
Proof.
  unfold feed_due, bindM, gets, retM. destruct (s_stalled s) as [x|]; [|by intros [= <-]].
  destruct (st_due x <=? now); [|by intros [= <-]].
  unfold feed_stalled, bindM, gets, modify. destruct (s_stalled s) as [y|]; [|by intros [= <-]].
  destruct (pw_fed w); [by intros [= <-]|]. intros (z & _ & ->)%stall_ok. by split.
Qed.

Lemma resolve_all_blocked now wm ps s :
  s_blocked (fold_left (resolve_blocked cfg now wm) ps s) = s_blocked s.
Proof.
  revert s. induction ps as [|p ps IH]; intros s; [done|]. cbn [fold_left]. rewrite IH.
  unfold resolve_blocked. destruct (wm !! p) as [[low high]|]; [|done].
  destruct (default _ _) as [base mark]. destruct (resolve _ _ _ _ _); [|done]. by destruct base.
Qed.

Lemma rearm_awake now s : s_blocked s = None → awake (rearm cfg now s).
Proof.
  intros Hb. unfold rearm. destruct (blocked (s_parts s)) as [|x l] eqn:E.
  - split; [rewrite Hb; by intros []|]. intros p Hp. exfalso. pose proof (blocked_nil (s_parts s)) as [Hn _].
    destruct (s_parts s !! p) as [[|b since]|] eqn:Ep; try done. by apply (Hn E p b since).
  - split; [simpl; rewrite Hb; by intros []|]. intros p _. by eexists.
Qed.

(** A recheck leaves every partition that is still blocked with another one due. *)
Lemma recheck_blocked_awake now w wms s s' :
  recheck_blocked cfg now w wms s = (s', Ok tt) → awake s'.
Proof.
  intros H. unfold recheck_blocked, bindM, modify, gets, attempt in H.
  assert (Hnext : ∀ t s0, awake (set_next_recheck (Some t) s0)).
  { intros t s0. split; [right; by eexists|intros; by eexists]. }
  destruct (refresh_and_reset cfg now w (set_next_recheck None s)) as [s1 [changed|e]].
  2: { case_decide; [done|]. injection H as <-. apply Hnext. }
  destruct (to_resolve _) as [|p l]; [injection H as <-; by apply rearm_awake|].
  destruct (wms (p :: l)) as [wm|e]; injection H as <-; [|apply Hnext].
  apply rearm_awake.
  by apply (resolve_all_blocked now wm (p :: l) (set_blocked None (reposition_changed now changed None s1))).
Qed.

Lemma recheck_for_batch_awake now w b s s' r :
  armed s → s_held s = None → recheck_for_batch cfg now w b s = (s', Ok r) →
  match r with Some _ => armed s' | None => awake s' end.
Proof.
  intros Ha Hh H. unfold recheck_for_batch, bindM, attempt in H.
  destruct (refresh_and_reset cfg now w s) as [s1 [changed|e]] eqn:E;
    apply refresh_kept in E; pose proof (kept_armed _ _ E Ha) as Ha1.
  2: { case_decide; [done|]. injection H as <- <-. split; [left; by eexists|exact Ha1]. }
  unfold gets, modify, retM in H.
  pose proof (kept_armed _ _ (reposition_kept now changed
    (if bool_decide (moved_in s1 b = None) then Some b else None) s1) Ha1) as Ha2.
  destruct (bool_decide _); injection H as <- <-; [done|]. split; [by intros []|exact Ha2].
Qed.

Lemma due_work_awake now w s s' r :
  awake s → due_work cfg now w s = (s', Ok r) →
  match r with Some (W_Retry _) => armed s' | _ => awake s' end.
Proof.
  intros Ha H. unfold due_work in H. unfold bindM at 1, gets at 1 in H.
  destruct (s_held s) as [h|] eqn:Eh.
  - destruct (h_due h <=? now).
    + unfold bindM at 1, modify at 1 in H. unfold bindM at 1, modify at 1 in H.
      set (s1 := set_last_backoff _ _) in *. assert (Ha1 : armed s1) by exact (aw_parts s Ha).
      destruct (_ && _); [|by injection H as <- <-]. unfold bindM, retM in H.
      destruct (recheck_for_batch cfg now (pw_recheck w) (h_batch h) s1) as [s2 [o|e]] eqn:E; [|done].
      injection H as <- <-. apply recheck_for_batch_awake in E; [|done|done]. by destruct o.
    + unfold bindM, retM in H.
      destruct (feed_due cfg now w s) as [s1 [[]|e]] eqn:E; [|done]. injection H as <- <-.
      eapply kept_awake; [by eapply feed_due_kept|done].
  - unfold bindM at 1 in H. destruct (feed_due cfg now w s) as [s1 [[]|e]] eqn:E; [|done].
    apply feed_due_kept in E. pose proof (kept_awake _ _ E Ha) as Ha1. unfold bindM, gets, retM in H.
    destruct (s_next_recheck s1) as [t|]; [|by injection H as <- <-].
    destruct (t <=? now); [|by injection H as <- <-].
    destruct (recheck_blocked cfg now (pw_recheck w) (pw_watermarks w) s1) as [s2 [[]|e]] eqn:Er; [|done].
    injection H as <- <-. by eapply recheck_blocked_awake.
Qed.

Lemma close_kept finished s s' r : close finished s = (s', r) → kept s s'.
Proof.
  unfold close, bindM, gets, modify, liftM. destruct finished; intros [= <- _]; by split.
Qed.

Lemma release_kept now resumed s : kept s (release now resumed s).
Proof.
  split; try done. intros p. unfold release; simpl. apply same_blocked, polled_each_same.
Qed.

Lemma block_all_awake now l s :
  l ≠ [] → awake (fold_left (λ s '(p, b), block_partition cfg now p b s) l s).
Proof.
  intros Hl. assert (Hn : is_Some (s_next_recheck
    (fold_left (λ s '(p, b), block_partition cfg now p b s) l s))).
  { destruct l as [|[p b] l]; [done|]. clear Hl. revert p b s.
    induction l as [|[q c] l IH]; intros p b s; [by eexists|]. apply (IH q c). }
  split; [by right|done].
Qed.

Lemma out_of_range_awake now w s s' :
  awake s → out_of_range cfg now w s = (s', Ok tt) → awake s'.
Proof.
  intros Ha H. unfold out_of_range, bindM, gets, modify, failM in H.
  assert (Hp : ∀ ps, awake (pause ps s)) by (intros ps; by apply (kept_awake s); [split|]).
  destruct w as [wm|e]; [|case_decide; [|done]; injection H as <-; apply Hp].
  destruct (omap _ _) as [|o l]; injection H as <-; [apply Hp|].
  by apply (block_all_awake now (o :: l) s).
Qed.

(** No start says that it was not resolved. *)
Lemma resolve_not_unresolved stored mark low high explicit :
  resolve stored mark low high explicit ≠ S_Blocked B_Unresolved.
Proof. unfold resolve, start_without_offset. repeat case_match; congruence. Qed.

Lemma place_all_armed now starts s :
  armed s → is_Some (s_next_recheck s) ∨ (∀ p, (p, S_Blocked B_Unresolved) ∉ starts) →
  let s' := fold_left (place cfg now) starts s in
  armed s' ∧ s_blocked s' = s_blocked s ∧ s_held s' = s_held s ∧
  (is_Some (s_next_recheck s) → is_Some (s_next_recheck s')).
Proof.
  revert s. induction starts as [|[p st] starts IH]; intros s Ha Hn; [done|]. cbn [fold_left].
  assert (Hs : armed (place cfg now s (p, st)) ∧
    s_blocked (place cfg now s (p, st)) = s_blocked s ∧ s_held (place cfg now s (p, st)) = s_held s ∧
    (is_Some (s_next_recheck s) → is_Some (s_next_recheck (place cfg now s (p, st))))).
  { unfold place. destruct st as [offset reread|b].
    - split; [|done]. intros q. simpl. unfold ready_at.
      destruct (decide (p = q)) as [<-|]; [by rewrite lookup_insert_eq|].
      rewrite lookup_insert_ne by done. apply Ha.
    - case_decide as Hb; [subst b|by (split; [intros q _; by eexists|])].
      split; [|done]. intros q _. destruct Hn as [Hn|Hn]; [done|]. exfalso. apply (Hn p). by left. }
  destruct Hs as (H1 & H2 & H3 & H4). destruct (IH (place cfg now s (p, st))) as (I1 & I2 & I3 & I4).
  - done.
  - destruct Hn as [Hn|Hn]; [left; by apply H4|right]. intros q Hq. apply (Hn q). by right.
  - split; [done|]. split; [congruence|]. split; [congruence|]. auto.
Qed.

Lemma read_starts_kept now w ps wm s s' r :
  read_starts cfg now w ps wm s = (s', r) →
  kept s s' ∧ match r with Ok (starts, _) => ∀ p, (p, S_Blocked B_Unresolved) ∉ starts | Err _ => True end.
Proof.
  intros H. unfold read_starts in H. unfold bindM at 1 in H.
  destruct (refresh_target cfg w s) as [s1 r1] eqn:Et. apply refresh_target_spec in Et as (v & -> & _).
  destruct r1; [|by injection H as <- <-]. unfold bindM at 1, reset_fence at 1 in H.
  destruct (reset _ _ _) as [f r2]. destruct r2; [|by injection H as <- <-].
  unfold bindM, modify, liftM, gets, retM in H.
  destruct wm as [wm|]; [|by injection H as <- <-]. injection H as <- <-. split; [by split|].
  intros p (q & Hq & _)%list_elem_of_fmap. destruct (default _ (wm !! q)) as [low high].
  destruct (default _ (base_of _ _)) as [base mark]. injection Hq as _ Hq. symmetry in Hq.
  by apply resolve_not_unresolved in Hq.
Qed.

Lemma assign_awake now w ps wm once assigned s s' :
  awake s → s_held s = None →
  assign_partitions cfg now w ps wm once assigned s = (s', Ok tt) → awake s'.
Proof.
  intros Ha Hh H. unfold assign_partitions in H. unfold bindM at 1, modify at 1 in H.
  unfold bindM at 1, attempt in H. assert (Ha0 : awake (set_parts ∅ s)) by (split; [apply Ha|done]).
  destruct (read_starts cfg now w ps wm (set_parts ∅ s)) as [s1 r] eqn:Er.
  apply read_starts_kept in Er as [Hk Hst]. apply (kept_awake _ _ Hk) in Ha0 as Ha1.
  assert (Hh1 : s_held s1 = None) by (by rewrite (kp_held _ _ Hk)).
  assert (Htail : ∀ s2 starts ends, awake s2 → s_held s2 = None →
    is_Some (s_next_recheck s2) ∨ (∀ p, (p, S_Blocked B_Unresolved) ∉ starts) →
    (do! modify (λ s, fold_left (place cfg now) starts s) in
     do! liftM assigned in
     do! modify (λ s, pause (list_to_set (blocked_starts starts)) (set_paused ∅ s)) in
     if once then modify (set_once_end (Some (snd <$> (ends : gmap Z (Z * Z))))) else retM tt) s2 = (s', Ok tt) →
    awake s').
  { intros s2 starts ends [A1 A2] Hh2 Hn H2. unfold bindM, modify, liftM, retM in H2.
    destruct (place_all_armed now starts s2 A2 Hn) as (P1 & P2 & P3 & P4).
    destruct assigned; [|done].
    assert (Hb : is_Some (s_blocked (fold_left (place cfg now) starts s2)) →
      is_Some (s_next_recheck (fold_left (place cfg now) starts s2))).
    { rewrite P2. intros Hb. destruct (A1 Hb) as [Hx|Hx]; [rewrite Hh2 in Hx; by destruct Hx|auto]. }
    destruct once; injection H2 as <-; (split; [intros Hx; right; by apply Hb|exact P1]). }
  destruct r as [[starts ends]|e].
  - unfold bindM at 1, retM at 1 in H. apply (Htail s1 starts ends); auto.
  - destruct (_ || once); [done|]. unfold bindM at 1 in H. unfold bindM at 1, modify at 1 in H.
    unfold bindM at 1, modify at 1 in H. unfold retM at 1 in H.
    eapply Htail; [| | |exact H]; [split; [right|intros ? _]; by eexists|done|left; by eexists].
Qed.

Lemma unassign_awake unassigned s s' r : unassign unassigned s = (s', r) → awake s'.
Proof.
  intros H. unfold unassign, bindM, modify, liftM in H. injection H as <- _.
  split; [by intros []|done].
Qed.

(** *** A member without partitions has nothing in hand *)

Definition idle (s : Source) : Prop :=
  s_stalled s = None ∧ buffer_is_empty (s_buf s) = true.

Definition grounded (s : Source) : Prop := s_parts s = ∅ → s_held s = None ∧ idle s.

(** What the handlers do when it is not the group that takes partitions away or a message
    that comes: they leave a partition if there was one, and an idle member idle. *)
Definition settles (s s' : Source) : Prop := idle s → idle s'.
Definition stays (s s' : Source) : Prop := (s_parts s' = ∅ → s_parts s = ∅) ∧ settles s s'.

#[local] Instance settles_preorder : PreOrder settles.
Proof. unfold settles. split; [by intros s|]. intros a b c; auto. Qed.
#[local] Instance stays_preorder : PreOrder stays.
Proof. unfold stays. split; [done|]. intros a b c [] []. split; [auto|by etrans]. Qed.

Lemma stays_alike s s' :
  s_parts s' = s_parts s → s_stalled s' = s_stalled s → s_buf s' = s_buf s → stays s s'.
Proof. intros E1 E2 E3. split; [by rewrite E1|]. unfold settles, idle. by rewrite E2, E3. Qed.

Lemma settles_alike s s' :
  s_stalled s' = s_stalled s → s_buf s' = s_buf s → settles s s'.
Proof. intros E2 E3. unfold settles, idle. by rewrite E2, E3. Qed.

Lemma stays_emptied s s' :
  s_parts s' = s_parts s → s_stalled s' = s_stalled s → s_buf s' = buffer_default → stays s s'.
Proof. intros E1 E2 E3. split; [by rewrite E1|]. intros [? _]. split; [congruence|by rewrite E3]. Qed.

Definition steps (R : Source → Source → Prop) {A} (m : M A) : Prop :=
  ∀ s s' r, m s = (s', r) → R s s'.

Section Steps.
Context (R : Source → Source → Prop) `{!PreOrder R}.

Lemma steps_ret {A} (a : A) : steps R (retM a).
Proof. by intros s s' r [= <- _]. Qed.
Lemma steps_fail {A} e : steps R (@failM A e).
Proof. by intros s s' r [= <- _]. Qed.
Lemma steps_gets {A} (f : Source → A) : steps R (gets f).
Proof. by intros s s' r [= <- _]. Qed.
Lemma steps_lift {A} (r : result Error A) : steps R (liftM r).
Proof. by intros s s' r' [= <- _]. Qed.
Lemma steps_modify f : (∀ s, R s (f s)) → steps R (modify f).
Proof. intros Hf s s' r [= <- _]. apply Hf. Qed.
Lemma steps_bind {A B} (m : M A) (k : A → M B) : steps R m → (∀ a, steps R (k a)) → steps R (bindM m k).
Proof.
  intros Hm Hk s s' r. unfold bindM. destruct (m s) as [s1 [a|e]] eqn:E.
  - intros H. etrans; [by eapply Hm|by eapply Hk].
  - intros [= <- _]. by eapply Hm.
Qed.
Lemma steps_attempt {A} (m : M A) : steps R m → steps R (attempt m).
Proof.
  intros Hm s s' r. unfold attempt. destruct (m s) as [s1 r1] eqn:E. intros [= <- _]. by eapply Hm.
Qed.
End Steps.

Create HintDb steps.
#[local] Hint Resolve steps_ret steps_fail steps_gets steps_lift steps_attempt : steps.
#[local] Hint Resolve settles_preorder stays_preorder : steps.

Ltac steps_step :=
  first
    [ solve [eauto 4 with steps]
    | match goal with
      | |- steps _ (bindM _ _) => apply steps_bind; [typeclasses eauto| |intros ?]
      | |- steps _ (attempt _) => apply steps_attempt
      | |- steps _ (match ?x with _ => _ end) => destruct x
      | |- steps _ (modify _) => apply steps_modify; intros ?;
          try (first [by apply stays_alike|by apply stays_emptied|by apply settles_alike])
      end ].

Lemma stays_settles {A} (m : M A) : steps stays m → steps settles m.
Proof. intros Hm s s' r H. by apply Hm in H as [_ ?]. Qed.

Lemma reposition_stays now changed survives : steps stays (modify (reposition_changed now changed survives)).
Proof.
  apply steps_modify. intros s. assert (Hf : frame s (reposition_changed now changed survives s))
    by apply reposition_changed_frame. split.
  - intros H. apply map_empty. intros p. apply eq_None_not_Some. intros Hp.
    apply (fr_parts _ _ Hf) in Hp. rewrite H, lookup_empty in Hp. by destruct Hp.
  - intros [Hst Hb]. split; [by apply (fr_stalled _ _ Hf)|].
    unfold reposition_changed, discard_moved_buffer. rewrite Hb. unfold reposition. simpl. by destruct (decide (filter _ _ = ∅)).
Qed.

Lemma refresh_target_stays w : steps stays (refresh_target cfg w).
Proof. unfold refresh_target. repeat steps_step. Qed.

Lemma reset_fence_stays ps : steps stays (reset_fence ps).
Proof.
  intros s s' r. unfold reset_fence. destruct (reset _ _ _). intros [= <- _]. by apply stays_alike.
Qed.
#[local] Hint Resolve reposition_stays refresh_target_stays reset_fence_stays : steps.

#[local] Hint Resolve stays_settles : steps.

Lemma refresh_stays now w : steps stays (refresh_and_reset cfg now w).
Proof. unfold refresh_and_reset. repeat steps_step. Qed.
#[local] Hint Resolve refresh_stays : steps.

Lemma freshen_stays now w b : steps stays (freshen cfg now w b).
Proof. unfold freshen. repeat steps_step. Qed.
#[local] Hint Resolve freshen_stays : steps.

Lemma same_state_nil (ps ps' : Partitions) :
  (∀ p, same_state (ps !! p) (ps' !! p)) → ps' = ∅ → ps = ∅.
Proof.
  intros Hs ->. apply map_empty. intros q. specialize (Hs q). rewrite lookup_empty in Hs.
  by destruct (ps !! q) as [[]|].
Qed.

Lemma try_commit_stays now w b : steps stays (try_commit cfg now w b).
Proof.
  unfold try_commit. repeat steps_step.
  - intros s s' r. unfold verify_fence. destruct (verify _ _ _). intros [= <- _].
    by apply stays_alike.
  - split; [|intros H; exact H]. apply same_state_nil, polled_again_same.
Qed.

Lemma hold_for_class_stays now b e : steps stays (hold_for_class cfg now b e).
Proof. unfold hold_for_class. repeat steps_step. Qed.
#[local] Hint Resolve try_commit_stays hold_for_class_stays : steps.

Lemma commit_batch_stays now w b : steps stays (commit_batch cfg now w b).
Proof. unfold commit_batch, after_failure, reset_in_place. repeat steps_step. Qed.

Lemma feed_due_stays now w : steps stays (feed_due cfg now w).
Proof.
  intros s s' r H. unfold feed_due, bindM, gets, retM in H.
  destruct (s_stalled s) as [x|] eqn:E; [|by injection H as <- _].
  destruct (st_due x <=? now); [|by injection H as <- _]. split; [|intros [? _]; congruence].
  revert H. unfold feed_stalled, stall, bindM, gets, modify. rewrite E.
  destruct (pw_fed w); [by intros [= <- _]|]. by case_decide; intros [= <- _].
Qed.

Lemma stays_insert p st ps s s' :
  s_parts s' = <[p := st]> ps → s_stalled s' = s_stalled s → s_buf s' = s_buf s → stays s s'.
Proof.
  intros E1 E2 E3. split; [|unfold settles, idle; by rewrite E2, E3]. rewrite E1.
  by intros ?%insert_non_empty.
Qed.

Lemma resolve_stays now wm ps s : stays s (fold_left (resolve_blocked cfg now wm) ps s).
Proof.
  revert s. induction ps as [|p ps IH]; intros s; [done|]. cbn [fold_left]. etrans; [|apply IH].
  unfold resolve_blocked. destruct (wm !! p) as [[low high]|]; [|done].
  destruct (default _ _) as [base mark].
  destruct (resolve _ _ _ _ _); [destruct base|]; by eapply stays_insert.
Qed.

Lemma rearm_stays now s : stays s (rearm cfg now s).
Proof. unfold rearm. destruct (blocked _); [done|by apply stays_alike]. Qed.

Lemma recheck_blocked_stays now w wms : steps stays (recheck_blocked cfg now w wms).
Proof.
  unfold recheck_blocked. repeat steps_step.
  - etrans; [|apply rearm_stays]. by apply stays_alike.
  - etrans; [|apply rearm_stays]. etrans; [|apply resolve_stays]. by apply stays_alike.
  - match goal with |- context [unresolved ?s] => destruct (unresolved s) end; by apply stays_alike.
Qed.

Lemma recheck_for_batch_stays now w b : steps stays (recheck_for_batch cfg now w b).
Proof. unfold recheck_for_batch. repeat steps_step. Qed.
#[local] Hint Resolve commit_batch_stays feed_due_stays recheck_blocked_stays recheck_for_batch_stays : steps.

Lemma due_work_stays now w : steps stays (due_work cfg now w).
Proof. unfold due_work. repeat steps_step. Qed.

Lemma close_stays finished : steps stays (close finished).
Proof. unfold close. repeat steps_step. Qed.

Lemma out_of_range_stays now w : steps stays (out_of_range cfg now w).
Proof.
  unfold out_of_range. repeat steps_step.
  match goal with |- stays ?s0 (fold_left _ ?l ?s1) => generalize l; revert s0 end.
  clear. intros s0 l. revert s0. induction l as [|[p b] l IH]; intros s0; [done|]. cbn [fold_left].
  etrans; [|apply IH]. by eapply stays_insert.
Qed.

(** *** What each event of a life leaves a member without partitions *)

Lemma stays_grounded s s' :
  stays s s' → (s_held s = None → s_held s' = None) → grounded s → grounded s'.
Proof. intros [Hp Hi] Hh Hg Hp'. destruct (Hg (Hp Hp')). split; [by apply Hh|by apply Hi]. Qed.

Lemma take_one_nil m i a i' : take_one m i = (a, i') → parts i' = ∅ → i' = i ∧ (a = None ∨ a = Some (Drop NotOwned)).
Proof.
  unfold take_one. case_decide; [intros [= <- <-] _; by split; [|left]|].
  unfold admit_message. destruct (parts i !! msg_partition m) as [st|] eqn:E.
  - destruct (admit_state st (msg_mark m) (msg_at m)) as [[g|w|b] st']; intros [= <- <-];
      simpl; unfold block; by intros ?%insert_non_empty.
  - intros [= <- <-] _. destruct i. by split; [|right].
Qed.

Lemma take_in_grounded m fed s s' :
  grounded s → take_in cfg m fed s = (s', Ok tt) → grounded s'.
Proof.
  intros Hg H Hp. unfold take_in, bindM in H. destruct (take_one m (intake s)) as [a i] eqn:E.
  assert (Hpi : parts i = ∅).
  { destruct a as [[g|w|b]|]; try (injection H as <-; exact Hp).
    destruct fed as [u|e]; [injection H as <-; exact Hp|].
    apply stall_ok in H as (x & _ & ->). exact Hp. }
  destruct (take_one_nil _ _ _ _ E Hpi) as [-> [-> | ->]]; injection H as <-; by apply Hg.
Qed.

Lemma resolve_all_held now wm ps s :
  s_held (fold_left (resolve_blocked cfg now wm) ps s) = s_held s.
Proof.
  revert s. induction ps as [|p ps IH]; intros s; [done|]. cbn [fold_left]. rewrite IH.
  unfold resolve_blocked. destruct (wm !! p) as [[low high]|]; [|done].
  destruct (default _ _) as [base mark]. destruct (resolve _ _ _ _ _); [|done]. by destruct base.
Qed.

Lemma recheck_blocked_held now w wms s s' r :
  recheck_blocked cfg now w wms s = (s', r) → s_held s' = s_held s.
Proof.
  intros H. unfold recheck_blocked, bindM, modify, gets, attempt in H.
  destruct (refresh_and_reset cfg now w (set_next_recheck None s)) as [s1 [changed|e]] eqn:E;
    apply refresh_kept in E; pose proof (kp_held _ _ E) as Hh.
  2: { case_decide; [by injection H as <- <-|]. injection H as <- <-. by destruct (unresolved s1). }
  pose proof (kp_held _ _ (reposition_kept now changed None s1)) as Hh2.
  assert (Hrearm : ∀ s2, s_held (rearm cfg now s2) = s_held s2)
    by (intros s2; unfold rearm; by destruct (blocked _)).
  destruct (to_resolve _) as [|p l].
  - injection H as <- _. rewrite Hrearm. simpl. by rewrite Hh2.
  - destruct (wms (p :: l)) as [wm|e]; injection H as <- _.
    + rewrite Hrearm.
      change (s_held (fold_left (resolve_blocked cfg now wm) (p :: l)
        (set_blocked None (reposition_changed now changed None s1))) = s_held s).
      rewrite resolve_all_held. simpl. by rewrite Hh2.
    + simpl. by rewrite Hh2.
Qed.

Lemma due_work_grounded now w s s' :
  grounded s → due_work cfg now w s = (s', Ok None) → grounded s'.
Proof.
  intros Hg H. pose proof (due_work_stays now w _ _ _ H) as Hs.
  intros Hp. destruct (Hg (proj1 Hs Hp)) as [Hh Hi]. split; [|by apply Hs].
  unfold due_work in H. unfold bindM at 1, gets at 1 in H. rewrite Hh in H.
  unfold bindM at 1 in H. destruct (feed_due cfg now w s) as [s1 [[]|e]] eqn:E; [|done].
  apply feed_due_kept in E. pose proof (kp_held _ _ E) as Hh1. unfold bindM, gets, retM in H.
  destruct (s_next_recheck s1) as [t|]; [|injection H as <-; congruence].
  destruct (t <=? now); [|injection H as <-; congruence].
  destruct (recheck_blocked cfg now (pw_recheck w) (pw_watermarks w) s1) as [s2 [[]|e]] eqn:Er; [|done].
  injection H as <-. apply recheck_blocked_held in Er. congruence.
Qed.

Lemma due_work_retry now w s s1 b :
  due_work cfg now w s = (s1, Ok (Some (W_Retry b))) → is_Some (s_held s) ∧ s_held s1 = None.
Proof.
  intros H. unfold due_work in H. unfold bindM at 1, gets at 1 in H.
  destruct (s_held s) as [h|] eqn:Eh.
  - split; [by eexists|]. destruct (h_due h <=? now).
    + unfold bindM at 1, modify at 1 in H. unfold bindM at 1, modify at 1 in H.
      destruct (_ && _); [|by injection H as <- _]. unfold bindM, retM in H.
      unfold recheck_for_batch, bindM, attempt, gets, modify, retM in H.
      destruct (refresh_and_reset cfg now (pw_recheck w) _) as [s2 [changed|e]] eqn:E;
        apply refresh_kept in E; pose proof (kp_held _ _ E) as Hh2.
      * destruct (bool_decide _); [|done]. injection H as <- _.
        by rewrite (kp_held _ _ (reposition_kept now changed _ s2)).
      * by case_decide.
    + unfold bindM, retM in H. by destruct (feed_due cfg now w s) as [s2 [[]|e]] eqn:E.
  - exfalso. revert H. unfold bindM, gets, retM. destruct (feed_due cfg now w s) as [s2 [[]|e]]; [|done].
    destruct (s_next_recheck s2) as [t|]; [|done]. destruct (t <=? now); [|done].
    by destruct (recheck_blocked _ _ _ _ _) as [? [[]|]].
Qed.

Lemma closes_held limits decoded now s :
  closes_now limits decoded now s = true → s_held s = None ∧ buffer_is_empty (s_buf s) = false.
Proof.
  unfold closes_now, closes. destruct (buffer_is_empty _); [by rewrite andb_false_r|].
  intros [[_ Hh%bool_decide_eq_true]%andb_true_iff _]%andb_true_iff. by split.
Qed.

Lemma assign_held now w ps wm once assigned s s' r :
  s_held s = None → assign_partitions cfg now w ps wm once assigned s = (s', Ok r) → s_held s' = None.
Proof.
  intros Hh H. unfold assign_partitions in H. unfold bindM at 1, modify at 1 in H.
  unfold bindM at 1, attempt in H.
  destruct (read_starts cfg now w ps wm (set_parts ∅ s)) as [s1 r1] eqn:Er.
  apply read_starts_kept in Er as [Hk _].
  assert (Hh1 : s_held s1 = None) by (by rewrite (kp_held _ _ Hk)).
  assert (Hplace : ∀ starts s2, s_held (fold_left (place cfg now) starts s2) = s_held s2).
  { induction starts as [|[p st] starts IH]; intros s2; [done|]. cbn [fold_left]. rewrite IH.
    unfold place. destruct st; [done|]. by case_decide. }
  destruct r1 as [[starts ends]|e]; [|destruct (_ || once); [done|]];
    unfold bindM, modify, liftM, retM in H; (destruct assigned; [|done]);
    destruct once; injection H as <- _; simpl; by rewrite Hplace.
Qed.

Lemma assign_settles now w ps wm once assigned : steps settles (assign_partitions cfg now w ps wm once assigned).
Proof.
  unfold assign_partitions, read_starts. repeat steps_step.
  revert s. induction l as [|[p st] l IH]; intros s0; [done|]. cbn [fold_left]. etrans; [|apply IH].
  unfold place, arm_recheck. destruct st; [by apply settles_alike|]. by case_decide; apply settles_alike.
Qed.

Lemma block_all_held now l s :
  s_held (fold_left (λ s '(p, b), block_partition cfg now p b s) l s) = s_held s.
Proof.
  revert s. induction l as [|[p b] l IH]; intros s; [done|]. cbn [fold_left]. by rewrite IH.
Qed.

Lemma out_of_range_held now w s s' r : out_of_range cfg now w s = (s', r) → s_held s' = s_held s.
Proof.
  unfold out_of_range, bindM, gets, modify, failM.
  destruct w as [wm|e]; [|case_decide; by intros [= <- _]].
  destruct (omap _ _) as [|o l]; intros [= <- _]; [done|]. apply (block_all_held now (o :: l) s).
Qed.

Lemma unassign_grounded unassigned s s' r : unassign unassigned s = (s', r) → grounded s'.
Proof. unfold unassign, bindM, modify, liftM. by intros [= <- _]. Qed.

Lemma life_grounded orderly t s t' s' :
  grounded s → life orderly (t, s) (t', s') → grounded s'.
Proof.
  intros Hg H. inversion H as [? ? ? m fed ? Ht Hdue Hord Htake
    |? ? w ? ? Ht Henv Hw|? now later w cw ? s1 b ? o Ht Ht2 Henv Hw Hcenv Hc
    |? now later limits decoded finished cw ? s1 b ? o Ht Ht2 Hcl Hclose Hcenv Hc|? ? ? Ht|? ?|? ? resumed ? Ht Hm
    |? ? w ? ? Ht Ho|? ? w ps wm once assigned ? ? Ht Hw Hp Hass
    |? ? w finished in_time un ? ? o Ht Henv Hf|? ? un ? ? Ht Hl]; subst.
  - by eapply take_in_grounded.
  - by eapply due_work_grounded.
  - intros Hp. apply commit_batch_stays in Hc as [Hc _]. pose proof Hw as Hw2.
    apply due_work_stays in Hw as [Hw _]. apply due_work_retry in Hw2 as [[h Hh] _].
    destruct (Hg (Hw (Hc Hp))). congruence.
  - intros Hp. apply commit_batch_stays in Hc as [Hc _]. apply close_stays in Hclose as [Hclose _].
    apply closes_held in Hcl as [_ Hb]. destruct (Hg (Hclose (Hc Hp))) as [_ [_ ?]]. congruence.
  - done.
  - exact Hg.
  - apply (stays_grounded s); [|done|done]. split; [|intros Hi; exact Hi].
    apply same_state_nil. intros p. apply polled_each_same.
  - apply (stays_grounded s); [by eapply out_of_range_stays| |done].
    apply out_of_range_held in Ho. congruence.
  - intros _. destruct (Hg Hp) as [Hh Hi]. split; [by eapply assign_held|by eapply assign_settles].
  - unfold flush_then_unassign in Hf. unfold bindM at 1, gets at 1 in Hf.
    apply bindM_ok in Hf as (s1 & o1 & _ & Hf). apply bindM_ok in Hf as (s2 & [] & Hun & [= <- _]).
    by eapply unassign_grounded.
  - by eapply unassign_grounded.
Qed.

Lemma life_awake orderly t s t' s' :
  grounded s → awake s → life orderly (t, s) (t', s') → awake s'.
Proof.
  intros Hg Ha H. inversion H as [? ? ? m fed ? Ht Hdue Hord Htake
    |? ? w ? ? Ht Henv Hw|? now later w cw ? s1 b ? o Ht Ht2 Henv Hw Hcenv Hc
    |? now later limits decoded finished cw ? s1 b ? o Ht Ht2 Hcl Hclose Hcenv Hc|? ? ? Ht|? ?|? ? resumed ? Ht Hm
    |? ? w ? ? Ht Ho|? ? w ps wm once assigned ? ? Ht Hw Hp Hass
    |? ? w finished in_time un ? ? o Ht Henv Hf|? ? un ? ? Ht Hl]; subst.
  - by eapply take_in_awake.
  - by apply due_work_awake in Hw.
  - pose proof Hw as Hw2. apply due_work_awake in Hw; [|done].
    apply due_work_retry in Hw2 as [_ Hh1]. by eapply commit_batch_awake.
  - apply closes_held in Hcl as [Hh _]. apply close_kept in Hclose.
    eapply commit_batch_awake; [| |done].
    + apply (kept_armed s); [done|exact (aw_parts s Ha)].
    + by rewrite (kp_held _ _ Hclose).
  - done.
  - by apply (kept_awake s).
  - apply (kept_awake s); [apply release_kept|done].
  - by eapply out_of_range_awake.
  - eapply assign_awake; [done| |done]. by apply Hg.
  - unfold flush_then_unassign in Hf. unfold bindM at 1, gets at 1 in Hf.
    apply bindM_ok in Hf as (s1 & o1 & _ & Hf). apply bindM_ok in Hf as (s2 & [] & Hun & [= <- _]).
    by apply unassign_awake in Hun.
  - by apply unassign_awake in Hl.
Qed.

(** What is true of the opened member, and stays true at each event of its life. *)
Lemma lives_ind (P : Instant → Source → Prop) orderly :
  (∀ t s, opened s → P t s) →
  (∀ t s t' s', P t s → life orderly (t, s) (t', s') → P t' s') →
  ∀ t s, lives orderly t s → P t s.
Proof.
  intros H0 Hstep t s (t0 & s0 & Ho & Hrun). apply (H0 t0) in Ho.
  remember (t0, s0) as a eqn:Ea. remember (t, s) as b eqn:Eb. revert t0 s0 Ea Ho.
  induction Hrun as [x|x [t1 s1] y Hone _ IH]; intros t0 s0 -> Ho; [by simplify_eq|].
  apply (IH Eb t1 s1 eq_refl). by eapply Hstep.
Qed.

Lemma lives_ready t s : lives true t s → ready_state T t s.
Proof.
  apply (lives_ind (ready_state T)); [by intros; apply opened_ready|].
  intros t0 s0 t' s' Hr Hl. by apply life_ready in Hl as [_ ?].
Qed.

Lemma lives_ind_ready (P : Source → Prop) :
  (∀ s, opened s → P s) →
  (∀ t s t' s', ready_state T t s → P s → life true (t, s) (t', s') → P s') →
  ∀ t s, lives true t s → ready_state T t s ∧ P s.
Proof.
  intros H0 Hstep. apply (lives_ind (λ t s, ready_state T t s ∧ P s)).
  - intros t s Ho. split; [by apply opened_ready|by apply H0].
  - intros t s t' s' [Hr Hp] Hl. split; [by apply life_ready in Hl as [_ ?]|by eapply Hstep].
Qed.

Lemma run_grounded orderly t s t' s' :
  grounded s → rtc (life orderly) (t, s) (t', s') → grounded s'.
Proof.
  intros Hg H. remember (t, s) as a eqn:Ea. remember (t', s') as b eqn:Eb. revert t s Ea Hg.
  induction H as [x|x [t1 s1] y Hone _ IH]; intros t s -> Hg; [by simplify_eq|].
  apply (IH Eb t1 s1 eq_refl). by eapply life_grounded.
Qed.

Lemma lives_awake orderly t s : lives orderly t s → grounded s ∧ awake s.
Proof.
  apply (lives_ind (λ _ s, grounded s ∧ awake s)).
  - intros _ s0 ([E1 E2 E3 E4 E5 E6] & _ & _ & Hb). split; [by intros _|].
    split; [rewrite Hb; by intros []|]. intros p. by rewrite E1, lookup_empty.
  - intros t0 s0 t' s' [Hg Ha] Hl. split; [by eapply life_grounded|by eapply life_awake].
Qed.

(** ** What a commit that lands leaves *)

Lemma closed_fields finished s s1 b :
  close finished s = (s1, Ok b) →
  b_ranges b = ranges (s_buf s) ∧ s_unbased_start s1 = s_unbased_start s ∧
  s_fence s1 = s_fence s ∧
  ∀ p, is_Some (b_ranges b !! p) → b_bases b !! p = Some (base_offset s p) ∧
    b_rows b !! p = Some (of_partition p (s_decoder s)).
Proof.
  unfold close, bindM, gets, modify, liftM. destruct finished; [|done]. intros [= <- <-].
  do 3 (split; [done|]). unfold close_batch. cbn [b_ranges b_bases b_rows]. intros p [r Hp].
  by rewrite !map_lookup_imap, Hp.
Qed.

Lemma verify_fence_exact rs s s' r :
  verify_fence rs s = (s', r) →
  ∃ f, s' = set_fence f s ∧ verify (s_target s) rs (s_fence s) = (f, r).
Proof.
  unfold verify_fence. destruct (verify _ _ _) as [f r']. intros [= <- <-]. by exists f.
Qed.

Lemma committed_offset now s b f view cleans p :
  batch_whole T s b → moved_in s b = None → f_base f = f_base (s_fence s) →
  base_offset (record_committed now (offsets_for cfg (set_fence f s) b cleans)
    (set_target view (set_fence f s))) p =
  match b_ranges b !! p with Some (_, last) => Some last | None => base_offset s p end.
Proof.
  intros Hb Hm Hf.
  assert (Hbase : ∀ q, base_offset (set_target view (set_fence f s)) q = base_offset s q)
    by (intros q; unfold base_offset, base_of; simpl; by rewrite Hf).
  rewrite <- (Hbase p). apply (record_committed_base T).
  - destruct Hb as [H1 H2 H3 H4]. by split.
  - unfold moved_in, moved_partition, base_of in *. simpl. by rewrite Hf.
  - intros q fi l Hq. by rewrite offsets_for_assert, assert_map_lookup, Hq.
  - intros q x Hq. rewrite offsets_for_assert, assert_map_lookup, Hq. by case_decide.
Qed.

Lemma paused_after now (r : result Error unit) s s' :
  match r with
  | Ok _ => retM Committed
  | Err e =>
      do! modify (λ s, pause_all (set_next_recheck (Some (now + blocked_recheck cfg))
                    (set_blocked (Some (kafka_block_reason e)) s))) in
      retM Committed
  end s = (s', Ok Committed) →
  s_target s' = s_target s ∧ ∀ p, base_offset s' p = base_offset s p.
Proof. by destruct r; intros [= <-]. Qed.

Lemma try_commit_lands now w b s s' :
  sound T (Some b) s → steady cfg now (cw_refresh w) b s →
  try_commit cfg now w b s = (s', Ok Committed) →
  ∃ s0 f offsets view, sound T (Some b) s0 ∧ moved_in s0 b = None ∧ f_base f = f_base (s_fence s0) ∧
    verify (s_target s0) (b_ranges b) (s_fence s0) = (f, Ok tt) ∧
    offsets = offsets_for cfg (set_fence f s0) b (cw_cleans_up w (s_target s0)) ∧
    cw_process w offsets = Ok view ∧ s_target s' = view ∧
    ∀ p, base_offset s' p = base_offset (record_committed now offsets (set_target view (set_fence f s0))) p.
Proof.
  intros Hs Hst H. unfold try_commit in H. unfold bindM at 1 in H.
  destruct (freshen cfg now w b s) as [s0 [u|e]] eqn:E; [|done].
  apply (freshen_sound T) in E as [Hs0 _]; [|done..]. clear Hst Hs.
  unfold bindM at 1, gets at 1 in H. destruct (moved_in s0 b) as [p|] eqn:Em; [done|].
  destruct (undecodable_refusal _ _ _) as [e|]; [done|].
  unfold bindM at 1, liftM at 1 in H. destruct (cw_prepare w); [|done].
  unfold bindM at 1 in H. destruct (verify_fence (b_ranges b) s0) as [s1 [[]|]] eqn:Ev; [|done].
  apply verify_fence_exact in Ev as (f & -> & Hv). pose proof (verify_base _ _ _ _ _ Hv) as Hf.
  unfold bindM at 1, gets at 1 in H. unfold bindM at 1, liftM at 1 in H.
  destruct (cw_protocol_changed w) as [[]|]; [done| |done].
  assert (Et : s_target (set_fence f s0) = s_target s0) by done. rewrite Et in H. clear Et.
  unfold bindM at 1, liftM at 1 in H. destruct (cw_process w _) as [v|] eqn:Ep; [|done].
  exists s0, f, (offsets_for cfg (set_fence f s0) b (cw_cleans_up w (s_target s0))), v.
  split; [exact Hs0|]. split; [exact Em|]. split; [exact Hf|]. split; [exact Hv|].
  split; [reflexivity|]. split; [exact Ep|].
  unfold bindM at 1, modify at 1 in H. unfold bindM at 1, modify at 1 in H.
  by apply paused_after in H as [-> ?].
Qed.

End Life.

(** A view without a checkpoint is valid when its history's [txn]s are offsets. *)
Lemma no_checkpoint_read view head ids m :
  lv_version view = Some head → newest_checkpoint view head = Ok None →
  read view ids (Some m) = ((read view ids (Some below_default)).1, Some m).
Proof.
  intros Hh Hc. unfold read. case_decide; [done|]. rewrite Hh. unfold walk. rewrite Hc.
  destruct (lv_commit view head) as [c|e]; [|done].
  destruct (match c with Some c => record_commit c _ _ | None => _ end) as [found|e]; [|done].
  destruct (all_found _ _ && _); [done|]. destruct (_ && _); [done|].
  destruct (walk_commits _ _ _ _ _ _) as [f|e]; [|done]. by destruct (all_found _ _).
Qed.

Lemma no_checkpoint_valid view H head :
  views view H → lv_version view = Some head → newest_checkpoint view head = Ok None →
  Forall (λ t, 0 ≤ t_version t < i64_max) (history H (head + 1)) → valid_view view.
Proof.
  intros Hview Hhead Hc Hall owned f f' Hr p b Hb.
  assert (Hr' : ∃ f2, reset view owned (set_below below_default f) = (f2, Ok tt) ∧
    f_base f2 = f_base f').
  { unfold reset in *. change (ids_to_read (set_below below_default f) owned)
      with (ids_to_read f owned). cbn [f_below set_below].
    destruct (refuse_txn_retention view); [|done].
    rewrite (no_checkpoint_read view head _ _ Hhead Hc) in Hr.
    rewrite (no_checkpoint_read view head _ below_default Hhead Hc).
    destruct (read view _ (Some below_default)).1 as [txns|e]; [|done].
    unfold id in *; cbn [default] in *. revert Hr. unfold id. set (f1 := read_marker txns (set_below (f_below f) f)).
    change (set_below below_default (set_below below_default f)) with (set_below below_default f).
    set (f2 := read_marker txns (set_below below_default f)).
    assert (E : vanished f2 owned txns = vanished f1 owned txns ∧
      read_base f2 owned txns = read_base f1 owned txns)
      by (unfold f1, f2, read_marker; by destruct (txns !! _)).
    destruct E as [-> E]. destruct (vanished f1 owned txns); [|done].
    intros [= <-]. eexists. split; [done|]. exact E. }
  destruct Hr' as (f2 & Hr2 & Heq). rewrite <- Heq in Hb.
  apply (reset_ok view H Hview head Hhead) in Hr2 as (_ & _ & _ & Hno & Hin); [|apply memo_default_ok].
  destruct (decide (p ∈ owned)) as [Hp|Hp]; [|by rewrite Hno in Hb].
  destruct (Hin p Hp) as (mark & Hbase & _). rewrite Hbase in Hb. simpl in Hb.
  unfold newest, newest_before in Hb. destruct (last _) as [t|] eqn:El; [|done]. injection Hb as <-.
  apply last_Some_elem_of in El. unfold of_id in El. apply list_elem_of_filter in El as [_ El].
  rewrite Forall_forall in Hall. by apply Hall.
Qed.
