(* ===== verification/ExactlyOnce.v ===== *)
(** * ExactlyOnce: several members of a Kafka pipeline, one table

    The whole loop of src/kafka/step.rs as a transition system: any number of members read
    batches ([Partitions.consume]), keep fences ([Fence]), and commit to one Delta table.
    [commit_step] is [Pipeline::try_commit]'s order: the moved-partition check, the fence's
    [verify], [assert_map], and delta-rs's commit, which refuses when a commit that landed
    after the handle wrote a [txn] with one of the same appIds.  A handle may be as old as
    it likes, a member may be revoked, reset or lose its batch at any point.

    Two things the loop does are steps that can be left out of a run, [Faults]: a refresh that
    moves the handle over another writer's commit and fails before [Fence::reset]
    ([refresh_target] has fallible calls after [update_incremental]), and a blocked partition
    resolved and read again into a buffer that has rows of it ([recheck_blocked]).  Without
    them every message is committed exactly once, in order; with either of them one is
    committed twice ([a_half_refresh_commits_twice], [a_reread_commits_twice]). *)

From Stdlib Require Import ZArith Lia Sorted.
From stdpp Require Import base list strings gmap sorting.
From S2P Require Import Prelude Error Partitions Topic Takeover TxnLog TxnLogCorrect Fence Member.

Open Scope Z_scope.

(** ** The table *)

(** A commit, as far as Kafka offsets are concerned: its commitInfo, the [txn]s it writes,
    whether it writes the takeover marker, and the rows it adds, by the message they came
    from. *)
Record Entry := {
  e_info : option CommitInfo;
  e_assert : gmap Z Z;
  e_marker : bool;
  e_rows : gmap Z (list MessageMark);
}.

Definition log_line (id : string) (v : Z) : option LogLine :=
  Some {| txn := Some {| t_app_id := id; t_version := v |}; commit_info := None |}.

Definition entry_commit (app_id : string) (e : Entry) : Commit :=
  Some {| txn := None; commit_info := e_info e |} ::
  ((λ '(p, v), log_line (txn_app_id app_id p) v) <$> map_to_list (e_assert e)) ++
  (if e_marker e then [log_line (takeover_marker_app_id app_id) TAKEOVER_MARKER_VERSION] else []).

Abbreviation Table := (list Entry).

(** The log of a table, by version. *)
Definition hist (app_id : string) (t : Table) (v : Z) : Commit :=
  if v <? 0 then [] else default [] (entry_commit app_id <$> t !! Z.to_nat v).

(** A partition's offset in a table: what the last commit to assert it says. *)
Definition offset_in (t : Table) (p : Z) : option Z := last (omap (λ e, e_assert e !! p) t).

Definition rows_in (t : Table) (p : Z) : list MessageMark :=
  mjoin ((λ e, default [] (e_rows e !! p)) <$> t).

(** ** Members *)

Record Member := { handle : Z; fence : Fence; batch : option Batch }.

Record System := { table : Table; members : nat → Member }.

Definition set_member (w : nat) (m : Member) (s : System) : System :=
  {| table := table s; members := λ i, if Nat.eqb i w then m else members s i |}.

(** The offsets a member's commit of [b] writes. *)
Definition entry_of (f : Fence) (b : Batch) (info : option CommitInfo) : Entry :=
  {| e_info := info;
     e_assert := (assert_map (b_ranges b) (b_marks b) f).1;
     e_marker := takeover_marker_due f;
     e_rows := b_rows b |}.

Definition offsets_of_entry (f : Fence) (b : Batch) : KafkaOffsets :=
  {| o_topic := ""; o_group_id := ""; o_ranges := b_ranges b;
     o_assert := (assert_map (b_ranges b) (b_marks b) f).1;
     o_marks := (assert_map (b_ranges b) (b_marks b) f).2; o_cleanup_logs := false;
     o_baseline := false; o_override_reason := None; o_takeover_marker := takeover_marker_due f |}.

(** delta-rs's check: no commit after the handle's version wrote one of the same appIds. *)
Definition conflicts (t : Table) (v : Z) (e : Entry) : bool :=
  existsb (λ e', negb (bool_decide (dom (e_assert e') ∩ dom (e_assert e) = ∅))
                 || (e_marker e' && e_marker e))
    (drop (Z.to_nat (v + 1)) t).

(** What a run may have in it beyond the ordinary: a refresh that stops half way over another
    writer's commit, a partition read again into rows of it. *)
Record Faults := { half_refresh : bool; reread : bool }.
Definition no_faults : Faults := {| half_refresh := false; reread := false |}.

Section System.
Context (app_id : string).

(** The topic's partitions, and where one without an offset starts. *)
Context (T : Z → list MessageMark) (origin : Z → Z).
Context (HT : ∀ p, topic (T p)).

(** Where a member reads a partition from: the offset after its base. *)
Definition position (p : Z) (base : option Z) : Z :=
  match base with Some b => b + 1 | None => origin p end.

(** [b] is a batch read from where the fence stands: messages delivered as librdkafka
    delivers them, every partition from the position its base gives. *)
Definition reads (f : Fence) (b : Batch) : Prop :=
  ∃ s l r s' undecodable, buf s = buffer_default ∧ consume l s = (r, s') ∧
    b = close_batch f (buf s') (taken r) undecodable ∧
    ∀ p, is_Some (ranges (buf s') !! p) →
      partition_id p ∧ is_Some (f_base f !! p) ∧
      verified (T p) (view p s) ∧ state_ok (view p s) ∧
      lower (view p s) = position p (f_base f !! p ≫= fst) ∧
      ∃ n n', (∀ i m, (i < n)%nat → T p !! i = Some m → m_offset m < lower (view p s)) ∧
        delivers (T p) n (of_partition p l) n'.

(** The same with a partition resolved again half way ([Pipeline::recheck_blocked]'s
    [ready_at] while the buffer has rows): what is read afterwards joins what was. *)
Definition rereads (f : Fence) (b : Batch) : Prop :=
  ∃ s l r s1 p reread now s2 l' r' s' undecodable,
    buf s = buffer_default ∧ consume l s = (r, s1) ∧
    s2 = {| parts := ready_at p (position p (f_base f !! p ≫= fst)) reread now (parts s1);
            buf := buf s1; paused := paused s1 ∖ {[p]} |} ∧
    consume l' s2 = (r', s') ∧
    b = close_batch f (buf s') (taken r ++ taken r') undecodable ∧
    ∀ q, is_Some (ranges (buf s') !! q) →
      partition_id q ∧ is_Some (f_base f !! q) ∧
      verified (T q) (view q s) ∧ state_ok (view q s) ∧
      verified (T q) (view q s2) ∧ state_ok (view q s2) ∧
      lower (view q s) = position q (f_base f !! q ≫= fst) ∧
      (∃ n n', (∀ i m, (i < n)%nat → T q !! i = Some m → m_offset m < lower (view q s)) ∧
        delivers (T q) n (of_partition q l) n') ∧
      ∃ n n', (∀ i m, (i < n)%nat → T q !! i = Some m → m_offset m < lower (view q s2)) ∧
        delivers (T q) n (of_partition q l') n'.

(** Nothing the fence carries was written between the handle's version and [v]. *)
Definition unmoved (s : System) (w : nat) (v : Z) : Prop :=
  ∀ p, p ∈ f_carried (fence (members s w)) →
    newest (hist app_id (table s)) v (txn_app_id app_id p) =
    newest (hist app_id (table s)) (handle (members s w)) (txn_app_id app_id p).

Inductive step (faults : Faults) (s : System) : System → Prop :=
(** A refresh to any newer version, and the reset that follows it, whatever it answers. *)
  | step_reset w view v owned f r :
      handle (members s w) ≤ v < Z.of_nat (length (table s)) →
      views view (hist app_id (table s)) → lv_version view = Some v →
      Forall partition_id owned →
      reset view owned (fence (members s w)) = (f, r) →
      step faults s (set_member w {| handle := v; fence := f; batch := batch (members s w) |} s)
(** A refresh that fails after the handle was moved ([update_incremental] answered, then
    [stored_table_id], a refusal or the rebuilt casts did not): there is no reset, and what is
    held stays held. *)
  | step_refresh w v :
      handle (members s w) ≤ v < Z.of_nat (length (table s)) →
      half_refresh faults = true ∨ unmoved s w v →
      step faults s (set_member w {| handle := v; fence := fence (members s w);
                                     batch := batch (members s w) |} s)
  | step_read w b :
      reads (fence (members s w)) b ∨ reread faults = true ∧ rereads (fence (members s w)) b →
      step faults s (set_member w {| handle := handle (members s w); fence := fence (members s w);
                              batch := Some b |} s)
(** A batch dropped: another writer was first, a revoke timed out, a crash. *)
  | step_drop w :
      step faults s (set_member w {| handle := handle (members s w); fence := fence (members s w);
                              batch := None |} s)
  | step_forget w p :
      step faults s (set_member w {| handle := handle (members s w);
                              fence := forget p (fence (members s w));
                              batch := batch (members s w) |} s)
(** A commit the fence refuses. *)
  | step_fenced w b view f e :
      batch (members s w) = Some b →
      views view (hist app_id (table s)) → lv_version view = Some (handle (members s w)) →
      verify view (b_ranges b) (fence (members s w)) = (f, Err e) →
      step faults s (set_member w {| handle := handle (members s w); fence := f;
                              batch := Some b |} s)
(** A commit that lands. *)
  | step_commit w b ps view f u info :
      batch (members s w) = Some b →
      moved_partition ps (fence (members s w)) b = None →
      views view (hist app_id (table s)) → lv_version view = Some (handle (members s w)) →
      verify view (b_ranges b) (fence (members s w)) = (f, Ok u) →
      conflicts (table s) (handle (members s w)) (entry_of f b info) = false →
      step faults s {| table := table s ++ [entry_of f b info];
                members := λ i, if Nat.eqb i w
                  then {| handle := Z.of_nat (length (table s));
                          fence := committed (offsets_of_entry f b) f; batch := None |}
                  else members s i |}
(** A commit of anybody else that writes no offset of this app_id. *)
  | step_other e :
      e_assert e = ∅ → e_rows e = ∅ →
      step faults s {| table := table s ++ [e]; members := members s |}.

(** A table as the pipeline finds it (empty of this app_id's rows, whatever baseline it has),
    and members that have read nothing of it. *)
Definition initial (t : Table) (s : System) : Prop :=
  table s = t ∧ t ≠ [] ∧
  (∀ e p, e ∈ t → is_Some (e_assert e !! p) → partition_id p) ∧
  ∀ w, members s w = {| handle := 0; fence := fence_new app_id; batch := None |}.

Definition reachable (faults : Faults) (t : Table) (s : System) : Prop :=
  ∃ s0, initial t s0 ∧ rtc (step faults) s0 s.
End System.

(** ** The table's offsets are the log's *)

Definition ids_valid (t : Table) : Prop :=
  ∀ e p, e ∈ t → is_Some (e_assert e !! p) → partition_id p.

Lemma of_id_app id a b : of_id id (a ++ b) = of_id id a ++ of_id id b.
Proof. apply filter_app. Qed.

Lemma of_id_entries app_id p (l : list (Z * Z)) :
  partition_id p → NoDup l.*1 → (∀ q v, (q, v) ∈ l → partition_id q) →
  of_id (txn_app_id app_id p)
    ((λ '(q, v), {| t_app_id := txn_app_id app_id q; t_version := v |}) <$> l) =
  match (list_to_map l : gmap Z Z) !! p with
  | Some v => [ {| t_app_id := txn_app_id app_id p; t_version := v |} ]
  | None => []
  end.
Proof.
  intros [Hp _] Hnd Hl. unfold of_id. induction l as [|[q v] l IH]; [done|].
  apply NoDup_cons in Hnd as [Hq Hnd]. csimpl. rewrite filter_cons. simpl.
  rewrite IH by (try done; intros; eapply Hl; right; done).
  destruct (Hl q v ltac:(by left)) as [Hq0 _].
  destruct (decide (q = p)) as [->|Hne].
  - rewrite decide_True, lookup_insert_eq by done.
    rewrite (not_elem_of_list_to_map_1 l p) by done. done.
  - rewrite decide_False, lookup_insert_ne; [done|done|].
    intros [_ ?]%txn_app_id_inj; done.
Qed.

Lemma txns_of_entry app_id e :
  txns_of (entry_commit app_id e) =
  ((λ '(q, v), {| t_app_id := txn_app_id app_id q; t_version := v |}) <$> map_to_list (e_assert e))
  ++ (if e_marker e
      then [ {| t_app_id := takeover_marker_app_id app_id; t_version := TAKEOVER_MARKER_VERSION |} ]
      else []).
Proof.
  unfold txns_of, entry_commit. csimpl. rewrite omap_app. f_equal; [|by destruct (e_marker e)].
  induction (map_to_list (e_assert e)) as [|[q v] l IH]; [done|]. csimpl. by rewrite IH.
Qed.

Lemma of_id_entry app_id e p :
  partition_id p → (∀ q, is_Some (e_assert e !! q) → partition_id q) →
  t_version <$> last (of_id (txn_app_id app_id p) (txns_of (entry_commit app_id e))) =
  e_assert e !! p.
Proof.
  intros Hp He. rewrite txns_of_entry, of_id_app.
  rewrite (of_id_entries app_id p (map_to_list (e_assert e))); [|done|apply NoDup_fst_map_to_list|].
  2: { intros q v Hq%elem_of_map_to_list. apply He. by eexists. }
  rewrite list_to_map_to_list.
  assert (Hm : of_id (txn_app_id app_id p)
    (if e_marker e then [ {| t_app_id := takeover_marker_app_id app_id;
                            t_version := TAKEOVER_MARKER_VERSION |} ] else []) = []).
  { destruct (e_marker e); [|done]. unfold of_id. rewrite filter_cons. simpl.
    rewrite decide_False; [done|]. apply marker_not_txn_app_id, Hp. }
  rewrite Hm, app_nil_r. by destruct (e_assert e !! p).
Qed.

Lemma newest_before_take app_id t p (n : nat) :
  partition_id p → ids_valid t → (n ≤ length t)%nat →
  newest_before (hist app_id t) (Z.of_nat n) (txn_app_id app_id p) = offset_in (take n t) p.
Proof.
  intros Hp Ht. induction n as [|n IH]; intros Hn; [done|].
  destruct (lookup_lt_is_Some_2 t n) as [e He]; [lia|].
  rewrite (take_S_r _ _ e He). unfold offset_in. rewrite omap_app, last_app. csimpl.
  replace (Z.of_nat (S n)) with (Z.of_nat n + 1) by lia. rewrite newest_before_snoc by lia.
  assert (Hh : hist app_id t (Z.of_nat n) = entry_commit app_id e).
  { unfold hist. destruct (Z.ltb_spec (Z.of_nat n) 0); [lia|]. by rewrite Nat2Z.id, He. }
  rewrite Hh. pose proof (of_id_entry app_id e p Hp) as Hof.
  rewrite <- Hof by (intros q Hq; eapply Ht; [|done]; by eapply list_elem_of_lookup_2).
  destruct (last (of_id _ _)) as [x|]; simpl; [done|]. apply IH. lia.
Qed.

Lemma newest_offset app_id t p v :
  partition_id p → ids_valid t → 0 ≤ v < Z.of_nat (length t) →
  newest (hist app_id t) v (txn_app_id app_id p) = offset_in (take (Z.to_nat (v + 1)) t) p.
Proof.
  intros Hp Ht Hv. unfold newest.
  replace (v + 1) with (Z.of_nat (Z.to_nat (v + 1))) at 1 by lia.
  apply newest_before_take; [done..|lia].
Qed.

(** Growing a table changes no earlier version. *)
Lemma hist_app app_id t e v : v < Z.of_nat (length t) → hist app_id (t ++ [e]) v = hist app_id t v.
Proof.
  intros Hv. unfold hist. destruct (Z.ltb_spec v 0); [done|]. by rewrite lookup_app_l by lia.
Qed.

Lemma history_ext H H' v : (∀ u, 0 ≤ u < v → H u = H' u) → history H v = history H' v.
Proof.
  intros He. unfold history. f_equal. apply list_fmap_ext. intros i u Hu. simpl.
  apply lookup_seqZ in Hu as [-> Hi]. f_equal. apply He. lia.
Qed.

Lemma knows_app app_id t e v f :
  v < Z.of_nat (length t) → knows (hist app_id t) v f → knows (hist app_id (t ++ [e])) v f.
Proof.
  intros Hv [Hc Hb]. split.
  - intros p Hp. destruct (Hc p Hp) as (b & Hbp & Hn). exists b. split; [done|]. rewrite Hn.
    unfold newest, newest_before. do 3 f_equal. symmetry. apply history_ext. intros u Hu.
    apply hist_app. lia.
  - intros id x m Hm. destruct (Hb id x m Hm) as [Hr Ho]. split; [|done].
    destruct Hr as (u & ts & info & i & a & tx & H1 & H2 & H3 & H4 & H5).
    exists u, ts, info, i, a, tx.
    assert (Hu : u < Z.of_nat (length t)).
    { destruct (Z.lt_ge_cases u (Z.of_nat (length t))); [done|]. exfalso. revert H4. unfold hist.
      destruct (Z.ltb_spec u 0); [by intros ?%not_elem_of_nil|].
      rewrite lookup_ge_None_2 by lia. by intros ?%not_elem_of_nil. }
    by rewrite hist_app.
Qed.

(** ** The invariant *)

Section Invariant.
Context (app_id : string) (T : Z → list MessageMark) (origin : Z → Z).
Context (HT : ∀ p, topic (T p)).

Abbreviation pos := (position origin).

(** A held batch: of each partition, the messages from the position it was read from. *)
Record batch_ok (b : Batch) : Prop := {
  batch_rows p : is_Some (b_rows b !! p) → is_Some (b_ranges b !! p);
  batch_range p first last : b_ranges b !! p = Some (first, last) →
    partition_id p ∧ ∃ base, b_bases b !! p = Some base ∧ pos p base ≤ last ∧
      b_rows b !! p = Some (between (T p) (pos p base) (last + 1));
}.

Record member_ok (t : Table) (m : Member) : Prop := {
  member_handle : 0 ≤ handle m < Z.of_nat (length t);
  member_app_id : f_app_id (fence m) = app_id;
  member_owned p : is_Some (f_base (fence m) !! p) → partition_id p;
  member_knows : knows (hist app_id t) (handle m) (fence m);
  member_batch b : batch m = Some b → batch_ok b;
}.

(** The rows past the initial table are each partition's interval of the topic. *)
Record invariant (t0 : Table) (s : System) (t' : Table) : Prop := {
  inv_table : table s = t0 ++ t';
  inv_ids : ids_valid (table s);
  inv_rows p : rows_in t' p = between (T p) (pos p (offset_in t0 p)) (pos p (offset_in (table s) p));
  inv_monotone p : pos p (offset_in t0 p) ≤ pos p (offset_in (table s) p);
  inv_members w : member_ok (table s) (members s w);
}.

Lemma offset_in_app t e p :
  offset_in (t ++ [e]) p = match e_assert e !! p with Some v => Some v | None => offset_in t p end.
Proof. unfold offset_in. rewrite omap_app, last_app. csimpl. by destruct (e_assert e !! p). Qed.

Lemma rows_in_app t e p : rows_in (t ++ [e]) p = rows_in t p ++ default [] (e_rows e !! p).
Proof. unfold rows_in. rewrite fmap_app, join_app. simpl. by rewrite app_nil_r. Qed.

Lemma offset_in_quiet t u p :
  (∀ e, e ∈ u → e_assert e !! p = None) → offset_in (t ++ u) p = offset_in t p.
Proof.
  induction u as [|e u IH] using rev_ind; intros Hu; [by rewrite app_nil_r|].
  rewrite app_assoc, offset_in_app, (Hu e).
  - apply IH. intros e' He'. apply Hu, elem_of_app. by left.
  - apply elem_of_app. right. by left.
Qed.

(** A commit that conflicts with nothing since its handle sees the newest offsets of all it
    asserts. *)
Lemma no_conflict_offset t v e p :
  conflicts t v e = false → is_Some (e_assert e !! p) →
  offset_in t p = offset_in (take (Z.to_nat (v + 1)) t) p.
Proof.
  intros Hc Hp. rewrite <- (take_drop (Z.to_nat (v + 1)) t) at 1. apply offset_in_quiet.
  intros e' He'. destruct (e_assert e' !! p) eqn:E; [|done]. exfalso.
  enough (conflicts t v e = true) by congruence. unfold conflicts. apply existsb_exists.
  exists e'. split; [by apply list_elem_of_In|]. apply orb_true_iff. left.
  rewrite bool_decide_false; [done|]. intros Hd.
  assert (Hin : p ∈ dom (e_assert e') ∩ dom (e_assert e)).
  { apply elem_of_intersection. rewrite !elem_of_dom, E. by split; [eexists|]. }
  rewrite Hd in Hin. set_solver.
Qed.

(** What a member read since its buffer was opened is a batch in order. *)
Lemma reads_ok f b : reads T origin f b → batch_ok b.
Proof.
  intros (s & l & r & s' & und & Hbuf & Hc & -> & Hp).
  pose proof (consume_buffer _ _ _ _ Hc) as Hb. rewrite Hbuf in Hb.
  destruct (buffer_of_taken (taken r)) as (Hranges & _). rewrite <- Hb in Hranges. split.
  - intros p. simpl. rewrite map_lookup_imap. destruct (ranges (buf s') !! p); by intros [? ?].
  - intros p first la Hr. simpl in *. rewrite !map_lookup_imap, Hr. simpl.
    destruct (Hp p) as (Hid & Hown & Hver & Hok & Hlow & n & n' & Hbelow & Hd); [by eexists|].
    split; [done|]. eexists. split; [done|]. unfold base_of. rewrite <- Hlow.
    pose proof (consume_delivery (T p) p _ _ _ _ n n' (HT p) Hver Hok Hbelow Hd Hc) as Htaken.
    rewrite Hranges in Hr. unfold range_of in Hr. rewrite Htaken in Hr |- *.
    destruct (head _) as [h|]; [|done]. destruct (last _) as [x|] eqn:Hx; [|done].
    injection Hr as _ <-. split.
    + apply last_Some_elem_of in Hx. by apply list_elem_of_filter in Hx as [? _].
    + f_equal. apply segment_between; [apply HT|by eapply delivers_le|done|done].
Qed.

(** A reset, whatever it answers, leaves a member sound. *)
Lemma reset_member_ok t m v view owned f r :
  ids_valid t → member_ok t m → handle m ≤ v < Z.of_nat (length t) →
  views view (hist app_id t) → lv_version view = Some v → Forall partition_id owned →
  reset view owned (fence m) = (f, r) →
  member_ok t {| handle := v; fence := f; batch := batch m |}.
Proof.
  intros Ht [Hh Ha Ho Hk Hb] Hv Hview Hhead Hown Hr.
  pose proof (knows_below _ _ _ Hk) as Hmemo. destruct r as [[]|e].
  - apply (reset_ok _ _ Hview v Hhead) in Hr as (Ha' & Hc & Hm & Hno & Hyes); [|done].
    split; simpl; [lia|congruence| | |done].
    + intros p [b Hp]. destruct (decide (p ∈ owned)) as [Hin|Hin].
      * rewrite Forall_forall in Hown. by apply Hown.
      * by rewrite Hno in Hp.
    + split; [|done]. rewrite Hc. intros p Hp%elem_of_list_to_set.
      destruct (Hyes p Hp) as (mark & Hbp & _). rewrite Ha'. by eexists.
  - apply (reset_err _ _ Hview v Hhead) in Hr as (Hc & Hbase & Ha' & Hm); [|done].
    split; simpl; [lia|congruence|by rewrite Hbase| |done].
    split; [|done]. rewrite Hc. set_solver.
Qed.

(** So does a refresh without one, over commits that wrote nothing the fence carries. *)
Lemma refresh_member_ok s w v :
  member_ok (table s) (members s w) →
  handle (members s w) ≤ v < Z.of_nat (length (table s)) → unmoved app_id s w v →
  member_ok (table s) {| handle := v; fence := fence (members s w); batch := batch (members s w) |}.
Proof.
  intros [Hh Ha Ho [Hc Hm] Hb] Hv Hun. split; cbn [handle fence batch]; [lia|done..| |done].
  split; [|done]. intros p Hp. destruct (Hc p Hp) as (b & Hbase & Hn). exists b. split; [done|].
  rewrite Ha in *. by rewrite Hun.
Qed.

Lemma member_app t e m : member_ok t m → member_ok (t ++ [e]) m.
Proof.
  intros [Hh Ha Ho Hk Hb]. split; [|done|done| |done].
  - rewrite length_app. simpl. lia.
  - apply knows_app; [lia|done].
Qed.

Lemma ids_valid_app t e :
  ids_valid t → (∀ p, is_Some (e_assert e !! p) → partition_id p) → ids_valid (t ++ [e]).
Proof.
  intros Ht He e' p [Hin|Hin]%elem_of_app; [by eapply Ht|].
  apply list_elem_of_singleton in Hin as ->. apply He.
Qed.

Lemma moved_partition_None ps f b p :
  moved_partition ps f b = None → is_Some (b_ranges b !! p) →
  is_Some (ps !! p) ∧ fst <$> f_base f !! p = b_bases b !! p.
Proof.
  intros Hm Hp. unfold moved_partition in Hm.
  pose proof (List.find_none _ _ Hm p) as Hn. cbn beta in Hn.
  apply orb_false_iff in Hn as [H1%bool_decide_eq_false H2].
  - split; [by apply not_eq_None_Some|].
    by apply negb_false_iff, bool_decide_eq_true in H2.
  - by apply list_elem_of_In, sorted_keys_elem.
Qed.

(** A commit that lands: what it asserts, partition by partition, over what the table had. *)
Lemma commit_offsets t m b ps view f u info p :
  ids_valid t → member_ok t m → batch_ok b → moved_partition ps (fence m) b = None →
  views view (hist app_id t) → lv_version view = Some (handle m) →
  verify view (b_ranges b) (fence m) = (f, Ok u) →
  conflicts t (handle m) (entry_of f b info) = false →
  match b_ranges b !! p with
  | Some (_, last) =>
      partition_id p ∧ pos p (offset_in t p) ≤ last ∧
      e_assert (entry_of f b info) !! p = Some last ∧
      b_rows b !! p = Some (between (T p) (pos p (offset_in t p)) (last + 1)) ∧
      b_bases b !! p = Some (offset_in t p)
  | None =>
      b_rows b !! p = None ∧
      ∀ v, e_assert (entry_of f b info) !! p = Some v → partition_id p ∧ offset_in t p = Some v
  end.
Proof.
  intros Ht Hm Hb Hmoved Hview Hhead Hver Hcon.
  destruct (verify_spec _ _ _ _ _ _ _ Hview Hhead (member_knows _ _ Hm) Hver)
    as (Ha & Hbase & Hk & Hc & Hnew).
  rewrite (member_app_id _ _ Hm) in *. pose proof (member_handle _ _ Hm) as Hh.
  assert (Hentry : e_assert (entry_of f b info) = (assert_map (b_ranges b) (b_marks b) f).1) by done.
  assert (Hnewest : ∀ q, is_Some (e_assert (entry_of f b info) !! q) → partition_id q →
    newest (hist app_id t) (handle m) (txn_app_id app_id q) = offset_in t q).
  { intros q Hq Hid. rewrite newest_offset by done. symmetry. by eapply no_conflict_offset. }
  destruct (b_ranges b !! p) as [[first la]|] eqn:Ep.
  - assert (He : e_assert (entry_of f b info) !! p = Some la)
      by (by rewrite Hentry, assert_map_lookup, Ep).
    destruct (batch_range _ Hb _ _ _ Ep) as (Hid & base & Hbp & Hle & Hrows).
    destruct (Hnew p) as (x & Hx & Hxn); [by eexists|].
    destruct (moved_partition_None _ _ _ p Hmoved) as [_ Hmv]; [by eexists|].
    rewrite Hx, Hbp in Hmv. simpl in Hmv. injection Hmv as <-.
    rewrite Hxn, Hnewest in * by (done || by eexists). done.
  - split.
    + destruct (b_rows b !! p) eqn:Er; [|done]. destruct (batch_rows _ Hb p) as [? ?]; [by eexists|].
      congruence.
    + intros v Hv. pose proof Hv as Hv'. rewrite Hentry, assert_map_lookup, Ep in Hv'.
      case_decide as Hcar; [|done]. destruct (knows_carried _ _ _ Hk p Hcar) as (x & Hx & Hxn).
      rewrite Hx in Hv'. simpl in Hv'. rewrite Ha in Hxn.
      assert (Hid : partition_id p).
      { apply (member_owned _ _ Hm). rewrite <- Hbase. by eexists. }
      rewrite Hnewest in Hxn by (done || by eexists). split; [done|congruence].
Qed.

Lemma commit_member_ok t m b f info :
  ids_valid (t ++ [entry_of f b info]) → member_ok t m → f_app_id f = app_id →
  f_base f = f_base (fence m) → knows (hist app_id t) (handle m) f →
  member_ok (t ++ [entry_of f b info])
    {| handle := Z.of_nat (length t); fence := committed (offsets_of_entry f b) f; batch := None |}.
Proof.
  intros Ht [Hh Ha Ho Hk Hb] Hfa Hfb Hkf. destruct (committed_carried (offsets_of_entry f b) f) as (_ & Ha' & _).
  split; cbn [handle fence batch]; [rewrite length_app; simpl; lia|congruence| | |done].
  - intros p [x Hx]. rewrite committed_base, Hfb in Hx. apply bind_Some in Hx as (y & Hy & _).
    apply Ho. by eexists.
  - apply (committed_knows _ (handle m)); [apply knows_app; [lia|done]|].
    intros p w Hw. rewrite Hfa.
    assert (Hid : partition_id p).
    { apply (Ht (entry_of f b info)); [apply elem_of_app; right; by left|by eexists]. }
    rewrite newest_offset by (try done; rewrite length_app; simpl; lia).
    rewrite take_ge by (rewrite length_app; simpl; lia). rewrite offset_in_app.
    change (e_assert (entry_of f b info) !! p = Some w) in Hw. by rewrite Hw.
Qed.

Lemma step_commit_invariant t0 t' s w b ps view f u info :
  invariant t0 s t' →
  batch (members s w) = Some b → moved_partition ps (fence (members s w)) b = None →
  views view (hist app_id (table s)) → lv_version view = Some (handle (members s w)) →
  verify view (b_ranges b) (fence (members s w)) = (f, Ok u) →
  conflicts (table s) (handle (members s w)) (entry_of f b info) = false →
  invariant t0 {| table := table s ++ [entry_of f b info];
                  members := λ i, if Nat.eqb i w
                    then {| handle := Z.of_nat (length (table s));
                            fence := committed (offsets_of_entry f b) f; batch := None |}
                    else members s i |} (t' ++ [entry_of f b info]).
Proof.
  intros [Htab Hids Hrows Hmon Hmem] Hb Hmoved Hview Hhead Hver Hcon.
  pose proof (Hmem w) as Hm.
  destruct (verify_spec _ _ _ _ _ _ _ Hview Hhead (member_knows _ _ Hm) Hver) as (Ha & Hbase & Hk & _).
  pose proof (λ p, commit_offsets _ _ _ _ _ _ _ _ p Hids Hm (member_batch _ _ Hm b Hb) Hmoved
    Hview Hhead Hver Hcon) as Hoff.
  assert (Hids' : ids_valid (table s ++ [entry_of f b info])).
  { apply ids_valid_app; [done|]. intros p [v Hv]. specialize (Hoff p).
    destruct (b_ranges b !! p) as [[]|]; [by destruct Hoff|]. by destruct Hoff as [_ Hoff]; eapply Hoff. }
  split; cbn [table members].
  - by rewrite Htab, app_assoc.
  - done.
  - intros p. rewrite rows_in_app, offset_in_app, Hrows. specialize (Hoff p).
    change (e_rows (entry_of f b info)) with (b_rows b).
    destruct (b_ranges b !! p) as [[first la]|].
    + destruct Hoff as (_ & Hle & -> & -> & _). simpl. symmetry.
      apply between_split; [apply HT|apply Hmon|lia].
    + destruct Hoff as (-> & Hoff). rewrite app_nil_r.
      destruct (e_assert _ !! p) as [v|] eqn:E; [|done]. by destruct (Hoff v eq_refl) as [_ ->].
  - intros p. rewrite offset_in_app. specialize (Hoff p). specialize (Hmon p).
    destruct (b_ranges b !! p) as [[first la]|].
    + destruct Hoff as (_ & Hle & -> & _). simpl. lia.
    + destruct Hoff as (_ & Hoff).
      destruct (e_assert _ !! p) as [v|] eqn:E; [|done]. by destruct (Hoff v eq_refl) as [_ <-].
  - intros i. destruct (Nat.eqb i w); [|by apply member_app].
    apply (commit_member_ok _ (members s w)); [done|done| |done|done].
    rewrite Ha. apply Hm.
Qed.

Lemma set_member_invariant t0 t' s w m :
  invariant t0 s t' → member_ok (table s) m → invariant t0 (set_member w m s) t'.
Proof.
  intros [] Hm. split; try done. intros i. simpl. by destruct (Nat.eqb i w).
Qed.

Lemma step_invariant t0 t' s s' :
  invariant t0 s t' → step app_id T origin no_faults s s' → ∃ t'', invariant t0 s' t''.
Proof.
  intros Hinv Hstep. pose proof Hinv as [Htab Hids Hrows Hmon Hmem].
  inversion Hstep as [w view v owned f r|w v Hv Hun|w b Hread|w|w p|w b view f e Hb
    |w b ps view f u info|e He Hr]; subst.
  - exists t'. apply set_member_invariant; [done|].
    by eapply (reset_member_ok (table s) (members s w)).
  - exists t'. apply set_member_invariant; [done|]. destruct Hun as [|Hun]; [done|].
    by apply refresh_member_ok.
  - exists t'. apply set_member_invariant; [done|]. destruct Hread as [Hread|[? _]]; [|done].
    destruct (Hmem w). split; try done. intros b' [= <-]. by eapply reads_ok.
  - exists t'. apply set_member_invariant; [done|]. by destruct (Hmem w).
  - exists t'. apply set_member_invariant; [done|]. destruct (Hmem w) as [Hh Ha Ho Hk Hb].
    split; try done; cbn [fence forget set_carried set_base f_base f_app_id].
    + intros q [x Hx]. apply lookup_delete_Some in Hx as [_ Hx]. apply Ho. by eexists.
    + split; [|apply Hk]. intros q [Hq Hne]%elem_of_difference.
      destruct (knows_carried _ _ _ Hk q Hq) as (x & Hx & Hn). exists x. split; [|done].
      cbn. rewrite lookup_delete_ne; [done|set_solver].
  - exists t'. apply set_member_invariant; [done|]. destruct (Hmem w) as [Hh Ha Ho Hk Hbm].
    destruct (verify_spec view (hist app_id (table s)) (handle (members s w)) (b_ranges b)
      (fence (members s w)) f (Err e)) as (Ha' & Hb' & Hk' & _); try done.
    split; cbn [handle fence batch]; [done|congruence|by rewrite Hb'|done|].
    intros b' [= <-]. by apply Hbm.
  - eexists. by eapply step_commit_invariant.
  - exists (t' ++ [e]). split; cbn [table members].
    + by rewrite Htab, app_assoc.
    + apply ids_valid_app; [done|]. intros p. rewrite He, lookup_empty. by intros [].
    + intros p. rewrite rows_in_app, offset_in_app, He, Hr, !lookup_empty, app_nil_r. apply Hrows.
    + intros p. rewrite offset_in_app, He, lookup_empty. apply Hmon.
    + intros w. apply member_app, Hmem.
Qed.

Lemma initial_invariant t0 s : initial app_id t0 s → invariant t0 s [].
Proof.
  intros (<- & Hne & Hids & Hm). split.
  - by rewrite app_nil_r.
  - done.
  - intros p. by rewrite between_empty.
  - done.
  - intros w. rewrite Hm. split; cbn [handle fence batch fence_new f_app_id f_base].
    + destruct (table s); [done|]. simpl. lia.
    + done.
    + intros p. rewrite lookup_empty. by intros [].
    + split; [set_solver|apply memo_default_ok].
    + done.
Qed.

Lemma reachable_invariant t0 s :
  reachable app_id T origin no_faults t0 s → ∃ t', invariant t0 s t'.
Proof.
  intros (s0 & Hinit & Hrun). assert (H0 : ∃ t', invariant t0 s0 t') by
    (eexists; by apply initial_invariant).
  clear Hinit. induction Hrun as [|s0 s1 s2 Hs _ IH]; [done|]. apply IH.
  destruct H0 as [t' H0]. by eapply step_invariant.
Qed.
End Invariant.

(** ** A concrete run: one member resets, reads, commits *)

Module Run.
Definition topics (p : Z) : list MessageMark := if p =? 0 then Demo.stored else [].
Definition start (p : Z) : Z := 0.
Definition e0 : Entry :=
  {| e_info := None; e_assert := {[ 0 := 41 ]}; e_marker := false; e_rows := ∅ |}.
Definition t0 : Table := [e0].
(** The view of a table as of its newest commit, of which every commit can be read. *)
Definition view_of (t : Table) : LogView :=
  {| lv_url := "uri"; lv_version := Some (Z.of_nat (length t) - 1); lv_configuration := [];
     lv_commit := λ v, Ok (if bool_decide (0 ≤ v < Z.of_nat (length t))
                           then Some (hist "t" t v) else None);
     lv_last_checkpoint := Ok None; lv_listing := λ _, Ok [];
     lv_json := λ _, Ok []; lv_parquet := λ _, Ok None;
     lv_kernel := λ id, Ok (newest (hist "t" t) (Z.of_nat (length t) - 1) id) |}.
Definition log_view : LogView := view_of t0.
Definition f0 : Fence := (reset log_view [0] (fence_new "t")).1.
Definition consumed := consume Demo.delivered Demo.intake.
Definition b0 : Batch := close_batch f0 (buf consumed.2) (taken consumed.1) [].
Definition f1 : Fence := (verify log_view (b_ranges b0) f0).1.
Definition e1 : Entry := entry_of f1 b0 None.
Definition s0 : System :=
  {| table := t0; members := λ _, {| handle := 0; fence := fence_new "t"; batch := None |} |}.
Definition s1 : System := set_member 0 {| handle := 0; fence := f0; batch := None |} s0.
Definition s2 : System := set_member 0 {| handle := 0; fence := f0; batch := Some b0 |} s1.
Definition s3 : System :=
  {| table := t0 ++ [e1];
     members := λ i, if Nat.eqb i 0
       then {| handle := 1; fence := committed (offsets_of_entry f1 b0) f1; batch := None |}
       else members s2 i |}.

Lemma view_of_views t : t ≠ [] → views (view_of t) (hist "t" t).
Proof.
  intros Ht. assert (Hs : ∀ f, ¬ stored (view_of t) f).
  { intros f (_ & from & l & [= <-] & []%not_elem_of_nil). }
  split.
  - intros v c. simpl. case_bool_decide; congruence.
  - intros f v kind json id x Hf. by destruct (Hs f).
  - intros f v kind json id x Hf. by destruct (Hs f).
  - intros files v parts id x Hp Hf. by destruct (Hf 1 ltac:(lia)) as [[]%Hs _].
  - intros f batches nulls ids column versions [= ].
  - intros head [= <-]. destruct t; [done|]. simpl. lia.
  - intros head id v [= <-]. by intros [= <-].
Qed.

Lemma log_view_views : views log_view (hist "t" t0).
Proof. by apply view_of_views. Qed.

Lemma topics_sorted p : topic (topics p).
Proof.
  unfold topics. destruct (p =? 0); [apply Demo.stored_topic|]. by split; constructor.
Qed.

(** The delivery the member starts with, and the batch read from it. *)
Lemma delivered_0 :
  partition_id 0 ∧ is_Some (f_base f0 !! 0) ∧
  verified (topics 0) (view 0 Demo.intake) ∧ state_ok (view 0 Demo.intake) ∧
  lower (view 0 Demo.intake) = position start 0 (f_base f0 !! 0 ≫= fst) ∧
  ∃ n n', (∀ i m, (i < n)%nat → topics 0 !! i = Some m → m_offset m < lower (view 0 Demo.intake)) ∧
    delivers (topics 0) n (of_partition 0 Demo.delivered) n'.
Proof.
  split; [split; vm_compute; by intros|]. split; [by eexists; vm_compute|].
  split; [apply Demo.stored_verified|]. split; [apply Demo.intake_ok|].
  split; [vm_compute; reflexivity|]. exists 1%nat, 4%nat. split.
  - intros [|i] m Hi Hm; [|lia]. injection Hm as <-. vm_compute. done.
  - change (delivers (topics 0) 1 [Demo.mark 41; Demo.mark 42; Demo.mark 41; Demo.mark 45;
      Demo.mark 42] 4).
    apply delivers_next; [done|]. apply delivers_next; [done|].
    apply (delivers_again _ _ 1); [done|lia|]. apply delivers_next; [done|].
    apply (delivers_again _ _ 2); [done|lia|]. constructor.
Qed.

Lemma reads_b0 : reads topics start f0 b0.
Proof.
  exists Demo.intake, Demo.delivered, consumed.1, consumed.2, [].
  split; [done|]. split; [apply surjective_pairing|]. split; [done|].
  intros p Hp. assert (p = 0) as ->.
  { assert (E : ranges (buf consumed.2) = {[ 0 := (42, 45) ]}) by (vm_compute; reflexivity).
    rewrite E in Hp. destruct Hp as [x [<- _]%lookup_singleton_Some]. done. }
  apply delivered_0.
Qed.

Lemma run_s1 faults : reachable "t" topics start faults t0 s1.
Proof.
  exists s0. split.
  { split; [done|]. split; [done|]. split; [|done].
    intros e p ->%list_elem_of_singleton [v Hv].
    change (({[ 0 := 41 ]} : gmap Z Z) !! p = Some v) in Hv.
    apply lookup_singleton_Some in Hv as [<- _]. split; vm_compute; by intros. }
  apply rtc_once, (step_reset _ _ _ faults s0 0 log_view 0 [0] f0 (Ok tt)).
  - simpl. lia.
  - apply log_view_views.
  - done.
  - by repeat constructor.
  - vm_compute. reflexivity.
Qed.

Lemma run_s2 faults : reachable "t" topics start faults t0 s2.
Proof.
  destruct (run_s1 faults) as (s & Hs & Hrun). exists s. split; [done|].
  eapply rtc_r; [exact Hrun|]. apply (step_read _ _ _ faults s1 0 b0). left. apply reads_b0.
Qed.

Lemma run faults : reachable "t" topics start faults t0 s3.
Proof.
  destruct (run_s2 faults) as (s & Hs & Hrun). exists s. split; [done|].
  eapply rtc_r; [exact Hrun|].
  apply (step_commit _ _ _ faults s2 0 b0 (parts Demo.intake) log_view f1 tt None).
  - done.
  - vm_compute. reflexivity.
  - apply log_view_views.
  - done.
  - vm_compute. reflexivity.
  - vm_compute. reflexivity.
Qed.
End Run.

(** ** The faults, and what they do *)

Module Faulty.
Import Run.

Definition member (h : Z) (f : Fence) (b : option Batch) : Member :=
  {| handle := h; fence := f; batch := b |}.

(** Two members read the same partition; the second commits it.  The first one's refresh
    moves its handle to that commit and fails before its reset: what its fence carries passes
    for what the table has. *)
Definition h1 : System := set_member 1 (member 0 f0 None) s2.
Definition h2 : System := set_member 1 (member 0 f0 (Some b0)) h1.
Definition h3 : System :=
  {| table := t0 ++ [e1];
     members := λ i, if Nat.eqb i 1
       then member 1 (committed (offsets_of_entry f1 b0) f1) None else members h2 i |}.
Definition h4 : System := set_member 0 (member 1 f0 (Some b0)) h3.
Definition h5 : System :=
  {| table := (t0 ++ [e1]) ++ [e1];
     members := λ i, if Nat.eqb i 0
       then member 2 (committed (offsets_of_entry f1 b0) f1) None else members h4 i |}.

Definition half : Faults := {| half_refresh := true; reread := false |}.

Lemma a_half_refresh_commits_twice :
  reachable "t" topics start half t0 h5 ∧
  rows_in [e1; e1] 0 = [Demo.mark 42; Demo.mark 45; Demo.mark 42; Demo.mark 45].
Proof.
  split; [|vm_compute; reflexivity]. destruct (run_s2 half) as (s & Hs & Hrun). exists s.
  split; [done|]. etrans; [exact Hrun|].
  apply rtc_l with h1.
  { apply (step_reset _ _ _ half s2 1 log_view 0 [0] f0 (Ok tt)).
    - simpl. lia.
    - apply log_view_views.
    - done.
    - by repeat constructor.
    - vm_compute. reflexivity. }
  apply rtc_l with h2.
  { apply (step_read _ _ _ half h1 1 b0). left. apply reads_b0. }
  apply rtc_l with h3.
  { apply (step_commit _ _ _ half h2 1 b0 (parts Demo.intake) log_view f1 tt None).
    - done.
    - vm_compute. reflexivity.
    - apply log_view_views.
    - done.
    - vm_compute. reflexivity.
    - vm_compute. reflexivity. }
  apply rtc_l with h4.
  { apply (step_refresh _ _ _ half h3 0 1); [simpl; lia|by left]. }
  apply rtc_once.
  apply (step_commit _ _ _ half h4 0 b0 (parts Demo.intake) (view_of (t0 ++ [e1])) f1 tt None).
  - done.
  - vm_compute. reflexivity.
  - by apply view_of_views.
  - done.
  - vm_compute. reflexivity.
  - vm_compute. reflexivity.
Qed.

(** One member reads a partition up to its end, is blocked on it, resolves it from the table's
    offset and reads it again into the same buffer. *)
Definition resumed : Intake :=
  {| parts := ready_at 0 42 None 9 (parts consumed.2); buf := buf consumed.2;
     paused := paused consumed.2 ∖ {[0]} |}.
Definition again : list Message := [Demo.msg 0 42; Demo.msg 0 45].
Definition consumed' := consume again resumed.
Definition twice : Batch :=
  close_batch f0 (buf consumed'.2) (taken consumed.1 ++ taken consumed'.1) [].
Definition f2 : Fence := (verify log_view (b_ranges twice) f0).1.
Definition e2 : Entry := entry_of f2 twice None.
Definition r2 : System := set_member 0 (member 0 f0 (Some twice)) s1.
Definition r3 : System :=
  {| table := t0 ++ [e2];
     members := λ i, if Nat.eqb i 0
       then member 1 (committed (offsets_of_entry f2 twice) f2) None else members r2 i |}.

Definition rereading : Faults := {| half_refresh := false; reread := true |}.

Lemma again_0 :
  ∃ n n', (∀ i m, (i < n)%nat → topics 0 !! i = Some m → m_offset m < lower (view 0 resumed)) ∧
    delivers (topics 0) n (of_partition 0 again) n'.
Proof.
  exists 2%nat, 4%nat. split.
  - intros [|[|i]] m Hi Hm; [..|lia]; injection Hm as <-; vm_compute; done.
  - change (delivers (topics 0) 2 [Demo.mark 42; Demo.mark 45] 4).
    apply delivers_next; [done|]. apply delivers_next; [done|]. constructor.
Qed.

Lemma rereads_twice : rereads topics start f0 twice.
Proof.
  exists Demo.intake, Demo.delivered, consumed.1, consumed.2, 0, None, 9, resumed, again,
    consumed'.1, consumed'.2, [].
  split; [done|]. split; [apply surjective_pairing|]. split; [reflexivity|].
  split; [apply surjective_pairing|]. split; [done|].
  intros p Hp. assert (p = 0) as ->.
  { assert (E : ranges (buf consumed'.2) = {[ 0 := (42, 45) ]}) by (vm_compute; reflexivity).
    rewrite E in Hp. destruct Hp as [x [<- _]%lookup_singleton_Some]. done. }
  destruct delivered_0 as (H1 & H2 & H3 & H4 & H5 & H6).
  do 4 (split; [done|]).
  split; [change (verified Demo.stored (Some (Ready 42 42 None 9))); done|].
  split; [change (state_ok (Some (Ready 42 42 None 9))); simpl; width_lia|].
  split; [done|]. split; [done|]. apply again_0.
Qed.

Lemma a_reread_commits_twice :
  reachable "t" topics start rereading t0 r3 ∧
  rows_in [e2] 0 = [Demo.mark 42; Demo.mark 45; Demo.mark 42; Demo.mark 45].
Proof.
  split; [|vm_compute; reflexivity]. destruct (run_s1 rereading) as (s & Hs & Hrun). exists s.
  split; [done|]. etrans; [exact Hrun|].
  apply rtc_l with r2.
  { apply (step_read _ _ _ rereading s1 0 twice). right. split; [done|apply rereads_twice]. }
  apply rtc_once.
  apply (step_commit _ _ _ rereading r2 0 twice (parts Demo.intake) log_view f2 tt None).
  - done.
  - vm_compute. reflexivity.
  - apply log_view_views.
  - done.
  - vm_compute. reflexivity.
  - vm_compute. reflexivity.
Qed.
End Faulty.

(** ** Properties *)




