(* ===== verification/MemberProps.v ===== *)
(** * MemberProps: the properties of one member of a pipeline

    The theorems on [MemberCorrect.life], with a concrete member that is assigned a
    partition, reads, closes a batch, and commits or holds it. *)

From Stdlib Require Import ZArith Lia Sorted.
From stdpp Require Import base list strings gmap sorting.
From S2P Require Import Prelude Error Partitions Topic Takeover TxnLog TxnLogCorrect Fence.
From S2P Require Import Start Member MemberSound MemberCorrect ExactlyOnce.

Open Scope Z_scope.

(** ** A concrete member *)

Module MemberRun.

Definition cfg : Config :=
  {| c_app_id := "t"; c_topic := "orders"; c_group_id := "g"; c_target_uri := "uri";
     c_dq_uri := "uri-dq"; c_once := false; c_blocked_recheck_secs := 60;
     c_starting_offsets := P_Earliest; c_max_rejects := 0 |}.

Definition opened_member : Source :=
  {| s_target := Run.log_view; s_fence := fence_new "t"; s_parts := ∅; s_buf := buffer_default;
     s_decoder := []; s_held := None; s_stalled := None; s_blocked := None;
     s_next_recheck := None; s_paused := ∅; s_unbased_start := ∅; s_table_id := None;
     s_refreshed_at := 0; s_last_commit := None; s_reset_this_step := false;
     s_once_end := None; s_held_for := None; s_last_backoff := None |}.

Definition outage : Error := Delta (D_ObjectStore true).

(** A target that cannot be reached, and one that is [Run.log_view]. *)
Definition unreachable_target : RefreshWorld :=
  {| rw_update := None; rw_stored_id := λ _, Ok None; rw_open := Err outage;
     rw_table_id := λ _, None; rw_unwritable := λ _, Ok tt; rw_schema := λ _, Ok tt |}.
Definition reached : RefreshWorld :=
  {| rw_update := Some Run.log_view; rw_stored_id := λ _, Ok None; rw_open := Err outage;
     rw_table_id := λ _, None; rw_unwritable := λ _, Ok tt; rw_schema := λ _, Ok tt |}.

Definition committing (r : result Error LogView) : CommitWorld :=
  {| cw_exists := Ok true; cw_refresh := unreachable_target; cw_dq := false;
     cw_prepare := Ok tt; cw_cleans_up := λ _, false; cw_protocol_changed := Ok false;
     cw_process := λ _, r; cw_unwritable := λ _, Ok tt; cw_reset := unreachable_target |}.

Definition limits : Limits :=
  {| latency := 10; max_messages := None; max_bytes := 1000; max_decoded := None |}.

Definition s1 : Source :=
  (assign_partitions cfg 1 reached [0] (Ok {[ 0 := (0, 46) ]}) false (Ok tt) opened_member).1.
Definition s2 : Source := (take_in cfg (Demo.msg 0 41) (Ok tt) s1).1.
Definition s3 : Source := (take_in cfg (Demo.msg 0 42) (Ok tt) s2).1.
Definition s4 : Source := (take_in cfg (Demo.msg 0 45) (Ok tt) s3).1.
Definition s5 : Source := (close (Ok []) s4).1.
Definition batch : Batch := close_batch (s_fence s4) (s_buf s4) (s_decoder s4) [].
(** Once its commit failed, and once it landed. *)
Definition s6 : Source := (commit_batch cfg 20 (committing (Err outage)) batch s5).1.
Definition s7 : Source := (commit_batch cfg 20 (committing (Ok Run.log_view)) batch s5).1.

Lemma run_ok {A} (m : M A) s a : (m s).2 = Ok a → m s = ((m s).1, Ok a).
Proof. by destruct (m s); intros [= ->]. Qed.

Lemma run_err {A} (m : M A) s e : (m s).2 = Err e → m s = ((m s).1, Err e).
Proof. by destruct (m s); intros [= ->]. Qed.

Lemma reached_valid : valid_world reached.
Proof.
  split; [|done]. intros v [= <-].
  apply (no_checkpoint_valid _ _ 0 Run.log_view_views eq_refl).
  - vm_compute. reflexivity.
  - assert (E : t_version <$> history (hist "t" Run.t0) (0 + 1) = [41]) by (vm_compute; reflexivity).
    assert (H : Forall (λ v, 0 ≤ v < i64_max) (t_version <$> history (hist "t" Run.t0) (0 + 1)))
      by (rewrite E; repeat constructor; width_lia).
    by apply Forall_fmap in H.
Qed.

Lemma unreachable_steady now b s : steady cfg now unreachable_target b s.
Proof. split; [by split|]. intros s' changed. by intros [=]. Qed.

Lemma in_order_0 s m :
  msg_partition m = 0 → msg_mark m ∈ Run.topics 0 →
  forallb (λ x, (m_offset (msg_mark m) <=? m_offset x) || (m_offset x <? lower (view 0 (intake s)))
    || (m_offset (msg_mark m) <? lower (view 0 (intake s)))) (Run.topics 0) = true →
  in_order Run.topics s m.
Proof.
  intros Hp Hm Hall _. rewrite Hp. split; [done|]. intros x Hx Hl Hl'.
  rewrite forallb_forall in Hall. specialize (Hall x ltac:(by apply list_elem_of_In)). lia.
Qed.

Lemma run_s4 : lives Run.topics cfg true 5 s4.
Proof.
  exists 0, opened_member. split; [by split; [split|]|].
  apply rtc_l with (1, s1).
  { eapply (life_assign _ _ true 0 1 reached [0] (Ok {[ 0 := (0, 46) ]}) false (Ok tt)).
    - lia.
    - intros _. split; [apply reached_valid|].
      intros x [= <-] p lo hi [<- [= <- <-]]%lookup_singleton_Some. width_lia.
    - done.
    - apply run_ok. vm_compute. reflexivity. }
  assert (Hmsg : ∀ s o t, s_held s = None → t ≤ 5 → Demo.mark o ∈ Run.topics 0 →
    forallb (λ x, (o <=? m_offset x) || (m_offset x <? lower (view 0 (intake s)))
      || (o <? lower (view 0 (intake s)))) (Run.topics 0) = true →
    ((0 <=? messages (s_buf s)) && (messages (s_buf s) <? u64_max)) = true →
    (take_in cfg (Demo.msg 0 o) (Ok tt) s).2 = Ok tt →
    life Run.topics cfg true (t, s) (5, (take_in cfg (Demo.msg 0 o) (Ok tt) s).1)).
  { intros s o t Hh Ht Ho Hin Hc Hok. apply (life_message _ _ true t 5 s (Demo.msg 0 o) (Ok tt));
      [done| |intros _; split; [by apply in_order_0|lia]|by apply run_ok]. intros h. by rewrite Hh. }
  apply rtc_l with (5, s2); [apply Hmsg|apply rtc_l with (5, s3); [apply Hmsg|apply rtc_once, Hmsg]];
    try (vm_compute; reflexivity); try lia; [by right; left|by do 2 right; left|by do 3 right; left].
Qed.

Lemma closing : closes_now limits 0 20 s4 = true ∧ close (Ok []) s4 = (s5, Ok batch).
Proof. split; [vm_compute; reflexivity|]. apply run_ok. vm_compute. reflexivity. Qed.

Lemma run_commit r o :
  (commit_batch cfg 20 (committing r) batch s5).2 = Ok o →
  lives Run.topics cfg true 20 (commit_batch cfg 20 (committing r) batch s5).1.
Proof.
  intros Ho. destruct run_s4 as (t0 & s0 & Hs & Hrun). exists t0, s0. split; [done|].
  eapply rtc_r; [exact Hrun|]. destruct closing as [H1 H2].
  eapply (life_close _ _ true 5 20 20 limits 0 (Ok []) (committing r) s4 s5 batch).
  - lia.
  - lia.
  - done.
  - done.
  - intros _. split; intros; apply unreachable_steady.
  - by apply run_ok.
Qed.

(** Once its commit failed for a reason an operator has to see to. *)
Definition unwritable : Error := KafkaTxnRetention "uri" "interval 7 days".
Definition s8 : Source := (commit_batch cfg 20 (committing (Err unwritable)) batch s5).1.

Lemma run_s8 : lives Run.topics cfg true 20 s8.
Proof. apply (run_commit (Err unwritable) Waiting). vm_compute. reflexivity. Qed.

(** The failed commit tried again when it is due, and failing again. *)
Definition nothing_due : PollWorld :=
  {| pw_recheck := unreachable_target; pw_watermarks := λ _, Err outage; pw_fed := Ok tt |}.
Definition second_try : Instant := 20 + seconds 1.
Definition s6' : Source := (due_work cfg second_try nothing_due s6).1.
Definition s9 : Source := (commit_batch cfg second_try (committing (Err outage)) batch s6').1.

Lemma run_s6 : lives Run.topics cfg true 20 s6.
Proof. apply (run_commit (Err outage) Waiting). vm_compute. reflexivity. Qed.

Lemma run_s7 : lives Run.topics cfg true 20 s7.
Proof. apply (run_commit (Ok Run.log_view) Committed). vm_compute. reflexivity. Qed.
End MemberRun.

(** ** A partition that is blocked with rows in the buffer *)

Module Reread.
Import MemberRun.

(** The leader forgets an offset that was read, and has it again when the recheck comes. *)
Definition shrunk : result Error (gmap Z (Z * Z)) := Ok {[ 0 := (0, 42) ]}.
Definition grown : list Z → result Error (gmap Z (Z * Z)) := λ _, Ok {[ 0 := (0, 46) ]}.
Definition at_recheck : Instant := 6 + seconds 60.

Definition r1 : Source := (out_of_range cfg 6 shrunk s3).1.
Definition r2 : Source := (recheck_blocked cfg at_recheck reached grown r1).1.
Definition r3 : Source := release at_recheck (λ _, true) r2.
Definition r4 : Source := (take_in cfg (Demo.msg 0 41) (Ok tt) r3).1.
Definition r5 : Source := (take_in cfg (Demo.msg 0 42) (Ok tt) r4).1.
Definition r6 : Source := (take_in cfg (Demo.msg 0 45) (Ok tt) r5).1.
Definition r7 : Source := (close (Ok []) r6).1.
Definition reread_batch : Batch := close_batch (s_fence r6) (s_buf r6) (s_decoder r6) [].

Lemma ok1 : (out_of_range cfg 6 shrunk s3).2 = Ok tt.
Proof. vm_compute. reflexivity. Qed.
Lemma ok2 : (recheck_blocked cfg at_recheck reached grown r1).2 = Ok tt.
Proof. vm_compute. reflexivity. Qed.
Lemma ok4 : (take_in cfg (Demo.msg 0 41) (Ok tt) r3).2 = Ok tt.
Proof. vm_compute. reflexivity. Qed.
Lemma ok5 : (take_in cfg (Demo.msg 0 42) (Ok tt) r4).2 = Ok tt.
Proof. vm_compute. reflexivity. Qed.
Lemma ok6 : (take_in cfg (Demo.msg 0 45) (Ok tt) r5).2 = Ok tt.
Proof. vm_compute. reflexivity. Qed.
Lemma ok7 : (close (Ok []) r6).2 = Ok reread_batch.
Proof. vm_compute. reflexivity. Qed.
Lemma ok8 : (try_commit cfg 7 (committing (Ok Run.log_view)) reread_batch r7).2 = Ok Committed.
Proof. vm_compute. reflexivity. Qed.
End Reread.

(** ** Properties *)



(** A batch that is closed has, of every partition it read, the offset the member holds
    of it as its base and all the topic's messages after that base up to its last offset. *)
Theorem a_closed_batch_is_whole T cfg t now s limits decoded finished s' b :
  (∀ p, topic (T p)) → lives T cfg true t s → t ≤ now →
  closes_now limits decoded now s = true → close finished s = (s', Ok b) →
  b_ranges b ≠ ∅ ∧ ∀ p first last, b_ranges b !! p = Some (first, last) →
    b_bases b !! p = Some (base_offset s p) ∧
    b_rows b !! p = Some (between (T p) (start_of s p) (last + 1)) ∧ start_of s p ≤ last.
Proof.
  intros HT Hl Ht Hc H. pose proof (lives_ready T HT cfg t s Hl) as Hr.
  apply (ready_state_later T t now s Ht) in Hr.
  destruct (close_buffer_ready T _ _ _ _ _ _ _ Hr Hc H) as (Hs & _ & Hf & _).
  destruct (sd_batch T _ _ Hs b eq_refl) as [Hb _]. split; [apply (bw_some T _ _ Hb)|].
  intros p first last Hp.
  destruct (closed_fields _ _ _ _ H) as (_ & Hu & _ & Hrow).
  destruct (Hrow p ltac:(by eexists)) as [Hbase _].
  destruct (bw_range T _ _ Hb p first last Hp) as (base & rows & Hb1 & Hb2 & -> & Hle & _).
  rewrite Hbase in Hb1. injection Hb1 as <-. rewrite Hb2. unfold start_of.
  unfold batch_start in *. rewrite Hu in *. done.
Qed.

Lemma a_closed_batch_is_whole_witness :
  b_rows MemberRun.batch !! 0 = Some [Demo.mark 42; Demo.mark 45].
Proof.
  destruct (a_closed_batch_is_whole Run.topics MemberRun.cfg 5 20 MemberRun.s4 MemberRun.limits 0
    (Ok []) MemberRun.s5 MemberRun.batch Run.topics_sorted MemberRun.run_s4 ltac:(lia)
    (proj1 MemberRun.closing) (proj2 MemberRun.closing)) as [_ H].
  assert (E : b_ranges MemberRun.batch !! 0 = Some (42, 45)) by (vm_compute; reflexivity).
  destruct (H 0 42 45 E) as (_ & -> & _). vm_compute. reflexivity.
Defined.

(** A batch that is held stays whole however long it is held, and the buffer stays
    empty: of every partition it read it has all the messages between its base and its
    last offset; nothing is read meanwhile. *)
Theorem a_held_batch_stays_whole T cfg t s h :
  (∀ p, topic (T p)) → lives T cfg true t s → s_held s = Some h →
  ranges (s_buf s) = ∅ ∧ (dom (s_parts s) ⊆ s_paused s ∨ h_due h ≤ t) ∧
  ∀ p first last, b_ranges (h_batch h) !! p = Some (first, last) →
    is_Some (s_parts s !! p) ∧
    ∃ base, b_bases (h_batch h) !! p = Some base ∧
      b_rows (h_batch h) !! p = Some (between (T p) (batch_start s base p) (last + 1)).
Proof.
  intros HT Hl Hh. pose proof (lives_ready T HT cfg t s Hl) as Hr.
  pose proof (rs_sound T _ _ Hr) as Hs. rewrite Hh in Hs.
  destruct (sd_batch T _ _ Hs (h_batch h) eq_refl) as [Hb He]. split; [done|].
  split; [exact (rs_held T _ _ Hr h Hh)|]. intros p first last Hp.
  split; [apply (bw_owned T _ _ Hb); by eexists|].
  destruct (bw_range T _ _ Hb p first last Hp) as (base & rows & Hb1 & Hb2 & -> & _).
  by exists base.
Qed.

Lemma a_held_batch_stays_whole_witness :
  ∃ h, s_held MemberRun.s6 = Some h ∧
    b_rows (h_batch h) !! 0 = Some [Demo.mark 42; Demo.mark 45].
Proof.
  destruct (s_held MemberRun.s6) as [h|] eqn:E; [|exfalso; revert E; vm_compute; congruence].
  exists h. split; [done|].
  destruct (a_held_batch_stays_whole Run.topics MemberRun.cfg 20 MemberRun.s6 h
    Run.topics_sorted MemberRun.run_s6 E) as (_ & _ & H).
  assert (Eh : h_batch h = MemberRun.batch).
  { assert (Eq : h_batch <$> s_held MemberRun.s6 = Some MemberRun.batch) by (vm_compute; reflexivity).
    rewrite E in Eq. by injection Eq. }
  rewrite Eh in *.
  assert (Er : b_ranges MemberRun.batch !! 0 = Some (42, 45)) by (vm_compute; reflexivity).
  destruct (H 0 42 45 Er) as (_ & base & Hb & ->).
  assert (Eb : b_bases MemberRun.batch !! 0 = Some (Some 41)) by (vm_compute; reflexivity).
  rewrite Eb in Hb. injection Hb as <-. vm_compute. reflexivity.
Defined.

(** C16: nothing waits for an event that no longer comes: at every point of its life,
    orderly or not, a member whose pipeline is blocked has a batch to try again or a recheck
    due, and one with a blocked partition has a recheck due.  All that is asked is that the
    group gives partitions only to a member that gave up its own. *)
Theorem nothing_waits_for_ever T cfg orderly t s :
  lives T cfg orderly t s →
  (is_Some (s_blocked s) → is_Some (s_held s) ∨ is_Some (s_next_recheck s)) ∧
  (∀ p b since, s_parts s !! p = Some (Blocked b since) → is_Some (s_next_recheck s)).
Proof.
  intros Hl. destruct (lives_awake T cfg orderly t s Hl) as [_ [H1 H2]]. split; [done|].
  intros p b since Hp. apply (H2 p). by rewrite Hp.
Qed.

Lemma nothing_waits_for_ever_witness :
  is_Some (s_blocked MemberRun.s8) ∧
  (is_Some (s_held MemberRun.s8) ∨ is_Some (s_next_recheck MemberRun.s8)).
Proof.
  assert (H : is_Some (s_blocked MemberRun.s8)) by (vm_compute; by eexists).
  split; [exact H|].
  apply (nothing_waits_for_ever Run.topics MemberRun.cfg true 20 MemberRun.s8 MemberRun.run_s8), H.
Defined.

(** A commit that lands carries exactly what its batch read: the offset it asserts of
    each partition is the last one read of it, the rows committed beside it are all the
    topic's messages since the offset the batch was read from, any other offset it asserts
    is one the table already holds, and afterwards the member holds what it asserted. *)
Theorem a_commit_takes_the_table_to_its_batch T cfg t now s limits decoded finished s1 b w s' :
  (∀ p, topic (T p)) → lives T cfg true t s → t ≤ now →
  closes_now limits decoded now s = true → close finished s = (s1, Ok b) →
  steady cfg now (cw_refresh w) b s1 → try_commit cfg now w b s1 = (s', Ok Committed) →
  ∃ offsets, cw_process w offsets = Ok (s_target s') ∧ o_ranges offsets = b_ranges b ∧
    ∀ p, match b_ranges b !! p with
         | Some (_, last) =>
             o_assert offsets !! p = Some last ∧ base_offset s' p = Some last ∧
             b_rows b !! p = Some (between (T p) (start_of s p) (last + 1))
         | None => ∀ v, o_assert offsets !! p = Some v → base_offset s' p = Some v
         end.
Proof.
  intros HT Hl Ht Hc H Hst Hcommit. pose proof (lives_ready T HT cfg t s Hl) as Hr.
  apply (ready_state_later T t now s Ht) in Hr.
  destruct (close_buffer_ready T _ _ _ _ _ _ _ Hr Hc H) as (Hs & _).
  destruct (try_commit_lands T HT cfg now w b s1 s' Hs Hst Hcommit)
    as (s0 & f & offsets & view & Hs0 & Hm & Hf & _ & -> & Hproc & <- & Hbase).
  exists (offsets_for cfg (set_fence f s0) b (cw_cleans_up w (s_target s0))).
  split; [exact Hproc|]. split; [unfold offsets_for; by destruct (assert_map _ _ _)|].
  destruct (sd_batch T _ _ Hs0 b eq_refl) as [Hb0 _]. destruct (sd_batch T _ _ Hs b eq_refl) as [Hb _].
  destruct (closed_fields _ _ _ _ H) as (_ & Hu & _ & Hrow).
  intros p. rewrite Hbase. clear Hbase Hproc Hcommit.
  assert (Hrec := committed_offset T cfg now s0 b f (s_target s')
    (cw_cleans_up w (s_target s0)) p Hb0 Hm Hf). rewrite Hrec.
  rewrite offsets_for_assert, assert_map_lookup.
  destruct (b_ranges b !! p) as [[first last]|] eqn:E.
  - split; [done|]. split; [done|].
    destruct (Hrow p ltac:(by eexists)) as [Hb1 _].
    destruct (bw_range T _ _ Hb p first last E) as (base & rows & Hb2 & -> & -> & _).
    rewrite Hb1 in Hb2. injection Hb2 as <-. unfold start_of, batch_start. by rewrite Hu.
  - intros v. case_decide; [|done]. unfold base_offset, base_of. cbn [set_fence s_fence]. by rewrite Hf.
Qed.

Lemma a_commit_takes_the_table_to_its_batch_witness :
  base_offset (try_commit MemberRun.cfg 20 (MemberRun.committing (Ok Run.log_view))
    MemberRun.batch MemberRun.s5).1 0 = Some 45.
Proof.
  assert (Hok : (try_commit MemberRun.cfg 20 (MemberRun.committing (Ok Run.log_view))
    MemberRun.batch MemberRun.s5).2 = Ok Committed) by (vm_compute; reflexivity).
  apply MemberRun.run_ok in Hok.
  destruct (a_commit_takes_the_table_to_its_batch Run.topics MemberRun.cfg 5 20 MemberRun.s4
    MemberRun.limits 0 (Ok []) MemberRun.s5 MemberRun.batch (MemberRun.committing (Ok Run.log_view)) _
    Run.topics_sorted MemberRun.run_s4
    ltac:(lia) (proj1 MemberRun.closing) (proj2 MemberRun.closing)
    (MemberRun.unreachable_steady 20 _ _) Hok) as (offsets & _ & _ & H).
  specialize (H 0).
  assert (E : b_ranges MemberRun.batch !! 0 = Some (42, 45)) by (vm_compute; reflexivity).
  rewrite E in H. exact (proj1 (proj2 H)).
Defined.

(** ** Retries *)

(** At [t], a batch's commit has failed [n] times, and then once more, for reasons that
    pass; it was tried again each time it was due. *)
Inductive fails cfg (b : Batch) : nat → Instant → Source → Prop :=
  | fails_once now w e s s1 s' o :
      s_last_backoff s = None → try_commit cfg now w b s = (s1, Err e) →
      kafka_class e = Transient → commit_batch cfg now w b s = (s', Ok o) →
      fails cfg b 0 now s'
  | fails_again n t now w cw e s s1 s2 s' o :
      fails cfg b n t s → due_work cfg now w s = (s1, Ok (Some (W_Retry b))) →
      try_commit cfg now cw b s1 = (s2, Err e) → kafka_class e = Transient →
      commit_batch cfg now cw b s1 = (s', Ok o) → fails cfg b (S n) now s'.

(** A handler that leaves the last backoff alone. *)
Definition same_backoff (s s' : Source) : Prop := s_last_backoff s' = s_last_backoff s.

Lemma refresh_same_backoff cfg now w s s' r :
  refresh_and_reset cfg now w s = (s', r) → same_backoff s s'.
Proof.
  intros H. destruct r as [changed|e].
  - unfold refresh_and_reset in H. apply bindM_ok in H as (s0 & before & [= <- <-] & H).
    apply bindM_ok in H as (s1 & [] & H1 & H). apply refresh_target_spec in H1 as (v & -> & _).
    apply bindM_ok in H as (s2 & [] & H2 & H). unfold reset_fence in H2.
    destruct (reset _ _ _) as [f r]. injection H2 as <- _. by injection H as <- _.
  - by apply refresh_and_reset_err in H as (v & f & -> & _).
Qed.

Lemma reposition_same_backoff now changed survives s :
  same_backoff s (reposition_changed now changed survives s).
Proof.
  unfold reposition_changed, discard_moved_buffer, same_backoff.
  destruct (_ && _); unfold reposition; by destruct (decide _).
Qed.

Lemma freshen_same_backoff cfg now w b s s' r :
  freshen cfg now w b s = (s', r) → same_backoff s s'.
Proof.
  intros E. assert (Hrefresh : ∀ s0 r0, (let! changed := refresh_and_reset cfg now (cw_refresh w) in
    modify (reposition_changed now changed (Some b))) s = (s0, r0) → same_backoff s s0).
  { intros s2 r2 Hr. unfold bindM, modify in Hr.
    destruct (refresh_and_reset cfg now (cw_refresh w) s) as [s1 [changed|e]] eqn:Er;
      apply refresh_same_backoff in Er; injection Hr as <- <-; [|done].
    unfold same_backoff in *. rewrite <- Er. apply reposition_same_backoff. }
  unfold freshen in E. unfold bindM at 1, gets at 1 in E. destruct (HANDLE_MAX_AGE <=? _).
  - by apply Hrefresh in E.
  - unfold bindM at 1, liftM, retM at 1 in E. unfold bindM in E.
    destruct (cw_exists w) as [[]|e]; simpl in E; [by injection E as <- _| |by injection E as <- _].
    by apply Hrefresh in E.
Qed.

Lemma try_commit_same_backoff cfg now w b s s' e :
  try_commit cfg now w b s = (s', Err e) → same_backoff s s'.
Proof.
  intros H. unfold try_commit in H. unfold bindM at 1 in H.
  destruct (freshen cfg now w b s) as [s0 r0] eqn:E. apply freshen_same_backoff in E.
  destruct r0 as [u|e0]; [|by injection H as <- <-].
  unfold bindM at 1, gets at 1 in H. destruct (moved_in s0 b) as [p|]; [by injection H as <- <-|].
  destruct (undecodable_refusal _ _ _) as [e0|]; [by injection H as <- <-|].
  unfold bindM at 1, liftM at 1 in H. destruct (cw_prepare w); [|by injection H as <- <-].
  unfold bindM at 1 in H. destruct (verify_fence (b_ranges b) s0) as [s1 r1] eqn:Ev.
  apply verify_fence_spec in Ev as (f & -> & _). destruct r1; [|by injection H as <- <-].
  unfold bindM at 1, gets at 1 in H. unfold bindM at 1, liftM at 1 in H.
  destruct (cw_protocol_changed w) as [[]|]; [by injection H as <- <-| |by injection H as <- <-].
  unfold bindM at 1, liftM at 1 in H. destruct (cw_process w _) as [v|]; [|by injection H as <- <-].
  unfold bindM at 1, modify at 1 in H. unfold bindM at 1, modify at 1 in H.
  by destruct (cw_unwritable w v).
Qed.

(** What a commit that failed for a reason that passes leaves. *)
Lemma transient_failure cfg now w b e s s1 s' o :
  try_commit cfg now w b s = (s1, Err e) → kafka_class e = Transient →
  commit_batch cfg now w b s = (s', Ok o) →
  let backoff := match s_last_backoff s with
                 | None => BACKOFF_MIN
                 | Some l => Z.min (Z.max (l * 2) BACKOFF_MIN) BACKOFF_MAX
                 end in
  s_last_backoff s' = None ∧
  s_held s' = Some {| h_batch := b; h_due := now + backoff; h_backoff := backoff; h_retrying := true |}.
Proof.
  intros Ht Hc H. unfold commit_batch, bindM, attempt in H. rewrite Ht in H.
  apply try_commit_same_backoff in Ht. unfold after_failure in H.
  rewrite decide_False in H by (by rewrite Hc).
  unfold hold_for_class, bindM, gets, modify, retM in H. rewrite Hc, Ht in H.
  by injection H as <- _.
Qed.

Lemma fails_held cfg b n t s :
  fails cfg b n t s →
  s_last_backoff s = None ∧
  s_held s = Some {| h_batch := b; h_due := t + Z.min (seconds (2 ^ Z.of_nat n)) BACKOFF_MAX;
    h_backoff := Z.min (seconds (2 ^ Z.of_nat n)) BACKOFF_MAX; h_retrying := true |}.
Proof.
  induction 1 as [now w e s s1 s' o Hl Ht Hc H|n t now w cw e s s1 s2 s' o _ [_ Hh] Hw Ht Hc H].
  - apply (transient_failure _ _ _ _ _ _ _ _ _ Ht Hc) in H. by rewrite Hl in H.
  - apply (transient_failure _ _ _ _ _ _ _ _ _ Ht Hc) in H.
    unfold due_work in Hw. unfold bindM at 1, gets at 1 in Hw. rewrite Hh in Hw.
    destruct (_ <=? now); [|unfold bindM, retM in Hw; by destruct (feed_due cfg now w s) as [? []]].
    injection Hw as <-. cbn [s_last_backoff set_last_backoff h_backoff] in H.
    rewrite Nat2Z.inj_succ, Z.pow_succ_r by lia.
    assert (Hp : 0 < 2 ^ Z.of_nat n) by (apply Z.pow_pos_nonneg; lia).
    replace (Z.min (seconds (2 * 2 ^ Z.of_nat n)) BACKOFF_MAX) with
      (Z.min (Z.max (Z.min (seconds (2 ^ Z.of_nat n)) BACKOFF_MAX * 2) BACKOFF_MIN) BACKOFF_MAX);
      [exact H|]. unfold BACKOFF_MAX, BACKOFF_MIN, seconds in *. lia.
Qed.

(** A batch whose commit keeps failing for reasons that pass is kept and tried again
    after one second, then two, four and so on, and never later than after sixty. *)
Theorem retries_back_off_to_a_minute cfg b n t s :
  fails cfg b n t s →
  ∃ h, s_held s = Some h ∧ h_batch h = b ∧ h_retrying h = true ∧
    h_due h = t + Z.min (seconds (2 ^ Z.of_nat n)) (seconds 60) ∧
    t + seconds 1 ≤ h_due h ≤ t + seconds 60.
Proof.
  intros [_ Hh]%fails_held. eexists. split; [exact Hh|]. cbn [h_batch h_retrying h_due].
  unfold BACKOFF_MAX, seconds.
  assert (Hp : 0 < 2 ^ Z.of_nat n) by (apply Z.pow_pos_nonneg; lia).
  repeat split; lia.
Qed.

Lemma retries_back_off_to_a_minute_witness :
  h_due <$> s_held MemberRun.s9 = Some (MemberRun.second_try + seconds 2).
Proof.
  destruct (retries_back_off_to_a_minute MemberRun.cfg MemberRun.batch 1 MemberRun.second_try
    MemberRun.s9) as (h & Hh & _ & _ & Hd & _).
  - eapply (fails_again MemberRun.cfg MemberRun.batch 0 20 MemberRun.second_try
      MemberRun.nothing_due (MemberRun.committing (Err MemberRun.outage)) MemberRun.outage
      MemberRun.s6 MemberRun.s6').
    + eapply (fails_once MemberRun.cfg MemberRun.batch 20
        (MemberRun.committing (Err MemberRun.outage)) MemberRun.outage MemberRun.s5).
      * reflexivity.
      * apply MemberRun.run_err. vm_compute. reflexivity.
      * reflexivity.
      * apply (MemberRun.run_ok _ _ Waiting). vm_compute. reflexivity.
    + apply MemberRun.run_ok. vm_compute. reflexivity.
    + apply MemberRun.run_err. vm_compute. reflexivity.
    + reflexivity.
    + apply (MemberRun.run_ok _ _ Waiting). vm_compute. reflexivity.
  - rewrite Hh. cbn [fmap option_fmap option_map]. rewrite Hd. reflexivity.
Defined.

