(* ===== verification/Loop.v ===== *)
(** * Loop: the step of a Kafka pipeline (src/kafka/step.rs)

    [Pipeline::step_kafka]: poll until a batch closes or a tick passes, and commit what
    closed.  What one pass of the loop gets from librdkafka and the clock is an [Iteration].
    The theorem is a refinement: a step of the loop is a run of [MemberCorrect.life], so all
    that is proved of a member's life holds between the steps of the program. *)

From Stdlib Require Import ZArith Lia.
From stdpp Require Import base list strings gmap.
From S2P Require Import Prelude Error Partitions Topic Takeover TxnLog Fence Start Member.
From S2P Require Import MemberSound MemberCorrect ExactlyOnce MemberProps.

Open Scope Z_scope.
Open Scope ddi_scope.

(** ** Data *)

(** What a rebalance callback queued ([Event] of src/kafka/context.rs), with what the
    requests its handler makes answer. *)
Inductive Event :=
  | E_Assign (ps : list Z) (w : RefreshWorld) (watermarks : result Error (gmap Z (Z * Z)))
      (assigned : result Error unit)
  | E_Revoke (w : CommitWorld) (finished : result Error (list Undecodable)) (in_time : bool)
      (unassigned : result Error unit)
  | E_Lost (unassigned : result Error unit)
  | E_RebalanceError (unassigned : result Error unit)
  | E_Fatal (detail : string).

(** What [recv] gave: a message and the decoder's answer, an offset out of range and the
    watermarks' answer, an error that ends the consumer, or nothing of consequence. *)
Inductive Polled :=
  | P_Message (m : Message) (fed : result Error unit)
  | P_OffsetReset (watermarks : result Error (gmap Z (Z * Z)))
  | P_Ends (e : Error)
  | P_Nothing.

Record Iteration := {
  it_now : Instant;
  it_due : PollWorld;
  it_resumed : Z → bool;
  it_polled : Polled;
  it_events : list Event;
  (** The clock once [recv] returned. *)
  it_then : Instant;
  it_decoded : Z;
  it_finished : result Error (list Undecodable);
}.

Section Loop.
Context (cfg : Config) (limits : Limits).

(** ** The step *)

(** [Pipeline::handle_events], one event. *)
Definition handle_event (now : Instant) (e : Event) : M (option StepOutcome) :=
  match e with
  | E_Assign ps w watermarks assigned =>
      do! assign_partitions cfg now w ps watermarks false assigned in retM None
  | E_Revoke w finished in_time unassigned =>
      flush_then_unassign cfg now w finished in_time unassigned
  | E_Lost unassigned | E_RebalanceError unassigned =>
      do! drop_and_unassign unassigned in retM None
  | E_Fatal detail => failM (KafkaClient Fatal detail)
  end.

Fixpoint handle_events (now : Instant) (pending_outcome : option StepOutcome) (es : list Event)
    : M (option StepOutcome) :=
  match es with
  | [] => retM pending_outcome
  | e :: es =>
      let! o := handle_event now e in
      handle_events now (match o with Some _ => o | None => pending_outcome end) es
  end.

(** [Pipeline::consumption_error], and [Pipeline::take]. *)
Definition handle_polled (now : Instant) (polled : Polled) : M unit :=
  match polled with
  | P_Message m fed => take_in cfg m fed
  | P_OffsetReset watermarks => out_of_range cfg now watermarks
  | P_Ends e => failM e
  | P_Nothing => retM tt
  end.

(** One pass of the loop of [Pipeline::next_work]; [None] goes round again.  The pending
    outcome is taken in the pass that sets it, unless the pass fails, and then the pipeline is
    reopened and its source with it. *)
Definition poll (tick_end : Instant) (it : Iteration) : M (option Work) :=
  let! due := due_work cfg (it_now it) (it_due it) in
  match due with
  | Some work => retM (Some work)
  | None =>
      do! modify (λ s, if may_release s then release (it_now it) (it_resumed it) s else s) in
      let! s := gets (λ s, s) in
      let! finished := liftM (once_done cfg (it_now it) s) in
      match finished with
      | Some work => retM (Some work)
      | None =>
          let! pending_outcome := handle_events (it_then it) None (it_events it) in
          do! handle_polled (it_then it) (it_polled it) in
          match pending_outcome with
          | Some o => retM (Some (W_Committed o))
          | None =>
              let! full := gets (closes_now limits (it_decoded it) (it_then it)) in
              if full : bool
              then let! b := close (it_finished it) in retM (Some (W_Batch b))
              else retM (if tick_end <=? it_then it then Some W_Waiting else None)
          end
      end
  end.

(** [Pipeline::next_work], as far as the passes given. *)
Fixpoint next_work (tick_end : Instant) (its : list Iteration) : M (option Work) :=
  match its with
  | [] => retM None
  | it :: its =>
      let! work := poll tick_end it in
      match work with
      | Some work => retM (Some work)
      | None => next_work tick_end its
      end
  end.

(** What [step_kafka] makes of the work found. *)
Definition finish_step (later : Instant) (cw : CommitWorld) (work : Work) : M StepOutcome :=
  match work with
  | W_Waiting => retM Waiting
  | W_Done => retM CaughtUp
  | W_Committed o => retM o
  | W_Batch b | W_Retry b => commit_batch cfg later cw b
  end.

(** [Pipeline::step_kafka] *)
Definition step_kafka (tick_end : Instant) (its : list Iteration) (later : Instant)
    (cw : CommitWorld) : M (option StepOutcome) :=
  do! modify (set_reset_this_step false) in
  let! work := next_work tick_end its in
  match work with
  | None => retM None
  | Some work => let! o := finish_step later cw work in retM (Some o)
  end.

(** ** What the world may answer *)

Context (T : Z → list MessageMark) (orderly : bool).

Definition event_env (now : Instant) (e : Event) (s : Source) : Prop :=
  match e with
  | E_Assign ps w watermarks _ =>
      (orderly = true → valid_world w ∧ ∀ x, watermarks = Ok x → watermarks_ok x) ∧ s_parts s = ∅
  | E_Revoke w finished _ _ => orderly = true → flush_env cfg now w finished s
  | _ => True
  end.

Fixpoint events_env (now : Instant) (es : list Event) (s : Source) : Prop :=
  match es with
  | [] => True
  | e :: es =>
      event_env now e s ∧ ∀ s' o, handle_event now e s = (s', Ok o) → events_env now es s'
  end.

Definition polled_env (polled : Polled) (s : Source) : Prop :=
  match polled with
  | P_Message m _ => orderly = true → in_order T s m ∧ 0 ≤ messages (s_buf s) < u64_max
  | _ => True
  end.

(** The premises of [life], at each point of one pass that comes to it. *)
Record poll_env (t : Instant) (it : Iteration) (s : Source) : Prop := {
  pe_now : t ≤ it_now it;
  pe_then : it_now it ≤ it_then it;
  pe_due : orderly = true → due_env cfg (it_now it) (it_due it) s;
  pe_rest s1 : due_work cfg (it_now it) (it_due it) s = (s1, Ok None) →
    let s2 := if may_release s1 then release (it_now it) (it_resumed it) s1 else s1 in
    events_env (it_then it) (it_events it) s2 ∧
    ∀ s3 o, handle_events (it_then it) None (it_events it) s2 = (s3, Ok o) →
      polled_env (it_polled it) s3;
}.

Fixpoint work_env (tick_end t : Instant) (its : list Iteration) (s : Source) : Prop :=
  match its with
  | [] => True
  | it :: its =>
      poll_env t it s ∧
      ∀ s', poll tick_end it s = (s', Ok None) → work_env tick_end (it_then it) its s'
  end.

(** The last reading of the clock before the commit. *)
Definition last_now (t : Instant) (its : list Iteration) : Instant :=
  fold_left (λ t it, Z.max t (it_then it)) its t.

Definition step_env (tick_end t : Instant) (its : list Iteration) (later : Instant)
    (cw : CommitWorld) (s : Source) : Prop :=
  work_env tick_end t its (set_reset_this_step false s) ∧ last_now t its ≤ later ∧
  ∀ s' b, next_work tick_end its (set_reset_this_step false s) = (s', Ok (Some (W_Batch b))) ∨
    next_work tick_end its (set_reset_this_step false s) = (s', Ok (Some (W_Retry b))) →
    orderly = true → commit_env cfg later cw b s'.

(** ** The refinement *)

Lemma handle_event_life t now e s s' o :
  grounded s → t ≤ now → event_env now e s → handle_event now e s = (s', Ok o) →
  life T cfg orderly (t, s) (now, s') ∧ s_held s' = None.
Proof.
  intros Hr Ht Henv H.
  assert (Hun : ∀ un s1 s2 r, unassign un s1 = (s2, r) → s_held s2 = None).
  { intros un s1 s2 r. unfold unassign, bindM, modify, liftM. by intros [= <- _]. }
  destruct e as [ps w wm assigned|w fin in_time un|un|un|d]; [| | | |done].
  - destruct Henv as (Hw & Hp). unfold handle_event in H.
    apply bindM_ok in H as (s1 & [] & H & [= <- _]). split; [by eapply life_assign|].
    eapply assign_held; [|exact H]. by apply Hr.
  - split; [by eapply life_revoke|]. unfold handle_event, flush_then_unassign in H.
    unfold bindM at 1, gets at 1 in H. apply bindM_ok in H as (s1 & o1 & _ & H).
    apply bindM_ok in H as (s2 & [] & H & [= <- _]). by eapply Hun.
  - apply bindM_ok in H as (s1 & [] & H & [= <- _]). split; [by eapply life_lost|by eapply Hun].
  - apply bindM_ok in H as (s1 & [] & H & [= <- _]). split; [by eapply life_lost|by eapply Hun].
Qed.

Lemma handle_events_life t now es s pend s' o :
  grounded s → t ≤ now → events_env now es s →
  handle_events now pend es s = (s', Ok o) →
  ∃ t', t ≤ t' ≤ now ∧ rtc (life T cfg orderly) (t, s) (t', s') ∧
    (t' = t ∧ s' = s ∨ s_held s' = None).
Proof.
  revert t s pend. induction es as [|e es IH]; intros t s pend Hr Ht Henv H.
  - injection H as <- _. exists t. split; [lia|]. split; [done|by left].
  - destruct Henv as [He Hrest]. cbn [handle_events] in H.
    apply bindM_ok in H as (s1 & o1 & H1 & H).
    destruct (handle_event_life t now e s s1 o1 Hr Ht He H1) as [Hl Hh].
    pose proof (life_grounded T cfg orderly _ _ _ _ Hr Hl) as Hr1.
    destruct (IH now s1 _ Hr1 ltac:(lia) (Hrest _ _ H1) H) as (t' & Ht' & Hrun & Hcase).
    exists t'. split; [lia|]. split; [by eapply rtc_l|].
    destruct Hcase as [[_ ->]|?]; by right.
Qed.

(** What was found, and the events of the member's life that came to it. *)
Definition found (t : Instant) (s : Source) (bound : Instant) (r : option Work) (s' : Source)
    : Prop :=
  match r with
  | Some (W_Retry b) =>
      ∃ t1 s1 now w, rtc (life T cfg orderly) (t, s) (t1, s1) ∧ t1 ≤ now ≤ bound ∧
        (orderly = true → due_env cfg now w s1) ∧ due_work cfg now w s1 = (s', Ok (Some (W_Retry b)))
  | Some (W_Batch b) =>
      ∃ t1 s1 now decoded finished, rtc (life T cfg orderly) (t, s) (t1, s1) ∧ t1 ≤ now ≤ bound ∧
        closes_now limits decoded now s1 = true ∧ close finished s1 = (s', Ok b)
  | _ => rtc (life T cfg orderly) (t, s) (bound, s')
  end.

Lemma found_later t s bound bound' r s' :
  bound ≤ bound' → found t s bound r s' → found t s bound' r s'.
Proof.
  intros Hb. assert (Hw : rtc (life T cfg orderly) (t, s) (bound, s') → rtc (life T cfg orderly) (t, s) (bound', s')).
  { intros H. eapply rtc_r; [exact H|]. by apply life_wait. }
  destruct r as [[| |o|b|b]|]; try exact Hw.
  - intros (t1 & s1 & now & d & f & H1 & H2 & H3). exists t1, s1, now, d, f. split; [done|]. split; [lia|done].
  - intros (t1 & s1 & now & w & H1 & H2 & H3). exists t1, s1, now, w. split; [done|]. split; [lia|done].
Qed.

Lemma found_trans t s t1 s1 bound r s' :
  rtc (life T cfg orderly) (t, s) (t1, s1) → found t1 s1 bound r s' → found t s bound r s'.
Proof.
  intros H0. unfold found.
  destruct r as [[| |o|b|b]|]; try (intros H1; by transitivity (t1, s1)).
  - intros (t2 & s2 & now & d & f & H1 & H2). exists t2, s2, now, d, f. split; [by transitivity (t1, s1)|done].
  - intros (t2 & s2 & now & w & H1 & H2). exists t2, s2, now, w. split; [by transitivity (t1, s1)|done].
Qed.

(** A message once the events are handled: a batch that is held is not due yet. *)
Lemma handle_polled_life t now polled s s' :
  t ≤ now → (∀ h, s_held s = Some h → t < h_due h) →
  polled_env polled s → handle_polled now polled s = (s', Ok tt) → life T cfg orderly (t, s) (now, s').
Proof.
  intros Ht Hh Henv H. destruct polled as [m fed|wm|e|].
  - by eapply life_message.
  - by eapply life_out_of_range.
  - done.
  - injection H as <-. by apply life_wait.
Qed.

(** A batch still held once the work that was due is done is due later. *)
Lemma due_none_held now w s s' :
  due_work cfg now w s = (s', Ok None) → ∀ h, s_held s' = Some h → now < h_due h.
Proof.
  intros H h Hh. unfold due_work in H. unfold bindM at 1, gets at 1 in H.
  destruct (s_held s) as [h0|] eqn:Eh.
  - destruct (Z.leb_spec (h_due h0) now).
    + unfold bindM at 1, modify at 1 in H. unfold bindM at 1, modify at 1 in H.
      set (s1 := set_last_backoff _ _) in *. assert (Hh1 : s_held s1 = None) by done.
      destruct (_ && _); [|done]. unfold bindM, retM in H.
      unfold recheck_for_batch, bindM, attempt, gets, modify, retM in H.
      destruct (refresh_and_reset cfg now (pw_recheck w) s1) as [s2 [changed|e]] eqn:E;
        apply (refresh_kept cfg) in E; pose proof (kp_held _ _ E) as Hh2.
      * destruct (bool_decide _); [done|]. injection H as <-. simpl in Hh.
        rewrite (kp_held _ _ (reposition_kept now changed None s2)) in Hh. congruence.
      * case_decide; [done|]. injection H as <-. unfold hold, pause_all, pause in Hh. simpl in Hh.
        injection Hh as <-. simpl. unfold blocked_recheck, seconds. lia.
    + unfold bindM, retM in H. destruct (feed_due cfg now w s) as [s1 [[]|e]] eqn:E; [|done].
      injection H as <-. apply (feed_due_kept cfg) in E. rewrite (kp_held _ _ E), Eh in Hh.
      by injection Hh as <-.
  - unfold bindM at 1 in H. destruct (feed_due cfg now w s) as [s1 [[]|e]] eqn:E; [|done].
    apply (feed_due_kept cfg) in E. pose proof (kp_held _ _ E) as Hh1. unfold bindM, gets, retM in H.
    destruct (s_next_recheck s1) as [t|]; [|injection H as <-; congruence].
    destruct (t <=? now); [|injection H as <-; congruence].
    destruct (recheck_blocked cfg now (pw_recheck w) (pw_watermarks w) s1) as [s2 [[]|e]] eqn:Er; [|done].
    injection H as <-. apply recheck_blocked_held in Er. congruence.
Qed.

(** The work that is due is nothing, or a batch to try again. *)
Lemma due_work_answers now w s s' work :
  due_work cfg now w s = (s', Ok (Some work)) → ∃ b, work = W_Retry b.
Proof.
  unfold due_work, bindM, gets, modify, retM. destruct (s_held s) as [h|].
  - destruct (h_due h <=? now); [destruct (_ && _)|].
    + destruct (recheck_for_batch _ _ _ _ _) as [s1 [[b|]|]]; intros [= _ <-]. by exists b.
    + intros [= _ <-]. by eexists.
    + by destruct (feed_due _ _ _ _) as [? [[]|]].
  - destruct (feed_due _ _ _ _) as [s1 [[]|]]; [|done]. destruct (s_next_recheck s1) as [t|]; [|done].
    destruct (t <=? now); [|done]. by destruct (recheck_blocked _ _ _ _ _) as [? [[]|]].
Qed.

Lemma poll_life tick_end t it s s' r :
  grounded s → poll_env t it s → poll tick_end it s = (s', Ok r) →
  found t s (it_then it) r s'.
Proof.
  intros Hr [Hnow Hthen Hdue Hrest] H. unfold poll in H.
  apply bindM_ok in H as (s1 & due & Hw & H).
  destruct due as [work|].
  { destruct (due_work_answers _ _ _ _ _ Hw) as [b ->]. injection H as <- <-. exists t, s, (it_now it), (it_due it). split; [done|]. split; [lia|done]. }
  assert (L1 : life T cfg orderly (t, s) (it_now it, s1)) by by eapply life_due.
  specialize (Hrest s1 Hw). unfold bindM at 1, modify at 1 in H.
  set (s2 := if may_release s1 then _ else _) in *. destruct Hrest as [Hev Hpolled].
  pose proof (life_grounded T cfg orderly _ _ _ _ Hr L1) as Hr1.
  assert (L2 : rtc (life T cfg orderly) (t, s) (it_now it, s2) ∧ grounded s2 ∧
    s_held s2 = s_held s1).
  { unfold s2. destruct (may_release s1) eqn:Em; [|split; [by apply rtc_once|done]].
    assert (L : life T cfg orderly (it_now it, s1) (it_now it, release (it_now it) (it_resumed it) s1))
      by (apply life_release; [lia|done]).
    split; [by eapply rtc_l; [|apply rtc_once]|]. split; [|done].
    exact (life_grounded T cfg orderly _ _ _ _ Hr1 L). }
  clearbody s2. destruct L2 as (L2 & Hr2 & Hh2). unfold bindM at 1, gets at 1 in H.
  apply bindM_ok in H as (s2' & fin & Hfin & H). injection Hfin as <- Hfin.
  assert (Hlate : found t s (it_now it) None s2) by exact L2.
  destruct fin as [work|].
  { injection H as <- <-. unfold once_done in Hfin. apply (found_later _ _ (it_now it)); [done|].
    repeat case_match; by simplify_eq. }
  apply bindM_ok in H as (s3 & pend & Hevents & H).
  pose proof (Hpolled _ _ Hevents) as Hp3.
  destruct (handle_events_life _ _ _ _ _ _ _ Hr2 Hthen Hev Hevents) as (t3 & Ht3 & L3 & Hcase).
  apply bindM_ok in H as (s4 & [] & Hgot & H).
  assert (L4 : life T cfg orderly (t3, s3) (it_then it, s4)).
  { eapply handle_polled_life; [lia| |done|done]. intros h Hh. destruct Hcase as [[-> ->]|Hn].
    - rewrite Hh2 in Hh. by eapply due_none_held.
    - congruence. }
  assert (L : rtc (life T cfg orderly) (t, s) (it_then it, s4)).
  { transitivity (it_now it, s2); [exact L2|]. by eapply rtc_r. }
  destruct pend as [o|]; [by injection H as <- <-|].
  unfold bindM at 1, gets at 1 in H. destruct (closes_now limits _ _ s4) eqn:Ec.
  - apply bindM_ok in H as (s5 & b & Hb & [= <- <-]).
    exists (it_then it), s4, (it_then it), (it_decoded it), (it_finished it).
    split; [done|]. split; [lia|done].
  - injection H as <- <-. by destruct (tick_end <=? it_then it).
Qed.

Lemma next_work_life tick_end t its s s' r :
  grounded s → work_env tick_end t its s → next_work tick_end its s = (s', Ok r) →
  found t s (last_now t its) r s'.
Proof.
  revert t s. induction its as [|it its IH]; intros t s Hr Henv H.
  { injection H as <- <-. apply rtc_refl. }
  destruct Henv as [Hit Hrest]. cbn [next_work] in H. apply bindM_ok in H as (s1 & r1 & Hp & H).
  pose proof (poll_life _ _ _ _ _ _ Hr Hit Hp) as Hf.
  assert (Hmono : ∀ l a, a ≤ last_now a l).
  { induction l as [|x l IHl]; intros a; [simpl; lia|]. unfold last_now in *. cbn [fold_left].
    specialize (IHl (Z.max a (it_then x))). etrans; [|exact IHl]. apply Z.le_max_l. }
  assert (Hmax : Z.max t (it_then it) = it_then it).
  { pose proof (pe_now _ _ _ Hit). pose proof (pe_then _ _ _ Hit). lia. }
  unfold last_now in *. cbn [fold_left]. rewrite Hmax. destruct r1 as [work|].
  - injection H as <- <-. apply (found_later _ _ (it_then it)); [apply Hmono|exact Hf].
  - eapply found_trans; [exact Hf|]. apply (IH _ _); [|by apply Hrest|exact H].
    exact (run_grounded T cfg orderly _ _ _ _ Hr Hf).
Qed.

(** A step that ends well is a run of the member's life. *)
Lemma step_is_life tick_end t its later cw s s' o :
  grounded s → step_env tick_end t its later cw s →
  step_kafka tick_end its later cw s = (s', Ok (Some o)) →
  rtc (life T cfg orderly) (t, s) (later, s').
Proof.
  intros Hr (Henv & Hlast & Hcommit) H. unfold step_kafka in H. unfold bindM at 1, modify at 1 in H.
  assert (L0 : life T cfg orderly (t, s) (t, set_reset_this_step false s)) by apply life_step.
  pose proof (life_grounded T cfg orderly _ _ _ _ Hr L0) as Hr0.
  apply bindM_ok in H as (s1 & r & Hw & H).
  pose proof (next_work_life _ _ _ _ _ _ Hr0 Henv Hw) as Hf. eapply rtc_l; [exact L0|].
  apply (found_later _ _ _ later) in Hf; [|done].
  destruct r as [work|]; [|done]. apply bindM_ok in H as (s2 & o1 & H & [= <- _]).
  destruct work as [| |o2|b|b]; try (injection H as <- _; exact Hf).
  - destruct Hf as (t1 & s3 & now & d & f & Hrun & Ht & Hc & Hb). eapply rtc_r; [exact Hrun|].
    eapply (life_close T cfg orderly t1 now later limits d f cw s3 s1 b); [lia|lia|done|done| |done].
    apply Hcommit. by left.
  - destruct Hf as (t1 & s3 & now & w & Hrun & Ht & Hd & Hb). eapply rtc_r; [exact Hrun|].
    eapply (life_retry T cfg orderly t1 now later w cw s3 s1 b); [lia|lia|done|done| |done].
    apply Hcommit. by right.
Qed.
End Loop.

(** ** Properties *)

(** C18: the loop refines the member's life: a step of the pipeline that ends well, whatever
    messages, errors, rebalance events and due work its passes met and whether it committed,
    held or waited, leaves the member where a run of [life] leaves it.  Nothing is asked but
    a clock that does not go back and a group that assigns only to a member that gave up its
    partitions; and where the world is orderly at each point of the step ([step_env] with
    [orderly]), the run is an orderly one, so that the theorems on those hold as well between
    the steps of the program. *)
Theorem a_step_is_a_run_of_life cfg limits T orderly tick_end t its later cw s s' o :
  lives T cfg orderly t s → step_env cfg limits T orderly tick_end t its later cw s →
  step_kafka cfg limits tick_end its later cw s = (s', Ok (Some o)) →
  rtc (life T cfg orderly) (t, s) (later, s') ∧ lives T cfg orderly later s'.
Proof.
  intros Hl Henv H. destruct (lives_awake T cfg orderly t s Hl) as [Hr _].
  pose proof (step_is_life cfg limits T orderly _ _ _ _ _ _ _ _ Hr Henv H) as Hrun.
  split; [exact Hrun|]. destruct Hl as (t0 & s0 & Hs & Hl). exists t0, s0.
  split; [exact Hs|]. by transitivity (t, s).
Qed.

Module LoopDemo.
Import MemberRun.

(** A pass in which only the deadline of the buffer passes. *)
Definition deadline_pass : Iteration :=
  {| it_now := 20; it_due := nothing_due; it_resumed := λ _, true; it_polled := P_Nothing;
     it_events := []; it_then := 20; it_decoded := 0; it_finished := Ok [] |}.
Definition after_step : Source :=
  (step_kafka cfg limits 25 [deadline_pass] 20 (committing (Ok Run.log_view)) s4).1.

Lemma unreachable_valid : valid_world unreachable_target.
Proof. by split. Qed.

Lemma reset_held s : s_held (set_reset_this_step false s) = s_held s.
Proof. done. Qed.

Lemma reset_parts s : s_parts (set_reset_this_step false s) = s_parts s.
Proof. done. Qed.

Lemma outage_watermarks (wm : gmap Z (Z * Z)) : Err outage = Ok wm → watermarks_ok wm.
Proof. done. Qed.

Lemma deadline_env :
  step_env cfg limits Run.topics true 25 5 [deadline_pass] 20 (committing (Ok Run.log_view)) s4.
Proof.
  split; [|split; [unfold last_now; cbn; lia|intros s' b _ _; split; intros; apply unreachable_steady]].
  split; [|intros; exact I].
  split; [cbn; lia|cbn; lia| |intros s1 _; split; [exact I|intros; exact I]].
  assert (Eh : s_held s4 = None) by (vm_compute; reflexivity).
  intros _. split; [|exact unreachable_valid|exact (λ ps wm H, outage_watermarks wm H)|].
  - intros h Hh. rewrite reset_held, Eh in Hh. discriminate Hh.
  - intros _ _ _ _ p Hp. rewrite reset_parts in Hp.
    assert (Ep : s_parts s4 = {[ 0 := Ready 46 41 None 5 ]}) by (vm_compute; reflexivity).
    rewrite Ep in Hp. destruct (decide (p = 0)) as [->|]; [discriminate Hp|].
    rewrite lookup_singleton_ne in Hp by done. discriminate Hp.
Qed.
End LoopDemo.

Lemma a_step_is_a_run_of_life_witness :
  lives Run.topics MemberRun.cfg true 20 LoopDemo.after_step ∧
  base_offset LoopDemo.after_step 0 = Some 45.
Proof.
  assert (H : (step_kafka MemberRun.cfg MemberRun.limits 25 [LoopDemo.deadline_pass] 20
    (MemberRun.committing (Ok Run.log_view)) MemberRun.s4).2 = Ok (Some Committed))
    by (vm_compute; reflexivity).
  apply MemberRun.run_ok in H. split; [|vm_compute; reflexivity].
  exact (proj2 (a_step_is_a_run_of_life MemberRun.cfg MemberRun.limits Run.topics true 25 5
    [LoopDemo.deadline_pass] 20 (MemberRun.committing (Ok Run.log_view)) MemberRun.s4 _ _
    MemberRun.run_s4 LoopDemo.deadline_env H)).
Defined.
