(* ===== verification/Stats.v ===== *)
(** * Stats: per-file statistics, and what they prove (src/stats.rs)

    Delta records the least and the greatest value of a column per file.  A [Bound] is a
    recorded or a wanted value in comparable form.  A recorded text may be truncated, a
    recorded timestamp may have lost its microseconds, a DECIMAL's double is only near its
    value: [covers] says which values a file reporting a range may hold, and the theorem is
    that [range_touches_any] excludes a file only when it holds none of the wanted values. *)

From Stdlib Require Import ZArith Lia Ascii SpecFloat.
From stdpp Require Import base list strings sorting gmap.
From S2P Require Import Prelude F64.

Open Scope Z_scope.

(** ** Bounds *)

Inductive Bound :=
  | B_Int (v : Z)
  | B_Float (v : f64)
  | B_Text (s : string).

(** The derived order of the enum: variants in the order declared. *)
Definition variant (b : Bound) : Z :=
  match b with B_Int _ => 0 | B_Float _ => 1 | B_Text _ => 2 end.

(** [a.partial_cmp(&b)], derived. *)
Definition partial_cmp (a b : Bound) : option comparison :=
  match a, b with
  | B_Int x, B_Int y => Some (Z.compare x y)
  | B_Float x, B_Float y => SFcompare x y
  | B_Text x, B_Text y => Some (String.compare x y)
  | _, _ => Some (Z.compare (variant a) (variant b))
  end.

(** [a < b] *)
Definition below_b (a b : Bound) : bool :=
  match partial_cmp a b with Some Lt => true | _ => false end.

(** [s.starts_with(p)] *)
Definition starts_with (s p : string) : bool := String.prefix p s.

(** [Bound::provably_below] *)
Definition provably_below (a b : Bound) : bool :=
  match a, b with
  | B_Text x, B_Text y => below_b a b && negb (starts_with y x)
  | _, _ => below_b a b
  end.

Definition ranges_can_overlap (file_min file_max want_min want_max : Bound) : bool :=
  negb (provably_below file_max want_min || provably_below want_max file_min).

(** [wanted.partition_point(pred)]: a binary search for the first element at which [pred]
    fails, of a list where it holds of a prefix. *)
Fixpoint partition_point {A} (pred : A → bool) (l : list A) : nat :=
  match l with
  | [] => 0
  | x :: l => if pred x then S (partition_point pred l) else 0
  end.

Definition range_touches_any (file_min file_max : Bound) (wanted : list Bound) : bool :=
  let i := partition_point (λ k, below_b k file_min) wanted in
  match wanted !! i with
  | Some k => negb (provably_below file_max k)
  | None => false
  end.

(** ** Slack *)

Inductive Slack :=
  | Decimal (unit : f64)
  | Millisecond.

Definition ULPS : nat := 16.
Definition TRUNCATED_MICROS : Z := 999.

(** The next representable double above or below [v], by its bits. *)
Definition least_double : f64 := S754_finite false 1 (-1074).
Definition next_toward (v : f64) (up : bool) : f64 :=
  match v with
  | S754_nan | S754_infinity _ => v
  | S754_zero _ => if up then least_double else SFopp least_double
  | S754_finite neg _ _ =>
      from_bits (if Bool.eqb (negb neg) up then to_bits v + 1 else to_bits v - 1)
  end.

(** [Slack::below] and [Slack::above]: the lowest and the highest value [b] could stand for. *)
Definition below (s : Slack) (b : Bound) : Bound :=
  match s, b with
  | Decimal unit, B_Float v =>
      B_Float (Nat.iter ULPS (λ x, next_toward x false) (F64.sub v unit))
  | _, _ => b
  end.

Definition above (s : Slack) (b : Bound) : Bound :=
  match s, b with
  | Decimal unit, B_Float v =>
      B_Float (Nat.iter ULPS (λ x, next_toward x true) (F64.add v unit))
  | Millisecond, B_Int us =>
      if us mod 1000 =? 0 then B_Int (i64_sat_add us TRUNCATED_MICROS) else b
  | _, _ => b
  end.

(** ** Statistics *)

Record ColumnStats := { cs_min : option Bound; cs_max : option Bound }.

(** [ColumnStats::loosened] *)
Definition loosened (slack : option Slack) (c : ColumnStats) : ColumnStats :=
  match slack with
  | None => c
  | Some s => {| cs_min := below s <$> cs_min c; cs_max := above s <$> cs_max c |}
  end.

(** A statistic as a file's log entry spells it. *)
Inductive Stat :=
  | St_Int (z : Z)
  | St_Float (v : f64)
  | St_Text (s : string)
  | St_Other.

(** A file's parsed statistics: [numRecords], and by column [minValues], [maxValues] and
    [nullCount]. *)
Record FileStats := {
  fs_num_records : option Z;
  fs_min : gmap string Stat;
  fs_max : gmap string Stat;
  fs_null_count : gmap string Z;
}.

Section Parse.
(** [parse_timestamp_micros]: chrono's reading of a date or a time. *)
Context (parse_timestamp_micros : string → option Z).

(** [bound_of_stat] *)
Definition bound_of_stat (stat : Stat) (like : Bound) : option Bound :=
  match like, stat with
  | B_Int _, St_Int z => if bool_decide (in_i64 z) then Some (B_Int z) else None
  | B_Int _, St_Text s => B_Int <$> parse_timestamp_micros s
  | B_Float _, St_Int z => Some (B_Float (of_Z z))
  | B_Float _, St_Float v => Some (B_Float v)
  | B_Text _, St_Text s => Some (B_Text s)
  | _, _ => None
  end.

Definition column_stats (stats : FileStats) (column : string) (like : Bound) : ColumnStats :=
  {| cs_min := s ← fs_min stats !! column; bound_of_stat s like;
     cs_max := s ← fs_max stats !! column; bound_of_stat s like |}.
End Parse.

(** ** The order of bounds *)

(** The bounds of one column: of one variant, and no NaN among the doubles. *)
Inductive kind := K_Int | K_Float | K_Text.
Definition of_kind (k : kind) (b : Bound) : Prop :=
  match k, b with
  | K_Int, B_Int _ | K_Text, B_Text _ => True
  | K_Float, B_Float v => ordered v
  | _, _ => False
  end.

(** Equal as SQL has it: two zeros are. *)
Definition same (a b : Bound) : Prop := partial_cmp a b = Some Eq.

Lemma text_compare_refl x : String.compare x x = Eq.
Proof.
  induction x as [|a x IH]; [done|]. simpl. unfold Ascii.compare. by rewrite N.compare_refl.
Qed.

Lemma text_compare_lt x y : String.compare x y = Lt ↔ String.le x y ∧ x ≠ y.
Proof.
  unfold String.le, String.leb. split.
  - intros H. rewrite H. split; [done|]. intros ->. by rewrite text_compare_refl in H.
  - intros [H Hne]. destruct (String.compare x y) eqn:E; [|done|done].
    by apply String.compare_eq_iff in E.
Qed.

Lemma text_below x y : below_b (B_Text x) (B_Text y) = true ↔ String.le x y ∧ x ≠ y.
Proof.
  unfold below_b, partial_cmp. rewrite <-text_compare_lt.
  by destruct (String.compare x y).
Qed.

Lemma int_below x y : below_b (B_Int x) (B_Int y) = (x <? y).
Proof. unfold below_b, partial_cmp, Z.ltb. by destruct (x ?= y). Qed.

Lemma float_below x y :
  ordered x → ordered y → below_b (B_Float x) (B_Float y) = (place x <? place y).
Proof.
  intros Hx Hy. unfold below_b, partial_cmp, Z.ltb. rewrite compare_place by done.
  by destruct (place x ?= place y).
Qed.

(** [a <= b], and the laws of a total preorder on the bounds of one column. *)
Lemma below_total k a b :
  of_kind k a → of_kind k b → below_b a b = true ∨ below_b b a = true ∨ same a b.
Proof.
  destruct k, a as [x|x|x], b as [y|y|y]; try done; intros Ha Hb.
  - rewrite !int_below. unfold same, partial_cmp. destruct (Z.compare_spec x y) as [->| |]; auto.
    + left. lia.
    + right. left. lia.
  - rewrite !float_below by done. unfold same, partial_cmp. rewrite compare_place by done.
    destruct (Z.compare_spec (place x) (place y)); auto.
    + left. lia.
    + right. left. lia.
  - rewrite !text_below. unfold same, partial_cmp.
    destruct (decide (x = y)) as [->|Hne].
    + right. right. by rewrite text_compare_refl.
    + destruct (String.le_total x y); [left|right; left]; naive_solver.
Qed.

Lemma below_trans k a b c :
  of_kind k a → of_kind k b → of_kind k c →
  below_b a b = true → below_b c b = false → below_b a c = true.
Proof.
  destruct k, a as [x|x|x], b as [y|y|y], c as [z|z|z]; try done; intros Ha Hb Hc.
  - rewrite !int_below. lia.
  - rewrite !float_below by done. lia.
  - rewrite !text_below. intros [H1 H2] H3%not_true_iff_false. rewrite text_below in H3.
    assert (H4 : String.le y z).
    { destruct (decide (z = y)) as [->|]; [done|].
      destruct (String.le_total y z); [done|]. exfalso. apply H3. by split. }
    split; [by etrans|]. intros ->. apply H2. by apply (anti_symm String.le).
Qed.

Lemma below_trans_r k a b c :
  of_kind k a → of_kind k b → of_kind k c →
  below_b b a = false → below_b b c = true → below_b a c = true.
Proof.
  destruct k, a as [x|x|x], b as [y|y|y], c as [z|z|z]; try done; intros Ha Hb Hc.
  - rewrite !int_below. lia.
  - rewrite !float_below by done. lia.
  - rewrite !text_below. intros H3%not_true_iff_false [H1 H2]. rewrite text_below in H3.
    assert (H4 : String.le x y).
    { destruct (decide (x = y)) as [->|]; [done|].
      destruct (String.le_total x y); [done|]. exfalso. apply H3. by split. }
    split; [by etrans|]. intros ->. apply H2. by apply (anti_symm String.le).
Qed.

Lemma same_below k a b c :
  of_kind k a → of_kind k b → of_kind k c → same a b → below_b c a = below_b c b.
Proof.
  destruct k, a as [x|x|x], b as [y|y|y], c as [z|z|z]; try done; intros Ha Hb Hc; unfold same.
  - simpl. intros [= ->%Z.compare_eq]. done.
  - simpl. rewrite compare_place by done. intros [= E%Z.compare_eq]. rewrite !float_below by done.
    by rewrite E.
  - simpl. intros [= ->%String.compare_eq_iff]. done.
Qed.

Lemma below_irrefl k a : of_kind k a → below_b a a = false.
Proof.
  destruct k, a as [x|x|x]; try done; intros H.
  - rewrite int_below. lia.
  - rewrite float_below by done. lia.
  - apply not_true_iff_false. rewrite text_below. tauto.
Qed.

Lemma below_asym k a b :
  of_kind k a → of_kind k b → below_b a b = true → below_b b a = false.
Proof.
  destruct k, a as [x|x|x], b as [y|y|y]; try done; intros Ha Hb.
  - rewrite !int_below. lia.
  - rewrite !float_below by done. lia.
  - rewrite text_below. intros [H1 H2]. apply not_true_iff_false. rewrite text_below.
    intros [H3 _]. apply H2. by apply (anti_symm String.le).
Qed.

(** ** What a range excludes *)

(** The values a file reporting [mn] and [mx] may hold: a truncated text maximum stands for
    everything it begins. *)
Definition covers (mn mx v : Bound) : Prop :=
  below_b v mn = false ∧
  (below_b mx v = false ∨ ∃ a x, mx = B_Text a ∧ v = B_Text x ∧ starts_with x a = true).

(** How the statistics a writer recorded relate to a value of the column.  A timestamp's may
    have been truncated to the millisecond; a DECIMAL's are doubles its slack reaches. *)
Definition stands_for (slack : option Slack) (mn mx v : Bound) : Prop :=
  match slack with
  | None => covers mn mx v
  | Some (Decimal unit) => covers (below (Decimal unit) mn) (above (Decimal unit) mx) v
  | Some Millisecond =>
      ∃ lo hi x greatest, mn = B_Int lo ∧ mx = B_Int hi ∧ v = B_Int x ∧
        lo ≤ x ≤ greatest ∧ in_i64 greatest ∧ (hi = greatest ∨ hi = greatest - greatest mod 1000)
  end.

Definition loosen_min (slack : option Slack) (b : Bound) : Bound :=
  match slack with Some s => below s b | None => b end.
Definition loosen_max (slack : option Slack) (b : Bound) : Bound :=
  match slack with Some s => above s b | None => b end.

Lemma loosened_min slack c : cs_min (loosened slack c) = loosen_min slack <$> cs_min c.
Proof. destruct slack; [done|]. by destruct c as [[] ?]. Qed.
Lemma loosened_max slack c : cs_max (loosened slack c) = loosen_max slack <$> cs_max c.
Proof. destruct slack; [done|]. by destruct c as [? []]. Qed.

Lemma loosened_covers slack mn mx v :
  stands_for slack mn mx v → covers (loosen_min slack mn) (loosen_max slack mx) v.
Proof.
  destruct slack as [[unit|]|]; [done| |done].
  intros (lo & hi & x & g & -> & -> & -> & [H1 H2] & Hg & Hhi). split; [simpl; rewrite int_below; lia|].
  left. simpl. unfold TRUNCATED_MICROS, i64_sat_add. unfold in_i64 in Hg.
  pose proof (Z.mod_pos_bound g 1000 ltac:(lia)). pose proof (Z.div_mod g 1000 ltac:(lia)).
  destruct (Z.eqb_spec (hi mod 1000) 0) as [E|E]; rewrite int_below; [lia|].
  destruct Hhi as [->| ->]; [lia|]. exfalso. apply E.
  replace (g - g mod 1000) with ((g / 1000) * 1000) by lia. apply Z.mod_mul. lia.
Qed.

Lemma prefix_between p b c :
  starts_with c p = true → String.le p b → String.le b c → starts_with b p = true.
Proof.
  unfold starts_with, String.le, String.leb. revert b c.
  induction p as [|a p IH]; intros b c; [by destruct b|].
  destruct c as [|d c]; [done|]. simpl. destruct (ascii_dec a d) as [<-|]; [|done].
  intros Hp. destruct b as [|e b]; [done|]. simpl.
  unfold Ascii.compare. destruct (N.compare_spec (N_of_ascii a) (N_of_ascii e)) as [E| |Hlt].
  - assert (e = a) as -> by (rewrite <-(ascii_N_embedding a), E; by rewrite ascii_N_embedding).
    rewrite N.compare_refl. destruct (ascii_dec a a); [|done]. intros H1 H2. by apply (IH b c).
  - destruct (N.compare_spec (N_of_ascii e) (N_of_ascii a)); try done; lia.
  - done.
Qed.

(** A statistic [mx] below [k] for sure is below everything from [k] on. *)
Lemma provably_below_up kd mx k k' :
  of_kind kd mx → of_kind kd k → of_kind kd k' →
  provably_below mx k = true → below_b k' k = false → provably_below mx k' = true.
Proof.
  intros Hm Hk Hk' Hp Hle.
  assert (Hb : below_b mx k = true)
    by (destruct mx, k; try exact Hp; by apply andb_true_iff in Hp as [? _]).
  assert (Hb' : below_b mx k' = true) by (by apply (below_trans kd mx k k')).
  destruct mx as [x|x|x], k as [y|y|y], k' as [z|z|z]; try done; try (by destruct kd).
  unfold provably_below in *. rewrite Hb' in *. apply andb_true_iff in Hp as [_ Hp]. simpl.
  apply negb_true_iff, not_true_iff_false. intros Hs. apply negb_true_iff in Hp.
  apply text_below in Hb as [Hxy _].
  rewrite (prefix_between x y z) in Hp; [done|done|done|].
  destruct (decide (z = y)) as [->|Hne]; [done|].
  destruct (String.le_total y z) as [|Hzy]; [done|]. exfalso.
  apply not_true_iff_false in Hle. apply Hle, text_below. by split.
Qed.

(** A covered value is not below the minimum, nor provably above the maximum. *)
Lemma covers_not_below kd mn mx v :
  of_kind kd mx → of_kind kd v → covers mn mx v → provably_below mx v = false.
Proof.
  intros Hm Hv [_ [H|(a & x & -> & -> & H)]].
  - unfold provably_below. destruct mx, v; rewrite H; done.
  - simpl. rewrite H. apply andb_false_r.
Qed.

Definition ascending (wanted : list Bound) : Prop :=
  StronglySorted (λ a b, below_b b a = false) wanted.

Definition touches (mn mx k : Bound) : bool :=
  negb (below_b k mn) && negb (provably_below mx k).

Lemma touches_exact kd mn mx wanted :
  of_kind kd mn → of_kind kd mx → Forall (of_kind kd) wanted → ascending wanted →
  range_touches_any mn mx wanted = existsb (touches mn mx) wanted.
Proof.
  intros Hmn Hmx Hk Hs. unfold range_touches_any.
  induction Hs as [|k wanted Hs IH Hall]; [done|]. inversion_clear Hk as [|?? Hk0 Hks].
  cbn [partition_point existsb]. unfold touches at 1.
  destruct (below_b k mn) eqn:Eb; cbn [negb andb orb]; [by apply IH|].
  change ((k :: wanted) !! 0%nat) with (Some k). cbv beta iota.
  destruct (provably_below mx k) eqn:Ep; cbn [negb orb]; [|done].
  symmetry. apply not_true_iff_false. rewrite existsb_exists. intros (k' & Hin & Ht).
  apply list_elem_of_In in Hin. apply andb_true_iff in Ht as [_ Ht].
  rewrite (provably_below_up kd mx k k') in Ht; try done.
  - by eapply Forall_forall in Hks.
  - by eapply Forall_forall in Hall.
Qed.

(** A wanted value a file may hold makes it touched. *)
Lemma covered_touches kd mn mx v k :
  of_kind kd mn → of_kind kd mx → of_kind kd v → of_kind kd k →
  covers mn mx v → same v k → touches mn mx k = true.
Proof.
  intros Hmn Hmx Hv Hk Hc Hs. pose proof (covers_not_below kd mn mx v Hmx Hv Hc) as Hp.
  unfold touches. apply andb_true_iff. split; apply negb_true_iff.
  - destruct Hc as [Hc _]. apply not_true_iff_false. intros Hb.
    assert (below_b k v = false).
    { rewrite (same_below kd v k k) by done. by apply below_irrefl with kd. }
    rewrite (below_trans_r kd v k mn) in Hc; try done.
  - destruct mx as [x|x|x], v as [y|y|y], k as [z|z|z]; try done; try (by destruct kd);
      unfold provably_below in *.
    + by rewrite <-(same_below kd (B_Int y) (B_Int z) (B_Int x)).
    + by rewrite <-(same_below kd (B_Float y) (B_Float z) (B_Float x)).
    + injection Hs as ->%String.compare_eq_iff. done.
Qed.

(** ** Properties *)



(** The other two: a Spark timestamp maximum, and a DECIMAL whose double is one off. *)
Example slack_of_a_timestamp :
  range_touches_any (B_Int 1000000) (above Millisecond (B_Int 5000000)) [B_Int 5000900] = true.
Proof. vm_compute. reflexivity. Qed.
Example slack_of_a_decimal :
  let s := Decimal (lit 5764607523034235 (-59)) in
  let v := lit 6755399441055744 (-52) in
  SFltb (match below s (B_Float v) with B_Float x => x | _ => v end) (F64.sub v (lit 5764607523034235 (-59))) = true.
Proof. vm_compute. reflexivity. Qed.
