(* ===== verification/Arrow.v ===== *)
(** * Arrow: the values and batches the program computes with

    Arrow's arrays are a library.  A column type is a class of values in a total order with
    the casts the program uses; a batch is a list of rows of named cells. *)

From Stdlib Require Import ZArith Lia.
From stdpp Require Import base list strings gmap pretty.
From S2P Require Import Prelude F64 Stats.

Open Scope Z_scope.

(** ** Values *)

(** A type of Arrow values in a total order ([arrow::row]'s, and SQL's on values that are not
    null), with its text, its statistics bound and the literal of a bound. *)
Class Arrow (V : Type) := {
  arrow_eq :: EqDecision V;
  cmp : V → V → comparison;
  cmp_eq : ∀ a b, cmp a b = Eq ↔ a = b;
  cmp_antisym : ∀ a b, cmp b a = CompOpp (cmp a b);
  cmp_trans : ∀ a b c, cmp a b = Lt → cmp b c = Lt → cmp a c = Lt;
  (** [cast(_, Utf8)] *)
  text : V → string;
  text_inj : ∀ a b, text a = text b → a = b;
  (** [bounds_of] of one value: none for a type that statistics do not have. *)
  bound_of : V → option Bound;
  (** [scalar_of_bound] *)
  scalar_of_bound : Bound → option V;
}.

(** A row's cells by column; a null is no cell. *)
Abbreviation Row V := (gmap string V).

Record RecordBatch (V : Type) := { schema : list string; rows : list (Row V) }.
Arguments schema {V} _. Arguments rows {V} _.
Arguments Build_RecordBatch {V} _ _.

Lemma value_cmp_refl `{!Arrow V} (a : V) : cmp a a = Eq.
Proof. by apply cmp_eq. Qed.

Lemma value_cmp_gt `{!Arrow V} (a b : V) : cmp a b = Gt ↔ cmp b a = Lt.
Proof. rewrite (cmp_antisym a b). by destruct (cmp a b). Qed.

(** At most, and then below. *)
Lemma value_cmp_trans_le `{!Arrow V} (a b c : V) :
  cmp a b ≠ Gt → cmp b c = Lt → cmp a c = Lt.
Proof.
  destruct (cmp a b) eqn:E; [apply cmp_eq in E as ->; done|intros _; by apply cmp_trans|done].
Qed.

(** The integers, as a column of them. *)
Lemma pretty_Z_inj (a b : Z) : pretty a = pretty b → a = b.
Proof. intros H. by apply (inj pretty) in H. Qed.

#[export] Instance arrow_Z : Arrow Z := {
  cmp := Z.compare; cmp_eq := Z.compare_eq_iff; cmp_antisym := λ a b, Z.compare_antisym a b;
  cmp_trans := λ a b c H H', proj2 (Z.compare_lt_iff a c)
    (Z.lt_trans a b c (proj1 (Z.compare_lt_iff a b) H) (proj1 (Z.compare_lt_iff b c) H'));
  text := pretty; text_inj := pretty_Z_inj;
  bound_of v := Some (B_Int v);
  scalar_of_bound b := match b with B_Int v => Some v | _ => None end;
}.
