(* ===== verification/Upsert.v ===== *)
(** * Upsert: one row per key, the newest, reading little of the target (src/upsert.rs)

    A batch is collapsed to its newest row per key, a window on the target is drawn from the
    statistics of its files, and delta-rs merges by key inside the window.  Arrow's values and
    their order, and delta-rs's MERGE, are parameters; [sql_merge] is what a MERGE means.  The
    theorems: the window loses no match, and a target converges to the newest row per key
    whatever the batches, their order and their repetitions. *)

From Stdlib Require Import ZArith Lia.
From stdpp Require Import base list strings gmap sorting.
From S2P Require Import Prelude Error F64 Stats Arrow.

Open Scope Z_scope.
Open Scope ddi_scope.

(** ** Lookback *)

Inductive Lookback :=
  | Duration (us : Z)
  | Offset (n : f64).

Definition i64_sat_sub (a b : Z) : Z := Z.max i64_min (Z.min i64_max (a - b)).

(** [Lookback::floor_below] *)
Definition floor_below (l : Lookback) (from : Bound) (sequence_is_temporal : bool)
    : option Bound :=
  match l, from with
  | Duration us, B_Int v => if sequence_is_temporal then Some (B_Int (i64_sat_sub v us)) else None
  | Offset n, B_Int v =>
      if sequence_is_temporal then None else Some (B_Int (i64_sat_sub v (to_i64 n)))
  | Offset n, B_Float v => Some (B_Float (F64.sub v n))
  | _, _ => None
  end.

(** ** The window *)

Record Window := {
  lower : option Bound;
  clamped : bool;
  candidate_files : Z;
  examined_files : Z;
  unbounded_because : option string;
}.

(** [Window::unbounded] *)
Definition unbounded (why : string) (examined : Z) : Window :=
  {| lower := None; clamped := false; candidate_files := 0; examined_files := examined;
     unbounded_because := Some why |}.

Record BatchBounds := {
  keys : list Bound;
  sequence_min : Bound;
  key_slack : option Slack;
  sequence_slack : option Slack;
}.

(** [<=] of the derived order. *)
Definition at_most (a b : Bound) : bool :=
  match partial_cmp a b with Some (Lt | Eq) => true | _ => false end.

Record Columns := { c_key : string; c_sequence : string; c_tiebreak : list string }.

Section Upsert.
Context {V : Type} `{!Arrow V}.
Context (parse_timestamp_micros : string → option Z).

(** A live file: its statistics, [None] unrecorded and [Some None] unreadable, and its rows. *)
Record File := { f_stats : option (option FileStats); f_rows : list (Row V) }.

Definition stats_of (st : FileStats) (column : string) (like : Bound) (slack : option Slack)
    : ColumnStats :=
  loosened slack (column_stats parse_timestamp_micros st column like).

(** The walk over the live files of [Window::plan]: the lowest sequence of the candidates, and
    how many files were candidates and looked at; or the window that has no bound. *)
Fixpoint walk_files (cols : Columns) (bounds : BatchBounds) (floor : option Bound)
    (files : list File) (low : option Bound) (candidates examined : Z)
    : Window + (option Bound * Z * Z) :=
  match files with
  | [] => inr (low, candidates, examined)
  | f :: files =>
      let examined := examined + 1 in
      match f_stats f with
      | None => inl (unbounded "the file records no statistics" examined)
      | Some None => inl (unbounded "the file's statistics are unreadable" examined)
      | Some (Some st) =>
          let like := default (B_Int 0) (head (keys bounds)) in
          let ks := stats_of st (c_key cols) like (key_slack bounds) in
          match cs_min ks, cs_max ks with
          | Some kmin, Some kmax =>
              if negb (range_touches_any kmin kmax (keys bounds))
              then walk_files cols bounds floor files low candidates examined
              else
                let candidates := candidates + 1 in
                let sq := stats_of st (c_sequence cols) (sequence_min bounds)
                            (sequence_slack bounds) in
                match cs_min sq with
                | None => inl (unbounded "no statistics for the sequence column" examined)
                | Some smin =>
                    let lowered := match low with
                                   | Some cur => negb (at_most cur smin)
                                   | None => true
                                   end in
                    let low := if lowered then Some smin else low in
                    if lowered && match floor, low with
                                  | Some f, Some l => at_most l f
                                  | _, _ => false
                                  end
                    then inr (low, candidates, examined)
                    else walk_files cols bounds floor files low candidates examined
                end
          | _, _ => inl (unbounded "no statistics for the key column" examined)
          end
      end
  end.

(** [Window::plan] *)
Definition plan_window (cols : Columns) (target : list File) (bounds : BatchBounds)
    (lookback : option Lookback) (sequence_is_temporal : bool) : result Error Window :=
  let? floor := match lookback with
                | None => Ok None
                | Some l =>
                    match floor_below l (sequence_min bounds) sequence_is_temporal with
                    | Some f => Ok (Some f)
                    | None => Err (Config "upsert_lookback does not fit the sequence column")
                    end
                end in
  match walk_files cols bounds floor target None 0 0 with
  | inl w => Ok w
  | inr (low, candidates, examined) =>
      let low := default (sequence_min bounds) low in
      let '(low, clamped) := match floor with
                             | Some f => if below_b low f then (f, true) else (low, false)
                             | None => (low, false)
                             end in
      Ok {| lower := Some low; clamped := clamped; candidate_files := candidates;
            examined_files := examined; unbounded_because := None |}
  end.

(** ** The bounds of a batch *)

(** [keys.sort_by(..)], stable, and [keys.dedup()]. *)
Fixpoint insert_bound (b : Bound) (l : list Bound) : list Bound :=
  match l with
  | [] => [b]
  | x :: l => if below_b x b then x :: insert_bound b l else b :: x :: l
  end.
Definition sort_bounds (l : list Bound) : list Bound := foldr insert_bound [] l.

Definition same_b (a b : Bound) : bool :=
  match partial_cmp a b with Some Eq => true | _ => false end.

Fixpoint dedup_from (last : Bound) (l : list Bound) : list Bound :=
  match l with
  | [] => []
  | b :: l => if same_b b last then dedup_from last l else b :: dedup_from b l
  end.
Definition dedup (l : list Bound) : list Bound :=
  match l with [] => [] | b :: l => b :: dedup_from b l end.

(** [column(batch, name)] *)
Definition column (b : RecordBatch V) (name : string) : result Error (list (option V)) :=
  if bool_decide (name ∈ schema b) then Ok ((λ r : Row V, r !! name) <$> rows b)
  else Err (Schema "upsert column is not in the transformed batch").

(** [bounds_of]: every value of a column that is not null. *)
Definition bounds_of (col : list (option V)) : option (list Bound) :=
  mapM bound_of (omap id col).

Definition reduce_min (l : list Bound) : option Bound :=
  match l with
  | [] => None
  | a :: l => Some (fold_left (λ a b, if below_b b a then b else a) l a)
  end.

(** The columns' types, as far as they matter. *)
Context (slack_of : string → option Slack) (is_temporal : string → bool).

(** [BatchBounds::of] *)
Definition batch_bounds (cols : Columns) (b : RecordBatch V) : option BatchBounds :=
  match rows b with
  | [] => None
  | _ =>
      key ← ok (column b (c_key cols));
      keys ← bounds_of key;
      sequence ← ok (column b (c_sequence cols));
      sequences ← bounds_of sequence;
      least ← reduce_min sequences;
      Some {| keys := dedup (sort_bounds keys); sequence_min := least;
              key_slack := slack_of (c_key cols); sequence_slack := slack_of (c_sequence cols) |}
  end.

(** ** The plan *)

(** SQL's three-valued logic: a comparison with a null is neither true nor false. *)
Definition sql_cmp (test : comparison → bool) (a b : option V) : option bool :=
  match a, b with Some a, Some b => Some (test (cmp a b)) | _, _ => None end.
Definition sql_and (a b : option bool) : option bool :=
  match a, b with
  | Some false, _ | _, Some false => Some false
  | Some true, Some true => Some true
  | _, _ => None
  end.
Definition sql_or (a b : option bool) : option bool :=
  match a, b with
  | Some true, _ | _, Some true => Some true
  | Some false, Some false => Some false
  | _, _ => None
  end.
Definition sql_gt := sql_cmp (λ c, match c with Gt => true | _ => false end).
Definition sql_ge := sql_cmp (λ c, match c with Lt => false | _ => true end).
Definition sql_eq := sql_cmp (λ c, match c with Eq => true | _ => false end).
Definition is_true (o : option bool) : bool := match o with Some b => b | None => false end.

(** [newer_than_stored]: a term per column, or-ed from the first on; each is an equality for
    every earlier column and-ed to its own comparison. *)
Definition newer_term (s t : Row V) (earlier : list string) (c : string) : option bool :=
  fold_left (λ acc e, sql_and (sql_eq (s !! e) (t !! e)) acc) earlier (sql_gt (s !! c) (t !! c)).

Fixpoint newer_terms (s t : Row V) (earlier rest : list string) (out : option (option bool))
    : option (option bool) :=
  match rest with
  | [] => out
  | c :: rest =>
      let term := newer_term s t earlier c in
      newer_terms s t (earlier ++ [c]) rest
        (Some (match out with Some prev => sql_or prev term | None => term end))
  end.

Definition newer_than_stored (cols : Columns) (s t : Row V) : option bool :=
  default None (newer_terms s t [] (c_sequence cols :: c_tiebreak cols) None).

(** [Window::predicate]: the [ON] clause. *)
Definition predicate (cols : Columns) (w : Window)
    : result Error (Row V → Row V → option bool) :=
  let key (s t : Row V) := sql_eq (t !! c_key cols) (s !! c_key cols) in
  match lower w with
  | None => Ok key
  | Some lo =>
      match scalar_of_bound lo with
      | None => Err (Schema "cannot express the merge window's lower bound")
      | Some l =>
          Ok (λ s t, sql_and (key s t) (sql_ge (t !! c_sequence cols) (Some l)))
      end
  end.

Record MergePlan := {
  p_predicate : Row V → Row V → option bool;
  p_newer : Row V → Row V → option bool;
  p_update_columns : list string;
  p_insert_columns : list string;
  p_window : Window;
}.

(** [MergePlan::resolve] *)
Definition resolve (cols : Columns) (target : list File) (batch : RecordBatch V)
    (lookback : option Lookback) (update_columns : list string) : result Error MergePlan :=
  if bool_decide (c_sequence cols ∉ schema batch)
  then Err (Schema "upsert sequence column is not in the batch")
  else
    let? window := match batch_bounds cols batch with
                   | Some bounds =>
                       plan_window cols target bounds lookback (is_temporal (c_sequence cols))
                   | None =>
                       Ok (unbounded "the key or sequence column has an uncomparable type" 0)
                   end in
    let? on := predicate cols window in
    Ok {| p_predicate := on; p_newer := newer_than_stored cols;
          p_update_columns := update_columns; p_insert_columns := schema batch;
          p_window := window |}.

(** ** Collapsing *)

Definition null_count (col : list (option V)) : nat := length (List.filter (λ c, bool_decide (c = None)) col).

(** [concat_batches] *)
Definition concat_batches (b : RecordBatch V) (l : list (RecordBatch V))
    : result Error (RecordBatch V) :=
  if forallb (λ x, bool_decide (schema x = schema b)) l
  then Ok {| schema := schema b; rows := concat (rows <$> l) |}
  else Err (Other "upsert: cannot concatenate the batch").

(** A row's place in the order: the sequence, then each tie-breaker. *)
Definition order_of (cols : Columns) (r : Row V) : list (option V) :=
  (λ c, r !! c) <$> (c_sequence cols :: c_tiebreak cols).

(** [arrow::row]'s order of encoded rows, of values that are not null. *)
Fixpoint row_cmp (a b : list (option V)) : comparison :=
  match a, b with
  | Some x :: a, Some y :: b => match cmp x y with Eq => row_cmp a b | c => c end
  | [], [] => Eq
  | [], _ | None :: _, _ => Lt
  | _, _ => Gt
  end.

(** The columns that may hold no null, each with its message. *)
Fixpoint require_full (b : RecordBatch V) (l : list (string * string)) : result Error unit :=
  match l with
  | [] => Ok tt
  | (c, message) :: l =>
      let? col := column b c in
      if (0 <? null_count col)%nat then Err (Schema message) else require_full b l
  end.

Definition key_of (cols : Columns) (r : Row V) : option string := text <$> r !! c_key cols.

(** One row of the loop over [newest], by position. *)
Definition keep_newest (cols : Columns) (all : list (Row V)) (newest : gmap string nat) (i : nat)
    : gmap string nat :=
  match all !! i ≫= key_of cols with
  | None => newest
  | Some k =>
      match newest !! k with
      | Some best =>
          match row_cmp (default [] (order_of cols <$> all !! i))
                  (default [] (order_of cols <$> all !! best)) with
          | Lt => newest
          | _ => <[k := i]> newest
          end
      | None => <[k := i]> newest
      end
  end.

(** [collapse] *)
Definition collapse (cols : Columns) (batches : list (RecordBatch V))
    : result Error (RecordBatch V) :=
  match batches with
  | [] => Err (Other "upsert: nothing to collapse")
  | first :: _ =>
      let? all := concat_batches first batches in
      match rows all with
      | [] => Ok all
      | _ =>
          let? _ := require_full all
                      ((c_key cols, "the upsert key contains nulls")
                       :: (c_sequence cols, "the upsert sequence contains nulls")
                       :: ((., "an upsert tie-breaker contains nulls") <$> c_tiebreak cols)) in
          let newest := fold_left (keep_newest cols (rows all)) (seq 0 (length (rows all))) ∅ in
          if decide (size newest = length (rows all)) then Ok all
          else
            let keep := merge_sort Nat.le (map_to_list newest).*2 in
            Ok {| schema := schema all; rows := omap (λ i, rows all !! i) keep |}
      end
  end.

(** ** Merging *)

Definition table_rows (t : list File) : list (Row V) := concat (f_rows <$> t).

(** What an [UPDATE SET] and an [INSERT] write. *)
Definition set_cell (s t : Row V) (c : string) : Row V :=
  match s !! c with Some v => <[c := v]> t | None => delete c t end.
Definition updated (update : list string) (s t : Row V) : Row V :=
  fold_left (set_cell s) update t.
Definition inserted (insert : list string) (s : Row V) : Row V :=
  fold_left (set_cell s) insert ∅.

(** What MERGE means: a stored row takes the update of the row it matches, when that is newer;
    a row that matches nothing is inserted. *)
Definition merge_row (p : MergePlan) (source : list (Row V)) (t : Row V) : Row V :=
  match List.find (λ s, is_true (p_predicate p s t)) source with
  | Some s => if is_true (p_newer p s t) then updated (p_update_columns p) s t else t
  | None => t
  end.
Definition unmatched (p : MergePlan) (target : list (Row V)) (s : Row V) : bool :=
  negb (existsb (λ t, is_true (p_predicate p s t)) target).
Definition sql_merge (p : MergePlan) (target source : list (Row V)) : list (Row V) :=
  (merge_row p source <$> target) ++
  (inserted (p_insert_columns p) <$> List.filter (unmatched p target) source).

(** delta-rs's [merge] with what [Sink::upsert] gives it; the files it leaves, or none when it
    failed. *)
Context (merge : MergePlan → list File → RecordBatch V → result Error (list File)).

(** One attempt of [Pipeline::upsert] on a target handle. *)
Definition upsert_once (cols : Columns) (lookback : option Lookback) (target : list File)
    (batch : RecordBatch V) (update_columns : list string) : result Error (list File) :=
  let? plan := resolve cols target batch lookback update_columns in
  merge plan target batch.

Definition upsert (cols : Columns) (lookback : option Lookback) (target : list File)
    (batches : list (RecordBatch V)) (update_columns : list string) : result Error (list File) :=
  let? batch := collapse cols batches in
  upsert_once cols lookback target batch update_columns.

Lemma elem_of_table_rows (target : list File) t :
  t ∈ table_rows target ↔ ∃ f, f ∈ target ∧ t ∈ f_rows f.
Proof.
  unfold table_rows. induction target as [|f target IH]; simpl.
  - rewrite elem_of_nil. split; [done|]. by intros (f & ?%elem_of_nil & _).
  - rewrite elem_of_app, IH. setoid_rewrite elem_of_cons. naive_solver.
Qed.

(** ** Orders *)

Lemma sql_eq_true a b : is_true (sql_eq a b) = true ↔ a = b ∧ is_Some a.
Proof.
  destruct a as [a|], b as [b|]; simpl; try naive_solver.
  split.
  - intros H. destruct (cmp a b) eqn:E; try done. apply cmp_eq in E as ->. eauto.
  - intros [[= ->] _]. by rewrite value_cmp_refl.
Qed.

Lemma sql_and_true a b : is_true (sql_and a b) = true ↔ is_true a = true ∧ is_true b = true.
Proof. by destruct a as [[]|], b as [[]|]; simpl; naive_solver. Qed.

Definition full (l : list (option V)) : Prop := Forall is_Some l.

Lemma row_cmp_refl a : full a → row_cmp a a = Eq.
Proof. induction 1 as [|x l [v ->] _ IH]; [done|]. simpl. by rewrite value_cmp_refl. Qed.

Lemma row_cmp_eq a b : full a → full b → row_cmp a b = Eq → a = b.
Proof.
  intros Ha. revert b. induction Ha as [|x a [v ->] _ IH]; intros b Hb; destruct Hb as [|y b [w ->] Hb];
    try done. simpl. destruct (cmp v w) eqn:E; try done. apply cmp_eq in E as ->.
  intros H. f_equal. by apply IH.
Qed.

Lemma row_cmp_antisym a b : full a → full b → row_cmp b a = CompOpp (row_cmp a b).
Proof.
  intros Ha. revert b. induction Ha as [|x a [v ->] _ IH]; intros b Hb; destruct Hb as [|y b [w ->] Hb];
    try done. simpl. rewrite (cmp_antisym v w). destruct (cmp v w); simpl; try done. by apply IH.
Qed.

Lemma row_cmp_trans a b c :
  full a → full b → full c → row_cmp a b ≠ Gt → row_cmp b c ≠ Gt → row_cmp a c ≠ Gt.
Proof.
  intros Ha. revert b c. induction Ha as [|x a [v ->] _ IH]; intros b c Hb Hc;
    destruct Hb as [|y b [w ->] Hb], Hc as [|z c [u ->] Hc]; try done. simpl.
  destruct (cmp v w) eqn:E1; [|destruct (cmp w u) eqn:E2|done].
  - apply cmp_eq in E1 as ->. destruct (cmp w u); try done. by apply IH.
  - apply cmp_eq in E2 as ->. by rewrite E1.
  - by rewrite (cmp_trans v w u).
  - done.
Qed.

(** ** The newest wins *)

Lemma sql_or_true a b : is_true (sql_or a b) = true ↔ is_true a = true ∨ is_true b = true.
Proof. by destruct a as [[]|], b as [[]|]; simpl; naive_solver. Qed.

Lemma newer_term_true (s t : Row V) earlier c :
  is_true (newer_term s t earlier c) = true ↔
  (∀ e, e ∈ earlier → s !! e = t !! e ∧ is_Some (s !! e)) ∧
  is_true (sql_gt (s !! c) (t !! c)) = true.
Proof.
  unfold newer_term. generalize (sql_gt (s !! c) (t !! c)) as acc.
  induction earlier as [|e earlier IH]; intros acc; simpl.
  - split; [intros H; split; [by intros e ?%elem_of_nil|done]|tauto].
  - rewrite IH, sql_and_true, sql_eq_true. setoid_rewrite elem_of_cons. split.
    + intros [H [[H1 H1'] H2]]. split; [|done]. intros e' [->|He]; auto.
    + intros [H H2]. split; [auto|]. split; [apply H; by left|done].
Qed.

Lemma sql_gt_true (a b : V) : is_true (sql_gt (Some a) (Some b)) = true ↔ cmp a b = Gt.
Proof. simpl. by destruct (cmp a b). Qed.

Lemma newer_terms_true (s t : Row V) rest earlier out :
  full ((λ c, s !! c) <$> rest) → full ((λ c, t !! c) <$> rest) →
  is_true (default None (newer_terms s t earlier rest out)) = true ↔
  is_true (default None out) = true ∨
  (∀ e, e ∈ earlier → s !! e = t !! e ∧ is_Some (s !! e)) ∧
  row_cmp ((λ c, s !! c) <$> rest) ((λ c, t !! c) <$> rest) = Gt.
Proof.
  revert earlier out. induction rest as [|c rest IH]; intros earlier out Hs Ht; simpl.
  { naive_solver. }
  apply Forall_cons in Hs as [[v Ev] Hs], Ht as [[w Ew] Ht]. rewrite IH by done. clear IH.
  assert (Eo : is_true (default None (Some (match out with
            | Some prev => sql_or prev (newer_term s t earlier c)
            | None => newer_term s t earlier c end))) = true ↔
          is_true (default None out) = true ∨ is_true (newer_term s t earlier c) = true).
  { destruct out as [o|]; simpl; [apply sql_or_true|]. naive_solver. }
  rewrite Eo, newer_term_true, Ev, Ew, sql_gt_true. clear Eo.
  setoid_rewrite elem_of_app. setoid_rewrite list_elem_of_singleton.
  destruct (cmp v w) eqn:E.
  - apply cmp_eq in E as ->. split.
    + intros [[H|[_ [=]]]|[H1 H2]]; [by left|]. right. split; [|done]. intros e He. apply H1. by left.
    + intros [H|[H1 H2]]; [by left; left|]. right. split; [|done].
      intros e [He| ->]; [by apply H1|]. rewrite Ev, Ew. eauto.
  - split; [|naive_solver]. intros [[H|[_ [=]]]|[H1 H2]]; [by left|].
    exfalso. destruct (H1 c) as [H _]; [by right|]. rewrite Ev, Ew in H. injection H as ->.
    by rewrite value_cmp_refl in E.
  - split; [|naive_solver]. intros [[H|[H _]]|[H1 H2]]; [by left|by right|].
    right. split; [|done]. intros e He. apply H1. by left.
Qed.

(** A row that has what the order needs. *)
Definition ordered_row (cols : Columns) (r : Row V) : Prop := full (order_of cols r).

Lemma newer_is_lexicographic cols (s t : Row V) :
  ordered_row cols s → ordered_row cols t →
  is_true (newer_than_stored cols s t) = true ↔ row_cmp (order_of cols s) (order_of cols t) = Gt.
Proof.
  intros Hs Ht. unfold newer_than_stored. rewrite newer_terms_true by done. simpl default.
  split; [|intros H; right; split; [by intros e ?%elem_of_nil|exact H]].
  intros [H|[_ H]]; [done|exact H].
Qed.

(** ** Collapsing keeps the newest row of every key *)

(** A row the upsert can place: it has a key, a sequence and every tie-breaker. *)
Definition placed (cols : Columns) (r : Row V) : Prop :=
  is_Some (key_of cols r) ∧ ordered_row cols r.

Definition not_after (cols : Columns) (x r : Row V) : Prop :=
  row_cmp (order_of cols x) (order_of cols r) ≠ Gt.

Lemma not_after_refl cols x : ordered_row cols x → not_after cols x x.
Proof. intros H. unfold not_after. by rewrite row_cmp_refl. Qed.

Lemma not_after_trans cols x y z :
  ordered_row cols x → ordered_row cols y → ordered_row cols z →
  not_after cols x y → not_after cols y z → not_after cols x z.
Proof. apply row_cmp_trans. Qed.

(** What [newest] holds once the positions before [m] were looked at. *)
Record newest_of (cols : Columns) (all : list (Row V)) (newest : gmap string nat) (m : nat)
    : Prop := {
  no_key : ∀ k i, newest !! k = Some i → (i < m)%nat ∧ (all !! i ≫= key_of cols) = Some k;
  no_best : ∀ i r k, (i < m)%nat → all !! i = Some r → key_of cols r = Some k →
    ∃ j r', newest !! k = Some j ∧ all !! j = Some r' ∧ not_after cols r r';
}.

Lemma keep_newest_spec cols all newest m :
  Forall (placed cols) all → newest_of cols all newest m →
  newest_of cols all (keep_newest cols all newest m) (S m).
Proof.
  intros Hall [Hk Hb]. unfold keep_newest. destruct (all !! m ≫= key_of cols) as [k|] eqn:E.
  2: { split; [intros k i H; apply Hk in H as [? ?]; split; [lia|done]|].
       intros i r k Hi Hr Hkey. destruct (decide (i = m)) as [->|]; [|apply (Hb i); [lia|done|done]].
       rewrite Hr in E. simpl in E. congruence. }
  apply bind_Some in E as (r & Er & Ekey).
  assert (Hins : (∀ j rj, newest !! k = Some j → all !! j = Some rj → not_after cols rj r) →
    newest_of cols all (<[k := m]> newest) (S m)).
  { intros Hle. split.
    - intros k' i. destruct (decide (k' = k)) as [->|Hne].
      + rewrite lookup_insert_eq. intros [= <-]. split; [lia|]. by rewrite Er.
      + rewrite lookup_insert_ne by done. intros H. apply Hk in H as [? ?]. split; [lia|done].
    - intros i r' k' Hi Hr' Hkey'. destruct (decide (k' = k)) as [->|Hne].
      + exists m, r. rewrite lookup_insert_eq. split; [done|]. split; [done|].
        destruct (decide (i = m)) as [->|Him].
        * rewrite Er in Hr'. injection Hr' as <-. apply not_after_refl.
          by apply (Forall_lookup_1 _ _ _ _ Hall Er).
        * destruct (Hb i r' k) as (j & rj & Hj & Hrj & Hle'); [lia|done|done|].
          apply (not_after_trans cols r' rj r); [..|done|by apply (Hle j)];
            [apply (Forall_lookup_1 _ _ _ _ Hall Hr')|apply (Forall_lookup_1 _ _ _ _ Hall Hrj)
            |apply (Forall_lookup_1 _ _ _ _ Hall Er)].
      + rewrite lookup_insert_ne by done. apply (Hb i); try done.
        destruct (decide (i = m)) as [->|]; [|lia]. rewrite Er in Hr'. injection Hr' as <-. congruence. }
  destruct (newest !! k) as [best|] eqn:En; [|apply Hins; by intros j rj [=]].
  destruct (Hk _ _ En) as [Hbest Hkb]. apply bind_Some in Hkb as (rb & Erb & Hkb).
  rewrite Er, Erb. change (default [] (order_of cols <$> Some r)) with (order_of cols r).
  change (default [] (order_of cols <$> Some rb)) with (order_of cols rb).
  destruct (row_cmp (order_of cols r) (order_of cols rb)) eqn:Ec.
  2: { split; [intros k' i H; apply Hk in H as [? ?]; split; [lia|done]|].
       intros i r' k' Hi Hr' Hkey'. destruct (decide (i = m)) as [->|]; [|apply (Hb i); [lia|done|done]].
       rewrite Er in Hr'. injection Hr' as <-. rewrite Ekey in Hkey'. injection Hkey' as <-.
       exists best, rb. split; [done|]. split; [done|]. unfold not_after. by rewrite Ec. }
  all: apply Hins; intros j rj [= <-] Hrj; rewrite Erb in Hrj; injection Hrj as <-;
    unfold not_after; rewrite row_cmp_antisym, Ec; try done;
    [apply (Forall_lookup_1 _ _ _ _ Hall Er)|apply (Forall_lookup_1 _ _ _ _ Hall Erb)].
Qed.

Lemma newest_spec cols all :
  Forall (placed cols) all →
  newest_of cols all (fold_left (keep_newest cols all) (seq 0 (length all)) ∅) (length all).
Proof.
  intros Hall. assert (H : ∀ n, newest_of cols all (fold_left (keep_newest cols all) (seq 0 n) ∅) n).
  { induction n as [|n IH]; [split; [intros k i H; simpl in H; by apply lookup_empty_Some in H|lia]|].
    rewrite seq_S, fold_left_app. by apply keep_newest_spec. }
  apply H.
Qed.

Lemma newest_values_NoDup cols all newest m :
  newest_of cols all newest m → NoDup (map_to_list newest).*2.
Proof.
  intros [Hk _]. apply NoDup_fmap_2_strong; [|apply NoDup_map_to_list].
  intros [k i] [k' i'] H H' E. apply elem_of_map_to_list in H, H'. simpl in E. subst i'.
  apply Hk in H as [_ H], H' as [_ H']. congruence.
Qed.

(** The rows at positions that hold one key each. *)
Lemma one_row_per_key cols all newest m l :
  newest_of cols all newest m → NoDup l → (∀ i, i ∈ l → ∃ k, newest !! k = Some i) →
  NoDup (key_of cols <$> omap (λ i, all !! i) l).
Proof.
  intros [Hk _] Hnd. induction Hnd as [|i l Hi Hnd IH]; intros Hl; [constructor|].
  destruct (Hl i) as [k Ek]; [by left|]. destruct (Hk _ _ Ek) as [_ H].
  apply bind_Some in H as (r & Er & Ekey). simpl. rewrite Er. cbn [fmap list_fmap].
  apply NoDup_cons. split; [|apply IH; intros j Hj; apply Hl; by right].
  intros (r' & E & Hr')%list_elem_of_fmap. apply list_elem_of_omap in Hr' as (j & Hj & Ej).
  destruct (Hl j) as [k' Ek']; [by right|]. destruct (Hk _ _ Ek') as [_ H].
  rewrite Ej in H. simpl in H. rewrite Ekey, H in E. injection E as ->.
  rewrite Ek in Ek'. injection Ek' as <-. done.
Qed.

(** What a collapsed batch is to the rows it came from. *)
Record collapsed (cols : Columns) (all out : list (Row V)) : Prop := {
  co_sub : ∀ r, r ∈ out → r ∈ all;
  co_key : NoDup (key_of cols <$> out);
  co_newest : ∀ x, x ∈ all → ∃ r, r ∈ out ∧ key_of cols r = key_of cols x ∧ not_after cols x r;
}.

Lemma all_kept cols all newest :
  newest_of cols all newest (length all) → size newest = length all → ∀ i, (i < length all)%nat →
  ∃ k, newest !! k = Some i.
Proof.
  intros Hn Hsz i Hi. pose proof (newest_values_NoDup _ _ _ _ Hn) as Hnd.
  assert (Hp : (map_to_list newest).*2 ≡ₚ seq 0 (length all)).
  { apply submseteq_length_Permutation.
    - apply NoDup_submseteq; [done|]. intros j ([k j'] & -> & H)%list_elem_of_fmap.
      apply elem_of_map_to_list in H. apply (no_key _ _ _ _ Hn) in H as [H _].
      apply elem_of_seq. simpl. lia.
    - rewrite length_seq, length_fmap, length_map_to_list. lia. }
  assert (H : i ∈ (map_to_list newest).*2) by (rewrite Hp; apply elem_of_seq; lia).
  apply list_elem_of_fmap in H as ([k j] & -> & H). apply elem_of_map_to_list in H. by exists k.
Qed.

Lemma omap_seq (l : list (Row V)) : omap (λ i, l !! i) (seq 0 (length l)) = l.
Proof.
  assert (H : ∀ l' n, (∀ i, l !! (n + i)%nat = l' !! i) → omap (λ i, l !! i) (seq n (length l')) = l').
  { induction l' as [|x l' IH]; intros n Hn; [done|]. simpl.
    pose proof (Hn 0%nat) as H0. rewrite Nat.add_0_r in H0. rewrite H0. simpl. f_equal. apply IH.
    intros i. pose proof (Hn (S i)) as Hi. by rewrite Nat.add_succ_r in Hi. }
  by apply H.
Qed.

Lemma collapse_rows cols all :
  Forall (placed cols) all →
  let newest := fold_left (keep_newest cols all) (seq 0 (length all)) ∅ in
  (size newest = length all → collapsed cols all all) ∧
  collapsed cols all (omap (λ i, all !! i) (merge_sort Nat.le (map_to_list newest).*2)).
Proof.
  intros Hall newest. pose proof (newest_spec cols all Hall) as Hn. fold newest in Hn. split.
  - intros Hsz. pose proof (all_kept _ _ _ Hn Hsz) as Hkept. split; [done| |].
    + rewrite <-(omap_seq all) at 1. apply (one_row_per_key cols all newest (length all)); [done| |].
      * apply NoDup_seq.
      * intros i Hi%elem_of_seq. apply Hkept. lia.
    + intros x Hx. exists x. split; [done|]. split; [done|]. apply not_after_refl.
      by eapply Forall_forall in Hall as [_ ?].
  - assert (Hin : ∀ i, i ∈ merge_sort Nat.le (map_to_list newest).*2 ↔ ∃ k, newest !! k = Some i).
    { intros i. rewrite merge_sort_Permutation, list_elem_of_fmap. split.
      - intros ([k j] & -> & H). apply elem_of_map_to_list in H. by exists k.
      - intros [k H]. exists (k, i). split; [done|]. by apply elem_of_map_to_list. }
    split.
    + intros r (i & _ & Hi)%list_elem_of_omap. by apply list_elem_of_lookup_2 in Hi.
    + apply (one_row_per_key cols all newest (length all)); [done| |intros i; apply Hin].
      rewrite merge_sort_Permutation. by eapply newest_values_NoDup.
    + intros x [i Hi]%list_elem_of_lookup_1. pose proof (Forall_lookup_1 _ _ _ _ Hall Hi) as [[k Hk] _].
      destruct (no_best _ _ _ _ Hn i x k) as (j & r & Hj & Hr & Hle); [by apply lookup_lt_Some in Hi|done|done|].
      exists r. split; [|split; [|done]].
      * apply list_elem_of_omap. exists j. split; [apply Hin; eauto|done].
      * destruct (no_key _ _ _ _ Hn _ _ Hj) as [_ H]. rewrite Hr in H. simpl in H. congruence.
Qed.

Lemma column_ok b c col : column b c = Ok col → c ∈ schema b ∧ col = (λ r : Row V, r !! c) <$> rows b.
Proof. unfold column. case_bool_decide; [|done]. by intros [= <-]. Qed.

Lemma null_count_0 (col : list (option V)) : null_count col = 0%nat → full col.
Proof.
  unfold null_count, full. induction col as [|[v|] col IH]; simpl; [constructor| |done].
  intros H. constructor; [eauto|by apply IH].
Qed.

Lemma require_full_ok b l :
  require_full b l = Ok tt → ∀ c msg, (c, msg) ∈ l → full ((λ r : Row V, r !! c) <$> rows b).
Proof.
  induction l as [|[c0 m0] l IH]; simpl; [by intros _ c msg ?%elem_of_nil|].
  destruct (column b c0) as [col|e] eqn:E; [|done]. apply column_ok in E as [_ ->].
  destruct (Nat.ltb_spec 0 (null_count ((λ r : Row V, r !! c0) <$> rows b))); [done|].
  intros H0 c msg [[= -> ->]|Hin]%elem_of_cons; [apply null_count_0; lia|by apply (IH H0 c msg)].
Qed.

(** Every row of a collapsed batch can be placed, and the batch is what [collapsed] says. *)
Lemma collapse_ok cols batches b :
  collapse cols batches = Ok b →
  Forall (placed cols) (concat (rows <$> batches)) ∧
  collapsed cols (concat (rows <$> batches)) (rows b) ∧
  ∀ b', b' ∈ batches → schema b' = schema b.
Proof.
  unfold collapse. destruct batches as [|first l]; [done|].
  unfold concat_batches. destruct (forallb _ _) eqn:Ef; [|done]. cbv iota beta zeta.
  assert (Hs : ∀ b', b' ∈ first :: l → schema b' = schema first).
  { intros b' Hb'. apply list_elem_of_In in Hb'. rewrite forallb_forall in Ef.
    apply Ef, bool_decide_eq_true in Hb'. done. }
  clear Ef. set (all := concat (rows <$> first :: l)). cbn [rows schema].
  destruct all as [|r0 rs] eqn:Eall.
  { intros [= <-]. cbn [rows schema]. split; [constructor|]. split; [|exact Hs].
    split; [done|constructor|by intros x ?%elem_of_nil]. }
  rewrite <-Eall. set (bb := {| schema := schema first; rows := all |}).
  destruct (require_full _ _) as [[]|e] eqn:Er; [|done].
  assert (Hall : Forall (placed cols) all).
  { pose proof (require_full_ok _ _ Er) as H. apply Forall_forall. intros r Hr.
    assert (Hc : ∀ c msg, (c, msg) ∈ (c_key cols, "the upsert key contains nulls")
       :: (c_sequence cols, "the upsert sequence contains nulls")
       :: ((., "an upsert tie-breaker contains nulls") <$> c_tiebreak cols) → is_Some (r !! c)).
    { intros c msg Hin. specialize (H c msg Hin). unfold full in H. rewrite Forall_fmap in H.
      by eapply Forall_forall in H. }
    split.
    - unfold key_of. destruct (Hc (c_key cols) "the upsert key contains nulls") as [v ->]; [by left|eauto].
    - unfold ordered_row, full, order_of. apply Forall_fmap, Forall_forall.
      intros c [->|Hin]%elem_of_cons; [eapply Hc; right; by left|].
      eapply (Hc c). right. right. apply list_elem_of_fmap. by exists c. }
  destruct (collapse_rows cols all Hall) as [H1 H2].
  destruct (decide _) as [Hsz|_]; intros [= <-]; cbn [rows schema]; (split; [done|]);
    (split; [|exact Hs]); [by apply H1|done].
Qed.

(** ** The window *)

Section Window.
Context (cols : Columns) (bounds : BatchBounds) (floor : option Bound).

Definition key_stats (st : FileStats) : ColumnStats :=
  stats_of st (c_key cols) (default (B_Int 0) (head (keys bounds))) (key_slack bounds).
Definition sequence_stats (st : FileStats) : ColumnStats :=
  stats_of st (c_sequence cols) (sequence_min bounds) (sequence_slack bounds).

(** A file that provably holds none of the keys. *)
Definition excluded (f : File) : Prop :=
  ∃ st mn mx, f_stats f = Some (Some st) ∧ cs_min (key_stats st) = Some mn ∧
    cs_max (key_stats st) = Some mx ∧ range_touches_any mn mx (keys bounds) = false.

(** A file whose least sequence the bound is at or below. *)
Definition reached (l : Bound) (f : File) : Prop :=
  ∃ st smin, f_stats f = Some (Some st) ∧ cs_min (sequence_stats st) = Some smin ∧
    below_b smin l = false.

Definition at_floor (l : Bound) : Prop := ∃ fl, floor = Some fl ∧ at_most l fl = true.

Context (ks : kind).
Definition sequence_typed (f : File) : Prop :=
  ∀ st smin, f_stats f = Some (Some st) → cs_min (sequence_stats st) = Some smin → of_kind ks smin.

Lemma at_most_iff a b : of_kind ks a → of_kind ks b → at_most a b = negb (below_b b a).
Proof.
  destruct ks, a as [x|x|x], b as [y|y|y]; try done; intros Ha Hb; unfold at_most.
  - rewrite int_below. simpl. destruct (Z.compare_spec x y); lia.
  - rewrite float_below by done. simpl. rewrite compare_place by done.
    destruct (Z.compare_spec (place x) (place y)); lia.
  - simpl. destruct (below_b (B_Text y) (B_Text x)) eqn:E.
    + apply text_below in E as [H1 H2]. destruct (String.compare x y) eqn:Ec; [| |done].
      * by apply String.compare_eq_iff in Ec as ->.
      * apply text_compare_lt in Ec as [H3 _]. exfalso. apply H2. by apply (anti_symm String.le).
    + apply not_true_iff_false in E. rewrite text_below in E.
      destruct (String.compare x y) eqn:Ec; [done|done|]. exfalso. apply E. split.
      * destruct (String.le_total x y) as [H|H]; [|done].
        assert (H' : x ≠ y) by (intros ->; by rewrite text_compare_refl in Ec).
        assert (String.compare x y = Lt) by (by apply text_compare_lt). congruence.
      * intros ->. by rewrite text_compare_refl in Ec.
Qed.

(** Files are excluded, or the bound came down to them, or the walk stopped at the floor. *)
Lemma walk_files_spec files low c e low' c' e' :
  Forall sequence_typed files → (∀ l, low = Some l → of_kind ks l) →
  walk_files cols bounds floor files low c e = inr (low', c', e') →
  (∀ l, low = Some l → ∃ l', low' = Some l' ∧ below_b l l' = false) ∧
  (∀ l, low' = Some l → of_kind ks l) ∧
  (∀ f, f ∈ files → excluded f ∨ ∃ l, low' = Some l ∧ (reached l f ∨ at_floor l)).
Proof.
  revert low c e. induction files as [|f files IH]; intros low c e Hty Hlow.
  { intros [= <- <- <-]. split; [|split; [done|by intros f ?%elem_of_nil]].
    intros l Hl. exists l. split; [done|]. eapply below_irrefl. by apply Hlow. }
  apply Forall_cons in Hty as [Hf Hty]. cbn [walk_files].
  destruct (f_stats f) as [[st|]|] eqn:Est; [|done|done].
  destruct (cs_min (stats_of st (c_key cols) _ _)) as [mn|] eqn:Emn; [|done].
  destruct (cs_max (stats_of st (c_key cols) _ _)) as [mx|] eqn:Emx; [|done].
  destruct (range_touches_any mn mx (keys bounds)) eqn:Et; cbn [negb].
  2: { intros H. destruct (IH _ _ _ Hty Hlow H) as (H1 & H2 & H3). split; [done|]. split; [done|].
       intros f' [->|Hin]%elem_of_cons; [left; by exists st, mn, mx|by apply H3]. }
  destruct (cs_min (stats_of st (c_sequence cols) _ _)) as [smin|] eqn:Es; [|done].
  assert (Hsk : of_kind ks smin) by (by eapply Hf).
  set (lowered := match low with Some cur => negb (at_most cur smin) | None => true end).
  set (low1 := if lowered then Some smin else low).
  assert (H1 : ∃ l1, low1 = Some l1 ∧ of_kind ks l1 ∧ below_b smin l1 = false ∧
    ∀ l, low = Some l → below_b l l1 = false).
  { unfold low1, lowered. destruct low as [cur|].
    - pose proof (Hlow _ eq_refl) as Hc. rewrite at_most_iff, negb_involutive by done.
      destruct (below_b smin cur) eqn:Eb.
      + exists smin. split; [done|]. split; [done|]. split; [by eapply below_irrefl|].
        intros l [= <-]. by apply (below_asym ks).
      + exists cur. split; [done|]. split; [done|]. split; [done|]. intros l [= <-].
        by eapply below_irrefl.
    - exists smin. split; [done|]. split; [done|]. split; [by eapply below_irrefl|by intros l [=]]. }
  destruct H1 as (l1 & El1 & Hl1 & Hsm & Hle). rewrite El1. clearbody lowered low1.
  destruct (lowered && _) eqn:Ebr.
  - intros [= <- <- <-]. split; [intros l Hl; exists l1; split; [done|by apply Hle]|].
    split; [by intros l [= <-]|]. intros f' _. right. exists l1. split; [done|]. right.
    apply andb_true_iff in Ebr as [_ Ebr]. unfold at_floor.
    destruct floor as [fl|] eqn:Ef; [|done]. by exists fl.
  - intros H. assert (Hlow1 : ∀ l, Some l1 = Some l → of_kind ks l) by (by intros l [= <-]).
    destruct (IH _ _ _ Hty Hlow1 H) as (Ha & Hb & Hc).
    destruct (Ha l1 eq_refl) as (l' & El' & Hl'). split; [|split; [done|]].
    + intros l Hl. exists l'. split; [done|]. apply not_true_iff_false. intros Hx.
      apply (Hle l) in Hl as Hll. pose proof (Hlow _ Hl) as Hkl.
      rewrite (below_trans ks l l' l1) in Hll; try done. by apply Hb.
    + intros f' [->|Hin]%elem_of_cons; [|by apply Hc]. right. exists l'. split; [done|]. left.
      exists st, smin. split; [done|]. split; [done|]. apply not_true_iff_false. intros Hx.
      rewrite (below_trans ks smin l' l1) in Hsm; try done. by apply Hb.
Qed.
End Window.

(** ** Sorted keys *)

Lemma insert_bound_in b l x : x ∈ insert_bound b l ↔ x = b ∨ x ∈ l.
Proof.
  induction l as [|y l IH]; simpl; [by rewrite list_elem_of_singleton, elem_of_nil; naive_solver|].
  destruct (below_b y b); rewrite ?elem_of_cons, ?IH; naive_solver.
Qed.

Lemma sort_bounds_in l x : x ∈ sort_bounds l ↔ x ∈ l.
Proof.
  induction l as [|y l IH]; simpl; [done|]. by rewrite insert_bound_in, elem_of_cons, IH.
Qed.

Lemma insert_bound_ascending k b l :
  of_kind k b → Forall (of_kind k) l → ascending l → ascending (insert_bound b l).
Proof.
  intros Hb Hl Hs. unfold ascending in *. induction Hs as [|x l Hs IH Hx]; simpl.
  { repeat constructor. }
  apply Forall_cons in Hl as [Hkx Hl]. destruct (below_b x b) eqn:E.
  - constructor; [by apply IH|]. apply Forall_forall. intros y [->|Hy]%insert_bound_in.
    + by apply (below_asym k).
    + rewrite Forall_forall in Hx. by apply Hx.
  - constructor; [by constructor|]. constructor; [done|]. apply Forall_forall. intros y Hy.
    assert (Hky : of_kind k y) by (by eapply Forall_forall in Hl).
    eapply Forall_forall in Hx; [|exact Hy]. simpl in Hx. apply not_true_iff_false. intros Hyb.
    rewrite (below_trans k y b x) in Hx; done.
Qed.

Lemma sort_bounds_ascending k l : Forall (of_kind k) l → ascending (sort_bounds l).
Proof.
  induction 1 as [|b l Hb Hl IH]; [constructor|]. simpl. apply (insert_bound_ascending k); [done| |done].
  apply Forall_forall. intros x Hx. rewrite sort_bounds_in in Hx. rewrite Forall_forall in Hl. by apply Hl.
Qed.

Lemma dedup_from_sublist b l : dedup_from b l `sublist_of` l.
Proof.
  revert b. induction l as [|x l IH]; intros b; simpl; [done|].
  destruct (same_b x b); [by apply sublist_cons|by apply sublist_skip].
Qed.

Lemma dedup_sublist l : dedup l `sublist_of` l.
Proof. destruct l as [|b l]; [done|]. simpl. apply sublist_skip, dedup_from_sublist. Qed.

Lemma same_trans k a b c :
  of_kind k a → of_kind k b → of_kind k c → same a b → same b c → same a c.
Proof.
  destruct k, a as [x|x|x], b as [y|y|y], c as [z|z|z]; try done; intros Ha Hb Hc; unfold same; simpl.
  - intros [= ->%Z.compare_eq] [= ->%Z.compare_eq]. by rewrite Z.compare_refl.
  - rewrite !compare_place by done. intros [= ->%Z.compare_eq] [= ->%Z.compare_eq].
    by rewrite Z.compare_refl.
  - intros [= ->%String.compare_eq_iff] [= ->%String.compare_eq_iff]. by rewrite text_compare_refl.
Qed.

Lemma same_refl k a : of_kind k a → same a a.
Proof.
  destruct k, a as [x|x|x]; try done; intros H; unfold same; simpl.
  - by rewrite Z.compare_refl.
  - by rewrite compare_place, Z.compare_refl by done.
  - by rewrite text_compare_refl.
Qed.

(** Every value keeps a representative. *)
Lemma dedup_from_in k b l x :
  of_kind k b → Forall (of_kind k) l → x ∈ l → ∃ y, y ∈ b :: dedup_from b l ∧ same x y.
Proof.
  intros Hb Hl. revert b Hb. induction Hl as [|z l Hz Hl IH]; intros b Hb; [by intros ?%elem_of_nil|].
  simpl. intros [->|Hx]%elem_of_cons.
  - unfold same_b. destruct (partial_cmp z b) as [[]|] eqn:E;
      try (exists z; split; [right; left|by eapply same_refl]). exists b. split; [left|exact E].
  - destruct (same_b z b).
    + destruct (IH b Hb Hx) as (y & Hy & Hs). by exists y.
    + destruct (IH z Hz Hx) as (y & Hy & Hs). exists y. split; [by right|done].
Qed.

Lemma dedup_in k l x :
  Forall (of_kind k) l → x ∈ l → ∃ y, y ∈ dedup l ∧ same x y.
Proof.
  intros Hl Hx. destruct Hl as [|b l Hb Hl]; [by apply elem_of_nil in Hx|].
  apply elem_of_cons in Hx as [->|Hx]; [exists b; split; [left|by eapply same_refl]|].
  by apply (dedup_from_in k).
Qed.

Lemma ascending_sublist l l' : l `sublist_of` l' → ascending l' → ascending l.
Proof.
  induction 1 as [|x l l' Hs IH|x l l' Hs IH]; intros H; [constructor| |];
    apply StronglySorted_inv in H as [H1 H2].
  - constructor; [by apply IH|]. rewrite Forall_forall in *. intros y Hy. apply H2.
    by eapply elem_of_sublist.
  - by apply IH.
Qed.

(** ** The window loses no match *)

Section Complete.
Context (cols : Columns) (kk ks : kind).

(** What the bounds of a column's values rest on: the batch's are of its kind, and a file's
    statistics stand for its rows. *)
Definition typed (c : string) (k : kind) (r : Row V) : Prop :=
  ∀ v b, r !! c = Some v → bound_of v = Some b → of_kind k b.

Record truthful (bounds : BatchBounds) (f : File) : Prop := {
  tr_key : ∀ st r v mn mx, f_stats f = Some (Some st) → r ∈ f_rows f → r !! c_key cols = Some v →
    let cs := column_stats parse_timestamp_micros st (c_key cols)
                (default (B_Int 0) (head (keys bounds))) in
    cs_min cs = Some mn → cs_max cs = Some mx →
    of_kind kk (loosen_min (key_slack bounds) mn) ∧ of_kind kk (loosen_max (key_slack bounds) mx) ∧
    ∃ b, bound_of v = Some b ∧ of_kind kk b ∧ stands_for (key_slack bounds) mn mx b;
  tr_typed : sequence_typed cols bounds ks f;
  tr_value : ∀ r v, r ∈ f_rows f → r !! c_sequence cols = Some v →
    ∃ b, bound_of v = Some b ∧ of_kind ks b;
  tr_sequence : ∀ st r v smin, f_stats f = Some (Some st) → r ∈ f_rows f →
    r !! c_sequence cols = Some v → cs_min (sequence_stats cols bounds st) = Some smin →
    ∃ b, bound_of v = Some b ∧ of_kind ks b ∧ below_b b smin = false;
}.

(** A bound's literal is at or below every value whose bound is not below it. *)
Definition literals_low : Prop := ∀ lo l v b,
  of_kind ks lo → scalar_of_bound lo = Some l → bound_of v = Some b → of_kind ks b →
  below_b b lo = false → cmp v l ≠ Lt.

Lemma bounds_of_in (l : list (Row V)) c bs :
  bounds_of ((λ r : Row V, r !! c) <$> l) = Some bs →
  ∀ r v, r ∈ l → r !! c = Some v → ∃ b, bound_of v = Some b ∧ b ∈ bs.
Proof.
  unfold bounds_of. intros H%mapM_Some r v Hr Hv.
  assert (Hin : v ∈ omap id ((λ r : Row V, r !! c) <$> l)).
  { apply list_elem_of_omap. exists (Some v). split; [|done]. rewrite <-Hv. apply list_elem_of_fmap. eauto. }
  apply list_elem_of_lookup in Hin as [i Hi].
  destruct (Forall2_lookup_l _ _ _ _ _ H Hi) as (b & Hb & E). exists b. split; [done|].
  by apply list_elem_of_lookup_2 in Hb.
Qed.

Lemma bounds_of_typed (l : list (Row V)) c k bs :
  Forall (typed c k) l → bounds_of ((λ r : Row V, r !! c) <$> l) = Some bs → Forall (of_kind k) bs.
Proof.
  unfold bounds_of. intros Ht H%mapM_Some. apply Forall_forall. intros b Hb.
  apply list_elem_of_lookup in Hb as [i Hi].
  destruct (Forall2_lookup_r _ _ _ _ _ H Hi) as (v & Hv & E).
  apply list_elem_of_lookup_2, list_elem_of_omap in Hv as (o & Ho & Eo).
  apply list_elem_of_fmap in Ho as (r & -> & Hr). rewrite Forall_forall in Ht. by apply (Ht r Hr v).
Qed.

Lemma reduce_min_in l m : reduce_min l = Some m → m ∈ l.
Proof.
  destruct l as [|a l]; [done|]. intros [= <-]. revert a.
  induction l as [|b l IH]; intros a; simpl; [by left|].
  specialize (IH (if below_b b a then b else a)). apply elem_of_cons in IH as [->|IH].
  - destruct (below_b b a); [right; left|left].
  - by do 2 right.
Qed.

(** The bounds of a batch: its keys ascending, each represented. *)
Lemma batch_bounds_spec (b : RecordBatch V) bounds :
  Forall (typed (c_key cols) kk) (rows b) → Forall (typed (c_sequence cols) ks) (rows b) →
  batch_bounds cols b = Some bounds →
  Forall (of_kind kk) (keys bounds) ∧ ascending (keys bounds) ∧ of_kind ks (sequence_min bounds) ∧
  key_slack bounds = slack_of (c_key cols) ∧
  (∀ r v, r ∈ rows b → r !! c_key cols = Some v →
   ∃ x k, bound_of v = Some x ∧ k ∈ keys bounds ∧ same x k ∧ of_kind kk x).
Proof.
  intros Hk Hs H. unfold batch_bounds in H. destruct (rows b) as [|r0 rs] eqn:Er; [done|].
  rewrite <-Er in *.
  apply bind_Some in H as (kc & Ekc & H). apply bind_Some in H as (kb & Ekb & H).
  apply bind_Some in H as (sc & Esc & H). apply bind_Some in H as (sb & Esb & H).
  apply bind_Some in H as (m & Em & [= <-]). cbn [keys sequence_min key_slack].
  assert (Hcol : ∀ c col, ok (column b c) = Some col → col = (λ r : Row V, r !! c) <$> rows b).
  { intros c col E. destruct (column b c) eqn:Ec; [|done]. injection E as ->. by apply column_ok in Ec as [_ ?]. }
  apply Hcol in Ekc, Esc. subst kc sc. clear Hcol.
  pose proof (bounds_of_typed _ _ _ _ Hk Ekb) as Hkb. pose proof (bounds_of_typed _ _ _ _ Hs Esb) as Hsb.
  assert (Hsort : Forall (of_kind kk) (sort_bounds kb)).
  { rewrite Forall_forall in *. intros x Hx. rewrite sort_bounds_in in Hx. by apply Hkb. }
  split; [|split; [|split; [|split; [done|]]]].
  - rewrite Forall_forall in *. intros x Hx. apply Hsort. by eapply elem_of_sublist, dedup_sublist.
  - eapply ascending_sublist; [apply dedup_sublist|]. by eapply sort_bounds_ascending.
  - rewrite Forall_forall in Hsb. apply Hsb. by apply reduce_min_in.
  - intros r v Hr Hv. destruct (bounds_of_in _ _ _ Ekb r v Hr Hv) as (x & Ex & Hx).
    assert (Hkx : of_kind kk x) by (rewrite Forall_forall in Hkb; by apply Hkb).
    destruct (dedup_in kk (sort_bounds kb) x Hsort) as (k & Hin & Hsame); [by rewrite sort_bounds_in|].
    by exists x, k.
Qed.

(** A file with a row of one of the batch's keys is not excluded. *)
Lemma not_excluded bounds f r v x k :
  Forall (of_kind kk) (keys bounds) → ascending (keys bounds) → truthful bounds f → r ∈ f_rows f →
  r !! c_key cols = Some v → bound_of v = Some x → k ∈ keys bounds → same x k →
  ¬ excluded cols bounds f.
Proof.
  intros Hkd Hasc Ht Hr Hv Hx Hin Hs (st & mn & mx & Est & Emn & Emx & Hto).
  unfold key_stats, stats_of in Emn, Emx. rewrite loosened_min in Emn. rewrite loosened_max in Emx.
  apply fmap_Some in Emn as (mn0 & E1 & ->). apply fmap_Some in Emx as (mx0 & E2 & ->).
  destruct (tr_key _ _ Ht st r v mn0 mx0 Est Hr Hv E1 E2) as (H1 & H2 & b & Eb & Hb & Hsf).
  rewrite Hx in Eb. injection Eb as <-.
  rewrite (touches_exact kk) in Hto by done. apply not_true_iff_false in Hto. apply Hto.
  apply existsb_exists. exists k. split; [by apply list_elem_of_In|].
  eapply (covered_touches kk _ _ x k); try done; [|by apply loosened_covers].
  rewrite Forall_forall in Hkd. by apply Hkd.
Qed.

(** The floor a lookback puts under the window. *)
Definition floor_of (lookback : option Lookback) (bounds : BatchBounds) : option Bound :=
  l ← lookback; floor_below l (sequence_min bounds) (is_temporal (c_sequence cols)).

Lemma floor_of_typed lookback bounds fl :
  (ks = K_Float → lookback = None) → of_kind ks (sequence_min bounds) →
  floor_of lookback bounds = Some fl → of_kind ks fl.
Proof.
  intros Hno Hk. unfold floor_of. destruct lookback as [l|]; [|done]. simpl.
  destruct ks, (sequence_min bounds) as [x|x|x]; try done.
  - destruct l, (is_temporal _); simpl; try done; by intros [= <-].
  - intros _. by specialize (Hno eq_refl).
  - by destruct l.
Qed.

Lemma walk_files_unbounded bounds fl target low c e w :
  walk_files cols bounds fl target low c e = inl w → lower w = None.
Proof.
  revert low c e. induction target as [|f target IH]; intros low c e; [done|]. cbn [walk_files].
  destruct (f_stats f) as [[st|]|]; try by intros [= <-].
  destruct (cs_min _) as [mn|]; [|by intros [= <-]].
  destruct (cs_max _) as [mx|]; [|by intros [= <-]].
  destruct (range_touches_any mn mx (keys bounds)); cbn [negb]; [|apply IH].
  destruct (cs_min _) as [smin|]; [|by intros [= <-]]. destruct (_ && _); [done|apply IH].
Qed.

(** The bound drawn is at or below a stored row of one of the keys, unless that row is below
    the floor. *)
Lemma plan_window_reaches target bounds lookback w f t x k u :
  (ks = K_Float → lookback = None) →
  Forall (of_kind kk) (keys bounds) → ascending (keys bounds) → of_kind ks (sequence_min bounds) →
  Forall (truthful bounds) target →
  plan_window cols target bounds lookback (is_temporal (c_sequence cols)) = Ok w →
  f ∈ target → t ∈ f_rows f → t !! c_sequence cols = Some u →
  (t !! c_key cols ≫= bound_of) = Some x → k ∈ keys bounds → same x k →
  lower w = None ∨
  ∃ lo b, lower w = Some lo ∧ of_kind ks lo ∧ bound_of u = Some b ∧ of_kind ks b ∧
    (below_b b lo = false ∨ ∃ fl, floor_of lookback bounds = Some fl ∧ below_b b fl = true).
Proof.
  intros Hno Hkd Hasc Hsm Htr Hp Hf Ht Hu Hx Hk Hs. unfold plan_window in Hp.
  assert (Htf : truthful bounds f) by (rewrite Forall_forall in Htr; by apply Htr).
  assert (Hfl : ∃ fl, floor_of lookback bounds = fl ∧
    match walk_files cols bounds fl target None 0 0 with
    | inl w => Ok w
    | inr (low, candidates, examined) =>
        let low := default (sequence_min bounds) low in
        let '(low, clamped) := match fl with
                               | Some f => if below_b low f then (f, true) else (low, false)
                               | None => (low, false)
                               end in
        Ok {| lower := Some low; clamped := clamped; candidate_files := candidates;
              examined_files := examined; unbounded_because := None |}
    end = @Ok Error Window w).
  { unfold floor_of. destruct lookback as [l|]; [|by exists None]. simpl.
    destruct (floor_below _ _ _) as [fl|]; [by exists (Some fl)|done]. }
  clear Hp. destruct Hfl as (fl & Efl & Hp).
  assert (Hkf : ∀ fb, fl = Some fb → of_kind ks fb).
  { intros fb ->. by apply (floor_of_typed lookback bounds). }
  destruct (walk_files _ _ _ _ _ _ _) as [w'|[[low c] e]] eqn:Ew.
  { injection Hp as ->. left. by eapply walk_files_unbounded. }
  right. assert (Hty : Forall (sequence_typed cols bounds ks) target).
  { eapply Forall_impl; [exact Htr|]. intros f' Hf'. by apply tr_typed. }
  destruct (walk_files_spec cols bounds fl ks target None 0 0 low c e Hty) as (_ & Hlk & Hr);
    [by intros l [=]|done|].
  apply bind_Some in Hx as (v & Ev & Ex).
  destruct (Hr f Hf) as [Hex|(l & El & Hl)].
  { exfalso. by eapply (not_excluded bounds f t v x k). }
  subst low. pose proof (Hlk _ eq_refl) as Hkl. cbn [default from_option] in Hp. unfold id in Hp. cbv zeta in Hp.
  destruct (tr_value _ _ Htf t u Ht Hu) as (b & Eb & Hkb).
  assert (Hb : below_b b l = false ∨ ∃ fb, fl = Some fb ∧ below_b b fb = true).
  { destruct Hl as [(st & smin & Est & Esm & Hsl)|(fb & Efb & Hat)].
    - left. destruct (tr_sequence _ _ Htf st t u smin Est Ht Hu Esm) as (b' & Eb' & _ & Hb').
      rewrite Eb in Eb'. injection Eb' as <-. apply not_true_iff_false. intros Hx.
      rewrite (below_trans ks b l smin) in Hb'; try done. by eapply (tr_typed _ _ Htf).
    - destruct (below_b b fb) eqn:Ebf; [right; eauto|left].
      rewrite (at_most_iff ks) in Hat by auto. apply negb_true_iff in Hat.
      apply not_true_iff_false. intros Hx. by rewrite (below_trans ks b l fb) in Ebf; auto. }
  destruct fl as [fb|].
  - destruct (below_b l fb) eqn:Elf; injection Hp as <-; cbn [lower].
    + exists fb, b. do 4 (split; [by auto|]). destruct (below_b b fb) eqn:Ebf; [right; eauto|by left].
    + exists l, b. do 4 (split; [by auto|]). rewrite Efl. exact Hb.
  - injection Hp as <-. cbn [lower]. exists l, b. do 4 (split; [by auto|]). rewrite Efl. exact Hb.
Qed.

(** What the window's exactness rests on: comparable values of one kind, statistics that stand
    for the rows of their files, and literals that are not above the bound they stand for. *)
Record sound_statistics (target : list File) (batch : RecordBatch V) : Prop := {
  ss_key : Forall (typed (c_key cols) kk) (rows batch);
  ss_sequence : Forall (typed (c_sequence cols) ks) (rows batch);
  ss_files : ∀ bounds, batch_bounds cols batch = Some bounds → Forall (truthful bounds) target;
  ss_literals : literals_low;
}.

(** A stored row not below the floor of a lookback. *)
Definition above_floor (lookback : option Lookback) (batch : RecordBatch V) (t : Row V) : Prop :=
  ∀ bounds fl v b, batch_bounds cols batch = Some bounds → floor_of lookback bounds = Some fl →
    t !! c_sequence cols = Some v → bound_of v = Some b → below_b b fl = false.

Lemma window_matches target batch lookback upd plan s t :
  (ks = K_Float → lookback = None) → sound_statistics target batch →
  resolve cols target batch lookback upd = Ok plan →
  s ∈ rows batch → t ∈ table_rows target → is_Some (t !! c_sequence cols) →
  (is_true (p_predicate plan s t) = true → s !! c_key cols = t !! c_key cols) ∧
  (s !! c_key cols = t !! c_key cols → is_Some (s !! c_key cols) →
   above_floor lookback batch t → is_true (p_predicate plan s t) = true).
Proof.
  intros Hno [Hsk Hss Hfiles Hlit] Hres Hs Ht [u Hu]. unfold resolve in Hres.
  case_bool_decide; [done|].
  destruct (batch_bounds cols batch) as [bounds|] eqn:Eb.
  2: { unfold predicate in Hres. simpl in Hres. injection Hres as <-. simpl.
       split; [intros [H' _]%sql_eq_true; congruence|].
       intros Ek [v Hv] _. apply sql_eq_true. split; [congruence|]. rewrite <-Ek. eauto. }
  destruct (plan_window _ _ _ _ _) as [w|] eqn:Ew; [|done].
  destruct (batch_bounds_spec batch bounds Hsk Hss Eb) as (Hkd & Hasc & Hsm & _ & Hrep).
  specialize (Hfiles _ eq_refl). unfold predicate in Hres.
  apply elem_of_table_rows in Ht as (f & Hf & Ht).
  destruct (lower w) as [lo|] eqn:Elo.
  2: { injection Hres as <-. simpl. split; [intros [H' _]%sql_eq_true; congruence|].
       intros Ek [v Hv] _. apply sql_eq_true. split; [congruence|]. rewrite <-Ek. eauto. }
  destruct (scalar_of_bound lo) as [lit|] eqn:El; [|done]. injection Hres as <-. simpl.
  split; [intros [[H' _]%sql_eq_true _]%sql_and_true; congruence|].
  intros Ek [v Hv] Hfl. apply sql_and_true. split; [apply sql_eq_true; rewrite <-Ek; eauto|].
  destruct (Hrep s v Hs Hv) as (x & k & Ex & Hk & Hsame & Hkx).
  destruct (plan_window_reaches target bounds lookback w f t x k u) as [Hn|(lo' & b & E1 & Hlo & Eub & Hkb & Hb)];
    try done; [by rewrite <-Ek, Hv|congruence|].
  rewrite Elo in E1. injection E1 as <-. rewrite Hu. simpl.
  destruct Hb as [Hb|(fl & Efl & Hb)]; [|by rewrite (Hfl bounds fl u b) in Hb].
  pose proof (Hlit lo lit u b Hlo El Eub Hkb Hb). by destruct (cmp u lit).
Qed.
End Complete.

(** ** Merging keeps the newest row of every key *)

Section Converge.
Context (cols : Columns) (kk ks : kind).

(** A row of the columns given. *)
Definition within (cs : list string) (r : Row V) : Prop := ∀ c, is_Some (r !! c) → c ∈ cs.

Lemma fold_set_cell (s t : Row V) cs c :
  fold_left (set_cell s) cs t !! c = if decide (c ∈ cs) then s !! c else t !! c.
Proof.
  revert t. induction cs as [|c0 cs IH]; intros t; cbn [fold_left].
  { by rewrite decide_False by (by intros ?%elem_of_nil). }
  rewrite IH. destruct (decide (c ∈ cs)) as [Hc|Hc].
  { by rewrite decide_True by by right. }
  unfold set_cell. destruct (decide (c = c0)) as [->|Hne].
  - rewrite decide_True by by left.
    destruct (s !! c0); [apply lookup_insert_eq|apply lookup_delete_eq].
  - rewrite decide_False by (intros [?|?]%elem_of_cons; done).
    destruct (s !! c0); [by apply lookup_insert_ne|by apply lookup_delete_ne].
Qed.

Lemma set_all (s t : Row V) cs : within cs s → within cs t → fold_left (set_cell s) cs t = s.
Proof.
  intros Hs Ht. apply map_eq. intros c. rewrite fold_set_cell.
  destruct (decide (c ∈ cs)) as [|Hc]; [done|].
  destruct (t !! c) eqn:Et; [exfalso; apply Hc, Ht; by rewrite Et|].
  destruct (s !! c) eqn:Es; [exfalso; apply Hc, Hs; by rewrite Es|done].
Qed.

(** A plan that matches by key alone and writes whole rows. *)
Record by_key (p : MergePlan) (rs out : list (Row V)) : Prop := {
  bk_match : ∀ s t, s ∈ out → t ∈ rs →
    is_true (p_predicate p s t) = true ↔ key_of cols s = key_of cols t;
  bk_newer : ∀ s t, s ∈ out → t ∈ rs →
    is_true (p_newer p s t) = true ↔ row_cmp (order_of cols s) (order_of cols t) = Gt;
  bk_update : ∀ s t, s ∈ out → t ∈ rs → updated (p_update_columns p) s t = s;
  bk_insert : ∀ s, s ∈ out → inserted (p_insert_columns p) s = s;
}.

Lemma find_spec {A} (f : A → bool) l :
  match List.find f l with
  | Some x => x ∈ l ∧ f x = true
  | None => ∀ x, x ∈ l → f x = false
  end.
Proof.
  destruct (List.find f l) as [x|] eqn:E.
  - apply List.find_some in E as [H1 H2]. by rewrite list_elem_of_In.
  - intros x Hx. apply (List.find_none _ _ E). by apply list_elem_of_In.
Qed.

Lemma merge_row_spec p rs out t :
  by_key p rs out → Forall (placed cols) rs → Forall (placed cols) out → t ∈ rs →
  let r := merge_row p out t in
  (r = t ∨ r ∈ out) ∧ key_of cols r = key_of cols t ∧ not_after cols t r ∧
  (∀ s, s ∈ out → NoDup (key_of cols <$> out) → key_of cols s = key_of cols t → not_after cols s r).
Proof.
  intros Hp Hrs Hout Ht r. unfold r, merge_row.
  rewrite Forall_forall in Hrs. rewrite Forall_forall in Hout.
  destruct (Hrs t Ht) as [_ Hot].
  pose proof (find_spec (λ s, is_true (p_predicate p s t)) out) as Hf.
  destruct (List.find _ out) as [s|].
  - destruct Hf as [Hs Hm]. apply (bk_match _ _ _ Hp) in Hm; [|done|done].
    destruct (Hout s Hs) as [_ Hos].
    assert (Huniq : ∀ s', s' ∈ out → NoDup (key_of cols <$> out) → key_of cols s' = key_of cols t → s' = s).
    { intros s' Hs' Hnd Hk. rewrite <-Hm in Hk. apply list_elem_of_lookup in Hs as [i Hi], Hs' as [j Hj].
      assert (i = j) as ->; [|congruence].
      eapply NoDup_lookup; [exact Hnd| |]; rewrite list_lookup_fmap; [rewrite Hi|rewrite Hj]; simpl; by f_equal. }
    destruct (is_true (p_newer p s t)) eqn:En.
    + rewrite (bk_update _ _ _ Hp) by done. split; [by right|]. split; [done|].
      apply (bk_newer _ _ _ Hp) in En; [|done|done]. split.
      * unfold not_after. rewrite row_cmp_antisym, En by done. done.
      * intros s' Hs' Hnd Hk. rewrite (Huniq s') by done. by apply not_after_refl.
    + split; [by left|]. split; [done|]. split; [by apply not_after_refl|].
      intros s' Hs' Hnd Hk. rewrite (Huniq s') by done. unfold not_after. intros Hgt.
      apply (bk_newer _ _ _ Hp) in Hgt; [|done|done]. congruence.
  - split; [by left|]. split; [done|]. split; [by apply not_after_refl|].
    intros s Hs _ Hk. apply (bk_match _ _ _ Hp) in Hk; [|done|done]. by rewrite Hf in Hk.
Qed.

Lemma unmatched_spec p rs out s :
  by_key p rs out → s ∈ out →
  unmatched p rs s = true ↔ ∀ t, t ∈ rs → key_of cols s ≠ key_of cols t.
Proof.
  intros Hp Hs. unfold unmatched. rewrite negb_true_iff, <-not_true_iff_false, existsb_exists. split.
  - intros H t Ht Hk. apply H. exists t. split; [by apply list_elem_of_In|]. by apply (bk_match _ _ _ Hp).
  - intros H (t & Ht%list_elem_of_In & Hm). apply (H t Ht). by apply (bk_match _ _ _ Hp).
Qed.

(** Merging the newest of a batch into the newest of what was seen leaves the newest of both. *)
Lemma sql_merge_newest p seen new rs out :
  by_key p rs out → Forall (placed cols) seen → Forall (placed cols) new →
  collapsed cols seen rs → collapsed cols new out →
  collapsed cols (seen ++ new) (sql_merge p rs out).
Proof.
  intros Hp Hseen Hnew [Hsub Hkey Hnewest] [Hsub' Hkey' Hnewest'].
  rewrite Forall_forall in Hseen. rewrite Forall_forall in Hnew.
  assert (Hrs : Forall (placed cols) rs) by (apply Forall_forall; auto).
  assert (Hout : Forall (placed cols) out) by (apply Forall_forall; auto).
  assert (Hrow : ∀ t, t ∈ rs → _) by (intros t Ht; exact (merge_row_spec p rs out t Hp Hrs Hout Ht)).
  assert (Hins : ∀ r, r ∈ inserted (p_insert_columns p) <$> List.filter (unmatched p rs) out ↔
    r ∈ out ∧ ∀ t, t ∈ rs → key_of cols r ≠ key_of cols t).
  { intros r. rewrite list_elem_of_fmap. split.
    - intros (s & -> & Hs%list_elem_of_In%filter_In). destruct Hs as [Hs%list_elem_of_In Hu].
      rewrite (bk_insert _ _ _ Hp) by done. split; [done|]. by apply (unmatched_spec p rs out).
    - intros [Hr Hu]. exists r. rewrite (bk_insert _ _ _ Hp) by done. split; [done|].
      apply list_elem_of_In, filter_In. split; [by apply list_elem_of_In|].
      by apply (unmatched_spec p rs out). }
  unfold sql_merge. split.
  - intros r. rewrite !elem_of_app, list_elem_of_fmap, Hins. intros [(t & -> & Ht)|[Hr _]]; [|auto].
    destruct (Hrow t Ht) as ([->|?] & _); auto.
  - rewrite fmap_app, <-list_fmap_compose. apply NoDup_app. repeat split.
    + erewrite list_fmap_ext; [exact Hkey|]. intros i t Hi. apply list_elem_of_lookup_2 in Hi.
      by destruct (Hrow t Hi) as (_ & E & _).
    + intros k (t & -> & Ht)%list_elem_of_fmap (r & E & Hr)%list_elem_of_fmap.
      apply Hins in Hr as [_ Hr]. destruct (Hrow t Ht) as (_ & E' & _). apply (Hr t Ht). simpl in *. congruence.
    + assert (E : inserted (p_insert_columns p) <$> List.filter (unmatched p rs) out =
                  List.filter (unmatched p rs) out).
      { rewrite <-(list_fmap_id (List.filter _ out)) at 2. apply list_fmap_ext. intros i s Hi.
        apply list_elem_of_lookup_2, list_elem_of_In, filter_In in Hi as [Hi _].
        apply (bk_insert _ _ _ Hp). by apply list_elem_of_In. }
      rewrite E. clear -Hkey'. induction out as [|s out IH]; [constructor|].
      apply NoDup_cons in Hkey' as [H1 H2]. simpl. destruct (unmatched p rs s); [|auto].
      apply NoDup_cons. split; [|auto]. intros (s' & E & Hs')%list_elem_of_fmap. apply H1.
      rewrite E. apply list_elem_of_fmap. exists s'. split; [done|].
      apply list_elem_of_In, filter_In in Hs' as [Hs' _]. by apply list_elem_of_In.
  - intros x [Hx|Hx]%elem_of_app.
    + destruct (Hnewest x Hx) as (r & Hr & Hk & Hle). destruct (Hrow r Hr) as (Hin & E & Hle' & _).
      exists (merge_row p out r). split; [apply elem_of_app; left; apply list_elem_of_fmap; eauto|].
      split; [congruence|]. apply (not_after_trans cols x r); try done.
      * by apply Hseen. * by apply Hseen, Hsub.
      * destruct Hin as [->|Hin]; [by apply Hseen, Hsub|by apply Hnew, Hsub'].
    + destruct (Hnewest' x Hx) as (s & Hs & Hk & Hle).
      destruct (decide (Exists (λ t, key_of cols s = key_of cols t) rs)) as [Hex|Hno].
      * apply Exists_exists in Hex as (t & Ht & Ekt). destruct (Hrow t Ht) as (Hin & E & _ & Hs').
        exists (merge_row p out t). split; [apply elem_of_app; left; apply list_elem_of_fmap; eauto|].
        split; [congruence|]. apply (not_after_trans cols x s); try done; [by apply Hnew|by apply Hnew, Hsub'| |by apply Hs'].
        destruct Hin as [->|Hin]; [by apply Hseen, Hsub|by apply Hnew, Hsub'].
      * exists s. split; [|done]. apply elem_of_app. right. apply Hins. split; [done|].
        intros t Ht Ekt. apply Hno, Exists_exists. eauto.
Qed.
End Converge.

(** ** Batch after batch *)

Section Run.
Context (cols : Columns) (kk ks : kind) (columns : list string).
(** MERGE does what SQL says; the order of the rows in the files is delta-rs's. *)
Context (merge_is_sql : ∀ p target b target', merge p target b = Ok target' →
  table_rows target' ≡ₚ sql_merge p (table_rows target) (rows b)).

Definition batch_rows (batches : list (RecordBatch V)) : list (Row V) := concat (rows <$> batches).

(** Batches of the target's columns, upserted one after the other without a lookback, against
    statistics that are sound. *)
Inductive upserted (target : list File) : list (list (RecordBatch V)) → list File → Prop :=
  | upserted_none : upserted target [] target
  | upserted_one batches target1 l target' :
      (∀ b, b ∈ batches → schema b = columns ∧ Forall (within columns) (rows b)) →
      (∀ b, collapse cols batches = Ok b → sound_statistics cols kk ks target b) →
      upsert cols None target batches columns = Ok target1 →
      upserted target1 l target' →
      upserted target (batches :: l) target'.

Lemma batch_rows_in batches r : r ∈ batch_rows batches ↔ ∃ b, b ∈ batches ∧ r ∈ rows b.
Proof.
  unfold batch_rows. induction batches as [|b l IH]; simpl.
  - rewrite elem_of_nil. split; [done|]. by intros (b & ?%elem_of_nil & _).
  - rewrite elem_of_app, IH. setoid_rewrite elem_of_cons. naive_solver.
Qed.

Lemma key_of_eq (s t : Row V) :
  is_Some (s !! c_key cols) → is_Some (t !! c_key cols) →
  key_of cols s = key_of cols t ↔ s !! c_key cols = t !! c_key cols.
Proof.
  unfold key_of. intros [v ->] [w ->]. simpl. split; [intros [= E%text_inj]; by subst|by intros [= ->]].
Qed.

Lemma resolve_fields target b lookback upd p :
  resolve cols target b lookback upd = Ok p →
  p_newer p = newer_than_stored cols ∧ p_update_columns p = upd ∧ p_insert_columns p = schema b.
Proof.
  unfold resolve. case_bool_decide; [done|].
  destruct (match batch_bounds cols b with Some _ => _ | None => _ end) as [w|]; [|done].
  destruct (predicate cols w); [|done]. by intros [= <-].
Qed.

Lemma has_key r : placed cols r → is_Some (r !! c_key cols).
Proof. intros [[k Hk] _]. unfold key_of in Hk. apply fmap_Some in Hk as (v & -> & _). eauto. Qed.

Lemma has_sequence r : placed cols r → is_Some (r !! c_sequence cols).
Proof. intros [_ Ho]. unfold ordered_row, order_of, full in Ho. by apply Forall_cons in Ho as [H _]. Qed.

(** The plan of a batch without a lookback matches by key alone. *)
Lemma plan_by_key target b p :
  resolve cols target b None columns = Ok p → sound_statistics cols kk ks target b →
  Forall (placed cols) (table_rows target) → Forall (placed cols) (rows b) →
  Forall (within columns) (table_rows target) → Forall (within columns) (rows b) →
  schema b = columns → by_key cols p (table_rows target) (rows b).
Proof.
  intros Hres Hss Ht Hb Htc Hbc Hcol. destruct (resolve_fields _ _ _ _ _ Hres) as (En & Eu & Ei).
  rewrite Forall_forall in Ht. rewrite Forall_forall in Hb.
  rewrite Forall_forall in Htc. rewrite Forall_forall in Hbc. split.
  - intros s t Hs Hin. rewrite key_of_eq by auto using has_key.
    destruct (window_matches cols kk ks target b None columns p s t) as [H1 H2];
      [done|done|done|done|done|by apply has_sequence, Ht|].
    split; [exact H1|]. intros Hk. apply H2; [done|by apply has_key, Hb|by intros bounds fl v x _ [=]].
  - intros s t Hs Hin. rewrite En. apply newer_is_lexicographic; [by apply Hb|by apply Ht].
  - intros s t Hs Hin. rewrite Eu. apply set_all; auto.
  - intros s Hs. rewrite Ei, Hcol. apply set_all; [by auto|]. intros c [v Hv]. by rewrite lookup_empty in Hv.
Qed.

Lemma collapsed_perm seen rs rs' : rs ≡ₚ rs' → collapsed cols seen rs → collapsed cols seen rs'.
Proof.
  intros E [H1 H2 H3]. split.
  - intros r. rewrite <-E. apply H1.
  - by rewrite <-E.
  - intros x Hx. destruct (H3 x Hx) as (r & Hr & H). exists r. by rewrite <-E.
Qed.

Lemma upsert_newest seen target batches target' :
  (∀ b, b ∈ batches → schema b = columns ∧ Forall (within columns) (rows b)) →
  (∀ b, collapse cols batches = Ok b → sound_statistics cols kk ks target b) →
  Forall (placed cols) seen → Forall (within columns) seen →
  collapsed cols seen (table_rows target) →
  upsert cols None target batches columns = Ok target' →
  Forall (placed cols) (seen ++ batch_rows batches) ∧
  Forall (within columns) (seen ++ batch_rows batches) ∧
  collapsed cols (seen ++ batch_rows batches) (table_rows target').
Proof.
  intros Hbs Hss Hp Hw Hc Hu. unfold upsert in Hu. destruct (collapse cols batches) as [b|] eqn:Ec; [|done].
  destruct (collapse_ok _ _ _ Ec) as (Hpb & Hcb & Hsch). specialize (Hss b eq_refl).
  assert (Hwb : Forall (within columns) (batch_rows batches)).
  { apply Forall_forall. intros r (x & Hx & Hr)%batch_rows_in. destruct (Hbs x Hx) as [_ H].
    rewrite Forall_forall in H. by apply H. }
  split; [by apply Forall_app|]. split; [by apply Forall_app|].
  unfold upsert_once in Hu. destruct (resolve cols target b None columns) as [p|] eqn:Er; [|done].
  eapply collapsed_perm; [symmetry; by apply (merge_is_sql p)|].
  apply sql_merge_newest; try done.
  assert (Hin : ∀ P, Forall P (batch_rows batches) → Forall P (rows b)).
  { intros P H. rewrite Forall_forall in *. intros r Hr. by apply H, (co_sub _ _ _ Hcb). }
  assert (Hin' : ∀ P, Forall P seen → Forall P (table_rows target)).
  { intros P H. rewrite Forall_forall in *. intros r Hr. by apply H, (co_sub _ _ _ Hc). }
  apply plan_by_key; auto. destruct batches as [|x l]; [done|].
  rewrite <-(Hsch x) by by left. by apply Hbs; left.
Qed.

Lemma upserted_newest seen target l target' :
  upserted target l target' → Forall (placed cols) seen → Forall (within columns) seen →
  collapsed cols seen (table_rows target) →
  Forall (placed cols) (seen ++ batch_rows (concat l)) ∧
  collapsed cols (seen ++ batch_rows (concat l)) (table_rows target').
Proof.
  intros H. revert seen. induction H as [target|target batches target1 l target' Hbs Hss Hu H IH];
    intros seen Hp Hw Hc; simpl.
  { unfold batch_rows. simpl. by rewrite app_nil_r. }
  destruct (upsert_newest seen target batches target1) as (Hp' & Hw' & Hc'); [done..|].
  unfold batch_rows. rewrite fmap_app, concat_app, app_assoc. by apply IH.
Qed.
End Run.
End Upsert.

(** ** Properties *)

(** Two targets that hold the newest rows of the same rows hold the same rows, when the
    tie-breakers decide between different rows of one key. *)
Definition ties_decided `{!Arrow V} (cols : Columns) (seen : list (Row V)) : Prop :=
  ∀ x y, x ∈ seen → y ∈ seen → key_of cols x = key_of cols y →
    row_cmp (order_of cols x) (order_of cols y) = Eq → x = y.

Lemma collapsed_subset `{!Arrow V} cols (seen1 seen2 rs1 rs2 : list (Row V)) :
  Forall (placed cols) seen1 → (∀ x, x ∈ seen1 ↔ x ∈ seen2) → ties_decided cols seen1 →
  collapsed cols seen1 rs1 → collapsed cols seen2 rs2 → ∀ r, r ∈ rs1 → r ∈ rs2.
Proof.
  intros Hp E Ht [S1 K1 N1] [S2 K2 N2] r Hr. rewrite Forall_forall in Hp.
  destruct (N2 r) as (r2 & Hr2 & Ek2 & Hle2); [by apply E, S1|].
  destruct (N1 r2) as (r1 & Hr1 & Ek1 & Hle1); [by apply E, S2|].
  assert (r1 = r) as ->.
  { apply list_elem_of_lookup in Hr1 as [i Hi], Hr as [j Hj]. assert (i = j) as ->; [|congruence].
    eapply NoDup_lookup; [exact K1| |]; rewrite list_lookup_fmap; [rewrite Hi|rewrite Hj]; simpl; [|done].
    f_equal. congruence. }
  assert (r = r2) as ->; [|done]. apply Ht; [by apply S1|by apply E, S2|done|].
  destruct (Hp r) as [_ Ho]; [by apply S1|]. destruct (Hp r2) as [_ Ho2]; [by apply E, S2|].
  unfold not_after in *. rewrite (row_cmp_antisym (order_of cols r)) in Hle1 by done.
  destruct (row_cmp (order_of cols r) (order_of cols r2)); done.
Qed.

Lemma collapsed_same `{!Arrow V} cols (seen1 seen2 rs1 rs2 : list (Row V)) :
  Forall (placed cols) seen1 → (∀ x, x ∈ seen1 ↔ x ∈ seen2) → ties_decided cols seen1 →
  collapsed cols seen1 rs1 → collapsed cols seen2 rs2 → rs1 ≡ₚ rs2.
Proof.
  intros Hp E Ht H1 H2. apply NoDup_Permutation.
  - eapply NoDup_fmap_1, (co_key _ _ _ H1).
  - eapply NoDup_fmap_1, (co_key _ _ _ H2).
  - intros r. split; [by apply (collapsed_subset cols seen1 seen2)|].
    apply (collapsed_subset cols seen2 seen1); [|by intros; symmetry| |done|done].
    + rewrite Forall_forall in *. intros x Hx. by apply Hp, E.
    + intros x y Hx Hy. apply Ht; by apply E.
Qed.



(** ** A concrete target *)

Module UpsertDemo.
Definition cols : Columns := {| c_key := "id"; c_sequence := "at"; c_tiebreak := [] |}.
Definition columns : list string := ["id"; "at"; "v"].
Definition row (id at_ v : Z) : Row Z := {[ "id" := id; "at" := at_; "v" := v ]}.
Definition stats (lo hi at_lo at_hi : Z) : option (option FileStats) :=
  Some (Some {| fs_num_records := None; fs_null_count := ∅;
                fs_min := {[ "id" := St_Int lo; "at" := St_Int at_lo ]};
                fs_max := {[ "id" := St_Int hi; "at" := St_Int at_hi ]} |}).
Definition no_text (_ : string) : option Z := None.
Definition exact (_ : string) : option Slack := None.
Definition number (_ : string) : bool := false.

Definition target : list (@File Z) :=
  [ {| f_stats := stats 1 3 10 30; f_rows := [row 1 10 0; row 3 30 0] |};
    {| f_stats := stats 7 9 5 5; f_rows := [row 7 5 0] |} ].
Definition batch : RecordBatch Z :=
  {| schema := columns; rows := [row 3 40 1; row 1 5 1; row 4 50 1] |}.
Definition merge (p : MergePlan) (target : list (@File Z)) (b : RecordBatch Z)
    : result Error (list File) :=
  Ok [ {| f_stats := None; f_rows := sql_merge p (table_rows target) (rows b) |} ].
Definition resolved (lookback : option Lookback) (target : list File) (b : RecordBatch Z)
    : result Error MergePlan :=
  resolve no_text exact number cols target b lookback columns.

(** The merge passes the second file over, and the window starts at the first one's minimum. *)
Example window_of_the_batch :
  (λ p, (lower (p_window p), candidate_files (p_window p), examined_files (p_window p))) <$>
    ok (resolved None target batch) = Some (Some (B_Int 10), 1, 2).
Proof. vm_compute. reflexivity. Qed.

Example merged_rows :
  table_rows <$> ok (let? p := resolved None target batch in merge p target batch) =
  Some [row 1 10 0; row 3 40 1; row 7 5 0; row 4 50 1].
Proof. vm_compute. reflexivity. Qed.

(** Statistics that hold of the rows they are recorded with. *)
Lemma recorded_truthful lo hi at_lo at_hi l bounds :
  in_i64 lo → in_i64 hi → in_i64 at_lo →
  (∀ r v, r ∈ l → r !! "id" = Some v → lo ≤ v ≤ hi) →
  (∀ r v, r ∈ l → r !! "at" = Some v → at_lo ≤ v) →
  (∃ k ks, keys bounds = B_Int k :: ks) → (∃ m, sequence_min bounds = B_Int m) →
  key_slack bounds = None → sequence_slack bounds = None →
  truthful no_text cols K_Int K_Int bounds {| f_stats := stats lo hi at_lo at_hi; f_rows := l |}.
Proof.
  intros Hlo Hhi Hat Hid Hsq (k & ksl & Ek) (m & Em) Eks Ess.
  assert (Hs : ∀ st, stats lo hi at_lo at_hi = Some (Some st) → ∀ k,
    cs_min (column_stats no_text st "id" (B_Int k)) = Some (B_Int lo) ∧
    cs_max (column_stats no_text st "id" (B_Int k)) = Some (B_Int hi) ∧
    cs_min (column_stats no_text st "at" (B_Int k)) = Some (B_Int at_lo)).
  { intros st [= <-] k'. unfold column_stats. cbn [fs_min fs_max cs_min cs_max].
    rewrite !lookup_insert_eq, !lookup_insert_ne, !lookup_singleton_eq by done.
    cbn [mbind option_bind bound_of_stat]. by rewrite !bool_decide_eq_true_2. }
  split.
  - intros st r v mn mx Est Hr Hv. cbn [f_stats] in Est. rewrite Ek, Eks.
    change (c_key cols) with "id". cbn [head default from_option id]. unfold id. cbv zeta.
    destruct (Hs st Est k) as (-> & -> & _). intros [= <-] [= <-]. split; [done|]. split; [done|].
    exists (B_Int v). specialize (Hid r v Hr Hv). split; [done|]. split; [done|].
    split; [|left]; rewrite int_below; lia.
  - intros st smin Est. unfold sequence_stats, stats_of. rewrite Em, Ess.
    change (c_sequence cols) with "at". cbn [loosened f_stats] in *.
    destruct (Hs st Est m) as (_ & _ & ->). by intros [= <-].
  - intros r v _ _. by exists (B_Int v).
  - intros st r v smin Est Hr Hv. unfold sequence_stats, stats_of. rewrite Em, Ess.
    change (c_sequence cols) with "at". cbn [loosened f_stats] in *. destruct (Hs st Est m) as (_ & _ & ->). intros [= <-].
    exists (B_Int v). specialize (Hsq r v Hr Hv). split; [done|]. split; [done|]. rewrite int_below. lia.
Qed.

Lemma any_typed c (l : list (Row Z)) : Forall (typed c K_Int) l.
Proof. apply Forall_forall. intros r _ v b _ [= <-]. done. Qed.

Lemma any_literals : literals_low K_Int.
Proof.
  intros [lo|?|?] l w b Hk; [|done|done]. intros [= <-] [= <-] _. rewrite int_below.
  intros H%Z.ltb_ge Hlt. change (w < lo) in Hlt. lia.
Qed.

(** No recorded statistics at all. *)
Lemma unrecorded_sound (l : list (Row Z)) b :
  sound_statistics no_text exact cols K_Int K_Int [ {| f_stats := None; f_rows := l |} ] b.
Proof.
  split; [apply any_typed|apply any_typed| |apply any_literals].
  intros bounds _. repeat constructor; try (by intros); intros r v _ _; by exists (B_Int v).
Qed.

(** A claim about the cells of a concrete list of rows. *)
Ltac every_row H :=
  repeat (apply elem_of_cons in H as [->|H]; [let E := fresh in intros E; vm_compute in E; injection E as <-; lia|]);
  by apply elem_of_nil in H.

Definition demo_bounds : BatchBounds :=
  {| keys := [B_Int 1; B_Int 3; B_Int 4]; sequence_min := B_Int 5; key_slack := None;
     sequence_slack := None |}.

Lemma target_sound : sound_statistics no_text exact cols K_Int K_Int target batch.
Proof.
  split; [apply any_typed|apply any_typed| |apply any_literals]. intros bounds Hb.
  assert (E : batch_bounds exact cols batch = Some demo_bounds) by (vm_compute; reflexivity).
  rewrite E in Hb. injection Hb as <-.
  assert (Hk : ∃ k l, keys demo_bounds = B_Int k :: l) by (by exists 1, [B_Int 3; B_Int 4]).
  assert (Hm : ∃ m, sequence_min demo_bounds = B_Int m) by (by exists 5).
  apply Forall_cons. split; [|apply Forall_cons; split; [|by apply Forall_nil]].
  - apply (recorded_truthful 1 3 10 30); try done; try width_lia; intros r v Hr; every_row Hr.
  - apply (recorded_truthful 7 9 5 5); try done; try width_lia; intros r v Hr; every_row Hr.
Qed.
End UpsertDemo.


Module UpsertRuns.
Import UpsertDemo.

(** Two corrections of one key in two batches, against both in one and a repetition. *)
Definition one (id at_ v : Z) : RecordBatch Z := {| schema := columns; rows := [row id at_ v] |}.
Definition start : list (@File Z) := [ {| f_stats := None; f_rows := [row 1 10 0] |} ].
Definition apart : list (list (RecordBatch Z)) := [[one 1 20 1]; [one 2 5 0]; [one 1 15 2]].
Definition together : list (list (RecordBatch Z)) :=
  [[one 2 5 0; one 1 15 2; one 1 20 1]; [one 1 15 2]].
Definition after (l : list (list (RecordBatch Z))) : list (@File Z) :=
  fold_left (λ t b, match upsert no_text exact number merge cols None t b columns with
                    | Ok t => t | Err _ => t end) l start.
Abbreviation runs := (upserted no_text exact number merge cols K_Int K_Int columns).

Lemma within_row id at_ v : within columns (row id at_ v).
Proof.
  intros c [x H]. unfold row in H. unfold columns.
  destruct (decide (c = "id")) as [->|]; [by left|].
  destruct (decide (c = "at")) as [->|]; [right; by left|].
  destruct (decide (c = "v")) as [->|]; [right; right; by left|].
  by rewrite !lookup_insert_ne, lookup_singleton_ne in H by done.
Qed.

Lemma placed_row id at_ v : placed cols (row id at_ v).
Proof. split; [by eexists|]. repeat constructor. by eexists. Qed.

(** A step of a run over files without statistics. *)
Lemma runs_step l0 b l f t1 target' :
  f = [ {| f_stats := None; f_rows := l0 |} ] →
  (∀ x, x ∈ b → ∃ id at_ v, x = one id at_ v) →
  upsert no_text exact number merge cols None f b columns = Ok t1 → runs t1 l target' →
  runs f (b :: l) target'.
Proof.
  intros -> Hb Hu Hr. eapply upserted_one; [| |exact Hu|exact Hr].
  - intros x Hx. destruct (Hb x Hx) as (id & at_ & v & ->). split; [done|].
    apply Forall_singleton, within_row.
  - intros y _. apply unrecorded_sound.
Qed.

Ltac one_by_one := intros ? H; repeat (apply elem_of_cons in H as [->|H]; [by do 3 eexists|]);
  by apply elem_of_nil in H.

Lemma apart_runs : runs start apart (after apart).
Proof.
  eapply runs_step; [reflexivity|one_by_one|vm_compute; reflexivity|].
  eapply runs_step; [reflexivity|one_by_one|vm_compute; reflexivity|].
  eapply runs_step; [reflexivity|one_by_one|vm_compute; reflexivity|].
  apply upserted_none.
Qed.

Lemma together_runs : runs start together (after together).
Proof.
  eapply runs_step; [reflexivity|one_by_one|vm_compute; reflexivity|].
  eapply runs_step; [reflexivity|one_by_one|vm_compute; reflexivity|].
  apply upserted_none.
Qed.
End UpsertRuns.


(** A lookback of 10 puts the floor at 40.  A first file that starts exactly there stops the
    walk, the older row of key 1 in the second file is never looked at, the key is inserted a
    second time, and the window does not say that it was clamped. *)
Module SilentFloor.
Import UpsertDemo.
Definition first_file (at_ : Z) : @File Z := {| f_stats := stats 2 2 at_ at_; f_rows := [row 2 at_ 0] |}.
Definition second_file : @File Z := {| f_stats := stats 1 1 10 10; f_rows := [row 1 10 0] |}.
Definition late_batch : RecordBatch Z := {| schema := columns; rows := [row 1 50 1; row 2 50 1] |}.
Definition outcome (at_ : Z) : option (bool * Z * list (option string)) :=
  let target := [first_file at_; second_file] in
  ok (let? p := resolved (Some (Offset (of_Z 10))) target late_batch in
      let? t := merge p target late_batch in
      Ok (clamped (p_window p), examined_files (p_window p), key_of cols <$> table_rows t)).
End SilentFloor.

Theorem a_floor_reached_exactly_is_not_reported :
  SilentFloor.outcome 40 = Some (false, 1, [Some "2"; Some "1"; Some "1"]) ∧
  SilentFloor.outcome 41 = Some (true, 2, [Some "2"; Some "1"; Some "1"]).
Proof. split; vm_compute; reflexivity. Qed.
