(* ===== verification/Dedup.v ===== *)
(** * Dedup: skipping rows the target already holds (src/dedup.rs)

    While a pipeline has to infer from the target's rows what it holds, it drops every row at
    or below the newest timestamp stored, kept for the whole target or per partition, and
    settles ties by key.  [read_bounded] builds that cut-off in one pass, [filter] applies it,
    and a [RecordedCutoff] carries the window across a reopen in the commit's metadata. *)

From Stdlib Require Import ZArith Lia.
From stdpp Require Import base list strings gmap.
From S2P Require Import Prelude Json Error F64 TxnLog Cursor LogStream.
From S2P Require Import Stats Arrow.

Open Scope Z_scope.
Open Scope ddi_scope.

Definition MAX_DEDUP_PARTITIONS : nat := 100000.

(** Arrow's types, the ones a partition column may have told apart. *)
Inductive DataType :=
  Int8 | Int16 | Int32 | Int64 | UInt8 | UInt16 | UInt32 | UInt64
| Utf8 | LargeUtf8 | Utf8View | OtherType.

Definition groups_exactly (dtype : DataType) : bool :=
  match dtype with OtherType => false | _ => true end.

Section Dedup.
Context {V : Type} `{!Arrow V}.
(** [serde_json::to_string] of a list of texts. *)
Context (json_of : list string → string).

(** [Dedup]; the marks of [PartitionMarks], with their keys, under their partition's text. *)
Record Dedup := {
  timestamp_column : string;
  key_column : option string;
  watermark : option V;
  boundary_keys : gset string;
  partition_columns : list string;
  partitions : gmap string (V * gset string);
}.

(** ** Columns *)

Definition partition_key (values : list string) : string :=
  match values with [one] => one | many => json_of many end.

(** A row's partition text; none when one of its columns is null ([PartitionText]). *)
Definition partition_text (columns : list string) (r : Row V) : option string :=
  partition_key <$> mapM (λ c, text <$> r !! c) columns.

Definition key_text (key : option string) (r : Row V) : option string :=
  k ← key; text <$> r !! k.

Definition column (b : RecordBatch V) (name : string) : result Error (list (option V)) :=
  if bool_decide (name ∈ schema b) then Ok ((λ r : Row V, r !! name) <$> rows b)
  else Err (Schema "dedup column is not in the transformed batch").

Definition has_null (col : list (option V)) : bool := existsb (λ c, bool_decide (c = None)) col.

(** [require_timestamps] *)
Definition require_timestamps (b : RecordBatch V) (ts : string) : result Error unit :=
  let? col := column b ts in
  if has_null col then Err (Schema "dedup timestamp contains nulls") else Ok tt.

(** [require_partitions] *)
Fixpoint require_partitions (b : RecordBatch V) (columns : list string) : result Error unit :=
  match columns with
  | [] => Ok tt
  | c :: columns =>
      let? col := column b c in
      if has_null col then Err (Schema "dedup partition contains nulls")
      else require_partitions b columns
  end.

(** The types of the target's columns. *)
Context (type_of : string → DataType).

(** [require_columns] *)
Definition require_columns (target_schema : list string) (ts : string) (key : option string)
    (columns : list string) : result Error unit :=
  if negb (forallb (λ c, bool_decide (c ∈ target_schema)) (ts :: option_list key ++ columns))
  then Err (Config "dedup column is not in the target table")
  else if forallb (λ c, groups_exactly (type_of c)) columns then Ok tt
  else Err (Config "dedup_partition must be an integer or a string column").

(** ** Reading the cut-off *)

(** One row of the pass, with a single cut-off. *)
Definition read_row (d : Dedup) (r : Row V) : Dedup :=
  match r !! timestamp_column d with
  | None => d
  | Some ts =>
      let keys := match key_text (key_column d) r with Some k => {[ k ]} | None => ∅ end in
      match (match watermark d with Some w => cmp ts w | None => Gt end) with
      | Gt => {| timestamp_column := timestamp_column d; key_column := key_column d;
                 watermark := Some ts; boundary_keys := keys;
                 partition_columns := partition_columns d; partitions := partitions d |}
      | Eq => {| timestamp_column := timestamp_column d; key_column := key_column d;
                 watermark := watermark d; boundary_keys := keys ∪ boundary_keys d;
                 partition_columns := partition_columns d; partitions := partitions d |}
      | Lt => d
      end
  end.

Definition with_partitions (d : Dedup) (m : gmap string (V * gset string)) : Dedup :=
  {| timestamp_column := timestamp_column d; key_column := key_column d;
     watermark := watermark d; boundary_keys := boundary_keys d;
     partition_columns := partition_columns d; partitions := m |}.

(** One row of the pass, with a cut-off per partition. *)
Definition read_partitioned_row (max_partitions : nat) (d : Dedup) (r : Row V)
    : result Error Dedup :=
  match r !! timestamp_column d, partition_text (partition_columns d) r with
  | Some ts, Some p =>
      let keys := match key_text (key_column d) r with Some k => {[ k ]} | None => ∅ end in
      match partitions d !! p with
      | Some (mark, tied) =>
          Ok (match cmp ts mark with
              | Gt => with_partitions d (<[p := (ts, keys)]> (partitions d))
              | Eq => with_partitions d (<[p := (mark, keys ∪ tied)]> (partitions d))
              | Lt => d
              end)
      | None =>
          if (max_partitions <=? base.size (partitions d))%nat
          then Err (Config "dedup_partition has more distinct values than the limit")
          else Ok (with_partitions d (<[p := (ts, keys)]> (partitions d)))
      end
  | _, _ => Ok d
  end.

Fixpoint foldR {A B} (f : A → B → result Error A) (l : list B) (a : A) : result Error A :=
  match l with
  | [] => Ok a
  | b :: l => match f a b with Ok a => foldR f l a | Err e => Err e end
  end.

Definition is_partitioned (d : Dedup) : bool :=
  match partition_columns d with [] => false | _ => true end.

(** [Dedup::read_bounded], of the rows the target's scan yields. *)
Definition read_bounded (target_schema : list string) (target : list (Row V)) (ts : string)
    (key : option string) (columns : list string) (max_partitions : nat) : result Error Dedup :=
  let out := {| timestamp_column := ts; key_column := key; watermark := None; boundary_keys := ∅;
                partition_columns := columns; partitions := ∅ |} in
  let? _ := require_columns target_schema ts key columns in
  if is_partitioned out then foldR (read_partitioned_row max_partitions) target out
  else Ok (fold_left read_row target out).

Definition read_partitioned (target_schema : list string) (target : list (Row V)) (ts : string)
    (key : option string) (columns : list string) : result Error Dedup :=
  read_bounded target_schema target ts key columns MAX_DEDUP_PARTITIONS.

Definition is_inert (d : Dedup) : bool :=
  if is_partitioned d then bool_decide (partitions d = ∅) else bool_decide (watermark d = None).

(** ** Applying it *)

Record Filtered := { kept : list (Row V); covered : Z; beyond : Z }.

(** [keys_not_yet_present], of one row. *)
Definition unseen (keys : gset string) (key : option string) (r : Row V) : bool :=
  match key_text key r with Some k => negb (bool_decide (k ∈ keys)) | None => true end.

(** What [covered_rows] says of one row: past its partition's mark, covered, or neither. *)
Inductive Verdict := Beyond | Covered | AtMark.

(** [covered_rows], one row: its timestamp, its partition's text and, where there is a key
    column, its key's; [ties_covered] is for a row at its mark without a key column. *)
Definition covered_rows (d : Dedup) (ts : option V) (part : option string)
    (key : option (option string)) (ties_covered : bool) : Verdict :=
  match ts, part with
  | Some ts, Some p =>
      match partitions d !! p with
      | None => Beyond
      | Some (mark, tied) =>
          match cmp ts mark with
          | Gt => Beyond
          | Lt => Covered
          | Eq =>
              match key with
              | Some (Some k) => if bool_decide (k ∈ tied) then Covered else AtMark
              | Some None => AtMark
              | None => if ties_covered then Covered else AtMark
              end
          end
      end
  | _, _ => AtMark
  end.

Definition covered_row (d : Dedup) (ties_covered : bool) (r : Row V) : Verdict :=
  covered_rows d (r !! timestamp_column d) (partition_text (partition_columns d) r)
    (match key_column d with Some k => Some (text <$> r !! k) | None => None end) ties_covered.

Definition count {A} (f : A → bool) (l : list A) : Z := Z.of_nat (length (List.filter f l)).
Definition is_beyond (v : Verdict) : bool := match v with Beyond => true | _ => false end.
Definition is_covered (v : Verdict) : bool := match v with Covered => true | _ => false end.

(** The key column has to be there when there is one. *)
Definition require_key (b : RecordBatch V) (key : option string) : result Error unit :=
  match key with
  | Some k => let? _ := column b k in Ok tt
  | None => Ok tt
  end.

(** [Dedup::filter_partitioned] *)
Definition filter_partitioned (d : Dedup) (b : RecordBatch V) : result Error Filtered :=
  let? _ := require_timestamps b (timestamp_column d) in
  let? _ := require_partitions b (partition_columns d) in
  let? _ := require_key b (key_column d) in
  let verdict := covered_row d true in
  let kept := List.filter (λ r, negb (is_covered (verdict r))) (rows b) in
  Ok {| kept := kept; covered := Z.of_nat (length (rows b)) - Z.of_nat (length kept);
        beyond := count (λ r, is_beyond (verdict r)) (rows b) |}.

(** [Dedup::filter] *)
Definition filter (d : Dedup) (b : RecordBatch V) : result Error Filtered :=
  if is_partitioned d then filter_partitioned d b
  else match watermark d with
  | None => Ok {| kept := rows b; covered := 0; beyond := Z.of_nat (length (rows b)) |}
  | Some mark =>
      let? _ := require_timestamps b (timestamp_column d) in
      let? _ := require_key b (key_column d) in
      let against (r : Row V) := match r !! timestamp_column d with Some ts => Some (cmp ts mark) | None => None end in
      let after r := bool_decide (against r = Some Gt) in
      let keep r :=
        match key_column d with
        | Some _ => after r || (bool_decide (against r = Some Eq)
                                && unseen (boundary_keys d) (key_column d) r)
        | None => after r
        end in
      let kept := List.filter keep (rows b) in
      Ok {| kept := kept; covered := Z.of_nat (length (rows b)) - Z.of_nat (length kept);
            beyond := count after (rows b) |}
  end.

(** ** The newest timestamp, and the keys at it *)

(** [best_of l o]: [o] is the greatest value among [l] with the keys beside it. *)
Definition best_of (l : list (V * option string)) (o : option (V * gset string)) : Prop :=
  match o with
  | None => l = []
  | Some (w, keys) =>
      (∃ k, (w, k) ∈ l) ∧ (∀ a k, (a, k) ∈ l → cmp a w ≠ Gt) ∧
      (∀ k, k ∈ keys ↔ (w, Some k) ∈ l)
  end.

Definition key_set (k : option string) : gset string :=
  match k with Some k => {[ k ]} | None => ∅ end.

Definition best_step (o : option (V * gset string)) (ts : V) (k : option string)
    : V * gset string :=
  match o with
  | None => (ts, key_set k)
  | Some (w, keys) =>
      match cmp ts w with
      | Gt => (ts, key_set k)
      | Eq => (w, key_set k ∪ keys)
      | Lt => (w, keys)
      end
  end.

Lemma elem_of_key_set k k' : k ∈ key_set k' ↔ k' = Some k.
Proof. destruct k' as [x|]; simpl; set_solver. Qed.

Lemma best_of_step l o ts k : best_of l o → best_of (l ++ [(ts, k)]) (Some (best_step o ts k)).
Proof.
  assert (Hin : ∀ x, x ∈ l ++ [(ts, k)] ↔ x ∈ l ∨ x = (ts, k))
    by (intros x; by rewrite elem_of_app, list_elem_of_singleton).
  destruct o as [[w keys]|]; simpl.
  - intros ((k0 & Hk0) & Hmax & Hkeys). destruct (cmp ts w) eqn:E; simpl.
    + apply cmp_eq in E as ->. split; [exists k0; apply Hin; by left|]. split.
      * intros a k' [H|[= -> ->]]%Hin; [by eapply Hmax|by rewrite value_cmp_refl].
      * intros k'. rewrite elem_of_union, elem_of_key_set, Hkeys, Hin. naive_solver.
    + split; [exists k0; apply Hin; by left|]. split.
      * intros a k' [H|[= -> ->]]%Hin; [by eapply Hmax|by rewrite E].
      * intros k'. rewrite Hkeys, Hin. split; [by left|]. intros [H|[= -> _]]; [done|].
        by rewrite value_cmp_refl in E.
    + apply value_cmp_gt in E. split; [exists k; apply Hin; by right|]. split.
      * intros a k' [H|[= -> ->]]%Hin; [|by rewrite value_cmp_refl].
        rewrite (value_cmp_trans_le a w ts); [done|by eapply Hmax|done].
      * intros k'. rewrite elem_of_key_set, Hin. split; [intros ->; by right|].
        intros [H|[= ->]]; [|done]. exfalso. apply (Hmax _ _ H). by apply value_cmp_gt.
  - intros ->. split; [exists k; apply Hin; by right|]. split.
    + intros a k' [H|[= -> ->]]%Hin; [by apply elem_of_nil in H|by rewrite value_cmp_refl].
    + intros k'. rewrite elem_of_key_set, Hin. split; [intros ->; by right|].
      intros [H|[= ->]]; [by apply elem_of_nil in H|done].
Qed.

(** ** What the target covers *)

Section Cover.
Context (ts : string) (key : option string) (columns : list string).

(** The rows of [l] in partition [p] that have a timestamp, as timestamp and key. *)
Definition entries (p : string) (l : list (Row V)) : list (V * option string) :=
  omap (λ r : Row V,
    if decide (partition_text columns r = Some p) then (λ t, (t, key_text key r)) <$> r !! ts
    else None) l.

Lemma entries_app p l l' : entries p (l ++ l') = entries p l ++ entries p l'.
Proof. apply omap_app. Qed.

Lemma elem_of_entries p l a k :
  (a, k) ∈ entries p l ↔
  ∃ t, t ∈ l ∧ partition_text columns t = Some p ∧ t !! ts = Some a ∧ key_text key t = k.
Proof.
  unfold entries. rewrite list_elem_of_omap. split.
  - intros (t & Ht & E). destruct (decide _) as [Hp|]; [|done].
    apply fmap_Some in E as (v & Ev & [= -> ->]). by exists t.
  - intros (t & Ht & Hp & Ea & Ek). exists t. split; [done|].
    rewrite decide_True by done. rewrite Ea. simpl. by rewrite Ek.
Qed.

(** A stored row of its partition that is newer, or as new and, where rows have keys, has
    its key. *)
Definition covered_by (target : list (Row V)) (r : Row V) : Prop :=
  ∃ t a b, t ∈ target ∧ partition_text columns t = partition_text columns r ∧
    is_Some (partition_text columns r) ∧ t !! ts = Some a ∧ r !! ts = Some b ∧
    (cmp b a = Lt ∨ (a = b ∧
      (key = None ∨ ∃ k, key_text key t = Some k ∧ key_text key r = Some k))).

(** Newer than every stored row of its partition. *)
Definition newer_than (target : list (Row V)) (r : Row V) : Prop :=
  ∃ b, r !! ts = Some b ∧ ∀ t a, t ∈ target → partition_text columns t = partition_text columns r →
    t !! ts = Some a → cmp b a = Gt.

Lemma best_of_covers target p r b o :
  partition_text columns r = Some p → r !! ts = Some b → best_of (entries p target) o →
  match o with
  | None => newer_than target r ∧ ¬ covered_by target r
  | Some (w, keys) =>
      match cmp b w with
      | Gt => newer_than target r ∧ ¬ covered_by target r
      | Lt => ¬ newer_than target r ∧ covered_by target r
      | Eq => ¬ newer_than target r ∧
              (covered_by target r ↔ key = None ∨ ∃ k, key_text key r = Some k ∧ k ∈ keys)
      end
  end.
Proof.
  intros Hp Hb Ho.
  assert (Hin : ∀ a k, (a, k) ∈ entries p target ↔ ∃ t, t ∈ target ∧
    partition_text columns t = partition_text columns r ∧ t !! ts = Some a ∧ key_text key t = k)
    by (intros a k; by rewrite elem_of_entries, Hp).
  destruct o as [[w keys]|]; simpl in Ho.
  2: { assert (Hno : ∀ t a, t ∈ target → partition_text columns t = partition_text columns r →
         t !! ts = Some a → False).
       { intros t a Ht Hpt Ha. assert (H : (a, key_text key t) ∈ entries p target) by (apply Hin; eauto).
         rewrite Ho in H. by apply elem_of_nil in H. }
       split; [exists b; split; [done|]; intros t a Ht Hpt Ha; by destruct (Hno t a)|].
       intros (t & a & b' & Ht & Hpt & _ & Ha & _). by apply (Hno t a). }
  destruct Ho as ((k0 & Hw%Hin) & Hmax & Hkeys). destruct Hw as (tw & Htw & Hptw & Haw & _).
  assert (Hle : ∀ t a, t ∈ target → partition_text columns t = partition_text columns r →
    t !! ts = Some a → cmp a w ≠ Gt).
  { intros t a Ht Hpt Ha. apply (Hmax a (key_text key t)). apply Hin. eauto. }
  destruct (cmp b w) eqn:E.
  - apply cmp_eq in E as ->. split.
    + intros (b' & Hb' & H). rewrite Hb in Hb'. injection Hb' as <-.
      specialize (H tw w Htw Hptw Haw). by rewrite value_cmp_refl in H.
    + split.
      * intros (t & a & b' & Ht & Hpt & _ & Ha & Hb' & Hc). rewrite Hb in Hb'. injection Hb' as <-.
        destruct Hc as [Hc|[-> [Hc|(k & Hk & Hkr)]]]; [|by left|].
        -- exfalso. by apply (Hle t a Ht Hpt Ha), value_cmp_gt.
        -- right. exists k. split; [done|]. apply Hkeys, Hin. eauto.
      * intros [Hk|(k & Hkr & Hk)].
        -- exists tw, w, w. rewrite Hp. rewrite Hp in Hptw. repeat split; eauto.
        -- apply Hkeys, Hin in Hk as (t & Ht & Hpt & Ha & Hkt). exists t, w, w. rewrite Hp.
           rewrite Hp in Hpt. repeat split; eauto. right. split; [done|]. right. eauto.
  - split.
    + intros (b' & Hb' & H). rewrite Hb in Hb'. injection Hb' as <-.
      specialize (H tw w Htw Hptw Haw). congruence.
    + exists tw, w, b. rewrite Hp. rewrite Hp in Hptw. repeat split; eauto.
  - apply value_cmp_gt in E.
    assert (Hgt : ∀ t a, t ∈ target → partition_text columns t = partition_text columns r →
      t !! ts = Some a → cmp b a = Gt).
    { intros t a Ht Hpt Ha. apply value_cmp_gt. by apply (value_cmp_trans_le a w b), E; eapply Hle. }
    split; [by exists b|]. intros (t & a & b' & Ht & Hpt & _ & Ha & Hb' & Hc).
    rewrite Hb in Hb'. injection Hb' as <-. specialize (Hgt t a Ht Hpt Ha).
    destruct Hc as [Hc|[-> _]]; [congruence|by rewrite value_cmp_refl in Hgt].
Qed.
End Cover.

(** ** The pass over the target finds the marks *)

Definition empty (ts : string) (key : option string) (columns : list string) : Dedup :=
  {| timestamp_column := ts; key_column := key; watermark := None; boundary_keys := ∅;
     partition_columns := columns; partitions := ∅ |}.

(** The mark of a partition; without [dedup_partition] there is one. *)
Definition mark (d : Dedup) (p : string) : option (V * gset string) :=
  if is_partitioned d then partitions d !! p else (λ w, (w, boundary_keys d)) <$> watermark d.

Record configured (ts : string) (key : option string) (columns : list string) (d : Dedup)
    : Prop := {
  cf_ts : timestamp_column d = ts;
  cf_key : key_column d = key;
  cf_columns : partition_columns d = columns;
}.

(** What a cut-off read from [target] is. *)
Definition reads (ts : string) (key : option string) (columns : list string)
    (target : list (Row V)) (d : Dedup) : Prop :=
  configured ts key columns d ∧
  ∀ p, (columns = [] → p = partition_key []) → best_of (entries ts key columns p target) (mark d p).

Lemma partition_text_none (r : Row V) : partition_text [] r = Some (partition_key []).
Proof. done. Qed.

Lemma configured_partitioned ts key columns d :
  configured ts key columns d → is_partitioned d = negb (bool_decide (columns = [])).
Proof. intros [_ _ <-]. unfold is_partitioned. by destruct (partition_columns d). Qed.

Lemma entries_single ts key columns p r :
  entries ts key columns p [r] =
  (if decide (partition_text columns r = Some p)
   then match r !! ts with Some t => [(t, key_text key r)] | None => [] end else []).
Proof. unfold entries. simpl. destruct (decide _); [|done]. by destruct (r !! ts). Qed.

Lemma read_row_reads ts key target d r :
  reads ts key [] target d → reads ts key [] (target ++ [r]) (read_row d r).
Proof.
  intros [Hc Hd]. pose proof (configured_partitioned _ _ _ _ Hc) as Hp. simpl in Hp.
  specialize (Hd (partition_key []) (λ _, eq_refl)). unfold mark in Hd. rewrite Hp in Hd.
  assert (Hgoal : configured ts key [] (read_row d r) ∧
    (λ w, (w, boundary_keys (read_row d r))) <$> watermark (read_row d r) =
    match r !! ts with
    | Some t => Some (best_step ((λ w, (w, boundary_keys d)) <$> watermark d) t (key_text key r))
    | None => (λ w, (w, boundary_keys d)) <$> watermark d
    end).
  { destruct Hc as [<- <- Hcol]. unfold read_row. destruct (r !! timestamp_column d) as [t|]; [|by split].
    unfold best_step. destruct (watermark d) as [w|] eqn:Ew; simpl; [|by split].
    destruct (cmp t w); (split; [by split|]); simpl; by rewrite ?Ew. }
  destruct Hgoal as [Hc' Em]. split; [done|]. intros p Hpe. rewrite Hpe by done.
  unfold mark. rewrite (configured_partitioned _ _ _ _ Hc'). simpl. rewrite Em, entries_app, entries_single.
  rewrite decide_True by done. destruct (r !! ts); [by apply best_of_step|by rewrite app_nil_r].
Qed.

Lemma read_partitioned_row_reads ts key columns max_partitions target d r d' :
  columns ≠ [] → reads ts key columns target d →
  read_partitioned_row max_partitions d r = Ok d' → reads ts key columns (target ++ [r]) d'.
Proof.
  intros Hne [Hc Hd] H. pose proof (configured_partitioned _ _ _ _ Hc) as Hp.
  rewrite bool_decide_eq_false_2 in Hp by done. simpl in Hp. unfold mark in Hd. rewrite Hp in Hd.
  assert (Hgoal : configured ts key columns d' ∧ partitions d' =
    match r !! ts, partition_text columns r with
    | Some t, Some q => <[q := best_step (partitions d !! q) t (key_text key r)]> (partitions d)
    | _, _ => partitions d
    end).
  { destruct Hc as [<- <- <-]. unfold read_partitioned_row in H.
    destruct (r !! timestamp_column d) as [t|]; [|by injection H as <-].
    destruct (partition_text (partition_columns d) r) as [q|]; [|by injection H as <-].
    unfold best_step. destruct (partitions d !! q) as [[w tied]|] eqn:Eq.
    - injection H as <-. destruct (cmp t w); (split; [by split|]); simpl; try done.
      by rewrite insert_id.
    - destruct (_ <=? _)%nat; [done|]. injection H as <-. by split. }
  destruct Hgoal as [Hc' Em]. split; [done|]. intros p _. unfold mark.
  rewrite (configured_partitioned _ _ _ _ Hc'), bool_decide_eq_false_2 by done. cbn [negb]. rewrite Em.
  rewrite entries_app, entries_single. specialize (Hd p ltac:(done)).
  destruct (r !! ts) as [t|]; [|by destruct (decide _); rewrite app_nil_r].
  destruct (partition_text columns r) as [q|]; [|by rewrite decide_False, app_nil_r].
  destruct (decide (q = p)) as [->|Hqp].
  - rewrite decide_True, lookup_insert_eq by done. by apply best_of_step.
  - rewrite decide_False, app_nil_r, lookup_insert_ne by congruence. done.
Qed.

Lemma empty_reads ts key columns : reads ts key columns [] (empty ts key columns).
Proof.
  split; [by split|]. intros p _. unfold mark. destruct (is_partitioned _); [|done].
  simpl. by rewrite lookup_empty.
Qed.

(** The cut-off read is the target's. *)
Lemma read_bounded_reads target_schema target ts key columns max_partitions d :
  read_bounded target_schema target ts key columns max_partitions = Ok d →
  reads ts key columns target d.
Proof.
  unfold read_bounded. destruct (require_columns _ _ _ _) as [[]|]; [|done].
  fold (empty ts key columns). pose proof (empty_reads ts key columns) as H0.
  assert (Hgen : ∀ l pre d0, reads ts key columns pre d0 →
    (if is_partitioned (empty ts key columns)
     then foldR (read_partitioned_row max_partitions) l d0
     else Ok (fold_left read_row l d0)) = Ok d → reads ts key columns (pre ++ l) d).
  { unfold is_partitioned. cbn [partition_columns empty]. destruct columns as [|c columns].
    - induction l as [|r l IH]; intros pre d0 Hd0; simpl; [intros [= <-]; by rewrite app_nil_r|].
      intros H. replace (pre ++ r :: l) with ((pre ++ [r]) ++ l) by by rewrite <-app_assoc.
      eapply IH; [by apply read_row_reads|exact H].
    - induction l as [|r l IH]; intros pre d0 Hd0; simpl; [intros [= <-]; by rewrite app_nil_r|].
      destruct (read_partitioned_row max_partitions d0 r) as [d1|] eqn:E; [|done]. intros H.
      replace (pre ++ r :: l) with ((pre ++ [r]) ++ l) by by rewrite <-app_assoc.
      eapply IH; [|exact H]. by eapply read_partitioned_row_reads. }
  by apply (Hgen target []).
Qed.

(** ** The filter *)

Lemma has_null_false (b : RecordBatch V) c :
  has_null ((λ r : Row V, r !! c) <$> rows b) = false → ∀ r, r ∈ rows b → is_Some (r !! c).
Proof.
  unfold has_null. intros H r Hr. destruct (r !! c) as [v|] eqn:E; [eauto|]. exfalso.
  apply not_true_iff_false in H. apply H, existsb_exists. exists None. split; [|done].
  apply list_elem_of_In, list_elem_of_fmap. by exists r.
Qed.

Lemma column_cells (b : RecordBatch V) c col :
  column b c = Ok col → col = (λ r : Row V, r !! c) <$> rows b.
Proof. unfold column. case_bool_decide; [|done]. by intros [= <-]. Qed.

Lemma require_timestamps_ok (b : RecordBatch V) ts :
  require_timestamps b ts = Ok tt → ∀ r, r ∈ rows b → is_Some (r !! ts).
Proof.
  unfold require_timestamps. destruct (column b ts) as [col|] eqn:E; [|done].
  apply column_cells in E as ->. destruct (has_null _) eqn:En; [done|]. intros _. by apply has_null_false.
Qed.

Lemma require_partitions_ok (b : RecordBatch V) columns :
  require_partitions b columns = Ok tt → ∀ r, r ∈ rows b → is_Some (partition_text columns r).
Proof.
  intros H r Hr. unfold partition_text. apply fmap_is_Some. revert H.
  induction columns as [|c columns IH]; simpl; [by eexists|].
  destruct (column b c) as [col|] eqn:E; [|done]. apply column_cells in E as ->.
  destruct (has_null _) eqn:En; [done|]. intros H. destruct (IH H) as [l Hl].
  destruct (has_null_false _ _ En r Hr) as [v Hv]. rewrite Hv. simpl. rewrite Hl. by eexists.
Qed.

Lemma count_neg {A} (f : A → bool) (l : list A) :
  Z.of_nat (length l) - Z.of_nat (length (List.filter f l)) = count (λ x, negb (f x)) l.
Proof. unfold count. induction l as [|x l IH]; [done|]. simpl. destruct (f x); simpl; lia. Qed.

Lemma filter_ok ts key columns target d b f :
  reads ts key columns target d → filter d b = Ok f →
  ∃ keep past,
    kept f = List.filter keep (rows b) ∧ covered f = count (λ r, negb (keep r)) (rows b) ∧
    beyond f = count past (rows b) ∧
    ∀ r, r ∈ rows b →
      (keep r = true ↔ ¬ covered_by ts key columns target r) ∧
      (is_Some (r !! ts) → past r = true ↔ newer_than ts columns target r).
Proof.
  intros [Hc Hd] Hf. pose proof (configured_partitioned _ _ _ _ Hc) as Hpart.
  destruct Hc as [Ets Ekey Ecol]. unfold filter in Hf. unfold mark in Hd. rewrite Hpart in Hf, Hd.
  case_bool_decide as Hcol; cbn [negb] in Hf, Hd.
  - destruct columns as [|c0 cs]; [clear Hcol|done]. specialize (Hd _ (λ _, eq_refl)).
    destruct (watermark d) as [w|] eqn:Ew; cbn [fmap option_fmap option_map] in Hd.
    2: { injection Hf as <-. exists (λ _, true), (λ _, true). cbn [kept covered beyond]. unfold count.
         assert (Hall : List.filter (λ _ : Row V, true) (rows b) = rows b)
           by (clear; induction (rows b) as [|x l IH]; simpl; [done|by f_equal]).
         assert (Hnone : List.filter (λ _ : Row V, negb true) (rows b) = [])
           by (clear; by induction (rows b)).
         rewrite Hall, Hnone. split; [done|]. split; [done|]. split; [done|].
         intros r Hr. assert (Hno : ¬ covered_by ts key [] target r).
         { intros (t & a & b' & Ht & Hpt & _ & Ha & _).
           assert (H : (a, key_text key t) ∈ entries ts key [] (partition_key []) target).
           { apply elem_of_entries. by exists t. }
           unfold best_of in Hd. rewrite Hd in H. by apply elem_of_nil in H. }
         split; [done|]. intros [v Hv]. split; [|done]. intros _.
         by apply (best_of_covers ts key [] target (partition_key []) r v None). }
    destruct (require_timestamps b (timestamp_column d)) as [[]|] eqn:Er; [|done].
    destruct (require_key b (key_column d)) as [[]|] eqn:Ek; [|done]. injection Hf as <-.
    rewrite Ets in *. rewrite Ekey.
    eexists _, _. cbn [kept covered beyond]. split; [reflexivity|]. split; [apply count_neg|].
    split; [reflexivity|]. intros r Hr. destruct (require_timestamps_ok _ _ Er r Hr) as [v Hv].
    pose proof (best_of_covers ts key [] target (partition_key []) r v (Some (w, boundary_keys d))
      eq_refl Hv Hd) as Hb. simpl in Hb. rewrite Hv. unfold unseen.
    destruct (cmp v w); destruct Hb as [Hn Hcv].
    + rewrite (bool_decide_eq_false_2 (Some Eq = Some Gt)) by done.
      rewrite bool_decide_eq_true_2 by done. split; [|split; [done|by intros]]. rewrite Hcv.
      destruct key as [k|]; simpl; [|naive_solver].
      destruct (text <$> r !! k) as [kt|] eqn:Ekt; simpl.
      * rewrite negb_true_iff, bool_decide_eq_false. naive_solver.
      * naive_solver.
    + rewrite !bool_decide_eq_false_2 by done. split; [|split; [done|by intros]].
      destruct key; simpl; naive_solver.
    + rewrite !(bool_decide_eq_true_2 (Some Gt = Some Gt)) by done. split; [|done].
      destruct key; simpl; naive_solver.
  - unfold filter_partitioned in Hf. rewrite Ets, Ecol, Ekey in Hf.
    destruct (require_timestamps b ts) as [[]|] eqn:Er; [|done].
    destruct (require_partitions b columns) as [[]|] eqn:Ep; [|done].
    destruct (require_key b key) as [[]|] eqn:Ek; [|done]. injection Hf as <-.
    eexists _, _. cbn [kept covered beyond]. split; [reflexivity|]. split; [apply count_neg|].
    split; [reflexivity|]. intros r Hr. destruct (require_timestamps_ok _ _ Er r Hr) as [v Hv].
    destruct (require_partitions_ok _ _ Ep r Hr) as [p Hp].
    specialize (Hd p ltac:(done)).
    pose proof (best_of_covers ts key columns target p r v _ Hp Hv Hd) as Hb.
    unfold covered_row, covered_rows. rewrite Ets, Ecol, Ekey, Hp, Hv.
    destruct (partitions d !! p) as [[w tied]|]; [|simpl; naive_solver].
    destruct (cmp v w); [|simpl; naive_solver|simpl; naive_solver].
    destruct Hb as [Hn Hcv]. destruct key as [k|]; [|simpl; naive_solver].
    unfold key_text in *; cbn [mbind option_bind] in *.
    destruct (text <$> r !! k) as [kt|] eqn:Ekt; simpl; [|naive_solver].
    destruct (bool_decide_reflect (kt ∈ tied)); simpl; naive_solver.
Qed.
End Dedup.

(** ** Coverage windows, recorded *)

Inductive CoverageReason := Rebuilt | Bootstrap | SourceReplaced.

Definition reason_str (r : CoverageReason) : string :=
  match r with
  | Rebuilt => "rebuilt" | Bootstrap => "bootstrap" | SourceReplaced => "source_replaced"
  end.

(** [CoverageReason::parse] *)
Definition parse_reason (s : string) : option CoverageReason :=
  if decide (s = "rebuilt") then Some Rebuilt
  else if decide (s = "bootstrap") then Some Bootstrap
  else if decide (s = "source_replaced") then Some SourceReplaced
  else None.

Definition CUTOFF_REASON_KEY : string := "ddi.cutoff.reason".
Definition CUTOFF_SOURCE_THROUGH_KEY : string := "ddi.cutoff.sourceThrough".
Definition CUTOFF_PARTITION_COLUMNS_KEY : string := "ddi.cutoff.partitionColumns".
Definition CUTOFF_PARTITIONED_REASON_SUFFIX : string := ".partitioned".

Record RecordedCutoff := {
  rc_reason : CoverageReason;
  rc_source_through : option Version;
  rc_partition_columns : list string;
}.

(** [RecordedCutoff::to_commit_metadata] *)
Definition to_commit_metadata (c : RecordedCutoff) : list (string * Value) :=
  let reason := match rc_partition_columns c with
                | [] => reason_str (rc_reason c)
                | _ => String.append (reason_str (rc_reason c)) CUTOFF_PARTITIONED_REASON_SUFFIX
                end in
  [(CUTOFF_REASON_KEY, V_String reason)] ++
  match rc_source_through c with
  | Some through => [(CUTOFF_SOURCE_THROUGH_KEY, V_Number through)]
  | None => []
  end ++
  match rc_partition_columns c with
  | [] => []
  | columns => [(CUTOFF_PARTITION_COLUMNS_KEY, V_Array (V_String <$> columns))]
  end.

(** [t.strip_suffix(suffix)] *)
Definition reverse (s : string) : string :=
  String.string_of_list_ascii (rev (String.list_ascii_of_string s)).
Definition strip_suffix (suffix s : string) : option string :=
  reverse <$> str_strip_prefix (reverse suffix) (reverse s).

(** [RecordedCutoff::from_commit_info] *)
Definition from_commit_info (info : gmap string Value) : option RecordedCutoff :=
  raw ← info !! CUTOFF_REASON_KEY;
  let '(text, partitioned) :=
    match as_str raw with
    | Some t => match strip_suffix CUTOFF_PARTITIONED_REASON_SUFFIX t with
                | Some base => (Some base, true)
                | None => (Some t, false)
                end
    | None => (None, false)
    end in
  reason ← text ≫= parse_reason;
  source_through ← match info !! CUTOFF_SOURCE_THROUGH_KEY with
                   | None => Some None
                   | Some v => Some <$> as_u64 v
                   end;
  columns ← match info !! CUTOFF_PARTITION_COLUMNS_KEY with
            | None => Some []
            | Some v => l ← as_array v; mapM as_str l
            end;
  if Bool.eqb partitioned (bool_decide (columns = [])) then None
  else Some {| rc_reason := reason; rc_source_through := source_through;
               rc_partition_columns := columns |}.

(** The commit info a commit with other metadata carries. *)
Definition info_with (c : RecordedCutoff) (others : gmap string Value) : gmap string Value :=
  list_to_map (to_commit_metadata c) ∪ others.

Lemma reason_round_trip r columns :
  let s := match columns with
           | [] => reason_str r
           | _ => String.append (reason_str r) CUTOFF_PARTITIONED_REASON_SUFFIX
           end in
  (match strip_suffix CUTOFF_PARTITIONED_REASON_SUFFIX s with
   | Some base => (parse_reason base, true)
   | None => (parse_reason s, false)
   end) = (Some r, negb (bool_decide (columns = @nil string))).
Proof. destruct columns, r; vm_compute; reflexivity. Qed.

Lemma mapM_as_str l : mapM as_str (V_String <$> l) = Some l.
Proof. by apply mapM_fmap_Some. Qed.

(** What the metadata holds under each of the keys. *)
Lemma metadata_lookup c :
  let m := list_to_map (to_commit_metadata c) : gmap string Value in
  m !! CUTOFF_REASON_KEY = Some (V_String
    (match rc_partition_columns c with
     | [] => reason_str (rc_reason c)
     | _ => String.append (reason_str (rc_reason c)) CUTOFF_PARTITIONED_REASON_SUFFIX
     end)) ∧
  m !! CUTOFF_SOURCE_THROUGH_KEY = V_Number <$> rc_source_through c ∧
  m !! CUTOFF_PARTITION_COLUMNS_KEY =
    match rc_partition_columns c with
    | [] => None
    | columns => Some (V_Array (V_String <$> columns))
    end.
Proof. destruct c as [r [t|] [|x l]]; repeat split. Qed.

Lemma info_lookup c others k :
  info_with c others !! k =
  match (list_to_map (to_commit_metadata c) : gmap string Value) !! k with
  | Some v => Some v
  | None => others !! k
  end.
Proof. unfold info_with. rewrite lookup_union. by destruct (_ !! k), (others !! k). Qed.

(** The keys a window is recorded under. *)
Definition window_keys : list string :=
  [CUTOFF_REASON_KEY; CUTOFF_SOURCE_THROUGH_KEY; CUTOFF_PARTITION_COLUMNS_KEY].

(** What is read of a commit's metadata: those keys alone. *)
Lemma read_back c info :
  (∀ v, rc_source_through c = Some v → in_u64 v) →
  (∀ k, k ∈ window_keys →
     info !! k = (list_to_map (to_commit_metadata c) : gmap string Value) !! k) →
  from_commit_info info = Some c.
Proof.
  intros Hv Hk. destruct (metadata_lookup c) as (E1 & E2 & E3).
  pose proof (reason_round_trip (rc_reason c) (rc_partition_columns c)) as Hr. cbv zeta in Hr.
  unfold from_commit_info. rewrite !Hk, E1, E2, E3 by (unfold window_keys; set_solver).
  cbn [mbind option_bind as_str].
  set (s := match rc_partition_columns c with [] => _ | _ => _ end) in *.
  assert (Et : ∃ text p, (match strip_suffix CUTOFF_PARTITIONED_REASON_SUFFIX s with
      | Some base => (Some base, true) | None => (Some s, false) end) = (text, p) ∧
      text ≫= parse_reason = Some (rc_reason c) ∧
      p = negb (bool_decide (rc_partition_columns c = []))).
  { destruct (strip_suffix _ s) as [base|]; injection Hr as Ha Hb; eexists _, _; by split. }
  destruct Et as (text & p & -> & -> & ->). cbv iota beta. cbn [option_bind].
  destruct c as [r [t|] cols]; cbn [rc_reason rc_source_through rc_partition_columns fmap option_fmap
    option_map] in *.
  - rewrite as_u64_number by by apply Hv. cbn [option_map option_bind]. destruct cols as [|x l]; [done|].
    cbn [as_array mbind option_bind]. by rewrite mapM_as_str.
  - destruct cols as [|x l]; [done|]. cbn [as_array mbind option_bind]. by rewrite mapM_as_str.
Qed.

(** ** Properties *)

(** C22: inside a coverage window exactly the rows the target covers are dropped, in the order
    they came: the rows not newer than a stored row of their partition, where a row as new as
    the newest stored one counts only if its key, when rows have keys, is stored at that
    instant; and the rows counted as beyond are those newer than every stored row of their
    partition.  The cut-off is what one pass over the target read, whatever the order of its
    rows. *)
Theorem the_window_drops_what_the_target_covers `{!Arrow V} json_of type_of
    target_schema (target : list (Row V)) ts key columns max_partitions d b f :
  read_bounded json_of type_of target_schema target ts key columns max_partitions = Ok d →
  filter json_of d b = Ok f →
  ∃ keep past,
    kept f = List.filter keep (rows b) ∧ covered f = count (λ r, negb (keep r)) (rows b) ∧
    beyond f = count past (rows b) ∧
    ∀ r, r ∈ rows b →
      (keep r = true ↔ ¬ covered_by json_of ts key columns target r) ∧
      (is_Some (r !! ts) → past r = true ↔ newer_than json_of ts columns target r).
Proof. intros Hr%read_bounded_reads Hf. by eapply filter_ok. Qed.

(** A coverage window survives a reopen: whatever else a commit's metadata holds, what one
    commit recorded of an open window is what the next open reads back. *)
Theorem a_recorded_window_is_read_back c others :
  (∀ v, rc_source_through c = Some v → in_u64 v) →
  others !! CUTOFF_SOURCE_THROUGH_KEY = None → others !! CUTOFF_PARTITION_COLUMNS_KEY = None →
  from_commit_info (info_with c others) = Some c.
Proof.
  intros Hv H1 H2. apply read_back; [done|]. destruct (metadata_lookup c) as (E1 & E2 & E3).
  intros k Hk. rewrite info_lookup.
  repeat (apply elem_of_cons in Hk as [->|Hk]); [by rewrite E1| | |by apply elem_of_nil in Hk].
  - rewrite E2. by destruct (rc_source_through c).
  - rewrite E3. by destruct (rc_partition_columns c).
Qed.

Module DedupDemo.
Definition join (l : list string) : string := String.concat "," l.
Definition any_type (_ : string) : DataType := Int64.
Definition row (at_ id p : Z) : Row Z := {[ "at" := at_; "id" := id; "p" := p ]}.
Definition columns : list string := ["at"; "id"; "p"].

(** Partition 0 reaches instant 20 with the keys 2 and 3, partition 1 instant 5. *)
Definition target : list (Row Z) := [row 20 2 0; row 10 1 0; row 5 9 1; row 20 3 0].
(** A covered row, a tie with a new key, a tie with a stored one, a newer one, and one of a
    partition the target lacks. *)
Definition batch : RecordBatch Z :=
  {| schema := columns; rows := [row 19 7 0; row 20 4 0; row 20 3 0; row 6 9 1; row 1 1 2] |}.
Definition cutoff : result Error (Dedup (V := Z)) :=
  read_bounded join any_type columns target "at" (Some "id") ["p"] MAX_DEDUP_PARTITIONS.
Definition filtered : result Error (Filtered (V := Z)) :=
  let? d := cutoff in filter join d batch.

Example filtered_rows :
  (λ f, (kept f, covered f, beyond f)) <$> ok filtered =
  Some ([row 20 4 0; row 6 9 1; row 1 1 2], 2, 2).
Proof. vm_compute. reflexivity. Qed.
End DedupDemo.

Lemma the_window_drops_what_the_target_covers_witness :
  ¬ covered_by DedupDemo.join "at" (Some "id") ["p"] DedupDemo.target (DedupDemo.row 20 4 0) ∧
  newer_than DedupDemo.join "at" ["p"] DedupDemo.target (DedupDemo.row 6 9 1).
Proof.
  destruct DedupDemo.cutoff as [d|e] eqn:Ed; [|vm_compute in Ed; discriminate Ed].
  destruct (filter DedupDemo.join d DedupDemo.batch) as [f|e] eqn:Ef.
  2: { assert (H : DedupDemo.filtered = Err e) by (unfold DedupDemo.filtered; rewrite Ed; exact Ef).
       vm_compute in H. discriminate H. }
  destruct (the_window_drops_what_the_target_covers DedupDemo.join DedupDemo.any_type
    DedupDemo.columns DedupDemo.target "at" (Some "id") ["p"] MAX_DEDUP_PARTITIONS d
    DedupDemo.batch f Ed Ef) as (keep & past & Hk & _ & Hb & H).
  assert (HF : DedupDemo.filtered = Ok f) by (unfold DedupDemo.filtered; rewrite Ed; exact Ef).
  assert (Hkept : kept <$> ok DedupDemo.filtered =
    Some [DedupDemo.row 20 4 0; DedupDemo.row 6 9 1; DedupDemo.row 1 1 2]) by (vm_compute; reflexivity).
  rewrite HF in Hkept. injection Hkept as Hkept. rewrite Hkept in Hk.
  split.
  - apply (H (DedupDemo.row 20 4 0)); [right; left|].
    assert (Hin : DedupDemo.row 20 4 0 ∈ List.filter keep (rows DedupDemo.batch))
      by (rewrite <-Hk; left).
    apply list_elem_of_In, filter_In in Hin. exact (proj2 Hin).
  - exists 6. split; [reflexivity|]. intros t a Ht Hp Ha. unfold DedupDemo.target in Ht.
    repeat (apply elem_of_cons in Ht as [->|Ht];
      [vm_compute in Hp; try discriminate Hp; vm_compute in Ha; injection Ha as <-; reflexivity|]).
    by apply elem_of_nil in Ht.
Defined.

Lemma a_recorded_window_is_read_back_witness :
  from_commit_info (info_with
    {| rc_reason := Rebuilt; rc_source_through := Some 41; rc_partition_columns := ["p"; "topic"] |}
    {[ "ddi.appId" := V_String "orders" ]}) =
  Some {| rc_reason := Rebuilt; rc_source_through := Some 41; rc_partition_columns := ["p"; "topic"] |}.
Proof.
  apply a_recorded_window_is_read_back.
  - intros v [= <-]. split; vm_compute; discriminate.
  - reflexivity.
  - reflexivity.
Defined.
