(* ===== verification/Rescan.v ===== *)
(** * Rescan: how far back a rescan has to reach (src/dedup.rs)

    After another writer rebuilt the target, the pipeline re-reads the source from the earliest
    version that can still hold a row the target lacks.  [rescan_start] walks the source's log
    back from its head, at most [max_scan] commits, and stops at the first commit that is
    covered: whose rows the target's cut-off covers by the files' statistics alone or, with a
    cut-off per partition, by reading the files ([probe_file], at most [MAX_PROBE_FILES] of
    them).  The theorem is that it never stops past the read point of whatever filled the
    target. *)

From Stdlib Require Import ZArith Lia Ascii.
From stdpp Require Import base list strings gmap.
From S2P Require Import Prelude Json Error F64 Cursor Budget LogStream.
From S2P Require Import Stats Arrow Dedup.

Open Scope Z_scope.
Open Scope ddi_scope.

Definition MAX_PROBE_FILES : nat := 10000.

(** ** What a file says *)

Inductive FileCoverage := F_Covered (rows : Z) | F_Uncovered | F_Unknown.

(** [commit_is_covered]; the rows are a wrapping [u64] sum. *)
Fixpoint covered_files (files : list FileCoverage) (rows : Z) : bool :=
  match files with
  | [] => 0 <? rows
  | F_Covered n :: files => covered_files files (u64 (rows + n))
  | _ :: _ => false
  end.
Definition commit_is_covered (files : list FileCoverage) : bool := covered_files files 0.

(** [integer_text] *)
Definition integer_text (stat : Stat) : option string :=
  match stat with
  | St_Int z => if bool_decide (in_i64 z) || bool_decide (in_u64 z) then Some (show_Z z) else None
  | _ => None
  end.

(** [eq_ignore_ascii_case] *)
Definition ascii_lower (a : ascii) : ascii :=
  let n := N_of_ascii a in
  if ((65 <=? n) && (n <=? 90))%N then ascii_of_N (n + 32) else a.
Definition eq_ignore_ascii_case (a b : string) : bool :=
  bool_decide (ascii_lower <$> String.list_ascii_of_string a =
               ascii_lower <$> String.list_ascii_of_string b).

Definition may_prove_coverage (actions : list Action) : bool :=
  let restore := existsb (λ a, match a with
    | A_CommitInfo (Some op) _ => eq_ignore_ascii_case op "RESTORE"
    | _ => false
    end) actions in
  match classify actions with Data _ => negb restore | _ => false end.

Section Rescan.
Context {V : Type} `{!Arrow V} {Bytes Schema : Type} (S : LogStore Bytes Schema).
(** chrono, serde_json, and [Slack::of] the timestamp's type. *)
Context (parse_timestamp_micros : string → option Z).
Context (parse_stats : string → option FileStats).
Context (json_of : list string → string).
Context (slack : option Slack).
(** A data file's rows, its timestamps cast to the target's type. *)
Context (read_file : Add → result Error (RecordBatch V)).
(** The source: its columns, and those it is partitioned by. *)
Context (source_columns delta_partitioned : list string).

Abbreviation bound_of_stat := (bound_of_stat parse_timestamp_micros).
Abbreviation partition_text := (partition_text json_of).

(** [MarkBounds], but for the partition it remembers for a warning. *)
Record MarkBounds := {
  mb_bounds : gmap string (option Bound);
  mb_highest : option Bound;
}.

(** [try_fold] over the marks' bounds; [None] once one has none or cannot be compared. *)
Fixpoint highest_of (high : option Bound) (l : list (option Bound)) : option (option Bound) :=
  match l with
  | [] => Some high
  | None :: _ => None
  | Some b :: l =>
      match high with
      | None => highest_of (Some b) l
      | Some h =>
          match partial_cmp h b with
          | None => None
          | Some Lt => highest_of (Some b) l
          | Some _ => highest_of (Some h) l
          end
      end
  end.

(** [MarkBounds::of] *)
Definition mark_bounds (d : Dedup (V := V)) : MarkBounds :=
  let bounds := (λ m : V * gset string, bound_of m.1) <$> partitions d in
  {| mb_bounds := bounds;
     mb_highest := mjoin (highest_of None (snd <$> map_to_list bounds)) |}.

(** The texts of the partition columns, [Some None] when they are not known exactly; [None]
    when a row provably has none. *)
Fixpoint known_parts (stats : FileStats) (partition_values : gmap string (option string))
    (columns : list string) (parts : option (list string)) : option (option (list string)) :=
  match columns with
  | [] => Some parts
  | c :: columns =>
      let known (t : string) := (λ l, l ++ [t]) <$> parts in
      match partition_values !! c with
      | Some (Some v) => known_parts stats partition_values columns (known v)
      | Some None => None
      | None =>
          match fs_null_count stats !! c with
          | Some n =>
              if n =? 0 then
                let next :=
                  match fs_min stats !! c ≫= integer_text, fs_max stats !! c ≫= integer_text with
                  | Some lo, Some hi => if decide (lo = hi) then known lo else None
                  | _, _ => None
                  end in
                known_parts stats partition_values columns next
              else None
          | None => known_parts stats partition_values columns None
          end
      end
  end.

Definition file_coverage_from_stats (stats : option FileStats)
    (partition_values : gmap string (option string)) (timestamp_column : string)
    (partition_columns : list string) (marks : MarkBounds) : FileCoverage :=
  match stats with
  | None => F_Unknown
  | Some stats =>
      match fs_num_records stats with
      | None => F_Unknown
      | Some rows =>
          if rows =? 0 then F_Covered 0
          else
            let read (m : gmap string Stat) (like : Bound) :=
              s ← m !! timestamp_column; bound_of_stat s like in
            match known_parts stats partition_values partition_columns (Some []) with
            | None => F_Uncovered
            | Some None =>
                match mb_highest marks with
                | None => F_Unknown
                | Some highest =>
                    match read (fs_min stats) highest with
                    | Some mn =>
                        if provably_below highest (loosen_min slack mn) then F_Uncovered
                        else F_Unknown
                    | None => F_Unknown
                    end
                end
            | Some (Some parts) =>
                match mb_bounds marks !! partition_key json_of parts with
                | None => F_Uncovered
                | Some None => F_Unknown
                | Some (Some mark) =>
                    match fs_null_count stats !! timestamp_column with
                    | None => F_Unknown
                    | Some n =>
                        if n =? 0 then
                          if match read (fs_max stats) mark with
                             | Some mx => provably_below (loosen_max slack mx) mark
                             | None => false
                             end
                          then F_Covered rows
                          else if match read (fs_min stats) mark with
                                  | Some mn => provably_below mark (loosen_min slack mn)
                                  | None => false
                                  end
                          then F_Uncovered
                          else F_Unknown
                        else F_Uncovered
                    end
                end
            end
      end
  end.

(** ** Reading a file *)

(** A row's partition text, the columns the source is partitioned by from the log. *)
Definition file_partition_text (d : Dedup (V := V)) (add : Add) (r : Row V) : option string :=
  partition_key json_of <$>
    mapM (λ c, if decide (c ∈ delta_partitioned) then mjoin (partition_values add !! c)
               else text <$> r !! c) (partition_columns d).

(** [Probe::read] *)
Definition probe_read (d : Dedup (V := V)) (add : Add) : result Error FileCoverage :=
  if bool_decide (partitions d = ∅) then Ok F_Unknown
  else
    let? file := read_file add in
    let present c := bool_decide (c ∈ schema file) in
    let key := match key_column d with
               | Some k => if present k then Some k else None
               | None => None
               end in
    let in_data := timestamp_column d :: option_list key ++
      List.filter (λ c, negb (bool_decide (c ∈ delta_partitioned))) (partition_columns d) in
    if forallb present in_data then
      let covered r := is_covered (covered_rows d (r !! timestamp_column d)
        (file_partition_text d add r)
        (match key with Some k => Some (text <$> r !! k) | None => None end) false) in
      if forallb covered (rows file) then Ok (F_Covered (Z.of_nat (length (rows file))))
      else Ok F_Uncovered
    else Ok F_Unknown.

(** [Probe::file]: with the files still allowed to be read; none once they are spent. *)
Definition probe_file (d : Dedup (V := V)) (budget : nat) (add : Add)
    : option (FileCoverage * nat) :=
  match budget with
  | O => None
  | Datatypes.S budget =>
      Some (match probe_read d add with Ok v => v | Err _ => F_Unknown end, budget)
  end.

(** The files their statistics leave open are read, up to the first that is not covered. *)
Fixpoint probe_files (d : Dedup (V := V)) (budget : nat) (files : list (Add * FileCoverage))
    (verdicts : list FileCoverage) : option (bool * nat) :=
  match files with
  | [] => Some (commit_is_covered verdicts, budget)
  | (add, F_Unknown) :: files =>
      match probe_file d budget add with
      | None => None
      | Some (F_Covered n, budget) => probe_files d budget files (verdicts ++ [F_Covered n])
      | Some (_, budget) => Some (false, budget)
      end
  | (_, v) :: files => probe_files d budget files (verdicts ++ [v])
  end.

Definition is_uncovered (v : FileCoverage) : bool :=
  match v with F_Uncovered => true | _ => false end.

(** [commit_coverage]; none when the budget ran out. *)
Definition commit_coverage (d : Dedup (V := V)) (marks : MarkBounds) (budget : nat)
    (actions : list Action) : option (bool * nat) :=
  let adds := data_adds actions in
  let verdict add := file_coverage_from_stats (add_stats add ≫= parse_stats)
    (partition_values add) (timestamp_column d) (partition_columns d) marks in
  let verdicts := verdict <$> adds in
  if existsb is_uncovered verdicts then Some (false, budget)
  else probe_files d budget (zip adds verdicts) [].

(** ** The walks *)

(** The highest timestamp a commit added: [None] when it cannot be told, [Some None] when it
    added nothing. *)
Fixpoint commit_max (timestamp_column : string) (mark : Bound) (adds : list Add)
    (max : option Bound) : option (option Bound) :=
  match adds with
  | [] => Some max
  | add :: adds =>
      match add_stats add ≫= parse_stats with
      | None => None
      | Some stats =>
          match (s ← fs_max stats !! timestamp_column; bound_of_stat s mark) with
          | None => None
          | Some b =>
              let b := loosen_max slack b in
              commit_max timestamp_column mark adds
                (Some match max with
                      | Some cur => match partial_cmp cur b with Some Gt => cur | _ => b end
                      | None => b
                      end)
          end
      end
  end.

(** The loop of [bounded_rescan_start]: [scans] commits may still be read. *)
Fixpoint walk (timestamp_column : string) (mark covered_to : Bound) (fallback : Version)
    (scans : nat) (v : Version) : result Error Version :=
  match scans with
  | O => Ok fallback
  | Datatypes.S scans =>
      if v <? fallback then Ok fallback
      else match read_commit_entry S v with
      | Err e => Err (Delta e)
      | Ok None => Ok fallback
      | Ok (Some raw) =>
          match get_actions S v raw with
          | Err e => Err (Delta e)
          | Ok actions =>
              match commit_max timestamp_column mark (data_adds actions) None with
              | None => Ok fallback
              | Some max =>
                  if match max with Some m => below_b m covered_to | None => false end
                  then Ok (Z.min u64_max (v + 1))
                  else if v =? 0 then Ok fallback
                  else walk timestamp_column mark covered_to fallback scans (v - 1)
              end
          end
      end
  end.

Definition bounded_rescan_start (source_version : option Version) (timestamp_column : string)
    (watermark : V) (fallback : Version) (max_scan : nat) : result Error Version :=
  match bound_of watermark with
  | None => Ok fallback
  | Some mark =>
      match source_version with
      | None => Ok fallback
      | Some head => walk timestamp_column mark (loosen_min slack mark) fallback max_scan head
      end
  end.

(** The loop of [bounded_rescan_start_partitioned]. *)
Fixpoint walk_partitioned (d : Dedup (V := V)) (fallback : Version) (scans budget : nat)
    (v : Version) : result Error Version :=
  match scans with
  | O => Ok fallback
  | Datatypes.S scans =>
      if v <? fallback then Ok fallback
      else match read_commit_entry S v with
      | Err e => Err (Delta e)
      | Ok None => Ok fallback
      | Ok (Some raw) =>
          match get_actions S v raw with
          | Err e => Err (Delta e)
          | Ok actions =>
              match (if may_prove_coverage actions
                     then commit_coverage d (mark_bounds d) budget actions
                     else Some (false, budget)) with
              | None => Ok fallback
              | Some (true, _) => Ok (Z.min u64_max (v + 1))
              | Some (false, budget) =>
                  if v =? 0 then Ok fallback else walk_partitioned d fallback scans budget (v - 1)
              end
          end
      end
  end.

Definition bounded_rescan_start_partitioned (source_version : option Version)
    (d : Dedup (V := V)) (fallback : Version) (max_scan : nat) : result Error Version :=
  if negb (is_partitioned d) || is_inert d then Ok fallback
  else match source_version with
  | None => Ok fallback
  | Some head =>
      if forallb (λ c, bool_decide (c ∈ source_columns))
                 (timestamp_column d :: partition_columns d)
      then walk_partitioned d fallback max_scan MAX_PROBE_FILES head
      else Ok fallback
  end.

Definition rescan_start (source_version : option Version) (d : Dedup (V := V))
    (fallback : Version) (max_scan : nat) : result Error Version :=
  if is_partitioned d then bounded_rescan_start_partitioned source_version d fallback max_scan
  else match watermark d with
  | Some w => bounded_rescan_start source_version (timestamp_column d) w fallback max_scan
  | None => Ok fallback
  end.

(** ** What the source's files hold *)

Section Source.
(** The source's history, the rows of its files, and the variant of its timestamp's bounds. *)
Context (L : Log) (R : Add → list (Row V)) (k : kind).

(** What a file's log entry says is so of its rows ([d] names the columns). *)
Record truthful (d : Dedup (V := V)) (add : Add) : Prop := {
  t_length : Z.of_nat (length (R add)) ≤ u64_max;
  t_rows st n : add_stats add ≫= parse_stats = Some st → fs_num_records st = Some n →
    n = Z.of_nat (length (R add)) ∧ in_u64 n;
  t_nulls st c r : add_stats add ≫= parse_stats = Some st → fs_null_count st !! c = Some 0 →
    r ∈ R add → is_Some (r !! c);
  t_max st s like mx : add_stats add ≫= parse_stats = Some st →
    fs_max st !! timestamp_column d = Some s → bound_of_stat s like = Some mx →
    of_kind k like →
    of_kind k (loosen_max slack mx) ∧ R add ≠ [] ∧
    ∀ r v, r ∈ R add → r !! timestamp_column d = Some v →
      ∃ b mn, bound_of v = Some b ∧ stands_for slack mn mx b;
  t_integers st c t r v : add_stats add ≫= parse_stats = Some st →
    fs_min st !! c ≫= integer_text = Some t → fs_max st !! c ≫= integer_text = Some t →
    r ∈ R add → r !! c = Some v → text v = t;
  t_partitions c v r : partition_values add !! c = Some v → r ∈ R add → text <$> r !! c = v;
  t_partitioned c : c ∈ delta_partitioned → is_Some (partition_values add !! c);
  t_read file : read_file add = Ok file →
    Forall2 (λ r full : Row V, ∀ c, c ∈ schema file → r !! c = full !! c) (rows file) (R add);
}.

(** A timestamp's bound is in its order, and slack only widens. *)
Record ordered_bounds : Prop := {
  o_kind (v : V) b : bound_of v = Some b → of_kind k b;
  o_order (v w : V) bv bw : bound_of v = Some bv → bound_of w = Some bw →
    below_b bv bw = true → cmp v w = Lt;
  o_slack (w : V) b : bound_of w = Some b →
    of_kind k (loosen_min slack b) ∧ below_b b (loosen_min slack b) = false;
}.

(** A row the target may lack: not covered by its own partition's mark or, with a single
    cut-off, not below the watermark.  A row exactly at a mark is covered only where the target
    holds its key there. *)
Definition past_coverage (d : Dedup (V := V)) (r : Row V) : bool :=
  if is_partitioned d then negb (is_covered (covered_row json_of d false r))
  else match r !! timestamp_column d, watermark d with
  | Some t, Some w => bool_decide (cmp t w ≠ Lt)
  | _, _ => false
  end.

(** The rows commit [v] added. *)
Definition commit_rows (v : Version) (r : Row V) : Prop :=
  ∃ add, add ∈ data_adds (L v) ∧ r ∈ R add.

Context (d : Dedup (V := V)) (Ho : ordered_bounds).
Context (Ht : ∀ v add, add ∈ data_adds (L v) → truthful d add).

Lemma known_parts_spec add st cols acc parts :
  truthful d add → add_stats add ≫= parse_stats = Some st →
  known_parts st (partition_values add) cols acc = Some (Some parts) →
  ∃ a l, acc = Some a ∧ parts = a ++ l ∧
    ∀ r, r ∈ R add → mapM (λ c, text <$> r !! c) cols = Some l.
Proof.
  intros Hadd Hst. revert acc. induction cols as [|c cols IH]; intros acc; cbn [known_parts].
  { intros [= ->]. exists parts, []. split; [done|]. split; [by rewrite app_nil_r|done]. }
  assert (Hstep : ∀ t, known_parts st (partition_values add) cols ((λ l, l ++ [t]) <$> acc) =
    Some (Some parts) → (∀ r, r ∈ R add → text <$> r !! c = Some t) →
    ∃ a l, acc = Some a ∧ parts = a ++ l ∧
      ∀ r, r ∈ R add → mapM (λ c, text <$> r !! c) (c :: cols) = Some l).
  { intros t H Hr. destruct (IH _ H) as (a & l & Ea & -> & Hl).
    destruct acc as [a0|]; [|done]. injection Ea as <-. exists a0, (t :: l).
    split; [done|]. split; [by rewrite <-app_assoc|]. intros r Hin. cbn [mapM].
    rewrite (Hr r Hin). simpl. by rewrite (Hl r Hin). }
  destruct (partition_values add !! c) as [[v|]|] eqn:Epv; [|done|].
  { intros H. apply (Hstep v H). intros r Hr. by apply (t_partitions _ _ Hadd c). }
  destruct (fs_null_count st !! c) as [n|] eqn:En.
  2: { intros H. destruct (IH _ H) as (a & l & Ea & _). done. }
  destruct (Z.eqb_spec n 0) as [->|]; [|done].
  destruct (fs_min st !! c ≫= integer_text) as [lo|] eqn:Elo;
    [|intros H; destruct (IH _ H) as (a & l & Ea & _); done].
  destruct (fs_max st !! c ≫= integer_text) as [hi|] eqn:Ehi;
    [|intros H; destruct (IH _ H) as (a & l & Ea & _); done].
  destruct (decide (lo = hi)) as [<-|];
    [|intros H; destruct (IH _ H) as (a & l & Ea & _); done].
  intros H. apply (Hstep lo H). intros r Hr.
  destruct (t_nulls _ _ Hadd st c r Hst En Hr) as [v Hv]. rewrite Hv. simpl.
  by rewrite (t_integers _ _ Hadd st c lo r v).
Qed.

(** A maximum that is below a mark for sure: every timestamp is below the mark. *)
Lemma below_the_mark add st s w mark mx r v :
  truthful d add → add_stats add ≫= parse_stats = Some st →
  fs_max st !! timestamp_column d = Some s → bound_of w = Some mark →
  bound_of_stat s mark = Some mx → provably_below (loosen_max slack mx) mark = true →
  r ∈ R add → r !! timestamp_column d = Some v → cmp v w = Lt.
Proof.
  intros Hadd Hst Hs Hw Hmx Hp Hr Hv. pose proof (o_kind Ho _ _ Hw) as Hk.
  destruct (t_max _ _ Hadd st s mark mx Hst Hs Hmx Hk) as (Hkx & _ & Hrows).
  destruct (Hrows r v Hr Hv) as (b & mn & Hb & Hs').
  apply (o_order Ho v w b mark Hb Hw). apply not_false_iff_true. intros Hn.
  pose proof (provably_below_up k _ _ b Hkx Hk (o_kind Ho _ _ Hb) Hp Hn) as H1.
  rewrite (covers_not_below k _ _ b Hkx (o_kind Ho _ _ Hb) (loosened_covers _ _ _ _ Hs')) in H1.
  done.
Qed.

Lemma covered_rows_below ts part key ties p w tied :
  part = Some p → partitions d !! p = Some (w, tied) → cmp ts w = Lt →
  is_covered (covered_rows d (Some ts) part key ties) = true.
Proof. intros -> Hp Hc. unfold covered_rows. by rewrite Hp, Hc. Qed.

(** Commit [v] added rows, none of which the target may lack. *)
Definition proves_coverage (v : Version) : Prop :=
  (is_partitioned d = true → may_prove_coverage (L v) = true) ∧
  (∃ r, commit_rows v r) ∧ ∀ r, commit_rows v r → past_coverage d r = false.

(** ** A covered file holds covered rows *)

(** What [F_Covered n] has to mean of a file. *)
Definition covered_file (add : Add) (n : Z) : Prop :=
  n = Z.of_nat (length (R add)) ∧ in_u64 n ∧
  ∀ r, r ∈ R add → is_covered (covered_row json_of d false r) = true.

Lemma statistics_cover add n :
  truthful d add →
  file_coverage_from_stats (add_stats add ≫= parse_stats) (partition_values add)
    (timestamp_column d) (partition_columns d) (mark_bounds d) = F_Covered n →
  covered_file add n.
Proof.
  intros Hadd. unfold file_coverage_from_stats.
  destruct (add_stats add ≫= parse_stats) as [st|] eqn:Est; [|done].
  destruct (fs_num_records st) as [rows|] eqn:Er; [|done].
  destruct (t_rows _ _ Hadd st rows Est Er) as [Hrows Hu].
  destruct (Z.eqb_spec rows 0) as [E0|E0].
  { intros [= <-]. split; [lia|]. split; [by rewrite <-E0|]. intros r Hin.
    destruct (R add); [by apply elem_of_nil in Hin|simpl in Hrows; lia]. }
  destruct (known_parts _ _ _ _) as [[parts|]|] eqn:Ep; [| |done].
  2: { by repeat case_match. }
  destruct (known_parts_spec add st _ _ _ Hadd Est Ep) as (a & l & [= <-] & -> & Hl).
  rewrite app_nil_l. cbn [mb_bounds mark_bounds]. rewrite lookup_fmap.
  destruct (partitions d !! partition_key json_of l) as [[w tied]|] eqn:Em; [|done].
  cbn [fmap option_fmap option_map fst]. destruct (bound_of w) as [mark|] eqn:Ew; [|done].
  destruct (fs_null_count st !! timestamp_column d) as [nulls|] eqn:En; [|done].
  destruct (Z.eqb_spec nulls 0) as [->|]; [|done].
  destruct (fs_max st !! timestamp_column d) as [s|] eqn:Es; cbn [mbind option_bind].
  2: { by repeat case_match. }
  destruct (bound_of_stat s mark) as [mx|] eqn:Emx.
  2: { by repeat case_match. }
  destruct (provably_below (loosen_max slack mx) mark) eqn:Hp.
  2: { by repeat case_match. }
  intros [= <-]. split; [done|]. split; [done|]. intros r Hin.
  destruct (t_nulls _ _ Hadd st _ r Est En Hin) as [v Hv].
  unfold covered_row. rewrite Hv.
  apply (covered_rows_below v _ _ _ (partition_key json_of l) w tied); [|done|].
  - unfold Dedup.partition_text. by rewrite (Hl r Hin).
  - by apply (below_the_mark add st s w mark mx r v).
Qed.

Lemma file_text add r full f :
  truthful d add → read_file add = Ok f → full ∈ R add →
  (∀ c, c ∈ schema f → r !! c = full !! c) →
  (∀ c, c ∈ partition_columns d → c ∉ delta_partitioned → c ∈ schema f) →
  file_partition_text d add r = Dedup.partition_text json_of (partition_columns d) full.
Proof.
  intros Hadd _ Hin Hsame Hcols. unfold file_partition_text, Dedup.partition_text. f_equal.
  induction (partition_columns d) as [|c cols IH]; [done|]. cbn [mapM].
  rewrite IH by (intros; apply Hcols; [by right|done]).
  destruct (decide (c ∈ delta_partitioned)) as [Hc|Hc].
  - destruct (t_partitioned _ _ Hadd c Hc) as [v Hv]. rewrite Hv. simpl.
    by rewrite (t_partitions _ _ Hadd c v full Hv Hin).
  - rewrite Hsame; [done|]. apply Hcols; [by left|done].
Qed.

Lemma reading_covers add n :
  truthful d add → probe_read d add = Ok (F_Covered n) → covered_file add n.
Proof.
  intros Hadd. pose proof (t_length _ _ Hadd) as Hlen. unfold probe_read. case_bool_decide; [done|].
  destruct (read_file add) as [f|] eqn:Ef; [|done].
  destruct (forallb _ _) eqn:Hpresent; [|done].
  destruct (forallb _ (rows f)) eqn:Hall; [|done]. intros [= <-].
  pose proof (t_read _ _ Hadd f Ef) as Hf. rewrite forallb_forall in Hpresent, Hall.
  assert (Hin : ∀ c, c ∈ timestamp_column d :: option_list
      (match key_column d with Some k => if bool_decide (k ∈ schema f) then Some k else None
       | None => None end) ++
      List.filter (λ c, negb (bool_decide (c ∈ delta_partitioned))) (partition_columns d) →
    c ∈ schema f).
  { intros c Hc. apply list_elem_of_In in Hc. apply Hpresent in Hc.
    by apply bool_decide_eq_true in Hc. }
  split; [by rewrite (Forall2_length _ _ _ Hf)|]. split; [rewrite (Forall2_length _ _ _ Hf); split; lia|].
  intros full Hfull. apply list_elem_of_lookup in Hfull as [i Hi].
  destruct (Forall2_lookup_r _ _ _ _ _ Hf Hi) as (r & Hr & Hsame).
  assert (Hcov := Hall r ltac:(apply list_elem_of_In, list_elem_of_lookup; eauto)).
  rewrite (file_text add r full f Hadd Ef) in Hcov; [|apply list_elem_of_lookup; eauto|done|].
  2: { intros c Hc Hd. apply Hin. right. apply elem_of_app. right.
       apply list_elem_of_In, filter_In. split; [by apply list_elem_of_In|].
       by rewrite bool_decide_eq_false_2. }
  rewrite Hsame in Hcov by (apply Hin; by left). unfold covered_row.
  destruct (key_column d) as [kc|]; [|done]. case_bool_decide as Hk.
  { by rewrite Hsame in Hcov. }
  unfold covered_rows in *. destruct (full !! timestamp_column d) as [v|]; [|done].
  destruct (Dedup.partition_text _ _ _) as [p|]; [|done].
  destruct (partitions d !! p) as [[w tied]|]; [|done]. by destruct (cmp v w).
Qed.

(** ** A covered commit holds covered rows *)

Lemma covered_files_spec files rows :
  in_u64 rows → covered_files files rows = true →
  (∀ f, f ∈ files → ∃ n, f = F_Covered n) ∧ (0 < rows ∨ ∃ n, F_Covered n ∈ files ∧ n ≠ 0).
Proof.
  revert rows. induction files as [|f files IH]; intros rows Hr; simpl.
  { intros H%Z.ltb_lt. split; [intros f Hf; by apply elem_of_nil in Hf|by left]. }
  destruct f as [n| |]; [|done..]. intros H.
  destruct (IH (u64 (rows + n)) (u64_range _) H) as [Hall Hpos]. split.
  - intros f [->|Hf]%elem_of_cons; [eauto|by apply Hall].
  - destruct (decide (n = 0)) as [->|Hn]; [|right; exists n; split; [by left|done]].
    rewrite Z.add_0_r, u64_small in Hpos by done.
    destruct Hpos as [H'|(m & Hm & Hm0)]; [by left|right; exists m; split; [by right|done]].
Qed.

Lemma probe_files_spec files budget verdicts b' :
  (∀ add v, (add, v) ∈ files → truthful d add ∧ v ≠ F_Uncovered ∧
    ∀ n, v = F_Covered n → covered_file add n) →
  probe_files d budget files verdicts = Some (true, b') →
  ∃ ns, Forall2 covered_file files.*1 ns ∧ commit_is_covered (verdicts ++ (F_Covered <$> ns)) = true.
Proof.
  revert budget verdicts. induction files as [|[add v] files IH]; intros budget verdicts Hf; simpl.
  { intros [= H _]. exists []. by rewrite app_nil_r. }
  assert (Hrest : ∀ add v, (add, v) ∈ files → truthful d add ∧ v ≠ F_Uncovered ∧
    ∀ n, v = F_Covered n → covered_file add n) by (intros; apply Hf; by right).
  destruct (Hf add v ltac:(by left)) as (Hadd & Hv & Hc).
  assert (Hgo : ∀ n budget, covered_file add n →
    probe_files d budget files (verdicts ++ [F_Covered n]) = Some (true, b') →
    ∃ ns, Forall2 covered_file (add :: files.*1) ns ∧
      commit_is_covered (verdicts ++ (F_Covered <$> ns)) = true).
  { intros n budget' Hn H. destruct (IH _ _ Hrest H) as (ns & H2 & H3).
    exists (n :: ns). split; [by constructor|]. by rewrite <-app_assoc in H3. }
  destruct v as [n| |]; [by apply Hgo, Hc|done|].
  destruct (probe_file d budget add) as [[w budget']|] eqn:Ep; [|done].
  destruct w as [n| |]; [|done..]. apply Hgo.
  destruct budget as [|budget]; [done|]. simpl in Ep. injection Ep as Ev _.
  destruct (probe_read d add) as [w|] eqn:Er; [|done]. subst w. by apply reading_covers.
Qed.

Lemma zip_verdicts {A B} (f : A → B) (l : list A) : zip l (f <$> l) = (λ a, (a, f a)) <$> l.
Proof. induction l; simpl; by f_equal. Qed.

Lemma commit_coverage_true v budget b' :
  commit_coverage d (mark_bounds d) budget (L v) = Some (true, b') →
  (∃ r, commit_rows v r) ∧
  ∀ r, commit_rows v r → is_covered (covered_row json_of d false r) = true.
Proof.
  unfold commit_coverage. destruct (existsb _ _) eqn:Hex; [done|]. rewrite zip_verdicts.
  intros H. apply probe_files_spec in H as (ns & H2 & H3).
  - rewrite app_nil_l in H3. apply covered_files_spec in H3 as [_ [H3|(n & Hn & Hn0)]]; [lia| |done].
    rewrite <-list_fmap_compose in H2. simpl in H2. rewrite list_fmap_id in H2. split.
    + apply list_elem_of_fmap in Hn as (m & [= ->] & Hm). apply list_elem_of_lookup in Hm as [i Hi].
      destruct (Forall2_lookup_r _ _ _ _ _ H2 Hi) as (add & Ha & Hlen & _).
      destruct (R add) as [|r l] eqn:Er; [simpl in Hlen; lia|]. exists r, add.
      split; [apply list_elem_of_lookup; eauto|rewrite Er; by left].
    + intros r (add & Ha & Hr). apply list_elem_of_lookup in Ha as [i Hi].
      destruct (Forall2_lookup_l _ _ _ _ _ H2 Hi) as (n' & _ & _ & _ & Hc). by apply Hc.
  - intros add w Hw. apply list_elem_of_fmap in Hw as (a & [= -> ->] & Ha).
    pose proof (Ht v a Ha) as Hadd. split; [done|]. split.
    + intros E. apply not_true_iff_false in Hex. apply Hex, existsb_exists.
      exists F_Uncovered. split; [|done]. apply list_elem_of_In, list_elem_of_fmap. by exists a.
    + intros n. by apply statistics_cover.
Qed.

(** The greater of two bounds. *)
Lemma greater_of a b :
  of_kind k a → of_kind k b →
  let m := match partial_cmp a b with Some Gt => a | _ => b end in
  of_kind k m ∧ below_b m a = false ∧ below_b m b = false.
Proof.
  intros Ha Hb m. destruct (below_total k a b Ha Hb) as [H|[H|H]].
  - assert (m = b) as -> by (unfold m; unfold below_b in H; by destruct (partial_cmp a b) as [[]|]).
    split; [done|]. split; [by apply (below_asym k)|by apply (below_irrefl k)].
  - assert (E : partial_cmp a b = Some Gt).
    { destruct k, a as [x|x|x], b as [y|y|y]; try done.
      - rewrite int_below in H. simpl. f_equal. apply Z.compare_gt_iff. lia.
      - rewrite float_below in H by done. simpl. rewrite compare_place by done. f_equal.
        apply Z.compare_gt_iff. lia.
      - simpl. f_equal. apply text_below in H as [H1 H2].
        destruct (String.compare x y) eqn:E; [|exfalso|done].
        + apply String.compare_eq_iff in E. congruence.
        + apply text_compare_lt in E as [H3 _]. apply H2. by apply (anti_symm String.le). }
    unfold m. rewrite E. split; [done|]. split; [by apply (below_irrefl k)|by apply (below_asym k)].
  - assert (m = b) as -> by (unfold m; by rewrite H). split; [done|].
    split; [|by apply (below_irrefl k)]. rewrite (same_below k a b b) by done. by apply (below_irrefl k).
Qed.

(** A commit whose newest row is below the watermark. *)
Lemma commit_max_spec st0 mark adds max m :
  watermark d = Some st0 → bound_of st0 = Some mark →
  (∀ add, add ∈ adds → truthful d add) → (∀ b, max = Some b → of_kind k b) →
  commit_max (timestamp_column d) mark adds max = Some (Some m) →
  of_kind k m ∧ (∀ b, max = Some b → below_b m b = false) ∧
  ∀ add, add ∈ adds → R add ≠ [] ∧ ∃ mx, of_kind k mx ∧ below_b m mx = false ∧
    ∀ r v, r ∈ R add → r !! timestamp_column d = Some v →
      ∃ b mn, bound_of v = Some b ∧ covers mn mx b.
Proof.
  intros Hw Hmark. revert max. induction adds as [|add adds IH]; intros max Hadds Hmax; simpl.
  { intros [= ->]. split; [by apply Hmax|]. split.
    - intros b [= <-]. apply (below_irrefl k). by apply Hmax.
    - intros add Ha. by apply elem_of_nil in Ha. }
  destruct (add_stats add ≫= parse_stats) as [st|] eqn:Est; [|done].
  destruct (fs_max st !! timestamp_column d) as [s|] eqn:Es; [|done]. cbn [mbind option_bind].
  destruct (bound_of_stat s mark) as [mx|] eqn:Emx; [|done].
  destruct (t_max _ _ (Hadds add ltac:(by left)) st s mark mx Est Es Emx (o_kind Ho _ _ Hmark))
    as (Hkx & Hne & Hrows).
  set (next := match max with Some cur => match partial_cmp cur (loosen_max slack mx) with
    Some Gt => cur | _ => loosen_max slack mx end | None => loosen_max slack mx end).
  assert (Hnext : of_kind k next ∧ (∀ b, max = Some b → below_b next b = false) ∧
    below_b next (loosen_max slack mx) = false).
  { unfold next. destruct max as [cur|].
    - destruct (greater_of cur (loosen_max slack mx) (Hmax cur eq_refl) Hkx) as (H1 & H2 & H3).
      split; [done|]. split; [by intros b [= <-]|done].
    - split; [done|]. split; [done|by apply (below_irrefl k)]. }
  destruct Hnext as (Hkn & Hn1 & Hn2).
  intros H. destruct (IH (Some next)) as (Hkm & Hm & Hall); [by intros; apply Hadds; right| |done|].
  { by intros b [= <-]. }
  specialize (Hm next eq_refl). split; [done|]. split.
  { intros b Hb. destruct (below_b m b) eqn:E; [|done].
    pose proof (Hmax b Hb). pose proof (Hn1 b Hb) as Hnb.
    rewrite (below_trans k m b next) in Hm by done. done. }
  intros a [->|Ha]%elem_of_cons; [|by apply Hall]. split; [done|].
  exists (loosen_max slack mx). split; [done|]. split.
  { destruct (below_b m (loosen_max slack mx)) eqn:E; [|done].
    rewrite (below_trans k m (loosen_max slack mx) next) in Hm by done. done. }
  intros r v Hr Hv. destruct (Hrows r v Hr Hv) as (b & mn & Hb & Hst). exists b, (loosen_min slack mn).
  split; [done|]. by apply loosened_covers.
Qed.

(** ** The walks *)

Context (Hs : serves S L).

(** Where a walk from [v] may end. *)
Definition reached (fallback v from : Version) : Prop :=
  from = fallback ∨
  ∃ u, fallback ≤ u ≤ v ∧ from = Z.min u64_max (u + 1) ∧ proves_coverage u.

Lemma reached_earlier fallback v from : reached fallback (v - 1) from → reached fallback v from.
Proof. intros [->|(u & Hu & H)]; [by left|right; exists u; split; [lia|done]]. Qed.

Lemma walk_reached w mark fallback scans v from :
  k ≠ K_Text → is_partitioned d = false → watermark d = Some w → bound_of w = Some mark →
  walk (timestamp_column d) mark (loosen_min slack mark) fallback scans v = Ok from →
  reached fallback v from.
Proof.
  intros Hk Hp Hw Hmark. revert v. induction scans as [|scans IH]; intros v; simpl.
  { intros [= <-]. by left. }
  destruct (Z.ltb_spec v fallback); [intros [= <-]; by left|].
  destruct (read_commit_entry S v) as [[raw|]|] eqn:Er; [|intros [= <-]; by left|done].
  destruct (get_actions S v raw) as [actions|] eqn:Ea; [|done].
  assert (actions = L v) as -> by (by eapply serves_actions).
  destruct (commit_max _ _ _ _) as [max|] eqn:Em; [|intros [= <-]; by left].
  assert (Hnext : (if v =? 0 then Ok fallback
      else walk (timestamp_column d) mark (loosen_min slack mark) fallback scans (v - 1)) = Ok from → reached fallback v from).
  { destruct (v =? 0); [intros [= <-]; by left|]. intros H'. by apply reached_earlier, IH. }
  destruct max as [m|]; [|exact Hnext]. destruct (below_b m _) eqn:Eb; [|exact Hnext].
  intros [= <-]. right. exists v. split; [lia|]. split; [done|]. split; [by rewrite Hp|].
  destruct (commit_max_spec w mark (data_adds (L v)) None m Hw Hmark (Ht v)) as (Hkm & _ & Hall);
    [done|done|]. destruct (o_slack Ho w mark Hmark) as [Hkl Hl]. split.
  - destruct (data_adds (L v)) as [|add adds] eqn:Eadds; [done|].
    destruct (Hall add ltac:(by left)) as [Hne _]. destruct (R add) as [|r l] eqn:ER; [done|].
    exists r, add. rewrite Eadds, ER. split; by left.
  - intros r (add & Hadd & Hr). unfold past_coverage. rewrite Hp, Hw.
    destruct (r !! timestamp_column d) as [t|] eqn:Et; [|done].
    apply bool_decide_eq_false_2. intros Hn. apply Hn. clear Hn.
    destruct (Hall add Hadd) as (_ & mx & Hkx & Hmx & Hrows).
    destruct (Hrows r t Hr Et) as (b & mn & Hb & _ & Hcov).
    apply (o_order Ho t w b mark Hb Hmark). apply not_false_iff_true. intros Hn.
    pose proof (o_kind Ho _ _ Hb) as Hkb. pose proof (o_kind Ho _ _ Hmark) as Hkw.
    assert (H1 : below_b mx (loosen_min slack mark) = true) by (by apply (below_trans_r k mx m)).
    assert (H2 : below_b mx mark = true) by (by apply (below_trans k mx (loosen_min slack mark) mark)).
    assert (H3 : below_b mx b = true) by (by apply (below_trans k mx mark b)).
    destruct Hcov as [H4|(x & y & -> & -> & _)]; [congruence|]. by destruct k.
Qed.

Lemma walk_partitioned_reached fallback scans budget v from :
  is_partitioned d = true →
  walk_partitioned d fallback scans budget v = Ok from →
  reached fallback v from.
Proof.
  intros Hp. revert budget v. induction scans as [|scans IH]; intros budget v; simpl.
  { intros [= <-]. by left. }
  destruct (Z.ltb_spec v fallback); [intros [= <-]; by left|].
  destruct (read_commit_entry S v) as [[raw|]|] eqn:Er; [|intros [= <-]; by left|done].
  destruct (get_actions S v raw) as [actions|] eqn:Ea; [|done].
  assert (actions = L v) as -> by (by eapply serves_actions).
  assert (Hnext : ∀ budget, (if v =? 0 then Ok fallback
      else walk_partitioned d fallback scans budget (v - 1)) = Ok from → reached fallback v from).
  { intros budget'. destruct (v =? 0); [intros [= <-]; by left|].
    intros H'. by eapply reached_earlier, IH. }
  destruct (may_prove_coverage (L v)) eqn:Hmay; [|apply Hnext].
  destruct (commit_coverage _ _ _ _) as [[[|] budget']|] eqn:Ec;
    [|apply Hnext|intros [= <-]; by left].
  intros [= <-]. right. exists v. split; [lia|]. split; [done|]. split; [done|].
  destruct (commit_coverage_true v budget budget' Ec) as [Hrow Hcov]. split; [done|].
  intros r Hr. unfold past_coverage. rewrite Hp. by rewrite Hcov.
Qed.

Lemma rescan_start_reached source_version fallback max_scan from :
  (is_partitioned d = false → k ≠ K_Text) →
  rescan_start source_version d fallback max_scan = Ok from →
  from = fallback ∨ ∃ head, source_version = Some head ∧ reached fallback head from.
Proof.
  intros Hk. unfold rescan_start. destruct (is_partitioned d) eqn:Hp.
  - unfold bounded_rescan_start_partitioned. destruct (_ || _); [intros [= <-]; by left|].
    destruct source_version as [head|]; [|intros [= <-]; by left].
    destruct (forallb _ _); [|intros [= <-]; by left].
    intros H. right. exists head. split; [done|]. by eapply walk_partitioned_reached.
  - destruct (watermark d) as [w|] eqn:Hw; [|intros [= <-]; by left]. unfold bounded_rescan_start.
    destruct (bound_of w) as [mark|] eqn:Hm; [|intros [= <-]; by left].
    destruct source_version as [head|]; [|intros [= <-]; by left].
    intros H. right. exists head. split; [done|]. eapply walk_reached; eauto.
Qed.
End Source.
End Rescan.

(** ** The property *)


Module RescanDemo.
Definition join (l : list string) : string := String.concat "," l.
Definition no_time (_ : string) : option Z := None.
Definition columns : list string := ["at"; "p"].
Definition row (at_ p : Z) : Row Z := {[ "at" := at_; "p" := p ]}.
Definition add (name : string) (stats : option string) : Add :=
  {| path := name; size := 1; add_data_change := true; deletion_vector := false;
     add_stats := stats; partition_values := ∅ |}.

(** A file of partition 0 alone, one that mixes partitions, and a newer one, after which the
    target was filled up to version 1. *)
Definition R (a : Add) : list (Row Z) :=
  if decide (path a = "one") then [row 10 0; row 15 0]
  else if decide (path a = "mixed") then [row 18 0; row 4 1]
  else if decide (path a = "newer") then [row 30 0]
  else [].
Definition stats (rows lo hi p q : Z) : FileStats :=
  {| fs_num_records := Some rows; fs_min := {[ "at" := St_Int lo; "p" := St_Int p ]};
     fs_max := {[ "at" := St_Int hi; "p" := St_Int q ]};
     fs_null_count := {[ "at" := 0; "p" := 0 ]} |}.
Definition parse_stats (s : string) : option FileStats :=
  if decide (s = "one") then Some (stats 2 10 15 0 0)
  else if decide (s = "newer") then Some (stats 1 30 30 0 0) else None.
Definition read_file (a : Add) : result Error (RecordBatch Z) :=
  Ok {| schema := columns; rows := R a |}.

Definition commits : list (list Action) :=
  [ [A_Add (add "one" (Some "one"))]; [A_Add (add "mixed" None)]; [A_Other];
    [A_Add (add "newer" (Some "newer"))] ].
Definition log : Log := λ v, default [] (commits !! Z.to_nat v).
Definition store : LogStore (list Action) unit := {|
  get_latest_version := λ _, Ok 3;
  read_commit_entry := λ v, Ok (if (0 <=? v) && (v <=? 3) then Some (log v) else None);
  get_actions := λ _ raw, Ok raw;
  log_state := λ _, Err D_NotFound;
  last_modified := λ _, None;
|}.
Definition cutoff : Dedup (V := Z) :=
  {| timestamp_column := "at"; key_column := None; watermark := None; boundary_keys := ∅;
     partition_columns := ["p"];
     partitions := {[ "0" := (20, ∅); "1" := (5, ∅) ]} |}.
Definition start (fallback : Version) (max_scan : nat) : result Error Version :=
  rescan_start store no_time parse_stats join None read_file columns [] (Some 3) cutoff fallback
    max_scan.

Example start_reads_the_mixed_file : start 0 100 = Ok 2.
Proof. vm_compute. reflexivity. Qed.

Lemma source_serves : serves store log.
Proof.
  split.
  - intros v raw actions. simpl. destruct (_ && _); congruence.
  - intros fl v. simpl. intros [= <-]. split; done.
  - intros v. unfold log. destruct (commits !! Z.to_nat v) as [l|] eqn:E; [|vm_compute; discriminate].
    apply list_elem_of_lookup_2 in E. unfold commits in E.
    repeat (apply elem_of_cons in E as [->|E]; [vm_compute; discriminate|]). by apply elem_of_nil in E.
Qed.

Lemma int_bounds : ordered_bounds (V := Z) None K_Int.
Proof.
  split.
  - intros v b [= <-]. done.
  - intros v w bv bw [= <-] [= <-]. rewrite int_below. intros H%Z.ltb_lt. by apply Z.compare_lt_iff.
  - intros w b [= <-]. split; [done|]. simpl. rewrite int_below. lia.
Qed.

Lemma adds_of v a :
  a ∈ data_adds (log v) →
  (v = 0 ∨ v < 0) ∧ a = add "one" (Some "one") ∨ v = 1 ∧ a = add "mixed" None ∨
  v = 3 ∧ a = add "newer" (Some "newer").
Proof.
  unfold log. destruct (Z.to_nat v) as [|[|[|[|n]]]] eqn:E; simpl;
    rewrite ?list_elem_of_singleton; try (by intros ?%elem_of_nil); intros ->.
  - left. split; [lia|done].
  - right. left. split; [lia|done].
  - right. right. split; [lia|done].
Qed.

Lemma at_row at_ p : row at_ p !! "at" = Some at_.
Proof. reflexivity. Qed.
Lemma p_row at_ p : row at_ p !! "p" = Some p.
Proof. reflexivity. Qed.

Ltac each_row H :=
  repeat (apply elem_of_cons in H as [->|H]); [..|by apply elem_of_nil in H].

Lemma file_truthful v a :
  a ∈ data_adds (log v) → truthful no_time parse_stats None read_file [] R K_Int cutoff a.
Proof.
  intros Ha. apply adds_of in Ha.
  split; simpl timestamp_column; simpl partition_columns;
    [destruct Ha as [[_ ->]|[[_ ->]|[_ ->]]]; vm_compute; discriminate|..|
     intros c H; by apply elem_of_nil in H|
     intros file [= <-]; apply Forall2_same_length_lookup_2; [done|]; intros i x y H1 H2; simpl in *;
       congruence];
    destruct Ha as [[_ ->]|[[_ ->]|[_ ->]]]; simpl partition_values; try (intros st; done);
    try (intros c v' r H; by rewrite lookup_empty in H).
  1-2: intros st n [= <-] [= <-]; split; [done|split; vm_compute; discriminate].
  1-2: intros st c r [= <-] Hn Hr; simpl fs_null_count in Hn;
    apply lookup_insert_Some in Hn as [[<- _]|[_ [<- _]%lookup_singleton_Some]];
    each_row Hr; eexists; reflexivity.
  1-2: intros st s like mx [= <-] [= <-]; destruct like; [|done|done]; intros [= <-] _;
    split; [done|]; split; [done|]; intros r v' Hr Hv; each_row Hr; injection Hv as <-;
    (eexists; exists (B_Int 0); split; [reflexivity|]; split; [reflexivity|left; reflexivity]).
  1-2: intros st c t r v' [= <-] Ht Ht' Hr Hv; apply bind_Some in Ht as (s & Hs & Ht);
    apply bind_Some in Ht' as (s' & Hs' & Ht'); simpl in Hs, Hs';
    apply lookup_insert_Some in Hs as [[<- <-]|[Hc [<- <-]%lookup_singleton_Some]];
    [rewrite lookup_insert_eq in Hs'
    |rewrite lookup_insert_ne, lookup_singleton_eq in Hs' by done]; injection Hs' as <-;
    vm_compute in Ht, Ht'; simplify_eq; each_row Hr; vm_compute in Hv; injection Hv as <-;
    reflexivity.
Qed.
End RescanDemo.


(** ** Two ways a single cut-off's rescan starts too late *)

(** What [bounded_rescan_start_partitioned] guards against and [bounded_rescan_start] does not. *)
Module RescanGaps.
(** Text timestamps. *)

(** Text, as a column of it. *)
Lemma text_cmp_eq (a b : string) : String.compare a b = Eq ↔ a = b.
Proof. split; [apply String.compare_eq_iff|]. intros ->. apply text_compare_refl. Qed.
Lemma text_cmp_trans (a b c : string) :
  String.compare a b = Lt → String.compare b c = Lt → String.compare a c = Lt.
Proof.
  rewrite !text_compare_lt. intros [H1 H2] [H3 H4]. split; [by transitivity b|].
  intros ->. apply H2. by apply (anti_symm String.le).
Qed.

#[local] Instance arrow_text : Arrow string := {
  cmp := String.compare; cmp_eq := text_cmp_eq;
  cmp_antisym := λ a b, String.compare_antisym b a;
  cmp_trans := text_cmp_trans;
  text := λ s, s; text_inj := λ a b H, H;
  bound_of v := Some (B_Text v);
  scalar_of_bound b := match b with B_Text v => Some v | _ => None end;
}.

Section OneLog.
Context {V : Type}.
Definition store (commits : list (list Action)) : LogStore (list Action) unit := {|
  get_latest_version := λ _, Ok (Z.of_nat (length commits) - 1);
  read_commit_entry := λ v, Ok (if 0 <=? v then commits !! Z.to_nat v else None);
  get_actions := λ _ raw, Ok raw;
  log_state := λ _, Err D_NotFound;
  last_modified := λ _, None;
|}.
Definition add (name : string) : Add :=
  {| path := name; size := 1; add_data_change := true; deletion_vector := false;
     add_stats := Some name; partition_values := ∅ |}.
Definition stats (lo hi : Stat) : FileStats :=
  {| fs_num_records := Some 1; fs_min := {[ "at" := lo ]}; fs_max := {[ "at" := hi ]};
     fs_null_count := {[ "at" := 0 ]} |}.
End OneLog.

(** A file whose one row is newer than the target's newest, its maximum truncated by the
    writer to a prefix that is not. *)
Definition truncated (_ : string) : option FileStats :=
  Some (stats (St_Text "2026-08-10T12") (St_Text "2026-08-10T12")).

Lemma a_truncated_text_skips_a_newer_row :
  let mark := "2026-08-10T12:00"%string in let newer := "2026-08-10T12:30"%string in
  covers (B_Text "2026-08-10T12") (B_Text "2026-08-10T12") (B_Text newer) ∧
  cmp newer mark = Gt ∧
  bounded_rescan_start (V := string) (store [[A_Add (add "late")]]) (λ _, None) truncated None
    (Some 0) "at" mark 0 100 = Ok 1.
Proof.
  split; [|split; vm_compute; reflexivity]. split; [vm_compute; reflexivity|right].
  do 2 eexists. split; [reflexivity|]. split; vm_compute; reflexivity.
Qed.

(** An append the target lacks, then a DELETE that rewrites a file of old rows. *)
Definition rewritten (s : string) : option FileStats :=
  if decide (s = "new") then Some (stats (St_Int 30) (St_Int 30))
  else Some (stats (St_Int 10) (St_Int 10)).

Lemma a_rewrite_skips_a_newer_row :
  let commits := [[A_Add (add "old")]; [A_Add (add "new")];
                  [A_Remove true; A_Add (add "old, rewritten")]] in
  bounded_rescan_start (V := Z) (store commits) (λ _, None) rewritten None (Some 2) "at" 20 0 100
    = Ok 3 ∧
  may_prove_coverage (default [] (commits !! 2%nat)) = false.
Proof. split; vm_compute; reflexivity. Qed.
End RescanGaps.
