(* ===== verification/Watermark.v ===== *)
(** * Watermark: what the target's log says of who wrote it last (src/dbt/watermark.rs)

    A pipeline's offset outlives the rows it describes when another writer rebuilds the
    target.  [target_state] walks the target's log back from its head, at most [max_scan]
    commits, to tell a rebuild from an ordinary restart; [our_last_commit] reads what the
    newest commit of ours recorded about itself; [last] is the source version dbt recorded. *)

From Stdlib Require Import ZArith Lia.
From stdpp Require Import base list strings gmap.
From S2P Require Import Prelude Json Error F64 Cursor Budget LogStream.
From S2P Require Import Stats Arrow Dedup.

Open Scope Z_scope.
Open Scope ddi_scope.

Definition DEFAULT_MAX_SCAN : nat := 10000.
Definition SOURCE_TABLE_ID_VERSION_KEY : string := "ddi.sourceTableIdVersion".

(** ** The watermark table *)

(** A row of the watermark table, a null cell being none. *)
Record WatermarkRow := { w_app_id : option string; w_source_version : option Z }.

(** [WatermarkStore::last], of the rows its scan yields. *)
Fixpoint last_from (app_id : string) (rows : list WatermarkRow) (best : option Version)
    : result Error (option Version) :=
  match rows with
  | [] => Ok best
  | r :: rows =>
      match w_app_id r, w_source_version r with
      | Some id, Some v =>
          if negb (bool_decide (id = app_id)) then last_from app_id rows best
          else if v <? 0 then Err (Other "watermark table holds a negative source_version")
          else last_from app_id rows (Some match best with Some b => Z.max b v | None => v end)
      | _, _ => last_from app_id rows best
      end
  end.
Definition last (app_id : string) (rows : list WatermarkRow) : result Error (option Version) :=
  last_from app_id rows None.

(** ** Walking the target's log *)

Definition carries_txn (app_id : string) (actions : list Action) : bool :=
  existsb (λ a, match a with A_Txn id _ => bool_decide (id = app_id) | _ => false end) actions.

(** A [Remove] that deleted data. *)
Definition rewrites (actions : list Action) : bool :=
  existsb (λ a, match a with A_Remove dc => dc | _ => false end) actions.

Inductive TargetState := OursOrUntouched | OverwrittenAt (v : Version).

Record OurLastCommit := {
  commit_version : option Version;
  source_table_id : option string;
  source_table_id_version : option Version;
  lookup_table_ids : gmap string string;
  ours_cutoff : option RecordedCutoff;
}.

Definition no_commit_of_ours : OurLastCommit :=
  {| commit_version := None; source_table_id := None; source_table_id_version := None;
     lookup_table_ids := ∅; ours_cutoff := None |}.

(** The metadata of a commit's [commitInfo] actions, in order. *)
Definition infos (actions : list Action) : list (gmap string Value) :=
  omap (λ a, match a with A_CommitInfo _ info => Some info | _ => None end) actions.

(** [find_map]: the first that has one. *)
Fixpoint find_map {A B} (f : A → option B) (l : list A) : option B :=
  match l with
  | [] => None
  | a :: l => match f a with Some b => Some b | None => find_map f l end
  end.

(** [ddi.lookup.<name>.tableId] *)
Definition lookup_name (key : string) : option string :=
  rest ← str_strip_prefix "ddi.lookup." key; strip_suffix ".tableId" rest.

(** What the commit at [v] says of itself. *)
Definition said_by (v : Version) (actions : list Action) : OurLastCommit :=
  let info key := find_map (λ i : gmap string Value, i !! key) (infos actions) in
  {| commit_version := Some v;
     source_table_id := info "ddi.sourceTableId" ≫= as_str;
     source_table_id_version := info SOURCE_TABLE_ID_VERSION_KEY ≫= as_u64;
     lookup_table_ids := fold_left
       (λ m '(key, value), match lookup_name key, as_str value with
                           | Some name, Some id => <[name := id]> m
                           | _, _ => m
                           end)
       (mjoin (map_to_list <$> infos actions)) ∅;
     ours_cutoff := find_map from_commit_info (infos actions) |}.

Section Walk.
Context {Bytes Schema : Type} (S : LogStore Bytes Schema) (app_id : string).

(** The loop of [target_state]: [scans] commits may still be read. *)
Fixpoint state_walk (scans : nat) (v : Version) : result Error TargetState :=
  match scans with
  | O => Ok (OverwrittenAt v)
  | Datatypes.S scans =>
      match read_commit_entry S v with
      | Err e => Err (Delta e)
      | Ok None => Ok OursOrUntouched
      | Ok (Some raw) =>
          match get_actions S v raw with
          | Err e => Err (Delta e)
          | Ok actions =>
              if carries_txn app_id actions then Ok OursOrUntouched
              else if rewrites actions then Ok (OverwrittenAt v)
              else if v =? 0 then Ok OursOrUntouched
              else state_walk scans (v - 1)
          end
      end
  end.

Definition target_state (head : option Version) (max_scan : nat) : result Error TargetState :=
  match head with
  | None => Ok OursOrUntouched
  | Some head => state_walk max_scan head
  end.

(** The loop of [our_last_commit]. *)
Fixpoint last_walk (scans : nat) (v : Version) : result Error OurLastCommit :=
  match scans with
  | O => Ok no_commit_of_ours
  | Datatypes.S scans =>
      match read_commit_entry S v with
      | Err e => Err (Delta e)
      | Ok None => Ok no_commit_of_ours
      | Ok (Some raw) =>
          match get_actions S v raw with
          | Err e => Err (Delta e)
          | Ok actions =>
              if carries_txn app_id actions then Ok (said_by v actions)
              else if v =? 0 then Ok no_commit_of_ours
              else last_walk scans (v - 1)
          end
      end
  end.

Definition our_last_commit (head : option Version) (max_scan : nat) : result Error OurLastCommit :=
  match head with
  | None => Ok no_commit_of_ours
  | Some head => last_walk max_scan head
  end.

(** ** What the walks find *)

Context (L : Log) (Hs : serves S L).

(** While the log can be read, a rewrite after the newest commit of ours is not missed. *)
Lemma state_walk_complete scans v u :
  (∀ w, 0 ≤ w ≤ v → ∃ raw, read_commit_entry S w = Ok (Some raw)) →
  state_walk scans v = Ok OursOrUntouched → 0 ≤ u ≤ v → rewrites (L u) = true →
  ∃ w, u ≤ w ≤ v ∧ carries_txn app_id (L w) = true.
Proof.
  revert v. induction scans as [|scans IH]; intros v Hread; [done|]. simpl. intros H Hu Hr.
  destruct (Hread v ltac:(lia)) as [raw Er]. rewrite Er in H.
  destruct (get_actions S v raw) as [actions|] eqn:Ea; [|done].
  assert (actions = L v) as -> by (by eapply serves_actions).
  destruct (carries_txn app_id (L v)) eqn:Ec; [exists v; split; [lia|done]|].
  destruct (rewrites (L v)) eqn:Ew; [done|].
  assert (u ≠ v) by (intros ->; congruence).
  destruct (Z.eqb_spec v 0) as [->|Hne]; [lia|].
  destruct (IH (v - 1)) as (w & Hw & H'); [intros; apply Hread; lia|done|lia|done|].
  exists w. split; [lia|done].
Qed.

(** However the log answers: an overwrite is one, or what was not read. *)
Lemma state_walk_sound scans v t :
  state_walk scans v = Ok t →
  match t with
  | OverwrittenAt u => v - Z.of_nat scans ≤ u ≤ v ∧
      (∀ w, u < w ≤ v → carries_txn app_id (L w) = false) ∧
      (u = v - Z.of_nat scans ∨ (carries_txn app_id (L u) = false ∧ rewrites (L u) = true))
  | OursOrUntouched => True
  end.
Proof.
  revert v. induction scans as [|scans IH]; intros v; simpl.
  { intros [= <-]. split; [lia|]. split; [intros; lia|left; lia]. }
  destruct (read_commit_entry S v) as [[raw|]|] eqn:Hr; [|by intros [= <-]|done].
  destruct (get_actions S v raw) as [actions|] eqn:Ea; [|done].
  assert (actions = L v) as -> by (by eapply serves_actions).
  destruct (carries_txn app_id (L v)) eqn:Ec; [by intros [= <-]|].
  destruct (rewrites (L v)) eqn:Ew.
  { intros [= <-]. split; [lia|]. split; [intros; lia|by right]. }
  destruct (v =? 0); [by intros [= <-]|]. intros H. specialize (IH (v - 1) H).
  destruct t as [|u]; [done|]. destruct IH as (H1 & H2 & H3). split; [lia|]. split.
  - intros w Hw. destruct (decide (w = v)) as [->|]; [done|]. apply H2. lia.
  - destruct H3 as [H3|H3]; [left; lia|by right].
Qed.

(** What [last_walk] finds: the newest commit of ours among those it reads. *)
Lemma last_walk_sound scans v o u :
  last_walk scans v = Ok o → commit_version o = Some u →
  u ≤ v ∧ carries_txn app_id (L u) = true ∧ (∀ w, u < w ≤ v → carries_txn app_id (L w) = false) ∧
  o = said_by u (L u).
Proof.
  revert v. induction scans as [|scans IH]; intros v; simpl; [by intros [= <-]|].
  destruct (read_commit_entry S v) as [[raw|]|] eqn:Hr; [|by intros [= <-]|done].
  destruct (get_actions S v raw) as [actions|] eqn:Ea; [|done].
  assert (actions = L v) as -> by (by eapply serves_actions).
  destruct (carries_txn app_id (L v)) eqn:Ec.
  { intros [= <-]. simpl. intros [= <-]. split; [lia|]. split; [done|]. split; [lia|done]. }
  destruct (v =? 0); [by intros [= <-]|]. intros H Hu.
  destruct (IH (v - 1) H Hu) as (H1 & H2 & H3 & H4). split; [lia|]. split; [done|].
  split; [|done]. intros w Hw. destruct (decide (w = v)) as [->|]; [done|apply H3; lia].
Qed.

Lemma last_walk_finds scans v u :
  (∀ w, u ≤ w ≤ v → ∃ raw, read_commit_entry S w = Ok (Some raw) ∧ get_actions S w raw = Ok (L w)) →
  carries_txn app_id (L u) = true → (∀ w, u < w ≤ v → carries_txn app_id (L w) = false) →
  0 ≤ u ≤ v → v - u < Z.of_nat scans → last_walk scans v = Ok (said_by u (L u)).
Proof.
  revert v. induction scans as [|scans IH]; intros v Hread Hc Hn Hu Hs'; [lia|]. simpl.
  destruct (Hread v ltac:(lia)) as (raw & -> & ->).
  destruct (decide (u = v)) as [->|Hne]; [by rewrite Hc|].
  rewrite Hn by lia. destruct (Z.eqb_spec v 0); [lia|].
  apply IH; [intros; apply Hread; lia|done|intros; apply Hn; lia|lia|lia].
Qed.
End Walk.

(** ** Properties *)

(** C8: a rebuild is told from a restart: while the target's log can be read, a commit that
    removed data after the newest commit of ours is never taken for an ordinary restart; and
    an overwrite is reported only where a commit that is not ours removed data with none of
    ours after it, or where the walk ran out of its budget first. *)
Theorem a_rebuild_is_never_missed {Bytes Schema} (S : LogStore Bytes Schema) app_id L head
    max_scan t :
  serves S L → 0 ≤ head →
  (∀ v, 0 ≤ v ≤ head → ∃ raw, read_commit_entry S v = Ok (Some raw)) →
  target_state S app_id (Some head) max_scan = Ok t →
  (t = OursOrUntouched → ∀ u, 0 ≤ u ≤ head → rewrites (L u) = true →
     ∃ v, u ≤ v ≤ head ∧ carries_txn app_id (L v) = true) ∧
  (∀ u, t = OverwrittenAt u →
     (∀ v, u < v ≤ head → carries_txn app_id (L v) = false) ∧
     (u = head - Z.of_nat max_scan ∨ carries_txn app_id (L u) = false ∧ rewrites (L u) = true)).
Proof.
  intros Hs H0 Hread H. split.
  - intros -> u Hu Hr. by apply (state_walk_complete S app_id L Hs max_scan head).
  - intros u ->. by apply (state_walk_sound S app_id L Hs) in H as (_ & H1 & H2).
Qed.

Module WatermarkDemo.
(** Ours, a rebuild, a compaction; then the same with ours after it. *)
Definition commits : list (list Action) :=
  [ [A_Txn "orders" 7]; [A_Remove true; A_Other]; [A_Remove false] ].
Definition log : Log := λ v, default [] (commits !! Z.to_nat v).
(** The log from version [oldest] on: earlier commits were cleaned up. *)
Definition store (oldest : Version) : LogStore (list Action) unit := {|
  get_latest_version := λ _, Ok 2;
  read_commit_entry := λ v, Ok (if (oldest <=? v) && (v <=? 2) then Some (log v) else None);
  get_actions := λ _ raw, Ok raw;
  log_state := λ _, Err D_NotFound;
  last_modified := λ _, None;
|}.
Lemma commits_served oldest : serves (store oldest) log.
Proof.
  split.
  - intros v raw actions. simpl. destruct (_ && _); congruence.
  - intros fl v. simpl. intros [= <-]. split; done.
  - intros v. unfold log. destruct (commits !! Z.to_nat v) as [l|] eqn:E; [|vm_compute; discriminate].
    apply list_elem_of_lookup_2 in E. unfold commits in E.
    repeat (apply elem_of_cons in E as [->|E]; [vm_compute; discriminate|]). by apply elem_of_nil in E.
Qed.
End WatermarkDemo.

Lemma a_rebuild_is_never_missed_witness :
  target_state (WatermarkDemo.store 0) "orders" (Some 2) DEFAULT_MAX_SCAN = Ok (OverwrittenAt 1) ∧
  ∀ v, 1 < v ≤ 2 → carries_txn "orders" (WatermarkDemo.log v) = false.
Proof.
  assert (H : target_state (WatermarkDemo.store 0) "orders" (Some 2) DEFAULT_MAX_SCAN =
    Ok (OverwrittenAt 1)) by reflexivity.
  split; [exact H|].
  apply (a_rebuild_is_never_missed (WatermarkDemo.store 0) "orders" WatermarkDemo.log 2
    DEFAULT_MAX_SCAN (OverwrittenAt 1)) with (u := 1).
  - apply WatermarkDemo.commits_served.
  - lia.
  - intros v Hv. exists (WatermarkDemo.log v). simpl.
    rewrite (proj2 (Z.leb_le 0 v)), (proj2 (Z.leb_le v 2)) by lia. reflexivity.
  - exact H.
  - reflexivity.
Defined.

(** Once the rebuild's commit is cleaned up, the same target reads as untouched. *)
Lemma a_cleaned_up_log_hides_a_rebuild :
  target_state (WatermarkDemo.store 2) "orders" (Some 2) DEFAULT_MAX_SCAN = Ok OursOrUntouched ∧
  rewrites (WatermarkDemo.log 1) = true ∧
  ∀ v, 1 ≤ v ≤ 2 → carries_txn "orders" (WatermarkDemo.log v) = false.
Proof.
  split; [reflexivity|]. split; [reflexivity|]. intros v Hv.
  by assert (v = 1 ∨ v = 2) as [->| ->] by lia.
Qed.
