(* ===== verification/Lookup.v ===== *)
(** * Lookup: which version of a lookup table enriches a batch (src/lookup.rs, src/pipeline.rs)

    A batch is enriched from the newest version of each lookup that was committed before the
    source commit it ends at, so that a retry is enriched from the same version however far
    the lookup has moved on.  [snapshots] selects that version, and the lookup's head;
    [lookup_snapshots] decides, by the ids of the two, which of them the batch gets; and
    [validate_lookup_tables] compares the lookups with what the newest commit of ours recorded.

    What one attempt reads of a lookup - opening it now, as of a time and at a version, and
    the times of its log's objects - is the record [LookupAnswers].  Times are milliseconds. *)

From Stdlib Require Import ZArith Lia.
From stdpp Require Import base list strings gmap.
From S2P Require Import Prelude Json Error Cursor F64 Budget LogStream.
From S2P Require Import Stats Arrow Dedup Watermark.

Open Scope Z_scope.
Open Scope ddi_scope.

Inductive LookupTableIdChangePolicy := Strict | UseCurrent.

Record ResolvedLookup := {
  lk_name : string;
  lk_uri : string;
  pre_history_version : option Version;
  table_id_change_policy : LookupTableIdChangePolicy;
}.

Record LookupSnapshot := {
  ls_name : string;
  ls_version : Version;
  ls_table_id : option string;
  ls_used_pre_history : bool;
  ls_used_current : bool;
}.

Record LookupSnapshots := { selected : LookupSnapshot; ls_head : LookupSnapshot }.

(** object_store's errors, as far as they are told apart. *)
Inductive ObjectStoreError := O_NotFound | O_Other.

(** A table that was opened: the version and the id its snapshot has. *)
Definition Opened : Type := option Version * option string.

Record LookupAnswers := {
  open_head : result Error Opened;
  open_at_datetime : Z → result Error Opened;
  open_at_version : Version → result Error Opened;
  log_timestamp : Version → result ObjectStoreError Z;
  open_verified : result Error Opened;  (** the head again, once the snapshot is selected *)
  open_current : result Error Opened;  (** the head again, for [current_snapshots] *)
}.

Inductive SnapshotSelectionError :=
  | Other_ (e : Error)
  | HistoryUnavailable (reason : string).

(** ** Selecting a version *)

(** [str::contains] *)
Fixpoint contains (needle s : string) : bool :=
  String.prefix needle s ||
  match s with
  | EmptyString => false
  | String _ s => contains needle s
  end.

Definition missing_historical_snapshot (e : Error) : bool :=
  match e with
  | Delta D_InvalidVersion | Delta D_NotATable | Delta D_NotFound => true
  | Config message =>
      contains "cannot load lookup" message &&
      contains "the log no longer reaches back to version 0" message
  | _ => false
  end.

Definition historical_snapshot_load_error (e : Error) : SnapshotSelectionError :=
  if missing_historical_snapshot e then HistoryUnavailable "could not load lookup"
  else Other_ (Config "lookup").

Definition historical_log_timestamp_error (e : ObjectStoreError) : SnapshotSelectionError :=
  match e with
  | O_NotFound => HistoryUnavailable "the Delta log entry is no longer retained"
  | O_Other => Other_ (Other "cannot read Delta-log timestamp")
  end.

(** [result::map_err] *)
Definition map_err {E F A} (f : E → F) (r : result E A) : result F A :=
  match r with Ok a => Ok a | Err e => Err (f e) end.

Section Snapshots.
Context (lookup : ResolvedLookup).
(** [DateTime::from_timestamp_millis] has a value. *)
Context (representable : Z → bool).

(** The walk over versions of one time: [scans] more are before the head. *)
Fixpoint advance (timestamp : Version → result ObjectStoreError Z) (source_millis : Z)
    (scans : nat) (version : Version) : result SnapshotSelectionError Version :=
  match scans with
  | O => Ok version
  | S scans =>
      let? at_ := map_err historical_log_timestamp_error (timestamp (version + 1)) in
      if source_millis <=? at_ then Ok version
      else advance timestamp source_millis scans (version + 1)
  end.

Definition snapshot_at (version : Version) (id : option string) (pre current : bool)
    : LookupSnapshot :=
  {| ls_name := lk_name lookup; ls_version := version; ls_table_id := id;
     ls_used_pre_history := pre; ls_used_current := current |}.

Definition no_version : Error := Config "lookup has no Delta version".

(** [snapshots_once] *)
Definition snapshots_once (a : LookupAnswers) (source_millis : Z)
    : result SnapshotSelectionError LookupSnapshots :=
  let? head_table := map_err Other_ (open_head a) in
  let? head := ok_or head_table.1 (Other_ no_version) in
  let cutoff := Z.max i64_min (source_millis - 1) in
  let? _ := if representable cutoff then Ok tt
            else Err (Other_ (Config "source timestamp cannot be represented")) in
  let? selected := map_err historical_snapshot_load_error (open_at_datetime a cutoff) in
  let? version := ok_or selected.1 (Other_ no_version) in
  let? selected_millis := map_err historical_log_timestamp_error (log_timestamp a version) in
  let? chosen :=
    if source_millis <=? selected_millis then
      match pre_history_version lookup with
      | None =>
          Err (if 0 <? version then HistoryUnavailable "the oldest commit still retained"
               else Other_ (Config "lookup has no retained snapshot before source commit time"))
      | Some baseline =>
          if head <? baseline
          then Err (Other_ (Config "pre_history_version is past the lookup's head"))
          else Ok (baseline, true)
      end
    else
      let? v := advance (log_timestamp a) source_millis (Z.to_nat (head - version)) version in
      Ok (v, false) in
  let '(version, used_pre_history) := chosen in
  let? table := map_err historical_snapshot_load_error (open_at_version a version) in
  Ok {| selected := snapshot_at version table.2 used_pre_history false;
        ls_head := snapshot_at head head_table.2 false false |}.

(** [current_snapshots] *)
Definition current_snapshots (a : LookupAnswers) : result Error LookupSnapshots :=
  let? table := open_current a in
  let? version := ok_or table.1 no_version in
  Ok {| selected := snapshot_at version table.2 false true;
        ls_head := snapshot_at version table.2 false false |}.

Definition LOOKUP_SNAPSHOT_STABILITY_ATTEMPTS : nat := 3.

(** The attempts of [snapshots], each with its own answers. *)
Fixpoint attempts (answers : list LookupAnswers) (source_millis : Z)
    : result Error LookupSnapshots :=
  match answers with
  | [] => Err (Config "lookup changed while resolving the snapshot")
  | a :: answers =>
      match snapshots_once a source_millis with
      | Err (HistoryUnavailable _) =>
          match table_id_change_policy lookup with
          | UseCurrent => current_snapshots a
          | Strict => Err (Config "lookup cannot load a retained timestamp-pinned snapshot")
          end
      | Err (Other_ e) => Err e
      | Ok s =>
          let? verified := open_verified a in
          let? version := ok_or verified.1 no_version in
          if decide (ls_table_id (ls_head s) = verified.2)
          then Ok {| selected := selected s;
                     ls_head := snapshot_at version verified.2 false false |}
          else attempts answers source_millis
      end
  end.

(** [snapshots]; [a] answers the attempts. *)
Definition snapshots (a : nat → LookupAnswers) (source_millis : Z) : result Error LookupSnapshots :=
  attempts (a <$> seq 0 LOOKUP_SNAPSHOT_STABILITY_ATTEMPTS) source_millis.
End Snapshots.

(** ** Names *)

Definition is_lower_or_underscore (c : Ascii.ascii) : bool :=
  let n := Ascii.N_of_ascii c in (97 <=? n)%N && (n <=? 122)%N || (n =? 95)%N.
Definition is_decimal_digit (c : Ascii.ascii) : bool :=
  let n := Ascii.N_of_ascii c in (48 <=? n)%N && (n <=? 57)%N.

(** [valid_name]: lower case already, so of the letters only the lower ones pass. *)
Definition valid_name (name : string) : bool :=
  negb (bool_decide (name = "source"%string)) &&
  match String.list_ascii_of_string name with
  | [] => false
  | c :: rest => is_lower_or_underscore c &&
                 forallb (λ c, is_lower_or_underscore c || is_decimal_digit c) rest
  end.

(** The UTF-8 text of each character [char::is_whitespace] is true of. *)
Definition whitespace : list (list Z) :=
  ((λ c, [c]) <$> [9; 10; 11; 12; 13; 32]) ++
  [[194; 133]; [194; 160]; [225; 154; 128]] ++
  ((λ c, [226; 128; c]) <$> [128; 129; 130; 131; 132; 133; 134; 135; 136; 137; 138; 168; 169; 175]) ++
  [[226; 129; 159]; [227; 128; 128]].

Definition utf8 (s : string) : list Z :=
  (λ c, Z.of_N (Ascii.N_of_ascii c)) <$> String.list_ascii_of_string s.
Definition text (l : list Z) : string :=
  String.string_of_list_ascii ((λ z, Ascii.ascii_of_N (Z.to_N z)) <$> l).

(** [l] without the characters of [set] it starts with; [fuel] is its length. *)
Fixpoint trim_from (set : list (list Z)) (fuel : nat) (l : list Z) : list Z :=
  match fuel with
  | O => l
  | S fuel =>
      match List.find (λ c, bool_decide (take (length c) l = c)) set with
      | Some c => trim_from set fuel (drop (length c) l)
      | None => l
      end
  end.

(** [str::trim] *)
Definition trim (s : string) : string :=
  let l := trim_from whitespace (String.length s) (utf8 s) in
  text (rev (trim_from ((λ c, rev c) <$> whitespace) (length l) (rev l))).

Record LookupConfig := {
  lc_config_name : string;
  lc_config_uri : string;
  lc_pre_history_version : option Version;
  lc_table_id_change_policy : LookupTableIdChangePolicy;
}.

Definition resolve (config : LookupConfig) : result Error ResolvedLookup :=
  let name := trim (lc_config_name config) in
  if negb (valid_name name) then Err (Config "lookup name must be a lowercase SQL identifier")
  else if bool_decide (trim (lc_config_uri config) = ""%string)
  then Err (Config "lookup has an empty uri")
  else Ok {| lk_name := name; lk_uri := lc_config_uri config;
             pre_history_version := lc_pre_history_version config;
             table_id_change_policy := lc_table_id_change_policy config |}.

(** A pipeline's lookups, as the configuration's reading resolves them; [names] are those before. *)
Fixpoint resolve_lookups (source_uri target_uri : string) (names : gset string)
    (lookups : list LookupConfig) : result Error (list ResolvedLookup) :=
  match lookups with
  | [] => Ok []
  | l :: lookups =>
      let? lookup := resolve l in
      if bool_decide (lk_name lookup ∈ names) then Err (Config "lookup is declared more than once")
      else if bool_decide (lk_uri lookup = source_uri) || bool_decide (lk_uri lookup = target_uri)
      then Err (Config "lookup points at a streaming source or target")
      else
        let? rest := resolve_lookups source_uri target_uri ({[ lk_name lookup ]} ∪ names) lookups in
        Ok (lookup :: rest)
  end.

Lemma resolve_lookups_distinct source_uri target_uri seen lookups l :
  resolve_lookups source_uri target_uri seen lookups = Ok l →
  NoDup (lk_name <$> l) ∧ ∀ n, n ∈ lk_name <$> l → n ∉ seen.
Proof.
  revert seen l. induction lookups as [|c lookups IH]; intros seen l; simpl.
  { intros [= <-]. split; [constructor|]. intros n H. by apply elem_of_nil in H. }
  destruct (resolve c) as [x|]; [|done]. case_bool_decide as Hx; [done|].
  destruct (_ || _); [done|].
  destruct (resolve_lookups _ _ _ lookups) as [rest|] eqn:E; [|done]. intros [= <-].
  apply IH in E as [H1 H2]. cbn [fmap list_fmap]. split.
  - constructor; [|done]. intros H. apply H2 in H. set_solver.
  - intros n [->|H]%elem_of_cons; [done|]. apply H2 in H. set_solver.
Qed.

Example trims : trim "  fx	rates
 " = "fx	rates"%string ∧ valid_name "fx_rates2" = true ∧ valid_name "2fx" = false ∧
  valid_name "source" = false ∧ valid_name "FX" = false.
Proof. vm_compute. done. Qed.

(** ** What a batch is enriched from *)

Record LookupTableIdTransition := { tr_name : string; tr_table_id : string }.

(** What a pipeline keeps of its lookups: the table ids it accepted, and the names whose id
    had changed when it opened. *)
Record LookupState := {
  lookup_table_ids : gmap string string;
  lookup_current_on_open : gset string;
}.

Definition lookup_table_id_changed (expected selected head : string) (history_unavailable : bool)
    : bool :=
  history_unavailable || negb (bool_decide (selected = expected)) ||
  negb (bool_decide (head = expected)).

(** [apply_lookup_table_id_transitions] *)
Definition apply_transitions (l : list LookupTableIdTransition) (st : LookupState) : LookupState :=
  fold_left (λ st t, {|
    lookup_table_ids := <[tr_name t := tr_table_id t]> (lookup_table_ids st);
    lookup_current_on_open := lookup_current_on_open st ∖ {[ tr_name t ]} |}) l st.

Section Select.
Context (st : LookupState).
Context (available : ResolvedLookup → Z → result Error LookupSnapshots).

Definition use_current (s : LookupSnapshot) : LookupSnapshot :=
  {| ls_name := ls_name s; ls_version := ls_version s; ls_table_id := ls_table_id s;
     ls_used_pre_history := ls_used_pre_history s; ls_used_current := true |}.

(** One lookup of [lookup_snapshots]. *)
Definition select_lookup (lookup : ResolvedLookup) (timestamp : Z)
    : result Error (LookupSnapshot * list LookupTableIdTransition) :=
  let? a := available lookup timestamp in
  let name := ls_name (selected a) in
  let unavailable := ls_used_current (selected a) in
  let? expected := ok_or (lookup_table_ids st !! name)
    (Config "lookup was not present when the pipeline opened") in
  let? selected_id := ok_or (ls_table_id (selected a)) (Config "lookup has no Delta table id") in
  let? head_id := ok_or (ls_table_id (ls_head a))
    (Config "lookup current head has no Delta table id") in
  let changed_on_open := bool_decide (name ∈ lookup_current_on_open st) in
  let ambiguous := lookup_table_id_changed expected selected_id head_id unavailable in
  let transitions := if ambiguous || changed_on_open
                     then [{| tr_name := name; tr_table_id := head_id |}] else [] in
  if ambiguous then
    match table_id_change_policy lookup with
    | Strict => Err (Config "lookup changed Delta table id")
    | UseCurrent => Ok (use_current (ls_head a), transitions)
    end
  else Ok (selected a, transitions).

Fixpoint select_all (lookups : list ResolvedLookup) (timestamp : Z)
    : result Error (list LookupSnapshot * list LookupTableIdTransition) :=
  match lookups with
  | [] => Ok ([], [])
  | l :: lookups =>
      let? one := select_lookup l timestamp in
      let? rest := select_all lookups timestamp in
      Ok (one.1 :: rest.1, one.2 ++ rest.2)
  end.

(** [lookup_snapshots], for a batch whose last commit's log object has [timestamp]. *)
Definition lookup_snapshots (lookups : list ResolvedLookup) (timestamp : option Z)
    : result Error (list LookupSnapshot * list LookupTableIdTransition) :=
  match lookups with
  | [] => Ok ([], [])
  | _ =>
      let? timestamp := ok_or timestamp (Config "source commit has no Delta-log timestamp") in
      select_all lookups timestamp
  end.
End Select.

(** ** When a pipeline opens *)

Section Validate.
Context (source_id target_id : option string).
(** Opening a lookup's table, and the id it has. *)
Context (lookup_id : ResolvedLookup → result Error (option string)).

Fixpoint current_ids (lookups : list ResolvedLookup) (source target : string)
    (current : gmap string string) : result Error (gmap string string) :=
  match lookups with
  | [] => Ok current
  | l :: lookups =>
      let? id := lookup_id l in
      let? id := ok_or id (Config "lookup has no Delta table id") in
      if bool_decide (id = source) || bool_decide (id = target)
      then Err (Config "lookup resolves to the source or the target")
      else if existsb (λ e, bool_decide (e.2 = id)) (map_to_list current)
      then Err (Config "two lookups resolve to the same Delta table id")
      else current_ids lookups source target (<[lk_name l := id]> current)
  end.

(** The recorded ids that changed; strict lookups refuse one. *)
Fixpoint changed_ids (lookups : list ResolvedLookup) (current : gmap string string)
    (recorded : list (string * string)) : result Error (gset string) :=
  match recorded with
  | [] => Ok ∅
  | (name, was) :: recorded =>
      match current !! name with
      | None => Err (Config "a lookup of the last commit is no longer configured")
      | Some id =>
          let? rest :=
            if bool_decide (id = was) then Ok false
            else match List.find (λ l, bool_decide (lk_name l = name)) lookups with
                 | Some l =>
                     match table_id_change_policy l with
                     | Strict => Err (Config "lookup changed Delta table id")
                     | UseCurrent => Ok true
                     end
                 | None => Err (Other "recorded lookup set was checked above")
                 end in
          let? more := changed_ids lookups current recorded in
          Ok (if rest : bool then {[ name ]} ∪ more else more)
      end
  end.

Definition validate_lookup_tables (lookups : list ResolvedLookup) (recorded : OurLastCommit)
    : result Error LookupState :=
  let? source := ok_or source_id (Config "source has no Delta table id") in
  let? target := ok_or target_id (Config "target has no Delta table id") in
  if bool_decide (source = target)
  then Err (Config "source and target resolve to the same Delta table id")
  else
    let? current := current_ids lookups source target ∅ in
    if bool_decide (is_Some (commit_version recorded)) &&
       negb (bool_decide (dom (Watermark.lookup_table_ids recorded) = dom current))
    then Err (Config "the configured lookup set changed")
    else
      let? changed := changed_ids lookups current (map_to_list (Watermark.lookup_table_ids recorded)) in
      Ok {| lookup_table_ids := current; lookup_current_on_open := changed |}.
End Validate.

(** ** Which version is selected *)

Section Pinned.
Context (lookup : ResolvedLookup) (representable : Z → bool).
(** The milliseconds of the lookup's log objects, and the source commit's. *)
Context (times : Version → Z) (source_millis : Z).

(** The newest version committed before the source commit. *)
Definition pinned (v : Version) : Prop :=
  times v < source_millis ∧ ∀ w, times w < source_millis → w ≤ v.

(** What an attempt reads when the log goes from [oldest] to [head]: delta-rs opens, as of a
    time, some version committed at or before it, or the oldest when there is none. *)
Record reads_log (oldest head : Version) (a : LookupAnswers) : Prop := {
  rd_head : ∃ id, open_head a = Ok (Some head, id);
  rd_times v : oldest ≤ v ≤ head → log_timestamp a v = Ok (times v);
  rd_true v t : log_timestamp a v = Ok t → t = times v;
  rd_travel c v id : open_at_datetime a c = Ok (Some v, id) →
    oldest ≤ v ∧ (times v ≤ c ∨ v = oldest ∧ c < times oldest);
}.

(** Every version committed before the source commit is one the attempt can see: the source
    commit was there before it. *)
Definition settled (head : Version) : Prop := ∀ v, times v < source_millis → v ≤ head.

(** What an attempt opens while the table is not replaced. *)
Record opens_all (oldest head : Version) (a : LookupAnswers) : Prop := {
  op_travel c : ∃ v id, open_at_datetime a c = Ok (Some v, id);
  op_version v : oldest ≤ v ≤ head → ∃ o, open_at_version a v = Ok o;
  op_verified id : open_head a = Ok (Some head, id) → ∃ v, open_verified a = Ok (Some v, id);
}.

Definition unflagged (s : LookupSnapshot) : Prop :=
  ls_used_pre_history s = false ∧ ls_used_current s = false.

Context (Hmono : ∀ v w, v ≤ w → times v ≤ times w).

Lemma pinned_unique v w : pinned v → pinned w → v = w.
Proof. intros [H1 H2] [H3 H4]. apply H4 in H1. apply H2 in H3. lia. Qed.

Lemma advance_pins timestamp head scans v :
  settled head → (∀ w, v ≤ w ≤ head → timestamp w = Ok (times w)) →
  times v < source_millis → v + Z.of_nat scans = head →
  ∃ w, advance timestamp source_millis scans v = Ok w ∧ v ≤ w ≤ head ∧ pinned w.
Proof.
  intros Hset. revert v. induction scans as [|scans IH]; intros v Ht Hv Hh; simpl.
  - exists v. split; [done|]. split; [lia|]. split; [done|]. intros w Hw. apply Hset in Hw. lia.
  - rewrite Ht by lia. simpl. destruct (Z.leb_spec source_millis (times (v + 1))) as [Hle|Hlt].
    + exists v. split; [done|]. split; [lia|]. split; [done|]. intros w Hw.
      destruct (Z.le_gt_cases w v); [done|]. pose proof (Hmono (v + 1) w ltac:(lia)). lia.
    + destruct (IH (v + 1)) as (w & E & Hr & Hp); [|done|lia|].
      * intros w Hw. apply Ht. lia.
      * exists w. split; [done|]. split; [lia|done].
Qed.

(** One attempt: what it selects is pinned or flagged. *)
Lemma once_pins oldest head a s :
  reads_log oldest head a → settled head →
  snapshots_once lookup representable a source_millis = Ok s →
  ls_used_current (selected s) = false ∧
  (ls_used_pre_history (selected s) = false → pinned (ls_version (selected s))).
Proof.
  intros [[id Hh] Ht Htrue Htr] Hset. unfold snapshots_once. rewrite Hh. simpl.
  destruct (representable _); [|done].
  destruct (open_at_datetime a _) as [[[v|] vid]|] eqn:Ev; simpl; [|done|done].
  apply Htr in Ev as [Hov _].
  destruct (log_timestamp a v) as [tv|] eqn:Etv; simpl; [|done]. apply Htrue in Etv as ->.
  destruct (Z.leb_spec source_millis (times v)) as [Hle|Hlt].
  - destruct (pre_history_version lookup) as [b|]; [|done]. destruct (head <? b); [done|].
    destruct (open_at_version a b); [|done]. by intros [= <-].
  - pose proof (Hset v Hlt). destruct (advance_pins (log_timestamp a) head (Z.to_nat (head - v)) v Hset)
      as (w & -> & _ & Hp); [intros; apply Ht; lia|done|lia|]. simpl.
    destruct (open_at_version a w); [|done]. by intros [= <-].
Qed.

(** One attempt finds the pinned version while it is retained. *)
Lemma once_finds oldest head a v :
  reads_log oldest head a → opens_all oldest head a → settled head →
  i64_min < source_millis → representable (source_millis - 1) = true → pinned v → oldest ≤ v →
  ∃ s id, snapshots_once lookup representable a source_millis = Ok s ∧
    open_head a = Ok (Some head, id) ∧ ls_table_id (ls_head s) = id ∧
    unflagged (selected s) ∧ ls_version (selected s) = v.
Proof.
  intros Hread [Hdt Hver _] Hset Hs Hrep Hpin Hov. pose proof Hread as [[id Hh] Ht Htrue Htr].
  destruct (Hdt (source_millis - 1)) as (u & uid & Eu). pose proof (Htr _ _ _ Eu) as [Hou Hu].
  assert (Hlt : times u < source_millis).
  { destruct Hu as [Hu|[-> Hu]]; [lia|]. pose proof (Hmono oldest v Hov).
    destruct Hpin. lia. }
  assert (Hback : ∃ s, snapshots_once lookup representable a source_millis = Ok s ∧
    ls_table_id (ls_head s) = id ∧ ls_used_pre_history (selected s) = false).
  { unfold snapshots_once. rewrite Hh. simpl. rewrite Z.max_r by lia. rewrite Hrep, Eu. simpl.
    pose proof (Hset u Hlt). rewrite Ht by lia. simpl.
    destruct (Z.leb_spec source_millis (times u)); [lia|].
    destruct (advance_pins (log_timestamp a) head (Z.to_nat (head - u)) u Hset)
      as (w & -> & Hw & _); [intros; apply Ht; lia|done|lia|]. simpl.
    destruct (Hver w ltac:(lia)) as [o ->]. simpl. by eexists. }
  destruct Hback as (s & Es & Hid & Hpre). exists s, id.
  destruct (once_pins _ _ _ _ Hread Hset Es) as [Hcur Hp].
  repeat (split; [done|]). apply pinned_unique; [by apply Hp|done].
Qed.

(** All attempts of a call. *)
Lemma attempts_pin l s :
  (∀ a, a ∈ l → ∃ oldest head, reads_log oldest head a ∧ settled head) →
  attempts lookup representable l source_millis = Ok s →
  unflagged (selected s) → pinned (ls_version (selected s)).
Proof.
  intros Hl. induction l as [|a l IH]; simpl; [done|]. intros H [Hpre Hcur].
  destruct (snapshots_once lookup representable a source_millis) as [s'|[e|r]] eqn:Es; [|done|].
  - destruct (open_verified a) as [[[v|] id]|]; simpl in H; [|done|done].
    destruct (decide _).
    + injection H as <-. destruct (Hl a) as (o & h & Hr & Hset); [by left|].
      by apply (once_pins _ _ _ _ Hr Hset Es).
    + apply IH; [|done|done]. intros b Hb. apply Hl. by right.
  - destruct (table_id_change_policy lookup); [done|]. unfold current_snapshots in H.
    destruct (open_current a) as [[[v|] id]|]; simpl in H; [|done|done]. by injection H as <-.
Qed.
End Pinned.

(** ** Properties *)

(** A retry is enriched from the same version: once a batch has been given a snapshot that
    no policy chose for it, that is the newest version of the lookup committed before the
    source commit; and every later call for the batch succeeds and is given that version
    again, however many versions the lookup has gained and lost since, as long as it retains
    this one and is not replaced during the call. *)
Theorem a_retry_selects_the_same_version lookup representable times source_millis a a' s :
  (∀ v w, v ≤ w → times v ≤ times w) →
  i64_min < source_millis → representable (source_millis - 1) = true →
  (∀ i, ∃ oldest head, reads_log times oldest head (a i) ∧ settled times source_millis head) →
  snapshots lookup representable a source_millis = Ok s → unflagged (selected s) →
  (∀ i, ∃ oldest head, reads_log times oldest head (a' i) ∧ settled times source_millis head ∧
     opens_all oldest head (a' i) ∧ oldest ≤ ls_version (selected s)) →
  pinned times source_millis (ls_version (selected s)) ∧
  ∃ s', snapshots lookup representable a' source_millis = Ok s' ∧ unflagged (selected s') ∧
    ls_version (selected s') = ls_version (selected s).
Proof.
  intros Hmono Hs Hrep Ha Hsel Hun Ha'.
  assert (Hp : pinned times source_millis (ls_version (selected s))).
  { eapply attempts_pin; [exact Hmono| |exact Hsel|exact Hun].
    intros b (i & -> & _)%list_elem_of_fmap. apply Ha. }
  split; [exact Hp|]. destruct (Ha' 0%nat) as (o & h & Hread & Hset & Hall & Ho).
  destruct (once_finds lookup representable times source_millis Hmono o h (a' 0%nat) _ Hread Hall
    Hset Hs Hrep Hp Ho) as (s' & id & Es & Eh & Hid & Hun' & Hv).
  unfold snapshots. simpl. rewrite Es. destruct (op_verified _ _ _ Hall id Eh) as (v & ->). simpl.
  rewrite decide_True by done. by eexists.
Qed.

Module LookupDemo.
(** Versions 0, 1 and 2 in the same millisecond, 3 later, 4 with the source commit at 200. *)
Definition times (v : Version) : Z :=
  if v <=? 2 then 100 else if v =? 3 then 150 else 200 + v.
Definition customers : ResolvedLookup :=
  {| lk_name := "customers"; lk_uri := "lake/customers"; pre_history_version := None;
     table_id_change_policy := Strict |}.
(** What is read of the log from [oldest] to [head]; delta-rs's search ends at [found]. *)
Definition answers (oldest head found : Version) : LookupAnswers :=
  {| open_head := Ok (Some head, Some "c"%string);
     open_at_datetime := λ c, Ok (Some (if times found <=? c then found else oldest), Some "c"%string);
     open_at_version := λ v, Ok (Some v, Some "c"%string);
     log_timestamp := λ v, if (oldest <=? v) && (v <=? head) then Ok (times v) else Err O_NotFound;
     open_verified := Ok (Some (head + 1), Some "c"%string);
     open_current := Err (Other "not read") |}.
Definition first : LookupSnapshots :=
  Eval vm_compute in
  match snapshots customers (λ _, true) (λ _, answers 0 4 1) 200 with
  | Ok s => s
  | Err _ => {| selected := snapshot_at customers 0 None false false;
                ls_head := snapshot_at customers 0 None false false |}
  end.

Lemma times_mono v w : v ≤ w → times v ≤ times w.
Proof.
  intros H. unfold times. destruct (Z.leb_spec v 2), (Z.leb_spec w 2), (Z.eqb_spec v 3),
    (Z.eqb_spec w 3); lia.
Qed.

Lemma answers_read oldest head found :
  oldest ≤ found ≤ head → reads_log times oldest head (answers oldest head found).
Proof.
  intros H. split.
  - by eexists.
  - intros v Hv. simpl. by rewrite (proj2 (Z.leb_le oldest v)), (proj2 (Z.leb_le v head)) by lia.
  - intros v t. simpl. destruct (_ && _); congruence.
  - intros c v id. simpl. destruct (Z.leb_spec (times found) c) as [Hle|Hlt]; intros [= <- _].
    + split; [lia|by left].
    + split; [lia|]. destruct (Z.le_gt_cases (times oldest) c); [by left|by right].
Qed.

Lemma head_settled head : 3 ≤ head → settled times 200 head.
Proof.
  intros H v. unfold times. destruct (Z.leb_spec v 2), (Z.eqb_spec v 3); lia.
Qed.
End LookupDemo.

(** The search ends at version 1, the selection at version 3; a retry on a log cleaned up to
    version 2, with versions 5 and 6 new, selects 3 again. *)
Lemma a_retry_selects_the_same_version_witness :
  pinned LookupDemo.times 200 3 ∧
  ∃ s, snapshots LookupDemo.customers (λ _, true) (λ _, LookupDemo.answers 2 6 2) 200 = Ok s ∧
    unflagged (selected s) ∧ ls_version (selected s) = 3.
Proof.
  apply (a_retry_selects_the_same_version LookupDemo.customers (λ _, true) LookupDemo.times 200
    (λ _, LookupDemo.answers 0 4 1) (λ _, LookupDemo.answers 2 6 2) LookupDemo.first).
  - exact LookupDemo.times_mono.
  - reflexivity.
  - reflexivity.
  - intros _. exists 0, 4. split; [apply LookupDemo.answers_read; lia|apply LookupDemo.head_settled; lia].
  - vm_compute. reflexivity.
  - split; reflexivity.
  - intros _. exists 2, 6. split; [apply LookupDemo.answers_read; lia|].
    split; [apply LookupDemo.head_settled; lia|]. split; [|simpl; lia]. split.
    + intros c. simpl. by do 2 eexists.
    + intros v _. by eexists.
    + intros id [= <-]. by eexists.
Defined.
