(* ===== verification/Dq.v ===== *)
(** * Dq: the data-quality table (src/dq.rs)

    Rows that do not fit the target are written to a second table, before the target and its
    offset are.  A Delta batch's rejects carry a [txn] with the batch's source version, by
    which a replay skips them ([write]); a Kafka batch's are a plain append that is written
    again by a replay, and tried again in place after a conflict unless its own commit is
    found in the log ([write_kafka]).

    What delta-rs answers - the [txn] version a snapshot has, a write, opening the table again,
    reading a commit - are arguments.  The clock and a call's write id are passed in. *)

From Stdlib Require Import ZArith Lia.
From stdpp Require Import base list strings gmap.
From S2P Require Import Prelude Json Error Cursor F64 Offset Budget LogStream.
From S2P Require Import Stats Arrow Dedup Watermark.

Open Scope Z_scope.
Open Scope ddi_scope.

Definition SUFFIX : string := "__ddi_dq".
Definition uri_for (target_uri : string) : string :=
  String.append (trim_end_slashes target_uri) SUFFIX.
Definition app_id_for (app_id : string) : string := String.append app_id ".dq".
Definition KAFKA_METADATA_PREFIX : string := "kafka_".
Definition KAFKA_CONFLICT_RETRIES : nat := 3.
Definition KAFKA_WRITE_ID : string := "ddi.kafka.dqWriteId".

(** [crate::schema::Rejected] *)
Record Rejected (V : Type) := {
  rj_rows : RecordBatch V;
  rj_reasons : list string;
  rj_columns : list (option string);
}.
Arguments rj_rows {V}. Arguments rj_reasons {V}. Arguments rj_columns {V}.
Arguments Build_Rejected {V}.

Definition len {V} (r : Rejected V) : Z := Z.of_nat (length (rows (rj_rows r))).
Definition total_len {V} (l : list (Rejected V)) : Z :=
  Z.of_nat (sum_list ((λ r, length (rows (rj_rows r))) <$> l)).

(** A row of the table ([columns]). *)
Record DqRow := {
  dq_app_id : string;
  dq_pipeline : string;
  dq_source_version : Z;
  dq_column_name : option string;
  dq_reason : string;
  dq_payload : option string;
  dq_timestamp : Z;
}.

(** A commit of the table: its actions and the rows it added. *)
Record DqCommit := { dc_actions : list Action; dc_rows : list DqRow }.

(** What a write tries to commit, and whether the commit is told to clean up the log. *)
Record DqWrite := { dw_commit : DqCommit; dw_cleanup : option bool }.

(** A handle is at a version, or is the in-memory stand-in. *)
Record DataQuality := {
  app_id : string;
  own_app_id : string;  (** [dq_app_id] *)
  pipeline : string;
  uri : string;
  table : option Version;
  kafka_prefix : string;
  conflict_retries : Z;
}.

Definition with_table (t : option Version) (d : DataQuality) : DataQuality :=
  {| app_id := app_id d; own_app_id := own_app_id d; pipeline := pipeline d; uri := uri d;
     table := t; kafka_prefix := kafka_prefix d; conflict_retries := conflict_retries d |}.
Definition set_kafka_metadata_prefix (p : string) (d : DataQuality) : DataQuality :=
  {| app_id := app_id d; own_app_id := own_app_id d; pipeline := pipeline d; uri := uri d;
     table := table d; kafka_prefix := p; conflict_retries := conflict_retries d |}.
Definition count_retry (d : DataQuality) : DataQuality :=
  {| app_id := app_id d; own_app_id := own_app_id d; pipeline := pipeline d; uri := uri d;
     table := table d; kafka_prefix := kafka_prefix d;
     conflict_retries := u64 (conflict_retries d + 1) |}.

(** [DataQuality::open], of what opening [uri] answers. *)
Definition open_dq (opened : result Error Version) (uri app_id pipeline : string)
    : result Error (option DataQuality) :=
  match opened with
  | Ok v => Ok (Some {| app_id := app_id; own_app_id := app_id_for app_id; pipeline := pipeline;
                        uri := uri; table := Some v; kafka_prefix := KAFKA_METADATA_PREFIX;
                        conflict_retries := 0 |})
  | Err _ => Ok None
  end.

Section Batches.
Context {V : Type}.
(** Arrow's JSON of one row of a batch; a column of a batch, where it is there and is one of
    integers, as [i64]s, a value too wide for one being null. *)
Context (row_json : RecordBatch V → nat → option string).
Context (integer_column : RecordBatch V → string → option (list (option Z))).

Definition payloads (b : RecordBatch V) : list (option string) :=
  row_json b <$> seq 0 (length (rows b)).

(** [assemble]: [RecordBatch::try_new] refuses columns of different lengths. *)
Definition assemble (d : DataQuality) (source_versions : list Z) (columns : list (option string))
    (reasons : list string) (payload : list (option string)) (now : Z)
    : result Error (list DqRow) :=
  if bool_decide (length source_versions = length reasons) &&
     bool_decide (length columns = length reasons) && bool_decide (length payload = length reasons)
  then Ok (zip_with (λ '(v, c) '(r, p),
         {| dq_app_id := app_id d; dq_pipeline := pipeline d; dq_source_version := v;
            dq_column_name := c; dq_reason := r; dq_payload := p; dq_timestamp := now |})
       (zip source_versions columns) (zip reasons payload))
  else Err (Other "cannot assemble the data-quality batch").

(** [batch] *)
Definition batch (d : DataQuality) (rejected : list (Rejected V)) (source_version now : Z)
    : result Error (list DqRow) :=
  let reasons := mjoin (rj_reasons <$> rejected) in
  assemble d (replicate (length reasons) source_version) (mjoin (rj_columns <$> rejected)) reasons
    (mjoin ((λ r, payloads (rj_rows r)) <$> rejected)) now.

(** [coordinates] *)
Definition coordinate (ranges : gmap Z (Z * Z)) (partition offset : option Z)
    : option (Z * Z) :=
  p ← partition; o ← offset;
  if (i32_min <=? p) && (p <=? i32_max) then
    range ← ranges !! p;
    if (range.1 <=? o) && (o <=? range.2) then Some (p, o) else None
  else None.

Definition coordinates (d : DataQuality) (r : Rejected V) (ranges : gmap Z (Z * Z))
    : list (option (Z * Z)) :=
  match integer_column (rj_rows r) (String.append (kafka_prefix d) "partition"),
        integer_column (rj_rows r) (String.append (kafka_prefix d) "offset") with
  | Some partitions, Some offsets =>
      (λ i, coordinate ranges (partitions !! i ≫= id) (offsets !! i ≫= id))
        <$> seq 0 (length (rows (rj_rows r)))
  | _, _ => replicate (length (rows (rj_rows r))) None
  end.

(** [kafka_batch] *)
Definition kafka_batch (d : DataQuality) (rejected : list (Rejected V)) (ranges : gmap Z (Z * Z))
    (now : Z) : result Error (list DqRow) :=
  assemble d
    (mjoin ((λ r, (λ c, match c with Some (_, o) => o | None => -1 end) <$> coordinates d r ranges)
              <$> rejected))
    (mjoin (rj_columns <$> rejected)) (mjoin (rj_reasons <$> rejected))
    (mjoin ((λ r, payloads (rj_rows r)) <$> rejected)) now.

(** ** A Delta batch's rejects *)

(** What delta-rs answers to [write]: the [txn] version a snapshot has for our app id, a
    session, [protects_checkpoints], the version the commit landed at, the table opened again. *)
Record DqAnswers := {
  da_protects : bool;
  da_txn : Version → result DeltaTableError (option Z);
  da_session : result Error unit;
  da_write : result DeltaTableError Version;
  da_reopen : result Error Version;
}.

(** [already_recorded] *)
Definition already_recorded (d : DataQuality) (a : DqAnswers) (source_version : Z)
    : result Error bool :=
  match table d with
  | None => Ok false
  | Some v =>
      match da_txn a v with
      | Ok stored => Ok (bool_decide (stored = Some source_version))
      | Err e => Err (Delta e)
      end
  end.

Definition dq_properties (d : DataQuality) (source_version : Z) : list Action :=
  [A_Txn (own_app_id d) source_version;
   A_CommitInfo None (list_to_map
     [("ddi.sourceVersion"%string, V_Number source_version);
      ("ddi.appId"%string, V_String (app_id d))])].

(** [write], and what it tries to commit. *)
Definition write (d : DataQuality) (a : DqAnswers) (rejected : list (Rejected V))
    (source_version now : Z) : DataQuality * option DqWrite * result Error Z :=
  let rows := total_len rejected in
  if rows =? 0 then (d, None, Ok 0)
  else match already_recorded d a source_version with
  | Err e => (d, None, Err e)
  | Ok true => (d, None, Ok 0)
  | Ok false =>
      match batch d rejected source_version now with
      | Err e => (d, None, Err e)
      | Ok b =>
          match da_session a with
          | Err e => (with_table None d, None, Err e)
          | Ok _ =>
              let c := {| dw_commit := {| dc_actions := dq_properties d source_version; dc_rows := b |};
                          dw_cleanup := if da_protects a then Some false else None |} in
              match da_write a with
              | Ok v => (with_table (Some v) d, Some c, Ok rows)
              | Err _ => (with_table (ok (da_reopen a)) d, Some c,
                          Err (Other "cannot write rejected rows to the data-quality table"))
              end
          end
      end
  end.

(** ** A Kafka batch's rejects *)

Inductive Attempt :=
  | Conflict (e : DeltaTableError)
  | Ambiguous (e : Error)
  | Failed (e : Error).

Definition is_conflict (e : DeltaTableError) : bool :=
  match e with
  | D_VersionAlreadyExists
  | D_Transaction (T_CommitConflict | T_VersionAlreadyExists | T_MaxCommitAttempts) => true
  | _ => false
  end.

(** What delta-rs answers to one attempt: whether it can write the table (of the snapshot
    [refuse_unwritable_protocol] takes), whether log cleanup is on, the checkpoint interval and
    [protects_checkpoints], a session, the version the commit landed at; and, afterwards, the
    table opened again and the commits read of its log. *)
Record KafkaAnswers := {
  ka_writable : result Error unit;
  ka_cleanup : bool;
  ka_interval : Z;
  ka_protects : bool;
  ka_session : result Error unit;
  ka_write : result DeltaTableError Version;
  ka_reopen : result Error Version;
  ka_entry : Version → result DeltaTableError (option (list Action));
}.

(** [crate::spill::classify_delta]: whether an error's text says a budget ran out. *)
Context (exhausted : DeltaTableError → bool).
Definition classify_delta (e : DeltaTableError) : Error :=
  if exhausted e then Capacity "data-quality: writing rejects" else Delta e.

Definition kafka_properties (d : DataQuality) (ranges : gmap Z (Z * Z)) (write_id : string)
    : list Action :=
  [A_CommitInfo None (list_to_map
     [("ddi.appId"%string, V_String (app_id d));
      ("ddi.kafka.offsets"%string, V_Object
         ((λ '(p, (first, last)), (show_Z p, V_Array [V_Number first; V_Number last]))
            <$> map_to_list ranges));
      (KAFKA_WRITE_ID, V_String write_id)])].

(** [try_write_kafka] *)
Definition try_write_kafka (d : DataQuality) (a : KafkaAnswers) (b : list DqRow)
    (ranges : gmap Z (Z * Z)) (write_id : string)
    : DataQuality * option DqWrite * option Attempt :=
  match table d with
  | None => (d, None, Some (Failed (Delta (D_Other false))))  (** no snapshot *)
  | Some version =>
      match ka_writable a with
      | Err e => (d, None, Some (Failed e))
      | Ok _ =>
          let next := version + 1 in
          let cleanup := ka_cleanup a && ((next + 1) mod ka_interval a =? 0) && negb (ka_protects a) in
          match ka_session a with
          | Err e => (d, None, Some (Failed e))
          | Ok _ =>
              let w := {| dw_commit := {| dc_actions := kafka_properties d ranges write_id; dc_rows := b |};
                          dw_cleanup := Some cleanup |} in
              match ka_write a with
              | Ok v => (with_table (Some v) d, Some w, None)
              | Err e => if is_conflict e then (d, Some w, Some (Conflict e))
                         else (d, Some w, Some (Ambiguous (classify_delta e)))
              end
          end
      end
  end.

Definition unwritable (d : DataQuality) (rows : Z) (cause : Error) : Error :=
  DataQualityWrite (uri d) rows cause.

(** [write_id_of] *)
Definition write_id_of (actions : list Action) : option string :=
  find_map (λ a, match a with
    | A_CommitInfo _ info => info !! KAFKA_WRITE_ID ≫= as_str
    | _ => None
    end) actions.

(** The walk of [landed] down from [v], over [n] versions. *)
Fixpoint landed_walk (entry : Version → result DeltaTableError (option (list Action)))
    (write_id : string) (n : nat) (v : Version) : result Error bool :=
  match n with
  | O => Ok false
  | S n =>
      match entry v with
      | Err e => Err (Delta e)
      | Ok None => Ok false
      | Ok (Some commit) =>
          if bool_decide (write_id_of commit = Some write_id) then Ok true
          else landed_walk entry write_id n (v - 1)
      end
  end.

Definition landed (d : DataQuality) (a : KafkaAnswers) (read_version : option Version)
    (write_id : string) : result Error bool :=
  match table d with
  | None => Ok false
  | Some head =>
      let after := match read_version with Some v => v + 1 | None => 0 end in
      landed_walk (ka_entry a) write_id (Z.to_nat (head + 1 - after)) head
  end.

(** One turn of [write_kafka]'s loop; no result is another turn. *)
Definition attempt (d : DataQuality) (a : KafkaAnswers) (b : list DqRow)
    (ranges : gmap Z (Z * Z)) (write_id : string) (rows : Z)
    : DataQuality * list DqWrite * option (result Error Z) :=
  let read_version := table d in
  let '(d, w, r) := try_write_kafka d a b ranges write_id in
  let ws := option_list w in
  match r with
  | None => (d, ws, Some (Ok rows))
  | Some (Failed cause) =>
      (match ka_reopen a with Ok v => with_table (Some v) d | Err _ => d end, ws,
       Some (Err (unwritable d rows cause)))
  | Some (Ambiguous cause) =>
      match ka_reopen a with
      | Err _ => (d, ws, Some (Err (unwritable d rows cause)))
      | Ok v =>
          let d := with_table (Some v) d in
          match landed d a read_version write_id with
          | Ok true => (d, ws, Some (Ok rows))
          | _ => (d, ws, Some (Err (unwritable d rows cause)))
          end
      end
  | Some (Conflict e) =>
      match ka_reopen a with
      | Err cause => (d, ws, Some (Err (unwritable d rows cause)))
      | Ok v =>
          let d := with_table (Some v) d in
          match landed d a read_version write_id with
          | Err cause => (d, ws, Some (Err (unwritable d rows cause)))
          | Ok true => (d, ws, Some (Ok rows))
          | Ok false => (d, ws, None)
          end
      end
  end.

(** The loop, with [more] retries left. *)
Fixpoint kafka_loop (more : nat) (d : DataQuality) (answers : nat → KafkaAnswers)
    (b : list DqRow) (ranges : gmap Z (Z * Z)) (write_id : string) (rows : Z)
    : DataQuality * list DqWrite * result Error Z :=
  let '(d, ws, r) := attempt d (answers 0%nat) b ranges write_id rows in
  match r with
  | Some r => (d, ws, r)
  | None =>
      match more with
      | O => (d, ws, Err (DataQualityConflict (uri d) rows (Z.of_nat KAFKA_CONFLICT_RETRIES + 1)
                            "conflict"))
      | S more =>
          let '(d, ws', r) := kafka_loop more (count_retry d) (λ i, answers (S i)) b ranges
                                write_id rows in
          (d, ws ++ ws', r)
      end
  end.

(** [write_kafka], of a batch that read [ranges]. *)
Definition write_kafka (d : DataQuality) (answers : nat → KafkaAnswers)
    (rejected : list (Rejected V)) (ranges : gmap Z (Z * Z)) (write_id : string) (now : Z)
    : DataQuality * list DqWrite * result Error Z :=
  let rows := total_len rejected in
  if rows =? 0 then (d, [], Ok 0)
  else match kafka_batch d rejected ranges now with
  | Err cause => (d, [], Err (unwritable d rows cause))
  | Ok b => kafka_loop KAFKA_CONFLICT_RETRIES d answers b ranges write_id rows
  end.
End Batches.

(** ** What a call leaves in the log *)

Section Landing.
Context (write_id : string).

Definition recorded (c : DqCommit) : bool := bool_decide (write_id_of (dc_actions c) = Some write_id).

(** How often the table's log holds this call's commit. *)
Definition times_recorded (log : list DqCommit) : nat := length (List.filter recorded log).

(** What one attempt with commit [c] does to the log: others commit before and after it, it
    lands where its write is acknowledged and may where the write fails, and what is answered
    afterwards is of the log it leaves. *)
Record attempted (c : DqCommit) (a : KafkaAnswers) (log log' : list DqCommit) : Prop := {
  at_log : ∃ before own after, log' = log ++ before ++ own ++ after ∧
    Forall (λ x, recorded x = false) (before ++ after) ∧
    match ka_writable a, ka_session a, ka_write a with
    | Ok _, Ok _, Ok _ => own = [c]
    | Ok _, Ok _, Err _ => own = [] ∨ own = [c]
    | _, _, _ => own = []
    end;
  at_reopen v : ka_reopen a = Ok v → v = Z.of_nat (length log') - 1;
  at_entry v acts : 0 ≤ v → ka_entry a v = Ok (Some acts) →
    ∃ x, log' !! Z.to_nat v = Some x ∧ dc_actions x = acts;
}.

(** The commits made during the call are still there when it reads them. *)
Definition retained (a : KafkaAnswers) (log log' : list DqCommit) : Prop :=
  ∀ v, Z.of_nat (length log) ≤ v < Z.of_nat (length log') → ka_entry a v ≠ Ok None.

Lemma kafka_properties_id d ranges : write_id_of (kafka_properties d ranges write_id) = Some write_id.
Proof.
  unfold write_id_of, kafka_properties. cbn [find_map list_to_map foldr fst snd].
  rewrite lookup_insert_ne by discriminate. rewrite lookup_insert_ne by discriminate.
  by rewrite lookup_insert_eq.
Qed.

Lemma times_app l l' : times_recorded (l ++ l') = (times_recorded l + times_recorded l')%nat.
Proof. unfold times_recorded. by rewrite List.filter_app, length_app. Qed.

Lemma times_none l : Forall (λ x, recorded x = false) l → times_recorded l = 0%nat.
Proof. unfold times_recorded. induction 1 as [|x l Hx _ IH]; simpl; [done|]. by rewrite Hx. Qed.

Lemma times_zero l : times_recorded l = 0%nat → Forall (λ x, recorded x = false) l.
Proof.
  unfold times_recorded. induction l as [|x l IH]; simpl; [done|]. destruct (recorded x) eqn:E; [done|].
  intros H. constructor; [done|by apply IH].
Qed.

(** What the walk finds, of a log that answers it. *)
Lemma landed_walk_true entry n v (log : list DqCommit) :
  (∀ v acts, 0 ≤ v → entry v = Ok (Some acts) → ∃ x, log !! Z.to_nat v = Some x ∧ dc_actions x = acts) →
  Z.of_nat n ≤ v + 1 →
  landed_walk entry write_id n v = Ok true → ∃ x, x ∈ log ∧ recorded x = true.
Proof.
  intros Hentry. revert v. induction n as [|n IH]; intros v Hn; simpl; [done|].
  destruct (entry v) as [[acts|]|] eqn:E; [|done|done].
  case_bool_decide as Hid; [|intros H; by apply (IH (v - 1) ltac:(lia))].
  intros _. destruct (Hentry v acts) as (x & Hx & <-); [lia|done|].
  exists x. split; [by eapply list_elem_of_lookup_2|]. unfold recorded. by apply bool_decide_eq_true.
Qed.

Lemma landed_walk_false entry n v (log : list DqCommit) k x :
  (∀ v acts, 0 ≤ v → entry v = Ok (Some acts) → ∃ x, log !! Z.to_nat v = Some x ∧ dc_actions x = acts) →
  Z.of_nat n ≤ v + 1 → (∀ u, Z.of_nat k ≤ u ≤ v → entry u ≠ Ok None) →
  log !! k = Some x → recorded x = true → v + 1 - Z.of_nat n ≤ Z.of_nat k ≤ v →
  landed_walk entry write_id n v ≠ Ok false.
Proof.
  intros Hentry. revert v. induction n as [|n IH]; intros v Hn Hret Hk Hx Hr; [lia|]. simpl.
  destruct (entry v) as [[acts|]|] eqn:E; [|by destruct (Hret v ltac:(lia))|done].
  case_bool_decide as Hid; [done|]. destruct (decide (v = Z.of_nat k)) as [->|Hne].
  - destruct (Hentry (Z.of_nat k) acts) as (y & Hy & <-); [lia|done|].
    rewrite Nat2Z.id, Hk in Hy. injection Hy as <-. unfold recorded in Hx.
    by apply bool_decide_eq_true in Hx.
  - apply IH; try done; try lia. intros u Hu. apply Hret. lia.
Qed.

Definition only (c : DqCommit) (log : list DqCommit) : Prop :=
  ∀ x, x ∈ log → recorded x = true → x = c.

Lemma only_app c l l' : only c (l ++ l') ↔ only c l ∧ only c l'.
Proof. unfold only. setoid_rewrite elem_of_app. naive_solver. Qed.

Lemma only_none c l : Forall (λ x, recorded x = false) l → only c l.
Proof. rewrite Forall_forall. intros H x Hx Hr. by rewrite H in Hr. Qed.

(** After one attempt. *)
Lemma attempted_log c a log log' :
  attempted c a log log' → recorded c = true → only c log →
  only c log' ∧ (times_recorded log' ≤ times_recorded log + 1)%nat ∧
  (∀ x, x ∈ log → x ∈ log') ∧ (length log ≤ length log')%nat.
Proof.
  intros [(before & own & after & -> & Ho & Hown) _ _] Hc Hlog.
  apply Forall_app in Ho as [Hb Ha].
  assert (Hcases : own = [] ∨ own = [c])
    by (destruct (ka_writable a), (ka_session a), (ka_write a); auto).
  assert (only c own ∧ (times_recorded own ≤ 1)%nat) as [H1 H2].
  { destruct Hcases as [->| ->]; [split; [by intros x Hx%elem_of_nil|simpl; unfold times_recorded; simpl; lia]|].
    split; [by intros x ->%list_elem_of_singleton|]. unfold times_recorded. simpl. rewrite Hc. simpl. lia. }
  split; [|split; [|split]].
  - rewrite !only_app. split; [done|]. split; [by apply only_none|]. split; [done|by apply only_none].
  - rewrite !times_app, (times_none before), (times_none after) by done. lia.
  - intros x Hx. apply elem_of_app. by left.
  - rewrite length_app. lia.
Qed.

Lemma landed_finds c a log log' (d : DataQuality) (h v : Version) :
  attempted c a log log' → only c log' → 0 ≤ v < Z.of_nat (length log) →
  ka_reopen a = Ok h → landed (with_table (Some h) d) a (Some v) write_id = Ok true → c ∈ log'.
Proof.
  intros [_ Hre Hentry] Hc Hv Hh Hl. apply Hre in Hh as ->. unfold landed in Hl. simpl in Hl.
  destruct (decide (v < Z.of_nat (length log'))) as [Hlt|Hge].
  - apply (landed_walk_true _ _ _ log') in Hl as (x & Hx & Hr); [|done|lia].
    by rewrite <-(Hc x Hx Hr).
  - replace (Z.to_nat _) with 0%nat in Hl by lia. done.
Qed.

Lemma landed_misses c a log log' (d : DataQuality) (h v : Version) :
  attempted c a log log' → recorded c = true → retained a log log' → times_recorded log = 0%nat →
  0 ≤ v < Z.of_nat (length log) → ka_reopen a = Ok h →
  landed (with_table (Some h) d) a (Some v) write_id = Ok false → times_recorded log' = 0%nat.
Proof.
  intros [(before & own & after & Hlog & Ho & Hown) Hre Hentry] Hc Hret Hzero Hv Hh Hl.
  apply Hre in Hh as ->. apply Forall_app in Ho as [Hb Ha].
  assert (Hcases : own = [] ∨ own = [c])
    by (destruct (ka_writable a), (ka_session a), (ka_write a); auto).
  destruct Hcases as [->| ->].
  { by rewrite Hlog, !times_app, Hzero, (times_none before), (times_none after). }
  exfalso. revert Hl. unfold landed. simpl.
  assert (Hlen : (length log' = length log + length before + 1 + length after)%nat)
    by (rewrite Hlog, !length_app; simpl; lia).
  apply (landed_walk_false _ _ _ log' (length log + length before)%nat c); [done|lia| |  |done|lia].
  - intros u Hu. apply Hret. lia.
  - rewrite Hlog. rewrite lookup_app_r by lia. rewrite lookup_app_r by lia.
    by replace (length log + length before - length log - length before)%nat with 0%nat by lia.
Qed.

Section Loop.
Context {V : Type} (exhausted : DeltaTableError → bool).

(** What one turn does: it writes nothing and fails; or it tries [c]. *)
Lemma attempt_records (d d' : DataQuality) a b ranges rows ws r c log log' :
  attempt exhausted d a b ranges write_id rows = (d', ws, r) →
  c = {| dc_actions := kafka_properties d ranges write_id; dc_rows := b |} →
  (ws ≠ [] → attempted c a log log') →
  (∀ v, table d = Some v → 0 ≤ v < Z.of_nat (length log)) → only c log →
  (∀ u n k m, r ≠ Some (Err (DataQualityConflict u n k m))) ∧
  (ws = [] ∧ (∃ e, r = Some (Err e)) ∨
   length ws = 1%nat ∧ (∀ n, r = Some (Ok n) → n = rows ∧ c ∈ log') ∧
   (r = None → (∃ v, d' = with_table (Some v) d ∧ 0 ≤ v < Z.of_nat (length log')) ∧
      (retained a log log' → times_recorded log = 0%nat → times_recorded log' = 0%nat))).
Proof.
  intros Ha Hc Hatt Hh Honly. revert Ha. unfold attempt, try_write_kafka.
  destruct (table d) as [v|] eqn:Ed; [|intros [= <- <- <-]; split; [done|left; by split; [|eexists]]].
  specialize (Hh v eq_refl).
  destruct (ka_writable a) eqn:Ew; [|intros [= <- <- <-]; split; [done|left; by split; [|eexists]]].
  destruct (ka_session a) eqn:Es; [|intros [= <- <- <-]; split; [done|left; by split; [|eexists]]].
  assert (Hrec : recorded c = true).
  { unfold recorded. rewrite Hc. simpl. rewrite kafka_properties_id. by apply bool_decide_eq_true. }
  intros Hgo. assert (Hws : ws ≠ []).
  { intros ->. revert Hgo. destruct (ka_write a); [done|]. cbn [is_conflict].
    destruct (is_conflict _), (ka_reopen a); try done; by destruct (landed _ _ _ _) as [[]|]. }
  specialize (Hatt Hws).
  assert (Hlog : only c log' ∧ (length log ≤ length log')%nat)
    by (destruct (attempted_log _ _ _ _ Hatt Hrec Honly) as (? & _ & _ & ?); done).
  destruct Hlog as [Hlog Hlen].
  destruct (ka_write a) as [v'|e] eqn:Ek.
  { injection Hgo as <- <- <-. split; [done|]. right. split; [done|]. split; [|done].
    intros n [= <-]. split; [done|]. destruct Hatt as [(? & own & ? & -> & _ & Hown) _ _].
    rewrite Ew, Es, Ek in Hown. subst own. rewrite !elem_of_app. right; right; left.
    by apply list_elem_of_singleton. }
  assert (Hfound : ∀ h, ka_reopen a = Ok h →
    landed (with_table (Some h) d) a (Some v) write_id = Ok true → c ∈ log').
  { intros h Hh' Hl. by eapply landed_finds. }
  destruct (is_conflict e); destruct (ka_reopen a) as [h|e'] eqn:Er;
    try (destruct (landed _ _ _ _) as [[]|] eqn:El); injection Hgo as <- <- <-;
    (split; [done|right; split; [done|split]]); try done;
    try (intros n [= <-]; split; [done|]; by eapply Hfound).
  intros _. split.
  - exists h. split; [done|]. apply (at_reopen _ _ _ _ Hatt) in Er. lia.
  - intros Hret Hz. by eapply (landed_misses c a log log' d h v).
Qed.

(** What a call leaves, from what its attempts did to the log. *)
Definition leaves (c : DqCommit) (rows : Z) (r : result Error Z) (answers : nat → KafkaAnswers)
    (ws : list DqWrite) (logs : nat → list DqCommit) : Prop :=
  (∀ n, r = Ok n → n = rows ∧ c ∈ logs (length ws)) ∧
  ((∀ i, (i < length ws)%nat → retained (answers i) (logs i) (logs (S i))) → times_recorded (logs 0%nat) = 0%nat →
   (times_recorded (logs (length ws)) ≤ 1)%nat ∧
   (∀ u n k m, r = Err (DataQualityConflict u n k m) → times_recorded (logs (length ws)) = 0%nat)).

Lemma attempt_leaves (d d' : DataQuality) answers b ranges rows ws r c logs :
  attempt exhausted d (answers 0%nat) b ranges write_id rows = (d', ws, Some r) →
  c = {| dc_actions := kafka_properties d ranges write_id; dc_rows := b |} → recorded c = true →
  (∀ i, (i < length ws)%nat → attempted c (answers i) (logs i) (logs (S i))) →
  (∀ v, table d = Some v → 0 ≤ v < Z.of_nat (length (logs 0%nat))) → only c (logs 0%nat) →
  leaves c rows r answers ws logs.
Proof.
  intros Ea Hc Hrec Hatt Hh Honly.
  assert (Hatt' : ws ≠ [] → attempted c (answers 0%nat) (logs 0%nat) (logs 1%nat))
    by (intros Hne; apply Hatt; destruct ws; [done|simpl; lia]).
  destruct (attempt_records _ _ _ _ _ _ _ _ c _ _ Ea Hc Hatt' Hh Honly) as [Hnc [[-> (e & He)]|(Hl & Hok & _)]].
  - injection He as ->. split; [done|]. intros _ Hz. simpl. rewrite Hz. split; [lia|done].
  - unfold leaves. rewrite Hl. split; [intros n ->; by apply Hok|]. intros _ Hz.
    split; [|intros u n k m ->; by destruct (Hnc u n k m)].
    destruct (attempted_log _ _ _ _ (Hatt' ltac:(by destruct ws)) Hrec Honly) as (_ & Ht & _). lia.
Qed.

(** What a whole call does; the attempts it made are as many as the writes it tried. *)
Lemma kafka_loop_leaves more (d d' : DataQuality) answers b ranges rows ws r c logs :
  kafka_loop exhausted more d answers b ranges write_id rows = (d', ws, r) →
  c = {| dc_actions := kafka_properties d ranges write_id; dc_rows := b |} → recorded c = true →
  (∀ i, (i < length ws)%nat → attempted c (answers i) (logs i) (logs (S i))) →
  (∀ v, table d = Some v → 0 ≤ v < Z.of_nat (length (logs 0%nat))) → only c (logs 0%nat) →
  leaves c rows r answers ws logs.
Proof.
  revert d answers ws logs.
  induction more as [|more IH]; intros d answers ws logs Hloop Hc Hrec Hatt Hh Honly;
    cbn [kafka_loop] in Hloop;
    destruct (attempt exhausted d (answers 0%nat) b ranges write_id rows) as [[d1 ws1] [r1|]] eqn:Ea;
    try (injection Hloop as <- <- <-; by eapply attempt_leaves).
  - injection Hloop as <- <- <-.
    destruct (attempt_records _ _ _ _ _ _ _ _ c (logs 0%nat) (logs 1%nat) Ea Hc) as [_ [[_ (e & He)]|(Hl & _ & Hno)]];
      [intros Hne; apply Hatt; destruct ws1; [done|simpl; lia]|done|done|done|].
    unfold leaves. rewrite Hl in *. split; [done|]. intros Hret Hz. destruct Hno as [_ Hno]; [done|].
    rewrite Hno; [split; [lia|done]|apply Hret; lia|done].
  - destruct (kafka_loop exhausted more _ _ _ _ _ _) as [[d2 ws2] r2] eqn:Er.
    injection Hloop as <- <- <-.
    assert (Hlen : (length ws1 ≤ length (ws1 ++ ws2))%nat) by (rewrite length_app; lia).
    destruct (attempt_records _ _ _ _ _ _ _ _ c (logs 0%nat) (logs 1%nat) Ea Hc) as [_ [[_ (e & He)]|(Hl & _ & Hno)]];
      [intros Hne; apply Hatt; destruct ws1; [done|simpl; lia]|done|done|done|].
    destruct Hno as [(v & -> & Hv) Hno]; [done|].
    rewrite length_app, Hl in Hatt.
    pose proof (Hatt 0%nat ltac:(lia)) as Hat0.
    destruct (attempted_log _ _ _ _ Hat0 Hrec Honly) as (Honly1 & _).
    destruct (IH _ _ _ (λ i, logs (S i)) Er Hc Hrec) as [I1 I2];
      [intros i Hi; apply Hatt; lia|intros u [= <-]; lia|exact Honly1|].
    unfold leaves. rewrite length_app, Hl. split; [exact I1|]. intros Hret Hz.
    apply I2; [intros i Hi; apply Hret; lia|]. apply Hno; [apply Hret; lia|done].
Qed.
End Loop.
End Landing.

(** ** What a batch's rows are *)

Section Rows.
Context {V : Type} (row_json : RecordBatch V → nat → option string).
Context (integer_column : RecordBatch V → string → option (list (option Z))).

(** A reason and a column for every row. *)
Definition whole (r : Rejected V) : Prop :=
  length (rj_reasons r) = length (rows (rj_rows r)) ∧
  length (rj_columns r) = length (rows (rj_rows r)).

(** Row [i] of [r], as it is recorded with [version]. *)
Definition reject_row (d : DataQuality) (now version : Z) (r : Rejected V) (i : nat) : DqRow :=
  {| dq_app_id := app_id d; dq_pipeline := pipeline d; dq_source_version := version;
     dq_column_name := rj_columns r !! i ≫= id; dq_reason := default ""%string (rj_reasons r !! i);
     dq_payload := row_json (rj_rows r) i; dq_timestamp := now |}.

(** What row [i] has under the two names a Kafka message's coordinates have, and the offset
    that is its own: that of the message it names where the batch read that message, and
    otherwise none, recorded as -1. *)
Definition cell (r : Rejected V) (name : string) (i : nat) : option Z :=
  match integer_column (rj_rows r) name with Some l => default None (l !! i) | None => None end.
Definition names (d : DataQuality) (r : Rejected V) (i : nat) (p o : Z) : Prop :=
  cell r (String.append (kafka_prefix d) "partition") i = Some p ∧
  cell r (String.append (kafka_prefix d) "offset") i = Some o.
Definition was_read (ranges : gmap Z (Z * Z)) (p o : Z) : Prop :=
  i32_min ≤ p ≤ i32_max ∧ ∃ first last, ranges !! p = Some (first, last) ∧ first ≤ o ≤ last.
Definition own_offset (d : DataQuality) (ranges : gmap Z (Z * Z)) (r : Rejected V) (i : nat) (v : Z)
    : Prop :=
  (∃ p, names d r i p v ∧ was_read ranges p v) ∨
  v = -1 ∧ ∀ p o, names d r i p o → ¬ was_read ranges p o.

Definition message_offset (d : DataQuality) (ranges : gmap Z (Z * Z)) (r : Rejected V) (i : nat) : Z :=
  match cell r (String.append (kafka_prefix d) "partition") i,
        cell r (String.append (kafka_prefix d) "offset") i with
  | Some p, Some o =>
      match ranges !! p with
      | Some (first, last) =>
          if bool_decide (i32_min ≤ p ≤ i32_max ∧ first ≤ o ≤ last) then o else -1
      | None => -1
      end
  | _, _ => -1
  end.

(** Every row of every reject. *)
Definition places (rejected : list (Rejected V)) : list (Rejected V * nat) :=
  mjoin ((λ r, pair r <$> seq 0 (length (rows (rj_rows r)))) <$> rejected).
Definition kafka_rows (d : DataQuality) (ranges : gmap Z (Z * Z)) (now : Z)
    (rejected : list (Rejected V)) : list DqRow :=
  (λ x, reject_row d now (message_offset d ranges x.1 x.2) x.1 x.2) <$> places rejected.
Definition delta_rows (d : DataQuality) (source_version now : Z) (rejected : list (Rejected V))
    : list DqRow :=
  (λ x, reject_row d now source_version x.1 x.2) <$> places rejected.

Lemma seq_lookup {A} (l : list A) (f : nat → A) n :
  length l = n → (∀ i x, l !! i = Some x → f i = x) → l = f <$> seq 0 n.
Proof.
  intros Hl Hf. apply list_eq. intros i. rewrite list_lookup_fmap.
  destruct (l !! i) as [x|] eqn:E.
  - rewrite lookup_seq_lt by (apply lookup_lt_Some in E; lia). simpl. by rewrite (Hf i x).
  - rewrite lookup_seq_ge by (apply lookup_ge_None in E; lia). done.
Qed.

Lemma over_places {A} (g : Rejected V → list A) (f : Rejected V → nat → A) rejected :
  (∀ r, r ∈ rejected → g r = f r <$> seq 0 (length (rows (rj_rows r)))) →
  mjoin (g <$> rejected) = (λ x, f x.1 x.2) <$> places rejected.
Proof.
  unfold places. induction rejected as [|r l IH]; intros H; [done|]. csimpl.
  rewrite fmap_app, (H r) by (by left). f_equal.
  - by rewrite <-list_fmap_compose.
  - apply IH. intros x Hx. apply H. by right.
Qed.

Lemma places_length rejected : Z.of_nat (length (places rejected)) = total_len rejected.
Proof.
  unfold places, total_len. f_equal. induction rejected as [|r l IH]; [done|]. csimpl.
  by rewrite length_app, length_fmap, length_seq, IH.
Qed.

Lemma assemble_places d now rejected (vs : Rejected V → nat → Z) :
  Forall whole rejected →
  assemble d ((λ x, vs x.1 x.2) <$> places rejected) (mjoin (rj_columns <$> rejected))
    (mjoin (rj_reasons <$> rejected)) (mjoin ((λ r, payloads row_json (rj_rows r)) <$> rejected)) now =
  Ok ((λ x, reject_row d now (vs x.1 x.2) x.1 x.2) <$> places rejected).
Proof.
  rewrite Forall_forall. intros Hw.
  rewrite (over_places rj_columns (λ r i, rj_columns r !! i ≫= id)).
  2: { intros r Hr. apply seq_lookup; [by apply (Hw r)|]. by intros i x ->. }
  rewrite (over_places rj_reasons (λ r i, default ""%string (rj_reasons r !! i))).
  2: { intros r Hr. apply seq_lookup; [by apply (Hw r)|]. by intros i x ->. }
  rewrite (over_places _ (λ r i, row_json (rj_rows r) i)) by done.
  unfold assemble. rewrite !length_fmap, !bool_decide_eq_true_2 by done. simpl. f_equal.
  induction (places rejected) as [|x l IH]; [done|]. csimpl. by rewrite IH.
Qed.

Lemma coordinates_length d r ranges :
  length (coordinates integer_column d r ranges) = length (rows (rj_rows r)).
Proof.
  unfold coordinates. repeat (destruct (integer_column (rj_rows r) _));
    by rewrite ?length_fmap, ?length_seq, ?length_replicate.
Qed.

Lemma coordinates_cells d r ranges i c :
  coordinates integer_column d r ranges !! i = Some c →
  c = coordinate ranges (cell r (String.append (kafka_prefix d) "partition") i)
        (cell r (String.append (kafka_prefix d) "offset") i).
Proof.
  unfold coordinates, cell. destruct (integer_column (rj_rows r) (String.append _ "partition")) as [ps|].
  - destruct (integer_column (rj_rows r) (String.append _ "offset")) as [os|].
    + rewrite list_lookup_fmap. destruct (seq _ _ !! i) as [k|] eqn:E; [|done].
      apply lookup_seq in E as [-> _]. by intros [= <-].
    + intros [-> _]%lookup_replicate. simpl. unfold coordinate. by destruct (default None (ps !! i)).
  - by intros [-> _]%lookup_replicate.
Qed.

Lemma message_offset_coordinate d ranges r i :
  message_offset d ranges r i =
  match coordinate ranges (cell r (String.append (kafka_prefix d) "partition") i)
          (cell r (String.append (kafka_prefix d) "offset") i) with
  | Some (_, o) => o
  | None => -1
  end.
Proof.
  unfold message_offset, coordinate. destruct (cell r (String.append _ "partition") i) as [p|]; [|done].
  destruct (cell r (String.append _ "offset") i) as [o|]; [|done]. simpl.
  destruct (ranges !! p) as [[first la]|]; simpl; [|by destruct (_ && _)].
  case_bool_decide as H; [rewrite !(proj2 (Z.leb_le _ _)) by lia; done|].
  destruct (Z.leb_spec i32_min p), (Z.leb_spec p i32_max), (Z.leb_spec first o), (Z.leb_spec o la);
    simpl; done || lia.
Qed.

Lemma kafka_batch_rows d rejected ranges now :
  Forall whole rejected →
  kafka_batch row_json integer_column d rejected ranges now = Ok (kafka_rows d ranges now rejected).
Proof.
  intros Hw. unfold kafka_batch.
  rewrite (over_places _ (message_offset d ranges)); [by apply assemble_places|].
  intros r _. apply seq_lookup; [by rewrite length_fmap, coordinates_length|].
  intros i x. rewrite list_lookup_fmap. destruct (_ !! i) as [c|] eqn:E; [|done].
  simpl. intros [= <-]. apply coordinates_cells in E as ->. apply message_offset_coordinate.
Qed.

Lemma batch_rows d rejected source_version now :
  Forall whole rejected →
  batch row_json d rejected source_version now = Ok (delta_rows d source_version now rejected).
Proof.
  intros Hw. unfold batch, delta_rows. rewrite <-(assemble_places d now rejected (λ _ _, source_version)) by done.
  f_equal. rewrite (over_places rj_reasons (λ r i, default ""%string (rj_reasons r !! i))).
  2: { intros r Hr. apply seq_lookup; [rewrite Forall_forall in Hw; by apply (Hw r)|]. by intros i x ->. }
  rewrite length_fmap. induction (places rejected) as [|x l IH]; [done|]. csimpl. by rewrite IH.
Qed.

Lemma message_offset_own d ranges r i : own_offset d ranges r i (message_offset d ranges r i).
Proof.
  unfold own_offset, names, was_read, message_offset.
  destruct (cell r (String.append _ "partition") i) as [p|]; [|right; by split; [|intros ? ? []]].
  destruct (cell r (String.append _ "offset") i) as [o|]; [|right; by split; [|intros ? ? []]].
  destruct (ranges !! p) as [[first la]|] eqn:E.
  - case_bool_decide as H.
    + left. exists p. split; [done|]. split; [tauto|]. exists first, la. split; [done|tauto].
    + right. split; [done|]. intros p' o' [[= <-] [= <-]] (Hp & f' & l' & E' & Ho).
      rewrite E in E'. injection E' as <- <-. by apply H.
  - right. split; [done|]. intros p' o' [[= <-] [= <-]] (_ & f' & l' & E' & _). by rewrite E in E'.
Qed.

End Rows.

(** ** Properties *)


Module DqDemo.
Definition json (b : RecordBatch Z) (i : nat) : option string :=
  (λ r, show_Z (default 0 (r !! "v"%string))) <$> rows b !! i.
(** The columns of a batch that are there, all of integers. *)
Definition integers (b : RecordBatch Z) (name : string) : option (list (option Z)) :=
  if bool_decide (name ∈ schema b) then Some ((λ r, r !! name) <$> rows b) else None.
Definition message (p o v : Z) : Row Z :=
  {[ "kafka_partition"%string := p; "kafka_offset"%string := o; "v"%string := v ]}.
(** A message the batch read, and one it did not. *)
Definition rejected : list (Rejected Z) :=
  [ {| rj_rows := {| schema := ["kafka_partition"; "kafka_offset"; "v"]%string;
                     rows := [message 0 7 1; message 0 12 2] |};
       rj_reasons := ["too big"; "not a date"]%string; rj_columns := [Some "v"; None]%string |} ].
Definition ranges : gmap Z (Z * Z) := {[ 0 := (5, 9) ]}.
Definition dq : DataQuality :=
  {| app_id := "orders"; own_app_id := "orders.dq"; pipeline := "orders"; uri := "lake/orders__ddi_dq";
     table := Some 0; kafka_prefix := KAFKA_METADATA_PREFIX; conflict_retries := 0 |}.

Definition ours : DqCommit :=
  {| dc_actions := kafka_properties dq ranges "w1";
     dc_rows := kafka_rows json integers dq ranges 99 rejected |}.
Definition other : DqCommit := {| dc_actions := [A_Other]; dc_rows := [] |}.

(** The first write conflicts and did not land; the second lands, is not acknowledged and
    conflicts with what followed it. *)
Definition logs (i : nat) : list DqCommit :=
  match i with
  | 0%nat => [other]
  | 1%nat => [other; other]
  | _ => [other; other; ours; other]
  end.
Definition answers (i : nat) : KafkaAnswers :=
  {| ka_writable := Ok tt; ka_cleanup := true; ka_interval := 10; ka_protects := false;
     ka_session := Ok tt; ka_write := Err (D_Transaction T_CommitConflict);
     ka_reopen := Ok (Z.of_nat (length (logs (S i))) - 1);
     ka_entry := λ v, Ok (dc_actions <$> logs (S i) !! Z.to_nat v) |}.
Definition call := write_kafka json integers (λ _, false) dq answers rejected ranges "w1" 99.

Example recorded_once : (call.2, dq_source_version <$> dc_rows ours) =
  (Ok 2, [7; -1]) ∧ conflict_retries call.1.1 = 1 ∧ length call.1.2 = 2%nat.
Proof. vm_compute. done. Qed.

Lemma attempts i : (i < 2)%nat → attempted "w1" ours (answers i) (logs i) (logs (S i)).
Proof.
  intros Hi. split.
  - assert (i = 0%nat ∨ i = 1%nat) as [->| ->] by lia.
    + exists [other], [], []. split; [reflexivity|]. split; [|left; reflexivity].
      repeat constructor.
    + exists [], [ours], [other]. split; [reflexivity|]. split; [|right; reflexivity].
      repeat constructor.
  - intros v [= <-]. done.
  - intros v acts _ H. assert (E : dc_actions <$> logs (S i) !! Z.to_nat v = Some acts)
      by (injection H; done).
    apply fmap_Some in E as (x & Hx & ->). by exists x.
Qed.
End DqDemo.

