(* ===== verification/Open.v ===== *)
(** * Open: where a Delta pipeline starts, and in which coverage window (src/pipeline.rs)

    [open_delta] makes the decisions of [Pipeline::open_with] for a Delta source: where the
    pipeline resumes ([resume_cursor]), whether the source is still the table it was reading
    ([adjust_for_replaced_source]), whether its first version can be read
    ([refuse_an_unreachable_bootstrap]) and whether it starts inside a coverage window
    ([coverage_cutoff]).  What one open reads of the two tables is the record [Tables]. *)

From Stdlib Require Import ZArith Lia.
From stdpp Require Import base list strings gmap.
From S2P Require Import Prelude Json Error F64 Cursor Offset Budget LogStream.
From S2P Require Import Stats Arrow Dedup Rescan Watermark Lookup.

Open Scope Z_scope.
Open Scope ddi_scope.

(** The part of [ResolvedPipeline] the Delta pipeline reads. *)
Record ResolvedPipeline := {
  cfg_app_id : string;
  cfg_starting_version : Version;
  cfg_source_uri : string;
  watermark_uri : option string;
  dedup_timestamp : option string;
  dedup_key : option string;
  dedup_partition : list string;
  is_upsert : bool;
  staging : bool;  (** [stage_for.is_some()] *)
  change_policy : ChangePolicy;
  cfg_max_files_per_batch : Z;
  cfg_max_bytes_per_batch : Z;
  cfg_lookups : list ResolvedLookup;
  max_evaluation_rejects_per_batch : Z;
}.

Record CoverageWindow := {
  cw_reason : CoverageReason;
  through : option Version;
  resumed : bool;
}.

Section Open.
Context {V : Type} `{!Arrow V} {Bytes Schema : Type}.
Context (parse_timestamp_micros : string → option Z) (parse_stats : string → option FileStats).
Context (json_of : list string → string).

(** What one open reads.  The source: its log, the version and the id its snapshot has, its
    columns and how its files read; a listing of its log.  The target: its log, version,
    columns, rows, the [txn] version delta-rs answers for our app id; the ids of both tables
    and of each lookup.  And the rows of the watermark table. *)
Record Tables := {
  source_log : LogStore Bytes Schema;
  source_version : option Version;
  source_id : option string;
  source_columns : list string;
  source_partitioned : list string;
  source_file : Add → result Error (RecordBatch V);
  source_listing : result Error (list (option string * Z));
  target_log : LogStore Bytes Schema;
  target_id : option string;
  lookup_id : ResolvedLookup → result Error (option string);
  target_version : option Version;
  target_schema : list string;
  target_types : string → DataType;
  target_slack : option Slack;
  target_rows : list (Row V);
  stored_txn : result DeltaTableError (option Z);
  watermark_rows : result Error (list WatermarkRow);
}.

(** [Cutoff] *)
Record Cutoff := { cut_dedup : Dedup (V := V); window : CoverageWindow; skipped : Z }.

Record Resume := {
  r_cursor : StreamCursor;
  bootstrapping : bool;
  rebuilt : option (Dedup (V := V));
  committed : option Version;
}.

Definition read_cutoff (cfg : ResolvedPipeline) (t : Tables) (ts : string) (columns : list string)
    : result Error (Dedup (V := V)) :=
  read_partitioned json_of (target_types t) (target_schema t) (target_rows t) ts (dedup_key cfg)
    columns.

(** ** Where to resume *)

Definition resume_cursor (cfg : ResolvedPipeline) (t : Tables) : result Error Resume :=
  let? stored := last_committed_version (stored_txn t) in
  let own := match stored with
             | Some v => at_version (u64 (v + 1))
             | None => at_version (cfg_starting_version cfg)
             end in
  let resume_own := {| r_cursor := own; bootstrapping := bool_decide (stored = None);
                       rebuilt := None; committed := stored |} in
  match watermark_uri cfg, dedup_timestamp cfg with
  | None, None => Ok resume_own
  | uri, timestamp =>
      let? state := target_state (target_log t) (cfg_app_id cfg) (target_version t)
                      DEFAULT_MAX_SCAN in
      match state with
      | OursOrUntouched => Ok resume_own
      | OverwrittenAt _ =>
          match timestamp with
          | Some ts =>
              let? dedup := read_cutoff cfg t ts (dedup_partition cfg) in
              let? from := rescan_start (source_log t) parse_timestamp_micros parse_stats json_of
                (target_slack t) (source_file t) (source_columns t) (source_partitioned t)
                (source_version t) dedup (cfg_starting_version cfg) DEFAULT_MAX_SCAN in
              Ok {| r_cursor := at_version from; bootstrapping := false; rebuilt := Some dedup;
                    committed := stored |}
          | None =>
              let? rows := watermark_rows t in
              let? w := last (cfg_app_id cfg) rows in
              match w with
              | None => Err (Config "the watermark table holds no source_version for app_id")
              | Some w => Ok {| r_cursor := at_version (u64 (w + 1)); bootstrapping := false;
                                rebuilt := None; committed := stored |}
              end
          end
      end
  end.

(** ** Whether the source is still the same table *)

Definition adjust_for_replaced_source (cfg : ResolvedPipeline) (t : Tables) (ours : OurLastCommit)
    (resume : Resume) : result Error (option StreamCursor) :=
  let differs := match source_table_id ours, source_id t with
                 | Some a, Some b => negb (bool_decide (a = b))
                 | _, _ => false
                 end in
  let seen_at := match source_table_id_version ours with
                 | Some v => Some v
                 | None => committed resume
                 end in
  let? different_table :=
    match differs, source_table_id ours, seen_at with
    | true, Some was, Some seen_at =>
        let? same_log := keeps_identity (source_log t) (source_version t) seen_at was in
        Ok (negb same_log)
    | _, _, _ => Ok differs
    end in
  let log_went_backwards := negb (bootstrapping resume) &&
    match source_version t with
    | Some h => Z.min u64_max (h + 1) <? version (r_cursor resume)
    | None => false
    end in
  if negb different_table && negb log_went_backwards then Ok None
  else match dedup_timestamp cfg with
  | None => Err (Config "the source appears to have been dropped and recreated")
  | Some _ => Ok (Some (at_version (cfg_starting_version cfg)))
  end.

(** ** Whether the first version can be read *)

Definition refuse_an_unreachable_bootstrap (cfg : ResolvedPipeline) (t : Tables) (cursor : StreamCursor)
    (rfc3339 : Z → string) : result Error unit :=
  match read_commit_entry (source_log t) (version cursor) with
  | Err e => Err (Delta e)
  | Ok (Some _) => Ok tt
  | Ok None =>
      if match source_version t with Some h => h <? version cursor | None => false end then Ok tt
      else
        let? listing := source_listing t in
        match earliest_readable_commit listing with
        | None => Err (Other "the commit log of the source holds no commit files at all")
        | Some (oldest, at_) =>
            Err (BootstrapUnreachable (cfg_source_uri cfg) (version cursor) oldest
                   (Some (rfc3339 at_)) (default oldest (source_version t)))
        end
  end.

(** ** In which coverage window *)

(** Whether a version from [v] through [h] adds or changes data; a range too long to walk
    counts as one. *)
Fixpoint has_data_commit (S : LogStore Bytes Schema) (scans : nat) (v h : Version)
    : result Error bool :=
  if h <? v then Ok false
  else match scans with
  | O => Ok true
  | Datatypes.S scans =>
      match read_commit_entry S v with
      | Err e => Err (Delta e)
      | Ok None => Ok true
      | Ok (Some raw) =>
          match get_actions S v raw with
          | Err e => Err (Delta e)
          | Ok actions =>
              match classify actions with
              | Data _ | Change _ => Ok true
              | _ => has_data_commit S scans (v + 1) h
              end
          end
      end
  end.
Definition has_data_commit_between (S : LogStore Bytes Schema) (from through : Version)
    : result Error bool :=
  has_data_commit S DEFAULT_MAX_SCAN from through.

Definition cutoff_applies (through : Version) (cursor : StreamCursor) : bool :=
  version cursor <=? through.

Definition window_closes_after (through : option Version) (end_ : StreamCursor) (beyond : Z)
    : bool :=
  (0 <? beyond) || match through with Some h => negb (cutoff_applies h end_) | None => false end.

(** Why a window opens, when it closes, whether an earlier process opened it, and its
    cut-off. *)
Definition infer_window (cfg : ResolvedPipeline) (t : Tables) (ours : OurLastCommit) (resume : Resume)
    (replaced : bool) (cursor : StreamCursor) (ts : string)
    : result Error (option (CoverageWindow * Dedup (V := V))) :=
  let head := if is_stage_uri (cfg_source_uri cfg) then None else source_version t in
  let opens reason through resumed dedup :=
    Ok (Some ({| cw_reason := reason; through := through; resumed := resumed |}, dedup)) in
  if replaced then
    let? dedup := match rebuilt resume with
                  | Some d => Ok d
                  | None => read_cutoff cfg t ts (dedup_partition cfg)
                  end in
    opens SourceReplaced None false dedup
  else match rebuilt resume with
  | Some dedup => opens Rebuilt head false dedup
  | None =>
      if bootstrapping resume then
        let? dedup := read_cutoff cfg t ts (dedup_partition cfg) in
        opens Bootstrap head false dedup
      else match ours_cutoff ours with
      | None => Ok None
      | Some recorded =>
          let? anything_left :=
            match rc_source_through recorded with
            | Some through => has_data_commit_between (source_log t) (version cursor) through
            | None => Ok true
            end in
          if negb anything_left then Ok None
          else if decide (rc_partition_columns recorded = dedup_partition cfg) then
            let? dedup := read_cutoff cfg t ts (rc_partition_columns recorded) in
            opens (rc_reason recorded) (rc_source_through recorded) true dedup
          else Ok None
      end
  end.

Definition coverage_cutoff (cfg : ResolvedPipeline) (t : Tables) (ours : OurLastCommit) (resume : Resume)
    (replaced : bool) (cursor : StreamCursor) : result Error (option Cutoff) :=
  match dedup_timestamp cfg with
  | None => Ok None
  | Some ts =>
      let? inferred := infer_window cfg t ours resume replaced cursor ts in
      match inferred with
      | None => Ok None
      | Some (window, dedup) =>
          if is_inert dedup ||
             match through window with
             | Some h => negb (cutoff_applies h cursor)
             | None => false
             end
          then Ok None
          else Ok (Some {| cut_dedup := dedup; window := window; skipped := 0 |})
      end
  end.
End Open.
