(* ===== verification/Delta.v ===== *)
(** * Delta: a Delta pipeline's step (src/pipeline.rs, src/sink.rs)

    [open_delta] builds a pipeline, [step_delta] is one iteration: pull a batch, read it,
    [process] it - transform, coerce, drop what a coverage window covers, record the rejects,
    commit the rows with the offset - and settle.  Each returns the pipeline's new state, what
    it wrote, in order, and its answer.  What the transform, the coercion and the tables
    answer are arguments; the rows it hands on are Arrow's. *)

From Stdlib Require Import ZArith Lia.
From stdpp Require Import base list strings gmap.
From S2P Require Import Prelude Json Error F64 Cursor Offset Budget LogStream.
From S2P Require Import Stats Arrow Dedup Rescan Watermark Lookup Dq Open.

Open Scope Z_scope.
Open Scope ddi_scope.

(** ** The sink *)

Record LookupCommit := {
  lc_name : string;
  lc_version : Z;
  lc_table_id : option string;
  used_pre_history : bool;
  used_current : bool;
}.

Record Sink := {
  sink_app_id : string;
  source_identity : option (Version * string);
  lookup_commits : list LookupCommit;  (** [lookup_snapshots] *)
  sink_cutoff : option RecordedCutoff;
}.

(** [Sink::new], and its setters. *)
Definition sink_new (app_id : string) (identity : option (Version * string)) : Sink :=
  {| sink_app_id := app_id; source_identity := identity; lookup_commits := [];
     sink_cutoff := None |}.
Definition set_source_identity (identity : option (Version * string)) (s : Sink) : Sink :=
  {| sink_app_id := sink_app_id s; source_identity := identity;
     lookup_commits := lookup_commits s; sink_cutoff := sink_cutoff s |}.
Definition set_lookup_snapshots (l : list LookupSnapshot) (s : Sink) : Sink :=
  {| sink_app_id := sink_app_id s; source_identity := source_identity s;
     lookup_commits := (λ x, {| lc_name := ls_name x; lc_version := i64 (ls_version x);
                                lc_table_id := ls_table_id x;
                                used_pre_history := ls_used_pre_history x;
                                used_current := ls_used_current x |}) <$> l;
     sink_cutoff := sink_cutoff s |}.
Definition set_cutoff (c : option RecordedCutoff) (s : Sink) : Sink :=
  {| sink_app_id := sink_app_id s; source_identity := source_identity s;
     lookup_commits := lookup_commits s; sink_cutoff := c |}.

Definition lookup_metadata (l : LookupCommit) : list (string * Value) :=
  let prefix := String.append "ddi.lookup." (lc_name l) in
  [(String.append prefix ".version", V_Number (lc_version l))] ++
  match lc_table_id l with
  | Some id => [(String.append prefix ".tableId", V_String id)]
  | None => []
  end ++
  (if used_pre_history l then [(String.append prefix ".preHistory", V_Bool true)] else []) ++
  (if used_current l then [(String.append prefix ".current", V_Bool true)] else []).

Definition metadata (s : Sink) (source_version : Z) : list (string * Value) :=
  [("ddi.sourceVersion"%string, V_Number source_version);
   ("ddi.appId"%string, V_String (sink_app_id s))] ++
  match source_identity s with
  | Some (version, id) =>
      [("ddi.sourceTableId"%string, V_String id); (SOURCE_TABLE_ID_VERSION_KEY, V_Number version)]
  | None => []
  end ++
  mjoin (lookup_metadata <$> lookup_commits s) ++
  match sink_cutoff s with Some c => to_commit_metadata c | None => [] end.

(** [Sink::properties]: the actions every commit of ours carries, the metadata as the map
    delta-rs writes it as, a later entry of a key replacing an earlier one. *)
Definition properties (s : Sink) (source_version : Z) : list Action :=
  [A_Txn (sink_app_id s) source_version;
   A_CommitInfo None (list_to_map (rev (metadata s source_version)))].

(** ** The pipeline *)

Section Delta.
Context {V : Type} `{!Arrow V} {Bytes Schema : Type}.
Context (parse_timestamp_micros : string → option Z) (parse_stats : string → option FileStats).
Context (json_of : list string → string).

Abbreviation Rejected := (Rejected V).

(** [Transform::apply_isolating]'s answer. *)
Record Isolated := {
  output : list (RecordBatch V);
  unevaluable : option Rejected;
  reevaluations : Z;
}.

(** The transform and the coercion: [apply_isolating], with how many rows it may set aside;
    [coerce_quarantining] where there is a table for the rows that do not fit, [coerce] where
    not; the columns of the target a batch has; the bytes a batch takes in memory. *)
Context (apply_isolating : list (RecordBatch V) → list LookupSnapshot → Z → result Error Isolated).
Context (coerce_quarantining : RecordBatch V → result Error (RecordBatch V * option Rejected)).
Context (coerce : RecordBatch V → result Error (RecordBatch V)).
Context (columns_present_in : RecordBatch V → list string).
Context (get_array_memory_size : RecordBatch V → Z).

(** [Pipeline], a Delta source's fields in it.  [target] is the version its handle is at, none
    for the in-memory stand-in a failed reopen leaves. *)
Record Pipeline := {
  cfg : ResolvedPipeline;
  stream : LogStream Schema;
  sink : Sink;
  cutoff : option (Cutoff (V := V));
  lookup_state : LookupState;
  dq : bool;
  target_columns : list string;
  target : option Version;
}.

Definition with_stream (s : LogStream Schema) (p : Pipeline) : Pipeline :=
  {| cfg := cfg p; stream := s; sink := sink p; cutoff := cutoff p; lookup_state := lookup_state p;
     dq := dq p;
     target_columns := target_columns p; target := target p |}.
Definition with_sink (s : Sink) (p : Pipeline) : Pipeline :=
  {| cfg := cfg p; stream := stream p; sink := s; cutoff := cutoff p; lookup_state := lookup_state p;
     dq := dq p;
     target_columns := target_columns p; target := target p |}.
Definition with_cutoff (c : option (Cutoff (V := V))) (p : Pipeline) : Pipeline :=
  {| cfg := cfg p; stream := stream p; sink := sink p; cutoff := c; lookup_state := lookup_state p;
     dq := dq p;
     target_columns := target_columns p; target := target p |}.
Definition with_target (t : option Version) (p : Pipeline) : Pipeline :=
  {| cfg := cfg p; stream := stream p; sink := sink p; cutoff := cutoff p; lookup_state := lookup_state p;
     dq := dq p;
     target_columns := target_columns p; target := t |}.
Definition with_lookup_state (l : LookupState) (p : Pipeline) : Pipeline :=
  {| cfg := cfg p; stream := stream p; sink := sink p; cutoff := cutoff p; lookup_state := l;
     dq := dq p; target_columns := target_columns p; target := target p |}.

Definition cut_through (p : Pipeline) : option Version := cutoff p ≫= (λ c, through (window c)).

(** ** Opening *)

(** [LogStreamBuilder], as [open_with] configures it. *)
Definition open_stream (cfg : ResolvedPipeline) (t : Tables (V := V) (Bytes := Bytes) (Schema := Schema))
    (cursor : StreamCursor) (cut : option (Cutoff (V := V))) : LogStream Schema :=
  let s := stream_new (cfg_source_uri cfg) (source_version t) (source_id t) in
  let s := with_starting_cursor cursor s in
  let s := with_source_uri (cfg_source_uri cfg) s in
  let s := with_change_policy (change_policy cfg) s in
  let s := with_max_files_per_batch (cfg_max_files_per_batch cfg) s in
  let s := with_max_bytes_per_batch (cfg_max_bytes_per_batch cfg) s in
  let s := with_pinned_lookup_snapshots (negb (bool_decide (cfg_lookups cfg = []))) s in
  with_stop_after (cut ≫= (λ c, through (window c))) s.

(** [Pipeline::open_with]; the upsert's preflight and whether there is a data-quality table are
    answers. *)
Definition open_delta (cfg : ResolvedPipeline)
    (t : Tables (V := V) (Bytes := Bytes) (Schema := Schema)) (rfc3339 : Z → string)
    (preflight : result Error unit) (open_dq : result Error bool) : result Error Pipeline :=
  let? ours := our_last_commit (target_log t) (cfg_app_id cfg) (target_version t)
                 DEFAULT_MAX_SCAN in
  let? validated := validate_lookup_tables (source_id t) (target_id t) (lookup_id t)
                      (cfg_lookups cfg) ours in
  let? resume := resume_cursor parse_timestamp_micros parse_stats json_of cfg t in
  let? replaced := adjust_for_replaced_source cfg t ours resume in
  let cursor := default (r_cursor resume) replaced in
  let? _ := if bootstrapping resume then refuse_an_unreachable_bootstrap cfg t cursor rfc3339
            else Ok tt in
  let? _ := match dedup_timestamp cfg with
            | Some ts => require_columns (target_types t) (target_schema t) ts (dedup_key cfg)
                           (dedup_partition cfg)
            | None => Ok tt
            end in
  let? cut := coverage_cutoff json_of cfg t ours resume (bool_decide (is_Some replaced)) cursor in
  let? _ := if is_upsert cfg then preflight else Ok tt in
  let? has_dq := open_dq in
  Ok {| cfg := cfg;
        stream := open_stream cfg t cursor cut;
        sink := sink_new (cfg_app_id cfg)
          (match source_version t, source_id t with
           | Some v, Some id => Some (v, id)
           | _, _ => None
           end);
        cutoff := cut; lookup_state := validated; dq := has_dq; target_columns := target_schema t;
        target := target_version t |}.

(** ** A coverage window's end *)

(** [retire] *)
Definition retire (p : Pipeline) : Pipeline :=
  match cutoff p with
  | None => p
  | Some _ => with_stream (release_stop (stream p)) (with_cutoff None p)
  end.

(** [retire_cutoff_if_read_through], and whether it did. *)
Definition retire_cutoff_if_read_through (p : Pipeline) : Pipeline * bool :=
  match cut_through p with
  | None => (p, false)
  | Some through => if cutoff_applies through (cursor (stream p)) then (p, false)
                    else (retire p, true)
  end.

(** [settle_cutoff] *)
Definition settle_cutoff (closes : option bool) (covered : Z) (p : Pipeline) : Pipeline :=
  let p := with_cutoff ((λ c, {| cut_dedup := cut_dedup c; window := window c;
                                 skipped := u64 (skipped c + covered) |}) <$> cutoff p) p in
  if bool_decide (closes = Some true) then retire p else p.

(** [Cutoff::recorded] *)
Definition recorded (c : Cutoff (V := V)) : RecordedCutoff :=
  {| rc_reason := cw_reason (window c); rc_source_through := through (window c);
     rc_partition_columns := partition_columns (cut_dedup c) |}.

(** ** One batch *)

(** [Batch]; a Delta source sets no rows aside before the transform. *)
Record Batch := {
  b_through : Version;
  b_files : Z;
  input : list (RecordBatch V);
  lookups : list LookupSnapshot;
  transitions : list LookupTableIdTransition;
  b_start : StreamCursor;
  b_end : StreamCursor;
}.

Inductive StepOutcome :=
  | CaughtUp
  | Progressed (through_version : Version) (files rows : Z) (target_version : option Version)
      (rejected unevaluable reevaluations covered : Z)
  | Skipped (through_version : Version) (rejected unevaluable reevaluations covered : Z).

(** What a step writes: rejects to the data-quality table, rows to the target, by an append or
    by a merge on the columns the transform produced, with the commit's own actions. *)
Inductive Write :=
  | WriteRejects (rejects : list Rejected) (txn_version : Z)
  | Commit (batches : list (RecordBatch V)) (actions : list Action)
  | Merge (batches : list (RecordBatch V)) (columns : list string) (actions : list Action).

(** What the tables answer to a step's writes: rejects written; the version a commit or a merge
    landed at, the rows a merge wrote; the handle a failed write is followed by. *)
Record Answers := {
  an_rejects : result Error Z;
  an_commit : result Error (Version * Z);
  an_reopen : result Error Version;
}.

Definition num_rows (l : list (RecordBatch V)) : Z :=
  Z.of_nat (sum_list ((λ b, length (rows b)) <$> l)).

(** One batch of the coercion's loop: what is kept, how many rows were covered and beyond, and
    the rows that did not fit. *)
Definition coerce_batch (p : Pipeline) (b : RecordBatch V)
    : result Error (RecordBatch V * Z * Z * list Rejected) :=
  let? split := if dq p then coerce_quarantining b
                else let? c := coerce b in Ok (c, None) in
  let '(c, bad) := split in
  match cutoff p with
  | Some cut =>
      let? f := Dedup.filter json_of (cut_dedup cut) c in
      Ok ({| schema := schema c; rows := kept f |}, covered f, beyond f, option_list bad)
  | None =>
      let? _ :=
        match dedup_timestamp (cfg p) with
        | Some ts =>
            let? _ := if is_upsert (cfg p) then Ok tt else require_timestamps c ts in
            require_partitions c (dedup_partition (cfg p))
        | None => Ok tt
        end in
      Ok (c, 0, 0, option_list bad)
  end.

Record Coerced := {
  co_batches : list (RecordBatch V);
  co_covered : Z;
  co_beyond : Z;
  co_rejects : list Rejected;
}.

Fixpoint coerce_all (p : Pipeline) (output : list (RecordBatch V)) : result Error Coerced :=
  match output with
  | [] => Ok {| co_batches := []; co_covered := 0; co_beyond := 0; co_rejects := [] |}
  | b :: output =>
      if bool_decide (rows b = []) then coerce_all p output
      else
        let? one := coerce_batch p b in
        let '(c, covered, beyond, bad) := one in
        let? rest := coerce_all p output in
        Ok {| co_batches := (if bool_decide (rows c = []) then [] else [c]) ++ co_batches rest;
              co_covered := covered + co_covered rest;
              co_beyond := beyond + co_beyond rest;
              co_rejects := bad ++ co_rejects rest |}
  end.

(** What a batch comes to before anything is written. *)
Record Prepared := {
  pr_batches : list (RecordBatch V);
  pr_produced : list string;
  pr_rejects : list Rejected;
  pr_covered : Z;
  pr_beyond : Z;
  pr_unevaluable : Z;
  pr_reevaluations : Z;
}.

Definition prepare (p : Pipeline) (b : Batch) : result Error Prepared :=
  let max_rejects := if dq p then max_evaluation_rejects_per_batch (cfg p) else 0 in
  let? isolated := apply_isolating (input b) (lookups b) max_rejects in
  let produced := match List.find (λ b, negb (bool_decide (rows b = []))) (output isolated) with
                  | Some b => columns_present_in b
                  | None => []
                  end in
  let missing := List.filter (λ c, negb (bool_decide (c ∈ produced))) (target_columns p) in
  if staging (cfg p) && negb (bool_decide (produced = [])) && negb (bool_decide (missing = []))
  then Err (Config "staged_upsert requires the transform to produce every target column")
  else
    let? coerced := coerce_all p (output isolated) in
    Ok {| pr_batches := co_batches coerced; pr_produced := produced;
          pr_rejects := option_list (unevaluable isolated) ++ co_rejects coerced;
          pr_covered := co_covered coerced; pr_beyond := co_beyond coerced;
          pr_unevaluable := match unevaluable isolated with Some bad => len bad | None => 0 end;
          pr_reevaluations := reevaluations isolated |}.

(** [Pipeline::commit]'s and [Pipeline::upsert]'s end: the handle a write leaves. *)
Definition landed (a : Answers) (p : Pipeline) : Pipeline * result Error Z :=
  match an_commit a with
  | Ok (v, n) => (with_target (Some v) p, Ok n)
  | Err e =>
      match an_reopen a with
      | Ok v => (with_target (Some v) p, Err e)
      | Err e' => (with_target None p, Err e')
      end
  end.

(** [write_rejects] *)
Definition write_rejects (p : Pipeline) (a : Answers) (rejects : list Rejected)
    (txn_version : Z) : list Write * result Error unit :=
  if 0 <? total_len rejects then
    if dq p then ([WriteRejects rejects txn_version],
                  match an_rejects a with Ok _ => Ok tt | Err e => Err e end)
    else ([], Err (Other "internal: rows were rejected but there is no data-quality table"))
  else ([], Ok tt).

(** [acknowledge_lookup_table_id_transitions] *)
Definition acknowledge_lookup_table_id_transitions (l : list LookupTableIdTransition)
    (p : Pipeline) : Pipeline :=
  with_lookup_state (apply_transitions l (lookup_state p)) p.

(** [process] *)
Definition process (p : Pipeline) (a : Answers) (b : Batch)
    : Pipeline * list Write * result Error StepOutcome :=
  match prepare p b with
  | Err e => (p, [], Err e)
  | Ok pr =>
      let closes := (λ c, window_closes_after (through (window c)) (b_end b) (pr_beyond pr))
                      <$> cutoff p in
      let p := with_sink (set_cutoff (match cutoff p, closes with
                                      | Some c, Some false => Some (recorded c)
                                      | _, _ => None
                                      end) (sink p)) p in
      match txn_version_for (b_end b) with
      | Err e => (p, [], Err e)
      | Ok txn_version =>
          let rejected := total_len (pr_rejects pr) in
          match write_rejects p a (pr_rejects pr) txn_version with
          | (writes, Err e) => (p, writes, Err e)
          | (writes, Ok _) =>
              let actions := properties (sink p) txn_version in
              let empty := bool_decide (pr_batches pr = []) in
              let write :=
                if empty then Commit [{| schema := target_columns p; rows := [] |}] actions
                else if is_upsert (cfg p) then Merge (pr_batches pr) (pr_produced pr) actions
                else Commit (pr_batches pr) actions in
              match landed a p with
              | (p, Err e) => (p, writes ++ [write], Err e)
              | (p, Ok merged) =>
                  let p := acknowledge_lookup_table_id_transitions (transitions b) p in
                  let p := settle_cutoff closes (pr_covered pr) p in
                  let out_rows := if is_upsert (cfg p) then merged else num_rows (pr_batches pr) in
                  (p, writes ++ [write],
                   Ok (if empty
                       then Skipped (b_through b) rejected (pr_unevaluable pr)
                              (pr_reevaluations pr) (pr_covered pr)
                       else Progressed (b_through b) (b_files b) out_rows (target p) rejected
                              (pr_unevaluable pr) (pr_reevaluations pr) (pr_covered pr)))
              end
          end
      end
  end.

(** ** A step *)

(** [scan_source] of a batch's files, and a lookup's snapshots as of a time. *)
Context (scan : LogBatch Schema → result Error (list (RecordBatch V))).
Context (available : ResolvedLookup → Z → result Error LookupSnapshots).

Definition pull (S : LogStore Bytes Schema) (budget : Budget) (p : Pipeline)
    : Pipeline * option (result Error (option (LogBatch Schema))) :=
  let '(s, r) := next_batch S budget (stream p) in (with_stream s p, r).

(** [step_delta]; the first pull is repeated when the stream was only held at the head of a
    window that is over. *)
Definition step_delta (S : LogStore Bytes Schema) (budget : Budget) (a : Answers) (p : Pipeline)
    : Pipeline * list Write * option (result Error StepOutcome) :=
  let '(p, _) := retire_cutoff_if_read_through p in
  let '(p, next) := pull S budget p in
  let '(p, next) :=
    match next with
    | Some (Ok None) =>
        match retire_cutoff_if_read_through p with
        | (p, true) => pull S budget p
        | (p, false) => (p, next)
        end
    | _ => (p, next)
    end in
  match next with
  | None => (p, [], None)
  | Some (Err e) => (p, [], Some (Err e))
  | Some (Ok None) => (p, [], Some (Ok CaughtUp))
  | Some (Ok (Some batch)) =>
      let p := with_sink (set_source_identity (identity (stream p)) (sink p)) p in
      match lookup_snapshots (lookup_state p) available (cfg_lookups (cfg p))
              (through_log_timestamp batch) with
      | Err e => (p, [], Some (Err e))
      | Ok (l, tr) =>
          let p := with_sink (set_lookup_snapshots l (sink p)) p in
          match scan batch with
          | Err e => (p, [], Some (Err e))
          | Ok input =>
              let decoded := fold_left (λ n b, u64 (n + get_array_memory_size b)) input 0 in
              let p := with_stream (set_amplification
                (amplification_observe (amplification (stream p)) (total_bytes batch) decoded)
                (stream p)) p in
              let '(p, writes, r) := process p a
                {| b_through := through_version batch; b_files := Z.of_nat (length (files batch));
                   input := input; lookups := l; transitions := tr; b_start := start batch; b_end := end_ batch |} in
              (p, writes, Some r)
          end
      end
  end.
End Delta.
