(* ===== verification/DeltaCorrect.v ===== *)
(** * DeltaCorrect: every source file is committed exactly once (src/pipeline.rs, src/sink.rs)

    Any number of processes run one Delta pipeline against one target: each opens at some
    version of the target, steps, fails or dies at any point and is opened again, while other
    writers commit what they like.  A pipeline that appends, with neither [dedup_timestamp]
    nor [watermark_uri], resumes from its [txn] offset alone; the theorem is that what its
    commits hold, in order, is the source's history cut into consecutive stretches.

    Of delta-rs it takes what [lands] says: a commit lands only if none since its handle's
    version carries a [txn] of the same app id, and an error may hide that it did. *)

From Stdlib Require Import ZArith Lia.
From stdpp Require Import base list strings gmap relations.
From S2P Require Import Prelude Json Error F64 Cursor Offset Budget LogStream.
From S2P Require Import LogStreamCorrect.
From S2P Require Import Stats Arrow Dedup Rescan Watermark Lookup Dq Open Delta.

Open Scope Z_scope.
Open Scope ddi_scope.

Section World.
Context {V : Type} `{!Arrow V} {Bytes Schema : Type}.
Context (parse_timestamp_micros : string → option Z) (parse_stats : string → option FileStats).
Context (json_of : list string → string).
Abbreviation Rejected := (Rejected V).
Context (apply_isolating : list (RecordBatch V) → list LookupSnapshot → Z →
  result Error (Isolated (V := V))).
Context (coerce_quarantining : RecordBatch V → result Error (RecordBatch V * option Rejected)).
Context (coerce : RecordBatch V → result Error (RecordBatch V)).
Context (columns_present_in : RecordBatch V → list string).
Context (get_array_memory_size : RecordBatch V → Z).
Abbreviation Pipeline := (Pipeline (V := V) (Schema := Schema)).
Abbreviation prepare := (prepare (V := V) (Schema := Schema) json_of apply_isolating coerce_quarantining coerce
  columns_present_in).

(** The source's history, what its files read as, and the pipeline's configuration. *)
Context (L : Log) (contents : LogBatch Schema → list (RecordBatch V)) (config : ResolvedPipeline).

(** ** The tables *)

(** A commit of the target: its actions and the rows it added. *)
Record TargetCommit := { tc_actions : list Action; tc_rows : list (Row V) }.
Abbreviation Rejects := (list (list Rejected * Z)).

Definition txn_in (actions : list Action) : option Z :=
  find_map (λ a, match a with
    | A_Txn id v => if decide (id = cfg_app_id config) then Some v else None
    | _ => None
    end) actions.
Definition is_ours (c : TargetCommit) : bool := carries_txn (cfg_app_id config) (tc_actions c).

(** The [txn] version of ours a snapshot of these commits holds. *)
Definition newest_txn (t : list TargetCommit) : option Z :=
  find_map (λ c, txn_in (tc_actions c)) (rev t).

(** How one write of a step comes out against the target [t] and the rejects [d], from a handle
    at version [h]. *)
Inductive lands (a : Answers) (h : option Version) (t : list TargetCommit) (d : Rejects)
    : Write → list TargetCommit → Rejects → Prop :=
  | rejects_written rj n : lands a h t d (WriteRejects rj n) t (d ++ [(rj, n)])
  | rejects_there rj rj' n k :
      (rj', n) ∈ d → an_rejects a = Ok k → lands a h t d (WriteRejects rj n) t d
  | rejects_failed rj n e : an_rejects a = Err e → lands a h t d (WriteRejects rj n) t d
  | rejects_unheard rj n e : an_rejects a = Err e → lands a h t d (WriteRejects rj n) t (d ++ [(rj, n)])
  | commit_lands b acts v n :
      h = Some (Z.of_nat v) → Forall (λ c, is_ours c = false) (drop (S v) t) →
      an_commit a = Ok (Z.of_nat (length t), n) →
      lands a h t d (Commit b acts) (t ++ [{| tc_actions := acts; tc_rows := mjoin (rows <$> b) |}]) d
  | commit_lands_unheard b acts v e :
      h = Some (Z.of_nat v) → Forall (λ c, is_ours c = false) (drop (S v) t) →
      an_commit a = Err e →
      lands a h t d (Commit b acts) (t ++ [{| tc_actions := acts; tc_rows := mjoin (rows <$> b) |}]) d
  | commit_fails b acts e : an_commit a = Err e → lands a h t d (Commit b acts) t d.

Inductive all_land (a : Answers) (h : option Version)
    : list TargetCommit → Rejects → list Write → list TargetCommit → Rejects → Prop :=
  | none_left t d : all_land a h t d [] t d
  | next_lands t d w ws t1 d1 t2 d2 :
      lands a h t d w t1 d1 → all_land a h t1 d1 ws t2 d2 → all_land a h t d (w :: ws) t2 d2.

(** ** Processes *)

Record World := {
  w_target : list TargetCommit;
  w_rejects : Rejects;
  w_procs : gmap nat Pipeline;
}.

Inductive step (w : World) : World → Prop :=
  (** A process opens, or opens again, on a snapshot of the target. *)
  | opens i (t : Tables (V := V) (Bytes := Bytes) (Schema := Schema)) rfc3339 preflight open_dq v p :
      (v < length (w_target w))%nat → target_version t = Some (Z.of_nat v) →
      stored_txn t = Ok (newest_txn (take (S v) (w_target w))) → serves (source_log t) L →
      open_delta parse_timestamp_micros parse_stats json_of config t rfc3339 preflight
        open_dq = Ok p →
      step w {| w_target := w_target w; w_rejects := w_rejects w;
                w_procs := <[i := p]> (w_procs w) |}
  | dies i :
      step w {| w_target := w_target w; w_rejects := w_rejects w;
                w_procs := delete i (w_procs w) |}
  (** A process steps; one that fails is dropped, as its supervisor opens it again. *)
  | steps i p (S : LogStore Bytes Schema) budget scan available a p' ws r t d :
      w_procs w !! i = Some p → serves S L →
      (∀ b l, scan b = Ok l → l = contents b) →
      step_delta json_of apply_isolating coerce_quarantining coerce columns_present_in
        get_array_memory_size scan available S budget a p = (p', ws, r) →
      all_land a (target p) (w_target w) (w_rejects w) ws t d →
      step w {| w_target := t; w_rejects := d;
                w_procs := match r with
                           | Some (Ok _) => <[i := p']> (w_procs w)
                           | _ => delete i (w_procs w)
                           end |}
  | others c :
      is_ours c = false →
      step w {| w_target := w_target w ++ [c]; w_rejects := w_rejects w; w_procs := w_procs w |}.

(** ** What a commit of ours holds *)

(** [c] holds what the files of one stretch of the source came to; what of them was set aside
    is in the data-quality table. *)
Definition made_of (d : Rejects) (c : TargetCommit) (stretch : list (Version * Add)) : Prop :=
  ∃ (b : LogBatch Schema) p l tr pr n,
    stretch = zip (file_versions b) (files b) ∧ files b ≠ [] ∧
    cfg p = config ∧ cutoff p = None ∧
    prepare p {| b_through := through_version b; b_files := Z.of_nat (length (files b));
                 input := contents b; lookups := l; transitions := tr; b_start := start b; b_end := end_ b |} =
      Ok pr ∧
    tc_rows c = mjoin (rows <$> pr_batches pr) ∧ txn_in (tc_actions c) = Some n ∧
    (0 < total_len (pr_rejects pr) → ∃ rj, (rj, n) ∈ d).

(** Where the pipeline resumes after these commits. *)
Definition position (t : list TargetCommit) : StreamCursor :=
  match newest_txn t with
  | Some n => at_version (n + 1)
  | None => at_version (cfg_starting_version config)
  end.

Definition before (c : StreamCursor) : list (Version * Add) := upto L (change_policy config) c.

Definition initial (w : World) : Prop :=
  Forall (λ c, is_ours c = false) (w_target w) ∧ w_procs w = ∅.

(** ** The offset in the target's commits *)

Lemma find_map_none {A B} (f : A → option B) l : find_map f l = None ↔ ∀ x, x ∈ l → f x = None.
Proof.
  induction l as [|x l IH]; simpl; [split; [intros _ x Hx; by apply elem_of_nil in Hx|done]|].
  destruct (f x) eqn:E.
  - split; [done|]. intros H. rewrite H in E by left. done.
  - rewrite IH. split.
    + intros H y [->|Hy]%elem_of_cons; [done|by apply H].
    + intros H y Hy. apply H. by right.
Qed.

Lemma find_map_app {A B} (f : A → option B) l l' :
  find_map f (l ++ l') = match find_map f l with Some b => Some b | None => find_map f l' end.
Proof. induction l as [|x l IH]; simpl; [done|]. by destruct (f x). Qed.

Lemma not_ours_txn c : is_ours c = false → txn_in (tc_actions c) = None.
Proof.
  intros H. apply find_map_none. intros a Ha. destruct a; try done.
  destruct (decide _) as [->|]; [|done]. apply not_true_iff_false in H. exfalso. apply H.
  apply existsb_exists. eexists. split; [by apply list_elem_of_In|]. simpl.
  by apply bool_decide_eq_true.
Qed.

Lemma newest_txn_app t u :
  newest_txn (t ++ u) = match newest_txn u with Some n => Some n | None => newest_txn t end.
Proof. unfold newest_txn. by rewrite rev_app_distr, find_map_app. Qed.

Lemma newest_txn_none t : Forall (λ c, is_ours c = false) t → newest_txn t = None.
Proof.
  intros H. apply find_map_none. intros c Hc%list_elem_of_In%in_rev.
  apply not_ours_txn. rewrite Forall_forall in H. by apply H, list_elem_of_In.
Qed.

Lemma newest_txn_unmoved v t :
  Forall (λ c, is_ours c = false) (drop v t) → newest_txn t = newest_txn (take v t).
Proof. intros H. rewrite <-(take_drop v t) at 1. by rewrite newest_txn_app, newest_txn_none. Qed.

Lemma newest_txn_in t n : newest_txn t = Some n → ∃ c, c ∈ t ∧ txn_in (tc_actions c) = Some n.
Proof.
  unfold newest_txn. intros H. assert (Hx : ∃ c, c ∈ rev t ∧ txn_in (tc_actions c) = Some n).
  { revert H. induction (rev t) as [|c l IH]; simpl; [done|].
    destruct (txn_in (tc_actions c)) eqn:E.
    - intros [= ->]. exists c. split; [by left|done].
    - intros H. destruct (IH H) as (c' & Hc & H'). exists c'. split; [by right|done]. }
  destruct Hx as (c & Hc & Hn). exists c. split; [|done].
  apply list_elem_of_In, in_rev, list_elem_of_In. done.
Qed.

Lemma properties_txn s n : sink_app_id s = cfg_app_id config → txn_in (properties s n) = Some n.
Proof. intros E. unfold properties, txn_in. simpl. by rewrite E, decide_True. Qed.

Lemma properties_ours s n r :
  sink_app_id s = cfg_app_id config → is_ours {| tc_actions := properties s n; tc_rows := r |} = true.
Proof. intros E. unfold is_ours, properties, carries_txn. simpl. by rewrite E, bool_decide_eq_true_2. Qed.

(** ** One process *)

(** The configuration the theorem is about. *)
Record exact : Prop := {
  e_ts : dedup_timestamp config = None;
  e_uri : watermark_uri config = None;
  e_append : is_upsert config = false;
  e_start : in_u64 (cfg_starting_version config);
}.
Context (He : exact).

(** A live process: it reads on from where its own snapshot of the target ends. *)
Record live (t : list TargetCommit) (p : Pipeline) : Prop := {
  l_cfg : cfg p = config;
  l_cutoff : cutoff p = None;
  l_app : sink_app_id (sink p) = cfg_app_id config;
  l_wf : wf (cursor (stream p));
  l_whole : index (cursor (stream p)) = 0;
  l_splitting : allow_commit_splitting (stream p) = false;
  l_policy : policy (stream p) = change_policy config;
  l_files : 1 ≤ max_files_per_batch (stream p);
  l_target : ∃ v, target p = Some (Z.of_nat v) ∧ (v < length t)%nat ∧
    before (cursor (stream p)) = before (position (take (S v) t));
}.

Definition small_txns (t : list TargetCommit) : Prop :=
  ∀ c n, c ∈ t → txn_in (tc_actions c) = Some n → 0 ≤ n ≤ i64_max.

Lemma live_app t u p : live t p → live (t ++ u) p.
Proof.
  intros [H1 H2 H3 H4 H5 H6 H7 H8 (v & Hv & Hl & Hb)]. split; try done.
  exists v. split; [done|]. split; [rewrite length_app; lia|]. by rewrite take_app_le by lia.
Qed.

Lemma open_live i t (tables : Tables (V := V) (Bytes := Bytes) (Schema := Schema)) rfc
    preflight open_dq v p :
  (i < length t)%nat → small_txns t → target_version tables = Some (Z.of_nat i) → v = i →
  stored_txn tables = Ok (newest_txn (take (S v) t)) →
  open_delta parse_timestamp_micros parse_stats json_of config tables rfc preflight open_dq
    = Ok p →
  live t p.
Proof.
  intros Hi Hsmall Hver -> Hstored. unfold open_delta.
  destruct (our_last_commit _ _ _ _) as [ours|]; [|done].
  destruct (validate_lookup_tables _ _ _ _ _) as [validated|]; [|done].
  assert (Hresume : ∃ c b, resume_cursor parse_timestamp_micros parse_stats json_of config tables =
    Ok {| r_cursor := position (take (S i) t); bootstrapping := b; rebuilt := None; committed := c |}).
  { unfold resume_cursor, last_committed_version. rewrite Hstored, (e_ts He), (e_uri He).
    unfold position. destruct (newest_txn (take (S i) t)) as [n|] eqn:En; [|by do 2 eexists].
    apply newest_txn_in in En as (c & Hc & Hn).
    assert (Hr : 0 ≤ n ≤ i64_max)
      by (eapply Hsmall; [eapply elem_of_sublist; [exact Hc|apply sublist_take]|exact Hn]).
    destruct (Z.ltb_spec n 0); [lia|]. rewrite (u64_small n) by width_lia.
    rewrite u64_small by width_lia. by do 2 eexists. }
  destruct Hresume as (c & b & ->).
  destruct (adjust_for_replaced_source _ _ _ _) as [rep|] eqn:Ea; [|done].
  assert (rep = None) as ->.
  { unfold adjust_for_replaced_source in Ea. rewrite (e_ts He) in Ea.
    destruct (match _ with true => _ | false => _ end) as [different|]; [|done].
    destruct (negb different && _); [by injection Ea|done]. }
  cbn [r_cursor bootstrapping default]. destruct (if b then _ else _) as [|]; [|done].
  rewrite (e_ts He). unfold coverage_cutoff. rewrite (e_ts He), (e_append He).
  destruct open_dq as [has|]; [|done]. intros [= <-].
  assert (Hpos : wf (position (take (S i) t)) ∧ index (position (take (S i) t)) = 0).
  { unfold position. destruct (newest_txn _) as [n|] eqn:En.
    - apply newest_txn_in in En as (c' & Hc & Hn).
      assert (Hr : 0 ≤ n ≤ i64_max)
        by (eapply Hsmall; [eapply elem_of_sublist; [exact Hc|apply sublist_take]|exact Hn]).
      split; [|done]. apply wf_at_version. width_lia.
    - split; [|done]. apply wf_at_version, (e_start He). }
  destruct Hpos. split; try done.
  - unfold open_stream. simpl. lia.
  - exists i. split; [done|]. split; [done|]. done.
Qed.

(** What one step of a live process does. *)
Inductive stepped (t : list TargetCommit) (a : Answers) (p p' : Pipeline)
    : list Write → option (result Error StepOutcome) → Prop :=
  | no_write r : (∀ o, r = Some (Ok o) → live t p') → stepped t a p p' [] r
  | rejects_only rj n r : (∀ o, r ≠ Some (Ok o)) → stepped t a p p' [WriteRejects rj n] r
  | committed_batch (b : LogBatch Schema) q l tr pr n s bs ws r :
      before (end_ b) = before (cursor (stream p)) ++ zip (file_versions b) (files b) →
      files b ≠ [] → end_ b = at_version (n + 1) → 0 ≤ n ≤ i64_max →
      cfg q = config → cutoff q = None →
      prepare q {| b_through := through_version b; b_files := Z.of_nat (length (files b));
                   input := contents b; lookups := l; transitions := tr; b_start := start b; b_end := end_ b |} =
        Ok pr →
      mjoin (rows <$> bs) = mjoin (rows <$> pr_batches pr) →
      sink_app_id s = cfg_app_id config →
      (ws = [] ∧ total_len (pr_rejects pr) ≤ 0 ∨
       ws = [WriteRejects (pr_rejects pr) n] ∧ ∃ k, an_rejects a = Ok k) →
      (∀ o, r = Some (Ok o) → ∃ v m, an_commit a = Ok (v, m) ∧
        ∀ k t', v = Z.of_nat k → (k < length t')%nat →
          before (position (take (S k) t')) = before (end_ b) → live t' p') →
      stepped t a p p' (ws ++ [Commit bs (properties s n)]) r.

Lemma retire_none (p : Pipeline) : cutoff p = None → retire_cutoff_if_read_through p = (p, false).
Proof. intros H. unfold retire_cutoff_if_read_through, cut_through. by rewrite H. Qed.

Lemma settle_none c n (p : Pipeline) :
  cutoff p = None → settle_cutoff c n p = with_cutoff None p.
Proof. intros H. unfold settle_cutoff, retire. rewrite H. simpl. by destruct (bool_decide _). Qed.

Lemma process_stepped t a (p0 p : Pipeline) (b : LogBatch Schema) l tr p' ws r :
  cfg p = config → cutoff p = None → sink_app_id (sink p) = cfg_app_id config →
  before (end_ b) = before (cursor (stream p0)) ++ zip (file_versions b) (files b) →
  files b ≠ [] → cursor (stream p) = end_ b → wf (end_ b) →
  (∀ k t' q, stream q = stream p → cfg q = config → cutoff q = None →
     sink_app_id (sink q) = cfg_app_id config → target q = Some (Z.of_nat k) →
     (k < length t')%nat → before (position (take (S k) t')) = before (end_ b) → live t' q) →
  process json_of apply_isolating coerce_quarantining coerce columns_present_in p a
    {| b_through := through_version b; b_files := Z.of_nat (length (files b));
       input := contents b; lookups := l; transitions := tr; b_start := start b; b_end := end_ b |} = (p', ws, r) →
  stepped t a p0 p' ws (Some r).
Proof.
  intros Hcfg Hcut Happ Hb Hne Hcur Hwf Hlive. unfold process.
  destruct (prepare p _) as [pr|e] eqn:Hpr.
  2: { intros [= <- <- <-]. by constructor. }
  rewrite Hcut. cbn [b_end fmap option_fmap option_map with_sink sink cfg set_cutoff].
  destruct (txn_version_for (end_ b)) as [n|e] eqn:Hn.
  2: { intros [= <- <- <-]. by constructor. }
  apply txn_version_for_ok in Hn as (Hi & Hv & Hrange). specialize (Hrange ltac:(apply Hwf)).
  assert (Hend : end_ b = at_version (n + 1)) by (destruct (end_ b); simpl in *; by subst).
  unfold write_rejects. cbn [dq with_sink]. rewrite Hcfg, (e_append He).
  set (write := if bool_decide (pr_batches pr = []) then _ else _).
  assert (Hw : ∃ bs, write = Commit bs (properties (set_cutoff None (sink p)) n) ∧
    mjoin (rows <$> bs) = mjoin (rows <$> pr_batches pr)).
  { unfold write. case_bool_decide as E; [rewrite E|]; by eexists. }
  destruct Hw as (bs & -> & Hbs).
  assert (Hstep : ∀ ws0 (f : Pipeline → Z → StepOutcome),
    (ws0 = [] ∧ total_len (pr_rejects pr) ≤ 0 ∨
     ws0 = [WriteRejects (pr_rejects pr) n] ∧ ∃ k, an_rejects a = Ok k) →
    (match landed a (with_sink (set_cutoff None (sink p)) p) with
     | (q, Err e) => (q, ws0 ++ [Commit bs (properties (set_cutoff None (sink p)) n)], Err e)
     | (q, Ok merged) =>
         (settle_cutoff None (pr_covered pr) (acknowledge_lookup_table_id_transitions tr q),
          ws0 ++ [Commit bs (properties (set_cutoff None (sink p)) n)], Ok (f q merged))
     end) = (p', ws, r) → stepped t a p0 p' ws (Some r)).
  { intros ws0 f Hws0. destruct (landed a _) as [q [merged|e]] eqn:El; intros [= <- <- <-].
    - eapply (committed_batch t a p0 _ b p l tr pr n); try done. intros o _.
      unfold landed in El. destruct (an_commit a) as [[v m]|e] eqn:Ea.
      2: { by destruct (an_reopen a); injection El. }
      injection El as <- <-. exists v, m. split; [done|]. intros k t' -> Hk Hpos.
      rewrite settle_none by done. by apply (Hlive k).
    - eapply (committed_batch t a p0 _ b p l tr pr n); try done. }
  destruct (Z.ltb_spec 0 (total_len (pr_rejects pr))) as [Hrj|Hrj].
  - destruct (dq p); [|intros [= <- <- <-]; by constructor].
    destruct (an_rejects a) as [k|e] eqn:Er.
    + intros H. eapply (Hstep [WriteRejects (pr_rejects pr) n]); [|exact H].
      right. split; [done|by exists k].
    + intros [= <- <- <-]. by constructor.
  - intros H. eapply (Hstep []); [by left|exact H].
Qed.

Lemma step_stepped t a (p p' : Pipeline) (S : LogStore Bytes Schema) budget scan available ws r :
  live t p → serves S L → (∀ b l, scan b = Ok l → l = contents b) →
  step_delta json_of apply_isolating coerce_quarantining coerce columns_present_in
    get_array_memory_size scan available S budget a p = (p', ws, r) →
  stepped t a p p' ws r.
Proof.
  intros [Hcfg Hcut Happ Hwf Hi Hsp Hpol Hmf (v & Hv & Hl & Hb)] HS Hscan. unfold step_delta.
  rewrite retire_none by done. unfold pull.
  destruct (next_batch S budget (stream p)) as [s' [[[b|]|e]|]] eqn:Hnb.
  - pose proof (next_batch_step S L budget (stream p) s' (Some b) HS Hwf Hmf Hnb)
      as (Hf & Hwf' & Hw & Hs & He' & Hne & Hu). specialize (Hw Hsp Hi). rewrite Hpol in Hu.
    destruct (lookup_snapshots _ _ _ _) as [[l tr]|e]; [|intros [= <- <- <-]; by constructor].
    destruct (scan b) as [inp|e] eqn:Esc; [|intros [= <- <- <-]; by constructor].
    apply Hscan in Esc as ->.
    set (q := with_stream (set_amplification _ _) _).
    destruct (process _ _ _ _ _ q a _) as [[q' ws'] r'] eqn:Hp. intros [= <- <- <-].
    assert (Hst : stream q = set_amplification (amplification (stream q)) s')
      by (unfold q; simpl; by destruct s').
    assert (Hkeep : cursor (stream q) = end_ b ∧
      allow_commit_splitting (stream q) = false ∧ policy (stream q) = change_policy config ∧
      1 ≤ max_files_per_batch (stream q)).
    { destruct Hf as [Hf1 Hf2 _ Hf4 Hf5 _ _]. rewrite Hst, He'. generalize (amplification (stream q)). intros amp. clear Hst Hp.
      destruct s'. simpl in *. rewrite Hf2, Hf4, Hf5. destruct (stream p). by simpl in *. }
    destruct Hkeep as (Hc & Hsp' & Hpol' & Hmf').
    eapply (process_stepped t a p q b l tr); [done|done|done| |done|done|by rewrite He'| |exact Hp].
    + by rewrite <-Hs.
    + intros k t' z Ez Hz1 Hz2 Hz3 Hz4 Hk Hpos.
      split; rewrite ?Ez, ?Hc; [done|done|done|by rewrite He'|by rewrite He'|done|done|done|].
      exists k. split; [done|]. split; [done|]. by rewrite Hpos.
  - pose proof (next_batch_step S L budget (stream p) s' None HS Hwf Hmf Hnb)
      as (Hf & Hwf' & Hw & Hu). specialize (Hw Hsp Hi). rewrite Hpol in Hu.
    rewrite retire_none by done. intros [= <- <- <-]. constructor. intros o _.
    destruct Hf as [Hf1 Hf2 _ Hf4 Hf5 _ _].
    split; cbn [with_stream cfg stream sink cutoff target]; try done.
    + by rewrite Hf5; destruct (stream p).
    + by rewrite Hf4; destruct (stream p).
    + by rewrite Hf2; destruct (stream p).
    + exists v. split; [done|]. split; [done|]. by unfold before; rewrite Hu.
  - intros [= <- <- <-]. by constructor.
  - intros [= <- <- <-]. by constructor.
Qed.

(** ** The world *)

Definition ours (t : list TargetCommit) : list TargetCommit := List.filter is_ours t.

(** The invariant: what our commits hold is the history up to where the newest of them ends,
    and every live process reads on from where its snapshot ends. *)
Record inv (w : World) : Prop := {
  i_made : ∃ stretches, Forall2 (made_of (w_rejects w)) (ours (w_target w)) stretches ∧
    before (at_version (cfg_starting_version config)) ++ mjoin stretches =
    before (position (w_target w));
  i_small : small_txns (w_target w);
  i_live i p : w_procs w !! i = Some p → live (w_target w) p;
}.

Lemma made_of_mono d d' c st : (∀ x, x ∈ d → x ∈ d') → made_of d c st → made_of d' c st.
Proof.
  intros Hd (b & p & l & tr & pr & n & H1 & H2 & H3 & H4 & H5 & H6 & H7 & H8).
  exists b, p, l, tr, pr, n. repeat (split; [done|]). intros H.
  destruct (H8 H) as (rj & Hr). exists rj. by apply Hd.
Qed.

Lemma made_all_mono d d' cs sts :
  (∀ x, x ∈ d → x ∈ d') → Forall2 (made_of d) cs sts → Forall2 (made_of d') cs sts.
Proof. intros Hd H. eapply Forall2_impl; [exact H|]. intros. by eapply made_of_mono. Qed.

Lemma ours_app t u : ours (t ++ u) = ours t ++ ours u.
Proof. apply List.filter_app. Qed.

Lemma inv_initial w : initial w → inv w.
Proof.
  intros [Hn Hp]. split.
  - exists []. unfold ours. assert (List.filter is_ours (w_target w) = []) as ->.
    { induction Hn as [|c l Hc _ IH]; simpl; [done|]. by rewrite Hc. }
    split; [constructor|]. unfold position. rewrite newest_txn_none by done. by rewrite app_nil_r.
  - intros c n Hc Ht. rewrite Forall_forall in Hn. by rewrite not_ours_txn in Ht by (by apply Hn).
  - rewrite Hp. intros i p H. by rewrite lookup_empty in H.
Qed.

Lemma inv_others w c :
  is_ours c = false → inv w →
  inv {| w_target := w_target w ++ [c]; w_rejects := w_rejects w; w_procs := w_procs w |}.
Proof.
  intros Hc [(st & H1 & H2) H3 H4]. split; simpl.
  - exists st. rewrite ours_app. unfold ours at 2. simpl. rewrite Hc, app_nil_r. split; [done|].
    rewrite H2. unfold position. rewrite newest_txn_app, (newest_txn_none [c]); [done|by constructor].
  - intros c' n [Hin|E%list_elem_of_singleton]%elem_of_app Ht; [by eapply H3|].
    subst c'. by rewrite not_ours_txn in Ht.
  - intros i p Hp. by apply live_app, (H4 i).
Qed.

(** How writes land: the rejects only grow, and at most one commit of ours is added. *)
Lemma lands_rejects a h t d rj n t' d' :
  lands a h t d (WriteRejects rj n) t' d' →
  t' = t ∧ (∀ x, x ∈ d → x ∈ d') ∧ (∀ k, an_rejects a = Ok k → ∃ rj', (rj', n) ∈ d').
Proof.
  intros H. inversion H; subst; (split; [done|]).
  - split; [intros x Hx; apply elem_of_app; by left|]. intros k _. exists rj.
    apply elem_of_app. right. by left.
  - split; [done|]. intros k' _. by eexists.
  - split; [done|]. congruence.
  - split; [intros x Hx; apply elem_of_app; by left|]. congruence.
Qed.

(** The invariant after a commit of ours that landed. *)
Lemma inv_landed w p (b : LogBatch Schema) q l tr pr n s bs v d :
  inv w → live (w_target w) p → target p = Some (Z.of_nat v) →
  Forall (λ c, is_ours c = false) (drop (S v) (w_target w)) →
  before (end_ b) = before (cursor (stream p)) ++ zip (file_versions b) (files b) →
  files b ≠ [] → end_ b = at_version (n + 1) → 0 ≤ n ≤ i64_max → cfg q = config → cutoff q = None →
  prepare q {| b_through := through_version b; b_files := Z.of_nat (length (files b));
               input := contents b; lookups := l; transitions := tr; b_start := start b; b_end := end_ b |} = Ok pr →
  mjoin (rows <$> bs) = mjoin (rows <$> pr_batches pr) → sink_app_id s = cfg_app_id config →
  (∀ x, x ∈ w_rejects w → x ∈ d) →
  (0 < total_len (pr_rejects pr) → ∃ rj, (rj, n) ∈ d) →
  let c := {| tc_actions := properties s n; tc_rows := mjoin (rows <$> bs) |} in
  inv {| w_target := w_target w ++ [c]; w_rejects := d; w_procs := w_procs w |} ∧
  position (w_target w ++ [c]) = end_ b.
Proof.
  intros [(st & H1 & H2) H3 H4] Hlive Hv Hnone Hb Hne Hend Hn Hq1 Hq2 Hpr Hbs Hs Hd Hrj c.
  assert (Hpos : position (w_target w ++ [c]) = end_ b).
  { unfold position. rewrite newest_txn_app. unfold newest_txn at 1. simpl. by rewrite properties_txn. }
  split; [|done]. split; simpl.
  - exists (st ++ [zip (file_versions b) (files b)]). rewrite ours_app. split.
    + apply Forall2_app; [by eapply made_all_mono|]. unfold ours. cbn [List.filter].
      unfold c at 1. rewrite properties_ours by done. constructor; [|constructor].
      exists b, q, l, tr, pr, n. split; [done|]. split; [done|]. split; [done|]. split; [done|].
      split; [done|]. split; [done|]. split; [by apply properties_txn|done].
    + rewrite join_app, app_assoc, H2, Hpos, Hb. simpl. rewrite app_nil_r. f_equal.
      destruct (l_target _ _ Hlive) as (v' & Hv' & _ & Hcur). rewrite Hv in Hv'.
      injection Hv' as E. apply Nat2Z.inj in E as <-. rewrite Hcur. unfold position.
      by rewrite (newest_txn_unmoved (S v)).
  - intros c' n' [Hin|E%list_elem_of_singleton]%elem_of_app Ht; [by eapply H3|].
    subst c'. simpl in Ht. rewrite properties_txn in Ht by done. by injection Ht as <-.
  - intros i p' Hp'. by apply live_app, (H4 i).
Qed.

(** The invariant of what a step leaves, from the invariant of the tables it leaves. *)
Lemma inv_procs t d procs i p' (r : option (result Error StepOutcome)) :
  inv {| w_target := t; w_rejects := d; w_procs := procs |} →
  (∀ o, r = Some (Ok o) → live t p') →
  inv {| w_target := t; w_rejects := d;
         w_procs := match r with Some (Ok _) => <[i := p']> procs | _ => delete i procs end |}.
Proof.
  intros [H1 H2 H3] Hp. split; [done|done|]. intros j q. simpl in *.
  destruct r as [[o|e]|].
  - intros [[<- <-]|[_ Hj]]%lookup_insert_Some; [by eapply Hp|by eapply H3].
  - intros [_ Hj]%lookup_delete_Some. by eapply H3.
  - intros [_ Hj]%lookup_delete_Some. by eapply H3.
Qed.

Lemma inv_rejects w d :
  inv w → (∀ x, x ∈ w_rejects w → x ∈ d) →
  inv {| w_target := w_target w; w_rejects := d; w_procs := w_procs w |}.
Proof.
  intros [(st & H1 & H2) H3 H4] Hd. split; simpl; [|done|done]. exists st. split; [|done].
  by eapply made_all_mono.
Qed.

Lemma inv_step w w' : inv w → step w w' → inv w'.
Proof.
  intros Hinv Hstep. inversion Hstep as [i t rfc pre odq v p Hv Hver Hst Hs Ho|i|
    i p S0 budget scan available a p' ws r t d Hp HS Hscan Hdelta Hall|c Hc]; subst.
  - destruct Hinv as [H1 H2 H3]. split; [done|done|]. simpl. intros j q.
    intros [[<- <-]|[_ Hj]]%lookup_insert_Some; [|by eapply H3].
    by eapply (open_live v); [..|exact Ho].
  - destruct Hinv as [H1 H2 H3]. split; [done|done|]. simpl. intros j q [_ Hj]%lookup_delete_Some.
    by eapply H3.
  - pose proof (i_live w Hinv i p Hp) as Hlive.
    pose proof (step_stepped _ _ _ _ _ _ _ _ _ _ Hlive HS Hscan Hdelta) as Hd.
    destruct w as [tg rj procs]. simpl in *. destruct Hd as
      [r Hr|rj' n r Hr|b q l tr pr n s bs ws r Hb Hne Hend Hn Hq1 Hq2 Hpr Hbs Hs Hws Hr].
    + inversion Hall; subst. apply inv_procs; [done|exact Hr].
    + inversion Hall as [|? ? ? ? t1 d1 ? ? Hl Hrest]; subst. inversion Hrest; subst.
      apply lands_rejects in Hl as (-> & Hmono & _).
      apply inv_procs; [by apply (inv_rejects {| w_target := tg; w_rejects := rj; w_procs := procs |})|].
      intros o E. by destruct (Hr o).
    + assert (Hone : ∃ d1, (∀ x, x ∈ rj → x ∈ d1) ∧
        (0 < total_len (pr_rejects pr) → ∃ rj', (rj', n) ∈ d1) ∧
        all_land a (target p) tg d1 [Commit bs (properties s n)] t d).
      { destruct Hws as [[-> Hz]|[-> (k & Hk)]].
        - exists rj. split; [done|]. split; [lia|done].
        - simpl in Hall. inversion Hall as [|? ? ? ? t1 d1 ? ? Hl Hrest]; subst.
          apply lands_rejects in Hl as (-> & Hmono & Hrec). exists d1. split; [done|].
          split; [intros _; by eapply Hrec|done]. }
      destruct Hone as (d1 & Hmono & Hrec & Hcommit). clear Hall Hws.
      inversion Hcommit as [|? ? ? ? t1 d2 ? ? Hl Hrest]; subst. inversion Hrest; subst.
      set (w0 := {| w_target := tg; w_rejects := rj; w_procs := procs |}) in *.
      inversion Hl; subst.
      * destruct (inv_landed w0 p b q l tr pr n s bs v d Hinv Hlive) as [Hi Hpos]; try done.
        apply inv_procs; [exact Hi|]. intros o E. destruct (Hr o E) as (v' & m & Hv' & Hlv).
        assert (v' = Z.of_nat (length tg)) as -> by congruence.
        eapply (Hlv (length tg)); [done| |].
        -- rewrite length_app. simpl. lia.
        -- rewrite take_ge by (rewrite length_app; simpl; lia). exact (f_equal before Hpos).
      * destruct (inv_landed w0 p b q l tr pr n s bs v d Hinv Hlive) as [Hi Hpos]; try done.
        apply inv_procs; [exact Hi|]. intros o E. destruct (Hr o E) as (v' & m & Hv' & _). congruence.
      * apply inv_procs; [by apply (inv_rejects w0)|].
        intros o E. destruct (Hr o E) as (v' & m & Hv' & _). congruence.
  - by apply inv_others.
Qed.

Lemma inv_reachable w w' : inv w → rtc step w w' → inv w'.
Proof. intros H Hr. induction Hr as [|x y z Hs _ IH]; [done|]. by eapply IH, inv_step. Qed.
End World.

(** ** Properties *)


Module DeltaDemo.
Definition config : ResolvedPipeline :=
  {| cfg_app_id := "orders"; cfg_starting_version := 0; cfg_source_uri := "lake/orders";
     watermark_uri := None; dedup_timestamp := None; dedup_key := None; dedup_partition := [];
     is_upsert := false; staging := false; change_policy := FailOnChange;
     cfg_max_files_per_batch := 3; cfg_max_bytes_per_batch := 1000; cfg_lookups := [];
     max_evaluation_rejects_per_batch := 10 |}.

Definition no_time (_ : string) : option Z := None.
Definition no_stats (_ : string) : option FileStats := None.
Definition join (l : list string) : string := String.concat "," l.
Definition no_lookup (_ : ResolvedLookup) (_ : Z) : result Error LookupSnapshots :=
  Err (Other "no lookup").
(** The transform as it is, but for rows of 20: those cannot be evaluated. *)
Definition apply (input : list (RecordBatch Z)) (_ : list LookupSnapshot) (_ : Z)
    : result Error (Isolated (V := Z)) :=
  let bad (r : Row Z) := bool_decide (r !! "v" = Some 20) in
  Ok {| output := (λ b, {| schema := schema b; rows := List.filter (λ r, negb (bad r)) (rows b) |})
                    <$> input;
        unevaluable := match mjoin ((λ b, List.filter bad (rows b)) <$> input) with
                       | [] => None
                       | l => Some {| rj_rows := {| schema := ["v"%string]; rows := l |};
                                       rj_reasons := replicate (length l) "twenty"%string;
                                       rj_columns := replicate (length l) None |}
                       end;
        reevaluations := 1 |}.
Definition quarantine (b : RecordBatch Z) : result Error (RecordBatch Z * option (Rejected Z)) :=
  Ok (b, None).
Definition strict (b : RecordBatch Z) : result Error (RecordBatch Z) := Ok b.
Definition present (b : RecordBatch Z) : list string := schema b.
Definition memory (_ : RecordBatch Z) : Z := 8.
(** One row per file: its size. *)
Definition contents (b : LogBatch unit) : list (RecordBatch Z) :=
  [{| schema := ["v"]; rows := (λ a, {[ "v" := size a ]} : Row Z) <$> files b |}].

Definition created : TargetCommit (V := Z) := {| tc_actions := [A_Other]; tc_rows := [] |}.
Definition target_store : LogStore (list Action) unit := {|
  get_latest_version := λ _, Ok 0;
  read_commit_entry := λ v, Ok (if v =? 0 then Some [A_Other] else None);
  get_actions := λ _ raw, Ok raw;
  log_state := λ _, Err D_NotFound;
  last_modified := λ _, None;
|}.
Definition tables : Tables (V := Z) (Bytes := list Action) (Schema := unit) := {|
  source_log := Demo.store; source_version := Some 3; source_id := Some "id";
  source_columns := ["v"]; source_partitioned := [];
  source_file := λ _, Err (Other "not read"); source_listing := Ok [];
  target_log := target_store; target_id := Some "target"; lookup_id := λ _, Ok None;
  target_version := Some 0; target_schema := ["v"];
  target_types := λ _, Int64; target_slack := None; target_rows := [];
  stored_txn := Ok None; watermark_rows := Ok [] |}.

Definition opened : result Error (Pipeline (V := Z) (Schema := unit)) :=
  open_delta no_time no_stats join config tables (λ _, EmptyString) (Ok tt) (Ok true).
Definition p0 : Pipeline (V := Z) (Schema := unit) :=
  Eval vm_compute in
  match opened with
  | Ok p => p
  | Err _ => {| cfg := config; stream := Demo.whole; sink := sink_new EmptyString None; cutoff := None;
                lookup_state := {| lookup_table_ids := ∅; lookup_current_on_open := ∅ |};
                dq := false; target_columns := []; target := None |}
  end.
Definition answers : Answers :=
  {| an_rejects := Ok 1; an_commit := Ok (1, 0); an_reopen := Err (Other "none") |}.
Definition one_step := step_delta join apply quarantine strict present memory
  (λ b, Ok (contents b)) no_lookup Demo.store unbounded answers p0.
Definition p1 : Pipeline (V := Z) (Schema := unit) := Eval vm_compute in one_step.1.1.
Definition written : list (Write (V := Z)) := Eval vm_compute in one_step.1.2.
Definition outcome := Eval vm_compute in one_step.2.

Definition w0 : World (V := Z) (Schema := unit) :=
  {| w_target := [created]; w_rejects := []; w_procs := ∅ |}.
Definition w1 : World (V := Z) (Schema := unit) :=
  {| w_target := [created]; w_rejects := []; w_procs := {[ 0%nat := p0 ]} |}.
Definition ours_landed : TargetCommit (V := Z) :=
  match written with
  | [_; Commit b acts] => {| tc_actions := acts; tc_rows := mjoin (rows <$> b) |}
  | _ => created
  end.
Definition rejects : list (list (Rejected Z) * Z) :=
  match written with [WriteRejects rj n; _] => [(rj, n)] | _ => [] end.
Definition w2 : World (V := Z) (Schema := unit) :=
  {| w_target := [created; ours_landed]; w_rejects := rejects; w_procs := {[ 0%nat := p1 ]} |}.

Example rows_landed : (tc_rows ours_landed, length rejects) = ([{[ "v" := 10 ]}; {[ "v" := 30 ]}], 1%nat).
Proof. vm_compute. reflexivity. Qed.

Definition reaches := step (Bytes := list Action) no_time no_stats join apply quarantine strict
  present memory Demo.log contents config.

Lemma opens_0 : reaches w0 w1.
Proof.
  apply (opens no_time no_stats join apply quarantine strict present memory Demo.log contents config
    w0 0%nat tables (λ _, EmptyString) (Ok tt) (Ok true) 0%nat p0).
  - simpl. lia.
  - reflexivity.
  - vm_compute. reflexivity.
  - exact Demo.store_serves.
  - vm_compute. reflexivity.
Qed.

Lemma steps_0 : reaches w1 w2.
Proof.
  apply (steps no_time no_stats join apply quarantine strict present memory Demo.log contents config
    w1 0%nat p0 Demo.store unbounded (λ b, Ok (contents b)) no_lookup answers p1 written outcome
    [created; ours_landed] rejects).
  - reflexivity.
  - exact Demo.store_serves.
  - intros b l. congruence.
  - vm_compute. reflexivity.
  - unfold written, rejects, ours_landed.
    eapply next_lands; [apply rejects_written|]. eapply next_lands; [|apply none_left].
    apply (commit_lands config answers (target p0) (w_target w1) _ _ _ 0%nat 0);
      [reflexivity|constructor|reflexivity].
Qed.
End DeltaDemo.

