(* ===== verification/DeltaWindow.v ===== *)
(** * DeltaWindow: a coverage window survives a restart (src/pipeline.rs, src/sink.rs)

    Inside a coverage window a Delta pipeline records the window with every commit that leaves
    it open and nothing with the commit that closes it.  [process_window] is what this amounts
    to: after every batch, what the newest commit says of a window is what the running pipeline
    holds; so, by [a_window_survives_a_restart], the pipeline that opens next resumes that
    window, or none when it was closed.  [open_windowed] says every pipeline opens in a window
    of its configuration's form, which [process] keeps. *)

From Stdlib Require Import ZArith Lia.
From stdpp Require Import base list strings gmap.
From S2P Require Import Prelude Json Error F64 Cursor Offset Budget LogStream.
From S2P Require Import LogStreamCorrect Stats Arrow Dedup Rescan Watermark Lookup Dq Open Delta DeltaCorrect.

Open Scope Z_scope.
Open Scope ddi_scope.

(** ** What a commit's metadata says of a window *)

Lemma list_to_map_rev (l : list (string * Value)) :
  NoDup (fst <$> l) → (list_to_map (rev l) : gmap string Value) = list_to_map l.
Proof.
  intros H. symmetry. apply list_to_map_proper; [done|]. apply Permutation_rev.
Qed.

(** No other entry of the metadata has a window's key. *)
Lemma other_key k x :
  k ∈ window_keys →
  k ≠ "ddi.sourceVersion"%string ∧ k ≠ "ddi.appId"%string ∧ k ≠ "ddi.sourceTableId"%string ∧
  k ≠ SOURCE_TABLE_ID_VERSION_KEY ∧ k ≠ String.append "ddi.lookup." x.
Proof.
  unfold window_keys. intros H.
  repeat (apply elem_of_cons in H as [->|H]; [repeat split; vm_compute; discriminate|]).
  by apply elem_of_nil in H.
Qed.

Lemma append_assoc a b c : String.append (String.append a b) c = String.append a (String.append b c).
Proof. induction a as [|x a IH]; [done|]. exact (f_equal (String.String x) IH). Qed.

Lemma lookup_key l e : e ∈ lookup_metadata l → ∃ x, e.1 = String.append "ddi.lookup." x.
Proof.
  unfold lookup_metadata. intros H.
  assert (Hx : ∃ s, e.1 = String.append (String.append "ddi.lookup." (lc_name l)) s).
  { repeat (apply elem_of_app in H as [H|H]); [| |by destruct (used_pre_history l); set_solver
      |by destruct (used_current l); set_solver].
    - apply list_elem_of_singleton in H as ->. by eexists.
    - destruct (lc_table_id l); [|by apply elem_of_nil in H].
      apply list_elem_of_singleton in H as ->. by eexists. }
  destruct Hx as [s Hs]. eexists. rewrite Hs. apply append_assoc.
Qed.

(** The entries before the window's. *)
Definition provenance (s : Sink) (n : Z) : list (string * Value) :=
  metadata (set_cutoff None s) n.

Lemma metadata_split s n :
  metadata s n =
  provenance s n ++ match sink_cutoff s with Some c => to_commit_metadata c | None => [] end.
Proof. unfold provenance, metadata. simpl. rewrite app_nil_r. by rewrite <-!app_assoc. Qed.

Lemma provenance_key s n k : k ∈ window_keys → k ∉ fst <$> provenance s n.
Proof.
  intros Hk H. apply list_elem_of_fmap in H as (e & -> & He).
  destruct (other_key e.1 EmptyString Hk) as (H1 & H2 & H3 & H4 & _).
  unfold provenance, metadata in He. cbn [set_cutoff sink_cutoff] in He.
  rewrite app_nil_r in He. rewrite !elem_of_app in He.
  destruct He as [He|[He|He]].
  - repeat (apply elem_of_cons in He as [->|He]; [done|]). by apply elem_of_nil in He.
  - destruct (source_identity _) as [[v id]|]; [|by apply elem_of_nil in He].
    repeat (apply elem_of_cons in He as [->|He]; [done|]). by apply elem_of_nil in He.
  - apply list_elem_of_join in He as (l & He & Hl). apply list_elem_of_fmap in Hl as (x & -> & _).
    destruct (lookup_key x e He) as [y Hy]. by destruct (other_key e.1 y Hk) as (_ & _ & _ & _ & H5).
Qed.

Lemma window_metadata_nodup c : NoDup (fst <$> to_commit_metadata c).
Proof.
  apply (bool_decide_unpack _). destruct c as [r [t|] [|x l]]; vm_compute; exact I.
Qed.

Lemma said_of_window s n v :
  (∀ c w, sink_cutoff s = Some c → rc_source_through c = Some w → in_u64 w) →
  ours_cutoff (said_by v (properties s n)) = sink_cutoff s.
Proof.
  intros Hw. unfold said_by, properties. cbn [ours_cutoff infos omap list_omap find_map].
  assert (Hk : ∀ k, k ∈ window_keys →
    (list_to_map (rev (metadata s n)) : gmap string Value) !! k =
    (list_to_map (match sink_cutoff s with Some c => to_commit_metadata c | None => [] end)
      : gmap string Value) !! k).
  { intros k Hk. rewrite metadata_split, rev_app_distr, list_to_map_app, lookup_union.
    rewrite list_to_map_rev by (destruct (sink_cutoff s); [apply window_metadata_nodup|constructor]).
    assert (Hn : (list_to_map (rev (provenance s n)) : gmap string Value) !! k = None).
    { apply not_elem_of_list_to_map. intros H. apply (provenance_key s n k Hk).
      apply list_elem_of_fmap in H as (e & -> & He). apply list_elem_of_fmap. exists e.
      split; [done|]. by apply list_elem_of_In, in_rev, list_elem_of_In. }
    rewrite Hn. apply (right_id_L None (∪)). }
  destruct (sink_cutoff s) as [c|].
  - rewrite (read_back c); [done|intros w; by apply (Hw c w)|done].
  - assert (E : from_commit_info (list_to_map (rev (metadata s n))) = None); [|by rewrite E].
    unfold from_commit_info. rewrite (Hk CUTOFF_REASON_KEY) by (unfold window_keys; set_solver).
    by rewrite list_to_map_nil, lookup_empty.
Qed.

(** ** What a step leaves *)

Section Window.
Context {V : Type} `{!Arrow V} {Bytes Schema : Type}.
Context (parse_timestamp_micros : string → option Z) (parse_stats : string → option FileStats).
Context (json_of : list string → string).
Context (apply_isolating : list (RecordBatch V) → list LookupSnapshot → Z →
  result Error (Isolated (V := V))).
Context (coerce_quarantining :
  RecordBatch V → result Error (RecordBatch V * option (Rejected V))).
Context (coerce : RecordBatch V → result Error (RecordBatch V)).
Context (columns_present_in : RecordBatch V → list string).
Abbreviation Pipeline := (Pipeline (V := V) (Schema := Schema)).
Abbreviation Tables := (Tables (V := V) (Bytes := Bytes) (Schema := Schema)).
Abbreviation process := (process (V := V) (Schema := Schema) json_of apply_isolating
  coerce_quarantining coerce columns_present_in).

(** A pipeline's window is one its configuration opens. *)
Record windowed (p : Pipeline) : Prop := {
  wi_app : sink_app_id (sink p) = cfg_app_id (cfg p);
  wi_cut c : cutoff p = Some c →
    is_Some (dedup_timestamp (cfg p)) ∧
    partition_columns (cut_dedup c) = dedup_partition (cfg p) ∧
    ∀ h, through (window c) = Some h → in_u64 h;
}.

Definition actions_of (w : Write (V := V)) : option (list Action) :=
  match w with WriteRejects _ _ => None | Commit _ acts | Merge _ _ acts => Some acts end.

Lemma retire_cutoff (p : Pipeline) : cutoff (retire p) = None.
Proof. unfold retire. destruct (cutoff p) eqn:E; [done|exact E]. Qed.

Lemma retire_kept (p : Pipeline) : cfg (retire p) = cfg p ∧ sink (retire p) = sink p.
Proof. unfold retire. by destruct (cutoff p). Qed.

Lemma settle_kept closes n (p : Pipeline) :
  cfg (settle_cutoff closes n p) = cfg p ∧ sink (settle_cutoff closes n p) = sink p ∧
  recorded <$> cutoff (settle_cutoff closes n p) =
    (if bool_decide (closes = Some true) then None else recorded <$> cutoff p) ∧
  ∀ c', cutoff (settle_cutoff closes n p) = Some c' → ∃ c, cutoff p = Some c ∧
    window c' = window c ∧ cut_dedup c' = cut_dedup c.
Proof.
  unfold settle_cutoff. case_bool_decide.
  - destruct (retire_kept (with_cutoff ((λ c, {| cut_dedup := cut_dedup c; window := window c;
      skipped := u64 (skipped c + n) |}) <$> cutoff p) p)) as [H1 H2].
    rewrite retire_cutoff. split; [exact H1|]. split; [exact H2|]. by split.
  - simpl. split; [done|]. split; [done|]. destruct (cutoff p) as [c|]; simpl; [|by split].
    split; [done|]. intros c' [= <-]. by exists c.
Qed.

Lemma landed_kept a (p p' : Pipeline) r :
  landed a p = (p', r) → cfg p' = cfg p ∧ sink p' = sink p ∧ cutoff p' = cutoff p.
Proof.
  unfold landed. destruct (an_commit a) as [[v n]|e]; [by intros [= <- _]|].
  destruct (an_reopen a); by intros [= <- _].
Qed.

(** How a batch that is settled went: what [process] put into the sink, the handle its write
    left, and the commit. *)
Lemma process_ok (p p' : Pipeline) a b ws o :
  process p a b = (p', ws, Ok o) →
  ∃ (pr : Prepared (V := V)) n m q w,
    let closes := (λ c, window_closes_after (through (window c)) (b_end b) (pr_beyond pr))
                    <$> cutoff p in
    let sk := set_cutoff (match cutoff p, closes with
                          | Some c, Some false => Some (recorded c)
                          | _, _ => None
                          end) (sink p) in
    landed a (with_sink sk p) = (q, Ok m) ∧
    p' = settle_cutoff closes (pr_covered pr)
           (acknowledge_lookup_table_id_transitions (transitions b) q) ∧
    list.last ws = Some w ∧ actions_of w = Some (properties sk n).
Proof.
  unfold Delta.process. destruct (prepare _ _ _ _ _ _ _) as [pr|]; [|done].
  set (closes := _ <$> cutoff p). set (sk := set_cutoff _ (sink p)).
  destruct (txn_version_for (b_end b)) as [n|]; [|done].
  destruct (write_rejects _ a (pr_rejects pr) n) as [wr [[]|e]]; [|done].
  set (w := if bool_decide (pr_batches pr = []) then _ else _).
  destruct (landed a (with_sink sk p)) as [q [m|e]] eqn:El; [|done].
  intros [= <- <- _]. exists pr, n, m, q, w. split; [exact El|]. split; [done|].
  split; [apply last_snoc|]. unfold w. destruct (bool_decide _); [done|]. by destruct (is_upsert _).
Qed.

(** A batch that is settled made one commit of ours, and what it says of a window is what the
    pipeline holds after it. *)
Lemma process_window (p p' : Pipeline) a b ws o :
  windowed p → process p a b = (p', ws, Ok o) →
  windowed p' ∧ cfg p' = cfg p ∧
  ∃ w acts, list.last ws = Some w ∧ actions_of w = Some acts ∧
    carries_txn (cfg_app_id (cfg p)) acts = true ∧
    ∀ v, ours_cutoff (said_by v acts) = recorded <$> cutoff p'.
Proof.
  intros [Happ Hcut] (pr & n & m & q & w & El & -> & Hw & Hacts)%process_ok.
  set (closes := _ <$> cutoff p) in *. set (sk := set_cutoff _ (sink p)) in *.
  apply landed_kept in El as (E1 & E2 & E3).
  set (q' := acknowledge_lookup_table_id_transitions (transitions b) q).
  change (cfg q' = cfg p) in E1. change (sink q' = sk) in E2. change (cutoff q' = cutoff p) in E3.
  destruct (settle_kept closes (pr_covered pr) q') as (S1 & S2 & S3 & S4).
  split; [|split; [by rewrite S1, E1|]].
  { split.
    - rewrite S1, S2, E1, E2. exact Happ.
    - intros c' Hc'. destruct (S4 c' Hc') as (c & Hc & -> & ->). rewrite S1, E1.
      rewrite E3 in Hc. by apply Hcut. }
  exists w, (properties sk n). split; [done|]. split; [done|]. split.
  { unfold properties, carries_txn. simpl. by rewrite Happ, bool_decide_eq_true_2. }
  intros v. rewrite said_of_window.
  - rewrite S3, E3. unfold sk, closes. simpl. destruct (cutoff p) as [c|]; simpl.
    + destruct (window_closes_after _ _ _); [by rewrite bool_decide_eq_true_2|].
      by rewrite bool_decide_eq_false_2.
    + done.
  - intros c w0. unfold sk. simpl. destruct (cutoff p) as [c0|] eqn:Ec; [|done].
    destruct closes as [[]|]; [done| |done]. intros [= <-]. simpl. by apply (Hcut c0).
Qed.

(** ** What the next open makes of it *)

(** What the pipeline held, and what the next one starts with. *)
Definition carries_on (config : ResolvedPipeline)
    (t : Tables) (cursor : StreamCursor)
    (held next : option (Cutoff (V := V))) : Prop :=
  match held, next with
  | None, _ => next = None
  | Some c, Some c' =>
      window c' = {| cw_reason := cw_reason (window c); through := through (window c);
                     resumed := true |} ∧
      ∃ ts, dedup_timestamp config = Some ts ∧
        reads json_of ts (dedup_key config) (dedup_partition config) (target_rows t) (cut_dedup c')
  | Some c, None =>
      (∃ h, through (window c) = Some h ∧
         (has_data_commit_between (source_log t) (version cursor) h = Ok false ∨
          h < version cursor)) ∨
      ∃ ts d, dedup_timestamp config = Some ts ∧
        reads json_of ts (dedup_key config) (dedup_partition config) (target_rows t) d ∧
        is_inert d = true
  end.

Lemma resumes_window config (t : Tables) ours resume cursor held next :
  (∀ c, held = Some c → partition_columns (cut_dedup c) = dedup_partition config ∧
     is_Some (dedup_timestamp config)) →
  ours_cutoff ours = recorded <$> held → bootstrapping resume = false → rebuilt resume = None →
  coverage_cutoff json_of config t ours resume false cursor = Ok next →
  carries_on config t cursor held next.
Proof.
  intros Hh Ho Hb Hr. unfold coverage_cutoff, infer_window. rewrite Hr, Hb, Ho.
  destruct held as [c|]; simpl; [|by destruct (dedup_timestamp config); intros [= <-]].
  destruct (Hh c eq_refl) as [Hp [ts Ets]]. rewrite Ets, Hp.
  destruct (match through (window c) with Some _ => _ | None => _ end) as [[]|] eqn:Ed;
    [|intros [= <-]|done]; simpl.
  2: { left. destruct (through (window c)) as [h|]; [|done]. exists h. by split; [|left]. }
  rewrite decide_True by done.
  destruct (read_cutoff json_of config t ts (dedup_partition config)) as [d|] eqn:Er; [|done].
  apply read_bounded_reads in Er. simpl.
  destruct (is_inert d) eqn:Ei; simpl; [intros [= <-]; right; by exists ts, d|].
  destruct (through (window c)) as [h|] eqn:Et.
  - unfold cutoff_applies. destruct (Z.leb_spec (version cursor) h); simpl; intros [= <-].
    + split; [done|by exists ts].
    + left. exists h. split; [done|by right].
  - intros [= <-]. split; [done|by exists ts].
Qed.

(** A commit's window has a readable version. *)
Lemma from_commit_info_through i c h :
  from_commit_info i = Some c → rc_source_through c = Some h → in_u64 h.
Proof.
  unfold from_commit_info. intros H Hh.
  apply bind_Some in H as (raw & _ & H). destruct (match as_str raw with Some _ => _ | None => _ end) as [text pt].
  apply bind_Some in H as (r & _ & H). apply bind_Some in H as (th & Ht & H).
  apply bind_Some in H as (cols & _ & H). destruct (Bool.eqb _ _); [done|].
  injection H as <-. simpl in Hh. subst th.
  destruct (i !! CUTOFF_SOURCE_THROUGH_KEY) as [x|]; [|done].
  apply fmap_Some in Ht as (z & Hz & [= ->]). by apply as_u64_range in Hz.
Qed.

Lemma last_walk_through S app scans v o c h :
  last_walk (Bytes := Bytes) (Schema := Schema) S app scans v = Ok o →
  ours_cutoff o = Some c → rc_source_through c = Some h → in_u64 h.
Proof.
  revert v. induction scans as [|scans IH]; intros v; simpl; [by intros [= <-]|].
  destruct (read_commit_entry S v) as [[raw|]|]; [|by intros [= <-]|done].
  destruct (get_actions S v raw) as [acts|]; [|done].
  destruct (carries_txn app acts).
  - intros [= <-]. simpl. induction (infos acts) as [|i l IHl]; simpl; [done|].
    destruct (from_commit_info i) eqn:E; [|done]. intros [= <-]. by apply (from_commit_info_through i).
  - destruct (v =? 0); [by intros [= <-]|]. apply IH.
Qed.

Lemma coverage_window config (t : Tables) ours resume replaced cursor c :
  (∀ h, source_version t = Some h → in_u64 h) →
  (∀ c h, ours_cutoff ours = Some c → rc_source_through c = Some h → in_u64 h) →
  (∀ d, rebuilt resume = Some d → partition_columns d = dedup_partition config) →
  coverage_cutoff json_of config t ours resume replaced cursor = Ok (Some c) →
  is_Some (dedup_timestamp config) ∧ partition_columns (cut_dedup c) = dedup_partition config ∧
  ∀ h, through (window c) = Some h → in_u64 h.
Proof.
  intros Hs Ho Hr. unfold coverage_cutoff.
  destruct (dedup_timestamp config) as [ts|]; [|done].
  destruct (infer_window _ _ _ _ _ _ _ _) as [[[w d]|]|] eqn:Ei; [|done|done].
  destruct (_ || _); [done|]. intros [= <-]. simpl. split; [by eexists|].
  assert (Hread : ∀ d', read_cutoff json_of config t ts (dedup_partition config) = Ok d' →
    partition_columns d' = dedup_partition config)
    by (intros d' [[_ _ Hc] _]%read_bounded_reads; exact Hc).
  assert (Hhead : ∀ h, (if is_stage_uri (cfg_source_uri config) then None else source_version t)
    = Some h → in_u64 h) by (intros h; destruct (is_stage_uri _); [done|apply Hs]).
  revert Ei. unfold infer_window. destruct replaced.
  { destruct (rebuilt resume) as [d'|] eqn:Er; simpl; [intros [= <- <-]; split; [by apply Hr|done]|].
    destruct (read_cutoff _ _ _ _ _) as [d'|] eqn:Ed; [|done]. intros [= <- <-].
    split; [by apply Hread|done]. }
  destruct (rebuilt resume) as [d'|] eqn:Er; [intros [= <- <-]; split; [by apply Hr|exact Hhead]|].
  destruct (bootstrapping resume).
  { destruct (read_cutoff _ _ _ _ _) as [d'|] eqn:Ed; [|done]. intros [= <- <-].
    split; [by apply Hread|exact Hhead]. }
  destruct (ours_cutoff ours) as [rec|] eqn:Eo; [|done].
  destruct (match rc_source_through rec with Some _ => _ | None => _ end) as [[]|]; [|done|done].
  simpl. destruct (decide _) as [->|]; [|done].
  destruct (read_cutoff _ _ _ _ _) as [d'|] eqn:Ed; [|done]. intros [= <- <-].
  split; [by apply Hread|]. intros h. by apply (Ho rec).
Qed.

(** Every pipeline opens that way. *)
Lemma open_windowed config (t : Tables) rfc preflight odq p :
  (∀ h, source_version t = Some h → in_u64 h) →
  open_delta parse_timestamp_micros parse_stats json_of config t rfc preflight odq = Ok p →
  windowed p.
Proof.
  intros Hs. unfold open_delta. destruct (our_last_commit _ _ _ _) as [ours|] eqn:Eo; [|done].
  destruct (validate_lookup_tables _ _ _ _ _); [|done].
  destruct (resume_cursor _ _ _ _ _) as [resume|] eqn:Er; [|done].
  destruct (adjust_for_replaced_source _ _ _ _) as [rep|]; [|done].
  destruct (if bootstrapping resume then _ else _); [|done].
  destruct (match dedup_timestamp config with Some _ => _ | None => _ end); [|done].
  destruct (coverage_cutoff _ _ _ _ _ _ _) as [cut|] eqn:Ec; [|done].
  destruct (if is_upsert config then _ else _); [|done]. destruct odq; [|done].
  intros [= <-]. split; [done|]. simpl. intros c ->.
  eapply coverage_window; [exact Hs| | |exact Ec].
  - intros c' h Hc Hh. unfold our_last_commit in Eo. destruct (target_version t) as [hd|].
    + by eapply last_walk_through.
    + by injection Eo as <-.
  - intros d Hd. revert Er Hd. unfold resume_cursor.
    destruct (last_committed_version _) as [st|]; [|done]. destruct (watermark_uri config), (dedup_timestamp config).
    all: try (by intros [= <-]).
    all: destruct (target_state _ _ _ _) as [[|ov]|]; [by intros [= <-]| |done].
    2: { destruct (watermark_rows t) as [rows|]; [|done].
         destruct (last _ rows) as [[w|]|]; [by intros [= <-]|done|done]. }
    all: destruct (read_cutoff _ _ _ _ _) as [d'|] eqn:Ed; [|done].
    all: destruct (rescan_start _ _ _ _ _ _ _ _ _ _ _ _) as [from|]; [|done].
    all: intros [= <-]; intros [= <-]; by apply read_bounded_reads in Ed as [[_ _ Hc] _].
Qed.
End Window.

(** ** Properties *)


Module WindowDemo.
Import DeltaDemo.

Definition config : ResolvedPipeline :=
  {| cfg_app_id := "orders"; cfg_starting_version := 0; cfg_source_uri := "lake/orders";
     watermark_uri := None; dedup_timestamp := Some "v"; dedup_key := None; dedup_partition := [];
     is_upsert := false; staging := false; change_policy := FailOnChange;
     cfg_max_files_per_batch := 3; cfg_max_bytes_per_batch := 1000; cfg_lookups := [];
     max_evaluation_rejects_per_batch := 10 |}.

Definition row (z : Z) : Row Z := {[ "v" := z ]}.
(** The target before: a row of 10 that is not ours, under a log with no offset of ours. *)
Definition tables : Tables (V := Z) (Bytes := list Action) (Schema := unit) := {|
  source_log := Demo.store; source_version := Some 3; source_id := Some "id";
  source_columns := ["v"]; source_partitioned := [];
  source_file := λ _, Err (Other "not read"); source_listing := Ok [];
  target_log := target_store; target_id := Some "target"; lookup_id := λ _, Ok None;
  target_version := Some 0; target_schema := ["v"];
  target_types := λ _, Int64; target_slack := None; target_rows := [row 10];
  stored_txn := Ok None; watermark_rows := Ok [] |}.
Definition opened : result Error (Pipeline (V := Z) (Schema := unit)) :=
  open_delta no_time no_stats join config tables (λ _, EmptyString) (Ok tt) (Ok true).
Definition p : Pipeline (V := Z) (Schema := unit) :=
  Eval vm_compute in match opened with Ok p => p | Err _ => p0 end.

(** A batch the target holds already: the window stays open, and its commit says so. *)
Definition batch : Batch (V := Z) :=
  {| b_through := 1; b_files := 1; input := [{| schema := ["v"]; rows := [row 10; row 5] |}];
     lookups := []; transitions := []; b_start := at_version 0; b_end := at_version 2 |}.
Definition done_ := process join apply quarantine strict present p answers batch.
Definition p' : Pipeline (V := Z) (Schema := unit) := Eval vm_compute in done_.1.1.
Definition writes : list (Write (V := Z)) := Eval vm_compute in done_.1.2.
Definition said : list Action :=
  Eval vm_compute in
  match writes with [Commit _ acts] => acts | _ => [] end.

(** The target after it, with a commit of somebody else's. *)
Definition target_commits : list (list Action) := [ [A_Other]; said; [A_Remove false] ].
Definition target_log_ : Log := λ v, default [] (target_commits !! Z.to_nat v).
Definition after : LogStore (list Action) unit := {|
  get_latest_version := λ _, Ok 2;
  read_commit_entry := λ v, Ok (if (0 <=? v) && (v <=? 2) then Some (target_log_ v) else None);
  get_actions := λ _ raw, Ok raw;
  log_state := λ _, Err D_NotFound;
  last_modified := λ _, None;
|}.
Definition tables' : Tables (V := Z) (Bytes := list Action) (Schema := unit) := {|
  source_log := Demo.store; source_version := Some 3; source_id := Some "id";
  source_columns := ["v"]; source_partitioned := [];
  source_file := λ _, Err (Other "not read"); source_listing := Ok [];
  target_log := after; target_id := Some "target"; lookup_id := λ _, Ok None;
  target_version := Some 2; target_schema := ["v"];
  target_types := λ _, Int64; target_slack := None; target_rows := [row 10];
  stored_txn := Ok (Some 1); watermark_rows := Ok [] |}.
Definition ours : OurLastCommit :=
  Eval vm_compute in
  match our_last_commit after "orders" (Some 2) DEFAULT_MAX_SCAN with
  | Ok o => o
  | Err _ => no_commit_of_ours
  end.
Definition resume : Resume (V := Z) :=
  {| r_cursor := at_version 2; bootstrapping := false; rebuilt := None; committed := Some 1 |}.
Definition next : option (Cutoff (V := Z)) :=
  Eval vm_compute in
  match coverage_cutoff join config tables' ours resume false (at_version 2) with
  | Ok c => c
  | Err _ => None
  end.

Example resumes : resume_cursor no_time no_stats join config tables' = Ok resume.
Proof. vm_compute. reflexivity. Qed.

Lemma p_windowed : windowed p.
Proof.
  apply (open_windowed no_time no_stats join config tables (λ _, EmptyString) (Ok tt)
    (Ok true)).
  - intros h [= <-]. split; vm_compute; discriminate.
  - vm_compute. reflexivity.
Qed.
End WindowDemo.

