(* ===== verification/DeltaLookup.v ===== *)
(** * DeltaLookup: a restart knows which lookups were replaced (src/pipeline.rs, src/lookup.rs, src/sink.rs)

    A Delta pipeline accepts its lookups' table ids when it opens, enriches every batch from
    tables of those ids or says that it did not, and records with the commit the id each
    snapshot had.  [commits_what_is_accepted] is what this amounts to: what the newest commit
    says of the lookups is what the running pipeline accepts; so the pipeline that opens next,
    whose [validate_lookup_tables] reads that commit, sees which lookups were replaced. *)

From Stdlib Require Import ZArith Lia Ascii.
From stdpp Require Import base list strings gmap.
From S2P Require Import Prelude Json Error F64 Cursor Offset Budget LogStream.
From S2P Require Import LogStreamCorrect Stats Arrow Dedup Rescan Watermark Lookup Dq Open Delta DeltaCorrect DeltaWindow.

Open Scope Z_scope.
Open Scope ddi_scope.

(** ** The keys of a lookup's metadata *)

Lemma reverse_append a b : reverse (String.append a b) = String.append (reverse b) (reverse a).
Proof.
  unfold reverse. by rewrite list_ascii_of_string_append, rev_app_distr, string_of_list_ascii_app.
Qed.

Lemma reverse_reverse s : reverse (reverse s) = s.
Proof.
  unfold reverse. rewrite String.list_ascii_of_string_of_list_ascii, rev_involutive.
  apply String.string_of_list_ascii_of_string.
Qed.

Lemma strip_suffix_Some suffix s r : strip_suffix suffix s = Some r ↔ s = String.append r suffix.
Proof.
  unfold strip_suffix. rewrite fmap_Some. split.
  - intros (t & Ht & ->). apply str_strip_prefix_Some in Ht.
    rewrite <-(reverse_reverse s), Ht, reverse_append. by rewrite reverse_reverse.
  - intros ->. exists (reverse r). rewrite reverse_append, str_strip_prefix_app.
    by rewrite reverse_reverse.
Qed.

Definition id_key (name : string) : string :=
  String.append "ddi.lookup." (String.append name ".tableId").

Lemma lookup_name_Some key name : lookup_name key = Some name ↔ key = id_key name.
Proof.
  unfold lookup_name, id_key. split.
  - intros (rest & H & Hr)%bind_Some. apply str_strip_prefix_Some in H as ->.
    by apply strip_suffix_Some in Hr as ->.
  - intros ->. rewrite str_strip_prefix_app. simpl. by apply strip_suffix_Some.
Qed.

(** What [said_by] collects: the text under each lookup's key. *)
Lemma collected (l : list (string * Value)) (m : gmap string string) name :
  NoDup (fst <$> l) →
  fold_left (λ m '(key, value), match lookup_name key, as_str value with
                                | Some name, Some id => <[name := id]> m
                                | _, _ => m
                                end) l m !! name =
  match (list_to_map l : gmap string Value) !! id_key name ≫= as_str with
  | Some id => Some id
  | None => m !! name
  end.
Proof.
  revert m. induction l as [|[key value] l IH]; intros m; cbn [fmap list_fmap fold_left]; [by rewrite list_to_map_nil, lookup_empty|].
  intros [Hk Hl]%NoDup_cons. rewrite IH by done. rewrite list_to_map_cons.
  assert (Hother : ∀ n, lookup_name key = Some n → name = n → (list_to_map l : gmap string Value) !! id_key name = None).
  { intros n Hn ->. apply lookup_name_Some in Hn as <-. by apply not_elem_of_list_to_map. }
  destruct (decide (key = id_key name)) as [->|Hne].
  - rewrite lookup_insert_eq. rewrite (proj2 (lookup_name_Some _ name) eq_refl).
    rewrite (Hother name) by (by rewrite ?lookup_name_Some). simpl.
    destruct (as_str value); [by rewrite lookup_insert_eq|done].
  - rewrite lookup_insert_ne by done. destruct (lookup_name key) as [n|] eqn:En; [|done].
    destruct (as_str value) as [id|]; [|done]. rewrite (lookup_insert_ne m n name); [done|].
    intros ->. by apply lookup_name_Some in En.
Qed.

Lemma NoDup_fmap_elem {A B} (f : A → B) l x y :
  NoDup (f <$> l) → x ∈ l → y ∈ l → f x = f y → x = y.
Proof.
  intros Hl (i & Hi)%list_elem_of_lookup (j & Hj)%list_elem_of_lookup E.
  assert (i = j) as ->; [|congruence]. eapply NoDup_lookup; [exact Hl| |].
  - by rewrite list_lookup_fmap, Hi.
  - by rewrite list_lookup_fmap, Hj, E.
Qed.

Lemma id_key_inj a b : id_key a = id_key b → a = b.
Proof.
  intros H. assert (E : lookup_name (id_key a) = Some b) by (rewrite H; by apply lookup_name_Some).
  rewrite (proj2 (lookup_name_Some _ a) eq_refl) in E. by injection E.
Qed.

Lemma id_key_reversed n : ∃ x, reverse (id_key n) = String.append "dIelbat." x.
Proof. unfold id_key. rewrite !reverse_append, append_assoc. by eexists. Qed.

(** Of a lookup's entries, the one that names its table. *)
Lemma id_entry c n v :
  (id_key n, v) ∈ lookup_metadata c ↔ ∃ id, lc_name c = n ∧ lc_table_id c = Some id ∧ v = V_String id.
Proof.
  destruct (id_key_reversed n) as [x Hx].
  assert (Hno : ∀ suffix, String.get 0 (reverse suffix) ≠ Some "d"%char → (0 < String.length (reverse suffix))%nat →
    id_key n ≠ String.append (String.append "ddi.lookup." (lc_name c)) suffix).
  { intros suffix Hs Hl E. rewrite E, reverse_append in Hx.
    destruct (reverse suffix) as [|d t]; simpl in *; [lia|]. injection Hx as -> _. done. }
  assert (Heq : id_key n = String.append (String.append "ddi.lookup." (lc_name c)) ".tableId" ↔ lc_name c = n).
  { rewrite append_assoc. change (String.append "ddi.lookup." (String.append (lc_name c) ".tableId"))
      with (id_key (lc_name c)). split; [by intros ->%id_key_inj|by intros ->]. }
  unfold lookup_metadata. rewrite !elem_of_app. split.
  - intros [H|[H|[H|H]]].
    + apply list_elem_of_singleton in H. apply (f_equal fst) in H. destruct (Hno ".version"%string); [vm_compute; discriminate|vm_compute; lia|done].
    + destruct (lc_table_id c) as [id|]; [|by apply elem_of_nil in H].
      apply list_elem_of_singleton in H. apply pair_equal_spec in H as [H ->]. apply Heq in H. by exists id.
    + destruct (used_pre_history c); [|by apply elem_of_nil in H].
      apply list_elem_of_singleton in H. apply (f_equal fst) in H. destruct (Hno ".preHistory"%string); [vm_compute; discriminate|vm_compute; lia|done].
    + destruct (used_current c); [|by apply elem_of_nil in H].
      apply list_elem_of_singleton in H. apply (f_equal fst) in H. destruct (Hno ".current"%string); [vm_compute; discriminate|vm_compute; lia|done].
  - intros (id & Hn & -> & ->). right. left. apply list_elem_of_singleton. f_equal. by apply Heq.
Qed.

Lemma metadata_id s k n v :
  (id_key n, v) ∈ metadata s k ↔
  ∃ c id, c ∈ lookup_commits s ∧ lc_name c = n ∧ lc_table_id c = Some id ∧ v = V_String id.
Proof.
  assert (Hw : id_key n ∉ window_keys).
  { intros H. destruct (other_key _ (String.append n ".tableId") H) as (_ & _ & _ & _ & H5). by apply H5. }
  unfold metadata. rewrite !elem_of_app. split.
  - intros [H|[H|[H|H]]].
    + repeat (apply elem_of_cons in H as [H|H]; [discriminate H|]). by apply elem_of_nil in H.
    + destruct (source_identity s) as [[u id]|]; [|by apply elem_of_nil in H].
      repeat (apply elem_of_cons in H as [H|H]; [discriminate H|]). by apply elem_of_nil in H.
    + apply list_elem_of_join in H as (l & H & Hl). apply list_elem_of_fmap in Hl as (c & -> & Hc).
      apply id_entry in H as (id & H1 & H2 & H3). by exists c, id.
    + destruct (sink_cutoff s) as [c|]; [|by apply elem_of_nil in H]. exfalso. apply Hw.
      unfold to_commit_metadata in H. unfold window_keys. rewrite !elem_of_app in H.
      destruct H as [H|[H|H]].
      * apply list_elem_of_singleton in H. apply (f_equal fst) in H. simpl in H. rewrite H. set_solver.
      * destruct (rc_source_through c); [|by apply elem_of_nil in H].
        apply list_elem_of_singleton in H. apply (f_equal fst) in H. simpl in H. rewrite H. set_solver.
      * destruct (rc_partition_columns c); [by apply elem_of_nil in H|].
        apply list_elem_of_singleton in H. apply (f_equal fst) in H. simpl in H. rewrite H. set_solver.
  - intros (c & id & Hc & Hn & Hid & ->). right. right. left. apply list_elem_of_join.
    exists (lookup_metadata c). split; [apply id_entry; by exists id|].
    apply list_elem_of_fmap. by exists c.
Qed.

(** What a commit says of the lookups. *)
Lemma said_of_lookups s k v n id :
  NoDup (lc_name <$> lookup_commits s) →
  Watermark.lookup_table_ids (said_by v (properties s k)) !! n = Some id ↔
  ∃ c, c ∈ lookup_commits s ∧ lc_name c = n ∧ lc_table_id c = Some id.
Proof.
  intros Hnd. unfold said_by, properties. cbn [Watermark.lookup_table_ids infos omap list_omap fmap list_fmap mjoin list_join].
  rewrite app_nil_r. set (info := list_to_map (rev (metadata s k)) : gmap string Value).
  rewrite collected by apply NoDup_fst_map_to_list. rewrite list_to_map_to_list, lookup_empty.
  assert (Hinfo : ∀ x, info !! id_key n = Some x ↔ (id_key n, x) ∈ metadata s k).
  { assert (Hrev : ∀ x, (id_key n, x) ∈ rev (metadata s k) ↔ (id_key n, x) ∈ metadata s k)
      by (intros x; by rewrite !list_elem_of_In, <-in_rev).
    intros x. split.
    - intros H. apply Hrev. by apply elem_of_list_to_map_2.
    - intros H. apply elem_of_list_to_map_1'; [|by apply Hrev]. intros y Hy. apply Hrev in Hy.
      apply metadata_id in H as (c & i & Hc & Hn & Hi & ->).
      apply metadata_id in Hy as (c' & i' & Hc' & Hn' & Hi' & ->).
      assert (c = c') as ->; [|congruence].
      eapply NoDup_fmap_elem; [exact Hnd|done|done|congruence]. }
  split.
  - destruct (info !! id_key n) as [x|]; simpl; [|done].
    pose proof (proj1 (Hinfo x) eq_refl) as E. apply metadata_id in E as (c & i & Hc & Hn & Hi & ->). simpl. intros [= <-]. by exists c.
  - intros (c & Hc & Hn & Hi). rewrite (proj2 (Hinfo (V_String id))); [done|].
    apply metadata_id. by exists c, id.
Qed.

(** ** What a batch is enriched from, and what is accepted *)

Lemma snapshots_named lookup representable a source_millis s :
  snapshots lookup representable a source_millis = Ok s →
  ls_name (selected s) = lk_name lookup ∧ ls_name (ls_head s) = lk_name lookup.
Proof.
  unfold snapshots. induction (a <$> _) as [|x l IH]; simpl; [done|].
  destruct (snapshots_once lookup representable x source_millis) as [s'|[e|r]] eqn:Es; [|done|].
  - destruct (open_verified x) as [[[v|] id]|]; simpl; [|done|done].
    destruct (decide _); [|done]. intros [= <-]. simpl. split; [|done].
    revert Es. unfold snapshots_once. destruct (open_head x) as [[[h|] hid]|]; simpl; [|done|done].
    destruct (representable _); [|done].
    destruct (open_at_datetime x _) as [[[u|] uid]|]; simpl; [|done|done].
    destruct (log_timestamp x u) as [t|]; simpl; [|done].
    destruct (if source_millis <=? t then _ else _) as [[w pre]|]; [|done].
    destruct (open_at_version x w); [|done]. by intros [= <-].
  - destruct (table_id_change_policy lookup); [done|]. unfold current_snapshots.
    destruct (open_current x) as [[[v|] id]|]; simpl; [|done|done]. by intros [= <-].
Qed.

Definition names (lookups : list ResolvedLookup) : list string := lk_name <$> lookups.

Section Accept.
Context (available : ResolvedLookup → Z → result Error LookupSnapshots).
Context (Hnamed : ∀ l t s, available l t = Ok s →
  ls_name (selected s) = lk_name l ∧ ls_name (ls_head s) = lk_name l).

(** One lookup: the snapshot's id is the one accepted, or becomes it with the commit. *)
Lemma select_one st lookup ts s tr :
  select_lookup st available lookup ts = Ok (s, tr) →
  ls_name s = lk_name lookup ∧
  ∃ id, ls_table_id s = Some id ∧
    (tr = [] ∧ Lookup.lookup_table_ids st !! lk_name lookup = Some id ∧
       lk_name lookup ∉ lookup_current_on_open st ∨
     tr = [{| tr_name := lk_name lookup; tr_table_id := id |}]).
Proof.
  unfold select_lookup. destruct (available lookup ts) as [a|] eqn:Ea; [|done].
  destruct (Hnamed _ _ _ Ea) as [H1 H2]. rewrite H1.
  destruct (Lookup.lookup_table_ids st !! lk_name lookup) as [expected|] eqn:Ee; simpl; [|done].
  destruct (ls_table_id (selected a)) as [sid|] eqn:Es; simpl; [|done].
  destruct (ls_table_id (ls_head a)) as [hid|] eqn:Eh; simpl; [|done].
  destruct (lookup_table_id_changed expected sid hid _) eqn:Ec.
  - destruct (table_id_change_policy lookup); [done|]. intros [= <- <-]. simpl. split; [done|].
    exists hid. split; [done|]. by right.
  - intros [= <- <-]. split; [done|]. unfold lookup_table_id_changed in Ec.
    apply orb_false_iff in Ec as [Ec E3]. apply orb_false_iff in Ec as [_ E2].
    apply negb_false_iff, bool_decide_eq_true in E2 as ->.
    apply negb_false_iff, bool_decide_eq_true in E3 as ->.
    exists expected. split; [done|]. simpl. case_bool_decide; [by right|by left].
Qed.

Lemma apply_transitions_app tr tr' st :
  apply_transitions (tr ++ tr') st = apply_transitions tr' (apply_transitions tr st).
Proof. apply fold_left_app. Qed.

(** All lookups of a batch; [st'] is the state their transitions are applied to. *)
Lemma select_accepts lookups st ts l tr st' :
  NoDup (names lookups) →
  select_all st available lookups ts = Ok (l, tr) →
  (∀ n, n ∈ names lookups → Lookup.lookup_table_ids st' !! n = Lookup.lookup_table_ids st !! n) →
  let st2 := apply_transitions tr st' in
  ls_name <$> l = names lookups ∧
  (∀ n, n ∉ names lookups → Lookup.lookup_table_ids st2 !! n = Lookup.lookup_table_ids st' !! n) ∧
  (∀ s, s ∈ l → ∃ id, ls_table_id s = Some id ∧ Lookup.lookup_table_ids st2 !! ls_name s = Some id) ∧
  (∀ n, n ∈ lookup_current_on_open st2 → n ∈ lookup_current_on_open st' ∧
     (n ∈ names lookups → n ∉ lookup_current_on_open st)).
Proof.
  revert l tr st'. induction lookups as [|lk lookups IH]; intros l tr st' Hnd.
  { intros [= <- <-] _. simpl. split; [done|]. split; [done|]. split.
    - intros s Hs. by apply elem_of_nil in Hs.
    - intros n Hn. split; [done|]. intros Hx. by apply elem_of_nil in Hx. }
  apply NoDup_cons in Hnd as [Hnew Hnd]. cbn [select_all].
  destruct (select_lookup st available lk ts) as [[s tr1]|] eqn:E1; [|done].
  destruct (select_all st available lookups ts) as [[l2 tr2]|] eqn:E2; [|done].
  cbn [fst snd]. intros H Hst. injection H as <- <-.
  destruct (select_one _ _ _ _ _ E1) as (Hn & id & Hid & Htr).
  rewrite apply_transitions_app. set (st1 := apply_transitions tr1 st').
  assert (H1 : (∀ n, n ≠ lk_name lk →
      Lookup.lookup_table_ids st1 !! n = Lookup.lookup_table_ids st' !! n) ∧
    Lookup.lookup_table_ids st1 !! lk_name lk = Some id ∧
    (∀ n, n ∈ lookup_current_on_open st1 → n ∈ lookup_current_on_open st' ∧
       (n = lk_name lk → n ∉ lookup_current_on_open st))).
  { unfold st1. destruct Htr as [(-> & Hacc & Hno)| ->]; simpl.
    - split; [done|]. split; [rewrite Hst; [done|by left]|]. intros n Hn'. split; [done|by intros ->].
    - split; [intros n Hne; by rewrite lookup_insert_ne|]. split; [by rewrite lookup_insert_eq|].
      intros n Hn'. set_solver. }
  destruct H1 as (Hother & Hthis & Hopen).
  destruct (IH l2 tr2 st1 Hnd eq_refl) as (I1 & I2 & I3 & I4).
  { intros n Hx. rewrite Hother by (intros ->; done). apply Hst. by right. }
  cbn zeta in *. split; [|split; [|split]].
  - change (ls_name s :: (ls_name <$> l2) = lk_name lk :: names lookups). by rewrite Hn, I1.
  - intros n Hx. apply not_elem_of_cons in Hx as [Hx1 Hx2]. by rewrite I2, Hother.
  - intros x [->|Hx]%elem_of_cons; [|by apply I3]. exists id. split; [done|].
    by rewrite Hn, I2.
  - intros n Hx. apply I4 in Hx as [Hx Hy]. apply Hopen in Hx as [Hx Hz]. split; [done|].
    intros [->|Hx']%elem_of_cons; [by apply Hz|by apply Hy].
Qed.
End Accept.

(** ** What the next open makes of it *)

Section Restart.
(** The table each lookup's location holds now. *)
Context (now : string → string).
Definition opens_now (l : ResolvedLookup) : result Error (option string) :=
  Ok (Some (now (lk_name l))).
Definition ids_now (lookups : list ResolvedLookup) : gmap string string :=
  list_to_map ((λ l, (lk_name l, now (lk_name l))) <$> lookups).

Lemma ids_now_lookup lookups n id :
  ids_now lookups !! n = Some id ↔ n ∈ names lookups ∧ now n = id.
Proof.
  unfold ids_now, names. induction lookups as [|l lookups IH]; cbn [fmap list_fmap].
  - rewrite list_to_map_nil, lookup_empty. split; [done|]. intros [H _]. by apply elem_of_nil in H.
  - rewrite list_to_map_cons, elem_of_cons. destruct (decide (lk_name l = n)) as [<-|Hne].
    + rewrite lookup_insert_eq. split; [intros [= <-]; by split; [left|]|by intros [_ ->]].
    + rewrite lookup_insert_ne by done. rewrite IH. split; [intros [? ?]; by split; [right|]|].
      intros [[->|H] ?]; [done|by split].
Qed.

Lemma ids_now_dom lookups : dom (ids_now lookups) = list_to_set (names lookups).
Proof.
  apply set_eq. intros n. rewrite elem_of_dom, elem_of_list_to_set. unfold is_Some.
  setoid_rewrite ids_now_lookup. split; [by intros (id & H & _)|]. intros H. by eexists.
Qed.

(** Lookups that are none of the other tables are all opened. *)
Lemma current_ids_ok lookups source target (cur : gmap string string) :
  NoDup (names lookups) → NoDup (now <$> names lookups) →
  source ∉ now <$> names lookups → target ∉ now <$> names lookups →
  (∀ n id, cur !! n = Some id → n ∉ names lookups ∧ id ∉ now <$> names lookups) →
  current_ids opens_now lookups source target cur = Ok (ids_now lookups ∪ cur).
Proof.
  revert cur. induction lookups as [|l lookups IH]; intros cur.
  { intros _ _ _ _ _. simpl. unfold ids_now. simpl. by rewrite (left_id_L ∅ (∪)). }
  change (names (l :: lookups)) with (lk_name l :: names lookups). cbn [fmap list_fmap].
  intros [Hn1 Hn2]%NoDup_cons [Hi1 Hi2]%NoDup_cons Hs Ht Hcur. cbn [current_ids opens_now ok_or].
  apply not_elem_of_cons in Hs as [Hs1 Hs2]. apply not_elem_of_cons in Ht as [Ht1 Ht2].
  rewrite !bool_decide_eq_false_2 by done. simpl.
  assert (existsb (λ e, bool_decide (e.2 = now (lk_name l))) (map_to_list cur) = false) as ->.
  { apply not_true_iff_false. intros ([n id] & H & E%bool_decide_eq_true)%existsb_exists.
    apply list_elem_of_In, elem_of_map_to_list, Hcur in H as [_ H]. apply H. simpl in E. rewrite E. by left. }
  rewrite IH; [|done|done|done|done|].
  - f_equal. unfold ids_now. cbn [fmap list_fmap]. rewrite list_to_map_cons.
    rewrite <-insert_union_r by (apply eq_None_not_Some; intros [id H%ids_now_lookup]; by destruct H).
    by rewrite insert_union_l.
  - intros n id. destruct (decide (lk_name l = n)) as [<-|Hne].
    + rewrite lookup_insert_eq. by intros [= <-].
    + rewrite lookup_insert_ne by done. intros H. apply Hcur in H as [H1 H2].
      split; [set_solver|set_solver].
Qed.

End Restart.

Lemma changed_ids_spec lookups (cur : gmap string string) rec :
  NoDup (names lookups) → (∀ n was, (n, was) ∈ rec → is_Some (cur !! n) ∧ n ∈ names lookups) →
  match changed_ids lookups cur rec with
  | Ok set => ∀ n, n ∈ set ↔ ∃ l was, (n, was) ∈ rec ∧ cur !! n ≠ Some was ∧
      l ∈ lookups ∧ lk_name l = n
  | Err _ => True
  end ∧
  (is_ok (changed_ids lookups cur rec) = true ↔
   ∀ l was, l ∈ lookups → (lk_name l, was) ∈ rec → cur !! lk_name l ≠ Some was →
     table_id_change_policy l = UseCurrent).
Proof.
  intros Hnd. induction rec as [|[n was] rec IH]; intros Hrec; cbn [changed_ids].
  { split; [|split; [intros _ l was _ H; by apply elem_of_nil in H|done]].
    intros n. split; [set_solver|]. intros (l & was & H & _). by apply elem_of_nil in H. }
  destruct IH as [IH1 IH2]; [intros; by eapply Hrec; right|].
  destruct (Hrec n was ltac:(by left)) as [[id Hid] Hn]. rewrite Hid.
  apply list_elem_of_fmap in Hn as (l & -> & Hl).
  assert (Hfind : List.find (λ x, bool_decide (lk_name x = lk_name l)) lookups = Some l).
  { destruct (List.find _ lookups) as [x|] eqn:E.
    - apply find_some in E as [Hx Ex%bool_decide_eq_true]. f_equal.
      eapply NoDup_fmap_elem; [exact Hnd|by apply list_elem_of_In|done|done].
    - eapply find_none in E; [|apply list_elem_of_In; exact Hl].
      by apply bool_decide_eq_false in E. }
  assert (Hsame : ∀ x, x ∈ lookups → lk_name x = lk_name l → x = l)
    by (intros x Hx E; by eapply NoDup_fmap_elem).
  case_bool_decide as E.
  { subst id. simpl. destruct (changed_ids lookups cur rec) as [more|]; simpl in *.
    - split.
      + intros n. rewrite IH1. setoid_rewrite elem_of_cons. split; [intros (x & w & H); exists x, w; naive_solver|].
        intros (x & w & [[= -> ->]|H] & Hc & H'); [done|by exists x, w].
      + rewrite IH2. setoid_rewrite elem_of_cons. split; [|naive_solver].
        intros H x w Hx [[= Ex ->]|Hin] Hc; [by rewrite Ex in Hc|by eapply H].
    - split; [done|]. rewrite IH2. setoid_rewrite elem_of_cons. split; [|naive_solver].
      intros H x w Hx [[= Ex ->]|Hin] Hc; [by rewrite Ex in Hc|by eapply H]. }
  rewrite Hfind. destruct (table_id_change_policy l) eqn:Ep.
  { split; [done|]. simpl. split; [done|]. intros H. exfalso.
    assert (table_id_change_policy l = UseCurrent); [|congruence].
    apply (H l was Hl); [by left|congruence]. }
  destruct (changed_ids lookups cur rec) as [more|]; simpl in *.
  - split.
    + intros n. rewrite elem_of_union, elem_of_singleton, IH1. setoid_rewrite elem_of_cons. split.
      * intros [->|(x & w & H)]; [|exists x, w; naive_solver].
        exists l, was. split; [by left|]. split; [congruence|done].
      * intros (x & w & [[= -> ->]|H] & H'); [by left|right; by exists x, w].
    + rewrite IH2. setoid_rewrite elem_of_cons. split; [|naive_solver].
      intros H x w Hx [[= Ex ->]|Hin] Hc; [by rewrite (Hsame x Hx Ex)|by eapply H].
  - split; [done|]. rewrite IH2. setoid_rewrite elem_of_cons. split; [|naive_solver].
    intros H x w Hx [[= Ex ->]|Hin] Hc; [by rewrite (Hsame x Hx Ex)|by eapply H].
Qed.

(** ** What a step leaves *)

Section Enrich.
Context {V : Type} `{!Arrow V} {Bytes Schema : Type}.
Context (json_of : list string → string).
Context (apply_isolating : list (RecordBatch V) → list LookupSnapshot → Z →
  result Error (Isolated (V := V))).
Context (coerce_quarantining :
  RecordBatch V → result Error (RecordBatch V * option (Rejected V))).
Context (coerce : RecordBatch V → result Error (RecordBatch V)).
Context (columns_present_in : RecordBatch V → list string).
Context (get_array_memory_size : RecordBatch V → Z).
Abbreviation Pipeline := (Pipeline (V := V) (Schema := Schema)).

(** A pipeline accepts one table for each of its lookups. *)
Record enriching (p : Pipeline) : Prop := {
  en_names : NoDup (names (cfg_lookups (cfg p)));
  en_ids : dom (Lookup.lookup_table_ids (lookup_state p)) = list_to_set (names (cfg_lookups (cfg p)));
  en_open n : n ∈ lookup_current_on_open (lookup_state p) → n ∈ names (cfg_lookups (cfg p));
}.

Lemma retire_lookups (p : Pipeline) :
  lookup_state (retire p) = lookup_state p ∧ cfg (retire p) = cfg p ∧ sink (retire p) = sink p.
Proof. unfold retire. by destruct (cutoff p). Qed.

Lemma retire_through_lookups (p : Pipeline) :
  let q := (retire_cutoff_if_read_through p).1 in
  lookup_state q = lookup_state p ∧ cfg q = cfg p.
Proof.
  unfold retire_cutoff_if_read_through. destruct (cut_through p); [|done].
  destruct (cutoff_applies _ _); [done|]. by destruct (retire_lookups p) as (? & ? & _).
Qed.

Lemma settle_lookups closes n (p : Pipeline) :
  lookup_state (settle_cutoff closes n p) = lookup_state p.
Proof.
  unfold settle_cutoff. case_bool_decide; [|done]. apply (retire_lookups (with_cutoff _ p)).
Qed.

Lemma landed_lookups a (p p' : Pipeline) r :
  landed a p = (p', r) → lookup_state p' = lookup_state p.
Proof.
  unfold landed. destruct (an_commit a) as [[v n]|e]; [by intros [= <- _]|].
  destruct (an_reopen a); by intros [= <- _].
Qed.

(** A commit names the tables its lookups' snapshots were of, and those are accepted. *)
Lemma process_lookups (p p' : Pipeline) a b ws o l :
  process json_of apply_isolating coerce_quarantining coerce columns_present_in p a b =
    (p', ws, Ok o) →
  lookup_commits (sink p) = lookup_commits (set_lookup_snapshots l (sink p)) →
  NoDup (ls_name <$> l) →
  lookup_state p' = apply_transitions (transitions b) (lookup_state p) ∧ cfg p' = cfg p ∧
  ∃ w acts, list.last ws = Some w ∧ actions_of w = Some acts ∧
    ∀ v n id, Watermark.lookup_table_ids (said_by v acts) !! n = Some id ↔
      ∃ s, s ∈ l ∧ ls_name s = n ∧ ls_table_id s = Some id.
Proof.
  intros (pr & k & m & q & w & El & -> & Hw & Hacts)%process_ok Hl Hnd.
  pose proof (landed_kept _ _ _ _ El) as (E1 & _ & _). apply landed_lookups in El as E2.
  split; [|split].
  - rewrite settle_lookups. unfold acknowledge_lookup_table_id_transitions. cbn [with_lookup_state lookup_state].
    by rewrite E2.
  - by rewrite (proj1 (settle_kept _ _ _)).
  - exists w, (properties (set_cutoff (match cutoff p, (λ c, window_closes_after (through (window c))
      (b_end b) (pr_beyond pr)) <$> cutoff p with Some c, Some false => Some (recorded c) | _, _ => None
      end) (sink p)) k).
    split; [done|]. split; [done|]. intros v n id. cbn zeta in *.
    rewrite said_of_lookups; cbn [set_cutoff lookup_commits]; rewrite Hl; cbn [set_lookup_snapshots lookup_commits].
    + split.
      * intros (c & (s & -> & Hs)%list_elem_of_fmap & Hn & Hi). by exists s.
      * intros (s & Hs & Hn & Hi). eexists. split; [apply list_elem_of_fmap; by exists s|done].
    + rewrite <-list_fmap_compose. exact Hnd.
Qed.

(** Where a step's commit comes from. *)
Lemma step_processes (S : LogStore Bytes Schema) scan available budget a (p p' : Pipeline) ws o :
  step_delta json_of apply_isolating coerce_quarantining coerce columns_present_in
    get_array_memory_size scan available S budget a p = (p', ws, Some (Ok o)) → ws ≠ [] →
  ∃ (q : Pipeline) b l ts,
    lookup_state q = lookup_state p ∧ cfg q = cfg p ∧
    lookup_snapshots (lookup_state p) available (cfg_lookups (cfg p)) ts = Ok (l, transitions b) ∧
    lookup_commits (sink q) = lookup_commits (set_lookup_snapshots l (sink q)) ∧
    process json_of apply_isolating coerce_quarantining coerce columns_present_in q a b =
      (p', ws, Ok o).
Proof.
  unfold step_delta. pose proof (retire_through_lookups p) as R1.
  destruct (retire_cutoff_if_read_through p) as [p1 f1]. simpl in R1. destruct R1 as [R1 C1].
  unfold pull. destruct (next_batch S budget (stream p1)) as [s2 r2].
  set (p2 := with_stream s2 p1).
  assert (H2 : lookup_state p2 = lookup_state p ∧ cfg p2 = cfg p) by done.
  set (again := match r2 with Some (Ok None) => _ | _ => _ end).
  assert (H3 : lookup_state again.1 = lookup_state p ∧ cfg again.1 = cfg p).
  { unfold again. destruct r2 as [[[b|]|e]|]; try done.
    pose proof (retire_through_lookups p2) as R3.
    destruct (retire_cutoff_if_read_through p2) as [p3 []]; simpl in R3; destruct R3 as [R3 C3].
    - destruct (next_batch S budget (stream p3)) as [s4 r4]. simpl. by rewrite R3, C3.
    - simpl. by rewrite R3, C3. }
  clearbody again. destruct again as [p4 r4]. simpl in H3. destruct H3 as [H3 C3].
  destruct r4 as [[[b|]|e]|]; [|by intros [= _ <- _]|done|done].
  cbn [with_sink lookup_state cfg]. rewrite H3, C3.
  destruct (lookup_snapshots _ _ _ _) as [[l tr]|] eqn:El; [|done].
  destruct (scan b) as [inp|]; [|done].
  set (q := with_stream _ _). set (bt := {| b_through := _ |}).
  destruct (process _ _ _ _ _ q a bt) as [[q' ws'] r'] eqn:Ep. intros [= <- <- ->] _.
  exists q, bt, l, (through_log_timestamp b). split; [exact H3|]. split; [exact C3|]. split; [exact El|].
  split; [done|exact Ep].
Qed.

(** After a commit, the newest commit of ours names the tables the pipeline accepts. *)
Lemma commits_what_is_accepted (S : LogStore Bytes Schema) scan available budget a
    (p p' : Pipeline) ws o w acts :
  (∀ l t s, available l t = Ok s →
     ls_name (selected s) = lk_name l ∧ ls_name (ls_head s) = lk_name l) →
  enriching p →
  step_delta json_of apply_isolating coerce_quarantining coerce columns_present_in
    get_array_memory_size scan available S budget a p = (p', ws, Some (Ok o)) →
  list.last ws = Some w → actions_of w = Some acts →
  enriching p' ∧ cfg p' = cfg p ∧ lookup_current_on_open (lookup_state p') = ∅ ∧
  ∀ v, Watermark.lookup_table_ids (said_by v acts) = Lookup.lookup_table_ids (lookup_state p').
Proof.
  intros Hnamed [Hnd Hids Hopen] Hstep Hw Hacts.
  destruct (step_processes _ _ _ _ _ _ _ _ _ Hstep) as (q & b & l & ts & Q1 & Q2 & Hsel & Hsink & Hp).
  { intros ->. done. }
  assert (Hall : select_all (lookup_state p) available (cfg_lookups (cfg p)) (default 0 ts) =
    Ok (l, transitions b)).
  { unfold lookup_snapshots in Hsel. destruct (cfg_lookups (cfg p)) eqn:E; [exact Hsel|].
    rewrite <-E in *. destruct ts; [exact Hsel|done]. }
  destruct (select_accepts available Hnamed _ _ _ _ _ (lookup_state p) Hnd Hall) as (A1 & A2 & A3 & A4);
    [done|].
  destruct (process_lookups _ _ _ _ _ _ l Hp Hsink) as (P1 & P2 & w' & acts' & Hw' & Hacts' & Hsaid).
  { by rewrite A1. }
  assert (w' = w) as -> by congruence. assert (acts' = acts) as -> by congruence.
  rewrite Q1 in P1. rewrite Q2 in P2. rewrite <-P1 in A2, A3, A4.
  assert (Hmap : ∀ v, Watermark.lookup_table_ids (said_by v acts) =
    Lookup.lookup_table_ids (lookup_state p')).
  { intros v. apply map_eq. intros n. apply option_eq. intros id. rewrite Hsaid. split.
    - intros (s & Hs & <- & Hi). destruct (A3 s Hs) as (id' & Hi' & ->). congruence.
    - intros Hn. assert (Hin : n ∈ names (cfg_lookups (cfg p))).
      { apply dec_stable. intros Hx. rewrite A2 in Hn by done.
        apply elem_of_dom_2 in Hn. rewrite Hids, elem_of_list_to_set in Hn. done. }
      rewrite <-A1 in Hin. apply list_elem_of_fmap in Hin as (s & -> & Hs).
      destruct (A3 s Hs) as (id' & Hi' & E). exists s. split; [done|]. split; [done|]. congruence. }
  assert (Hempty : ∀ n, n ∉ lookup_current_on_open (lookup_state p')).
  { intros n Hx. destruct (A4 n Hx) as [Ho Hno]. apply Hno; [by apply Hopen|done]. }
  split; [|split; [exact P2|split; [by apply set_eq; set_solver|exact Hmap]]].
  split; rewrite P2; [done| |intros n Hx; by destruct (Hempty n)].
  apply set_eq. intros n. rewrite elem_of_dom, elem_of_list_to_set. split.
  - intros [id Hn]. apply dec_stable. intros Hx. rewrite A2 in Hn by done.
    apply elem_of_dom_2 in Hn. rewrite Hids, elem_of_list_to_set in Hn. done.
  - intros Hin. rewrite <-A1 in Hin. apply list_elem_of_fmap in Hin as (s & -> & Hs).
    destruct (A3 s Hs) as (id' & _ & E). by eexists.
Qed.
End Enrich.

(** What a pipeline accepts when it opens, after a commit that named [recorded]. *)
Lemma validates now lookups source target (ours : OurLastCommit) :
  NoDup (names lookups) → NoDup (source :: target :: (now <$> names lookups)) →
  dom (Watermark.lookup_table_ids ours) = list_to_set (names lookups) →
  match validate_lookup_tables (Some source) (Some target) (opens_now now) lookups ours with
  | Ok st =>
      Lookup.lookup_table_ids st = ids_now now lookups ∧
      ∀ l, l ∈ lookups →
        (lk_name l ∈ lookup_current_on_open st ↔
         Watermark.lookup_table_ids ours !! lk_name l ≠ Some (now (lk_name l))) ∧
        (lk_name l ∈ lookup_current_on_open st → table_id_change_policy l = UseCurrent)
  | Err _ => ∃ l, l ∈ lookups ∧ table_id_change_policy l = Strict ∧
      Watermark.lookup_table_ids ours !! lk_name l ≠ Some (now (lk_name l))
  end.
Proof.
  intros Hnd [Hs [Ht Hnow]%NoDup_cons]%NoDup_cons Hdom. unfold validate_lookup_tables. cbn [ok_or].
  apply not_elem_of_cons in Hs as [Hst Hs]. rewrite bool_decide_eq_false_2 by done.
  rewrite (current_ids_ok now) by (done || intros n id H; by rewrite lookup_empty in H).
  rewrite (right_id_L ∅ (∪)). rewrite Hdom, ids_now_dom.
  rewrite (bool_decide_eq_true_2 (_ = _)) by done. rewrite andb_false_r.
  set (rec := map_to_list (Watermark.lookup_table_ids ours)).
  assert (Hrec : ∀ n was, (n, was) ∈ rec ↔ Watermark.lookup_table_ids ours !! n = Some was)
    by (intros n was; apply elem_of_map_to_list).
  destruct (changed_ids_spec lookups (ids_now now lookups) rec Hnd) as [H1 H2].
  { intros n was H%Hrec%elem_of_dom_2. rewrite Hdom, elem_of_list_to_set in H. split; [|done].
    exists (now n). by apply ids_now_lookup. }
  assert (Hcur : ∀ l, l ∈ lookups → ids_now now lookups !! lk_name l = Some (now (lk_name l)))
    by (intros l Hl; apply ids_now_lookup; split; [by apply list_elem_of_fmap_2|done]).
  assert (Hwas : ∀ l, l ∈ lookups → ∃ was, Watermark.lookup_table_ids ours !! lk_name l = Some was).
  { intros l Hl. apply elem_of_dom. rewrite Hdom, elem_of_list_to_set. by apply list_elem_of_fmap_2. }
  destruct (changed_ids lookups (ids_now now lookups) rec) as [changed|e] eqn:E; simpl in *.
  - split; [done|]. intros l Hl. rewrite H1. destruct (Hwas l Hl) as [was Hw]. split.
    + split.
      * intros (x & w & Hin & Hne & Hx & Ex). apply Hrec in Hin. rewrite Hcur in Hne by done.
        rewrite Hin. congruence.
      * intros Hne. exists l, was. split; [by apply Hrec|]. split; [|done].
        rewrite Hcur by done. congruence.
    + intros (x & w & Hin & Hne & _). by eapply (proj1 H2 eq_refl).
  - assert (Hnot : ¬ Forall (λ l, table_id_change_policy l = Strict →
      Watermark.lookup_table_ids ours !! lk_name l = Some (now (lk_name l))) lookups).
    { intros Hall. rewrite Forall_forall in Hall. discriminate (proj2 H2).
      intros l was Hl Hin Hne. destruct (table_id_change_policy l) eqn:Ep; [|done].
      specialize (Hall l Hl Ep). apply Hrec in Hin. rewrite Hcur in Hne by done. congruence. }
    assert (Hdec : ∀ l, {table_id_change_policy l = Strict →
        Watermark.lookup_table_ids ours !! lk_name l = Some (now (lk_name l))} +
      {¬ (table_id_change_policy l = Strict →
        Watermark.lookup_table_ids ours !! lk_name l = Some (now (lk_name l)))}).
    { intros l. destruct (table_id_change_policy l); [|by left].
      destruct (decide (Watermark.lookup_table_ids ours !! lk_name l = Some (now (lk_name l))));
        [by left|right; intros H; by specialize (H eq_refl)]. }
    apply not_Forall_Exists in Hnot; [|exact Hdec].
    apply Exists_exists in Hnot as (l & Hl & Hn). exists l. split; [done|]. simpl in Hn.
    destruct (table_id_change_policy l); [split; [done|intros H; by apply Hn]|].
    exfalso. by apply Hn.
Qed.

(** Every pipeline opens accepting one table for each of its lookups. *)
Lemma current_ids_dom lookup_id lookups source target cur m :
  current_ids lookup_id lookups source target cur = Ok m →
  dom m = list_to_set (names lookups) ∪ dom cur.
Proof.
  revert cur. induction lookups as [|l lookups IH]; intros cur; simpl.
  { intros [= <-]. set_solver. }
  destruct (lookup_id l) as [[id|]|]; simpl; [|done|done]. destruct (_ || _); [done|].
  destruct (existsb _ _); [done|]. intros H%IH. rewrite H, dom_insert_L. set_solver.
Qed.

Lemma changed_ids_in lookups cur rec s :
  changed_ids lookups cur rec = Ok s → ∀ n, n ∈ s → n ∈ dom cur.
Proof.
  revert s. induction rec as [|[name was] rec IH]; intros s; simpl; [intros [= <-]; set_solver|].
  destruct (cur !! name) as [id|] eqn:E; [|done].
  destruct (if bool_decide _ then _ else _) as [r|]; [|done].
  destruct (changed_ids lookups cur rec) as [more|]; [|done]. intros [= <-] n.
  specialize (IH more eq_refl n). destruct r; [|exact IH].
  intros [->%elem_of_singleton|H]%elem_of_union; [|by apply IH]. by apply elem_of_dom_2 in E.
Qed.

Lemma open_enriching `{!Arrow V} {Bytes Schema} parse_micros parse_stats json_of config
    (t : Tables (V := V) (Bytes := Bytes) (Schema := Schema)) rfc preflight odq
    (p : Pipeline (V := V) (Schema := Schema)) :
  NoDup (names (cfg_lookups config)) →
  open_delta parse_micros parse_stats json_of config t rfc preflight odq = Ok p →
  enriching p.
Proof.
  intros Hnd. unfold open_delta. destruct (our_last_commit _ _ _ _) as [ours|]; [|done].
  destruct (validate_lookup_tables _ _ _ _ _) as [st|] eqn:Ev; [|done].
  destruct (resume_cursor _ _ _ _ _) as [resume|]; [|done].
  destruct (adjust_for_replaced_source _ _ _ _) as [rep|]; [|done].
  destruct (if bootstrapping resume then _ else _); [|done].
  destruct (match dedup_timestamp config with Some _ => _ | None => _ end); [|done].
  destruct (coverage_cutoff _ _ _ _ _ _ _) as [cut|]; [|done].
  destruct (if is_upsert config then _ else _); [|done]. destruct odq; [|done].
  intros [= <-]. revert Ev. unfold validate_lookup_tables.
  destruct (source_id t); simpl; [|done]. destruct (target_id t); simpl; [|done].
  destruct (bool_decide _); [done|].
  destruct (current_ids _ _ _ _ _) as [cur|] eqn:Ec; [|done]. destruct (_ && _); [done|].
  destruct (changed_ids _ _ _) as [changed|] eqn:Ech; [|done]. intros [= <-].
  apply current_ids_dom in Ec. split; simpl; [done|set_solver|].
  intros n Hn. apply (changed_ids_in _ _ _ _ Ech) in Hn. set_solver.
Qed.

(** ** Properties *)

(** A restart knows which lookups were replaced: while a Delta pipeline runs, what the
    newest commit of ours names as its lookups' tables is what the pipeline accepts; so a
    pipeline that opens on that commit, with the lookups' locations holding the tables they
    hold then, opens unless a strict lookup's table is not the one its last batch was enriched
    from, accepts the tables there are, and has marked exactly the lookups whose table was
    replaced, each under the policy that allows it. *)
Theorem a_restart_knows_which_lookups_were_replaced `{!Arrow V} {Bytes Schema} json_of
    apply_isolating coerce_quarantining coerce columns_present_in memory_size scan representable
    (answers : ResolvedLookup → Z → nat → LookupAnswers) (S : LogStore Bytes Schema) budget a
    (p p' : Pipeline (V := V) (Schema := Schema)) ws o w acts v source target now :
  enriching p →
  step_delta json_of apply_isolating coerce_quarantining coerce columns_present_in memory_size scan
    (λ l t, snapshots l representable (answers l t) t) S budget a p = (p', ws, Some (Ok o)) →
  list.last ws = Some w → actions_of w = Some acts →
  NoDup (source :: target :: (now <$> names (cfg_lookups (cfg p)))) →
  let accepted := Lookup.lookup_table_ids (lookup_state p') in
  enriching p' ∧ Watermark.lookup_table_ids (said_by v acts) = accepted ∧
  match validate_lookup_tables (Some source) (Some target) (opens_now now) (cfg_lookups (cfg p))
          (said_by v acts) with
  | Ok st =>
      Lookup.lookup_table_ids st = ids_now now (cfg_lookups (cfg p)) ∧
      ∀ l, l ∈ cfg_lookups (cfg p) →
        (lk_name l ∈ lookup_current_on_open st ↔ accepted !! lk_name l ≠ Some (now (lk_name l))) ∧
        (lk_name l ∈ lookup_current_on_open st → table_id_change_policy l = UseCurrent)
  | Err _ => ∃ l, l ∈ cfg_lookups (cfg p) ∧ table_id_change_policy l = Strict ∧
      accepted !! lk_name l ≠ Some (now (lk_name l))
  end.
Proof.
  intros Hen Hstep Hw Hacts Hnow. cbn zeta.
  destruct (commits_what_is_accepted _ _ _ _ _ _ _ _ _ _ _ _ _ _ _ w acts (λ l t, snapshots_named _ _ _ _) Hen Hstep Hw Hacts)
    as (Hen' & Hcfg & _ & Hsaid).
  split; [done|]. rewrite <-(Hsaid v). split; [done|]. apply validates; [apply Hen|done|].
  rewrite Hsaid, <-Hcfg. apply Hen'.
Qed.

Module LookupsDemo.
Import DeltaDemo.

Definition customers : ResolvedLookup :=
  {| lk_name := "customers"; lk_uri := "lake/customers"; pre_history_version := None;
     table_id_change_policy := Strict |}.
Definition rates : ResolvedLookup :=
  {| lk_name := "rates"; lk_uri := "lake/rates"; pre_history_version := None;
     table_id_change_policy := UseCurrent |}.
Definition config : ResolvedPipeline :=
  {| cfg_app_id := "orders"; cfg_starting_version := 0; cfg_source_uri := "lake/orders";
     watermark_uri := None; dedup_timestamp := None; dedup_key := None; dedup_partition := [];
     is_upsert := false; staging := false; change_policy := FailOnChange;
     cfg_max_files_per_batch := 3; cfg_max_bytes_per_batch := 1000;
     cfg_lookups := [customers; rates]; max_evaluation_rejects_per_batch := 10 |}.

Definition held (id : ResolvedLookup → string) : Tables (V := Z) (Bytes := list Action) (Schema := unit) := {|
  source_log := Demo.store; source_version := Some 3; source_id := Some "id";
  source_columns := ["v"]; source_partitioned := [];
  source_file := λ _, Err (Other "not read"); source_listing := Ok [];
  target_log := target_store; target_id := Some "target"; lookup_id := λ l, Ok (Some (id l));
  target_version := Some 0; target_schema := ["v"];
  target_types := λ _, Int64; target_slack := None; target_rows := [];
  stored_txn := Ok None; watermark_rows := Ok [] |}.
Definition opened : result Error (Pipeline (V := Z) (Schema := unit)) :=
  open_delta no_time no_stats join config (held lk_name) (λ _, EmptyString) (Ok tt) (Ok true).
Definition p : Pipeline (V := Z) (Schema := unit) :=
  Eval vm_compute in match opened with Ok p => p | Err _ => p0 end.

(** [rates] has been replaced since: its head is of another table.  Both lookups had version 0
    at 100 and version 1 after the source's commit. *)
Definition log_of (l : ResolvedLookup) (_ : Z) (_ : nat) : LookupAnswers :=
  let head := if bool_decide (lk_name l = "rates"%string) then "rates2"%string else lk_name l in
  {| open_head := Ok (Some 1, Some head);
     open_at_datetime := λ _, Ok (Some 0, Some (lk_name l));
     open_at_version := λ v, Ok (Some v, Some (if v =? 0 then lk_name l else head));
     log_timestamp := λ v, Ok (if v =? 0 then 100 else 5000);
     open_verified := Ok (Some 1, Some head);
     open_current := Err (Other "not read") |}.
Definition one_step := step_delta join apply quarantine strict present memory
  (λ b, Ok (contents b)) (λ l t, snapshots l (λ _, true) (log_of l t) t) Demo.store unbounded answers p.
Definition p' : Pipeline (V := Z) (Schema := unit) := Eval vm_compute in one_step.1.1.
Definition written : list (Write (V := Z)) := Eval vm_compute in one_step.1.2.
Definition outcome : StepOutcome :=
  Eval vm_compute in match one_step.2 with Some (Ok o) => o | _ => CaughtUp end.
Definition said : list Action :=
  Eval vm_compute in
  match written with [_; Commit _ acts] => acts | _ => [] end.

(** [customers] as of version 0, [rates] at its head, which is the table accepted from then on. *)
Example enriched : lookup_commits (sink p') =
  [ {| lc_name := "customers"; lc_version := 0; lc_table_id := Some "customers";
       used_pre_history := false; used_current := false |};
    {| lc_name := "rates"; lc_version := 1; lc_table_id := Some "rates2";
       used_pre_history := false; used_current := true |} ] ∧
  Lookup.lookup_table_ids (lookup_state p') !! "rates"%string = Some "rates2"%string.
Proof. vm_compute. done. Qed.

Lemma p_enriching : enriching p.
Proof.
  apply (open_enriching no_time no_stats join config (held lk_name) (λ _, EmptyString) (Ok tt) (Ok true)).
  - apply (bool_decide_unpack _). vm_compute. exact I.
  - vm_compute. reflexivity.
Qed.

(** The tables at the next open: [rates] replaced once more, or [customers]. *)
Definition rates_again (n : string) : string :=
  if bool_decide (n = "rates"%string) then "rates3" else n.
Definition validated now := validate_lookup_tables (Some "id"%string) (Some "target"%string)
  (opens_now now) [customers; rates] (said_by 1 said).

Example refused : is_ok (validated (λ n, if bool_decide (n = "customers"%string) then "c2" else "rates2"))%string = false.
Proof. vm_compute. done. Qed.
End LookupsDemo.

Lemma a_restart_knows_which_lookups_were_replaced_witness :
  ∃ st, LookupsDemo.validated LookupsDemo.rates_again = Ok st ∧
    Lookup.lookup_table_ids st = ids_now LookupsDemo.rates_again [LookupsDemo.customers; LookupsDemo.rates] ∧
    "rates"%string ∈ lookup_current_on_open st ∧ "customers"%string ∉ lookup_current_on_open st.
Proof.
  destruct (a_restart_knows_which_lookups_were_replaced DeltaDemo.join DeltaDemo.apply
    DeltaDemo.quarantine DeltaDemo.strict DeltaDemo.present DeltaDemo.memory
    (λ b, Ok (DeltaDemo.contents b)) (λ _, true) LookupsDemo.log_of Demo.store unbounded
    DeltaDemo.answers LookupsDemo.p LookupsDemo.p' LookupsDemo.written LookupsDemo.outcome
    (Commit [{| schema := ["v"%string]; rows := [{[ "v"%string := 10 ]}; {[ "v"%string := 30 ]}] |}] LookupsDemo.said)
    LookupsDemo.said 1 "id" "target" LookupsDemo.rates_again) as (_ & _ & H).
  - exact LookupsDemo.p_enriching.
  - vm_compute. reflexivity.
  - reflexivity.
  - reflexivity.
  - apply (bool_decide_unpack _). vm_compute. exact I.
  - assert (E : is_ok (LookupsDemo.validated LookupsDemo.rates_again) = true) by (vm_compute; reflexivity).
    unfold LookupsDemo.validated in *.
    change (cfg_lookups (cfg LookupsDemo.p)) with [LookupsDemo.customers; LookupsDemo.rates] in H.
    destruct (validate_lookup_tables _ _ _ _ _) as [st|]; [|discriminate E].
    exists st. split; [reflexivity|]. destruct H as [H1 H2]. split; [exact H1|]. split.
    + apply (H2 LookupsDemo.rates); [by right; left|]. vm_compute. discriminate.
    + intros H. destruct (H2 LookupsDemo.customers ltac:(by left)) as [H3 H4].
      specialize (H4 H). discriminate H4.
Defined.
