(* ===== verification/DeltaRejects.v ===== *)
(** * DeltaRejects: what a Delta pipeline's rejects come to in their table (src/dq.rs, src/pipeline.rs)

    DeltaCorrect takes the data-quality table as the list of what was written to it, and a
    write of rejects as one that adds to the list, finds the batch's source version in it, or
    fails ([lands]).  Here that is shown of [DataQuality::write] itself: against a table whose
    commits are those a pipeline of this app id made and any others, [write] and the commit it
    tries are one of those three, and the list is what the table's commits hold. *)

From Stdlib Require Import ZArith Lia.
From stdpp Require Import base list strings gmap.
From S2P Require Import Prelude Json Error F64 Cursor Offset Budget LogStream.
From S2P Require Import LogStreamCorrect Stats Arrow Dedup Rescan Watermark Lookup Dq Open Delta DeltaCorrect.

Open Scope Z_scope.
Open Scope ddi_scope.

Section Rejects.
Context {V : Type} (row_json : RecordBatch V → nat → option string).
(** The writer the table's commits are of. *)
Context (writer : DataQuality).

(** The source version a commit of the writer carries. *)
Definition rejects_txn (c : DqCommit) : option Z :=
  find_map (λ a, match a with
    | A_Txn id v => if decide (id = own_app_id writer) then Some v else None
    | _ => None
    end) (dc_actions c).

(** The version a snapshot of these commits has for the writer. *)
Definition newest_rejects (log : list DqCommit) : option Z := find_map rejects_txn (rev log).

(** What the writer's commits hold, and the rejects they hold it of. *)
Definition writes_of (log : list DqCommit) : list (list DqRow * Z) :=
  omap (λ c, pair (dc_rows c) <$> rejects_txn c) log.
Definition holds (log : list DqCommit) (d : list (list (Rejected V) * Z)) : Prop :=
  Forall2 (λ x y, x.2 = y.2 ∧ ∃ now, x.1 = delta_rows row_json writer y.2 now y.1)
    (writes_of log) d.

(** How the commit a write tried comes out: it lands only if the writer has no commit after
    the handle's version, and an error may hide that it did. *)
Inductive rejects_land (a : DqAnswers) (v : nat) (log : list DqCommit)
    : option DqCommit → list DqCommit → Prop :=
  | nothing_tried : rejects_land a v log None log
  | acknowledged c :
      da_write a = Ok (Z.of_nat (length log)) →
      Forall (λ c, rejects_txn c = None) (drop (S v) log) →
      rejects_land a v log (Some c) (log ++ [c])
  | unheard c e :
      da_write a = Err e → Forall (λ c, rejects_txn c = None) (drop (S v) log) →
      rejects_land a v log (Some c) (log ++ [c])
  | lost c e : da_write a = Err e → rejects_land a v log (Some c) log.

Lemma newest_rejects_in log n :
  newest_rejects log = Some n → ∃ c, c ∈ log ∧ rejects_txn c = Some n.
Proof.
  unfold newest_rejects. intros H.
  assert (Hx : ∃ c, c ∈ rev log ∧ rejects_txn c = Some n).
  { revert H. induction (rev log) as [|c l IH]; simpl; [done|].
    destruct (rejects_txn c) as [m|] eqn:E.
    - intros [= ->]. exists c. split; [by left|done].
    - intros H. destruct (IH H) as (c' & Hc & H'). exists c'. split; [by right|done]. }
  destruct Hx as (c & Hc & Hn). exists c. split; [|done].
  apply list_elem_of_In, in_rev, list_elem_of_In. done.
Qed.

Lemma holds_in log d c n :
  holds log d → c ∈ log → rejects_txn c = Some n → ∃ rj, (rj, n) ∈ d.
Proof.
  intros Hh Hc Hn. assert (Hw : (dc_rows c, n) ∈ writes_of log).
  { apply list_elem_of_omap. exists c. split; [done|]. by rewrite Hn. }
  apply list_elem_of_lookup in Hw as [i Hi].
  destruct (Forall2_lookup_l _ _ _ _ _ Hh Hi) as ([rj m] & Hd & E & _). simpl in E. subst m.
  exists rj. by eapply list_elem_of_lookup_2.
Qed.

Lemma holds_snoc log d c rj n now :
  holds log d → rejects_txn c = Some n → dc_rows c = delta_rows row_json writer n now rj →
  holds (log ++ [c]) (d ++ [(rj, n)]).
Proof.
  intros Hh Hn Hrows. unfold holds, writes_of. rewrite omap_app. apply Forall2_app; [exact Hh|].
  csimpl. rewrite Hn. csimpl. repeat constructor. by exists now.
Qed.
End Rejects.

(** ** Properties *)

(** C6: the data-quality table is what the exactly-once theorem takes it for: a write of a
    batch's rejects either adds all of them to the table under the batch's source version,
    adds nothing because the newest of the writer's commits is this version's, or fails, with
    or without having added them - whatever else is in the table - and answers accordingly. *)
Theorem a_write_of_rejects_is_one_that_lands {V} row_json config (writer dq' : DataQuality) a
    answers (rejected : list (Rejected V)) n now w r v h t log log' d :
  Forall whole rejected → 0 < total_len rejected →
  table writer = Some (Z.of_nat v) → (v < length log)%nat →
  da_txn a (Z.of_nat v) = Ok (newest_rejects writer (take (S v) log)) →
  holds row_json writer log d →
  write row_json writer a rejected n now = (dq', w, r) →
  rejects_land writer a v log (dw_commit <$> w) log' → an_rejects answers = r →
  ∃ d', lands config answers h t d (WriteRejects rejected n) t d' ∧ holds row_json writer log' d'.
Proof.
  intros Hw Hpos Hv Hlt Htxn Hh Hwrite Hland Hr. unfold write in Hwrite.
  destruct (Z.eqb_spec (total_len rejected) 0); [lia|].
  unfold already_recorded in Hwrite. rewrite Hv, Htxn in Hwrite.
  assert (Htried : rejects_txn writer {| dc_actions := dq_properties writer n;
      dc_rows := delta_rows row_json writer n now rejected |} = Some n).
  { unfold rejects_txn. simpl. by rewrite decide_True. }
  case_bool_decide as Hnew.
  { injection Hwrite as <- <- <-. inversion Hland; subst.
    apply newest_rejects_in in Hnew as (c & Hc & Hn).
    destruct (holds_in row_json writer log' d c n Hh) as [rj Hrj];
      [eapply elem_of_sublist; [exact Hc|apply sublist_take]|done|].
    exists d. split; [by eapply rejects_there|done]. }
  rewrite batch_rows in Hwrite by done.
  destruct (da_session a) as [[]|e].
  2: { injection Hwrite as <- <- <-. inversion Hland; subst. exists d. split; [by eapply rejects_failed|done]. }
  destruct (da_write a) as [u|e] eqn:Ew; injection Hwrite as <- <- <-; inversion Hland; subst; try congruence.
  - exists (d ++ [(rejected, n)]). split; [apply rejects_written|by eapply holds_snoc].
  - exists (d ++ [(rejected, n)]). split; [by eapply rejects_unheard|by eapply holds_snoc].
  - exists d. split; [by eapply rejects_failed|done].
Qed.

Module RejectsDemo.
Definition json (b : RecordBatch Z) (i : nat) : option string :=
  (λ r, show_Z (default 0 (r !! "v"%string))) <$> rows b !! i.
Definition rejected : list (Rejected Z) :=
  [ {| rj_rows := {| schema := ["v"%string]; rows := [{[ "v"%string := 20 ]}] |};
       rj_reasons := ["twenty"%string]; rj_columns := [None] |} ].
Definition writer : DataQuality :=
  {| app_id := "orders"; own_app_id := app_id_for "orders"; pipeline := "orders";
     uri := "lake/orders__ddi_dq"; table := Some 1; kafka_prefix := KAFKA_METADATA_PREFIX;
     conflict_retries := 0 |}.
Definition created : DqCommit := {| dc_actions := [A_Other]; dc_rows := [] |}.
(** The rejects of version 5, and somebody else's commit after them. *)
Definition fifth : DqCommit :=
  {| dc_actions := dq_properties writer 5; dc_rows := delta_rows json writer 5 70 rejected |}.
Definition log : list DqCommit := [created; fifth; created].
(** The table refuses another commit. *)
Definition answers : DqAnswers :=
  {| da_txn := λ v, Ok (newest_rejects writer (take (S (Z.to_nat v)) log)); da_session := Ok tt;
     da_protects := false;
     da_write := Err D_Io; da_reopen := Ok 2 |}.
Definition an (r : result Error Z) : Answers :=
  {| an_rejects := r; an_commit := Err (Other "none"); an_reopen := Ok 0 |}.

(** A replay of version 5 writes nothing; version 6 is tried. *)
Example replayed : (write json writer answers rejected 5 99).2 = Ok 0 ∧
  (write json writer answers rejected 5 99).1.2 = None ∧
  is_Some (write json writer answers rejected 6 99).1.2.
Proof. vm_compute. split; [reflexivity|]. split; [reflexivity|]. by eexists. Qed.
End RejectsDemo.

Lemma a_write_of_rejects_is_one_that_lands_witness :
  ∃ d', lands DeltaDemo.config (RejectsDemo.an (Ok 0)) None [] [(RejectsDemo.rejected, 5)]
          (WriteRejects RejectsDemo.rejected 5) [] d' ∧
    holds RejectsDemo.json RejectsDemo.writer RejectsDemo.log d'.
Proof.
  apply (a_write_of_rejects_is_one_that_lands RejectsDemo.json DeltaDemo.config RejectsDemo.writer
    RejectsDemo.writer RejectsDemo.answers (RejectsDemo.an (Ok 0)) RejectsDemo.rejected 5 99 None (Ok 0)
    1%nat None [] RejectsDemo.log RejectsDemo.log [(RejectsDemo.rejected, 5)]).
  - repeat constructor.
  - vm_compute. reflexivity.
  - reflexivity.
  - simpl. lia.
  - reflexivity.
  - repeat constructor. exists 70. reflexivity.
  - vm_compute. reflexivity.
  - constructor.
  - reflexivity.
Defined.
