(* ===== verification/Grain.v ===== *)
(** * Grain: proving a target holds one row per key (src/grain.rs)

    Before a pipeline merges by key, the target is read once per congruence class of its keys'
    hashes, and a hash seen twice in a class is resolved against the keys themselves.  [check]
    is the whole of it, one [scan_class] a pass; what one pass holds is a list of hashes that
    never outgrows its ceiling.

    delta-rs's scan, Arrow's row encoding and SipHash are parameters: every read of the target
    answers with its keys in batches, in whatever order, or fails.  A [usize] is 64 bits. *)

From Stdlib Require Import ZArith Lia.
From stdpp Require Import base list strings gmap sorting.
From S2P Require Import Prelude Error F64 Budget.

Open Scope Z_scope.
Open Scope ddi_scope.

(** ** What one check may hold *)

Inductive CeilingSource := Configured | Default | ClampedToBudget.

Record Ceiling := { bytes : Z; source : CeilingSource }.

Definition MIN : Z := 16000000.
Definition DEFAULT : Z := 512000000.
Definition USABLE_NUM : Z := 7.
Definition USABLE_DEN : Z := 8.
Definition ASSUMED_BYTES_PER_ROW : Z := 64.

(** [Ceiling::resolve], under the process's budget. *)
Definition resolve (current : Budget) (configured : option Z) : result Error Ceiling :=
  match configured with
  | Some n =>
      if n <? MIN then Err (Config "runtime.max_grain_check_memory is too small")
      else Ok {| bytes := n; source := Configured |}
  | None =>
      match per_pipeline current with
      | Some b => if b <? DEFAULT then Ok {| bytes := Z.max b MIN; source := ClampedToBudget |}
                  else Ok {| bytes := DEFAULT; source := Default |}
      | None => Ok {| bytes := DEFAULT; source := Default |}
      end
  end.

Definition hashes_per_pass (c : Ceiling) : Z := u64 (bytes c * USABLE_NUM) / USABLE_DEN / 8.

(** ** Classes *)

Record Class := { modulus : Z; residue : Z }.

Definition holds (c : Class) (h : Z) : bool := h mod modulus c =? residue c.

(** [Class::split] *)
Definition split (c : Class) : option (Class * Class) :=
  let m := modulus c * 2 in
  if u64_max <? m then None
  else Some ({| modulus := m; residue := residue c |},
             {| modulus := m; residue := residue c + modulus c |}).

(** [Duplicate], and its order. *)
Record Duplicate := { key : string; dup_rows : Z }.

Definition duplicate_le (a b : Duplicate) : Prop :=
  match String.compare (key a) (key b) with
  | Lt => True
  | Eq => dup_rows a ≤ dup_rows b
  | Gt => False
  end.

#[export] Instance duplicate_le_dec a b : Decision (duplicate_le a b).
Proof. unfold duplicate_le. destruct (String.compare _ _); apply _. Defined.

Inductive Grain :=
  | Unique (rows : option Z) (passes : Z)
  | Duplicated (examples : list Duplicate) (passes : Z).

Definition MAX_PASSES : Z := 256.
Definition VERIFY_CHUNK : nat := 4096.

(** ** How many classes to start with *)

(** A live file of the target, as its log describes it. *)
Record LiveFile := {
  file_size : Z;
  num_records : option Z;
  deleted_rows : option Z;  (** its deletion vector's cardinality *)
}.

Definition u64_sat_add (a b : Z) : Z := Z.min u64_max (a + b).
Definition u64_sat_mul (a b : Z) : Z := Z.min u64_max (a * b).

(** [live_rows] *)
Definition live_rows (files : list LiveFile) : option Z * Z :=
  fold_left (λ '(rows, bytes) f,
    (match num_records f, rows with
     | Some n, Some acc =>
         Some (u64_sat_add acc (u64_sat_sub n (Z.max 0 (default 0 (deleted_rows f)))))
     | _, _ => None
     end, u64_sat_add bytes (Z.max 0 (file_size f)))) files (Some 0, 0).

Definition div_ceil (a b : Z) : Z := (a + b - 1) / b.

Definition initial_modulus (rows : option Z) (bytes : Z) (c : Ceiling) : Z :=
  let cap := Z.max (hashes_per_pass c) 1 in
  let est := default (bytes / ASSUMED_BYTES_PER_ROW) rows in
  Z.max (div_ceil (u64_sat_mul est 101 / 100) cap) 1.

(** ** One pass *)

Inductive PassOutcome :=
  | Overflowed
  | Candidates (hashes : list Z).

Definition sort (l : list Z) : list Z := merge_sort Z.le l.

(** The first of each two neighbours that are equal ([windows(2)]). *)
Fixpoint repeats (l : list Z) : list Z :=
  match l with
  | a :: (b :: _) as l' => (if decide (a = b) then [a] else []) ++ repeats l'
  | _ => []
  end.

(** [Vec::dedup] *)
Fixpoint dedup (l : list Z) : list Z :=
  match l with
  | a :: (b :: _) as l' => if decide (a = b) then dedup l' else a :: dedup l'
  | _ => l
  end.

(** [compact], of [hashes] and [nominated]; a binary search of a sorted list finds what is in
    it. *)
Definition compact (hashes nominated : list Z) : list Z * list Z :=
  let hashes := sort hashes in
  let nominated := dedup (sort (nominated ++ repeats hashes)) in
  (List.filter (λ h, negb (bool_decide (h ∈ nominated))) (dedup hashes), nominated).

Section Pass.
(** A key cell of the target, null among them, as Arrow encodes and shows it. *)
Context {Cell : Type} (encode : Cell → string) (shown : Cell → string) (hash : string → Z).

Definition hash_of (c : Cell) : Z := hash (encode c).

(** The rows of a pass, between which [hashes] and [nominated] grow. *)
Fixpoint scan_rows (class : Class) (cap : Z) (rows : list Cell) (hashes nominated : list Z)
    : option (list Z * list Z) :=
  match rows with
  | [] => Some (hashes, nominated)
  | c :: rows =>
      if negb (holds class (hash_of c)) then scan_rows class cap rows hashes nominated
      else
        let hashes := hashes ++ [hash_of c] in
        if Z.of_nat (length hashes) + Z.of_nat (length nominated) <? cap
        then scan_rows class cap rows hashes nominated
        else
          let '(hashes, nominated) := compact hashes nominated in
          if cap - cap / 4 <? Z.of_nat (length hashes) + Z.of_nat (length nominated) then None
          else scan_rows class cap rows hashes nominated
  end.

(** [key_stream], what the target's n-th read since the check began answers, in batches. *)
Context (key_stream : nat → result Error (list (list Cell))).

(** [scan_class] *)
Definition scan_class (n : nat) (class : Class) (c : Ceiling) : result Error PassOutcome :=
  let? batches := key_stream n in
  Ok match scan_rows class (Z.max (hashes_per_pass c) 1) (concat batches) [] [] with
     | None => Overflowed
     | Some (hashes, nominated) => Candidates (compact hashes nominated).2
     end.

(** ** Resolving candidates *)

(** One row of [verify]'s pass. *)
Definition count_row (wanted : list Z) (seen : gmap string (Z * string)) (c : Cell)
    : gmap string (Z * string) :=
  if bool_decide (hash_of c ∈ wanted) then
    let '(n, s) := default (0, shown c) (seen !! encode c) in
    <[encode c := (u64 (n + 1), s)]> seen
  else seen.

Definition more_than_once (e : string * (Z * string)) : option Duplicate :=
  let '(_, (n, s)) := e in if 1 <? n then Some {| key := s; dup_rows := n |} else None.
Definition duplicates (seen : gmap string (Z * string)) : list Duplicate :=
  merge_sort duplicate_le (omap more_than_once (map_to_list seen)).

(** [chunks(n)] *)
Fixpoint chunks_go (fuel n : nat) (l : list Z) : list (list Z) :=
  match fuel, l with
  | S fuel, _ :: _ => take n l :: chunks_go fuel n (drop n l)
  | _, _ => []
  end.
Definition chunks (n : nat) (l : list Z) : list (list Z) := chunks_go (length l) n l.

Fixpoint verify_chunks (n : nat) (chunks : list (list Z)) (wanted : nat) (out : list Duplicate)
    : result Error (list Duplicate * nat) :=
  match chunks with
  | [] => Ok (out, n)
  | chunk :: chunks =>
      let? batches := key_stream n in
      let out := out ++ duplicates (fold_left (count_row chunk) (concat batches) ∅) in
      if (wanted <=? length out)%nat then Ok (out, S n) else verify_chunks (S n) chunks wanted out
  end.

(** [verify], and how many reads there were after it. *)
Definition verify (n : nat) (candidates : list Z) (wanted : nat)
    : result Error (list Duplicate * nat) :=
  verify_chunks n (chunks VERIFY_CHUNK candidates) wanted [].

(** ** The check *)

(** The loop over the queue; [budget] more passes may be made. *)
Fixpoint passes_loop (budget : nat) (n : nat) (queue : list Class) (c : Ceiling) (examples : nat)
    (found : list Duplicate) (passes : Z) : result Error (list Duplicate * Z) :=
  match queue with
  | [] => Ok (found, passes)
  | class :: queue =>
      match budget with
      | O => Err (Config "the startup uniqueness check is still splitting the key space")
      | S budget =>
          let passes := passes + 1 in
          let? outcome := scan_class n class c in
          match outcome with
          | Overflowed =>
              match split class with
              | None => Err (Config "the key space is divided as far as it can")
              | Some (a, b) => passes_loop budget (S n) (a :: b :: queue) c examples found passes
              end
          | Candidates [] => passes_loop budget (S n) queue c examples found passes
          | Candidates candidates =>
              let? v := verify (S n) candidates (examples - length found)%nat in
              let '(out, n) := v in
              let found := found ++ out in
              if (examples <=? length found)%nat then Ok (found, passes)
              else passes_loop budget n queue c examples found passes
          end
      end
  end.

(** [check_with] *)
Definition check (files : list LiveFile) (c : Ceiling) (examples : nat) : result Error Grain :=
  let '(rows, bytes) := live_rows files in
  let n0 := initial_modulus rows bytes c in
  if MAX_PASSES <? n0 then Err (Config "the startup uniqueness check would need too many passes")
  else
    let queue := (λ r, {| modulus := n0; residue := Z.of_nat r |}) <$> seq 0 (Z.to_nat n0) in
    let? r := passes_loop (Z.to_nat (MAX_PASSES * 4)) 0 queue c examples [] 0 in
    let '(found, passes) := r in
    Ok match found with
       | [] => Unique rows passes
       | _ => Duplicated (take examples found) passes
       end.

(** [assert_one_row_per_key] of src/upsert.rs *)
Definition EXAMPLES : nat := 3.
Definition assert_one_row_per_key (files : list LiveFile) (c : Ceiling) : result Error Z :=
  let? g := check files c EXAMPLES in
  match g with
  | Unique _ passes => Ok passes
  | Duplicated _ _ => Err (Config "the target already holds a key more than once")
  end.
End Pass.

(** ** Counting *)

Notation occ x l := (count_occ (λ a b, decide (a = b)) l x).

Lemma occ_perm {A} `{EqDecision A} (x : A) l l' : l ≡ₚ l' → occ x l = occ x l'.
Proof. intros H. by apply Permutation_count_occ. Qed.

Lemma occ_in {A} `{EqDecision A} (x : A) l : (0 < occ x l)%nat ↔ x ∈ l.
Proof.
  rewrite list_elem_of_In. split; intros H.
  - by apply (count_occ_In (λ a b, decide (a = b))).
  - by apply (count_occ_In (λ a b, decide (a = b))) in H.
Qed.

Lemma occ_app {A} `{EqDecision A} (x : A) l l' : occ x (l ++ l') = (occ x l + occ x l')%nat.
Proof. apply count_occ_app. Qed.

Lemma occ_cons {A} `{EqDecision A} (x a : A) l :
  occ x (a :: l) = ((if decide (a = x) then 1 else 0) + occ x l)%nat.
Proof. simpl. by destruct (decide (a = x)). Qed.

Lemma occ_nodup {A} `{EqDecision A} (x : A) l : NoDup l → (occ x l ≤ 1)%nat.
Proof. intros H%NoDup_ListNoDup. by apply (proj1 (NoDup_count_occ (λ a b, decide (a = b)) l) H). Qed.

Lemma occ_filter {A} `{EqDecision A} (f : A → bool) x l :
  occ x (List.filter f l) = if f x then occ x l else 0%nat.
Proof.
  induction l as [|a l IH]; simpl; [by destruct (f x)|].
  destruct (decide (a = x)) as [->|Hne].
  - destruct (f x); simpl; [by rewrite decide_True, IH|done].
  - destruct (f a); simpl; [by rewrite decide_False|done].
Qed.

Lemma occ_fmap {A B} `{EqDecision A} `{EqDecision B} (f : A → B) x l :
  (occ x l ≤ occ (f x) (f <$> l))%nat.
Proof.
  induction l as [|a l IH]; [done|]. rewrite fmap_cons, !occ_cons.
  destruct (decide (a = x)) as [->|]; [rewrite decide_True by done; lia|].
  destruct (decide (f a = f x)); lia.
Qed.

Lemma filter_perm {A} (f : A → bool) l l' : l ≡ₚ l' → List.filter f l ≡ₚ List.filter f l'.
Proof.
  induction 1 as [|x l l' _ IH|x y l|l1 l2 l3 _ IH1 _ IH2]; simpl.
  - done.
  - destruct (f x); [by constructor|done].
  - destruct (f x), (f y); try done. constructor.
  - by etrans.
Qed.

(** ** Compaction *)

Lemma sort_perm l : sort l ≡ₚ l.
Proof. apply merge_sort_Permutation. Qed.

Lemma sort_in x l : x ∈ sort l ↔ x ∈ l.
Proof. rewrite !list_elem_of_In. split; apply Permutation_in; [|symmetry]; apply sort_perm. Qed.

Lemma sort_sorted l : StronglySorted Z.le (sort l).
Proof. apply StronglySorted_merge_sort; apply _. Qed.

(** In a sorted list a value's copies lie together. *)
Lemma sorted_repeats l x : StronglySorted Z.le l → x ∈ repeats l ↔ (2 ≤ occ x l)%nat.
Proof.
  induction 1 as [|a l Hs IH Ha]; [split; [intros H; by apply elem_of_nil in H|simpl; lia]|].
  destruct l as [|b l].
  { simpl. split; [intros H; by apply elem_of_nil in H|destruct (decide (a = x)); lia]. }
  rewrite occ_cons. change (repeats (a :: b :: l)) with
    ((if decide (a = b) then [a] else []) ++ repeats (b :: l)).
  rewrite elem_of_app, IH. destruct (decide (a = x)) as [->|Hne].
  - destruct (decide (x = b)) as [->|Hb].
    + rewrite list_elem_of_singleton, occ_cons, decide_True by done. split; [lia|by left].
    + assert (occ x (b :: l) = 0%nat); [|split; [intros [Hin|]; [by apply elem_of_nil in Hin|lia]|lia]].
      apply count_occ_not_In. intros Hin%list_elem_of_In. rewrite Forall_forall in Ha.
      inversion_clear Hs as [|? ? Hs' Hbl]. rewrite Forall_forall in Hbl.
      apply elem_of_cons in Hin as [->|Hin]; [done|].
      pose proof (Ha b ltac:(left)). pose proof (Hbl x Hin). apply Hb. lia.
  - destruct (decide (a = b)) as [->|]; [|rewrite elem_of_nil; split; [intros []; [done|lia]|right; lia]].
    rewrite list_elem_of_singleton. split; [intros [->|]; [done|lia]|right; lia].
Qed.

Lemma dedup_elem x l : x ∈ dedup l ↔ x ∈ l.
Proof.
  induction l as [|a l IH]; [done|]. destruct l as [|b l]; [done|].
  change (dedup (a :: b :: l)) with (if decide (a = b) then dedup (b :: l) else a :: dedup (b :: l)).
  destruct (decide (a = b)) as [->|]; rewrite ?elem_of_cons, ?IH, ?elem_of_cons; naive_solver.
Qed.

Lemma dedup_nodup l : StronglySorted Z.le l → NoDup (dedup l).
Proof.
  induction 1 as [|a l Hs IH Ha]; [constructor|]. destruct l as [|b l]; [apply NoDup_singleton|].
  change (dedup (a :: b :: l)) with (if decide (a = b) then dedup (b :: l) else a :: dedup (b :: l)).
  destruct (decide (a = b)) as [->|Hne]; [done|]. constructor; [|done].
  rewrite dedup_elem. intros Hin. rewrite Forall_forall in Ha.
  inversion_clear Hs as [|? ? Hs' Hbl]. rewrite Forall_forall in Hbl.
  apply elem_of_cons in Hin as [->|Hin]; [done|].
  pose proof (Ha b ltac:(left)). pose proof (Hbl a Hin). apply Hne. lia.
Qed.

Lemma dedup_length l : (length (dedup l) ≤ length l)%nat.
Proof.
  induction l as [|a l IH]; [done|]. destruct l as [|b l]; [done|].
  change (dedup (a :: b :: l)) with (if decide (a = b) then dedup (b :: l) else a :: dedup (b :: l)).
  destruct (decide (a = b)); simpl in *; lia.
Qed.

Record compacted (hashes nominated hashes' nominated' : list Z) : Prop := {
  cp_nominated x : x ∈ nominated' ↔ x ∈ nominated ∨ (2 ≤ occ x hashes)%nat;
  cp_hashes x : x ∈ hashes' ↔ x ∈ hashes ∧ x ∉ nominated';
  cp_hashes_once : NoDup hashes';
  cp_nominated_once : NoDup nominated';
}.

Lemma compact_spec hashes nominated hashes' nominated' :
  compact hashes nominated = (hashes', nominated') → compacted hashes nominated hashes' nominated'.
Proof.
  unfold compact. intros [= <- <-]. split.
  - intros x. rewrite dedup_elem, sort_in, elem_of_app, sorted_repeats by apply sort_sorted.
    by rewrite (occ_perm x _ hashes) by apply sort_perm.
  - intros x. rewrite list_elem_of_In, List.filter_In, <-list_elem_of_In, dedup_elem, sort_in,
      negb_true_iff, bool_decide_eq_false. done.
  - apply NoDup_ListNoDup, List.NoDup_filter, NoDup_ListNoDup, dedup_nodup, sort_sorted.
  - apply dedup_nodup, sort_sorted.
Qed.

(** ** Classes and hashes *)

Definition wf_class (k : Class) : Prop := 0 ≤ residue k < modulus k.
Definition holding (h : Z) (queue : list Class) : list Class := List.filter (λ k, holds k h) queue.

(** Splitting a class tells its hashes apart, and loses none. *)
Lemma split_holds k a b h :
  wf_class k → split k = Some (a, b) → wf_class a ∧ wf_class b ∧
  (if holds k h then 1%nat else 0%nat) = length (holding h [a; b]).
Proof.
  unfold wf_class, split, holding, holds. destruct k as [m r]. simpl. intros [H1 H2].
  destruct (_ <? _); [done|]. intros [= <- <-]. simpl. split; [lia|]. split; [lia|].
  pose proof (Z.mod_pos_bound h (m * 2) ltac:(lia)) as Hb.
  assert (Em : h mod m = (h mod (m * 2)) mod m).
  { rewrite (Z.mod_eq h (m * 2)) by lia.
    replace (h - m * 2 * (h / (m * 2))) with (h + (- (2 * (h / (m * 2)))) * m) by ring.
    by rewrite Z.mod_add by lia. }
  assert (Hd : h mod (m * 2) < m ∧ h mod m = h mod (m * 2) ∨
               m ≤ h mod (m * 2) ∧ h mod m = h mod (m * 2) - m).
  { destruct (Z.lt_ge_cases (h mod (m * 2)) m).
    - left. split; [done|]. rewrite Em. apply Z.mod_small. lia.
    - right. split; [done|]. rewrite Em.
      replace (h mod (m * 2)) with ((h mod (m * 2) - m) + 1 * m) by ring.
      rewrite Z.mod_add by lia. rewrite Z.mod_small by lia. lia. }
  destruct (Z.eqb_spec (h mod m) r), (Z.eqb_spec (h mod (m * 2)) r),
    (Z.eqb_spec (h mod (m * 2)) (r + m)); simpl; lia.
Qed.

Lemma holding_cons h k queue :
  holding h (k :: queue) = (if holds k h then [k] else []) ++ holding h queue.
Proof. unfold holding. simpl. by destruct (holds k h). Qed.

(** The classes a check starts with. *)
Definition initial (n0 : Z) : list Class :=
  (λ r, {| modulus := n0; residue := Z.of_nat r |}) <$> seq 0 (Z.to_nat n0).

Lemma initial_holding n0 h :
  1 ≤ n0 → holding h (initial n0) = [{| modulus := n0; residue := h mod n0 |}].
Proof.
  intros Hn. pose proof (Z.mod_pos_bound h n0 ltac:(lia)) as Hb. unfold initial.
  assert (Hgen : ∀ s len, holding h ((λ r, {| modulus := n0; residue := Z.of_nat r |}) <$> seq s len) =
    if decide (Z.of_nat s ≤ h mod n0 < Z.of_nat s + Z.of_nat len)
    then [{| modulus := n0; residue := h mod n0 |}] else []).
  { intros s len. revert s. induction len as [|len IH]; intros s.
    - rewrite decide_False by lia. done.
    - cbn [seq]. rewrite fmap_cons, holding_cons, IH. unfold holds. cbn [modulus residue].
      destruct (Z.eqb_spec (h mod n0) (Z.of_nat s)) as [E|E].
      + rewrite decide_False by lia. rewrite decide_True by lia. by rewrite E.
      + destruct (decide (Z.of_nat (S s) ≤ h mod n0 < Z.of_nat (S s) + Z.of_nat len));
          [rewrite decide_True by lia|rewrite decide_False by lia]; done. }
  rewrite Hgen, decide_True; [done|lia].
Qed.

Lemma initial_modulus_positive rows bytes c : 1 ≤ initial_modulus rows bytes c.
Proof. unfold initial_modulus. lia. Qed.

(** ** What a pass finds *)

Section Correct.
Context {Cell : Type} `{!EqDecision Cell}.
Context (encode : Cell → string) (shown : Cell → string) (hash : string → Z).
Context (encode_inj : ∀ a b, encode a = encode b → a = b).
Abbreviation hash_of := (hash_of encode hash).
Abbreviation scan_rows := (scan_rows encode hash).

(** The hashes of a class among these rows. *)
Definition class_hashes (class : Class) (rows : list Cell) : list Z :=
  List.filter (holds class) (hash_of <$> rows).

Lemma class_hashes_cons class c rows :
  class_hashes class (c :: rows) =
  (if holds class (hash_of c) then [hash_of c] else []) ++ class_hashes class rows.
Proof. unfold class_hashes. simpl. by destruct (holds class (hash_of c)). Qed.

(** What a pass holds after the hashes [P]. *)
Record pass_inv (P hashes nominated : list Z) : Prop := {
  pi_nominated x : x ∈ nominated → (2 ≤ occ x P)%nat;
  pi_hashes x : x ∉ nominated → occ x hashes = occ x P;
  pi_once : NoDup nominated;
  pi_seen x : x ∈ hashes → x ∈ P;
  pi_size : (length hashes + length nominated ≤ length P)%nat;
}.

Lemma pass_inv_nil : pass_inv [] [] [].
Proof. split; try done; [intros x Hx; by apply elem_of_nil in Hx|constructor]. Qed.

Lemma pass_inv_push P hashes nominated h :
  pass_inv P hashes nominated → pass_inv (P ++ [h]) (hashes ++ [h]) nominated.
Proof.
  intros [H1 H2 H3 H4 H5]. split; [| |done| |].
  - intros x Hx. rewrite occ_app. specialize (H1 x Hx). lia.
  - intros x Hx. by rewrite !occ_app, H2.
  - intros x. rewrite !elem_of_app. intros [Hx|Hx]; [left; by apply H4|by right].
  - rewrite !length_app. simpl. lia.
Qed.

(** Compacted, it is distinct hashes of the class. *)
Lemma pass_inv_compact P hashes nominated hashes' nominated' :
  pass_inv P hashes nominated → compacted hashes nominated hashes' nominated' →
  pass_inv P hashes' nominated' ∧ NoDup (hashes' ++ nominated') ∧
  ∀ x, x ∈ hashes' ++ nominated' → x ∈ P.
Proof.
  intros [H1 H2 H3 H4 H5] [C1 C2 C3 C4].
  assert (Hn : ∀ x, x ∈ nominated' → (2 ≤ occ x P)%nat).
  { intros x [Hx|Hx]%C1; [by apply H1|]. destruct (decide (x ∈ nominated)); [by apply H1|].
    by rewrite <-H2. }
  assert (Hsub : ∀ x, x ∈ hashes' ++ nominated' → x ∈ P).
  { intros x [[Hx _]%C2|Hx%Hn]%elem_of_app; [by apply H4|]. apply occ_in. lia. }
  assert (Hnd : NoDup (hashes' ++ nominated')).
  { apply NoDup_app. split; [done|]. split; [|done]. by intros x [_ Hx]%C2. }
  split; [|done]. split; [done| |done| |].
  - intros x Hx. assert (Hlt : ¬ (2 ≤ occ x hashes)%nat) by (intros H; apply Hx, C1; by right).
    rewrite <-H2 by (intros H; apply Hx, C1; by left).
    pose proof (occ_nodup x hashes' C3). pose proof (occ_in x hashes') as E1.
    pose proof (occ_in x hashes) as E2. rewrite C2 in E1. destruct (decide (x ∈ hashes)); [|].
    + assert (0 < occ x hashes')%nat by (apply E1; done). assert (0 < occ x hashes)%nat by (by apply E2).
      lia.
    + assert (¬ (0 < occ x hashes')%nat) by (rewrite E1; tauto).
      assert (¬ (0 < occ x hashes)%nat) by (by rewrite E2). lia.
  - intros x Hx. apply Hsub, elem_of_app. by left.
  - rewrite <-length_app. by apply submseteq_length, NoDup_submseteq.
Qed.

Lemma scan_rows_cons class cap c rows hashes nominated :
  scan_rows class cap (c :: rows) hashes nominated =
  if holds class (hash_of c) then
    if Z.of_nat (length (hashes ++ [hash_of c])) + Z.of_nat (length nominated) <? cap
    then scan_rows class cap rows (hashes ++ [hash_of c]) nominated
    else
      let '(hashes, nominated) := compact (hashes ++ [hash_of c]) nominated in
      if cap - cap / 4 <? Z.of_nat (length hashes) + Z.of_nat (length nominated) then None
      else scan_rows class cap rows hashes nominated
  else scan_rows class cap rows hashes nominated.
Proof. cbn [Grain.scan_rows]. by destruct (holds class (hash_of c)). Qed.

Lemma scan_rows_inv class cap rows P hashes nominated hashes' nominated' :
  scan_rows class cap rows hashes nominated = Some (hashes', nominated') →
  pass_inv P hashes nominated → pass_inv (P ++ class_hashes class rows) hashes' nominated'.
Proof.
  revert P hashes nominated. induction rows as [|c rows IH]; intros P hashes nominated.
  { simpl. intros [= <- <-]. by rewrite app_nil_r. }
  rewrite scan_rows_cons, class_hashes_cons.
  destruct (holds class (hash_of c)); [|by intros H Hi; eapply IH].
  rewrite app_assoc. intros H Hi. apply (pass_inv_push _ _ _ (hash_of c)) in Hi.
  destruct (_ <? cap); [by eapply IH|].
  destruct (compact _ nominated) as [hs nom] eqn:Ec. destruct (_ <? _); [done|].
  eapply IH; [exact H|]. eapply pass_inv_compact; [exact Hi|by apply compact_spec].
Qed.

(** The memory bound: between rows a pass holds fewer than its ceiling. *)
Lemma scan_rows_bound class cap rows hashes nominated hashes' nominated' :
  4 ≤ cap → Z.of_nat (length hashes) + Z.of_nat (length nominated) < cap →
  scan_rows class cap rows hashes nominated = Some (hashes', nominated') →
  Z.of_nat (length hashes') + Z.of_nat (length nominated') < cap.
Proof.
  intros Hcap. revert hashes nominated. induction rows as [|c rows IH]; intros hashes nominated Hl.
  { by intros [= <- <-]. }
  rewrite scan_rows_cons. destruct (holds class (hash_of c)); [|by apply IH].
  destruct (Z.ltb_spec (Z.of_nat (length (hashes ++ [hash_of c])) + Z.of_nat (length nominated)) cap);
    [by apply IH|].
  destruct (compact _ nominated) as [hs nom] eqn:Ec.
  destruct (Z.ltb_spec (cap - cap / 4) (Z.of_nat (length hs) + Z.of_nat (length nom))); [done|].
  apply IH. assert (1 ≤ cap / 4) by (apply Z.div_le_lower_bound; lia). lia.
Qed.

(** A class overflows only on rows that reach the ceiling with mostly distinct hashes. *)
Definition fits (cap : Z) (P : list Z) : Prop :=
  Z.of_nat (length P) < cap ∨
  ∀ l, NoDup l → (∀ x, x ∈ l → x ∈ P) → Z.of_nat (length l) ≤ cap - cap / 4.

Lemma scan_rows_fits class cap rows P hashes nominated :
  pass_inv P hashes nominated → fits cap (P ++ class_hashes class rows) →
  is_Some (scan_rows class cap rows hashes nominated).
Proof.
  revert P hashes nominated. induction rows as [|c rows IH]; intros P hashes nominated Hi Hf.
  { by eexists. }
  rewrite scan_rows_cons. rewrite class_hashes_cons in Hf.
  destruct (holds class (hash_of c)); [|by eapply IH].
  apply (pass_inv_push _ _ _ (hash_of c)) in Hi. rewrite app_assoc in Hf.
  destruct (Z.ltb_spec (Z.of_nat (length (hashes ++ [hash_of c])) + Z.of_nat (length nominated)) cap)
    as [|Hge]; [by eapply IH|].
  destruct (compact _ nominated) as [hs nom] eqn:Ec.
  destruct (pass_inv_compact _ _ _ hs nom Hi) as (Hi' & Hnd & Hsub); [by apply compact_spec|].
  destruct (Z.ltb_spec (cap - cap / 4) (Z.of_nat (length hs) + Z.of_nat (length nom))) as [Hov|];
    [|by eapply IH].
  exfalso. destruct Hf as [Hf|Hf].
  - pose proof (pi_size _ _ _ Hi). rewrite length_app in Hf. lia.
  - specialize (Hf (hs ++ nom) Hnd). rewrite length_app in Hf.
    assert (∀ x, x ∈ hs ++ nom → x ∈ (P ++ [hash_of c]) ++ class_hashes class rows)
      by (intros x Hx; apply elem_of_app; left; by apply Hsub).
    specialize (Hf ltac:(done)). lia.
Qed.

(** ** Against one target *)

Context (key_stream : nat → result Error (list (list Cell))) (target : list Cell).
Context (reads : ∀ n b, key_stream n = Ok b → concat b ≡ₚ target).
Context (small : Z.of_nat (length target) ≤ u64_max).
Abbreviation scan_class := (scan_class encode hash key_stream).
Abbreviation verify_chunks := (verify_chunks encode shown hash key_stream).

Lemma class_hashes_perm class rows rows' :
  rows ≡ₚ rows' → class_hashes class rows ≡ₚ class_hashes class rows'.
Proof. intros H. unfold class_hashes. apply filter_perm. by rewrite H. Qed.

Lemma scan_class_candidates n class c l :
  scan_class n class c = Ok (Candidates l) →
  NoDup l ∧ ∀ h, h ∈ l ↔ holds class h = true ∧ (2 ≤ occ h (hash_of <$> target))%nat.
Proof.
  unfold Grain.scan_class. destruct (key_stream n) as [b|] eqn:Ek; [|done].
  apply reads in Ek. destruct (scan_rows _ _ _ _ _) as [[hs nom]|] eqn:Es; [|done].
  intros El. assert (l = (compact hs nom).2) as -> by congruence. clear El.
  apply (scan_rows_inv _ _ _ []) in Es; [|apply pass_inv_nil]. rewrite app_nil_l in Es.
  destruct (compact hs nom) as [hs' nom'] eqn:Ec. apply compact_spec in Ec. cbn [snd].
  destruct (pass_inv_compact _ _ _ _ _ Es Ec) as ([H1 H2 H3 H4 H5] & _). split; [done|].
  intros h. assert (E : occ h (class_hashes class (concat b)) =
    if holds class h then occ h (hash_of <$> target) else 0%nat).
  { unfold class_hashes. rewrite occ_filter. destruct (holds class h); [|done].
    apply occ_perm. by rewrite Ek. }
  split.
  - intros Hh%H1. rewrite E in Hh. destruct (holds class h); [done|lia].
  - intros [Hh Ho]. rewrite Hh in E. destruct (decide (h ∈ nom')) as [|Hn]; [done|].
    exfalso. assert (Hlt : ¬ (2 ≤ occ h hs)%nat) by (intros H; apply Hn, (cp_nominated _ _ _ _ Ec); by right).
    apply Hlt. rewrite (pi_hashes _ _ _ Es), E; [done|].
    intros H. apply Hn, (cp_nominated _ _ _ _ Ec). by left.
Qed.

Lemma scan_class_fits n class c :
  is_Some (ok (key_stream n)) → fits (Z.max (hashes_per_pass c) 1) (class_hashes class target) →
  ∃ l, scan_class n class c = Ok (Candidates l).
Proof.
  intros [b Hb] Hf. unfold Grain.scan_class. destruct (key_stream n) as [b'|] eqn:Ek; [|done].
  apply reads in Ek. edestruct (scan_rows_fits class (Z.max (hashes_per_pass c) 1) (concat b') [])
    as [[hs nom] ->]; [apply pass_inv_nil| |by eexists].
  simpl. destruct Hf as [Hf|Hf].
  - left. by rewrite (class_hashes_perm _ _ _ Ek).
  - right. intros l Hl Hin. apply Hf; [done|]. intros x Hx%Hin. apply list_elem_of_In.
    eapply Permutation_in; [by apply class_hashes_perm|by apply list_elem_of_In].
Qed.

(** ** What resolving finds *)

(** How a key the target holds is reported. *)
Definition as_found (c : Cell) : Duplicate :=
  {| key := shown c; dup_rows := Z.of_nat (occ c target) |}.

(** What one read counted of the wanted hashes. *)
Definition counted (wanted : list Z) (rows : list Cell) (seen : gmap string (Z * string)) : Prop :=
  ∀ k v, seen !! k = Some v ↔
    ∃ c, encode c = k ∧ hash_of c ∈ wanted ∧ c ∈ rows ∧ v = (Z.of_nat (occ c rows), shown c).

Lemma count_row_counted wanted rows c seen :
  Z.of_nat (length (rows ++ [c])) ≤ u64_max → counted wanted rows seen →
  counted wanted (rows ++ [c]) (count_row encode shown hash wanted seen c).
Proof.
  intros Hl Hc. rewrite length_app in Hl. simpl in Hl. unfold count_row.
  assert (Hother : ∀ d, d ≠ c → occ d (rows ++ [c]) = occ d rows ∧ (d ∈ rows ++ [c] ↔ d ∈ rows)).
  { intros d Hd. rewrite occ_app, elem_of_app, list_elem_of_singleton. simpl.
    rewrite decide_False by congruence. split; [lia|naive_solver]. }
  case_bool_decide as Hw.
  - assert (Eseen : default (0, shown c) (seen !! encode c) = (Z.of_nat (occ c rows), shown c)).
    { destruct (seen !! encode c) as [v|] eqn:E; simpl.
      - apply Hc in E as (d & Hd%encode_inj & _ & _ & ->). by subst d.
      - assert (Hn : ¬ (0 < occ c rows)%nat).
        { intros H%occ_in. assert (seen !! encode c = Some (Z.of_nat (occ c rows), shown c))
            by (apply Hc; by exists c). congruence. }
        by replace (occ c rows) with 0%nat by lia. }
    rewrite Eseen. pose proof (count_occ_bound (λ a b, decide (a = b)) c rows) as Hb.
    assert (Eu : u64 (Z.of_nat (occ c rows) + 1) = Z.of_nat (occ c (rows ++ [c]))).
    { rewrite occ_app. simpl. rewrite decide_True by done. rewrite u64_small; [lia|].
      split; [lia|]. lia. }
    rewrite Eu. intros k v. destruct (decide (k = encode c)) as [->|Hk].
    + rewrite lookup_insert_eq. split.
      * intros [= <-]. exists c. split; [done|]. split; [done|]. split; [|done].
        apply elem_of_app. right. by left.
      * intros (d & Hd%encode_inj & _ & _ & ->). by subst d.
    + rewrite lookup_insert_ne by done. rewrite (Hc k v). split; intros (d & <- & H1 & H2 & ->).
      * destruct (Hother d ltac:(congruence)) as [E1 E2]. exists d. rewrite E1, E2. done.
      * destruct (Hother d ltac:(congruence)) as [E1 E2]. exists d. by rewrite <-E1, <-E2.
  - intros k v. rewrite (Hc k v). split; intros (d & <- & H1 & H2 & ->).
    + destruct (Hother d ltac:(congruence)) as [E1 E2]. exists d. rewrite E1, E2. done.
    + destruct (Hother d ltac:(congruence)) as [E1 E2]. exists d. by rewrite <-E1, <-E2.
Qed.

Lemma fold_counted wanted rows :
  Z.of_nat (length rows) ≤ u64_max →
  counted wanted rows (fold_left (count_row encode shown hash wanted) rows ∅).
Proof.
  induction rows as [|c rows IH] using rev_ind; intros Hl.
  - intros k v. simpl. rewrite lookup_empty. split; [done|].
    intros (c & _ & _ & H & _). by apply elem_of_nil in H.
  - rewrite fold_left_app. simpl. apply count_row_counted; [done|]. apply IH.
    rewrite length_app in Hl. simpl in Hl. lia.
Qed.

Lemma entries_found (kvs : list (string * (Z * string))) :
  NoDup (kvs.*1) →
  (∀ k v, (k, v) ∈ kvs → ∃ c, encode c = k ∧ v = (Z.of_nat (occ c target), shown c)) →
  ∃ cs, NoDup cs ∧
    omap more_than_once kvs = as_found <$> cs ∧
    ∀ c, c ∈ cs ↔ encode c ∈ kvs.*1 ∧ (2 ≤ occ c target)%nat.
Proof.
  induction kvs as [|[k v] kvs IH]; intros Hnd Hv.
  { exists []. split; [constructor|]. split; [done|]. intros c. simpl. rewrite !elem_of_nil. naive_solver. }
  inversion_clear Hnd as [|? ? Hk Hnd'].
  destruct (IH Hnd') as (cs & H1 & H2 & H3); [intros k' v' H; apply Hv; by right|].
  destruct (Hv k v ltac:(left)) as (c & Ec & ->).
  change (omap more_than_once ((k, (Z.of_nat (occ c target), shown c)) :: kvs)) with
    (match more_than_once (k, (Z.of_nat (occ c target), shown c)) with
     | Some d => d :: omap more_than_once kvs
     | None => omap more_than_once kvs
     end). rewrite H2. simpl.
  assert (Hfresh : c ∉ cs) by (intros [Hin _]%H3; apply Hk; by rewrite <-Ec).
  destruct (Z.ltb_spec 1 (Z.of_nat (occ c target))) as [Hgt|Hle].
  - exists (c :: cs). split; [by constructor|]. split; [done|]. intros d.
    rewrite !elem_of_cons, H3, <-Ec. split.
    + intros [->|[Hd Ho]]; [split; [by left|lia]|split; [by right|done]].
    + intros [[Hd%encode_inj|Hd] Ho]; [by left|by right].
  - exists cs. split; [done|]. split; [done|]. intros d. rewrite elem_of_cons, H3, <-Ec. split.
    + intros [Hd Ho]. split; [by right|done].
    + intros [[Hd%encode_inj|Hd] Ho]; [subst d; lia|done].
Qed.

(** The keys held more than once whose hash is wanted, each once. *)
Definition resolves (wanted : list Z) (ds : list Duplicate) (cs : list Cell) : Prop :=
  NoDup cs ∧ ds = as_found <$> cs ∧
  ∀ c, c ∈ cs → hash_of c ∈ wanted ∧ (2 ≤ occ c target)%nat.

Lemma duplicates_resolve n batches wanted :
  key_stream n = Ok batches → ∃ cs,
    resolves wanted (duplicates (fold_left (count_row encode shown hash wanted) (concat batches) ∅)) cs ∧
    ∀ c, hash_of c ∈ wanted → (2 ≤ occ c target)%nat → c ∈ cs.
Proof.
  intros Hb%reads. set (seen := fold_left _ _ ∅).
  assert (Hlen : Z.of_nat (length (concat batches)) ≤ u64_max) by (by rewrite Hb).
  pose proof (fold_counted wanted _ Hlen) as Hc. fold seen in Hc.
  assert (Hocc : ∀ c, occ c (concat batches) = occ c target) by (intros c; by apply occ_perm).
  destruct (entries_found (map_to_list seen)) as (cs & H1 & H2 & H3).
  { apply NoDup_fst_map_to_list. }
  { intros k v Hkv%elem_of_map_to_list. apply Hc in Hkv as (c & Ec & _ & _ & ->). exists c.
    by rewrite Hocc. }
  assert (Hin : ∀ c, c ∈ cs ↔ hash_of c ∈ wanted ∧ (2 ≤ occ c target)%nat).
  { intros c. rewrite H3. split; intros [Hk Ho]; (split; [|done]).
    - apply list_elem_of_fmap in Hk as ([k v] & Ek & Hkv%elem_of_map_to_list). simpl in Ek.
      apply Hc in Hkv as (d & Ed & Hw & _). rewrite <-Ek in Ed. apply encode_inj in Ed. by subst d.
    - apply list_elem_of_fmap. exists (encode c, (Z.of_nat (occ c target), shown c)).
      split; [done|]. apply elem_of_map_to_list, Hc. exists c. rewrite Hocc. split; [done|].
      split; [done|]. split; [|done]. apply occ_in. rewrite Hocc. lia. }
  unfold duplicates. rewrite H2.
  assert (Hp0 : merge_sort duplicate_le (as_found <$> cs) ≡ₚ map as_found cs)
    by apply merge_sort_Permutation.
  apply Permutation_map_inv in Hp0 as (cs' & E & Hp).
  exists cs'. split; [split; [by rewrite <-Hp|split; [exact E|]]|].
  - intros c Hc'. apply Hin. apply list_elem_of_In. eapply Permutation_in; [symmetry; exact Hp|].
    by apply list_elem_of_In.
  - intros c Hw Ho. apply list_elem_of_In. eapply Permutation_in; [exact Hp|].
    apply list_elem_of_In. by apply Hin.
Qed.


Lemma resolves_app done_ wanted ds ds' cs cs' :
  NoDup (done_ ++ wanted) → resolves done_ ds cs → resolves wanted ds' cs' →
  resolves (done_ ++ wanted) (ds ++ ds') (cs ++ cs').
Proof.
  intros Hnd (H1 & -> & H3) (H1' & -> & H3'). apply NoDup_app in Hnd as (_ & Hd & _).
  split; [|split; [by rewrite fmap_app|]].
  - apply NoDup_app. split; [done|]. split; [|done]. intros c [Hc _]%H3 [Hc' _]%H3'.
    by apply (Hd (hash_of c)).
  - intros c. rewrite !elem_of_app. intros [[? ?]%H3|[? ?]%H3']; (split; [|done]); [by left|by right].
Qed.

Lemma verify_chunks_resolve chunks n wanted done_ out n' out' cs :
  NoDup (done_ ++ concat chunks) → resolves done_ out cs →
  (∀ c, hash_of c ∈ done_ → (2 ≤ occ c target)%nat → c ∈ cs) →
  verify_chunks n chunks wanted out = Ok (out', n') → ∃ cs',
    resolves (done_ ++ concat chunks) out' cs' ∧
    ((length out' < wanted)%nat →
       ∀ c, hash_of c ∈ done_ ++ concat chunks → (2 ≤ occ c target)%nat → c ∈ cs').
Proof.
  revert n done_ out cs. induction chunks as [|chunk chunks IH]; intros n done_ out cs Hnd Hr Hall; simpl.
  { intros [= <- <-]. exists cs. rewrite app_nil_r. by split. }
  destruct (key_stream n) as [b|] eqn:Ek; [|done].
  destruct (duplicates_resolve n b chunk Ek) as (cs1 & Hr1 & Hall1).
  set (ds := duplicates _) in *. simpl in Hnd. rewrite app_assoc in Hnd.
  pose proof Hnd as Hnd'. apply NoDup_app in Hnd' as (Hnd1 & _ & _).
  pose proof (resolves_app _ _ _ _ _ _ Hnd1 Hr Hr1) as Hr2.
  assert (Hall2 : ∀ c, hash_of c ∈ done_ ++ chunk → (2 ≤ occ c target)%nat → c ∈ cs ++ cs1).
  { intros c Hc Ho. apply elem_of_app. apply elem_of_app in Hc as [Hc|Hc]; [left|right]; auto. }
  rewrite app_assoc. destruct (Nat.leb_spec wanted (length (out ++ ds))) as [Hle|Hlt].
  - intros [= <- <-]. exists (cs ++ cs1). split; [|lia].
    destruct Hr2 as (G1 & G2 & G3). split; [done|]. split; [done|].
    intros c Hc. destruct (G3 c Hc) as [Hw Ho]. split; [|done]. apply elem_of_app. by left.
  - intros H. destruct (IH (S n) (done_ ++ chunk) (out ++ ds) (cs ++ cs1) Hnd Hr2 Hall2 H)
      as (cs' & G1 & G2). by exists cs'.
Qed.

Lemma concat_chunks_go fuel n l :
  (0 < n)%nat → (length l ≤ fuel)%nat → concat (chunks_go fuel n l) = l.
Proof.
  intros Hn. revert l. induction fuel as [|fuel IH]; intros [|a l] Hl; try done; [simpl in Hl; lia|].
  cbn [chunks_go]. cbn [concat]. rewrite IH; [apply take_drop|].
  rewrite length_drop. simpl in *. lia.
Qed.

Lemma verify_resolves n candidates wanted out n' :
  NoDup candidates → verify encode shown hash key_stream n candidates wanted = Ok (out, n') → ∃ cs,
    resolves candidates out cs ∧
    ((length out < wanted)%nat → ∀ c, hash_of c ∈ candidates → (2 ≤ occ c target)%nat → c ∈ cs).
Proof.
  unfold verify. intros Hnd H. assert (E : concat (chunks VERIFY_CHUNK candidates) = candidates).
  { unfold chunks. apply concat_chunks_go; [|done]. unfold VERIFY_CHUNK. lia. }
  rewrite <-E in Hnd. rewrite <-E.
  eapply (verify_chunks_resolve _ _ _ [] []); [exact Hnd| | |exact H].
  - split; [constructor|]. split; [done|]. intros c Hc. by apply elem_of_nil in Hc.
  - intros c Hc. by apply elem_of_nil in Hc.
Qed.

(** ** The loop *)

Record loop_inv (queue : list Class) (found : list Duplicate) (cs : list Cell) : Prop := {
  li_once : NoDup cs;
  li_found : found = as_found <$> cs;
  li_twice c : c ∈ cs → (2 ≤ occ c target)%nat;
  li_cover c : (2 ≤ occ c target)%nat → c ∈ cs ∨ holding (hash_of c) queue ≠ [];
  li_apart c : c ∈ cs → holding (hash_of c) queue = [];
  li_disjoint h : (length (holding h queue) ≤ 1)%nat;
  li_wf : Forall wf_class queue;
}.

Lemma inv_split k a b queue found cs :
  loop_inv (k :: queue) found cs → split k = Some (a, b) → loop_inv (a :: b :: queue) found cs.
Proof.
  intros [H1 H2 H3 H4 H5 H6 H7] Hs. inversion_clear H7 as [|? ? Hk Hq].
  assert (E : ∀ h, length (holding h (a :: b :: queue)) = length (holding h (k :: queue))).
  { intros h. destruct (split_holds k a b h Hk Hs) as (_ & _ & E). revert E.
    unfold holding. simpl. destruct (holds k h), (holds a h), (holds b h); simpl; lia. }
  assert (En : ∀ h, holding h (a :: b :: queue) = [] ↔ holding h (k :: queue) = []).
  { intros h. specialize (E h). split; intros Hn; rewrite Hn in E; cbn [length] in E; apply nil_length_inv; lia. }
  destruct (split_holds k a b 0 Hk Hs) as (Ha & Hb & _). split; try done.
  - intros c Ho. destruct (H4 c Ho) as [|Hn]; [by left|right]. by rewrite En.
  - intros c Hc. by apply En, H5.
  - intros h. rewrite E. apply H6.
  - constructor; [done|]. by constructor.
Qed.

(** A class that was resolved is done with. *)
Lemma inv_resolved k queue found cs l out new :
  loop_inv (k :: queue) found cs →
  (∀ h, h ∈ l ↔ holds k h = true ∧ (2 ≤ occ h (hash_of <$> target))%nat) →
  resolves l out new → 
  ((∀ c, hash_of c ∈ l → (2 ≤ occ c target)%nat → c ∈ new) → loop_inv queue (found ++ out) (cs ++ new)) ∧
  NoDup (cs ++ new) ∧ (∀ c, c ∈ cs ++ new → (2 ≤ occ c target)%nat) ∧
  found ++ out = as_found <$> cs ++ new.
Proof.
  intros [H1 H2 H3 H4 H5 H6 H7] Hl (R1 & R2 & R3). inversion_clear H7 as [|? ? Hk Hq].
  assert (Hnd : NoDup (cs ++ new)).
  { apply NoDup_app. split; [done|]. split; [|done]. intros c Hc [Hh _]%R3.
    apply Hl in Hh as [Hh _]. pose proof (H5 c Hc) as E. rewrite holding_cons, Hh in E. done. }
  assert (Htw : ∀ c, c ∈ cs ++ new → (2 ≤ occ c target)%nat).
  { intros c [Hc|Hc]%elem_of_app; [by apply H3|by apply R3]. }
  assert (Hf : found ++ out = as_found <$> cs ++ new) by (by rewrite fmap_app, H2, R2).
  split; [|done]. intros Hall. split; try done.
  - intros c Ho. destruct (H4 c Ho) as [|Hn]; [left; apply elem_of_app; by left|].
    rewrite holding_cons in Hn. destruct (holds k (hash_of c)) eqn:Eh; [left|by right].
    apply elem_of_app. right. apply Hall; [|done]. apply Hl. split; [done|].
    pose proof (occ_fmap hash_of c target). lia.
  - intros c [Hc|Hc]%elem_of_app.
    + pose proof (H5 c Hc) as E. rewrite holding_cons in E. by apply app_eq_nil in E as [_ E].
    + apply R3 in Hc as [[Hh _]%Hl _]. specialize (H6 (hash_of c)).
      rewrite holding_cons, Hh, length_app in H6. simpl in H6. apply nil_length_inv. lia.
  - intros h. specialize (H6 h). rewrite holding_cons, length_app in H6. lia.
Qed.

(** What the loop ends with. *)
Definition finished (examples : nat) (found : list Duplicate) : Prop :=
  ∃ cs, NoDup cs ∧ found = as_found <$> cs ∧ (∀ c, c ∈ cs → (2 ≤ occ c target)%nat) ∧
    ((examples ≤ length found)%nat ∨ ∀ c, (2 ≤ occ c target)%nat → c ∈ cs).

Lemma passes_loop_finished ceiling examples budget n queue found cs passes found' passes' :
  loop_inv queue found cs → (length found < examples)%nat →
  passes_loop encode shown hash key_stream budget n queue ceiling examples found passes =
    Ok (found', passes') →
  finished examples found' ∧ passes' ≤ passes + Z.of_nat budget.
Proof.
  revert n queue found cs passes. induction budget as [|budget IH];
    intros n queue found cs passes Hi Hex; destruct queue as [|k queue].
  1, 3: intros [= <- <-]; split; [|lia]; exists cs; destruct Hi as [H1 H2 H3 H4 _ _ _];
    (split; [done|]); (split; [done|]); (split; [done|]); right; intros c Hc;
    by destruct (H4 c Hc).
  { done. }
  cbn [passes_loop]. destruct (scan_class n k ceiling) as [[|l]|] eqn:Es; [| |done].
  - destruct (split k) as [[a b]|] eqn:Ek; [|done]. intros H.
    eapply IH in H; [|by eapply inv_split|done]. split; [apply H|lia].
  - apply scan_class_candidates in Es as [Hl Hin].
    destruct l as [|h l].
    + intros H. assert (Hr : resolves [] [] []).
      { split; [constructor|]. split; [done|]. intros c Hc. by apply elem_of_nil in Hc. }
      destruct (inv_resolved _ _ _ _ _ _ _ Hi Hin Hr) as [Hi' _].
      rewrite !app_nil_r in Hi'. eapply IH in H; [|apply Hi'|done].
      { split; [apply H|lia]. } intros c Hc. by apply elem_of_nil in Hc.
    + set (cands := h :: l) in *.
      destruct (verify encode shown hash key_stream (S n) cands (examples - length found))
        as [[out n']|] eqn:Ev; [|done].
      apply verify_resolves in Ev as (new & Hr & Hall); [|done].
      destruct (inv_resolved _ _ _ _ _ _ _ Hi Hin Hr) as (Hi' & Hnd & Htw & Hf).
      cbv iota beta. destruct (Nat.leb_spec examples (length (found ++ out))) as [Hle|Hlt].
      * intros [= <- <-]. split; [|lia]. exists (cs ++ new). split; [done|]. split; [done|].
        split; [done|by left].
      * intros H. rewrite length_app in Hlt. eapply IH in H; [| |rewrite length_app; lia].
        { split; [apply H|lia]. } apply Hi', Hall. lia.
Qed.

Lemma initial_inv n0 : 1 ≤ n0 → loop_inv (initial n0) [] [].
Proof.
  intros Hn. split.
  - constructor.
  - done.
  - intros c Hc. by apply elem_of_nil in Hc.
  - intros c _. right. by rewrite initial_holding.
  - intros c Hc. by apply elem_of_nil in Hc.
  - intros h. by rewrite initial_holding.
  - apply Forall_forall. intros k Hk. unfold initial in Hk.
    apply list_elem_of_fmap in Hk as (r & -> & Hr%elem_of_seq). unfold wf_class. simpl. lia.
Qed.

(** With room for every class, each is read once. *)
Lemma passes_loop_answers ceiling examples queue : ∀ budget n found passes,
  (∀ n, is_Some (ok (key_stream n))) →
  Forall (λ k, fits (Z.max (hashes_per_pass ceiling) 1) (class_hashes k target)) queue →
  (length queue ≤ budget)%nat →
  ∃ r, passes_loop encode shown hash key_stream budget n queue ceiling examples found passes = Ok r.
Proof.
  induction queue as [|k queue IH]; intros budget n found passes Hk Hf Hb.
  { destruct budget; by eexists. }
  destruct budget as [|budget]; [simpl in Hb; lia|]. inversion_clear Hf as [|? ? Hfk Hfq].
  cbn [passes_loop]. destruct (scan_class_fits n k ceiling (Hk n) Hfk) as [l ->].
  simpl in Hb. destruct l as [|h l]; [apply IH; [done|done|lia]|].
  assert (Hv : ∀ chunks n wanted out, ∃ r, verify_chunks n chunks wanted out = Ok r).
  { intros chunks. induction chunks as [|ch chunks IHc]; intros m wanted out; simpl; [by eexists|].
    destruct (Hk m) as [b Hb']. destruct (key_stream m); [|done].
    destruct (_ <=? _)%nat; [by eexists|apply IHc]. }
  unfold verify. destruct (Hv (chunks VERIFY_CHUNK (h :: l)) (S n) (examples - length found)%nat [])
    as [[out n'] ->]. cbv iota beta.
  destruct (_ <=? _)%nat; [by eexists|]. apply IH; [done|done|lia].
Qed.
End Correct.

(** ** Properties *)

(** C24: the grain check is exact: when it says unique, no key is in the target twice, null
    keys included; when it shows duplicates, they are distinct keys the target does hold more
    than once, as many as it says, at most as many as asked for and at least one.  So it is for
    any hash, with all the collisions it may have, and for any order in which the rows are
    read; and it reads no more than [4 * MAX_PASSES] classes. *)
Theorem the_grain_check_is_exact {Cell} `{!EqDecision Cell} (encode shown : Cell → string) hash
    key_stream (target : list Cell) files c examples g :
  (∀ a b, encode a = encode b → a = b) →
  (∀ n b, key_stream n = Ok b → concat b ≡ₚ target) →
  Z.of_nat (length target) ≤ u64_max → (0 < examples)%nat →
  check encode shown hash key_stream files c examples = Ok g →
  match g with
  | Unique _ passes => NoDup target ∧ passes ≤ 4 * MAX_PASSES
  | Duplicated ds passes =>
      passes ≤ 4 * MAX_PASSES ∧ ds ≠ [] ∧ (length ds ≤ examples)%nat ∧
      ∃ cs, NoDup cs ∧ (∀ k, k ∈ cs → (2 ≤ occ k target)%nat) ∧
        ds = (λ k, {| key := shown k; dup_rows := Z.of_nat (occ k target) |}) <$> cs
  end.
Proof.
  intros Hinj Hreads Hsmall Hex. unfold check. destruct (live_rows files) as [rows bytes_].
  set (n0 := initial_modulus rows bytes_ c). destruct (_ <? n0); [done|].
  destruct (passes_loop _ _ _ _ _ _ _ _ _ _ _) as [[found passes]|] eqn:El; [|done].
  eapply (passes_loop_finished encode shown hash Hinj _ target) in El
    as [(cs & H1 & H2 & H3 & H4) Hp]; try done.
  2: { apply initial_inv, initial_modulus_positive. }
  assert (Hp' : passes ≤ 4 * MAX_PASSES).
  { replace (Z.of_nat (Z.to_nat (MAX_PASSES * 4))) with (4 * MAX_PASSES) in Hp by reflexivity. lia. }
  cbv iota beta. destruct found as [|d found].
  - intros [= <-]. split; [|done]. apply NoDup_ListNoDup.
    apply (proj2 (NoDup_count_occ (λ a b, decide (a = b)) target)). intros k.
    destruct (decide (2 ≤ occ k target)%nat) as [Ho|]; [exfalso|lia].
    destruct H4 as [H4|H4]; [simpl in H4; lia|]. specialize (H4 k Ho).
    destruct cs as [|k' cs]; [by apply elem_of_nil in H4|done].
  - intros [= <-]. split; [done|]. split; [by destruct examples; [lia|]|].
    split; [rewrite length_take; lia|]. exists (take examples cs).
    split; [by eapply sublist_NoDup, sublist_take|]. split.
    + intros k Hk. apply H3. by eapply elem_of_sublist, sublist_take.
    + by rewrite H2, fmap_take.
Qed.

(** A target of any size is answered where its classes have room: when every read succeeds,
    the row count does not ask for more than [MAX_PASSES] classes, and every starting class has
    fewer rows than a pass holds, or distinct hashes for at most three quarters of it, then the
    check answers, after one pass per class and the passes that resolve. *)
Theorem a_spread_target_is_answered {Cell} `{!EqDecision Cell} (encode shown : Cell → string) hash
    key_stream (target : list Cell) files c examples :
  (∀ n, ∃ b, key_stream n = Ok b) →
  (∀ n b, key_stream n = Ok b → concat b ≡ₚ target) →
  let n0 := initial_modulus (live_rows files).1 (live_rows files).2 c in
  n0 ≤ MAX_PASSES →
  (∀ k, k ∈ initial n0 →
     fits (Z.max (hashes_per_pass c) 1) (class_hashes encode hash k target)) →
  ∃ g, check encode shown hash key_stream files c examples = Ok g.
Proof.
  intros Hk Hreads n0 Hn Hf. unfold check. destruct (live_rows files) as [rows bytes_].
  cbn [fst snd] in n0. fold n0. destruct (Z.ltb_spec MAX_PASSES n0); [lia|].
  edestruct (passes_loop_answers encode shown hash key_stream target Hreads c examples (initial n0)
    (Z.to_nat (MAX_PASSES * 4)) 0 [] 0) as [[found passes] Hr].
  - intros n. destruct (Hk n) as [b ->]. by eexists.
  - by apply Forall_forall.
  - unfold initial. rewrite length_fmap, length_seq. unfold MAX_PASSES in *. lia.
  - unfold initial in Hr. rewrite Hr. by eexists.
Qed.

(** One pass holds what its ceiling allows, whatever the target: between two rows fewer
    hashes, nominated ones included, than [hashes_per_pass], and with the row's own no more
    than it. *)
Theorem a_pass_stays_within_its_ceiling {Cell} (encode : Cell → string) hash class cap
    (before_ : list Cell) row after_ hashes nominated :
  4 ≤ cap →
  scan_rows encode hash class cap before_ [] [] = Some (hashes, nominated) →
  Z.of_nat (length (hashes ++ [hash_of encode hash row])) + Z.of_nat (length nominated) ≤ cap ∧
  scan_rows encode hash class cap (before_ ++ row :: after_) [] [] =
    scan_rows encode hash class cap (row :: after_) hashes nominated.
Proof.
  intros Hcap H. split.
  - apply scan_rows_bound in H; [|done|simpl; lia]. rewrite length_app. simpl. lia.
  - revert H. generalize (@nil Z) at 1 3 as hs. generalize (@nil Z) as nom.
    induction before_ as [|c l IH]; intros nom hs; [by intros [= -> ->]|].
    rewrite <-app_comm_cons, !(scan_rows_cons _ _ _ _ c).
    destruct (holds class (hash_of encode hash c)); [|apply IH].
    destruct (_ <? cap); [apply IH|]. destruct (compact _ _) as [hs' nom'].
    destruct (_ <? _); [done|apply IH].
Qed.

Module GrainDemo.
(** A null key, and a hash that is only the key's length. *)
Definition encode (c : option string) : string :=
  match c with Some s => String.append "v" s | None => EmptyString end.
Definition shown (c : option string) : string := default "NULL"%string c.
Definition hash (s : string) : Z := Z.of_nat (String.length s).
Definition target : list (option string) := [Some "a"; None; Some "b"; Some "c"; Some "b"]%string.
Definition reads (n : nat) : result Error (list (list (option string))) :=
  Ok [if Nat.even n then target else rev target].
Definition ceiling : Ceiling := {| bytes := MIN; source := Configured |}.
Definition files : list LiveFile := [{| file_size := 400; num_records := Some 5; deleted_rows := None |}].

Lemma encode_inj a b : encode a = encode b → a = b.
Proof.
  unfold encode. destruct a as [a|], b as [b|]; try done. intros H.
  injection H as H. change (a = b) in H. by rewrite H.
Qed.

Lemma reads_target n b : reads n = Ok b → concat b ≡ₚ target.
Proof.
  unfold reads. intros [= <-]. destruct (Nat.even n); simpl; [done|].
  apply (Permutation_sym (Permutation_rev target)).
Qed.

Example checked :
  check encode shown hash reads files ceiling EXAMPLES =
  Ok (Duplicated [{| key := "b"; dup_rows := 2 |}] 1).
Proof. vm_compute. reflexivity. Qed.
End GrainDemo.

Lemma the_grain_check_is_exact_witness :
  1 ≤ 4 * MAX_PASSES ∧
  ∃ cs, (∀ k, k ∈ cs → (2 ≤ occ k GrainDemo.target)%nat) ∧ length cs = 1%nat.
Proof.
  destruct (the_grain_check_is_exact GrainDemo.encode GrainDemo.shown GrainDemo.hash GrainDemo.reads
    GrainDemo.target GrainDemo.files GrainDemo.ceiling EXAMPLES
    (Duplicated [{| key := "b"; dup_rows := 2 |}] 1)) as (Hp & _ & _ & cs & _ & Hcs & E).
  - apply GrainDemo.encode_inj.
  - apply GrainDemo.reads_target.
  - vm_compute. discriminate.
  - unfold EXAMPLES. lia.
  - vm_compute. reflexivity.
  - split; [exact Hp|]. exists cs. split; [exact Hcs|]. apply (f_equal length) in E.
    rewrite length_fmap in E. by rewrite <-E.
Defined.

Lemma a_spread_target_is_answered_witness :
  ∃ g, check GrainDemo.encode GrainDemo.shown GrainDemo.hash GrainDemo.reads GrainDemo.files
         GrainDemo.ceiling EXAMPLES = Ok g.
Proof.
  apply (a_spread_target_is_answered GrainDemo.encode GrainDemo.shown GrainDemo.hash
    GrainDemo.reads GrainDemo.target).
  - intros n. by eexists.
  - apply GrainDemo.reads_target.
  - vm_compute. discriminate.
  - intros k _. left. eapply Z.le_lt_trans;
      [apply inj_le, List.filter_length_le|vm_compute; reflexivity].
Defined.

Lemma a_pass_stays_within_its_ceiling_witness :
  4 ≤ 4 ∧
  Z.of_nat (length [2; 0; 2]) + Z.of_nat (length (@nil Z)) ≤ 4.
Proof.
  split; [lia|].
  apply (a_pass_stays_within_its_ceiling GrainDemo.encode GrainDemo.hash
    {| modulus := 1; residue := 0 |} 4 [Some "a"%string; None] (Some "b"%string) [] [2; 0] []).
  - lia.
  - vm_compute. reflexivity.
Defined.
