(* ===== verification/Wire.v ===== *)
(** * Wire: Avro records walked on the wire, value by value (src/kafka/decode/wire.rs)

    [wire_new] reads a writer schema into a table of nodes, a node's children before it;
    [record_len] walks one record of a message by that table and says where it ends, which is
    how a message with bytes after its record, or with a union index out of range, is refused.

    A byte is a number below 256.  [Parser] is a function on the rest of the body, as
    [&mut &[u8]] is used.  What [record_len] is proved against is the grammar of Avro's binary
    encoding, [encodes]; errors keep no text beyond [Malformed]'s fixed words. *)

From Stdlib Require Import Ascii ZArith Lia.
From stdpp Require Import base list strings gmap.
From S2P Require Import Prelude Json.

Open Scope Z_scope.
Open Scope ddi_scope.

(** ** Nodes *)

Inductive Node :=
  | N_Null
  | N_Boolean
  | N_Int
  | N_Long
  | N_Float
  | N_Double
  | N_Bytes  (** [bytes] and [string] *)
  | N_Fixed (size : Z)
  | N_Enum
  | N_Array (item : nat)
  | N_Map (value : nat)
  | N_Union (branches : list nat)
  | N_Record (fields : list nat).

Record Wire := { nodes : list Node; empty : list bool; root : nat }.

(** Why a walk fails; [OutOfFuel] stands for a loop or an index that the source does not
    bound, and is proved never to be reached. *)
Inductive WalkError := Malformed (why : string) | OutOfFuel.

(** ** Reading the body *)

Definition Parser (A : Type) : Type := list Z → result WalkError (A * list Z).

Definition retP {A} (a : A) : Parser A := λ buf, Ok (a, buf).
Definition failP {A} (e : WalkError) : Parser A := λ _, Err e.
Definition bindP {A B} (p : Parser A) (k : A → Parser B) : Parser B :=
  λ buf, match p buf with Ok (a, rest) => k a rest | Err e => Err e end.

Notation "'let*' x := p 'in' k" := (bindP p (λ x, k))
  (at level 200, x binder, p at level 100, k at level 200, only parsing) : ddi_scope.

(** [take] *)
Definition take_bytes (n : Z) : Parser (list Z) := λ buf,
  if Z.of_nat (length buf) <? n then Err (Malformed "the body ends inside a value")
  else Ok (take (Z.to_nat n) buf, drop (Z.to_nat n) buf).

(** [varint]: the loop over the first ten bytes, [i] of them read. *)
Fixpoint varint_from (fuel : nat) (i : Z) (value : Z) : Parser Z := λ buf,
  match fuel, buf with
  | S fuel, byte :: rest =>
      let value := Z.lor value (u64 (Z.shiftl (Z.land byte 0x7F) (7 * i))) in
      if byte <? 0x80 then
        if (i =? 9) && (2 <=? byte) then Err (Malformed "bad varint") else Ok (value, rest)
      else varint_from fuel (i + 1) value rest
  | _, _ => Err (Malformed "bad varint")
  end.
Definition varint : Parser Z := varint_from 10 0 0.

(** [long]: a zigzag long. *)
Definition unzigzag (v : Z) : Z := Z.lxor (Z.shiftr v 1) (- Z.land v 1).
Definition long : Parser Z := let* v := varint in retP (unzigzag v).

(** ** The walk *)

Definition walk_bytes : Parser unit :=
  let* len := long in
  if len <? 0 then failP (Malformed "a length") else let* _ := take_bytes len in retP tt.

(** [for _ in 0..count] *)
Fixpoint items (fuel : nat) (item : Parser unit) (count : Z) : Parser unit :=
  if count <=? 0 then retP tt
  else match fuel with
  | O => failP OutOfFuel
  | S fuel => let* _ := item in items fuel item (count - 1)
  end.

(** [blocks] *)
Fixpoint blocks_from (fuel : nat) (item : Parser unit) (empty_items : bool) : Parser unit :=
  match fuel with
  | O => failP OutOfFuel
  | S fuel =>
      let* count := long in
      if count =? 0 then retP tt
      else
        let* count :=
          if count <? 0 then
            let* _ := long in
            if count =? i64_min then failP (Malformed "a block of items") else retP (- count)
          else retP count in
        if empty_items then blocks_from fuel item empty_items
        else
          let* _ := (λ buf, items (S (length buf)) item count buf) in
          blocks_from fuel item empty_items
  end.
Definition blocks (item : Parser unit) (empty_items : bool) : Parser unit :=
  λ buf, blocks_from (S (length buf)) item empty_items buf.

Section Walk.
Context (W : Wire).

Fixpoint each (walk : nat → Parser unit) (fields : list nat) : Parser unit :=
  match fields with
  | [] => retP tt
  | f :: fields => let* _ := walk f in each walk fields
  end.

(** [walk], nodes nested at most [depth] deep. *)
Fixpoint walk (depth : nat) (node : nat) : Parser unit :=
  match depth with
  | O => failP OutOfFuel
  | S depth =>
      match nodes W !! node with
      | None => failP OutOfFuel
      | Some N_Null => retP tt
      | Some N_Boolean =>
          let* b := take_bytes 1 in
          match b with
          | [0] | [1] => retP tt
          | _ => failP (Malformed "a boolean that is neither 0 nor 1")
          end
      | Some N_Int =>
          let* v := varint in
          if u32_max <? v then failP (Malformed "an int out of range") else retP tt
      | Some N_Long => let* _ := varint in retP tt
      | Some N_Float => let* _ := take_bytes 4 in retP tt
      | Some N_Double => let* _ := take_bytes 8 in retP tt
      | Some N_Bytes => walk_bytes
      | Some (N_Fixed n) => let* _ := take_bytes n in retP tt
      | Some N_Enum =>
          let* v := varint in
          if u32_max <? v then failP (Malformed "an enum index out of range") else retP tt
      | Some (N_Array item) =>
          blocks (walk depth item) (default false (empty W !! item))
      | Some (N_Map value) => blocks (let* _ := walk_bytes in walk depth value) false
      | Some (N_Union branches) =>
          let* index := long in
          if index <? 0 then failP (Malformed "union branch out of range")
          else match branches !! Z.to_nat index with
          | Some branch => walk depth branch
          | None => failP (Malformed "union branch out of range")
          end
      | Some (N_Record fields) => each (walk depth) fields
      end
  end.

(** [record_len] *)
Definition record_len (body : list Z) : result WalkError Z :=
  match walk (S (root W)) (root W) body with
  | Ok (_, rest) => Ok (Z.of_nat (length body) - Z.of_nat (length rest))
  | Err e => Err e
  end.
End Walk.

(** ** Reading the schema *)

(** [Parser] of the source: the nodes and the named types so far. *)
Record Types := { t_nodes : list Node; t_named : gmap (string * string) nat }.

Definition push (n : Node) (t : Types) : nat * Types :=
  (length (t_nodes t), {| t_nodes := t_nodes t ++ [n]; t_named := t_named t |}).
Definition register (name : string) (namespace : option string) (id : nat) (t : Types) : Types :=
  {| t_nodes := t_nodes t; t_named := <[(default EmptyString namespace, name) := id]> (t_named t) |}.

(** [rsplit_once('.')] *)
Fixpoint rsplit_dot (s : string) : option (string * string) :=
  match s with
  | EmptyString => None
  | String c s' =>
      match rsplit_dot s' with
      | Some (a, b) => Some (String c a, b)
      | None => if Ascii.eqb c "."%char then Some (EmptyString, s') else None
      end
  end.

(** [named_type] *)
Definition primitive (name : string) : option Node :=
  if decide (name = "null"%string) then Some N_Null
  else if decide (name = "boolean"%string) then Some N_Boolean
  else if decide (name = "int"%string) then Some N_Int
  else if decide (name = "long"%string) then Some N_Long
  else if decide (name = "float"%string) then Some N_Float
  else if decide (name = "double"%string) then Some N_Double
  else if decide (name ∈ ["bytes"; "string"]%string) then Some N_Bytes
  else None.
Definition named_type (name : string) (namespace : option string) (t : Types)
    : result string (nat * Types) :=
  match primitive name with
  | Some node => Ok (push node t)
  | None =>
      let key := default (default EmptyString namespace, name) (rsplit_dot name) in
      match t_named t !! key with
      | Some id => Ok (id, t)
      | None => Err "the type is not defined before"%string
      end
  end.

Fixpoint parse_each (parse : Value → Types → result string (nat * Types)) (l : list Value)
    (t : Types) : result string (list nat * Types) :=
  match l with
  | [] => Ok ([], t)
  | v :: l =>
      let? one := parse v t in
      let '(id, t) := one in
      let? rest := parse_each parse l t in
      let '(ids, t) := rest in
      Ok (id :: ids, t)
  end.

Definition str_of (key : string) (v : Value) : result string string :=
  ok_or (get_key key v ≫= as_str) "a type without a name"%string.

(** [Parser::parse], a schema nested at most [depth] deep. *)
Fixpoint parse (depth : nat) (v : Value) (namespace : option string) (t : Types)
    : result string (nat * Types) :=
  match depth with
  | O => Err "out of fuel"%string
  | S depth =>
      match v with
      | V_String name => named_type name namespace t
      | V_Array branches =>
          let? r := parse_each (λ b, parse depth b namespace) branches t in
          let '(ids, t) := r in Ok (push (N_Union ids) t)
      | V_Object _ =>
          let? kind := ok_or (get_key "type" v ≫= as_str) "a type that is not a name"%string in
          let own := match get_key "namespace" v ≫= as_str with
                     | Some n => Some n
                     | None => namespace
                     end in
          if decide (kind = "record"%string) then
            let? name := str_of "name" v in
            let? fields := ok_or (get_key "fields" v ≫= as_array) "a record without fields"%string in
            let? r := parse_each (λ f t, match get_key "type" f with
                                         | Some ty => parse depth ty own t
                                         | None => Err "a field without a type"%string
                                         end) fields t in
            let '(ids, t) := r in
            let '(id, t) := push (N_Record ids) t in
            Ok (id, register name own id t)
          else if decide (kind = "enum"%string) then
            let? name := str_of "name" v in
            let? _ := ok_or (get_key "symbols" v ≫= as_array) "an enum without symbols"%string in
            let '(id, t) := push N_Enum t in
            Ok (id, register name own id t)
          else if decide (kind = "fixed"%string) then
            let? name := str_of "name" v in
            let? size := ok_or (get_key "size" v ≫= as_u64) "a fixed without a size"%string in
            let '(id, t) := push (N_Fixed size) t in
            Ok (id, register name own id t)
          else if decide (kind = "array"%string) then
            let? items := ok_or (get_key "items" v) "an array without items"%string in
            let? r := parse depth items namespace t in
            let '(id, t) := r in Ok (push (N_Array id) t)
          else if decide (kind = "map"%string) then
            let? values := ok_or (get_key "values" v) "a map without values"%string in
            let? r := parse depth values namespace t in
            let '(id, t) := r in Ok (push (N_Map id) t)
          else named_type kind namespace t
      | _ => Err "not a schema"%string
      end
  end.

(** Whether a value of a node takes no bytes, given those before it. *)
Definition takes_none (empty : list bool) (n : Node) : bool :=
  match n with
  | N_Null | N_Fixed 0 => true
  | N_Record fields => forallb (λ f, default false (empty !! f)) fields
  | _ => false
  end.
Definition empties (l : list Node) : list bool :=
  fold_left (λ empty n, empty ++ [takes_none empty n]) l [].

Fixpoint depth_of (v : Value) : nat :=
  match v with
  | V_Array l => S (list_max (depth_of <$> l))
  | V_Object fields => S (list_max ((λ f, depth_of f.2) <$> fields))
  | _ => O
  end.

(** [Wire::new], of the schema's JSON. *)
Definition wire_new (schema : Value) : result string Wire :=
  let? r := parse (S (depth_of schema)) schema None {| t_nodes := []; t_named := ∅ |} in
  let '(root, t) := r in
  Ok {| nodes := t_nodes t; empty := empties (t_nodes t); root := root |}.

(** ** The grammar of Avro's binary encoding *)

Definition byte (b : Z) : Prop := 0 ≤ b < 256.

(** A varint: seven bits a byte, the least first, of at most 64 bits. *)
Fixpoint varint_value (bs : list Z) : Z :=
  match bs with
  | [] => 0
  | b :: bs => b mod 128 + 128 * varint_value bs
  end.
Definition varint_of (v : Z) (bs : list Z) : Prop :=
  ∃ more end_, bs = more ++ [end_] ∧ Forall (λ b, 128 ≤ b < 256) more ∧ 0 ≤ end_ < 128 ∧
    varint_value bs = v ∧ (length bs ≤ 10)%nat ∧ v ≤ u64_max.

(** Zigzag: 0, -1, 1, -2, ... *)
Definition zigzag (n : Z) : Z := if n <? 0 then - 2 * n - 1 else 2 * n.
Definition long_of (n : Z) (bs : list Z) : Prop := in_i64 n ∧ varint_of (zigzag n) bs.

Definition bytes_of (n : Z) (bs : list Z) : Prop := Z.of_nat (length bs) = n.

(** A length, and that many bytes. *)
Definition text_of (bs : list Z) : Prop :=
  ∃ n a b, bs = a ++ b ∧ long_of n a ∧ 0 ≤ n ∧ bytes_of n b.

Section Grammar.
Context (P : list Z → Prop).

Inductive items_of : Z → list Z → Prop :=
  | no_items : items_of 0 []
  | more_items n a b : 0 ≤ n → P a → items_of n b → items_of (n + 1) (a ++ b).

(** Blocks up to one of no items; a negative count is followed by the block's size. *)
Inductive blocks_of : list Z → Prop :=
  | last_block a : long_of 0 a → blocks_of a
  | counted_block n a b rest :
      0 < n → long_of n a → items_of n b → blocks_of rest → blocks_of (a ++ b ++ rest)
  | sized_block n size a s b rest :
      i64_min < n < 0 → long_of n a → long_of size s → items_of (- n) b → blocks_of rest →
      blocks_of (a ++ s ++ b ++ rest).
End Grammar.

Inductive fields_of (P : nat → list Z → Prop) : list nat → list Z → Prop :=
  | no_fields : fields_of P [] []
  | a_field f fs a b : P f a → fields_of P fs b → fields_of P (f :: fs) (a ++ b).

(** The encodings of the values of a node. *)
Inductive encodes (ns : list Node) : nat → list Z → Prop :=
  | e_null i : ns !! i = Some N_Null → encodes ns i []
  | e_boolean i b : ns !! i = Some N_Boolean → b = 0 ∨ b = 1 → encodes ns i [b]
  | e_int i v bs : ns !! i = Some N_Int → varint_of v bs → v ≤ u32_max → encodes ns i bs
  | e_long i v bs : ns !! i = Some N_Long → varint_of v bs → encodes ns i bs
  | e_float i bs : ns !! i = Some N_Float → bytes_of 4 bs → encodes ns i bs
  | e_double i bs : ns !! i = Some N_Double → bytes_of 8 bs → encodes ns i bs
  | e_bytes i bs : ns !! i = Some N_Bytes → text_of bs → encodes ns i bs
  | e_fixed i n bs : ns !! i = Some (N_Fixed n) → bytes_of n bs → encodes ns i bs
  | e_enum i v bs : ns !! i = Some N_Enum → varint_of v bs → v ≤ u32_max → encodes ns i bs
  | e_array i item bs :
      ns !! i = Some (N_Array item) → blocks_of (encodes ns item) bs → encodes ns i bs
  | e_map i value bs :
      ns !! i = Some (N_Map value) →
      blocks_of (λ e, ∃ k v, e = k ++ v ∧ text_of k ∧ encodes ns value v) bs → encodes ns i bs
  | e_union i branches n branch a b :
      ns !! i = Some (N_Union branches) → long_of n a → 0 ≤ n →
      branches !! Z.to_nat n = Some branch → encodes ns branch b → encodes ns i (a ++ b)
  | e_record i fields bs :
      ns !! i = Some (N_Record fields) → fields_of (encodes ns) fields bs → encodes ns i bs.

(** ** Parsers of a grammar *)

(** On [buf], [p] answers exactly what [R] says of a prefix of it, and does answer. *)
Definition parses_at {A} (p : Parser A) (R : A → list Z → Prop) (buf : list Z) : Prop :=
  Forall byte buf →
  (∀ a rest, p buf = Ok (a, rest) ↔ ∃ x, buf = x ++ rest ∧ R a x) ∧ p buf ≠ Err OutOfFuel.
Definition parses {A} (p : Parser A) (R : A → list Z → Prop) : Prop :=
  ∀ buf, parses_at p R buf.

Lemma parses_at_iff {A} (p : Parser A) (R R' : A → list Z → Prop) buf :
  (∀ a x, Forall byte x → R a x ↔ R' a x) → parses_at p R buf → parses_at p R' buf.
Proof.
  intros E H Hb. destruct (H Hb) as [H1 H2]. split; [|done]. intros a rest. rewrite H1.
  split; intros (x & -> & Hx); exists x; (split; [done|]); apply Forall_app in Hb as [Hb _];
    by apply E.
Qed.

Lemma parses_ret {A} (a : A) buf : parses_at (retP a) (λ b x, b = a ∧ x = []) buf.
Proof.
  intros _. split; [|done]. intros b rest. unfold retP. split.
  - intros [= <- <-]. exists []. done.
  - by intros (x & -> & -> & ->).
Qed.

Lemma parses_fail {A} e (R : A → list Z → Prop) buf :
  e ≠ OutOfFuel → (∀ a x, ¬ R a x) → parses_at (failP e) R buf.
Proof.
  intros He Hn _. split; [|unfold failP; congruence]. intros a rest. split; [done|].
  intros (x & _ & Hx). by destruct (Hn a x).
Qed.

Lemma parses_bind {A B} (p : Parser A) (k : A → Parser B) R (Q : A → B → list Z → Prop) buf :
  parses_at p R buf →
  (∀ a x rest, buf = x ++ rest → R a x → parses_at (k a) (Q a) rest) →
  parses_at (let* a := p in k a) (λ b z, ∃ a x y, z = x ++ y ∧ R a x ∧ Q a b y) buf.
Proof.
  intros Hp Hk Hb. destruct (Hp Hb) as [H1 H2]. unfold bindP.
  assert (Hrest : ∀ a x rest, buf = x ++ rest → R a x →
    (∀ b r, k a rest = Ok (b, r) ↔ ∃ y, rest = y ++ r ∧ Q a b y) ∧ k a rest ≠ Err OutOfFuel).
  { intros a x rest E HR. destruct (Hk a x rest E HR) as [? ?]; [|done].
    rewrite E in Hb. by apply Forall_app in Hb as [_ Hb]. }
  split.
  - intros b r. split.
    + destruct (p buf) as [[a rest]|] eqn:Ep; [|done]. intros Hk'.
      destruct (proj1 (H1 a rest) eq_refl) as (x & E & HR).
      destruct (Hrest a x rest E HR) as [Hy _]. apply Hy in Hk' as (y & -> & HQ).
      exists (x ++ y). rewrite <-app_assoc. split; [done|]. by exists a, x, y.
    + intros (z & E & a & x & y & -> & HR & HQ). rewrite <-app_assoc in E.
      assert (Ep : p buf = Ok (a, y ++ r)) by (apply H1; by exists x). rewrite Ep.
      apply (Hrest a x (y ++ r) E HR). by exists y.
  - destruct (p buf) as [[a rest]|] eqn:Ep; [|congruence].
    destruct (proj1 (H1 a rest) eq_refl) as (x & E & HR). by apply (Hrest a x rest E HR).
Qed.

(** Then nothing more of the body is read. *)
Lemma parses_then {A} (p : Parser A) R buf :
  parses_at p R buf → parses_at (let* _ := p in retP tt) (λ _ x, ∃ a, R a x) buf.
Proof.
  intros H. eapply parses_at_iff; [|apply (parses_bind p (λ _, retP tt) R (λ _ b x, b = tt ∧ x = []));
    [exact H|]].
  - intros [] x _. split.
    + intros (a & y & z & -> & HR & _ & ->). exists a. by rewrite app_nil_r.
    + intros (a & HR). exists a, x, []. by rewrite app_nil_r.
  - intros a x rest _ _. apply parses_ret.
Qed.

(** ** The parts of the body *)

Lemma take_parses n : 0 ≤ n → parses (take_bytes n) (λ l x, l = x ∧ bytes_of n x).
Proof.
  intros Hn buf _. unfold take_bytes, bytes_of.
  destruct (Z.ltb_spec (Z.of_nat (length buf)) n) as [Hlt|Hge].
  - split; [|done]. intros a rest. split; [done|]. intros (x & -> & _ & Hx).
    rewrite length_app in Hlt. lia.
  - split; [|done]. intros a rest. split.
    + intros [= <- <-]. exists (take (Z.to_nat n) buf). rewrite take_drop. split; [done|].
      split; [done|]. rewrite length_take. lia.
    + intros (x & -> & -> & Hx). rewrite take_app_length', drop_app_length' by lia. done.
Qed.

Lemma varint_value_bound bs : 0 ≤ varint_value bs < 128 ^ Z.of_nat (length bs).
Proof.
  induction bs as [|b bs IH]; [simpl; lia|]. cbn [varint_value length].
  rewrite Nat2Z.inj_succ, Z.pow_succ_r by lia.
  pose proof (Z.mod_pos_bound b 128 ltac:(lia)). nia.
Qed.

Lemma lor_shifted a b k : 0 ≤ k → 0 ≤ a < 2 ^ k → Z.lor a (b * 2 ^ k) = a + b * 2 ^ k.
Proof.
  intros Hk Ha. destruct (Z.eq_dec a 0) as [->|Hne]; [by rewrite Z.lor_0_l|].
  assert (Hl : Z.land a (b * 2 ^ k) = 0).
  { apply Z.bits_inj'. intros n Hn. rewrite Z.land_spec, Z.bits_0. destruct (Z.lt_ge_cases n k).
    - rewrite Z.mul_pow2_bits_low by lia. apply andb_false_r.
    - rewrite Z.bits_above_log2; [done|lia|].
      apply Z.log2_lt_pow2; [lia|]. eapply Z.lt_le_trans; [apply Ha|]. apply Z.pow_le_mono_r; lia. }
  rewrite Z.add_nocarry_lxor by done. by rewrite Z.lxor_lor.
Qed.

Lemma low_seven b : 0 ≤ b → Z.land b 0x7F = b mod 128.
Proof. intros H. change 0x7F with (Z.ones 7). by rewrite Z.land_ones by lia. Qed.

(** What is left of a varint once [i] bytes of it made [value]. *)
Definition varint_rest (fuel : nat) (i value v : Z) (x : list Z) : Prop :=
  ∃ more end_, x = more ++ [end_] ∧ Forall (λ b, 128 ≤ b < 256) more ∧ 0 ≤ end_ < 128 ∧
    (length x ≤ fuel)%nat ∧ v = value + 2 ^ (7 * i) * varint_value x ∧ v ≤ u64_max.

Lemma varint_rest_last fuel i value b v :
  0 ≤ b < 128 → varint_rest (S fuel) i value v [b] ↔ v = value + b * 2 ^ (7 * i) ∧ v ≤ u64_max.
Proof.
  intros Hb. unfold varint_rest. split.
  - intros (more & end_ & E & _ & _ & _ & Hv & Hm). simpl in Hv.
    rewrite Z.mod_small in Hv by lia. split; [lia|done].
  - intros [Hv Hm]. exists [], b. split; [done|]. split; [constructor|]. split; [done|].
    split; [simpl; lia|]. simpl. rewrite Z.mod_small by lia. split; [lia|done].
Qed.

Lemma varint_rest_more fuel i value b v x :
  0 ≤ i → 128 ≤ b < 256 →
  varint_rest (S fuel) i value v (b :: x) ↔
  varint_rest fuel (i + 1) (value + (b mod 128) * 2 ^ (7 * i)) v x.
Proof.
  intros Hi Hb. assert (Ep : 2 ^ (7 * (i + 1)) = 128 * 2 ^ (7 * i)).
  { replace (7 * (i + 1)) with (7 + 7 * i) by lia. by rewrite Z.pow_add_r by lia. }
  unfold varint_rest. rewrite Ep. split.
  - intros (more & end_ & E & Hf & He & Hl & Hv & Hm). destruct more as [|b' more].
    { simpl in E. injection E as -> ->. lia. }
    simpl in E. injection E as <- ->. inversion_clear Hf. exists more, end_.
    split; [done|]. split; [done|]. split; [done|]. split; [simpl in Hl; lia|]. split; [|done].
    cbn [varint_value] in Hv. rewrite Hv. ring.
  - intros (more & end_ & -> & Hf & He & Hl & Hv & Hm). exists (b :: more), end_.
    split; [done|]. split; [by constructor|]. split; [done|]. split; [simpl; lia|]. split; [|done].
    cbn [varint_value]. rewrite Hv. ring.
Qed.

Lemma varint_rest_nil fuel i value v : ¬ varint_rest fuel i value v [].
Proof. intros (more & end_ & E & _). by destruct more. Qed.

Lemma varint_rest_spent i value v x : ¬ varint_rest 0 i value v x.
Proof. intros (more & end_ & -> & _ & _ & Hl & _). rewrite length_app in Hl. simpl in Hl. lia. Qed.

Lemma varint_from_parses fuel : ∀ i value,
  0 ≤ i → i + Z.of_nat fuel = 10 → (0 < fuel)%nat → 0 ≤ value < 2 ^ (7 * i) →
  parses (varint_from fuel i value) (varint_rest fuel i value).
Proof.
  induction fuel as [|fuel IH]; [lia|]. intros i value Hi Hf _ Hv buf Hb.
  destruct buf as [|b buf].
  { simpl. split; [|done]. intros a rest. split; [done|]. intros (x & E & Hx).
    destruct x; [by apply varint_rest_nil in Hx|done]. }
  inversion_clear Hb as [|? ? Hbyte Hbuf]. unfold byte in Hbyte. cbn [varint_from].
  rewrite low_seven by lia. rewrite Z.shiftl_mul_pow2 by lia.
  assert (Hpow : 0 < 2 ^ (7 * i)) by (apply Z.pow_pos_nonneg; lia).
  assert (Hsmall : i ≤ 8 ∨ b < 2 → u64 (b mod 128 * 2 ^ (7 * i)) = b mod 128 * 2 ^ (7 * i)).
  { intros H. apply u64_small. pose proof (Z.mod_pos_bound b 128 ltac:(lia)). split; [nia|].
    assert (b mod 128 * 2 ^ (7 * i) < 2 ^ 64); [|unfold u64_max; lia].
    destruct H as [H|H].
    - apply Z.lt_le_trans with (2 ^ 7 * 2 ^ (7 * i)); [nia|].
      rewrite <-Z.pow_add_r by lia. apply Z.pow_le_mono_r; lia.
    - rewrite Z.mod_small by lia. apply Z.le_lt_trans with (1 * 2 ^ 63); [|lia].
      apply Z.mul_le_mono_nonneg; [lia|lia|lia|]. apply Z.pow_le_mono_r; lia. }
  destruct (Z.ltb_spec b 128) as [Hlow|Hhigh].
  - destruct (Z.eqb_spec i 9) as [->|Hi9]; simpl; [destruct (Z.leb_spec 2 b) as [Hb2|Hb2]|].
    + split; [|done]. intros a rest. split; [done|]. intros (x & E & Hx).
      destruct x as [|b' x]; [by apply varint_rest_nil in Hx|]. injection E as <- ->.
      destruct x as [|b' x].
      * apply varint_rest_last in Hx as [-> Hm]; [|lia]. unfold u64_max in Hm.
        change (7 * 9) with 63 in *. lia.
      * destruct Hx as (more & end_ & E & Hfa & _). destruct more as [|? more]; [done|].
        injection E as <- _. inversion_clear Hfa. lia.
    + rewrite Hsmall by by right. rewrite Z.mod_small by lia. rewrite lor_shifted by lia.
      split; [|done]. intros a rest. split.
      * intros [= <- <-]. exists [b]. split; [done|]. apply varint_rest_last; [lia|].
        split; [done|]. unfold u64_max. change (7 * 9) with 63 in *. lia.
      * intros (x & E & Hx). destruct x as [|b' x]; [by apply varint_rest_nil in Hx|].
        injection E as <- ->. destruct x as [|b' x].
        { apply varint_rest_last in Hx as [-> _]; [done|lia]. }
        destruct Hx as (more & end_ & E & Hfa & _). destruct more as [|? more]; [done|].
        injection E as <- _. inversion_clear Hfa. lia.
    + rewrite Hsmall by (left; lia). rewrite Z.mod_small by lia. rewrite lor_shifted by lia.
      split; [|done]. intros a rest. split.
      * intros [= <- <-]. exists [b]. split; [done|]. apply varint_rest_last; [lia|].
        split; [done|]. apply Z.le_trans with (2 ^ (7 * i) * 128); [nia|].
        change 128 with (2 ^ 7). rewrite <-Z.pow_add_r by lia.
        apply Z.le_trans with (2 ^ 63); [apply Z.pow_le_mono_r; lia|unfold u64_max; lia].
      * intros (x & E & Hx). destruct x as [|b' x]; [by apply varint_rest_nil in Hx|].
        injection E as <- ->. destruct x as [|b' x].
        { apply varint_rest_last in Hx as [-> _]; [done|lia]. }
        destruct Hx as (more & end_ & E & Hfa & _). destruct more as [|? more]; [done|].
        injection E as <- _. inversion_clear Hfa. lia.
  - assert (Hsplit : ∀ v x rest, b :: buf = x ++ rest → varint_rest (S fuel) i value v x ↔
      ∃ y, x = b :: y ∧ varint_rest fuel (i + 1) (value + b mod 128 * 2 ^ (7 * i)) v y).
    { intros v x rest E. destruct x as [|b' x].
      - split; [by intros ?%varint_rest_nil|by intros (y & ? & _)].
      - injection E as <- _. rewrite varint_rest_more by lia. split; [by eexists|].
        by intros (y & [= <-] & Hy). }
    destruct fuel as [|fuel].
    + simpl. split; [|done]. intros a rest. split; [done|]. intros (x & E & Hx).
      apply (Hsplit _ _ _ E) in Hx as (y & _ & Hy). by apply varint_rest_spent in Hy.
    + rewrite Hsmall by (left; lia). rewrite lor_shifted by lia.
      pose proof (Z.mod_pos_bound b 128 ltac:(lia)) as Hm.
      assert (Ep : 2 ^ (7 * (i + 1)) = 128 * 2 ^ (7 * i)).
      { replace (7 * (i + 1)) with (7 + 7 * i) by lia. by rewrite Z.pow_add_r by lia. }
      destruct (IH (i + 1) (value + b mod 128 * 2 ^ (7 * i)) ltac:(lia) ltac:(lia) ltac:(lia)
        ltac:(nia) buf Hbuf) as [H1 H2]. split; [|done].
      intros a rest. rewrite H1. split.
      * intros (y & -> & Hy). exists (b :: y). split; [done|]. eapply Hsplit; [done|]. by exists y.
      * intros (x & E & Hx). apply (Hsplit _ _ _ E) in Hx as (y & -> & Hy). injection E as ->.
        by exists y.
Qed.

Lemma varint_parses : parses varint (λ v x, varint_of v x).
Proof.
  intros buf. eapply parses_at_iff; [|apply (varint_from_parses 10 0 0); lia].
  intros v x _. unfold varint_of, varint_rest. change (2 ^ (7 * 0)) with 1.
  split; intros (more & end_ & E & H1 & H2 & H3 & H4 & H5); exists more, end_; repeat split; try done; lia.
Qed.

Lemma varint_of_range v x : varint_of v x → 0 ≤ v ≤ u64_max ∧ x ≠ [].
Proof.
  intros (more & end_ & -> & _ & _ & Hv & _ & Hm). pose proof (varint_value_bound (more ++ [end_])).
  split; [lia|]. by destruct more.
Qed.

Lemma unzigzag_zigzag v n :
  0 ≤ v ≤ u64_max → unzigzag v = n ↔ in_i64 n ∧ v = zigzag n.
Proof.
  intros Hv. unfold unzigzag, zigzag.
  assert (El : Z.land v 1 = v mod 2) by exact (Z.land_ones v 1 ltac:(lia)).
  rewrite El, Z.shiftr_div_pow2 by lia. change (2 ^ 1) with 2.
  pose proof (Z.div_mod v 2 ltac:(lia)) as Hdm. pose proof (Z.mod_pos_bound v 2 ltac:(lia)) as Hm.
  assert (Hc : v mod 2 = 0 ∨ v mod 2 = 1) by lia. destruct Hc as [E|E]; rewrite E in *.
  - change (- 0) with 0. rewrite Z.lxor_0_r. split.
    + intros <-. destruct (Z.ltb_spec (v / 2) 0); [lia|]. split; [width_lia|lia].
    + intros [Hn Ev]. destruct (Z.ltb_spec n 0); [exfalso; lia|lia].
  - change (- (1)) with (-1). rewrite Z.lxor_m1_r. unfold Z.lnot. split.
    + intros <-. destruct (Z.ltb_spec (Z.pred (- (v / 2))) 0); [|lia]. split; [width_lia|lia].
    + intros [Hn Ev]. destruct (Z.ltb_spec n 0); [lia|exfalso; lia].
Qed.

Lemma long_parses : parses long long_of.
Proof.
  intros buf. eapply parses_at_iff; [|apply (parses_bind varint (λ v, retP (unzigzag v)) _
    (λ v b x, b = unzigzag v ∧ x = []) buf (varint_parses buf)); intros; apply parses_ret].
  intros n x _. split.
  - intros (v & y & z & -> & Hv & -> & ->). rewrite app_nil_r.
    destruct (varint_of_range v y Hv) as [Hr _].
    destruct (proj1 (unzigzag_zigzag v _ Hr) eq_refl) as [Hn E]. split; [done|]. by rewrite <-E.
  - intros [Hn Hv]. exists (zigzag n), x, []. rewrite app_nil_r. split; [done|]. split; [done|].
    split; [|done]. symmetry. apply unzigzag_zigzag; [by apply varint_of_range in Hv as [? _]|done].
Qed.

Lemma long_of_nonempty n x : long_of n x → x ≠ [].
Proof. intros [_ H]. by apply varint_of_range in H as [_ ?]. Qed.

Lemma text_parses : parses walk_bytes (λ _ x, text_of x).
Proof.
  intros buf. unfold walk_bytes. eapply parses_at_iff;
    [|apply (parses_bind long _ _ (λ n _ x, 0 ≤ n ∧ bytes_of n x) buf (long_parses buf))].
  - intros [] x _. unfold text_of. split.
    + intros (n & a & b & -> & Hn & H0 & Hb). by exists n, a, b.
    + intros (n & a & b & -> & Hn & H0 & Hb). by exists n, a, b.
  - intros n x rest _ _. destruct (Z.ltb_spec n 0).
    + apply parses_fail; [done|]. intros _ y [? _]. lia.
    + eapply parses_at_iff; [|apply parses_then, take_parses; done].
      intros [] y _. split; [intros (l & -> & Hb); by split|intros [_ Hb]; by exists y].
Qed.

Lemma text_of_nonempty x : text_of x → x ≠ [].
Proof.
  intros (n & a & b & -> & Hn & _). apply long_of_nonempty in Hn. by destruct a.
Qed.

(** ** Loops, bounded by the body *)

Lemma items_of_count P n x : items_of P n x → 0 ≤ n.
Proof. induction 1; lia. Qed.

Lemma items_of_zero P x : items_of P 0 x ↔ x = [].
Proof.
  split; [|intros ->; constructor]. intros H. inversion H as [|n a b Hn _ Hb]; [done|].
  pose proof (items_of_count _ _ _ Hb). lia.
Qed.

Lemma items_of_more P n x :
  0 < n → items_of P n x ↔ ∃ a b, x = a ++ b ∧ P a ∧ items_of P (n - 1) b.
Proof.
  intros Hn. split.
  - intros H. inversion H as [|m a b Hm Ha Hb]; subst; [lia|]. exists a, b.
    replace (m + 1 - 1) with m by lia. done.
  - intros (a & b & -> & Ha & Hb). replace n with (n - 1 + 1) by lia.
    constructor; [by eapply items_of_count|done|done].
Qed.

(** Items that take at least a byte each: the body bounds how many are walked. *)
Lemma items_parses (item : Parser unit) P fuel : ∀ count buf,
  parses item (λ _ x, P x) → (∀ x, P x → x ≠ []) → (length buf < fuel)%nat → 0 ≤ count →
  parses_at (items fuel item count) (λ _ x, items_of P count x) buf.
Proof.
  induction fuel as [|fuel IH]; [lia|]. intros count buf Hp Hne Hl Hc. cbn [items].
  destruct (Z.leb_spec count 0) as [H0|H0].
  - assert (count = 0) as -> by lia. eapply parses_at_iff; [|apply parses_ret].
    intros [] x _. rewrite items_of_zero. naive_solver.
  - eapply parses_at_iff; [|apply (parses_bind item (λ _, items fuel item (count - 1)) (λ _ x, P x)
      (λ _ _ x, items_of P (count - 1) x) buf (Hp buf))].
    + intros [] x _. rewrite items_of_more by done. split.
      * intros ([] & a & b & -> & Ha & Hb). by exists a, b.
      * intros (a & b & -> & Ha & Hb). by exists tt, a, b.
    + intros [] x rest -> Hx. apply IH; [done|done| |lia]. rewrite length_app in Hl.
      specialize (Hne x Hx). destruct x; [done|]. simpl in Hl. lia.
Qed.

(** What [empty_items] skips: any number of items of no bytes. *)
Definition items_seen (P : list Z → Prop) (empty_items : bool) (n : Z) (x : list Z) : Prop :=
  if empty_items then x = [] else items_of P n x.

Lemma items_of_empty (P : list Z → Prop) n x :
  (∀ y, P y ↔ y = []) → 0 ≤ n → items_of P n x ↔ x = [].
Proof.
  intros HP Hn. split.
  - clear Hn. induction 1 as [|m a b _ Ha%HP _ IH]; [done|]. by rewrite Ha, IH.
  - intros ->. pattern n. apply natlike_ind; [constructor| |done].
    intros m Hm IH. replace (Z.succ m) with (m + 1) by lia. change (@nil Z) with (@nil Z ++ []).
    constructor; [done|by apply HP|done].
Qed.

Lemma blocks_of_cases P x :
  blocks_of P x ↔ ∃ n a y, x = a ++ y ∧ long_of n a ∧
    (n = 0 ∧ y = [] ∨
     n ≠ 0 ∧ n ≠ i64_min ∧ ∃ s b rest, y = s ++ b ++ rest ∧
       (if n <? 0 then ∃ size, long_of size s else s = []) ∧ items_of P (Z.abs n) b ∧
       blocks_of P rest).
Proof.
  split.
  - intros H. inversion H as [a Ha|n a b rest Hn Ha Hb Hr|n size a s b rest Hn Ha Hs Hb Hr]; subst.
    + exists 0, x, []. rewrite app_nil_r. split; [done|]. split; [done|by left].
    + exists n, a, (b ++ rest). split; [done|]. split; [done|]. right. split; [lia|].
      split; [unfold i64_min; lia|]. exists [], b, rest. split; [done|].
      destruct (Z.ltb_spec n 0); [lia|]. rewrite Z.abs_eq by lia. done.
    + exists n, a, (s ++ b ++ rest). split; [done|]. split; [done|]. right. split; [lia|].
      split; [lia|]. exists s, b, rest. split; [done|].
      destruct (Z.ltb_spec n 0); [|lia]. rewrite Z.abs_neq by lia. split; [by exists size|done].
  - intros (n & a & y & -> & Ha & [[-> ->]|(Hn & Hm & s & b & rest & -> & Hs & Hb & Hr)]).
    + rewrite app_nil_r. by constructor.
    + destruct (Z.ltb_spec n 0).
      * destruct Hs as [size Hs]. rewrite Z.abs_neq in Hb by lia.
        apply (sized_block P n size); try done. destruct Ha as [Ha _]. width_lia.
      * subst s. rewrite Z.abs_eq in Hb by lia. apply (counted_block P n a b rest); [lia|done..].
Qed.

Lemma blocks_parses (item : Parser unit) (P : list Z → Prop) (empty_items : bool) fuel : ∀ buf,
  parses item (λ _ x, P x) →
  (if empty_items then ∀ x, P x ↔ x = [] else ∀ x, P x → x ≠ []) → (length buf < fuel)%nat →
  parses_at (blocks_from fuel item empty_items) (λ _ x, blocks_of P x) buf.
Proof.
  induction fuel as [|fuel IH]; [lia|]. intros buf Hp He Hl. cbn [blocks_from].
  set (Q := λ (n : Z) (_ : unit) (y : list Z), n = 0 ∧ y = [] ∨
    n ≠ 0 ∧ n ≠ i64_min ∧ ∃ s b rest, y = s ++ b ++ rest ∧
      (if n <? 0 then ∃ size, long_of size s else s = []) ∧ items_of P (Z.abs n) b ∧
      blocks_of P rest).
  eapply parses_at_iff; [|apply (parses_bind long _ _ Q buf (long_parses buf))].
  { intros [] x _. rewrite blocks_of_cases. done. }
  intros n a rest0 E0 Ha. pose proof (long_of_nonempty _ _ Ha) as Hane.
  assert (Hl0 : (length rest0 < fuel)%nat).
  { rewrite E0, length_app in Hl. destruct a; [done|]. simpl in Hl. lia. }
  destruct (Z.eqb_spec n 0) as [->|Hn0].
  { eapply parses_at_iff; [|apply parses_ret]. intros [] x _. unfold Q. naive_solver. }
  set (C := λ (c : Z) (s : list Z), n ≠ i64_min ∧ c = Z.abs n ∧
    (if n <? 0 then ∃ size, long_of size s else s = [])).
  eapply parses_at_iff; [|apply (parses_bind _ _ C
    (λ c _ y, ∃ b rest, y = b ++ rest ∧ items_of P c b ∧ blocks_of P rest))].
  { intros [] x _. unfold Q, C. split.
    - intros (c & s & y & -> & (Hm & -> & Hs) & b & rest & -> & Hb & Hr). right.
      split; [done|]. split; [done|]. by exists s, b, rest.
    - intros [[? _]|(_ & Hm & s & b & rest & -> & Hs & Hb & Hr)]; [done|].
      exists (Z.abs n), s, (b ++ rest). split; [done|]. split; [done|]. by exists b, rest. }
  { unfold C. destruct (Z.ltb_spec n 0).
    - destruct (Z.eqb_spec n i64_min) as [->|Hm].
      + eapply parses_at_iff; [|apply (parses_bind long _ _ (λ _ _ _, False) _ (long_parses _))].
        { intros c x _. split; [by intros (? & ? & ? & _ & _ & [])|by intros [? _]]. }
        intros. apply parses_fail; [done|tauto].
      + eapply parses_at_iff; [|apply (parses_bind long (λ _, retP (- n)) _
          (λ _ c x, c = - n ∧ x = []) _ (long_parses _)); intros; apply parses_ret].
        intros c x _. split.
        * intros (size & s & y & -> & Hs & -> & ->). rewrite app_nil_r. split; [done|].
          split; [lia|by exists size].
        * intros (_ & -> & size & Hs). exists size, x, []. rewrite app_nil_r.
          split; [done|]. split; [done|]. split; [lia|done].
    - eapply parses_at_iff; [|apply parses_ret]. intros c x _. split.
      + intros [-> ->]. split; [unfold i64_min; lia|]. split; [lia|done].
      + intros (_ & -> & ->). split; [lia|done]. }
  intros c s rest1 E1 (Hm & -> & Hs).
  assert (Hl1 : (length rest1 < fuel)%nat) by (rewrite E1, length_app in Hl0; lia).
  destruct empty_items.
  - eapply parses_at_iff; [|apply IH; [done|done|exact Hl1]]. intros [] x _. split.
    + intros Hx. exists [], x. split; [done|]. split; [|done]. apply items_of_empty; [done|lia|done].
    + intros (b & rest & -> & Hb & Hr). apply items_of_empty in Hb as ->; [done|done|lia].
  - eapply parses_at_iff; [|apply (parses_bind
      (λ buf, items (S (length buf)) item (Z.abs n) buf) _ (λ _ x, items_of P (Z.abs n) x)
      (λ _ _ x, blocks_of P x))].
    + intros [] x _. split.
      * intros ([] & b & rest & -> & Hb & Hr). by exists b, rest.
      * intros (b & rest & -> & Hb & Hr). by exists tt, b, rest.
    + intros Hbytes. apply (items_parses item P (S (length rest1)) (Z.abs n) rest1); try done; lia.
    + intros [] x rest -> Hx. apply IH; [done|done|]. rewrite length_app in Hl1. lia.
Qed.

Lemma blocks_parse (item : Parser unit) (P : list Z → Prop) (empty_items : bool) :
  parses item (λ _ x, P x) →
  (if empty_items then ∀ x, P x ↔ x = [] else ∀ x, P x → x ≠ []) →
  parses (blocks item empty_items) (λ _ x, blocks_of P x).
Proof. intros Hp He buf Hb. unfold blocks. by apply blocks_parses; [..|lia|]. Qed.

(** ** Well-formed tables *)

Definition children (n : Node) : list nat :=
  match n with
  | N_Array c | N_Map c => [c]
  | N_Union l | N_Record l => l
  | _ => []
  end.

Definition wf_node (i : nat) (n : Node) : Prop :=
  Forall (λ c, (c < i)%nat) (children n) ∧ (∀ size, n = N_Fixed size → 0 ≤ size).
Definition wf_nodes (ns : list Node) : Prop := ∀ i n, ns !! i = Some n → wf_node i n.

(** What the values of a node are encoded as, one step of [encodes]. *)
Definition node_encodes (ns : list Node) (n : Node) (x : list Z) : Prop :=
  match n with
  | N_Null => x = []
  | N_Boolean => x = [0] ∨ x = [1]
  | N_Int | N_Enum => ∃ v, varint_of v x ∧ v ≤ u32_max
  | N_Long => ∃ v, varint_of v x
  | N_Float => bytes_of 4 x
  | N_Double => bytes_of 8 x
  | N_Bytes => text_of x
  | N_Fixed size => bytes_of size x
  | N_Array item => blocks_of (encodes ns item) x
  | N_Map value => blocks_of (λ e, ∃ k v, e = k ++ v ∧ text_of k ∧ encodes ns value v) x
  | N_Union branches => ∃ n branch a b, x = a ++ b ∧ long_of n a ∧ 0 ≤ n ∧
      branches !! Z.to_nat n = Some branch ∧ encodes ns branch b
  | N_Record fields => fields_of (encodes ns) fields x
  end.

Lemma encodes_node ns i n x : ns !! i = Some n → encodes ns i x ↔ node_encodes ns n x.
Proof.
  intros Hn. split.
  - intros H. destruct H as [i Hi|i b Hi Hb|i v bs Hi Hv Hm|i v bs Hi Hv|i bs Hi Hv|i bs Hi Hv|
      i bs Hi Hv|i m bs Hi Hv|i v bs Hi Hv Hm|i item bs Hi Hv|i value bs Hi Hv|
      i branches m branch a b Hi Ha H0 Hbr Hb|i fields bs Hi Hv];
      rewrite Hi in Hn; injection Hn as <-; simpl; eauto 10.
    destruct Hb as [-> | ->]; [by left|by right].
  - destruct n; simpl.
    + intros ->. by constructor.
    + intros [-> | ->]; constructor; auto.
    + intros (v & H1 & H2). by eapply e_int.
    + intros (v & H1). by eapply e_long.
    + intros H. by apply e_float.
    + intros H. by apply e_double.
    + intros H. by apply e_bytes.
    + intros H. by eapply e_fixed.
    + intros (v & H1 & H2). by eapply e_enum.
    + intros H. by eapply e_array.
    + intros H. by eapply e_map.
    + intros (m & branch & a & b & -> & H1 & H2 & H3 & H4). by eapply e_union.
    + intros H. by eapply e_record.
Qed.

Lemma blocks_of_nonempty P x : blocks_of P x → x ≠ [].
Proof.
  intros (n & a & y & -> & Ha & _)%blocks_of_cases. apply long_of_nonempty in Ha. by destruct a.
Qed.

(** Which nodes' values take no bytes. *)
Definition takes (ns : list Node) (i : nat) (e : bool) : Prop :=
  if e then ∀ x, encodes ns i x ↔ x = [] else ∀ x, encodes ns i x → x ≠ [].

Lemma empties_snoc l n : empties (l ++ [n]) = empties l ++ [takes_none (empties l) n].
Proof. unfold empties. by rewrite fold_left_app. Qed.

Lemma empties_length l : length (empties l) = length l.
Proof.
  induction l as [|n l IH] using rev_ind; [done|]. rewrite empties_snoc, !length_app, IH. done.
Qed.

Lemma empties_take l i : (i ≤ length l)%nat → empties (take i l) = take i (empties l).
Proof.
  induction l as [|n l IH] using rev_ind; intros Hi; [by destruct i|].
  rewrite empties_snoc. rewrite length_app in Hi. simpl in Hi.
  destruct (decide (i ≤ length l)%nat).
  - rewrite !take_app_le by (rewrite ?empties_length; lia). by apply IH.
  - rewrite !take_ge by (rewrite ?length_app, ?empties_length; simpl; lia). by rewrite empties_snoc.
Qed.

Lemma empties_lookup l i n :
  l !! i = Some n → empties l !! i = Some (takes_none (take i (empties l)) n).
Proof.
  intros Hn. pose proof (lookup_lt_Some _ _ _ Hn) as Hi.
  rewrite <-empties_take by lia. pose proof (empties_take l (S i) ltac:(lia)) as E.
  rewrite (take_S_r _ _ _ Hn), empties_snoc in E.
  rewrite <-(lookup_take_lt _ (S i)) by lia. rewrite <-E.
  rewrite lookup_app_r by (rewrite empties_length, length_take; lia).
  rewrite empties_length, length_take. by replace (i - i `min` length l)%nat with 0%nat by lia.
Qed.

Lemma fields_of_empty (P : nat → list Z → Prop) fs x :
  (∀ f, f ∈ fs → ∀ y, P f y ↔ y = []) → fields_of P fs x ↔ x = [].
Proof.
  revert x. induction fs as [|f fs IH]; intros x HP.
  - split; [by inversion 1|intros ->; constructor].
  - assert (IH' : ∀ x, fields_of P fs x ↔ x = []) by (intros y; apply IH; intros g Hg; apply HP; by right).
    pose proof (HP f ltac:(left)) as Hf. split.
    + inversion 1 as [|f' fs' a b Ha Hb]; subst. apply Hf in Ha as ->. by apply IH' in Hb.
    + intros ->. change (@nil Z) with (@nil Z ++ []). constructor; [by apply Hf|by apply IH'].
Qed.

Lemma fields_of_nonempty (P : nat → list Z → Prop) fs f x :
  f ∈ fs → (∀ y, P f y → y ≠ []) → fields_of P fs x → x ≠ [].
Proof.
  intros Hin Hf H. induction H as [|g fs a b Ha Hb IH]; [by apply elem_of_nil in Hin|].
  apply elem_of_cons in Hin as [->|Hin]; [apply Hf in Ha|apply IH in Hin].
  - by destruct a.
  - intros [_ ?]%app_eq_nil. done.
Qed.

Lemma empties_spec ns i :
  wf_nodes ns → (i < length ns)%nat → takes ns i (default false (empties ns !! i)).
Proof.
  intros Hwf. induction (lt_wf i) as [i _ IH]. intros Hi.
  destruct (lookup_lt_is_Some_2 ns i Hi) as [n Hn]. rewrite (empties_lookup _ _ _ Hn).
  destruct (Hwf i n Hn) as [Hc Hf]. unfold takes. cbn [default].
  assert (E : ∀ x, encodes ns i x ↔ node_encodes ns n x) by (intros x; by apply encodes_node).
  destruct n as [| | | | | | |size| |item|value|branches|fields]; cbn [takes_none].
  1: intros x; by rewrite E.
  1-6: intros x; rewrite E; simpl.
  - intros [-> | ->]; done.
  - intros (v & Hv & _). by apply varint_of_range in Hv as [_ ?].
  - intros (v & Hv). by apply varint_of_range in Hv as [_ ?].
  - unfold bytes_of. destruct x; simpl; [lia|done].
  - unfold bytes_of. destruct x; simpl; [lia|done].
  - apply text_of_nonempty.
  - specialize (Hf size eq_refl). destruct size as [|p|p]; [| |lia].
    + intros x. rewrite E. simpl. unfold bytes_of. destruct x; simpl; [done|]. split; [lia|done].
    + intros x. rewrite E. simpl. unfold bytes_of. destruct x; simpl; [lia|done].
  - intros x. rewrite E. intros (v & Hv & _). by apply varint_of_range in Hv as [_ ?].
  - intros x. rewrite E. apply blocks_of_nonempty.
  - intros x. rewrite E. apply blocks_of_nonempty.
  - intros x. rewrite E. intros (m & branch & a & b & -> & Ha & _). apply long_of_nonempty in Ha.
    by destruct a.
  - simpl in Hc. rewrite Forall_forall in Hc.
    assert (Hsub : ∀ f, f ∈ fields → takes ns f (default false (take i (empties ns) !! f))).
    { intros f Hin. specialize (Hc f Hin). rewrite lookup_take_lt by done. apply IH; lia. }
    destruct (forallb _ fields) eqn:Ef.
    + intros x. rewrite E. simpl. apply fields_of_empty. intros f Hin. specialize (Hsub f Hin).
      rewrite forallb_forall in Ef. rewrite (Ef f) in Hsub by by apply list_elem_of_In. exact Hsub.
    + intros x. rewrite E. simpl.
      assert (Hx : ∃ f, f ∈ fields ∧ default false (take i (empties ns) !! f) = false).
      { clear -Ef. induction fields as [|f l IH]; [done|]. simpl in Ef.
        destruct (default false _) eqn:Ed; [|exists f; split; [by left|done]].
        destruct (IH Ef) as (g & Hg & Eg). exists g. split; [by right|done]. }
      destruct Hx as (f & Hin & Ed). specialize (Hsub f Hin). rewrite Ed in Hsub.
      by apply (fields_of_nonempty _ _ f).
Qed.

(** ** The walk *)

Section Walks.
Context (W : Wire).
Context (wf : wf_nodes (nodes W)) (spec_empty : empty W = empties (nodes W)).
Abbreviation ns := (nodes W).
Abbreviation walk := (walk W).

Lemma each_parses (walk_one : nat → Parser unit) (P : nat → list Z → Prop) fields :
  (∀ f, f ∈ fields → parses (walk_one f) (λ _ x, P f x)) →
  parses (each walk_one fields) (λ _ x, fields_of P fields x).
Proof.
  induction fields as [|f fields IH]; intros H buf; cbn [each].
  - eapply parses_at_iff; [|apply parses_ret]. intros [] x _.
    split; [intros [_ ->]; constructor|by inversion 1].
  - eapply parses_at_iff; [|apply (parses_bind (walk_one f) (λ _, each walk_one fields)
      (λ _ x, P f x) (λ _ _ x, fields_of P fields x))].
    + intros [] x _. split.
      * intros ([] & a & b & -> & Ha & Hb). by constructor.
      * inversion 1 as [|g fs a b Ha Hb]; subst. by exists tt, a, b.
    + apply H. by left.
    + intros [] x rest _ _. apply IH. intros g Hg. apply H. by right.
Qed.

Lemma small_parses why :
  parses (let* v := varint in if u32_max <? v then failP (Malformed why) else retP tt)
    (λ _ x, ∃ v, varint_of v x ∧ v ≤ u32_max).
Proof.
  intros buf. eapply parses_at_iff;
    [|apply (parses_bind varint _ _ (λ v _ y, v ≤ u32_max ∧ y = []) buf (varint_parses buf))].
  - intros [] x _. split.
    + intros (v & a & y & -> & Hv & Hm & ->). rewrite app_nil_r. by exists v.
    + intros (v & Hv & Hm). exists v, x, []. by rewrite app_nil_r.
  - intros v x rest _ _. destruct (Z.ltb_spec u32_max v).
    + apply parses_fail; [done|]. intros _ y [? _]. lia.
    + eapply parses_at_iff; [|apply parses_ret]. intros [] y _. naive_solver.
Qed.

Lemma boolean_parses :
  parses (let* b := take_bytes 1 in
          match b with
          | [0] | [1] => retP tt
          | _ => failP (Malformed "a boolean that is neither 0 nor 1")
          end) (λ _ x, x = [0] ∨ x = [1]).
Proof.
  intros buf. eapply parses_at_iff; [|apply (parses_bind (take_bytes 1) _ _
    (λ l _ y, (l = [0] ∨ l = [1]) ∧ y = []) buf (take_parses 1 ltac:(lia) buf))].
  - intros [] x _. split.
    + intros (l & a & y & -> & [-> _] & [-> | ->] & ->); [by left|by right].
    + intros H. exists x, x, []. rewrite app_nil_r. split; [done|].
      destruct H as [-> | ->]; (split; [split; [done|reflexivity]|]); auto.
  - intros l x rest _ [-> Hl]. unfold bytes_of in Hl. destruct x as [|b [|]]; simpl in Hl; try lia.
    assert (Hcase : b = 0 ∨ b = 1 ∨ (b ≠ 0 ∧ b ≠ 1)) by lia. destruct Hcase as [->|[->|[H0 H1]]].
    + eapply parses_at_iff; [|apply parses_ret]. intros [] y _. naive_solver.
    + eapply parses_at_iff; [|apply parses_ret]. intros [] y _. naive_solver.
    + assert (Hfail : parses_at (failP (A := unit) (Malformed "a boolean that is neither 0 nor 1"))
        (λ _ y, ([b] = [0] ∨ [b] = [1]) ∧ y = []) rest).
      { apply parses_fail; [done|]. intros _ y [[[= ->]|[= ->]] _]; done. }
      destruct b as [|[p|p|]|p]; try exact Hfail; lia.
Qed.

Lemma walk_parses depth : ∀ i, (i < depth)%nat → (i < length ns)%nat →
  parses (walk depth i) (λ _ x, encodes ns i x).
Proof.
  induction depth as [|depth IH]; [lia|]. intros i Hi Hlen.
  destruct (lookup_lt_is_Some_2 ns i Hlen) as [n Hn]. destruct (wf i n Hn) as [Hc Hf].
  assert (Hchild : ∀ c, c ∈ children n → parses (walk depth c) (λ _ x, encodes ns c x)).
  { intros c Hin. rewrite Forall_forall in Hc. specialize (Hc c Hin). apply IH; lia. }
  assert (Hgoal : parses (walk (S depth) i) (λ _ x, node_encodes ns n x));
    [|intros buf; eapply parses_at_iff; [|apply Hgoal]; intros [] x _; by rewrite encodes_node].
  cbn [Wire.walk]. rewrite Hn. destruct n as [| | | | | | |size| |item|value|branches|fields]; simpl.
  - intros buf. eapply parses_at_iff; [|apply parses_ret]. intros [] x _. naive_solver.
  - apply boolean_parses.
  - apply small_parses.
  - intros buf. apply parses_then, varint_parses.
  - intros buf. eapply parses_at_iff; [|apply parses_then, (take_parses 4); lia].
    intros [] x _. naive_solver.
  - intros buf. eapply parses_at_iff; [|apply parses_then, (take_parses 8); lia].
    intros [] x _. naive_solver.
  - apply text_parses.
  - intros buf. eapply parses_at_iff; [|apply parses_then, (take_parses size), Hf; done].
    intros [] x _. naive_solver.
  - apply small_parses.
  - specialize (Hchild item ltac:(left)). rewrite spec_empty.
    pose proof (empties_spec ns item wf) as He. apply blocks_parse; [done|].
    apply He. simpl in Hc. inversion_clear Hc. lia.
  - specialize (Hchild value ltac:(left)). apply blocks_parse.
    + intros buf. eapply parses_at_iff; [|apply (parses_bind walk_bytes _ _
        (λ _ _ y, encodes ns value y) buf (text_parses buf))].
      * intros [] x _. split.
        -- intros ([] & a & b & -> & Ha & Hb). by exists a, b.
        -- intros (a & b & -> & Ha & Hb). by exists tt, a, b.
      * intros [] x rest _ _. apply Hchild.
    + intros x (a & b & -> & Ha & _). apply text_of_nonempty in Ha. by destruct a.
  - intros buf. eapply parses_at_iff; [|apply (parses_bind long _ _
      (λ m _ y, 0 ≤ m ∧ ∃ branch, branches !! Z.to_nat m = Some branch ∧ encodes ns branch y)
      buf (long_parses buf))].
    + intros [] x _. split.
      * intros (m & a & b & -> & Ha & H0 & branch & Hb & Hx). by exists m, branch, a, b.
      * intros (m & branch & a & b & -> & Ha & H0 & Hb & Hx). exists m, a, b.
        split; [done|]. split; [done|]. split; [done|]. by exists branch.
    + intros m x rest _ _. destruct (Z.ltb_spec m 0).
      * apply parses_fail; [done|]. intros _ y [? _]. lia.
      * destruct (branches !! Z.to_nat m) as [branch|] eqn:Eb.
        -- eapply parses_at_iff; [|apply (Hchild branch), (list_elem_of_lookup_2 _ _ _ Eb)].
           intros [] y _. naive_solver.
        -- apply parses_fail; [done|]. intros _ y (_ & branch & ? & _). done.
  - apply each_parses. exact Hchild.
Qed.
End Walks.

(** ** The table of a schema *)

Definition types_wf (t : Types) : Prop :=
  wf_nodes (t_nodes t) ∧ ∀ k id, t_named t !! k = Some id → (id < length (t_nodes t))%nat.

(** What reading one type does. *)
Definition reads_type (t : Types) (r : nat * Types) : Prop :=
  types_wf r.2 ∧ (r.1 < length (t_nodes r.2))%nat ∧ (length (t_nodes t) ≤ length (t_nodes r.2))%nat.

Lemma push_wf n t :
  types_wf t → wf_node (length (t_nodes t)) n → reads_type t (push n t).
Proof.
  intros [H1 H2] Hn. unfold reads_type, push. simpl. rewrite length_app. simpl.
  split; [|lia]. split; simpl.
  - intros i m [Hi|[Hi Hm]]%lookup_app_Some; [by apply H1|].
    destruct (i - length (t_nodes t))%nat as [|k] eqn:E; [|done]. injection Hm as <-.
    by replace i with (length (t_nodes t)) by lia.
  - intros k id Hk. rewrite length_app. specialize (H2 k id Hk). lia.
Qed.

Lemma register_wf name ns id t :
  types_wf t → (id < length (t_nodes t))%nat → types_wf (register name ns id t).
Proof.
  intros [H1 H2] Hid. split; [done|]. simpl. intros k id'.
  destruct (decide (k = (default EmptyString ns, name))) as [->|Hk].
  - rewrite lookup_insert_eq. by intros [= <-].
  - rewrite lookup_insert_ne by done. apply H2.
Qed.

Lemma named_type_wf name ns t r : types_wf t → named_type name ns t = Ok r → reads_type t r.
Proof.
  intros Ht. unfold named_type. destruct (primitive name) as [n|] eqn:Ep.
  - intros [= <-]. apply push_wf; [done|]. unfold primitive in Ep.
    repeat (destruct (decide _); [injection Ep as <-; by split|]). done.
  - destruct (t_named t !! _) as [id|] eqn:Ek; [|done]. intros [= <-].
    split; [done|]. split; [by apply Ht in Ek|done].
Qed.

Lemma parse_each_wf (parse : Value → Types → result string (nat * Types)) l :
  (∀ v t r, v ∈ l → types_wf t → parse v t = Ok r → reads_type t r) →
  ∀ t ids t', types_wf t → parse_each parse l t = Ok (ids, t') →
    types_wf t' ∧ Forall (λ id, (id < length (t_nodes t'))%nat) ids ∧
    (length (t_nodes t) ≤ length (t_nodes t'))%nat.
Proof.
  induction l as [|v l IH]; intros Hp t ids t' Ht; simpl; [by intros [= <- <-]|].
  destruct (parse v t) as [[id t1]|] eqn:E1; [|done].
  apply Hp in E1 as (H1 & H2 & H3); [|by left|done]. simpl in *.
  destruct (parse_each parse l t1) as [[ids1 t2]|] eqn:E2; [|done]. intros [= <- <-].
  apply IH in E2 as (G1 & G2 & G3); [|by intros; eapply Hp; [right|..]|done].
  split; [done|]. split; [|lia]. constructor; [lia|done].
Qed.

Lemma pushed_wf n t t1 :
  types_wf t1 → (length (t_nodes t) ≤ length (t_nodes t1))%nat →
  wf_node (length (t_nodes t1)) n → reads_type t (push n t1).
Proof. intros H1 H2 H3. destruct (push_wf n t1 H1 H3) as (G1 & G2 & G3). split; [done|]. split; [done|lia]. Qed.

Lemma registered_wf n name ns t t1 :
  types_wf t1 → (length (t_nodes t) ≤ length (t_nodes t1))%nat →
  wf_node (length (t_nodes t1)) n →
  reads_type t (let '(id, t2) := push n t1 in (id, register name ns id t2)).
Proof.
  intros H1 H2 H3. destruct (pushed_wf n t t1 H1 H2 H3) as (G1 & G2 & G3). simpl.
  split; [by apply register_wf|]. split; [exact G2|exact G3].
Qed.

Lemma wf_leaf i n : children n = [] → (∀ size, n = N_Fixed size → 0 ≤ size) → wf_node i n.
Proof. intros E H. split; [by rewrite E|done]. Qed.

Lemma parse_wf depth : ∀ v ns t r,
  types_wf t → parse depth v ns t = Ok r → reads_type t r.
Proof.
  induction depth as [|depth IH]; [done|]. intros v ns t r Ht. cbn [parse].
  destruct v as [| | | |name|branches|fields]; try done.
  { by apply named_type_wf. }
  { destruct (parse_each _ branches t) as [[ids t1]|] eqn:E; [|done]. intros [= <-].
    apply parse_each_wf in E as (H1 & H2 & H3); [|intros; by eapply IH|done].
    apply pushed_wf; [done|done|]. split; [done|done]. }
  set (o := V_Object fields). destruct (ok_or _ _) as [kind|]; [|done].
  set (own := match _ with Some _ => _ | None => _ end). clearbody own.
  destruct (decide (kind = "record"%string)).
  { destruct (str_of "name" o) as [name|]; [|done].
    destruct (ok_or _ _) as [fs|]; [|done].
    destruct (parse_each _ fs t) as [[ids t1]|] eqn:E; [|done].
    apply parse_each_wf in E as (H1 & H2 & H3); [| |done].
    - intros [= <-]. by apply (registered_wf (N_Record ids)); [..|split].
    - intros f u r' _ Hu. destruct (get_key "type" f); [|done]. by eapply IH. }
  destruct (decide (kind = "enum"%string)).
  { destruct (str_of "name" o) as [name|]; [|done]. destruct (ok_or _ _); [|done].
    intros [= <-]. by apply (registered_wf N_Enum); [..|apply wf_leaf]. }
  destruct (decide (kind = "fixed"%string)).
  { destruct (str_of "name" o) as [name|]; [|done].
    destruct (get_key "size" o ≫= as_u64) as [size|] eqn:Es; [|done]. simpl.
    apply bind_Some in Es as (x & _ & Hx%as_u64_range).
    intros [= <-]. apply (registered_wf (N_Fixed size)); [done|done|]. apply wf_leaf; [done|].
    intros s [= ->]. apply Hx. }
  destruct (decide (kind = "array"%string)).
  { destruct (ok_or _ _) as [it|]; [|done]. destruct (parse depth it ns t) as [[id t1]|] eqn:E; [|done].
    intros [= <-]. apply IH in E as (H1 & H2 & H3); [|done]. apply pushed_wf; [done|done|].
    split; [by repeat constructor|done]. }
  destruct (decide (kind = "map"%string)).
  { destruct (ok_or _ _) as [it|]; [|done]. destruct (parse depth it ns t) as [[id t1]|] eqn:E; [|done].
    intros [= <-]. apply IH in E as (H1 & H2 & H3); [|done]. apply pushed_wf; [done|done|].
    split; [by repeat constructor|done]. }
  by apply named_type_wf.
Qed.

(** A schema is no deeper than its JSON. *)
Lemma list_max_in n l : n ∈ l → (n ≤ list_max l)%nat.
Proof.
  intros Hn. pose proof (proj1 (list_max_le l (list_max l)) ltac:(lia)) as H.
  rewrite Forall_forall in H. by apply H.
Qed.

Lemma array_depth v l : v ∈ l → (depth_of v < depth_of (V_Array l))%nat.
Proof.
  intros Hv. cbn [depth_of]. apply Nat.lt_succ_r, list_max_in, list_elem_of_fmap. by exists v.
Qed.

Lemma get_key_depth k v w : get_key k v = Some w → (depth_of w < depth_of v)%nat.
Proof.
  destruct v as [| | | | | |fields]; try done. unfold get_key.
  destruct (List.find _ _) as [f|] eqn:E; [|done]. intros [= <-].
  apply List.find_some in E as [Hin _]. apply List.in_rev in Hin.
  cbn [depth_of]. apply Nat.lt_succ_r, list_max_in, list_elem_of_fmap. exists f.
  split; [done|]. by apply list_elem_of_In.
Qed.

Definition fueled {A} (r : result string A) : Prop := r ≠ Err "out of fuel"%string.

Lemma parse_each_fueled (parse : Value → Types → result string (nat * Types)) l :
  (∀ v t, v ∈ l → fueled (parse v t)) → ∀ t, fueled (parse_each parse l t).
Proof.
  unfold fueled. induction l as [|v l IH]; intros Hp t; simpl; [done|].
  pose proof (Hp v t ltac:(left)) as H. destruct (parse v t) as [[id t1]|]; [|congruence].
  specialize (IH ltac:(intros; apply Hp; by right) t1).
  destruct (parse_each parse l t1) as [[ids t2]|]; [done|congruence].
Qed.

Lemma named_type_fueled name ns t : fueled (named_type name ns t).
Proof.
  unfold fueled, named_type. destruct (primitive name); [done|]. destruct (t_named t !! _); done.
Qed.

Lemma parse_fueled depth : ∀ v ns t, (depth_of v < depth)%nat → fueled (parse depth v ns t).
Proof.
  induction depth as [|depth IH]; [lia|]. intros v ns t Hd. unfold fueled in *. cbn [parse].
  destruct v as [| | | |name|branches|fields]; try done.
  { apply named_type_fueled. }
  { pose proof (parse_each_fueled (λ b, parse depth b ns) branches) as H.
    assert (Hf : fueled (parse_each (λ b, parse depth b ns) branches t)).
    { apply H. intros v u Hv. apply IH. apply array_depth in Hv. lia. }
    unfold fueled in *. destruct (parse_each _ branches t) as [[]|]; [done|]. intros [= ->]. by apply Hf. }
  set (o := V_Object fields) in *. destruct (ok_or _ _) as [kind|] eqn:Ek.
  2: { destruct (get_key "type" o ≫= as_str); [done|]. by injection Ek as <-. }
  set (own := match _ with Some _ => _ | None => _ end). clearbody own.
  assert (Hstr : ∀ k, fueled (str_of k o)) by (intros k; unfold fueled, str_of; by destruct (get_key k o ≫= as_str)).
  destruct (decide (kind = "record"%string)).
  { pose proof (Hstr "name"%string) as Hn.
    destruct (str_of "name" o); [|intros [= ->]; by apply Hn].
    destruct (get_key "fields" o ≫= as_array) as [fs|] eqn:Ef; [|done]. simpl.
    assert (Hf : fueled (parse_each (λ f t, match get_key "type" f with
                                       | Some ty => parse depth ty own t
                                       | None => Err "a field without a type"%string
                                       end) fs t)).
    { apply parse_each_fueled. intros f u Hf. destruct (get_key "type" f) as [ty|] eqn:Et; [|done].
      apply IH. apply get_key_depth in Et. apply bind_Some in Ef as (x & Hx & Ha).
      destruct x; try done. injection Ha as ->. apply get_key_depth in Hx. apply array_depth in Hf. lia. }
    unfold fueled in *. destruct (parse_each _ fs t) as [[]|]; [done|]. intros [= ->]. by apply Hf. }
  destruct (decide (kind = "enum"%string)).
  { pose proof (Hstr "name"%string) as Hn.
    destruct (str_of "name" o); [|intros [= ->]; by apply Hn].
    by destruct (get_key "symbols" o ≫= as_array). }
  destruct (decide (kind = "fixed"%string)).
  { pose proof (Hstr "name"%string) as Hn.
    destruct (str_of "name" o); [|intros [= ->]; by apply Hn].
    by destruct (get_key "size" o ≫= as_u64). }
  destruct (decide (kind = "array"%string)).
  { destruct (get_key "items" o) as [it|] eqn:Ei; [|done]. simpl.
    apply get_key_depth in Ei. assert (Hf : fueled (parse depth it ns t)) by (apply IH; lia).
    unfold fueled in *. destruct (parse depth it ns t) as [[]|]; [done|]. intros [= ->]. by apply Hf. }
  destruct (decide (kind = "map"%string)).
  { destruct (get_key "values" o) as [it|] eqn:Ei; [|done]. simpl.
    apply get_key_depth in Ei. assert (Hf : fueled (parse depth it ns t)) by (apply IH; lia).
    unfold fueled in *. destruct (parse depth it ns t) as [[]|]; [done|]. intros [= ->]. by apply Hf. }
  apply named_type_fueled.
Qed.

Lemma wire_new_wf schema W :
  wire_new schema = Ok W →
  wf_nodes (nodes W) ∧ (root W < length (nodes W))%nat ∧ empty W = empties (nodes W).
Proof.
  unfold wire_new. destruct (parse _ schema None _) as [[r t]|] eqn:E; [|done]. intros [= <-].
  apply parse_wf in E as (H1 & H2 & _).
  - split; [apply H1|]. by split.
  - split; simpl; [intros i n Hi; by rewrite lookup_nil in Hi|].
    intros k id Hk. by rewrite lookup_empty in Hk.
Qed.

(** ** Properties *)


(** The table of a schema is well formed: a node's parts lie before it, so that a walk of
    any value ends, and a node is taken to need no bytes exactly when no value of it has any.
    Reading a schema never stops for its depth. *)
Theorem a_schemas_table_is_well_formed schema :
  wire_new schema ≠ Err "out of fuel"%string ∧
  ∀ W, wire_new schema = Ok W →
    (root W < length (nodes W))%nat ∧
    ∀ i n, nodes W !! i = Some n →
      Forall (λ c, (c < i)%nat) (children n) ∧
      if default false (empty W !! i) then ∀ x, encodes (nodes W) i x ↔ x = []
      else ∀ x, encodes (nodes W) i x → x ≠ [].
Proof.
  split.
  - pose proof (parse_fueled (S (depth_of schema)) schema None {| t_nodes := []; t_named := ∅ |}
      ltac:(lia)) as H. unfold fueled in H. unfold wire_new.
    destruct (parse _ schema None _) as [[]|]; [done|congruence].
  - intros W Hw. destruct (wire_new_wf _ _ Hw) as (Hwf & Hr & He). split; [done|].
    intros i n Hn. split; [apply (Hwf i n Hn)|]. rewrite He.
    apply (empties_spec (nodes W) i Hwf). by eapply lookup_lt_Some.
Qed.

Module WireDemo.
Definition str (s : string) : Value := V_String s.
(** [{"type": "record", "name": "row", "fields": [{"name": "id", "type": "long"},
    {"name": "note", "type": ["null", "string"]},
    {"name": "tags", "type": {"type": "array", "items": "int"}}]}] *)
Definition schema : Value :=
  V_Object [("type", str "record"); ("name", str "row"); ("fields", V_Array [
    V_Object [("name", str "id"); ("type", str "long")];
    V_Object [("name", str "note"); ("type", V_Array [str "null"; str "string"])];
    V_Object [("name", str "tags");
              ("type", V_Object [("type", str "array"); ("items", str "int")])]])]%string.
Definition wire : Wire :=
  Eval vm_compute in
  match wire_new schema with Ok w => w | Err _ => {| nodes := []; empty := []; root := 0 |} end.

(** 300, "hi", [1, 2] in a sized block; then the same and a Confluent header. *)
Definition record : list Z := [0xD8; 4;  2; 4; 104; 105;  3; 4; 2; 4; 0].
Example walked : record_len wire record = Ok 11.
Proof. vm_compute. reflexivity. Qed.
Example header_after : record_len wire (record ++ [0; 0; 0; 0; 7]) = Ok 11.
Proof. vm_compute. reflexivity. Qed.
Example union_out_of_range : is_ok (record_len wire [0xD8; 4;  10; 0]) = false.
Proof. vm_compute. reflexivity. Qed.
Example cut_short : is_ok (record_len wire [0xD8; 4;  2; 4; 104]) = false.
Proof. vm_compute. reflexivity. Qed.
End WireDemo.


Lemma a_schemas_table_is_well_formed_witness :
  (root WireDemo.wire < length (nodes WireDemo.wire))%nat.
Proof.
  apply (proj2 (a_schemas_table_is_well_formed WireDemo.schema) WireDemo.wire).
  vm_compute. reflexivity.
Defined.
