(* ===== verification/JsonText.v ===== *)
(** * JsonText: JSON as Trino reads and writes it (src/transform/jsonval.rs)

    The text layer under the JSON functions of a model: a strict parser that keeps every
    number as the text it was, the writers with Jackson's orders and escapes, Java's spellings
    of numbers, and the order of a [java.util.HashMap].

    A [&str] is the list of its characters, as numbers; the byte positions in error messages
    are left out.  [value], [members] and [items] take fuel that [parse] gives enough of. *)

From Stdlib Require Import ZArith Lia SpecFloat.
From stdpp Require Import base list strings sorting.
From S2P Require Import Prelude F64.

Open Scope N_scope.
Open Scope ddi_scope.

Abbreviation text := (list N).

(** A string literal's characters. *)
Definition chars (s : string) : text := Ascii.N_of_ascii <$> String.list_ascii_of_string s.

Inductive Json :=
  | J_Null
  | J_Bool (b : bool)
  | J_Number (n : text)
  | J_String (s : text)
  | J_Array (items : list Json)
  | J_Object (members : list (text * Json)).

Definition is_container (j : Json) : bool :=
  match j with J_Array _ | J_Object _ => true | _ => false end.
Definition as_items (j : Json) : option (list Json) :=
  match j with J_Array a => Some a | _ => None end.
(** [Json::get] *)
Definition get (key : text) (j : Json) : option Json :=
  match j with
  | J_Object members => snd <$> List.find (λ m, bool_decide (m.1 = key)) (rev members)
  | _ => None
  end.
Definition index (i : nat) (j : Json) : option Json := as_items j ≫= (λ a, a !! i).
Definition scalar_text (j : Json) : option text :=
  match j with
  | J_Null | J_Array _ | J_Object _ => None
  | J_Bool b => Some (chars (if b then "true" else "false"))
  | J_Number n => Some n
  | J_String s => Some s
  end.
(** [Json::size] *)
Definition json_size (j : Json) : nat :=
  match j with J_Array a => length a | J_Object o => length o | _ => 0%nat end.

(** ** Parsing *)

Definition MAX_DEPTH : nat := 512.

Definition is_ws (c : N) : bool := (c =? 32) || (c =? 9) || (c =? 10) || (c =? 13).
Definition digit (c : N) : bool := (48 <=? c) && (c <=? 57).

Fixpoint skip_ws (s : text) : text :=
  match s with
  | c :: s' => if is_ws c then skip_ws s' else s
  | [] => []
  end.

(** [expect], and [literal]: a word at the head. *)
Definition expect (want : N) (s : text) : result string text :=
  match s with
  | c :: s' => if c =? want then Ok s' else Err "expected another character"%string
  | [] => Err "expected a character, found the end of the text"%string
  end.
Fixpoint literal (word : text) (value : Json) (s : text) : result string (Json * text) :=
  match word with
  | [] => Ok (value, s)
  | want :: word =>
      match s with
      | c :: s' => if c =? want then literal word value s' else Err "invalid literal"%string
      | [] => Err "invalid literal"%string
      end
  end.

(** [char::to_digit(16)] *)
Definition hex_digit (c : N) : option N :=
  if digit c then Some (c - 48)
  else if (97 <=? c) && (c <=? 102) then Some (c - 87)
  else if (65 <=? c) && (c <=? 70) then Some (c - 55)
  else None.

(** [hex4], of four characters. *)
Definition hex4 (a b c d : N) : option N :=
  x ← hex_digit a; y ← hex_digit b; z ← hex_digit c; w ← hex_digit d;
  Some (((x * 16 + y) * 16 + z) * 16 + w).

(** What a one-character escape stands for. *)
Definition simple_escape (e : N) : option N :=
  if e =? 34 then Some 34 else if e =? 92 then Some 92 else if e =? 47 then Some 47
  else if e =? 98 then Some 8 else if e =? 102 then Some 12 else if e =? 110 then Some 10
  else if e =? 114 then Some 13 else if e =? 116 then Some 9 else None.

Definition is_high (u : N) : bool := (0xD800 <=? u) && (u <? 0xDC00).
Definition is_low (u : N) : bool := (0xDC00 <=? u) && (u <? 0xE000).
Definition pair_of (high low : N) : N := 0x10000 + (high - 0xD800) * 1024 + (low - 0xDC00).

(** [string], after the opening quote. *)
Fixpoint string_body (s : text) : result string (text * text) :=
  match s with
  | [] => Err "unterminated string"%string
  | c :: s =>
      if c =? 34 then Ok ([], s)
      else if c =? 92 then
        match s with
        | [] => Err "unterminated escape"%string
        | e :: s =>
            if e =? 117 then
              match s with
              | h1 :: h2 :: h3 :: h4 :: s =>
                  match hex4 h1 h2 h3 h4 with
                  | None => Err "invalid \u escape"%string
                  | Some unit =>
                      if is_high unit then
                        match s with
                        | b :: u :: l1 :: l2 :: l3 :: l4 :: s =>
                            if (b =? 92) && (u =? 117) then
                              match hex4 l1 l2 l3 l4 with
                              | None => Err "invalid \u escape"%string
                              | Some low =>
                                  if is_low low then
                                    let? r := string_body s in
                                    Ok (pair_of unit low :: r.1, r.2)
                                  else Err "invalid surrogate pair"%string
                              end
                            else Err "lone surrogate"%string
                        | _ => Err "lone surrogate"%string
                        end
                      else if is_low unit then Err "lone surrogate"%string
                      else let? r := string_body s in Ok (unit :: r.1, r.2)
                  end
              | _ => Err "truncated \u escape"%string
              end
            else
              match simple_escape e with
              | Some x => let? r := string_body s in Ok (x :: r.1, r.2)
              | None => Err "invalid escape"%string
              end
        end
      else if c <? 32 then Err "control character must be escaped"%string
      else let? r := string_body s in Ok (c :: r.1, r.2)
  end.

(** The digits at the head. *)
Fixpoint digits_at (s : text) : text * text :=
  match s with
  | c :: s' => if digit c then let '(d, r) := digits_at s' in (c :: d, r) else ([], s)
  | [] => ([], [])
  end.

(** The parts of [number]: each the text it takes and what is left. *)
Definition take_sign (s : text) : text * text :=
  match s with c :: s' => if c =? 45 then ([45], s') else ([], s) | [] => ([], []) end.
Definition take_int (s : text) : result string (text * text) :=
  match s with
  | c :: s' =>
      if c =? 48 then
        match s' with
        | d :: _ => if digit d then Err "number with a leading zero"%string else Ok ([48], s')
        | [] => Ok ([48], s')
        end
      else match digits_at s with
           | ([], _) => Err "invalid number"%string
           | (d, r) => Ok (d, r)
           end
  | [] => Err "invalid number"%string
  end.
Definition take_fraction (s : text) : result string (text * text) :=
  match s with
  | c :: s' =>
      if c =? 46 then
        match digits_at s' with
        | ([], _) => Err "number with no digits after '.'"%string
        | (d, r) => Ok (46 :: d, r)
        end
      else Ok ([], s)
  | [] => Ok ([], [])
  end.
Definition take_exponent_sign (s : text) : text * text :=
  match s with
  | c :: s' => if (c =? 43) || (c =? 45) then ([c], s') else ([], s)
  | [] => ([], [])
  end.
Definition take_exponent (s : text) : result string (text * text) :=
  match s with
  | c :: s' =>
      if (c =? 101) || (c =? 69) then
        let '(sign, s'') := take_exponent_sign s' in
        match digits_at s'' with
        | ([], _) => Err "number with no exponent digits"%string
        | (d, r) => Ok (c :: sign ++ d, r)
        end
      else Ok ([], s)
  | [] => Ok ([], [])
  end.

(** [number] *)
Definition number (s : text) : result string (Json * text) :=
  let '(sign, s) := take_sign s in
  let? i := take_int s in
  let? f := take_fraction i.2 in
  let? e := take_exponent f.2 in
  Ok (J_Number (sign ++ i.1 ++ f.1 ++ e.1), e.2).

(** [value], [object] and [array]; [members] and [items] are their loops, from the start of a
    member or an item, and [depth] is the parser's after entering. *)
Fixpoint value (fuel depth : nat) (s : text) : result string (Json * text) :=
  match fuel with
  | O => Err "out of fuel"%string
  | S fuel =>
      match s with
      | [] => Err "unexpected end of the text"%string
      | c :: s' =>
          if c =? 123 then
            if (MAX_DEPTH <? S depth)%nat then Err "nested too deep"%string
            else match skip_ws s' with
                 | c' :: r => if c' =? 125 then Ok (J_Object [], r)
                              else let? m := members fuel (S depth) (c' :: r) in
                                   Ok (J_Object m.1, m.2)
                 | [] => let? m := members fuel (S depth) [] in Ok (J_Object m.1, m.2)
                 end
          else if c =? 91 then
            if (MAX_DEPTH <? S depth)%nat then Err "nested too deep"%string
            else match skip_ws s' with
                 | c' :: r => if c' =? 93 then Ok (J_Array [], r)
                              else let? m := items fuel (S depth) (c' :: r) in
                                   Ok (J_Array m.1, m.2)
                 | [] => let? m := items fuel (S depth) [] in Ok (J_Array m.1, m.2)
                 end
          else if c =? 34 then let? r := string_body s' in Ok (J_String r.1, r.2)
          else if c =? 116 then literal (chars "true") (J_Bool true) s
          else if c =? 102 then literal (chars "false") (J_Bool false) s
          else if c =? 110 then literal (chars "null") J_Null s
          else if (c =? 45) || digit c then number s
          else Err "unexpected character"%string
      end
  end
with members (fuel depth : nat) (s : text) : result string (list (text * Json) * text) :=
  match fuel with
  | O => Err "out of fuel"%string
  | S fuel =>
      match skip_ws s with
      | c :: s' =>
          if c =? 34 then
            let? key := string_body s' in
            let? r := expect 58 (skip_ws key.2) in
            let? v := value fuel depth (skip_ws r) in
            match skip_ws v.2 with
            | c' :: r =>
                if c' =? 44 then let? more := members fuel depth r in
                                 Ok ((key.1, v.1) :: more.1, more.2)
                else if c' =? 125 then Ok ([(key.1, v.1)], r)
                else Err "expected ',' or '}'"%string
            | [] => Err "expected ',' or '}', found the end of the text"%string
            end
          else Err "expected a key"%string
      | [] => Err "expected a key, found the end of the text"%string
      end
  end
with items (fuel depth : nat) (s : text) : result string (list Json * text) :=
  match fuel with
  | O => Err "out of fuel"%string
  | S fuel =>
      let? v := value fuel depth (skip_ws s) in
      match skip_ws v.2 with
      | c' :: r =>
          if c' =? 44 then let? more := items fuel depth r in Ok (v.1 :: more.1, more.2)
          else if c' =? 93 then Ok ([v.1], r)
          else Err "expected ',' or ']'"%string
      | [] => Err "expected ',' or ']', found the end of the text"%string
      end
  end.

Definition parse_fuel (s : text) : nat := (2 * length s + 2)%nat.

Definition parse (s : text) : result string Json :=
  let s := skip_ws s in
  let? v := value (parse_fuel s) 0 s in
  match skip_ws v.2 with
  | [] => Ok v.1
  | _ => Err "unexpected character after the value"%string
  end.

(** ** Java's spellings of numbers *)

(** Rust's [split_at] of a nonempty text after its first character, the rest being [0] when
    there is none. *)
Definition fraction_of (rest : text) : text := match rest with [] => [48] | _ => rest end.

Definition zeros (n : nat) : text := replicate n 48.

(** [plain_layout] *)
Definition plain_layout (digits : text) (exponent : Z) : text :=
  let point := (exponent + 1)%Z in
  if (point <=? 0)%Z then [48; 46] ++ zeros (Z.to_nat (- point)) ++ digits
  else if (Z.of_nat (length digits) <=? point)%Z
  then digits ++ zeros (Z.to_nat point - length digits) ++ [46; 48]
  else take (Z.to_nat point) digits ++ [46] ++ drop (Z.to_nat point) digits.

Definition show_int (z : Z) : text := chars (show_Z z).

Fixpoint trim_zeros (s : text) : text :=
  match s with
  | c :: s' => if c =? 48 then trim_zeros s' else s
  | [] => []
  end.

(** The digits without the zeros before them: one zero when there is nothing else. *)
Definition lead (digits : text) : text := match trim_zeros digits with [] => [48] | d => d end.

(** [java_bigdecimal] *)
Definition java_bigdecimal (negative : bool) (digits : text) (scale : Z) : text :=
  let digits := lead digits in
  let precision := Z.of_nat (length digits) in
  let adjusted := (- scale + (precision - 1))%Z in
  let sign := if negative && negb (bool_decide (digits = [48])) then [45] else [] in
  let body :=
    if (scale =? 0)%Z then digits
    else if (0 <? scale)%Z && (-6 <=? adjusted)%Z then
      if (scale <? precision)%Z
      then take (Z.to_nat (precision - scale)) digits ++ [46] ++
           drop (Z.to_nat (precision - scale)) digits
      else [48; 46] ++ zeros (Z.to_nat (scale - precision)) ++ digits
    else
      let mantissa := match digits with
                      | [d] => [d]
                      | d :: rest => d :: 46 :: rest
                      | [] => []
                      end in
      let exp := if (0 <=? adjusted)%Z then 43 :: show_int adjusted else show_int adjusted in
      mantissa ++ [69] ++ exp in
  sign ++ body.

(** [split_once] at the first character of a set. *)
Fixpoint split_once (at_ : N → bool) (s : text) : option (text * text) :=
  match s with
  | [] => None
  | c :: s => if at_ c then Some ([], s)
              else (λ '(a, b), (c :: a, b)) <$> split_once at_ s
  end.

Definition is_e (c : N) : bool := (c =? 101) || (c =? 69).
Definition is_point (c : N) : bool := c =? 46.

Definition value_of (digits : text) : N := of_digits ((λ c, c - 48) <$> digits).

(** [str::parse] of an integer type that goes from [lo] to [hi]. *)
Definition parse_int (lo hi : Z) (s : text) : option Z :=
  let '(negative, digits) :=
    match s with
    | c :: s' => if c =? 45 then (true, s') else if c =? 43 then (false, s') else (false, s)
    | [] => (false, [])
    end in
  match digits with
  | [] => None
  | _ =>
      if forallb digit digits then
        let v := Z.of_N (value_of digits) in
        let v := if negative : bool then (- v)%Z else v in
        if (lo <=? v)%Z && (v <=? hi)%Z then Some v else None
      else None
  end.
Definition parse_i32 : text → option Z := parse_int i32_min i32_max.

(** What [java_bigdecimal_text] reads a number as: its sign, its digits and its scale; nothing
    when the exponent is not an [i32]. *)
Definition read_decimal (text : text) : option (bool * list N * Z) :=
  let '(negative, rest) :=
    match text with c :: s => if c =? 45 then (true, s) else (false, text) | [] => (false, []) end in
  let split :=
    match split_once is_e rest with
    | Some (m, e) => (λ e, (m, e)) <$> parse_i32 e
    | None => Some (rest, 0%Z)
    end in
  '(mantissa, exponent) ← split;
  let '(int, frac) := default (mantissa, []) (split_once is_point mantissa) in
  Some (negative, int ++ frac, (Z.of_nat (length frac) - exponent)%Z).

(** [java_bigdecimal_text] *)
Definition java_bigdecimal_text (text : text) : list N :=
  match read_decimal text with
  | Some (negative, digits, scale) => java_bigdecimal negative digits scale
  | None => text
  end.

(** *** [Double.toString]

    Rust's [str::parse] of a double is correctly rounded, and its [{:e}] writes the shortest
    digits that read back as the double, of those the nearest. *)

(** [m * 10^e], rounded to the nearest double. *)
Definition round_decimal (negative : bool) (m : N) (e : Z) : f64 :=
  match m with
  | 0 => S754_zero negative
  | Npos p =>
      let num := (Z.pos p * 10 ^ Z.max 0 e)%Z in
      let den := (10 ^ Z.max 0 (- e))%Z in
      let '(q, e', l) := SFdiv_core_binary prec emax num 0 den 0 in
      binary_round_aux prec emax negative q e' l
  end.

(** The rational a finite double is. *)
Definition fraction (m : positive) (e : Z) : Z * Z :=
  ((Z.pos m * 2 ^ Z.max 0 e)%Z, (2 ^ Z.max 0 (- e))%Z).

(** [num / den] to [n] digits: the candidates below and above, with the exponent of their
    last digit, the nearer one first. *)
Definition candidates (num den : Z) (n : nat) : list (N * Z) :=
  let scale := Z.of_nat (length (digits_of (Z.to_N den))) in
  let first := (Z.of_nat (length (digits_of (Z.to_N (num * 10 ^ scale / den)))) - 1 - scale)%Z in
  let last := (first - (Z.of_nat n - 1))%Z in
  let num := (num * 10 ^ Z.max 0 (- last))%Z in
  let den := (den * 10 ^ Z.max 0 last)%Z in
  let below := (num / den)%Z in
  if (2 * (num - below * den) <? den)%Z
  then [(Z.to_N below, last); (Z.to_N (below + 1), last)]
  else [(Z.to_N (below + 1), last); (Z.to_N below, last)].

(** The shortest candidate that reads back as [v], [n] digits being tried first. *)
Fixpoint shortest_from (v : f64) (num den : Z) (tries n : nat) : N * Z :=
  match tries with
  | O => default (1, 0%Z) (head (candidates num den n))
  | S tries =>
      match List.find (λ c, SFeqb (round_decimal false c.1 c.2) v) (candidates num den n) with
      | Some c => c
      | None => shortest_from v num den tries (S n)
      end
  end.

(** [{:e}] of a positive double: its digits and its exponent. *)
Definition sci (m : positive) (e : Z) : text * Z :=
  let '(num, den) := fraction m e in
  let '(d, last) := shortest_from (S754_finite false m e) num den 17 1 in
  let digits := (λ d, d + 48) <$> digits_of d in
  (rev (lead (rev digits)),
   (last + Z.of_nat (length digits) - 1)%Z).

Definition plain_range (v : f64) : bool :=
  negb (ltb v (round_decimal false 1 (-3))) && ltb v (round_decimal false 1 7).

(** [java_double] *)
Definition java_double (v : f64) : text :=
  match v with
  | S754_nan => chars "NaN"
  | S754_infinity s => chars (if s then "-Infinity" else "Infinity")
  | S754_zero s => chars (if s then "-0.0" else "0.0")
  | S754_finite s m e =>
      let '(digits, exponent) := sci m e in
      let body :=
        if plain_range (S754_finite false m e) then plain_layout digits exponent
        else take 1 digits ++ [46] ++ fraction_of (drop 1 digits) ++ [69] ++ show_int exponent in
      (if s : bool then [45] else []) ++ body
  end.

(** [str::parse::<f64>] of a number: digits with at most one point, then an exponent. *)
Definition parse_f64 (s : text) : option f64 :=
  let '(negative, rest) :=
    match s with
    | c :: s' => if c =? 45 then (true, s') else if c =? 43 then (false, s') else (false, s)
    | [] => (false, [])
    end in
  let split :=
    match split_once is_e rest with
    | Some (m, e) =>
        let '(negative, digits) :=
          match e with
          | c :: e' => if c =? 45 then (true, e') else if c =? 43 then (false, e') else (false, e)
          | [] => (false, [])
          end in
        match digits with
        | [] => None
        | _ => if forallb digit digits
               then Some (m, let v := Z.of_N (value_of digits) in if negative : bool then (- v)%Z else v)
               else None
        end
    | None => Some (rest, 0%Z)
    end in
  '(mantissa, exponent) ← split;
  let '(int, frac) := default (mantissa, []) (split_once is_point mantissa) in
  match int ++ frac with
  | [] => None
  | digits =>
      if forallb digit digits
      then Some (round_decimal negative (value_of digits) (exponent - Z.of_nat (length frac)))
      else None
  end.

(** [Json::same_value] *)
Fixpoint same_value (a b : Json) : bool :=
  match a, b with
  | J_Null, J_Null => true
  | J_Bool x, J_Bool y => Bool.eqb x y
  | J_Number x, J_Number y =>
      match parse_f64 x, parse_f64 y with
      | Some v, Some w => SFeqb v w
      | _, _ => bool_decide (x = y)
      end
  | J_String x, J_String y => bool_decide (x = y)
  | J_Array xs, J_Array ys =>
      (fix all (xs ys : list Json) : bool :=
         match xs, ys with
         | [], [] => true
         | x :: xs, y :: ys => same_value x y && all xs ys
         | _, _ => false
         end) xs ys
  | J_Object xs, J_Object ys =>
      (length xs =? length ys)%nat &&
      forallb (λ '(k, v), existsb (λ '(k2, v2), bool_decide (k = k2) && same_value v v2) ys) xs
  | _, _ => false
  end.

(** ** Writing *)

Inductive Numbers := BigDecimal | JavaDouble.
Inductive Members := Verbatim | LastWins | Sorted.
Inductive Generator := Utf8 | Chars.

(** [number_text] *)
Definition number_text (n : text) (numbers : Numbers) : text :=
  if existsb (λ c, is_point c || is_e c) n then
    match numbers with
    | BigDecimal => java_bigdecimal_text n
    | JavaDouble =>
        match parse_f64 n with
        | Some v => match v with
                    | S754_nan | S754_infinity _ => n
                    | _ => java_double v
                    end
        | None => n
        end
    end
  else n.

(** [encode_utf16] *)
Definition utf16 (c : N) : list N :=
  if c <? 0x10000 then [c]
  else [0xD800 + (c - 0x10000) / 1024; 0xDC00 + (c - 0x10000) mod 1024].
Definition encode_utf16 (s : text) : list N := mjoin (utf16 <$> s).

Fixpoint list_cmp (a b : list N) : comparison :=
  match a, b with
  | [], [] => Eq
  | [], _ => Lt
  | _, [] => Gt
  | x :: a, y :: b => match x ?= y with Eq => list_cmp a b | c => c end
  end.
(** [java_string_cmp] *)
Definition java_string_cmp (a b : text) : comparison :=
  list_cmp (encode_utf16 a) (encode_utf16 b).

(** The upper-case digit of a nibble, and [{:04X}]. *)
Definition hex_char (n : N) : N := if n <? 10 then n + 48 else n + 55.
Definition hex4_text (u : N) : text :=
  [hex_char (u / 4096 mod 16); hex_char (u / 256 mod 16); hex_char (u / 16 mod 16); hex_char (u mod 16)].
Definition unit_escape (u : N) : text := 92 :: 117 :: hex4_text u.

(** One character of [push_quoted]. *)
Definition escape (generator : Generator) (c : N) : text :=
  if c =? 34 then [92; 34] else if c =? 92 then [92; 92] else if c =? 8 then [92; 98]
  else if c =? 12 then [92; 102] else if c =? 10 then [92; 110] else if c =? 13 then [92; 114]
  else if c =? 9 then [92; 116] else if c <? 32 then unit_escape c
  else match generator with
       | Utf8 => if 0xFFFF <? c then mjoin (unit_escape <$> utf16 c) else [c]
       | Chars => [c]
       end.

Definition push_quoted (s : text) (generator : Generator) : text :=
  [34] ++ mjoin (escape generator <$> s) ++ [34].
Definition quote (s : text) : text := push_quoted s Utf8.

(** A member read again: the first position of its key takes its value. *)
Fixpoint put {A} (k : text) (v : A) (seen : list (text * A)) : list (text * A) :=
  match seen with
  | [] => [(k, v)]
  | (k', v') :: seen => if bool_decide (k' = k) then (k', v) :: seen else (k', v') :: put k v seen
  end.
Definition dedup {A} (pairs : list (text * A)) : list (text * A) :=
  fold_left (λ seen '(k, v), put k v seen) pairs [].

Definition key_le {A} (a b : text * A) : Prop := java_string_cmp a.1 b.1 ≠ Gt.
#[export] Instance key_le_dec {A} : RelDecision (@key_le A).
Proof. intros a b. unfold key_le. destruct (java_string_cmp a.1 b.1); [left|left|right]; congruence. Defined.

Definition ordered {A} (members : Members) (pairs : list (text * A)) : list (text * A) :=
  match members with
  | Verbatim => pairs
  | LastWins => dedup pairs
  | Sorted => merge_sort key_le (dedup pairs)
  end.

(** Texts with commas between them. *)
Definition commas (l : list text) : text :=
  match l with
  | [] => []
  | t :: l => t ++ mjoin ((λ t, 44 :: t) <$> l)
  end.

(** [write] *)
Section Write.
Context (how : Members) (numbers : Numbers) (generator : Generator).
Fixpoint write (json : Json) : text :=
  match json with
  | J_Null => chars "null"
  | J_Bool b => chars (if b then "true" else "false")
  | J_Number n => number_text n numbers
  | J_String s => push_quoted s generator
  | J_Array items => [91] ++ commas (write <$> items) ++ [93]
  | J_Object pairs =>
      [123] ++
      commas ((λ '(k, t), push_quoted k generator ++ [58] ++ t)
                <$> ordered how ((λ '(k, v), (k, write v)) <$> pairs)) ++
      [125]
  end.
End Write.

(** ** The order of a [java.util.HashMap] *)

(** [java_string_hash], as the [u32] it is cast to. *)
Definition java_string_hash (s : text) : N :=
  fold_left (λ h u, (h * 31 + u) mod 2 ^ 32) (encode_utf16 s) 0.

Definition TREEIFY_THRESHOLD : nat := 8.
Definition MIN_TREEIFY_CAPACITY : N := 64.

(** [h ^ (h >>> 16)] *)
Definition spread (k : text) : N :=
  let h := java_string_hash k in N.lxor h (N.shiftr h 16).

Definition slot_of (capacity : N) (spread : N) : nat := N.to_nat (N.land spread (capacity - 1)).

(** A table: its chains of indexes. *)
Definition push_slot (slot i : nat) (slots : list (list nat)) : list (list nat) :=
  alter (λ chain, chain ++ [i]) slot slots.

(** [resize]: the next table, and its capacity. *)
Definition resize (spreads : list N) (t : list (list nat) * N) : list (list nat) * N :=
  let capacity := 2 * t.2 in
  (fold_left (λ next i, push_slot (slot_of capacity (nth i spreads 0)) i next) (mjoin t.1)
     (replicate (N.to_nat capacity) []),
   capacity).

(** One key of [java_hashmap_order]'s loop. *)
Definition put_key (spreads : list N) (t : list (list nat) * N) (i : nat)
    : list (list nat) * N :=
  let slot := slot_of t.2 (nth i spreads 0) in
  let chain_before := length (nth slot t.1 []) in
  let t := (push_slot slot i t.1, t.2) in
  let t := if (TREEIFY_THRESHOLD <=? chain_before)%nat && (t.2 <? MIN_TREEIFY_CAPACITY)
           then resize spreads t else t in
  if t.2 * 3 / 4 <? N.of_nat i + 1 then resize spreads t else t.

(** [java_hashmap_order] *)
Definition java_hashmap_order (keys : list text) : list nat :=
  let spreads := spread <$> keys in
  mjoin (fold_left (put_key spreads) (seq 0 (length keys)) (replicate 16 [], 16)).1.

(** A text with quotes written as apostrophes. *)
Definition q (s : string) : text := (λ c, if c =? 39 then 34 else c) <$> chars s.

Example parses : parse (q " {'a' : [1.50, -0e+3, true], 'a':'x\u00e9\ud83d\ude0a'} ") =
  Ok (J_Object [(chars "a", J_Array [J_Number (chars "1.50"); J_Number (chars "-0e+3"); J_Bool true]);
                (chars "a", J_String [120; 233; 0x1F60A])]).
Proof. vm_compute. reflexivity. Qed.

Example writes :
  (write Sorted BigDecimal Utf8 <$> ok (parse (q "{'b':1.50,'a':'\ud83d\ude0a','b':[0.0000001,12e3,-0.0]}"))) =
    Some (q "{'a':'\uD83D\uDE0A','b':[1E-7,1.2E+4,0.0]}") ∧
  (write Verbatim JavaDouble Chars <$> ok (parse (q "[1.50,1e7,0.001,0.0001,123456.789e-3,1E400,4.9e-324]"))) =
    Some (q "[1.5,1.0E7,0.001,1.0E-4,123.456789,1E400,5.0E-324]").
Proof. vm_compute. done. Qed.

Example hash_order : java_hashmap_order [chars "key_1"; chars "key_2"] = [1; 0]%nat.
Proof. vm_compute. reflexivity. Qed.
