(* ===== verification/JsonGrammar.v ===== *)
(** * JsonGrammar: what the parser of JsonText reads (src/transform/jsonval.rs)

    [spells v t] is RFC 8259: the texts a value has.  [value_sound] and [value_complete] show
    by induction on the fuel and on the grammar that the parser reads exactly those, to the
    depth it allows. *)

From Stdlib Require Import ZArith Lia.
From stdpp Require Import base list strings.
From S2P Require Import Prelude JsonText.

Open Scope N_scope.
Open Scope ddi_scope.

(** ** The grammar *)

Definition blank (w : text) : Prop := Forall (λ c, is_ws c = true) w.
Definition digits (d : text) : Prop := d ≠ [] ∧ Forall (λ c, digit c = true) d.

Inductive spells_int : text → Prop :=
  | int_zero : spells_int [48]
  | int_other d ds : d ≠ 48 → digits (d :: ds) → spells_int (d :: ds).
Inductive spells_fraction : text → Prop :=
  | fraction_none : spells_fraction []
  | fraction_some d : digits d → spells_fraction (46 :: d).
Inductive spells_exponent : text → Prop :=
  | exponent_none : spells_exponent []
  | exponent_plain e d : is_e e = true → digits d → spells_exponent (e :: d)
  | exponent_signed e s d : is_e e = true → s = 43 ∨ s = 45 → digits d → spells_exponent (e :: s :: d).
(** A sign, the integer digits with no zero before others, a fraction, an exponent. *)
Inductive spells_number : text → Prop :=
  | number_spelt s i f e :
      s = [] ∨ s = [45] → spells_int i → spells_fraction f → spells_exponent e →
      spells_number (s ++ i ++ f ++ e).

Inductive spells_string : text → text → Prop :=
  | string_end : spells_string [] []
  | string_plain c s t :
      c ≠ 34 → c ≠ 92 → 32 ≤ c → spells_string s t → spells_string (c :: s) (c :: t)
  | string_simple e c s t :
      simple_escape e = Some c → spells_string s t → spells_string (c :: s) (92 :: e :: t)
  | string_unit h1 h2 h3 h4 u s t :
      hex4 h1 h2 h3 h4 = Some u → is_high u = false → is_low u = false → spells_string s t →
      spells_string (u :: s) (92 :: 117 :: h1 :: h2 :: h3 :: h4 :: t)
  | string_pair h1 h2 h3 h4 l1 l2 l3 l4 high low s t :
      hex4 h1 h2 h3 h4 = Some high → hex4 l1 l2 l3 l4 = Some low →
      is_high high = true → is_low low = true → spells_string s t →
      spells_string (pair_of high low :: s)
        (92 :: 117 :: h1 :: h2 :: h3 :: h4 :: 92 :: 117 :: l1 :: l2 :: l3 :: l4 :: t).

Inductive spells : Json → text → Prop :=
  | spells_null : spells J_Null (chars "null")
  | spells_bool b : spells (J_Bool b) (chars (if b then "true" else "false"))
  | spells_num n : spells_number n → spells (J_Number n) n
  | spells_str s t : spells_string s t → spells (J_String s) (34 :: t ++ [34])
  | spells_no_items w : blank w → spells (J_Array []) (91 :: w ++ [93])
  | spells_array l t : spells_items l t → spells (J_Array l) (91 :: t ++ [93])
  | spells_no_members w : blank w → spells (J_Object []) (123 :: w ++ [125])
  | spells_object l t : spells_members l t → spells (J_Object l) (123 :: t ++ [125])
with spells_items : list Json → text → Prop :=
  | last_item w v t w' : blank w → spells v t → blank w' → spells_items [v] (w ++ t ++ w')
  | more_items w v t w' l t' :
      blank w → spells v t → blank w' → spells_items l t' →
      spells_items (v :: l) (w ++ t ++ w' ++ 44 :: t')
with spells_members : list (text * Json) → text → Prop :=
  | last_member w1 k kt w2 w3 v t w4 :
      blank w1 → spells_string k kt → blank w2 → blank w3 → spells v t → blank w4 →
      spells_members [(k, v)] (w1 ++ 34 :: kt ++ 34 :: w2 ++ 58 :: w3 ++ t ++ w4)
  | more_members w1 k kt w2 w3 v t w4 l t' :
      blank w1 → spells_string k kt → blank w2 → blank w3 → spells v t → blank w4 →
      spells_members l t' →
      spells_members ((k, v) :: l) (w1 ++ 34 :: kt ++ 34 :: w2 ++ 58 :: w3 ++ t ++ w4 ++ 44 :: t').

Scheme spells_mut := Induction for spells Sort Prop
  with spells_items_mut := Induction for spells_items Sort Prop
  with spells_members_mut := Induction for spells_members Sort Prop.
Combined Scheme spells_all from spells_mut, spells_items_mut, spells_members_mut.

(** How deep a value is nested. *)
Fixpoint json_depth (j : Json) : nat :=
  match j with
  | J_Array l => S (foldr (λ v n, Nat.max (json_depth v) n) 0%nat l)
  | J_Object l => S (foldr (λ m n, Nat.max (json_depth m.2) n) 0%nat l)
  | _ => 0%nat
  end.
Definition items_depth (l : list Json) : nat := foldr (λ v n, Nat.max (json_depth v) n) 0%nat l.
Definition members_depth (l : list (text * Json)) : nat :=
  foldr (λ m n, Nat.max (json_depth m.2) n) 0%nat l.

(** ** White space, digits and words *)

Lemma skip_ws_blank w s : blank w → skip_ws (w ++ s) = skip_ws s.
Proof. induction 1 as [|c w Hc _ IH]; simpl; [done|]. by rewrite Hc. Qed.

Lemma skip_ws_split s : ∃ w, s = w ++ skip_ws s ∧ blank w.
Proof.
  induction s as [|c s (w & Hs & Hw)]; simpl; [by exists []; split; [|constructor]|].
  destruct (is_ws c) eqn:E; [|by exists []; split; [|constructor]].
  exists (c :: w). split; [simpl; by f_equal|by constructor].
Qed.

Lemma skip_ws_head c s : is_ws c = false → skip_ws (c :: s) = c :: s.
Proof. simpl. by intros ->. Qed.

Lemma digits_at_split s d r : digits_at s = (d, r) → s = d ++ r ∧ Forall (λ c, digit c = true) d.
Proof.
  revert d r. induction s as [|c s IH]; intros d r; simpl; [by intros [= <- <-]|].
  destruct (digit c) eqn:E; [|by intros [= <- <-]].
  destruct (digits_at s) as [d' r'] eqn:Ed. intros [= <- <-].
  destruct (IH d' r' eq_refl) as [-> H]. split; [done|by constructor].
Qed.

(** What may follow a number: nothing that would go on with it. *)
Definition stops (s : text) : Prop :=
  match s with c :: _ => digit c = false ∧ c ≠ 46 ∧ is_e c = false | [] => True end.
Definition no_digit (s : text) : Prop := match s with c :: _ => digit c = false | [] => True end.

Lemma digits_at_all d r : Forall (λ c, digit c = true) d → no_digit r → digits_at (d ++ r) = (d, r).
Proof.
  intros Hd Hr. induction Hd as [|c d Hc _ IH]; simpl.
  - destruct r as [|c r]; [done|]. simpl in *. by rewrite Hr.
  - by rewrite Hc, IH.
Qed.

Lemma literal_sound word v s w r : literal word v s = Ok (w, r) → w = v ∧ s = word ++ r.
Proof.
  revert s. induction word as [|c word IH]; intros s; simpl; [by intros [= <- <-]|].
  destruct s as [|x s]; [done|]. destruct (N.eqb_spec x c) as [->|]; [|done].
  intros H. apply IH in H as [-> ->]. done.
Qed.

Lemma literal_complete word v r : literal word v (word ++ r) = Ok (v, r).
Proof. induction word as [|c word IH]; simpl; [done|]. by rewrite N.eqb_refl. Qed.

(** ** Numbers *)

Lemma take_sign_sound s g r : take_sign s = (g, r) → s = g ++ r ∧ (g = [] ∨ g = [45]).
Proof.
  destruct s as [|c s]; simpl; [intros [= <- <-]; auto|].
  destruct (N.eqb_spec c 45) as [->|]; intros [= <- <-]; auto.
Qed.

Lemma take_int_sound s i r : take_int s = Ok (i, r) → s = i ++ r ∧ spells_int i.
Proof.
  destruct s as [|c s]; [done|]. unfold take_int. destruct (N.eqb_spec c 48) as [->|Hc].
  - destruct s as [|d s]; [intros [= <- <-]; split; [done|constructor]|].
    destruct (digit d); [done|]. intros [= <- <-]. split; [done|constructor].
  - destruct (digits_at (c :: s)) as [d r'] eqn:E. apply digits_at_split in E as [E Hd].
    destruct d as [|x d]; [done|]. intros [= <- <-]. split; [done|]. simpl in E.
    injection E as -> E. constructor; [done|]. by split.
Qed.

Lemma take_fraction_sound s f r : take_fraction s = Ok (f, r) → s = f ++ r ∧ spells_fraction f.
Proof.
  destruct s as [|c s]; simpl; [intros [= <- <-]; split; [done|constructor]|].
  destruct (N.eqb_spec c 46) as [->|Hc]; [|intros [= <- <-]; split; [done|constructor]].
  destruct (digits_at s) as [d r'] eqn:E. apply digits_at_split in E as [-> Hd].
  destruct d as [|x d]; [done|]. intros [= <- <-]. split; [done|]. constructor. by split.
Qed.

Lemma take_exponent_sound s e r : take_exponent s = Ok (e, r) → s = e ++ r ∧ spells_exponent e.
Proof.
  destruct s as [|c s]; [intros [= <- <-]; split; [done|constructor]|]. unfold take_exponent.
  fold (is_e c). destruct (is_e c) eqn:Ec; [|intros [= <- <-]; split; [done|constructor]].
  assert (Hs : ∃ g s', take_exponent_sign s = (g, s') ∧ s = g ++ s' ∧ (g = [] ∨ g = [43] ∨ g = [45])).
  { destruct s as [|x s]; simpl; [by do 2 eexists; auto|].
    destruct (N.eqb_spec x 43) as [->|]; [by do 2 eexists; auto|].
    destruct (N.eqb_spec x 45) as [->|]; by do 2 eexists; auto. }
  destruct Hs as (g & s' & -> & -> & Hg).
  destruct (digits_at s') as [d r'] eqn:E. apply digits_at_split in E as [-> Hd].
  destruct d as [|y d]; [done|]. intros [= <- <-]. split; [simpl; by rewrite <-app_assoc|].
  destruct Hg as [->|[->| ->]]; simpl; [by constructor|..]; apply exponent_signed; auto; by split.
Qed.

Lemma number_sound s v r : number s = Ok (v, r) → ∃ n, v = J_Number n ∧ s = n ++ r ∧ spells_number n.
Proof.
  unfold number. destruct (take_sign s) as [g s1] eqn:Eg. apply take_sign_sound in Eg as [-> Hg].
  destruct (take_int s1) as [[i s2]|] eqn:Ei; [|done]. apply take_int_sound in Ei as [-> Hi]. simpl.
  destruct (take_fraction s2) as [[f s3]|] eqn:Ef; [|done]. apply take_fraction_sound in Ef as [-> Hf]. simpl.
  destruct (take_exponent s3) as [[e s4]|] eqn:Ee; [|done]. apply take_exponent_sound in Ee as [-> He]. simpl.
  intros [= <- <-]. eexists. split; [done|]. split; [by rewrite <-!app_assoc|]. by constructor.
Qed.

Lemma no_digit_app_stops f r : spells_fraction f → stops r → no_digit (f ++ r).
Proof. intros [|d Hd] Hr; [|done]. by destruct r as [|c r]; [|destruct Hr]. Qed.

Lemma digits_head d r : digits d → digits_at (d ++ r) = digits_at (d ++ r) ∧ ∃ c d', d = c :: d' ∧ digit c = true.
Proof. intros [Hn Hd]. split; [done|]. destruct Hd as [|c d Hc _]; [done|]. by do 2 eexists. Qed.

Lemma take_fraction_complete f r :
  spells_fraction f → no_digit r → match r with c :: _ => c ≠ 46 | [] => True end →
  take_fraction (f ++ r) = Ok (f, r).
Proof.
  intros [|d [Hn Hd]] Hr Hp; simpl.
  - destruct r as [|c r]; [done|]. simpl. by rewrite (proj2 (N.eqb_neq c 46)).
  - rewrite digits_at_all by done. by destruct d.
Qed.

Lemma take_exponent_complete e r :
  spells_exponent e → stops r → take_exponent (e ++ r) = Ok (e, r).
Proof.
  intros He Hr. assert (Hn : no_digit r) by (destruct r; [done|by destruct Hr]).
  destruct He as [|e d He [Hd1 Hd2]|e s d He Hs [Hd1 Hd2]].
  - destruct r as [|c r]; [done|]. destruct Hr as (_ & _ & Hr). simpl. unfold is_e in Hr. by rewrite Hr.
  - unfold take_exponent. simpl. unfold is_e in He. rewrite He.
    assert (Hsign : take_exponent_sign (d ++ r) = ([], d ++ r)).
    { destruct Hd2 as [|c d Hc _]; [done|]. simpl. unfold digit in Hc.
      destruct (N.eqb_spec c 43) as [->|]; [done|]. by destruct (N.eqb_spec c 45) as [->|]. }
    rewrite Hsign, digits_at_all by done. by destruct d.
  - unfold take_exponent. simpl. unfold is_e in He. rewrite He.
    assert ((s =? 43) || (s =? 45) = true) as -> by (destruct Hs as [->| ->]; done).
    rewrite digits_at_all by done. by destruct d.
Qed.

Lemma number_complete n r : spells_number n → stops r → number (n ++ r) = Ok (J_Number n, r).
Proof.
  intros [g i f e Hg Hi Hf He] Hr. unfold number. rewrite <-!app_assoc.
  assert (Hi' : ∃ c i', i = c :: i' ∧ digit c = true).
  { destruct Hi as [|d ds _ [_ Hd]]; [by do 2 eexists|]. inversion Hd; subst. by do 2 eexists. }
  assert (Hsign : take_sign (g ++ i ++ f ++ e ++ r) = (g, i ++ f ++ e ++ r)).
  { destruct Hg as [->| ->]; [|done]. destruct Hi' as (c & i' & -> & Hc). simpl. unfold digit in Hc.
    by destruct (N.eqb_spec c 45) as [->|]. }
  rewrite Hsign.
  assert (Hne : no_digit (e ++ r)).
  { destruct He as [|c d He _|c s d He _ _]; [destruct r; [done|by destruct Hr]|..]; simpl;
      unfold is_e in He; apply orb_true_iff in He as [->%N.eqb_eq| ->%N.eqb_eq]; done. }
  assert (Hnf : no_digit (f ++ e ++ r)) by (destruct Hf; [exact Hne|done]).
  assert (Hint : take_int (i ++ f ++ e ++ r) = Ok (i, f ++ e ++ r)).
  { destruct Hi as [|d ds Hd [_ Hds]]; simpl.
    - destruct (f ++ e ++ r) as [|c s]; [done|]. simpl in Hnf. by rewrite Hnf.
    - rewrite (proj2 (N.eqb_neq d 48)) by done.
      change (d :: ds ++ f ++ e ++ r) with ((d :: ds) ++ f ++ e ++ r).
      destruct (digits_at ((d :: ds) ++ f ++ e ++ r)) as [x y] eqn:E.
      rewrite digits_at_all in E by done. injection E as <- <-. simpl.
      pose proof (digits_at_all (d :: ds) (f ++ e ++ r) Hds Hnf) as E. simpl in E. by rewrite E. }
  rewrite Hint. cbn [fst snd]. rewrite take_fraction_complete; [|done|done|].
  2: { destruct He as [|c d He _|c s d He _ _]; [destruct r as [|c r]; [done|by destruct Hr as (_ & ? & _)]|..];
       simpl; unfold is_e in He; intros ->; done. }
  cbn [fst snd]. rewrite take_exponent_complete by done. done.
Qed.

(** ** Strings *)

Lemma string_body_sound s v r : string_body s = Ok (v, r) → ∃ t, s = t ++ 34 :: r ∧ spells_string v t.
Proof.
  remember (length s) as n eqn:Hn. assert (Hle : (length s ≤ n)%nat) by lia. clear Hn.
  revert s v r Hle. induction n as [|n IH]; intros s v r Hle; destruct s as [|c s]; try done; simpl in *; [lia|].
  assert (Hrec : ∀ s' v' r', (length s' ≤ n)%nat → string_body s' = Ok (v', r') →
    ∃ t, s' = t ++ 34 :: r' ∧ spells_string v' t) by (intros; by eapply IH).
  clear IH. destruct (N.eqb_spec c 34) as [->|H34].
  { intros [= <- <-]. exists []. split; [done|constructor]. }
  destruct (N.eqb_spec c 92) as [->|H92].
  - destruct s as [|e s]; [done|]. simpl in *. destruct (N.eqb_spec e 117) as [->|He].
    + destruct s as [|h1 [|h2 [|h3 [|h4 s]]]]; try done. simpl in *.
      destruct (hex4 h1 h2 h3 h4) as [u|] eqn:Eh; [|done]. destruct (is_high u) eqn:Ehi.
      * destruct s as [|b [|x [|l1 [|l2 [|l3 [|l4 s]]]]]]; try done. simpl in *.
        destruct (N.eqb_spec b 92) as [->|]; [|done]. destruct (N.eqb_spec x 117) as [->|]; [|done].
        simpl. destruct (hex4 l1 l2 l3 l4) as [low|] eqn:El; [|done].
        destruct (is_low low) eqn:Elo; [|done].
        destruct (string_body s) as [[v' r']|] eqn:Es; [|done]. simpl. intros [= <- <-].
        destruct (Hrec s v' r' ltac:(lia) Es) as (t & -> & Ht).
        eexists (92 :: 117 :: h1 :: h2 :: h3 :: h4 :: 92 :: 117 :: l1 :: l2 :: l3 :: l4 :: t).
        split; [done|]. by apply string_pair.
      * destruct (is_low u) eqn:Elo; [done|].
        destruct (string_body s) as [[v' r']|] eqn:Es; [|done]. simpl. intros [= <- <-].
        destruct (Hrec s v' r' ltac:(lia) Es) as (t & -> & Ht).
        eexists (92 :: 117 :: h1 :: h2 :: h3 :: h4 :: t). split; [done|]. by apply string_unit.
    + destruct (simple_escape e) as [x|] eqn:Ee; [|done].
      destruct (string_body s) as [[v' r']|] eqn:Es; [|done]. simpl. intros [= <- <-].
      destruct (Hrec s v' r' ltac:(lia) Es) as (t & -> & Ht).
      exists (92 :: e :: t). split; [done|]. by apply string_simple.
  - destruct (N.ltb_spec c 32) as [|H32]; [done|].
    destruct (string_body s) as [[v' r']|] eqn:Es; [|done]. simpl. intros [= <- <-].
    destruct (Hrec s v' r' ltac:(lia) Es) as (t & -> & Ht).
    exists (c :: t). split; [done|]. by apply string_plain.
Qed.

Lemma string_body_complete v t r : spells_string v t → string_body (t ++ 34 :: r) = Ok (v, r).
Proof.
  induction 1 as [|c s t H34 H92 H32 _ IH|e c s t He _ IH|h1 h2 h3 h4 u s t Hu Hi Hl _ IH|
    h1 h2 h3 h4 l1 l2 l3 l4 hi lo s t Hh Hl Hi Hlo _ IH]; simpl.
  - done.
  - rewrite (proj2 (N.eqb_neq c 34)), (proj2 (N.eqb_neq c 92)) by done.
    rewrite (proj2 (N.ltb_ge c 32)) by done. by rewrite IH.
  - destruct (N.eqb_spec e 117) as [->|]; [done|]. by rewrite He, IH.
  - by rewrite Hu, Hi, Hl, IH.
  - by rewrite Hh, Hi, Hl, Hlo, IH.
Qed.

(** ** Values *)

(** What a reader of [value], [members] or [items] takes is a spelling, within the depth. *)
Definition reads {A} (f : nat → nat → text → result string (A * text)) (sp : A → text → Prop)
    (depth : A → nat) (close : text) (fuel : nat) : Prop :=
  ∀ d s v r, f fuel d s = Ok (v, r) → (d ≤ MAX_DEPTH)%nat →
    ∃ t, s = t ++ close ++ r ∧ sp v t ∧ (depth v + d ≤ MAX_DEPTH)%nat.

Lemma spells_members_blank w l t : blank w → spells_members l t → spells_members l (w ++ t).
Proof.
  intros Hw Hl. destruct Hl; rewrite app_assoc; [apply last_member|apply more_members]; try done; by apply Forall_app.
Qed.
Lemma spells_items_blank w l t : blank w → spells_items l t → spells_items l (w ++ t).
Proof.
  intros Hw Hl. destruct Hl; rewrite app_assoc; [apply last_item|apply more_items]; try done; by apply Forall_app.
Qed.

Section Sound.
Context (fuel : nat).
Hypothesis IHv : reads value spells json_depth [] fuel.
Hypothesis IHm : reads members spells_members members_depth [125] fuel.
Hypothesis IHi : reads items spells_items items_depth [93] fuel.

Lemma object_sound d s v r :
  value (S fuel) d (123 :: s) = Ok (v, r) → (d ≤ MAX_DEPTH)%nat →
  ∃ t, 123 :: s = t ++ r ∧ spells v t ∧ (json_depth v + d ≤ MAX_DEPTH)%nat.
Proof using IHm.
  cbn [value]. change (123 =? 123) with true. cbv iota. destruct (Nat.ltb_spec MAX_DEPTH (S d)) as [|Hd]; [done|].
  destruct (skip_ws_split s) as (w & Hs & Hw). intros Hv _.
  destruct (skip_ws s) as [|c' r'] eqn:E.
  { destruct (members fuel (S d) []) as [[m r1]|] eqn:Em; [|done].
    destruct (IHm _ _ _ _ Em Hd) as ([|x t] & Ht & _); discriminate Ht. }
  destruct (N.eqb_spec c' 125) as [->|_].
  { injection Hv as <- <-. exists (123 :: w ++ [125]). rewrite Hs. simpl. rewrite <-app_assoc.
    split; [done|]. split; [by apply spells_no_members|]. simpl. lia. }
  destruct (members fuel (S d) (c' :: r')) as [[m r1]|] eqn:Em; [|done].
  injection Hv as <- <-. destruct (IHm _ _ _ _ Em Hd) as (t & Ht & Hm & Hdm).
  exists (123 :: (w ++ t) ++ [125]). rewrite Hs, Ht. simpl. rewrite <-!app_assoc.
  split; [done|]. split; [|simpl; fold (members_depth m); lia]. rewrite app_assoc.
  by apply spells_object, spells_members_blank.
Qed.

Lemma array_sound d s v r :
  value (S fuel) d (91 :: s) = Ok (v, r) → (d ≤ MAX_DEPTH)%nat →
  ∃ t, 91 :: s = t ++ r ∧ spells v t ∧ (json_depth v + d ≤ MAX_DEPTH)%nat.
Proof using IHi.
  cbn [value]. change (91 =? 123) with false. change (91 =? 91) with true. cbv iota. destruct (Nat.ltb_spec MAX_DEPTH (S d)) as [|Hd]; [done|].
  destruct (skip_ws_split s) as (w & Hs & Hw). intros Hv _.
  destruct (skip_ws s) as [|c' r'] eqn:E.
  { destruct (items fuel (S d) []) as [[m r1]|] eqn:Em; [|done].
    destruct (IHi _ _ _ _ Em Hd) as ([|x t] & Ht & _); discriminate Ht. }
  destruct (N.eqb_spec c' 93) as [->|_].
  { injection Hv as <- <-. exists (91 :: w ++ [93]). rewrite Hs. simpl. rewrite <-app_assoc.
    split; [done|]. split; [by apply spells_no_items|]. simpl. lia. }
  destruct (items fuel (S d) (c' :: r')) as [[m r1]|] eqn:Em; [|done].
  injection Hv as <- <-. destruct (IHi _ _ _ _ Em Hd) as (t & Ht & Hm & Hdm).
  exists (91 :: (w ++ t) ++ [93]). rewrite Hs, Ht. simpl. rewrite <-!app_assoc.
  split; [done|]. split; [|simpl; fold (items_depth m); lia]. rewrite app_assoc.
  by apply spells_array, spells_items_blank.
Qed.

Lemma value_step : reads value spells json_depth [] (S fuel).
Proof using IHi IHm.
  intros d [|c s] v r Hv Hd; [done|]. cbn [app].
  destruct (N.eqb_spec c 123) as [->|H1]; [by apply (object_sound d)|].
  destruct (N.eqb_spec c 91) as [->|H2]; [by apply (array_sound d)|].
  revert Hv. cbn [value]. rewrite !(proj2 (N.eqb_neq c _)) by done.
  destruct (N.eqb_spec c 34) as [->|_].
  { destruct (string_body s) as [[x r1]|] eqn:Es; [|done]. intros [= <- <-].
    apply string_body_sound in Es as (t & -> & Ht). exists (34 :: t ++ [34]). simpl.
    rewrite <-app_assoc. split; [done|]. split; [by apply spells_str|simpl; lia]. }
  destruct (N.eqb_spec c 116) as [->|_].
  { intros [-> E]%literal_sound. exists (chars "true"). split; [done|]. split; [apply (spells_bool true)|simpl; lia]. }
  destruct (N.eqb_spec c 102) as [->|_].
  { intros [-> E]%literal_sound. exists (chars "false"). split; [done|]. split; [apply (spells_bool false)|simpl; lia]. }
  destruct (N.eqb_spec c 110) as [->|_].
  { intros [-> E]%literal_sound. exists (chars "null"). split; [done|]. split; [apply spells_null|simpl; lia]. }
  destruct (_ || _); [|done]. intros (n & -> & -> & Hn)%number_sound.
  exists n. split; [done|]. split; [by apply spells_num|simpl; lia].
Qed.

Lemma members_step : reads members spells_members members_depth [125] (S fuel).
Proof using IHv IHm.
  intros d s v r. cbn [members]. destruct (skip_ws_split s) as (w1 & Hs & Hw1).
  destruct (skip_ws s) as [|c s']; [done|]. destruct (N.eqb_spec c 34) as [->|]; [|done].
  destruct (string_body s') as [[k s2]|] eqn:Ek; [|done]. apply string_body_sound in Ek as (kt & -> & Hk).
  cbn [fst snd]. destruct (skip_ws_split s2) as (w2 & Hs2 & Hw2).
  destruct (expect 58 (skip_ws s2)) as [s3|] eqn:Ee; [|done].
  assert (E58 : skip_ws s2 = 58 :: s3).
  { unfold expect in Ee. destruct (skip_ws s2) as [|x y]; [done|].
    destruct (N.eqb_spec x 58) as [->|]; [|done]. by injection Ee as ->. }
  destruct (skip_ws_split s3) as (w3 & Hs3 & Hw3).
  destruct (value fuel d (skip_ws s3)) as [[x s4]|] eqn:Ev; [|done]. cbn [fst snd].
  destruct (skip_ws_split s4) as (w4 & Hs4 & Hw4).
  destruct (skip_ws s4) as [|c' s5] eqn:E4; [done|]. destruct (N.eqb_spec c' 44) as [->|].
  - destruct (members fuel d s5) as [[l s6]|] eqn:Em; [|done]. intros [= <- <-] Hd.
    destruct (IHv _ _ _ _ Ev Hd) as (t & Ht & Hv & Hdv). cbn [app] in Ht.
    destruct (IHm _ _ _ _ Em Hd) as (t' & -> & Hm & Hdm).
    exists (w1 ++ 34 :: kt ++ 34 :: w2 ++ 58 :: w3 ++ t ++ w4 ++ 44 :: t'). split.
    { rewrite Hs, Hs2, E58, Hs3, Ht, Hs4. repeat (rewrite <-app_assoc; simpl). done. }
    split; [by apply more_members|]. simpl. fold (members_depth l). lia.
  - destruct (N.eqb_spec c' 125) as [->|]; [|done]. intros [= <- <-] Hd.
    destruct (IHv _ _ _ _ Ev Hd) as (t & Ht & Hv & Hdv). cbn [app] in Ht.
    exists (w1 ++ 34 :: kt ++ 34 :: w2 ++ 58 :: w3 ++ t ++ w4). split.
    { rewrite Hs, Hs2, E58, Hs3, Ht, Hs4. repeat (rewrite <-app_assoc; simpl). done. }
    split; [by apply last_member|]. simpl. lia.
Qed.

Lemma items_step : reads items spells_items items_depth [93] (S fuel).
Proof using IHv IHi.
  intros d s v r. cbn [items]. destruct (skip_ws_split s) as (w & Hs & Hw).
  destruct (value fuel d (skip_ws s)) as [[x s4]|] eqn:Ev; [|done]. cbn [fst snd].
  destruct (skip_ws_split s4) as (w4 & Hs4 & Hw4).
  destruct (skip_ws s4) as [|c' s5] eqn:E4; [done|]. destruct (N.eqb_spec c' 44) as [->|].
  - destruct (items fuel d s5) as [[l s6]|] eqn:Em; [|done]. intros [= <- <-] Hd.
    destruct (IHv _ _ _ _ Ev Hd) as (t & Ht & Hv & Hdv). cbn [app] in Ht.
    destruct (IHi _ _ _ _ Em Hd) as (t' & -> & Hm & Hdm).
    exists (w ++ t ++ w4 ++ 44 :: t'). split.
    { rewrite Hs, Ht, Hs4. repeat (rewrite <-app_assoc; simpl). done. }
    split; [by apply more_items|]. simpl. fold (items_depth l). lia.
  - destruct (N.eqb_spec c' 93) as [->|]; [|done]. intros [= <- <-] Hd.
    destruct (IHv _ _ _ _ Ev Hd) as (t & Ht & Hv & Hdv). cbn [app] in Ht.
    exists (w ++ t ++ w4). split.
    { rewrite Hs, Ht, Hs4. repeat (rewrite <-app_assoc; simpl). done. }
    split; [by apply last_item|]. simpl. lia.
Qed.
End Sound.

Lemma value_sound fuel :
  reads value spells json_depth [] fuel ∧ reads members spells_members members_depth [125] fuel ∧
  reads items spells_items items_depth [93] fuel.
Proof.
  induction fuel as [|fuel (IHv & IHm & IHi)]; [done|].
  split; [|split]; [by apply value_step|by apply members_step|by apply items_step].
Qed.

(** A value's text starts with no white space, and its length bounds the fuel. *)
Lemma spells_head v t : spells v t → ∃ c t', t = c :: t' ∧ is_ws c = false ∧ c ≠ 93.
Proof.
  intros [|b|n Hn|s t' H|w H|l t' H|w H|l t' H]; try (by do 2 eexists).
  - destruct b; by do 2 eexists.
  - destruct Hn as [g i f e Hg Hi _ _].
    assert (Hi' : ∃ c i', i = c :: i' ∧ digit c = true).
    { destruct Hi as [|d ds _ [_ Hd]]; [by do 2 eexists|]. inversion Hd; subst. by do 2 eexists. }
    destruct Hi' as (c & i' & -> & Hc). destruct Hg as [->| ->]; simpl; do 2 eexists; (split; [done|]); [|done].
    unfold is_ws. unfold digit in Hc. apply andb_true_iff in Hc as [H1%N.leb_le H2%N.leb_le].
    rewrite !orb_false_iff, !N.eqb_neq. lia.
Qed.

Lemma skip_ws_value w v t r : blank w → spells v t → skip_ws (w ++ t ++ r) = t ++ r.
Proof.
  intros Hw (c & t' & -> & Hc & _)%spells_head. rewrite skip_ws_blank by done. by apply skip_ws_head.
Qed.

Lemma skip_ws_twice s : skip_ws (skip_ws s) = skip_ws s.
Proof. induction s as [|c s IH]; simpl; [done|]. destruct (is_ws c) eqn:E; [done|]. simpl. by rewrite E. Qed.

Lemma items_skip fuel d s : items fuel d (skip_ws s) = items fuel d s.
Proof. destruct fuel; [done|]. cbn [items]. by rewrite skip_ws_twice. Qed.
Lemma members_skip fuel d s : members fuel d (skip_ws s) = members fuel d s.
Proof. destruct fuel; [done|]. cbn [members]. by rewrite skip_ws_twice. Qed.

(** The first item, or the first key, is found behind white space. *)
Lemma items_head l t r : spells_items l t → ∃ c r', skip_ws (t ++ r) = c :: r' ∧ c ≠ 93.
Proof.
  intros [w v t' w' Hw Hv _|w v t' w' l' t'' Hw Hv _ _]; rewrite <-!app_assoc, (skip_ws_value w v) by done;
    apply spells_head in Hv as (c & x & -> & _ & Hc); by do 2 eexists.
Qed.
Lemma members_head l t r : spells_members l t → ∃ c r', skip_ws (t ++ r) = c :: r' ∧ c ≠ 125.
Proof.
  intros [w1 k kt w2 w3 v t' w4 Hw _ _ _ _ _|w1 k kt w2 w3 v t' w4 l' t'' Hw _ _ _ _ _ _];
    rewrite <-app_assoc, skip_ws_blank by done; by do 2 eexists.
Qed.

(** What may follow a value in a text: nothing a number would go on with. *)
Lemma blank_stops w r : blank w → stops r → stops (w ++ r).
Proof.
  intros [|c w' Hc _] Hr; [done|]. simpl. unfold is_ws in Hc. rewrite !orb_true_iff, !N.eqb_eq in Hc.
  destruct Hc as [[[->| ->]| ->]| ->]; done.
Qed.

Lemma number_value n d r fuel : spells_number n → stops r → (2 * length n ≤ fuel)%nat →
  value fuel d (n ++ r) = Ok (J_Number n, r).
Proof.
  intros Hn Hr Hf. destruct (spells_head _ _ (spells_num n Hn)) as (c & t' & E & _).
  destruct fuel as [|fuel]; [rewrite E in Hf; simpl in Hf; lia|].
  rewrite <-(number_complete n r Hn Hr). destruct Hn as [g i f e Hg Hi Hf' He].
  assert (Hc : (c = 45 ∨ digit c = true)).
  { destruct Hg as [->| ->]; [right|left; by injection E].
    destruct Hi as [|x ds _ [_ Hd]]; [by injection E as <- _|]. injection E as <- _. by inversion Hd. }
  rewrite E. cbn [value app].
  assert (H : c ≠ 123 ∧ c ≠ 91 ∧ c ≠ 34 ∧ c ≠ 116 ∧ c ≠ 102 ∧ c ≠ 110 ∧ (c =? 45) || digit c = true).
  { destruct Hc as [->|Hc]; [done|]. rewrite Hc, orb_true_r. unfold digit in Hc.
    apply andb_true_iff in Hc as [H1%N.leb_le H2%N.leb_le]. repeat split; lia. }
  destruct H as (H1 & H2 & H3 & H4 & H5 & H6 & H7).
  rewrite !(proj2 (N.eqb_neq c _)) by done. by rewrite H7.
Qed.

(** An object or an array that is not empty, once its members or items are read. *)
Lemma array_value l t d r fuel : spells_items l t → (items_depth l + S d ≤ MAX_DEPTH)%nat →
  items fuel (S d) (t ++ 93 :: r) = Ok (l, r) →
  value (S fuel) d ((91 :: t ++ [93]) ++ r) = Ok (J_Array l, r).
Proof.
  intros Ht Hd IH. cbn [value app]. destruct (Nat.ltb_spec MAX_DEPTH (S d)); [lia|]. rewrite <-app_assoc. cbn [app].
  destruct (items_head l t (93 :: r) Ht) as (c & r' & E & Hc). rewrite E.
  rewrite (proj2 (N.eqb_neq c 93)) by done. by rewrite <-E, items_skip, IH.
Qed.
Lemma object_value l t d r fuel : spells_members l t → (members_depth l + S d ≤ MAX_DEPTH)%nat →
  members fuel (S d) (t ++ 125 :: r) = Ok (l, r) →
  value (S fuel) d ((123 :: t ++ [125]) ++ r) = Ok (J_Object l, r).
Proof.
  intros Ht Hd IH. cbn [value app]. destruct (Nat.ltb_spec MAX_DEPTH (S d)); [lia|]. rewrite <-app_assoc. cbn [app].
  destruct (members_head l t (125 :: r) Ht) as (c & r' & E & Hc). rewrite E.
  rewrite (proj2 (N.eqb_neq c 125)) by done. by rewrite <-E, members_skip, IH.
Qed.

Lemma value_complete :
  (∀ v t, spells v t → ∀ d r fuel, (json_depth v + d ≤ MAX_DEPTH)%nat → stops r →
     (2 * length t ≤ fuel)%nat → value fuel d (t ++ r) = Ok (v, r)) ∧
  (∀ l t, spells_items l t → ∀ d r fuel, (items_depth l + d ≤ MAX_DEPTH)%nat →
     (2 * length t + 1 ≤ fuel)%nat → items fuel d (t ++ 93 :: r) = Ok (l, r)) ∧
  (∀ l t, spells_members l t → ∀ d r fuel, (members_depth l + d ≤ MAX_DEPTH)%nat →
     (2 * length t + 1 ≤ fuel)%nat → members fuel d (t ++ 125 :: r) = Ok (l, r)).
Proof.
  apply spells_all.
  - intros d r [|fuel] _ _ Hf; [simpl in Hf; lia|]. apply (literal_complete (chars "null")).
  - intros b d r [|fuel] _ _ Hf; [destruct b; simpl in Hf; lia|].
    destruct b; [apply (literal_complete (chars "true"))|apply (literal_complete (chars "false"))].
  - intros n Hn d r fuel _ Hr Hf. by apply number_value.
  - intros s t Ht d r [|fuel] _ _ Hf; [simpl in Hf; lia|]. simpl. rewrite <-app_assoc. simpl.
    by rewrite (string_body_complete s t r).
  - intros w Hw d r [|fuel] Hd _ Hf; [simpl in Hf; lia|]. cbn [value app]. simpl in Hd.
    destruct (Nat.ltb_spec MAX_DEPTH (S d)); [lia|]. rewrite <-app_assoc, skip_ws_blank by done. done.
  - intros l t Ht IH d r [|fuel] Hd _ Hf; simpl in Hf; [lia|]. rewrite length_app in Hf. simpl in Hf.
    change (S (items_depth l) + d ≤ MAX_DEPTH)%nat in Hd. apply array_value; [done|lia|]. apply IH; lia.
  - intros w Hw d r [|fuel] Hd _ Hf; [simpl in Hf; lia|]. cbn [value app]. simpl in Hd.
    destruct (Nat.ltb_spec MAX_DEPTH (S d)); [lia|]. rewrite <-app_assoc, skip_ws_blank by done. done.
  - intros l t Ht IH d r [|fuel] Hd _ Hf; simpl in Hf; [lia|]. rewrite length_app in Hf. simpl in Hf.
    change (S (members_depth l) + d ≤ MAX_DEPTH)%nat in Hd. apply object_value; [done|lia|]. apply IH; lia.
  - intros w v t w' Hw Hv IH Hw' d r [|fuel] Hd Hf; [lia|]. cbn [items].
    rewrite <-!app_assoc, (skip_ws_value w v) by done. rewrite !length_app in Hf.
    rewrite (IH d (w' ++ 93 :: r) fuel); [|simpl in Hd; lia|by apply blank_stops|lia].
    cbn [fst snd]. by rewrite skip_ws_blank.
  - intros w v t w' l t' Hw Hv IHv Hw' Ht' IHi d r [|fuel] Hd Hf; [lia|]. cbn [items].
    rewrite <-!app_assoc, (skip_ws_value w v) by done. rewrite !length_app in Hf. simpl in Hf.
    change (items_depth (v :: l)) with (Nat.max (json_depth v) (items_depth l)) in Hd.
    rewrite (IHv d (w' ++ (44 :: t') ++ 93 :: r) fuel); [|lia|by apply blank_stops|lia].
    cbn [fst snd]. rewrite skip_ws_blank by done. simpl. rewrite (IHi d r fuel); [done|lia|lia].
  - intros w1 k kt w2 w3 v t w4 H1 Hk H2 H3 Hv IH H4 d r [|fuel] Hd Hf; [lia|]. cbn [members].
    rewrite <-app_assoc, skip_ws_blank by done. simpl. repeat (rewrite <-app_assoc; simpl).
    rewrite (string_body_complete k kt _ Hk). cbn [fst snd]. rewrite skip_ws_blank by done. simpl.
    rewrite (skip_ws_value w3 v) by done. rewrite !length_app in Hf. simpl in Hf.
    repeat (rewrite length_app in Hf; simpl in Hf).
    rewrite (IH d (w4 ++ 125 :: r) fuel); [|simpl in Hd; lia|by apply blank_stops|lia].
    cbn [fst snd]. by rewrite skip_ws_blank.
  - intros w1 k kt w2 w3 v t w4 l t' H1 Hk H2 H3 Hv IHv H4 Ht' IHm d r [|fuel] Hd Hf; [lia|]. cbn [members].
    rewrite <-app_assoc, skip_ws_blank by done. simpl. repeat (rewrite <-app_assoc; simpl).
    rewrite (string_body_complete k kt _ Hk). cbn [fst snd]. rewrite skip_ws_blank by done. simpl.
    rewrite (skip_ws_value w3 v) by done. repeat (rewrite length_app in Hf; simpl in Hf).
    change (members_depth ((k, v) :: l)) with (Nat.max (json_depth v) (members_depth l)) in Hd.
    rewrite (IHv d (w4 ++ 44 :: t' ++ 125 :: r) fuel); [|lia|by apply blank_stops|lia].
    cbn [fst snd]. rewrite skip_ws_blank by done. simpl. rewrite (IHm d r fuel); [done|lia|lia].
Qed.

Lemma value_total v t r : spells v t → (json_depth v ≤ MAX_DEPTH)%nat → blank r →
  value (parse_fuel (t ++ r)) 0 (t ++ r) = Ok (v, r).
Proof.
  intros Ht Hd Hr. apply (proj1 value_complete); [done|lia| |unfold parse_fuel; rewrite length_app; lia].
  rewrite <-(app_nil_r r). by apply blank_stops.
Qed.

Lemma parse_spelt w v t w' :
  blank w → spells v t → blank w' → (json_depth v ≤ MAX_DEPTH)%nat → parse (w ++ t ++ w') = Ok v.
Proof.
  intros Hw Ht Hw' Hd. unfold parse. rewrite (skip_ws_value w v), (value_total v) by done. cbn [fst snd].
  by rewrite <-(app_nil_r w'), skip_ws_blank.
Qed.

Lemma parse_read t v : parse t = Ok v →
  ∃ w b w', t = w ++ b ++ w' ∧ blank w ∧ blank w' ∧ spells v b ∧ (json_depth v ≤ MAX_DEPTH)%nat.
Proof.
  unfold parse. destruct (skip_ws_split t) as (w & Ht & Hw). destruct (value _ 0 _) as [[x r]|] eqn:E; [|done].
  apply value_sound in E as (b & Hb & Hx & Hd); [apply Nat.le_0_l|]. cbn [fst snd app] in *.
  destruct (skip_ws_split r) as (w' & Hr & Hw'). destruct (skip_ws r); [|done]. intros [= <-].
  exists w, b, w'. rewrite app_nil_r in Hr. subst r. split; [by rewrite Ht, Hb|]. split_and!; try done. lia.
Qed.

(** C37: The parser accepts exactly the texts RFC 8259 gives a value, white space around it
    allowed, nested to at most 512 levels, and answers that value: every number as the text
    it is, every member in its place, repeats included. *)
Theorem parse_reads_json t v :
  parse t = Ok v ↔
  ∃ w b w', t = w ++ b ++ w' ∧ blank w ∧ blank w' ∧ spells v b ∧ (json_depth v ≤ MAX_DEPTH)%nat.
Proof.
  split; [apply parse_read|]. intros (w & b & w' & -> & Hw & Hw' & Hb & Hd). by apply parse_spelt.
Qed.
