(* ===== verification/JsonNumber.v ===== *)
(** * JsonNumber: Java's spellings of numbers (src/transform/jsonval.rs)

    Whatever [BigDecimal.toString] or [Double.toString] makes of a JSON number is one again;
    and the text of a [BigDecimal] has its sign, its unscaled value and its scale. *)

From Stdlib Require Import ZArith Lia SpecFloat.
From stdpp Require Import base list strings sorting.
From S2P Require Import Prelude F64 JsonText JsonGrammar.

Open Scope N_scope.
Open Scope ddi_scope.

(** ** Digits *)

Abbreviation are_digits := (Forall (λ c, digit c = true)).

Lemma digit_48 d : is_digit d → digit (d + 48) = true.
Proof. unfold is_digit, digit. intros H. apply andb_true_iff. rewrite !N.leb_le. lia. Qed.

Lemma zeros_digits n : are_digits (zeros n).
Proof. by apply Forall_replicate. Qed.

Lemma shown_digits n : digits ((λ d, d + 48) <$> digits_of n).
Proof.
  split; [intros H; apply (digits_of_not_nil n); by destruct (digits_of n)|].
  apply Forall_fmap. eapply Forall_impl; [apply digits_of_digits|]. intros d. apply digit_48.
Qed.

Lemma digits_app_l a b : digits a → are_digits b → digits (a ++ b).
Proof. intros [Hn Ha] Hb. split; [by destruct a|by apply Forall_app]. Qed.
Lemma digits_app_r a b : are_digits a → digits b → digits (a ++ b).
Proof. intros Ha [Hn Hb]. split; [destruct a; [done|done]|by apply Forall_app]. Qed.

Lemma chars_show_N n : chars (show_N n) = (λ d, d + 48) <$> digits_of n.
Proof.
  unfold chars, show_N. rewrite String.list_ascii_of_string_of_list_ascii, <-list_fmap_compose.
  apply Forall_fmap_ext_1. eapply Forall_impl; [apply digits_of_digits|]. intros d Hd.
  unfold is_digit in Hd. simpl. unfold digit_ascii. rewrite Ascii.N_ascii_embedding; lia.
Qed.

(** An integer's text: its digits, after a sign when it is negative. *)
Lemma show_int_text z :
  ∃ d, digits d ∧ show_int z = (if (z <? 0)%Z then 45 :: d else d).
Proof.
  unfold show_int. destruct z as [|p|p]; simpl; (eexists; split; [apply shown_digits|]).
  - apply (chars_show_N 0).
  - apply (chars_show_N (Npos p)).
  - unfold chars. rewrite list_ascii_of_string_append. simpl. f_equal. apply (chars_show_N (Npos p)).
Qed.

(** The digits that stand for a number on their own. *)
Lemma trim_zeros_lead d : are_digits d →
  trim_zeros d = [] ∨ ∃ c l, trim_zeros d = c :: l ∧ c ≠ 48 ∧ digits (c :: l).
Proof.
  induction 1 as [|c d Hc Hd IH]; simpl; [by left|]. destruct (N.eqb_spec c 48) as [->|Hn]; [done|].
  right. exists c, d. split; [done|]. split; [done|]. split; [done|by constructor].
Qed.

Lemma lead_int d : are_digits d → spells_int (lead d).
Proof.
  unfold lead. intros [->|(c & l & -> & Hc & Hl)]%trim_zeros_lead; by constructor.
Qed.

Lemma spells_int_digits i : spells_int i → digits i.
Proof. intros [|d ds _ H]; [split; [done|by repeat constructor]|done]. Qed.

(** A prefix of the digits of a number is one, unless it is empty. *)
Lemma spells_int_take n i : spells_int i → (0 < n)%nat → spells_int (take n i).
Proof.
  intros [|d ds Hd [_ Hds]] Hn; (destruct n as [|n]; [lia|]); simpl; [rewrite take_nil; constructor|].
  inversion Hds; subst. constructor; [done|]. split; [done|]. constructor; [done|by apply Forall_take].
Qed.

Lemma drop_digits n d : (n < length d)%nat → are_digits d → digits (drop n d).
Proof.
  intros Hn Hd. split; [|by apply Forall_drop]. intros E. apply (f_equal length) in E.
  rewrite length_drop in E. simpl in E. lia.
Qed.

(** ** The parts of a number, put together *)

Lemma plain_number s i : s = [] ∨ s = [45] → spells_int i → spells_number (s ++ i).
Proof.
  intros Hs Hi. pose proof (number_spelt s i [] [] Hs Hi fraction_none exponent_none) as H.
  simpl in H. by rewrite app_nil_r in H.
Qed.
Lemma point_number s i d : s = [] ∨ s = [45] → spells_int i → digits d →
  spells_number (s ++ i ++ 46 :: d).
Proof.
  intros Hs Hi Hd. pose proof (number_spelt s i (46 :: d) [] Hs Hi (fraction_some d Hd) exponent_none) as H.
  simpl in H. by rewrite app_nil_r in H.
Qed.

(** [E], then an exponent as [java_bigdecimal] or [java_double] writes it. *)
Lemma exponent_text z : spells_exponent (69 :: show_int z).
Proof.
  destruct (show_int_text z) as (d & Hd & ->). destruct (z <? 0)%Z; [apply exponent_signed|apply exponent_plain]; auto.
Qed.
Lemma exponent_text_plus z :
  spells_exponent (69 :: (if (0 <=? z)%Z then 43 :: show_int z else show_int z)).
Proof.
  destruct (Z.leb_spec 0 z) as [Hz|]; [|apply exponent_text].
  destruct (show_int_text z) as (d & Hd & ->). rewrite (proj2 (Z.ltb_ge z 0)) by done.
  apply exponent_signed; auto.
Qed.

(** One digit, the others behind a point, an exponent. *)
Lemma scientific_number s c l rest e : s = [] ∨ s = [45] → digits (c :: l) →
  rest = [] ∧ l = [] ∨ digits rest → spells_exponent e →
  spells_number (s ++ (match rest with [] => [c] | _ => c :: 46 :: rest end) ++ e).
Proof.
  intros Hs [_ Hc] Hr He. inversion Hc as [|? ? Hc1 Hc2]; subst.
  assert (Hi : spells_int [c]).
  { destruct (N.eq_dec c 48) as [->|]; constructor; [done|]. split; [done|by repeat constructor]. }
  destruct rest as [|x rest].
  - pose proof (number_spelt s [c] [] e Hs Hi fraction_none He) as H. exact H.
  - destruct Hr as [[? _]|Hr]; [done|].
    pose proof (number_spelt s [c] (46 :: x :: rest) e Hs Hi (fraction_some _ Hr) He) as H. exact H.
Qed.

(** ** [BigDecimal] *)

Lemma java_bigdecimal_number negative d scale :
  are_digits d → spells_number (java_bigdecimal negative d scale).
Proof.
  intros Hd. unfold java_bigdecimal. apply lead_int in Hd. generalize dependent (lead d). intros l Hl.
  set (sign := if negative && negb (bool_decide (l = [48])) then [45] else []).
  assert (Hsign : sign = [] ∨ sign = [45]) by (unfold sign; destruct (_ && _); auto).
  clearbody sign. pose proof (spells_int_digits l Hl) as [Hn Hds].
  destruct (Z.eqb_spec scale 0); [by apply plain_number|].
  destruct (Z.ltb_spec 0 scale); simpl; [destruct (_ <=? _)%Z|].
  2, 3: destruct l as [|c l]; [done|]; rewrite app_assoc;
    assert (Hrest : l = [] ∧ l = [] ∨ digits l)
      by (destruct l; [by left|right; split; [done|by inversion Hds]]);
    pose proof (scientific_number sign c l l _ Hsign (conj Hn Hds) Hrest
      (exponent_text_plus (- scale + (Z.of_nat (length (c :: l)) - 1)))) as H';
    rewrite app_assoc in H'; destruct l; exact H'.
  destruct (Z.ltb_spec scale (Z.of_nat (length l))).
  - apply point_number; [done|apply spells_int_take; [done|lia]|apply drop_digits; [lia|done]].
  - apply (point_number sign [48]); [done|constructor|]. apply digits_app_r; [apply zeros_digits|done].
Qed.

(** The parts [java_bigdecimal_text] reads of a number. *)
Lemma split_once_none p s : Forall (λ c, p c = false) s → split_once p s = None.
Proof. induction 1 as [|c s Hc _ IH]; simpl; [done|]. by rewrite Hc, IH. Qed.
Lemma split_once_at p a c b : Forall (λ c, p c = false) a → p c = true →
  split_once p (a ++ c :: b) = Some (a, b).
Proof. intros Ha Hc. induction Ha as [|x a Hx _ IH]; simpl; [by rewrite Hc|]. by rewrite Hx, IH. Qed.

Lemma digits_not_e d : are_digits d → Forall (λ c, is_e c = false) d.
Proof.
  intros H. eapply Forall_impl; [exact H|]. intros c [H1%N.leb_le H2%N.leb_le]%andb_true_iff.
  unfold is_e. rewrite orb_false_iff, !N.eqb_neq. lia.
Qed.
Lemma digits_not_point d : are_digits d → Forall (λ c, is_point c = false) d.
Proof.
  intros H. eapply Forall_impl; [exact H|]. intros c [H1%N.leb_le H2%N.leb_le]%andb_true_iff.
  unfold is_point. rewrite N.eqb_neq. lia.
Qed.

Definition exponent_value (e : text) : option Z :=
  match e with [] => Some 0%Z | _ :: r => parse_i32 r end.

Lemma mantissa_not_e i f : spells_int i → spells_fraction f → Forall (λ c, is_e c = false) (i ++ f).
Proof.
  intros [_ Hi]%spells_int_digits Hf. apply Forall_app. split; [by apply digits_not_e|].
  destruct Hf as [|d [_ Hd]]; constructor; [done|by apply digits_not_e].
Qed.

Lemma split_exponent i f e : spells_int i → spells_fraction f → spells_exponent e →
  split_once is_e (i ++ f ++ e) = match e with [] => None | _ :: r => Some (i ++ f, r) end.
Proof.
  intros Hi Hf He. rewrite app_assoc. pose proof (mantissa_not_e i f Hi Hf).
  destruct He as [|c d Hc _|c s d Hc _ _]; [rewrite app_nil_r; by apply split_once_none|by apply split_once_at..].
Qed.

Lemma split_point i f : spells_int i → spells_fraction f →
  default (i ++ f, []) (split_once is_point (i ++ f)) = (i, drop 1 f).
Proof.
  intros [_ Hi]%spells_int_digits Hf. apply digits_not_point in Hi. destruct Hf as [|d Hd].
  - rewrite app_nil_r. by rewrite split_once_none.
  - by rewrite split_once_at.
Qed.

Lemma sign_split s i r : s = [] ∨ s = [45] → spells_int i →
  match s ++ i ++ r with
  | c :: t => if c =? 45 then (true, t) else (false, s ++ i ++ r)
  | [] => (false, [])
  end = (bool_decide (s = [45]), i ++ r).
Proof.
  intros [->| ->] Hi; [|done]. simpl. destruct Hi as [|d ds _ [_ Hd]]; simpl; [done|].
  inversion Hd as [|? ? [H1%N.leb_le H2%N.leb_le]%andb_true_iff _]; subst.
  by destruct (N.eqb_spec d 45) as [->|].
Qed.

Lemma read_decimal_spelt s i f e : s = [] ∨ s = [45] → spells_int i → spells_fraction f → spells_exponent e →
  read_decimal (s ++ i ++ f ++ e) =
  (λ x, (bool_decide (s = [45]), i ++ drop 1 f, (Z.of_nat (length (drop 1 f)) - x)%Z)) <$> exponent_value e.
Proof.
  intros Hs Hi Hf He. unfold read_decimal. rewrite (sign_split s i (f ++ e)) by done.
  rewrite (split_exponent i f e) by done. destruct He as [|c d Hc Hd|c x d Hc Hx Hd]; simpl.
  - rewrite app_nil_r. by rewrite (split_point i f).
  - destruct (parse_i32 d); simpl; [|done]. by rewrite (split_point i f).
  - destruct (parse_i32 (x :: d)); simpl; [|done]. by rewrite (split_point i f).
Qed.

Lemma fraction_digits f : spells_fraction f → are_digits (drop 1 f).
Proof. by intros [|d [_ Hd]]. Qed.

Lemma java_bigdecimal_text_number n : spells_number n → spells_number (java_bigdecimal_text n).
Proof.
  intros Hn. destruct Hn as [s i f e Hs Hi Hf He]. unfold java_bigdecimal_text.
  rewrite read_decimal_spelt by done. destruct (exponent_value e); simpl; [|by constructor].
  apply java_bigdecimal_number, Forall_app. split; [by apply spells_int_digits|by apply fraction_digits].
Qed.

(** ** [Double.toString] *)

Lemma digits_of_bound n : 0 < n → 10 ^ N.of_nat (length (digits_of n) - 1) ≤ n.
Proof.
  intros Hn. pose proof (digits_of_spec n) as (Hv & _ & _ & [Hl|(d & l & Hd & Hz)]).
  - rewrite Hl. simpl. lia.
  - rewrite Hd in *. rewrite of_digits_cons in Hv. simpl. rewrite Nat.sub_0_r.
    assert (1 * 10 ^ N.of_nat (length l) ≤ d * 10 ^ N.of_nat (length l)) by (apply N.mul_le_mono_r; lia). lia.
Qed.

Lemma of_digits_below l : Forall is_digit l → of_digits l < 10 ^ N.of_nat (length l).
Proof.
  induction 1 as [|d l Hd _ IH]; [done|]. rewrite of_digits_cons. unfold is_digit in Hd. simpl length.
  rewrite Nat2N.inj_succ, N.pow_succ_r'. nia.
Qed.

Lemma digits_of_above n : n < 10 ^ N.of_nat (length (digits_of n)).
Proof. rewrite <-(of_digits_of n) at 1. apply of_digits_below, digits_of_digits. Qed.

(** [num / den] to at least a digit is not nothing. *)
Lemma candidate_below (num den last : Z) (k s : nat) :
  (0 < num → 0 < den → den * 10 ^ (Z.of_nat k - 1) ≤ num * 10 ^ Z.of_nat s → 1 ≤ Z.of_nat k →
   last ≤ Z.of_nat k - 1 - Z.of_nat s →
   0 < num * 10 ^ Z.max 0 (- last) / (den * 10 ^ Z.max 0 last))%Z.
Proof.
  intros Hn Hd H Hk Hl. assert (Hp : (0 < 10 ^ Z.max 0 last)%Z) by (apply Z.pow_pos_nonneg; lia).
  apply Z.div_str_pos. split; [nia|].
  apply (Z.mul_le_mono_pos_r _ _ (10 ^ Z.of_nat s)); [apply Z.pow_pos_nonneg; lia|].
  transitivity (den * 10 ^ (Z.of_nat k - 1) * 10 ^ Z.max 0 (- last))%Z.
  - rewrite <-!Z.mul_assoc, <-!Z.pow_add_r by lia. apply Z.mul_le_mono_nonneg_l; [lia|].
    apply Z.pow_le_mono_r; lia.
  - rewrite <-(Z.mul_assoc num), (Z.mul_comm (10 ^ Z.max 0 (- last))), (Z.mul_assoc num).
    apply Z.mul_le_mono_nonneg_r; [apply Z.pow_nonneg; lia|done].
Qed.

Lemma candidates_head num den n : (0 < num)%Z → (0 < den)%Z → (1 ≤ n)%nat →
  ∃ d last l, candidates num den n = (d, last) :: l ∧ d ≠ 0.
Proof.
  intros Hn Hd Hl. unfold candidates.
  set (s := length (digits_of (Z.to_N den))).
  set (x := Z.to_N (num * 10 ^ Z.of_nat s / den)).
  set (last := (Z.of_nat (length (digits_of x)) - 1 - Z.of_nat s - (Z.of_nat n - 1))%Z).
  assert (Hs : (den < 10 ^ Z.of_nat s)%Z).
  { pose proof (digits_of_above (Z.to_N den)) as H. fold s in H.
    apply N2Z.inj_lt in H. rewrite Z2N.id, N2Z.inj_pow, nat_N_Z in H by lia. exact H. }
  assert (Hx : (1 ≤ num * 10 ^ Z.of_nat s / den)%Z) by (apply Z.div_le_lower_bound; nia).
  assert (Hk : (1 ≤ length (digits_of x))%nat).
  { pose proof (digits_of_not_nil x). destruct (digits_of x); [done|simpl; lia]. }
  assert (Hlow : (0 < num * 10 ^ Z.max 0 (- last) / (den * 10 ^ Z.max 0 last))%Z).
  { apply (candidate_below num den last (length (digits_of x)) s); [lia|lia| |lia|lia].
    pose proof (digits_of_bound x) as H. apply N2Z.inj_le in H; [|lia].
    rewrite N2Z.inj_pow, nat_N_Z, Nat2Z.inj_sub in H by lia. unfold x in H at 2. rewrite Z2N.id in H by lia.
    pose proof (Z.mul_div_le (num * 10 ^ Z.of_nat s) den). change (Z.of_N 10) with 10%Z in H. nia. }
  destruct (_ <? _)%Z; do 3 eexists; (split; [done|]); lia.
Qed.

Lemma shortest_from_nonzero m e num den tries n : (0 < num)%Z → (0 < den)%Z → (1 ≤ n)%nat →
  (shortest_from (S754_finite false m e) num den tries n).1 ≠ 0.
Proof.
  intros Hn Hd. revert n. induction tries as [|tries IH]; intros n Hl; simpl.
  - destruct (candidates_head num den n) as (d & last & l & -> & H); done.
  - destruct (List.find _ _) as [[d last]|] eqn:E; [|by apply IH; lia].
    apply List.find_some in E as [_ E]. simpl in *. by intros ->.
Qed.

Lemma trim_zeros_snoc a c : c ≠ 48 → are_digits a →
  ∃ b, trim_zeros (a ++ [c]) = b ++ [c] ∧ are_digits b.
Proof.
  intros Hc. induction 1 as [|x a Hx Ha IH]; simpl.
  - rewrite (proj2 (N.eqb_neq c 48)) by done. by exists [].
  - destruct (x =? 48); [done|]. exists (x :: a). split; [done|by constructor].
Qed.

Lemma rev_lead c l : c ≠ 48 → are_digits l →
  ∃ l', rev (lead (rev (c :: l))) = c :: l' ∧ are_digits l'.
Proof.
  intros Hc Hl. unfold lead. simpl rev at 2.
  destruct (trim_zeros_snoc (rev l) c Hc) as (b & -> & Hb); [by apply Forall_rev|].
  exists (rev b). split; [|by apply Forall_rev]. destruct b; [done|]. simpl. by rewrite rev_app_distr.
Qed.

Lemma shown_head d : d ≠ 0 → ∃ c l, (λ d, d + 48) <$> digits_of d = c :: l ∧ c ≠ 48 ∧ digits (c :: l).
Proof.
  intros Hd. pose proof (shown_digits d) as H. pose proof (digits_of_spec d) as (Hv & _ & _ & Hl).
  destruct (digits_of d) as [|x l]; [by destruct H|]. exists (x + 48), ((λ d, d + 48) <$> l).
  split; [done|]. split; [|done]. destruct Hl as [Hl|(y & l' & [= -> ->] & Hy)]; [|lia].
  destruct l; [|done]. unfold of_digits in Hv. simpl in Hv. lia.
Qed.

(** The digits [sci] answers start with one that is not zero. *)
Lemma sci_digits m e : ∃ c l, (sci m e).1 = c :: l ∧ c ≠ 48 ∧ digits (c :: l).
Proof.
  unfold sci. destruct (fraction m e) as [num den] eqn:Ef. unfold fraction in Ef. injection Ef as En Ed.
  pose proof (shortest_from_nonzero m e num den 17 1) as Hd.
  assert (Hnum : (0 < num)%Z) by (subst num; apply Z.mul_pos_pos; [done|apply Z.pow_pos_nonneg; lia]).
  assert (Hden : (0 < den)%Z) by (subst den; apply Z.pow_pos_nonneg; lia).
  destruct (shortest_from _ _ _ _ _) as [d last]. specialize (Hd Hnum Hden ltac:(lia)).
  destruct (shown_head d Hd) as (c & l & E & Hc & [_ Hl]). cbn [fst]. rewrite E.
  inversion Hl as [|? ? Hcd Hl']; subst. destruct (rev_lead c l Hc Hl') as (l' & -> & Hl'').
  exists c, l'. split; [done|]. split; [done|]. split; [done|by constructor].
Qed.

Lemma plain_layout_number s c l x : s = [] ∨ s = [45] → c ≠ 48 → digits (c :: l) →
  spells_number (s ++ plain_layout (c :: l) x).
Proof.
  intros Hs Hc [Hn Hd]. unfold plain_layout. destruct (Z.leb_spec (x + 1) 0).
  - apply (point_number s [48]); [done|constructor|]. apply digits_app_r; [apply zeros_digits|done].
  - destruct (Z.leb_spec (Z.of_nat (length (c :: l))) (x + 1)).
    + rewrite (app_assoc (c :: l)). apply point_number; [done| |split; [done|by repeat constructor]].
      apply (int_other c (l ++ _)); [done|]. apply (digits_app_l (c :: l)); [done|apply zeros_digits].
    + apply point_number; [done| |apply drop_digits; [lia|done]].
      apply spells_int_take; [by constructor|lia].
Qed.

Lemma java_double_number v :
  match v with S754_nan | S754_infinity _ => False | _ => True end → spells_number (java_double v).
Proof.
  destruct v as [s|s| |s m e]; try done; intros _; simpl.
  - destruct s; [apply (point_number [45] [48] [48])|apply (point_number [] [48] [48])]; auto;
      try constructor; done || by repeat constructor.
  - destruct (sci_digits m e) as (c & l & E & Hc & Hd). destruct (sci m e) as [d x]. simpl in E. subst d.
    assert (Hs : (if s then [45] else []) = [] ∨ (if s then [45] else []) = [45]) by (destruct s; auto).
    destruct (plain_range _); [by apply plain_layout_number|]. simpl. rewrite drop_0.
    assert (Hl : digits (fraction_of l)) by (destruct l; [split; [done|by repeat constructor]|split; [done|by inversion Hd as [_ Hd']; inversion Hd']]).
    pose proof (scientific_number _ c l (fraction_of l) _ Hs Hd (or_intror Hl) (exponent_text x)) as H.
    destruct (fraction_of l) eqn:E; [by destruct l|]. exact H.
Qed.

Lemma number_text_number numbers n : spells_number n → spells_number (number_text n numbers).
Proof.
  intros Hn. unfold number_text. destruct (existsb _ _); [|done].
  destruct numbers; [by apply java_bigdecimal_text_number|].
  destruct (parse_f64 n) as [[s|s| |s m e]|]; try done; by apply java_double_number.
Qed.

(** ** A [BigDecimal] read again *)

Lemma value_of_app a b : value_of (a ++ b) = value_of a * 10 ^ N.of_nat (length b) + value_of b.
Proof. unfold value_of. rewrite fmap_app, of_digits_app, of_digits_acc, length_fmap. done. Qed.

Lemma value_of_trim d : value_of (trim_zeros d) = value_of d.
Proof.
  induction d as [|c d IH]; simpl; [done|]. destruct (N.eqb_spec c 48) as [->|]; [|done].
  rewrite IH. symmetry. apply (value_of_app [48] d).
Qed.

Lemma value_of_lead d : value_of (lead d) = value_of d.
Proof. rewrite <-(value_of_trim d). unfold lead. by destruct (trim_zeros d). Qed.

Lemma value_of_shown n : value_of ((λ d, d + 48) <$> digits_of n) = n.
Proof.
  unfold value_of. rewrite <-list_fmap_compose.
  rewrite (list_fmap_ext _ id), list_fmap_id; [apply of_digits_of|]. intros i x _. simpl. lia.
Qed.

Lemma digits_forallb d : are_digits d → forallb digit d = true.
Proof. intros H. apply forallb_forall. intros c Hc. rewrite Forall_forall in H. by apply H, list_elem_of_In. Qed.

Definition in_i32 (z : Z) : bool := (i32_min <=? z)%Z && (z <=? i32_max)%Z.

Lemma digit_not c x : digit c = true → digit x = false → c ≠ x.
Proof. by intros H1 H2 ->; rewrite H1 in H2. Qed.

Lemma parse_i32_digits d : digits d →
  let v := Z.of_N (value_of d) in
  parse_i32 d = (if in_i32 v then Some v else None) ∧
  parse_i32 (43 :: d) = (if in_i32 v then Some v else None) ∧
  parse_i32 (45 :: d) = (if in_i32 (- v) then Some (- v)%Z else None).
Proof.
  intros [Hn Hd] v. pose proof (digits_forallb d Hd) as Hall. unfold parse_i32, parse_int.
  destruct d as [|c d]; [done|]. inversion Hd as [|? ? Hc _]; subst.
  rewrite (proj2 (N.eqb_neq c 45)), (proj2 (N.eqb_neq c 43)) by (by eapply digit_not).
  cbn iota. change (45 =? 45) with true. change (43 =? 45) with false. change (43 =? 43) with true.
  cbn iota. rewrite Hall. done.
Qed.

(** An exponent as it is written is read again when it is an [i32], and only then. *)
Lemma parse_i32_shown z : parse_i32 (show_int z) = if in_i32 z then Some z else None.
Proof.
  unfold show_int. destruct z as [|p|p].
  - done.
  - simpl show_Z. rewrite chars_show_N. destruct (parse_i32_digits _ (shown_digits (Npos p))) as (-> & _ & _).
    by rewrite value_of_shown.
  - simpl show_Z. assert (chars (String.append "-" (show_N (N.pos p))) = 45 :: chars (show_N (N.pos p))) as ->.
    { unfold chars. by rewrite list_ascii_of_string_append. }
    rewrite chars_show_N. destruct (parse_i32_digits _ (shown_digits (Npos p))) as (_ & _ & ->).
    by rewrite value_of_shown.
Qed.
Lemma parse_i32_shown_plus z : (0 ≤ z)%Z → parse_i32 (43 :: show_int z) = if in_i32 z then Some z else None.
Proof.
  intros Hz. unfold show_int. destruct z as [|p|p]; [done| |lia].
  simpl show_Z. rewrite chars_show_N. destruct (parse_i32_digits _ (shown_digits (Npos p))) as (_ & -> & _).
  by rewrite value_of_shown.
Qed.

Lemma trim_zeros_zeros n d : trim_zeros (zeros n ++ d) = trim_zeros d.
Proof. by induction n. Qed.

Lemma lead_of_int l : spells_int l → lead l = l.
Proof. intros [|c d Hc _]; [done|]. unfold lead. simpl. by rewrite (proj2 (N.eqb_neq c 48)). Qed.
Lemma lead_zeros n l : spells_int l → lead (zeros n ++ l) = l.
Proof. intros H. rewrite <-(lead_of_int l H) at 2. unfold lead. by rewrite trim_zeros_zeros. Qed.

Lemma read_scientific sign neg l scale : sign = [] ∨ sign = [45] → bool_decide (sign = [45]) = neg →
  spells_int l →
  let adjusted := (- scale + (Z.of_nat (length l) - 1))%Z in
  let mantissa := match l with [d] => [d] | d :: rest => d :: 46 :: rest | [] => [] end in
  let exp := if (0 <=? adjusted)%Z then 43 :: show_int adjusted else show_int adjusted in
  read_decimal (sign ++ mantissa ++ 69 :: exp) = None ∧ in_i32 (Z.of_nat (length l) - 1 - scale) = false ∨
  ∃ d', read_decimal (sign ++ mantissa ++ 69 :: exp) = Some (neg, d', scale) ∧ lead d' = l.
Proof.
  intros Hsign Hneg Hl adjusted mantissa exp. pose proof (spells_int_digits l Hl) as [Hn Hds].
  destruct l as [|c l]; [done|]. inversion Hds as [|? ? Hc Hds']; subst.
  assert (He : spells_exponent (69 :: exp)) by apply exponent_text_plus.
  assert (Hi : spells_int [c]).
  { destruct (N.eq_dec c 48) as [->|]; constructor; [done|]. split; [done|by repeat constructor]. }
  assert (Hx : parse_i32 exp = if in_i32 adjusted then Some adjusted else None).
  { unfold exp. destruct (Z.leb_spec 0 adjusted); [by apply parse_i32_shown_plus|apply parse_i32_shown]. }
  set (f := match l with [] => [] | _ => 46 :: l end).
  assert (Hf : spells_fraction f) by (destruct l; constructor; by split).
  assert (Hd : drop 1 f = l) by (destruct l; [done|apply drop_0]).
  assert (Hm : mantissa = [c] ++ f) by (unfold mantissa, f; by destruct l).
  rewrite Hm, <-app_assoc, (read_decimal_spelt sign [c] f _) by done. simpl exponent_value. rewrite Hx, Hd.
  replace (Z.of_nat (length (c :: l)) - 1 - scale)%Z with adjusted by (unfold adjusted; lia).
  destruct (in_i32 adjusted); simpl; [right|by left]. exists (c :: l).
  split; [|by apply lead_of_int]. do 3 f_equal. unfold adjusted. simpl. lia.
Qed.

(** What is read of the text [java_bigdecimal] makes: the sign, digits of the same number and
    the scale; or nothing, when its exponent is not an [i32]. *)
Lemma read_bigdecimal negative d scale : are_digits d →
  read_decimal (java_bigdecimal negative d scale) = None ∧
    in_i32 (Z.of_nat (length (lead d)) - 1 - scale) = false ∨
  ∃ d', read_decimal (java_bigdecimal negative d scale) =
          Some (negative && negb (bool_decide (lead d = [48])), d', scale) ∧ lead d' = lead d.
Proof.
  intros Hd. unfold java_bigdecimal. apply lead_int in Hd. generalize dependent (lead d). intros l Hl.
  set (neg := negative && negb (bool_decide (l = [48]))).
  set (sign := if neg then [45] else []).
  assert (Hsign : sign = [] ∨ sign = [45]) by (unfold sign; destruct neg; auto).
  assert (Hneg : bool_decide (sign = [45]) = neg) by (unfold sign; destruct neg; done).
  clearbody neg sign. pose proof (spells_int_digits l Hl) as [Hn Hds].
  destruct (Z.eqb_spec scale 0) as [->|Hs0].
  { right. exists l. replace (sign ++ l) with (sign ++ l ++ [] ++ []) by (by rewrite app_nil_r).
    rewrite (read_decimal_spelt sign l [] []) by (done || constructor). simpl. rewrite app_nil_r, Hneg.
    split; [done|by apply lead_of_int]. }
  destruct (Z.ltb_spec 0 scale) as [Hs|Hs]; simpl; [destruct (Z.leb_spec (-6) (- scale + (Z.of_nat (length l) - 1)))|].
  - right. destruct (Z.ltb_spec scale (Z.of_nat (length l))) as [Hp|Hp].
    + set (k := Z.to_nat (Z.of_nat (length l) - scale)). exists l.
      replace (sign ++ take k l ++ 46 :: drop k l) with (sign ++ take k l ++ (46 :: drop k l) ++ [])
        by (by rewrite app_nil_r).
      rewrite (read_decimal_spelt sign (take k l) (46 :: drop k l) []); [|done|apply spells_int_take; [done|lia]| |constructor].
      2: { constructor. apply drop_digits; [lia|done]. }
      simpl. rewrite drop_0, take_drop, length_drop, Hneg. split; [do 3 f_equal; lia|by apply lead_of_int].
    + set (n := Z.to_nat (scale - Z.of_nat (length l))). exists (zeros (S n) ++ l).
      replace (sign ++ 48 :: 46 :: zeros n ++ l) with (sign ++ [48] ++ (46 :: zeros n ++ l) ++ [])
        by (by rewrite app_nil_r).
      rewrite (read_decimal_spelt sign [48] (46 :: zeros n ++ l) []); [|done|constructor| |constructor].
      2: { constructor. apply digits_app_r; [apply zeros_digits|done]. }
      simpl. rewrite drop_0, Hneg, length_app. unfold zeros at 2. rewrite length_replicate.
      split; [do 3 f_equal; lia|by apply (lead_zeros (S n))].
  - by apply read_scientific.
  - by apply read_scientific.
Qed.

Lemma lead_zero l : spells_int l → negb (bool_decide (l = [48])) = negb (value_of l =? 0).
Proof.
  intros [|c d Hc [_ Hd]]; [done|]. rewrite bool_decide_false by (by intros [= -> _]). f_equal.
  symmetry. apply N.eqb_neq. inversion Hd as [|? ? [H1%N.leb_le _]%andb_true_iff _]; subst.
  unfold value_of. rewrite fmap_cons, of_digits_cons.
  assert (0 < 10 ^ N.of_nat (length ((λ c, c - 48) <$> d))) by (apply N.neq_0_lt_0, N.pow_nonzero; lia). nia.
Qed.

(** The text has the sign, the unscaled value and the scale of the number, a zero having no
    sign; when its exponent is one an [i32] holds. *)
Lemma java_bigdecimal_value negative d scale : are_digits d →
  in_i32 (Z.of_nat (length (lead d)) - 1 - scale) = true →
  ∃ d', read_decimal (java_bigdecimal negative d scale) = Some (negative && negb (value_of d =? 0), d', scale) ∧
    value_of d' = value_of d.
Proof.
  intros Hd Hi. destruct (read_bigdecimal negative d scale Hd) as [[_ H]|(d' & -> & H)]; [congruence|].
  exists d'. split; [|by rewrite <-(value_of_lead d'), H, value_of_lead]. do 4 f_equal.
  rewrite <-(value_of_lead d). by apply lead_zero, lead_int.
Qed.

Lemma java_bigdecimal_twice negative d scale : are_digits d →
  java_bigdecimal_text (java_bigdecimal negative d scale) = java_bigdecimal negative d scale.
Proof.
  intros Hd. unfold java_bigdecimal_text.
  destruct (read_bigdecimal negative d scale Hd) as [[-> _]|(d' & -> & H)]; [done|].
  unfold java_bigdecimal. rewrite H. do 2 f_equal. by destruct negative, (bool_decide (lead d = [48])).
Qed.

(** A number is respelled once. *)
Lemma number_text_twice n : spells_number n →
  number_text (number_text n BigDecimal) BigDecimal = number_text n BigDecimal.
Proof.
  intros Hn. unfold number_text at 2 3. destruct (existsb (λ c, is_point c || is_e c) n) eqn:E;
    [|by unfold number_text; rewrite E].
  unfold number_text. destruct (existsb _ (java_bigdecimal_text n)); [|done].
  destruct Hn as [s i f e Hs Hi Hf He]. unfold java_bigdecimal_text at 2 3. rewrite read_decimal_spelt by done.
  destruct (exponent_value e) as [x|] eqn:Ex; simpl.
  - apply java_bigdecimal_twice, Forall_app. split; [by apply spells_int_digits|by apply fraction_digits].
  - unfold java_bigdecimal_text. rewrite read_decimal_spelt by done. by rewrite Ex.
Qed.
