(* ===== verification/JsonWrite.v ===== *)
(** * JsonWrite: what is written is read back (src/transform/jsonval.rs)

    The text [write] makes of a value is one the grammar gives the value as its writer leaves
    it, [respell]: its numbers respelled, its members in the writer's order. *)

From Stdlib Require Import ZArith Lia.
From stdpp Require Import base list strings sorting.
From S2P Require Import Prelude JsonText JsonGrammar JsonNumber.

Open Scope N_scope.
Open Scope ddi_scope.

(** ** Characters *)

(** A [char]: a Unicode scalar value. *)
Definition scalar (c : N) : Prop := c < 0xD800 ∨ 0xE000 ≤ c ∧ c < 0x110000.
#[export] Instance scalar_dec c : Decision (scalar c).
Proof. unfold scalar. apply _. Defined.

Lemma hex_digit_char n : n < 16 → hex_digit (hex_char n) = Some n.
Proof.
  intros Hn. unfold hex_char, hex_digit, digit. destruct (N.ltb_spec n 10).
  - rewrite (proj2 (N.leb_le 48 _)), (proj2 (N.leb_le _ 57)) by lia. simpl. f_equal. lia.
  - rewrite (proj2 (N.leb_gt (n + 55) 57)), (proj2 (N.leb_gt 97 _)) by lia.
    rewrite (proj2 (N.leb_le 65 _)), (proj2 (N.leb_le _ 70)) by lia. rewrite andb_false_r. simpl. f_equal. lia.
Qed.

Lemma hex4_char u : u < 0x10000 →
  hex4 (hex_char (u / 4096 mod 16)) (hex_char (u / 256 mod 16)) (hex_char (u / 16 mod 16)) (hex_char (u mod 16)) =
  Some u.
Proof.
  intros Hu. unfold hex4. rewrite !hex_digit_char by (apply N.mod_lt; lia). simpl. f_equal.
  assert (Hs : ∀ x, x = 16 * (x / 16) + x mod 16) by (intros x; apply N.div_mod; lia).
  change 4096 with (16 * 16 * 16). change 256 with (16 * 16). rewrite <-!N.Div0.div_div.
  rewrite (N.mod_small (u / 16 / 16 / 16)).
  - pose proof (Hs u). pose proof (Hs (u / 16)). pose proof (Hs (u / 16 / 16)). lia.
  - rewrite !N.Div0.div_div. apply N.Div0.div_lt_upper_bound. lia.
Qed.

Lemma utf16_pair c : 0xFFFF < c → c < 0x110000 →
  let high := 0xD800 + (c - 0x10000) / 1024 in let low := 0xDC00 + (c - 0x10000) mod 1024 in
  is_high high = true ∧ is_low low = true ∧ pair_of high low = c ∧ high < 0x10000 ∧ low < 0x10000.
Proof.
  intros H1 H2 high low.
  assert ((c - 0x10000) / 1024 < 1024) by (apply N.Div0.div_lt_upper_bound; lia).
  assert ((c - 0x10000) mod 1024 < 1024) by (apply N.mod_lt; lia).
  pose proof (N.div_mod (c - 0x10000) 1024 ltac:(lia)).
  unfold is_high, is_low, pair_of. rewrite !andb_true_iff, !N.leb_le, !N.ltb_lt.
  subst high low. remember ((c - 0x10000) / 1024) as q. remember ((c - 0x10000) mod 1024) as r.
  clear Heqq Heqr. lia.
Qed.

(** One character of a string, as it is written. *)
Lemma escape_spelt generator c s t : scalar c → spells_string s t →
  spells_string (c :: s) (escape generator c ++ t).
Proof.
  intros Hc Ht. unfold escape.
  destruct (N.eqb_spec c 34) as [->|H34]; [by apply string_simple|].
  destruct (N.eqb_spec c 92) as [->|H92]; [by apply string_simple|].
  destruct (N.eqb_spec c 8) as [->|]; [by apply string_simple|].
  destruct (N.eqb_spec c 12) as [->|]; [by apply string_simple|].
  destruct (N.eqb_spec c 10) as [->|]; [by apply string_simple|].
  destruct (N.eqb_spec c 13) as [->|]; [by apply string_simple|].
  destruct (N.eqb_spec c 9) as [->|]; [by apply string_simple|].
  destruct (N.ltb_spec c 32) as [Hlow|Hlow].
  { apply string_unit; [apply hex4_char; lia| | |done];
      unfold is_high, is_low; rewrite andb_false_iff, N.leb_gt; left; lia. }
  destruct generator; [|by apply string_plain]. destruct (N.ltb_spec 0xFFFF c) as [Hbig|]; [|by apply string_plain].
  destruct (utf16_pair c) as (Hh & Hl & Hp & Hb1 & Hb2); [done|destruct Hc as [?|[_ ?]]; lia|].
  unfold utf16. rewrite (proj2 (N.ltb_ge c 0x10000)) by lia. rewrite <-Hp at 1.
  apply (string_pair _ _ _ _ _ _ _ _ _ _ s t (hex4_char _ Hb1) (hex4_char _ Hb2)); done.
Qed.

Lemma quoted_spelt generator s : Forall scalar s → spells_string s (mjoin (escape generator <$> s)).
Proof. induction 1; simpl; [constructor|by apply escape_spelt]. Qed.

(** ** The order of the members *)

Section Ordered.
Context {A B : Type} (f : A → B).
Let g : text * A → text * B := λ '(k, v), (k, f v).

Lemma put_fmap k v l : g <$> put k v l = put k (f v) (g <$> l).
Proof. induction l as [|[k' v'] l IH]; simpl; [done|]. case_bool_decide; simpl; [done|f_equal; exact IH]. Qed.

Lemma dedup_fmap l : g <$> dedup l = dedup (g <$> l).
Proof.
  unfold dedup. change (@nil (text * B)) with (g <$> []). generalize (@nil (text * A)).
  induction l as [|[k v] l IH]; intros seen; simpl; [done|]. rewrite IH. f_equal. apply put_fmap.
Qed.

Lemma key_le_fmap a b : key_le (g a) (g b) ↔ key_le a b.
Proof. by destruct a, b. Qed.

Lemma merge_fmap l1 l2 : g <$> list_merge key_le l1 l2 = list_merge key_le (g <$> l1) (g <$> l2).
Proof.
  revert l2. induction l1 as [|a l1 IH1]; intros l2; [by destruct l2|].
  induction l2 as [|b l2 IH2]; [done|]. rewrite !fmap_cons, !list_merge_cons.
  destruct (decide (key_le a b)) as [H|H].
  - rewrite (decide_True (P := key_le (g a) (g b))) by by apply key_le_fmap. by rewrite fmap_cons, IH1.
  - rewrite (decide_False (P := key_le (g a) (g b))) by by rewrite key_le_fmap. by rewrite fmap_cons, IH2.
Qed.

Let gs : list (option (list (text * A))) → list (option (list (text * B))) :=
  fmap (M := list) (fmap (M := option) (fmap (M := list) g)).

Lemma to_stack_fmap st l :
  gs (merge_list_to_stack key_le st l) = merge_list_to_stack key_le (gs st) (g <$> l).
Proof.
  revert l. induction st as [|[l'|] st IH]; intros l; simpl; [done| |done].
  f_equal. etransitivity; [apply IH|]. f_equal. apply merge_fmap.
Qed.
Lemma stack_fmap st : g <$> merge_stack key_le st = merge_stack key_le (gs st).
Proof.
  induction st as [|[l|] st IH]; simpl; [done| |exact IH]. etransitivity; [apply merge_fmap|]. f_equal. exact IH.
Qed.
Lemma sort_fmap l : g <$> merge_sort key_le l = merge_sort key_le (g <$> l).
Proof.
  unfold merge_sort. change (@nil (option (list (text * B)))) with (gs []).
  generalize (@nil (option (list (text * A)))). induction l as [|m l IH]; intros st; simpl; [apply stack_fmap|].
  etransitivity; [apply IH|]. f_equal. apply to_stack_fmap.
Qed.

(** Putting the members in order, and writing their values, may be done either way round. *)
Lemma ordered_fmap how l : g <$> ordered how l = ordered how (g <$> l).
Proof.
  destruct how; simpl; [done|apply dedup_fmap|]. etransitivity; [apply sort_fmap|]. f_equal. apply dedup_fmap.
Qed.
End Ordered.

(** ** Values *)

Section Json_ind.
Context (P : Json → Prop) (Hnull : P J_Null) (Hbool : ∀ b, P (J_Bool b)) (Hnumber : ∀ n, P (J_Number n))
  (Hstring : ∀ s, P (J_String s)) (Harray : ∀ l, Forall P l → P (J_Array l))
  (Hobject : ∀ l, Forall (λ m, P m.2) l → P (J_Object l)).
Fixpoint Json_nested_ind (j : Json) : P j :=
  match j with
  | J_Null => Hnull
  | J_Bool b => Hbool b
  | J_Number n => Hnumber n
  | J_String s => Hstring s
  | J_Array l => Harray l ((fix go l : Forall P l :=
      match l with [] => List.Forall_nil _ | v :: l => List.Forall_cons _ v l (Json_nested_ind v) (go l) end) l)
  | J_Object l => Hobject l ((fix go l : Forall (λ m, P m.2) l :=
      match l with [] => List.Forall_nil _ | m :: l => List.Forall_cons _ m l (Json_nested_ind m.2) (go l) end) l)
  end.
End Json_ind.

(** A value a [Json] can hold: its numbers are JSON numbers, its texts are of characters. *)
Inductive sane : Json → Prop :=
  | sane_null : sane J_Null
  | sane_bool b : sane (J_Bool b)
  | sane_number n : spells_number n → sane (J_Number n)
  | sane_string s : Forall scalar s → sane (J_String s)
  | sane_array l : Forall sane l → sane (J_Array l)
  | sane_object l : Forall (λ m, Forall scalar m.1 ∧ sane m.2) l → sane (J_Object l).

(** A value as a writer leaves it. *)
Section Respell.
Context (how : Members) (numbers : Numbers).
Fixpoint respell (json : Json) : Json :=
  match json with
  | J_Number n => J_Number (number_text n numbers)
  | J_Array items => J_Array (respell <$> items)
  | J_Object pairs => J_Object (ordered how ((λ '(k, v), (k, respell v)) <$> pairs))
  | _ => json
  end.
End Respell.

(** Members in order are some of the members. *)
Lemma put_In {A} k (v : A) l m : m ∈ put k v l → m = (k, v) ∨ m ∈ l.
Proof.
  induction l as [|[k' v'] l IH]; simpl; [intros ->%list_elem_of_singleton; auto|].
  case_bool_decide; subst; rewrite !elem_of_cons; naive_solver.
Qed.
Lemma dedup_In {A} (l : list (text * A)) m : m ∈ dedup l → m ∈ l.
Proof.
  unfold dedup. assert (H : ∀ seen, m ∈ fold_left (λ seen '(k, v), put k v seen) l seen → m ∈ seen ∨ m ∈ l).
  { induction l as [|[k v] l IH]; intros seen; simpl; [auto|]. intros [H|H]%IH; [|rewrite elem_of_cons; auto].
    apply put_In in H as [->|H]; rewrite elem_of_cons; auto. }
  intros [H'|]%H; [|done]. by apply elem_of_nil in H'.
Qed.
Lemma ordered_In {A} how (l : list (text * A)) m : m ∈ ordered how l → m ∈ l.
Proof.
  destruct how; simpl; [done|apply dedup_In|]. rewrite merge_sort_Permutation. apply dedup_In.
Qed.

Lemma ordered_Forall {A} how (P : text * A → Prop) l : Forall P l → Forall P (ordered how l).
Proof. rewrite !Forall_forall. intros H m Hm. by eapply H, ordered_In. Qed.

(** What is written of a value spells it. *)
Lemma commas_items l ts : l ≠ [] → Forall2 spells l ts → spells_items l (commas ts).
Proof.
  intros Hl H. destruct H as [|v t l ts Hv H]; [done|]. clear Hl. simpl. revert v t Hv.
  induction H as [|v' t' l ts Hv' H IH]; intros v t Hv; simpl.
  - rewrite app_nil_r. pose proof (last_item [] v t []) as X. simpl in X. rewrite app_nil_r in X.
    apply X; [constructor|done|constructor].
  - apply (more_items [] v t [] (v' :: l)); [constructor|done|constructor|by apply IH].
Qed.

Lemma commas_members l ts :
  l ≠ [] →
  Forall2 (λ m t, ∃ kt vt, t = 34 :: kt ++ 34 :: 58 :: vt ∧ spells_string m.1 kt ∧ spells m.2 vt) l ts →
  spells_members l (commas ts).
Proof.
  assert (Hb : blank []) by constructor. intros Hl H. destruct H as [|[k v] t l ts (kt & vt & -> & Hk & Hv) H]; [done|]. clear Hl. simpl in *.
  revert k v kt vt Hk Hv.
  induction H as [|[k' v'] t' l ts (kt' & vt' & -> & Hk' & Hv') H IH]; intros k v kt vt Hk Hv; simpl in *.
  - rewrite app_nil_r. pose proof (last_member [] k kt [] [] v vt []) as X. simpl in X. rewrite app_nil_r in X.
    by apply X.
  - rewrite <-app_assoc. simpl. apply (more_members [] k kt [] [] v vt [] ((k', v') :: l)); try done. by apply IH.
Qed.

Lemma write_spelt how numbers generator v :
  sane v → spells (respell how numbers v) (write how numbers generator v).
Proof.
  induction v as [|b|n|s|l IH|l IH] using Json_nested_ind; intros Hv; inversion Hv; subst; simpl.
  - constructor.
  - constructor.
  - by apply spells_num, number_text_number.
  - by apply spells_str, quoted_spelt.
  - destruct l as [|v l]; [apply (spells_no_items []); constructor|]. apply spells_array, commas_items; [done|].
    apply Forall2_fmap, Forall_Forall2_diag. rewrite !Forall_forall in *. auto.
  - rewrite <-!ordered_fmap, <-list_fmap_compose.
    assert (H : Forall (λ m, Forall scalar m.1 ∧ spells (respell how numbers m.2) (write how numbers generator m.2)) (ordered how l)).
    { apply ordered_Forall. rewrite !Forall_forall in *. intros m Hm. split; [by apply H0|]. apply IH; [done|by apply H0]. }
    destruct (ordered how l) as [|m o]; [apply (spells_no_members []); constructor|].
    apply spells_object, commas_members; [done|]. apply Forall2_fmap, Forall_Forall2_diag.
    eapply Forall_impl; [exact H|]. intros [k v] [Hk Hs]. simpl in *.
    do 2 eexists. split; [simpl; rewrite <-app_assoc; done|]. split; [by apply quoted_spelt|done].
Qed.

(** *** A value read is a sane one *)

Lemma hex_digit_below c d : hex_digit c = Some d → d < 16.
Proof.
  unfold hex_digit, digit.
  destruct (N.leb_spec 48 c), (N.leb_spec c 57); simpl; [intros [= <-]; lia|..];
    destruct (N.leb_spec 97 c), (N.leb_spec c 102); simpl; try (intros [= <-]; lia);
    destruct (N.leb_spec 65 c), (N.leb_spec c 70); simpl; try (intros [= <-]; lia); done.
Qed.
Lemma hex4_below a b c d u : hex4 a b c d = Some u → u < 0x10000.
Proof.
  unfold hex4. destruct (hex_digit a) eqn:Ea; [|done]. destruct (hex_digit b) eqn:Eb; [|done].
  destruct (hex_digit c) eqn:Ec; [|done]. destruct (hex_digit d) eqn:Ed; [|done]. intros [= <-].
  apply hex_digit_below in Ea, Eb, Ec, Ed. lia.
Qed.

Lemma spells_string_scalar s t : spells_string s t → Forall scalar t → Forall scalar s.
Proof.
  assert (Hsimple : ∀ e c, simple_escape e = Some c → scalar c).
  { intros e c. unfold simple_escape. repeat (destruct (_ =? _); [intros [= <-]; left; lia|]). done. }
  induction 1 as [|c s t H34 H92 H32 _ IH|e c s t He _ IH|h1 h2 h3 h4 u s t Hu Hi Hl _ IH|
    h1 h2 h3 h4 l1 l2 l3 l4 hi lo s t Hh Hl Hi Hlo _ IH]; intros Ht; [done|..];
    repeat (apply Forall_cons in Ht as [? Ht]).
  - constructor; [done|by apply IH].
  - constructor; [by eapply Hsimple|by apply IH].
  - constructor; [|by apply IH]. apply hex4_below in Hu. unfold is_high, is_low, scalar in *.
    rewrite andb_false_iff, N.leb_gt, N.ltb_ge in *. lia.
  - constructor; [|by apply IH]. unfold is_high, is_low, scalar, pair_of in *.
    rewrite andb_true_iff, N.leb_le, N.ltb_lt in *. lia.
Qed.

Lemma spells_sane :
  (∀ v t, spells v t → Forall scalar t → sane v) ∧
  (∀ l t, spells_items l t → Forall scalar t → Forall sane l) ∧
  (∀ l t, spells_members l t → Forall scalar t → Forall (λ m, Forall scalar m.1 ∧ sane m.2) l).
Proof.
  apply spells_all; intros; repeat (rewrite ?Forall_cons, ?Forall_app in *; destruct_and?); constructor;
    simpl; eauto using spells_string_scalar.
Qed.

Lemma parse_sane t v : Forall scalar t → parse t = Ok v → sane v ∧ (json_depth v ≤ MAX_DEPTH)%nat.
Proof.
  intros Ht (w & b & w' & -> & _ & _ & Hb & Hd)%parse_read. split; [|done].
  apply (proj1 spells_sane v b); [done|]. by decompose_Forall.
Qed.

(** *** Depth *)

Lemma items_depth_le l n : (items_depth l ≤ n)%nat ↔ Forall (λ v, (json_depth v ≤ n)%nat) l.
Proof. induction l as [|v l IH]; simpl; [split; [constructor|lia]|]. rewrite Forall_cons, <-IH. lia. Qed.
Lemma members_depth_le l n : (members_depth l ≤ n)%nat ↔ Forall (λ m, (json_depth m.2 ≤ n)%nat) l.
Proof. induction l as [|v l IH]; simpl; [split; [constructor|lia]|]. rewrite Forall_cons, <-IH. lia. Qed.

Lemma respell_depth how numbers v : (json_depth (respell how numbers v) ≤ json_depth v)%nat.
Proof.
  induction v as [|b|n|s|l IH|l IH] using Json_nested_ind; try done.
  - change (S (items_depth (respell how numbers <$> l)) ≤ S (items_depth l))%nat. apply le_n_S.
    apply items_depth_le, Forall_fmap. pose proof (proj1 (items_depth_le l _) (Nat.le_refl _)) as H.
    rewrite Forall_forall in *. intros v Hv. apply (Nat.le_trans _ (json_depth v)); [by apply IH|by apply H].
  - cbn [respell]. rewrite <-ordered_fmap.
    change (S (members_depth ((λ '(k, v), (k, respell how numbers v)) <$> ordered how l)) ≤ S (members_depth l))%nat.
    apply le_n_S, members_depth_le, Forall_fmap, ordered_Forall.
    pose proof (proj1 (members_depth_le l _) (Nat.le_refl _)) as H.
    rewrite Forall_forall in *. intros [k v] Hv. apply (Nat.le_trans _ (json_depth v)); [by apply (IH (k, v))|by apply (H (k, v))].
Qed.

Lemma parse_written how numbers generator v : sane v → (json_depth v ≤ MAX_DEPTH)%nat →
  parse (write how numbers generator v) = Ok (respell how numbers v).
Proof.
  intros Hs Hd. pose proof (parse_spelt [] (respell how numbers v) (write how numbers generator v) []) as H.
  simpl in H. rewrite app_nil_r in H. apply H; [constructor|by apply write_spelt|constructor|].
  etransitivity; [apply respell_depth|done].
Qed.


