(* ===== verification/JsonCanonical.v ===== *)
(** * JsonCanonical: json_parse's text is a fixed point (src/transform/jsonval.rs)

    What [json_parse] stores is the value with its keys in Java's order and its numbers spelt
    by [BigDecimal]; reading and storing that again changes nothing. *)

From Stdlib Require Import ZArith Lia.
From stdpp Require Import base list strings sorting.
From S2P Require Import Prelude JsonText JsonGrammar JsonNumber JsonWrite.

Open Scope N_scope.
Open Scope ddi_scope.

(** ** Java's order of strings *)

Lemma list_cmp_eq a b : list_cmp a b = Eq → a = b.
Proof.
  revert b. induction a as [|x a IH]; intros [|y b]; simpl; try done.
  destruct (N.compare_spec x y) as [->| |]; try done. by intros ->%IH.
Qed.
Lemma list_cmp_antisym a b : list_cmp b a = CompOpp (list_cmp a b).
Proof.
  revert b. induction a as [|x a IH]; intros [|y b]; simpl; try done.
  rewrite (N.compare_antisym x y). by destruct (x ?= y); simpl.
Qed.
Lemma list_cmp_trans a b c : list_cmp a b ≠ Gt → list_cmp b c ≠ Gt → list_cmp a c ≠ Gt.
Proof.
  revert b c. induction a as [|x a IH]; intros [|y b] [|z c]; simpl; try done.
  destruct (N.compare_spec x y), (N.compare_spec y z), (N.compare_spec x z); subst; try done; try lia. apply IH.
Qed.

(** A text is known from its UTF-16 units. *)
Lemma utf16_shape c : scalar c →
  utf16 c = [c] ∧ is_high c = false ∨
  ∃ h l, utf16 c = [h; l] ∧ is_high h = true ∧ pair_of h l = c.
Proof.
  intros Hc. unfold utf16. destruct (N.ltb_spec c 0x10000).
  - left. split; [done|]. unfold is_high. rewrite andb_false_iff, N.leb_gt, N.ltb_ge. destruct Hc; lia.
  - right. destruct (utf16_pair c) as (Hh & _ & Hp & _ & _); [lia|destruct Hc as [?|[_ ?]]; lia|]. eauto.
Qed.

Lemma encode_utf16_inj a b : Forall scalar a → Forall scalar b → encode_utf16 a = encode_utf16 b → a = b.
Proof.
  intros Ha. revert b. induction Ha as [|c a Hc Ha IH]; intros b Hb.
  - destruct Hb as [|d b Hd _]; [done|]. unfold encode_utf16. simpl.
    destruct (utf16_shape d Hd) as [[-> _]|(h & l & -> & _)]; done.
  - destruct Hb as [|d b Hd Hb]; unfold encode_utf16; simpl;
      destruct (utf16_shape c Hc) as [[-> H1]|(h & l & -> & H1 & <-)]; try done;
      destruct (utf16_shape d Hd) as [[-> H2]|(h' & l' & -> & H2 & <-)]; simpl; intros E; simplify_eq;
      try congruence; by rewrite (IH b).
Qed.

#[export] Instance key_le_trans {A} : Transitive (@key_le A).
Proof. intros a b c. apply list_cmp_trans. Qed.
#[export] Instance key_le_total {A} : Total (@key_le A).
Proof.
  intros a b. unfold key_le, java_string_cmp. rewrite (list_cmp_antisym (encode_utf16 a.1)).
  destruct (list_cmp _ _); simpl; [left|left|right]; done.
Qed.

Lemma key_le_antisym {A} (a b : text * A) : Forall scalar a.1 → Forall scalar b.1 →
  key_le a b → key_le b a → a.1 = b.1.
Proof.
  unfold key_le, java_string_cmp. rewrite (list_cmp_antisym (encode_utf16 a.1)). intros Ha Hb H1 H2.
  apply encode_utf16_inj; [done..|]. apply list_cmp_eq. by destruct (list_cmp _ _).
Qed.

(** ** Members put in order twice *)

Section Twice.
Context {A : Type}.
Implicit Types l : list (text * A).

Lemma put_keys k (v : A) l : (put k v l).*1 = if bool_decide (k ∈ l.*1) then l.*1 else l.*1 ++ [k].
Proof.
  induction l as [|[k' v'] l IH]; [done|]. simpl put. destruct (decide (k' = k)) as [->|Hk].
  - rewrite bool_decide_true by done. simpl. by rewrite bool_decide_true by constructor.
  - rewrite bool_decide_false by done. csimpl. rewrite IH.
    destruct (decide (k ∈ l.*1)) as [Hin|Hin].
    + rewrite !bool_decide_true; [done|by apply elem_of_cons; right|done].
    + rewrite !bool_decide_false; [done|by rewrite elem_of_cons; intros [->|?]|done].
Qed.

Lemma dedup_NoDup l : NoDup (dedup l).*1.
Proof.
  unfold dedup. assert (H : ∀ seen : list (text * A), NoDup seen.*1 →
    NoDup (fold_left (λ seen '(k, v), put k v seen) l seen).*1); [|by apply H; constructor].
  induction l as [|[k v] l IH]; intros seen Hs; [done|]. simpl. apply IH. rewrite put_keys.
  case_bool_decide; [done|]. apply NoDup_app. split; [done|]. split; [|apply NoDup_singleton].
  intros x Hx ->%list_elem_of_singleton. done.
Qed.

Lemma put_new k (v : A) l : k ∉ l.*1 → put k v l = l ++ [(k, v)].
Proof.
  induction l as [|[k' v'] l IH]; simpl; [done|]. rewrite not_elem_of_cons. intros [Hk Hl].
  rewrite bool_decide_false by done. by rewrite IH.
Qed.

Lemma dedup_id l : NoDup l.*1 → dedup l = l.
Proof.
  unfold dedup. assert (H : ∀ seen, NoDup (seen ++ l).*1 →
    fold_left (λ seen '(k, v), put k v seen) l seen = seen ++ l); [|by apply (H [])].
  induction l as [|[k v] l IH]; intros seen Hs; simpl; [by rewrite app_nil_r|].
  rewrite put_new; [rewrite IH|]; rewrite <-?app_assoc; simpl; [done|done|].
  rewrite fmap_app, NoDup_app in Hs. destruct Hs as (_ & H & _). intros Hk. apply (H k Hk). constructor.
Qed.

Lemma sorted_unique l1 l2 : Forall (λ m, Forall scalar m.1) l1 → NoDup l1.*1 →
  Sorted.Sorted key_le l1 → Sorted.Sorted key_le l2 → l1 ≡ₚ l2 → l1 = l2.
Proof.
  intros Hs Hn H1 H2 Hp. apply (StronglySorted_unique_strong key_le); [|by apply Sorted_StronglySorted; [apply _|]..|done].
  intros a b Ha Hb Hab Hba. rewrite <-Hp in Hb. rewrite Forall_forall in Hs.
  assert (E : a.1 = b.1) by (apply key_le_antisym; auto).
  apply list_elem_of_lookup_1 in Ha as [i Hi]. apply list_elem_of_lookup_1 in Hb as [j Hj].
  assert (i = j) as ->.
  { eapply NoDup_lookup; [exact Hn|rewrite list_lookup_fmap, Hi; simpl; by rewrite E|by rewrite list_lookup_fmap, Hj]. }
  congruence.
Qed.

Lemma ordered_twice how l : Forall (λ m, Forall scalar m.1) l → ordered how (ordered how l) = ordered how l.
Proof.
  intros Hl. destruct how; simpl; [done|apply dedup_id, dedup_NoDup|].
  assert (Hn : NoDup (merge_sort key_le (dedup l)).*1).
  { eapply NoDup_Permutation_proper; [|apply dedup_NoDup]. by rewrite merge_sort_Permutation. }
  rewrite dedup_id by done. symmetry. apply sorted_unique; [by apply (ordered_Forall Sorted)|done|..].
  - apply Sorted_merge_sort. apply _.
  - apply Sorted_merge_sort. apply _.
  - symmetry. apply merge_sort_Permutation.
Qed.
End Twice.

Lemma write_respell how generator v : sane v →
  write how BigDecimal generator (respell how BigDecimal v) = write how BigDecimal generator v.
Proof.
  induction v as [|b|n|s|l IH|l IH] using Json_nested_ind; intros Hv; inversion Hv; subst; try done; cbn [write respell].
  - by apply number_text_twice.
  - assert (write how BigDecimal generator <$> (respell how BigDecimal <$> l) =
            write how BigDecimal generator <$> l) as ->; [|done].
    rewrite <-list_fmap_compose. apply Forall_fmap_ext_1. rewrite Forall_forall in *. simpl. auto.
  - rewrite <-!(ordered_fmap (write how BigDecimal generator)), <-(ordered_fmap (respell how BigDecimal)).
    set (w := λ '(k, v), (k, write how BigDecimal generator v)).
    set (r := λ '(k, v), (k, respell how BigDecimal v)).
    assert (w <$> ordered how (r <$> ordered how l) = w <$> ordered how l) as ->; [|done].
    rewrite <-(ordered_fmap (respell how BigDecimal)), ordered_twice, <-list_fmap_compose
      by (eapply Forall_impl; [done|]; by intros ? [? _]).
    apply Forall_fmap_ext_1, ordered_Forall. rewrite Forall_forall in *. intros [k v] Hm. simpl. f_equal.
    apply (IH (k, v)); [done|]. by apply (H0 (k, v)).
Qed.

(** [json_parse] of one text: what it stores. *)
Definition json_parse (t : text) : result string text :=
  let? v := parse t in Ok (write Sorted BigDecimal Utf8 v).

(** What [json_parse] stores of a text is its own [json_parse]: the keys are already in
    Java's order, once each with the last value, and every number is spelt as it would be
    spelt again, the trailing zeros of a decimal and the scale of its exponent kept. *)
Theorem json_parse_is_idempotent t t' :
  Forall scalar t → json_parse t = Ok t' → json_parse t' = Ok t'.
Proof.
  unfold json_parse. intros Ht. destruct (parse t) as [v|] eqn:Ev; [|done]. intros [= <-].
  destruct (parse_sane t v Ht Ev) as [Hs Hd]. rewrite (parse_written Sorted BigDecimal Utf8 v Hs Hd).
  simpl. by rewrite write_respell.
Qed.

Lemma json_parse_is_idempotent_witness :
  let t := q "{'b': 1.10, 'a': [1e2, {'y': 1, 'x': null}], 'b': 0.0000001}" in
  let t' := q "{'a':[1E+2,{'x':null,'y':1}],'b':1E-7}" in
  json_parse t = Ok t' ∧ json_parse t' = Ok t'.
Proof.
  intros t t'. assert (H : json_parse t = Ok t') by (vm_compute; reflexivity). split; [exact H|].
  apply (json_parse_is_idempotent t t'); [by apply (bool_decide_unpack _); vm_compute|exact H].
Defined.
