(* ===== verification/JsonPath.v ===== *)
(** * JsonPath: Trino's JSON functions (src/transform/json.rs)

    A path is parsed to its steps and followed through a value; each function answers, for a
    row, from the value its first argument is.  The rows come as the texts Arrow's cast makes
    of the arguments, a null row as [None]. *)

From Stdlib Require Import ZArith Lia.
From stdpp Require Import base list strings sorting.
From S2P Require Import Prelude JsonText JsonGrammar JsonNumber JsonWrite JsonCanonical.

Open Scope N_scope.
Open Scope ddi_scope.

(** ** Paths *)

Inductive Step := Field (name : text) | Index (n : nat).

#[export] Instance Step_eq_dec : EqDecision Step.
Proof. solve_decision. Defined.

(** What is before the first character of a set, and what is from there. *)
Fixpoint until (p : N → bool) (s : text) : text * text :=
  match s with
  | [] => ([], [])
  | c :: s' => if p c then ([], s) else let '(a, r) := until p s' in (c :: a, r)
  end.

Definition star (c : N) : bool := c =? 42.
(** A name without quotes goes to the next step. *)
Definition ends_name (c : N) : bool := (c =? 46) || (c =? 91).

(** [char::is_whitespace] *)
Definition is_whitespace (c : N) : bool :=
  (9 <=? c) && (c <=? 13) || existsb (N.eqb c) [0x20; 0x85; 0xA0; 0x1680; 0x2028; 0x2029; 0x202F; 0x205F; 0x3000]
  || (0x2000 <=? c) && (c <=? 0x200A).
Fixpoint trim_start (s : text) : text :=
  match s with c :: s' => if is_whitespace c then trim_start s' else s | [] => [] end.
Definition trim (s : text) : text := rev (trim_start (rev (trim_start s))).

(** [str::parse] of a [usize] *)
Definition parse_usize (s : text) : option nat :=
  let digits := match s with c :: s' => if c =? 43 then s' else s | [] => [] end in
  match digits with
  | [] => None
  | _ => if forallb digit digits && (Z.of_N (value_of digits) <=? u64_max)%Z
         then Some (N.to_nat (value_of digits)) else None
  end.

Section Paths.
(** [char::is_alphanumeric], a table of Unicode. *)
Context (is_alphanumeric : N → bool).

(** [parse_path]'s loop: what is left of the path, the steps so far. *)
Fixpoint path_steps (fuel : nat) (s : text) (steps : list Step) : result string (list Step) :=
  match fuel with
  | O => Err "out of fuel"%string
  | S fuel =>
      match s with
      | [] => Ok steps
      | c :: s' =>
          if c =? 46 then
            let '(name, r) := until ends_name s' in
            match name with
            | [] => Err "empty field name after '.'"%string
            | _ => if existsb star name then Err "wildcards are not supported"%string
                   else path_steps fuel r (steps ++ [Field name])
            end
          else if c =? 91 then
            match s' with
            | quote :: s'' =>
                if (quote =? 34) || (quote =? 39) then
                  let '(name, r) := until (N.eqb quote) s'' in
                  match drop 1 r with
                  | c' :: r => if c' =? 93 then path_steps fuel r (steps ++ [Field name])
                               else Err "unterminated ["%string
                  | [] => Err "unterminated ["%string
                  end
                else
                  let '(raw, r) := until (N.eqb 93) s' in
                  match r with
                  | [] => Err "unterminated ["%string
                  | _ :: r =>
                      if existsb star raw then Err "wildcards are not supported"%string
                      else match parse_usize (trim raw) with
                           | None => Err "not an array index"%string
                           | Some n => path_steps fuel r (steps ++ [Index n])
                           end
                  end
            | [] => Err "unterminated ["%string
            end
          else if bool_decide (steps = []) && (is_alphanumeric c || (c =? 95)) then
            let '(name, r) := until ends_name s in path_steps fuel r (steps ++ [Field name])
          else Err "unexpected character"%string
      end
  end.

(** [parse_path] *)
Definition parse_path (path : text) : result string (list Step) :=
  let s := match path with c :: s => if c =? 36 then s else path | [] => [] end in
  path_steps (S (length s)) s [].
End Paths.

(** [resolve] *)
Fixpoint resolve (doc : Json) (steps : list Step) : option Json :=
  match steps with
  | [] => Some doc
  | s :: steps =>
      cur ← match s with Field f => get f doc | Index n => index n doc end;
      resolve cur steps
  end.

(** ** The functions *)

Definition extract_text (v : Json) : text := write Verbatim JavaDouble Utf8 v.
Definition query_text (v : Json) : text := write LastWins JavaDouble Utf8 v.
Definition tree_text (v : Json) : text := write LastWins JavaDouble Chars v.

Inductive Kind :=
  | Extract | ExtractScalar | Query | Size | ArrayLength | ArrayContains | ArrayGet | Format
  | Parse | IsScalar | Exists | ArrayElements.

#[export] Instance Kind_eq_dec : EqDecision Kind.
Proof. solve_decision. Defined.

Definition arity (k : Kind) : nat :=
  match k with ArrayLength | Format | Parse | IsScalar | ArrayElements => 1 | _ => 2 end.

(** The Arrow type of a result: a [List] is one of texts. *)
Inductive DataType := Int64 | Boolean | List | Utf8Text.
Definition return_type (k : Kind) : DataType :=
  match k with
  | Size | ArrayLength => Int64
  | ArrayContains | IsScalar | Exists => Boolean
  | ArrayElements => List
  | _ => Utf8Text
  end.

Inductive Marker := Typed | Formatted.
Definition marker_value (m : Marker) : string := match m with Typed => "typed" | Formatted => "formatted" end.
(** [return_field_from_args]: the marker on the result's field. *)
Definition return_marker (k : Kind) : option Marker :=
  match k with Extract | ArrayGet | Parse => Some Typed | _ => None end.

Definition FUNCTIONS : list (string * Kind) :=
  [("json_extract", Extract); ("json_extract_scalar", ExtractScalar); ("json_size", Size);
   ("json_array_length", ArrayLength); ("json_array_contains", ArrayContains);
   ("json_array_get", ArrayGet); ("json_format", Format); ("json_parse", Parse);
   ("is_json_scalar", IsScalar); ("json_value", ExtractScalar); ("json_query", Query);
   ("json_exists", Exists); ("json_array_elements", ArrayElements);
   ("json_extract_string", ExtractScalar); ("get_json_object", ExtractScalar)]%string.
Definition names : list string := fst <$> FUNCTIONS.

(** A row of the result, null being [None] in each. *)
Inductive Cell :=
  | C_Text (t : option text)
  | C_Num (n : option Z)
  | C_Bool (b : option bool)
  | C_List (l : option (list (option text))).

Definition null_cell (t : DataType) : Cell :=
  match t with Int64 => C_Num None | Boolean => C_Bool None | List => C_List None | Utf8Text => C_Text None end.

(** The elements of [json_array_elements], each its JSON text. *)
Definition elements (doc : Json) : option (list (option text)) :=
  (λ a : list Json, (λ v, Some (tree_text v)) <$> a) <$> as_items doc.

(** [json_array_get]: the element, a negative index from the end. *)
Definition array_get (doc : Json) (idx : text) : option Json :=
  a ← as_items doc;
  n ← parse_int i64_min i64_max (trim idx);
  let pos := if (n <? 0)%Z then (Z.of_nat (length a) + n)%Z else n in
  if (pos <? 0)%Z then None else a !! Z.to_nat pos.
Definition get_text (v : Json) : option text :=
  match v with
  | J_Null => None
  | J_String s => Some s
  | J_Bool _ | J_Number _ => scalar_text v
  | J_Array _ | J_Object _ => Some (tree_text v)
  end.

Section Invoke.
Context (is_alphanumeric : N → bool).

(** The functions that follow a path. *)
Definition found_cell (k : Kind) (found : option Json) : Cell :=
  match k with
  | Query => C_Text (query_text <$> found)
  | ExtractScalar => C_Text (found ≫= scalar_text)
  | Size => C_Num ((λ v, Z.of_nat (json_size v)) <$> found)
  | Exists => C_Bool (Some (match found with Some _ => true | None => false end))
  | _ => C_Text (extract_text <$> found)
  end.

(** One row of [invoke_with_args], its arguments not null. *)
Definition answer (k : Kind) (raw arg2 : text) : result string Cell :=
  match parse raw with
  | Err e => Err e
  | Ok doc =>
      match k with
      | Parse => Ok (C_Text (Some (write Sorted BigDecimal Utf8 doc)))
      | Format => Ok (C_Text (Some raw))
      | IsScalar => Ok (C_Bool (Some (negb (is_container doc))))
      | ArrayLength => Ok (C_Num ((λ a, Z.of_nat (length a)) <$> as_items doc))
      | ArrayElements => Ok (C_List (elements doc))
      | ArrayContains =>
          let want := match parse arg2 with Ok v => v | Err _ => J_String arg2 end in
          Ok (C_Bool ((λ a, existsb (λ v, same_value v want) a) <$> as_items doc))
      | ArrayGet => Ok (C_Text (array_get doc arg2 ≫= get_text))
      | _ =>
          let? steps := parse_path is_alphanumeric arg2 in
          Ok (found_cell k (resolve doc steps))
      end
  end.

Definition row (k : Kind) (doc second : option text) : result string Cell :=
  match doc with
  | None => Ok (null_cell (return_type k))
  | Some raw =>
      match arity k, second with
      | 1%nat, _ => answer k raw []
      | _, None => Ok (null_cell (return_type k))
      | _, Some arg2 => answer k raw arg2
      end
  end.

(** [invoke_with_args] *)
Fixpoint invoke (k : Kind) (rows : list (option text * option text)) : result string (list Cell) :=
  match rows with
  | [] => Ok []
  | (doc, second) :: rows =>
      let? c := row k doc second in
      let? cs := invoke k rows in
      Ok (c :: cs)
  end.
End Invoke.

Example paths :
  parse_path (λ _, false) (chars "$.a.b[2][ 7 ]['x.y']") =
    Ok [Field (chars "a"); Field (chars "b"); Index 2; Index 7; Field (chars "x.y")] ∧
  parse_path (λ _, false) (chars "$.a[*]") = Err "wildcards are not supported"%string ∧
  parse_path (λ c, c =? 97) (chars "a.b") = Ok [Field (chars "a"); Field (chars "b")] ∧
  parse_path (λ c, c =? 97) (chars "$.b[") = Err "unterminated ["%string.
Proof. vm_compute. done. Qed.

Example extracts :
  invoke (λ _, false) Extract [(Some (q "{'c':{'n': 1.10, 'n':[null]}}"), Some (chars "$.c"));
                               (None, Some (chars "$")); (Some (chars "1"), Some (chars "$.z"))] =
    Ok [C_Text (Some (q "{'n':1.1,'n':[null]}")); C_Text None; C_Text None] ∧
  invoke (λ _, false) ArrayGet [(Some (q "[1,'a',{'k':2e1}]"), Some (chars " -1 "))] =
    Ok [C_Text (Some (q "{'k':20.0}"))] ∧
  invoke (λ _, false) ArrayContains [(Some (q "[1,'a',{'k':2e1}]"), Some (q "{'k':20}"))] =
    Ok [C_Bool (Some true)].
Proof. vm_compute. done. Qed.

(** ** Paths are read as they are spelt *)

Inductive spells_step : Step → text → Prop :=
  | step_dot name :
      name ≠ [] → Forall (λ c, ends_name c = false) name → existsb star name = false →
      spells_step (Field name) (46 :: name)
  | step_quoted quote name :
      quote = 34 ∨ quote = 39 → Forall (λ c, (quote =? c) = false) name →
      spells_step (Field name) (91 :: quote :: name ++ [quote; 93])
  | step_index w d w' :
      Forall (λ c, is_ws c = true) (w ++ w') → digits d → (Z.of_N (value_of d) ≤ u64_max)%Z →
      spells_step (Index (N.to_nat (value_of d))) (91 :: w ++ d ++ w' ++ [93]).

Lemma until_stop p a r : Forall (λ c, p c = false) a →
  match r with c :: _ => p c = true | [] => True end → until p (a ++ r) = (a, r).
Proof.
  intros Ha Hr. induction Ha as [|c a Hc _ IH]; simpl; [|by rewrite Hc, IH].
  destruct r as [|c r]; [done|]. simpl. by rewrite Hr.
Qed.

(** The next step starts with a point or a bracket. *)
Lemma steps_head steps ts : Forall2 spells_step steps ts →
  match mjoin ts with c :: _ => ends_name c = true | [] => True end.
Proof. intros [|s t steps' ts' [| |] _]; done. Qed.

Lemma is_ws_whitespace c : is_ws c = true → is_whitespace c = true.
Proof. unfold is_ws. rewrite !orb_true_iff, !N.eqb_eq. intros [[[->| ->]| ->]| ->]; done. Qed.
Lemma digit_not_whitespace c : digit c = true → is_whitespace c = false.
Proof.
  unfold digit. rewrite andb_true_iff, !N.leb_le. intros [H1 H2]. unfold is_whitespace. simpl existsb.
  rewrite !orb_false_iff, !andb_false_iff, !N.eqb_neq, !N.leb_gt. lia.
Qed.

Lemma trim_start_ws w s : Forall (λ c, is_ws c = true) w → trim_start (w ++ s) = trim_start s.
Proof. induction 1 as [|c w Hc _ IH]; simpl; [done|]. by rewrite is_ws_whitespace. Qed.
Lemma trim_start_digits d s : digits d → trim_start (d ++ s) = d ++ s.
Proof.
  intros [Hn Hd]. destruct d as [|c d]; [done|]. inversion Hd; subst. simpl. by rewrite digit_not_whitespace.
Qed.
Lemma digits_rev d : digits d → digits (rev d).
Proof.
  intros [Hn Hd]. split; [|by apply Forall_rev]. intros E. apply Hn. rewrite <-(rev_involutive d), E. done.
Qed.
Lemma trim_digits w d w' : Forall (λ c, is_ws c = true) (w ++ w') → digits d → trim (w ++ d ++ w') = d.
Proof.
  intros [Hw Hw']%Forall_app Hd. unfold trim. rewrite trim_start_ws, trim_start_digits by done.
  rewrite rev_app_distr, trim_start_ws by by apply Forall_rev.
  pose proof (trim_start_digits (rev d) [] (digits_rev d Hd)) as E. rewrite app_nil_r in E.
  by rewrite E, rev_involutive.
Qed.

Lemma parse_usize_digits d : digits d → (Z.of_N (value_of d) ≤ u64_max)%Z →
  parse_usize d = Some (N.to_nat (value_of d)).
Proof.
  intros [Hn Hd] Hb. unfold parse_usize. pose proof (digits_forallb d Hd) as Hall.
  destruct d as [|c d]; [done|]. inversion Hd; subst. rewrite (proj2 (N.eqb_neq c 43)) by (by eapply digit_not).
  rewrite Hall. by rewrite (proj2 (Z.leb_le _ _)).
Qed.

(** White space, digits and quotes are not what ends an index. *)
Lemma index_body w d w' : Forall (λ c, is_ws c = true) (w ++ w') → digits d →
  Forall (λ c, (93 =? c) = false) (w ++ d ++ w') ∧ existsb star (w ++ d ++ w') = false ∧
  ∃ c r, w ++ d ++ w' = c :: r ∧ (c =? 34) || (c =? 39) = false.
Proof.
  intros [Hw Hw']%Forall_app [Hn Hd].
  assert (H : Forall (λ c, (93 =? c) = false ∧ star c = false ∧ (c =? 34) || (c =? 39) = false) (w ++ d ++ w')).
  { rewrite !Forall_app. split; [|split]; (eapply Forall_impl; [eassumption|]); intros c Hc; simpl in Hc; unfold star.
    1, 3: unfold is_ws in Hc; rewrite !orb_true_iff, !N.eqb_eq in Hc; destruct Hc as [[[->| ->]| ->]| ->]; done.
    unfold digit in Hc. rewrite andb_true_iff, !N.leb_le in Hc. rewrite orb_false_iff, !N.eqb_neq. lia. }
  split; [eapply Forall_impl; [exact H|]; by intros c (? & _)|]. split.
  - clear - H. induction H as [|c l (_ & Hc & _) _ IH]; [done|]. simpl. by rewrite Hc.
  - destruct (w ++ d ++ w') as [|c r] eqn:E; [apply app_eq_nil in E as [_ E]; apply app_eq_nil in E as [E _]; done|].
    inversion H as [|? ? (_ & _ & Hc) _]; subst. by exists c, r.
Qed.

Lemma path_steps_spelt al steps ts : Forall2 spells_step steps ts →
  ∀ fuel before, (length (mjoin ts) < fuel)%nat → path_steps al fuel (mjoin ts) before = Ok (before ++ steps).
Proof.
  induction 1 as [|s t steps ts Hs Hts IH]; intros fuel before Hf.
  - destruct fuel; [simpl in Hf; lia|]. simpl. by rewrite app_nil_r.
  - destruct fuel as [|fuel]; [simpl in Hf; lia|]. simpl mjoin in *. rewrite length_app in Hf.
    pose proof (steps_head _ _ Hts) as Hh.
    replace (before ++ s :: steps) with ((before ++ [s]) ++ steps) by (by rewrite <-app_assoc).
    destruct Hs as [name Hn Hname Hstar|quote name Hq Hname|w d w' Hw Hd Hb]; cbn [path_steps app].
    + rewrite N.eqb_refl. rewrite (until_stop ends_name name) by done.
      destruct name as [|c name]; [done|]. rewrite Hstar. apply IH. simpl in Hf. lia.
    + change (91 =? 46) with false. change (91 =? 91) with true. cbn iota.
      assert ((quote =? 34) || (quote =? 39) = true) as -> by (destruct Hq as [->| ->]; done).
      rewrite <-app_assoc. rewrite (until_stop (N.eqb quote) name) by (try done; simpl; apply N.eqb_refl).
      simpl. apply IH. simpl in Hf. rewrite length_app in Hf. lia.
    + change (91 =? 46) with false. change (91 =? 91) with true. cbn iota.
      destruct (index_body w d w' Hw Hd) as (H1 & H2 & c & r & E & Hc).
      assert (Ht : (w ++ d ++ w' ++ [93]) ++ mjoin ts = (w ++ d ++ w') ++ 93 :: mjoin ts) by (by rewrite <-!app_assoc).
      rewrite Ht. rewrite E at 1. cbn [app]. rewrite Hc.
      rewrite (until_stop (N.eqb 93)) by done. rewrite H2, trim_digits by done.
      rewrite parse_usize_digits by done. apply IH. simpl in Hf. rewrite !length_app in Hf. lia.
Qed.

(** A path is read as it is spelt: members by name or in quotes, elements by an index with
    white space around it, whatever the table of letters is. *)
Theorem a_path_is_read_as_it_is_spelt al steps ts :
  Forall2 spells_step steps ts → parse_path al (36 :: mjoin ts) = Ok steps.
Proof. intros H. apply (path_steps_spelt al steps ts H (S (length (mjoin ts))) []). lia. Qed.

(** ** The type of a result *)

Definition cell_type (c : Cell) : DataType :=
  match c with C_Text _ => Utf8Text | C_Num _ => Int64 | C_Bool _ => Boolean | C_List _ => List end.

Lemma answer_type al k raw arg2 c : answer al k raw arg2 = Ok c → cell_type c = return_type k.
Proof.
  unfold answer. destruct (parse raw) as [doc|]; [|done].
  destruct k; try (by intros [= <-]); (destruct (parse_path al arg2); [|done]); by intros [= <-].
Qed.

Lemma row_type al k doc second c : row al k doc second = Ok c → cell_type c = return_type k.
Proof.
  assert (Hnull : cell_type (null_cell (return_type k)) = return_type k) by by destruct (return_type k).
  unfold row. destruct doc as [raw|]; [|by intros [= <-]].
  destruct (arity k) as [|[|n]], second; try (by intros [= <-]); apply answer_type.
Qed.



(** ** What a path finds in a text that was written *)

Definition last_of {A} (key : text) (l : list (text * A)) : option A :=
  snd <$> List.find (λ m, bool_decide (m.1 = key)) (rev l).

Lemma last_of_snoc {A} key k (v : A) l :
  last_of key (l ++ [(k, v)]) = if bool_decide (k = key) then Some v else last_of key l.
Proof. unfold last_of. rewrite rev_app_distr. simpl. by destruct (bool_decide (k = key)). Qed.

Lemma last_of_In {A} key (l : list (text * A)) v : NoDup l.*1 → last_of key l = Some v ↔ (key, v) ∈ l.
Proof.
  induction l as [|[k x] l IH] using rev_ind; intros Hn; [split; [done|by intros ?%elem_of_nil]|].
  rewrite last_of_snoc, elem_of_app, list_elem_of_singleton. rewrite fmap_app, NoDup_app in Hn.
  destruct Hn as (Hn & Hd & _). case_bool_decide as E.
  - subst k. split; [intros [= <-]; by right|]. intros [H|[= ->]]; [|done].
    exfalso. apply (Hd key); [by apply (list_elem_of_fmap_2 fst l (key, v))|constructor].
  - rewrite IH by done. split; [auto|]. intros [H|[= -> ->]]; done.
Qed.

Lemma find_app {A} (p : A → bool) l1 l2 :
  List.find p (l1 ++ l2) = match List.find p l1 with Some x => Some x | None => List.find p l2 end.
Proof. induction l1 as [|x l1 IH]; simpl; [done|]. by destruct (p x). Qed.

Lemma last_of_cons {A} key k (v : A) l :
  last_of key ((k, v) :: l) =
  match last_of key l with Some x => Some x | None => if bool_decide (k = key) then Some v else None end.
Proof.
  unfold last_of. simpl. rewrite find_app. destruct (List.find _ (rev l)); [done|]. simpl.
  by destruct (bool_decide (k = key)).
Qed.

Lemma last_of_put {A} key k (v : A) l : NoDup l.*1 →
  last_of key (put k v l) = if bool_decide (k = key) then Some v else last_of key l.
Proof.
  induction l as [|[k' x] l IH]; intros Hn; [apply (last_of_snoc key k v [])|].
  apply NoDup_cons in Hn as [Hk Hn]. simpl put. destruct (decide (k' = k)) as [->|Hne].
  - rewrite bool_decide_true by done. rewrite !last_of_cons. case_bool_decide; [|done]. subst k.
    destruct (last_of key l) as [y|] eqn:E; [|done]. apply last_of_In in E; [|done].
    destruct Hk. by apply (list_elem_of_fmap_2 fst l (key, y)).
  - rewrite bool_decide_false by done. rewrite !last_of_cons, IH by done. by repeat case_bool_decide.
Qed.

Lemma last_of_dedup {A} key (l : list (text * A)) : last_of key (dedup l) = last_of key l.
Proof.
  induction l as [|[k v] l IH] using rev_ind; [done|].
  assert (E : dedup (l ++ [(k, v)]) = put k v (dedup l)) by (unfold dedup; by rewrite fold_left_app).
  rewrite E, last_of_put, last_of_snoc, IH by apply dedup_NoDup. done.
Qed.

(** A key's last value is the same in every order of the members. *)
Lemma last_of_ordered {A} how key (l : list (text * A)) : last_of key (ordered how l) = last_of key l.
Proof.
  destruct how; simpl; [done|apply last_of_dedup|]. rewrite <-(last_of_dedup key l). apply option_eq. intros v.
  rewrite !last_of_In; [by rewrite merge_sort_Permutation|apply dedup_NoDup|].
  eapply NoDup_Permutation_proper; [by rewrite merge_sort_Permutation|apply dedup_NoDup].
Qed.

Lemma last_of_fmap {A B} (f : A → B) key l :
  last_of key ((λ '(k, v), (k, f v)) <$> l) = f <$> last_of key l.
Proof.
  induction l as [|[k v] l IH] using rev_ind; [done|]. rewrite fmap_app. simpl.
  rewrite !last_of_snoc, IH. by case_bool_decide.
Qed.

Lemma resolve_respell how numbers v steps :
  resolve (respell how numbers v) steps = respell how numbers <$> resolve v steps.
Proof.
  revert v. induction steps as [|s steps IH]; intros v; [done|]. simpl.
  assert (E : match s with Field f => get f (respell how numbers v) | Index n => index n (respell how numbers v) end =
    respell how numbers <$> match s with Field f => get f v | Index n => index n v end).
  { destruct s as [f|n], v; try done.
    - simpl respell. change (last_of f (ordered how ((λ '(k, v), (k, respell how numbers v)) <$> members)) =
        respell how numbers <$> last_of f members). by rewrite last_of_ordered, last_of_fmap.
    - unfold index. simpl. by rewrite list_lookup_fmap. }
  rewrite E. destruct (match s with Field f => get f v | Index n => index n v end); [apply IH|done].
Qed.

(** Following a path after a text was parsed and written again, whatever the writer's order
    of members, finds what it finds in the text itself, respelled: no path appears, none is
    lost, and a repeated key answers its last value in both. So the functions compose: what is
    extracted from [json_parse]'s result, or from another extraction, is what is extracted from
    the payload. *)
Theorem a_path_finds_the_same_after_a_rewrite how numbers generator t v steps :
  Forall scalar t → parse t = Ok v →
  ∃ v', parse (write how numbers generator v) = Ok v' ∧
        resolve v' steps = respell how numbers <$> resolve v steps.
Proof.
  intros Ht Hp. destruct (parse_sane t v Ht Hp) as [Hs Hd].
  eexists. split; [by apply parse_written|apply resolve_respell].
Qed.

Lemma a_path_finds_the_same_after_a_rewrite_witness :
  let t := q "{'b': 1.10, 'a': [1e2, {'y': 1, 'x': null}], 'b': [0.50]}" in
  ∃ v v', parse t = Ok v ∧ parse (write Sorted BigDecimal Utf8 v) = Ok v' ∧
    resolve v' [Field (chars "b"); Index 0] = Some (J_Number (chars "0.50")).
Proof.
  intros t. destruct (parse t) as [v|] eqn:E; [|by vm_compute in E].
  destruct (a_path_finds_the_same_after_a_rewrite Sorted BigDecimal Utf8 t v [Field (chars "b"); Index 0])
    as (v' & Hv & Hr); [by apply (bool_decide_unpack _); vm_compute|done|].
  exists v, v'. split; [done|]. split; [done|]. rewrite Hr. vm_compute in E. injection E as <-. by vm_compute.
Defined.
