(* ===== verification/JsonHash.v ===== *)
(** * JsonHash: the order of a [java.util.HashMap] (src/transform/jsonval.rs)

    The table [java_hashmap_order] builds is, after every key, the one with a chain for every
    slot that holds the keys of the slot as they came: doubling splits a chain and never joins
    two, so it can be said without the table. *)

From Stdlib Require Import ZArith Lia.
From stdpp Require Import base list.
From S2P Require Import Prelude JsonText.

Open Scope N_scope.
Open Scope ddi_scope.

Section Table.
Context (spreads : list N).

Definition slot_at (k : nat) (i : nat) : nat := slot_of (16 * 2 ^ N.of_nat k) (nth i spreads 0).
Definition slots (k : nat) : nat := N.to_nat (16 * 2 ^ N.of_nat k).

(** The chains of a table of [16 * 2 ^ k] slots that holds [l], in this order. *)
Definition chains (k : nat) (l : list nat) : list (list nat) :=
  (λ s, filter (λ i, slot_at k i = s) l) <$> seq 0 (slots k).

Lemma slot_mod k i : slot_at k i = N.to_nat (nth i spreads 0 mod (16 * 2 ^ N.of_nat k)).
Proof.
  unfold slot_at, slot_of. f_equal. change 16 with (2 ^ 4). rewrite <-N.pow_add_r.
  rewrite N.sub_1_r, <-N.ones_equiv. apply N.land_ones.
Qed.

Lemma slot_lt k i : (slot_at k i < slots k)%nat.
Proof.
  rewrite slot_mod. unfold slots. assert (H : 16 * 2 ^ N.of_nat k ≠ 0) by (pose proof (N.pow_nonzero 2 (N.of_nat k)); lia).
  pose proof (N.mod_lt (nth i spreads 0) _ H). lia.
Qed.

(** A slot of the doubled table tells the one before. *)
Lemma slot_before k i : slot_at k i = N.to_nat (N.of_nat (slot_at (S k) i) mod (16 * 2 ^ N.of_nat k)).
Proof.
  rewrite !slot_mod, N2Nat.id. f_equal. rewrite Nat2N.inj_succ, N.pow_succ_r'.
  set (c := 16 * 2 ^ N.of_nat k). replace (16 * (2 * 2 ^ N.of_nat k)) with (c * 2) by (unfold c; lia).
  rewrite N.Div0.mod_mul_r. rewrite N.mul_comm, N.Div0.mod_add. symmetry. apply N.Div0.mod_mod.
Qed.

Lemma chains_nil k : chains k [] = replicate (slots k) [].
Proof.
  unfold chains. apply list_eq. intros s. rewrite list_lookup_fmap.
  destruct (decide (s < slots k)%nat) as [H|H].
  - rewrite lookup_seq_lt by done. symmetry. by apply lookup_replicate_2.
  - rewrite lookup_seq_ge by lia. symmetry. apply lookup_replicate_None. lia.
Qed.

Lemma push_chains k l i : push_slot (slot_at k i) i (chains k l) = chains k (l ++ [i]).
Proof.
  unfold push_slot, chains. apply list_eq. intros s. destruct (decide (slot_at k i = s)) as [<-|Hs].
  - rewrite list_lookup_alter_eq, !list_lookup_fmap, lookup_seq_lt by apply slot_lt. simpl.
    by rewrite filter_app, filter_cons_True.
  - rewrite list_lookup_alter_ne, !list_lookup_fmap by done. destruct (seq _ _ !! s) as [s'|] eqn:E; [|done].
    apply lookup_seq in E as [-> _]. simpl. by rewrite filter_app, filter_cons_False, app_nil_r.
Qed.

Lemma fold_chains k l l0 :
  fold_left (λ next i, push_slot (slot_at k i) i next) l (chains k l0) = chains k (l0 ++ l).
Proof.
  revert l0. induction l as [|i l IH]; intros l0; simpl; [by rewrite app_nil_r|].
  rewrite push_chains, IH. by rewrite <-app_assoc.
Qed.

(** All that one slot of the doubled table holds comes from one chain. *)
Lemma chains_pick k l s :
  filter (λ i, slot_at (S k) i = s) (mjoin (chains k l)) = filter (λ i, slot_at (S k) i = s) l.
Proof.
  set (s' := N.to_nat (N.of_nat s mod (16 * 2 ^ N.of_nat k))).
  assert (Hs' : (s' < slots k)%nat).
  { unfold s', slots. assert (H : 16 * 2 ^ N.of_nat k ≠ 0) by (pose proof (N.pow_nonzero 2 (N.of_nat k)); lia).
    pose proof (N.mod_lt (N.of_nat s) _ H). lia. }
  assert (Hchain : ∀ x, filter (λ i, slot_at (S k) i = s) (filter (λ i, slot_at k i = x) l) =
    if decide (x = s') then filter (λ i, slot_at (S k) i = s) l else []).
  { intros x. rewrite list_filter_filter. destruct (decide (x = s')) as [->|Hx].
    - apply list_filter_iff. intros i. split; [by intros [? _]|]. intros E. split; [done|]. unfold s'. rewrite <-E. apply slot_before.
    - induction l as [|i l IH]; [done|]. rewrite filter_cons_False; [done|]. intros [E H1]. apply Hx.
      unfold s'. rewrite <-E, <-H1. apply slot_before. }
  unfold chains. assert (H : ∀ m a, filter (λ i, slot_at (S k) i = s)
      (mjoin ((λ x, filter (λ i, slot_at k i = x) l) <$> seq a m)) =
    if decide (a ≤ s' < a + m)%nat then filter (λ i, slot_at (S k) i = s) l else []).
  { induction m as [|m IH]; intros a; simpl; [case_decide; [lia|done]|].
    rewrite filter_app, Hchain, IH. repeat case_decide; try lia; rewrite ?app_nil_r; done. }
  rewrite H. case_decide; [done|lia].
Qed.

Lemma resize_chains k l : resize spreads (chains k l, 16 * 2 ^ N.of_nat k) = (chains (S k) l, 16 * 2 ^ N.of_nat (S k)).
Proof.
  unfold resize. cbn [fst snd]. assert (E : 2 * (16 * 2 ^ N.of_nat k) = 16 * 2 ^ N.of_nat (S k))
    by (rewrite Nat2N.inj_succ, N.pow_succ_r'; lia).
  rewrite E. f_equal. fold (slots (S k)). rewrite <-(chains_nil (S k)).
  etransitivity; [apply (fold_chains (S k))|]. simpl. unfold chains. apply list_fmap_ext. intros _ s _. apply chains_pick.
Qed.

(** One more key: the table doubles once, twice or not at all, and holds what it held and the
    key. *)
Lemma put_key_chains k l i : length l = i → (N.of_nat i ≤ 16 * 2 ^ N.of_nat k * 3 / 4) →
  ∃ k', put_key spreads (chains k l, 16 * 2 ^ N.of_nat k) i = (chains k' (l ++ [i]), 16 * 2 ^ N.of_nat k') ∧
        N.of_nat (S i) ≤ 16 * 2 ^ N.of_nat k' * 3 / 4.
Proof.
  intros Hl Hi. unfold put_key. cbn [fst snd]. fold (slot_at k i). rewrite push_chains.
  assert (H : ∀ k, N.of_nat i ≤ 16 * 2 ^ N.of_nat k * 3 / 4 → ∃ k',
    (if 16 * 2 ^ N.of_nat k * 3 / 4 <? N.of_nat i + 1
     then resize spreads (chains k (l ++ [i]), 16 * 2 ^ N.of_nat k)
     else (chains k (l ++ [i]), 16 * 2 ^ N.of_nat k)) = (chains k' (l ++ [i]), 16 * 2 ^ N.of_nat k') ∧
    N.of_nat (S i) ≤ 16 * 2 ^ N.of_nat k' * 3 / 4).
  { clear. intros k Hi. destruct (N.ltb_spec (16 * 2 ^ N.of_nat k * 3 / 4) (N.of_nat i + 1)) as [Hlt|Hge].
    - exists (S k). split; [apply resize_chains|].
      replace (16 * 2 ^ N.of_nat (S k) * 3) with (2 ^ N.of_nat k * 24 * 4)
        by (rewrite Nat2N.inj_succ, N.pow_succ_r'; lia).
      replace (16 * 2 ^ N.of_nat k * 3) with (2 ^ N.of_nat k * 12 * 4) in * by lia.
      rewrite N.div_mul in * by done. pose proof (N.pow_nonzero 2 (N.of_nat k)). lia.
    - exists k. split; [done|]. lia. }
  destruct (_ && _); [|by apply H]. rewrite resize_chains. apply H.
  replace (16 * 2 ^ N.of_nat (S k) * 3) with (2 ^ N.of_nat k * 24 * 4)
    by (rewrite Nat2N.inj_succ, N.pow_succ_r'; lia).
  replace (16 * 2 ^ N.of_nat k * 3) with (2 ^ N.of_nat k * 12 * 4) in Hi by lia.
  rewrite N.div_mul in * by done. lia.
Qed.

Lemma put_keys_chains n : ∃ k,
  fold_left (put_key spreads) (seq 0 n) (replicate 16 [], 16) = (chains k (seq 0 n), 16 * 2 ^ N.of_nat k) ∧
  N.of_nat n ≤ 16 * 2 ^ N.of_nat k * 3 / 4.
Proof.
  induction n as [|n (k & E & Hn)]; [exists 0%nat; change (seq 0 0) with (@nil nat); split; [by rewrite (chains_nil 0)|done]|].
  rewrite seq_S, fold_left_app, E. simpl. apply put_key_chains; [apply length_seq|done].
Qed.

Lemma filter_below (f : nat → nat) m l :
  mjoin ((λ s, filter (λ i, f i = s) l) <$> seq 0 m) ≡ₚ filter (λ i, f i < m)%nat l.
Proof.
  induction m as [|m IH].
  - simpl. induction l as [|i l IH]; [done|]. by rewrite filter_cons_False by lia.
  - rewrite seq_S, fmap_app, join_app, IH. simpl. rewrite app_nil_r. clear IH.
    induction l as [|i l IH]; [done|]. rewrite !filter_cons. repeat case_decide; try lia; simpl; rewrite <-IH; try done.
    by rewrite Permutation_middle.
Qed.

Lemma chains_all k l : mjoin (chains k l) ≡ₚ l.
Proof.
  unfold chains. rewrite filter_below. induction l as [|i l IH]; [done|].
  rewrite filter_cons_True by apply slot_lt. by rewrite IH.
Qed.
End Table.

(** The order is that of the slots of a table of 16 slots or a doubling of it that is
    three quarters full at most, and in a slot that of the keys as they came: a key is in it
    once, and what doubles the table moves no key past another of its slot. *)
Theorem the_order_is_by_slot keys :
  let spreads := spread <$> keys in
  ∃ k, N.of_nat (length keys) ≤ 16 * 2 ^ N.of_nat k * 3 / 4 ∧
       java_hashmap_order keys =
         mjoin ((λ s, filter (λ i, slot_of (16 * 2 ^ N.of_nat k) (nth i spreads 0) = s)
                        (seq 0 (length keys))) <$> seq 0 (N.to_nat (16 * 2 ^ N.of_nat k))) ∧
       java_hashmap_order keys ≡ₚ seq 0 (length keys).
Proof.
  intros spreads. unfold java_hashmap_order. fold spreads.
  destruct (put_keys_chains spreads (length keys)) as (k & -> & Hn). exists k.
  split; [done|]. split; [done|apply chains_all].
Qed.
