(* ===== verification/Schema.v ===== *)
(** * Schema: Arrow's types, and reading a file as its table declares it (src/schema.rs)

    The types of Arrow as the program matches on them, and [read_as_declared]: a timestamp a
    file holds coarser than the table declares is widened, at any depth, and nothing else is
    touched.  Metadata of fields is left out: both the code and Arrow's casts carry it along. *)

From Stdlib Require Import ZArith Lia Ascii String.
From stdpp Require Import base list strings.
From S2P Require Import Prelude Error.

Open Scope Z_scope.
Open Scope ddi_scope.

(** ** Types *)

Inductive TimeUnit := Second | Millisecond | Microsecond | Nanosecond.
#[export] Instance TimeUnit_eq_dec : EqDecision TimeUnit.
Proof. solve_decision. Defined.

Inductive IntervalUnit := YearMonth | DayTime | MonthDayNano.
#[export] Instance IntervalUnit_eq_dec : EqDecision IntervalUnit.
Proof. solve_decision. Defined.

Record Field_ (T : Type) := mkField { f_name : string; f_type : T; f_nullable : bool }.
Arguments mkField {T}. Arguments f_name {T}. Arguments f_type {T}. Arguments f_nullable {T}.
#[export] Instance Field_eq_dec {T} `{!EqDecision T} : EqDecision (Field_ T).
Proof. solve_decision. Defined.

Inductive DataType :=
  | Null | Boolean
  | Int8 | Int16 | Int32 | Int64 | UInt8 | UInt16 | UInt32 | UInt64
  | Float16 | Float32 | Float64
  | Timestamp (unit_ : TimeUnit) (tz : option string)
  | Date32 | Date64 | Time32 (unit_ : TimeUnit) | Time64 (unit_ : TimeUnit)
  | Duration (unit_ : TimeUnit) | Interval (unit_ : IntervalUnit)
  | Binary | FixedSizeBinary (n : Z) | LargeBinary | BinaryView
  | Utf8 | LargeUtf8 | Utf8View
  | List (item : Field_ DataType) | ListView (item : Field_ DataType)
  | FixedSizeList (item : Field_ DataType) (n : Z)
  | LargeList (item : Field_ DataType) | LargeListView (item : Field_ DataType)
  | Struct (fields : list (Field_ DataType))
  | Union (fields : list (Z * Field_ DataType)) (dense : bool)
  | Dictionary (key value : DataType)
  | Decimal32 (precision scale : Z) | Decimal64 (precision scale : Z)
  | Decimal128 (precision scale : Z) | Decimal256 (precision scale : Z)
  | Map (entries : Field_ DataType) (sorted : bool)
  | RunEndEncoded (ends values : Field_ DataType).

Abbreviation Field := (Field_ DataType).
Abbreviation Schema := (list Field).

#[export] Instance DataType_eq_dec : EqDecision DataType.
Proof.
  unfold EqDecision. fix go 1. change (EqDecision DataType) in go. intros a b. unfold Decision.
  decide equality; apply decide; apply _.
Defined.

Section DataType_ind.
Context (P : DataType → Prop).
Context (Hflat : ∀ t, (match t with
  | List _ | ListView _ | FixedSizeList _ _ | LargeList _ | LargeListView _ | Struct _ | Union _ _
  | Dictionary _ _ | Map _ _ | RunEndEncoded _ _ => False | _ => True end) → P t).
Context (Hlist : ∀ f, P (f_type f) → P (List f)) (Hview : ∀ f, P (f_type f) → P (ListView f))
  (Hfixed : ∀ f n, P (f_type f) → P (FixedSizeList f n)) (Hlarge : ∀ f, P (f_type f) → P (LargeList f))
  (Hlview : ∀ f, P (f_type f) → P (LargeListView f)) (Hmap : ∀ f s, P (f_type f) → P (Map f s))
  (Hstruct : ∀ fs, Forall (λ f, P (f_type f)) fs → P (Struct fs))
  (Hunion : ∀ fs d, Forall (λ f, P (f_type f.2)) fs → P (Union fs d))
  (Hdict : ∀ k v, P k → P v → P (Dictionary k v))
  (Hrun : ∀ e v, P (f_type e) → P (f_type v) → P (RunEndEncoded e v)).
Fixpoint DataType_nested_ind (t : DataType) : P t :=
  let field (f : Field) : P (f_type f) :=
    match f return P (f_type f) with mkField n t b => DataType_nested_ind t end in
  match t with
  | List f => Hlist f (field f) | ListView f => Hview f (field f)
  | FixedSizeList f n => Hfixed f n (field f) | LargeList f => Hlarge f (field f)
  | LargeListView f => Hlview f (field f) | Map f s => Hmap f s (field f)
  | Struct fs => Hstruct fs ((fix go fs : Forall (λ f, P (f_type f)) fs :=
      match fs with [] => List.Forall_nil _ | f :: fs => List.Forall_cons _ f fs (field f) (go fs) end) fs)
  | Union fs d => Hunion fs d ((fix go fs : Forall (λ f, P (f_type f.2)) fs :=
      match fs with [] => List.Forall_nil _ | f :: fs => List.Forall_cons _ f fs (field f.2) (go fs) end) fs)
  | Dictionary k v => Hdict k v (DataType_nested_ind k) (DataType_nested_ind v)
  | RunEndEncoded e v => Hrun e v (field e) (field v)
  | t => Hflat t I
  end.
End DataType_ind.

Definition with_data_type (f : Field) (t : DataType) : Field := mkField (f_name f) t (f_nullable f).

(** [is_nested] *)
Fixpoint is_nested (t : DataType) : bool :=
  match t with
  | List _ | ListView _ | FixedSizeList _ _ | LargeList _ | LargeListView _ | Struct _ | Union _ _
  | Map _ _ => true
  | RunEndEncoded _ v => match v with mkField _ v _ => is_nested v end
  | Dictionary _ v => is_nested v
  | _ => false
  end.

(** ** What a file's types are read as *)

(** [rank] *)
Definition rank (u : TimeUnit) : Z :=
  match u with Second => 0 | Millisecond => 1 | Microsecond => 2 | Nanosecond => 3 end.

(** [to_ascii_lowercase] *)
Definition lower_ascii (c : ascii) : ascii :=
  let n := Ascii.N_of_ascii c in
  if ((65 <=? n) && (n <=? 90))%N then Ascii.ascii_of_N (n + 32) else c.
Fixpoint lower (s : string) : string :=
  match s with EmptyString => EmptyString | String c s => String (lower_ascii c) (lower s) end.

(** [is_utc] *)
Definition is_utc (tz : string) : bool :=
  bool_decide (lower tz = "utc"%string) || bool_decide (lower tz = "z"%string) ||
  bool_decide (tz = "+00:00"%string) || bool_decide (tz = "-00:00"%string) ||
  bool_decide (tz = "00:00"%string) || bool_decide (lower tz = "etc/utc"%string).

Definition field_named (name : string) (fs : Schema) : option Field :=
  List.find (λ f, bool_decide (f_name f = name)) fs.

(** [widened], and [widened_item] inside it. *)
Fixpoint widened (want have_ : DataType) {struct have_} : result string (option DataType) :=
  let item (w h : Field) : result string (option Field) :=
    match h with mkField n t b =>
      let? r := widened (f_type w) t in Ok ((λ dt, mkField n dt b) <$> r)
    end in
  if decide (want = have_) then Ok None else
  match want, have_ with
  | Timestamp wu wtz, Timestamp hu htz =>
      if rank wu <? rank hu then Ok None
      else
        match wtz, htz with
        | Some _, Some _ => Ok (Some want)
        | Some tz, None => if is_utc tz then Ok (Some want)
                           else Err "no timezone, and the declared one is not UTC"%string
        | None, None => Ok (Some want)
        | None, Some tz => if is_utc tz then Ok (Some want)
                           else Err "a wall clock is declared, and the timezone is not UTC"%string
        end
  | Struct want_fields, Struct have_fields =>
      let? r := (fix go (have_fields : Schema) : result string (bool * Schema) :=
        match have_fields with
        | [] => Ok (false, [])
        | h :: have_fields =>
            let? x := match field_named (f_name h) want_fields with
                      | Some w => item w h
                      | None => Ok None
                      end in
            let? r := go have_fields in
            Ok (match x with Some f => (true, f :: r.2) | None => (r.1, h :: r.2) end)
        end) have_fields in
      Ok (if r.1 then Some (Struct r.2) else None)
  | List w, List h => let? r := item w h in Ok (List <$> r)
  | LargeList w, LargeList h => let? r := item w h in Ok (LargeList <$> r)
  | ListView w, ListView h => let? r := item w h in Ok (ListView <$> r)
  | LargeListView w, LargeListView h => let? r := item w h in Ok (LargeListView <$> r)
  | FixedSizeList w _, FixedSizeList h n => let? r := item w h in Ok ((λ f, FixedSizeList f n) <$> r)
  | Map w _, Map h sorted => let? r := item w h in Ok ((λ f, Map f sorted) <$> r)
  | _, _ => Ok None
  end.
Definition widened_item (w h : Field) : result string (option Field) :=
  let? r := widened (f_type w) (f_type h) in Ok (with_data_type h <$> r).

(** [aligned_schema]'s loop: whether anything changed, and the fields. *)
Fixpoint aligned_fields (declared file : Schema) : result string (bool * Schema) :=
  match file with
  | [] => Ok (false, [])
  | f :: file =>
      let? x := match field_named (f_name f) declared with
                | Some w => widened_item w f
                | None => Ok None
                end in
      let? r := aligned_fields declared file in
      Ok (match x with Some f => (true, f :: r.2) | None => (r.1, f :: r.2) end)
  end.

(** [aligned_schema] *)
Definition aligned_schema (declared file : Schema) : result Error (option Schema) :=
  match aligned_fields declared file with
  | Err _ => Err (Error.Schema "a column cannot be read as declared")
  | Ok (changed, fields) => Ok (if changed : bool then Some fields else None)
  end.

(** *** The recursion of [widened] is the one of [aligned_fields] *)

Lemma widened_item_eq w h :
  match h with mkField n t b => let? r := widened (f_type w) t in Ok ((λ dt, mkField n dt b) <$> r) end =
  widened_item w h.
Proof. by destruct h. Qed.

Lemma widened_struct want_fields have_fields :
  widened (Struct want_fields) (Struct have_fields) =
  if decide (Struct want_fields = Struct have_fields) then Ok None
  else let? r := aligned_fields want_fields have_fields in
       Ok (if r.1 then Some (Struct r.2) else None).
Proof.
  cbn [widened]. case_decide; [done|]. clear.
  match goal with |- match ?x with _ => _ end = _ => assert (x = aligned_fields want_fields have_fields) as ->; [|done] end.
  induction have_fields as [|[n t b] have_fields IH]; [done|]. cbn [aligned_fields f_name]. rewrite IH. clear.
  destruct (field_named n want_fields); [|done]. unfold widened_item, with_data_type. cbn [f_type f_name f_nullable].
  destruct (widened _ t) as [[dt|]|]; done.
Qed.

(** ** A widening *)

(** Two timezones a count from the epoch means the same in. *)
Definition zones_agree (a b : option string) : Prop :=
  match a, b with
  | Some _, Some _ | None, None => True
  | Some tz, None | None, Some tz => is_utc tz = true
  end.

(** [widens h t]: [t] is [h], with some of its timestamps at a unit no coarser. *)
Inductive widens : DataType → DataType → Prop :=
  | widens_same t : widens t t
  | widens_timestamp hu htz wu wtz :
      rank hu ≤ rank wu → zones_agree htz wtz → widens (Timestamp hu htz) (Timestamp wu wtz)
  | widens_list f t : widens (f_type f) t → widens (List f) (List (with_data_type f t))
  | widens_large_list f t : widens (f_type f) t → widens (LargeList f) (LargeList (with_data_type f t))
  | widens_list_view f t : widens (f_type f) t → widens (ListView f) (ListView (with_data_type f t))
  | widens_large_list_view f t :
      widens (f_type f) t → widens (LargeListView f) (LargeListView (with_data_type f t))
  | widens_fixed_size_list f n t :
      widens (f_type f) t → widens (FixedSizeList f n) (FixedSizeList (with_data_type f t) n)
  | widens_map f s t : widens (f_type f) t → widens (Map f s) (Map (with_data_type f t) s)
  | widens_struct fs gs :
      Forall2 (λ f g, f_name f = f_name g ∧ f_nullable f = f_nullable g ∧ widens (f_type f) (f_type g)) fs gs →
      widens (Struct fs) (Struct gs).

Definition widens_field (f g : Field) : Prop :=
  f_name f = f_name g ∧ f_nullable f = f_nullable g ∧ widens (f_type f) (f_type g).

(** A column whose type was widened is at the declared one: nothing is left to do. *)
Definition settled (want have_ : DataType) : Prop :=
  ∀ r, widened want have_ = Ok r →
    widens have_ (default have_ r) ∧ widened want (default have_ r) = Ok None.

Lemma widened_same t : widened t t = Ok None.
Proof. destruct t; cbn [widened]; by rewrite decide_True. Qed.

Lemma settled_item w h r : (∀ want, settled want (f_type h)) → widened_item w h = Ok r →
  widens (f_type h) (f_type (default h r)) ∧ default h r = with_data_type h (f_type (default h r)) ∧
  widened_item w (default h r) = Ok None.
Proof.
  intros IH. unfold widened_item. destruct (widened (f_type w) (f_type h)) as [x|] eqn:E; [|done].
  destruct (IH (f_type w) x E) as [Hw Hs]. intros [= <-].
  destruct x as [t|]; simpl in *; rewrite Hs; (split; [done|]); split; try done. by destruct h.
Qed.

Lemma settled_fields declared file r :
  Forall (λ f, ∀ want, settled want (f_type f)) file → aligned_fields declared file = Ok r →
  Forall2 widens_field file r.2 ∧ aligned_fields declared r.2 = Ok (false, r.2) ∧
  (r.1 = false → r.2 = file).
Proof.
  intros H. revert r. induction H as [|f file Hf _ IH]; intros r; simpl; [by intros [= <-]|].
  assert (Hx : ∀ x, match field_named (f_name f) declared with Some w => widened_item w f | None => Ok None end = Ok x →
    widens_field f (default f x) ∧ f_name (default f x) = f_name f ∧
    match field_named (f_name f) declared with
    | Some w => widened_item w (default f x) | None => Ok None end = Ok None).
  { intros x. destruct (field_named (f_name f) declared) as [w|].
    - intros Hx. destruct (settled_item w f x Hf Hx) as (H1 & H2 & H3).
      assert (f_name (default f x) = f_name f ∧ f_nullable (default f x) = f_nullable f) as [Hn Hb]
        by (rewrite H2; done).
      split; [|done]. by split_and!.
    - intros [= <-]. split; [|done]. split_and!; try done. constructor. }
  destruct (match field_named (f_name f) declared with Some w => widened_item w f | None => Ok None end) as [x|]; [|done].
  destruct (Hx x eq_refl) as (Hw & Hn & Hagain). destruct (aligned_fields declared file) as [r'|]; [|done].
  destruct (IH r' eq_refl) as (H2 & Ha & Hsame). intros [= <-].
  destruct x as [g|]; simpl in *; (split; [by constructor|]); rewrite ?Hn, Hagain, Ha; simpl.
  - split; [done|done].
  - split; [done|]. intros E. by rewrite (Hsame E).
Qed.

Lemma settled_none want have_ : widened want have_ = Ok None → settled want have_.
Proof. intros E r. rewrite E. intros [= <-]. split; [constructor|done]. Qed.

Lemma settled_timestamp want hu htz : settled want (Timestamp hu htz).
Proof.
  destruct (decide (want = Timestamp hu htz)) as [->|Hne]; [apply settled_none, widened_same|].
  assert (H : ∀ wu wtz, want = Timestamp wu wtz → rank hu ≤ rank wu → zones_agree htz wtz →
    widens (Timestamp hu htz) want ∧ widened want want = Ok None).
  { intros wu wtz -> Hr Hz. split; [by constructor|apply widened_same]. }
  destruct want; try (apply settled_none; cbn [widened]; by rewrite decide_False).
  intros r. cbn [widened]. rewrite decide_False by done.
  destruct (Z.ltb_spec (rank unit_) (rank hu)) as [Hlt|Hge].
  { intros [= <-]. split; [constructor|]. simpl. rewrite decide_False by done. by rewrite (proj2 (Z.ltb_lt _ _)). }
  destruct tz as [wz|], htz as [hz|]; [| | |];
    try (destruct (is_utc _) eqn:Hz; [|done]); intros [= <-]; by eapply H.
Qed.

(** A type that holds items of one field, of either kind. *)
Lemma settled_list (c : Field → DataType) want h :
  (∀ f t, widens (f_type f) t → widens (c f) (c (with_data_type f t))) →
  (∀ want, settled want (f_type h)) →
  ((∃ w, ∀ f, widened want (c f) = if decide (want = c f) then Ok None
                                   else let? r := widened_item w f in Ok (c <$> r)) ∨
   widened want (c h) = Ok None) →
  settled want (c h).
Proof.
  intros Hc IH [(w & Hw)|E]; [|by apply settled_none]. intros r. rewrite Hw. case_decide as Hd.
  { intros [= <-]. split; [constructor|]. simpl. rewrite Hw. by rewrite decide_True. }
  destruct (widened_item w h) as [x|] eqn:Ex; [|done]. intros [= <-].
  destruct (settled_item w h x IH Ex) as (H1 & H2 & H3).
  assert (E : default (c h) (c <$> x) = c (default h x)) by by destruct x.
  rewrite E. split; [rewrite H2; by apply Hc|]. rewrite Hw, H3. by case_decide.
Qed.

Lemma settled_struct want fs : Forall (λ f, ∀ want, settled want (f_type f)) fs → settled want (Struct fs).
Proof.
  intros IH. destruct want; try (apply settled_none; cbn [widened]; by case_decide).
  intros r. rewrite widened_struct. case_decide as Hd.
  { intros [= <-]. split; [constructor|]. change (default (Struct fs) None) with (Struct fs). rewrite widened_struct. by rewrite decide_True. }
  destruct (aligned_fields fields fs) as [x|] eqn:Ex; [|done]. intros [= <-].
  destruct (settled_fields fields fs x IH Ex) as (H1 & H2 & H3).
  destruct x as [[] gs]; cbn [fst snd] in *; [change (default (Struct fs) (Some (Struct gs))) with (Struct gs)|change (default (Struct fs) None) with (Struct fs)].
  - split; [by constructor|]. rewrite widened_struct, H2. by case_decide.
  - split; [constructor|]. rewrite widened_struct, Ex. by case_decide.
Qed.

Ltac settle_list c widening :=
  apply (settled_list c); [intros; by apply widening|done|];
  match goal with |- context [widened ?want _] =>
    destruct want; try (right; cbn [widened]; by case_decide); left; eexists; intros [? ? ?]; cbn [widened];
    case_decide; [done|]; rewrite <-widened_item_eq; reflexivity
  end.

Lemma settled_all have_ want : settled want have_.
Proof.
  revert want. induction have_ as [t Ht|f IH|f IH|f n IH|f IH|f IH|f s IH|fs IH|fs d IH|k v _ _|e v _ _] using DataType_nested_ind;
    intros want.
  - destruct t; try done; try apply settled_timestamp; destruct want; apply settled_none; cbn [widened]; by case_decide.
  - settle_list List widens_list.
  - settle_list ListView widens_list_view.
  - settle_list (λ f, FixedSizeList f n) widens_fixed_size_list.
  - settle_list LargeList widens_large_list.
  - settle_list LargeListView widens_large_list_view.
  - settle_list (λ f, Map f s) widens_map.
  - by apply settled_struct.
  - destruct want; apply settled_none; cbn [widened]; by case_decide.
  - destruct want; apply settled_none; cbn [widened]; by case_decide.
  - destruct want; apply settled_none; cbn [widened]; by case_decide.
Qed.

(** ** Batches *)

(** An array: its type, and its values with nulls. *)
Record Column (V : Type) := { c_type : DataType; c_values : list (option V) }.
Arguments Build_Column {V}. Arguments c_type {V}. Arguments c_values {V}.

Record Batch (V : Type) := { b_schema : Schema; b_columns : list (Column V); num_rows : nat }.
Arguments Build_Batch {V}. Arguments b_schema {V}. Arguments b_columns {V}. Arguments num_rows {V}.

Definition is_valid {V} (c : Column V) (i : nat) : bool :=
  match c_values c !! i with Some (Some _) => true | _ => false end.
Definition null_count {V} (c : Column V) : nat := length (filter (λ v, v = None) (c_values c)).

(** [RecordBatch::try_new]: a column of its type for every field, all of one length, no null
    where the field says so. *)
Definition fits_field {V} (n : nat) (f : Field) (c : Column V) : bool :=
  bool_decide (c_type c = f_type f) && bool_decide (length (c_values c) = n) &&
  (f_nullable f || bool_decide (null_count c = 0%nat)).
Fixpoint fits_fields {V} (n : nat) (fs : Schema) (cs : list (Column V)) : bool :=
  match fs, cs with
  | [], [] => true
  | f :: fs, c :: cs => fits_field n f c && fits_fields n fs cs
  | _, _ => false
  end.
Definition try_new {V} (fs : Schema) (cs : list (Column V)) : option (Batch V) :=
  match cs with
  | [] => None
  | c :: _ => let n := length (c_values c) in
              if fits_fields n fs cs then Some (Build_Batch fs cs n) else None
  end.

Section Read.
Context {V : Type}.
(** Arrow's cast of one value, when [safe] is false: nothing for one that does not fit. *)
Context (cast_value : DataType → DataType → V → option V).

(** [cast_with_options] with [safe: false] *)
Definition cast_strict (c : Column V) (to : DataType) : option (Column V) :=
  vs ← mapM (λ v, match v with Some v => Some <$> cast_value (c_type c) to v | None => Some None end)
         (c_values c);
  Some (Build_Column to vs).

Definition read_column (c : Column V) (f : Field) : result Error (Column V) :=
  if decide (c_type c = f_type f) then Ok c
  else match cast_strict c (f_type f) with
       | Some c => Ok c
       | None => Err (Error.Schema "reading it as declared failed")
       end.

Fixpoint read_columns (cs : list (Column V)) (fs : Schema) : result Error (list (Column V)) :=
  match cs, fs with
  | c :: cs, f :: fs =>
      let? c := read_column c f in let? cs := read_columns cs fs in Ok (c :: cs)
  | _, _ => Ok []
  end.

(** [read_as_declared] *)
Definition read_as_declared (batch : Batch V) (declared : Schema) : result Error (Batch V) :=
  let? target := aligned_schema declared (b_schema batch) in
  match target with
  | None => Ok batch
  | Some target =>
      let? columns := read_columns (b_columns batch) target in
      match try_new target columns with
      | Some b => Ok b
      | None => Err (Error.Schema "could not read the file at the table's declared precision")
      end
  end.

Lemma aligned_schema_spec declared file r : aligned_schema declared file = Ok r →
  let fs := default file r in
  Forall2 widens_field file fs ∧ aligned_schema declared fs = Ok None.
Proof.
  unfold aligned_schema. destruct (aligned_fields declared file) as [[changed fs]|] eqn:E; [|done].
  assert (Hall : Forall (λ f, ∀ want, settled want (f_type f)) file) by (apply Forall_true; intros; apply settled_all).
  destruct (settled_fields declared file _ Hall E) as (H1 & H2 & H3). simpl in *.
  intros [= <-]. destruct changed; simpl in *; [by rewrite H2|]. rewrite H3 in * by done. by rewrite H2.
Qed.

Lemma cast_strict_spec c to c' : cast_strict c to = Some c' →
  c_type c' = to ∧ length (c_values c') = length (c_values c).
Proof.
  unfold cast_strict. destruct (mapM _ (c_values c)) as [vs|] eqn:E; [|done]. intros [= <-].
  split; [done|]. simpl. symmetry. by eapply length_mapM.
Qed.

Definition read_from (c c' : Column V) : Prop := c' = c ∨ cast_strict c (c_type c') = Some c'.

Lemma read_columns_spec n fs gs cs cs' : fits_fields n fs cs = true → Forall2 widens_field fs gs →
  read_columns cs gs = Ok cs' →
  Forall2 read_from cs cs' ∧ Forall (λ c, length (c_values c) = n) cs'.
Proof.
  intros Hf Hw. revert cs cs' Hf. induction Hw as [|f g fs gs _ _ IH]; intros [|c cs] cs'; try done; simpl.
  - intros _ [= <-]. by split.
  - intros [Hc Hf]%andb_true_iff. destruct (read_column c g) as [c'|] eqn:Ec; [|done].
    destruct (read_columns cs gs) as [cs0|] eqn:Ecs; [|done]. intros [= <-].
    destruct (IH cs cs0 Hf Ecs) as [H1 H2].
    assert (Hn : length (c_values c) = n).
    { unfold fits_field in Hc. rewrite !andb_true_iff, !bool_decide_eq_true in Hc. tauto. }
    unfold read_column in Ec. case_decide; [injection Ec as <-; split; constructor; by try left|].
    destruct (cast_strict c (f_type g)) as [c0|] eqn:Es; [|done]. injection Ec as <-.
    destruct (cast_strict_spec c _ c0 Es) as [Ht Hl].
    split; constructor; [right; by rewrite Ht|done|by rewrite Hl|done].
Qed.

Lemma try_new_spec fs (cs : list (Column V)) b : try_new fs cs = Some b →
  b_schema b = fs ∧ b_columns b = cs ∧ ∃ c cs', cs = c :: cs' ∧ num_rows b = length (c_values c).
Proof.
  unfold try_new. destruct cs as [|c cs]; [done|]. destruct (fits_fields _ _ _); [|done].
  intros [= <-]. split; [done|]. split; [done|]. by exists c, cs.
Qed.

(** A batch read as its table declares it has every column of the file, in place and by its
    name: the file's type with some timestamps at a unit no coarser and in a timezone that
    means the same, each value cast exactly and a null still a null. And that is all there is
    to do: read again, it is the same batch. *)
Theorem a_file_is_read_as_declared b declared b' :
  fits_fields (num_rows b) (b_schema b) (b_columns b) = true →
  read_as_declared b declared = Ok b' →
  num_rows b' = num_rows b ∧ Forall2 widens_field (b_schema b) (b_schema b') ∧
  Forall2 (λ c c', c' = c ∨ cast_strict c (c_type c') = Some c') (b_columns b) (b_columns b') ∧
  read_as_declared b' declared = Ok b'.
Proof.
  intros Hb. unfold read_as_declared at 1. destruct (aligned_schema declared (b_schema b)) as [r|] eqn:Er; [|done].
  destruct (aligned_schema_spec declared _ r Er) as [Hw Hagain]. destruct r as [target|]; simpl in *.
  - destruct (read_columns (b_columns b) target) as [cs|] eqn:Ec; [|done].
    destruct (try_new target cs) as [b0|] eqn:En; [|done]. intros [= <-].
    destruct (read_columns_spec _ _ _ _ _ Hb Hw Ec) as [H1 H2].
    destruct (try_new_spec target cs b0 En) as (Hs & Hc & c & cs' & E & Hn). rewrite Hs, Hc.
    split; [rewrite Hn; rewrite E in H2; by apply Forall_cons in H2 as [? _]|]. split; [done|]. split; [done|].
    unfold read_as_declared. by rewrite Hs, Hagain.
  - intros [= <-]. split; [done|]. split; [done|]. split; [|unfold read_as_declared; by rewrite Hagain].
    apply Forall_Forall2_diag, Forall_true. by left.
Qed.
End Read.

(** The cast of a timestamp by Arrow: the same count from the epoch, at the new unit. *)
Definition cast_timestamp (from to : DataType) (v : Z) : option Z :=
  match from, to with
  | Timestamp hu _, Timestamp wu _ =>
      let v := v * 1000 ^ (rank wu - rank hu) in
      if (i64_min <=? v) && (v <=? i64_max) then Some v else None
  | _, _ => None
  end.

Lemma a_file_is_read_as_declared_witness :
  let trino := Timestamp Millisecond None in
  let b := Build_Batch [mkField "at" trino true; mkField "id" Int64 false]
             [Build_Column trino [Some 5; None]; Build_Column Int64 [Some 1; Some 2]] 2 in
  let declared := [mkField "id" Int32 false; mkField "at" (Timestamp Microsecond (Some "UTC"%string)) true] in
  let b' := Build_Batch [mkField "at" (Timestamp Microsecond (Some "UTC"%string)) true; mkField "id" Int64 false]
              [Build_Column (Timestamp Microsecond (Some "UTC"%string)) [Some 5000; None];
               Build_Column Int64 [Some 1; Some 2]] 2 in
  read_as_declared cast_timestamp b declared = Ok b' ∧ read_as_declared cast_timestamp b' declared = Ok b'.
Proof.
  intros trino b declared b'.
  assert (H : read_as_declared cast_timestamp b declared = Ok b') by (vm_compute; reflexivity).
  split; [exact H|]. apply (a_file_is_read_as_declared cast_timestamp b declared b'); [vm_compute; reflexivity|exact H].
Defined.

(** ** What else the program asks of types *)

(** [bare_schema]: fields without metadata, which a field of this model has none of. *)
Definition bare_schema (s : Schema) : Schema := (λ f, mkField (f_name f) (f_type f) (f_nullable f)) <$> s.

(** [is_widening] *)
Definition is_widening (from to : DataType) : bool :=
  match from, to with
  | Int8, (Int16 | Int32 | Int64) | Int16, (Int32 | Int64) | Int32, Int64
  | UInt8, (UInt16 | UInt32 | UInt64 | Int16 | Int32 | Int64)
  | UInt16, (UInt32 | UInt64 | Int32 | Int64) | UInt32, (UInt64 | Int64) | Float32, Float64 => true
  | _, _ => false
  end.
