(* ===== verification/Fractions.v ===== *)
(** * Fractions: what a cast to an integer would drop (src/schema.rs)

    Arrow's cast truncates a float or a decimal that goes into an integer column, at any depth,
    and says nothing.  [fractions_dropped] finds such values beforehand, walking the array as
    the cast walks it.  [drops] says of one value what it is about; the walk over offsets, runs
    and dictionary keys answers just that, row by row ([a_dropped_fraction_is_found]). *)

From Stdlib Require Import ZArith Lia SpecFloat.
From stdpp Require Import base list strings.
From S2P Require Import Prelude F64 Schema.

Open Scope Z_scope.
Open Scope ddi_scope.

(** ** How a cast pairs types *)

(** [list_item], [key_value], [struct_pairs]. *)
Definition list_item (t : DataType) : option Field :=
  match t with
  | List item | LargeList item | ListView item | LargeListView item => Some item
  | FixedSizeList item _ => Some item
  | _ => None
  end.
(** A list of any kind but the fixed-size one, and a fixed-size list of one element. *)
Definition any_length (t : DataType) : option Field :=
  match t with
  | List item | LargeList item | ListView item | LargeListView item => Some item
  | _ => None
  end.
Definition one_element (t : DataType) : option Field :=
  match t with FixedSizeList item n => if n =? 1 then Some item else None | _ => None end.
Definition run_value (t : DataType) : option DataType :=
  match t with RunEndEncoded _ value => Some (f_type value) | _ => None end.
Definition union_fields (t : DataType) : option (list (Z * Field)) :=
  match t with Union fields _ => Some fields | _ => None end.
Definition dictionary_value (t : DataType) : option DataType :=
  match t with Dictionary _ value => Some value | _ => None end.
Definition map_entries (t : DataType) : option Field :=
  match t with Map entries _ => Some entries | _ => None end.
Definition struct_fields (t : DataType) : option Schema :=
  match t with Struct fields => Some fields | _ => None end.
Definition key_value (entries : Field) : option (Field * Field) :=
  match f_type entries with Struct (k :: v :: _) => Some (k, v) | _ => None end.

Definition position (name : string) (fs : Schema) : option nat :=
  fst <$> list_find (λ f, f_name f = name) fs.
Definition struct_pairs (from to : Schema) : list (nat * Field) :=
  let in_order := bool_decide (f_name <$> from = f_name <$> to) in
  match mapM (λ t, position (f_name t) from) to with
  | Some indices => if in_order then take (length from) (imap (λ i t, (i, t)) to)
                    else zip indices to
  | None => take (length from) (imap (λ i t, (i, t)) to)
  end.

Lemma struct_pairs_in from to i x : (i, x) ∈ struct_pairs from to → x ∈ to.
Proof.
  unfold struct_pairs. assert (H : (i, x) ∈ take (length from) (imap (λ i t, (i, t)) to) → x ∈ to).
  { intros H. apply elem_of_take in H as (j & Hj & _). rewrite list_lookup_imap in Hj.
    destruct (to !! j) as [y|] eqn:E; [|done]. simpl in Hj. injection Hj as <- <-. by eapply list_elem_of_lookup_2. }
  destruct (mapM _ to); [|done]. destruct (bool_decide _); [done|]. apply elem_of_zip_r.
Qed.

Definition is_integer (t : DataType) : bool :=
  match t with Int8 | Int16 | Int32 | Int64 | UInt8 | UInt16 | UInt32 | UInt64 => true | _ => false end.
(** What a cast reaches through an integer. *)
Definition through_integer (t : DataType) : bool :=
  is_integer t || match t with Timestamp _ _ | Duration _ => true | _ => false end.

Inductive Sources := FloatsAndDecimals | Decimals.
#[export] Instance Sources_eq_dec : EqDecision Sources.
Proof. solve_decision. Defined.

Section Fractions.
(** Arrow's [can_cast_types]. *)
Context (can_cast_types : DataType → DataType → bool).

Definition same_family (a b : DataType) : bool :=
  match a, b with
  | (Utf8 | LargeUtf8 | Utf8View), (Utf8 | LargeUtf8 | Utf8View)
  | (Binary | LargeBinary | BinaryView), (Binary | LargeBinary | BinaryView)
  | (Int8 | Int16 | Int32 | Int64), (Int8 | Int16 | Int32 | Int64)
  | (UInt8 | UInt16 | UInt32 | UInt64), (UInt8 | UInt16 | UInt32 | UInt64)
  | (Float16 | Float32 | Float64), (Float16 | Float32 | Float64) => true
  | _, _ => false
  end.

(** [union_child] *)
Definition union_child (fields : list (Z * Field)) (to : DataType) : option (Z * Field) :=
  match List.find (λ f, bool_decide (f_type f.2 = to)) fields with
  | Some f => Some f
  | None =>
      match List.find (λ f, same_family (f_type f.2) to) fields with
      | Some f => Some f
      | None => if is_nested to then None else List.find (λ f, can_cast_types (f_type f.2) to) fields
      end
  end.

(** The arms of [drops_fraction] and of [dropped_fractions], which pair types the same way: what
    a value of [from] comes to on its way into [to]. *)
Inductive Pairing :=
  | P_Runs (from to : DataType)          (** the value of its run, into [to] *)
  | P_Into (to : DataType)               (** the same value, into [to] *)
  | P_Union (child : option (Z * Field)) (** the value of the child the cast extracts *)
  | P_Dictionary (value : DataType)      (** the value of its key *)
  | P_Items (from to : DataType)         (** its elements *)
  | P_Unwrap (item : DataType)           (** its one element *)
  | P_Map (from to : option (Field * Field)) (** its keys and values *)
  | P_Struct (fields : list (DataType * nat * DataType)) (** its fields *)
  | P_Leaf.

Definition pairing (from to : DataType) : Pairing :=
  match run_value from, run_value to with
  | Some from, Some to => P_Runs from to
  | Some value, None => P_Runs value to
  | None, Some value => P_Into value
  | None, None =>
  match union_fields from with Some fields => P_Union (union_child fields to) | None =>
  match dictionary_value from with Some value => P_Dictionary value | None =>
  match dictionary_value to with Some value => P_Into value | None =>
  match list_item from, list_item to with Some f, Some t => P_Items (f_type f) (f_type t) | _, _ =>
  match one_element from with Some item => P_Unwrap (f_type item) | None =>
  match any_length to with Some item => P_Into (f_type item) | None =>
  match one_element to with Some item => P_Into (f_type item) | None =>
  match map_entries from, map_entries to with Some f, Some t => P_Map (key_value f) (key_value t) | _, _ =>
  match struct_fields from, struct_fields to with
  | Some f, Some t =>
      P_Struct (omap (λ '(i, t), (λ f, (f_type f, i, f_type t)) <$> f !! i) (struct_pairs f t))
  | _, _ => P_Leaf
  end end end end end end end end end end.

(** The scale of a decimal, and the largest number its width holds. *)
Definition decimal (t : DataType) : option (Z * Z) :=
  match t with
  | Decimal32 _ scale => Some (scale, i32_max)
  | Decimal64 _ scale => Some (scale, i64_max)
  | Decimal128 _ scale => Some (scale, 2 ^ 127 - 1)
  | Decimal256 _ scale => Some (scale, 2 ^ 255 - 1)
  | _ => None
  end.

Definition drops_leaf (from to : DataType) (sources : Sources) : bool :=
  through_integer to &&
  match from with
  | Float16 | Float32 | Float64 => bool_decide (sources = FloatsAndDecimals)
  | _ => match decimal from with Some (scale, _) => 0 <? scale | None => false end
  end.

(** How large a type is: what the recursions below count down. *)
Fixpoint size (t : DataType) : nat :=
  match t with
  | List f | ListView f | LargeList f | LargeListView f | FixedSizeList f _ | Map f _ =>
      S (match f with mkField _ t _ => size t end)
  | Struct fs => S (sum_list ((λ f, match f with mkField _ t _ => S (size t) end) <$> fs))
  | Union fs _ => S (sum_list ((λ f, match f with (_, mkField _ t _) => S (size t) end) <$> fs))
  | Dictionary _ v => S (size v)
  | RunEndEncoded _ v => S (match v with mkField _ t _ => size t end)
  | _ => 1%nat
  end.

(** [drops_fraction] *)
Fixpoint drops_fraction_at (fuel : nat) (from to : DataType) (sources : Sources) : bool :=
  match fuel with
  | O => false
  | S fuel =>
      if decide (from = to) then false
      else
        match pairing from to with
        | P_Runs from to => drops_fraction_at fuel from to sources
        | P_Into to => drops_fraction_at fuel from to sources
        | P_Union child =>
            match child with
            | Some (_, f) => drops_fraction_at fuel (f_type f) to sources
            | None => false
            end
        | P_Dictionary value => drops_fraction_at fuel value to sources
        | P_Items from to => drops_fraction_at fuel from to sources
        | P_Unwrap item => drops_fraction_at fuel item to sources
        | P_Map (Some (fk, fv)) (Some (tk, tv)) =>
            drops_fraction_at fuel (f_type fk) (f_type tk) sources ||
            drops_fraction_at fuel (f_type fv) (f_type tv) sources
        | P_Map _ _ => false
        | P_Struct fields => existsb (λ '(f, _, t), drops_fraction_at fuel f t sources) fields
        | P_Leaf => drops_leaf from to sources
        end
  end.
Definition drops_fraction (from to : DataType) : Sources → bool :=
  drops_fraction_at (size from + size to) from to.

(** ** Values *)

(** A value, whatever array holds it; a null is no value. *)
Inductive Value :=
  | V_Bool (b : bool)
  | V_Int (z : Z)
  | V_Float (v : f64)
  | V_Decimal (unscaled : Z)
  | V_Text (s : string)
  | V_Bytes (b : list Z)
  | V_Interval (months days nanoseconds : Z)
  | V_List (items : list (option Value))
  | V_Struct (fields : list (option Value))
  | V_Map (entries : list (option (option Value * option Value)))
  | V_Union (id : Z) (value : option Value).

#[export] Instance spec_float_eq_dec : EqDecision spec_float.
Proof. solve_decision. Defined.
#[export] Instance Value_eq_dec : EqDecision Value.
Proof.
  unfold EqDecision. fix go 1. change (EqDecision Value) in go. intros a b. unfold Decision.
  decide equality; try (apply decide; apply _).
Defined.

(** A finite float that is not a whole number. *)
Definition float_fraction (v : f64) : bool :=
  match v with
  | S754_finite _ m e => (e <? 0) && negb (Z.pos m mod 2 ^ (- e) =? 0)
  | _ => false
  end.

(** [drops n from to sources v]: written into [to], some part of [v] that lands in an integer
    loses a fraction. *)
Fixpoint drops_at (fuel : nat) (from to : DataType) (sources : Sources) (v : option Value) : bool :=
  match fuel with
  | O => false
  | S fuel =>
      if decide (from = to) then false
      else
        match pairing from to with
        | P_Runs from to => drops_at fuel from to sources v
        | P_Into to => drops_at fuel from to sources v
        | P_Union child =>
            match child, v with
            | Some (id, f), Some (V_Union id' v) =>
                bool_decide (id' = id) && drops_at fuel (f_type f) to sources v
            | _, _ => false
            end
        | P_Dictionary value => drops_at fuel value to sources v
        | P_Items from to =>
            match v with
            | Some (V_List l) => existsb (drops_at fuel from to sources) l
            | _ => false
            end
        | P_Unwrap item =>
            match v with
            | Some (V_List [x]) => drops_at fuel item to sources x
            | _ => false
            end
        | P_Map (Some (fk, fv)) (Some (tk, tv)) =>
            match v with
            | Some (V_Map l) =>
                existsb (λ e, match e with
                  | Some (k, v) => drops_at fuel (f_type fk) (f_type tk) sources k ||
                                   drops_at fuel (f_type fv) (f_type tv) sources v
                  | None => false end) l
            | _ => false
            end
        | P_Map _ _ => false
        | P_Struct fields =>
            match v with
            | Some (V_Struct l) =>
                existsb (λ '(f, i, t), drops_at fuel f t sources (l !! i ≫= id)) fields
            | _ => false
            end
        | P_Leaf =>
            drops_leaf from to sources &&
            match v with
            | Some (V_Float v) => float_fraction v
            | Some (V_Decimal z) =>
                match decimal from with Some (scale, _) => negb (Z.rem z (10 ^ scale) =? 0) | None => false end
            | _ => false
            end
        end
  end.
Definition drops (from to : DataType) : Sources → option Value → bool :=
  drops_at (size from + size to) from to.

Lemma drops_fraction_none fuel from to sources v :
  drops_fraction_at fuel from to sources = false → drops_at fuel from to sources v = false.
Proof.
  revert from to v. induction fuel as [|fuel IH]; intros from to v; [done|]. simpl. case_decide as Hd; [done|]. clear Hd.
  destruct (pairing from to) as [f t|t|[[id f]|]|t|f t|t|[[fk fv]|] [[tk tv]|]|fs|]; intros H; try done; try by apply IH.
  - destruct v as [[]|]; try done. rewrite IH by done. apply andb_false_r.
  - destruct v as [[]|]; try done. induction items as [|x items IHl]; [done|]. simpl. by rewrite IH, IHl.
  - destruct v as [[]|]; try done. destruct items as [|x [|]]; try done. by apply IH.
  - apply orb_false_iff in H as [Hk Hv]. destruct v as [[]|]; try done.
    induction entries as [|[[k v]|] l IHl]; [done| |done]. simpl. by rewrite !IH, IHl.
  - destruct v as [[]|]; try done. induction fs as [|[[f i] t] fs IHl]; [done|]. simpl in *.
    apply orb_false_iff in H as [H1 H2]. rewrite IH by done. by apply IHl.
  - by rewrite H.
Qed.

(** *** The fuel is enough *)

Definition smaller (p : Pairing) (from to : DataType) : Prop :=
  match p with
  | P_Runs f t | P_Items f t => (size f + size t < size from + size to)%nat
  | P_Into t => (size t < size to)%nat
  | P_Union (Some (_, f)) => (size (f_type f) < size from)%nat
  | P_Dictionary v => (size v < size from)%nat
  | P_Unwrap f => (size f < size from)%nat
  | P_Map (Some (fk, fv)) (Some (tk, tv)) =>
      (size (f_type fk) + size (f_type tk) < size from + size to)%nat ∧
      (size (f_type fv) + size (f_type tv) < size from + size to)%nat
  | P_Struct l => Forall (λ '(f, _, t), size f + size t < size from + size to)%nat l
  | _ => True
  end.

Lemma size_run t v : run_value t = Some v → (size v < size t)%nat.
Proof. destruct t; try done. intros [= <-]. simpl. destruct values. simpl. lia. Qed.
Lemma size_dictionary t v : dictionary_value t = Some v → (size v < size t)%nat.
Proof. destruct t; try done. intros [= <-]. simpl. lia. Qed.
Lemma size_item t f : list_item t = Some f → (size (f_type f) < size t)%nat.
Proof. destruct t; try done; intros [= <-]; simpl; destruct item; simpl; lia. Qed.
Lemma any_length_item t f : any_length t = Some f → list_item t = Some f.
Proof. by destruct t. Qed.
Lemma one_element_item t f : one_element t = Some f → list_item t = Some f.
Proof. destruct t; try done. simpl. by destruct (n =? 1). Qed.
Lemma size_field fs f : f ∈ fs → (size (f_type f) < size (Struct fs))%nat.
Proof.
  induction fs as [|[n t b] fs IH]; [by intros ?%elem_of_nil|]. rewrite elem_of_cons. csimpl in *.
  intros [->|H]; [csimpl; lia|apply IH in H; lia].
Qed.
Lemma size_child fs d f : f ∈ fs → (size (f_type f.2) < size (Union fs d))%nat.
Proof.
  induction fs as [|[i [n t b]] fs IH]; [by intros ?%elem_of_nil|]. rewrite elem_of_cons. csimpl in *.
  intros [->|H]; [csimpl; lia|apply IH in H; lia].
Qed.
Lemma size_entries t e k v : map_entries t = Some e → key_value e = Some (k, v) →
  (size (f_type k) < size t)%nat ∧ (size (f_type v) < size t)%nat.
Proof.
  destruct t; try done. intros [= ->]. unfold key_value. destruct e as [n t b]. simpl.
  destruct t as [| | | | | | | | | | | | | | | | | | | | | | | | | | | | | | | |[|x [|y fs]]| | | | | | | |]; try done.
  intros [= -> ->]. destruct k, v. simpl. lia.
Qed.

Lemma union_child_in fs to f : union_child fs to = Some f → f ∈ fs.
Proof.
  unfold union_child. intros H. apply list_elem_of_In.
  destruct (List.find _ fs) as [g|] eqn:E1; [injection H as <-; by apply List.find_some in E1 as [? _]|].
  destruct (List.find (λ f, same_family _ _) fs) as [g|] eqn:E2; [injection H as <-; by apply List.find_some in E2 as [? _]|].
  destruct (is_nested to); [done|]. by apply List.find_some in H as [? _].
Qed.

Lemma pairing_smaller from to : smaller (pairing from to) from to.
Proof.
  unfold pairing. destruct (run_value from) as [f|] eqn:Ef.
  { apply size_run in Ef. destruct (run_value to) as [t|] eqn:Et; simpl; [apply size_run in Et|]; lia. }
  destruct (run_value to) as [t|] eqn:Et; [by apply size_run|]. clear Ef Et.
  destruct (union_fields from) as [fs|] eqn:Eu.
  { simpl. destruct (union_child fs to) as [[id f]|] eqn:Ec; [|done]. apply union_child_in in Ec.
    destruct from; try done. injection Eu as ->. by apply (size_child fs dense (id, f)). }
  destruct (dictionary_value from) as [v|] eqn:Ed; [by apply size_dictionary|].
  destruct (dictionary_value to) as [v|] eqn:Ed'; [by apply size_dictionary|]. clear Eu Ed Ed'.
  assert (Hrest : smaller (match one_element from with Some item => P_Unwrap (f_type item) | None =>
    match any_length to with Some item => P_Into (f_type item) | None =>
    match one_element to with Some item => P_Into (f_type item) | None =>
    match map_entries from, map_entries to with Some f, Some t => P_Map (key_value f) (key_value t) | _, _ =>
    match struct_fields from, struct_fields to with
    | Some f, Some t =>
        P_Struct (omap (λ '(i, t), (λ f, (f_type f, i, f_type t)) <$> f !! i) (struct_pairs f t))
    | _, _ => P_Leaf end end end end end) from to).
  { destruct (one_element from) as [f|] eqn:E1; [by apply size_item, one_element_item|].
    destruct (any_length to) as [f|] eqn:E2; [by apply size_item, any_length_item|].
    destruct (one_element to) as [f|] eqn:E3; [by apply size_item, one_element_item|].
    destruct (map_entries from) as [f|] eqn:Ef.
    { destruct (map_entries to) as [t|] eqn:Et; [|by destruct from].
      simpl. destruct (key_value f) as [[fk fv]|] eqn:Kf; [|done]. destruct (key_value t) as [[tk tv]|] eqn:Kt; [|done].
      destruct (size_entries _ _ _ _ Ef Kf), (size_entries _ _ _ _ Et Kt). lia. }
    destruct (struct_fields from) as [fs|] eqn:Sf; [|done]. destruct (struct_fields to) as [ts|] eqn:St; [|done].
    destruct from; try done. destruct to; try done. injection Sf as ->. injection St as ->.
    cbn [smaller]. apply Forall_forall. intros [[f i] t] Hin. apply list_elem_of_omap in Hin as ([j x] & Hx & He).
    destruct (fs !! j) as [y|] eqn:Ey; [|done]. simpl in He. injection He as <- <- <-.
      apply list_elem_of_lookup_2 in Ey. apply size_field in Ey.
      assert (Hxt : x ∈ ts) by (by apply struct_pairs_in in Hx). apply size_field in Hxt. lia. }
  destruct (list_item from) as [f|] eqn:Hf; [|exact Hrest]. destruct (list_item to) as [t|] eqn:Ht; [|exact Hrest].
  apply size_item in Hf, Ht. simpl. lia.
Qed.

Lemma existsb_ext_in {A} (f g : A → bool) l : (∀ x, x ∈ l → f x = g x) → existsb f l = existsb g l.
Proof.
  intros H. induction l as [|x l IH]; [done|]. simpl. rewrite (H x) by constructor. f_equal.
  apply IH. intros y Hy. apply H. by constructor.
Qed.

Lemma drops_fraction_enough n m from to sources : (size from + size to ≤ n)%nat → (size from + size to ≤ m)%nat →
  drops_fraction_at n from to sources = drops_fraction_at m from to sources.
Proof.
  revert m from to. induction n as [|n IH]; intros m from to Hn Hm; [by destruct from; simpl in Hn; lia|].
  destruct m as [|m]; [by destruct from; simpl in Hm; lia|]. simpl. case_decide as Hd; [done|]. clear Hd.
  pose proof (pairing_smaller from to) as Hs.
  destruct (pairing from to) as [f t|t|[[id f]|]|v|f t|f|[[fk fv]|] [[tk tv]|]|fs|]; simpl in Hs; try done;
    try (apply IH; lia).
  - f_equal; apply IH; lia.
  - apply existsb_ext_in. intros [[f i] t] Hx. rewrite Forall_forall in Hs. apply Hs in Hx. apply IH; lia.
Qed.

Lemma drops_enough n m from to sources v : (size from + size to ≤ n)%nat → (size from + size to ≤ m)%nat →
  drops_at n from to sources v = drops_at m from to sources v.
Proof.
  revert m from to v. induction n as [|n IH]; intros m from to v Hn Hm; [by destruct from; simpl in Hn; lia|].
  destruct m as [|m]; [by destruct from; simpl in Hm; lia|]. simpl. case_decide as Hd; [done|]. clear Hd.
  pose proof (pairing_smaller from to) as Hs.
  destruct (pairing from to) as [f t|t|[[id f]|]|x|f t|f|[[fk fv]|] [[tk tv]|]|fs|]; simpl in Hs; try done;
    try (apply IH; lia).
  - destruct v as [[]|]; try done. f_equal. apply IH; lia.
  - destruct v as [[]|]; try done. apply existsb_ext_in. intros y _. apply IH; lia.
  - destruct v as [[]|]; try done. destruct items as [|y []]; try done. apply IH; lia.
  - destruct v as [[]|]; try done. apply existsb_ext_in. intros [[k y]|] _; [|done]. f_equal; apply IH; lia.
  - destruct v as [[]|]; try done. apply existsb_ext_in. intros [[f i] t] Hx. rewrite Forall_forall in Hs.
    apply Hs in Hx. apply IH; lia.
Qed.

(** The recursions without their fuel. *)
Lemma drops_fraction_eq from to sources :
  drops_fraction from to sources =
  if decide (from = to) then false
  else match pairing from to with
       | P_Runs f t | P_Items f t => drops_fraction f t sources
       | P_Into t => drops_fraction from t sources
       | P_Union (Some (_, f)) => drops_fraction (f_type f) to sources
       | P_Dictionary v => drops_fraction v to sources
       | P_Unwrap f => drops_fraction f to sources
       | P_Map (Some (fk, fv)) (Some (tk, tv)) =>
           drops_fraction (f_type fk) (f_type tk) sources || drops_fraction (f_type fv) (f_type tv) sources
       | P_Struct fs => existsb (λ '(f, _, t), drops_fraction f t sources) fs
       | P_Leaf => drops_leaf from to sources
       | _ => false
       end.
Proof.
  unfold drops_fraction at 1. set (n := (size from + size to)%nat).
  rewrite (drops_fraction_enough n (S n)) by (unfold n; lia). cbn [drops_fraction_at].
  case_decide as Hd; [done|]. clear Hd. pose proof (pairing_smaller from to) as Hs.
  destruct (pairing from to) as [f t|t|[[id f]|]|v|f t|f|[[fk fv]|] [[tk tv]|]|fs|]; simpl in Hs; try done;
    try (apply drops_fraction_enough; unfold n; lia).
  - f_equal; apply drops_fraction_enough; unfold n; lia.
  - apply existsb_ext_in. intros [[f i] t] Hx. rewrite Forall_forall in Hs. apply Hs in Hx.
    apply drops_fraction_enough; unfold n; lia.
Qed.

Lemma drops_eq from to sources v :
  drops from to sources v =
  if decide (from = to) then false
  else match pairing from to with
       | P_Runs f t => drops f t sources v
       | P_Into t => drops from t sources v
       | P_Union (Some (id, f)) =>
           match v with
           | Some (V_Union id' v) => bool_decide (id' = id) && drops (f_type f) to sources v
           | _ => false
           end
       | P_Dictionary value => drops value to sources v
       | P_Items f t => match v with Some (V_List l) => existsb (drops f t sources) l | _ => false end
       | P_Unwrap f => match v with Some (V_List [x]) => drops f to sources x | _ => false end
       | P_Map (Some (fk, fv)) (Some (tk, tv)) =>
           match v with
           | Some (V_Map l) =>
               existsb (λ e, match e with
                 | Some (k, v) => drops (f_type fk) (f_type tk) sources k || drops (f_type fv) (f_type tv) sources v
                 | None => false end) l
           | _ => false
           end
       | P_Struct fs =>
           match v with
           | Some (V_Struct l) => existsb (λ '(f, i, t), drops f t sources (l !! i ≫= id)) fs
           | _ => false
           end
       | P_Leaf =>
           drops_leaf from to sources &&
           match v with
           | Some (V_Float v) => float_fraction v
           | Some (V_Decimal z) =>
               match decimal from with Some (scale, _) => negb (Z.rem z (10 ^ scale) =? 0) | None => false end
           | _ => false
           end
       | _ => false
       end.
Proof.
  unfold drops at 1. set (n := (size from + size to)%nat).
  rewrite (drops_enough n (S n)) by (unfold n; lia). cbn [drops_at].
  case_decide as Hd; [done|]. clear Hd. pose proof (pairing_smaller from to) as Hs.
  destruct (pairing from to) as [f t|t|[[i f]|]|x|f t|f|[[fk fv]|] [[tk tv]|]|fs|]; simpl in Hs; try done;
    try (apply drops_enough; unfold n; lia).
  - destruct v as [[]|]; try done. f_equal. apply drops_enough; unfold n; lia.
  - destruct v as [[]|]; try done. apply existsb_ext_in. intros y _. apply drops_enough; unfold n; lia.
  - destruct v as [[]|]; try done. destruct items as [|y []]; try done. apply drops_enough; unfold n; lia.
  - destruct v as [[]|]; try done. apply existsb_ext_in. intros [[k y]|] _; [|done].
    f_equal; apply drops_enough; unfold n; lia.
  - destruct v as [[]|]; try done. apply existsb_ext_in. intros [[f i] t] Hx. rewrite Forall_forall in Hs.
    apply Hs in Hx. apply drops_enough; unfold n; lia.
Qed.

Lemma drops_nothing from to sources v : drops_fraction from to sources = false → drops from to sources v = false.
Proof. apply drops_fraction_none. Qed.
End Fractions.

(** ** Arrays *)

(** An Arrow array: what [dropped_fractions] walks. *)
Inductive Array :=
  | A_Flat (t : DataType) (values : list (option Value))
  | A_List (t : DataType) (valid : list bool) (ranges : list (nat * nat)) (child : Array)
  | A_Map (entries : Field) (sorted : bool) (valid : list bool) (ranges : list (nat * nat))
      (entry_valid : list bool) (keys values : Array)
  | A_Struct (fields : Schema) (valid : list bool) (columns : list Array)
  | A_Dictionary (key value : DataType) (keys : list (option nat)) (values : Array)
  | A_Run (ends values_field : Field) (run_ends : list nat) (values : Array)
  | A_Union (fields : list (Z * Field)) (dense : bool) (type_ids : list Z) (offsets : option (list nat))
      (children : list (Z * Array)).

Definition data_type (a : Array) : DataType :=
  match a with
  | A_Flat t _ | A_List t _ _ _ => t
  | A_Map entries sorted _ _ _ _ _ => Map entries sorted
  | A_Struct fields _ _ => Struct fields
  | A_Dictionary key value _ _ => Dictionary key value
  | A_Run ends values _ _ => RunEndEncoded ends values
  | A_Union fields dense _ _ _ => Union fields dense
  end.

Definition array_len (a : Array) : nat :=
  match a with
  | A_Flat _ values => length values
  | A_List _ valid _ _ | A_Map _ _ valid _ _ _ _ | A_Struct _ valid _ => length valid
  | A_Dictionary _ _ keys _ => length keys
  | A_Run _ _ run_ends _ => default 0%nat (last run_ends)
  | A_Union _ _ type_ids _ _ => length type_ids
  end.

(** [get_physical_index] *)
Fixpoint physical_index (run_ends : list nat) (i : nat) : nat :=
  match run_ends with
  | [] => 0%nat
  | e :: run_ends => if (i <? e)%nat then 0%nat else S (physical_index run_ends i)
  end.

(** What is in a range. *)
Definition slice {A} (r : nat * nat) (l : list A) : list A := take (r.2 - r.1) (drop r.1 l).

(** The child of a union by its id. *)
Definition child_of (id : Z) (children : list (Z * Array)) : option Array :=
  snd <$> List.find (λ c, bool_decide (c.1 = id)) children.
(** Where a union's row is in its child. *)
Definition at_of (offsets : option (list nat)) (i : nat) : nat :=
  match offsets with Some o => nth i o 0%nat | None => i end.

Section Dropped.
Context (can_cast_types : DataType → DataType → bool).

(** [per_row] *)
Definition per_row (valid : list bool) (ranges : list (nat * nat)) (dropped : list bool) : list bool :=
  imap (λ i r, nth i valid false && existsb id (slice r dropped)) ranges.

(** [float_fractions] *)
Definition float_fractions (values : list (option Value)) : list bool :=
  (λ v, match v with Some (V_Float v) => float_fraction v | _ => false end) <$> values.

(** [decimal_fractions] *)
Definition decimal_fractions (max scale : Z) (values : list (option Value)) : list bool :=
  let unit_ := if 10 ^ scale <=? max then Some (10 ^ scale) else None in
  (λ v, match v with
        | Some (V_Decimal z) =>
            match unit_ with Some u => negb (Z.rem z u =? 0) | None => negb (z =? 0) end
        | _ => false
        end) <$> values.

Definition index_type (t : DataType) : bool :=
  match t with Int16 | Int32 | Int64 => true | _ => false end.

(** [dropped_fractions], and [runs]. *)
Fixpoint dropped_at (fuel : nat) (col : Array) (to : DataType) (sources : Sources) : option (list bool) :=
  match fuel with
  | O => None
  | S fuel =>
      if negb (drops_fraction can_cast_types (data_type col) to sources) then None
      else
        match pairing can_cast_types (data_type col) to, col with
        | P_Runs _ to, A_Run ends _ run_ends values =>
            if index_type (f_type ends) then
              d ← dropped_at fuel values to sources;
              Some ((λ i, nth (physical_index run_ends i) d false) <$> seq 0 (array_len col))
            else None
        | P_Into to, _ => dropped_at fuel col to sources
        | P_Union child, A_Union _ _ type_ids offsets children =>
            '(id, _) ← child;
            c ← child_of id children;
            d ← dropped_at fuel c to sources;
            Some (imap (λ i type_id, bool_decide (type_id = id) && nth (at_of offsets i) d false) type_ids)
        | P_Dictionary _, A_Dictionary _ _ keys values =>
            d ← dropped_at fuel values to sources;
            if negb (existsb id d) then Some (replicate (length keys) false)
            else Some ((λ k, match k with Some k => nth k d false | None => false end) <$> keys)
        | P_Items _ to, A_List _ valid ranges child =>
            d ← dropped_at fuel child to sources;
            Some (per_row valid ranges d)
        | P_Unwrap _, A_List _ _ _ child => dropped_at fuel child to sources
        | P_Map _ (Some (key, value)), A_Map _ _ valid ranges entry_valid keys values =>
            let keys := dropped_at fuel keys (f_type key) sources in
            let values := dropped_at fuel values (f_type value) sources in
            let dropped := imap (λ j v, v && (match keys with Some k => nth j k false | None => false end ||
                                              match values with Some v => nth j v false | None => false end))
                             entry_valid in
            Some (per_row valid ranges dropped)
        | P_Struct fields, A_Struct _ valid columns =>
            let dropped := fold_left (λ o '(_, index, t),
                match columns !! index ≫= (λ c, dropped_at fuel c t sources) with
                | Some d => zip_with orb o d
                | None => o
                end) fields (replicate (length valid) false) in
            Some (zip_with andb valid dropped)
        | P_Leaf, A_Flat t values =>
            match t with
            | Float16 | Float32 | Float64 => Some (float_fractions values)
            | _ => '(scale, max) ← decimal t; Some (decimal_fractions max scale values)
            end
        | _, _ => None
        end
  end.
Definition dropped_fractions (col : Array) (to : DataType) (sources : Sources) : option (list bool) :=
  dropped_at (size (data_type col) + size to) col to sources.

(** [fractions_dropped] and [decimal_fractions_dropped] *)
Definition fractions_dropped (col : Array) (to : DataType) := dropped_fractions col to FloatsAndDecimals.
Definition decimal_fractions_dropped (col : Array) (to : DataType) := dropped_fractions col to Decimals.
End Dropped.

(** ** The values in an array *)

Fixpoint logical (a : Array) : list (option Value) :=
  match a with
  | A_Flat _ values => values
  | A_List _ valid ranges child =>
      let c := logical child in
      zip_with (λ v r, if v : bool then Some (V_List (slice r c)) else None) valid ranges
  | A_Map _ _ valid ranges entry_valid keys values =>
      let ks := logical keys in let vs := logical values in
      let entries := imap (λ j v, if v : bool then Some (nth j ks None, nth j vs None) else None) entry_valid in
      zip_with (λ v r, if v : bool then Some (V_Map (slice r entries)) else None) valid ranges
  | A_Struct _ valid columns =>
      let cs := logical <$> columns in
      imap (λ i v, if v : bool then Some (V_Struct ((λ c, nth i c None) <$> cs)) else None) valid
  | A_Dictionary _ _ keys values =>
      let vs := logical values in
      (λ k, match k with Some k => nth k vs None | None => None end) <$> keys
  | A_Run _ _ run_ends values =>
      let vs := logical values in
      (λ i, nth (physical_index run_ends i) vs None) <$> seq 0 (default 0%nat (last run_ends))
  | A_Union _ _ type_ids offsets children =>
      let cs := (λ '(id, c), (id, logical c)) <$> children in
      imap (λ i id, Some (V_Union id (c ← snd <$> List.find (λ c, bool_decide (c.1 = id)) cs;
                                      nth (at_of offsets i) c None))) type_ids
  end.

(** A type whose arrays have no others inside. *)
Definition is_flat (t : DataType) : Prop :=
  run_value t = None ∧ union_fields t = None ∧ dictionary_value t = None ∧ list_item t = None ∧
  map_entries t = None ∧ struct_fields t = None.

(** A value that an array of the type holds. *)
Definition proper_value (t : DataType) (v : option Value) : Prop :=
  match t with
  | Float16 | Float32 | Float64 => v = None ∨ ∃ f, v = Some (V_Float f)
  | _ => match decimal t with
         | Some (_, max) => v = None ∨ ∃ z, v = Some (V_Decimal z) ∧ Z.abs z ≤ max
         | None => True
         end
  end.

(** An array as Arrow builds it, its parts of the types of its fields.  The slot of a null
    fixed-size list of one element holds a null: the cast unwraps it without a look at the
    list's own nulls. *)
Inductive proper : Array → Prop :=
  | proper_flat t values : is_flat t → Forall (proper_value t) values → proper (A_Flat t values)
  | proper_list t f valid ranges child :
      list_item t = Some f → data_type child = f_type f → proper child → length valid = length ranges →
      (one_element t ≠ None → length (logical child) = length valid ∧
         ranges = (λ i, (i, S i)) <$> seq 0 (length valid) ∧
         ∀ i, valid !! i = Some false → logical child !! i = Some None) →
      proper (A_List t valid ranges child)
  | proper_map entries sorted k v valid ranges entry_valid keys values :
      key_value entries = Some (k, v) → data_type keys = f_type k → data_type values = f_type v →
      proper keys → proper values → length valid = length ranges →
      proper (A_Map entries sorted valid ranges entry_valid keys values)
  | proper_struct fields valid columns :
      Forall2 (λ f c, data_type c = f_type f ∧ proper c ∧ length (logical c) = length valid) fields columns →
      proper (A_Struct fields valid columns)
  | proper_dictionary key value keys values :
      data_type values = value → proper values → proper (A_Dictionary key value keys values)
  | proper_run ends values_field run_ends values :
      index_type (f_type ends) = true → data_type values = f_type values_field → proper values →
      proper (A_Run ends values_field run_ends values)
  | proper_union fields dense type_ids offsets children :
      (∀ id f, (id, f) ∈ fields → ∃ c, child_of id children = Some c ∧ data_type c = f_type f ∧ proper c) →
      proper (A_Union fields dense type_ids offsets children).

(** *** Lists *)

Lemma nth_fmap_false {A} (f : option A → bool) (l : list (option A)) i :
  f None = false → nth i (f <$> l) false = f (nth i l None).
Proof. intros <-. apply map_nth. Qed.

Lemma existsb_false_nth {A} (f : option A → bool) l i : existsb f l = false → f None = false →
  false = f (nth i l None).
Proof.
  intros Hl Hn. destruct (decide (i < length l)%nat) as [Hi|Hi].
  - symmetry. by apply existsb_nth.
  - by rewrite nth_overflow by lia.
Qed.

Lemma slice_fmap {A B} (f : A → B) r l : slice r (f <$> l) = f <$> slice r l.
Proof. unfold slice. by rewrite fmap_take, fmap_drop. Qed.

Lemma existsb_fmap {A} (f : A → bool) l : existsb id (f <$> l) = existsb f l.
Proof. induction l as [|x l IH]; [done|]. csimpl. by rewrite IH. Qed.

Lemma per_row_zip {A B} (f : A → bool) (g : list A → B) (h : option B → bool) valid ranges l :
  length valid = length ranges → (∀ x, h (Some (g x)) = existsb f x) → h None = false →
  per_row valid ranges (f <$> l) = h <$> zip_with (λ v r, if v : bool then Some (g (slice r l)) else None) valid ranges.
Proof.
  intros Hl Hs Hn. apply list_eq. intros i. unfold per_row. rewrite list_lookup_imap, list_lookup_fmap, lookup_zip_with.
  destruct (ranges !! i) as [r|] eqn:Er; simpl; [|by destruct (valid !! i)].
  destruct (lookup_lt_is_Some_2 valid i) as [v Hv]; [rewrite Hl; by eapply lookup_lt_Some|].
  rewrite Hv. simpl. rewrite (nth_lookup_Some valid i false v Hv), slice_fmap, existsb_fmap.
  destruct v; simpl; [by rewrite Hs|by rewrite Hn].
Qed.

Section Found.
Context (can_cast_types : DataType → DataType → bool) (sources : Sources).
Abbreviation drops := (drops can_cast_types).
Abbreviation drops_fraction := (drops_fraction can_cast_types).
Abbreviation dropped_at := (dropped_at can_cast_types).
Abbreviation pairing := (pairing can_cast_types).

Lemma drops_null from to : drops from to sources None = false.
Proof.
  unfold Fractions.drops. generalize (size from + size to)%nat. intros n. revert from to.
  induction n as [|n IH]; intros from to; [done|]. simpl. case_decide; [done|].
  destruct (pairing from to) as [f t|t|[[id f]|]|v|f t|f|[[fk fv]|] [[tk tv]|]|fs|]; try done; try apply IH.
  apply andb_false_r.
Qed.

(** What [dropped_at] is to answer. *)
Definition found (a : Array) (to : DataType) (d : option (list bool)) : Prop :=
  d = if drops_fraction (data_type a) to sources
      then Some (drops (data_type a) to sources <$> logical a) else None.

Section Step.
Context (n : nat).
Hypothesis IH : ∀ a to, proper a → (size (data_type a) + size to ≤ n)%nat → found a to (dropped_at n a to sources).

(** A type and what it is paired with, where something may be dropped. *)
Definition goes (a : Array) (to : DataType) : Prop :=
  (size (data_type a) + size to ≤ S n)%nat ∧ drops_fraction (data_type a) to sources = true ∧ data_type a ≠ to.

Lemma found_into a to t : proper a → goes a to → pairing (data_type a) to = P_Into t →
  found a to (dropped_at (S n) a to sources).
Proof.
  intros Ha (Hs & Hd & Hne) Hp. unfold found. rewrite Hd. cbn [Fractions.dropped_at]. rewrite Hd. cbn [negb].
  pose proof (pairing_smaller can_cast_types (data_type a) to) as Hlt. rewrite Hp in *. simpl in Hlt.
  rewrite drops_fraction_eq, decide_False, Hp in Hd by done.
  assert (E : found a t (dropped_at n a t sources)) by (apply IH; [done|lia]). unfold found in E. rewrite Hd in E.
  destruct a; rewrite E; f_equal; apply list_fmap_ext; intros _ v _; symmetry; rewrite drops_eq, decide_False by done;
    by rewrite Hp.
Qed.
(** The answer for a child, where something may be dropped in it. *)
Lemma found_child a to : proper a → (size (data_type a) + size to ≤ n)%nat →
  drops_fraction (data_type a) to sources = true →
  dropped_at n a to sources = Some (drops (data_type a) to sources <$> logical a).
Proof. intros Ha Hs Hd. pose proof (IH a to Ha Hs) as E. unfold found in E. by rewrite Hd in E. Qed.

(** The values of a type, one step on. *)
Lemma drops_step from to v : from ≠ to → drops from to sources v =
  match pairing from to with
  | P_Runs f t => drops f t sources v
  | P_Into t => drops from t sources v
  | P_Union (Some (id, f)) =>
      match v with
      | Some (V_Union id' v) => bool_decide (id' = id) && drops (f_type f) to sources v
      | _ => false
      end
  | P_Dictionary value => drops value to sources v
  | P_Items f t => match v with Some (V_List l) => existsb (drops f t sources) l | _ => false end
  | P_Unwrap f => match v with Some (V_List [x]) => drops f to sources x | _ => false end
  | P_Map (Some (fk, fv)) (Some (tk, tv)) =>
      match v with
      | Some (V_Map l) =>
          existsb (λ e, match e with
            | Some (k, v) => drops (f_type fk) (f_type tk) sources k || drops (f_type fv) (f_type tv) sources v
            | None => false end) l
      | _ => false
      end
  | P_Struct fs =>
      match v with
      | Some (V_Struct l) => existsb (λ '(f, i, t), drops f t sources (l !! i ≫= id)) fs
      | _ => false
      end
  | P_Leaf =>
      drops_leaf from to sources &&
      match v with
      | Some (V_Float v) => float_fraction v
      | Some (V_Decimal z) =>
          match decimal from with Some (scale, _) => negb (Z.rem z (10 ^ scale) =? 0) | None => false end
      | _ => false
      end
  | _ => false
  end.
Proof. intros Hne. by rewrite drops_eq, decide_False. Qed.

Ltac open_step Hd Hne :=
  unfold found; rewrite Hd; cbn [Fractions.dropped_at]; rewrite Hd; cbn [negb];
  rewrite drops_fraction_eq, decide_False in Hd by exact Hne.

Lemma found_run ends vf run_ends values to : proper (A_Run ends vf run_ends values) →
  goes (A_Run ends vf run_ends values) to →
  found (A_Run ends vf run_ends values) to (dropped_at (S n) (A_Run ends vf run_ends values) to sources).
Proof.
  intros Ha (Hs & Hd & Hne). inversion Ha as [| | | | |? ? ? ? Hends Ht Hv|]; subst.
  assert (Hp : ∃ t, pairing (RunEndEncoded ends vf) to = P_Runs (f_type vf) t).
  { unfold Fractions.pairing. simpl. destruct (run_value to); by eexists. }
  destruct Hp as [t Hp]. open_step Hd Hne. cbn [data_type] in *. rewrite Hp in *.
  pose proof (pairing_smaller can_cast_types (RunEndEncoded ends vf) to) as Hlt. rewrite Hp in Hlt. cbn [smaller] in Hlt.
  rewrite Hends, (found_child values t), Ht; [|done|rewrite Ht; lia|by rewrite Ht].
  cbn [mbind option_bind logical array_len]. f_equal. rewrite <-list_fmap_compose. apply list_fmap_ext. intros _ i _.
  rewrite nth_fmap_false by apply drops_null. simpl.
  by rewrite (drops_step (RunEndEncoded ends vf)), Hp.
Qed.

Lemma found_dictionary key v keys values to : proper (A_Dictionary key v keys values) →
  goes (A_Dictionary key v keys values) to → run_value to = None →
  found (A_Dictionary key v keys values) to (dropped_at (S n) (A_Dictionary key v keys values) to sources).
Proof.
  intros Ha (Hs & Hd & Hne) Hr. inversion Ha as [| | | |? ? ? ? Ht Hv| |]; subst.
  assert (Hp : pairing (Dictionary key (data_type values)) to = P_Dictionary (data_type values))
    by (unfold Fractions.pairing; simpl; by rewrite Hr).
  open_step Hd Hne. cbn [data_type] in *. rewrite Hp in *.
  pose proof (pairing_smaller can_cast_types (Dictionary key (data_type values)) to) as Hlt. rewrite Hp in Hlt. cbn [smaller] in Hlt.
  rewrite (found_child values to); [|done|lia|done]. cbn [mbind option_bind logical].
  assert (Hkey : ∀ k, match k with Some k => nth k (drops (data_type values) to sources <$> logical values) false | None => false end =
    drops (Dictionary key (data_type values)) to sources (match k with Some k => nth k (logical values) None | None => None end)).
  { intros [k|]; [|by rewrite drops_null]. rewrite nth_fmap_false by apply drops_null.
    by rewrite (drops_step (Dictionary key (data_type values))), Hp. }
  rewrite existsb_fmap. destruct (existsb (drops _ to sources) (logical values)) eqn:Ex; simpl; f_equal;
    rewrite <-list_fmap_compose.
  - apply list_fmap_ext. intros _ k _. apply Hkey.
  - apply list_eq. intros i. rewrite list_lookup_fmap. destruct (keys !! i) as [k|] eqn:Ek; simpl.
    + rewrite lookup_replicate_2 by by eapply lookup_lt_Some. f_equal. rewrite <-Hkey. destruct k as [k|]; [|done].
      rewrite nth_fmap_false by apply drops_null. apply existsb_false_nth; [done|apply drops_null].
    + apply lookup_replicate_None. by apply lookup_ge_None.
Qed.

Lemma found_union fields dense type_ids offsets children to : proper (A_Union fields dense type_ids offsets children) →
  goes (A_Union fields dense type_ids offsets children) to → run_value to = None →
  found (A_Union fields dense type_ids offsets children) to
    (dropped_at (S n) (A_Union fields dense type_ids offsets children) to sources).
Proof.
  intros Ha (Hs & Hd & Hne) Hr. inversion Ha as [| | | | | |? ? ? ? ? Hc]; subst.
  assert (Hp : pairing (Union fields dense) to = P_Union (union_child can_cast_types fields to))
    by (unfold Fractions.pairing; simpl; by rewrite Hr).
  open_step Hd Hne. cbn [data_type] in *. rewrite Hp in *.
  pose proof (pairing_smaller can_cast_types (Union fields dense) to) as Hlt. rewrite Hp in Hlt.
  destruct (union_child can_cast_types fields to) as [[id f]|] eqn:Eu; [|done]. cbn [smaller] in Hlt.
  destruct (Hc id f) as (c & Hchild & Ht & Hproper); [by eapply union_child_in|].
  cbn [mbind option_bind]. rewrite Hchild. cbn [mbind option_bind].
  rewrite (found_child c to), Ht; [|done|rewrite Ht; lia|by rewrite Ht]. cbn [mbind option_bind logical]. f_equal.
  apply list_eq. intros i. rewrite list_lookup_fmap, !list_lookup_imap. destruct (type_ids !! i) as [id'|]; [|done]. simpl. f_equal.
  rewrite (drops_step (Union fields dense)), Hp by done. case_bool_decide as Hid; [|done]. subst id'. simpl.
  rewrite nth_fmap_false by apply drops_null. f_equal. unfold child_of in Hchild.
  clear - Hchild. induction children as [|[id' c'] children IHc]; [done|]. simpl in *.
  destruct (bool_decide (id' = id)); [simpl in *; by injection Hchild as ->|by apply IHc].
Qed.

Lemma found_list t valid ranges child to : proper (A_List t valid ranges child) → goes (A_List t valid ranges child) to →
  run_value to = None → dictionary_value to = None →
  found (A_List t valid ranges child) to (dropped_at (S n) (A_List t valid ranges child) to sources).
Proof.
  intros Ha (Hs & Hd & Hne) Hr Hdict. inversion Ha as [|? f ? ? ? Hitem Ht Hc Hl Hone| | | | |]; subst.
  assert (Hnot : run_value t = None ∧ union_fields t = None ∧ dictionary_value t = None ∧ map_entries t = None ∧ struct_fields t = None)
    by by destruct t.
  destruct Hnot as (N1 & N2 & N3 & N4 & N5).
  pose proof (pairing_smaller can_cast_types t to) as Hlt.
  destruct (list_item to) as [g|] eqn:Hto.
  - assert (Hp : pairing t to = P_Items (f_type f) (f_type g))
      by (unfold Fractions.pairing; by rewrite N1, Hr, N2, N3, Hdict, Hitem, Hto).
    open_step Hd Hne. cbn [data_type] in *. rewrite Hp in *. cbn [smaller] in Hlt.
    rewrite (found_child child (f_type g)), Ht; [|done|rewrite Ht; lia|by rewrite Ht].
    cbn [mbind option_bind logical]. f_equal. apply per_row_zip; [done| |apply drops_null].
    intros l. by rewrite (drops_step t), Hp.
  - destruct (one_element t) as [g|] eqn:E1.
    + assert (g = f) as -> by (apply one_element_item in E1; congruence).
      assert (Hp : pairing t to = P_Unwrap (f_type f))
        by (unfold Fractions.pairing; by rewrite N1, Hr, N2, N3, Hdict, Hitem, Hto, E1).
      destruct (Hone ltac:(done)) as (Hlen & Hranges & Hhid).
      open_step Hd Hne. cbn [data_type] in *. rewrite Hp in *. cbn [smaller] in Hlt.
      rewrite (found_child child to), Ht; [|done|rewrite Ht; lia|by rewrite Ht]. f_equal. cbn [logical].
      apply list_eq. intros i. rewrite !list_lookup_fmap, lookup_zip_with, Hranges, list_lookup_fmap.
      destruct (valid !! i) as [v|] eqn:Ev; simpl.
      2: { rewrite lookup_ge_None_2; [done|]. rewrite Hlen. by apply lookup_ge_None. }
      pose proof (lookup_lt_Some _ _ _ Ev) as Hi. rewrite lookup_seq_lt by done. simpl.
      destruct (lookup_lt_is_Some_2 (logical child) i) as [x Hx]; [by rewrite Hlen|]. rewrite Hx. simpl. f_equal.
      destruct v; [|rewrite (Hhid i Ev) in Hx; injection Hx as <-; by rewrite !drops_null].
      rewrite (drops_step t), Hp by done. unfold slice. simpl. replace (S i - i)%nat with 1%nat by lia.
      by rewrite (drop_S (logical child) x i Hx).
    + exfalso. rewrite drops_fraction_eq, decide_False in Hd by done. cbn [data_type] in Hd.
      assert (Hp : pairing t to = P_Leaf).
      { unfold Fractions.pairing. rewrite N1, Hr, N2, N3, Hdict, Hitem, Hto, E1, N4, N5.
        destruct (any_length to) eqn:Ea; [apply any_length_item in Ea; congruence|].
        destruct (one_element to) eqn:Eo; [apply one_element_item in Eo; congruence|]. done. }
      rewrite Hp in Hd. unfold drops_leaf in Hd. destruct t; try done; by rewrite andb_false_r in Hd.
Qed.

(** What is read of a child that may have nothing to drop. *)
Lemma nth_child a to i : proper a → (size (data_type a) + size to ≤ n)%nat →
  match dropped_at n a to sources with Some d => nth i d false | None => false end =
  drops (data_type a) to sources (nth i (logical a) None).
Proof.
  intros Ha Hs. pose proof (IH a to Ha Hs) as E. unfold found in E. rewrite E.
  destruct (drops_fraction (data_type a) to sources) eqn:Hd; [by rewrite nth_fmap_false by apply drops_null|].
  symmetry. by apply drops_nothing.
Qed.

Lemma found_map entries sorted valid ranges entry_valid keys values to :
  proper (A_Map entries sorted valid ranges entry_valid keys values) →
  goes (A_Map entries sorted valid ranges entry_valid keys values) to →
  (∀ t, pairing (Map entries sorted) to ≠ P_Into t) →
  found (A_Map entries sorted valid ranges entry_valid keys values) to
    (dropped_at (S n) (A_Map entries sorted valid ranges entry_valid keys values) to sources).
Proof.
  intros Ha (Hs & Hd & Hne) Hinto. inversion Ha as [| |? ? k v ? ? ? ? ? Hkv Hk Hv Pk Pv Hl| | | |]; subst.
  assert (Hp : ∃ m, map_entries to = Some m ∧ pairing (Map entries sorted) to = P_Map (Some (k, v)) (key_value m)).
  { revert Hinto. rewrite drops_fraction_eq, decide_False in Hd by done. revert Hd. cbn [data_type].
    unfold Fractions.pairing. simpl. destruct (run_value to); [intros _ X; by destruct (X _ eq_refl)|].
    destruct (dictionary_value to); [intros _ X; by destruct (X _ eq_refl)|]. destruct (any_length to); [intros _ X; by destruct (X _ eq_refl)|].
    destruct (one_element to); [intros _ X; by destruct (X _ eq_refl)|]. destruct (map_entries to) as [m|]; [rewrite Hkv; eauto|].
    intros H. unfold drops_leaf in H. by rewrite andb_false_r in H. }
  destruct Hp as (m & Hm & Hp).
  open_step Hd Hne. cbn [data_type] in *. rewrite Hp in *.
  pose proof (pairing_smaller can_cast_types (Map entries sorted) to) as Hlt. rewrite Hp in Hlt.
  destruct (key_value m) as [[tk tv]|]; [|done]. cbn [smaller] in Hlt.
  rewrite <-Hk, <-Hv in Hlt. f_equal. cbn [logical].
  set (f := λ e : option (option Value * option Value), match e with
            | Some (k0, v0) => drops (f_type k) (f_type tk) sources k0 || drops (f_type v) (f_type tv) sources v0
            | None => false end).
  rewrite <-(per_row_zip f V_Map); [|done| |apply drops_null].
  2: { intros l. rewrite (drops_step (Map entries sorted)) by done. by rewrite Hp. }
  f_equal. apply list_eq. intros j. rewrite list_lookup_fmap, !list_lookup_imap.
  destruct (entry_valid !! j) as [e|]; [|done]. simpl. f_equal.
  rewrite !nth_child, Hk, Hv by (done || lia). by destruct e.
Qed.

(** Every field's answers, put together. *)
Lemma fold_fields (valid : list bool) (columns : list Array) (fields : list (DataType * nat * DataType)) (o : list bool) :
  Forall (λ '(f, i, t), ∃ c, columns !! i = Some c ∧ data_type c = f ∧ proper c ∧
    length (logical c) = length valid ∧ (size f + size t ≤ n)%nat) fields →
  length o = length valid →
  fold_left (λ o '(_, index, t),
     match columns !! index ≫= (λ c, dropped_at n c t sources) with Some d => zip_with orb o d | None => o end) fields o =
  imap (λ i b, b || existsb (λ '(f, j, t), drops f t sources
                       (((λ c, nth i c None) <$> (logical <$> columns)) !! j ≫= id)) fields) o.
Proof.
  intros H. revert o. induction H as [|[[f j] t] fields (c & Hc & Ht & Pc & Hl & Hsz) _ IHf]; intros o Ho.
  - simpl. apply list_eq. intros i. rewrite list_lookup_imap. destruct (o !! i); simpl; [by rewrite orb_false_r|done].
  - cbn [fold_left]. rewrite Hc. cbn [mbind option_bind]. pose proof (IH c t Pc) as E. rewrite Ht in E.
    specialize (E Hsz). unfold found in E. rewrite E, Ht. clear E.
    assert (Hrow : ∀ i, ((λ c, nth i c None) <$> (logical <$> columns)) !! j ≫= id = nth i (logical c) None).
    { intros i. by rewrite !list_lookup_fmap, Hc. }
    destruct (drops_fraction f t sources) eqn:Hd.
    + rewrite IHf by (rewrite length_zip_with, length_fmap; lia). apply list_eq. intros i.
      rewrite !list_lookup_imap, lookup_zip_with, list_lookup_fmap. destruct (o !! i) as [b|] eqn:Eb; [|done]. simpl.
      destruct (lookup_lt_is_Some_2 (logical c) i) as [x Hx]; [rewrite Hl, <-Ho; by eapply lookup_lt_Some|].
      rewrite Hx. simpl. rewrite Hrow, (nth_lookup_Some _ _ None x Hx). by rewrite orb_assoc.
    + rewrite IHf by done. apply imap_ext. intros i b _. simpl. f_equal. rewrite drops_nothing by done. done.
Qed.

Lemma found_struct fields valid columns to : proper (A_Struct fields valid columns) →
  goes (A_Struct fields valid columns) to →
  (∀ t, pairing (Struct fields) to ≠ P_Into t) →
  found (A_Struct fields valid columns) to (dropped_at (S n) (A_Struct fields valid columns) to sources).
Proof.
  intros Ha (Hs & Hd & Hne) Hinto. inversion Ha as [| | |? ? ? Hcols| | |]; subst.
  assert (Hp : ∃ ts, struct_fields to = Some ts ∧ pairing (Struct fields) to =
    P_Struct (omap (λ '(i, t), (λ f, (f_type f, i, f_type t)) <$> fields !! i) (struct_pairs fields ts))).
  { revert Hinto. rewrite drops_fraction_eq, decide_False in Hd by done. revert Hd. cbn [data_type].
    unfold Fractions.pairing. simpl. destruct (run_value to); [intros _ X; by destruct (X _ eq_refl)|].
    destruct (dictionary_value to); [intros _ X; by destruct (X _ eq_refl)|]. destruct (any_length to); [intros _ X; by destruct (X _ eq_refl)|].
    destruct (one_element to); [intros _ X; by destruct (X _ eq_refl)|]. destruct (struct_fields to) as [ts|]; [eauto|].
    intros H. unfold drops_leaf in H. by rewrite andb_false_r in H. }
  destruct Hp as (ts & _ & Hp).
  open_step Hd Hne. cbn [data_type] in *. rewrite Hp in *.
  pose proof (pairing_smaller can_cast_types (Struct fields) to) as Hlt. rewrite Hp in Hlt. cbn [smaller] in Hlt.
  set (pairs := omap _ (struct_pairs fields ts)) in *. f_equal. rewrite fold_fields with (valid := valid).
  - cbn [logical]. apply list_eq. intros i. rewrite lookup_zip_with, list_lookup_fmap, !list_lookup_imap.
    destruct (valid !! i) as [v|] eqn:Ev; [|done]. simpl. rewrite lookup_replicate_2 by by eapply lookup_lt_Some.
    simpl. f_equal. destruct v; simpl; [|by rewrite drops_null]. by rewrite (drops_step (Struct fields)), Hp.
  - apply Forall_forall. intros [[f i] t] Hin. rewrite Forall_forall in Hlt. pose proof (Hlt _ Hin) as Hsz. cbn beta iota in Hsz.
    apply list_elem_of_omap in Hin as ([j x] & _ & He). destruct (fields !! j) as [y|] eqn:Ey; [|done].
    simpl in He. injection He as <- <- <-. destruct (Forall2_lookup_l _ _ _ _ _ Hcols Ey) as (c & Hc & Ht & Pc & Hl).
    exists c. split_and!; try done. lia.
  - by rewrite length_replicate.
Qed.

Lemma found_flat t values to : proper (A_Flat t values) → goes (A_Flat t values) to →
  (∀ t', pairing t to ≠ P_Into t') →
  found (A_Flat t values) to (dropped_at (S n) (A_Flat t values) to sources).
Proof.
  intros Ha (Hs & Hd & Hne) Hinto. inversion Ha as [? ? (N1 & N2 & N3 & N4 & N5 & N6) Hv| | | | | |]; subst.
  assert (Hp : pairing t to = P_Leaf).
  { revert Hinto. unfold Fractions.pairing. rewrite N1, N2, N3, N4, N5, N6.
    destruct (run_value to); [intros X; by destruct (X _ eq_refl)|]. destruct (dictionary_value to); [intros X; by destruct (X _ eq_refl)|].
    destruct (one_element t) eqn:E; [apply one_element_item in E; congruence|].
    destruct (any_length to); [intros X; by destruct (X _ eq_refl)|]. destruct (one_element to); [intros X; by destruct (X _ eq_refl)|]. done. }
  open_step Hd Hne. cbn [data_type] in *. rewrite Hp in *. cbn [logical].
  assert (Hdrops : ∀ v, drops t to sources v = match v with
    | Some (V_Float v) => float_fraction v
    | Some (V_Decimal z) => match decimal t with Some (scale, _) => negb (Z.rem z (10 ^ scale) =? 0) | None => false end
    | _ => false end) by (intros v; by rewrite drops_step, Hp, Hd).
  assert (Hfloat : Forall (λ v, v = None ∨ ∃ f, v = Some (V_Float f)) values →
    float_fractions values = drops t to sources <$> values).
  { intros Hf. unfold float_fractions. apply Forall_fmap_ext_1. eapply Forall_impl; [exact Hf|].
    intros v [->|[f ->]]; by rewrite Hdrops. }
  assert (Hdec : ∀ scale max, decimal t = Some (scale, max) → 0 < scale →
    Forall (λ v, v = None ∨ ∃ z, v = Some (V_Decimal z) ∧ Z.abs z ≤ max) values →
    decimal_fractions max scale values = drops t to sources <$> values).
  { intros scale max Hdc Hsc Hf. unfold decimal_fractions. apply Forall_fmap_ext_1. eapply Forall_impl; [exact Hf|].
    intros v [->|(z & -> & Hz)]; rewrite Hdrops; [done|]. rewrite Hdc.
    destruct (Z.leb_spec (10 ^ scale) max); [done|]. f_equal.
    rewrite (proj2 (Z.rem_small_iff z (10 ^ scale) ltac:(lia))); [done|lia]. }
  unfold drops_leaf in Hd. apply andb_true_iff in Hd as [_ Hd].
  destruct t; try done; simpl in Hd; rewrite ?Hfloat by done; try done;
    (simpl decimal; cbn [mbind option_bind]; f_equal; apply Hdec; [done|by apply Z.ltb_lt|exact Hv]).
Qed.
End Step.

#[local] Instance into_dec p : Decision (∃ t, p = P_Into t).
Proof. destruct p; [right; by intros [? ?]|left; by eexists|right; by intros [? ?]..]. Defined.

Lemma not_into_to from to : (∀ t, pairing from to ≠ P_Into t) → run_value from = None →
  run_value to = None ∧ (union_fields from = None → dictionary_value from = None → dictionary_value to = None).
Proof.
  unfold Fractions.pairing. intros Hinto Hr. rewrite Hr in Hinto.
  destruct (run_value to); [by destruct (Hinto _ eq_refl)|]. split; [done|]. intros Hu Hd. rewrite Hu, Hd in Hinto.
  destruct (dictionary_value to); [by destruct (Hinto _ eq_refl)|done].
Qed.

Lemma dropped_found n a to : proper a → (size (data_type a) + size to ≤ n)%nat →
  found a to (dropped_at n a to sources).
Proof.
  revert a to. induction n as [|n IH]; intros a to Ha Hs; [by destruct (data_type a); simpl in Hs; lia|].
  destruct (drops_fraction (data_type a) to sources) eqn:Hd.
  2: { unfold found. rewrite Hd. cbn [Fractions.dropped_at]. by rewrite Hd. }
  assert (Hg : goes n a to).
  { split; [done|]. split; [done|]. intros E. rewrite drops_fraction_eq, decide_True in Hd; done. }
  destruct (decide (∃ t, pairing (data_type a) to = P_Into t)) as [[t Hp]|Hinto]; [by eapply found_into|].
  assert (Hinto' : ∀ t, pairing (data_type a) to ≠ P_Into t) by (intros t E; apply Hinto; by exists t).
  destruct a; cbn [data_type] in *; [by apply found_flat|..|by apply found_run|].
  - inversion Ha as [|? f ? ? ? Hitem| | | | |]; subst. destruct (not_into_to t to) as [Hr Hdi];
      [done|by destruct t|]. apply found_list; [done..|apply Hdi; by destruct t].
  - by apply found_map.
  - by apply found_struct.
  - destruct (not_into_to (Dictionary key value) to) as [? _]; [done|done|by apply found_dictionary].
  - destruct (not_into_to (Union fields dense) to) as [? _]; [done|done|by apply found_union].
Qed.
End Found.


