(* ===== verification/Coerce.v ===== *)
(** * Coerce: casting a batch to the target's schema (src/schema.rs)

    [coerce] fails a batch on the first value the target cannot take; [coerce_quarantining]
    sets its rows aside.  The casts themselves are Arrow's and transform/decimal.rs's: what one
    value becomes is an argument.  The fractions are Fractions's. *)

From Stdlib Require Import ZArith Lia SpecFloat.
From stdpp Require Import base list strings.
From S2P Require Import Prelude Error F64 Schema Fractions.

Open Scope Z_scope.
Open Scope ddi_scope.

Abbreviation Column := (Schema.Column Value).
Abbreviation Batch := (Schema.Batch Value).

(** [Fractions] *)
Inductive FractionPolicy := Refused | FloatsTruncated.

Record SchemaCoercer := { target : Schema; fractions : FractionPolicy }.

(** [SchemaCoercer::new], [truncating_float_fractions] *)
Definition new (target : Schema) : SchemaCoercer := {| target := target; fractions := Refused |}.
Definition truncating_float_fractions (target : Schema) : SchemaCoercer :=
  {| target := target; fractions := FloatsTruncated |}.

Record Rejected := { rj_rows : Batch; rj_reasons : list string; rj_columns : list (option string) }.
Record Coerced := { good : Batch; bad : option Rejected }.

(** The rows of a mask. *)
Fixpoint select {A} (mask : list bool) (l : list A) : list A :=
  match mask, l with
  | b :: mask, x :: l => if b : bool then x :: select mask l else select mask l
  | _, _ => []
  end.
Definition filter_column (mask : list bool) (c : Column) : Column :=
  Build_Column (c_type c) (select mask (c_values c)).
(** [filter_record_batch] *)
Definition filter_batch (mask : list bool) (b : Batch) : Batch :=
  Build_Batch (b_schema b) (filter_column mask <$> b_columns b) (length (select mask (seq 0 (num_rows b)))).

(** [index_of], and the column there. *)
Definition column_of (b : Batch) (name : string) : option Column :=
  i ← position name (b_schema b); b_columns b !! i.

Section Coerce.
Context (can_cast_types : DataType → DataType → bool).
(** What one value becomes under the cast, nothing when it does not fit; and under the cast with
    [safe], which makes a null of it, or of the part of it that does not fit. *)
Context (cast_value cast_value_safe : DataType → DataType → Value → option Value).

Definition cast_lenient (c : Column) (to : DataType) : Column :=
  Build_Column to ((λ v, v ≫= cast_value_safe (c_type c) to) <$> c_values c).

(** [decimal::cast_with_options]: with [safe], a value that does not fit is a null. *)
Definition cast_with_options (safe : bool) (c : Column) (to : DataType) : result Error Column :=
  if can_cast_types (c_type c) to then
    if safe then Ok (cast_lenient c to)
    else match cast_strict cast_value c to with
         | Some c => Ok c
         | None => Err (Error.Schema "cannot cast without loss")
         end
  else Err (Error.Schema "cannot cast without loss").

Section Coercer.
Context (self : SchemaCoercer).

Definition sources : Sources := match fractions self with Refused => FloatsAndDecimals | FloatsTruncated => Decimals end.

(** [refused_fractions] *)
Definition refused_fractions (c : Column) (to : DataType) : option (list bool) :=
  if drops_fraction can_cast_types (c_type c) to sources
  then Some (drops can_cast_types (c_type c) to sources <$> c_values c) else None.

(** [columns_present_in] *)
Definition columns_present_in (b : Batch) : list string :=
  f_name <$> filter (λ f, is_Some (position (f_name f) (b_schema b))) (target self).

Definition new_null_array (t : DataType) (n : nat) : Column := Build_Column t (replicate n None).

(** One field of [coerce]. *)
Definition coerce_field (b : Batch) (field : Field) : result Error Column :=
  match column_of b (f_name field) with
  | Some col =>
      let? resolved :=
        if decide (c_type col = f_type field) then Ok col
        else
          let? cast := cast_with_options false col (f_type field) in
          match refused_fractions col (f_type field) with
          | Some d => if existsb id d then Err (Error.Schema "a value with a fraction") else Ok cast
          | None => Ok cast
          end in
      if negb (f_nullable field) && (0 <? null_count resolved)%nat
      then Err (Error.Schema "NOT NULL in the target but the batch contains nulls")
      else Ok resolved
  | None =>
      if f_nullable field then Ok (new_null_array (f_type field) (num_rows b))
      else Err (Error.Schema "NOT NULL but the transform produced no such column")
  end.

Fixpoint coerce_fields (b : Batch) (fields : Schema) : result Error (list Column) :=
  match fields with
  | [] => Ok []
  | f :: fields => let? c := coerce_field b f in let? cs := coerce_fields b fields in Ok (c :: cs)
  end.

Definition assembled (fields : Schema) (cs : list Column) : result Error Batch :=
  match try_new fields cs with
  | Some b => Ok b
  | None => Err (Error.Schema "could not assemble batch in target schema")
  end.

(** [coerce] *)
Definition coerce (b : Batch) : result Error Batch :=
  let? columns := coerce_fields b (target self) in assembled (target self) columns.

(** Why a row's value of a column is refused: one turn of [coerce_quarantining]'s inner loop. *)
Definition refusal (field : Field) (col resolved : Column) (dropped : option (list bool)) (i : nat)
    : option (string * string) :=
  if is_valid resolved i then
    match dropped with
    | Some d => if nth i d false then Some (f_name field, "the value has a fraction"%string) else None
    | None => None
    end
  else if is_valid col i then Some (f_name field, "the value does not fit"%string)
  else if negb (f_nullable field) then Some (f_name field, "NOT NULL in the target"%string)
  else None.

(** One field of [coerce_quarantining]. *)
Definition quarantine_field (b : Batch) (field : Field) (rejected : list (option (string * string)))
    : result Error (Column * list (option (string * string))) :=
  match column_of b (f_name field) with
  | Some col =>
      let nested := is_nested (f_type field) || is_nested (c_type col) in
      let? resolved :=
        if decide (c_type col = f_type field) then Ok col
        else cast_with_options (negb nested) col (f_type field) in
      let dropped := refused_fractions col (f_type field) in
      Ok (resolved, imap (λ i slot, match slot with Some r => Some r | None => refusal field col resolved dropped i end)
                      rejected)
  | None =>
      if f_nullable field then Ok (new_null_array (f_type field) (num_rows b), rejected)
      else Err (Error.Schema "NOT NULL but the transform produced no such column")
  end.

Fixpoint quarantine_fields (b : Batch) (fields : Schema) (rejected : list (option (string * string)))
    : result Error (list Column * list (option (string * string))) :=
  match fields with
  | [] => Ok ([], rejected)
  | f :: fields =>
      let? c := quarantine_field b f rejected in
      let? cs := quarantine_fields b fields c.2 in
      Ok (c.1 :: cs.1, cs.2)
  end.

Definition is_none {A} (o : option A) : bool := match o with None => true | Some _ => false end.

(** [coerce_quarantining] *)
Definition coerce_quarantining (b : Batch) : result Error Coerced :=
  let? r := quarantine_fields b (target self) (replicate (num_rows b) None) in
  let '(columns, rejected) := r in
  if forallb is_none rejected then
    let? good := assembled (target self) columns in
    Ok {| good := good; bad := None |}
  else
    let keep := is_none <$> rejected in
    let drop := negb <$> keep in
    let? good := assembled (target self) (filter_column keep <$> columns) in
    let refusals := omap id rejected in
    Ok {| good := good;
          bad := Some {| rj_rows := filter_batch drop b;
                         rj_reasons := snd <$> refusals;
                         rj_columns := (λ r, Some r.1) <$> refusals |} |}.
End Coercer.
End Coerce.

(** Texts as integers, and floats truncated. *)
Definition digits_cast (from to : DataType) (v : Value) : option Value :=
  match v with
  | V_Text s => V_Int <$> (Z.of_N <$> parse_digits s)
  | V_Float f => Some (V_Int (trunc f))
  | _ => None
  end.
(** With [safe], a list of texts keeps its place and loses what is no integer. *)
Definition digits_cast_safe (from to : DataType) (v : Value) : option Value :=
  match from, to, v with
  | List f, List t, V_List l => Some (V_List ((λ v, v ≫= digits_cast (f_type f) (f_type t)) <$> l))
  | _, _, _ => digits_cast from to v
  end.
Lemma digits_safe from to v : is_nested to || is_nested from = false → digits_cast_safe from to v = digits_cast from to v.
Proof. by intros [_ ?]%orb_false_iff; destruct from. Qed.

(** A text, a null and a fraction that do not go into integers. *)
Definition orders : Batch :=
  Build_Batch [mkField "id"%string Utf8 true; mkField "n"%string Float64 true]
    [Build_Column Utf8 [Some (V_Text "1"); Some (V_Text "x"); Some (V_Text "3"); None];
     Build_Column Float64 [Some (V_Float (lit 2 0)); None; Some (V_Float (lit 1 (-1))); Some (V_Float (lit 5 0))]] 4.
Definition integers (later : bool) : SchemaCoercer :=
  new [mkField "n"%string Int64 true; mkField "id"%string Int64 false; mkField "later"%string Utf8 later].

Example quarantines :
  (λ c, (b_columns (good c), rj_columns <$> bad c)) <$>
    ok (coerce_quarantining (λ _ _, true) digits_cast digits_cast_safe (integers true) orders) =
  Some ([Build_Column Int64 [Some (V_Int 2)]; Build_Column Int64 [Some (V_Int 1)]; Build_Column Utf8 [None]],
        Some [Some "id"; Some "n"; Some "id"]%string).
Proof. vm_compute. reflexivity. Qed.

(** ** What is set aside *)

Lemma length_select {A B} mask (l : list A) (k : list B) : length l = length k →
  length (select mask l) = length (select mask k).
Proof.
  revert l k. induction mask as [|b mask IH]; intros [|x l] [|y k] H; try done. simpl in *.
  destruct b; simpl; [f_equal|]; apply IH; lia.
Qed.
Lemma select_fmap {A B} (f : A → B) mask l : select mask (f <$> l) = f <$> select mask l.
Proof. revert l. induction mask as [|b mask IH]; intros [|x l]; try done. csimpl. destruct b; csimpl; by rewrite IH. Qed.
Lemma select_replicate {A} mask (x : A) n : select mask (replicate n x) = replicate (length (select mask (seq 0 n))) x.
Proof.
  revert n. generalize 0%nat. induction mask as [|b mask IH]; intros a [|n]; try done. simpl.
  destruct b; simpl; by rewrite (IH (S a)).
Qed.
Lemma select_Forall {A} (P : A → Prop) mask l :
  (∀ i x, mask !! i = Some true → l !! i = Some x → P x) → Forall P (select mask l).
Proof.
  revert l. induction mask as [|b mask IH]; intros [|x l] H; try done; try constructor. simpl.
  destruct b; [constructor; [by apply (H 0%nat)|]|]; apply IH; intros i y; apply (H (S i)).
Qed.
Lemma select_Forall2 {A B} (P : A → B → Prop) mask l k : length l = length k →
  (∀ i x y, mask !! i = Some true → l !! i = Some x → k !! i = Some y → P x y) →
  Forall2 P (select mask l) (select mask k).
Proof.
  revert l k. induction mask as [|b mask IH]; intros [|x l] [|y k] Hl H; try done; try constructor. simpl in *.
  destruct b; [constructor; [by apply (H 0%nat)|]|]; (apply IH; [lia|]); intros i u v; apply (H (S i)).
Qed.
Lemma select_all {A} mask (l : list A) : Forall (λ b, b = true) mask → length mask = length l → select mask l = l.
Proof. intros H. revert l. induction H as [|b mask -> _ IH]; intros [|x l] Hl; try done. simpl in *. by rewrite IH by lia. Qed.

(** The mask of one row. *)
Definition only (n i : nat) : list bool := (λ j, bool_decide (j = i)) <$> seq 0 n.
Lemma select_only {A} n i (l : list A) x : length l = n → l !! i = Some x → select (only n i) l = [x].
Proof.
  intros <-. unfold only. assert (H : ∀ a i, l !! i = Some x → select ((λ j, bool_decide (j = (a + i)%nat)) <$> seq a (length l)) l = [x]).
  { induction l as [|y l IH]; intros a j Hj; [done|]. simpl. destruct j as [|j]; simpl in Hj.
    - injection Hj as ->. rewrite bool_decide_true by lia. f_equal. clear IH.
      assert (Hno : ∀ b, (a < b)%nat → select ((λ j, bool_decide (j = (a + 0)%nat)) <$> seq b (length l)) l = []).
      { induction l as [|z l IHl]; intros b Hb; [done|]. simpl. rewrite bool_decide_false by lia. apply IHl. lia. }
      apply Hno. lia.
    - rewrite bool_decide_false by lia. rewrite <-(IH (S a) j Hj). f_equal. apply list_fmap_ext. intros _ k _.
      by replace (S a + j)%nat with (a + S j)%nat by lia. }
  apply (H 0%nat).
Qed.

Section Correct.
Context (can_cast_types : DataType → DataType → bool).
Context (cast_value cast_value_safe : DataType → DataType → Value → option Value).
(** A value of no parts becomes a null as a whole. *)
Hypothesis safe_makes_nulls : ∀ from to v, is_nested to || is_nested from = false →
  cast_value_safe from to v = cast_value from to v.
Context (self : SchemaCoercer).
Abbreviation coerce := (coerce can_cast_types cast_value cast_value_safe self).
Abbreviation coerce_field := (coerce_field can_cast_types cast_value cast_value_safe self).
Abbreviation coerce_fields := (coerce_fields can_cast_types cast_value cast_value_safe self).
Abbreviation quarantine_field := (quarantine_field can_cast_types cast_value cast_value_safe self).
Abbreviation quarantine_fields := (quarantine_fields can_cast_types cast_value cast_value_safe self).
Abbreviation coerce_quarantining := (coerce_quarantining can_cast_types cast_value cast_value_safe self).
Abbreviation drops := (drops can_cast_types).

(** What becomes of one value of a column on its way into a field, and whether it may. *)
Definition cast1 (f : Field) (from : DataType) (v : option Value) : option (option Value) :=
  if decide (from = f_type f) then Some v
  else match v with Some x => Some <$> cast_value from (f_type f) x | None => Some None end.
Definition value_ok (f : Field) (from : DataType) (v : option Value) : bool :=
  match cast1 f from v with
  | None => false
  | Some r => negb (drops from (f_type f) (sources self) v) && (f_nullable f || negb (is_none r))
  end.
Definition castable (f : Field) (c : Column) : Prop := c_type c = f_type f ∨ can_cast_types (c_type c) (f_type f) = true.

Lemma drops_same t v s : drops t t s v = false.
Proof. by rewrite drops_eq, decide_True. Qed.
Lemma drops_fraction_same t s : drops_fraction can_cast_types t t s = false.
Proof. by rewrite drops_fraction_eq, decide_True. Qed.

Lemma refused_none c to : existsb id (default [] (refused_fractions can_cast_types self c to)) = false ↔
  Forall (λ v, drops (c_type c) to (sources self) v = false) (c_values c).
Proof.
  unfold refused_fractions. destruct (drops_fraction _ _ _ _) eqn:E; simpl.
  - rewrite existsb_fmap. induction (c_values c) as [|v l IH]; simpl; [done|]. rewrite orb_false_iff, Forall_cons, IH. done.
  - split; [intros _|done]. apply Forall_true. intros v. by apply drops_nothing.
Qed.

Lemma null_count_zero (c : Column) : (0 <? null_count c)%nat = false ↔ Forall (λ r, is_none r = false) (c_values c).
Proof.
  unfold null_count. rewrite Nat.ltb_ge. induction (c_values c) as [|v l IH]; simpl; [by split; [constructor|lia]|].
  rewrite Forall_cons, filter_cons. destruct v; simpl; [rewrite IH; naive_solver|]. split; [lia|naive_solver].
Qed.

Lemma values_ok f from vs rs : Forall2 (λ v r, cast1 f from v = Some r) vs rs →
  Forall (λ v, value_ok f from v = true) vs ↔
  Forall (λ v, drops from (f_type f) (sources self) v = false) vs ∧
  (f_nullable f = true ∨ Forall (λ r, is_none r = false) rs).
Proof.
  induction 1 as [|v r vs rs Hv _ IH]; [split; [by split; [constructor|right; constructor]|constructor]|].
  rewrite !Forall_cons, IH. unfold value_ok. rewrite Hv, andb_true_iff, negb_true_iff, orb_true_iff, negb_true_iff.
  destruct (f_nullable f); naive_solver.
Qed.

Lemma column_eq (c d : Column) : c_type c = c_type d → c_values c = c_values d → c = d.
Proof. destruct c, d. simpl. by intros -> ->. Qed.

(** The values of a column of a type under [cast1], and what the strict cast makes of them. *)
Lemma cast_strict_values c f d : c_type c ≠ f_type f →
  cast_strict cast_value c (f_type f) = Some d ↔
  c_type d = f_type f ∧ Forall2 (λ v r, cast1 f (c_type c) v = Some r) (c_values c) (c_values d).
Proof.
  intros Hne. unfold cast_strict. set (g := λ v, match v with Some v => Some <$> cast_value (c_type c) (f_type f) v | None => Some None end).
  assert (Hg : ∀ v, cast1 f (c_type c) v = g v) by (intros v; unfold cast1; by rewrite decide_False).
  assert (HF : ∀ rs, Forall2 (λ v r, cast1 f (c_type c) v = Some r) (c_values c) rs ↔ mapM g (c_values c) = Some rs).
  { intros rs. rewrite mapM_Some. split; intros H; (eapply Forall2_impl; [exact H|]); intros v r Hvr; simpl in *;
      [by rewrite <-Hg|by rewrite Hg]. }
  rewrite HF. destruct (mapM g (c_values c)) as [vs|] eqn:E; simpl; [|naive_solver].
  split; [by intros [= <-]|]. intros [Ht [= ->]]. f_equal. by apply column_eq.
Qed.

Lemma cast1_same f vs rs : Forall2 (λ v r, cast1 f (f_type f) v = Some r) vs rs ↔ rs = vs.
Proof.
  split.
  - induction 1 as [|v r vs rs Hv _ IH]; [done|]. unfold cast1 in Hv. rewrite decide_True in Hv by done. by simplify_eq.
  - intros ->. apply Forall_Forall2_diag, Forall_true. intros v. unfold cast1. by rewrite decide_True.
Qed.

(** A column is coerced when every value is one the field takes. *)
Lemma coerce_column b f col c : column_of b (f_name f) = Some col →
  coerce_field b f = Ok c ↔
  castable f col ∧ c_type c = f_type f ∧ Forall2 (λ v r, cast1 f (c_type col) v = Some r) (c_values col) (c_values c) ∧
  Forall (λ v, value_ok f (c_type col) v = true) (c_values col).
Proof.
  intros Hcol. unfold Coerce.coerce_field. rewrite Hcol.
  set (r := if decide (c_type col = f_type f) then Ok col else _).
  assert (Hr : ∀ c, r = Ok c ↔ castable f col ∧ c_type c = f_type f ∧
    Forall2 (λ v r, cast1 f (c_type col) v = Some r) (c_values col) (c_values c) ∧
    Forall (λ v, drops (c_type col) (f_type f) (sources self) v = false) (c_values col)).
  { clear c. intros c. unfold r. case_decide as Ht.
    - rewrite Ht, cast1_same. split.
      + intros [= <-]. split; [by left|]. split; [done|]. split; [done|]. apply Forall_true. intros v. apply drops_same.
      + intros (_ & Hc & Hv & _). f_equal. apply column_eq; congruence.
    - rewrite <-refused_none. unfold Coerce.cast_with_options. destruct (can_cast_types _ _) eqn:Hcan.
      2: { split; [done|]. intros ([?|?] & _); congruence. }
      assert (Hd : ∀ d : Column, match refused_fractions can_cast_types self col (f_type f) with
        | Some d' => if existsb id d' then Err (Error.Schema "a value with a fraction") else Ok d
        | None => Ok d end =
        if existsb id (default [] (refused_fractions can_cast_types self col (f_type f)))
        then Err (Error.Schema "a value with a fraction") else Ok d)
        by (intros d; by destruct (refused_fractions _ _ _ _)).
      pose proof (cast_strict_values col f) as Hs. specialize (λ d, Hs d Ht).
      destruct (cast_strict cast_value col (f_type f)) as [d|]; simpl.
      + rewrite Hd. destruct (Hs d) as [Hs1 _]. destruct (Hs1 eq_refl) as [H1 H2].
        destruct (existsb _ _); [split; [done|by intros (_ & _ & _ & ?)]|].
        split; [intros [= <-]; split_and!; try done; by right|].
        intros (_ & Hc1 & Hc2 & _). destruct (Hs c) as [_ Hs2]. by injection (Hs2 (conj Hc1 Hc2)) as ->.
      + split; [done|]. intros (_ & Hc1 & Hc2 & _). destruct (Hs c) as [_ Hs2]. by discriminate (Hs2 (conj Hc1 Hc2)). }
  clearbody r. destruct r as [d|]; simpl; [|split; [done|]].
  - destruct (Hr d) as [H1 _]. destruct (H1 eq_refl) as (Ha & Hb & Hc & Hd).
    pose proof (values_ok f (c_type col) _ _ Hc) as Hok. split.
    + destruct (negb (f_nullable f) && _) eqn:En; [done|]. intros [= <-]. split_and!; try done. apply Hok.
      split; [done|]. apply andb_false_iff in En as [En%negb_false_iff|En%null_count_zero]; [by left|by right].
    + intros (_ & He & Hf & Hg). assert (c = d) as ->.
      { destruct (Hr c) as [_ H2]. enough (@Ok Error _ d = Ok c) by congruence. apply H2. by split_and!. }
      apply Hok in Hg as [_ [Hn|Hn]]; [by rewrite Hn|]. apply null_count_zero in Hn. by rewrite Hn, andb_false_r.
  - intros (Ha & Hb & Hc & Hd). destruct (Hr c) as [_ H2]. discriminate H2. split_and!; try done.
    by apply (values_ok f (c_type col) _ _ Hc) in Hd as [? _].
Qed.

(** ** A column in the quarantine *)

(** What the resolved column holds of a value: its cast, or a null where it does not fit. *)
Definition resolves (f : Field) (from : DataType) (v r : option Value) : Prop :=
  cast1 f from v = Some r ∨ cast1 f from v = None ∧ r = None.

Lemma nth_refused c to i v : c_values c !! i = Some v →
  match refused_fractions can_cast_types self c to with Some d => nth i d false | None => false end =
  drops (c_type c) to (sources self) v.
Proof.
  intros Hv. unfold refused_fractions. destruct (drops_fraction _ _ _ _) eqn:E; [|symmetry; by apply drops_nothing].
  by rewrite nth_fmap_false, (nth_lookup_Some _ _ None v) by (done || apply drops_null).
Qed.

Lemma refusal_spec f col c i v r : c_values col !! i = Some v → c_values c !! i = Some r →
  resolves f (c_type col) v r →
  is_none (refusal f col c (refused_fractions can_cast_types self col (f_type f)) i) = value_ok f (c_type col) v.
Proof.
  intros Hv Hr Hres. pose proof (nth_refused col (f_type f) i v Hv) as Hd. unfold refusal, is_valid, value_ok.
  rewrite Hv, Hr. destruct Hres as [E|[E ->]]; rewrite E.
  - destruct r as [x|].
    + rewrite orb_true_r, andb_true_r. destruct (refused_fractions _ _ _ _) as [d|]; [|by rewrite <-Hd].
      rewrite <-Hd. by destruct (nth i d false).
    + assert (v = None) as ->. { unfold cast1 in E. case_decide; [by simplify_eq|]. destruct v as [x|]; [|done].
        by destruct (cast_value _ _ x). }
      rewrite drops_null. simpl. by destruct (f_nullable f).
  - destruct v as [x|]; [done|]. unfold cast1 in E. by case_decide.
Qed.

Lemma resolved_lookup f col c : castable f col →
  (if decide (c_type col = f_type f) then Ok col
   else cast_with_options can_cast_types cast_value cast_value_safe (negb (is_nested (f_type f) || is_nested (c_type col))) col (f_type f)) = Ok c →
  c_type c = f_type f ∧ Forall2 (resolves f (c_type col)) (c_values col) (c_values c).
Proof.
  intros _. case_decide as Ht.
  - intros [= <-]. split; [done|]. apply Forall_Forall2_diag, Forall_true. intros v. left. unfold cast1. by rewrite decide_True.
  - unfold cast_with_options. destruct (can_cast_types _ _); [|done]. destruct (_ || _) eqn:En; simpl.
    + destruct (cast_strict cast_value col (f_type f)) as [d|] eqn:E; [|done]. intros [= <-].
      apply cast_strict_values in E as [H1 H2]; [|done]. split; [done|]. eapply Forall2_impl; [exact H2|]. by left.
    + intros [= <-]. split; [done|]. simpl. apply Forall2_fmap_r, Forall_Forall2_diag, Forall_true. intros v.
      unfold resolves, cast1. rewrite decide_False by done. destruct v as [x|]; simpl; [|by left].
      rewrite safe_makes_nulls by done. destruct (cast_value _ _ x); [by left|by right].
Qed.

(** A row of a field: whether the target takes it. *)
Definition row_ok (b : Batch) (i : nat) (f : Field) : bool :=
  match column_of b (f_name f) with
  | Some col => value_ok f (c_type col) (nth i (c_values col) None)
  | None => f_nullable f
  end.

Definition field_done (b : Batch) (f : Field) (c : Column) : Prop :=
  match column_of b (f_name f) with
  | Some col => castable f col ∧ c_type c = f_type f ∧ Forall2 (resolves f (c_type col)) (c_values col) (c_values c)
  | None => f_nullable f = true ∧ c = new_null_array (f_type f) (num_rows b)
  end.

(** Every column of a batch has its rows. *)
Definition regular (b : Batch) : Prop := Forall (λ c, length (c_values c) = num_rows b) (b_columns b).

Lemma column_rows b name col : regular b → column_of b name = Some col → length (c_values col) = num_rows b.
Proof.
  unfold regular, column_of. rewrite Forall_forall. intros H Hc. destruct (position _ _); [|done]. simpl in Hc.
  by apply H, (list_elem_of_lookup_2 _ n).
Qed.

Lemma quarantine_one b f rej c rej' : regular b → length rej = num_rows b → quarantine_field b f rej = Ok (c, rej') →
  field_done b f c ∧ length rej' = num_rows b ∧
  ∀ i, (i < num_rows b)%nat → is_none (nth i rej' None) = is_none (nth i rej None) && row_ok b i f.
Proof.
  intros Hb Hl. unfold Coerce.quarantine_field, field_done, row_ok.
  destruct (column_of b (f_name f)) as [col|] eqn:Ec.
  - set (r := if decide (c_type col = f_type f) then Ok col else _).
    destruct r as [d|] eqn:Ed; [|done]. subst r. intros [= <- <-].
    assert (Hcast : castable f col).
    { case_decide as Ht; [by left|]. right. unfold cast_with_options in Ed. by destruct (can_cast_types _ _). }
    destruct (resolved_lookup f col d Hcast Ed) as [H1 H2]. split; [by split_and!|]. split; [by rewrite length_imap|].
    intros i Hi. pose proof (column_rows b _ _ Hb Ec) as Hlen.
    destruct (lookup_lt_is_Some_2 rej i) as [slot Hs]; [lia|].
    destruct (lookup_lt_is_Some_2 (c_values col) i) as [v Hv]; [lia|].
    destruct (Forall2_lookup_l _ _ _ _ _ H2 Hv) as (r & Hr & Hres).
    rewrite (nth_lookup_Some rej i None slot Hs), (nth_lookup_Some (c_values col) i None v Hv).
    erewrite nth_lookup_Some by (rewrite list_lookup_imap, Hs; reflexivity).
    destruct slot; [done|]. simpl. by rewrite (refusal_spec f col d i v r).
  - destruct (f_nullable f); [|done]. intros [= <- <-]. split; [done|]. split; [done|]. intros i _. by rewrite andb_true_r.
Qed.

Lemma quarantine_rows b fs rej cs rej' : regular b → length rej = num_rows b → quarantine_fields b fs rej = Ok (cs, rej') →
  Forall2 (field_done b) fs cs ∧ length rej' = num_rows b ∧
  ∀ i, (i < num_rows b)%nat → is_none (nth i rej' None) = is_none (nth i rej None) && forallb (row_ok b i) fs.
Proof.
  intros Hb. revert rej cs rej'. induction fs as [|f fs IH]; intros rej cs rej' Hl; simpl.
  - intros [= <- <-]. split; [done|]. split; [done|]. intros i _. by rewrite andb_true_r.
  - destruct (quarantine_field b f rej) as [[c rej1]|] eqn:E1; [|done].
    destruct (quarantine_one b f rej c rej1 Hb Hl E1) as (H1 & H2 & H3). simpl.
    destruct (quarantine_fields b fs rej1) as [[cs1 rej2]|] eqn:E2; [|done].
    destruct (IH rej1 cs1 rej2 H2 E2) as (H4 & H5 & H6). intros [= <- <-]. split; [by constructor|]. split; [done|].
    intros i Hi. by rewrite H6, H3, andb_assoc.
Qed.

(** ** The rows kept, and the rows set aside *)

Lemma column_of_filter mask b name : column_of (filter_batch mask b) name = filter_column mask <$> column_of b name.
Proof. unfold column_of, filter_batch. simpl. destruct (position _ _); [|done]. simpl. by rewrite list_lookup_fmap. Qed.

Lemma coerce_kept b fs cs mask : regular b → length mask = num_rows b → Forall2 (field_done b) fs cs →
  (∀ i, mask !! i = Some true → forallb (row_ok b i) fs = true) →
  coerce_fields (filter_batch mask b) fs = Ok (filter_column mask <$> cs).
Proof.
  intros Hb Hm H. induction H as [|f c fs cs Hf _ IH]; intros Hok; [done|]. cbn [Coerce.coerce_fields fmap list_fmap].
  assert (Ef : coerce_field (filter_batch mask b) f = Ok (filter_column mask c)).
  { unfold field_done in Hf. destruct (column_of b (f_name f)) as [col|] eqn:Ec.
    - assert (Hval : ∀ i v, mask !! i = Some true → c_values col !! i = Some v → value_ok f (c_type col) v = true).
      { intros i v Hi Hv. specialize (Hok i Hi). simpl in Hok. apply andb_true_iff in Hok as [Hok _].
        unfold row_ok in Hok. by rewrite Ec, (nth_lookup_Some _ _ None v Hv) in Hok. }
      destruct Hf as (Hc & Ht & Hr). apply (coerce_column _ _ (filter_column mask col)).
      { by rewrite column_of_filter, Ec. }
      split; [done|]. split; [done|]. split.
      + apply select_Forall2; [by eapply Forall2_length|]. intros i v r Hi Hv Hri.
        destruct (Forall2_lookup_l _ _ _ _ _ Hr Hv) as (r' & Hr' & [E|[E _]]); [simpl; congruence|].
        specialize (Hval i v Hi Hv). unfold value_ok in Hval. by rewrite E in Hval.
      + apply select_Forall. intros i v Hi Hv. by eapply Hval.
    - destruct Hf as [Hn ->]. unfold Coerce.coerce_field. rewrite column_of_filter, Ec. simpl. rewrite Hn.
      unfold filter_column, new_null_array. simpl. by rewrite select_replicate. }
  rewrite Ef, IH; [done|]. intros i Hi. specialize (Hok i Hi). simpl in Hok. by apply andb_true_iff in Hok as [_ ?].
Qed.

Lemma coerce_alone b fs i cs : regular b → (i < num_rows b)%nat →
  coerce_fields (filter_batch (only (num_rows b) i) b) fs = Ok cs → forallb (row_ok b i) fs = true.
Proof.
  intros Hb Hi. revert cs. induction fs as [|f fs IH]; intros cs; [done|]. cbn [Coerce.coerce_fields].
  destruct (coerce_field _ f) as [c|] eqn:Ef; [|done]. destruct (coerce_fields _ fs) as [cs'|]; [|done]. intros _.
  simpl. rewrite (IH cs' eq_refl), andb_true_r. unfold row_ok. destruct (column_of b (f_name f)) as [col|] eqn:Ec.
  - assert (Hcol : column_of (filter_batch (only (num_rows b) i) b) (f_name f) =
      Some (filter_column (only (num_rows b) i) col)) by (by rewrite column_of_filter, Ec).
    destruct (proj1 (coerce_column _ f _ c Hcol) Ef) as (_ & _ & _ & Hall).
    pose proof (column_rows b _ _ Hb Ec) as Hlen.
    destruct (lookup_lt_is_Some_2 (c_values col) i) as [v Hv]; [lia|]. simpl in Hall.
    rewrite (select_only _ i _ v) in Hall by done. rewrite (nth_lookup_Some _ _ None v Hv). by inversion Hall.
  - unfold Coerce.coerce_field in Ef. rewrite column_of_filter, Ec in Ef. simpl in Ef. by destruct (f_nullable f).
Qed.

Lemma field_rows b f c : regular b → field_done b f c → length (c_values c) = num_rows b.
Proof.
  unfold field_done. intros Hb. destruct (column_of b (f_name f)) as [col|] eqn:Ec.
  - intros (_ & _ & H). rewrite <-(Forall2_length _ _ _ H). by eapply column_rows.
  - intros [_ ->]. apply length_replicate.
Qed.

Lemma filter_batch_all keep b : regular b → length keep = num_rows b → Forall (λ k, k = true) keep →
  filter_batch keep b = b.
Proof.
  intros Hb Hk Ht. unfold filter_batch. rewrite select_all by (done || by rewrite length_seq). rewrite length_seq.
  assert (E : filter_column keep <$> b_columns b = b_columns b); [|rewrite E; by destruct b].
  rewrite <-(list_fmap_id (b_columns b)) at 2. apply Forall_fmap_ext_1. eapply Forall_impl; [exact Hb|].
  intros c Hc. apply column_eq; [done|]. simpl. apply select_all; [done|]. by rewrite Hk.
Qed.

Lemma length_refusals {A B} (l : list (option A)) (k : list B) : length k = length l →
  length (omap id l) = length (select (negb <$> (is_none <$> l)) k).
Proof. revert k. induction l as [|[x|] l IH]; intros [|y k] H; try done; csimpl in *; [f_equal|]; apply IH; lia. Qed.

(** C35: A row is set aside exactly when the target would not take it. The rows that are kept are,
    in their order, what failing on the first bad value would have made of them alone, so
    nothing is nulled or changed to make them fit; each row that is set aside, alone, fails
    the batch; and a batch whose rows all go through is what [coerce] makes of it. The rejects
    are the rows as they arrived, with a reason and a column each. *)
Theorem a_row_is_set_aside_alone b c :
  regular b → coerce_quarantining b = Ok c →
  ∃ keep, length keep = num_rows b ∧
    coerce (filter_batch keep b) = Ok (good c) ∧
    (∀ i, keep !! i = Some false → ∃ e, coerce (filter_batch (only (num_rows b) i) b) = Err e) ∧
    match bad c with
    | None => coerce b = Ok (good c)
    | Some r => rj_rows r = filter_batch (negb <$> keep) b ∧
                length (rj_reasons r) = num_rows (rj_rows r) ∧ length (rj_columns r) = num_rows (rj_rows r) ∧
                false ∈ keep
    end.
Proof.
  intros Hb. unfold Coerce.coerce_quarantining.
  destruct (quarantine_fields b (target self) (replicate (num_rows b) None)) as [[cs rej]|] eqn:Eq; [|done].
  destruct (quarantine_rows _ _ _ _ _ Hb (length_replicate _ _) Eq) as (Hcs & Hlen & Hrows). cbn [fst snd].
  set (keep := is_none <$> rej). assert (Hk : length keep = num_rows b) by (unfold keep; by rewrite length_fmap).
  assert (Hrow : ∀ i k, keep !! i = Some k → (i < num_rows b)%nat ∧ k = forallb (row_ok b i) (target self)).
  { intros i k Hi. assert (i < num_rows b)%nat as Hlt by (rewrite <-Hk; by eapply lookup_lt_Some). split; [done|].
    unfold keep in Hi. rewrite list_lookup_fmap in Hi. destruct (rej !! i) as [slot|] eqn:Es; [|done]. injection Hi as <-.
    specialize (Hrows i Hlt). rewrite (nth_lookup_Some _ _ None slot Es) in Hrows. rewrite Hrows.
    by rewrite nth_lookup, lookup_replicate_2. }
  assert (Hkept : coerce_fields (filter_batch keep b) (target self) = Ok (filter_column keep <$> cs)).
  { apply coerce_kept; try done. intros i Hi. by destruct (Hrow i true Hi). }
  assert (Halone : ∀ i, keep !! i = Some false → ∃ e, coerce (filter_batch (only (num_rows b) i) b) = Err e).
  { intros i Hi. destruct (Hrow i false Hi) as [Hlt Hno]. unfold Coerce.coerce.
    destruct (coerce_fields (filter_batch (only (num_rows b) i) b) (target self)) as [cs'|e] eqn:Ea; [|by exists e].
    apply coerce_alone in Ea; [congruence|done..]. }
  intros Hc. exists keep. split; [done|]. destruct (forallb is_none rej) eqn:Eall.
  - assert (Htrue : Forall (λ k, k = true) keep).
    { unfold keep. apply Forall_fmap, Forall_forall. intros s Hs. rewrite forallb_forall in Eall. apply Eall.
      by apply list_elem_of_In. }
    assert (Hall : filter_batch keep b = b) by (by apply filter_batch_all).
    destruct (assembled (target self) cs) as [g|] eqn:Eg; [|done]. injection Hc as <-.
    enough (coerce b = Ok g) by (rewrite Hall; by split).
    unfold Coerce.coerce. rewrite <-Hall at 1. rewrite Hkept. simpl. rewrite <-Eg. f_equal.
    rewrite <-(list_fmap_id cs) at 2. apply list_fmap_ext. intros j c0 Hj.
    destruct (Forall2_lookup_r _ _ _ _ _ Hcs Hj) as (f & _ & Hf). apply column_eq; [done|].
    simpl. apply select_all; [done|]. by rewrite Hk, (field_rows b f c0).
  - destruct (assembled _ _) as [g|] eqn:Eg; [|done]. injection Hc as <-. simpl. split; [|split; [done|]].
    + unfold Coerce.coerce. by rewrite Hkept.
    + assert (Hn : length (omap id rej) = length (select (negb <$> keep) (seq 0 (num_rows b)))).
      { unfold keep. apply length_refusals. by rewrite length_seq. }
      split; [done|]. rewrite !length_fmap. split; [done|]. split; [done|]. unfold keep.
      apply forallb_false in Eall as (x & Hx & Hf). rewrite <-Hf. by apply list_elem_of_fmap_2.
Qed.

(** ** What still stops a batch *)

Lemma regular_filter mask b : regular b → regular (filter_batch mask b).
Proof.
  intros H. apply Forall_fmap. eapply Forall_impl; [exact H|]. intros c Hc. simpl. apply length_select.
  by rewrite length_seq.
Qed.

Lemma coerced_fits b f c : regular b → coerce_field b f = Ok c → fits_field (num_rows b) f c = true.
Proof.
  intros Hb. unfold fits_field. rewrite !andb_true_iff, !bool_decide_eq_true, orb_true_iff, bool_decide_eq_true.
  destruct (column_of b (f_name f)) as [col|] eqn:Ec.
  - intros (_ & Ht & H2 & Hok)%(coerce_column b f col c Ec). apply (values_ok f _ _ _ H2) in Hok as [_ Hn].
    split; [split; [done|]|]; [rewrite <-(Forall2_length _ _ _ H2); by eapply column_rows|].
    destruct Hn as [?|Hn]; [by left|right]. apply null_count_zero, Nat.ltb_ge in Hn. lia.
  - unfold Coerce.coerce_field. rewrite Ec. destruct (f_nullable f); [|done]. intros [= <-]. simpl.
    rewrite length_replicate. split; [done|]. by left.
Qed.

Lemma coerced_assembles b fs cs : regular b → fs ≠ [] → coerce_fields b fs = Ok cs →
  ∃ g, assembled fs cs = Ok g.
Proof.
  intros Hb Hne Hcs. assert (Hfit : fits_fields (num_rows b) fs cs = true).
  { clear Hne. revert cs Hcs. induction fs as [|f fs IH]; intros cs; simpl; [by intros [= <-]|].
    destruct (coerce_field b f) as [c|] eqn:Ef; [|done]. destruct (coerce_fields b fs) as [cs'|]; [|done].
    intros [= <-]. simpl. by rewrite (coerced_fits b f c Hb Ef), IH. }
  unfold assembled, try_new. destruct cs as [|c cs]; [destruct fs; [done|]; simpl in Hfit; done|].
  destruct fs as [|f fs]; [done|]. simpl in Hfit. apply andb_true_iff in Hfit as [Hf Hfit].
  assert (Hlen : length (c_values c) = num_rows b).
  { unfold fits_field in Hf. rewrite !andb_true_iff, !bool_decide_eq_true in Hf. tauto. }
  rewrite Hlen. simpl. rewrite Hf, Hfit. by eexists.
Qed.

(** What is wrong with a field for every row of a batch. *)
Definition structural (b : Batch) (f : Field) : Prop :=
  match column_of b (f_name f) with
  | None => f_nullable f = false
  | Some col =>
      c_type col ≠ f_type f ∧
      (can_cast_types (c_type col) (f_type f) = false ∨
       (is_nested (f_type f) || is_nested (c_type col) = true ∧ cast_strict cast_value col (f_type f) = None))
  end.

Lemma quarantine_one_fails b f rej e : quarantine_field b f rej = Err e → structural b f.
Proof.
  unfold Coerce.quarantine_field, structural. destruct (column_of b (f_name f)) as [col|].
  - case_decide as Ht; [done|]. unfold cast_with_options. destruct (can_cast_types _ _); [|by split; [|left]].
    destruct (_ || _); simpl; [|done]. destruct (cast_strict _ _ _); [done|]. intros _. split; [done|]. by right.
  - by destruct (f_nullable f).
Qed.

(** Bad values never stop a batch that is quarantined. It fails only for what is the same in
    every row or what no row can be told apart for: a NOT NULL column that is not produced,
    types that do not cast, or a list, struct or map with a value that does not fit. *)
Lemma only_structure_stops b e :
  regular b → target self ≠ [] → coerce_quarantining b = Err e → ∃ f, f ∈ target self ∧ structural b f.
Proof.
  intros Hb Hne. unfold Coerce.coerce_quarantining.
  destruct (quarantine_fields b (target self) (replicate (num_rows b) None)) as [[cs rej]|e'] eqn:Eq.
  - destruct (quarantine_rows _ _ _ _ _ Hb (length_replicate _ _) Eq) as (Hcs & Hlen & Hrows). cbn [fst snd].
    assert (Hkept : coerce_fields (filter_batch (is_none <$> rej) b) (target self) = Ok (filter_column (is_none <$> rej) <$> cs)).
    { apply coerce_kept; try done; [by rewrite length_fmap|]. intros i Hi. rewrite list_lookup_fmap in Hi.
      destruct (rej !! i) as [slot|] eqn:Es; [|done]. injection Hi as Hs.
      assert (i < num_rows b)%nat as Hi by (rewrite <-Hlen; by eapply lookup_lt_Some).
      specialize (Hrows i Hi). rewrite (nth_lookup_Some _ _ None slot Es), Hs in Hrows.
      by rewrite nth_lookup, lookup_replicate_2 in Hrows. }
    destruct (coerced_assembles _ _ _ (regular_filter (is_none <$> rej) b Hb) Hne Hkept) as [g Hg].
    destruct (forallb is_none rej) eqn:Eall; [|by rewrite Hg].
    assert (Hsame : filter_column (is_none <$> rej) <$> cs = cs).
    { rewrite <-(list_fmap_id cs) at 2. apply list_fmap_ext. intros j c Hj.
      destruct (Forall2_lookup_r _ _ _ _ _ Hcs Hj) as (f & _ & Hf). apply column_eq; [done|]. simpl.
      apply select_all; [|by rewrite length_fmap, Hlen, (field_rows b f c)].
      apply Forall_fmap, Forall_forall. intros s Hs. rewrite forallb_forall in Eall. by apply Eall, list_elem_of_In. }
    rewrite Hsame in Hg. by rewrite Hg.
  - intros _. clear Hne. revert Eq. generalize (replicate (num_rows b) (@None (string * string))).
    induction (target self) as [|f fs IH]; intros rej; simpl; [done|].
    destruct (quarantine_field b f rej) as [[c rej']|e''] eqn:Ef.
    + simpl. destruct (quarantine_fields b fs rej') as [?|] eqn:Er; [done|]. simpl. intros [= ->].
      destruct (IH rej') as (g & Hg & Hs); [done|]. exists g. split; [by right|done].
    + intros _. exists f. split; [by left|by eapply quarantine_one_fails].
Qed.
End Correct.

Lemma a_row_is_set_aside_alone_witness :
  regular orders ∧
  ∃ c, coerce_quarantining (λ _ _, true) digits_cast digits_cast_safe (integers true) orders = Ok c ∧
    ∃ keep, length keep = 4%nat ∧
      coerce (λ _ _, true) digits_cast digits_cast_safe (integers true) (filter_batch keep orders) = Ok (good c).
Proof.
  assert (H : regular orders) by (repeat constructor). split; [exact H|].
  destruct (coerce_quarantining (λ _ _, true) digits_cast digits_cast_safe (integers true) orders) as [c|] eqn:E; [|by vm_compute in E].
  exists c. split; [done|].
  destruct (a_row_is_set_aside_alone (λ _ _, true) digits_cast digits_cast_safe digits_safe (integers true) orders c H E) as (keep & Hk & Hc & _).
  exists keep. split; [exact Hk|exact Hc].
Defined.

Lemma only_structure_stops_witness :
  let self := integers false in
  regular orders ∧ target self ≠ [] ∧
  ∃ e, coerce_quarantining (λ _ _, true) digits_cast digits_cast_safe self orders = Err e ∧
    ∃ f, f ∈ target self ∧ structural (λ _ _, true) digits_cast orders f.
Proof.
  assert (H : regular orders) by (repeat constructor). split; [exact H|]. split; [discriminate|].
  destruct (coerce_quarantining (λ _ _, true) digits_cast digits_cast_safe (integers false) orders) as [c|e] eqn:E; [by vm_compute in E|].
  exists e. split; [done|].
  apply (only_structure_stops (λ _ _, true) digits_cast digits_cast_safe digits_safe (integers false) orders e H);
    [discriminate|exact E].
Defined.
