(* ===== verification/Union.v ===== *)
(** * Union: the schema the SQL of a Kafka pipeline runs over (src/kafka/conform.rs)

    A topic's messages are written with schemas that change.  [build] puts the writer schemas
    together into one, [U]: every field by its name, with the type of the newest schema that has
    it, records merged at every depth.  What a writer schema decodes to is arrow-avro's, an
    argument; fitting rows to [U] is Conform. *)

From Stdlib Require Import ZArith Lia Ascii String.
From stdpp Require Import base list strings gmap sorting.
From S2P Require Import Prelude Error Schema Fractions.

Open Scope Z_scope.
Open Scope ddi_scope.

(** ** Relaxing a type *)

(** [relax]: every field nullable, at every depth but a map's entries and keys. *)
Fixpoint relax (t : DataType) : DataType :=
  let field (f : Field) : Field := match f with mkField n t _ => mkField n (relax t) true end in
  match t with
  | Struct fields => Struct (List.map field fields)
  | List item => List (field item)
  | Map entries sorted =>
      match entries with
      | mkField en (Struct [mkField kn kt _; value]) _ =>
          Map (mkField en (Struct [mkField kn kt false; field value]) false) sorted
      | _ => t
      end
  | Union fields dense => Union (List.map (λ c, match c with (id, f) => (id, field f) end) fields) dense
  | t => t
  end.
Definition relax_field (f : Field) : Field := mkField (f_name f) (relax (f_type f)) true.
(** [relax_fields] *)
Definition relax_fields (fields : Schema) : Schema := relax_field <$> fields.

(** ** Merging an older schema's type into a newer one's *)

Record TypeChange := { field : string; newer : Z * DataType; older : Z * DataType }.

(** The key and the value of a map, of exactly two entries. *)
Definition entry_pair (entries : Field) : option (Field * Field) :=
  match f_type entries with Struct [k; v] => Some (k, v) | _ => None end.

(** [iter_mut().find(name)]: the first child of the name is merged, or the child joins the
    others, relaxed. *)
Fixpoint merge_into (m : DataType → DataType * list TypeChange) (name : string) (t : DataType)
    (children : Schema) : Schema * list TypeChange :=
  match children with
  | [] => ([mkField name (relax t) true], [])
  | c :: children =>
      if decide (f_name c = name)
      then let r := m (f_type c) in (mkField name r.1 true :: children, r.2)
      else let r := merge_into m name t children in (c :: r.1, r.2)
  end.

Section Merge.
Context (ids : Z * Z).

(** [merge]: the type, and the changes it records. *)
Fixpoint merge (n o : DataType) (path : string) {struct o} : DataType * list TypeChange :=
  let older_relaxed := relax o in
  if decide (n = older_relaxed) then (n, []) else
  let differs :=
    (n, [{| field := path; newer := (ids.1, n); older := (ids.2, older_relaxed) |}]) in
  match o with
  | Struct b =>
      match struct_fields n with
      | Some a =>
          let r := (fix go (children b : Schema) : Schema * list TypeChange :=
            match b with
            | [] => (children, [])
            | mkField name t _ :: b =>
                let r := merge_into (λ e, merge e t (path +:+ "." +:+ name)) name t children in
                let r' := go r.1 b in
                (r'.1, r.2 ++ r'.2)
            end) a b in
          (Struct r.1, r.2)
      | None => differs
      end
  | List (mkField _ t _) =>
      match n with
      | List a =>
          let r := merge (f_type a) t (path +:+ "[]") in
          (List (mkField (f_name a) r.1 true), r.2)
      | _ => differs
      end
  | Map (mkField _ eb _) _ =>
      match n with
      | Map ea sorted =>
          match entry_pair ea, eb with
          | Some (ka, va), Struct [_; mkField _ t _] =>
              let r := merge (f_type va) t (path +:+ "{}") in
              (Map (mkField (f_name ea) (Struct [ka; mkField (f_name va) r.1 true]) false) sorted, r.2)
          | _, _ => (n, [])
          end
      | _ => differs
      end
  | _ => differs
  end.
End Merge.

(** ** The union *)

(** [metadata_fields], [header_element], [header_fields] (src/kafka/decode.rs). *)
Definition header_fields : Schema := [mkField "key"%string Utf8 false; mkField "value"%string Binary true].
Definition header_element : Field := mkField "element"%string (Struct header_fields) false.
Definition metadata_fields (prefix : string) : Schema :=
  [mkField (prefix +:+ "topic") Utf8 false;
   mkField (prefix +:+ "partition") Int32 false;
   mkField (prefix +:+ "offset") Int64 false;
   mkField (prefix +:+ "timestamp") (Timestamp Microsecond (Some "UTC"%string)) true;
   mkField (prefix +:+ "timestamp_type") Int32 false;
   mkField (prefix +:+ "key") Binary true;
   mkField (prefix +:+ "headers") (List header_element) false;
   mkField (prefix +:+ "value_schema_id") Int32 false].

Record UnionSchema := {
  schema : Schema;
  members : list Z;
  origin : gmap string Z;
  changes : list TypeChange;
  prefix : string;
  names : gmap Z (gmap string string);
}.

Fixpoint starts_with (p s : string) : bool :=
  match p, s with
  | EmptyString, _ => true
  | String a p, String b s => bool_decide (a = b) && starts_with p s
  | _, _ => false
  end.

Section Build.
(** A registered writer schema; what it decodes to; the named types in it ([named_types] of the
    decoder's own schema, which carries Avro's names). *)
Context {RegisteredSchema : Type} (id : RegisteredSchema → Z).
Context (decoded_schema : RegisteredSchema → result string Schema).
Context (named_types : RegisteredSchema → option (gmap string string)).

(** [sort_by_key(Reverse(id))] is stable; [dedup_by_key] keeps the first of equal neighbours. *)
Fixpoint insert_newest (m : RegisteredSchema) (l : list RegisteredSchema) : list RegisteredSchema :=
  match l with
  | [] => [m]
  | x :: l => if id x <=? id m then m :: x :: l else x :: insert_newest m l
  end.
Definition newest_first (l : list RegisteredSchema) : list RegisteredSchema := foldr insert_newest [] l.
Fixpoint dedup_ids (l : list RegisteredSchema) : list RegisteredSchema :=
  match l with
  | [] => []
  | x :: l =>
      match dedup_ids l with
      | y :: r => if id x =? id y then x :: r else x :: y :: r
      | [] => [x]
      end
  end.

(** A field of a member: merged with the field of its name, or a new one. *)
Definition add_field (member : Z) (u : UnionSchema) (f : Field) : UnionSchema :=
  match field_named (f_name f) (schema u) with
  | Some _ =>
      let n := default 0 (origin u !! f_name f) in
      let r := merge_into (λ e, merge (n, member) e (f_type f) (f_name f)) (f_name f) (f_type f) (schema u) in
      {| schema := r.1; members := members u; origin := origin u; changes := changes u ++ r.2;
         prefix := prefix u; names := names u |}
  | None =>
      {| schema := schema u ++ [relax_field f]; members := members u;
         origin := <[f_name f := member]> (origin u); changes := changes u;
         prefix := prefix u; names := names u |}
  end.

(** A member: left out where the decoder cannot use it, or where a field is named like a
    metadata column. *)
Definition usable (prefix : string) (m : RegisteredSchema) : option Schema :=
  match decoded_schema m with
  | Err _ => None
  | Ok fields => if existsb (λ f, starts_with prefix (f_name f)) fields then None else Some fields
  end.
Definition add_member (u : UnionSchema) (m : RegisteredSchema) : UnionSchema :=
  match usable (prefix u) m with
  | None => u
  | Some fields =>
      fold_left (add_field (id m)) fields
        {| schema := schema u; members := members u ++ [id m]; origin := origin u;
           changes := changes u; prefix := prefix u;
           names := match named_types m with Some n => <[id m := n]> (names u) | None => names u end |}
  end.

Definition empty_union (prefix : string) : UnionSchema :=
  {| schema := []; members := []; origin := ∅; changes := []; prefix := prefix; names := ∅ |}.

(** [build] *)
Definition build (ms : list RegisteredSchema) (prefix : string) : UnionSchema :=
  let u := fold_left add_member (dedup_ids (newest_first ms)) (empty_union prefix) in
  {| schema := schema u ++ relax_fields (metadata_fields prefix); members := members u;
     origin := origin u; changes := changes u; prefix := prefix; names := names u |}.
End Build.

(** ** Planning the SQL over the union *)

Definition is_ident (c : ascii) : bool :=
  let n := Ascii.N_of_ascii c in
  (((48 <=? n) && (n <=? 57)) || ((65 <=? n) && (n <=? 90)) || ((97 <=? n) && (n <=? 122)) || (n =? 95))%N.

(** [strip_prefix] *)
Fixpoint strip (p s : string) : option string :=
  match p, s with
  | EmptyString, _ => Some s
  | String a p, String b s => if decide (a = b) then strip p s else None
  | _, EmptyString => None
  end.
Definition first_char (s : string) : option ascii := match s with String c _ => Some c | _ => None end.
Definition no_ident (c : option ascii) : bool := match c with Some c => negb (is_ident c) | None => true end.
Fixpoint last_char (p : string) (before : option ascii) : option ascii :=
  match p with EmptyString => before | String c p => last_char p (Some c) end.

(** [mentions]: over [match_indices], whose matches do not overlap.  [skip] counts the characters
    of the match before. *)
Fixpoint mentions_from (text word : string) (before : option ascii) (skip : nat) : bool :=
  let here :=
    match skip with
    | O => match strip word text with Some rest => Some rest | None => None end
    | S _ => None
    end in
  match here with
  | Some rest => no_ident before && no_ident (first_char rest)
  | None => false
  end ||
  match text with
  | EmptyString => false
  | String c text =>
      mentions_from text word (Some c)
        (match here with Some _ => String.length word - 1 | None => skip - 1 end)
  end.
Definition mentions (text word : string) : bool := mentions_from text word None 0.

(** [split(['.', '[', '{']).next()] *)
Fixpoint top_name (path : string) : string :=
  match path with
  | EmptyString => EmptyString
  | String c path =>
      if bool_decide (c = "."%char ∨ c = "["%char ∨ c = "{"%char) then EmptyString else String c (top_name path)
  end.

(** [plan]: [output] is what the SQL makes of the schema, [sql] its text. *)
Definition plan (u : UnionSchema) (sql : string) (output : Schema → result Error Schema) : result Error Schema :=
  match output (schema u) with
  | Ok s => Ok s
  | Err e =>
      let named := filter (λ c, mentions (lower sql) (lower (top_name (field c))) = true) (changes u) in
      match named with
      | [] => Err e
      | _ => Err (KafkaSchemaConflict (field <$> named) "the SQL does not plan")
      end
  end.

Inductive PartitionCheck := Passed | Deferred.

(** [check_partition_columns] *)
Definition check_partition_columns (target_uri : string) (partition_columns : list string)
    (sql : option (string * (Schema → result Error Schema))) (u : UnionSchema) : result Error PartitionCheck :=
  if decide (partition_columns = []) then Ok Passed
  else if decide (members u = []) then Ok Deferred
  else
    let? s := match sql with Some (text, output) => plan u text output | None => Ok (schema u) end in
    let produced := f_name <$> s in
    let columns := filter (λ c, c ∉ produced) partition_columns in
    if decide (columns = []) then Ok Passed
    else Err (KafkaPartitionColumnUnmapped target_uri columns produced (if sql then true else false)).

(** ** A type that grows *)

(** [extends t u]: [u] is [t], with more fields behind those of its records. *)
Inductive extends : DataType → DataType → Prop :=
  | extends_same t : extends t t
  | extends_list f g : f_name f = f_name g → extends (f_type f) (f_type g) → extends (List f) (List g)
  | extends_map e e' k v v' s :
      f_type e = Struct [k; v] → f_type e' = Struct [k; v'] → f_name e = f_name e' →
      f_name v = f_name v' → extends (f_type v) (f_type v') →
      extends (Map e s) (Map e' s)
  | extends_struct a a' more :
      Forall2 (λ f g, f_name f = f_name g ∧ extends (f_type f) (f_type g)) a a' →
      extends (Struct a) (Struct (a' ++ more)).

(** Fields that grow: each at its place, more behind. *)
Definition grows (a c : Schema) : Prop :=
  ∃ a' more, c = a' ++ more ∧ Forall2 (λ f g, f_name f = f_name g ∧ extends (f_type f) (f_type g)) a a'.

Section Deep.
Context (P : DataType → Prop).
Context (Hflat : ∀ t, (match t with
  | List _ | Struct _ | Map _ _ | Union _ _ => False | _ => True end) → P t).
Context (Hlist : ∀ f, P (f_type f) → P (List f)).
Context (Hstruct : ∀ fs, Forall (λ f, P (f_type f)) fs → P (Struct fs)).
Context (Hunion : ∀ fs d, Forall (λ f, P (f_type f.2)) fs → P (Union fs d)).
(** The parts of a map's entries, not only its entries. *)
Context (Hmap : ∀ e s, (∀ k v, f_type e = Struct [k; v] → P (f_type k) ∧ P (f_type v)) → P (Map e s)).
Lemma DataType_deep_ind t : P t.
Proof.
  enough (P t ∧ match t with Struct fs => Forall (λ f, P (f_type f)) fs | _ => True end) by tauto.
  induction t using DataType_nested_ind; (split; [|try done]).
  - destruct t; try done; by apply Hflat.
  - by destruct t.
  - apply Hlist. tauto.
  - by apply Hflat.
  - by apply Hflat.
  - by apply Hflat.
  - by apply Hflat.
  - apply Hmap. intros k v E. destruct IHt as [_ H]. rewrite E in H.
    apply Forall_cons in H as [? H]. by apply Forall_cons in H as [? _].
  - apply Hstruct. eapply Forall_impl; [exact H|]. by intros f [? _].
  - eapply Forall_impl; [exact H|]. by intros f [? _].
  - apply Hunion. eapply Forall_impl; [exact H|]. by intros f [? _].
  - by apply Hflat.
  - by apply Hflat.
Qed.
End Deep.

Lemma relax_map e s : relax (Map e s) =
  match entry_pair e with
  | Some (k, v) => Map (mkField (f_name e) (Struct [mkField (f_name k) (f_type k) false; relax_field v]) false) s
  | None => Map e s
  end.
Proof.
  destruct e as [n t b]. unfold entry_pair. cbn [f_type f_name]. destruct t; try done.
  destruct fields as [|[kn kt kb] [|[vn vt vb] [|]]]; done.
Qed.
Lemma relax_struct fs : relax (Struct fs) = Struct (relax_fields fs).
Proof. cbn [relax]. f_equal. induction fs as [|[n t b] fs IH]; [done|]. csimpl. by rewrite IH. Qed.
Lemma relax_list f : relax (List f) = List (relax_field f).
Proof. by destruct f. Qed.
Lemma relax_union fs d : relax (Union fs d) = Union ((λ c, (c.1, relax_field c.2)) <$> fs) d.
Proof. cbn [relax]. f_equal. induction fs as [|[i [n t b]] fs IH]; [done|]. csimpl. by rewrite IH. Qed.

Lemma relax_idem t : relax (relax t) = relax t.
Proof.
  induction t using DataType_deep_ind.
  - destruct t; done.
  - rewrite !relax_list. f_equal. unfold relax_field. simpl. by rewrite IHt.
  - rewrite !relax_struct. f_equal. unfold relax_fields. rewrite <-list_fmap_compose.
    apply Forall_fmap_ext_1. eapply Forall_impl; [exact H|]. intros f Hf. unfold relax_field, compose. simpl. by rewrite Hf.
  - rewrite !relax_union. f_equal. rewrite <-list_fmap_compose. apply Forall_fmap_ext_1.
    eapply Forall_impl; [exact H|]. intros f Hf. unfold relax_field, compose. simpl. by rewrite Hf.
  - rewrite relax_map. destruct (entry_pair e) as [[k v]|] eqn:E.
    + rewrite relax_map. unfold entry_pair. cbn [f_type f_name]. unfold relax_field. simpl.
      unfold entry_pair in E. destruct (f_type e) eqn:Et; try done.
      destruct fields as [|k' [|v' [|]]]; try done. injection E as -> ->.
      destruct (H k v eq_refl) as [_ ->]. done.
    + by rewrite relax_map, E.
Qed.

Lemma extends_trans t u w : extends t u → extends u w → extends t w.
Proof.
  revert u w. induction t using DataType_deep_ind; intros u w Htu Huw.
  - inversion Htu; subst; done.
  - inversion Htu as [|f' g Hn Ht| |]; subst; [done|]. inversion Huw as [|f' g' Hn' Ht'| |]; subst; [by constructor|].
    constructor; [congruence|]. by eapply IHt.
  - assert (Hall : ∀ a b c, Forall (λ f, ∀ u w, extends (f_type f) u → extends u w → extends (f_type f) w) a →
      Forall2 (λ f g, f_name f = f_name g ∧ extends (f_type f) (f_type g)) a b →
      Forall2 (λ f g, f_name f = f_name g ∧ extends (f_type f) (f_type g)) b c →
      Forall2 (λ f g, f_name f = f_name g ∧ extends (f_type f) (f_type g)) a c).
    { clear. intros a b c Ha Hab. revert c. induction Hab as [|f g a b [Hn Ht] _ IH]; intros c Hbc.
      - inversion Hbc. constructor.
      - inversion Hbc as [|? h ? c' [Hn' Ht'] Hbc']; subst. apply Forall_cons in Ha as [Hf Ha].
        constructor; [split; [congruence|by eapply Hf]|]. by apply IH. }
    inversion Htu as [| | |a a' more Haa]; subst; [done|].
    inversion Huw as [| | |b b' more' Hbb]; subst; [done|].
    apply Forall2_app_inv_l in Hbb as (b1 & b2 & Hb1 & Hb2 & ->). rewrite <-app_assoc. constructor.
    by eapply Hall.
  - inversion Htu; subst; done.
  - inversion Htu as [| |e' e'' k v v' s' E1 E2 En Ev Ht|]; subst; [done|].
    inversion Huw as [| |f' f'' k' x x' s' F1 F2 Fn Fv Fx|]; subst; [done|].
    rewrite E2 in F1. injection F1 as -> ->. eapply extends_map; [done..|congruence|congruence|].
    destruct (H k' v E1) as [_ IH]. by eapply IH.
Qed.

Lemma grows_refl a : grows a a.
Proof.
  exists a, []. split; [by rewrite app_nil_r|]. apply Forall_Forall2_diag, Forall_true. intros f. split; [done|constructor].
Qed.
Lemma extends_grows a c : grows a c → extends (Struct a) (Struct c).
Proof. intros (a' & more & -> & H). by constructor. Qed.
Lemma grows_extends a c : extends (Struct a) (Struct c) → grows a c.
Proof. inversion 1; subst; [apply grows_refl|]. by eexists _, _. Qed.
Lemma grows_trans a b c : grows a b → grows b c → grows a c.
Proof. intros H1%extends_grows H2%extends_grows. by eapply grows_extends, extends_trans. Qed.

Lemma field_named_name name fs g : field_named name fs = Some g → f_name g = name.
Proof. intros H%List.find_some. by destruct H as [_ H%bool_decide_eq_true]. Qed.
Lemma field_named_grows name a c g : grows a c → field_named name a = Some g →
  ∃ h, field_named name c = Some h ∧ extends (f_type g) (f_type h).
Proof.
  intros (a' & more & -> & H). unfold field_named. induction H as [|f h a a' [Hn Ht] _ IH]; simpl; [done|].
  rewrite <-Hn. case_bool_decide; [intros [= <-]; by exists h|]. done.
Qed.

(** ** What merging makes of the newer type *)

(** The children of a record, merged one after the other. *)
Fixpoint merge_fields (ids : Z * Z) (path : string) (children b : Schema) : Schema * list TypeChange :=
  match b with
  | [] => (children, [])
  | f :: b =>
      let r := merge_into (λ e, merge ids e (f_type f) (path +:+ "." +:+ f_name f)) (f_name f) (f_type f) children in
      let r' := merge_fields ids path r.1 b in
      (r'.1, r.2 ++ r'.2)
  end.

Definition differs (ids : Z * Z) (n o : DataType) (path : string) : DataType * list TypeChange :=
  (n, [{| field := path; newer := (ids.1, n); older := (ids.2, relax o) |}]).

Lemma merge_struct ids n b path : merge ids n (Struct b) path =
  if decide (n = relax (Struct b)) then (n, [])
  else match struct_fields n with
       | Some a => let r := merge_fields ids path a b in (Struct r.1, r.2)
       | None => differs ids n (Struct b) path
       end.
Proof.
  unfold differs. cbn [merge]. case_decide; [done|]. destruct (struct_fields n) as [a|]; [|done].
  match goal with |- (Struct ?x.1, ?x.2) = _ => assert (x = merge_fields ids path a b) as ->; [|done] end.
  clear. revert a. induction b as [|[name t nl] b IH]; intros a; [done|]. cbn [merge_fields f_type f_name]. by rewrite IH.
Qed.
Lemma merge_list ids n f path : merge ids n (List f) path =
  if decide (n = relax (List f)) then (n, [])
  else match n with
       | List a => let r := merge ids (f_type a) (f_type f) (path +:+ "[]") in
                   (List (mkField (f_name a) r.1 true), r.2)
       | _ => differs ids n (List f) path
       end.
Proof. by destruct f. Qed.
Lemma merge_map ids n e s path : merge ids n (Map e s) path =
  if decide (n = relax (Map e s)) then (n, [])
  else match n with
       | Map ea sorted =>
           match entry_pair ea, entry_pair e with
           | Some (ka, va), Some (_, v) =>
               let r := merge ids (f_type va) (f_type v) (path +:+ "{}") in
               (Map (mkField (f_name ea) (Struct [ka; mkField (f_name va) r.1 true]) false) sorted, r.2)
           | _, _ => (n, [])
           end
       | _ => differs ids n (Map e s) path
       end.
Proof.
  destruct e as [en et eb]. unfold differs. cbn [merge]. case_decide as Hd; [done|]. destruct n; try done.
  destruct (entry_pair entries) as [[ka va]|]; [|done]. unfold entry_pair. cbn [f_type].
  destruct et; try done. by destruct fields as [|k [|[vn vt vb] [|]]].
Qed.
Lemma merge_flat ids n o path : (match o with List _ | Struct _ | Map _ _ => False | _ => True end) →
  merge ids n o path = if decide (n = relax o) then (n, []) else differs ids n o path.
Proof. by destruct o. Qed.

Lemma entry_pair_type e k v : entry_pair e = Some (k, v) → f_type e = Struct [k; v].
Proof.
  unfold entry_pair. destruct (f_type e); try done. by destruct fields as [|? [|? [|]]]; intros [= -> ->].
Qed.

Lemma merge_into_grows m name t children :
  (∀ e, extends e (m e).1) → grows children (merge_into m name t children).1.
Proof.
  intros Hm. induction children as [|c children IH]; simpl.
  - exists [], [mkField name (relax t) true]. by split; [|constructor].
  - case_decide as Hn; simpl.
    + eexists (_ :: children), []. split; [by rewrite app_nil_r|]. constructor; [by split|].
      apply Forall_Forall2_diag, Forall_true. intros f. split; [done|constructor].
    + destruct IH as (a' & more & E & H). rewrite E. exists (c :: a'), more. split; [done|].
      constructor; [|done]. split; [done|constructor].
Qed.

Lemma merge_extends ids n o path : extends n (merge ids n o path).1.
Proof.
  revert n path. induction o using DataType_deep_ind; intros n path.
  - rewrite merge_flat by (by destruct o). case_decide; constructor.
  - rewrite merge_list. case_decide; [constructor|]. destruct n; try constructor; [done|]. simpl. apply IHo.
  - rewrite merge_struct. case_decide; [constructor|]. destruct n as [| | | | | | | | | | | | | | | | | | | | | | | | | | | | | | | |a| | | | | | | |];
      try constructor. cbn [struct_fields fst]. apply extends_grows. clear H0. revert a.
    induction H as [|f fs Hf _ IH]; intros a; simpl; [apply grows_refl|].
    eapply grows_trans; [|apply IH]. apply merge_into_grows. intros e. apply Hf.
  - rewrite merge_flat by done. case_decide; constructor.
  - rewrite merge_map. case_decide; [constructor|]. destruct n as [| | | | | | | | | | | | | | | | | | | | | | | | | | | | | | | | | | | | | | |ea sorted|];
      try constructor. destruct (entry_pair ea) as [[ka va]|] eqn:Ea; [|constructor].
    destruct (entry_pair e) as [[k v]|] eqn:Ee; [|constructor]. simpl.
    apply entry_pair_type in Ea, Ee. eapply extends_map; [done|reflexivity|done|done|]. apply (H k v Ee).
Qed.

(** ** An older schema reads into the merged type *)

(** [covers ch m path w u]: a value of [w], a type of writer schema [m], has its place in [u]: its
    parts by their names, at every depth, up to a difference that [ch] has on record. *)
Inductive covers (ch : list TypeChange) (m : Z) : string → DataType → DataType → Prop :=
  | covers_same path w u : extends (relax w) u → covers ch m path w u
  | covers_changed path w u c :
      c ∈ ch → field c = path → older c = (m, relax w) → extends (newer c).2 u → covers ch m path w u
  | covers_struct path b a :
      (∀ f, f ∈ b → ∃ g, field_named (f_name f) a = Some g ∧
         covers ch m (path +:+ "." +:+ f_name f) (f_type f) (f_type g)) →
      covers ch m path (Struct b) (Struct a)
  | covers_list path f g : covers ch m (path +:+ "[]") (f_type f) (f_type g) → covers ch m path (List f) (List g)
  | covers_map path e e' s s' k v k' v' :
      entry_pair e = Some (k, v) → entry_pair e' = Some (k', v') →
      covers ch m (path +:+ "{}") (f_type v) (f_type v') → covers ch m path (Map e s) (Map e' s')
  | covers_odd path e e' s s' :
      entry_pair e = None ∨ entry_pair e' = None → covers ch m path (Map e s) (Map e' s').

Lemma covers_mono ch ch' m path w u u' :
  ch ⊆ ch' → extends u u' → covers ch m path w u → covers ch' m path w u'.
Proof.
  intros Hch. revert path u u'. induction w using DataType_deep_ind; intros path u u' Hu Hc.
  all: inversion Hc as [? ? ? Hr|? ? ? c Hin Hp Ho Hn|? b a Hb|? f' g Hg|? e1 e2 s1 s2 k v k' v' E1 E2 Hv|? e1 e2 s1 s2 Hodd]; subst;
    try (apply covers_same; by eapply extends_trans);
    try (eapply covers_changed; [by apply Hch|done|done|by eapply extends_trans]); try done.
  - inversion Hu; subst; apply covers_list; (eapply IHw; [|done]); [constructor|done].
  - assert (Hg : ∃ a', u' = Struct a' ∧ grows a a').
    { inversion Hu; subst; [eexists; split; [done|apply grows_refl]|]. eexists; split; [done|]. by eexists _, _. }
    destruct Hg as (a' & -> & Ha). apply covers_struct. intros f Hf. destruct (Hb f Hf) as (g & Hg1 & Hg2).
    destruct (field_named_grows _ _ _ _ Ha Hg1) as (h & Hh1 & Hh2). exists h. split; [done|].
    rewrite Forall_forall in H. by eapply (H f).
  - inversion Hu as [| |e0 e3 k0 v0 v3 s0 F1 F2 Fn Fv Fx|]; subst; [by eapply covers_map; [..|eapply (H k v); [by apply entry_pair_type|constructor|]]|].
    assert (E3 : entry_pair e3 = Some (k0, v3)) by (unfold entry_pair; by rewrite F2).
    apply entry_pair_type in E2 as E2'. rewrite E2' in F1. injection F1 as -> ->.
    eapply covers_map; [done|done|]. eapply (H k v); [by apply entry_pair_type|done|done].
  - inversion Hu as [| |e0 e3 k0 v0 v3 s0 F1 F2 Fn Fv Fx|]; subst; [by apply covers_odd|].
    destruct Hodd as [Hodd|Hodd]; [apply covers_odd; by left|].
    unfold entry_pair in Hodd. by rewrite F1 in Hodd.
Qed.

Lemma merge_into_named m name t children :
  ∃ g, field_named name (merge_into m name t children).1 = Some g ∧
    ((∃ e, f_type g = (m e).1 ∧ (merge_into m name t children).2 = (m e).2) ∨
     f_type g = relax t ∧ (merge_into m name t children).2 = []).
Proof.
  unfold field_named. induction children as [|c children IH]; simpl.
  - rewrite bool_decide_true by done. eexists; split; [done|]. by right.
  - case_decide as Hn; simpl.
    + rewrite bool_decide_true by done. eexists; split; [done|]. left. by eexists.
    + by rewrite bool_decide_false.
Qed.

Lemma differs_covers ids n o path : covers (differs ids n o path).2 ids.2 path o (differs ids n o path).1.
Proof. eapply covers_changed; [by apply list_elem_of_singleton|done|done|constructor]. Qed.

Lemma merge_covers ids n o path : covers (merge ids n o path).2 ids.2 path o (merge ids n o path).1.
Proof.
  revert n path. induction o using DataType_deep_ind; intros n path.
  - rewrite merge_flat by (by destruct o). case_decide as Hd; [|apply differs_covers]. subst. apply covers_same. constructor.
  - rewrite merge_list. case_decide as Hd; [subst; apply covers_same; constructor|].
    destruct n; try apply differs_covers. simpl. apply covers_list. apply IHo.
  - rewrite merge_struct. case_decide as Hd; [subst; apply covers_same; constructor|].
    destruct (struct_fields n) as [a|]; [|apply differs_covers]. cbn [fst snd]. apply covers_struct. clear Hd n.
    revert a. induction H as [|f fs Hf _ IH]; intros a g Hg; [by apply elem_of_nil in Hg|]. cbn [merge_fields fst snd].
    set (m := λ e, merge ids e (f_type f) (path +:+ "." +:+ f_name f)).
    set (r := merge_into m (f_name f) (f_type f) a). set (r' := merge_fields ids path r.1 fs).
    assert (Hgrow : grows r.1 r'.1).
    { unfold r'. generalize r.1. clear. induction fs as [|f fs IH]; intros a; [apply grows_refl|]. cbn [merge_fields fst].
      eapply grows_trans; [|apply IH]. apply merge_into_grows. intros e. apply merge_extends. }
    apply elem_of_cons in Hg as [->|Hg].
    + destruct (merge_into_named m (f_name f) (f_type f) a) as (g & Hg & [(e & Ht & Hc)|(Ht & Hc)]).
      all: destruct (field_named_grows _ _ _ _ Hgrow Hg) as (h & Hh1 & Hh2); exists h; split; [exact Hh1|].
      * eapply covers_mono; [| |apply (Hf e)]; [|by rewrite Ht in Hh2]. fold r in Hc. rewrite Hc. intros x Hx. apply elem_of_app. by left.
      * rewrite Ht in Hh2. by apply covers_same.
    + destruct (IH r.1 g Hg) as (h & Hh1 & Hh2). exists h. split; [exact Hh1|].
      eapply covers_mono; [|constructor|exact Hh2]. intros x Hx. apply elem_of_app. by right.
  - rewrite merge_flat by done. case_decide as Hd; [|apply differs_covers]. subst. apply covers_same. constructor.
  - rewrite merge_map. case_decide as Hd; [subst; apply covers_same; constructor|].
    destruct n; try apply differs_covers. destruct (entry_pair entries) as [[ka va]|] eqn:Ea; [|apply covers_odd; by right].
    destruct (entry_pair e) as [[k v]|] eqn:Ee; [|apply covers_odd; by left]. cbn [fst snd].
    eapply covers_map; [done|reflexivity|]. apply entry_pair_type in Ee. apply (H k v Ee).
Qed.

(** ** Every field of the union stays nullable *)

Lemma relax_field_idem f : relax_field (relax_field f) = relax_field f.
Proof. unfold relax_field. simpl. by rewrite relax_idem. Qed.

Definition relaxed (fs : Schema) : Prop := Forall (λ f, relax_field f = f) fs.
Lemma relaxed_struct fs : relax (Struct fs) = Struct fs ↔ relaxed fs.
Proof.
  rewrite relax_struct. unfold relaxed, relax_fields. split.
  - intros [= H]. apply Forall_forall. intros f [i Hi]%list_elem_of_lookup_1.
    rewrite <-H, list_lookup_fmap in Hi. destruct (fs !! i) as [g|]; [|done]. injection Hi as <-. apply relax_field_idem.
  - intros H. f_equal. rewrite <-(list_fmap_id fs) at 2. by apply Forall_fmap_ext_1.
Qed.

Lemma merge_into_relaxed m name t children :
  relaxed children → (∀ e, relax e = e → relax (m e).1 = (m e).1) → relaxed (merge_into m name t children).1.
Proof.
  intros H Hm. induction H as [|c children Hc H IH]; simpl.
  - constructor; [|constructor]. unfold relax_field. simpl. by rewrite relax_idem.
  - case_decide as Hn; constructor; try done. unfold relax_field. simpl. f_equal. apply Hm.
    unfold relax_field in Hc. destruct c. simpl in *. congruence.
Qed.

Lemma merge_relaxed ids n o path : relax n = n → relax (merge ids n o path).1 = (merge ids n o path).1.
Proof.
  revert n path. induction o using DataType_deep_ind; intros n path Hn.
  - rewrite merge_flat by (by destruct o). by case_decide.
  - rewrite merge_list. case_decide; [done|]. destruct n; try done. rewrite relax_list in Hn. injection Hn as Hi.
    unfold relax_field in Hi. destruct item as [nm t b]. simpl in *. injection Hi as Ht <-.
    cbn. by rewrite (IHo t).
  - rewrite merge_struct. case_decide; [done|]. destruct (struct_fields n) as [a|] eqn:Ea; [|done]. cbn [fst].
    apply relaxed_struct. assert (Ha : relaxed a). { destruct n; try done. injection Ea as ->. by apply relaxed_struct. }
    clear Ea Hn H0 n. revert a Ha. induction H as [|f fs Hf _ IH]; intros a Ha; [done|]. cbn [merge_fields fst].
    apply IH. apply merge_into_relaxed; [done|]. intros e. apply Hf.
  - rewrite merge_flat by done. by case_decide.
  - rewrite merge_map. case_decide; [done|]. destruct n; try done.
    destruct (entry_pair entries) as [[ka va]|] eqn:Ea; [|done].
    destruct (entry_pair e) as [[k v]|] eqn:Ee; [|done]. cbn [fst].
    rewrite relax_map, Ea in Hn. injection Hn as Hn. rewrite relax_map. unfold entry_pair. cbn [f_type f_name].
    destruct entries as [en et eb]. apply entry_pair_type in Ea, Ee. simpl in *. subst et. injection Hn as Hk Hv.
    unfold relax_field in *. simpl. rewrite Hk. destruct va as [vn vt vb]. simpl in *. injection Hv as Hvt _.
    destruct (H k v Ee) as [_ IH]. by rewrite IH.
Qed.

(** ** Adding to a union *)

Record below (u u' : UnionSchema) : Prop := {
  below_schema : grows (schema u) (schema u');
  below_changes : changes u ⊆ changes u';
  below_members : members u `prefix_of` members u';
  below_origin : origin u ⊆ origin u';
  below_prefix : prefix u' = prefix u;
}.

#[export] Instance below_preorder : PreOrder below.
Proof.
  split.
  - intros u. split; try done. apply grows_refl.
  - intros u v w [H1 H2 H3 H4 H5] [G1 G2 G3 G4 G5]. split; try by etrans. by eapply grows_trans.
Qed.

(** Every field has its origin, and is nullable throughout. *)
Record well_built (u : UnionSchema) : Prop := {
  built_relaxed : relaxed (schema u);
  built_origin : ∀ name, is_Some (origin u !! name) → is_Some (field_named name (schema u));
}.

Section Added.
Context (m : Z).
Lemma field_named_app name a b : field_named name (a ++ b) =
  match field_named name a with Some g => Some g | None => field_named name b end.
Proof. unfold field_named. induction a as [|f a IH]; simpl; [done|]. by case_bool_decide. Qed.

Lemma add_field_below u f : well_built u → below u (add_field m u f).
Proof.
  intros Hu. unfold add_field. destruct (field_named _ _) as [g|] eqn:E; split; simpl; try done.
  - apply merge_into_grows. intros e. apply merge_extends.
  - intros c Hc. apply elem_of_app. by left.
  - eexists _, _. split; [reflexivity|]. apply Forall_Forall2_diag, Forall_true. intros h. split; [done|constructor].
  - apply insert_subseteq. apply eq_None_not_Some. intros H%(built_origin u Hu). rewrite E in H. by destruct H.
Qed.

Lemma add_field_built u f : well_built u → well_built (add_field m u f).
Proof.
  intros Hu. unfold add_field. destruct (field_named _ _) as [g|] eqn:E; split; simpl.
  - apply merge_into_relaxed; [apply Hu|]. intros e. apply merge_relaxed.
  - intros name H. apply (built_origin u Hu) in H as [h Hh].
    assert (Hg : grows (schema u) (merge_into (λ e, merge (default 0 (origin u !! f_name f), m) e (f_type f) (f_name f))
      (f_name f) (f_type f) (schema u)).1) by (apply merge_into_grows; intros e; apply merge_extends).
    destruct (field_named_grows _ _ _ _ Hg Hh) as (h' & Hh' & _). by exists h'.
  - apply Forall_app. split; [apply Hu|]. constructor; [|constructor]. apply relax_field_idem.
  - intros name [i Hi]. rewrite field_named_app. destruct (field_named name (schema u)) eqn:En; [done|].
    apply lookup_insert_Some in Hi as [[<- _]|[_ Hi]].
    + unfold field_named. simpl. rewrite bool_decide_true by done. done.
    + destruct (built_origin u Hu name) as [h Hh]; [done|]. congruence.
Qed.

Lemma add_field_covers u f :
  ∃ g, field_named (f_name f) (schema (add_field m u f)) = Some g ∧
    covers (changes (add_field m u f)) m (f_name f) (f_type f) (f_type g).
Proof.
  unfold add_field. destruct (field_named (f_name f) (schema u)) as [g|] eqn:E; simpl.
  - set (n := default 0 _).
    destruct (merge_into_named (λ e, merge (n, m) e (f_type f) (f_name f)) (f_name f) (f_type f) (schema u))
      as (h & Hh & [(e & Ht & Hc)|(Ht & Hc)]); exists h; (split; [exact Hh|]).
    + rewrite Ht. eapply covers_mono; [|constructor|apply (merge_covers (n, m))]. rewrite Hc. intros c ?.
      apply elem_of_app. by right.
    + rewrite Ht. apply covers_same. constructor.
  - rewrite field_named_app, E. unfold field_named. simpl. rewrite bool_decide_true by done.
    eexists; split; [done|]. apply covers_same. constructor.
Qed.

Lemma add_fields u fs : well_built u →
  below u (fold_left (add_field m) fs u) ∧ well_built (fold_left (add_field m) fs u) ∧
  ∀ f, f ∈ fs → ∃ g, field_named (f_name f) (schema (fold_left (add_field m) fs u)) = Some g ∧
    covers (changes (fold_left (add_field m) fs u)) m (f_name f) (f_type f) (f_type g).
Proof.
  revert u. induction fs as [|f fs IH]; intros u Hu; simpl.
  - split; [done|]. split; [done|]. by intros f Hf%elem_of_nil.
  - destruct (IH (add_field m u f)) as (Hb & Hw & Hc); [by apply add_field_built|]. split; [|split; [done|]].
    + etrans; [by apply add_field_below|done].
    + intros g [->|Hg]%elem_of_cons; [|by apply Hc]. destruct (add_field_covers u f) as (g & Hg1 & Hg2).
      destruct Hb as [Hs Hch _ _ _]. destruct (field_named_grows _ _ _ _ Hs Hg1) as (h & Hh1 & Hh2).
      exists h. split; [done|]. by eapply covers_mono.
Qed.
End Added.

(** ** Building *)

Section Built.
Context {RegisteredSchema : Type} (id : RegisteredSchema → Z).
Context (decoded_schema : RegisteredSchema → result string Schema).
Context (named_types : RegisteredSchema → option (gmap string string)).
Abbreviation newest_first := (newest_first id).
Abbreviation dedup_ids := (dedup_ids id).
Abbreviation usable := (usable decoded_schema).
Abbreviation add_member := (add_member id decoded_schema named_types).
Abbreviation build := (build id decoded_schema named_types).

(** An id stands for one schema. *)
Definition ids_agree (ms : list RegisteredSchema) : Prop := ∀ a b, a ∈ ms → b ∈ ms → id a = id b → a = b.

Lemma insert_newest_elem m l x : x ∈ insert_newest id m l ↔ x = m ∨ x ∈ l.
Proof.
  induction l as [|y l IH]; simpl; [rewrite list_elem_of_singleton; set_solver|].
  destruct (id y <=? id m); rewrite !elem_of_cons; [done|]. rewrite IH. naive_solver.
Qed.
Lemma newest_first_elem l x : x ∈ newest_first l ↔ x ∈ l.
Proof. induction l as [|y l IH]; [done|]. simpl. by rewrite insert_newest_elem, elem_of_cons, IH. Qed.
Lemma newest_first_sorted l : StronglySorted (λ a b, id b ≤ id a) (newest_first l).
Proof.
  induction l as [|y l IH]; simpl; [constructor|]. induction IH as [|x l' Hs IH Hx]; simpl; [by repeat constructor|].
  destruct (Z.leb_spec (id x) (id y)).
  - constructor; [by constructor|]. constructor; [done|]. eapply Forall_impl; [exact Hx|]. simpl. intros. lia.
  - constructor; [exact IH|]. apply Forall_forall. intros z [->|Hz]%insert_newest_elem; [lia|].
    rewrite Forall_forall in Hx. by apply Hx.
Qed.
Lemma dedup_ids_head x l : ∃ r, dedup_ids (x :: l) = x :: r.
Proof. simpl. destruct (dedup_ids l) as [|y r]; [by eexists|]. destruct (id x =? id y); by eexists. Qed.
Lemma dedup_ids_elem l x : ids_agree l → x ∈ dedup_ids l ↔ x ∈ l.
Proof.
  induction l as [|y l IH]; intros Hl; [done|]. assert (Hl' : ids_agree l) by (intros a b Ha Hb; apply Hl; by right).
  specialize (IH Hl'). cbn [Union.dedup_ids]. destruct (dedup_ids l) as [|z r] eqn:E.
  - rewrite !elem_of_cons. rewrite <-IH. done.
  - destruct (Z.eqb_spec (id y) (id z)) as [Hid|Hid].
    + assert (z ∈ l) as Hz. { destruct l as [|z' l]; [done|]. destruct (dedup_ids_head z' l) as [r' Hr]. rewrite Hr in E.
        injection E as -> _. by left. }
      assert (y = z) as -> by (apply Hl; [by left|by right|done]). rewrite IH. rewrite !elem_of_cons. naive_solver.
    + rewrite (elem_of_cons (z :: r)), IH. by rewrite elem_of_cons.
Qed.
Lemma dedup_ids_subset l x : x ∈ dedup_ids l → x ∈ l.
Proof.
  revert x. induction l as [|y l IH]; intros x; [done|]. cbn [Union.dedup_ids]. destruct (dedup_ids l) as [|z r].
  - intros H%list_elem_of_singleton. subst. by left.
  - destruct (id y =? id z).
    + intros [->|H]%elem_of_cons; [by left|]. right. apply IH. by right.
    + intros [->|H]%elem_of_cons; [by left|]. right. by apply IH.
Qed.
Lemma dedup_ids_sorted l : StronglySorted (λ a b, id b ≤ id a) l → StronglySorted (λ a b, id b < id a) (dedup_ids l).
Proof.
  induction 1 as [|x l Hs IH Hx]; [constructor|]. cbn [Union.dedup_ids].
  assert (Hall : Forall (λ b, id b ≤ id x) (dedup_ids l)).
  { apply Forall_forall. intros z Hz%dedup_ids_subset. rewrite Forall_forall in Hx. by apply Hx. }
  destruct (dedup_ids l) as [|y r]; [by repeat constructor|].
  apply StronglySorted_inv in IH as [Hr Hy]. apply Forall_cons in Hall as [Hxy Hall].
  destruct (Z.eqb_spec (id x) (id y)) as [Hid|Hid].
  - constructor; [done|]. eapply Forall_impl; [exact Hy|]. simpl. intros. lia.
  - constructor; [by constructor|]. constructor; [lia|]. eapply Forall_impl; [exact Hy|]. simpl. intros. lia.
Qed.

Lemma descending_unique l l' :
  StronglySorted (λ a b, id b < id a) l → StronglySorted (λ a b, id b < id a) l' → (∀ x, x ∈ l ↔ x ∈ l') → l = l'.
Proof.
  intros H. revert l'. induction H as [|x l Hs IH Hx]; intros l' Hs' Heq.
  - destruct l' as [|y l']; [done|]. exfalso. destruct (Heq y) as [_ Hy]. by apply elem_of_nil in Hy; [|left].
  - destruct l' as [|y l']; [exfalso; destruct (Heq x) as [Hx' _]; by apply elem_of_nil in Hx'; [|left]|].
    apply StronglySorted_inv in Hs' as [Hs' Hy]. rewrite Forall_forall in Hx, Hy.
    assert (x = y) as <-.
    { destruct (Heq x) as [H1 _]. destruct (Heq y) as [_ H2].
      assert (x ∈ y :: l') as [->|H1']%elem_of_cons by (apply H1; by left); [done|].
      assert (y ∈ x :: l) as [->|H2']%elem_of_cons by (apply H2; by left); [done|].
      specialize (Hx y H2'). specialize (Hy x H1'). lia. }
    f_equal. apply IH; [done|]. intros z. split; intros Hz.
    + destruct (Heq z) as [H1 _]. assert (z ∈ x :: l') as [->|?]%elem_of_cons by (apply H1; by right); [|done].
      specialize (Hx x Hz). lia.
    + destruct (Heq z) as [_ H1]. assert (z ∈ x :: l) as [->|?]%elem_of_cons by (apply H1; by right); [|done].
      specialize (Hy x Hz). lia.
Qed.

(** The members in the order they are added. *)
Definition ordered (ms : list RegisteredSchema) : list RegisteredSchema := dedup_ids (newest_first ms).
Lemma ordered_sorted ms : StronglySorted (λ a b, id b < id a) (ordered ms).
Proof. apply dedup_ids_sorted, newest_first_sorted. Qed.
Lemma ordered_elem ms x : ids_agree ms → x ∈ ordered ms ↔ x ∈ ms.
Proof.
  intros H. unfold ordered. rewrite dedup_ids_elem; [apply newest_first_elem|].
  intros a b. rewrite !newest_first_elem. apply H.
Qed.

Lemma add_member_spec u m : well_built u → below u (add_member u m) ∧ well_built (add_member u m) ∧
  ∀ fs, usable (prefix u) m = Some fs → id m ∈ members (add_member u m) ∧
    ∀ f, f ∈ fs → ∃ g, field_named (f_name f) (schema (add_member u m)) = Some g ∧
      covers (changes (add_member u m)) (id m) (f_name f) (f_type f) (f_type g).
Proof.
  intros Hu. unfold Union.add_member. destruct (usable (prefix u) m) as [fs|]; [|done].
  set (v := {| schema := schema u; members := members u ++ [id m] |}).
  assert (Hv : well_built v) by (split; apply Hu).
  destruct (add_fields (id m) v fs Hv) as (Hb & Hw & Hc). split; [|split; [done|]].
  - etrans; [|exact Hb]. split; try done; simpl; [apply grows_refl|by apply prefix_app_r].
  - intros fs' [= <-]. split; [|done]. destruct Hb as [_ _ [k Hk] _ _]. rewrite Hk. apply elem_of_app. left.
    simpl. apply elem_of_app. right. by left.
Qed.

Lemma add_members_spec l u : well_built u → below u (fold_left add_member l u) ∧ well_built (fold_left add_member l u) ∧
  ∀ m fs, m ∈ l → usable (prefix u) m = Some fs → id m ∈ members (fold_left add_member l u) ∧
    ∀ f, f ∈ fs → ∃ g, field_named (f_name f) (schema (fold_left add_member l u)) = Some g ∧
      covers (changes (fold_left add_member l u)) (id m) (f_name f) (f_type f) (f_type g).
Proof.
  revert u. induction l as [|x l IH]; intros u Hu; simpl.
  - split; [done|]. split; [done|]. by intros m fs Hm%elem_of_nil.
  - destruct (add_member_spec u x Hu) as (Hb & Hw & Hc). destruct (IH _ Hw) as (Hb' & Hw' & Hc').
    split; [by etrans|]. split; [done|]. intros m fs [->|Hm]%elem_of_cons Huse.
    + destruct (Hc fs Huse) as [Hid Hf]. destruct Hb' as [Hs Hch [k Hk] _ _]. split; [rewrite Hk; apply elem_of_app; by left|].
      intros f Hfs. destruct (Hf f Hfs) as (g & Hg1 & Hg2). destruct (field_named_grows _ _ _ _ Hs Hg1) as (h & Hh1 & Hh2).
      exists h. split; [done|]. by eapply covers_mono.
    + apply Hc'; [done|]. destruct Hb as [_ _ _ _ Hp]. by rewrite Hp.
Qed.

Lemma empty_built prefix : well_built (empty_union prefix).
Proof. split; [constructor|]. intros name [i Hi]. simpl in Hi. by rewrite lookup_empty in Hi. Qed.

(** C34: Every writer schema that can be used is in the union, and every field of it has a place
    there by its name, at every depth: of its own type, more fields of records aside, or of the
    type of a newer schema, which is then on record as a change with both types. Nothing in
    the union is NOT NULL, so a row without a field fits. *)
Theorem every_writer_schema_is_in_the_union ms prefix m fs f :
  ids_agree ms → m ∈ ms → usable prefix m = Some fs → f ∈ fs →
  id m ∈ members (build ms prefix) ∧
  ∃ g, field_named (f_name f) (schema (build ms prefix)) = Some g ∧ relax_field g = g ∧
    covers (changes (build ms prefix)) (id m) (f_name f) (f_type f) (f_type g).
Proof.
  intros Hids Hm Huse Hf. unfold Union.build. cbn [schema members changes]. fold (ordered ms).
  destruct (add_members_spec (ordered ms) (empty_union prefix) (empty_built prefix)) as (Hb & Hw & Hc).
  destruct (Hc m fs) as [Hid Hcov]; [by apply ordered_elem|done|]. split; [done|].
  destruct (Hcov f Hf) as (g & Hg & Hg'). exists g. split; [by rewrite field_named_app, Hg|]. split; [|done].
  destruct Hw as [Hr _]. unfold relaxed in Hr. rewrite Forall_forall in Hr. apply Hr.
  unfold field_named in Hg. apply List.find_some in Hg as [Hg _]. by apply list_elem_of_In.
Qed.

(** The union is one of a set of writer schemas: the order they came in, and schemas that
    came again, make no difference. Older ones joining change no type in it: every field keeps
    its place, its origin and its type, with more fields in records at most. *)
Theorem older_schemas_only_add ms ms' prefix :
  ids_agree (ms ++ ms') → (∀ a b, a ∈ ms → b ∈ ms' → id b < id a) →
  (∀ l, (∀ x, x ∈ l ↔ x ∈ ms ++ ms') → build l prefix = build (ms ++ ms') prefix) ∧
  ∃ fs fs', schema (build ms prefix) = fs ++ relax_fields (metadata_fields prefix) ∧
    schema (build (ms ++ ms') prefix) = fs' ++ relax_fields (metadata_fields prefix) ∧ grows fs fs' ∧
    origin (build ms prefix) ⊆ origin (build (ms ++ ms') prefix) ∧
    changes (build ms prefix) ⊆ changes (build (ms ++ ms') prefix) ∧
    members (build ms prefix) `prefix_of` members (build (ms ++ ms') prefix).
Proof.
  intros Hids Hlt. split.
  - intros l Hl. assert (E : ordered l = ordered (ms ++ ms')).
    { apply descending_unique; [apply ordered_sorted..|]. intros x. rewrite !ordered_elem; [by apply Hl|done|].
      intros a b Ha%Hl Hb%Hl. by apply Hids. }
    unfold Union.build. fold (ordered l) (ordered (ms ++ ms')). by rewrite E.
  - assert (H1 : ids_agree ms) by (intros a b Ha Hb; apply Hids; apply elem_of_app; by left).
    assert (H2 : ids_agree ms') by (intros a b Ha Hb; apply Hids; apply elem_of_app; by right).
    assert (E : ordered (ms ++ ms') = ordered ms ++ ordered ms').
    { apply descending_unique; [apply ordered_sorted| |].
      - pose proof (ordered_sorted ms) as Hs. pose proof (ordered_sorted ms') as Hs'.
        assert (Hall : Forall (λ a, Forall (λ b, id b < id a) (ordered ms')) (ordered ms)).
        { apply Forall_forall. intros a Ha. apply Forall_forall. intros b Hb. apply Hlt; by apply ordered_elem. }
        revert Hall. induction Hs as [|a l Hs IH Ha]; intros Hall; [done|]. simpl. apply Forall_cons in Hall as [Hb Hall].
        constructor; [by apply IH|]. apply Forall_app. by split.
      - intros x. rewrite elem_of_app, !ordered_elem by done. by rewrite elem_of_app. }
    unfold Union.build. fold (ordered ms) (ordered (ms ++ ms')). rewrite E, fold_left_app. cbn [schema origin changes members].
    destruct (add_members_spec (ordered ms) (empty_union prefix) (empty_built prefix)) as (_ & Hw & _).
    destruct (add_members_spec (ordered ms') _ Hw) as ([Hs Hch Hme Ho _] & _ & _).
    eexists _, _. by split_and!.
Qed.
End Built.

(** *** On concrete schemas *)

(** Writer schemas by their ids: a field widened, a record that grew, a field dropped. *)
Definition orders (v : Z) : result string Schema :=
  let record name fields nullable := mkField name (Struct fields) nullable in
  if v =? 1 then Ok [mkField "id"%string Int32 false;
                     record "customer"%string [mkField "name"%string Utf8 false; mkField "age"%string Int32 true] false;
                     mkField "note"%string Utf8 true]
  else if v =? 2 then Ok [mkField "id"%string Int64 false;
                          record "customer"%string [mkField "mail"%string Utf8 true; mkField "name"%string Utf8 false] true]
  else if v =? 3 then Ok [mkField "kafka_offset"%string Int64 false]
  else Err "no such schema"%string.
Definition orders_union (ms : list Z) : UnionSchema := build (λ v : Z, v) orders (λ _, None) ms "kafka_".

Example orders_union_12 :
  let u := orders_union [1; 2; 3; 1; 4] in
  take 3 (schema u) =
    [mkField "id"%string Int64 true;
     mkField "customer"%string (Struct [mkField "mail"%string Utf8 true; mkField "name"%string Utf8 true;
                                        mkField "age"%string Int32 true]) true;
     mkField "note"%string Utf8 true] ∧
  members u = [2; 1] ∧ changes u = [{| field := "id"; newer := (2, Int64); older := (1, Int32) |}].
Proof. vm_compute. done. Qed.

Example orders_plan :
  let u := orders_union [1; 2] in
  let fails := λ _ : Schema, Err (Error.Schema "no such function") in
  plan u "SELECT f(ID) FROM source"%string fails = Err (KafkaSchemaConflict ["id"%string] "the SQL does not plan") ∧
  plan u "SELECT f(kafka_ID, ids) FROM source"%string fails = Err (Error.Schema "no such function").
Proof. vm_compute. done. Qed.

Lemma every_writer_schema_is_in_the_union_witness :
  ids_agree (λ v : Z, v) [1; 2] ∧
  ∃ g, field_named "id" (schema (orders_union [1; 2])) = Some g ∧ relax_field g = g ∧
    covers (changes (orders_union [1; 2])) 1 "id" Int32 (f_type g).
Proof.
  assert (H : ids_agree (λ v : Z, v) [1; 2]) by by intros a b _ _ E. split; [exact H|].
  eapply (every_writer_schema_is_in_the_union (λ v : Z, v) orders (λ _, None) [1; 2] "kafka_" 1 _ (mkField "id" Int32 false) H).
  - by left.
  - vm_compute. reflexivity.
  - by left.
Defined.

Lemma older_schemas_only_add_witness :
  ids_agree (λ v : Z, v) ([2] ++ [1]) ∧
  orders_union [1; 2; 1] = orders_union [2; 1] ∧ changes (orders_union [2]) ⊆ changes (orders_union [2; 1]).
Proof.
  assert (H : ids_agree (λ v : Z, v) ([2] ++ [1])) by by intros a b _ _ E. split; [exact H|].
  edestruct (older_schemas_only_add (λ v : Z, v) orders (λ _, None) [2] [1] "kafka_" H) as [H1 (fs & fs' & _ & _ & _ & _ & Hc & _)].
  - by intros a b ->%list_elem_of_singleton ->%list_elem_of_singleton.
  - split; [|exact Hc]. apply H1. intros x. cbn. rewrite !elem_of_cons. naive_solver.
Defined.
