(* ===== verification/Kdi.v ===== *)
(** * Kdi: kafka-delta-ingest's text of a value (src/kafka/kdi_text.rs)

    The program this one replaced wrote a value that goes into a STRING column as its JSON, and
    a null as the word null where its JSON had the key.  [Shape] is what a writer schema has
    keys for, [At] where a value stood, [render] the text.  What a writer schema's shape is
    read off (arrow-avro's metadata) and serde_json's spelling of numbers and strings are
    arguments; a string's text is its bytes. *)

From Stdlib Require Import ZArith Lia SpecFloat.
From stdpp Require Import base list strings.
From S2P Require Import Prelude F64 JsonText Schema Fractions.

Open Scope Z_scope.
Open Scope ddi_scope.

(** ** The writer's shape *)

(** [Shape]; of its maps by name, only lookups are used. *)
Inductive Shape :=
  | S_Record (fields : list (string * Shape))
  | S_List (item : Shape)
  | S_Map (value : Shape)
  | S_Union (branches : list (string * Shape))
  | S_Leaf (arrow : DataType) (fixed : option nat).

Definition keyed {A} (name : string) (l : list (string * A)) : option A :=
  snd <$> List.find (λ x, bool_decide (x.1 = name)) l.

Definition shape_field_named (name : string) (s : Shape) : option Shape :=
  match s with S_Record fields => keyed name fields | _ => None end.
Definition shape_element (s : Shape) : option Shape := match s with S_List item => Some item | _ => None end.
Definition shape_value (s : Shape) : option Shape := match s with S_Map value => Some value | _ => None end.
(** [Shape::branch]: a value that is no union in the writer schema is the branch itself. *)
Definition shape_branch (name : string) (s : Shape) : option Shape :=
  match s with S_Union branches => keyed name branches | plain => Some plain end.
Definition fixed (s : Shape) : option nat := match s with S_Leaf _ fixed => fixed | _ => None end.

(** [get_mut(name)], or [insert]. *)
Fixpoint merge_key {A} (m : A → A) (name : string) (new : A) (l : list (string * A)) : list (string * A) :=
  match l with
  | [] => [(name, new)]
  | (n, a) :: l => if decide (n = name) then (n, m a) :: l else (n, a) :: merge_key m name new l
  end.
(** [Shape::merge], of [other] into [s]. *)
Fixpoint merge_shape (s other : Shape) {struct other} : Shape :=
  let all := fix all (a b : list (string * Shape)) : list (string * Shape) :=
    match b with
    | [] => a
    | (name, shape) :: b => all (merge_key (λ mine, merge_shape mine shape) name shape a) b
    end in
  match s, other with
  | S_Record a, S_Record b => S_Record (all a b)
  | S_Union a, S_Union b => S_Union (all a b)
  | S_List a, S_List b => S_List (merge_shape a b)
  | S_Map a, S_Map b => S_Map (merge_shape a b)
  | s, _ => s
  end.

(** ** Where it stood *)

Record At := { key : bool; shape : option Shape }.
Definition ABSENT : At := {| key := false; shape := None |}.
Definition is_some {A} (o : option A) : bool := match o with Some _ => true | None => false end.

Definition at_column (writer : Shape) (name : string) : At :=
  let s := shape_field_named name writer in {| key := is_some s; shape := s |}.
Definition at_copy (writer : Shape) (source : string) : At :=
  {| key := false; shape := shape_field_named source writer |}.
Definition at_child (a : At) (name : string) : At :=
  let s := shape a ≫= shape_field_named name in
  {| key := negb (is_some (shape a)) || is_some s; shape := s |}.
Definition at_element (a : At) : At := {| key := true; shape := shape a ≫= shape_element |}.
Definition at_value (a : At) : At := {| key := true; shape := shape a ≫= shape_value |}.
Definition at_branch (a : At) (name : string) : At := {| key := key a; shape := shape a ≫= shape_branch name |}.

Definition reaches_elements (item : DataType) : bool :=
  match item with List _ | LargeList _ | FixedSizeList _ _ | Map _ _ => false | _ => true end.

Fixpoint takes_null_text_in (t : DataType) : bool :=
  match t with
  | Utf8 => true
  | Struct fields => existsb (λ f, match f with mkField _ t _ => takes_null_text_in t end) fields
  | List item | LargeList item =>
      match item with mkField _ t _ => reaches_elements t && takes_null_text_in t end
  | _ => false
  end.
(** [takes_null_text] *)
Definition takes_null_text (t : DataType) (reach : bool) : bool := reach && takes_null_text_in t.

Fixpoint has_map (t : DataType) : bool :=
  match t with
  | Map _ _ => true
  | Struct fields => existsb (λ f, match f with mkField _ t _ => has_map t end) fields
  | List item | LargeList item | FixedSizeList item _ => match item with mkField _ t _ => has_map t end
  | _ => false
  end.

(** ** The text *)

(** [is_null]: a union's value by its branch. *)
Fixpoint union_null (v : Value) : bool :=
  match v with
  | V_Union _ None => true
  | V_Union _ (Some v) => union_null v
  | _ => false
  end.
Definition is_null (v : option Value) : bool := match v with None => true | Some v => union_null v end.

(** [plain], [converted] *)
Definition plain (t : DataType) : bool :=
  negb (is_nested t) && match t with Dictionary _ _ | Null => false | _ => true end.
Definition converted (t : DataType) (s : option Shape) : bool :=
  match s with
  | Some (S_Leaf arrow _) => bool_decide (arrow ≠ t) && plain arrow && plain t
  | _ => false
  end.

(** A two's complement number in [n] bytes, the highest first; [to_be_bytes]. *)
Fixpoint be_bytes (n : nat) (z : Z) : list Z :=
  match n with O => [] | S n => Z.shiftr z (8 * Z.of_nat n) mod 256 :: be_bytes n z end.
Definition le_u32 (z : Z) : list Z := rev (be_bytes 4 (u32 z)).

Fixpoint minimal (be : list Z) : list Z :=
  match be with
  | b :: ((next :: _) as rest) =>
      if ((b =? 0) && (Z.land next 128 =? 0)) || ((b =? 255) && negb (Z.land next 128 =? 0))
      then minimal rest else be
  | _ => be
  end.
(** [decimal_bytes] *)
Definition decimal_bytes (be : list Z) (s : option Shape) : list Z :=
  let m := minimal be in
  match s ≫= fixed with
  | Some n =>
      if (length m <? n)%nat then
        let fill := match m with b :: _ => if Z.land b 128 =? 0 then 0 else 255 | [] => 0 end in
        replicate (n - length m) fill ++ m
      else m
  | None => m
  end.

(** [avro_duration] *)
Definition avro_duration (months days millis : Z) : list Z := le_u32 months ++ le_u32 days ++ le_u32 millis.

(** [bytes]: an array of numbers. *)
Definition bytes (b : list Z) : text := chars "[" ++ commas (show_int <$> b) ++ chars "]".

(** [BTreeMap::insert]: in the order of the keys' bytes, the last value of a key. *)
Fixpoint insert_key {A} (k : string) (a : A) (l : list (string * A)) : list (string * A) :=
  match l with
  | [] => [(k, a)]
  | (k', a') :: l' =>
      match String.compare k k' with
      | Lt => (k, a) :: l
      | Eq => (k, a) :: l'
      | Gt => (k', a') :: insert_key k a l'
      end
  end.
Definition btree {A} (l : list (string * A)) : list (string * A) :=
  fold_left (λ m x, insert_key x.1 x.2 m) l [].

(** A text of bytes as a string. *)
Definition string_of (t : text) : string := String.string_of_list_ascii (Ascii.ascii_of_N <$> t).

Section Render.
(** The lenient cast of one value: nothing where there is none, or it does not fit. *)
Context (cast_safe : DataType → DataType → Value → option Value).
(** serde_json's text of a double, nothing for one that is not finite; and of a string. *)
Context (from_f64 : f64 → option text) (quoted : text → text).

(** [as_written] *)
Definition as_written (t : DataType) (v : Value) (s : option Shape) : option (DataType * Value) :=
  match s with
  | Some (S_Leaf writer _) =>
      if converted t s then
        written ← cast_safe t writer v;
        if decide (cast_safe writer t written = Some v) then Some (writer, written) else None
      else None
  | _ => None
  end.

Definition no_text {A} : result string A :=
  Err "a value of this type has no text kafka-delta-ingest could have written"%string.

(** [json] and [text] of a value of a plain type. *)
Definition render_plain (as_text : bool) (t : DataType) (v : Value) (s : option Shape) : result string text :=
  match t with
  | Boolean => match v with V_Bool b => Ok (chars (if b then "true" else "false")) | _ => no_text end
  | Int8 | Int16 | Int32 | Int64 | UInt8 | UInt16 | UInt32 | UInt64 | Date32 | Date64 | Time32 _ | Time64 _
  | Timestamp _ _ | Duration _ => match v with V_Int z => Ok (show_int z) | _ => no_text end
  | Float16 | Float32 | Float64 =>
      match v with
      | V_Float f => match from_f64 f with Some t => Ok t | None => Err "is not a JSON number"%string end
      | _ => no_text
      end
  | Utf8 | LargeUtf8 | Utf8View =>
      match v with V_Text x => Ok (if as_text then chars x else quoted (chars x)) | _ => no_text end
  | Binary | LargeBinary | BinaryView | FixedSizeBinary _ =>
      match v with V_Bytes b => Ok (bytes b) | _ => no_text end
  | Decimal32 _ _ | Decimal64 _ _ | Decimal128 _ _ =>
      match v with V_Decimal z => Ok (bytes (decimal_bytes (be_bytes 16 z) s)) | _ => no_text end
  | Decimal256 _ _ =>
      match v with V_Decimal z => Ok (bytes (decimal_bytes (be_bytes 32 z) s)) | _ => no_text end
  | Interval unit_ =>
      match v with
      | V_Interval m d x =>
          Ok (bytes (match unit_ with
                     | MonthDayNano => avro_duration m d (x / 1000000)
                     | YearMonth => avro_duration m 0 0
                     | DayTime => avro_duration 0 d x
                     end))
      | _ => no_text
      end
  | _ => no_text
  end.

Definition null_text : text := chars "null".

(** The members of an object, each by what renders it: a null under no key is left out. *)
Fixpoint object_members (a : At) (l : list (string * (option Value * (Value → option Shape → result string text))))
    : result string (list text) :=
  match l with
  | [] => Ok []
  | (name, (v, json)) :: l =>
      let child := at_child a name in
      let entry t := quoted (chars name) ++ chars ":" ++ t in
      if is_null v && negb (key child) then object_members a l
      else
        let? t := if is_null v then Ok null_text
                  else match v with Some v => json v (shape child) | None => Ok null_text end in
        let? rest := object_members a l in
        Ok (entry t :: rest)
  end.

(** [json], and with [as_text] [text]. *)
Fixpoint render (as_text : bool) (t : DataType) (v : Value) (s : option Shape) {struct t} : result string text :=
  match as_written t v s with
  | Some (w, v) => render_plain as_text w v s
  | None =>
      match t with
      | List item | LargeList item | FixedSizeList item _ =>
          match item, v with
          | mkField _ t _, V_List l =>
              let? ts := mapR (λ v, if is_null v then Ok null_text
                                    else match v with
                                         | Some v => render false t v (s ≫= shape_element)
                                         | None => Ok null_text
                                         end) l in
              Ok (chars "[" ++ commas ts ++ chars "]")
          | _, _ => no_text
          end
      | Struct fields =>
          match v with
          | V_Struct l =>
              let children := (fix go (fields : Schema) (l : list (option Value)) :=
                match fields, l with
                | mkField name t _ :: fields, v :: l => (name, (v, render false t)) :: go fields l
                | _, _ => []
                end) fields l in
              let? ms := object_members {| key := true; shape := s |} (btree children) in
              Ok (chars "{" ++ commas ms ++ chars "}")
          | _ => no_text
          end
      | Map (mkField _ (Struct (mkField _ kt _ :: mkField _ vt _ :: _)) _) _ =>
          match v with
          | V_Map l =>
              let? entries := mapR (λ e : option (option Value * option Value), match e with
                | Some (Some k, v) => let? k := render true kt k None in Ok (string_of k, v)
                | _ => no_text
                end) l in
              let? ms := mapR (λ e, let? t := if is_null e.2 then Ok null_text
                                              else match e.2 with
                                                   | Some v => render false vt v (s ≫= shape_value)
                                                   | None => Ok null_text
                                                   end in
                                    Ok (quoted (chars e.1) ++ chars ":" ++ t)) (btree entries) in
              Ok (chars "{" ++ commas ms ++ chars "}")
          | _ => no_text
          end
      | Union fields _ =>
          match v with
          | V_Union id (Some v) =>
              (fix go (fields : list (Z * Field)) :=
                 match fields with
                 | (i, mkField name t _) :: fields =>
                     if i =? id then
                       if is_null (Some v) && negb as_text then Ok null_text
                       else render as_text t v (s ≫= shape_branch name)
                     else go fields
                 | [] => no_text
                 end) fields
          | V_Union _ None => Ok null_text
          | _ => no_text
          end
      | Dictionary _ t => render as_text t v s
      | t => render_plain as_text t v s
      end
  end.
Definition text_of := render true.
End Render.

(** ** What the bytes of a decimal are *)

Section Bytes.
Implicit Types (l : list Z).
Definition is_byte (b : Z) : Prop := 0 <= b < 256.

(** The numbers bytes stand for, the highest first: without a sign, and in two's complement. *)
Fixpoint unsigned (l : list Z) : Z :=
  match l with [] => 0 | b :: l => b * 256 ^ Z.of_nat (length l) + unsigned l end.
Definition signed (l : list Z) : Z :=
  match l with
  | [] => 0
  | b :: l => (if b <? 128 then b else b - 256) * 256 ^ Z.of_nat (length l) + unsigned l
  end.

Lemma unsigned_range l : Forall is_byte l → 0 <= unsigned l < 256 ^ Z.of_nat (length l).
Proof.
  induction 1 as [|b l Hb _ IH]; [simpl; lia|]. unfold is_byte in Hb. cbn [unsigned length].
  rewrite Nat2Z.inj_succ, Z.pow_succ_r by lia. nia.
Qed.
Lemma be_bytes_are_bytes n z : Forall is_byte (be_bytes n z) ∧ length (be_bytes n z) = n.
Proof.
  induction n as [|n [IH1 IH2]]; [done|]. simpl. split; [|by rewrite IH2].
  constructor; [apply Z.mod_pos_bound; lia|done].
Qed.
Lemma unsigned_be_bytes n z : unsigned (be_bytes n z) = z mod 256 ^ Z.of_nat n.
Proof.
  induction n as [|n IH]; [simpl; by rewrite Z.mod_1_r|]. cbn [be_bytes unsigned].
  rewrite (proj2 (be_bytes_are_bytes n z)), IH, Z.shiftr_div_pow2 by lia.
  rewrite Nat2Z.inj_succ, Z.pow_succ_r by lia.
  replace (2 ^ (8 * Z.of_nat n)) with (256 ^ Z.of_nat n) by (by rewrite Z.pow_mul_r by lia).
  rewrite (Z.mul_comm 256), Z.rem_mul_r by (try apply Z.pow_nonzero; lia). lia.
Qed.

(** A number of [n] bytes. *)
Definition in_bytes (n : nat) (z : Z) : Prop :=
  match n with O => z = 0 | S n => - (128 * 256 ^ Z.of_nat n) <= z < 128 * 256 ^ Z.of_nat n end.

Lemma signed_range l : Forall is_byte l → in_bytes (length l) (signed l).
Proof.
  intros [|b l' Hb Hl]; [done|]. simpl. pose proof (unsigned_range _ Hl). unfold is_byte in Hb.
  destruct (Z.ltb_spec b 128); nia.
Qed.
Lemma signed_unsigned l : Forall is_byte l → ∃ k, signed l = unsigned l - k * 256 ^ Z.of_nat (length l) ∧ (k = 0 ∨ k = 1).
Proof.
  intros [|b l' Hb Hl]; [exists 0; simpl; lia|]. cbn [signed unsigned length]. rewrite Nat2Z.inj_succ, Z.pow_succ_r by lia.
  destruct (b <? 128); [exists 0|exists 1]; lia.
Qed.
Lemma signed_be_bytes n z : in_bytes n z → signed (be_bytes n z) = z.
Proof.
  intros Hz. destruct (be_bytes_are_bytes n z) as [Hb Hl]. pose proof (signed_range _ Hb) as Hs. rewrite Hl in Hs.
  destruct (signed_unsigned _ Hb) as (k & Hk & _). rewrite Hl, unsigned_be_bytes in Hk.
  destruct n as [|n]; [simpl in *; lia|]. unfold in_bytes in *.
  rewrite Nat2Z.inj_succ, Z.pow_succ_r in Hk by lia.
  set (P := 256 ^ Z.of_nat n) in *. assert (0 < P) by (apply Z.pow_pos_nonneg; lia).
  pose proof (Z.div_mod z (256 * P) ltac:(lia)). set (q := z / (256 * P)) in *. set (r := z mod (256 * P)) in *.
  assert (z - signed (be_bytes (S n) z) = (q + k) * (256 * P)) by lia.
  assert (q + k = 0) by nia. nia.
Qed.

Lemma land_high b : is_byte b → (Z.land b 128 =? 0) = (b <? 128).
Proof.
  unfold is_byte. intros Hb. assert (H : forallb (λ n, let b := Z.of_nat n in Bool.eqb (Z.land b 128 =? 0) (b <? 128)) (seq 0 256) = true)
    by (vm_compute; reflexivity).
  rewrite forallb_forall in H. specialize (H (Z.to_nat b)). rewrite Z2Nat.id in H by lia.
  apply Bool.eqb_prop, H, in_seq. lia.
Qed.

(** The first byte of more than one says nothing that the next does not. *)
Definition shortest l : Prop :=
  match l with b :: next :: _ => ¬ (b = 0 ∧ next < 128) ∧ ¬ (b = 255 ∧ 128 <= next) | _ => True end.

Lemma minimal_spec l : Forall is_byte l → l ≠ [] →
  Forall is_byte (minimal l) ∧ minimal l ≠ [] ∧ signed (minimal l) = signed l ∧ shortest (minimal l).
Proof.
  induction 1 as [|b l Hb Hl IH]; [done|]. intros _. destruct l as [|next l]; [by split_and!; [constructor|..]|].
  pose proof Hl as [Hn Hl']%Forall_cons.
  change (minimal (b :: next :: l)) with
    (if ((b =? 0) && (Z.land next 128 =? 0)) || ((b =? 255) && negb (Z.land next 128 =? 0))
     then minimal (next :: l) else b :: next :: l).
  rewrite (land_high _ Hn).
  destruct (Z.eqb_spec b 0) as [H0|H0], (Z.eqb_spec b 255) as [H1|H1], (Z.ltb_spec next 128); cbn [andb orb negb];
    try lia; try (split_and!; [by constructor|done|done|cbn [shortest]; lia]); subst b.
  - destruct (IH) as (? & ? & Hs & ?); [done|]. split_and!; try done. rewrite Hs.
    cbn [signed unsigned length]. destruct (Z.ltb_spec next 128); [|lia]. change (0 <? 128) with true. cbv iota. lia.
  - destruct (IH) as (? & ? & Hs & ?); [done|]. split_and!; try done. rewrite Hs.
    cbn [signed unsigned length]. destruct (Z.ltb_spec next 128); [lia|]. change (255 <? 128) with false. cbv iota.
    rewrite Nat2Z.inj_succ, Z.pow_succ_r by lia. lia.
Qed.

(** No fewer bytes are the same number. *)
Lemma shortest_length l k : Forall is_byte l → shortest l → Forall is_byte k → k ≠ [] → signed k = signed l →
  (length l ≤ length k)%nat.
Proof.
  intros Hl Hs Hk Hne He. destruct l as [|b [|next l]]; [simpl; lia|destruct k; simpl; [done|lia]|].
  apply Nat.nlt_ge. intros Hlt. pose proof (signed_range _ Hk) as Hr. destruct k as [|x k]; [done|].
  rewrite He in Hr. cbn [length in_bytes] in Hr, Hlt.
  apply Forall_cons in Hl as [Hb [Hn Hl]%Forall_cons]. pose proof (unsigned_range _ Hl) as Hu.
  cbn [signed unsigned length] in Hr. rewrite Nat2Z.inj_succ, Z.pow_succ_r in Hr by lia.
  assert (256 ^ Z.of_nat (length k) <= 256 ^ Z.of_nat (length l)) by (apply Z.pow_le_mono_r; lia).
  set (P := 256 ^ Z.of_nat (length l)) in *. set (Q := 256 ^ Z.of_nat (length k)) in *. simpl in Hs. unfold is_byte in *.
  destruct (Z.ltb_spec b 128); [assert (b = 0 ∨ 1 <= b) as [->|?] by lia|assert (b = 255 ∨ b - 256 <= -2) as [->|?] by lia]; nia.
Qed.

Lemma signed_fill n l : l ≠ [] → Forall is_byte l →
  let fill := match l with b :: _ => if Z.land b 128 =? 0 then 0 else 255 | [] => 0 end in
  signed (replicate n fill ++ l) = signed l ∧ Forall is_byte (replicate n fill ++ l).
Proof.
  intros Hne Hl fill. assert (Hf : ∃ b l', l = b :: l' ∧ fill = (if b <? 128 then 0 else 255)).
  { destruct Hl as [|b l' Hb _]; [done|]. exists b, l'. split; [done|]. subst fill. by rewrite land_high. }
  destruct Hf as (b & l' & -> & Hfill). clearbody fill.
  assert (His : is_byte fill) by (rewrite Hfill; unfold is_byte; destruct (b <? 128); lia).
  split; [|apply Forall_app; split; [by apply Forall_replicate|done]].
  induction n as [|n IH]; [done|]. rewrite <-IH. cbn [replicate app signed].
  destruct n as [|n]; cbn [replicate app signed unsigned length]; rewrite Nat2Z.inj_succ, Z.pow_succ_r by lia;
    destruct (Z.ltb_spec b 128); subst fill; change (0 <? 128) with true; change (255 <? 128) with false; cbv iota; try lia;
    destruct (Z.ltb_spec b 128); try lia.
Qed.

(** A decimal's bytes, as kdi's text shows them, are its number in two's complement, the
    highest byte first: in as many bytes as a fixed schema asks for, and otherwise, as where
    these are too few, in as few bytes as the number has. *)
Theorem a_decimals_bytes_are_its_number n z s : (0 < n)%nat → in_bytes n z →
  let b := decimal_bytes (be_bytes n z) s in
  Forall is_byte b ∧ signed b = z ∧
  (∀ k, Forall is_byte k → k ≠ [] → signed k = z →
     (length b ≤ match s ≫= fixed with Some size => length k `max` size | None => length k end)%nat) ∧
  (∀ size, s ≫= fixed = Some size → (size ≤ length b)%nat).
Proof.
  intros Hn Hz b. destruct (be_bytes_are_bytes n z) as [Hb Hl].
  destruct (minimal_spec _ Hb) as (Hm & Hne & Hs & Hsh); [destruct n; [lia|done]|].
  rewrite (signed_be_bytes n z Hz) in Hs. subst b. unfold decimal_bytes.
  assert (Hk : ∀ k, Forall is_byte k → k ≠ [] → signed k = z → (length (minimal (be_bytes n z)) ≤ length k)%nat)
    by (intros k ? ? ?; apply shortest_length; [done..|congruence]).
  destruct (s ≫= fixed) as [size|]; [|by split_and!].
  destruct (Nat.ltb_spec (length (minimal (be_bytes n z))) size) as [Hlt|Hge].
  - destruct (signed_fill (size - length (minimal (be_bytes n z))) _ Hne Hm) as [Hsf Hbf].
    split_and!; [done|by rewrite Hsf| |]; rewrite length_app, length_replicate.
    + intros k _ _ _. lia.
    + intros ? [= <-]. lia.
  - split_and!; [done|done| |by intros ? [= <-]]. intros k H1 H2 H3. specialize (Hk k H1 H2 H3). lia.
Qed.
End Bytes.

Lemma a_decimals_bytes_are_its_number_witness :
  in_bytes 16 (-129) ∧ decimal_bytes (be_bytes 16 (-129)) None = [255; 127] ∧ signed [255; 127] = -129.
Proof.
  assert (H : in_bytes 16 (-129)) by (vm_compute; split; [discriminate|reflexivity]).
  destruct (a_decimals_bytes_are_its_number 16 (-129) None ltac:(lia) H) as (_ & Hs & _).
  split; [exact H|]. split; [vm_compute; reflexivity|exact Hs].
Defined.
