(* ===== verification/Conform.v ===== *)
(** * Conform: fitting a Kafka pipeline's rows (src/kafka/conform.rs)

    [fit] puts an array into a type by name at every depth, and says of each value that does not
    go why its row is rejected.  The [Conformer] fits a batch's columns to the target's, and
    [align] fits a decoded batch to the union the SQL runs over.

    An array is a type and its values ([Schema.Column]); what is under a null list, map or
    struct is not there to be looked at.  A child of a union has a value for every row, a null in
    those of other branches.  The casts of one value, arrow's [parse_decimal] and serde_json's
    text are arguments; the texts of reasons are left out, up to what they are about. *)

From Stdlib Require Import ZArith Lia SpecFloat.
From stdpp Require Import base list strings gmap.
From S2P Require Import Prelude Error F64 JsonText Schema Fractions Coerce Union Kdi.

Open Scope Z_scope.
Open Scope ddi_scope.

(** ** What fitting made of an array *)

Inductive Reason :=
  | NotConverted (path : string)     (** [not_converted] *)
  | Changed (path : string)          (** [changed]: into the union, and another value *)
  | Dropped (path : string)          (** [dropped]: into the union, and nowhere to put it *)
  | NullIntoNotNull (path : string)
  | MissingNotNull (path : string)
  | DropsFraction (path : string)
  | NoText (path why : string).

(** [Fitted] *)
Record Fitted := { array : Column; reasons : list (option Reason) }.

Definition or_else {A} (a b : option A) : option A := match a with Some a => Some a | None => b end.

(** [Reasons]: allocated on the first one. *)
Definition only_some (l : list (option Reason)) : list (option Reason) :=
  if forallb Coerce.is_none l then [] else l.
Definition clean (c : Column) : Fitted := {| array := c; reasons := [] |}.
Definition reason (f : Fitted) (i : nat) : option Reason := nth i (reasons f) None.

Inductive Dest := IntoTarget | IntoUnion.
#[export] Instance Dest_eq_dec : EqDecision Dest.
Proof. solve_decision. Defined.

Record KdiText := { compat : bool; null_text : bool }.
Definition no_kdi : KdiText := {| compat := false; null_text := false |}.
(** [KdiText::any] *)
Definition any_text (t : KdiText) : bool := compat t || null_text t.

(** [Kdi]: where each value stood, and whether kdi's coercion reached there. *)
Record KdiPlace := { at_ : list At; reach : bool }.

Record Fitter := { into : Dest; text_ : KdiText; type_names : option (gmap string string) }.

(** What a nullable field of a target struct that no field of the rows matches is noted with. *)
Abbreviation Missing := (list (string * option string)).

(** ** Values of a type *)

(** A null of a type; an array of a union has one in its first branch. *)
Definition null_of (t : DataType) : option Value :=
  match t with Union ((id, _) :: _) _ => Some (V_Union id None) | _ => None end.
Definition nulls_of (t : DataType) (n : nat) : Column := Build_Column t (replicate n (null_of t)).

(** What is in a list, and in a map. *)
Definition items_of (v : option Value) : list (option Value) :=
  match v with Some (V_List l) => l | _ => [] end.
Definition entries_of (v : option Value) : list (option Value * option Value) :=
  match v with Some (V_Map l) => default (None, None) <$> l | _ => [] end.
Definition field_of (t : DataType) (k : nat) (v : option Value) : option Value :=
  match v with
  | Some (V_Struct l) => match l !! k with Some x => x | None => null_of t end
  | _ => null_of t
  end.
Definition branch_of (t : DataType) (id : Z) (v : option Value) : option Value :=
  match v with
  | Some (V_Union i x) => if i =? id then x else null_of t
  | _ => null_of t
  end.
Definition id_of (v : option Value) : Z := match v with Some (V_Union i _) => i | _ => 0 end.

(** Consecutive parts of a list, as offsets cut it. *)
Fixpoint cut {A} (lengths : list nat) (l : list A) : list (list A) :=
  match lengths with
  | [] => []
  | n :: lengths => take n l :: cut lengths (drop n l)
  end.

(** [placeholders]: a valid value of a type, of no meaning. *)
Fixpoint placeholder (t : DataType) : result Error Value :=
  match t with
  | Struct fields =>
      let? l := (fix go (fields : Schema) : result Error (list (option Value)) :=
        match fields with
        | [] => Ok []
        | mkField _ t _ :: fields => let? v := placeholder t in let? l := go fields in Ok (Some v :: l)
        end) fields in
      Ok (V_Struct l)
  | List _ => Ok (V_List [])
  | Map entries _ =>
      match entries with
      | mkField _ (Struct _) _ => Ok (V_Map [])
      | _ => Err (Error.Schema "a map with entries of another type")
      end
  | Utf8 | LargeUtf8 | Utf8View => Ok (V_Text "")
  | Binary | LargeBinary | BinaryView => Ok (V_Bytes [])
  | Boolean => Ok (V_Bool false)
  | Float16 | Float32 | Float64 => Ok (V_Float (S754_zero false))
  | Decimal32 _ _ | Decimal64 _ _ | Decimal128 _ _ | Decimal256 _ _ => Ok (V_Decimal 0)
  | Interval _ => Ok (V_Interval 0 0 0)
  | FixedSizeBinary n => Ok (V_Bytes (replicate (Z.to_nat n) 0))
  | _ => Ok (V_Int 0)
  end.

(** [force_valid] *)
Definition force_valid (c : Column) : result Error Column :=
  match c_type c with
  | Null | Union _ _ => Ok c
  | t => let? p := placeholder t in Ok (Build_Column t ((λ v, if is_null v then Some p else v) <$> c_values c))
  end.

(** An array this module could not put together. *)
Definition assembly {A} : result Error A := Err (Error.Schema "internal: could not assemble an array").

(** ** Choosing a branch *)

(** [promotes] *)
Definition promotes (from to : DataType) : bool :=
  match from, to with
  | Int32, (Int64 | Float32 | Float64) | Int64, (Float32 | Float64) | Float32, Float64
  | Utf8, Binary | Binary, Utf8 => true
  | _, _ => false
  end.

Definition is_List (t : DataType) : bool := match t with List _ => true | _ => false end.
Definition is_Map (t : DataType) : bool := match t with Map _ _ => true | _ => false end.

(** The order of [(bool, usize, Reverse(usize))]. *)
Definition better (a b : bool * nat * nat) : bool :=
  let '(a1, a2, a3) := a in let '(b1, b2, b3) := b in
  if Bool.eqb a1 b1 then if (a2 =? b2)%nat then (a3 <? b3)%nat else (b2 <? a2)%nat else a1.

(** [best_record] *)
Definition record_rank (children : Schema) (b : Z * Field) : option ((bool * nat * nat) * (Z * Field)) :=
  match struct_fields (f_type b.2) with
  | Some theirs =>
      let held := length (filter (λ c, is_Some (position (f_name c) theirs)) children) in
      if (0 <? held)%nat || bool_decide (children = [])
      then Some ((bool_decide (held = length children), held, length theirs), b) else None
  | None => None
  end.
Definition best_record (children : Schema) (fields : list (Z * Field)) : option (Z * Field) :=
  match omap (record_rank children) fields with
  | [] => None
  | x :: l => Some (fold_left (λ best next, if better next.1 best.1 then next else best) l x).2
  end.

(** The branch of the values' name, of their type, of their kind, or one Avro promotes them to. *)
Definition resolved_branch (from : DataType) (fields : list (Z * Field)) (name : option string)
    : option (Z * Field) :=
  let named := name ≫= (λ n, List.find (λ b, bool_decide (f_name b.2 = n)) fields) in
  let same := List.find (λ b, bool_decide (f_type b.2 = from) || bool_decide (f_type b.2 = relax from)) fields in
  let kind :=
    match from with
    | Struct children => best_record children fields
    | List _ => List.find (λ b, is_List (f_type b.2)) fields
    | Map _ _ => List.find (λ b, is_Map (f_type b.2)) fields
    | _ => None
    end in
  let promoted := List.find (λ b, promotes from (f_type b.2)) fields in
  or_else named (or_else same (or_else kind promoted)).

Definition null_branch (fields : list (Z * Field)) : option Z :=
  fst <$> List.find (λ b, bool_decide (f_type b.2 = Null)) fields.

(** ** Decimals *)

(** Rust's [Display] of a finite double: its shortest digits, never an exponent. *)
Definition display (v : f64) : text :=
  match v with
  | S754_finite s m e =>
      let '(digits, exponent) := sci m e in
      let point := exponent + 1 in
      (if s : bool then chars "-" else []) ++
      (if point <=? 0 then chars "0." ++ zeros (Z.to_nat (- point)) ++ digits
       else if Z.of_nat (length digits) <=? point
       then digits ++ zeros (Z.to_nat point - length digits)
       else take (Z.to_nat point) digits ++ chars "." ++ drop (Z.to_nat point) digits)
  | S754_zero s => chars (if s then "-0" else "0")
  | S754_infinity s => chars (if s then "-inf" else "inf")
  | S754_nan => chars "NaN"
  end.

Definition decimal_target (t : DataType) : option (Z * Z) :=
  match t with Decimal128 p s | Decimal256 p s => Some (p, s) | _ => None end.
Definition is_float (t : DataType) : bool := match t with Float16 | Float32 | Float64 => true | _ => false end.
Definition is_text (t : DataType) : bool := match t with Utf8 | LargeUtf8 | Utf8View => true | _ => false end.

(** [counted_digits] *)
Fixpoint count_digits (scale digits : nat) (fraction : option nat) (t : text) : nat :=
  match t with
  | [] => digits
  | b :: t =>
      if (b =? 101)%N || (b =? 69)%N then digits
      else match fraction with
           | None =>
               if digit b && negb ((digits =? 0)%nat && (b =? 48)%N) then count_digits scale (S digits) None t
               else if (b =? 46)%N then count_digits scale digits (Some 0%nat) t
               else count_digits scale digits None t
           | Some f =>
               if digit b && (f <? scale)%nat then count_digits scale (S digits) (Some (S f)) t
               else count_digits scale digits fraction t
           end
  end.
Definition counted_digits (t : text) (scale : Z) : nat := count_digits (Z.to_nat scale) 0 None t.

(** [decimal_text]; [powi] as the power rounded once, which its digit of slack takes in. *)
Definition decimal_text (v : f64) (precision scale : Z) : option text :=
  match v with
  | S754_nan | S754_infinity _ => None
  | _ =>
      let integer_digits := Z.max (precision - scale) 0 in
      if negb (ltb (SFabs v) (of_Z (10 ^ (integer_digits + 1)))) then None else Some (display v)
  end.

(** ** Fitting *)

Section Fit.
(** Arrow's casts, with [safe]: which there are, and what one value becomes. *)
Context (can_cast_types : DataType → DataType → bool).
Context (cast_value_safe : DataType → DataType → Value → option Value).
(** Whether Arrow makes a [List] of a list of another kind. *)
Context (makes_list : DataType → DataType → bool).
(** arrow's [parse_decimal], into a decimal type. *)
Context (parse_decimal : DataType → text → option Z).
(** serde_json's texts. *)
Context (from_f64 : f64 → option text) (quoted : text → text).

Definition cast_safe (from to : DataType) (v : Value) : option Value :=
  if can_cast_types from to then cast_value_safe from to v else None.

Section Fitter.
Context (self : Fitter).

(** [unchanged], of one value. *)
Definition unchanged (from to : DataType) (v out : option Value) : bool :=
  match into self, v, out with
  | IntoUnion, Some v, Some out => bool_decide (cast_safe to from out = Some v)
  | _, _, _ => true
  end.

(** Why [cast] rejects one value. *)
Definition cast_reason (from to : DataType) (path : string) (v out : option Value) : option Reason :=
  if negb (Coerce.is_none v) && Coerce.is_none out then Some (NotConverted path)
  else if negb (unchanged from to v out) then Some (Changed path)
  else if bool_decide (into self = IntoTarget) && drops can_cast_types from to Decimals v
  then Some (DropsFraction path) else None.

(** [cast] *)
Definition fit_cast (c : Column) (to : DataType) (path : string) : Fitted :=
  let out := (λ v, v ≫= cast_safe (c_type c) to) <$> c_values c in
  {| array := Build_Column to out;
     reasons := only_some (zip_with (cast_reason (c_type c) to path) (c_values c) out) |}.

(** [refusals], [refused] *)
Definition refusals (c : Column) (path : string) : list (option Reason) :=
  only_some ((λ v, if is_null v then None else Some (NotConverted path)) <$> c_values c).
Definition refused (c : Column) (to : DataType) (path : string) : Fitted :=
  {| array := nulls_of to (length (c_values c)); reasons := refusals c path |}.

(** [float_to_decimal], [text_to_decimal] and [parse_decimals]: one value. *)
Definition decimal_of (to : DataType) (p s : Z) (v : option Value) : option Value :=
  let read t := if (counted_digits t s <=? 255)%nat then V_Decimal <$> parse_decimal to t else None in
  match v with
  | Some (V_Float f) => decimal_text f p s ≫= read
  | Some (V_Text x) => read (chars x)
  | _ => None
  end.
Definition fit_decimals (c : Column) (to : DataType) (p s : Z) (path : string) : Fitted :=
  let out := decimal_of to p s <$> c_values c in
  {| array := Build_Column to out;
     reasons := only_some (zip_with (λ v o,
       if negb (Coerce.is_none v) && Coerce.is_none o then Some (NotConverted path)
       else if negb (unchanged (c_type c) to v o) then Some (Changed path) else None) (c_values c) out) |}.

(** [with_null_word] *)
Definition with_null_word (f : Fitted) (null_word : nat → bool) : Fitted :=
  {| array := Build_Column (c_type (array f)) (imap (λ i v,
       match v with
       | Some v => Some v
       | None => if null_word i && Coerce.is_none (reason f i) then Some (V_Text "null") else None
       end) (c_values (array f)));
     reasons := reasons f |}.

(** [kdi_text] *)
Definition fit_kdi (c : Column) (path : string) (top : bool) (k : KdiPlace) : Fitted :=
  let from := c_type c in
  let null_word i := null_text (text_ self) && reach k && key (nth i (at_ k) ABSENT) in
  let textual := is_text from || match from with Dictionary _ v => is_text v | _ => false end in
  let converted := compat (text_ self) && existsb (λ a, converted from (shape a)) (at_ k) in
  if (textual && negb converted) || negb (compat (text_ self)) then
    if decide (from = Utf8) then with_null_word (clean c) null_word
    else if top && negb (existsb id (imap (λ i v, null_word i && is_null v) (c_values c)))
    then clean c
    else with_null_word (fit_cast c Utf8 path) null_word
  else
    let each := imap (λ i v,
      if is_null v then (if null_word i then Some (V_Text "null") else None, None)
      else match v with
           | Some v =>
               match text_of cast_safe from_f64 quoted from v (shape (nth i (at_ k) ABSENT)) with
               | Ok t => (Some (V_Text (string_of t)), None)
               | Err why => (None, Some (NoText path why))
               end
           | None => (None, None)
           end) (c_values c) in
    {| array := Build_Column Utf8 (fst <$> each); reasons := only_some (snd <$> each) |}.

(** *** Nested values, given how to fit their parts *)

Section Nested.
Context (rec : Column → DataType → string → bool → option KdiPlace → result Error (Fitted * Missing)).

(** A child of the target's, and what it makes of each row that is not null. *)
Definition fit_child (fs : Schema) (c : Column) (path : string) (kdi : option KdiPlace) (field : Field)
    : result Error (Fitted * Missing) :=
  let rows := c_values c in
  let child_path := path +:+ "." +:+ f_name field in
  let? r :=
    match (k ← position (f_name field) fs; f ← fs !! k; Some (k, f)) with
    | Some (k, f) =>
        let child := Build_Column (f_type f) (field_of (f_type f) k <$> rows) in
        let place := (λ p, {| at_ := zip_with (λ v a, if Coerce.is_none v then ABSENT else at_child a (f_name field))
                                       rows (at_ p);
                              reach := reach p |}) <$> kdi in
        rec child (f_type field) child_path false place
    | None =>
        let near := (λ f, path +:+ "." +:+ f_name f) <$>
                      List.find (λ f, bool_decide (lower (f_name f) = lower (f_name field))) fs in
        Ok ({| array := nulls_of (f_type field) (length rows);
               reasons := if f_nullable field then []
                          else (λ v : option Value, Some (MissingNotNull child_path)) <$> rows |},
            if f_nullable field && bool_decide (into self = IntoTarget) then [(child_path, near)] else [])
    end in
  let '(fitted, missing) := r in
  let child := array fitted in
  let not_null := negb (f_nullable field) && existsb is_null (c_values child) in
  let bad := imap (λ i (v : option Value),
    if Coerce.is_none v then None
    else or_else (reason fitted i)
           (if not_null && is_null (default None (c_values child !! i)) then Some (NullIntoNotNull child_path)
            else None)) rows in
  let? child := if not_null then force_valid child else Ok child in
  Ok ({| array := child; reasons := bad |}, missing).

Fixpoint fit_children (fs : Schema) (c : Column) (path : string) (kdi : option KdiPlace) (fields : Schema)
    : result Error (list Column * list (option Reason) * Missing) :=
  match fields with
  | [] => Ok ([], replicate (length (c_values c)) None, [])
  | field :: fields =>
      let? r := fit_child fs c path kdi field in
      let? rest := fit_children fs c path kdi fields in
      let '(cs, bad, missing) := rest in
      Ok (array r.1 :: cs, zip_with or_else (reasons r.1) bad, r.2 ++ missing)
  end.

(** Into the union: the fields of the rows that the type there lacks, where they have a value. *)
Definition dropped (fs to_fields : Schema) (path : string) (v : option Value) : option Reason :=
  match into self, v with
  | IntoUnion, Some _ =>
      head (omap id (imap (λ k f,
        if bool_decide (is_Some (position (f_name f) to_fields)) || is_null (field_of (f_type f) k v) then None
        else Some (Dropped (path +:+ "." +:+ f_name f))) fs))
  | _, _ => None
  end.

(** [StructArray::try_new]: columns of their types, no null of a valid row where a field is NOT NULL. *)
Definition struct_ok (rows : list (option Value)) (fields : Schema) (cs : list Column) : bool :=
  bool_decide (c_type <$> cs = f_type <$> fields) &&
  forallb id (zip_with (λ f c, f_nullable f ||
    forallb id (zip_with (λ v x, Coerce.is_none v || negb (is_null x)) rows (c_values c))) fields cs).

Definition struct_rows (rows : list (option Value)) (cs : list Column) : list (option Value) :=
  imap (λ i (v : option Value),
    (λ _, V_Struct ((λ c, default None (c_values c !! i)) <$> cs)) <$> v) rows.

(** [structs] *)
Definition fit_structs (fs : Schema) (c : Column) (to_fields : Schema) (path : string) (kdi : option KdiPlace)
    : result Error (Fitted * Missing) :=
  let rows := c_values c in
  let? r := fit_children fs c path kdi to_fields in
  let '(cs, bad, missing) := r in
  if struct_ok rows to_fields cs then
    Ok ({| array := Build_Column (Struct to_fields) (struct_rows rows cs);
           reasons := only_some (zip_with or_else bad (dropped fs to_fields path <$> rows)) |}, missing)
  else assembly.

(** [elements] *)
Definition fit_elements (rows : list (option Value)) (lengths : list nat) (fitted : Fitted) (field : Field)
    (path : string) : result Error (Column * list (option Reason)) :=
  let values := array fitted in
  let not_null := negb (f_nullable field) && existsb is_null (c_values values) in
  let each := imap (λ j v, or_else (reason fitted j)
                (if not_null && is_null v then Some (NullIntoNotNull path) else None)) (c_values values) in
  let bad := zip_with (λ (v : option Value) l, if Coerce.is_none v then None else head (omap id l))
               rows (cut lengths each) in
  let? values := if not_null then force_valid values else Ok values in
  Ok (values, bad).

(** What the constructors of lists and maps ask of the parts. *)
Definition part_ok (field : Field) (c : Column) : bool :=
  bool_decide (c_type c = f_type field) && (f_nullable field || negb (existsb is_null (c_values c))).

(** [per_element] *)
Definition per_element (lengths : list nat) (step : At → At) (k : KdiPlace) : list At :=
  mjoin (zip_with (λ n a, replicate n (step a)) lengths (at_ k)).

(** [list] *)
Definition fit_list (element : Field) (c : Column) (item : Field) (path : string) (kdi : option KdiPlace)
    : result Error (Fitted * Missing) :=
  let rows := c_values c in
  let lengths := length ∘ items_of <$> rows in
  let item_path := path +:+ "[]" in
  let place := (λ p, {| at_ := per_element lengths at_element p;
                        reach := reach p && reaches_elements (f_type item) |}) <$> kdi in
  let? r := rec (Build_Column (f_type element) (mjoin (items_of <$> rows))) (f_type item) item_path false place in
  let? e := fit_elements rows lengths r.1 item item_path in
  let '(values, bad) := e in
  if part_ok item values then
    Ok ({| array := Build_Column (List item)
             (zip_with (λ (v : option Value) l, (λ _, V_List l) <$> v) rows (cut lengths (c_values values)));
           reasons := only_some bad |}, r.2)
  else assembly.

(** [kdi_order]: the entries of one map, in the keys' order, the last of a key. *)
Definition kdi_order (entries : list (option Value * option Value)) : list (option Value * option Value) :=
  (λ e, (Some (V_Text e.1), e.2)) <$>
    btree ((λ e, (match e.1 with Some (V_Text k) => k | _ => ""%string end, e.2)) <$> entries).

(** [map] *)
Definition fit_map (from : option (Field * Field)) (c : Column) (entries : Field) (sorted : bool) (path : string)
    (kdi : option KdiPlace) : result Error (Fitted * Missing) :=
  let rows := c_values c in
  match from, key_value entries with
  | Some (from_key, from_value), Some (key_field, value_field) =>
      let all := mjoin (entries_of <$> rows) in
      let lengths := length ∘ entries_of <$> rows in
      let key_path := path +:+ "{key}" in
      let value_path := path +:+ "{}" in
      let key_place := (λ _ : KdiPlace, {| at_ := replicate (length all) ABSENT; reach := false |}) <$> kdi in
      let value_place := (λ p, {| at_ := per_element lengths at_value p; reach := false |}) <$> kdi in
      let? k := rec (Build_Column (f_type from_key) (fst <$> all)) (f_type key_field) key_path false key_place in
      let? v := rec (Build_Column (f_type from_value) (snd <$> all)) (f_type value_field) value_path false value_place in
      let? ks := fit_elements rows lengths k.1 key_field key_path in
      let? vs := fit_elements rows lengths v.1 value_field value_path in
      let bad := zip_with or_else ks.2 vs.2 in
      if part_ok key_field ks.1 && part_ok value_field vs.1 &&
         bool_decide (f_type entries = Struct [key_field; value_field])
      then
        let order := match kdi with
                     | Some _ => if compat (text_ self) && bool_decide (c_type ks.1 = Utf8) then kdi_order else id
                     | None => id
                     end in
        let fitted := cut lengths (zip (c_values ks.1) (c_values vs.1)) in
        Ok ({| array := Build_Column (Map entries sorted)
                 (zip_with (λ (v : option Value) l, (λ _, V_Map (Some <$> order l)) <$> v) rows fitted);
               reasons := only_some bad |}, k.2 ++ v.2)
      else assembly
  | _, _ => Err (Error.Schema "the target's map has entries that are not a struct")
  end.

(** [union_to] *)
Fixpoint fit_branches (fields : list (Z * Field)) (c : Column) (to : DataType) (path : string)
    (kdi : option KdiPlace) : result Error (list (Z * Fitted)) :=
  match fields with
  | [] => Ok []
  | (id, f) :: fields =>
      let child := Build_Column (f_type f) (branch_of (f_type f) id <$> c_values c) in
      let place := (λ p, {| at_ := zip_with (λ v a, if id_of v =? id then at_branch a (f_name f) else ABSENT)
                                     (c_values c) (at_ p);
                            reach := reach p |}) <$> kdi in
      let? r := rec child to (path +:+ " (union branch " +:+ f_name f +:+ ")") false place in
      let? rest := fit_branches fields c to path kdi in
      Ok ((id, r.1) :: rest)
  end.
Definition fitted_branch (branches : list (Z * Fitted)) (v : option Value) : option Fitted :=
  snd <$> List.find (λ b, b.1 =? id_of v) branches.
Definition fit_union_to (fields : list (Z * Field)) (c : Column) (to : DataType) (path : string)
    (kdi : option KdiPlace) : result Error (Fitted * Missing) :=
  if decide (c_values c = []) then Ok (clean (Build_Column to []), [])
  else
    let? branches := fit_branches fields c to path kdi in
    Ok ({| array := Build_Column to (imap (λ i v,
             match fitted_branch branches v with
             | Some f => default None (c_values (array f) !! i)
             | None => null_of to
             end) (c_values c));
           reasons := only_some (imap (λ i v, fitted_branch branches v ≫= (λ f, reason f i)) (c_values c)) |}, []).

(** [branch_for], where nothing resolves: the first branch every value converts to, else the
    first any of them does. *)
Fixpoint converting_branch (c : Column) (fields : list (Z * Field)) (path : string) (partly : option (Z * Fitted))
    : option (Z * Fitted) :=
  match fields with
  | [] => partly
  | (id, f) :: fields =>
      let to := f_type f in
      if bool_decide (to = Null) || is_nested to || negb (can_cast_types (c_type c) to)
      then converting_branch c fields path partly
      else
        let fitted := fit_cast c to path in
        match reasons fitted with
        | [] => Some (id, fitted)
        | _ => converting_branch c fields path (or_else partly (Some (id, fitted)))
        end
  end.
Definition branch_for (c : Column) (fields : list (Z * Field)) (path : string) (name : option string)
    : result Error (Z * (Fitted * Missing)) :=
  match resolved_branch (c_type c) fields name with
  | Some (id, f) => let? r := rec c (f_type f) path false None in Ok (id, r)
  | None =>
      match converting_branch c fields path None with
      | Some (id, fitted) => Ok (id, (fitted, []))
      | None =>
          match or_else (List.find (λ b, bool_decide (f_type b.2 = Null)) fields) (head fields) with
          | Some (id, f) =>
              Ok (id, ({| array := nulls_of (f_type f) (length (c_values c)); reasons := refusals c path |}, []))
          | None => Err (Error.Schema "a union without branches")
          end
      end
  end.

(** [wrap_in_union] *)
Definition fit_wrap (c : Column) (fields : list (Z * Field)) (path : string) : result Error (Fitted * Missing) :=
  let? b := branch_for c fields path (type_names self ≫= lookup path) in
  let '(id, (fitted, missing)) := b in
  Ok ({| array := Build_Column (Union fields true) (zip_with (λ v x,
           match null_branch fields with
           | Some nb => if is_null v && negb (nb =? id) then Some (V_Union nb None) else Some (V_Union id x)
           | None => Some (V_Union id x)
           end) (c_values c) (c_values (array fitted)));
         reasons := reasons fitted |}, missing).

(** [union_to_union] *)
Fixpoint map_branches (from_fields : list (Z * Field)) (c : Column) (fields : list (Z * Field)) (path : string)
    : result Error (list (Z * (Z * Fitted)) * Missing) :=
  match from_fields with
  | [] => Ok ([], [])
  | (id, f) :: from_fields =>
      let child := Build_Column (f_type f) (branch_of (f_type f) id <$> c_values c) in
      let? b := branch_for child fields (path +:+ " (union branch " +:+ f_name f +:+ ")") (Some (f_name f)) in
      let? rest := map_branches from_fields c fields path in
      Ok ((id, (b.1, b.2.1)) :: rest.1, b.2.2 ++ rest.2)
  end.
Definition mapped_branch (mapped : list (Z * (Z * Fitted))) (v : option Value) : option (Z * Fitted) :=
  snd <$> List.find (λ b, b.1 =? id_of v) mapped.
Definition fit_unions (from_fields : list (Z * Field)) (c : Column) (fields : list (Z * Field)) (path : string)
    : result Error (Fitted * Missing) :=
  let? r := map_branches from_fields c fields path in
  let '(mapped, missing) := r in
  Ok ({| array := Build_Column (Union fields true) (imap (λ i v,
           match mapped_branch mapped v with
           | Some (id, f) => Some (V_Union id (default None (c_values (array f) !! i)))
           | None => null_of (Union fields true)
           end) (c_values c));
         reasons := only_some (imap (λ i v, mapped_branch mapped v ≫= (λ b, reason b.2 i)) (c_values c)) |}, missing).
End Nested.

(** Whether anything of kdi's is to be done though the types are equal. *)
Definition kdi_work (to : DataType) (kdi : option KdiPlace) : bool :=
  match kdi with
  | Some k => (null_text (text_ self) && takes_null_text to (reach k)) || (compat (text_ self) && has_map to)
  | None => false
  end.

Definition list_kind (t : DataType) : option Field :=
  match t with LargeList e | FixedSizeList e _ | ListView e | LargeListView e => Some e | _ => None end.
Definition list_of (t : DataType) : option Field := match t with List e => Some e | _ => None end.
Definition dense_union (t : DataType) : option (list (Z * Field) * bool) :=
  match t with Union fields dense => Some (fields, dense) | _ => None end.

(** Which arm of [fit] takes two types, in its order. *)
Inductive Arm :=
  | A_Unions (from fields : list (Z * Field)) (dense : bool)
  | A_UnionTo (from : list (Z * Field))
  | A_Wrap (fields : list (Z * Field)) (dense : bool)
  | A_Kdi (k : KdiPlace)
  | A_Null
  | A_Structs (from fields : Schema)
  | A_Lists (element item : Field)
  | A_AsList (element item : Field)
  | A_Maps (from : Field) (entries : Field) (sorted : bool)
  | A_Decimals (p s : Z)
  | A_Refused
  | A_Plain.
Definition arm (from to : DataType) (kdi : option KdiPlace) : Arm :=
  match dense_union from, dense_union to with
  | Some (f, _), Some (t, dense) => A_Unions f t dense
  | Some (f, _), None => A_UnionTo f
  | None, Some (t, dense) => A_Wrap t dense
  | None, None =>
  match (if decide (to = Utf8) then kdi else None) with Some k => A_Kdi k | None =>
  if decide (from = Null) then A_Null else
  match struct_fields from, struct_fields to with Some f, Some t => A_Structs f t | _, _ =>
  match list_of from, list_of to with Some f, Some t => A_Lists f t | _, _ =>
  match list_kind from, list_of to with Some f, Some t => A_AsList f t | _, _ =>
  match from, to with Map f _, Map t sorted => A_Maps f t sorted | _, _ =>
  match (if is_float from || is_text from then decimal_target to else None) with
  | Some (p, s) => A_Decimals p s
  | None => if is_nested to then A_Refused else A_Plain
  end end end end end end end.

(** [fit] *)
Fixpoint fit_at (fuel : nat) (c : Column) (to : DataType) (path : string) (top : bool) (kdi : option KdiPlace)
    : result Error (Fitted * Missing) :=
  match fuel with
  | O => assembly
  | S fuel =>
      if bool_decide (c_type c = to) && negb (kdi_work to kdi) then Ok (clean c, [])
      else
        let rec := fit_at fuel in
        match arm (c_type c) to kdi with
        | A_Unions from fields dense =>
            if dense : bool then fit_unions rec from c fields path
            else Err (Error.Schema "cannot fit a value into a union that is not dense")
        | A_UnionTo from => fit_union_to rec from c to path kdi
        | A_Wrap fields dense =>
            if dense : bool then fit_wrap rec c fields path
            else Err (Error.Schema "cannot fit a value into a union that is not dense")
        | A_Kdi k => Ok (fit_kdi c path top k, [])
        | A_Null => Ok (clean (nulls_of to (length (c_values c))), [])
        | A_Structs from fields => fit_structs rec from c fields path kdi
        | A_Lists element item => fit_list rec element c item path kdi
        | A_AsList element item =>
            if makes_list (c_type c) (List element) then fit_list rec element c item path kdi
            else Ok (refused c to path, [])
        | A_Maps from entries sorted => fit_map rec (key_value from) c entries sorted path kdi
        | A_Decimals p s => Ok (fit_decimals c to p s path, [])
        | A_Refused => Ok (refused c to path, [])
        | A_Plain => if top then Ok (clean c, []) else Ok (fit_cast c to path, [])
        end
  end.
Definition fit (c : Column) (to : DataType) : string → bool → option KdiPlace → result Error (Fitted * Missing) :=
  fit_at (size (c_type c) + size to) c to.
End Fitter.

(** ** A batch *)

(** The rows set aside, as they arrived. *)
Record Rejected := { rj_rows : Batch; rj_reasons : list Reason; rj_columns : list (option string) }.

(** Per row, the first column that rejected it and why. *)
Abbreviation Bad := (list (option (string * Reason))).
Definition note_bad (name : string) (f : Fitted) (bad : Bad) : Bad :=
  imap (λ i b, or_else b ((λ r, (name, r)) <$> reason f i)) bad.

(** [split] *)
Definition split (batch out : Batch) (bad : Bad) : Batch * option Rejected :=
  if forallb Coerce.is_none bad then (out, None)
  else
    let keep := Coerce.is_none <$> bad in
    (filter_batch keep out,
     Some {| rj_rows := filter_batch (negb <$> keep) batch;
             rj_reasons := snd <$> omap id bad;
             rj_columns := (λ b, Some b.1) <$> omap id bad |}).

(** [RecordBatch::try_new], of columns for these fields. *)
Definition new_batch (fields : Schema) (columns : list Column) : result Error Batch :=
  match try_new fields columns with Some b => Ok b | None => assembly end.

Definition schema_id_column (batch : Batch) (prefix : string) : option Column :=
  match column_of batch (prefix +:+ "value_schema_id") with
  | Some c => if decide (c_type c = Int32) then Some c else None
  | None => None
  end.
Definition int_of (v : option Value) : option Z := match v with Some (V_Int z) => Some z | _ => None end.

(** ** Into the target *)

Record Conformer := {
  target : Schema;
  prefix : string;
  text : KdiText;
  warned : gset (option Z);
  unmatched : list string;
  shapes : list (Z * Shape);          (** by id, the newest first *)
  merged : option Shape;
  approximate : bool;
  copies : gmap string string;
}.

(** [Conformer::new] *)
Definition new (target : Schema) (prefix : string) (text : KdiText) : Conformer :=
  {| target := target; prefix := prefix; text := text; warned := ∅; unmatched := []; shapes := [];
     merged := None; approximate := false; copies := ∅ |}.

Section Observe.
Context {RegisteredSchema : Type} (id : RegisteredSchema → Z).
(** [Shape::of] *)
Context (shape_of : RegisteredSchema → result string Shape).

Fixpoint insert_shape (i : Z) (s : Shape) (l : list (Z * Shape)) : list (Z * Shape) :=
  match l with
  | [] => [(i, s)]
  | (j, x) :: l' => if j <? i then (i, s) :: l else (j, x) :: insert_shape i s l'
  end.
Definition observe_one (shapes : list (Z * Shape)) (m : RegisteredSchema) : list (Z * Shape) :=
  if existsb (λ x, x.1 =? id m) shapes then shapes
  else match shape_of m with Ok s => insert_shape (id m) s shapes | Err _ => shapes end.
Definition merged_shape (shapes : list (Z * Shape)) : option Shape :=
  match snd <$> shapes with
  | [] => None
  | s :: l => Some (fold_left merge_shape l s)
  end.
(** [observe] *)
Definition observe (c : Conformer) (ms : list RegisteredSchema) : Conformer :=
  if any_text (text c) then
    let all := fold_left observe_one ms (shapes c) in
    {| target := target c; prefix := prefix c; text := text c; warned := warned c; unmatched := unmatched c;
       shapes := all; merged := merged_shape all; approximate := approximate c; copies := copies c |}
  else c.
End Observe.

(** [observe_copies] *)
Definition observe_copies (c : Conformer) (sources : gmap string string) : Conformer :=
  {| target := target c; prefix := prefix c; text := text c; warned := warned c; unmatched := unmatched c;
     shapes := shapes c; merged := merged c; approximate := approximate c;
     copies := filter (λ x, x.1 ≠ x.2) sources |}.

(** [writer_ids] *)
Definition writer_ids (c : Conformer) (batch : Batch) : list (option Z) * bool :=
  let ids := match schema_id_column batch (prefix c) with
             | Some col => int_of <$> c_values col
             | None => replicate (num_rows batch) None
             end in
  (ids, approximate c || existsb Coerce.is_none ids).

(** [writers] *)
Definition writers (c : Conformer) (ids : list (option Z)) : result Error (list Shape) :=
  mapR (λ id, match (match id with
                     | Some id => snd <$> List.find (λ x, x.1 =? u32 id) (shapes c)
                     | None => merged c
                     end) with
              | Some s => Ok s
              | None => Err (Error.Other "internal: a writer schema the conformer was not told of")
              end) ids.

Definition target_fitter (c : Conformer) : Fitter :=
  {| into := IntoTarget; text_ := text c; type_names := None |}.

(** What [conform]'s loop holds: the fields and columns so far, the rejections, and the target
    columns nothing matched. *)
Record Conforming := { co_fields : Schema; co_columns : list Column; co_bad : Bad; co_unmatched : list string }.

(** One target column. *)
Definition conform_field (c : Conformer) (ws : option (list Shape)) (schema : Schema) (s : Conforming)
    (field : Field) : result Error Conforming :=
  match position (f_name field) schema with
  | None =>
      Ok {| co_fields := co_fields s; co_columns := co_columns s; co_bad := co_bad s;
            co_unmatched := co_unmatched s ++ (if f_nullable field then [f_name field] else []) |}
  | Some index =>
      let plain := bool_decide (f_name field = prefix c +:+ "key" ∨ f_name field = prefix c +:+ "headers") in
      let kdi := match ws with
        | Some ws => if plain then None else
            Some {| at_ := (λ w, match copies c !! f_name field with
                                 | Some source => at_copy w source
                                 | None => at_column w (f_name field)
                                 end) <$> ws;
                    reach := true |}
        | None => None
        end in
      match co_columns s !! index with
      | None => assembly
      | Some column =>
          let? r := fit (target_fitter c) column (f_type field) (f_name field) true kdi in
          Ok {| co_fields := <[index := mkField (f_name field) (c_type (array r.1)) true]> (co_fields s);
                co_columns := <[index := array r.1]> (co_columns s);
                co_bad := note_bad (f_name field) r.1 (co_bad s);
                co_unmatched := co_unmatched s ++ (fst <$> r.2) |}
      end
  end.

Fixpoint conform_fields (c : Conformer) (ws : option (list Shape)) (schema : Schema) (s : Conforming)
    (fields : Schema) : result Error Conforming :=
  match fields with
  | [] => Ok s
  | f :: fields => let? s := conform_field c ws schema s f in conform_fields c ws schema s fields
  end.

Definition schema_ids (batch : Batch) (prefix : string) : gset (option Z) :=
  match schema_id_column batch prefix with
  | Some col => list_to_set (int_of <$> c_values col)
  | None => {[ None ]}
  end.

(** [note_unmatched], without the warning's words. *)
Definition note_unmatched (c : Conformer) (batch : Batch) (names : list string) (approximate : bool) : Conformer :=
  {| target := target c; prefix := prefix c; text := text c;
     warned := if decide (names = []) then warned c else warned c ∪ schema_ids batch (prefix c);
     unmatched := names; shapes := shapes c; merged := merged c; approximate := approximate;
     copies := copies c |}.

(** [conform]; what the conformer has noted by then stays also where it fails. *)
Definition conform (c : Conformer) (batch : Batch) : Conformer * result Error (Batch * option Rejected) :=
  let n := num_rows batch in
  let '(ids, approx) := writer_ids c batch in
  let writes := any_text (text c) && (0 <? n)%nat in
  let approx := if writes then approx else approximate c in
  let noted := {| target := target c; prefix := prefix c; text := text c; warned := warned c;
                  unmatched := unmatched c; shapes := shapes c; merged := merged c; approximate := approx;
                  copies := copies c |} in
  match (if writes then let? ws := writers c ids in Ok (Some ws) else Ok None) with
  | Err e => (noted, Err e)
  | Ok ws =>
      match conform_fields c ws (b_schema batch)
              {| co_fields := b_schema batch; co_columns := b_columns batch; co_bad := replicate n None;
                 co_unmatched := [] |} (target c) with
      | Err e => (noted, Err e)
      | Ok s =>
          (note_unmatched c batch (co_unmatched s) approx,
           let? out := new_batch (co_fields s) (co_columns s) in Ok (split batch out (co_bad s)))
      end
  end.

(** [conform_all] *)
Fixpoint conform_all (c : Conformer) (batches : list Batch) (rejects : list Rejected) (quarantine : bool)
    : Conformer * result Error (list Batch * list Rejected) :=
  match batches with
  | [] => (c, Ok ([], rejects))
  | b :: batches =>
      match conform c b with
      | (c, Err e) => (c, Err e)
      | (c, Ok (good, bad)) =>
          match bad, quarantine with
          | Some _, false => (c, Err (Error.Schema "a value does not convert"))
          | _, _ =>
              match conform_all c batches (rejects ++ option_list bad) quarantine with
              | (c, Err e) => (c, Err e)
              | (c, Ok (out, rejects)) => (c, Ok (if (0 <? num_rows good)%nat then good :: out else out, rejects))
              end
          end
      end
  end.

(** ** Into the union *)

Definition union_fitter (u : UnionSchema) (writer : option Z) : Fitter :=
  {| into := IntoUnion; text_ := no_kdi; type_names := writer ≫= (λ w, names u !! u32 w) |}.

Definition align_field (u : UnionSchema) (writer : option Z) (batch : Batch) (field : Field) (bad : Bad)
    : result Error (Column * Bad) :=
  match column_of batch (f_name field) with
  | None => Ok (nulls_of (f_type field) (num_rows batch), bad)
  | Some column =>
      let? r := fit (union_fitter u writer) column (f_type field) (f_name field) false None in
      Ok (array r.1, note_bad (f_name field) r.1 bad)
  end.
Fixpoint align_fields (u : UnionSchema) (writer : option Z) (batch : Batch) (fields : Schema) (bad : Bad)
    : result Error (list Column * Bad) :=
  match fields with
  | [] => Ok ([], bad)
  | f :: fields =>
      let? r := align_field u writer batch f bad in
      let? rest := align_fields u writer batch fields r.2 in
      Ok (r.1 :: rest.1, rest.2)
  end.

(** The first of a [BTreeSet<Option<i32>>], flattened: nothing where a row does not say. *)
Definition first_writer (ids : gset (option Z)) : option Z :=
  if decide (None ∈ ids) then None
  else match omap id (elements ids) with [] => None | x :: l => Some (fold_left Z.min l x) end.

(** [align] *)
Definition align (u : UnionSchema) (batch : Batch) : result Error (Batch * option Rejected) :=
  let ids := schema_ids batch (Union.prefix u) in
  if existsb (λ f, Coerce.is_none (position (f_name f) (Union.schema u))) (b_schema batch)
  then Err (Error.Other "internal: aligned before its writer schema joined the union")
  else if existsb (λ x, bool_decide (u32 x ∉ members u)) (omap id (elements ids))
  then Err (Error.Other "internal: not a member of the union the SQL runs over")
  else
    let? r := align_fields u (first_writer ids) batch (Union.schema u) (replicate (num_rows batch) None) in
    let? out := new_batch (Union.schema u) r.1 in
    Ok (split batch out r.2).

(** [align_all] *)
Fixpoint align_all (u : UnionSchema) (batches : list Batch) (rejects : list Rejected)
    : result Error (list Batch * list Rejected) :=
  match batches with
  | [] => Ok ([], rejects)
  | b :: batches =>
      let? r := align u b in
      let? rest := align_all u batches (rejects ++ option_list r.2) in
      Ok (if (0 <? num_rows r.1)%nat then r.1 :: rest.1 else rest.1, rest.2)
  end.
End Fit.
