(* ===== verification/ConformCorrect.v ===== *)
(** * ConformCorrect: what fitting makes of each row (src/kafka/conform.rs)

    [lands] says of one value what it becomes in a type: its parts by their names, at every
    depth.  [fit], which walks whole arrays, rejects exactly the rows whose value lands nowhere,
    and gives the others the value they land as. *)

From Stdlib Require Import ZArith Lia.
From stdpp Require Import base list strings gmap.
From S2P Require Import Prelude Error F64 JsonText Schema Fractions Coerce Union Kdi Conform.

Open Scope Z_scope.
Open Scope ddi_scope.

(** ** Lists *)

Lemma cut_mjoin {A} (ls : list (list A)) : cut (length <$> ls) (mjoin ls) = ls.
Proof. induction ls as [|l ls IH]; [done|]. csimpl. by rewrite take_app_length, drop_app_length, IH. Qed.

Lemma cut_Forall2 {A B} (P : A → B → Prop) (ls : list (list A)) (zs : list B) :
  Forall2 P (mjoin ls) zs → Forall2 (Forall2 P) ls (cut (length <$> ls) zs).
Proof.
  revert zs. induction ls as [|l ls IH]; intros zs H; [constructor|]. csimpl in *.
  apply Forall2_app_inv_l in H as (z1 & z2 & H1 & H2 & ->). apply Forall2_length in H1 as Hl.
  rewrite Hl, take_app_length, drop_app_length. constructor; [done|by apply IH].
Qed.
Lemma length_cut {A} ns (l : list A) : length (cut ns l) = length ns.
Proof. revert l. induction ns as [|n ns IH]; intros l; [done|]. simpl. by rewrite IH. Qed.
Lemma cut_fmap {A B} (f : A → B) ns (l : list A) : cut ns (f <$> l) = (λ x : list A, f <$> x) <$> cut ns l.
Proof. revert l. induction ns as [|n ns IH]; intros l; [done|]. csimpl. by rewrite <-IH, fmap_take, fmap_drop. Qed.

Lemma only_some_nth l i : nth i (only_some l) None = nth i l None.
Proof.
  unfold only_some. destruct (forallb Coerce.is_none l) eqn:E; [|done]. rewrite forallb_forall in E.
  destruct (nth_in_or_default i l None) as [H|H]; [|rewrite H; by destruct i].
  apply E in H. destruct (nth i l None); [done|by destruct i].
Qed.

(** What a fitted array holds, and says, of each row. *)
Definition outcomes (f : Fitted) : list (option Value * option Reason) :=
  imap (λ i v, (v, reason f i)) (c_values (array f)).

Lemma outcomes_zip c rs : length rs = length (c_values c) →
  outcomes {| array := c; reasons := only_some rs |} = zip (c_values c) rs.
Proof.
  intros H. apply list_eq. intros i. unfold outcomes. rewrite list_lookup_imap. unfold reason. simpl. rewrite only_some_nth.
  change (zip (c_values c) rs) with (zip_with pair (c_values c) rs). rewrite lookup_zip_with. destruct (c_values c !! i) as [v|] eqn:E; [|done]. simpl.
  destruct (lookup_lt_is_Some_2 rs i) as [r Hr]; [rewrite H; by eapply lookup_lt_Some|].
  by rewrite (nth_lookup_Some _ _ None _ Hr), Hr.
Qed.
Lemma outcomes_clean c : outcomes (clean c) = (λ v, (v, None)) <$> c_values c.
Proof.
  apply list_eq. intros i. unfold outcomes. rewrite list_lookup_imap, list_lookup_fmap. simpl.
  destruct (c_values c !! i); [|done]. simpl. unfold reason. simpl. by destruct i.
Qed.

(** ** Where one value lands *)

Section Lands.
Context (can_cast_types : DataType → DataType → bool).
Context (cast_value_safe : DataType → DataType → Value → option Value).
Context (makes_list : DataType → DataType → bool).
Context (parse_decimal : DataType → JsonText.text → option Z).
Context (d : Dest).
Abbreviation cast_safe := (cast_safe can_cast_types cast_value_safe).

(** A value that may stand in a field. *)
Definition held (field : Field) (v : option Value) : Prop := f_nullable field = true ∨ is_null v = false.

(** Into the union no value is another than it was. *)
Definition same_back (from to : DataType) (v out : Value) : Prop :=
  d = IntoUnion → cast_safe to from out = Some v.

(** A cast of one value. *)
Inductive casts (from to : DataType) : option Value → option Value → Prop :=
  | casts_null : casts from to None None
  | casts_value v out :
      cast_safe from to v = Some out → same_back from to v out →
      (d = IntoTarget → drops can_cast_types from to Decimals (Some v) = false) →
      casts from to (Some v) (Some out).

(** A float or a text read into a decimal. *)
Inductive reads_decimal (from to : DataType) (p s : Z) : option Value → option Value → Prop :=
  | reads_null : reads_decimal from to p s None None
  | reads_value v out :
      decimal_of parse_decimal to p s (Some v) = Some out → same_back from to v out →
      reads_decimal from to p s (Some v) (Some out).

Definition goes (from to : DataType) (a : Arm) : Prop := from ≠ to ∧ arm from to None = a.

(** The elements of a list: of a list, or of another kind that Arrow makes a list of. *)
Definition lists (from to : DataType) (e i : Field) : Prop :=
  goes from to (A_Lists e i) ∨ goes from to (A_AsList e i) ∧ makes_list from (List e) = true.

(** [lands from to v v']: [v], a value of [from], is [v'] in [to]. *)
Inductive lands : DataType → DataType → option Value → option Value → Prop :=
  | L_same t v : lands t t v v
  | L_null_type from to v : goes from to A_Null → lands from to v (null_of to)
  | L_refused from to v : goes from to A_Refused → is_null v = true → lands from to v (null_of to)
  | L_no_list from to e i v :
      goes from to (A_AsList e i) → makes_list from (List e) = false → is_null v = true →
      lands from to v (null_of to)
  | L_plain from to v v' : goes from to A_Plain → casts from to v v' → lands from to v v'
  | L_decimal from to p s v v' :
      goes from to (A_Decimals p s) → reads_decimal from to p s v v' → lands from to v v'
  | L_struct_null from to fs gs : goes from to (A_Structs fs gs) → lands from to None None
  | L_struct from to fs gs x l' :
      goes from to (A_Structs fs gs) →
      Forall2 (λ g y,
        (∀ j f, position (f_name g) fs = Some j → fs !! j = Some f →
           lands (f_type f) (f_type g) (field_of (f_type f) j (Some x)) y) ∧
        (position (f_name g) fs = None → f_nullable g = true ∧ y = null_of (f_type g)) ∧
        held g y) gs l' →
      (d = IntoUnion → ∀ k f, fs !! k = Some f → position (f_name f) gs = None →
         is_null (field_of (f_type f) k (Some x)) = true) →
      lands from to (Some x) (Some (V_Struct l'))
  | L_list_null from to e i : lists from to e i → lands from to None None
  | L_list from to e i x l' :
      lists from to e i → Forall2 (lands (f_type e) (f_type i)) (items_of (Some x)) l' → Forall (held i) l' →
      lands from to (Some x) (Some (V_List l'))
  | L_map_null from to fe e s fk fv : goes from to (A_Maps fe e s) → key_value fe = Some (fk, fv) → lands from to None None
  | L_map from to fe e s fk fv k v x l' :
      goes from to (A_Maps fe e s) → key_value fe = Some (fk, fv) → key_value e = Some (k, v) →
      Forall2 (λ a b, lands (f_type fk) (f_type k) a.1 b.1 ∧ lands (f_type fv) (f_type v) a.2 b.2)
        (entries_of (Some x)) l' →
      Forall (λ b, held k b.1 ∧ held v b.2) l' →
      lands from to (Some x) (Some (V_Map (Some <$> l')))
  | L_union from to bs f v v' :
      goes from to (A_UnionTo bs) → List.find (λ b, b.1 =? id_of v) bs = Some f →
      lands (f_type f.2) to (branch_of (f_type f.2) f.1 v) v' → lands from to v v'
  | L_union_none from to bs v :
      goes from to (A_UnionTo bs) → List.find (λ b, b.1 =? id_of v) bs = None → lands from to v (null_of to)
  | L_wrap from to bs f v x :
      goes from to (A_Wrap bs true) → f ∈ bs → lands_in from f v x → lands from to v (Some (V_Union f.1 x))
  | L_wrap_null from to bs nb v :
      goes from to (A_Wrap bs true) → null_branch bs = Some nb → is_null v = true →
      lands from to v (Some (V_Union nb None))
  | L_unions from to fs bs f g v x :
      goes from to (A_Unions fs bs true) → List.find (λ b, b.1 =? id_of v) fs = Some f → g ∈ bs →
      lands_in (f_type f.2) g (branch_of (f_type f.2) f.1 v) x → lands from to v (Some (V_Union g.1 x))
  | L_unions_none from to fs bs v :
      goes from to (A_Unions fs bs true) → List.find (λ b, b.1 =? id_of v) fs = None →
      lands from to v (null_of (Union bs true))
(** In a branch of a union: fitted, cast, or a null where no branch takes such values. *)
with lands_in : DataType → (Z * Field) → option Value → option Value → Prop :=
  | L_in from f v x : lands from (f_type f.2) v x → lands_in from f v x
  | L_in_cast from f v x : casts from (f_type f.2) v x → lands_in from f v x
  | L_in_null from f v : is_null v = true → lands_in from f v (null_of (f_type f.2)).

(** A type that holds no union, which every target's is. *)
Fixpoint union_free (t : DataType) : bool :=
  match t with
  | Union _ _ => false
  | List f | ListView f | LargeList f | LargeListView f | FixedSizeList f _ | Map f _ =>
      match f with mkField _ t _ => union_free t end
  | Struct fs => forallb (λ f, match f with mkField _ t _ => union_free t end) fs
  | _ => true
  end.

(** A row's outcome is the value it lands as, or a reason why it lands nowhere. *)
Definition answer (from to : DataType) (v : option Value) (o : option Value * option Reason) : Prop :=
  (o.2 = None → lands from to v o.1) ∧
  (union_free to = true → ∀ x, lands from to v x → o.2 = None ∧ x = o.1).
Definition answered (c : Column) (to : DataType) (f : Fitted) : Prop :=
  c_type (array f) = to ∧ Forall2 (answer (c_type c) to) (c_values c) (outcomes f).

Lemma goes_neq from a : ¬ goes from from a.
Proof. by intros [? _]. Qed.
Lemma lists_neq from e i : ¬ lists from from e i.
Proof. by intros [[? _]|[[? _] _]]. Qed.

Lemma lands_same t v x : lands t t v x → x = v.
Proof. inversion 1; subst; try done; exfalso;
  solve [eapply goes_neq; eassumption | eapply lists_neq; eassumption]. Qed.

Lemma answered_clean c : answered c (c_type c) (clean c).
Proof.
  split; [done|]. rewrite outcomes_clean. apply Forall2_fmap_r, Forall_Forall2_diag, Forall_true. intros v.
  split; simpl; [intros _; constructor|]. intros _ x ->%lands_same. done.
Qed.
End Lands.

(** Of two ways to go only one is possible. *)
Ltac one_way :=
  repeat match goal with
  | H : lists _ _ _ _ _ |- _ => destruct H as [H|[H ?]]
  | H : goes _ _ _ |- _ => destruct H as [? H]
  | H : arm ?from ?to ?k = ?a, H' : arm ?from ?to ?k = ?b |- _ => rewrite H in H'; first [discriminate H' | injection H' as H']
  end; simplify_eq; try congruence; try done.

Section Correct.
Context (can_cast_types : DataType → DataType → bool).
Context (cast_value_safe : DataType → DataType → Value → option Value).
Context (makes_list : DataType → DataType → bool).
Context (parse_decimal : DataType → JsonText.text → option Z).
Context (from_f64 : f64 → option JsonText.text) (quoted : JsonText.text → JsonText.text).
Context (self : Fitter).
Abbreviation cast_safe := (cast_safe can_cast_types cast_value_safe).
Abbreviation lands := (lands can_cast_types cast_value_safe makes_list parse_decimal (into self)).
Abbreviation lands_in := (lands_in can_cast_types cast_value_safe makes_list parse_decimal (into self)).
Abbreviation casts := (casts can_cast_types cast_value_safe (into self)).
Abbreviation reads_decimal := (reads_decimal can_cast_types cast_value_safe parse_decimal (into self)).
Abbreviation answer := (answer can_cast_types cast_value_safe makes_list parse_decimal (into self)).
Abbreviation answered := (answered can_cast_types cast_value_safe makes_list parse_decimal (into self)).
Abbreviation fit_cast := (fit_cast can_cast_types cast_value_safe self).
Abbreviation fit_decimals := (fit_decimals can_cast_types cast_value_safe parse_decimal self).
Abbreviation unchanged := (unchanged can_cast_types cast_value_safe self).

(** ** Values of no parts *)

Lemma unchanged_back from to v out : unchanged from to (Some v) (Some out) = true ↔
  same_back can_cast_types cast_value_safe (into self) from to v out.
Proof.
  unfold Conform.unchanged, same_back. destruct (into self); [by split|]. rewrite bool_decide_eq_true. naive_solver.
Qed.

(** A row-by-row outcome of a relation: the value it relates to, or a reason that there is none. *)
Definition decides (R : option Value → option Value → Prop) (v : option Value) (o : option Value * option Reason) : Prop :=
  (o.2 = None → R v o.1) ∧ (∀ x, R v x → o.2 = None ∧ x = o.1).

Lemma cast_decides c to path : Forall2 (decides (casts (c_type c) to)) (c_values c) (outcomes (fit_cast c to path)).
Proof.
  unfold Conform.fit_cast. rewrite outcomes_zip by (simpl; rewrite length_zip_with, !length_fmap; lia). simpl.
  induction (c_values c) as [|v l IH]; [constructor|]. csimpl. constructor; [|exact IH]. clear IH l.
  unfold decides, cast_reason. destruct v as [v|]; simpl.
  - destruct (cast_safe (c_type c) to v) as [out|] eqn:E; simpl.
    + pose proof (unchanged_back (c_type c) to v out) as Hu.
      destruct (unchanged (c_type c) to (Some v) (Some out)); simpl.
      * destruct Hu as [Hu _]. specialize (Hu eq_refl). destruct (bool_decide_reflect (into self = IntoTarget)) as [Hd|Hd]; simpl.
        -- destruct (drops can_cast_types (c_type c) to Decimals (Some v)) eqn:Ed.
           ++ split; [done|]. intros x Hx. inversion Hx as [|? ? ? ? Hn]; subst. rewrite Hn in Ed by done. done.
           ++ split; [intros _; by constructor|]. intros x Hx. inversion Hx; subst. split; [done|congruence].
        -- split; [intros _; constructor; [done..|by intros ?]|]. intros x Hx. inversion Hx; subst. split; [done|congruence].
      * split; [done|]. intros x Hx. inversion Hx as [|? ? Hc Hs _]; subst. rewrite E in Hc. injection Hc as ->.
        apply Hu in Hs. done.
    + split; [done|]. intros x Hx. inversion Hx as [|? ? Hc Hs _]; subst. congruence.
  - assert (unchanged (c_type c) to None None = true) as -> by (unfold Conform.unchanged; by destruct (into self)).
    simpl. rewrite drops_null, andb_false_r. split; [intros _; constructor|]. intros x Hx. by inversion Hx.
Qed.

Lemma decimals_decide c to p s path :
  Forall2 (decides (reads_decimal (c_type c) to p s)) (c_values c) (outcomes (fit_decimals c to p s path)).
Proof.
  unfold Conform.fit_decimals. rewrite outcomes_zip by (simpl; rewrite length_zip_with, !length_fmap; lia). simpl.
  induction (c_values c) as [|v l IH]; [constructor|]. csimpl. constructor; [|exact IH]. clear IH l.
  unfold decides. destruct v as [v|]; cbn [fst snd].
  - destruct (decimal_of parse_decimal to p s (Some v)) as [out|] eqn:E; cbn [Coerce.is_none negb andb].
    + pose proof (unchanged_back (c_type c) to v out) as Hu.
      destruct (unchanged (c_type c) to (Some v) (Some out)); cbn [negb].
      * split; [intros _; constructor; [done|by apply Hu]|]. intros x Hx. inversion Hx; subst. split; [done|congruence].
      * split; [done|]. intros x Hx. inversion Hx as [|? ? Hc Hs]; subst. rewrite E in Hc. injection Hc as ->.
        apply Hu in Hs. done.
    + split; [done|]. intros x Hx. inversion Hx; subst. congruence.
  - assert (unchanged (c_type c) to None None = true) as Hu by (unfold Conform.unchanged; by destruct (into self)).
    simpl. rewrite Hu. simpl. split; [intros _; constructor|]. intros x Hx. by inversion Hx.
Qed.

Lemma plain_answered c to path : goes (c_type c) to A_Plain → answered c to (fit_cast c to path).
Proof.
  intros Hg. split; [done|]. eapply Forall2_impl; [apply cast_decides|]. intros v o [H1 H2].
  split; [intros Ho; eapply L_plain; [done|by apply H1]|]. intros _ x Hx. apply H2.
  inversion Hx; subst; one_way.
Qed.

Lemma decimal_answered c to p s path : goes (c_type c) to (A_Decimals p s) →
  answered c to (fit_decimals c to p s path).
Proof.
  intros Hg. split; [done|]. eapply Forall2_impl; [apply decimals_decide|]. intros v o [H1 H2].
  split; [intros Ho; eapply L_decimal; [done|by apply H1]|]. intros _ x Hx. apply H2.
  inversion Hx; subst; one_way.
Qed.

Lemma refusals_outcomes c t path : outcomes {| array := nulls_of t (length (c_values c)); reasons := refusals c path |} =
  (λ v, (null_of t, if is_null v then None else Some (NotConverted path))) <$> c_values c.
Proof.
  unfold refusals. rewrite outcomes_zip by (simpl; by rewrite length_fmap, length_replicate). simpl.
  induction (c_values c) as [|v l IH]; [done|]. csimpl. by rewrite IH.
Qed.

Lemma refused_answered c to path :
  (goes (c_type c) to A_Refused ∨ ∃ e i, goes (c_type c) to (A_AsList e i) ∧ makes_list (c_type c) (List e) = false) →
  answered c to (refused c to path).
Proof.
  intros Hg. split; [done|]. unfold refused. rewrite refusals_outcomes. apply Forall2_fmap_r, Forall_Forall2_diag, Forall_true.
  intros v. split; simpl.
  - destruct (is_null v) eqn:En; [intros _|done]. destruct Hg as [Hg|(e & i & Hg & Hm)];
      [by apply L_refused|by eapply L_no_list].
  - intros _ x Hx. destruct Hg as [Hg|(e & i & Hg & Hm)]; inversion Hx; subst; one_way;
      match goal with H : is_null _ = true |- _ => by rewrite H end.
Qed.

Lemma null_answered c to : goes (c_type c) to A_Null → answered c to (clean (nulls_of to (length (c_values c)))).
Proof.
  intros Hg. split; [done|]. rewrite outcomes_clean. simpl. rewrite fmap_replicate.
  assert (H : ∀ v, answer (c_type c) to v (null_of to, None)).
  { intros v. split; simpl; [intros _; by apply L_null_type|]. intros _ x Hx. inversion Hx; subst; one_way. }
  induction (c_values c) as [|v l IH]; simpl; constructor; done.
Qed.
End Correct.
