(* ===== verification/ConformNested.v ===== *)
(** * ConformNested: fitting nested values row by row (src/kafka/conform.rs)

    Each of [fit]'s arms for lists, maps, structs and unions, given that the parts are fitted
    row by row; and [fit] itself, by induction on its fuel, which the sizes of the types bound. *)

From Stdlib Require Import ZArith Lia.
From stdpp Require Import base list strings gmap.
From S2P Require Import Prelude Error F64 JsonText Schema Fractions Coerce Union Kdi Conform ConformCorrect.

Open Scope Z_scope.
Open Scope ddi_scope.

(** ** Types an array can be built of *)

(** [placeholders] has something to put for a null. *)
Definition can_mask (t : DataType) : bool :=
  match t with
  | Null | Union _ _ => false
  | _ => match placeholder t with Ok _ => true | Err _ => false end
  end.
Definition fillable (f : Field) : bool := f_nullable f || can_mask (f_type f).

(** A target's type: where a field is NOT NULL something can stand there, a map's entries are its
    keys and values, a union is dense and has a branch. *)
Fixpoint buildable (t : DataType) : bool :=
  match t with
  | Struct fs => forallb (λ f, match f with mkField _ t n => buildable t && (n || can_mask t) end) fs
  | List (mkField _ t n) => buildable t && (n || can_mask t)
  | Map (mkField _ (Struct [mkField _ k kn; mkField _ v vn]) _) _ =>
      buildable k && (kn || can_mask k) && (buildable v && (vn || can_mask v))
  | Map _ _ => false
  | Union fs dense =>
      dense && negb (bool_decide (fs = [])) && forallb (λ f, match f with (_, mkField _ t _) => buildable t end) fs
  | _ => true
  end.

(** A type of the rows: a map's entries are a struct of at least keys and values. *)
Fixpoint readable (t : DataType) : bool :=
  match t with
  | Struct fs => forallb (λ f, match f with mkField _ t _ => readable t end) fs
  | List f | ListView f | LargeList f | LargeListView f | FixedSizeList f _ =>
      match f with mkField _ t _ => readable t end
  | Map (mkField _ (Struct (mkField _ k _ :: mkField _ v _ :: _)) _) _ => readable k && readable v
  | Map _ _ => false
  | Union fs _ => forallb (λ f, match f with (_, mkField _ t _) => readable t end) fs
  | _ => true
  end.

Lemma buildable_field fs f : buildable (Struct fs) = true → f ∈ fs → buildable (f_type f) = true ∧ fillable f = true.
Proof.
  intros H Hf%list_elem_of_In. simpl in H. rewrite forallb_forall in H. apply H in Hf.
  destruct f. by apply andb_true_iff in Hf.
Qed.
Lemma buildable_branch fs d f : buildable (Union fs d) = true → f ∈ fs → buildable (f_type f.2) = true.
Proof.
  intros [_ H]%andb_true_iff Hf%list_elem_of_In. rewrite forallb_forall in H. apply H in Hf. by destruct f as [? []].
Qed.
Lemma buildable_union fs d : buildable (Union fs d) = true → d = true ∧ fs ≠ [].
Proof. simpl. intros [[-> H]%andb_true_iff _]%andb_true_iff. by destruct fs. Qed.
Lemma buildable_item f : buildable (List f) = true → buildable (f_type f) = true ∧ fillable f = true.
Proof. destruct f. simpl. by intros ?%andb_true_iff. Qed.
Lemma buildable_entries e s : buildable (Map e s) = true → ∃ k v,
  key_value e = Some (k, v) ∧ f_type e = Struct [k; v] ∧ buildable (f_type k) = true ∧ fillable k = true ∧
  buildable (f_type v) = true ∧ fillable v = true.
Proof.
  destruct e as [n t b]. simpl. destruct t as [| | | | | | | | | | | | | | | | | | | | | | | | | | | | | | | |[|x [|y []]]| | | | | | | |];
    try (destruct x; try destruct y; done); try done.
  destruct x as [kn k kb], y as [vn v vb]. intros [[? ?]%andb_true_iff [? ?]%andb_true_iff]%andb_true_iff.
  eexists _, _. split; [done|]. done.
Qed.

Lemma readable_field fs f : readable (Struct fs) = true → f ∈ fs → readable (f_type f) = true.
Proof.
  intros H Hf%list_elem_of_In. simpl in H. rewrite forallb_forall in H. apply H in Hf. by destruct f.
Qed.
Lemma readable_branch fs d f : readable (Union fs d) = true → f ∈ fs → readable (f_type f.2) = true.
Proof.
  intros H Hf%list_elem_of_In. simpl in H. rewrite forallb_forall in H. apply H in Hf. by destruct f as [? []].
Qed.
Lemma readable_entries e s : readable (Map e s) = true → ∃ k v,
  key_value e = Some (k, v) ∧ readable (f_type k) = true ∧ readable (f_type v) = true.
Proof.
  destruct e as [n t b]. simpl. destruct t as [| | | | | | | | | | | | | | | | | | | | | | | | | | | | | | | |[|x [|y fs]]| | | | | | | |];
    try (destruct x; try destruct y; done); try done.
  destruct x, y. intros [? ?]%andb_true_iff. eexists _, _. done.
Qed.

(** What [fit] is asked to fit. *)
Definition fits (n : nat) (from to : DataType) : Prop :=
  (size from + size to ≤ n)%nat ∧ readable from = true ∧ buildable to = true.

Lemma placeholder_valid t p : placeholder t = Ok p → is_null (Some p) = false.
Proof.
  destruct t; simpl; try (intros [= <-]; done).
  - match goal with |- (let? _ := ?l in _) = _ → _ => destruct l as [l'|] end; [|done]. by intros [= <-].
  - destruct entries as [n [] b]; try done; by intros [= <-].
Qed.
Lemma force_valid_spec c : can_mask (c_type c) = true →
  ∃ c', force_valid c = Ok c' ∧ c_type c' = c_type c ∧ length (c_values c') = length (c_values c) ∧
    (∀ i x, c_values c !! i = Some x → is_null x = false → c_values c' !! i = Some x) ∧
    Forall (λ x, is_null x = false) (c_values c').
Proof.
  intros H. assert (∃ p, is_null (Some p) = false ∧
    force_valid c = Ok (Build_Column (c_type c) ((λ v, if is_null v then Some p else v) <$> c_values c))) as (p & Hn & ->).
  { unfold can_mask in H. unfold force_valid. destruct (c_type c); try done;
      (destruct (placeholder _) as [p|] eqn:Hp; [|done]); exists p; split; try done; by eapply placeholder_valid. }
  eexists. split; [done|]. simpl. split_and!; [done|by rewrite length_fmap| |].
  - intros i x Hi Hx. rewrite list_lookup_fmap, Hi. simpl. by rewrite Hx.
  - apply Forall_fmap, Forall_true. intros x. simpl. by destruct (is_null x) eqn:E.
Qed.

Section Nested.
Context (can_cast_types : DataType → DataType → bool).
Context (cast_value_safe : DataType → DataType → Value → option Value).
Context (makes_list : DataType → DataType → bool).
Context (parse_decimal : DataType → JsonText.text → option Z).
Context (from_f64 : f64 → option JsonText.text) (quoted : JsonText.text → JsonText.text).
Context (self : Fitter).
Abbreviation lands := (lands can_cast_types cast_value_safe makes_list parse_decimal (into self)).
Abbreviation lands_in := (lands_in can_cast_types cast_value_safe makes_list parse_decimal (into self)).
Abbreviation answer := (answer can_cast_types cast_value_safe makes_list parse_decimal (into self)).
Abbreviation answered := (answered can_cast_types cast_value_safe makes_list parse_decimal (into self)).

Lemma answered_length c to f : answered c to f → length (c_values (array f)) = length (c_values c).
Proof. intros [_ H%Forall2_length]. unfold outcomes in H. by rewrite length_imap in H. Qed.
Lemma answered_at c to f i v : answered c to f → c_values c !! i = Some v →
  ∃ x, c_values (array f) !! i = Some x ∧ answer (c_type c) to v (x, reason f i).
Proof.
  intros [_ H] Hi. eapply Forall2_lookup_l in H as (o & Ho & H); [|done].
  unfold outcomes in Ho. rewrite list_lookup_imap in Ho. destruct (c_values (array f) !! i) as [x|]; [|done].
  injection Ho as <-. by exists x.
Qed.
Lemma answered_intro c to f : c_type (array f) = to → length (c_values (array f)) = length (c_values c) →
  (∀ i v x, c_values c !! i = Some v → c_values (array f) !! i = Some x →
     answer (c_type c) to v (x, reason f i)) → answered c to f.
Proof.
  intros Ht Hl H. split; [done|]. apply Forall2_same_length_lookup_2.
  - unfold outcomes. by rewrite length_imap.
  - intros i v o Hv Ho. unfold outcomes in Ho. rewrite list_lookup_imap in Ho.
    destruct (c_values (array f) !! i) as [x|] eqn:E; [|done]. injection Ho as <-. by apply H.
Qed.

Lemma or_else_none {A} (a b : option A) : or_else a b = None ↔ a = None ∧ b = None.
Proof. destruct a; naive_solver. Qed.
Lemma existsb_is_null l : existsb is_null l = false ↔ Forall (λ x, is_null x = false) l.
Proof.
  induction l as [|x l IH]; simpl; [done|]. rewrite orb_false_iff, IH, Forall_cons. done.
Qed.

(** How the parts are fitted. *)
Context (rec : Column → DataType → string → bool → option KdiPlace → result Error (Fitted * Missing)) (n : nat).
Hypothesis rec_answers : ∀ c to path, fits n (c_type c) to →
  ∃ f m, rec c to path false None = Ok (f, m) ∧ answered c to f.

(** A null is not where none may be: the part with a value in its place, and the rows that say so. *)
Definition masked (field : Field) (c : Column) : result Error Column :=
  if negb (f_nullable field) && existsb is_null (c_values c) then force_valid c else Ok c.
Lemma masked_spec field c : c_type c = f_type field → fillable field = true →
  ∃ c', masked field c = Ok c' ∧ c_type c' = f_type field ∧ length (c_values c') = length (c_values c) ∧
    (∀ i x, c_values c !! i = Some x → held field x → c_values c' !! i = Some x) ∧
    (f_nullable field = true ∨ Forall (λ x, is_null x = false) (c_values c')).
Proof.
  intros Ht Hf. unfold masked, held. destruct (f_nullable field) eqn:En; simpl.
  { exists c. split_and!; [done..|by left]. }
  destruct (existsb is_null (c_values c)) eqn:E.
  - unfold fillable in Hf. rewrite En in Hf. simpl in Hf. rewrite <-Ht in Hf.
    destruct (force_valid_spec c Hf) as (c' & H1 & H2 & H3 & H4 & H5). exists c'. rewrite H2.
    split_and!; [done..| |by right]. intros i x Hi [?|Hx]; [done|by apply H4].
  - apply existsb_is_null in E. exists c. split_and!; [done..|by right].
Qed.
(** The reason for a null there. *)
Lemma not_null_reason field c i x path : c_values c !! i = Some x →
  (if negb (f_nullable field) && existsb is_null (c_values c) && is_null x
   then Some (NullIntoNotNull path) else None) = None ↔ held field x.
Proof.
  intros Hi. unfold held. destruct (f_nullable field); simpl; [naive_solver|].
  destruct (is_null x) eqn:Ex; [|by destruct (existsb is_null (c_values c)); naive_solver].
  destruct (existsb is_null (c_values c)) eqn:E; simpl; [naive_solver|].
  apply existsb_is_null in E. rewrite (Forall_lookup_1 _ _ _ _ E Hi) in Ex. done.
Qed.

(** *** Structs *)

(** What a child of the target's is, of a row. *)
Definition child_lands (fs : Schema) (x : Value) (g : Field) (y : option Value) : Prop :=
  (∀ j f, position (f_name g) fs = Some j → fs !! j = Some f →
     lands (f_type f) (f_type g) (field_of (f_type f) j (Some x)) y) ∧
  (position (f_name g) fs = None → f_nullable g = true ∧ y = null_of (f_type g)) ∧
  held g y.

(** A row's value, or a reason that there is none; what is under a null is nobody's. *)
Definition decided {A} (complete : Prop) (R : Value → A → Prop) (v : option Value) (y : A) (r : option Reason) : Prop :=
  match v with
  | None => r = None
  | Some a => (r = None → R a y) ∧ (complete → ∀ z, R a z → r = None ∧ z = y)
  end.

Lemma position_lookup name fs j : position name fs = Some j → ∃ f, fs !! j = Some f ∧ f_name f = name.
Proof.
  unfold position. destruct (list_find _ fs) as [[k f]|] eqn:E; [|done]. intros [= <-].
  apply list_find_Some in E as (H1 & H2 & _). by exists f.
Qed.

Lemma fit_child_spec fs c path g :
  (∀ f, f ∈ fs → fits n (f_type f) (f_type g)) → fillable g = true →
  ∃ ch bad m, fit_child self rec fs c path None g = Ok ({| array := ch; reasons := bad |}, m) ∧
    c_type ch = f_type g ∧ length (c_values ch) = length (c_values c) ∧ length bad = length (c_values c) ∧
    (f_nullable g = true ∨ Forall (λ x, is_null x = false) (c_values ch)) ∧
    ∀ i v y r, c_values c !! i = Some v → c_values ch !! i = Some y → bad !! i = Some r →
      decided (union_free (f_type g) = true) (λ x, child_lands fs x g) v y r.
Proof.
  intros Hfit Hfill. unfold fit_child.
  match goal with |- context [let? r := ?first in _] => set (part := first) end.
  assert (∃ fitted m, part = Ok (fitted, m) ∧ c_type (array fitted) = f_type g ∧
    length (c_values (array fitted)) = length (c_values c) ∧
    ∀ i a y, c_values c !! i = Some (Some a) → c_values (array fitted) !! i = Some y →
      (reason fitted i = None → held g y → child_lands fs a g y) ∧
      (union_free (f_type g) = true → ∀ z, child_lands fs a g z → reason fitted i = None ∧ z = y))
    as (fitted & m & -> & Ht & Hl & Hrow).
  { subst part. destruct (position (f_name g) fs) as [j|] eqn:Hp; simpl.
    - destruct (position_lookup _ _ _ Hp) as (f & Hf & _). rewrite Hf. simpl.
      destruct (rec_answers (Build_Column (f_type f) (field_of (f_type f) j <$> c_values c)) (f_type g)
        (path +:+ "." +:+ f_name g)) as (fitted & m & -> & Ha); [by eapply Hfit, list_elem_of_lookup_2|].
      exists fitted, m. split_and!; [done|apply Ha|by rewrite (answered_length _ _ _ Ha); simpl; rewrite length_fmap|].
      intros i a y Hi Hy.
      destruct (answered_at _ _ _ i (field_of (f_type f) j (Some a)) Ha) as (y' & Hy' & Hs & Hc);
        [simpl; by rewrite list_lookup_fmap, Hi|]. rewrite Hy in Hy'. injection Hy' as <-. simpl in *. split.
      + intros Hr Hh. split_and!; [|by rewrite Hp|done]. intros j' f' Hp' Hf'. simplify_eq. by apply Hs.
      + intros Hu z (Hz & _ & _). apply Hc; [done|]. by eapply Hz.
    - eexists _, _. split; [done|]. simpl. split_and!; [done|by rewrite length_replicate|].
      intros i a y Hi Hy. apply lookup_replicate in Hy as [-> _]. unfold reason. simpl.
      destruct (f_nullable g) eqn:En.
      + split; [|intros _ z (_ & Hz & _); rewrite Hp in Hz; split; [by destruct i|by apply Hz]].
        intros _ Hh. split_and!; [by rewrite Hp|done..].
      + rewrite (nth_lookup_Some _ _ _ (Some (MissingNotNull (path +:+ "." +:+ f_name g)))) by (by rewrite list_lookup_fmap, Hi).
        split; [done|]. intros _ z (_ & Hz & _). destruct (Hz Hp). congruence. }
  destruct (masked_spec g (array fitted) Ht Hfill) as (ch & Hm & Hct & Hcl & Hsame & Hheld).
  unfold masked in Hm. simpl. rewrite Hm. simpl. eexists _, _, _. split; [done|].
  split_and!; [done|lia|by rewrite length_imap|done|].
  intros i v y r Hi Hy Hr. rewrite list_lookup_imap, Hi in Hr. injection Hr as <-. unfold decided. destruct v as [a|]; [|done]. simpl.
  destruct (lookup_lt_is_Some_2 (c_values (array fitted)) i) as [y0 Hy0]; [apply lookup_lt_Some in Hi; lia|].
  rewrite Hy0. simpl. match goal with |- (?r = None → _) ∧ _ => assert (Hn : r = None ↔ reason fitted i = None ∧ held g y0)
    by (by rewrite or_else_none, (not_null_reason _ _ _ _ _ Hy0)) end.
  destruct (Hrow i a y0 Hi Hy0) as [Hs Hc]. split.
  - intros [Hr Hh]%Hn. rewrite (Hsame _ _ Hy0 Hh) in Hy. injection Hy as <-. by apply Hs.
  - intros Hu z Hz. destruct (Hc Hu z Hz) as [Hr ->]. destruct Hz as (_ & _ & Hh). split; [by apply Hn|].
    rewrite (Hsame _ _ Hy0 Hh) in Hy. by injection Hy.
Qed.

(** The row [i] of columns. *)
Definition row (cs : list Column) (i : nat) : list (option Value) := (λ c, default None (c_values c !! i)) <$> cs.

Lemma fit_children_spec fs c path gs :
  (∀ f g, f ∈ fs → g ∈ gs → fits n (f_type f) (f_type g)) → (∀ g, g ∈ gs → fillable g = true) →
  ∃ cs bad m, fit_children self rec fs c path None gs = Ok (cs, bad, m) ∧
    Forall2 (λ g ch, c_type ch = f_type g ∧ length (c_values ch) = length (c_values c) ∧
      (f_nullable g = true ∨ Forall (λ x, is_null x = false) (c_values ch))) gs cs ∧
    length bad = length (c_values c) ∧
    ∀ i v r, c_values c !! i = Some v → bad !! i = Some r →
      decided (forallb (λ g, union_free (f_type g)) gs = true) (λ x, Forall2 (child_lands fs x) gs) v (row cs i) r.
Proof.
  induction gs as [|g gs IH]; intros Hfit Hfill; simpl.
  - eexists _, _, _. split; [done|]. split_and!; [constructor|by rewrite length_replicate|].
    intros i v r Hv [-> _]%lookup_replicate. destruct v as [a|]; [|done]. split; [intros _; constructor|].
    intros _ z Hz. by apply Forall2_nil_inv_l in Hz as ->.
  - destruct (fit_child_spec fs c path g) as (ch & bad1 & m1 & -> & Ht & Hl & Hb & Hh & Hrow);
      [intros f Hf; apply Hfit; [done|left]|apply Hfill; left|].
    destruct IH as (cs & bad2 & m2 & -> & Hcs & Hb2 & Hrows);
      [intros; apply Hfit; [done|by right]|intros; apply Hfill; by right|].
    simpl. eexists _, _, _. split; [done|]. split_and!; [by constructor|rewrite length_zip_with; lia|].
    intros i v r Hv Hr. rewrite lookup_zip_with in Hr.
    destruct (bad1 !! i) as [r1|] eqn:E1; [|done]. destruct (bad2 !! i) as [r2|] eqn:E2; [|done]. injection Hr as <-.
    destruct (lookup_lt_is_Some_2 (c_values ch) i) as [y Hy]; [apply lookup_lt_Some in Hv; lia|].
    specialize (Hrow i v y r1 Hv Hy E1). specialize (Hrows i v r2 Hv E2). unfold row in *. csimpl. rewrite Hy. simpl.
    unfold decided in *. destruct v as [a|]; [|by subst].
    destruct Hrow as [Hs1 Hc1], Hrows as [Hs2 Hc2]. split.
    + intros [-> ->]%or_else_none. constructor; [by apply Hs1|by apply Hs2].
    + intros [Hu1 Hu2]%andb_true_iff z Hz. apply Forall2_cons_inv_l in Hz as (z1 & zs & H1 & H2 & ->).
      destruct (Hc1 Hu1 _ H1) as [-> ->]. by destruct (Hc2 Hu2 _ H2) as [-> ->].
Qed.

Lemma head_omap_none {A} (l : list (option A)) : head (omap id l) = None ↔ Forall (λ x, x = None) l.
Proof.
  induction l as [|[x|] l IH]; simpl; [done| |].
  - split; [done|]. by intros [? _]%Forall_cons.
  - rewrite IH, Forall_cons. naive_solver.
Qed.
Lemma dropped_none fs gs path a : dropped self fs gs path (Some a) = None ↔
  (into self = IntoUnion → ∀ k f, fs !! k = Some f → position (f_name f) gs = None →
     is_null (field_of (f_type f) k (Some a)) = true).
Proof.
  unfold dropped. destruct (into self); [done|]. rewrite head_omap_none, Forall_lookup.
  split; intros H.
  - intros _ k f Hk Hp. specialize (H k). rewrite list_lookup_imap, Hk in H. specialize (H _ eq_refl). simpl in H.
    rewrite Hp, (bool_decide_eq_false_2 (is_Some None)) in H by (by intros [? ?]). simpl in H.
    by destruct (is_null _).
  - intros k x. rewrite list_lookup_imap. destruct (fs !! k) as [f|] eqn:Hk; [|done]. intros [= <-]. cbv beta.
    destruct (position (f_name f) gs) as [j|] eqn:Hp; [by rewrite bool_decide_eq_true_2|].
    specialize (H eq_refl k f Hk Hp). unfold field_of in H. by rewrite H, orb_true_r.
Qed.

Lemma struct_ok_spec c gs cs :
  Forall2 (λ g ch, c_type ch = f_type g ∧ length (c_values ch) = length (c_values c) ∧
      (f_nullable g = true ∨ Forall (λ x, is_null x = false) (c_values ch))) gs cs →
  struct_ok (c_values c) gs cs = true.
Proof.
  intros H. unfold struct_ok. apply andb_true_iff. split.
  - apply bool_decide_eq_true_2. induction H as [|g ch gs cs (Ht & _) _ IH]; [done|]. csimpl. by rewrite Ht, IH.
  - induction H as [|g ch gs cs (_ & _ & Hh) _ IH]; [done|]. simpl. rewrite IH, andb_true_r.
    destruct Hh as [->|Hh]; [done|]. apply orb_true_iff. right. generalize (c_values c). clear IH.
    induction Hh as [|x l Hx _ IHl]; intros [|v vs]; [done..|]. simpl. by rewrite Hx, orb_true_r, IHl.
Qed.

(** The outcome of a row of nested values. *)
Lemma nested_answer from to (v y : option Value) r (R : Value → option Value → Prop) :
  lands from to None None → (∀ z, lands from to None z → z = None) →
  (∀ a z, R a z → lands from to (Some a) z) → (∀ a z, lands from to (Some a) z → R a z) →
  (v = None → y = None) → decided (union_free to = true) R v y r → answer from to v (y, r).
Proof.
  intros H1 H2 H3 H4 Hy Hd. destruct v as [a|]; unfold decided in Hd.
  - destruct Hd as [Hs Hc]. split; simpl; [intros Hr; by apply H3, Hs|]. intros Hu x Hx. apply Hc; [done|by apply H4].
  - rewrite (Hy eq_refl), Hd. split; simpl; [done|]. intros _ x Hx. split; [done|by apply H2].
Qed.

Lemma only_some_lookup l i (r : option Reason) : l !! i = Some r → nth i (only_some l) None = r.
Proof. intros H. rewrite only_some_nth. by apply nth_lookup_Some. Qed.

Definition struct_lands (fs gs : Schema) (a : Value) (z : option Value) : Prop :=
  ∃ l', z = Some (V_Struct l') ∧ Forall2 (child_lands fs a) gs l' ∧
    (into self = IntoUnion → ∀ k f, fs !! k = Some f → position (f_name f) gs = None →
       is_null (field_of (f_type f) k (Some a)) = true).

Lemma structs_answered fs gs c path : goes (c_type c) (Struct gs) (A_Structs fs gs) →
  (∀ f g, f ∈ fs → g ∈ gs → fits n (f_type f) (f_type g)) → (∀ g, g ∈ gs → fillable g = true) →
  ∃ f m, fit_structs self rec fs c gs path None = Ok (f, m) ∧ answered c (Struct gs) f.
Proof.
  intros Hg Hfit Hfill. unfold fit_structs.
  destruct (fit_children_spec fs c path gs Hfit Hfill) as (cs & bad & m & -> & Hcs & Hb & Hrows). simpl.
  rewrite (struct_ok_spec _ _ _ Hcs). eexists _, _. split; [done|].
  apply answered_intro; [done|simpl; unfold struct_rows; by rewrite length_imap|]. simpl.
  intros i v x Hv Hx. unfold struct_rows in Hx. rewrite list_lookup_imap, Hv in Hx. injection Hx as <-.
  destruct (lookup_lt_is_Some_2 bad i) as [r Hr]; [apply lookup_lt_Some in Hv; lia|].
  unfold reason. simpl. rewrite (only_some_lookup _ _ (or_else r (dropped self fs gs path v)))
    by (by rewrite lookup_zip_with, Hr; simpl; rewrite list_lookup_fmap, Hv).
  specialize (Hrows i v r Hv Hr). apply nested_answer with (R := struct_lands fs gs).
  - by eapply L_struct_null.
  - intros z Hz. inversion Hz; subst; one_way.
  - intros a z (l' & -> & H1 & H2). by eapply L_struct.
  - intros a z Hz. inversion Hz; subst; one_way.
    eexists. split; [done|]. split; assumption.
  - by intros ->.
  - destruct v as [a|]; simpl in *; [|by subst; unfold dropped; destruct (into self)].
    destruct Hrows as [Hs Hc]. split.
    + intros [Hr0 Hd]%or_else_none. eexists. split_and!; [done|by apply Hs|by apply (dropped_none fs gs path)].
    + intros Hu z (l' & -> & H1 & H2). destruct (Hc) with (z := l') as [-> ->]; [|done|].
      { clear -Hu. induction gs as [|[] gs IH]; [done|]. simpl in *. apply andb_true_iff in Hu as [-> Hu]. by apply IH. }
      split; [|done]. apply or_else_none. split; [done|]. by apply (dropped_none fs gs path).
Qed.

(** *** Lists and maps *)

Lemma cut_zip {A B} ns (l : list A) (k : list B) : length l = length k →
  cut ns (zip l k) = zip_with zip (cut ns l) (cut ns k).
Proof.
  revert l k. induction ns as [|m ns IH]; intros l k H; [done|]. simpl.
  rewrite <-IH by (by rewrite !length_drop, H). f_equal.
  - clear IH H. revert l k. induction m as [|m IHm]; intros [|x l] [|y k]; simpl; try done. by rewrite IHm.
  - f_equal. clear IH H. revert l k. induction m as [|m IHm]; intros [|x l] [|y k]; simpl; try done; by destruct (drop m l).
Qed.

(** An element's outcome, with where nulls may be. *)
Definition element_ok {A} (complete : Prop) (R : A → option Value → Prop) (field : Field) (v : A)
    (p : option Value * option Reason) : Prop :=
  (p.2 = None → R v p.1 ∧ held field p.1) ∧ (complete → ∀ z, R v z → held field z → p.2 = None ∧ z = p.1).

Lemma elements_ok {A} (complete : Prop) (R : A → option Value → Prop) field vs z :
  Forall2 (element_ok complete R field) vs z →
  (head (omap id (snd <$> z)) = None → Forall2 R vs (fst <$> z) ∧ Forall (held field) (fst <$> z)) ∧
  (complete → ∀ l, Forall2 R vs l → Forall (held field) l → head (omap id (snd <$> z)) = None ∧ l = fst <$> z).
Proof.
  induction 1 as [|v [y r] vs z [Hs1 Hc1] _ [Hs2 Hc2]]; csimpl.
  - split; [done|]. intros _ l Hl _. by apply Forall2_nil_inv_l in Hl as ->.
  - simpl in *. split.
    + destruct r; [done|]. intros Hn. destruct (Hs1 eq_refl), (Hs2 Hn). split; by constructor.
    + intros Hu l Hl Hh. apply Forall2_cons_inv_l in Hl as (y' & l' & H1 & H2 & ->).
      apply Forall_cons in Hh as [Hh1 Hh2]. destruct (Hc1 Hu _ H1 Hh1) as [-> ->]. simpl.
      by destruct (Hc2 Hu _ H2 Hh2) as [-> ->].
Qed.

Lemma fit_elements_spec {A} (items : option Value → list A) (complete : Prop) (R : A → option Value → Prop) rows f field path :
  Forall2 (λ v o, (o.2 = None → R v o.1) ∧ (complete → ∀ x, R v x → o.2 = None ∧ x = o.1))
    (mjoin (items <$> rows)) (outcomes f) →
  c_type (array f) = f_type field → fillable field = true →
  ∃ values bad, fit_elements rows (length ∘ items <$> rows) f field path = Ok (values, bad) ∧
    part_ok field values = true ∧ c_type values = f_type field ∧
    length (c_values values) = length (mjoin (items <$> rows)) ∧ length bad = length rows ∧
    ∀ i v chunk r, rows !! i = Some v → cut (length ∘ items <$> rows) (c_values values) !! i = Some chunk →
      bad !! i = Some r →
      match v with
      | None => r = None
      | Some _ => (r = None → Forall2 R (items v) chunk ∧ Forall (held field) chunk) ∧
                  (complete → ∀ l, Forall2 R (items v) l → Forall (held field) l → r = None ∧ l = chunk)
      end.
Proof.
  intros Hf Ht Hfill. unfold fit_elements. destruct (masked_spec field (array f) Ht Hfill) as (vs & Hm & Hvt & Hvl & Hsame & Hheld).
  unfold masked in Hm. rewrite Hm. simpl.
  set (each := imap _ _). set (lengths := length ∘ items <$> rows).
  assert (Hlen : length (c_values (array f)) = length (mjoin (items <$> rows))).
  { apply Forall2_length in Hf. unfold outcomes in Hf. by rewrite length_imap in Hf. }
  assert (Hel : length each = length (c_values vs)) by (unfold each; rewrite length_imap; lia).
  assert (Hall : Forall2 (element_ok complete R field) (mjoin (items <$> rows)) (zip (c_values vs) each)).
  { apply Forall2_same_length_lookup_2; [rewrite length_zip_with; lia|]. intros j v [y e] Hv Hy.
    apply lookup_zip_with_Some in Hy as (y1 & e1 & [= -> ->] & Hy & He).
    destruct (Forall2_lookup_l _ _ _ _ _ Hf Hv) as ([x rx] & Ho & Hs & Hc). unfold outcomes in Ho.
    unfold each in He. rewrite list_lookup_imap in Ho. rewrite list_lookup_imap in He. destruct (c_values (array f) !! j) as [x'|] eqn:Hx; [|done].
    simpl in Ho, He. injection Ho as -> <-. injection He as <-. simpl in Hs, Hc.
    assert (Hn := or_else_none (reason f j) (if negb (f_nullable field) && existsb is_null (c_values (array f)) && is_null x
       then Some (NullIntoNotNull path) else None)). rewrite (not_null_reason _ _ _ _ _ Hx) in Hn.
    split; simpl.
    - intros [Hr Hh]%Hn. rewrite (Hsame _ _ Hx Hh) in Hy. injection Hy as <-. split; [by apply Hs|done].
    - intros Hu z Hz Hh. destruct (Hc Hu z Hz) as [Hr ->]. split; [by apply Hn|].
      rewrite (Hsame _ _ Hx Hh) in Hy. by injection Hy. }
  apply cut_Forall2 in Hall. rewrite <-list_fmap_compose in Hall. fold lengths in Hall.
  assert (Hv : cut lengths (c_values vs) = fmap fst <$> cut lengths (zip (c_values vs) each))
    by (rewrite <-cut_fmap, fst_zip by lia; done).
  assert (He : cut lengths each = fmap snd <$> cut lengths (zip (c_values vs) each))
    by (rewrite <-cut_fmap, snd_zip by lia; done).
  eexists _, _. split; [done|]. split_and!; [|done|lia|rewrite length_zip_with, length_cut; unfold lengths; rewrite length_fmap; lia|].
  - unfold part_ok. rewrite bool_decide_eq_true_2 by done. destruct Hheld as [->|Hn]; [done|].
    apply existsb_is_null in Hn. by rewrite Hn, orb_true_r.
  - intros i v chunk r Hi Hc Hr. rewrite Hv, list_lookup_fmap in Hc.
    rewrite lookup_zip_with, Hi, He, list_lookup_fmap in Hr. simpl in Hr.
    destruct (cut lengths (zip (c_values vs) each) !! i) as [z|] eqn:Hz; [|done]. simpl in Hc, Hr.
    injection Hc as <-. injection Hr as <-. destruct v as [a|]; [|done]. simpl.
    eapply (Forall2_lookup_lr _ _ _ i) in Hall; [|by rewrite list_lookup_fmap, Hi|done].
    by apply elements_ok in Hall.
Qed.

Definition list_lands (e i : Field) (a : Value) (z : option Value) : Prop :=
  ∃ l', z = Some (V_List l') ∧ Forall2 (lands (f_type e) (f_type i)) (items_of (Some a)) l' ∧ Forall (held i) l'.

Lemma list_answered e item c path : lists makes_list (c_type c) (List item) e item →
  fits n (f_type e) (f_type item) → fillable item = true →
  ∃ f m, fit_list rec e c item path None = Ok (f, m) ∧ answered c (List item) f.
Proof.
  intros Hg Hfit Hfill. unfold fit_list.
  destruct (rec_answers (Build_Column (f_type e) (mjoin (items_of <$> c_values c))) (f_type item) (path +:+ "[]") Hfit)
    as (f & m & Hrec & Ha). simpl. rewrite Hrec. simpl.
  destruct (fit_elements_spec items_of _ _ _ f item (path +:+ "[]") (proj2 Ha) (proj1 Ha) Hfill)
    as (vs & bad & Hfe & Hok & Hvt & Hvl & Hbl & Hrow). rewrite Hfe. simpl. rewrite Hok.
  set (lengths := length ∘ items_of <$> c_values c) in *.
  assert (Hcl : length (cut lengths (c_values vs)) = length (c_values c)) by (rewrite length_cut; unfold lengths; by rewrite length_fmap).
  eexists _, _. split; [done|]. apply answered_intro; [done|simpl; rewrite length_zip_with; lia|]. simpl.
  intros i v x Hv Hx. rewrite lookup_zip_with, Hv in Hx. simpl in Hx.
  destruct (cut lengths (c_values vs) !! i) as [chunk|] eqn:Hchunk; [|done]. injection Hx as <-.
  destruct (lookup_lt_is_Some_2 bad i) as [r Hr]; [apply lookup_lt_Some in Hv; lia|].
  unfold reason. simpl. rewrite (only_some_lookup _ _ _ Hr). specialize (Hrow i v chunk r Hv Hchunk Hr).
  apply nested_answer with (R := list_lands e item).
  - by eapply L_list_null.
  - intros z Hz. inversion Hz; subst; one_way.
  - intros a z (l' & -> & H1 & H2). by eapply L_list.
  - intros a z Hz. inversion Hz; subst; one_way; eexists; by split_and!.
  - by intros ->.
  - destruct v as [a|]; simpl in *; [|done]. destruct Hrow as [Hs Hc]. split.
    + intros Hr0. destruct (Hs Hr0). by eexists.
    + intros Hu z (l' & -> & H1 & H2). destruct (Hc) with (l := l') as [-> ->]; [|done..].
      by destruct item.
Qed.

Definition map_lands (fk fv k v : Field) (a : Value) (z : option Value) : Prop :=
  ∃ l', z = Some (V_Map (Some <$> l')) ∧
    Forall2 (λ a b, lands (f_type fk) (f_type k) a.1 b.1 ∧ lands (f_type fv) (f_type v) a.2 b.2) (entries_of (Some a)) l' ∧
    Forall (λ b, held k b.1 ∧ held v b.2) l'.

Lemma Forall2_pairs {A B C D} (P : A → C → Prop) (Q : B → D → Prop) (l : list (A * B)) (a : list C) (b : list D) :
  Forall2 P (fst <$> l) a → Forall2 Q (snd <$> l) b → Forall2 (λ x y, P x.1 y.1 ∧ Q x.2 y.2) l (zip a b).
Proof.
  revert a b. induction l as [|[x y] l IH]; intros a b Ha Hb; csimpl in *.
  - apply Forall2_nil_inv_l in Ha as ->. constructor.
  - apply Forall2_cons_inv_l in Ha as (x' & a' & ? & ? & ->). apply Forall2_cons_inv_l in Hb as (y' & b' & ? & ? & ->).
    constructor; [done|by apply IH].
Qed.
Lemma Forall2_unpair {A B C D} (P : A → C → Prop) (Q : B → D → Prop) (l : list (A * B)) (k : list (C * D)) :
  Forall2 (λ x y, P x.1 y.1 ∧ Q x.2 y.2) l k → Forall2 P (fst <$> l) (fst <$> k) ∧ Forall2 Q (snd <$> l) (snd <$> k).
Proof. induction 1 as [|x y l k [? ?] _ [? ?]]; csimpl; split; by constructor. Qed.
Lemma Forall_pairs {A B} (P : A → Prop) (Q : B → Prop) (a : list A) (b : list B) :
  Forall P a → Forall Q b → Forall (λ x, P x.1 ∧ Q x.2) (zip a b).
Proof.
  intros Ha. revert b. induction Ha as [|x a Hx _ IH]; intros b Hb; [constructor|].
  destruct Hb; constructor; [done|by apply IH].
Qed.
Lemma zip_fst_snd {A B} (l : list (A * B)) : zip (fst <$> l) (snd <$> l) = l.
Proof. induction l as [|[x y] l IH]; [done|]. csimpl. by rewrite IH. Qed.

Lemma fmap_mjoin_of {A B C} (f : B → C) (g : A → list B) (l : list A) :
  f <$> mjoin (g <$> l) = mjoin ((λ x, f <$> g x) <$> l).
Proof. induction l as [|x l IH]; [done|]. csimpl. by rewrite fmap_app, IH. Qed.

Lemma map_answered from entries sorted fk fv k v c path : goes (c_type c) (Map entries sorted) (A_Maps from entries sorted) →
  key_value from = Some (fk, fv) → key_value entries = Some (k, v) → f_type entries = Struct [k; v] →
  fits n (f_type fk) (f_type k) → fits n (f_type fv) (f_type v) → fillable k = true → fillable v = true →
  ∃ f m, fit_map self rec (key_value from) c entries sorted path None = Ok (f, m) ∧ answered c (Map entries sorted) f.
Proof.
  intros Hg Hfrom Hto Hent Hfk Hfv Hk Hv. unfold fit_map. rewrite Hfrom, Hto. cbn [fmap option_fmap option_map].
  set (all := mjoin (entries_of <$> c_values c)).
  destruct (rec_answers (Build_Column (f_type fk) (fst <$> all)) (f_type k) (path +:+ "{key}") Hfk) as (f1 & m1 & R1 & A1).
  destruct (rec_answers (Build_Column (f_type fv) (snd <$> all)) (f_type v) (path +:+ "{}") Hfv) as (f2 & m2 & R2 & A2).
  rewrite R1. cbn [fst snd]. rewrite R2. cbn [fst snd].
  set (keys := λ x : option Value, fst <$> entries_of x). set (vals := λ x : option Value, snd <$> entries_of x).
  assert (Hks : fst <$> all = mjoin (keys <$> c_values c))
    by (apply (fmap_mjoin_of fst entries_of)).
  assert (Hvs : snd <$> all = mjoin (vals <$> c_values c))
    by (apply (fmap_mjoin_of snd entries_of)).
  assert (Lk : length ∘ entries_of <$> c_values c = length ∘ keys <$> c_values c)
    by (apply list_fmap_ext; intros ? x _; unfold keys; simpl; by rewrite length_fmap).
  assert (Lv : length ∘ entries_of <$> c_values c = length ∘ vals <$> c_values c)
    by (apply list_fmap_ext; intros ? x _; unfold vals; simpl; by rewrite length_fmap).
  destruct A1 as [T1 A1], A2 as [T2 A2]. cbn [c_values c_type] in A1, A2. rewrite Hks in A1. rewrite Hvs in A2.
  destruct (fit_elements_spec keys _ _ _ f1 k (path +:+ "{key}") A1 T1 Hk) as (ks & badk & E1 & O1 & _ & N1 & B1 & P1).
  destruct (fit_elements_spec vals _ _ _ f2 v (path +:+ "{}") A2 T2 Hv) as (vs & badv & E2 & O2 & _ & N2 & B2 & P2).
  rewrite <-Lk in E1, P1. rewrite <-Lv in E2, P2. rewrite E1. cbn [fst snd]. rewrite E2. cbn [fst snd]. rewrite O1, O2, Hent, bool_decide_eq_true_2 by done. cbn [andb].
  set (lengths := length ∘ entries_of <$> c_values c) in *.
  assert (Hll : length lengths = length (c_values c)) by (unfold lengths; by rewrite length_fmap).
  assert (Hkv : length (c_values ks) = length (c_values vs)) by (rewrite N1, N2, <-Hks, <-Hvs, !length_fmap; done).
  eexists _, _. split; [done|]. apply answered_intro;
    [done|simpl; rewrite length_zip_with, length_cut; lia|]. cbn [array reasons c_values].
  intros i x y Hx Hy. rewrite cut_zip in Hy by done. rewrite !lookup_zip_with, Hx in Hy. simpl in Hy.
  destruct (cut lengths (c_values ks) !! i) as [ck|] eqn:Hck; [|done]. destruct (cut lengths (c_values vs) !! i) as [cv|] eqn:Hcv; [|done].
  injection Hy as <-.
  destruct (lookup_lt_is_Some_2 badk i) as [rk Hrk]; [apply lookup_lt_Some in Hx; lia|].
  destruct (lookup_lt_is_Some_2 badv i) as [rv Hrv]; [apply lookup_lt_Some in Hx; lia|].
  unfold reason. cbn [reasons]. rewrite (only_some_lookup _ _ (or_else rk rv)) by (by rewrite lookup_zip_with, Hrk; simpl; rewrite Hrv).
  specialize (P1 i x ck rk Hx Hck Hrk). specialize (P2 i x cv rv Hx Hcv Hrv).
  apply nested_answer with (R := map_lands fk fv k v).
  - by eapply L_map_null.
  - intros z Hz. inversion Hz; subst; one_way.
  - intros a z (l' & -> & H1 & H2). by eapply L_map.
  - intros a z Hz. inversion Hz; subst; one_way; simplify_eq. eexists. by split_and!.
  - by intros ->.
  - destruct x as [a|]; [|by simpl; subst]. destruct P1 as [S1 C1], P2 as [S2 C2]. simpl. split.
    + intros [H1 H2]%or_else_none. destruct (S1 H1) as [L1 Q1], (S2 H2) as [L2 Q2]. eexists. split; [done|].
      split; [by apply Forall2_pairs|by apply Forall_pairs].
    + intros Hu z (l' & -> & H1 & H2).
      assert (union_free (f_type k) = true ∧ union_free (f_type v) = true) as [U1 U2].
      { clear -Hu Hent. destruct entries as [en et eb]. simpl in *. subst et. simpl in Hu. destruct k, v. simpl.
        apply andb_true_iff in Hu as [? Hu]. by apply andb_true_iff in Hu as [? _]. }
      apply Forall2_unpair in H1 as [L1 L2].
      destruct (C1 U1 (fst <$> l')) as [-> Ek]; [done|apply Forall_fmap; eapply Forall_impl; [done|]; by intros ? [? _]|].
      destruct (C2 U2 (snd <$> l')) as [-> Ev]; [done|apply Forall_fmap; eapply Forall_impl; [done|]; by intros ? [_ ?]|].
      split; [done|]. by rewrite <-Ek, <-Ev, zip_fst_snd.
Qed.

(** *** Unions *)

Definition branch_column (c : Column) (b : Z * Field) : Column :=
  Build_Column (f_type b.2) (branch_of (f_type b.2) b.1 <$> c_values c).

Lemma fit_branches_spec fields c to path : (∀ b, b ∈ fields → fits n (f_type b.2) to) →
  ∃ bs, fit_branches rec fields c to path None = Ok bs ∧
    Forall2 (λ b p, p.1 = b.1 ∧ answered (branch_column c b) to p.2) fields bs.
Proof.
  induction fields as [|[id f] fields IH]; intros Hfit; simpl; [by eexists|].
  destruct (rec_answers (branch_column c (id, f)) to (path +:+ " (union branch " +:+ f_name f +:+ ")"))
    as (x & m & Hr & Ha); [apply (Hfit (id, f)); left|].
  unfold branch_column in Hr. simpl in Hr. rewrite Hr. simpl.
  destruct IH as (bs & -> & Hbs); [intros; apply Hfit; by right|]. simpl. eexists. split; [done|]. by constructor.
Qed.

(** The branch a row stands in, of the branches fitted. *)
Lemma find_branch {A} (P : (Z * Field) → Z * A → Prop) fields bs i :
  Forall2 (λ b p, p.1 = b.1 ∧ P b p) fields bs →
  match List.find (λ b, b.1 =? i) fields with
  | Some b => b ∈ fields ∧ ∃ p, List.find (λ b, b.1 =? i) bs = Some p ∧ P b p
  | None => List.find (λ b, b.1 =? i) bs = None
  end.
Proof.
  induction 1 as [|b p fields bs [Hid HP] _ IH]; simpl; [done|]. rewrite Hid. destruct (b.1 =? i).
  - split; [left|by exists p].
  - destruct (List.find _ fields); [|done]. destruct IH as [? ?]. split; [by right|done].
Qed.

Lemma union_to_answered bs c to path : goes (c_type c) to (A_UnionTo bs) →
  (∀ b, b ∈ bs → fits n (f_type b.2) to) →
  ∃ f m, fit_union_to rec bs c to path None = Ok (f, m) ∧ answered c to f.
Proof.
  intros Hg Hfit. unfold fit_union_to. destruct (decide (c_values c = [])) as [E|_].
  { eexists _, _. split; [done|]. apply answered_intro; [done|by rewrite E|]. intros i v x. by rewrite E. }
  destruct (fit_branches_spec bs c to path Hfit) as (fs & -> & Hfs). simpl. eexists _, _. split; [done|].
  apply answered_intro; [done|simpl; by rewrite length_imap|]. simpl. intros i v x Hv Hx.
  rewrite list_lookup_imap, Hv in Hx. injection Hx as <-. unfold reason. simpl.
  rewrite (only_some_lookup _ _ (fitted_branch fs v ≫= (λ f, reason f i))) by (by rewrite list_lookup_imap, Hv).
  pose proof (find_branch (λ b p, answered (branch_column c b) to p.2) bs fs (id_of v) Hfs) as Hb.
  unfold fitted_branch. destruct (List.find (λ b, b.1 =? id_of v) bs) as [b|] eqn:Eb.
  - destruct Hb as (_ & p & -> & Ha). simpl.
    destruct (answered_at _ _ _ i (branch_of (f_type b.2) b.1 v) Ha) as (y & -> & Hs & Hc);
      [simpl; by rewrite list_lookup_fmap, Hv|]. simpl in *. split; simpl.
    + intros Hr. eapply L_union; [done..|]. by apply Hs.
    + intros Hu x Hx. apply Hc; [done|]. inversion Hx; subst; one_way.
  - rewrite Hb. simpl. split; simpl; [intros _; by eapply L_union_none|].
    intros _ x Hx. inversion Hx; subst; one_way.
Qed.

(** The branch that takes values of a type: where one has no reason, it stands there. *)
Definition in_branch (fields : list (Z * Field)) (c : Column) (id : Z) (f : Fitted) : Prop :=
  ∃ b, b ∈ fields ∧ b.1 = id ∧ length (c_values (array f)) = length (c_values c) ∧
    ∀ i v x, c_values c !! i = Some v → c_values (array f) !! i = Some x → reason f i = None →
      lands_in (c_type c) b v x.

Lemma find_elem {A} (p : A → bool) l x : List.find p l = Some x → x ∈ l.
Proof. intros [H _]%List.find_some. by apply list_elem_of_In. Qed.
Lemma best_record_elem children fields b : best_record children fields = Some b → b ∈ fields.
Proof.
  unfold best_record. intros H.
  assert (Hall : Forall (λ x, x.2 ∈ fields) (omap (record_rank children) fields)).
  { apply Forall_forall. intros x. rewrite list_elem_of_omap. intros (y & Hy & Hx). unfold record_rank in Hx.
    destruct (struct_fields _); [|done]. destruct (_ || _); [|done]. by injection Hx as <-. }
  destruct (omap (record_rank children) fields) as [|x l]; [done|]. injection H as <-.
  apply Forall_cons in Hall as [Hx Hl]. revert x Hx. induction Hl as [|y l Hy _ IH]; intros x Hx; [done|].
  simpl. apply IH. by destruct (better y.1 x.1).
Qed.
Lemma resolved_branch_elem from fields name b : resolved_branch from fields name = Some b → b ∈ fields.
Proof.
  unfold resolved_branch.
  match goal with |- or_else ?a (or_else ?b (or_else ?c ?d)) = _ → _ => destruct a eqn:E1; [|destruct b eqn:E2; [|destruct c eqn:E3; [|]]] end;
    intros H; simpl in H; simplify_eq.
  - destruct name; [|done]. by eapply find_elem.
  - by eapply find_elem.
  - destruct from; simplify_eq; try by eapply find_elem. by eapply best_record_elem.
  - by eapply find_elem.
Qed.

Lemma fit_cast_in_branch c fields path b : b ∈ fields →
  in_branch fields c b.1 (fit_cast can_cast_types cast_value_safe self c (f_type b.2) path).
Proof.
  intros Hb. exists b. split_and!; [done..|simpl; by rewrite length_fmap|]. intros i v x Hv Hx Hr.
  pose proof (cast_decides can_cast_types cast_value_safe makes_list parse_decimal self c (f_type b.2) path) as H.
  destruct (Forall2_lookup_l _ _ _ _ _ H Hv) as (o & Ho & Hs & _). unfold outcomes in Ho.
  rewrite list_lookup_imap, Hx in Ho. injection Ho as <-. apply L_in_cast. by apply Hs.
Qed.
Lemma converting_branch_spec c fields all path partly id f : (∀ b, b ∈ fields → b ∈ all) →
  (∀ id f, partly = Some (id, f) → in_branch all c id f) →
  converting_branch can_cast_types cast_value_safe self c fields path partly = Some (id, f) → in_branch all c id f.
Proof.
  revert partly. induction fields as [|[i g] fields IH]; intros partly Hin Hp; cbn [converting_branch]; [by apply Hp|].
  destruct (bool_decide (f_type g = Null) || is_nested (f_type g) || negb (can_cast_types (c_type c) (f_type g))).
  { apply IH; [|done]. intros; apply Hin; by right. }
  pose proof (fit_cast_in_branch c all path (i, g)) as Hc. cbn [fst snd] in Hc.
  destruct (reasons (fit_cast can_cast_types cast_value_safe self c (f_type g) path)) eqn:Er.
  - intros [= <- <-]. apply Hc, Hin. left.
  - apply IH; [intros; apply Hin; by right|]. intros i' f' Hf. destruct partly as [[i0 f0]|]; simpl in Hf.
    + injection Hf as <- <-. by apply Hp.
    + injection Hf as <- <-. apply Hc, Hin. left.
Qed.

Lemma branch_for_spec c fields path name : fields ≠ [] → (∀ b, b ∈ fields → fits n (c_type c) (f_type b.2)) →
  ∃ id f m, branch_for can_cast_types cast_value_safe self rec c fields path name = Ok (id, (f, m)) ∧
    in_branch fields c id f.
Proof.
  intros Hne Hfit. unfold branch_for. destruct (resolved_branch (c_type c) fields name) as [[id b]|] eqn:E.
  { apply resolved_branch_elem in E. destruct (rec_answers c (f_type b) path (Hfit _ E)) as (f & m & -> & Ha).
    simpl. eexists _, _, _. split; [done|]. exists (id, b). split_and!; [done..|by eapply answered_length|].
    intros i v x Hv Hx Hr. apply L_in. simpl. destruct (answered_at _ _ _ _ _ Ha Hv) as (y & Hy & Hs & _).
    simplify_eq. by apply Hs. }
  destruct (converting_branch _ _ _ _ _ _ _) as [[id f]|] eqn:Ec.
  { eexists _, _, _. split; [done|]. by eapply converting_branch_spec; [| |done]. }
  assert (∃ b, or_else (List.find (λ b, bool_decide (f_type b.2 = Null)) fields) (head fields) = Some b ∧ b ∈ fields)
    as ([id b] & -> & Hb).
  { destruct (List.find _ fields) as [b|] eqn:Ef; [by exists b; split; [|eapply find_elem]|].
    destruct fields as [|b fields]; [done|]. exists b. split; [done|left]. }
  eexists _, _, _. split; [done|]. exists (id, b). split_and!; [done..|simpl; by rewrite length_replicate|].
  intros i v x Hv Hx Hr. apply lookup_replicate in Hx as [-> _]. apply L_in_null. unfold reason, refusals in Hr. simpl in Hr.
  rewrite (only_some_lookup _ _ (if is_null v then None else Some (NotConverted path))) in Hr
    by (by rewrite list_lookup_fmap, Hv). by destruct (is_null v).
Qed.

Lemma null_branch_elem fields nb : null_branch fields = Some nb → ∃ b, b ∈ fields ∧ b.1 = nb.
Proof.
  unfold null_branch. destruct (List.find _ fields) as [b|] eqn:E; [|done]. intros [= <-].
  exists b. split; [by eapply find_elem|done].
Qed.

Lemma wrap_answered c fields path : goes (c_type c) (Union fields true) (A_Wrap fields true) → fields ≠ [] →
  (∀ b, b ∈ fields → fits n (c_type c) (f_type b.2)) →
  ∃ f m, fit_wrap can_cast_types cast_value_safe self rec c fields path = Ok (f, m) ∧ answered c (Union fields true) f.
Proof.
  intros Hg Hne Hfit. unfold fit_wrap.
  destruct (branch_for_spec c fields path (type_names self ≫= lookup path) Hne Hfit) as (id & f & m & -> & b & Hb & <- & Hl & Hin).
  simpl. eexists _, _. split; [done|]. apply answered_intro; [done|simpl; rewrite length_zip_with; lia|]. simpl.
  intros i v y Hv Hy. rewrite lookup_zip_with, Hv in Hy. simpl in Hy.
  destruct (c_values (array f) !! i) as [x|] eqn:Hx; [|done]. injection Hy as <-. split; [|done]. simpl.
  unfold reason at 1. simpl. intros Hr.
  assert (lands (c_type c) (Union fields true) v (Some (V_Union b.1 x))) by (eapply L_wrap; [done..|by eapply Hin]).
  destruct (null_branch fields) as [nb|] eqn:En; [|done]. destruct (is_null v && negb (nb =? b.1)) eqn:E; [|done].
  apply andb_true_iff in E as [E _]. by eapply L_wrap_null.
Qed.

Lemma map_branches_spec from c fields path : fields ≠ [] →
  (∀ a b, a ∈ from → b ∈ fields → fits n (f_type a.2) (f_type b.2)) →
  ∃ ms m, map_branches can_cast_types cast_value_safe self rec from c fields path = Ok (ms, m) ∧
    Forall2 (λ a p, p.1 = a.1 ∧ in_branch fields (branch_column c a) p.2.1 p.2.2) from ms.
Proof.
  intros Hne. induction from as [|[id a] from IH]; intros Hfit; simpl; [by eexists _, _|].
  destruct (branch_for_spec (branch_column c (id, a)) fields (path +:+ " (union branch " +:+ f_name a +:+ ")")
    (Some (f_name a)) Hne) as (i & f & m & Hb & Hin); [intros b Hb; apply (Hfit (id, a)); [left|done]|].
  unfold branch_column in Hb. simpl in Hb. rewrite Hb. simpl.
  destruct IH as (ms & m' & -> & Hms); [intros; apply Hfit; [by right|done]|]. simpl.
  eexists _, _. split; [done|]. by constructor.
Qed.

Lemma unions_answered from c fields path : goes (c_type c) (Union fields true) (A_Unions from fields true) → fields ≠ [] →
  (∀ a b, a ∈ from → b ∈ fields → fits n (f_type a.2) (f_type b.2)) →
  ∃ f m, fit_unions can_cast_types cast_value_safe self rec from c fields path = Ok (f, m) ∧
    answered c (Union fields true) f.
Proof.
  intros Hg Hne Hfit. unfold fit_unions. destruct (map_branches_spec from c fields path Hne Hfit) as (ms & m & -> & Hms).
  simpl. eexists _, _. split; [done|]. apply answered_intro; [done|simpl; by rewrite length_imap|]. simpl.
  intros i v y Hv Hy. rewrite list_lookup_imap, Hv in Hy. injection Hy as <-. split; [|done]. simpl.
  unfold reason at 1. simpl. rewrite (only_some_lookup _ _ (mapped_branch ms v ≫= (λ b, reason b.2 i))) by (by rewrite list_lookup_imap, Hv).
  pose proof (find_branch (λ a p, in_branch fields (branch_column c a) p.2.1 p.2.2) from ms (id_of v) Hms) as Ha.
  unfold mapped_branch. destruct (List.find (λ b, b.1 =? id_of v) from) as [a|] eqn:Ea; [|].
  - destruct Ha as (_ & [? [j f]] & -> & b & Hb & Hid & Hl & Hin). simpl in *. subst j. intros Hr.
    destruct (lookup_lt_is_Some_2 (c_values (array f)) i) as [x Hx];
      [apply lookup_lt_Some in Hv; rewrite length_fmap in Hl; lia|].
    rewrite Hx. simpl. eapply L_unions; [done..|]. eapply Hin; [|done..]. by rewrite list_lookup_fmap, Hv.
  - rewrite Ha. simpl. intros _.
    exact (L_unions_none can_cast_types cast_value_safe makes_list parse_decimal (into self) _ _ _ _ v Hg Ea).
Qed.
End Nested.

(** *** Any types *)

(** What each arm's types are. *)
Definition arm_types (from to : DataType) (a : Arm) : Prop :=
  match a with
  | A_Unions f t d => (∃ b, from = Union f b) ∧ to = Union t d
  | A_UnionTo f => ∃ b, from = Union f b
  | A_Wrap t d => to = Union t d
  | A_Structs f t => from = Struct f ∧ to = Struct t
  | A_Lists e i => from = List e ∧ to = List i
  | A_AsList e i => list_item from = Some e ∧ to = List i
  | A_Maps f t s => (∃ b, from = Map f b) ∧ to = Map t s
  | A_Kdi _ => False
  | _ => True
  end.
Lemma arm_has_types from to : arm_types from to (arm from to None).
Proof.
  unfold arm. destruct (dense_union from) as [[f b]|] eqn:Ef, (dense_union to) as [[t d]|] eqn:Et.
  1-3: destruct from; try done; destruct to; try done; simpl in *; simplify_eq; naive_solver.
  replace (if decide (to = Utf8) then None else None) with (@None KdiPlace) by (by destruct (decide (to = Utf8))).
  destruct (decide (from = Null)); [done|].
  destruct (struct_fields from) as [f|] eqn:E1, (struct_fields to) as [t|] eqn:E2.
  { destruct from, to; simplify_eq; simpl in *; by simplify_eq. }
  all: destruct (list_of from) as [f'|] eqn:E3, (list_of to) as [t'|] eqn:E4.
  all: try (destruct from; try done; destruct to; try done; simpl in *; simplify_eq; done).
  all: destruct (list_kind from) as [k|] eqn:E5; try (destruct from; try done; destruct to; try done; simpl in *; simplify_eq; done).
  all: destruct from; try done; destruct to; try done; simpl in *; simplify_eq; try done.
  all: repeat match goal with |- arm_types _ _ (match ?x with _ => _ end) => destruct x end; try done; naive_solver.
Qed.

Lemma fits_smaller n from to f t : fits (S n) from to → (size f + size t < size from + size to)%nat →
  readable f = true → buildable t = true → fits n f t.
Proof. intros (H & _ & _) Hs Hr Hb. split_and!; [lia|done..]. Qed.
Lemma readable_item t e : list_item t = Some e → readable t = true → readable (f_type e) = true.
Proof. destruct t; try done; intros [= <-]; destruct item; done. Qed.

Section Fit.
Context (can_cast_types : DataType → DataType → bool).
Context (cast_value_safe : DataType → DataType → Value → option Value).
Context (makes_list : DataType → DataType → bool).
Context (parse_decimal : DataType → JsonText.text → option Z).
Context (from_f64 : f64 → option JsonText.text) (quoted : JsonText.text → JsonText.text).
Context (self : Fitter).
Abbreviation answered := (answered can_cast_types cast_value_safe makes_list parse_decimal (into self)).
Abbreviation fit_at := (fit_at can_cast_types cast_value_safe makes_list parse_decimal from_f64 quoted self).
Abbreviation fit := (fit can_cast_types cast_value_safe makes_list parse_decimal from_f64 quoted self).

Lemma fit_at_answers fuel c to path : fits fuel (c_type c) to →
  ∃ f m, fit_at fuel c to path false None = Ok (f, m) ∧ answered c to f.
Proof.
  revert c to path. induction fuel as [|n IH]; intros c to path Hfits.
  { exfalso. destruct Hfits as (H & _ & _). destruct to; simpl in H; lia. }
  cbn [Conform.fit_at kdi_work]. rewrite andb_true_r. destruct (bool_decide_reflect (c_type c = to)) as [<-|Hne].
  { eexists _, _. split; [done|]. apply answered_clean. }
  pose proof (arm_has_types (c_type c) to) as Ht. assert (Hg : goes (c_type c) to (arm (c_type c) to None)) by done.
  destruct Hfits as (Hsz & Hr & Hb).
  assert (Hsub : ∀ f t, (size f + size t < size (c_type c) + size to)%nat → readable f = true → buildable t = true →
    fits n f t) by (intros f t; by apply fits_smaller).
  destruct (arm (c_type c) to None) as [from fields d|from|fields d|k| |fs gs|e i|e i|fe e s|p s| |] eqn:Ha; cbn [arm_types] in Ht.
  - destruct Ht as [[b Hfrom] ->]. rewrite Hfrom in *. destruct (buildable_union _ _ Hb) as [-> Hne'].
    eapply unions_answered; [exact IH|by rewrite Hfrom|done|].
    intros x y Hx Hy. pose proof (size_child _ b _ Hx). pose proof (size_child _ true _ Hy).
    apply Hsub; [lia|by eapply readable_branch|by eapply buildable_branch].
  - destruct Ht as [b Hfrom]. rewrite Hfrom in *. eapply union_to_answered; [exact IH|by rewrite Hfrom|].
    intros x Hx. pose proof (size_child _ b _ Hx). apply Hsub; [lia|by eapply readable_branch|done].
  - subst to. destruct (buildable_union _ _ Hb) as [-> Hne']. eapply wrap_answered; [exact IH|done..|].
    intros y Hy. pose proof (size_child _ true _ Hy). apply Hsub; [lia|done|by eapply buildable_branch].
  - done.
  - eexists _, _. split; [done|]. by apply null_answered.
  - destruct Ht as [Hfrom ->]. rewrite Hfrom in *. eapply structs_answered; [exact IH|by rewrite Hfrom| |].
    + intros x y Hx Hy. pose proof (size_field _ _ Hx). pose proof (size_field _ _ Hy).
      apply Hsub; [lia|by eapply readable_field|by eapply buildable_field].
    + intros g Hgs. by eapply buildable_field.
  - destruct Ht as [Hfrom ->]. rewrite Hfrom in *. destruct (buildable_item _ Hb) as [Hbi Hfi].
    eapply list_answered; [exact IH|left; by rewrite Hfrom| |done].
    pose proof (size_item (List e) e eq_refl). pose proof (size_item (List i) i eq_refl).
    apply Hsub; [lia|by apply (readable_item (List e))|done].
  - destruct Ht as [Hfrom ->]. destruct (buildable_item _ Hb) as [Hbi Hfi].
    destruct (makes_list (c_type c) (List e)) eqn:Hm.
    + eapply list_answered; [exact IH|right; done| |done].
      pose proof (size_item _ _ Hfrom). pose proof (size_item (List i) i eq_refl).
      apply Hsub; [lia|exact (readable_item _ _ Hfrom Hr)|done].
    + eexists _, _. split; [done|]. apply refused_answered. right. by exists e, i.
  - destruct Ht as [[b Hfrom] ->]. rewrite Hfrom in *.
    destruct (buildable_entries _ _ Hb) as (k & v & Hkv & He & Hbk & Hfk & Hbv & Hfv).
    destruct (readable_entries _ _ Hr) as (fk & fv & Hfkv & Hrk & Hrv).
    destruct (size_entries (Map fe b) fe _ _ eq_refl Hfkv). destruct (size_entries (Map e s) e _ _ eq_refl Hkv).
    eapply map_answered; [exact IH|by rewrite Hfrom|done..| | |done|done]; apply Hsub; try done; lia.
  - eexists _, _. split; [done|]. by apply decimal_answered.
  - eexists _, _. split; [done|]. apply refused_answered. by left.
  - eexists _, _. split; [done|]. by apply plain_answered.
Qed.

(** [fit] builds an array of the type, and of each row says what it lands as or why it lands
    nowhere. *)
Lemma fit_answers c to path : readable (c_type c) = true → buildable to = true →
  ∃ f m, fit c to path false None = Ok (f, m) ∧ answered c to f.
Proof. intros Hr Hb. by apply fit_at_answers. Qed.
End Fit.
