(* ===== verification/ConformBatch.v ===== *)
(** * ConformBatch: a batch conforms to the target row by row (src/kafka/conform.rs)

    What [Conformer::conform] makes of a batch, column by column with [fit], is what each of its
    rows is by itself; and what it has conformed is then cast to the target without stopping. *)

From Stdlib Require Import ZArith Lia.
From stdpp Require Import base list strings gmap.
From S2P Require Import Prelude Error F64 JsonText Schema Fractions Coerce Union Kdi Conform ConformCorrect ConformNested.

Open Scope Z_scope.
Open Scope ddi_scope.

Lemma fits_fields_Forall2 {V} n fs (cs : list (Schema.Column V)) :
  fits_fields n fs cs = true ↔ Forall2 (λ f c, fits_field n f c = true) fs cs.
Proof.
  split.
  - revert cs. induction fs as [|f fs IH]; intros [|c cs]; try done; simpl; intros H; constructor;
      apply andb_true_iff in H as [? ?]; [done|by apply IH].
  - induction 1 as [|f c fs cs Hf _ IH]; [done|]. simpl. by rewrite Hf.
Qed.
Lemma fits_field_iff {V} n f (c : Schema.Column V) : fits_field n f c = true ↔
  c_type c = f_type f ∧ length (c_values c) = n ∧ (f_nullable f = true ∨ null_count c = 0%nat).
Proof. unfold fits_field. rewrite !andb_true_iff, orb_true_iff, !bool_decide_eq_true. tauto. Qed.

(** What Arrow keeps of a batch: a column of its type and of every row for each field. *)
Definition well_formed (b : Batch) : Prop := fits_fields (num_rows b) (b_schema b) (b_columns b) = true.

Lemma well_formed_regular b : well_formed b → regular b.
Proof.
  intros H%fits_fields_Forall2. unfold regular. rewrite Forall_forall. intros c Hc.
  apply list_elem_of_lookup_1 in Hc as [i Hi]. destruct (Forall2_lookup_r _ _ _ _ _ H Hi) as (f & _ & Hf).
  by apply fits_field_iff in Hf as (_ & ? & _).
Qed.

Lemma position_names name a b : f_name <$> a = f_name <$> b → position name a = position name b.
Proof.
  unfold position. revert b. induction a as [|f a IH]; intros [|g b] H; try done. csimpl in *. injection H as Hn H.
  rewrite Hn. destruct (decide (f_name g = name)); [done|].
  specialize (IH b H). destruct (list_find (λ f, f_name f = name) a) as [[? ?]|], (list_find (λ f, f_name f = name) b) as [[? ?]|];
    simpl in *; by simplify_eq.
Qed.
Lemma position_lt name fs j : position name fs = Some j → (j < length fs)%nat.
Proof. intros (f & H & _)%position_lookup. by eapply lookup_lt_Some. Qed.

(** The rows set aside: as they arrived, each with a reason. *)
Definition set_aside (b : Batch) (keep : list bool) (rejected : option Rejected) : Prop :=
  match rejected with
  | None => Forall (λ k, k = true) keep
  | Some r => rj_rows r = filter_batch (negb <$> keep) b ∧ ¬ Forall (λ k, k = true) keep ∧
              length (rj_reasons r) = num_rows (rj_rows r) ∧ length (rj_columns r) = num_rows (rj_rows r)
  end.

Lemma split_rows b out bad : regular out → num_rows out = num_rows b → length bad = num_rows b →
  let keep := Coerce.is_none <$> bad in
  ∃ rejected, split b out bad = (filter_batch keep out, rejected) ∧ set_aside b keep rejected.
Proof.
  intros Hout Hn Hl keep. unfold split. destruct (forallb Coerce.is_none bad) eqn:E.
  - exists None. assert (Hk : Forall (λ k, k = true) keep).
    { unfold keep. apply Forall_fmap, Forall_forall. intros x Hx. rewrite forallb_forall in E. by apply E, list_elem_of_In. }
    split; [|done]. f_equal. symmetry. apply filter_batch_all; [done|unfold keep; by rewrite length_fmap, Hl|done].
  - eexists. split; [done|]. simpl. split_and!; [done| | |].
    + intros Hk. apply forallb_false in E as (x & Hx & Hf). rewrite Forall_forall in Hk.
      rewrite (Hk (Coerce.is_none x)) in Hf; [done|]. by apply list_elem_of_fmap_2.
    + rewrite length_fmap. by rewrite (length_refusals bad (seq 0 (num_rows b))) by (by rewrite length_seq).
    + rewrite length_fmap. by rewrite (length_refusals bad (seq 0 (num_rows b))) by (by rewrite length_seq).
Qed.
Lemma note_bad_nth name f (bad : list (option (string * Reason))) i : (i < length bad)%nat →
  nth i (note_bad name f bad) None = None ↔ nth i bad None = None ∧ reason f i = None.
Proof.
  intros [x Hx]%lookup_lt_is_Some_2. rewrite (nth_lookup_Some _ _ None _ Hx).
  rewrite (nth_lookup_Some _ _ None (or_else x ((λ r, (name, r)) <$> reason f i))) by (unfold note_bad; by rewrite list_lookup_imap, Hx).
  rewrite or_else_none. destruct (reason f i); simpl; naive_solver.
Qed.
Lemma keep_nth (bad : list (option (string * Reason))) i : (i < length bad)%nat →
  (Coerce.is_none <$> bad) !! i = Some true ↔ nth i bad None = None.
Proof.
  intros [x Hx]%lookup_lt_is_Some_2. rewrite list_lookup_fmap, Hx, (nth_lookup_Some _ _ None _ Hx). simpl. by destruct x.
Qed.

Section Batch.
Context (can_cast_types : DataType → DataType → bool).
Context (cast_value_safe : DataType → DataType → Value → option Value).
Context (makes_list : DataType → DataType → bool).
Context (parse_decimal : DataType → JsonText.text → option Z).
Context (from_f64 : f64 → option JsonText.text) (quoted : JsonText.text → JsonText.text).
Abbreviation lands := (lands can_cast_types cast_value_safe makes_list parse_decimal IntoTarget).
Abbreviation answered := (answered can_cast_types cast_value_safe makes_list parse_decimal).
Abbreviation fit := (fit can_cast_types cast_value_safe makes_list parse_decimal from_f64 quoted).
Abbreviation conform_field := (conform_field can_cast_types cast_value_safe makes_list parse_decimal from_f64 quoted).
Abbreviation conform_fields := (conform_fields can_cast_types cast_value_safe makes_list parse_decimal from_f64 quoted).
Abbreviation conform := (conform can_cast_types cast_value_safe makes_list parse_decimal from_f64 quoted).

(** A column that is left for the cast to the target's types. *)
Definition plain (from to : DataType) : bool :=
  negb (bool_decide (from = to)) && match arm from to None with A_Plain => true | _ => false end.

(** What a value of a column is, conformed to the target's field. *)
Definition column_lands (f : Field) (col : Column) (v y : option Value) : Prop :=
  if plain (c_type col) (f_type f) then y = v else lands (c_type col) (f_type f) v y.

Lemma fit_top self c to path :
  fit self c to path true None = if plain (c_type c) to then Ok (clean c, []) else fit self c to path false None.
Proof.
  unfold Conform.fit, plain. destruct (size (c_type c) + size to)%nat as [|n] eqn:E; [destruct to; simpl in E; lia|].
  cbn [Conform.fit_at kdi_work]. rewrite andb_true_r. destruct (bool_decide (c_type c = to)); [done|]. simpl.
  pose proof (arm_has_types (c_type c) to) as H. by destruct (arm (c_type c) to None).
Qed.

Lemma fit_top_spec c b f : readable (c_type c) = true → buildable (f_type f) = true → union_free (f_type f) = true →
  ∃ x m, fit (target_fitter b) c (f_type f) (f_name f) true None = Ok (x, m) ∧
    c_type (array x) = (if plain (c_type c) (f_type f) then c_type c else f_type f) ∧
    length (c_values (array x)) = length (c_values c) ∧
    ∀ i v, c_values c !! i = Some v → ∃ y, c_values (array x) !! i = Some y ∧
      (reason x i = None → column_lands f c v y) ∧ (∀ z, column_lands f c v z → reason x i = None ∧ z = y).
Proof.
  intros Hr Hb Hu. rewrite fit_top. unfold column_lands. destruct (plain (c_type c) (f_type f)).
  - eexists _, _. split; [done|]. split_and!; [done..|]. intros i v Hv. exists v. split_and!; [done..|].
    intros z ->. by destruct i.
  - destruct (fit_answers can_cast_types cast_value_safe makes_list parse_decimal from_f64 quoted (target_fitter b) c (f_type f) (f_name f) Hr Hb)
      as (x & m & Hx & Ha). exists x, m. split_and!; [done|apply Ha|by eapply answered_length|].
    intros i v Hv. destruct (answered_at _ _ _ _ _ _ _ _ _ _ Ha Hv) as (y & Hy & Hs & Hc). exists y.
    split_and!; [done..|]. by apply Hc.
Qed.

(** *** The columns one after the other *)

Context (c : Conformer) (b : Batch).
Hypothesis no_text : any_text (text c) = false.
Hypothesis arrow : well_formed b.
Hypothesis has_columns : b_columns b ≠ [].
Hypothesis names : NoDup (f_name <$> target c).
Hypothesis types : ∀ f, f ∈ target c → buildable (f_type f) = true ∧ union_free (f_type f) = true.
Hypothesis rows_read : ∀ col, col ∈ b_columns b → readable (c_type col) = true.

(** What [fit] makes of a target's column. *)
Definition fitted_column (f : Field) : option Fitted :=
  col ← column_of b (f_name f);
  match fit (target_fitter c) col (f_type f) (f_name f) true None with Ok r => Some r.1 | Err _ => None end.

Lemma column_of_at name j : position name (b_schema b) = Some j → ∃ col, b_columns b !! j = Some col ∧ column_of b name = Some col.
Proof.
  intros H. pose proof (position_lt _ _ _ H) as Hj. pose proof arrow as Ha%fits_fields_Forall2%Forall2_length.
  destruct (lookup_lt_is_Some_2 (b_columns b) j) as [col Hc]; [lia|]. exists col. split; [done|].
  unfold column_of. by rewrite H.
Qed.

Lemma fitted_column_spec f col : f ∈ target c → column_of b (f_name f) = Some col →
  ∃ x, fitted_column f = Some x ∧ (∃ m, fit (target_fitter c) col (f_type f) (f_name f) true None = Ok (x, m)) ∧
    c_type (array x) = (if plain (c_type col) (f_type f) then c_type col else f_type f) ∧
    length (c_values (array x)) = num_rows b ∧
    ∀ i v, c_values col !! i = Some v → ∃ y, c_values (array x) !! i = Some y ∧
      (reason x i = None → column_lands f col v y) ∧ (∀ z, column_lands f col v z → reason x i = None ∧ z = y).
Proof.
  intros Hf Hcol. destruct (types f Hf) as [Hb Hu].
  assert (Hr : readable (c_type col) = true).
  { apply rows_read. unfold column_of in Hcol. destruct (position _ _); [|done]. by eapply list_elem_of_lookup_2. }
  destruct (fit_top_spec col c f Hr Hb Hu) as (x & m & Hx & Ht & Hl & Hrows). exists x.
  rewrite (column_rows b _ _ (well_formed_regular b arrow) Hcol) in Hl.
  split_and!; [|by exists m|done..]. unfold fitted_column. rewrite Hcol. simpl. by rewrite Hx.
Qed.

(** The loop, after some of the target's fields. *)
Record conforming (fs : Schema) (s : Conforming) : Prop := {
  cg_fits : fits_fields (num_rows b) (co_fields s) (co_columns s) = true;
  cg_names : f_name <$> co_fields s = f_name <$> b_schema b;
  cg_done f j : f ∈ fs → position (f_name f) (b_schema b) = Some j →
    ∃ x, fitted_column f = Some x ∧ co_columns s !! j = Some (array x);
  cg_rest name j : name ∉ f_name <$> fs → position name (b_schema b) = Some j → co_columns s !! j = b_columns b !! j;
  cg_length : length (co_bad s) = num_rows b;
  cg_bad i : (i < num_rows b)%nat →
    nth i (co_bad s) None = None ↔ ∀ f x, f ∈ fs → fitted_column f = Some x → reason x i = None }.

Lemma conform_step fs f s : f ∈ target c → f_name f ∉ f_name <$> fs → conforming fs s →
  ∃ s', conform_field c None (b_schema b) s f = Ok s' ∧ conforming (fs ++ [f]) s'.
Proof.
  intros Hf Hnew [H1 H2 H3 H4 H5 H6]. unfold Conform.conform_field.
  destruct (position (f_name f) (b_schema b)) as [j|] eqn:Hp.
  - destruct (column_of_at _ _ Hp) as (col & Hj & Hcol). rewrite (H4 _ _ Hnew Hp), Hj.
    destruct (fitted_column_spec f col Hf Hcol) as (x & Hx & (m & Hfit) & Ht & Hl & _). rewrite Hfit. simpl.
    eexists. split; [done|]. split; simpl.
    + apply fits_fields_Forall2, Forall2_insert; [by apply fits_fields_Forall2|]. apply fits_field_iff. simpl. auto.
    + rewrite list_fmap_insert, H2. apply list_insert_id. simpl. destruct (position_lookup _ _ _ Hp) as (g & Hg & Hn).
      by rewrite list_lookup_fmap, Hg, <-Hn.
    + intros g k [Hg| ->%list_elem_of_singleton]%elem_of_app Hk.
      * destruct (H3 g k Hg Hk) as (y & Hy & Hky). exists y. split; [done|]. rewrite list_lookup_insert_ne; [done|].
        intros ->. apply Hnew. apply list_elem_of_fmap. exists g. split; [|done].
        destruct (position_lookup _ _ _ Hp) as (g1 & Hg1 & <-), (position_lookup _ _ _ Hk) as (g2 & Hg2 & <-). congruence.
      * simplify_eq. exists x. split; [done|]. apply list_lookup_insert_eq.
        apply fits_fields_Forall2, Forall2_length in H1. rewrite <-H1, <-(length_fmap f_name), H2, length_fmap. by eapply position_lt.
    + intros name k Hname Hk. rewrite fmap_app, not_elem_of_app in Hname. destruct Hname as [Hn1 Hn2].
      rewrite list_lookup_insert_ne; [by eapply H4|]. intros <-. apply Hn2. simpl.
      destruct (position_lookup _ _ _ Hp) as (g1 & Hg1 & Hn), (position_lookup _ _ _ Hk) as (g2 & Hg2 & <-).
      assert (g1 = g2) as -> by congruence. rewrite Hn. by left.
    + unfold note_bad. by rewrite length_imap.
    + intros i Hi. rewrite note_bad_nth, H6 by (lia || done). split.
      * intros [Ha Hb] g y [Hg| ->%list_elem_of_singleton]%elem_of_app Hy; [by eapply Ha|]. by simplify_eq.
      * intros Ha. split; [intros g y Hg; apply Ha, elem_of_app; by left|].
        apply (Ha f x); [apply elem_of_app; right; by left|done].
  - eexists. split; [done|]. split; simpl; [done|done| |  |done|].
    + intros g k [Hg| ->%list_elem_of_singleton]%elem_of_app Hk; [by eapply H3|congruence].
    + intros name k Hname. apply H4. intros Hn. apply Hname. rewrite fmap_app. apply elem_of_app. by left.
    + intros i Hi. rewrite H6 by done. split.
      * intros Ha g y [Hg| ->%list_elem_of_singleton]%elem_of_app Hy; [by eapply Ha|].
        unfold fitted_column, column_of in Hy. by rewrite Hp in Hy.
      * intros Ha g y Hg. apply Ha, elem_of_app. by left.
Qed.

Lemma conform_steps fs gs s : fs ++ gs = target c → conforming fs s →
  ∃ s', conform_fields c None (b_schema b) s gs = Ok s' ∧ conforming (target c) s'.
Proof.
  revert fs s. induction gs as [|g gs IH]; intros fs s Hts Hs; simpl.
  - rewrite app_nil_r in Hts. subst. by exists s.
  - destruct (conform_step fs g s) as (s1 & -> & Hs1).
    + rewrite <-Hts. apply elem_of_app. right. by left.
    + pose proof names as Hn. rewrite <-Hts, fmap_app in Hn. apply NoDup_app in Hn as (_ & Hn & _).
      intros Hin. apply (Hn _ Hin). by left.
    + done.
    + simpl. apply (IH (fs ++ [g])); [by rewrite <-app_assoc|done].
Qed.

Lemma conforming_start : conforming [] {| co_fields := b_schema b; co_columns := b_columns b;
  co_bad := replicate (num_rows b) None; co_unmatched := [] |}.
Proof.
  split; simpl; try done; [by intros ? ? ?%elem_of_nil|by rewrite length_replicate|].
  intros i Hi. rewrite (nth_lookup_Some _ _ None None) by (by apply lookup_replicate_2). split; [by intros _ ? ? ?%elem_of_nil|done].
Qed.

Lemma conformed : ∃ c' s, conforming (target c) s ∧
  conform c b = (c', Ok (split b (Build_Batch (co_fields s) (co_columns s) (num_rows b)) (co_bad s))).
Proof.
  destruct (conform_steps [] (target c) _ eq_refl conforming_start) as (s & Hs & Hc).
  unfold Conform.conform. rewrite no_text. destruct (writer_ids c b) as [ids approx]. cbn [andb].
  rewrite Hs. eexists _, s. split; [done|]. f_equal. unfold new_batch, try_new.
  destruct Hc as [H1 H2 _ _ _ _]. pose proof H1 as H1'%fits_fields_Forall2.
  destruct (co_columns s) as [|col cols] eqn:Ec.
  - exfalso. apply has_columns. apply Forall2_length in H1'. pose proof arrow as Ha%fits_fields_Forall2%Forall2_length.
    apply (f_equal length) in H2. rewrite !length_fmap in H2. simpl in *. destruct (b_columns b); [done|]. simpl in *. lia.
  - assert (Hl : length (c_values col) = num_rows b).
    { destruct (co_fields s) as [|f fs]; [by inversion H1'|]. apply Forall2_cons in H1' as [Hf _].
      by apply fits_field_iff in Hf as (_ & ? & _). }
    rewrite Hl, H1. done.
Qed.

(** A row goes when each of its values that the target has a field for lands in it. *)
Definition row_lands (i : nat) : Prop :=
  ∀ f col v, f ∈ target c → column_of b (f_name f) = Some col → c_values col !! i = Some v → ∃ y, column_lands f col v y.

Lemma kept_rows s i : conforming (target c) s → (i < num_rows b)%nat →
  nth i (co_bad s) None = None ↔ row_lands i.
Proof.
  intros [_ _ _ _ _ H] Hi. rewrite (H i Hi). split.
  - intros Hr f col v Hf Hcol Hv. destruct (fitted_column_spec f col Hf Hcol) as (x & Hx & _ & _ & _ & Hrow).
    destruct (Hrow i v Hv) as (y & _ & Hs & _). exists y. by apply Hs, (Hr f x).
  - intros Hr f x Hf Hx. unfold fitted_column in Hx. destruct (column_of b (f_name f)) as [col|] eqn:Hcol; [|done]. simpl in Hx.
    destruct (fitted_column_spec f col Hf Hcol) as (x' & Hx' & (m & Hfit) & _ & _ & Hrow). rewrite Hfit in Hx. simplify_eq.
    destruct (lookup_lt_is_Some_2 (c_values col) i) as [v Hv];
      [by rewrite (column_rows b _ _ (well_formed_regular b arrow) Hcol)|].
    destruct (Hrow i v Hv) as (y & _ & _ & Hc). destruct (Hr f col v Hf Hcol Hv) as [z Hz]. by apply (Hc z).
Qed.

(** What the rows that go are. *)
Definition rows_conform (keep : list bool) (out : Batch) : Prop :=
  f_name <$> b_schema out = f_name <$> b_schema b ∧
  (∀ f col, f ∈ target c → column_of b (f_name f) = Some col →
     ∃ col', column_of out (f_name f) = Some col' ∧
       c_type col' = (if plain (c_type col) (f_type f) then c_type col else f_type f) ∧
       Forall2 (column_lands f col) (select keep (c_values col)) (c_values col')) ∧
  (∀ name col, name ∉ f_name <$> target c → column_of b name = Some col → column_of out name = Some (filter_column keep col)).

Lemma rows_conformed s keep : conforming (target c) s → length keep = num_rows b →
  (∀ i, keep !! i = Some true → row_lands i) →
  rows_conform keep (filter_batch keep (Build_Batch (co_fields s) (co_columns s) (num_rows b))).
Proof.
  intros Hs Hk Hrows. destruct Hs as [H1 H2 H3 H4 H5 H6] eqn:Es. split_and!; [done| |].
  - intros f col Hf Hcol. destruct (fitted_column_spec f col Hf Hcol) as (x & Hx & _ & Ht & Hl & Hrow).
    pose proof Hcol as Hcol'. unfold column_of in Hcol'. destruct (position (f_name f) (b_schema b)) as [j|] eqn:Hp; [|done].
    destruct (H3 f j Hf Hp) as (x' & Hx' & Hj). simplify_eq. exists (filter_column keep (array x)). split_and!; [|done|].
    + unfold column_of, filter_batch. simpl. rewrite (position_names _ _ _ H2), Hp. simpl. by rewrite list_lookup_fmap, Hj.
    + apply select_Forall2; [rewrite Hl; by apply (column_rows b _ _ (well_formed_regular b arrow) Hcol)|].
      intros i v y Hi Hv Hy. destruct (Hrow i v Hv) as (y' & Hy' & Hs' & Hc'). simplify_eq.
      destruct (Hrows i Hi f col v Hf Hcol Hv) as [z Hz]. apply Hs'. by apply (Hc' z).
  - intros name col Hn Hcol. unfold column_of in Hcol. destruct (position name (b_schema b)) as [j|] eqn:Hp; [|done]. simpl in Hcol.
    unfold column_of, filter_batch. simpl. rewrite (position_names _ _ _ H2), Hp. simpl.
    by rewrite list_lookup_fmap, (H4 _ _ Hn Hp), Hcol.
Qed.

Lemma split_spec s : conforming (target c) s → let keep := Coerce.is_none <$> co_bad s in
  let out := Build_Batch (co_fields s) (co_columns s) (num_rows b) in
  ∃ rejected, split b out (co_bad s) = (filter_batch keep out, rejected) ∧ set_aside b keep rejected.
Proof. intros [H1 _ _ _ H5 _]. by apply split_rows, H5; [apply well_formed_regular|]. Qed.


(** *** And then cast *)

Lemma plain_flat from to : plain from to = true → is_nested to = false.
Proof.
  unfold plain. intros [_ H]%andb_true_iff. destruct (is_nested to) eqn:E; [|done]. exfalso. revert H. unfold arm. rewrite E.
  repeat match goal with |- context [match ?x with _ => _ end] =>
    lazymatch x with context [match _ with _ => _ end] => fail | _ => idtac end; destruct x end; try done.
Qed.

Context (cast_value : DataType → DataType → Value → option Value).
Hypothesis safe_makes_nulls : ∀ from to v, is_nested to || is_nested from = false →
  cast_value_safe from to v = cast_value from to v.
Context (coercer : SchemaCoercer).
Hypothesis same_target : Coerce.target coercer = target c.

End Batch.

(** ** Into the union *)

Lemma none_exists {A} (p : A → bool) l : (∀ x, x ∈ l → p x = false) → existsb p l = false.
Proof.
  intros H. destruct (existsb p l) eqn:E; [|done]. apply existsb_exists in E as (x & Hx & Hp).
  rewrite H in Hp; [done|by apply list_elem_of_In].
Qed.

Section Align.
Context (can_cast_types : DataType → DataType → bool).
Context (cast_value_safe : DataType → DataType → Value → option Value).
Context (makes_list : DataType → DataType → bool).
Context (parse_decimal : DataType → JsonText.text → option Z).
Context (from_f64 : f64 → option JsonText.text) (quoted : JsonText.text → JsonText.text).
Abbreviation lands := (lands can_cast_types cast_value_safe makes_list parse_decimal IntoUnion).
Abbreviation fit := (fit can_cast_types cast_value_safe makes_list parse_decimal from_f64 quoted).
Abbreviation align_field := (align_field can_cast_types cast_value_safe makes_list parse_decimal from_f64 quoted).
Abbreviation align_fields := (align_fields can_cast_types cast_value_safe makes_list parse_decimal from_f64 quoted).
Abbreviation align := (align can_cast_types cast_value_safe makes_list parse_decimal from_f64 quoted).

Context (u : UnionSchema) (b : Batch).
Hypothesis arrow : well_formed b.
Hypothesis types : ∀ f, f ∈ Union.schema u → f_nullable f = true ∧ buildable (f_type f) = true.
Hypothesis rows_read : ∀ col, col ∈ b_columns b → readable (c_type col) = true.

(** A column of the union, of the rows: what fitting says of each. *)
Definition aligned_column (f : Field) (x : Fitted) : Prop :=
  c_type (array x) = f_type f ∧ length (c_values (array x)) = num_rows b ∧
  match column_of b (f_name f) with
  | Some col => ∀ i v, c_values col !! i = Some v → ∃ y, c_values (array x) !! i = Some y ∧
      (reason x i = None → lands (c_type col) (f_type f) v y) ∧
      (union_free (f_type f) = true → ∀ z, lands (c_type col) (f_type f) v z → reason x i = None ∧ z = y)
  | None => array x = nulls_of (f_type f) (num_rows b) ∧ reasons x = []
  end.

Lemma align_field_spec w f bad : f ∈ Union.schema u → length bad = num_rows b →
  ∃ x bad', align_field u w b f bad = Ok (array x, bad') ∧ aligned_column f x ∧ length bad' = num_rows b ∧
    ∀ i, (i < num_rows b)%nat → nth i bad' None = None ↔ nth i bad None = None ∧ reason x i = None.
Proof.
  intros Hf Hl. unfold Conform.align_field, aligned_column. destruct (column_of b (f_name f)) as [col|] eqn:Hcol.
  - destruct (types f Hf) as [_ Hb]. pose proof Hcol as Hc. unfold column_of in Hc. destruct (position _ _); [|done].
    assert (Hr : readable (c_type col) = true) by (by eapply rows_read, list_elem_of_lookup_2).
    destruct (fit_answers can_cast_types cast_value_safe makes_list parse_decimal from_f64 quoted (union_fitter u w) col (f_type f) (f_name f) Hr Hb)
      as (x & m & -> & Ha). exists x. eexists. split; [done|]. split_and!; [apply Ha| | | |].
    + rewrite (answered_length _ _ _ _ _ _ _ _ Ha). apply (column_rows b _ _ (well_formed_regular b arrow) Hcol).
    + intros i v Hv. destruct (answered_at _ _ _ _ _ _ _ _ _ _ Ha Hv) as (y & Hy & Hs & Hc'). by exists y.
    + unfold note_bad. by rewrite length_imap.
    + intros i Hi. apply note_bad_nth. by rewrite Hl.
  - exists (clean (nulls_of (f_type f) (num_rows b))), bad. split; [done|]. split_and!; [done|simpl; by rewrite length_replicate|done..|].
    intros i Hi. unfold reason. simpl. destruct i; naive_solver.
Qed.

Lemma align_fields_spec w fs bad : (∀ f, f ∈ fs → f ∈ Union.schema u) → length bad = num_rows b →
  ∃ xs bad', align_fields u w b fs bad = Ok (array <$> xs, bad') ∧ Forall2 aligned_column fs xs ∧ length bad' = num_rows b ∧
    ∀ i, (i < num_rows b)%nat → nth i bad' None = None ↔ nth i bad None = None ∧ Forall (λ x, reason x i = None) xs.
Proof.
  revert bad. induction fs as [|f fs IH]; intros bad Hin Hl; simpl.
  - exists [], bad. split_and!; [done..|]. intros i Hi. naive_solver.
  - destruct (align_field_spec w f bad) as (x & bad1 & -> & Hx & Hl1 & Hb1); [apply Hin; by left|done|]. simpl.
    destruct (IH bad1) as (xs & bad2 & -> & Hxs & Hl2 & Hb2); [intros; apply Hin; by right|done|]. simpl.
    exists (x :: xs), bad2. split_and!; [done|by constructor|done|]. intros i Hi. rewrite Hb2, Hb1, Forall_cons by done. tauto.
Qed.

(** A row goes when each of its values that the union has a field for lands there, and none is
    another than it was ([same_back]). *)
Definition row_aligns (i : nat) : Prop :=
  ∀ f col v, f ∈ Union.schema u → column_of b (f_name f) = Some col → c_values col !! i = Some v →
    ∃ y, lands (c_type col) (f_type f) v y.

Definition column_aligned (keep : list bool) (f : Field) (col' : Column) : Prop :=
  c_type col' = f_type f ∧
  match column_of b (f_name f) with
  | Some col => Forall2 (lands (c_type col) (f_type f)) (select keep (c_values col)) (c_values col')
  | None => c_values col' = replicate (length (select keep (seq 0 (num_rows b)))) (null_of (f_type f))
  end.

Lemma aligned_fit fs xs : (∀ f, f ∈ fs → f_nullable f = true) → Forall2 aligned_column fs xs →
  fits_fields (num_rows b) fs (array <$> xs) = true.
Proof.
  intros Hn H. apply fits_fields_Forall2, Forall2_fmap_r. induction H as [|f x fs xs (Ht & Hl & _) _ IH]; constructor.
  - apply fits_field_iff. split_and!; [done..|]. left. apply Hn. by left.
  - apply IH. intros; apply Hn; by right.
Qed.
Lemma try_new_fits fs cs : fs ≠ [] → fits_fields (num_rows b) fs cs = true →
  new_batch fs cs = Ok (Build_Batch fs cs (num_rows b)).
Proof.
  intros Hne H. unfold new_batch, try_new. destruct cs as [|c cs], fs as [|f fs]; try done.
  pose proof H as H'. simpl in H. apply andb_true_iff in H as [(_ & Hl & _)%fits_field_iff _]. by rewrite Hl, H'.
Qed.

Lemma aligned_rows fs xs i : (i < num_rows b)%nat → Forall2 aligned_column fs xs → Forall (λ x, reason x i = None) xs →
  ∀ f col v, f ∈ fs → column_of b (f_name f) = Some col → c_values col !! i = Some v → ∃ y, lands (c_type col) (f_type f) v y.
Proof.
  intros Hi H Hr f col v Hf Hcol Hv. apply list_elem_of_lookup_1 in Hf as [k Hk].
  destruct (Forall2_lookup_l _ _ _ _ _ H Hk) as (x & Hx & _ & _ & Hrow). rewrite Hcol in Hrow.
  destruct (Hrow i v Hv) as (y & _ & Hs & _). exists y. apply Hs. by apply (Forall_lookup_1 _ _ _ _ Hr Hx).
Qed.
Lemma rows_align fs xs i : (i < num_rows b)%nat → Forall2 aligned_column fs xs → forallb (λ f, union_free (f_type f)) fs = true →
  (∀ f col v, f ∈ fs → column_of b (f_name f) = Some col → c_values col !! i = Some v → ∃ y, lands (c_type col) (f_type f) v y) →
  Forall (λ x, reason x i = None) xs.
Proof.
  intros Hi H Hu Hl. rewrite forallb_forall in Hu. apply Forall_lookup. intros k x Hx.
  destruct (Forall2_lookup_r _ _ _ _ _ H Hx) as (f & Hf & _ & _ & Hrow). apply list_elem_of_lookup_2 in Hf.
  destruct (column_of b (f_name f)) as [col|] eqn:Hcol.
  - destruct (lookup_lt_is_Some_2 (c_values col) i) as [v Hv]; [by rewrite (column_rows b _ _ (well_formed_regular b arrow) Hcol)|].
    destruct (Hl f col v Hf Hcol Hv) as [z Hz]. destruct (Hrow i v Hv) as (y & _ & _ & Hc).
    eapply Hc; [|done]. by apply Hu, list_elem_of_In.
  - destruct Hrow as [_ Hrow]. unfold reason. rewrite Hrow. by destruct i.
Qed.
Lemma filter_aligned keep f x : length keep = num_rows b → aligned_column f x →
  (∀ i, keep !! i = Some true → reason x i = None) → column_aligned keep f (filter_column keep (array x)).
Proof.
  intros Hk (Ht & Hl & Hrow) Hr. split; [done|]. destruct (column_of b (f_name f)) as [col|] eqn:Hcol.
  - apply select_Forall2; [by rewrite Hl, (column_rows b _ _ (well_formed_regular b arrow) Hcol)|].
    intros i v y Hi Hv Hy. destruct (Hrow i v Hv) as (y' & Hy' & Hs & _). simplify_eq. by apply Hs, Hr.
  - destruct Hrow as [-> _]. simpl. apply select_replicate.
Qed.

(** C33: A decoded batch is fitted to the union of the writer schemas without a change: the rows
    that go are under the union's fields, a field their writer does not have null, and every
    value lands as one that casts back to what it was. Where the union's fields hold no unions
    a row goes exactly when its values can land; a row that does not go is set aside as it
    arrived, with a reason. *)
Theorem a_batch_is_aligned_without_a_change :
  Union.schema u ≠ [] → (∀ f, f ∈ b_schema b → is_Some (position (f_name f) (Union.schema u))) →
  (∀ x, x ∈ omap id (elements (schema_ids b (Union.prefix u))) → u32 x ∈ members u) →
  ∃ out rejected keep, align u b = Ok (out, rejected) ∧ length keep = num_rows b ∧
    b_schema out = Union.schema u ∧ Forall2 (column_aligned keep) (Union.schema u) (b_columns out) ∧
    (∀ i, (i < num_rows b)%nat → keep !! i = Some true → row_aligns i) ∧
    (forallb (λ f, union_free (f_type f)) (Union.schema u) = true →
       ∀ i, (i < num_rows b)%nat → row_aligns i → keep !! i = Some true) ∧
    set_aside b keep rejected.
Proof.
  intros Hne Hfields Hmembers. unfold Conform.align.
  rewrite none_exists by (intros f Hf; by destruct (Hfields f Hf) as [? ->]).
  rewrite none_exists by (intros x Hx; apply bool_decide_eq_false_2; intros Hn; by apply Hn, Hmembers).
  destruct (align_fields_spec (first_writer (schema_ids b (Union.prefix u))) (Union.schema u) (replicate (num_rows b) None))
    as (xs & bad & -> & Hxs & Hl & Hbad); [done|by rewrite length_replicate|]. simpl.
  rewrite try_new_fits by (done || (apply aligned_fit; [intros; by apply types|done])). simpl.
  set (keep := Coerce.is_none <$> bad). set (full := Build_Batch _ _ _).
  assert (Hrow : ∀ i, (i < num_rows b)%nat → keep !! i = Some true ↔ Forall (λ x, reason x i = None) xs).
  { intros i Hi. unfold keep. rewrite keep_nth by (by rewrite Hl). rewrite Hbad by done.
    rewrite (nth_lookup_Some _ _ None None) by (by apply lookup_replicate_2). naive_solver. }
  assert (Hk : length keep = num_rows b) by (unfold keep; by rewrite length_fmap).
  destruct (split_rows b full bad) as (rejected & -> & Hr);
    [apply (well_formed_regular full), aligned_fit; [intros; by apply types|done]|done|done|].
  exists (filter_batch keep full), rejected, keep. split_and!; [done..| | | |done]; simpl.
  - apply Forall2_fmap_r, Forall2_fmap_r. apply Forall2_same_length_lookup_2; [by eapply Forall2_length|].
    intros k f x Hf Hx. apply filter_aligned; [done|by eapply (Forall2_lookup_lr _ _ _ k) in Hxs|].
    intros i Hi. assert (i < num_rows b)%nat as Hlt by (rewrite <-Hk; by eapply lookup_lt_Some).
    apply (Hrow i Hlt) in Hi. by apply (Forall_lookup_1 _ _ _ _ Hi Hx).
  - intros i Hi Hkeep. apply (Hrow i Hi) in Hkeep. intros f col v. by eapply aligned_rows.
  - intros Hu i Hi Hal. apply Hrow; [done|]. by eapply rows_align.
Qed.
End Align.

(** ** Examples *)

(** Whole numbers narrow where they fit, and are written as text. *)
Definition fits_int (to : DataType) (z : Z) : bool :=
  match to with
  | Int32 => (-2147483648 <=? z) && (z <=? 2147483647)
  | _ => true
  end.
Definition whole_cast (from to : DataType) (v : Value) : option Value :=
  match v with
  | V_Int z => if fits_int to z then Some (V_Int z) else None
  | _ => Some v
  end.
Definition order_target : Schema :=
  [mkField "id"%string Int64 false;
   mkField "ship"%string (Struct [mkField "zip"%string Int32 true; mkField "city"%string Utf8 false]) true;
   mkField "tags"%string (List (mkField "item"%string Int32 false)) true;
   mkField "note"%string Utf8 true].
Definition order_rows : Batch :=
  {| b_schema := [mkField "tags"%string (List (mkField "element"%string Int64 true)) true;
                  mkField "ship"%string (Struct [mkField "city"%string Utf8 true; mkField "zip"%string Int64 true]) true;
                  mkField "id"%string Int32 true];
     b_columns :=
       [Build_Column (List (mkField "element"%string Int64 true))
          [Some (V_List [Some (V_Int 1); Some (V_Int 2)]); None; Some (V_List [Some (V_Int 7); None]); Some (V_List [])];
        Build_Column (Struct [mkField "city"%string Utf8 true; mkField "zip"%string Int64 true])
          [Some (V_Struct [Some (V_Text "Ulm"); Some (V_Int 89073)]); Some (V_Struct [None; Some (V_Int 1)]);
           None; Some (V_Struct [Some (V_Text "Bonn"); Some (V_Int 53111000000)])];
        Build_Column Int32 [Some (V_Int 1); Some (V_Int 2); Some (V_Int 3); Some (V_Int 4)]];
     num_rows := 4 |}.
Definition order_conformer : Conformer := new order_target "kafka_" no_kdi.
Definition conform_orders : Conformer → Batch → Conformer * result Error (Batch * option Rejected) :=
  conform (λ _ _, true) whole_cast (λ _ _, true) (λ _ _, None) (λ _, None) id.

(** The first row goes, its fields in the target's order; the others say why not. *)
Example orders_conformed :
  match (conform_orders order_conformer order_rows).2 with
  | Ok (out, Some r) =>
      (c_values <$> b_columns out, rj_reasons r, unmatched (conform_orders order_conformer order_rows).1) =
      ([[Some (V_List [Some (V_Int 1); Some (V_Int 2)])];
        [Some (V_Struct [Some (V_Int 89073); Some (V_Text "Ulm")])];
        [Some (V_Int 1)]],
       [NullIntoNotNull "ship.city"; NullIntoNotNull "tags[]"; NotConverted "ship.zip"], ["note"%string])
  | _ => False
  end.
Proof. vm_compute. reflexivity. Qed.

Lemma forall_elem_of {A} (P : A → bool) l : forallb P l = true → ∀ x, x ∈ l → P x = true.
Proof. rewrite forallb_forall. intros H x Hx. by apply H, list_elem_of_In. Qed.
Lemma order_types f : f ∈ order_target → buildable (f_type f) = true ∧ union_free (f_type f) = true.
Proof.
  intros Hf. apply andb_true_iff. revert f Hf.
  apply (forall_elem_of (λ f, buildable (f_type f) && union_free (f_type f))). vm_compute. reflexivity.
Qed.
Lemma order_reads col : col ∈ b_columns order_rows → readable (c_type col) = true.
Proof. revert col. apply (forall_elem_of (λ col : Column, readable (c_type col))). vm_compute. reflexivity. Qed.
Lemma order_names : NoDup (f_name <$> order_target).
Proof. apply (bool_decide_unpack _). vm_compute. exact I. Qed.



(** A batch of the older writer of Union's example. *)
Definition written_1 : Batch :=
  {| b_schema := [mkField "kafka_value_schema_id"%string Int32 true; mkField "id"%string Int32 true;
                  mkField "customer"%string (Struct [mkField "name"%string Utf8 true; mkField "age"%string Int32 true]) true;
                  mkField "note"%string Utf8 true];
     b_columns :=
       [Build_Column Int32 [Some (V_Int 1); Some (V_Int 1)]; Build_Column Int32 [Some (V_Int 5); Some (V_Int 6)];
        Build_Column (Struct [mkField "name"%string Utf8 true; mkField "age"%string Int32 true])
          [Some (V_Struct [Some (V_Text "Ann"); Some (V_Int 40)]); None];
        Build_Column Utf8 [None; Some (V_Text "new")]];
     num_rows := 2 |}.
Definition union_12 : UnionSchema := orders_union [1; 2].
Definition align_written : result Error (Batch * option Rejected) :=
  align (λ _ _, true) whole_cast (λ _ _, true) (λ _ _, None) (λ _, None) id union_12 written_1.

Example written_aligned :
  (λ r, (take 3 (c_values <$> b_columns r.1), r.2)) <$> ok align_written =
  Some ([[Some (V_Int 5); Some (V_Int 6)];
         [Some (V_Struct [None; Some (V_Text "Ann"); Some (V_Int 40)]); None];
         [None; Some (V_Text "new")]], None).
Proof. vm_compute. reflexivity. Qed.

Lemma a_batch_is_aligned_without_a_change_witness :
  ∃ out rejected keep, align_written = Ok (out, rejected) ∧ b_schema out = Union.schema union_12 ∧
    Forall2 (column_aligned (λ _ _, true) whole_cast (λ _ _, true) (λ _ _, None) written_1 keep)
      (Union.schema union_12) (b_columns out).
Proof.
  destruct (a_batch_is_aligned_without_a_change (λ _ _, true) whole_cast (λ _ _, true) (λ _ _, None) (λ _, None) id
    union_12 written_1) as (out & rejected & keep & H1 & _ & H2 & H3 & _).
  - reflexivity.
  - intros f Hf. apply andb_true_iff. revert f Hf.
    apply (forall_elem_of (λ f, f_nullable f && buildable (f_type f))). vm_compute. reflexivity.
  - apply (forall_elem_of (λ col : Column, readable (c_type col))). vm_compute. reflexivity.
  - vm_compute. discriminate.
  - intros f Hf. apply (bool_decide_eq_true_1 _). revert f Hf.
    apply (forall_elem_of (λ f, bool_decide (is_Some (position (f_name f) (Union.schema union_12))))). vm_compute. reflexivity.
  - intros x Hx. apply (bool_decide_eq_true_1 _). revert x Hx.
    apply (forall_elem_of (λ x, bool_decide (u32 x ∈ members union_12))). vm_compute. reflexivity.
  - exists out, rejected, keep. split; [exact H1|]. split; [exact H2|exact H3].
Defined.
