(* ===== verification/Registry.v ===== *)
(** * Registry: the Schema Registry client (src/kafka/registry.rs)

    Two requests, each tried again through an outage; a cache of the writer schemas by URL and
    id that every pipeline of the process shares; and the writer schemas the union is built
    from.  reqwest's answers and serde_json's reading of them are arguments; times are in
    milliseconds.

    A lookup waits in two places, for the cell of its id and for the network, and other lookups
    run meanwhile: it is cut into the pieces between ([lookup], [turn], [received],
    [remember]), which RegistryCorrect interleaves. *)

From Stdlib Require Import ZArith Lia.
From stdpp Require Import base list strings gmap.
From S2P Require Import Prelude Error Union.

Open Scope Z_scope.
Open Scope ddi_scope.

Definition RETRY_DELAYS : list Z := [100; 500; 2000].
Definition NOT_FOUND_TTL : Z := 10000.

(** ** Answers *)

Record SchemaReference := { r_name : string; r_subject : string; r_version : Z }.
(** [text] is the source's [schema]. *)
Record RegisteredSchema := {
  id : Z;
  text : string;
  schema_type : option string;
  references : list SchemaReference;
  subject : option string;
  version : option Z;
}.
Definition is_avro (s : RegisteredSchema) : bool :=
  match schema_type s with None => true | Some t => bool_decide (t = "AVRO"%string) end.

Inductive Lookup :=
  | Avro (schema : RegisteredSchema)
  | LookedUpUndecodable (reason : string) (deterministic : bool).

(** The registry's answer, and its error body, as they come. *)
Record RawSchema := {
  rs_schema : option string;
  rs_schema_type : option string;
  rs_references : option (list SchemaReference);
  rs_id : option Z;
  rs_subject : option string;
  rs_version : option Z;
}.
Record RawError := { error_code : option Z; message : option string }.
Definition into_registered (raw : RawSchema) (i : Z) : RegisteredSchema :=
  {| id := i; text := default EmptyString (rs_schema raw); schema_type := rs_schema_type raw;
     references := default [] (rs_references raw); subject := rs_subject raw; version := rs_version raw |}.

(** What a GET came to: no answer, one that broke off, or a status and a body. *)
Inductive Response := Unreached (e : string) | BrokeOff (e : string) | Answered (status : Z) (body : list Z).

Inductive Answer := Found (body : list Z) | NotFound (detail : string).
Inductive Attempt := Done (answer : result Error Answer) | Retry (detail : string).

Definition not_found (i : Z) (detail : string) : Lookup :=
  LookedUpUndecodable ("schema id " +:+ show_Z i +:+ " is not in the Schema Registry (" +:+ detail +:+ ")") false.

(** ** The cache *)

Abbreviation CacheKey := (string * Z)%type.
(** A [OnceCell], with the permit of who initialises it. *)
Inductive Cell := Uninit | Initialising | Init (s : RegisteredSchema).
Record SchemaCache := { ids : gmap CacheKey Cell; not_founds : gmap CacheKey (Z * string) }.
Definition empty_cache : SchemaCache := {| ids := ∅; not_founds := ∅ |}.
Definition set_cell (k : CacheKey) (c : Cell) (sc : SchemaCache) : SchemaCache :=
  {| ids := <[k := c]> (ids sc); not_founds := not_founds sc |}.

(** [SchemaCache::cell]: made when it is first asked for. *)
Definition cell_of (k : CacheKey) (sc : SchemaCache) : Cell := default Uninit (ids sc !! k).
Definition cell (k : CacheKey) (sc : SchemaCache) : SchemaCache := set_cell k (cell_of k sc) sc.

(** [not_found_since]: one that is too old is forgotten. *)
Definition not_found_since (k : CacheKey) (now ttl : Z) (sc : SchemaCache) : SchemaCache * option string :=
  match not_founds sc !! k with
  | Some (at_, detail) =>
      if now - at_ <? ttl then (sc, Some detail)
      else ({| ids := ids sc; not_founds := delete k (not_founds sc) |}, None)
  | None => (sc, None)
  end.
Definition remember_not_found (k : CacheKey) (now : Z) (detail : string) (sc : SchemaCache) : SchemaCache :=
  {| ids := ids sc; not_founds := <[k := (now, detail)]> (not_founds sc) |}.
(** [offer]: [OnceCell::set] does nothing to a cell that is set or being initialised. *)
Definition offer (url : string) (s : RegisteredSchema) (sc : SchemaCache) : SchemaCache :=
  let k := (url, id s) in
  let sc := cell k sc in
  match cell_of k sc with Uninit => set_cell k (Init s) sc | _ => sc end.

(** ** The client *)

Section Client.
(** serde_json's [from_slice], the excerpt of a body and the text of a status. *)
Context (from_slice : list Z → option RawSchema) (error_from_slice : list Z → option RawError).
Context (excerpt : list Z → string) (status_text : Z → string).
Context (url : string).

Definition registry_error_code (body : list Z) : option Z := error_from_slice body ≫= error_code.
Definition registry_error (body : list Z) : string :=
  match body with
  | [] => EmptyString
  | _ =>
      match error_from_slice body with
      | Some {| error_code := Some code; message := m |} =>
          ", error_code " +:+ show_Z code +:+ match m with Some m => ": " +:+ m | None => EmptyString end
      | _ => ": " +:+ excerpt body
      end
  end.
Definition refused (detail : string) : Error := SchemaRegistry url Refused detail.

(** [try_get], of what [path] answered. *)
Definition try_get (path : string) (r : Response) : Attempt :=
  match r with
  | Unreached e | BrokeOff e => Retry e
  | Answered status body =>
      let what := "GET " +:+ path +:+ ": HTTP " +:+ status_text status +:+ registry_error body in
      if (200 <=? status) && (status <=? 299) then Done (Ok (Found body))
      else if (status =? 401) || (status =? 403) then
        Done (Err (SchemaRegistry url Unauthorized (what +:+ ". Check the credentials")))
      else if (status =? 404) && bool_decide (is_Some (registry_error_code body)) then
        Done (Ok (NotFound ("HTTP 404" +:+ registry_error body)))
      else if status =? 404 then Done (Err (refused (what +:+ "; not the Schema Registry API's answer")))
      else if (status =? 408) || (status =? 429) || ((500 <=? status) && (status <=? 599)) then Retry what
      else Done (Err (refused what))
  end.

(** One turn of [get]'s loop: the answer, or the waits that are left and the attempts. *)
Definition unavailable (path : string) (attempts : Z) (detail : string) : Error :=
  SchemaRegistry url Unavailable
    ("GET " +:+ path +:+ " failed " +:+ show_Z attempts +:+ " times; the last time: " +:+ detail).
Definition get_once (path : string) (delays : list Z) (attempts : Z) (r : Response) : result Error Answer + list Z * Z :=
  match try_get path r with
  | Done answer => inl answer
  | Retry detail =>
      match delays with
      | [] => inl (Err (unavailable path attempts detail))
      | _ :: delays => inr (delays, attempts + 1)
      end
  end.
(** [get], of what each attempt is answered: the answer, and after how many requests. *)
Fixpoint get_from (path : string) (delays : list Z) (attempts : Z) (answers : nat → Response) : result Error Answer * Z :=
  match try_get path (answers 0%nat) with
  | Done answer => (answer, attempts)
  | Retry detail =>
      match delays with
      | [] => (Err (unavailable path attempts detail), attempts)
      | _ :: delays => get_from path delays (attempts + 1) (λ n, answers (S n))
      end
  end.
Definition get (path : string) (answers : nat → Response) : result Error Answer * Z :=
  get_from path RETRY_DELAYS 1 answers.

(** [parse] *)
Definition parse (body : list Z) (what : string) : result Error RawSchema :=
  match from_slice body with
  | None => Err (refused ("the answer for " +:+ what +:+ " is not the Schema Registry API's: " +:+ excerpt body))
  | Some raw =>
      match rs_schema raw with
      | None => Err (refused ("the answer for " +:+ what +:+ " has no schema: " +:+ excerpt body))
      | Some _ => Ok raw
      end
  end.

(** [classify] *)
Definition classify (s : RegisteredSchema) : result Error Lookup :=
  match references s with
  | _ :: _ =>
      Err (KafkaSchemaReferences url (id s) ((λ r, r_subject r +:+ " version " +:+ show_Z (r_version r)) <$> references s))
  | [] =>
      if is_avro s then Ok (Avro s)
      else Ok (LookedUpUndecodable
                 ("writer schema " +:+ show_Z (id s) +:+ " is " +:+ default EmptyString (schema_type s) +:+ ", not AVRO") true)
  end.

(** *** [lookup], between its waits *)

Definition path_of (i : Z) : string := "/schemas/ids/" +:+ show_Z i.

(** Where a lookup is: at its cell, with a request out, about to remember that its id is not
    found, or at its end. *)
Inductive Caller :=
  | Waiting
  | Fetching (delays : list Z) (attempts : Z)
  | Unknown (detail : string)
  | Over (answer : result Error Lookup).

(** To the cell. *)
Definition lookup (i now : Z) (sc : SchemaCache) : SchemaCache * Caller :=
  let k := (url, i) in
  match not_found_since k now NOT_FOUND_TTL sc with
  | (sc, Some detail) => (sc, Over (Ok (not_found i detail)))
  | (sc, None) => (cell k sc, Waiting)
  end.
(** At the cell ([get_or_try_init]): its value, or the permit to fetch it if nobody has that. *)
Definition turn (i now : Z) (sc : SchemaCache) : SchemaCache * Caller :=
  let k := (url, i) in
  match cell_of k sc with
  | Init s => (sc, Over (classify s))
  | Initialising => (sc, Waiting)
  | Uninit =>
      match not_found_since k now NOT_FOUND_TTL sc with
      | (sc, Some detail) => (sc, Unknown detail)
      | (sc, None) => (set_cell k Initialising sc, Fetching RETRY_DELAYS 1)
      end
  end.
(** With what a request was answered: the cell is set, or given up. *)
Definition received (i : Z) (delays : list Z) (attempts : Z) (r : Response) (sc : SchemaCache) : SchemaCache * Caller :=
  let k := (url, i) in
  match get_once (path_of i) delays attempts r with
  | inr (delays, attempts) => (sc, Fetching delays attempts)
  | inl (Ok (Found body)) =>
      match parse body ("schema id " +:+ show_Z i) with
      | Ok raw => let s := into_registered raw i in (set_cell k (Init s) sc, Over (classify s))
      | Err e => (set_cell k Uninit sc, Over (Err e))
      end
  | inl (Ok (NotFound detail)) => (set_cell k Uninit sc, Unknown detail)
  | inl (Err e) => (set_cell k Uninit sc, Over (Err e))
  end.
(** An id that was not found. *)
Definition remember (i now : Z) (detail : string) (sc : SchemaCache) : SchemaCache * Caller :=
  let k := (url, i) in
  match not_found_since k now NOT_FOUND_TTL sc with
  | (sc, None) => (remember_not_found k now detail sc, Over (Ok (not_found i detail)))
  | (sc, Some _) => (sc, Over (Ok (not_found i detail)))
  end.
(** A lookup that is dropped gives its permit back. *)
Definition dropped (i : Z) (c : Caller) (sc : SchemaCache) : SchemaCache :=
  match c with Fetching _ _ => set_cell (url, i) Uninit sc | _ => sc end.

(** *** [latest] *)

Definition latest (subject : string) (answers : nat → Response) (sc : SchemaCache)
    : SchemaCache * result Error (option RegisteredSchema) :=
  match (get ("/subjects/" +:+ subject +:+ "/versions/latest") answers).1 with
  | Err e => (sc, Err e)
  | Ok (NotFound _) => (sc, Ok None)
  | Ok (Found body) =>
      match parse body ("the latest version of " +:+ subject) with
      | Err e => (sc, Err e)
      | Ok raw =>
          match rs_id raw with
          | None => (sc, Err (refused ("the latest version of " +:+ subject +:+ " came without its id")))
          | Some i => let s := into_registered raw i in (offer url s sc, Ok (Some s))
          end
      end
  end.

(** ** The writer schemas of the union *)

Record SubjectSchemas := {
  latests : gmap Z RegisteredSchema;
  latest_id : option Z;
  seen : gmap Z RegisteredSchema;
}.
(** [refresh_latest], of what [latest] answered. *)
Definition refresh_latest (answer : result Error (option RegisteredSchema)) (ss : SubjectSchemas)
    : SubjectSchemas * result Error unit :=
  match answer with
  | Err e => (ss, Err e)
  | Ok None => ({| latests := latests ss; latest_id := None; seen := seen ss |}, Ok tt)
  | Ok (Some s) =>
      ({| latests := match classify s with Ok (Avro _) => <[id s := s]> (latests ss) | _ => latests ss end;
          latest_id := Some (id s); seen := seen ss |}, Ok tt)
  end.
(** [open] *)
Definition open (answer : result Error (option RegisteredSchema)) : result Error SubjectSchemas :=
  match refresh_latest answer {| latests := ∅; latest_id := None; seen := ∅ |} with
  | (ss, Ok _) => Ok ss
  | (_, Err e) => Err e
  end.
(** [observe]: whether the union gained a member. *)
Definition see (s : RegisteredSchema) (ss : SubjectSchemas) : SubjectSchemas :=
  {| latests := latests ss; latest_id := latest_id ss; seen := <[id s := s]> (seen ss) |}.
Definition observe (s : RegisteredSchema) (answer : result Error (option RegisteredSchema)) (ss : SubjectSchemas)
    : SubjectSchemas * result Error bool :=
  match seen ss !! id s with
  | Some _ => (ss, Ok false)
  | None =>
      match latests ss !! id s with
      | Some _ => (see s ss, Ok false)
      | None =>
          match refresh_latest answer ss with
          | (ss, Err e) => (ss, Err e)
          | (ss, Ok _) => (see s ss, Ok true)
          end
      end
  end.
(** [members]: by id, the highest first; what was seen before what was a latest version. *)
Definition members (ss : SubjectSchemas) : list RegisteredSchema :=
  newest_first id (snd <$> map_to_list (seen ss ∪ latests ss)).
End Client.
