(* ===== verification/Decode.v ===== *)
(** * Decode: a Kafka pipeline's messages into batches (src/kafka/decode.rs)

    Each message names its writer schema; a decoder per writer schema takes the messages one by
    one, and its rows come out in chunks, beside which the messages are kept.  A message that
    does not decode is isolated: the decoder is built afresh, and the chunk's messages decoded
    into it again.

    The decoders are an interface, as in the source: [Decode] and [DecodeFactory].  Whether one
    can be built, or a chunk be flushed, may differ from one call to the next: the calls are
    counted ([ticks], which the source does not have), and each is told its number.  The
    implementation over arrow-avro's decoder, itself an argument, is [ArrowAvro].  Reasons are
    cut short to what they are about. *)

From Stdlib Require Import ZArith Lia Ascii SpecFloat.
From stdpp Require Import base list strings gmap.
From S2P Require Import Prelude Error F64 Json Wire Schema Fractions Coerce Union Registry.

Open Scope Z_scope.
Open Scope ddi_scope.

Definition CHUNK_ROWS : Z := 8192.
Definition HEADER_LEN : nat := 5.
Definition INITIAL_DECODED_PER_RAW : f64 := lit 4 0.

(** ** Messages *)

Inductive KafkaTimestamp := NotAvailable | CreateTime (ms : Z) | LogAppendTime (ms : Z).
Definition millis (t : KafkaTimestamp) : option Z :=
  match t with NotAvailable => None | CreateTime ms | LogAppendTime ms => Some ms end.
(** [checked_mul] *)
Definition micros (t : KafkaTimestamp) : option Z :=
  ms ← millis t; if (i64_min <=? ms * 1000) && (ms * 1000 <=? i64_max) then Some (ms * 1000) else None.
Definition type_code (t : KafkaTimestamp) : Z :=
  match t with NotAvailable => -1 | CreateTime _ => 0 | LogAppendTime _ => 1 end.

(** A text, and bytes. *)
Record KafkaHeader := { h_key : string; h_value : option (list Z) }.
Record KafkaMessage := {
  m_partition : Z;
  m_offset : Z;
  m_timestamp : KafkaTimestamp;
  m_key : option (list Z);
  m_value : option (list Z);
  m_headers : list KafkaHeader;
}.

Definition len {A} (l : option (list A)) : Z := Z.of_nat (length (default [] l)).
(** [KafkaMessage::raw_len]; lengths of what is in memory do not overflow. *)
Definition raw_len (m : KafkaMessage) : Z :=
  let headers := sum_list_with (λ h, String.length (h_key h) + length (default [] (h_value h)))%nat (m_headers m) in
  len (m_key m) + len (m_value m) + Z.of_nat headers.
(** The [sum] of a chunk's. *)
Definition raw_of (ms : list KafkaMessage) : Z := u64 (foldr (λ m n, raw_len m + n) 0 ms).

(** [from_be_bytes] *)
Definition be_u32 (b : list Z) : Z := fold_left (λ n b, n * 256 + b) b 0.
(** [frame] *)
Definition frame (payload : list Z) : result string Z :=
  match payload with
  | 0 :: rest =>
      if (length rest <? HEADER_LEN - 1)%nat then Err "not Confluent-framed: fewer than the 5-byte header"%string
      else Ok (be_u32 (take (HEADER_LEN - 1) rest))
  | _ :: _ => Err "not Confluent-framed: the first byte"%string
  | [] => Err "not Confluent-framed: the value is empty"%string
  end.

(** ** The decoder's own rows *)

(** An Arrow field of arrow-avro's, with the metadata it puts there; of a type only the parts
    that are normalised are told apart. *)
Record RawField_ (T : Type) := rField {
  rf_name : string; rf_type : T; rf_nullable : bool; rf_meta : gmap string string }.
Arguments rField {T}. Arguments rf_name {T}. Arguments rf_type {T}. Arguments rf_nullable {T}. Arguments rf_meta {T}.
Inductive Raw :=
  | R_Struct (fields : list (RawField_ Raw))
  | R_List (item : RawField_ Raw)
  | R_Map (entries : string) (key value : RawField_ Raw) (sorted : bool)
  | R_Union (fields : list (Z * RawField_ Raw)) (dense : bool)
  | R_Leaf (t : DataType).
Abbreviation RawField := (RawField_ Raw).

(** The type as Arrow has it. *)
Fixpoint raw_type (r : Raw) : DataType :=
  let field (f : RawField) : Field := match f with rField n t b _ => mkField n (raw_type t) b end in
  match r with
  | R_Struct fs => Struct (List.map field fs)
  | R_List item => List (field item)
  | R_Map e k v s => Map (mkField e (Struct [field k; field v]) false) s
  | R_Union fs d => Union (List.map (λ f, match f with (id, f) => (id, field f) end) fs) d
  | R_Leaf t => t
  end.
Definition raw_field (f : RawField) : Field := mkField (rf_name f) (raw_type (rf_type f)) (rf_nullable f).

Record RawBatch := {
  rb_schema : list RawField;
  rb_columns : list (list (option Value));
  rb_num_rows : nat;
}.

(** ** Normalisation *)

Definition Uuids : Type := gset (string * option string).

(** [is_uuid] *)
Definition is_uuid (meta : gmap string string) (fixed_uuids : Uuids) : bool :=
  bool_decide (meta !! "logicalType"%string = Some "uuid"%string) ||
  match meta !! "avro.name"%string with
  | Some name => bool_decide ((name, meta !! "avro.namespace"%string) ∈ fixed_uuids)
  | None => false
  end.

Definition hex_digit (n : Z) : ascii := Ascii.ascii_of_N (Z.to_N (if n <? 10 then n + 48 else n + 87)).
Definition hex_text (b : list Z) : string :=
  foldr (λ b s, String (hex_digit (b / 16)) (String (hex_digit (b mod 16)) s)) EmptyString b.
(** [hyphenated], of sixteen bytes. *)
Definition hyphenated (b : list Z) : string :=
  let part i n := hex_text (take n (drop i b)) in
  part 0%nat 4%nat +:+ "-" +:+ part 4%nat 2%nat +:+ "-" +:+ part 6%nat 2%nat +:+ "-" +:+ part 8%nat 2%nat
    +:+ "-" +:+ part 10%nat 6%nat.

Section Normalise.
Context (fixed_uuids : Uuids).

Definition is_uuid_leaf (meta : gmap string string) (t : DataType) : bool :=
  bool_decide (t = FixedSizeBinary 16) && is_uuid meta fixed_uuids.
Definition is_enum (t : DataType) : bool :=
  match t with Dictionary _ v => bool_decide (v = Utf8) | _ => false end.

(** The type of [normalise_array]'s. *)
Fixpoint normal_type (meta : gmap string string) (r : Raw) : DataType :=
  let field (f : RawField) : Field := match f with rField n t b m => mkField n (normal_type m t) b end in
  let named (name : string) (f : RawField) : Field := match f with rField _ t b m => mkField name (normal_type m t) b end in
  match r with
  | R_Leaf t => if is_enum t || is_uuid_leaf meta t then Utf8 else t
  | R_Struct fs => Struct (List.map field fs)
  | R_List item => List (named "element"%string item)
  | R_Map _ k v s =>
      Map (mkField "key_value"%string
             (Struct [match k with rField _ t _ m => mkField "key"%string (normal_type m t) false end;
                      named "value"%string v]) false) s
  | R_Union fs d => Union (List.map (λ f, match f with (id, f) => (id, field f) end) fs) d
  end.
Definition normal_field (f : RawField) : Field :=
  mkField (rf_name f) (normal_type (rf_meta f) (rf_type f)) (rf_nullable f).

(** [normalise_array], of one value. *)
Fixpoint normal_value (meta : gmap string string) (r : Raw) (v : option Value) {struct r} : option Value :=
  let of_field (f : RawField) (v : option Value) : option Value :=
    match f with rField _ t _ m => normal_value m t v end in
  match r, v with
  | R_Leaf t, Some (V_Bytes b) => if is_uuid_leaf meta t then Some (V_Text (hyphenated b)) else v
  | R_Struct fs, Some (V_Struct l) =>
      Some (V_Struct ((fix go (fs : list RawField) (l : list (option Value)) :=
        match fs, l with f :: fs, v :: l => of_field f v :: go fs l | _, _ => [] end) fs l))
  | R_List item, Some (V_List l) => Some (V_List (List.map (of_field item) l))
  | R_Map _ k v' _, Some (V_Map l) =>
      Some (V_Map (List.map (option_map (λ e, (of_field k e.1, of_field v' e.2))) l))
  | R_Union fs _, Some (V_Union id x) =>
      Some (V_Union id ((fix go (fs : list (Z * RawField)) :=
        match fs with
        | (i, f) :: fs => if i =? id then of_field f x else go fs
        | [] => x
        end) fs))
  | _, _ => v
  end.
Definition normal_of (f : RawField) : option Value → option Value := normal_value (rf_meta f) (rf_type f).

(** [normalise]; [RecordBatch::try_new] may refuse it. *)
Definition normalise (b : RawBatch) : result string Batch :=
  match try_new (normal_field <$> rb_schema b)
          (zip_with (λ f vs, Build_Column (normal_type (rf_meta f) (rf_type f)) (normal_of f <$> vs))
             (rb_schema b) (rb_columns b)) with
  | Some b => Ok b
  | None => Err "the normalised columns"%string
  end.
End Normalise.

(** ** Metadata columns *)

Definition bytes_of (b : option (list Z)) : option Value := V_Bytes <$> b.
Definition header_value (h : KafkaHeader) : option Value :=
  Some (V_Struct [Some (V_Text (h_key h)); bytes_of (h_value h)]).
(** [metadata_columns] *)
Definition metadata_columns (topic : string) (chunk : list KafkaMessage) (schema_id : Z) : list Column :=
  [Build_Column Utf8 ((λ _, Some (V_Text topic)) <$> chunk);
   Build_Column Int32 ((λ m, Some (V_Int (m_partition m))) <$> chunk);
   Build_Column Int64 ((λ m, Some (V_Int (m_offset m))) <$> chunk);
   Build_Column (Timestamp Microsecond (Some "UTC"%string)) ((λ m, V_Int <$> micros (m_timestamp m)) <$> chunk);
   Build_Column Int32 ((λ m, Some (V_Int (type_code (m_timestamp m)))) <$> chunk);
   Build_Column Binary ((λ m, bytes_of (m_key m)) <$> chunk);
   Build_Column (List header_element) ((λ m, Some (V_List (header_value <$> m_headers m))) <$> chunk);
   Build_Column Int32 ((λ _, Some (V_Int (i32 schema_id))) <$> chunk)].

Definition but_last {A} (l : list A) : list A := take (length l - 1) l.
(** [raw_fields], [raw_batch] *)
Definition raw_fields (prefix : string) : Schema :=
  mkField (prefix +:+ "value") Binary true :: but_last (metadata_fields prefix).
Definition raw_batch (topic prefix : string) (ms : list KafkaMessage) : result Error Batch :=
  match try_new (raw_fields prefix)
          (Build_Column Binary (bytes_of ∘ m_value <$> ms) :: but_last (metadata_columns topic ms 0)) with
  | Some b => Ok b
  | None => Err (Other "internal: cannot assemble raw rows")
  end.

(** ** Reading the writer schema *)

(** The keys of an object, once each, with their last values. *)
Fixpoint last_wins {A} (fields : list (string * A)) : list (string * A) :=
  match fields with
  | [] => []
  | f :: fields => if existsb (λ g, bool_decide (g.1 = f.1)) fields then last_wins fields else f :: last_wins fields
  end.

(** [top_level_record], of the schema's JSON. *)
Definition top_level_record (v : option Json.Value) : result string unit :=
  match v with
  | None => Err "not JSON"%string
  | Some (Json.V_Object _ as o) =>
      match get_key "type" o with
      | Some (Json.V_String t) =>
          if bool_decide (t = "record"%string) || bool_decide (t = "error"%string) then Ok tt else Err ("of type " +:+ t)
      | _ => Err "of a nested type"%string
      end
  | Some (Json.V_Array _) => Err "a union"%string
  | Some (Json.V_String t) => Err ("of type " +:+ t)
  | Some _ => Err "not a schema"%string
  end.

Definition MAX_PRECISION : list Z :=
  [2; 4; 6; 9; 11; 14; 16; 18; 21; 23; 26; 28; 31; 33; 35; 38; 40; 43; 45; 47; 50; 52; 55;
   57; 59; 62; 64; 67; 69; 71; 74; 76].
(** [decimal] *)
Definition valid_decimal (o : Json.Value) (size : option Z) : bool :=
  match get_key "precision" o ≫= as_u64 with
  | None => false
  | Some precision =>
      let scale := match get_key "scale" o with None => Some 0 | Some v => as_u64 v end in
      (1 <=? precision) && (precision <=? 76) &&
      match scale with Some s => s <=? precision | None => false end &&
      match size with
      | None => true
      | Some size => (1 <=? size) && (size <=? 32) && (precision <=? nth (Z.to_nat (size - 1)) MAX_PRECISION 0)
      end
  end.
Definition invalid_logical (o : Json.Value) : bool :=
  let kind := get_key "type" o ≫= as_str in
  let size := get_key "size" o ≫= as_u64 in
  match get_key "logicalType" o ≫= as_str, kind with
  | Some logical, Some kind =>
      if bool_decide (logical = "decimal"%string) && (bool_decide (kind = "bytes"%string) || bool_decide (kind = "fixed"%string))
      then negb (valid_decimal o size)
      else if bool_decide (logical = "duration"%string) && bool_decide (kind = "fixed"%string)
      then negb (bool_decide (size = Some 12)) else false
  | _, _ => false
  end.
(** [walk] of [valid_logical_types]: whether something was removed, and what is left. *)
Fixpoint drop_invalid (v : Json.Value) : bool * Json.Value :=
  match v with
  | Json.V_Array items =>
      let r := List.map drop_invalid items in
      (existsb fst r, Json.V_Array (snd <$> r))
  | Json.V_Object fields =>
      let invalid := invalid_logical v in
      let r := List.map (λ f, match f with (k, w) => (k, drop_invalid w) end) fields in
      let kept := filter (λ f, negb (invalid && bool_decide (f.1 = "logicalType"%string))) (last_wins r) in
      (invalid || existsb (λ f, f.2.1) kept, Json.V_Object ((λ f, (f.1, f.2.2)) <$> kept))
  | v => (false, v)
  end.

(** [named_fixed]: by name and namespace, the size and the logical type. *)
Definition Found : Type := gmap (string * option string) (Z * option string).
Fixpoint named_fixed_at (fuel : nat) (v : Json.Value) (ns : option string) (out : Found) : Found :=
  match fuel with
  | O => out
  | S fuel =>
      match v with
      | Json.V_Array branches => fold_left (λ out b, named_fixed_at fuel b ns out) branches out
      | Json.V_Object _ =>
          let own_ns := match get_key "namespace" v ≫= as_str with Some n => Some n | None => ns end in
          match get_key "type" v with
          | Some (Json.V_String t) =>
              if bool_decide (t = "record"%string) || bool_decide (t = "error"%string) then
                fold_left (λ out f, match get_key "type" f with
                                    | Some t => named_fixed_at fuel t own_ns out
                                    | None => out
                                    end)
                  (default [] (get_key "fields" v ≫= as_array)) out
              else if bool_decide (t = "array"%string) then
                match get_key "items" v with Some t => named_fixed_at fuel t ns out | None => out end
              else if bool_decide (t = "map"%string) then
                match get_key "values" v with Some t => named_fixed_at fuel t ns out | None => out end
              else if bool_decide (t = "fixed"%string) then
                match get_key "size" v ≫= as_u64, get_key "name" v ≫= as_str with
                | Some size, Some name => <[(name, own_ns) := (size, get_key "logicalType" v ≫= as_str)]> out
                | _, _ => out
                end
              else out
          | Some ((Json.V_Object _ | Json.V_Array _) as t) => named_fixed_at fuel t ns out
          | _ => out
          end
      | _ => out
      end
  end.
Definition named_fixed (v : option Json.Value) : Found :=
  match v with Some v => named_fixed_at (S (depth_of v)) v None ∅ | None => ∅ end.
(** [fixed_uuids], [fixed_decimals] *)
Definition fixed_uuids (v : option Json.Value) : Uuids :=
  dom (filter (λ f, f.2.1 = 16 ∧ f.2.2 = Some "uuid"%string) (named_fixed v)).
Definition fixed_decimals (v : option Json.Value) : gmap (string * option string) Z :=
  fst <$> filter (λ f, f.2.2 = Some "decimal"%string) (named_fixed v).

(** [zero_width], [zero_width_field] *)
Fixpoint zero_width (t : DataType) : bool :=
  match t with
  | Null => true
  | FixedSizeBinary n => n =? 0
  | Struct fs =>
      forallb (λ f, match f with
                    | mkField _ t b => zero_width t && negb (b && negb (bool_decide (t = Null)))
                    end) fs
  | _ => false
  end.
Definition zero_width_field (f : Field) : bool :=
  zero_width (f_type f) && negb (f_nullable f && negb (bool_decide (f_type f = Null))).

(** [holds_union] *)
Fixpoint holds_union (t : DataType) : bool :=
  match t with
  | Union _ _ => true
  | List f | LargeList f | ListView f | LargeListView f | FixedSizeList f _ | Map f _ =>
      match f with mkField _ t _ => holds_union t end
  | Struct fs => existsb (λ f, match f with mkField _ t _ => holds_union t end) fs
  | Dictionary _ v => holds_union v
  | RunEndEncoded _ f => match f with mkField _ t _ => holds_union t end
  | _ => false
  end.

(** [find_map] *)
Fixpoint find_map {A B} (f : A → option B) (l : list A) : option B :=
  match l with [] => None | x :: l => match f x with Some y => Some y | None => find_map f l end end.
(** [zero_width_items], [find] *)
Fixpoint empty_items (t : DataType) (path : string) : option string :=
  match t with
  | List item =>
      match item with
      | mkField n t b => if zero_width_field (mkField n t b) then Some path else empty_items t (path +:+ "[]")
      end
  | Struct fs =>
      find_map (λ x, x) (List.map (λ f, match f with mkField n t _ => empty_items t (path +:+ "." +:+ n) end) fs)
  | Map f _ => match f with mkField _ t _ => empty_items t path end
  | Union fs _ => find_map (λ x, x) (List.map (λ f, match f with (_, mkField _ t _) => empty_items t path end) fs)
  | _ => None
  end.
Definition zero_width_items (fs : Schema) : option string :=
  find_map (λ f, empty_items (f_type f) (f_name f)) fs.

(** ** The decoder seam *)

(** [Decode]: the rows' schema; one message as exactly one row, after a failure of which a
    decoder may hold part of a row; and the rows since the last flush. *)
Class Decode (D : Type) := {
  decoder_schema : D → list RawField;
  decode_one : D → list Z → D * result string unit;
  flush_rows : nat → D → D * result string (option RawBatch);
}.
(** [DecodeFactory] *)
Class DecodeFactory (D : Type) := build_decoder : nat → Z → string → result string D.

Record Undecodable := {
  u_partition : Z;
  u_offset : Z;
  u_schema_id : option Z;
  u_reason : string;
  u_deterministic : bool;
}.

(** What the current batch has produced so far. *)
Record Out := {
  batches : list Batch;
  undecodable : list (KafkaMessage * Undecodable);
  tombstones : Z;
  flushed_bytes : Z;
  flushed_raw : Z;
  pending_raw : Z;
  ticks : nat;
}.
Definition out_default (n : nat) : Out :=
  {| batches := []; undecodable := []; tombstones := 0; flushed_bytes := 0; flushed_raw := 0; pending_raw := 0; ticks := n |}.
Definition tick (o : Out) : Out :=
  {| batches := batches o; undecodable := undecodable o; tombstones := tombstones o; flushed_bytes := flushed_bytes o;
     flushed_raw := flushed_raw o; pending_raw := pending_raw o; ticks := S (ticks o) |}.
Definition set_pending (p : Z) (o : Out) : Out :=
  {| batches := batches o; undecodable := undecodable o; tombstones := tombstones o; flushed_bytes := flushed_bytes o;
     flushed_raw := flushed_raw o; pending_raw := p; ticks := ticks o |}.
Definition skip_tombstone (o : Out) : Out :=
  {| batches := batches o; undecodable := undecodable o; tombstones := u64 (tombstones o + 1); flushed_bytes := flushed_bytes o;
     flushed_raw := flushed_raw o; pending_raw := pending_raw o; ticks := ticks o |}.
(** [Out::reject] *)
Definition reject (m : KafkaMessage) (schema_id : option Z) (reason : string) (deterministic : bool) (o : Out) : Out :=
  {| batches := batches o;
     undecodable := undecodable o ++ [(m, {| u_partition := m_partition m; u_offset := m_offset m; u_schema_id := schema_id;
                                             u_reason := reason; u_deterministic := deterministic |})];
     tombstones := tombstones o; flushed_bytes := flushed_bytes o; flushed_raw := flushed_raw o;
     pending_raw := pending_raw o; ticks := ticks o |}.
Definition reject_all (ms : list KafkaMessage) (schema_id : option Z) (reason : string) (o : Out) : Out :=
  fold_left (λ o m, reject m schema_id reason false o) ms o.

Section Decoder.
Context {D : Type} {HD : Decode D} {HF : DecodeFactory D}.
(** serde_json's [from_str]; [get_slice_memory_size] of a batch's columns; arrow's
    [concat_batches], in the first's schema; the base64 text. *)
Context (from_str : string → option Json.Value) (measured_size : Batch → Z).
Context (concat_batches : list Batch → option Batch) (b64 : list Z → string).

Record Ready := {
  r_schema : RegisteredSchema;
  decoder : D;
  chunk : list KafkaMessage;
  r_fixed_uuids : Uuids;
}.
Definition set_decoder (d : D) (g : Ready) : Ready :=
  {| r_schema := r_schema g; decoder := d; chunk := chunk g; r_fixed_uuids := r_fixed_uuids g |}.
Definition set_chunk (ms : list KafkaMessage) (g : Ready) : Ready :=
  {| r_schema := r_schema g; decoder := decoder g; chunk := ms; r_fixed_uuids := r_fixed_uuids g |}.

(** What one writer schema id turned out to be. *)
Inductive Group := G_Ready (r : Ready) | G_Unusable (reason : string) | G_Collision (field : string).

(** *** One writer schema's messages ([Ctx]) *)

Section Ctx.
Context (topic prefix : string) (sid : Z).
Definition cannot_decode (e : string) : string := "cannot decode writer schema: " +:+ e.
Definition value_of (m : KafkaMessage) : list Z := default [] (m_value m).

(** [emit] *)
Definition emit (rows : Batch) (ms : list KafkaMessage) (raw : Z) (o : Out) : Out :=
  match try_new (b_schema rows ++ metadata_fields prefix) (b_columns rows ++ metadata_columns topic ms sid) with
  | Some b =>
      {| batches := batches o ++ [b]; undecodable := undecodable o; tombstones := tombstones o;
         flushed_bytes := u64 (flushed_bytes o + measured_size b); flushed_raw := u64 (flushed_raw o + raw);
         pending_raw := pending_raw o; ticks := ticks o |}
  | None => reject_all ms (Some sid) "internal: cannot assemble the batch" o
  end.

(** What [flush_one_by_one] holds: the decoder and whether it is known to be empty, the rows and
    their messages so far. *)
Record Alone := { a_clean : bool; a_decoder : D; a_rows : list Batch; a_kept : list KafkaMessage; a_out : Out }.

(** One message alone into a decoder: the decoder after it, whether that is empty, and the row or
    why none; [true] for an internal fault. *)
Definition decode_into (g : Ready) (d : D) (m : KafkaMessage) (o : Out) : bool * D * Out * result (bool * string) Batch :=
  let '(d, r) := decode_one d (value_of m) in
  match r with
  | Err e => (false, d, o, Err (false, e))
  | Ok _ =>
      let '(d, r) := flush_rows (ticks o) d in
      let o := tick o in
      match r with
      | Err e => (false, d, o, Err (false, e))
      | Ok (Some b) =>
          if (rb_num_rows b =? 1)%nat then
            (true, d, o, match normalise (r_fixed_uuids g) b with Ok b => Ok b | Err e => Err (false, e) end)
          else (false, d, o, Err (false, "decoded, but no row came out"%string))
      | Ok None => (false, d, o, Err (false, "decoded, but no row came out"%string))
      end
  end.
Definition decode_alone (g : Ready) (clean : bool) (d : D) (m : KafkaMessage) (o : Out)
    : bool * D * Out * result (bool * string) Batch :=
  match (if clean then (o, Ok d) else (tick o, build_decoder (ticks o) sid (text (r_schema g)))) with
  | (o, Err e) => (clean, d, o, Err (true, e))
  | (o, Ok d) => decode_into g d m o
  end.
Definition alone (g : Ready) (s : Alone) (m : KafkaMessage) : Alone :=
  let '(clean, d, o, one) := decode_alone g (a_clean s) (a_decoder s) m (a_out s) in
  match one with
  | Ok b => {| a_clean := clean; a_decoder := d; a_rows := a_rows s ++ [b]; a_kept := a_kept s ++ [m]; a_out := o |}
  | Err (internal, e) =>
      {| a_clean := clean; a_decoder := d; a_rows := a_rows s; a_kept := a_kept s;
         a_out := if internal : bool then reject m (Some sid) (cannot_decode e) false o
                  else reject m (Some sid) ("cannot turn the decoded record into Arrow: " +:+ e) true o |}
  end.
(** [flush_one_by_one] *)
Definition flush_one_by_one (g : Ready) (ms : list KafkaMessage) (o : Out) : Ready * Out :=
  let s := fold_left (alone g) ms {| a_clean := false; a_decoder := decoder g; a_rows := []; a_kept := []; a_out := o |} in
  let '(d, o) :=
    if a_clean s then (a_decoder s, a_out s)
    else (match build_decoder (ticks (a_out s)) sid (text (r_schema g)) with Ok d => d | Err _ => a_decoder s end,
          tick (a_out s)) in
  let g := set_decoder d g in
  match a_rows s with
  | [] => (g, o)
  | rows =>
      match concat_batches rows with
      | Some b => (g, emit b (a_kept s) (raw_of (a_kept s)) o)
      | None => (g, reject_all (a_kept s) (Some sid) "internal: cannot assemble the batch" o)
      end
  end.

(** [flush] *)
Definition flush (g : Ready) (o : Out) : Ready * Out :=
  match chunk g with
  | [] => (g, o)
  | ms =>
      let raw := raw_of ms in
      let o := set_pending (u64 (pending_raw o - raw)) o in
      let '(d, r) := flush_rows (ticks o) (decoder g) in
      let g := set_decoder d (set_chunk [] g) in
      let o := tick o in
      let rows := match r with
                  | Ok (Some b) => if (rb_num_rows b =? length ms)%nat then ok (normalise (r_fixed_uuids g) b) else None
                  | _ => None
                  end in
      match rows with
      | Some rows => (g, emit rows ms raw o)
      | None => flush_one_by_one g ms o
      end
  end.

(** The chunk's messages into a new decoder: the first that fails, by its place. *)
Fixpoint redecode (d : D) (ms : list KafkaMessage) (i : nat) : D * option (nat * string) :=
  match ms with
  | [] => (d, None)
  | m :: ms =>
      match decode_one d (value_of m) with
      | (d, Ok _) => redecode d ms (S i)
      | (d, Err e) => (d, Some (i, e))
      end
  end.
(** [isolate]'s loop, which takes a message out of [good] each time round. *)
Fixpoint isolate_from (fuel : nat) (g : Ready) (good : list KafkaMessage) (o : Out) : Ready * Out :=
  match fuel with
  | O => (g, o)
  | S fuel =>
      match build_decoder (ticks o) sid (text (r_schema g)) with
      | Err e =>
          (g, fold_left (λ o m, reject m (Some sid) (cannot_decode e) false (set_pending (u64 (pending_raw o - raw_len m)) o))
                good (tick o))
      | Ok d =>
          match redecode d good 0 with
          | (d, None) => flush (set_chunk good (set_decoder d g)) (tick o)
          | (d, Some (i, e)) =>
              let g := set_decoder d g in
              match good !! i with
              | Some m =>
                  isolate_from fuel g (delete i good)
                    (reject m (Some sid) (e +:+ " (on decoding it again; it decoded before)") false
                       (set_pending (u64 (pending_raw o - raw_len m)) (tick o)))
              | None => (g, o)
              end
          end
      end
  end.
(** [isolate] *)
Definition isolate (g : Ready) (o : Out) : Ready * Out :=
  isolate_from (S (length (chunk g))) (set_chunk [] g) (chunk g) o.

(** [decode] *)
Definition decode (g : Ready) (o : Out) (m : KafkaMessage) : Ready * Out :=
  let '(d, r) := decode_one (decoder g) (value_of m) in
  let g := set_decoder d g in
  match r with
  | Ok _ =>
      let o := set_pending (u64 (pending_raw o + raw_len m)) o in
      let g := set_chunk (chunk g ++ [m]) g in
      if CHUNK_ROWS <=? Z.of_nat (length (chunk g)) then flush g o else (g, o)
  | Err reason =>
      let '(g, o) := isolate g o in
      (g, reject m (Some sid) reason true o)
  end.
End Ctx.

(** *** The whole decoder *)

Record KafkaDecoder := {
  topic : string;
  prefix : string;
  groups : list (Z * Group);      (** by id, ascending *)
  out : Out;
}.
Definition with_factory (topic prefix : string) : KafkaDecoder :=
  {| topic := topic; prefix := prefix; groups := []; out := out_default 0 |}.
Definition with_groups (gs : list (Z * Group)) (o : Out) (k : KafkaDecoder) : KafkaDecoder :=
  {| topic := topic k; prefix := prefix k; groups := gs; out := o |}.

Definition group_of (i : Z) (gs : list (Z * Group)) : option Group := snd <$> List.find (λ g, g.1 =? i) gs.
(** [BTreeMap::insert], of a new key or an old one. *)
Fixpoint put_group (i : Z) (g : Group) (gs : list (Z * Group)) : list (Z * Group) :=
  match gs with
  | [] => [(i, g)]
  | (j, h) :: gs' => if i =? j then (i, g) :: gs' else if i <? j then (i, g) :: gs else (j, h) :: put_group i g gs'
  end.

(** [group_for] *)
Definition group_for (k : KafkaDecoder) (schema : RegisteredSchema) : Group * Out :=
  match top_level_record (from_str (text schema)) with
  | Err _ => (G_Unusable "the writer schema is not a record at the top level", out k)
  | Ok _ =>
      let o := tick (out k) in
      match build_decoder (ticks (out k)) (id schema) (text schema) with
      | Err e => (G_Unusable (cannot_decode e), o)
      | Ok d =>
          let arrow := raw_field <$> decoder_schema d in
          match List.find (λ f, starts_with (prefix k) (f_name f)) arrow with
          | Some f => (G_Collision (f_name f), o)
          | None =>
              if zero_width (Struct arrow) then (G_Unusable "the writer schema encodes every record in zero bytes", o)
              else match zero_width_items arrow with
              | Some path => (G_Unusable ("the writer schema has an array whose items take no bytes: " +:+ path), o)
              | None =>
                  (G_Ready {| r_schema := schema; decoder := d; chunk := [];
                              r_fixed_uuids := fixed_uuids (from_str (text schema)) |}, o)
              end
          end
      end
  end.

(** The end of [feed], the message's writer schema being known. *)
Definition feed_known (k : KafkaDecoder) (i : Z) (m : KafkaMessage) (g : Group) : KafkaDecoder * result Error unit :=
  match g with
  | G_Unusable reason => (with_groups (groups k) (reject m (Some i) reason true (out k)) k, Ok tt)
  | G_Collision field => (k, Err (KafkaMetadataCollision i field (prefix k)))
  | G_Ready r =>
      let '(r, o) := decode (topic k) (prefix k) i r (out k) m in
      (with_groups (put_group i (G_Ready r) (groups k)) o k, Ok tt)
  end.
(** [feed]; [lookup] is the registry's answer, asked for a writer schema that is new.  With an
    error the message was not taken. *)
Definition feed (k : KafkaDecoder) (m : KafkaMessage) (lookup : result Error Lookup) : KafkaDecoder * result Error unit :=
  match m_value m with
  | None => (with_groups (groups k) (skip_tombstone (out k)) k, Ok tt)
  | Some value =>
      match frame value with
      | Err reason => (with_groups (groups k) (reject m None reason true (out k)) k, Ok tt)
      | Ok i =>
          match group_of i (groups k) with
          | Some g => feed_known k i m g
          | None =>
              match lookup with
              | Err e => (k, Err e)
              | Ok (LookedUpUndecodable reason deterministic) =>
                  (with_groups (if deterministic then put_group i (G_Unusable reason) (groups k) else groups k)
                     (reject m (Some i) reason deterministic (out k)) k, Ok tt)
              | Ok (Avro schema) =>
                  let '(g, o) := group_for k schema in
                  feed_known (with_groups (put_group i g (groups k)) o k) i m g
              end
          end
      end
  end.

(** [decoded_bytes] *)
Definition decoded_bytes (k : KafkaDecoder) : Z :=
  let o := out k in
  let ratio := if 0 <? flushed_raw o then div (of_Z (flushed_bytes o)) (of_Z (flushed_raw o)) else INITIAL_DECODED_PER_RAW in
  u64 (flushed_bytes o + to_u64 (mul (of_Z (pending_raw o)) ratio)).

Definition is_nil {A} (l : list A) : bool := match l with [] => true | _ => false end.
(** [is_empty] *)
Definition is_empty (k : KafkaDecoder) : bool :=
  let o := out k in
  is_nil (batches o) && is_nil (undecodable o) && (tombstones o =? 0) && (pending_raw o =? 0) &&
  forallb (λ g, match g.2 with G_Ready r => is_nil (chunk r) | _ => true end) (groups k).

(** [rejected_rows] *)
Definition rejected_fields (prefix : string) : Schema :=
  [mkField (prefix +:+ "topic") Utf8 false;
   mkField (prefix +:+ "partition") Int32 false;
   mkField (prefix +:+ "offset") Int64 false;
   mkField (prefix +:+ "timestamp") (Timestamp Microsecond (Some "UTC"%string)) true;
   mkField (prefix +:+ "key_b64") Utf8 true;
   mkField (prefix +:+ "value_b64") Utf8 true;
   mkField (prefix +:+ "value_schema_id") Int32 true].
Definition rejected_rows (topic prefix : string) (us : list (KafkaMessage * Undecodable))
    : result Error (option Coerce.Rejected) :=
  match us with
  | [] => Ok None
  | _ =>
      let text b := V_Text <$> (b64 <$> b) in
      match try_new (rejected_fields prefix)
        [Build_Column Utf8 ((λ _, Some (V_Text topic)) <$> us);
         Build_Column Int32 ((λ u, Some (V_Int (m_partition u.1))) <$> us);
         Build_Column Int64 ((λ u, Some (V_Int (m_offset u.1))) <$> us);
         Build_Column (Timestamp Microsecond (Some "UTC"%string)) ((λ u, V_Int <$> micros (m_timestamp u.1)) <$> us);
         Build_Column Utf8 ((λ u, text (m_key u.1)) <$> us);
         Build_Column Utf8 ((λ u, text (m_value u.1)) <$> us);
         Build_Column Int32 ((λ u, V_Int <$> (i32 <$> u_schema_id u.2)) <$> us)] with
      | Some rows =>
          Ok (Some {| Coerce.rj_rows := rows; Coerce.rj_reasons := (λ u, "avro: " +:+ u_reason u.2) <$> us;
                      Coerce.rj_columns := replicate (length us) None |})
      | None => Err (Other "internal: cannot assemble undecodable rows")
      end
  end.

(** [Decoded] *)
Record Decoded := {
  d_batches : list Batch;
  d_undecodable : list Undecodable;
  d_rejects : option Coerce.Rejected;
  d_tombstones : Z;
  d_decoded_bytes : Z;
}.

(** The loop of [finish]. *)
Fixpoint flush_all (topic prefix : string) (gs : list (Z * Group)) (o : Out) : list (Z * Group) * Out :=
  match gs with
  | [] => ([], o)
  | (i, g) :: gs =>
      let '(g, o) := match g with
                     | G_Ready r => let '(r, o) := flush topic prefix i r o in (G_Ready r, o)
                     | g => (g, o)
                     end in
      let '(gs, o) := flush_all topic prefix gs o in
      ((i, g) :: gs, o)
  end.
(** [finish] *)
Definition finish (k : KafkaDecoder) : KafkaDecoder * result Error Decoded :=
  let '(gs, o) := flush_all (topic k) (prefix k) (groups k) (out k) in
  (with_groups gs (out_default (ticks o)) k,
   let? rejects := rejected_rows (topic k) (prefix k) (undecodable o) in
   Ok {| d_batches := batches o; d_undecodable := snd <$> undecodable o; d_rejects := rejects;
         d_tombstones := tombstones o; d_decoded_bytes := flushed_bytes o |}).

(** The loop of [discard]. *)
Fixpoint discard_all (gs : list (Z * Group)) (n : nat) : list (Z * Group) * nat :=
  match gs with
  | [] => ([], n)
  | (i, G_Ready r) :: gs =>
      if is_nil (chunk r) then let '(gs, n) := discard_all gs n in ((i, G_Ready r) :: gs, n)
      else
        let '(gs', n') := discard_all gs (S n) in
        (match build_decoder n i (text (r_schema r)) with
         | Ok d => (i, G_Ready (set_decoder d (set_chunk [] r))) :: gs'
         | Err _ => gs'
         end, n')
  | g :: gs => let '(gs, n) := discard_all gs n in (g :: gs, n)
  end.
(** [discard] *)
Definition discard (k : KafkaDecoder) : KafkaDecoder :=
  let '(gs, n) := discard_all (groups k) (ticks (out k)) in with_groups gs (out_default n) k.

(** [writer_schemas] *)
Definition writer_schemas (k : KafkaDecoder) : list RegisteredSchema :=
  omap (λ g, match g.2 with G_Ready r => Some (r_schema r) | _ => None end) (groups k).
End Decoder.

(** ** The decoder over arrow-avro's *)

(** What arrow-avro's [decode] of some bytes came to: a panic, an error, or how many it took. *)
Inductive Consumed := Panicked (e : string) | Failed (e : string) | Took (n : nat).

Section ArrowAvro.
Context {I : Type}.
(** arrow-avro's decoder: its rows' schema, for how many more rows it has room, and its calls. *)
Context (inner_schema : I → list RawField) (capacity : I → Z) (inner_decode : I → list Z → I * Consumed).
Context (inner_flush : nat → I → I * result string (option RawBatch)).
Context (arrow_avro_decoder : nat → Z → string → result string I).
Context (from_str : string → option Json.Value) (to_string : Json.Value → string).

(** [valid_logical_types] *)
Definition valid_logical_types (schema : string) : string :=
  match from_str schema with
  | None => schema
  | Some v => let r := drop_invalid v in if r.1 then to_string r.2 else schema
  end.

Record ArrowAvroDecoder := { inner : I; wire : option Wire.Wire; renew : option (Z * string) }.
Definition set_inner (i : I) (d : ArrowAvroDecoder) : ArrowAvroDecoder :=
  {| inner := i; wire := wire d; renew := renew d |}.

Definition inner_type (i : I) : DataType := Struct (raw_field <$> inner_schema i).
(** [ArrowAvro::build] *)
Definition avro_build (n : nat) (sid : Z) (writer_schema : string) : result string ArrowAvroDecoder :=
  let writer_schema := valid_logical_types writer_schema in
  let? inner := arrow_avro_decoder n sid writer_schema in
  Ok {| inner := inner;
        wire := v ← from_str writer_schema; ok (wire_new v);
        renew := if holds_union (inner_type inner) then Some (sid, writer_schema) else None |}.

(** [walk] *)
Definition avro_walk (d : ArrowAvroDecoder) (framed : list Z) : result string unit :=
  match wire d with
  | None => Ok tt
  | Some w =>
      let body := drop HEADER_LEN framed in
      match record_len w body with
      | Ok n => if n =? Z.of_nat (length body) then Ok tt else Err "unexpected bytes after the record"%string
      | Err _ => Err "malformed Avro body"%string
      end
  end.

(** [decode_one] *)
Definition avro_decode_one (d : ArrowAvroDecoder) (framed : list Z) : ArrowAvroDecoder * result string unit :=
  let before := capacity (inner d) in
  if before =? 0 then (d, Err "internal: the decoder is full"%string)
  else
    let '(i, r) := inner_decode (inner d) framed in
    let d := set_inner i d in
    let rows := Z.max 0 (before - capacity i) in
    (d, match r with
        | Panicked _ => Err "the Avro decoder failed on this message"%string
        | Failed e => if rows =? 0 then Err ("malformed Avro body: " +:+ e) else Err "unexpected bytes after the record"%string
        | Took read =>
            if rows =? 1 then
              if (read =? length framed)%nat then avro_walk d framed else Err "unexpected bytes after the record"%string
            else if rows =? 0 then
              if (length framed <=? HEADER_LEN)%nat then Err "truncated: no Avro body after the 5-byte header"%string
              else Err "truncated: the Avro body ends inside a value"%string
            else Err "the message holds several records, not one"%string
        end).

(** [flush] *)
Definition avro_flush (n : nat) (d : ArrowAvroDecoder) : ArrowAvroDecoder * result string (option RawBatch) :=
  match renew d with
  | Some (sid, schema) =>
      match arrow_avro_decoder n sid schema with
      | Err e => (d, Err ("cannot renew the decoder: " +:+ e))
      | Ok fresh => (set_inner fresh d, (inner_flush n (inner d)).2)
      end
  | None => let '(i, r) := inner_flush n (inner d) in (set_inner i d, r)
  end.

Definition ArrowAvro_Decode : Decode ArrowAvroDecoder :=
  {| decoder_schema := λ d, inner_schema (inner d); decode_one := avro_decode_one; flush_rows := avro_flush |}.
Definition ArrowAvro : DecodeFactory ArrowAvroDecoder := avro_build.

(** [raw_schema], [decoded_schema] *)
Definition raw_schema (n : nat) (schema : RegisteredSchema) : result string (list RawField) :=
  let? _ := top_level_record (from_str (text schema)) in
  let? d := avro_build n (id schema) (text schema) in
  Ok (inner_schema (inner d)).
Definition decoded_schema (n : nat) (schema : RegisteredSchema) : result string Schema :=
  let? raw := raw_schema n schema in
  let? b := normalise (fixed_uuids (from_str (text schema)))
              {| rb_schema := raw; rb_columns := (λ _, []) <$> raw; rb_num_rows := 0 |} in
  Ok (b_schema b).
End ArrowAvro.
