(* ===== verification/DecodeCorrect.v ===== *)
(** * DecodeCorrect: every message is a row of its own, or undecodable (src/kafka/decode.rs)

    What a Kafka pipeline's decoder hands over, whatever its decoders, the registry and
    concat_batches answer: each message fed is in one chunk of rows or is undecodable, once, and
    the rows of a writer schema are in the order fed.  And where they answer as they document,
    [Laws], the row of each is the one its own bytes decode to. *)

From Stdlib Require Import ZArith Lia.
From stdpp Require Import base list sorting strings gmap.
From S2P Require Import Prelude Error F64 Json Wire Schema Fractions Coerce Union ConformBatch Registry Decode.

Open Scope Z_scope.
Open Scope ddi_scope.

(** A chunk of messages, by writer schema id. *)
Abbreviation Chunk := (Z * list KafkaMessage)%type.

(** The writer schema id a message names. *)
Definition has_id (i : Z) (m : KafkaMessage) : bool :=
  match frame (value_of m) with Ok j => j =? i | Err _ => false end.
Definition chunks_of (i : Z) (cs : list Chunk) : list KafkaMessage := mjoin (snd <$> filter (λ c, c.1 = i) cs).
Definition all_of (cs : list Chunk) : list KafkaMessage := mjoin (snd <$> cs).

Definition with_id (i : Z) (ms : list KafkaMessage) : list KafkaMessage := filter (λ m, has_id i m = true) ms.

Ltac u64_lia := unfold u64 in *; change (2 ^ 64) with 18446744073709551616 in *; Z.div_mod_to_equations; lia.
Lemma raw_of_app a b : raw_of (a ++ b) = u64 (raw_of a + raw_of b).
Proof.
  unfold raw_of, u64. rewrite <- Zplus_mod. f_equal. induction a as [|m a IH]; simpl; [done|]. rewrite IH. lia.
Qed.
Lemma raw_of_one m : raw_of [m] = u64 (raw_len m).
Proof. unfold raw_of. simpl. by rewrite Z.add_0_r. Qed.
Lemma raw_of_perm a b : a ≡ₚ b → raw_of a = raw_of b.
Proof. intros H. unfold raw_of. f_equal. induction H; simpl; lia. Qed.
Lemma chunks_of_app i a b : chunks_of i (a ++ b) = chunks_of i a ++ chunks_of i b.
Proof. unfold chunks_of. by rewrite filter_app, fmap_app, join_app. Qed.
Lemma all_of_app a b : all_of (a ++ b) = all_of a ++ all_of b.
Proof. unfold all_of. by rewrite fmap_app, join_app. Qed.
Lemma with_id_app i a b : with_id i (a ++ b) = with_id i a ++ with_id i b.
Proof. apply filter_app. Qed.
Lemma with_id_all i ms : Forall (λ m, has_id i m = true) ms → with_id i ms = ms.
Proof. induction 1 as [|m ms Hm _ IH]; [done|]. unfold with_id in *. rewrite filter_cons_True by done. by rewrite IH. Qed.
Lemma with_id_none i j ms : i ≠ j → Forall (λ m, has_id j m = true) ms → with_id i ms = [].
Proof.
  intros Hn. induction 1 as [|m ms Hm _ IH]; [done|]. unfold with_id in *. rewrite filter_cons_False; [done|].
  unfold has_id in *. destruct (frame _); [|done]. lia.
Qed.
Lemma with_id_sublist i a b : a `sublist_of` b → with_id i a `sublist_of` with_id i b.
Proof.
  unfold with_id. induction 1 as [|m a b _ IH|m a b _ IH]; [done|rewrite !filter_cons..].
  - case_decide; [by apply sublist_skip|done].
  - case_decide; [by apply sublist_cons|done].
Qed.

(** A chunk's batch has a row for each message, with its own metadata. *)
Definition carries (topic prefix : string) (b : Batch) (c : Chunk) : Prop :=
  num_rows b = length c.2 ∧ well_formed b ∧
  ∃ fs cs, b_schema b = fs ++ metadata_fields prefix ∧ b_columns b = cs ++ metadata_columns topic c.2 c.1.
(** What is said to be undecodable is the message. *)
Definition names (r : KafkaMessage * Undecodable) : Prop :=
  u_partition r.2 = m_partition r.1 ∧ u_offset r.2 = m_offset r.1.

(** ** Groups by id *)

Section Groups.
Context {D : Type}.
Implicit Types gs : list (Z * Group (D := D)).

Definition ascending gs : Prop := StronglySorted (λ a b, a.1 < b.1) gs.
(** The messages in the groups' chunks. *)
Definition group_held (g : Group (D := D)) : list KafkaMessage := match g with G_Ready r => chunk r | _ => [] end.
Definition held gs : list KafkaMessage := mjoin ((λ g, group_held g.2) <$> gs).

Lemma group_of_split i gs g : ascending gs → group_of i gs = Some g →
  ∃ l l', gs = l ++ (i, g) :: l' ∧ ∀ g', put_group i g' gs = l ++ (i, g') :: l'.
Proof.
  induction 1 as [|[j h] gs Hs IH Hlt]; [done|]. unfold group_of in *. simpl. destruct (Z.eqb_spec j i) as [->|Hne].
  - intros [= ->]. exists [], gs. split; [done|]. intros g'. by rewrite Z.eqb_refl.
  - intros H. destruct (IH H) as (l & l' & -> & Hput). exists ((j, h) :: l), l'. split; [done|]. intros g'. simpl.
    apply Forall_app in Hlt as [_ Hlt]. apply Forall_inv in Hlt. simpl in Hlt.
    rewrite (proj2 (Z.eqb_neq i j)) by lia. rewrite (proj2 (Z.ltb_ge i j)) by lia. by rewrite Hput.
Qed.
Lemma put_group_new i g gs : group_of i gs = None → ∃ l l', gs = l ++ l' ∧ put_group i g gs = l ++ (i, g) :: l'.
Proof.
  unfold group_of. induction gs as [|[j h] gs IH]; [by exists [], []|]. simpl. destruct (Z.eqb_spec j i) as [->|Hne]; [done|].
  intros H. rewrite (proj2 (Z.eqb_neq i j)) by lia. destruct (i <? j); [by exists [], ((j, h) :: gs)|].
  destruct (IH H) as (l & l' & -> & ->). by exists ((j, h) :: l), l'.
Qed.
Lemma put_group_Forall (P : Z * Group (D := D) → Prop) i g gs : P (i, g) → Forall P gs → Forall P (put_group i g gs).
Proof.
  intros Hg. induction 1 as [|[j h] gs Hj Hgs IH]; simpl; [by constructor|].
  destruct (i =? j); [by constructor|]. destruct (i <? j); [by repeat constructor|by constructor].
Qed.
Lemma put_group_ascending i g gs : ascending gs → ascending (put_group i g gs).
Proof.
  induction 1 as [|[j h] gs Hs IH Hlt]; simpl; [by repeat constructor|].
  destruct (Z.eqb_spec i j) as [->|Hne]; [by constructor|]. destruct (Z.ltb_spec i j).
  - constructor; [by constructor|]. constructor; [done|]. eapply Forall_impl; [exact Hlt|]. simpl. intros; lia.
  - constructor; [done|]. apply put_group_Forall; [simpl; lia|done].
Qed.
Lemma group_of_put i g gs : ascending gs → group_of i (put_group i g gs) = Some g.
Proof.
  unfold group_of. induction 1 as [|[j h] gs Hs IH Hlt]; simpl; [by rewrite Z.eqb_refl|].
  destruct (Z.eqb_spec i j) as [->|Hne]; simpl; [by rewrite Z.eqb_refl|]. destruct (Z.ltb_spec i j); simpl; [by rewrite Z.eqb_refl|].
  by rewrite (proj2 (Z.eqb_neq j i)) by lia.
Qed.
Lemma held_app a b : held (a ++ b) = held a ++ held b.
Proof. unfold held. by rewrite fmap_app, join_app. Qed.
Lemma held_mid l i g l' : held (l ++ (i, g) :: l') = held l ++ group_held g ++ held l'.
Proof. apply held_app. Qed.
Lemma ascending_ids gs : ascending gs ↔ StronglySorted Z.lt gs.*1.
Proof.
  unfold ascending. induction gs as [|g gs IH]; [split; constructor|]. csimpl. split.
  - intros [Hs Hlt]%StronglySorted_inv. constructor; [by apply IH|]. by apply (Forall_fmap fst (λ x, g.1 < x)).
  - intros [Hs Hlt]%StronglySorted_inv. constructor; [by apply IH|]. by apply (Forall_fmap fst (λ x, g.1 < x)) in Hlt.
Qed.
Lemma ascending_keys gs gs' : gs'.*1 `sublist_of` gs.*1 → ascending gs → ascending gs'.
Proof.
  rewrite !ascending_ids. intros Hs Hgs. induction Hs as [|a l l' Hs IH|a l l' Hs IH]; [done| |].
  - apply StronglySorted_inv in Hgs as [H Hlt]. constructor; [by apply IH|]. rewrite Forall_forall in Hlt |- *.
    intros x Hx. by apply Hlt, (sublist_subseteq _ _ Hs).
  - apply IH. by apply StronglySorted_inv in Hgs as [H _].
Qed.
Lemma held_put_new i g gs : group_of i gs = None → group_held g = [] → held (put_group i g gs) = held gs.
Proof.
  intros H Hg. destruct (put_group_new i g gs H) as (l & l' & -> & ->). by rewrite held_mid, held_app, Hg.
Qed.
End Groups.

(** ** The fuel of [named_fixed] is enough *)

Lemma fold_left_ext {A B} (f g : A → B → A) l : (∀ x, x ∈ l → ∀ a, f a x = g a x) → ∀ a, fold_left f l a = fold_left g l a.
Proof.
  induction l as [|x l IH]; intros H a; [done|]. simpl. rewrite (H x) by left. apply IH. intros y Hy. apply H. by right.
Qed.
Lemma named_fixed_fuel n : ∀ n' v ns out, (depth_of v < n)%nat → (depth_of v < n')%nat →
  named_fixed_at n v ns out = named_fixed_at n' v ns out.
Proof.
  induction n as [|n IH]; intros [|n'] v ns out Hn Hn'; try lia.
  assert (Hkey : ∀ k w, get_key k v = Some w → ∀ ns out, named_fixed_at n w ns out = named_fixed_at n' w ns out).
  { intros k w Hw%get_key_depth ns' out'. apply IH; lia. }
  simpl. destruct v as [| | | | |branches|fields]; try done.
  - apply fold_left_ext. intros b Hb%array_depth out'. apply IH; lia.
  - set (o := Json.V_Object fields) in *. clearbody o. destruct (get_key "type" o) as [[| | | |t|l|l]|] eqn:Et; try done.
    + destruct (_ || _).
      * apply fold_left_ext. intros f Hf out'. destruct (get_key "type" f) as [w|] eqn:Ew; [|done].
        destruct (get_key "fields" o) as [fs|] eqn:Efs; [|by apply elem_of_nil in Hf]. destruct fs; try by apply elem_of_nil in Hf.
        simpl in Hf. apply get_key_depth in Efs, Ew. apply array_depth in Hf. apply IH; lia.
      * destruct (bool_decide _); [destruct (get_key "items" o) eqn:E; [by apply (Hkey _ _ E)|done]|].
        destruct (bool_decide _); [destruct (get_key "values" o) eqn:E; [by apply (Hkey _ _ E)|done]|done].
    + by apply (Hkey _ _ Et).
    + by apply (Hkey _ _ Et).
Qed.

Section Correct.
Context {D : Type} {HD : Decode D} {HF : DecodeFactory D}.
Context (from_str : string → option Json.Value) (measured_size : Batch → Z).
Context (concat_batches : list Batch → option Batch) (b64 : list Z → string).
Context (topic prefix : string).

(** ** What the decoders promise *)

(** The registered text of each writer schema; the rows a decoder of one holds, by their
    messages' bytes; a row's fields and values; which messages decode. *)
Context (texts : Z → string) (holds : Z → D → list (list Z) → Prop).
Context (fields_of : Z → list RawField) (row_of : Z → list Z → list (option Value)).
Context (good : Z → list Z → Prop).
(** The registry has the writer schema as undecodable. *)
Context (refused : Z → Prop).

Definition uuids (i : Z) : Uuids := fixed_uuids (from_str (texts i)).
Definition raw_rows (i : Z) (vs : list (list Z)) : RawBatch :=
  {| rb_schema := fields_of i;
     rb_columns := imap (λ j _, (λ v, nth j (row_of i v) None) <$> vs) (fields_of i);
     rb_num_rows := length vs |}.
(** The rows of some batches after each other, in the first's schema. *)
Definition concatenated (bs : list Batch) (b : Batch) : Prop :=
  ∀ b0, head bs = Some b0 → b_schema b = b_schema b0 ∧
    b_columns b = imap (λ j c, Build_Column (c_type c) (mjoin ((λ b, default [] (c_values <$> b_columns b !! j)) <$> bs)))
                    (b_columns b0).

Record Laws := {
  (** A schema that built builds again, and what is built is empty. *)
  law_build n i d : build_decoder n i (texts i) = Ok d →
    holds i d [] ∧ ∀ n', ∃ d', build_decoder n' i (texts i) = Ok d';
  (** A message is taken as one row, and any of the good ones while there is room. *)
  law_decode i d vs v d' : holds i d vs → decode_one d v = (d', Ok tt) → holds i d' (vs ++ [v]);
  law_good i d vs v : holds i d vs → Z.of_nat (length vs) < CHUNK_ROWS → good i v → (decode_one d v).2 = Ok tt;
  (** As many rows as messages are the messages' rows. *)
  law_flush n i d vs d' b : holds i d vs → vs ≠ [] → flush_rows n d = (d', Ok (Some b)) → rb_num_rows b = length vs →
    b = raw_rows i vs ∧ holds i d' [];
  law_alone n i d v : holds i d [v] → good i v →
    ∃ b, (flush_rows n d).2 = Ok (Some b) ∧ rb_num_rows b = 1%nat ∧ is_ok (normalise (uuids i) b) = true;
  law_concat bs b : concat_batches bs = Some b → concatenated bs b;
}.

(** What is shown under [Laws] is shown together with what holds without. *)
Context (Lawful : Prop) (laws : Lawful → Laws).

(** ** What is handed over *)

Definition data_columns (i : Z) (ms : list KafkaMessage) : list Column :=
  imap (λ j f, Build_Column (normal_type (uuids i) (rf_meta f) (rf_type f))
                 ((λ m, normal_of (uuids i) f (nth j (row_of i (value_of m)) None)) <$> ms)) (fields_of i).
(** A chunk's batch: what each message's bytes decode to, normalised, before its metadata. *)
Definition decoded_rows (b : Batch) (c : Chunk) : Prop :=
  b_schema b = (normal_field (uuids c.1) <$> fields_of c.1) ++ metadata_fields prefix ∧
  b_columns b = data_columns c.1 c.2 ++ metadata_columns topic c.2 c.1.
Definition chunk_batch (b : Batch) (c : Chunk) : Prop := carries topic prefix b c ∧ (Lawful → decoded_rows b c).

(** Writer schemas of which no message is decoded. *)
Definition unusable (i : Z) : Prop :=
  refused i ∨ ∃ (k : KafkaDecoder) s reason o, id s = i ∧ text s = texts i ∧ group_for from_str k s = (G_Unusable reason, o).
(** A message is called undecodable for good only if it is. *)
Definition for_good (m : KafkaMessage) : Prop :=
  match frame (value_of m) with Err _ => True | Ok i => unusable i ∨ ¬ good i (value_of m) end.
Definition rejection (r : KafkaMessage * Undecodable) : Prop := names r ∧ (Lawful → u_deterministic r.2 = true → for_good r.1).

(** [o'] has each message of [ms] more than [o], as a row or as undecodable. *)
Definition delivers (ms : list KafkaMessage) (o o' : Out) : Prop :=
  ∃ bs cs rs, batches o' = batches o ++ bs ∧ undecodable o' = undecodable o ++ rs ∧ tombstones o' = tombstones o ∧
    Forall2 chunk_batch bs cs ∧ Forall (λ c, c.2 ≠ []) cs ∧ Forall rejection rs ∧
    ms ≡ₚ all_of cs ++ rs.*1 ∧ ∀ i, chunks_of i cs `sublist_of` with_id i ms.

Lemma delivers_nil o o' : batches o' = batches o → undecodable o' = undecodable o → tombstones o' = tombstones o →
  delivers [] o o'.
Proof. intros Hb Hu Ht. exists [], [], []. rewrite !app_nil_r. split_and!; done. Qed.
Lemma delivers_app a b o1 o2 o3 : delivers a o1 o2 → delivers b o2 o3 → delivers (a ++ b) o1 o3.
Proof.
  intros (bs & cs & rs & Hb & Hu & Ht & H2 & Hne & Hr & Hp & Hs) (bs' & cs' & rs' & Hb' & Hu' & Ht' & H2' & Hne' & Hr' & Hp' & Hs').
  exists (bs ++ bs'), (cs ++ cs'), (rs ++ rs'). split_and!.
  - by rewrite Hb', Hb, app_assoc.
  - by rewrite Hu', Hu, app_assoc.
  - by rewrite Ht'.
  - by apply Forall2_app.
  - by apply Forall_app.
  - by apply Forall_app.
  - rewrite Hp, Hp', all_of_app, fmap_app. solve_Permutation.
  - intros i. rewrite chunks_of_app, with_id_app. by apply sublist_app.
Qed.
Lemma reject_delivers m sid reason det o : (Lawful → det = true → for_good m) → delivers [m] o (reject m sid reason det o).
Proof.
  intros H. exists [], [], [(m, {| u_partition := m_partition m; u_offset := m_offset m; u_schema_id := sid;
                                   u_reason := reason; u_deterministic := det |})].
  rewrite app_nil_r. split_and!; try done; [by repeat constructor|]. intros i. apply sublist_nil_l.
Qed.
Lemma reject_all_delivers ms sid reason o : delivers ms o (reject_all ms sid reason o).
Proof.
  revert o. induction ms as [|m ms IH]; intros o; [by apply delivers_nil|].
  apply (delivers_app [m] ms _ _ _ (reject_delivers m sid reason false o ltac:(done))), IH.
Qed.
Lemma reject_all_pending ms sid reason o :
  pending_raw (reject_all ms sid reason o) = pending_raw o ∧ ticks (reject_all ms sid reason o) = ticks o.
Proof. revert o. induction ms as [|m ms IH]; intros o; [done|]. apply (IH (reject m sid reason false o)). Qed.

(** *** [emit] *)

Lemma try_new_metadata fs cs ms sid b :
  try_new (fs ++ metadata_fields prefix) (cs ++ metadata_columns topic ms sid) = Some b →
  num_rows b = length ms ∧ well_formed b ∧ b_schema b = fs ++ metadata_fields prefix ∧
  b_columns b = cs ++ metadata_columns topic ms sid.
Proof.
  intros H. assert (Hw : well_formed b).
  { unfold well_formed, try_new in *. destruct (cs ++ _); [done|]. destruct (fits_fields _ _ _) eqn:E; [|done]. by injection H as <-. }
  destruct (try_new_spec _ _ _ H) as (Hfs & Hcs & _). split_and!; [|done..].
  pose proof (well_formed_regular _ Hw) as Hr. unfold regular in Hr. rewrite Hcs in Hr.
  apply Forall_app in Hr as [_ Hr]. apply Forall_inv in Hr. simpl in Hr. by rewrite length_fmap in Hr.
Qed.
Lemma chunks_of_one i sid ms : Forall (λ m, has_id sid m = true) ms →
  chunks_of i [(sid, ms)] `sublist_of` with_id i ms.
Proof.
  intros Hi. unfold chunks_of. destruct (decide (sid = i)) as [->|Hne].
  - rewrite filter_cons_True by done. simpl. by rewrite app_nil_r, with_id_all.
  - rewrite filter_cons_False by done. apply sublist_nil_l.
Qed.
Lemma emit_delivers rows sid ms raw o : ms ≠ [] → Forall (λ m, has_id sid m = true) ms →
  (Lawful → b_schema rows = normal_field (uuids sid) <$> fields_of sid ∧ b_columns rows = data_columns sid ms) →
  let o' := emit measured_size topic prefix sid rows ms raw o in
  delivers ms o o' ∧ pending_raw o' = pending_raw o.
Proof.
  intros Hne Hi Hl. unfold emit. destruct (try_new _ _) as [b|] eqn:E; simpl; [|split; [apply reject_all_delivers|apply reject_all_pending]].
  split; [|done]. apply try_new_metadata in E as (Hn & Hw & Hfs & Hcs). exists [b], [(sid, ms)], [].
  rewrite app_nil_r. split_and!; try done; [|by repeat constructor| |by intros; apply chunks_of_one].
  - constructor; [|done]. split; [split_and!; [done|done|by exists (b_schema rows), (b_columns rows)]|].
    intros L. destruct (Hl L) as [Hs Hc]. split; simpl; [by rewrite Hfs, Hs|by rewrite Hcs, Hc].
  - unfold all_of. simpl. by rewrite !app_nil_r.
Qed.

(** *** Rows *)

(** A batch of the messages' normalised rows. *)
Definition rows_of (i : Z) (ms : list KafkaMessage) (b : Batch) : Prop :=
  b_schema b = normal_field (uuids i) <$> fields_of i ∧ b_columns b = data_columns i ms.

Lemma normalise_rows i ms b : normalise (uuids i) (raw_rows i (value_of <$> ms)) = Ok b → rows_of i ms b.
Proof.
  unfold normalise. destruct (try_new _ _) as [b'|] eqn:E; [|done]. intros [= ->].
  destruct (try_new_spec _ _ _ E) as (Hs & Hc & _). split; [done|]. rewrite Hc. unfold data_columns, raw_rows. simpl.
  clear. apply list_eq. intros j. rewrite lookup_zip_with, !list_lookup_imap.
  destruct (fields_of i !! j) as [f|]; [|done]. simpl. do 2 f_equal. rewrite <- !list_fmap_compose. done.
Qed.
Lemma concat_column i j f bs ms : fields_of i !! j = Some f → Forall2 (λ b m, rows_of i [m] b) bs ms →
  mjoin ((λ b, default [] (c_values <$> b_columns b !! j)) <$> bs) =
  (λ m, normal_of (uuids i) f (nth j (row_of i (value_of m)) None)) <$> ms.
Proof.
  intros Ef. induction 1 as [|b1 m bs ms [_ Hb] _ IH]; [done|]. csimpl. rewrite IH, Hb. unfold data_columns.
  by rewrite list_lookup_imap, Ef.
Qed.
Lemma concat_rows i b ms bs : bs ≠ [] → Forall2 (λ b m, rows_of i [m] b) bs ms → concatenated bs b → rows_of i ms b.
Proof.
  intros Hne H2 Hc. destruct bs as [|b0 bs]; [done|]. destruct (Hc b0 eq_refl) as [Hs Hcs].
  assert (H0 : ∃ m0, rows_of i [m0] b0) by (inversion H2; eauto). destruct H0 as (m0 & Hs0 & Hc0).
  split; [by rewrite Hs|]. rewrite Hcs, Hc0. unfold data_columns. apply list_eq. intros j.
  rewrite !list_lookup_imap. destruct (fields_of i !! j) as [f|] eqn:Ef; [|done].
  pose proof (concat_column _ _ _ _ _ Ef H2) as E. simpl in *. by rewrite <- E.
Qed.

(** *** [flush_one_by_one] *)

(** The first messages of a chunk, one by one: kept with their rows, or rejected. *)
Definition so_far (i : Z) (o : Out) (ms : list KafkaMessage) (s : Alone (D := D)) : Prop :=
  pending_raw (a_out s) = pending_raw o ∧ batches (a_out s) = batches o ∧ tombstones (a_out s) = tombstones o ∧
  (∃ rs, undecodable (a_out s) = undecodable o ++ rs ∧ Forall rejection rs ∧ ms ≡ₚ a_kept s ++ rs.*1) ∧
  a_kept s `sublist_of` ms ∧ length (a_rows s) = length (a_kept s) ∧
  (Lawful → Forall2 (λ b m, rows_of i [m] b) (a_rows s) (a_kept s) ∧ (a_clean s = true → holds i (a_decoder s) [])).

(** A group's writer schema and decoder, when it is known what it holds. *)
Definition known (i : Z) (g : Ready (D := D)) : Prop :=
  text (r_schema g) = texts i ∧ r_fixed_uuids g = uuids i ∧ ∀ n, ∃ d, build_decoder n i (texts i) = Ok d.

Lemma lawful_for_good i m : has_id i m = true → ¬ good i (value_of m) → for_good m.
Proof.
  unfold has_id, for_good. destruct (frame _) as [j|]; [|done]. intros ->%Z.eqb_eq. by right.
Qed.

(** What decoding a message alone comes to. *)
Definition came_out (i : Z) (m : KafkaMessage) (o : Out) (x : bool * D * Out * result (bool * string) Batch) : Prop :=
  let '(clean, d, o', r) := x in
  pending_raw o' = pending_raw o ∧ batches o' = batches o ∧ tombstones o' = tombstones o ∧ undecodable o' = undecodable o ∧
  (Lawful → (clean = true → holds i d []) ∧
    match r with Ok b => rows_of i [m] b | Err (internal, _) => internal = false → for_good m end).

Lemma decode_into_spec i g d m o : has_id i m = true → (Lawful → known i g ∧ holds i d []) →
  came_out i m o (decode_into g d m o).
Proof.
  intros Hi Hk. unfold decode_into. destruct (decode_one d (value_of m)) as [d1 [[]|e]] eqn:E1.
  - destruct (flush_rows (ticks o) d1) as [d2 r] eqn:E2.
    assert (Hh : Lawful → holds i d1 [value_of m]).
    { intros HL. apply (law_decode (laws HL) i d []) in E1; [done|by apply Hk]. }
    assert (Hbad : Lawful → (∀ b, r = Ok (Some b) → rb_num_rows b = 1%nat → is_ok (normalise (uuids i) b) = false) → for_good m).
    { intros HL Hr. apply (lawful_for_good i); [done|]. intros Hg.
      destruct (law_alone (laws HL) (ticks o) i d1 _ (Hh HL) Hg) as (b & Hb & Hn & Hok).
      rewrite E2 in Hb. simpl in Hb. specialize (Hr b Hb Hn). by rewrite Hok in Hr. }
    destruct r as [[b|]|e]; [|split_and!; try done; intros HL; split; [done|intros _; by apply Hbad]..].
    destruct (Nat.eqb_spec (rb_num_rows b) 1) as [En|En].
    + split_and!; try done. intros HL. destruct (Hk HL) as [(Ht & Hu & _) _].
      assert (Hne : [value_of m] ≠ []) by done.
      destruct (law_flush (laws HL) _ _ _ _ _ _ (Hh HL) Hne E2 En) as [Hb Hd2]. split; [done|].
      rewrite Hu. destruct (normalise (uuids i) b) as [b'|e] eqn:E3.
      * subst b. by apply (normalise_rows i [m]).
      * intros _. apply Hbad; [done|]. intros b0 [= ->] _. by rewrite E3.
    + split_and!; try done. intros HL. split; [done|]. intros _. apply Hbad; [done|]. by intros b0 [= ->] ?.
  - split_and!; try done. intros HL. split; [done|]. intros _. destruct (Hk HL) as [_ Hh].
    apply (lawful_for_good i); [done|]. intros Hg.
    assert (Hlt : Z.of_nat (length (A := list Z) []) < CHUNK_ROWS) by done.
    pose proof (law_good (laws HL) i d [] _ Hh Hlt Hg) as H. by rewrite E1 in H.
Qed.
Lemma decode_alone_spec i g clean d m o : has_id i m = true → (Lawful → known i g ∧ (clean = true → holds i d [])) →
  came_out i m o (decode_alone i g clean d m o).
Proof.
  intros Hi Hk. unfold decode_alone. destruct clean.
  - apply decode_into_spec; [done|]. intros HL. split; by apply Hk.
  - destruct (build_decoder (ticks o) i (text (r_schema g))) as [d1|e] eqn:E.
    + apply (decode_into_spec i g d1 m (tick o)); [done|]. intros HL. destruct (Hk HL) as [Hkn _]. split; [done|].
      destruct Hkn as (Ht & _). rewrite Ht in E. by apply (law_build (laws HL)) in E as [? _].
    + by split_and!.
Qed.

Lemma alone_so_far i g o ms s m : has_id i m = true → (Lawful → known i g) → so_far i o ms s →
  so_far i o (ms ++ [m]) (alone i g s m).
Proof.
  intros Hi Hk (Hp & Hb & Ht & (rs & Hu & Hr & Hperm) & Hsub & Hlen & HL). unfold alone.
  pose proof (decode_alone_spec i g (a_clean s) (a_decoder s) m (a_out s) Hi) as H.
  destruct (decode_alone _ _ _ _ _ _) as [[[clean d] o'] r].
  destruct H as (Hp' & Hb' & Ht' & Hu' & HL'); [intros L; split; [by apply Hk|by apply HL]|].
  destruct r as [b|[internal e]].
  - split_and!; simpl; [by rewrite Hp'|by rewrite Hb'|by rewrite Ht'| | | |].
    + exists rs. split_and!; [by rewrite Hu'|done|]. rewrite Hperm. solve_Permutation.
    + by apply sublist_app.
    + by rewrite !length_app, Hlen.
    + intros L. destruct (HL L), (HL' L). split; [|done].
      apply Forall2_app; [done|]. by constructor; [|constructor].
  - assert (Hd : ∃ reason det, (Lawful → det = true → for_good m) ∧
      (if internal then reject m (Some i) (cannot_decode e) false o'
       else reject m (Some i) ("cannot turn the decoded record into Arrow: " +:+ e) true o') = reject m (Some i) reason det o').
    { destruct internal; eexists _, _; (split; [|done]); [done|]. intros L _. by apply (HL' L). }
    destruct Hd as (reason & det & Hdet & ->).
    split_and!; simpl; [by rewrite Hp'|by rewrite Hb'|by rewrite Ht'| | |done|].
    + eexists (rs ++ [(m, _)]). split_and!; [by rewrite Hu', Hu, <- app_assoc|apply Forall_app; split; [done|]|].
      * by repeat constructor.
      * rewrite Hperm, fmap_app. solve_Permutation.
    + rewrite <- (app_nil_r (a_kept s)). apply sublist_app; [done|]. apply sublist_nil_l.
    + intros L. destruct (HL L), (HL' L). done.
Qed.
Lemma alone_all i g o ms ms' s : Forall (λ m, has_id i m = true) ms' → (Lawful → known i g) → so_far i o ms s →
  so_far i o (ms ++ ms') (fold_left (alone i g) ms' s).
Proof.
  intros Hi Hk. revert ms s. induction Hi as [|m ms' Hm _ IH]; intros ms s Hs; simpl; [by rewrite app_nil_r|].
  replace (ms ++ m :: ms') with ((ms ++ [m]) ++ ms') by by rewrite <- app_assoc. by apply IH, alone_so_far.
Qed.

(** What a group is after a call, and what it holds. *)
Definition ready (i : Z) (g : Ready (D := D)) : Prop :=
  Forall (λ m, has_id i m = true) (chunk g) ∧
  (Lawful → known i g ∧ holds i (decoder g) (value_of <$> chunk g)).

Lemma known_builds i g n : (Lawful → known i g) → Lawful →
  match build_decoder n i (text (r_schema g)) with Ok d => holds i d [] | Err _ => False end.
Proof.
  intros Hk L. destruct (Hk L) as (-> & _ & Hb). destruct (Hb n) as [d Hd]. rewrite Hd.
  by apply (law_build (laws L)) in Hd as [? _].
Qed.

Lemma delivers_rest ms kept rs o o1 o' : batches o1 = batches o → undecodable o1 = undecodable o ++ rs →
  tombstones o1 = tombstones o → Forall rejection rs → ms ≡ₚ kept ++ rs.*1 → kept `sublist_of` ms →
  delivers kept o1 o' → delivers ms o o'.
Proof.
  intros Hb Hu Ht Hr Hperm Hsub (bs & cs & rs' & Hb' & Hu' & Ht' & H2 & Hne & Hr' & Hp' & Hs').
  exists bs, cs, (rs ++ rs'). split_and!; [by rewrite Hb', Hb|by rewrite Hu', Hu, app_assoc|by rewrite Ht'|done|done| | |].
  - by apply Forall_app.
  - rewrite Hperm, Hp', fmap_app. solve_Permutation.
  - intros j. transitivity (with_id j kept); [done|]. by apply with_id_sublist.
Qed.
Lemma flush_one_by_one_delivers i g ms o : chunk g = [] → Forall (λ m, has_id i m = true) ms → (Lawful → known i g) →
  let '(g', o') := flush_one_by_one measured_size concat_batches topic prefix i g ms o in
  delivers ms o o' ∧ pending_raw o' = pending_raw o ∧ chunk g' = [] ∧ ready i g'.
Proof.
  intros Hch Hi Hk. unfold flush_one_by_one.
  set (s0 := {| a_clean := false; a_decoder := decoder g; a_rows := []; a_kept := []; a_out := o |}).
  pose proof (alone_all i g o [] ms s0 Hi Hk) as H. set (s := fold_left (alone i g) ms s0) in *.
  destruct H as (Hp & Hb & Ht & (rs & Hu & Hr & Hperm) & Hsub & Hlen & HL).
  { split_and!; simpl; try done. exists []. by rewrite app_nil_r. }
  simpl in Hperm, Hsub.
  destruct (if a_clean s then _ else _) as [d o1] eqn:E.
  assert (Ho1 : pending_raw o1 = pending_raw o ∧ batches o1 = batches o ∧ tombstones o1 = tombstones o ∧
                undecodable o1 = undecodable o ++ rs ∧ (Lawful → holds i d [])).
  { destruct (a_clean s) eqn:Ec; simplify_eq.
    - split_and!; try done. intros L. by apply (HL L).
    - split_and!; try done. intros L. pose proof (known_builds i g (ticks (a_out s)) Hk L) as Hbuilt.
      by destruct (build_decoder _ _ _). }
  clear E. destruct Ho1 as (Hp1 & Hb1 & Ht1 & Hu1 & Hd).
  assert (Hg : chunk (set_decoder d g) = [] ∧ ready i (set_decoder d g)).
  { split; [done|]. split; simpl; rewrite Hch; [done|]. intros L. split; [by apply Hk|by apply Hd]. }
  assert (Hkept : Forall (λ m, has_id i m = true) (a_kept s)).
  { rewrite Hperm in Hi. by apply Forall_app in Hi as [? _]. }
  assert (Hall : ∀ o', delivers (a_kept s) o1 o' → delivers ms o o') by (intros o'; by apply (delivers_rest _ (a_kept s) rs)).
  destruct (a_rows s) as [|b0 bs0] eqn:Erows.
  - assert (Hnil : a_kept s = []) by by apply length_zero_iff_nil. 
    split_and!; try apply Hg; [|done]. apply Hall. rewrite Hnil. by apply delivers_nil.
  - rewrite <- Erows in *. destruct (concat_batches (a_rows s)) as [b|] eqn:Ec.
    + assert (Hne : a_kept s ≠ []) by (intros E; by rewrite E, Erows in Hlen).
      pose proof (emit_delivers b i (a_kept s) (raw_of (a_kept s)) o1 Hne Hkept) as H. 
      destruct H as [H1 H2].
      { intros L. apply (concat_rows i b _ (a_rows s)); [by rewrite Erows|by apply HL|]. by apply (law_concat (laws L)). }
      split_and!; try apply Hg; [by apply Hall|by rewrite H2].
    + split_and!; try apply Hg; [by apply Hall, reject_all_delivers|].
      by rewrite (proj1 (reject_all_pending _ _ _ _)).
Qed.

(** *** [flush], [isolate] and [decode] *)

Lemma flush_delivers i g o : ready i g →
  let '(g', o') := flush measured_size concat_batches topic prefix i g o in
  delivers (chunk g) o o' ∧ u64 (pending_raw o') = u64 (pending_raw o - raw_of (chunk g)) ∧
  chunk g' = [] ∧ ready i g'.
Proof.
  intros [Hi Hk]. unfold flush. destruct (chunk g) as [|m ms] eqn:Ech.
  { split_and!; [by apply delivers_nil|by rewrite Z.sub_0_r|done|]. split; rewrite Ech; done. }
  rewrite <- Ech in *. set (o1 := set_pending _ o). destruct (flush_rows (ticks o1) (decoder g)) as [d r] eqn:Ef.
  set (g1 := set_decoder d (set_chunk [] g)).
  assert (Hknown : Lawful → known i g1) by (intros L; apply (Hk L)).
  destruct (match r with Ok (Some b) => _ | _ => None end) as [rows|] eqn:Er.
  - destruct r as [[b|]|]; try done. destruct (Nat.eqb_spec (rb_num_rows b) (length (chunk g))) as [En|]; [|done].
    destruct (normalise (r_fixed_uuids g1) b) as [rows'|] eqn:En'; [|done]. injection Er as ->.
    assert (Hne : chunk g ≠ []) by by rewrite Ech.
    assert (Hfl : Lawful → rows_of i (chunk g) rows ∧ holds i d []).
    { intros L. destruct (Hk L) as [_ Hh]. assert (value_of <$> chunk g ≠ []) by by rewrite Ech.
      destruct (law_flush (laws L) _ _ _ _ _ _ Hh H Ef) as [-> Hd]; [by rewrite length_fmap|]. split; [|done].
      destruct (Hknown L) as (_ & Hu & _). rewrite Hu in En'. by apply normalise_rows. }
    destruct (emit_delivers rows i (chunk g) (raw_of (chunk g)) (tick o1) Hne Hi) as [H1 H2]; [intros L; by apply Hfl|].
    split_and!; [done|rewrite H2; apply Z.mod_mod; lia|done|]. split; [done|]. intros L. split; [by apply Hknown|by apply Hfl].
  - pose proof (flush_one_by_one_delivers i g1 (chunk g) (tick o1) eq_refl Hi Hknown) as H.
    destruct (flush_one_by_one _ _ _ _ _ _ _ _) as [g2 o2]. destruct H as (H1 & H2 & H3 & H4).
    split_and!; [done|rewrite H2; apply Z.mod_mod; lia|done|done].
Qed.

Lemma redecode_spec i ms d k vs : (Lawful → holds i d vs) →
  match redecode d ms k with
  | (d', None) => Lawful → holds i d' (vs ++ (value_of <$> ms))
  | (_, Some (j, _)) => ∃ m, ms !! (j - k)%nat = Some m ∧ (k ≤ j)%nat
  end.
Proof.
  revert d k vs. induction ms as [|m ms IH]; intros d k vs Hd; simpl; [by rewrite app_nil_r|].
  destruct (decode_one d (value_of m)) as [d1 [[]|e]] eqn:E.
  - specialize (IH d1 (S k) (vs ++ [value_of m])). destruct (redecode d1 ms (S k)) as [d2 [[j e]|]].
    + destruct IH as (m' & Hm & Hj); [intros L; apply (law_decode (laws L) _ _ _ _ _ (Hd L) E)|]. exists m'. split; [|lia].
      replace (j - k)%nat with (S (j - S k)) by lia. done.
    + intros L. rewrite <- app_assoc in IH. apply IH; [|done]. intros _. apply (law_decode (laws L) _ _ _ _ _ (Hd L) E).
  - exists m. by rewrite Nat.sub_diag.
Qed.

Definition refuse (sid : Z) (e : string) (o : Out) (m : KafkaMessage) : Out :=
  reject m (Some sid) e false (set_pending (u64 (pending_raw o - raw_len m)) o).
Lemma refuse_delivers sid e o m : delivers [m] o (refuse sid e o m).
Proof. apply (reject_delivers m (Some sid) e false (set_pending (u64 (pending_raw o - raw_len m)) o)). done. Qed.
Lemma refuse_all sid e ms o :
  delivers ms o (fold_left (refuse sid e) ms o) ∧
  u64 (pending_raw (fold_left (refuse sid e) ms o)) = u64 (pending_raw o - raw_of ms).
Proof.
  revert o. induction ms as [|m ms IH]; intros o; simpl; [split; [by apply delivers_nil|by rewrite Z.sub_0_r]|].
  destruct (IH (refuse sid e o m)) as [Hd Hp]. split.
  - apply (delivers_app [m] ms _ _ _ (refuse_delivers sid e o m) Hd).
  - rewrite Hp. simpl. change (m :: ms) with ([m] ++ ms). rewrite raw_of_app, raw_of_one. u64_lia.
Qed.

Lemma isolate_from_delivers i fuel : ∀ g ms o, (length ms < fuel)%nat → chunk g = [] →
  Forall (λ m, has_id i m = true) ms → (Lawful → known i g) →
  let '(g', o') := isolate_from measured_size concat_batches topic prefix i fuel g ms o in
  delivers ms o o' ∧ u64 (pending_raw o') = u64 (pending_raw o - raw_of ms) ∧ chunk g' = [] ∧ ready i g'.
Proof.
  induction fuel as [|fuel IH]; intros g ms o Hf Hch Hi Hk; [lia|]. simpl.
  destruct (build_decoder (ticks o) i (text (r_schema g))) as [d|e] eqn:Eb.
  - assert (Hd : Lawful → holds i d []).
    { intros L. pose proof (known_builds i g (ticks o) Hk L) as H. by rewrite Eb in H. }
    pose proof (redecode_spec i ms d 0 [] Hd) as Hre. destruct (redecode d ms 0) as [d' [[j e]|]].
    + destruct Hre as (m & Hm & _). rewrite Nat.sub_0_r in Hm. rewrite Hm.
      pose proof (delete_Permutation _ _ _ Hm) as Hp.
      assert (Hl : length ms = S (length (delete j ms))) by by rewrite Hp at 1.
      set (o1 := reject m _ _ _ _).
      specialize (IH (set_decoder d' g) (delete j ms) o1). destruct (isolate_from _ _ _ _ _ _ _ _ _) as [g' o'].
      destruct IH as (H1 & H2 & H3 & H4); [lia|done| |done|].
      { rewrite Hp in Hi. by apply Forall_inv_tail in Hi. }
      split_and!; [|rewrite H2|done|done].
      * eapply (delivers_rest _ (delete j ms) [(m, _)] _ o1); [done..| | | |done].
        -- by repeat constructor.
        -- etransitivity; [exact Hp|]. apply Permutation_cons_append.
        -- apply sublist_delete.
      * subst o1. simpl. rewrite (raw_of_perm _ _ Hp). change (m :: delete j ms) with ([m] ++ delete j ms).
        rewrite raw_of_app, raw_of_one. u64_lia.
    + apply (flush_delivers i (set_chunk ms (set_decoder d' g)) (tick o)). split; [done|]. intros L. split; [by apply Hk|by apply Hre].
  - destruct (refuse_all i (cannot_decode e) ms (tick o)) as [H1 H2]. split_and!; [done|done|done|].
    split; rewrite Hch; [done|]. intros L. pose proof (known_builds i g (ticks o) Hk L) as H. by rewrite Eb in H.
Qed.

(** A message taken: what is handed over, and what is then left in the group, are what was in
    the group and the message. *)
Lemma decode_delivers i g o m : ready i g → has_id i m = true → Z.of_nat (length (chunk g)) < CHUNK_ROWS →
  let '(g', o') := decode measured_size concat_batches topic prefix i g o m in
  ∃ ms, delivers ms o o' ∧ ms ++ chunk g' = chunk g ++ [m] ∧ ready i g' ∧
    Z.of_nat (length (chunk g')) < CHUNK_ROWS ∧
    u64 (pending_raw o') = u64 (pending_raw o - raw_of (chunk g) + raw_of (chunk g')).
Proof.
  intros [Hi Hk] Hm Hlt. unfold decode. destruct (decode_one (decoder g) (value_of m)) as [d [[]|e]] eqn:E.
  - set (g1 := set_chunk (chunk g ++ [m]) (set_decoder d g)).
    assert (Hg1 : ready i g1).
    { split; simpl; [apply Forall_app; split; [done|by constructor]|]. intros L. destruct (Hk L) as [Hkn Hh].
      split; [done|]. rewrite fmap_app. by eapply (law_decode (laws L)). }
    simpl. destruct (Z.leb_spec CHUNK_ROWS (Z.of_nat (length (chunk g ++ [m])))).
    + pose proof (flush_delivers i g1 (set_pending (u64 (pending_raw o + raw_len m)) o) Hg1) as H1.
      destruct (flush _ _ _ _ _ _ _) as [g' o']. destruct H1 as (H1 & H2 & H3 & H4). exists (chunk g ++ [m]).
      split_and!; [done|by rewrite H3, app_nil_r|done|by rewrite H3|]. rewrite H2, H3. simpl. rewrite raw_of_app, raw_of_one.
      change (raw_of []) with 0. u64_lia.
    + exists []. split_and!; [by apply delivers_nil|done|done|done|]. simpl. rewrite raw_of_app, raw_of_one. u64_lia.
  - unfold isolate. cbn [chunk set_decoder].
    pose proof (isolate_from_delivers i (S (length (chunk g))) (set_chunk [] (set_decoder d g)) (chunk g) o) as H.
    destruct (isolate_from _ _ _ _ _ _ _ _ _) as [g' o']. destruct H as (H1 & H2 & H3 & H4); [lia|done..| |].
    { intros L. by apply Hk. }
    exists (chunk g ++ [m]). split_and!; [|by rewrite H3, app_nil_r|done|by rewrite H3|].
    + eapply delivers_app; [done|]. apply reject_delivers. intros L _. apply (lawful_for_good i); [done|]. intros Hg.
      destruct (Hk L) as [_ Hh]. pose proof (law_good (laws L) _ _ _ (value_of m) Hh) as H. rewrite length_fmap in H.
      specialize (H Hlt Hg). by rewrite E in H.
    + simpl. rewrite H2, H3. change (raw_of []) with 0. f_equal. lia.
Qed.

(** ** The whole decoder *)

Definition group_ok (g : Z * Group (D := D)) : Prop :=
  match g.2 with
  | G_Ready r => ready g.1 r ∧ Z.of_nat (length (chunk r)) < CHUNK_ROWS
  | G_Unusable _ => Lawful → unusable g.1
  | G_Collision _ => True
  end.
Definition groups_ok (gs : list (Z * Group (D := D))) : Prop := ascending gs ∧ Forall group_ok gs.

Lemma held_with_id i gs : Forall group_ok gs → Forall (λ g, g.1 ≠ i) gs → with_id i (held gs) = [].
Proof.
  intros Hok Hne. induction Hok as [|[j g] gs Hg _ IH]; [done|]. inversion_clear Hne. unfold held. csimpl. rewrite with_id_app.
  change (mjoin ((λ g, group_held g.2) <$> gs)) with (held gs). rewrite IH, app_nil_r by done.
  destruct g as [r| |]; try done. destruct Hg as [[Hi _] _]. apply (with_id_none i j); [simpl in *; lia|done].
Qed.
(** A group's messages are those held with its id. *)
Lemma held_split i g gs : groups_ok gs → group_of i gs = Some g → ∃ l l', gs = l ++ (i, g) :: l' ∧
  (∀ g', put_group i g' gs = l ++ (i, g') :: l') ∧ with_id i (held l) = [] ∧ with_id i (held l') = [].
Proof.
  intros [Hs Hok] Hg. destruct (group_of_split i gs g Hs Hg) as (l & l' & -> & Hput). exists l, l'. split; [done|]. split; [done|].
  apply Forall_app in Hok as [Hl Hl'].
  apply Forall_inv_tail in Hl'. apply StronglySorted_app in Hs as (Hlt & _ & Hs').
  split; apply held_with_id; try done; apply Forall_forall; intros x Hx.
  - specialize (Hlt x (i, g) Hx ltac:(left)). simpl in *. lia.
  - apply StronglySorted_inv in Hs' as [_ Hs']. rewrite Forall_forall in Hs'. specialize (Hs' x Hx). simpl in *. lia.
Qed.

Definition valued (ms : list KafkaMessage) : list KafkaMessage := filter (λ m, is_Some (m_value m)) ms.
Definition tombstones_of (ms : list KafkaMessage) : Z := Z.of_nat (length (filter (λ m, m_value m = None) ms)).

(** A batch so far: each message taken is handed over, or in the chunk of its group. *)
Record taking (k : KafkaDecoder (D := D)) (taken : list KafkaMessage) : Prop := {
  t_topic : Decode.topic k = topic;
  t_prefix : Decode.prefix k = prefix;
  t_groups : groups_ok (groups k);
  t_pending : u64 (pending_raw (out k)) = raw_of (held (groups k));
  t_handed : ∃ o ms, batches o = [] ∧ undecodable o = [] ∧ tombstones o = u64 (tombstones_of taken) ∧
    delivers ms o (out k) ∧ valued taken ≡ₚ ms ++ held (groups k) ∧
    ∀ i, with_id i ms ++ with_id i (held (groups k)) = with_id i (valued taken);
}.

(** The registry has the text of each writer schema, or that it has none. *)
Definition lookup_ok (i : Z) (l : result Error Lookup) : Prop :=
  Lawful → match l with
           | Ok (Avro s) => id s = i ∧ text s = texts i
           | Ok (LookedUpUndecodable _ true) => refused i
           | _ => True
           end.

Lemma valued_snoc ms m : is_Some (m_value m) → valued (ms ++ [m]) = valued ms ++ [m].
Proof. intros H. unfold valued. by rewrite filter_app, filter_cons_True. Qed.
Lemma tombstones_snoc ms m : is_Some (m_value m) → tombstones_of (ms ++ [m]) = tombstones_of ms.
Proof.
  intros [v H]. unfold tombstones_of. rewrite filter_app, filter_cons_False, app_nil_r; [done|]. by rewrite H.
Qed.

(** A message with a value is taken: [ms] of it and what was held are handed over. *)
Lemma taking_step k taken m ms gs o' : taking k taken → is_Some (m_value m) → delivers ms (out k) o' → groups_ok gs →
  ms ++ held gs ≡ₚ held (groups k) ++ [m] →
  (∀ i, with_id i ms ++ with_id i (held gs) = with_id i (held (groups k)) ++ with_id i [m]) →
  u64 (pending_raw o') = raw_of (held gs) →
  taking (with_groups gs o' k) (taken ++ [m]).
Proof.
  intros [Ht Hpr Hg Hp (o & ms0 & Hb & Hu & Hto & Hd & Hperm & Hids)] Hv Hd' Hg' Hperm' Hids' Hp'.
  split; [done..|]. exists o, (ms0 ++ ms). split_and!; try done.
  - by rewrite tombstones_snoc.
  - by apply (delivers_app _ _ _ (out k)).
  - simpl. rewrite valued_snoc, Hperm by done. rewrite <- !app_assoc. by rewrite Hperm'.
  - intros i. simpl. rewrite valued_snoc, !with_id_app, <- app_assoc, Hids', app_assoc, Hids by done. done.
Qed.
(** One that is rejected as it comes, of a writer schema of which nothing is held. *)
Lemma taking_rejects k taken m sid reason det : taking k taken → is_Some (m_value m) →
  (Lawful → det = true → for_good m) → (∀ i, has_id i m = true → with_id i (held (groups k)) = []) →
  taking (with_groups (groups k) (reject m sid reason det (out k)) k) (taken ++ [m]).
Proof.
  intros Ht Hv Hdet Hi. apply (taking_step k taken m [m]); try done.
  - by apply reject_delivers.
  - apply Ht.
  - apply Permutation_app_comm.
  - intros i. destruct (has_id i m) eqn:E; [by rewrite (Hi i E), app_nil_r|].
    unfold with_id at 1 4. rewrite filter_cons_False by by rewrite E. by rewrite app_nil_r.
  - apply Ht.
Qed.
Lemma held_not_ready i gs : groups_ok gs → (∀ g, group_of i gs = Some g → group_held g = []) → with_id i (held gs) = [].
Proof.
  intros Hok Hg. destruct (group_of i gs) as [g|] eqn:E.
  - destruct (held_split i g gs Hok E) as (l & l' & -> & _ & Hl & Hl'). specialize (Hg g eq_refl).
    by rewrite held_mid, !with_id_app, Hl, Hg, Hl'.
  - apply held_with_id; [apply Hok|]. unfold group_of in E. apply Forall_forall. intros x Hx Hxi.
    destruct (List.find _ gs) as [y|] eqn:Ef; [done|]. apply list_elem_of_In, (List.find_none _ _ Ef) in Hx. simpl in Hx. lia.
Qed.

Lemma feed_known_takes k taken i m g : taking k taken → is_Some (m_value m) → has_id i m = true →
  group_of i (groups k) = Some g →
  let '(k', r) := feed_known measured_size concat_batches k i m g in
  taking k' (if is_ok r then taken ++ [m] else taken).
Proof.
  intros Ht Hv Hi Hg. destruct (held_split i g (groups k) (t_groups _ _ Ht) Hg) as (l & l' & Hgs & Hput & Hl & Hl').
  assert (Hok : group_ok (i, g)).
  { pose proof (proj2 (t_groups _ _ Ht)) as H. rewrite Hgs in H. apply Forall_app in H as [_ H]. by apply Forall_inv in H. }
  destruct g as [r|reason|field]; simpl; [|apply taking_rejects; try done|done].
  - rewrite (t_topic _ _ Ht), (t_prefix _ _ Ht). destruct Hok as [Hr Hlt].
    pose proof (decode_delivers i r (out k) m Hr Hi Hlt) as H. destruct (decode _ _ _ _ _ _ _ _) as [r' o'].
    destruct H as (ms & Hd & Hms & Hr' & Hlt' & Hp). simpl.
    apply (taking_step k taken m ms); try done.
    + split; [apply put_group_ascending, Ht|]. apply put_group_Forall; [done|apply Ht].
    + rewrite Hput, Hgs, !held_mid. simpl.
      transitivity (held l ++ (ms ++ chunk r') ++ held l'); [solve_Permutation|]. rewrite Hms. solve_Permutation.
    + intros j. rewrite Hput, Hgs, !held_mid, !with_id_app. simpl. destruct (decide (j = i)) as [->|Hne].
      * rewrite Hl, Hl', !app_nil_r. simpl. rewrite <- !with_id_app. by rewrite Hms.
      * assert (Hj : with_id j (chunk r ++ [m]) = []) by (apply (with_id_none j i); [done|]; apply Forall_app; split; [apply Hr|by constructor]).
        pose proof Hj as Hj'. rewrite <- Hms in Hj'. rewrite with_id_app in Hj, Hj'.
        apply app_nil in Hj as [-> ->], Hj' as [-> ->]. by rewrite app_nil_r.
    + pose proof (t_pending _ _ Ht) as Hpend. rewrite Hp. rewrite Hput, Hgs, !held_mid in *. rewrite !raw_of_app in *. simpl in *. u64_lia.
  - intros L _. unfold has_id, for_good in *. destruct (frame _) as [j|]; [|done]. apply Z.eqb_eq in Hi as ->. left. by apply Hok.
  - intros j Hj. unfold has_id in *. destruct (frame _) as [j'|]; [|done]. apply Z.eqb_eq in Hi as ->. apply Z.eqb_eq in Hj as ->.
    apply held_not_ready; [apply Ht|]. intros g' Hg'. rewrite Hg in Hg'. by injection Hg' as <-.
Qed.

Lemma group_for_spec k s i : (Lawful → id s = i ∧ text s = texts i) →
  let '(g, o) := group_for from_str k s in
  group_ok (i, g) ∧ group_held g = [] ∧ (o = out k ∨ o = tick (out k)).
Proof.
  intros Hs. destruct (group_for from_str k s) as [g o] eqn:E.
  assert (Hun : ∀ reason, g = G_Unusable reason → Lawful → unusable i).
  { intros reason -> L. right. exists k, s, reason, o. split; [apply (Hs L)|]. split; [|done]. apply (Hs L). }
  unfold group_for in E. destruct (top_level_record _); [|simplify_eq; split_and!; [exact (Hun _ eq_refl)|done|by left]].
  destruct (build_decoder _ _ _) as [d|e] eqn:Eb; [|simplify_eq; split_and!; [exact (Hun _ eq_refl)|done|by right]].
  destruct (List.find _ _); [simplify_eq; split_and!; [done|done|by right]|].
  destruct (zero_width _); [simplify_eq; split_and!; [exact (Hun _ eq_refl)|done|by right]|].
  destruct (zero_width_items _); [simplify_eq; split_and!; [exact (Hun _ eq_refl)|done|by right]|].
  simplify_eq. split_and!; [|done|by right]. split; [|done]. split; [done|]. simpl. intros L.
  destruct (Hs L) as [Hid Ht]. rewrite Ht, Hid in Eb. destruct (law_build (laws L) _ _ _ Eb) as [Hh Hb].
  split; [|done]. split_and!; [done|by rewrite Ht|done].
Qed.

Lemma taking_group k taken i g o : taking k taken → group_of i (groups k) = None → group_ok (i, g) → group_held g = [] →
  o = out k ∨ o = tick (out k) → taking (with_groups (put_group i g (groups k)) o k) taken.
Proof.
  intros [Ht Hpr Hg Hp Hh] Hnew Hok Hgh Ho. pose proof (held_put_new i g _ Hnew Hgh) as Hheld.
  split; simpl; [done..| | |].
  - split; [apply put_group_ascending, Hg|by apply put_group_Forall; [|apply Hg]].
  - rewrite Hheld. by destruct Ho as [-> | ->].
  - rewrite Hheld. by destruct Ho as [-> | ->].
Qed.

Lemma feed_takes k taken m l : taking k taken → (∀ i, has_id i m = true → lookup_ok i l) →
  let '(k', r) := feed from_str measured_size concat_batches k m l in
  taking k' (if is_ok r then taken ++ [m] else taken).
Proof.
  intros Ht Hl. unfold feed. destruct (m_value m) as [v|] eqn:Ev.
  - assert (Hv : is_Some (m_value m)) by by rewrite Ev. assert (Hval : value_of m = v) by (unfold value_of; by rewrite Ev).
    destruct (frame v) as [i|reason] eqn:Ef; simpl.
    + assert (Hi : has_id i m = true) by (unfold has_id; rewrite Hval, Ef; apply Z.eqb_refl).
      assert (Hof : ∀ j, has_id j m = true → j = i).
      { unfold has_id. rewrite Hval, Ef. intros j Hj. by apply Z.eqb_eq in Hj. }
      destruct (group_of i (groups k)) as [g|] eqn:Eg; [by apply feed_known_takes|].
      specialize (Hl i Hi). unfold lookup_ok in Hl. destruct l as [[s|reason det]|e]; [| |done].
      * pose proof (group_for_spec k s i Hl) as H. destruct (group_for from_str k s) as [g o].
        destruct H as (Hok & Hgh & Ho). apply feed_known_takes; [by apply taking_group|done|done|].
        apply group_of_put, Ht.
      * assert (Hrej : ∀ gs, group_of i gs = None ∨ (∃ r, group_of i gs = Some (G_Unusable r)) → taking (with_groups gs (out k) k) taken →
          taking (with_groups gs (reject m (Some i) reason det (out k)) k) (taken ++ [m])).
        { intros gs Hgs Htk. apply (taking_rejects _ _ m (Some i) reason det Htk Hv).
          - intros L ->. unfold for_good. rewrite Hval, Ef. left. left. by apply Hl.
          - intros j Hj. rewrite (Hof j Hj). apply held_not_ready; [apply Htk|]. intros g Hg. simpl in Hg.
            destruct Hgs as [H|[r H]]; rewrite H in Hg; [done|by injection Hg as <-]. }
        simpl. destruct det.
        -- apply Hrej; [right; exists reason; apply group_of_put, Ht|]. apply taking_group; try done; [|by left].
           intros L. left. by apply Hl.
        -- apply Hrej; [by left|]. by destruct k.
    + apply taking_rejects; [done|done| |].
      * intros _ _. unfold for_good. by rewrite Hval, Ef.
      * intros i. unfold has_id. by rewrite Hval, Ef.
  - destruct Ht as [Htt Hpr Hg Hp (o & ms & Hb & Hu & Hto & Hd & Hperm & Hids)]. simpl.
    assert (Hvs : valued (taken ++ [m]) = valued taken).
    { unfold valued. rewrite filter_app, filter_cons_False, app_nil_r; [done|]. rewrite Ev. by intros []. }
    split; [done..|]. exists (skip_tombstone o), ms. rewrite Hvs. split_and!; try done.
    + simpl. rewrite Hto. unfold tombstones_of. rewrite filter_app, filter_cons_True, length_app by done. simpl. u64_lia.
    + destruct Hd as (bs & cs & rs & H1 & H2 & H3 & H4). exists bs, cs, rs. split_and!; [done|done|simpl; by rewrite H3|apply H4..].
Qed.

(** *** [finish] and [discard] *)

Lemma flush_all_delivers gs o : Forall group_ok gs →
  let '(gs', o') := flush_all measured_size concat_batches topic prefix gs o in
  delivers (held gs) o o' ∧ gs'.*1 = gs.*1 ∧ Forall group_ok gs' ∧ Forall (λ g, group_held g.2 = []) gs'.
Proof.
  intros H. revert o. induction H as [|[i g] gs Hg _ IH]; intros o; simpl; [split_and!; try done; by apply delivers_nil|].
  change (held ((i, g) :: gs)) with (group_held g ++ held gs).
  assert (H1 : let '(g', o') := match g with G_Ready r => let '(r, o) := flush measured_size concat_batches topic prefix i r o in (G_Ready r, o) | g => (g, o) end in
    delivers (group_held g) o o' ∧ group_ok (i, g') ∧ group_held g' = []).
  { destruct g as [r| |]; [|split_and!; try done; by apply delivers_nil..]. destruct Hg as [Hr Hlt].
    pose proof (flush_delivers i r o Hr) as H. destruct (flush _ _ _ _ _ _ _) as [r' o'].
    destruct H as (Hd & _ & Hc & Hr'). split_and!; [done| |done]. split; [done|]. by rewrite Hc. }
  destruct (match g with G_Ready r => _ | g => _ end) as [g' o1]. destruct H1 as (Hd & Hok & Hh).
  specialize (IH o1). destruct (flush_all _ _ _ _ gs o1) as [gs' o']. destruct IH as (Hd' & Hk' & Hok' & Hh').
  split_and!; [by eapply delivers_app|csimpl; by rewrite Hk'|by constructor|by constructor].
Qed.
Lemma discard_all_ok gs n : Forall group_ok gs →
  let '(gs', _) := discard_all gs n in
  gs'.*1 `sublist_of` gs.*1 ∧ Forall group_ok gs' ∧ Forall (λ g, group_held g.2 = []) gs'.
Proof.
  intros H. revert n. induction H as [|[i g] gs Hg _ IH]; intros n; [by split_and!|].
  assert (Hkeep : group_held g = [] → let '(gs', _) := (let '(gs', n) := discard_all gs n in ((i, g) :: gs', n)) in
    gs'.*1 `sublist_of` ((i, g) :: gs).*1 ∧ Forall group_ok gs' ∧ Forall (λ g, group_held g.2 = []) gs').
  { intros Hh. specialize (IH n). destruct (discard_all gs n) as [gs' n']. destruct IH as (H1 & H2 & H3).
    split_and!; [by apply sublist_skip|by constructor|by constructor]. }
  destruct g as [r| |]; [|by apply Hkeep..]. simpl. destruct (chunk r) as [|m ms] eqn:Ec; [by apply Hkeep|]. cbn [is_nil].
  destruct Hg as [[_ Hk] _]. specialize (IH (S n)). destruct (discard_all gs (S n)) as [gs' n'] eqn:Ed.
  destruct IH as (H1 & H2 & H3). destruct (build_decoder n i (text (r_schema r))) as [d|e] eqn:Eb.
  - split_and!; [by apply sublist_skip|constructor; [|done]|by constructor]. split; [|done]. split; [done|].
    intros L. destruct (Hk L) as [Hkn _]. split; [done|]. destruct Hkn as (Ht & _). simpl in Ht. rewrite Ht in Eb.
    by apply (law_build (laws L)) in Eb as [? _].
  - split_and!; [by apply sublist_cons|done|done].
Qed.
Lemma held_nil gs : Forall (λ g : Z * Group (D := D), group_held g.2 = []) gs → held gs = [].
Proof. induction 1 as [|g gs Hg _ IH]; [done|]. unfold held in *. csimpl. by rewrite Hg, IH. Qed.
Lemma is_empty_fresh gs n : Forall (λ g : Z * Group (D := D), group_held g.2 = []) gs →
  is_empty {| Decode.topic := topic; Decode.prefix := prefix; groups := gs; out := out_default n |} = true.
Proof.
  intros H. unfold is_empty. simpl. apply forallb_forall. intros g Hg%list_elem_of_In. rewrite Forall_forall in H.
  specialize (H g Hg). destruct g as [i [r| |]]; try done. simpl in *. by rewrite H.
Qed.
Lemma taking_fresh gs n : groups_ok gs → Forall (λ g, group_held g.2 = []) gs →
  taking {| Decode.topic := topic; Decode.prefix := prefix; groups := gs; out := out_default n |} [].
Proof.
  intros Hok Hh. pose proof (held_nil gs Hh) as H. split; simpl; [done..|by rewrite H|].
  exists (out_default n), []. rewrite H. split_and!; try done. by apply delivers_nil.
Qed.

Lemma rejected_rows_ok us : ∃ r, rejected_rows b64 topic prefix us = Ok r ∧
  match r with None => us = [] | Some r => num_rows (Coerce.rj_rows r) = length us ∧ Coerce.rj_reasons r = (λ u, "avro: " +:+ u_reason u.2) <$> us end.
Proof.
  destruct us as [|u us]; [by exists None|]. cbn [rejected_rows]. set (l := u :: us).
  assert (Hn : ∀ T A (f : A → Value) (us : list A), null_count (Build_Column T ((λ u, Some (f u)) <$> us)) = 0%nat).
  { intros T A f us'. unfold null_count. simpl. induction us' as [|x us' IH]; [done|]. csimpl. by rewrite filter_cons_False. }
  assert (Hf : ∀ f (c : Column), c_type c = f_type f → length (c_values c) = length l →
    (f_nullable f = true ∨ null_count c = 0%nat) → fits_field (length l) f c = true) by (intros; by apply fits_field_iff).
  unfold try_new. rewrite (proj2 (fits_fields_Forall2 _ _ _)); [eexists; split; [done|]; simpl; split; [by rewrite length_fmap|done]|].
  cbn [c_values]. rewrite length_fmap.
  repeat (constructor; [apply Hf; [done|cbn [c_values]; by rewrite length_fmap|]|]); [..|constructor].
  all: try (by left); right; apply Hn.
Qed.

(** ** Batch after batch *)

(** The messages fed, each with the registry's answer; those that were taken. *)
Fixpoint feed_all (k : KafkaDecoder) (l : list (KafkaMessage * result Error Lookup)) : KafkaDecoder * list KafkaMessage :=
  match l with
  | [] => (k, [])
  | (m, answer) :: l =>
      let '(k, r) := feed from_str measured_size concat_batches k m answer in
      let '(k, taken) := feed_all k l in
      (k, if is_ok r then m :: taken else taken)
  end.
(** A decoder between two batches. *)
Inductive between (answers : KafkaMessage * result Error Lookup → Prop) : KafkaDecoder (D := D) → Prop :=
  | between_start : between answers (with_factory topic prefix)
  | between_finish k l : between answers k → Forall answers l →
      between answers (finish measured_size concat_batches b64 (feed_all k l).1).1
  | between_discard k l : between answers k → Forall answers l → between answers (discard (feed_all k l).1).
(** The registry has each writer schema under its id, with its text, or refuses it. *)
Definition registered (a : KafkaMessage * result Error Lookup) : Prop :=
  ∀ i, has_id i a.1 = true →
    match a.2 with
    | Ok (Avro s) => id s = i ∧ text s = texts i
    | Ok (LookedUpUndecodable _ true) => refused i
    | _ => True
    end.

Lemma feed_all_takes l : Forall (λ a, Lawful → registered a) l → ∀ k taken, taking k taken →
  let '(k', taken') := feed_all k l in taking k' (taken ++ taken').
Proof.
  induction 1 as [|[m answer] l Ha _ IH]; intros k taken Ht; simpl; [by rewrite app_nil_r|].
  pose proof (feed_takes k taken m answer Ht) as H. destruct (feed _ _ _ _ _ _) as [k1 r].
  specialize (IH k1 _ (H ltac:(intros i Hi L; by apply (Ha L i Hi)))). destruct (feed_all k1 l) as [k2 taken'].
  destruct (is_ok r); [|done]. by rewrite <- app_assoc in IH.
Qed.

(** What a batch comes to. *)
Definition finished (k : KafkaDecoder (D := D)) (taken : list KafkaMessage) : Prop :=
  ∃ k' d cs us, finish measured_size concat_batches b64 k = (k', Ok d) ∧ is_empty k' = true ∧ taking k' [] ∧
    Forall2 chunk_batch (d_batches d) cs ∧ Forall (λ c, c.2 ≠ []) cs ∧
    d_undecodable d = us.*2 ∧ Forall rejection us ∧
    valued taken ≡ₚ all_of cs ++ us.*1 ∧ (∀ i, chunks_of i cs `sublist_of` with_id i (valued taken)) ∧
    d_tombstones d = u64 (tombstones_of taken) ∧
    match d_rejects d with
    | None => us = []
    | Some r => num_rows (Coerce.rj_rows r) = length us ∧ Coerce.rj_reasons r = (λ u, "avro: " +:+ u_reason u.2) <$> us
    end.
Lemma taking_finished k taken : taking k taken → finished k taken.
Proof.
  intros [Ht Hpr [Hasc Hok] Hp (o & ms & Hb & Hu & Hto & Hd & Hperm & Hids)]. unfold finished, finish. rewrite Ht, Hpr.
  pose proof (flush_all_delivers (groups k) (out k) Hok) as H. destruct (flush_all _ _ _ _ _ _) as [gs o'].
  destruct H as (Hd' & Hkeys & Hok' & Hh). pose proof (delivers_app _ _ _ _ _ Hd Hd') as (bs & cs & rs & Hb' & Hu' & Ht' & H2 & Hne & Hr & Hp' & Hs).
  rewrite Hb in Hb'. rewrite Hu in Hu'. simpl in Hb', Hu'.
  destruct (rejected_rows_ok (undecodable o')) as (r & -> & Hrr). simpl.
  assert (Hgs : groups_ok gs) by (split; [by eapply ascending_keys; [rewrite Hkeys|]|done]).
  eexists _, _, cs, rs. split; [done|]. unfold with_groups. rewrite Ht, Hpr. split_and!; simpl.
  - by apply is_empty_fresh.
  - by apply taking_fresh.
  - by rewrite Hb'.
  - done.
  - by rewrite Hu'.
  - done.
  - by rewrite Hperm.
  - intros i. rewrite <- Hids, <- with_id_app. apply Hs.
  - by rewrite Ht'.
  - by rewrite Hu' in Hrr.
Qed.
Lemma between_taking answers k : (∀ a, answers a → Lawful → registered a) → between answers k → taking k [].
Proof.
  intros Ha. induction 1 as [|k l _ IH Hl|k l _ IH Hl].
  - apply taking_fresh; [split; constructor|constructor].
  - pose proof (feed_all_takes l (Forall_impl _ _ _ Hl Ha) k [] IH) as H. destruct (feed_all k l) as [k' taken].
    destruct (taking_finished _ _ H) as (k2 & d & cs & us & Hf & _ & Ht & _). simpl. by rewrite Hf.
  - pose proof (feed_all_takes l (Forall_impl _ _ _ Hl Ha) k [] IH) as H. destruct (feed_all k l) as [k' taken].
    destruct H as [Ht Hpr [Hasc Hok] _ _]. unfold discard. simpl. pose proof (discard_all_ok (groups k') (ticks (out k')) Hok) as H.
    destruct (discard_all _ _) as [gs n]. destruct H as (H1 & H2 & H3). unfold with_groups. rewrite Ht, Hpr. apply taking_fresh; [|done].
    split; [by eapply ascending_keys|done].
Qed.

(** A batch fed after others. *)
Lemma feed_all_taking answers k l k' taken : (∀ a, answers a → Lawful → registered a) → between answers k → Forall answers l →
  feed_all k l = (k', taken) → taking k' taken.
Proof.
  intros Ha Hk Hl E. pose proof (feed_all_takes l (Forall_impl _ _ _ Hl Ha) k [] (between_taking answers k Ha Hk)) as H.
  by rewrite E in H.
Qed.
End Correct.
