(* ===== verification/DecodeProps.v ===== *)
(** * DecodeProps: what holds of each batch a decoder finishes (src/kafka/decode.rs)

    The properties of [Decode], each from [DecodeCorrect]'s account of a batch, and a decoder of
    one field to try them on. *)

From Stdlib Require Import ZArith Lia.
From stdpp Require Import base list sorting strings gmap.
From S2P Require Import Prelude Error F64 Json Wire Schema Fractions Coerce Union ConformBatch Registry Decode DecodeCorrect.

Open Scope Z_scope.
Open Scope ddi_scope.

Section Props.
Context {D : Type} {HD : Decode D} {HF : DecodeFactory D}.
Context (from_str : string → option Json.Value) (measured_size : Batch → Z).
Context (concat_batches : list Batch → option Batch) (b64 : list Z → string).
Context (topic prefix : string).
Abbreviation between := (between from_str measured_size concat_batches b64 topic prefix).
Abbreviation feed_all := (feed_all from_str measured_size concat_batches).
Abbreviation finish := (finish measured_size concat_batches b64).

(** Without a word about the decoders, the registry or arrow. *)
Lemma anything_takes k l k' taken : between (λ _, True) k → feed_all k l = (k', taken) →
  taking from_str topic prefix (λ _, EmptyString) (λ _ _ _, False) (λ _, []) (λ _ _, []) (λ _ _, False) (λ _, False) False k' taken.
Proof.
  intros Hk Hl. by eapply (feed_all_taking from_str measured_size concat_batches b64 topic prefix _ _ _ _ _ _ False
    (False_ind _) (λ _, True)); [|exact Hk|apply Forall_forall|exact Hl].
Qed.

(** C25: Whatever the decoders, the registry and arrow answer, a batch that is finished has each
    message that was taken once: as a row, in a batch whose metadata columns are its own, or
    among the undecodable, under its partition and offset. The messages of a writer schema are
    in the batches in the order they were fed, the tombstones are counted, and the decoder then
    has nothing left of the batch. *)
Theorem every_message_is_a_row_or_undecodable k l k' taken : between (λ _, True) k → feed_all k l = (k', taken) →
  ∃ k'' d cs us, finish k' = (k'', Ok d) ∧ is_empty k'' = true ∧
    Forall2 (carries topic prefix) (d_batches d) cs ∧
    d_undecodable d = us.*2 ∧ Forall names us ∧
    valued taken ≡ₚ all_of cs ++ us.*1 ∧ (∀ i, chunks_of i cs `sublist_of` with_id i (valued taken)) ∧
    d_tombstones d = u64 (tombstones_of taken) ∧
    match d_rejects d with
    | None => us = []
    | Some r => num_rows (Coerce.rj_rows r) = length us ∧ Coerce.rj_reasons r = (λ u, "avro: " +:+ u_reason u.2) <$> us
    end.
Proof.
  intros Hk Hl. pose proof (anything_takes _ _ _ _ Hk Hl) as Ht.
  destruct (taking_finished from_str measured_size concat_batches b64 _ _ _ _ _ _ _ _ _ (False_ind _) _ _ Ht)
    as (k'' & d & cs & us & Hf & He & _ & H2 & _ & Hu & Hr & Hp & Hs & Htm & Hj).
  exists k'', d, cs, us. split_and!; try done.
  - eapply Forall2_impl; [exact H2|]. by intros ?? [? _].
  - eapply Forall_impl; [exact Hr|]. by intros ? [? _].
Qed.

(** Between two messages no chunk has as many rows as are decoded at once, what is counted
    as pending is the size of what is in the chunks, and a batch is called empty only if no
    message of it was taken. *)
Theorem a_batch_is_accounted_for k l k' taken : between (λ _, True) k → feed_all k l = (k', taken) →
  Forall (λ g, Z.of_nat (length (group_held g.2)) < CHUNK_ROWS) (groups k') ∧
  u64 (pending_raw (out k')) = raw_of (held (groups k')) ∧
  (is_empty k' = true → tombstones_of taken ≤ u64_max → taken = []).
Proof.
  intros Hk Hl. destruct (anything_takes _ _ _ _ Hk Hl) as [_ _ [_ Hok] Hp (o & ms & Hb & Hu & Hto & Hd & Hperm & _)].
  split_and!; [|done|].
  - eapply Forall_impl; [exact Hok|]. intros [i [r| |]]; simpl; [by intros [_ ?]|done..].
  - unfold is_empty. rewrite !andb_true_iff. intros [[[[Hbs Hus] Hts] _] Hch] Hle.
    destruct Hd as (bs & cs & rs & Hb' & Hu' & Ht' & H2 & Hne & _ & Hp' & _). rewrite Hb in Hb'. rewrite Hu in Hu'. simpl in *.
    destruct (batches (out k')) as [|]; [|done]. destruct (undecodable (out k')) as [|]; [|done]. subst bs rs.
    inversion H2; subst. simpl in *. apply Permutation_nil_r in Hp' as ->.
    rewrite held_nil in Hperm.
    + apply Permutation_nil_r in Hperm. assert (Hz : tombstones_of taken = 0).
      { rewrite Ht', Hto in Hts. rewrite u64_small in Hts; [lia|]. unfold in_u64, tombstones_of in *. lia. }
      destruct taken as [|m taken]; [done|]. unfold valued, tombstones_of in *. rewrite filter_cons in Hperm, Hz.
      destruct (m_value m); [|done]. rewrite decide_True in Hperm by done. done.
    + apply Forall_forall. intros [i [r| |]] Hg; [|done..]. rewrite forallb_forall in Hch.
      apply list_elem_of_In in Hg. specialize (Hch _ Hg). simpl in *. by destruct (chunk r).
Qed.

(** C26: Where the decoders, the registry and arrow answer as they document, each row is what its
    own message's bytes decode to by themselves, normalised, whatever other messages came before
    it and failed; and a message is called undecodable for good only if it is not Confluent's,
    its writer schema is unusable, or it does not decode. *)
Theorem a_row_is_what_its_message_decodes_to texts holds fields_of row_of good refused k l k' taken :
  Laws from_str concat_batches texts holds fields_of row_of good →
  between (registered texts refused) k → Forall (registered texts refused) l → feed_all k l = (k', taken) →
  ∃ k'' d cs us, finish k' = (k'', Ok d) ∧
    Forall2 (decoded_rows from_str topic prefix texts fields_of row_of) (d_batches d) cs ∧
    d_undecodable d = us.*2 ∧ valued taken ≡ₚ all_of cs ++ us.*1 ∧
    Forall (λ u, u_deterministic u.2 = true → for_good from_str texts good refused u.1) us.
Proof.
  intros Hlaws Hk Hl Hf.
  pose proof (feed_all_taking from_str measured_size concat_batches b64 topic prefix texts holds fields_of row_of good refused True
    (λ _, Hlaws) _ _ _ _ _ (λ _ H _, H) Hk Hl Hf) as Ht.
  destruct (taking_finished from_str measured_size concat_batches b64 _ _ _ _ _ _ _ _ _ (λ _, Hlaws) _ _ Ht)
    as (k'' & d & cs & us & Hfin & _ & _ & H2 & _ & Hu & Hr & Hp & _).
  exists k'', d, cs, us. split_and!; try done.
  - eapply Forall2_impl; [exact H2|]. intros ?? [_ H]. by apply H.
  - eapply Forall_impl; [exact Hr|]. intros ? [_ H]. by apply H.
Qed.
End Props.

(** ** The decoder over arrow-avro's *)

Section Adapter.
Context {I : Type} (inner_schema : I → list RawField) (capacity : I → Z) (inner_decode : I → list Z → I * Consumed).
Context (inner_flush : nat → I → I * result string (option RawBatch)).
Context (arrow_avro_decoder : nat → Z → string → result string I).
Context (from_str : string → option Json.Value) (to_string : Json.Value → string).
Context (texts : Z → string) (has : Z → I → list (list Z) → Prop) (unflushed : I → Prop).
Context (fields_of : Z → list RawField) (row_of : Z → list Z → list (option Value)) (good : Z → list Z → Prop).

(** The text the decoders of a writer schema are built from, its wire, and whether it has a
    dense union. *)
Definition built_from (i : Z) : string := valid_logical_types from_str to_string (texts i).
Definition wire_of (i : Z) : option Wire.Wire := v ← from_str (built_from i); ok (wire_new v).
Definition with_union (i : Z) : bool := holds_union (Struct (raw_field <$> fields_of i)).
Definition walks (i : Z) (v : list Z) : Prop := avro_walk {| inner := (); wire := wire_of i; renew := None |} v = Ok tt.

(** What arrow-avro documents, and what its decoder is known not to do: a body's last byte may
    leave it inside a second record, and a decoder with a union is good for one flush. *)
Record InnerLaws := {
  inner_build n i x : arrow_avro_decoder n i (built_from i) = Ok x →
    has i x [] ∧ unflushed x ∧ ∀ n', ∃ x', arrow_avro_decoder n' i (built_from i) = Ok x';
  inner_fields i x vs : has i x vs → inner_schema x = fields_of i;
  inner_room i x vs : has i x vs → capacity x = CHUNK_ROWS - Z.of_nat (length vs);
  inner_unflushed x v : unflushed x → unflushed (inner_decode x v).1;
  inner_row i x vs v x' : has i x vs → inner_decode x v = (x', Took (length v)) → capacity x' = capacity x - 1 → walks i v →
    has i x' (vs ++ [v]);
  inner_good i x vs v : has i x vs → good i v → Z.of_nat (length vs) < CHUNK_ROWS →
    walks i v ∧ ∃ x', inner_decode x v = (x', Took (length v)) ∧ capacity x' = capacity x - 1;
  inner_flushed n i x vs x' b : has i x vs → vs ≠ [] → inner_flush n x = (x', Ok (Some b)) → rb_num_rows b = length vs →
    b = raw_rows fields_of row_of i vs ∧ has i x' [];
  inner_alone n i x v : has i x [v] → good i v → unflushed x ∨ with_union i = false →
    ∃ b, (inner_flush n x).2 = Ok (Some b) ∧ rb_num_rows b = 1%nat ∧ is_ok (normalise (uuids from_str texts i) b) = true;
}.
Context (laws : InnerLaws).

(** A decoder whose inner one has whole rows, and has not been flushed if that is once too many. *)
Definition adapter_holds (i : Z) (d : ArrowAvroDecoder (I := I)) (vs : list (list Z)) : Prop :=
  has i (inner d) vs ∧ wire d = wire_of i ∧ renew d = (if with_union i then Some (i, built_from i) else None) ∧
  (with_union i = true → unflushed (inner d)) ∧ ∀ n, ∃ x, arrow_avro_decoder n i (built_from i) = Ok x.

#[local] Instance adapter_Decode : Decode (ArrowAvroDecoder (I := I)) :=
  ArrowAvro_Decode inner_schema capacity inner_decode inner_flush arrow_avro_decoder.
#[local] Instance adapter_factory : DecodeFactory (ArrowAvroDecoder (I := I)) :=
  ArrowAvro inner_schema arrow_avro_decoder from_str to_string.

Lemma adapter_build n i d : build_decoder n i (texts i) = Ok d →
  adapter_holds i d [] ∧ ∀ n', ∃ d', build_decoder n' i (texts i) = Ok d'.
Proof.
  unfold build_decoder, adapter_factory, ArrowAvro, avro_build. fold (built_from i).
  destruct (arrow_avro_decoder n i (built_from i)) as [x|e] eqn:E; [|done]. simpl. intros [= <-].
  destruct (inner_build laws _ _ _ E) as (Hh & Hu & Hb). split.
  - split_and!; [done|done| |done|done]. simpl. unfold inner_type, with_union. by rewrite (inner_fields laws _ _ _ Hh).
  - intros n'. destruct (Hb n') as [x' ->]. by eexists.
Qed.
Lemma adapter_row i d vs v d' : adapter_holds i d vs → decode_one d v = (d', Ok tt) → adapter_holds i d' (vs ++ [v]).
Proof.
  intros (Hh & Hw & Hr & Hu & Hb). simpl. unfold avro_decode_one. pose proof (inner_room laws _ _ _ Hh) as Hroom.
  destruct (capacity (inner d) =? 0); [done|]. pose proof (inner_unflushed laws (inner d) v) as Hun.
  destruct (inner_decode (inner d) v) as [x r] eqn:E. destruct r as [|e|n]; [done|by destruct (_ =? 0)|].
  destruct (Z.eqb_spec (Z.max 0 (capacity (inner d) - capacity x)) 1) as [Hone|]; [|by destruct (_ =? 0); [destruct (_ <=? _)%nat|]].
  destruct (Nat.eqb_spec n (length v)) as [->|]; [|done]. intros [= <- Hwalk].
  split_and!; [|done|done| |done].
  - apply (inner_row laws i (inner d) vs v x Hh E); [lia|]. unfold walks, avro_walk in *. simpl in *. by rewrite <- Hw.
  - intros U. apply Hun. by apply Hu.
Qed.
Lemma adapter_good i d vs v : adapter_holds i d vs → Z.of_nat (length vs) < CHUNK_ROWS → good i v → (decode_one d v).2 = Ok tt.
Proof.
  intros (Hh & Hw & _) Hlt Hg. simpl. unfold avro_decode_one. pose proof (inner_room laws _ _ _ Hh) as Hroom.
  destruct (Z.eqb_spec (capacity (inner d)) 0); [lia|].
  destruct (inner_good laws _ _ _ _ Hh Hg Hlt) as (Hwalk & x & -> & Hc). rewrite Hc.
  rewrite (proj2 (Z.eqb_eq _ _)) by lia. rewrite Nat.eqb_refl. unfold walks, avro_walk in *. simpl in *. by rewrite Hw.
Qed.
(** After a flush, the inner decoder that was flushed, or the one that took its place. *)
Lemma adapter_flush n i d vs : adapter_holds i d vs → ∃ x,
  avro_flush inner_flush arrow_avro_decoder n d = (set_inner x d, (inner_flush n (inner d)).2) ∧
  (if with_union i then has i x [] ∧ unflushed x else x = (inner_flush n (inner d)).1).
Proof.
  intros (Hh & Hw & Hr & Hu & Hb). unfold avro_flush. rewrite Hr. destruct (with_union i) eqn:U.
  - destruct (Hb n) as [x Hx]. rewrite Hx. destruct (inner_build laws _ _ _ Hx) as (Hh' & Hu' & _). by exists x.
  - destruct (inner_flush n (inner d)) as [x r]. by exists x.
Qed.
End Adapter.

Section Refinement.
Context {I : Type} (inner_schema : I → list RawField) (capacity : I → Z) (inner_decode : I → list Z → I * Consumed).
Context (inner_flush : nat → I → I * result string (option RawBatch)).
Context (arrow_avro_decoder : nat → Z → string → result string I).
Context (from_str : string → option Json.Value) (to_string : Json.Value → string).

(** C27: The decoder over arrow-avro's keeps the laws: a message is a row only if its body ends
    where the message does, and a decoder whose schema has a dense union, good for one flush,
    is renewed at each. *)
Theorem the_adapter_keeps_the_laws concat_batches texts has unflushed fields_of row_of good :
  InnerLaws inner_schema capacity inner_decode inner_flush arrow_avro_decoder from_str to_string
    texts has unflushed fields_of row_of good →
  (∀ bs b, concat_batches bs = Some b → concatenated bs b) →
  Laws (HD := ArrowAvro_Decode inner_schema capacity inner_decode inner_flush arrow_avro_decoder)
       (HF := ArrowAvro inner_schema arrow_avro_decoder from_str to_string)
    from_str concat_batches texts
    (adapter_holds arrow_avro_decoder from_str to_string texts has unflushed fields_of) fields_of row_of good.
Proof.
  intros laws Hconcat. split.
  - intros n i d H. by eapply adapter_build.
  - intros i d vs v d' H1 H2. by eapply adapter_row.
  - intros i d vs v H1 H2 H3. by eapply adapter_good.
  - intros n i d vs d' b Hd Hne Hf Hn. destruct (adapter_flush _ _ _ _ _ _ _ _ _ _ _ _ _ laws n i d vs Hd) as (x & Hx & Hx').
    simpl in Hf. rewrite Hx in Hf. injection Hf as <- Hf. destruct Hd as (Hh & Hw & Hr & Hu & Hb).
    destruct (inner_flush n (inner d)) as [x0 r] eqn:E. simpl in *. subst r.
    destruct (inner_flushed _ _ _ _ _ _ _ _ _ _ _ _ _ laws _ _ _ _ _ _ Hh Hne E Hn) as [-> Hx0]. split; [done|].
    unfold adapter_holds. destruct (with_union fields_of i); [|subst x]; split_and!; try done; [apply Hx'|intros _; apply Hx'].
  - intros n i d v Hd Hg. destruct (adapter_flush _ _ _ _ _ _ _ _ _ _ _ _ _ laws n i d [v] Hd) as (x & Hx & _).
    simpl. rewrite Hx. destruct Hd as (Hh & Hw & Hr & Hu & Hb).
    apply (inner_alone _ _ _ _ _ _ _ _ _ _ _ _ _ laws n i _ v Hh Hg). destruct (with_union fields_of i); [left; by apply Hu|by right].
  - exact Hconcat.
Qed.
End Refinement.

(** ** On one field *)

Module Toy.
Definition fields (i : Z) : list RawField := [rField "n" (R_Leaf Int64) false ∅].
Definition row (i : Z) (v : list Z) : list (option Value) := [Some (V_Int (nth 5 v 0))].
Definition good (i : Z) (v : list Z) : Prop := length v = 6%nat.
Definition texts (i : Z) : string := "{}".
Definition from_str (t : string) : option Json.Value := Some (Json.V_Object [("type"%string, Json.V_String "record")]).
Definition concat_batches (bs : list Batch) : option Batch :=
  b0 ← head bs;
  Some (Build_Batch (b_schema b0)
    (imap (λ j c, Build_Column (c_type c) (mjoin ((λ b, default [] (c_values <$> b_columns b !! j)) <$> bs))) (b_columns b0))
    (length bs)).

(** The messages' bytes since the last flush, and what is left of one that is not six of them.
    Every other flush of more than one message fails. *)
Definition decode_one (d : list (list Z)) (v : list Z) : list (list Z) * result string unit :=
  if (length v =? 6)%nat then (d ++ [v], Ok tt) else (d ++ [[]], Err "truncated"%string).
Definition flush_rows (n : nat) (d : list (list Z)) : list (list Z) * result string (option RawBatch) :=
  if (1 <? length d)%nat && Nat.even n then (d, Err "flush"%string) else ([], Ok (Some (raw_rows fields row 0 d))).
#[local] Instance Toy_Decode : Decode (list (list Z)) :=
  {| decoder_schema := λ _, fields 0; Decode.decode_one := decode_one; Decode.flush_rows := flush_rows |}.
#[local] Instance Toy_Factory : DecodeFactory (list (list Z)) := λ _ _ _, Ok [].

Lemma concat_spec bs b : concat_batches bs = Some b → concatenated bs b.
Proof. intros H b0 Hb. unfold concat_batches in H. rewrite Hb in H. by injection H as <-. Qed.
Lemma toy_laws : Laws from_str concat_batches texts (λ _ d vs, d = vs) fields row good.
Proof.
  split.
  - intros n i d [= <-]. split; [done|]. intros n'. by eexists.
  - intros i d vs v d' ->. simpl. unfold decode_one. destruct (length v =? 6)%nat; [|done]. by intros [= <-].
  - intros i d vs v _ _ H. simpl. unfold decode_one. by rewrite (proj2 (Nat.eqb_eq _ _) H).
  - intros n i d vs d' b -> _. simpl. unfold flush_rows. destruct (_ && _); [done|]. by intros [= <- <-].
  - intros n i d v -> _. eexists. split; [done|]. done.
  - apply concat_spec.
Qed.

Definition message (o : Z) (v : option (list Z)) : KafkaMessage :=
  {| m_partition := 0; m_offset := o; m_timestamp := CreateTime 1; m_key := None; m_value := v; m_headers := [] |}.
Definition avro_schema (i : Z) : RegisteredSchema :=
  {| id := i; text := texts i; schema_type := None; references := []; subject := None; version := None |}.
Definition feeds : list (KafkaMessage * result Error Lookup) :=
  imap (λ o v, (message (Z.of_nat o) v.1, Ok (Avro (avro_schema v.2))))
    [(Some [0; 0; 0; 0; 1; 7], 1); (Some [0; 0; 0; 0; 1; 8], 1); (Some [0; 0; 0; 0; 1], 1); (None, 0);
     (Some [0; 0; 0; 0; 2; 9], 2); (Some [9], 0); (Some [0; 0; 0; 0; 1; 10], 1)].
Definition start : KafkaDecoder (D := list (list Z)) := with_factory "t" "_kafka_".
Definition fed : KafkaDecoder * list KafkaMessage := feed_all from_str (λ _, 1) concat_batches start feeds.
Definition done_ : result Error Decoded := (finish (λ _, 1) concat_batches (λ _, "b64"%string) fed.1).2.

(** Two messages are flushed when a third fails, one by one as it turns out; the one after it
    goes with a chunk of its own. *)
Example rows_of_the_feeds :
  match done_ with
  | Ok d => (λ b, c_values <$> (take 1 (b_columns b))) <$> d_batches d
  | Err _ => []
  end = [[[Some (V_Int 7); Some (V_Int 8)]]; [[Some (V_Int 10)]]; [[Some (V_Int 9)]]] ∧
  match done_ with Ok d => (u_offset <$> d_undecodable d, d_tombstones d) | Err _ => ([], 0) end = ([2; 5], 1).
Proof. by vm_compute. Qed.

Lemma every_message_is_a_row_or_undecodable_witness :
  ∃ k'' d cs us, finish (λ _, 1) concat_batches (λ _, "b64"%string) fed.1 = (k'', Ok d) ∧ is_empty k'' = true ∧
    Forall2 (carries "t" "_kafka_") (d_batches d) cs ∧ d_undecodable d = us.*2 ∧ Forall names us ∧
    valued fed.2 ≡ₚ all_of cs ++ us.*1 ∧ (∀ i, chunks_of i cs `sublist_of` with_id i (valued fed.2)) ∧
    d_tombstones d = u64 (tombstones_of fed.2) ∧
    match d_rejects d with
    | None => us = []
    | Some r => num_rows (Coerce.rj_rows r) = length us ∧ Coerce.rj_reasons r = (λ u, "avro: " +:+ u_reason u.2) <$> us
    end.
Proof.
  apply (every_message_is_a_row_or_undecodable from_str (λ _, 1) concat_batches (λ _, "b64"%string) "t" "_kafka_" start feeds fed.1 fed.2).
  - constructor.
  - rewrite <- surjective_pairing. unfold fed. reflexivity.
Defined.
Lemma a_batch_is_accounted_for_witness :
  Forall (λ g, Z.of_nat (length (group_held g.2)) < CHUNK_ROWS) (groups fed.1) ∧
  u64 (pending_raw (out fed.1)) = raw_of (held (groups fed.1)) ∧
  (is_empty fed.1 = true → tombstones_of fed.2 ≤ u64_max → fed.2 = []).
Proof.
  apply (a_batch_is_accounted_for from_str (λ _, 1) concat_batches (λ _, "b64"%string) "t" "_kafka_" start feeds fed.1 fed.2).
  - constructor.
  - rewrite <- surjective_pairing. unfold fed. reflexivity.
Defined.
Lemma a_row_is_what_its_message_decodes_to_witness :
  ∃ k'' d cs us, finish (λ _, 1) concat_batches (λ _, "b64"%string) fed.1 = (k'', Ok d) ∧
    Forall2 (decoded_rows from_str "t" "_kafka_" texts fields row) (d_batches d) cs ∧
    d_undecodable d = us.*2 ∧ valued fed.2 ≡ₚ all_of cs ++ us.*1 ∧
    Forall (λ u, u_deterministic u.2 = true → for_good from_str texts good (λ _, False) u.1) us.
Proof.
  apply (a_row_is_what_its_message_decodes_to from_str (λ _, 1) concat_batches (λ _, "b64"%string) "t" "_kafka_"
           texts (λ _ d vs, d = vs) fields row good (λ _, False) start feeds fed.1 fed.2).
  - apply toy_laws.
  - constructor.
  - unfold feeds. cbn [imap]. repeat (constructor; [intros i Hi; try done; apply Z.eqb_eq in Hi as <-; by vm_compute|]). constructor.
  - rewrite <- surjective_pairing. unfold fed. reflexivity.
Defined.

(** A record of one dense union, as arrow-avro's decoders have it: good for one flush. *)
Module Inner.
Definition schema : Json.Value :=
  Json.V_Object [("type"%string, Json.V_String "record"); ("name"%string, Json.V_String "r");
    ("fields"%string, Json.V_Array [Json.V_Object [("name"%string, Json.V_String "u");
       ("type"%string, Json.V_Array [Json.V_String "int"; Json.V_String "string"])]])].
Definition from_str (t : string) : option Json.Value := Some schema.
Definition fields (i : Z) : list RawField :=
  [rField "u" (R_Union [(0, rField "int" (R_Leaf Int32) false ∅); (1, rField "string" (R_Leaf Utf8) false ∅)] true) false ∅].
Definition row (i : Z) (v : list Z) : list (option Value) := [Some (V_Union 0 (Some (V_Int (nth 6 v 0))))].
Definition capacity (x : bool * list (list Z)) : Z := CHUNK_ROWS - Z.of_nat (length x.2).
Definition decode (x : bool * list (list Z)) (v : list Z) : (bool * list (list Z)) * Consumed :=
  if (5 <? length v)%nat then ((x.1, x.2 ++ [v]), Took (length v)) else (x, Took (length v)).
Definition flush (n : nat) (x : bool * list (list Z)) : (bool * list (list Z)) * result string (option RawBatch) :=
  ((true, []), if x.1 then Err "past the union's children"%string else Ok (Some (raw_rows fields row 0 x.2))).
Definition build (n : nat) (i : Z) (t : string) : result string (bool * list (list Z)) := Ok (false, []).
Definition walks (i : Z) (v : list Z) : Prop := DecodeProps.walks from_str (λ _, "{}"%string) texts i v.
Definition good (i : Z) (v : list Z) : Prop := walks i v ∧ (5 < length v)%nat.

Lemma inner_laws : InnerLaws (λ _, fields 0) capacity decode flush build from_str (λ _, "{}"%string) texts
  (λ _ x vs, x.2 = vs) (λ x, x.1 = false) fields row good.
Proof.
  split.
  - intros n i x [= <-]. split_and!; [done|done|]. intros n'. by eexists.
  - done.
  - intros i x vs <-. done.
  - intros x v H. unfold decode. by destruct (5 <? length v)%nat.
  - intros i x vs v x' <-. unfold decode. destruct (5 <? length v)%nat; intros [= <-]; [done|]. lia.
  - intros i x vs v <- [Hw Hl] _. split; [done|]. unfold decode. rewrite (proj2 (Nat.ltb_lt _ _) Hl). eexists. split; [done|].
    unfold capacity. simpl. rewrite length_app. simpl. lia.
  - intros n i x vs x' b <- _. unfold flush. intros [= <- H]. destruct (x.1); [done|]. by injection H as <-.
  - intros n i x v Hx _ [Hu|Hu]; [|done]. unfold flush. rewrite Hu, Hx. by eexists.
Qed.

(** Flushed twice, with a message each: the second body's index is out of the union's range, and
    the third has a byte too many. *)
Example renewed :
  let d0 := avro_build (λ _, fields 0) build from_str (λ _, "{}"%string) 0 1 "{}" in
  match d0 with
  | Ok d =>
      let d1 := (avro_decode_one capacity decode d [0; 0; 0; 0; 1; 0; 14]).1 in
      let '(d2, r1) := avro_flush flush build 0 d1 in
      let '(d3, r2) := avro_flush flush build 1 (avro_decode_one capacity decode d2 [0; 0; 0; 0; 1; 0; 16]).1 in
      (is_ok r1, is_ok r2, is_ok (avro_decode_one capacity decode d3 [0; 0; 0; 0; 1; 4; 16]).2,
       is_ok (avro_decode_one capacity decode d3 [0; 0; 0; 0; 1; 0; 16; 0]).2)
  | Err _ => (false, false, true, true)
  end = (true, true, false, false).
Proof. by vm_compute. Qed.

Lemma the_adapter_keeps_the_laws_witness :
  Laws (HD := ArrowAvro_Decode (λ _, fields 0) capacity decode flush build)
       (HF := ArrowAvro (λ _, fields 0) build from_str (λ _, "{}"%string))
    from_str concat_batches texts
    (adapter_holds build from_str (λ _, "{}"%string) texts (λ _ x vs, x.2 = vs) (λ x, x.1 = false) fields) fields row good.
Proof. apply the_adapter_keeps_the_laws; [apply inner_laws|apply concat_spec]. Defined.
End Inner.
End Toy.
