(* ===== verification/RegistryCorrect.v ===== *)
(** * RegistryCorrect: lookups beside each other (src/kafka/registry.rs)

    Every pipeline of the process looks writer schemas up in one cache: any number of lookups of
    any registries, in any interleaving of what they do between their waits, some of them
    dropped, with whatever the registries answer as long as an id's schema does not change. *)

From Stdlib Require Import ZArith Lia.
From stdpp Require Import base list sorting strings gmap.
From S2P Require Import Prelude Error Union Registry Decode DecodeCorrect.

Open Scope Z_scope.
Open Scope ddi_scope.

(** ** One request, and what it is tried again for *)

Section Get.
Context (error_from_slice : list Z → option RawError) (excerpt : list Z → string) (status_text : Z → string) (url : string).
Abbreviation try_get := (try_get error_from_slice excerpt status_text url).
Abbreviation get := (get error_from_slice excerpt status_text url).
Abbreviation get_from := (get_from error_from_slice excerpt status_text url).

(** An answer that means what the answer to the request is, by its status. *)
Definition outage (r : Response) : Prop :=
  match r with
  | Unreached _ | BrokeOff _ => True
  | Answered status _ => status = 408 ∨ status = 429 ∨ 500 ≤ status ≤ 599
  end.
Definition fatal (a : result Error Answer) : Prop := ∃ e, a = Err e ∧ kafka_class e = ConsumerFatal.
Definition holding (a : result Error Answer) : Prop := ∃ e, a = Err e ∧ kafka_class e = BlockingPipeline.

(** By its status: a body for a success; the consumer's end for refused credentials and for
    nothing else; not found for a 404 with the registry's own error body and for nothing else;
    and for all the rest an error that holds the pipeline. *)
Definition means (r : Response) (a : result Error Answer) : Prop :=
  match r with
  | Unreached _ | BrokeOff _ => False
  | Answered status body =>
      (a = Ok (Registry.Found body) ↔ 200 ≤ status ≤ 299) ∧
      (fatal a ↔ status = 401 ∨ status = 403) ∧
      ((∃ detail, a = Ok (NotFound detail)) ↔
         status = 404 ∧ is_Some (registry_error_code error_from_slice body)) ∧
      (holding a ↔ ¬ 200 ≤ status ≤ 299 ∧ status ≠ 401 ∧ status ≠ 403 ∧
         (status = 404 → registry_error_code error_from_slice body = None))
  end.

Lemma verdict_found status body b :
  200 ≤ status ≤ 299 → b = body → means (Answered status body) (Ok (Registry.Found b)).
Proof.
  intros Hs ->. split_and!; split; try lia; try (by intros (? & [= ] & _)); try (by intros (? & [= ]));
    by intros (? & _).
Qed.
Lemma verdict_fatal status body e :
  status = 401 ∨ status = 403 → kafka_class e = ConsumerFatal → means (Answered status body) (Err e).
Proof.
  intros Hs He. split_and!; split; try lia; try done; try (by intros (? & [= ])).
  - intros _. by exists e.
  - intros (e' & [= <-] & He'). by rewrite He in He'.
Qed.
Lemma verdict_not_found status body d :
  status = 404 → is_Some (registry_error_code error_from_slice body) →
  means (Answered status body) (Ok (NotFound d)).
Proof.
  intros -> Hc. split_and!; split; try lia; try done; try (by intros (? & [= ] & _)).
  - intros _. by exists d.
  - intros (_ & _ & _ & H). by rewrite H in Hc; [destruct Hc|].
Qed.
Lemma verdict_holding status body e :
  ¬ 200 ≤ status ≤ 299 → status ≠ 401 → status ≠ 403 →
  (status = 404 → registry_error_code error_from_slice body = None) →
  kafka_class e = BlockingPipeline → means (Answered status body) (Err e).
Proof.
  intros H1 H2 H3 H4 He. split_and!; split; try lia; try done; try (by intros (? & [= ])).
  - intros (e' & [= <-] & He'). by rewrite He in He'.
  - intros [E [x Hx]]. by rewrite H4 in Hx.
  - intros _. by exists e.
Qed.

Lemma means_found r b : means r (Ok (Registry.Found b)) → ∃ status, r = Answered status b ∧ 200 ≤ status ≤ 299.
Proof.
  clear excerpt status_text url. destruct r as [| |status body]; [done..|]. intros (Hf & Hfatal & Hn & Hh). exists status.
  destruct (decide (200 ≤ status ≤ 299)) as [Hs|Hs]; [apply Hf in Hs as Hb; by injection Hb as ->|].
  exfalso. destruct (decide (status = 401 ∨ status = 403)) as [E|E]; [by apply Hfatal in E as (? & [= ] & _)|].
  destruct (decide (status = 404 ∧ is_Some (registry_error_code error_from_slice body))) as [E'|E'];
    [by apply Hn in E' as (? & [= ])|].
  destruct (proj2 Hh) as (? & [= ] & _). split_and!; [done|tauto|tauto|]. intros ->.
  destruct (registry_error_code _ _) eqn:Ec; [|done]. exfalso. by apply E'.
Qed.
Lemma means_not_found status body d :
  means (Answered status body) (Ok (NotFound d)) →
  status = 404 ∧ is_Some (registry_error_code error_from_slice body).
Proof. intros (_ & _ & Hn & _). apply Hn. by exists d. Qed.

Lemma try_get_spec path r :
  match try_get path r with Retry _ => outage r | Done a => ¬ outage r ∧ means r a end.
Proof.
  destruct r as [e|e|status body]; [done..|]. unfold Registry.try_get. cbv zeta.
  destruct ((200 <=? status) && (status <=? 299)) eqn:E1;
    [split; [simpl; lia|apply verdict_found; [lia|done]]|].
  destruct ((status =? 401) || (status =? 403)) eqn:E2;
    [split; [simpl; lia|apply verdict_fatal; [lia|done]]|].
  destruct (status =? 404) eqn:E4.
  - case_bool_decide as Hc; (split; [simpl; lia|]).
    + apply verdict_not_found; [lia|done].
    + apply verdict_holding; [lia..| |done]. intros _. by apply eq_None_not_Some.
  - rewrite andb_false_l.
    destruct ((status =? 408) || (status =? 429) || ((500 <=? status) && (status <=? 599))) eqn:E5.
    + simpl. lia.
    + split; [simpl; lia|]. apply verdict_holding; [lia..|done].
Qed.
Lemma try_get_err path r e : try_get path r = Done (Err e) → ∃ f d, e = SchemaRegistry url f d.
Proof.
  unfold Registry.try_get. destruct r as [|?|status body]; [done..|]. cbv zeta.
  repeat match goal with |- (if ?b then _ else _) = _ → _ => destruct b end; try done; intros [= <-]; by eexists _, _.
Qed.

Lemma get_from_spec path delays : ∀ attempts answers,
  let '(r, n) := get_from path delays attempts answers in
  ∃ k : nat, n = attempts + Z.of_nat k ∧ (k ≤ length delays)%nat ∧ (∀ j, (j < k)%nat → outage (answers j)) ∧
    (¬ outage (answers k) ∧ means (answers k) r ∨
     k = length delays ∧ outage (answers k) ∧ ∃ e, r = Err e ∧ kafka_class e = Transient).
Proof.
  induction delays as [|d delays IH]; intros attempts answers; simpl.
  all: pose proof (try_get_spec path (answers 0%nat)) as H; destruct (try_get path (answers 0%nat)) as [a|detail].
  all: try (exists 0%nat; split_and!; [lia|lia|lia|by left]).
  - exists 0%nat. split_and!; [lia|done|lia|right]. split_and!; [done|done|by eexists].
  - specialize (IH (attempts + 1) (λ n, answers (S n))). destruct (get_from _ _ _ _) as [r n].
    destruct IH as (k & -> & Hk & Hj & Hr). exists (S k). split_and!; [lia|lia| |].
    + intros [|j] Hlt; [done|]. apply Hj. lia.
    + destruct Hr as [Hr|(-> & Ho & He)]; [by left|right; by split_and!].
Qed.

(** C30: A request is made at most four times, again only after an outage, and its answer is what
    the registry's last one means: an outage is transient and only the fourth in a row is an
    error; a body is answered for a success and only for one; the consumer ends for refused
    credentials (401, 403) and only for them; an id is not found for a 404 with the registry's
    own error body and only for one; and every other answer holds the pipeline. *)
Theorem an_answer_means_what_it_says path answers :
  let '(r, n) := get path answers in
  ∃ k : nat, n = Z.of_nat (S k) ∧ (k < 4)%nat ∧ (∀ j, (j < k)%nat → outage (answers j)) ∧
    (¬ outage (answers k) ∧ means (answers k) r ∨
     k = 3%nat ∧ outage (answers k) ∧ ∃ e, r = Err e ∧ kafka_class e = Transient).
Proof.
  unfold Registry.get. pose proof (get_from_spec path RETRY_DELAYS 1 answers) as H. destruct (get_from _ _ _ _) as [r n].
  destruct H as (k & -> & Hk & Hj & Hr). exists k. simpl in *. split_and!; [lia|lia|done|done].
Qed.
End Get.

(** ** Lookups beside each other *)

Section World.
Context (from_slice : list Z → option RawSchema) (error_from_slice : list Z → option RawError).
Context (excerpt : list Z → string) (status_text : Z → string).
(** What the registry at a URL has under an id, for good. *)
Context (text_of : string → Z → string) (type_of : string → Z → option string) (refs_of : string → Z → list SchemaReference).

Abbreviation lookup := Registry.lookup.
Abbreviation received := (received from_slice error_from_slice excerpt status_text).
Abbreviation latest := (latest from_slice error_from_slice excerpt status_text).

(** An answer that is the registry's schema of the id, if it is one. *)
Definition told (url : string) (i : Z) (raw : RawSchema) : Prop :=
  rs_schema raw = Some (text_of url i) ∧ rs_schema_type raw = type_of url i ∧ default [] (rs_references raw) = refs_of url i.
Definition honest (url : string) (i : Z) (r : Response) : Prop :=
  match r with Answered _ body => ∀ raw, from_slice body = Some raw → is_Some (rs_schema raw) → told url i raw | _ => True end.
(** One of a subject's latest version, under the id it says. *)
Definition honest_latest (url : string) (r : Response) : Prop :=
  match r with
  | Answered _ body => ∀ raw i, from_slice body = Some raw → is_Some (rs_schema raw) → rs_id raw = Some i → told url i raw
  | _ => True
  end.

(** The lookups there are, by their number, and the requests that were answered. *)
Record World := {
  cache : SchemaCache;
  now : Z;
  callers : gmap nat (CacheKey * Caller);
  log : list (CacheKey * Response);
}.
Definition moves (w : World) (n : nat) (k : CacheKey) (x : SchemaCache * Caller) (l : list (CacheKey * Response)) : World :=
  {| cache := x.1; now := now w; callers := <[n := (k, x.2)]> (callers w); log := log w ++ l |}.

Inductive step (w : World) : World → Prop :=
  | step_lookup n url i : callers w !! n = None →
      step w (moves w n (url, i) (lookup url i (now w) (cache w)) [])
  | step_turn n url i : callers w !! n = Some ((url, i), Waiting) →
      step w (moves w n (url, i) (turn url i (now w) (cache w)) [])
  | step_received n url i delays attempts r : callers w !! n = Some ((url, i), Fetching delays attempts) → honest url i r →
      step w (moves w n (url, i) (received url i delays attempts r (cache w)) [((url, i), r)])
  | step_remember n url i detail : callers w !! n = Some ((url, i), Unknown detail) →
      step w (moves w n (url, i) (remember url i (now w) detail (cache w)) [])
  | step_drop n url i c : callers w !! n = Some ((url, i), c) →
      step w {| cache := dropped url i c (cache w); now := now w; callers := delete n (callers w); log := log w |}
  | step_latest url subject answers : (∀ n, honest_latest url (answers n)) →
      step w {| cache := (latest url subject answers (cache w)).1; now := now w; callers := callers w; log := log w |}
  | step_wait d : 0 < d → step w {| cache := cache w; now := now w + d; callers := callers w; log := log w |}.
Definition start (t : Z) : World := {| cache := empty_cache; now := t; callers := ∅; log := [] |}.
Definition reachable (w : World) : Prop := ∃ t, rtc step (start t) w.

(** *** What holds of it *)

Definition genuine (k : CacheKey) (s : RegisteredSchema) : Prop :=
  id s = k.2 ∧ text s = text_of k.1 k.2 ∧ schema_type s = type_of k.1 k.2 ∧ references s = refs_of k.1 k.2.
(** The registry said itself that it has no such id. *)
Definition denied (l : list (CacheKey * Response)) (k : CacheKey) : Prop :=
  ∃ body, (k, Answered 404 body) ∈ l ∧ is_Some (registry_error_code error_from_slice body).
Definition answer_ok (l : list (CacheKey * Response)) (k : CacheKey) (a : result Error Lookup) : Prop :=
  match a with
  | Ok (Avro s) => genuine k s ∧ is_avro s = true ∧ references s = []
  | Ok (LookedUpUndecodable _ true) => ∃ s, genuine k s ∧ is_avro s = false
  | Ok (LookedUpUndecodable _ false) => denied l k
  | Err (KafkaSchemaReferences u i _) => (u, i) = k ∧ refs_of u i ≠ []
  | Err (SchemaRegistry u _ _) => u = k.1
  | Err _ => False
  end.
Definition fetching (c : Caller) : bool := match c with Fetching _ _ => true | _ => false end.

Definition caller_ok (w : World) (k : CacheKey) (c : Caller) : Prop :=
  match c with
  | Waiting => True
  | Fetching delays attempts => delays = drop (Z.to_nat (attempts - 1)) RETRY_DELAYS ∧ 1 ≤ attempts ≤ 4
  | Unknown _ => denied (log w) k
  | Over a => answer_ok (log w) k a
  end.
Record sound (w : World) : Prop := {
  s_cells : ∀ k s, ids (cache w) !! k = Some (Init s) → genuine k s;
  s_permit : ∀ k, ids (cache w) !! k = Some Initialising ↔ ∃ n c, callers w !! n = Some (k, c) ∧ fetching c = true;
  s_one : ∀ n n' k c c', callers w !! n = Some (k, c) → callers w !! n' = Some (k, c') →
            fetching c = true → fetching c' = true → n = n';
  s_denied : ∀ k x, not_founds (cache w) !! k = Some x → denied (log w) k;
  s_callers : ∀ n k c, callers w !! n = Some (k, c) → caller_ok w k c;
}.

Lemma denied_app l l' k : denied l k → denied (l ++ l') k.
Proof. intros (body & H & Hc). exists body. split; [|done]. apply elem_of_app. by left. Qed.
Lemma answer_ok_app l l' k a : answer_ok l k a → answer_ok (l ++ l') k a.
Proof. destruct a as [[s|reason []]|]; simpl; try done. apply denied_app. Qed.
Lemma caller_ok_app w w' l k c : log w' = log w ++ l → caller_ok w k c → caller_ok w' k c.
Proof. unfold caller_ok. intros ->. destruct c; [done..|apply denied_app|apply answer_ok_app]. Qed.

Lemma not_found_since_spec k t ttl sc : let '(sc', r) := not_found_since k t ttl sc in
  ids sc' = ids sc ∧ (∀ k' x, not_founds sc' !! k' = Some x → not_founds sc !! k' = Some x) ∧
  (is_Some r → is_Some (not_founds sc !! k)).
Proof.
  unfold not_found_since. destruct (not_founds sc !! k) as [[at_ detail]|] eqn:E; [|split_and!; [done|done|by intros []]].
  destruct (_ <? _); [by split_and!|]. split_and!; [done| |by intros []]. intros k' x. simpl. by intros [_ ?]%lookup_delete_Some.
Qed.

Definition was_fetching (w : World) (n : nat) : bool :=
  match callers w !! n with Some (_, c) => fetching c | None => false end.
Lemma moves_sound w n k x l : sound w → (∀ k0 c0, callers w !! n = Some (k0, c0) → k0 = k) →
  (∀ k', k' ≠ k → ids x.1 !! k' = ids (cache w) !! k') →
  (∀ s, ids x.1 !! k = Some (Init s) → genuine k s) →
  (ids x.1 !! k = Some Initialising ↔ fetching x.2 = true ∨ ids (cache w) !! k = Some Initialising ∧ was_fetching w n = false) →
  (fetching x.2 = true → was_fetching w n = true ∨ ids (cache w) !! k ≠ Some Initialising) →
  (∀ k' y, not_founds x.1 !! k' = Some y → not_founds (cache w) !! k' = Some y ∨ denied (log w ++ l) k') →
  caller_ok (moves w n k x l) k x.2 → sound (moves w n k x l).
Proof.
  intros [Hcells Hpermit Hone Hden Hcall] Hn Hother Hinit Hpk Hf Hnf Hc.
  assert (Hat : ∀ n0 k0 c0, callers (moves w n k x l) !! n0 = Some (k0, c0) →
    (n0 = n ∧ k0 = k ∧ c0 = x.2) ∨ (n0 ≠ n ∧ callers w !! n0 = Some (k0, c0))).
  { intros n0 k0 c0. simpl. intros [[<- ?]|[? ?]]%lookup_insert_Some; simplify_eq; [by left|by right]. }
  assert (Hwas : ∀ n0 c0, n0 ≠ n → callers w !! n0 = Some (k, c0) → fetching c0 = true → was_fetching w n = false).
  { intros n0 c0 Hne H0 Hf0. unfold was_fetching. destruct (callers w !! n) as [[k1 c1]|] eqn:E1; [|done].
    rewrite (Hn _ _ eq_refl) in E1. destruct (fetching c1) eqn:E2; [|done]. by destruct Hne; eapply Hone. }
  split.
  - intros k' s H. destruct (decide (k' = k)) as [->|Hne]; [by apply Hinit|]. simpl in H. rewrite Hother in H by done. by apply Hcells.
  - intros k'. destruct (decide (k' = k)) as [->|Hne].
    + simpl. rewrite Hpk. split.
      * intros [Hfx|[Hi Hw]]; [exists n, x.2; by rewrite lookup_insert_eq|].
        apply Hpermit in Hi as (n0 & c0 & H0 & Hf0). exists n0, c0. rewrite lookup_insert_ne; [done|]. intros ->.
        unfold was_fetching in Hw. by rewrite H0, Hf0 in Hw.
      * intros (n0 & c0 & H0 & Hf0). apply Hat in H0 as [(_ & _ & ->)|[Hne H0]]; [by left|right].
        split; [apply Hpermit; eauto|by eapply Hwas].
    + simpl. rewrite Hother by done. rewrite Hpermit. split; intros (n0 & c0 & H0 & Hf0); exists n0, c0.
      * rewrite lookup_insert_ne; [done|]. intros ->. by apply Hn in H0.
      * apply Hat in H0 as [(_ & -> & _)|[_ H0]]; done.
  - intros n1 n2 k' c1 c2 H1 H2 Hf1 Hf2. apply Hat in H1 as [(-> & -> & ->)|[Hne1 H1]], H2 as [(-> & Hk & ->)|[Hne2 H2]]; try done.
    + destruct (Hf Hf1) as [Hw|Hw]; [by rewrite (Hwas _ _ Hne2 H2 Hf2) in Hw|]. destruct Hw. apply Hpermit. eauto.
    + subst k'. destruct (Hf Hf2) as [Hw|Hw]; [by rewrite (Hwas _ _ Hne1 H1 Hf1) in Hw|]. destruct Hw. apply Hpermit. eauto.
    + by eapply Hone.
  - intros k' y H. destruct (Hnf k' y H) as [Ho|Ho]; [by eapply denied_app, Hden|done].
  - intros n0 k0 c0 H0. apply Hat in H0 as [(-> & -> & ->)|[_ H0]]; [done|]. by eapply caller_ok_app, Hcall.
Qed.

Lemma classify_ok l url i s : genuine (url, i) s → answer_ok l (url, i) (classify url s).
Proof.
  intros (Hid & Ht & Hty & Hr). unfold classify. simpl in *. destruct (references s) as [|r rs] eqn:E.
  - destruct (is_avro s) eqn:Ea; simpl; [split; [split_and!; [done..|by rewrite E]|done]|]. exists s. split; [|done]. split_and!; [done..|by rewrite E].
  - simpl. split; [by rewrite Hid|]. rewrite Hid. by rewrite <- Hr.
Qed.

Lemma lookup_sound w n url i : sound w → callers w !! n = None →
  sound (moves w n (url, i) (lookup url i (now w) (cache w)) []).
Proof.
  intros Hw Hn. pose proof (not_found_since_spec (url, i) (now w) NOT_FOUND_TTL (cache w)) as H. unfold Registry.lookup.
  destruct (not_found_since _ _ _ _) as [sc r]. destruct H as (Hids & Hnf & Hr).
  assert (Hwf : was_fetching w n = false) by (unfold was_fetching; by rewrite Hn).
  destruct r as [detail|]; apply moves_sound; simpl; rewrite ?Hids, ?Hwf; try done; try (intros ? ? H; rewrite Hn in H; done).
  - apply Hw.
  - naive_solver.
  - intros k' y H. left. by apply Hnf.
  - destruct Hr as [y Hy]; [done|]. rewrite app_nil_r. by eapply s_denied.
  - intros k' Hne. by rewrite lookup_insert_ne.
  - intros s. rewrite lookup_insert_eq. unfold cell_of. rewrite Hids. destruct (ids (cache w) !! (url, i)) eqn:E; simpl; [|done].
    intros [= ->]. by eapply s_cells.
  - rewrite lookup_insert_eq. unfold cell_of. rewrite Hids. destruct (ids (cache w) !! (url, i)); naive_solver.
  - intros k' y H. left. by apply Hnf.
Qed.

Lemma turn_sound w n url i : sound w → callers w !! n = Some ((url, i), Waiting) →
  sound (moves w n (url, i) (turn url i (now w) (cache w)) []).
Proof.
  intros Hw Hn. assert (Hwf : was_fetching w n = false) by (unfold was_fetching; by rewrite Hn).
  assert (Hk : ∀ k0 c0, callers w !! n = Some (k0, c0) → k0 = (url, i)) by (intros ? ? H; rewrite Hn in H; by simplify_eq).
  unfold turn. destruct (cell_of (url, i) (cache w)) as [| |s] eqn:Ec.
  - pose proof (not_found_since_spec (url, i) (now w) NOT_FOUND_TTL (cache w)) as H.
    destruct (not_found_since _ _ _ _) as [sc r]. destruct H as (Hids & Hnf & Hr).
    destruct r as [detail|]; apply moves_sound; simpl; rewrite ?Hids, ?Hwf; try done.
    + apply Hw.
    + naive_solver.
    + intros k' y H. left. by apply Hnf.
    + destruct Hr as [y Hy]; [done|]. rewrite app_nil_r. by eapply s_denied.
    + intros k' Hne. by rewrite lookup_insert_ne.
    + intros s. by rewrite lookup_insert_eq.
    + rewrite lookup_insert_eq. naive_solver.
    + intros _. right. unfold cell_of in Ec. intros H. by rewrite H in Ec.
    + intros k' y H. left. by apply Hnf.
  - apply moves_sound; simpl; rewrite ?Hwf; try done; [apply Hw|naive_solver|by left].
  - assert (Hs : ids (cache w) !! (url, i) = Some (Init s)) by (unfold cell_of in Ec; destruct (ids _ !! _) eqn:E; [by simpl in Ec; subst|done]).
    apply moves_sound; simpl; rewrite ?Hwf; try done; [apply Hw|naive_solver|by left|].
    apply classify_ok. by eapply s_cells.
Qed.

Lemma remember_sound w n url i detail : sound w → callers w !! n = Some ((url, i), Unknown detail) →
  sound (moves w n (url, i) (remember url i (now w) detail (cache w)) []).
Proof.
  intros Hw Hn. assert (Hwf : was_fetching w n = false) by (unfold was_fetching; by rewrite Hn).
  assert (Hk : ∀ k0 c0, callers w !! n = Some (k0, c0) → k0 = (url, i)) by (intros ? ? H; rewrite Hn in H; by simplify_eq).
  assert (Hd : denied (log w ++ []) (url, i)) by (rewrite app_nil_r; by apply (s_callers w Hw n _ _ Hn)).
  unfold remember. pose proof (not_found_since_spec (url, i) (now w) NOT_FOUND_TTL (cache w)) as H.
  destruct (not_found_since _ _ _ _) as [sc r]. destruct H as (Hids & Hnf & Hr).
  destruct r; apply moves_sound; simpl; rewrite ?Hids, ?Hwf; try done; [apply Hw|naive_solver| |apply Hw|naive_solver|].
  - intros k' y H. left. by apply Hnf.
  - intros k' y. intros [[<- _]|[_ H]]%lookup_insert_Some; [by right|left; by apply Hnf].
Qed.

Lemma parse_told url i r body raw what : honest url i (Answered r body) →
  parse from_slice excerpt url body what = Ok raw → told url i raw.
Proof.
  unfold parse, honest. intros H. destruct (from_slice body) as [raw'|] eqn:E; [|done].
  destruct (rs_schema raw') eqn:Es; [|done]. intros [= <-]. apply H; [done|]. by rewrite Es.
Qed.
Lemma told_genuine url i raw : told url i raw → genuine (url, i) (into_registered raw i).
Proof. intros (H1 & H2 & H3). split_and!; simpl; [done|by rewrite H1|done|done]. Qed.

(** With the permit, a lookup gives it up or keeps it. *)
Lemma fetched_sound w n url i x l : sound w → was_fetching w n = true → (∀ k0 c0, callers w !! n = Some (k0, c0) → k0 = (url, i)) →
  not_founds x.1 = not_founds (cache w) →
  (fetching x.2 = true ∧ ids x.1 = ids (cache w) ∨
   fetching x.2 = false ∧ (ids x.1 = <[(url, i) := Uninit]> (ids (cache w)) ∨
     ∃ s, genuine (url, i) s ∧ ids x.1 = <[(url, i) := Init s]> (ids (cache w)))) →
  caller_ok (moves w n (url, i) x l) (url, i) x.2 → sound (moves w n (url, i) x l).
Proof.
  intros Hw Hwf Hk Hnf Hids Hc. apply moves_sound; try done; rewrite ?Hwf; [| | |by left|by rewrite Hnf; left].
  - intros k' Hne. destruct Hids as [[_ ->]|[_ [->|(s & _ & ->)]]]; [done|by rewrite lookup_insert_ne..].
  - intros s. destruct Hids as [[_ ->]|[_ [->|(s' & Hs & ->)]]]; [apply Hw|by rewrite lookup_insert_eq|].
    rewrite lookup_insert_eq. by intros [= <-].
  - destruct Hids as [[-> ->]|[-> [->|(s' & Hs & ->)]]]; [|rewrite lookup_insert_eq; naive_solver..].
    split; [by left|]. intros _. apply (s_permit w Hw). unfold was_fetching in Hwf.
    destruct (callers w !! n) as [[k0 c0]|] eqn:E; [|done]. rewrite (Hk _ _ eq_refl) in E. eauto.
Qed.

Lemma received_sound w n url i delays attempts r : sound w → callers w !! n = Some ((url, i), Fetching delays attempts) →
  honest url i r → sound (moves w n (url, i) (received url i delays attempts r (cache w)) [((url, i), r)]).
Proof.
  intros Hw Hn Hhon. assert (Hwf : was_fetching w n = true) by (unfold was_fetching; by rewrite Hn).
  assert (Hk : ∀ k0 c0, callers w !! n = Some (k0, c0) → k0 = (url, i)) by (intros ? ? H; rewrite Hn in H; by simplify_eq).
  destruct (s_callers w Hw n _ _ Hn) as [Hdel Hatt]. unfold Registry.received, get_once.
  pose proof (try_get_spec error_from_slice excerpt status_text url (path_of i) r) as H.
  destruct (try_get _ _ _ _ _ r) as [[[body|detail]|e]|detail] eqn:Et.
  - destruct H as [_ (status & -> & _)%means_found]. destruct (parse _ _ _ _ _) as [raw|e] eqn:Ep.
    + pose proof (told_genuine _ _ _ (parse_told _ _ _ _ _ _ Hhon Ep)) as Hg.
      apply fetched_sound; simpl; try done; [right; eauto|]. by apply classify_ok.
    + apply fetched_sound; simpl; try done; [right; eauto|]. unfold parse in Ep.
      destruct (from_slice body); [destruct (rs_schema r)|]; by simplify_eq.
  - destruct H as [_ H]. destruct r as [| |status body]; [done..|]. apply means_not_found in H as [-> H].
    apply fetched_sound; simpl; try done; [right; eauto|]. exists body. split; [|done]. apply elem_of_app. right. by left.
  - apply try_get_err in Et as (f & d & ->). apply fetched_sound; simpl; try done. right; eauto.
  - destruct delays as [|d delays]; apply fetched_sound; simpl; try done; [right; eauto|by left|].
    assert (Hlt : (Z.to_nat (attempts - 1) < 3)%nat).
    { destruct (decide (Z.to_nat (attempts - 1) < 3)%nat); [done|]. rewrite (drop_ge RETRY_DELAYS) in Hdel by (simpl; lia). done. }
    split; [|lia]. replace (Z.to_nat (attempts + 1 - 1)) with (Z.to_nat (attempts - 1) + 1)%nat by lia.
    by rewrite <- drop_drop, <- Hdel.
Qed.

Lemma drop_sound w n url i c : sound w → callers w !! n = Some ((url, i), c) →
  sound {| cache := dropped url i c (cache w); now := now w; callers := delete n (callers w); log := log w |}.
Proof.
  intros [Hcells Hpermit Hone Hden Hcall] Hn.
  assert (Hat : ∀ n0 x, delete n (callers w) !! n0 = Some x → n0 ≠ n ∧ callers w !! n0 = Some x)
    by (intros n0 x [? ?]%lookup_delete_Some; done).
  split; simpl.
  - intros k s. unfold dropped. destruct c; simpl; try apply Hcells. intros [[<- ?]|[_ H]]%lookup_insert_Some; [done|by apply Hcells].
  - intros k. destruct (fetching c) eqn:Ef.
    + destruct c; try done. simpl. destruct (decide (k = (url, i))) as [->|Hne].
      * rewrite lookup_insert_eq. split; [done|]. intros (n0 & c0 & [Hn0 H0]%Hat & Hf). by destruct Hn0; eapply Hone.
      * rewrite lookup_insert_ne by done. rewrite Hpermit. split; intros (n0 & c0 & H0 & Hf); exists n0, c0.
        -- rewrite lookup_delete_ne; [done|]. intros ->. rewrite Hn in H0. by simplify_eq.
        -- by apply Hat in H0 as [_ ?].
    + assert (Hd : dropped url i c (cache w) = cache w) by (by destruct c). rewrite Hd, Hpermit.
      split; intros (n0 & c0 & H0 & Hf); exists n0, c0.
      * rewrite lookup_delete_ne; [done|]. intros ->. rewrite Hn in H0. simplify_eq. by rewrite Ef in Hf.
      * by apply Hat in H0 as [_ ?].
  - intros n1 n2 k c1 c2 [_ H1]%Hat [_ H2]%Hat. by eapply Hone.
  - intros k x. unfold dropped. destruct c; apply Hden.
  - intros n0 k c0 [_ H0]%Hat. exact (Hcall _ _ _ H0).
Qed.

Lemma offer_spec url s sc : not_founds (offer url s sc) = not_founds sc ∧
  (cell_of (url, id s) sc = Uninit ∧ ids (offer url s sc) = <[(url, id s) := Init s]> (ids sc) ∨
   ids (offer url s sc) = ids sc).
Proof.
  assert (Hc : cell_of (url, id s) (cell (url, id s) sc) = cell_of (url, id s) sc).
  { unfold cell_of at 1. simpl. by rewrite lookup_insert_eq. }
  unfold offer. cbv zeta. rewrite Hc. unfold cell, cell_of.
  destruct (ids sc !! (url, id s)) as [[| |s0]|] eqn:E; simpl; (split; [done|]).
  - left. split; [done|]. by rewrite insert_insert_eq.
  - right. by apply insert_id.
  - right. by apply insert_id.
  - left. split; [done|]. by rewrite insert_insert_eq.
Qed.
Lemma cache_sound w sc t : sound w → (∀ k s, ids sc !! k = Some (Init s) → genuine k s) →
  (∀ k, ids sc !! k = Some Initialising ↔ ids (cache w) !! k = Some Initialising) → not_founds sc = not_founds (cache w) →
  sound {| cache := sc; now := t; callers := callers w; log := log w |}.
Proof.
  intros [Hcells Hpermit Hone Hden Hcall] Hinit Hi Hnf. split; simpl; try done.
  - intros k. rewrite Hi. apply Hpermit.
  - rewrite Hnf. apply Hden.
Qed.
Lemma latest_sound w url subject answers : sound w → (∀ n, honest_latest url (answers n)) →
  sound {| cache := (latest url subject answers (cache w)).1; now := now w; callers := callers w; log := log w |}.
Proof.
  intros Hw Hhon. assert (Hsame : sound {| cache := cache w; now := now w; callers := callers w; log := log w |})
    by (apply cache_sound; [done|apply Hw|done|done]).
  unfold Registry.latest, Registry.get.
  pose proof (get_from_spec error_from_slice excerpt status_text url ("/subjects/" +:+ subject +:+ "/versions/latest") RETRY_DELAYS 1 answers) as H.
  destruct (get_from _ _ _ _ _ _ _ _) as [r m]. destruct H as (k & _ & _ & _ & H). destruct r as [[body|detail]|e]; [|done..]. simpl.
  destruct H as [[_ H]|(_ & _ & e & ? & _)]; [|done]. specialize (Hhon k).
  apply means_found in H as (status & Ha & _). rewrite Ha in Hhon. destruct (parse _ _ _ _ _) as [raw|e] eqn:Ep; [|done].
  destruct (rs_id raw) as [i|] eqn:Ei; [|done]. simpl.
  assert (Hg : genuine (url, i) (into_registered raw i)).
  { apply told_genuine. unfold parse in Ep. destruct (from_slice body) as [raw'|] eqn:E; [|done].
    destruct (rs_schema raw') eqn:Es; [|done]. injection Ep as ->. apply Hhon; [done|by rewrite Es|done]. }
  destruct (offer_spec url (into_registered raw i) (cache w)) as [Hnf Hids]. apply cache_sound; [done| | |done].
  - intros k0 s0 Hk0. destruct Hids as [[_ Hids]|Hids]; rewrite Hids in Hk0; [|by eapply s_cells].
    apply lookup_insert_Some in Hk0 as [[<- [= <-]]|[_ Hk0]]; [done|by eapply s_cells].
  - intros k0. destruct Hids as [[Hn Hids]|Hids]; rewrite Hids; [|done]. rewrite lookup_insert. case_decide; [subst k0|done].
    split; [done|]. intros H0. unfold cell_of in Hn. by rewrite H0 in Hn.
Qed.

Lemma step_sound w w' : sound w → step w w' → sound w'.
Proof.
  intros Hw [n url i H|n url i H|n url i delays attempts r H Hh|n url i detail H|n url i c H|url subject answers H|d H].
  - by apply lookup_sound.
  - by apply turn_sound.
  - by apply received_sound.
  - by apply remember_sound.
  - by apply drop_sound.
  - by apply latest_sound.
  - apply cache_sound; [done|apply Hw|done|done].
Qed.
Lemma reachable_sound w : reachable w → sound w.
Proof.
  intros [t H]. assert (Hs : sound (start t)).
  { split; simpl; try done. intros k. rewrite lookup_empty. split; [done|]. intros (n & c & H0 & _). by rewrite lookup_empty in H0. }
  induction H as [|x y z Hxy _ IH]; [done|]. by apply IH; eapply step_sound.
Qed.

(** *** What it comes to *)

Definition not_avro (url : string) (i : Z) : Prop := match type_of url i with Some t => t ≠ "AVRO"%string | None => False end.
Lemma answer_registered l url i m a : answer_ok l (url, i) a → has_id i m = true → registered (text_of url) (not_avro url) (m, a).
Proof.
  intros Ha Hm j Hj. assert (j = i) as ->.
  { unfold has_id in *. simpl in Hj. destruct (frame _); [|done]. lia. }
  destruct a as [[s|reason []]|e]; simpl in *; [|..|done|done].
  - destruct Ha as ((Hid & Ht & _) & _). done.
  - destruct Ha as (s & (_ & _ & Hty & _) & Hav). unfold is_avro, not_avro in *. simpl in Hty. rewrite <- Hty.
    destruct (schema_type s); [|done]. by apply bool_decide_eq_false_1 in Hav.
Qed.

(** C28: Whatever lookups run beside each other, are dropped or fail, one that ends has the
    registry's own schema of the id it asked for, an Avro one without references; or finds the
    id undecodable, for good only if its schema is not Avro, and otherwise only because the
    registry said itself that it has no such id; or an error that says neither. So it answers
    the decoder as the decoder asks of a registry. *)
Theorem every_answer_is_the_registrys w n url i a m : reachable w → callers w !! n = Some ((url, i), Over a) →
  answer_ok (log w) (url, i) a ∧ (has_id i m = true → registered (text_of url) (not_avro url) (m, a)).
Proof.
  intros Hw Hn. pose proof (s_callers w (reachable_sound w Hw) n _ _ Hn) as Ha. split; [done|]. by eapply answer_registered.
Qed.

Lemma known_step w w' k s : sound w → step w w' → ids (cache w) !! k = Some (Init s) →
  ids (cache w') !! k = Some (Init s) ∧ ∃ l, log w' = log w ++ l ∧ Forall (λ x, x.1 ≠ k) l.
Proof.
  intros Hw Hstep Hk. assert (Hfree : ∀ n c, callers w !! n = Some (k, c) → fetching c = true → False).
  { intros n c Hn Hf. assert (H : ids (cache w) !! k = Some Initialising) by (apply (s_permit w Hw); eauto). by rewrite Hk in H. }
  assert (Hnone : ∃ l : list (CacheKey * Response), log w = log w ++ l ∧ Forall (λ x, x.1 ≠ k) l) by (exists []; by rewrite app_nil_r).
  assert (Hset : ∀ k' c, k' ≠ k ∨ c = Init s → <[k' := c]> (ids (cache w)) !! k = Some (Init s)).
  { intros k' c Hc. rewrite lookup_insert. case_decide; [|done]. destruct Hc as [?| ->]; [by subst|done]. }
  assert (Hcell : ∀ k', k' ≠ k ∨ cell_of k' (cache w) = Init s).
  { intros k'. destruct (decide (k' = k)) as [->|]; [right|by left]. unfold cell_of. by rewrite Hk. }
  assert (Hsince : ∀ k0, ids (not_found_since k0 (now w) NOT_FOUND_TTL (cache w)).1 = ids (cache w)).
  { intros k0. pose proof (not_found_since_spec k0 (now w) NOT_FOUND_TTL (cache w)) as H. destruct (not_found_since _ _ _ _). apply H. }
  destruct Hstep as [n url i H|n url i H|n url i delays attempts r H Hh|n url i detail H|n url i c H|url subject answers H|d H]; simpl.
  - split; [|exists []; by rewrite app_nil_r]. unfold Registry.lookup. specialize (Hsince (url, i)).
    destruct (not_found_since _ _ _ _) as [sc [detail|]]; simpl in *; [by rewrite Hsince|]. rewrite Hsince. apply Hset.
    destruct (Hcell (url, i)) as [|Hc]; [by left|right]. unfold cell_of in *. by rewrite Hsince.
  - split; [|exists []; by rewrite app_nil_r]. unfold turn. specialize (Hsince (url, i)).
    destruct (cell_of (url, i) (cache w)) eqn:Ec; [|done..].
    destruct (not_found_since _ _ _ _) as [sc [detail|]]; simpl in *; rewrite Hsince; [done|]. apply Hset. left. intros <-.
    destruct (Hcell (url, i)) as [|Hc]; [done|]. by rewrite Ec in Hc.
  - assert (Hne : (url, i) ≠ k) by (intros <-; by apply (Hfree n _ H)). split; [|exists [((url, i), r)]; split; [done|by repeat constructor]].
    unfold Registry.received. destruct (get_once _ _ _ _ _ _ _ _) as [[[body|detail]|e]|[ds at_]]; simpl; try (apply Hset; by left); [|done].
    destruct (parse _ _ _ _ _); apply Hset; by left.
  - split; [|exists []; by rewrite app_nil_r]. unfold remember. specialize (Hsince (url, i)).
    destruct (not_found_since _ _ _ _) as [sc [d|]]; simpl in *; by rewrite Hsince.
  - split; [|done]. destruct c; simpl; try done. apply Hset. left. intros <-. by apply (Hfree n _ H).
  - split; [|done]. unfold Registry.latest. destruct (get _ _ _ _ _ _).1 as [[body|detail]|e]; [|done..].
    destruct (parse _ _ _ _ _) as [raw|e]; [|done]. destruct (rs_id raw) as [i|]; [|done]. simpl.
    destruct (offer_spec url (into_registered raw i) (cache w)) as [_ [[Hun Hids]|Hids]]; rewrite Hids; [|done].
    apply Hset. left. intros <-. change (id (into_registered raw i)) with i in Hun.
    destruct (Hcell (url, i)) as [|Hc]; [done|]. by rewrite Hc in Hun.
  - by split.
Qed.

(** C29: An id is fetched by one lookup at a time, and once its schema is known it stays, the
    same for every lookup from then on, and is never asked for again. *)
Theorem a_known_schema_is_never_asked_for_again w w' k s : reachable w → rtc step w w' →
  (∀ n n' c c', callers w !! n = Some (k, c) → callers w !! n' = Some (k, c') → fetching c = true → fetching c' = true → n = n') ∧
  (ids (cache w) !! k = Some (Init s) →
    ids (cache w') !! k = Some (Init s) ∧ ∃ l, log w' = log w ++ l ∧ Forall (λ x, x.1 ≠ k) l).
Proof.
  intros Hw Hrun. pose proof (reachable_sound w Hw) as Hs. split; [intros n n' c c'; apply (s_one w Hs n n' k c c')|]. clear Hw.
  induction Hrun as [w|w1 w2 w3 H12 _ IH]; intros Hk; [split; [done|]; exists []; by rewrite app_nil_r|].
  destruct (known_step w1 w2 k s Hs H12 Hk) as (Hk2 & l & Hl & Hne). destruct (IH (step_sound _ _ Hs H12) Hk2) as (Hk3 & l' & Hl' & Hne').
  split; [done|]. exists (l ++ l'). split; [by rewrite Hl', Hl, app_assoc|by apply Forall_app].
Qed.
End World.

(** ** The writer schemas of the union *)

Section Subject.
Context (url : string) (texts : Z → string).

Definition schema_of (i : Z) (s : RegisteredSchema) : Prop := id s = i ∧ text s = texts i.
(** Each schema is under its id, with the text the registry has. *)
Definition well (ss : SubjectSchemas) : Prop :=
  map_Forall schema_of (latests ss) ∧ map_Forall schema_of (seen ss).
Definition answer_well (answer : result Error (option RegisteredSchema)) : Prop :=
  match answer with Ok (Some s) => text s = texts (id s) | _ => True end.
Definition ids_of (ss : SubjectSchemas) : list Z := id <$> members ss.

Lemma newest_first_perm (l : list RegisteredSchema) : newest_first id l ≡ₚ l.
Proof.
  induction l as [|s l IH]; [done|]. simpl. rewrite <- IH at 2. generalize (newest_first id l). clear. intros l.
  induction l as [|x l IH]; [done|]. simpl. destruct (id x <=? id s); [done|]. rewrite IH. apply Permutation_swap.
Qed.
Lemma members_spec ss : well ss → StronglySorted (λ a b, id b < id a) (members ss) ∧
  Forall (λ s, text s = texts (id s)) (members ss) ∧
  ∀ i, i ∈ ids_of ss ↔ is_Some (latests ss !! i) ∨ is_Some (seen ss !! i).
Proof.
  intros [Hl Hs]. assert (Hm : map_Forall schema_of (seen ss ∪ latests ss)) by by apply map_Forall_union_2.
  unfold ids_of, members. set (m := seen ss ∪ latests ss) in *.
  assert (Hids : id <$> (snd <$> map_to_list m) = fst <$> map_to_list m).
  { rewrite <- list_fmap_compose. apply list_fmap_ext. intros j [i s] Hj. simpl. apply list_elem_of_lookup_2, elem_of_map_to_list in Hj.
    apply (Hm i s Hj). }
  split_and!.
  - pose proof (newest_first_sorted id (λ _, Ok []) (λ _, None) (map_to_list m).*2) as Hsort.
    assert (Hnd : NoDup (id <$> newest_first id (map_to_list m).*2)).
    { rewrite newest_first_perm, Hids. apply NoDup_fst_map_to_list. }
    induction Hsort as [|x l _ IH Hle]; [constructor|]. csimpl in Hnd. apply NoDup_cons in Hnd as [Hx Hnd]. constructor; [by apply IH|].
    rewrite Forall_forall in Hle |- *. intros y Hy. specialize (Hle y Hy). destruct (decide (id y = id x)) as [E|]; [|simpl in *; lia].
    destruct Hx. rewrite <- E. by apply list_elem_of_fmap_2.
  - rewrite newest_first_perm. apply Forall_fmap, Forall_forall. intros [i s] Hi%elem_of_map_to_list. simpl.
    destruct (Hm i s Hi) as [-> ->]. done.
  - intros i. rewrite newest_first_perm, Hids. split.
    + intros ([i' s] & -> & Hi%elem_of_map_to_list)%list_elem_of_fmap. simpl. apply lookup_union_Some_raw in Hi as [Hi|[_ Hi]]; eauto.
    + intros H. assert (Hi : is_Some (m !! i)) by (apply lookup_union_is_Some; tauto). destruct Hi as [s Hi].
      apply elem_of_map_to_list in Hi. apply list_elem_of_fmap. by exists (i, s).
Qed.

Lemma refresh_well answer ss : well ss → answer_well answer →
  let '(ss', r) := refresh_latest url answer ss in
  well ss' ∧ seen ss' = seen ss ∧ (is_ok r = false → ss' = ss) ∧ ∀ i, is_Some (latests ss !! i) → is_Some (latests ss' !! i).
Proof.
  intros [Hl Hs] Ha. destruct answer as [[s|]|e]; simpl; [|split_and!; done..]. split_and!; [|done|done|].
  - split; simpl; [|done]. destruct (classify url s) as [[s'|]|]; [|done..]. by apply map_Forall_insert_2.
  - intros i Hi. destruct (classify url s) as [[s'|]|]; [|done..]. rewrite lookup_insert. case_decide; [by eexists|done].
Qed.

(** The union's schemas are the registered ones, newest first and each once; recording one
    a message was decoded with keeps all there were and has its id among them, answers whether
    that is new, and after an error is as if it had not been tried. *)
Theorem the_union_keeps_what_it_has s answer ss : well ss → text s = texts (id s) → answer_well answer →
  let '(ss', r) := observe url s answer ss in
  well ss' ∧ StronglySorted (λ a b, id b < id a) (members ss') ∧ Forall (λ s, text s = texts (id s)) (members ss') ∧
  match r with
  | Err _ => ss' = ss
  | Ok gained => id s ∈ ids_of ss' ∧ ids_of ss ⊆ ids_of ss' ∧ (gained = true ↔ id s ∉ ids_of ss) ∧
                 (gained = false → ids_of ss' ⊆ ids_of ss)
  end.
Proof.
  intros Hw Hs Ha. assert (Hsee : ∀ ss, well ss → well (see s ss)) by (intros ss0 [? ?]; split; [done|by apply map_Forall_insert_2]).
  pose proof (members_spec ss Hw) as (_ & _ & Hids). unfold observe.
  assert (Hx : ∀ ss', well ss' → StronglySorted (λ a b, id b < id a) (members ss') ∧ Forall (λ s, text s = texts (id s)) (members ss'))
    by (intros ss0 H0; split; apply members_spec; done).
  destruct (seen ss !! id s) as [s0|] eqn:E1; [|destruct (latests ss !! id s) as [s0|] eqn:E2].
  - split_and!; [done|by apply Hx|by apply Hx|rewrite Hids, E1; by right; eexists|done| |done].
    split; [done|]. intros H. destruct H. rewrite Hids, E1. by right; eexists.
  - specialize (Hsee ss Hw). pose proof (members_spec _ Hsee) as (_ & _ & Hids'). split_and!; [done|by apply Hx|by apply Hx|..].
    + rewrite Hids'. left. by exists s0.
    + intros i. rewrite Hids, Hids'. simpl. rewrite lookup_insert. intros [H|H]; [by left|right]. case_decide; [by eexists|done].
    + split; [done|]. intros H. destruct H. rewrite Hids, E2. by left; eexists.
    + intros _ i. rewrite Hids, Hids'. simpl. rewrite lookup_insert. intros [H|H]; [by left|]. case_decide; [subst i; left; by eexists|by right].
  - pose proof (refresh_well answer ss Hw Ha) as H. destruct (refresh_latest url answer ss) as [ss1 r]. destruct H as (Hw1 & Hseen & Herr & Hlat).
    destruct r as [[]|e]; [|split_and!; [done|by apply Hx|by apply Hx|by apply Herr]].
    specialize (Hsee ss1 Hw1). pose proof (members_spec _ Hsee) as (_ & _ & Hids'). split_and!; [done|by apply Hx|by apply Hx|..].
    + rewrite Hids'. right. simpl. rewrite lookup_insert_eq. by eexists.
    + intros i. rewrite Hids, Hids'. simpl. rewrite Hseen, lookup_insert. intros [H|H]; [left; by apply Hlat|right]. case_decide; [by eexists|done].
    + split; [|done]. intros _. rewrite Hids, E1, E2. by intros [[? ?]|[? ?]].
    + done.
Qed.
End Subject.

(** ** A run *)

Module Toy.
Definition from_slice (body : list Z) : option RawSchema :=
  match body with
  | [0] => Some {| rs_schema := Some "{}"%string; rs_schema_type := None; rs_references := None; rs_id := Some 1; rs_subject := None; rs_version := None |}
  | _ => None
  end.
Definition error_from_slice (body : list Z) : option RawError :=
  match body with [4] => Some {| error_code := Some 40403; message := None |} | _ => None end.
Definition none (b : list Z) : string := EmptyString.
Definition text_of (u : string) (i : Z) : string := "{}".
Definition key : CacheKey := ("http://sr"%string, 1).
Abbreviation step := (step from_slice error_from_slice none show_Z text_of (λ _ _, None) (λ _ _, [])).
Abbreviation reachable := (reachable from_slice error_from_slice none show_Z text_of (λ _ _, None) (λ _ _, [])).

Definition asks (n : nat) (w : World) : World := moves w n key (Registry.lookup key.1 key.2 (now w) (cache w)) [].
Definition takes_turn (n : nat) (w : World) : World := moves w n key (turn key.1 key.2 (now w) (cache w)) [].
Definition hears (n : nat) (delays : list Z) (attempts : Z) (r : Response) (w : World) : World :=
  moves w n key (received from_slice error_from_slice none show_Z key.1 key.2 delays attempts r (cache w)) [(key, r)].

(** One that is answered after an outage, and another one that asks then. *)
Definition fetched : World :=
  hears 0 [500; 2000] 2 (Answered 200 [0]) (hears 0 RETRY_DELAYS 1 (Answered 503 []) (takes_turn 0 (asks 0 (start 0)))).
Definition shared : World := takes_turn 1 (asks 1 fetched).
Definition schema : RegisteredSchema :=
  {| id := 1; text := "{}"; schema_type := None; references := []; subject := None; version := None |}.

Lemma honest_toy r : honest from_slice text_of (λ _ _, None) (λ _ _, []) key.1 key.2 r.
Proof.
  destruct r as [| |status body]; try done. intros raw. unfold from_slice.
  destruct body as [|[] [|]]; try done. by intros [= <-] _.
Qed.
Lemma fetched_reachable : reachable fetched.
Proof.
  exists 0. eapply rtc_l; [by apply (step_lookup _ _ _ _ _ _ _ _ 0%nat key.1 key.2)|].
  eapply rtc_l; [by apply (step_turn _ _ _ _ _ _ _ _ 0%nat key.1 key.2)|].
  eapply rtc_l; [by apply (step_received _ _ _ _ _ _ _ _ 0%nat key.1 key.2 RETRY_DELAYS 1 (Answered 503 [])); [|apply honest_toy]|].
  eapply rtc_l; [by apply (step_received _ _ _ _ _ _ _ _ 0%nat key.1 key.2 [500; 2000] 2 (Answered 200 [0])); [|apply honest_toy]|].
  apply rtc_refl.
Qed.
Lemma shared_follows : rtc step fetched shared.
Proof.
  eapply rtc_l; [by apply (step_lookup _ _ _ _ _ _ _ _ 1%nat key.1 key.2)|].
  eapply rtc_l; [by apply (step_turn _ _ _ _ _ _ _ _ 1%nat key.1 key.2)|]. apply rtc_refl.
Qed.
Lemma every_answer_is_the_registrys_witness :
  answer_ok error_from_slice text_of (λ _ _, None) (λ _ _, []) (log fetched) key (Ok (Avro schema)).
Proof.
  apply (every_answer_is_the_registrys from_slice error_from_slice none show_Z text_of (λ _ _, None) (λ _ _, []) fetched 0 key.1 key.2
           (Ok (Avro schema)) {| m_partition := 0; m_offset := 0; m_timestamp := NotAvailable; m_key := None; m_value := None; m_headers := [] |}).
  - apply fetched_reachable.
  - by vm_compute.
Defined.
Lemma a_known_schema_is_never_asked_for_again_witness :
  ids (cache shared) !! key = Some (Init schema) ∧ ∃ l, log shared = log fetched ++ l ∧ Forall (λ x, x.1 ≠ key) l.
Proof.
  apply (a_known_schema_is_never_asked_for_again from_slice error_from_slice none show_Z text_of (λ _ _, None) (λ _ _, []) fetched shared key schema).
  - apply fetched_reachable.
  - apply shared_follows.
  - by vm_compute.
Defined.

(** Of two that wait for an id the registry does not know, the second may find the cell free
    before the first has remembered the answer, and asks again. *)
Definition denied_once : World :=
  hears 0 RETRY_DELAYS 1 (Answered 404 [4]) (takes_turn 0 (asks 1 (asks 0 (start 0)))).
Example a_waiter_may_ask_again :
  (snd <$> callers (takes_turn 1 denied_once) !! 1%nat) = Some (Fetching RETRY_DELAYS 1) ∧
  (snd <$> callers denied_once !! 0%nat) = Some (Unknown "HTTP 404, error_code 40403").
Proof. by vm_compute. Qed.

Lemma the_union_keeps_what_it_has_witness :
  let ss := {| latests := ∅; latest_id := None; seen := ∅ |} in
  let '(ss', r) := observe key.1 schema (Ok None) ss in
  well (λ _, "{}"%string) ss' ∧ StronglySorted (λ a b, id b < id a) (members ss') ∧
  Forall (λ s, text s = "{}"%string) (members ss') ∧
  match r with
  | Err _ => ss' = ss
  | Ok gained => 1 ∈ ids_of ss' ∧ ids_of ss ⊆ ids_of ss' ∧ (gained = true ↔ 1 ∉ ids_of ss) ∧ (gained = false → ids_of ss' ⊆ ids_of ss)
  end.
Proof. apply (the_union_keeps_what_it_has key.1 (λ _, "{}"%string) schema (Ok None)); done. Defined.
End Toy.
